(* ===== verification/_CoqProject ===== *)
-Q . S2P
Prelude.v
Wp.v
Handle.v
Verify.v
Reachability.v
IntentTypes.v
Intent.v
IntentSpec.v
IntentProps.v
Contract.v
Sector.v
Hashmap.v
HashmapSpec.v
HashmapMap.v
HashmapProps.v
Stores.v
LinkedList.v
Cache.v
Registry.v
RegistrySpec.v
BlobStore.v
NodeRepo.v
NodeCommit.v
NodeProps.v
NodeRollback.v
NodeInstance.v
NodeClaims.v
RegistryProps.v
NodeFindings.v
Locks.v
TwoPhase.v
ItemTracker.v
ItemLocks.v
ItemProps.v
TwoPhaseCommit.v
TxLog.v
TxLogProps.v
TwoPhaseProps.v
MemLocks.v
TwoPhaseLife.v
TwoPhaseClaims.v
TwoPhaseInstance.v
TxLogFindings.v
FsLog.v
FsLogFindings.v
FileTree.v
StoreJson.v
Replication.v
StoreRepo.v
ReplicationProps.v
StoreRepoProps.v
Reinstate.v
StoreRepoFindings.v
ReplicationFindings.v
EcStore.v
EcFindings.v
AuditLog.v
Governance.v
Gateway.v
Billing.v
Rbac.v
Identity.v
L1Cache.v
NodeLocal.v
NodeLocalFindings.v
ItemFindings.v
BtreeModel.v
BtreeOps.v
BtreeSpec.v
BtreeCells.v
BtreeRun.v
BtreeSplit.v
BtreeClimb.v
BtreeDescent.v
BtreeAdd.v
BtreeProps.v
BtreeInsert.v
BtreeWalk.v
Inmemory.v
BtreeExamples.v
