(* ===== verification/Prelude.v ===== *)
(** * Verification of the Joltrin barrier and of the storage engine below it

    Joltrin is a Go system in three layers: a barrier that lets an agent act only by
    declared workflows and by the grants of an owner (src/verify, src/intent); a
    governance layer around it, with policies, audit, identities, limits and billing
    (src/governance, src/rbac*.go); and a storage engine, B-trees over a registry of
    handles with transactions, caches, logs and replication (src/btree, src/inmemory,
    src/common, src/fs, src/cache).  This library models the core of the three and
    proves what makes it correct.

    ** Files, and the code they model

    Foundations.
    - Prelude: results, the state-and-error monad [M], fixed-width integers, byte
      strings, the orders in which a map is ranged over, tactics.  Wp: postconditions
      of calls in [M] ([wp], [wlp], [moves]) and their rules.
    - Handle: src/handle.go, src/uuid.go, src/encoding/handle.go, the handle payloads
      of src/repository.go.  The handle with its two physical IDs, staging, expiry and
      swap, and its 62-byte encoding.

    The barrier.
    - Verify, Reachability: src/verify/verify.go, reachability.go.  A trace is the
      state; Commit, CheckAndCommit and CheckAndCommitIdempotent are its operations;
      the static check is the backward fixpoint over the steps.
    - IntentTypes, Intent, IntentSpec, IntentProps: src/intent/types.go, vault.go,
      attest.go, engine.go, receipt.go.  The vault of rules, the engine that evaluates
      an action and spends approvals, receipts and the guard; IntentSpec has the
      owner's policy as a specification, IntentProps that the engine refines it.
    - Contract: src/intent/contract.go, suggest.go.

    Governance.
    - AuditLog: src/governance/audit.go, audit_ed25519.go, pii.go.  The hash chain of
      events, which are objects shared with whoever queries them.
    - Governance: tier.go, policy.go.  A manifest compiles to a workflow of Verify; an
      evaluation commits to a trace and records an event in AuditLog.
    - Gateway: gateway.go, workspace.go.  Billing: billing.go.  Identity: identity.go.
      Rbac: src/rbac.go, rbac_registry.go, rbac_blueprint.go.

    Registry and blobs.
    - Sector: src/fs/marshaldata.go, hashmap.cow.go and the block functions of
      hashmap.fileregion.go.  Functions are programs of requests to a disk; the
      relation [behaves] lets any request fail, tear a write, or crash.
    - Hashmap: src/fs/hashmap.go, registrymap.go and the region functions of
      hashmap.fileregion.go, on top of Handle and Sector.  HashmapSpec reads blocks as
      slots, HashmapMap reads tables as maps, HashmapProps has the theorems.
    - LinkedList, Cache: src/cache/doublylinkedlist.go, mru.go, cache.go.  Nodes in a
      heap, refined to a list; the index and that list, refined to a list of keys and
      values in the order of use.  L1Cache: l1cache.go, l1mru.go, on the same list.
    - Stores: the registry and the blob store of src/repository.go as type classes
      with classes of laws.  Registry, RegistrySpec: src/fs/registry.go over Hashmap
      and Cache, an instance of the registry's laws; RegistryProps: from a new registry
      on disk and its caches on, its calls refine those on a map.  BlobStore: src/fs/blobstore.go, an instance of the
      blob store's.  EcStore, EcFindings: src/fs/blobstore.withec.go, src/fs/erasure.

    Transactions.
    - NodeLocal, NodeLocalFindings: src/common/noderepository.frontend.go and the reads
      of noderepository.backend.go, the nodes a transaction has before its commit.
    - NodeRepo, NodeCommit, NodeProps, NodeRollback, NodeClaims, NodeFindings: the
      staging, finalisation and rollback of nodes of noderepository.backend.go, over
      the classes of Stores.  NodeInstance: the registry and blob store on disk.
    - Locks: src/cache/l2inmemorycache.go (locks) and its sharded map; calls are
      programs over the atomic operations of the map, and [step] interleaves any
      number of callers.  MemLocks: these locks obey the laws a commit relies on.
    - ItemTracker, ItemLocks, ItemProps, ItemFindings: src/common/itemactiontracker.go
      and itemactiontracker.valuedata.go.
    - TwoPhase, TwoPhaseCommit: src/common/twophasecommittransaction.go and
      twophasecommittransaction2.go over NodeRepo, and over type classes for the locks
      ([Locker]), the logs ([TransactionLog]), the store repository and the opened
      B-trees.  TwoPhaseProps, TwoPhaseLife prove the invariants of the
      calls, TwoPhaseClaims the theorems; TwoPhaseInstance runs them over NodeInstance
      and MemLocks.
    - TxLog, TxLogProps, TxLogFindings: src/common/transactionlogger.go, the recovery.
    - FsLog, FsLogFindings: src/fs/transactionlog.go, transactionprioritylog.go,
      instances of the classes of logs.

    Stores and replication.
    - FileTree: src/fs/fileio.go with src/internal/pathsafety.  StoreJson: the JSON of
      src/storeinfo.go up to the two numbers that an update patches.
    - Replication, ReplicationProps, ReplicationFindings: src/fs/replicationtracker.go.
      StoreRepo, StoreRepoProps, StoreRepoFindings: src/fs/storerepository.go.
      Reinstate: storerepository.copier.go, replicationtracker.reinstatefaileddrives.go.

    B-trees.
    - BtreeModel, BtreeOps: src/btree/node.go, node.handlenilchild.go, btree.go.  The
      heap of nodes, the repository, the tracker (a type class) and the cursor are the
      state; every node and tree operation is a function in [M].  BtreeSpec has the
      sorted list and the invariant [tree_inv]; BtreeCells, BtreeRun, BtreeSplit,
      BtreeClimb, BtreeDescent, BtreeAdd prove the steps of search and insertion;
      BtreeProps and BtreeInsert have the theorems; BtreeWalk proves the cursor's way
      from an item to the next; BtreeExamples has runs, instances and findings.
    - Inmemory: src/inmemory/instantiatebtree.go, iterate.go, and the slot length of
      src/storeinfo.go, a client of the B-tree.

    ** What the theorems show

    - Barrier: in every reachable trace a step is preceded by what it requires; the
      check is exact, blocked attempts leave no trace but their count, a retry with
      the same key replays; the static check is exact and ends.
    - Intent: the verdict is the policy's, whatever the order of the maps; approvals
      and receipts are used once; rules stay valid and revoked ones revoked; scope
      locks keep their budget; claims are checked exactly.
    - Governance: a step is allowed exactly if the manifest's roles and preconditions
      allow it, and then the trace and the log have it; the head of the audit chain
      commits to all events; the limiter never holds more than its buckets; a workspace
      quota is kept; a webhook is authentic and takes effect once.
    - Handles and blocks: round trips of the encodings; an update of a block is atomic
      under failures and crashes at any point, and recovery is exact.
    - Registry and blobs: a table is a map from IDs to handles, on disk and behind the
      caches, for IDs within reach of a search that writes; an erasure-coded blob is
      read back while at most as many shards are lost as there are parity shards.
    - Caches: the MRU and L1 caches equal their references for any operations; a read
      outside the lock of the L1 cache gives a node that was set, or none; a held lock
      excludes every other caller under any interleaving while its shard has room.
    - Transactions: staging and the write of the turned handles publish all nodes of a
      commit or none; rollback restores; nodes that nobody comes back for are free
      after an hour; phase 1 ends, and holds the locks of all nodes it writes; a
      transaction that is done holds no lock; a transaction reads what it wrote; a
      crashed transaction is undone from its logs, or its cleanup is
      finished, and the logs are read back as they were written.
    - Stores and replication: an update of counts changes all stores or none; a
      tracker that failed to replicate a store replicates no more; a failover survives
      a restart.
    - B-tree: Find, First, Last and Add are exact, insertions refine a sorted list
      through splits and promotions of any depth, All visits the items in order.

    What a theorem takes for granted of its input, as the order in which the registry
    answers or the length of a line, its comment says; where the code does otherwise
    outside of that, a run shows it.

    The files named Findings hold closed runs, proved by evaluation, where the code
    departs from its intent or its comments.

    ** Fuel and bounds

    The B-tree's recursion has fuel, and running out of it panics, so that each
    theorem that gives a result also gives termination.  The height of a tree is at
    most its number of items, so [length l + 2 < fuel] is enough to add and
    [2 * length l <= fuel] to move on, and [S (length l) < rounds] turns are enough
    for All.  Phase 1 and a reader's commit run with fuel for their turns, and 331
    turns are enough for phase 1 whatever its environment does; the store repository
    asks six times for its locks.  The eviction loop of the caches takes one turn per
    node and one more; the search of the registry has one turn per slot and segment;
    the fixpoint of the static check one round per state; the reinstatement takes one
    turn per round of logs, and a turn more than its fuel panics.  IDs are drawn from a stream, and a
    theorem that needs them new says for how many draws.  The scanner of a log reads
    lines of up to 64 KB, and the round trip says so.  Integers are [Z] with explicit
    wrap-around where their width matters (versions, bytes, hashes, ages); the rates
    of the limiter are IEEE doubles.

    ** Parameters

    Ed25519, SHA-256, HMAC, MD5, the Reed-Solomon code, base64, JSON, path.Match,
    strings.Fields and strings.TrimSpace, the regexp patterns of the redaction, the
    texts of IDs and hours, the functions of filepath, uuid.FromBytes, the IDs that
    are drawn and the clock are arguments, with documented behaviour as hypotheses
    where it is used: the round trip of a code, distinct paths for distinct names,
    sums that tell two inputs apart, a code that rebuilds its missing shards.  The
    comparer of a B-tree is an argument with the laws of a total order.  Each theorem
    with such hypotheses is applied to concrete functions.

    ** Not modelled, and why

    - JSON beyond the head of a store, AES-GCM and the files of the vault, the Sign
      functions, the export of the audit log: calls of the standard library.
    - B-tree: the exactness of removal, of moves to the previous item and of leaf load
      balancing (their definitions are here and run in the examples), marshalling of
      nodes, schema inference; errors of a remote node repository; the default
      comparer, and the wrappers for cursors and transactions, which delegate.
    - The cached data of the in-memory L2 cache (its locks are here); the registry's
      Replicate and the writing of the log of commit changes; the services that run
      when a transaction is idle, but for the sweep of logs.
    - Billing: calls of the provider's API, inquiries, and the store over B-trees,
      which forwards to transactions.
    - src/infs, src/incfs, src/inredck, src/database, src/streamingdata, src/search,
      src/jsondb, src/cel: clients of the B-tree and of transactions.  src/adapters,
      src/netguard, src/logsafe: bindings to other systems and guards of the network.
      src/ai, src/tools, commands, bindings and demos: agents, servers and samples on
      top of the core. *)

From stdpp Require Export base tactics option list gmap strings fin_maps orders sorting numbers relations.
From Stdlib Require Export ZArith Lia.


(** ** Results of fallible calls

    A Go call [(T, error)] returns either a value or an error. *)

Inductive result (E A : Type) : Type :=
| Ok (a : A)
| Err (e : E).
Arguments Ok {E A} a.
Arguments Err {E A} e.

Definition result_bind {E A B} (m : result E A) (k : A → result E B) : result E B :=
  match m with Ok a => k a | Err e => Err e end.

Declare Scope go_scope.
Delimit Scope go_scope with go.
Notation "x ←? m ; k" := (result_bind m (λ x, k))
  (at level 20, m at level 100, k at level 200, right associativity) : go_scope.

Definition is_ok {E A} (m : result E A) : bool :=
  match m with Ok _ => true | Err _ => false end.

#[global] Instance result_eq_dec {E A} `{EqDecision E, EqDecision A} : EqDecision (result E A).
Proof. solve_decision. Defined.

(** ** Stateful calls that may fail or panic

    A Go function that reads and writes shared objects is a function from the
    state before to an outcome and the state after: an error leaves the writes
    done so far in place, and so does a run-time panic (index out of range, nil
    dereference). *)

Inductive outcome (E A : Type) : Type :=
| Ret (a : A)
| Fail (e : E)
| Panic.
Arguments Ret {E A} a.
Arguments Fail {E A} e.
Arguments Panic {E A}.

Definition M (S E A : Type) : Type := S → outcome E A * S.

#[global] Instance M_ret {S E} : MRet (M S E) := λ A a s, (Ret a, s).
#[global] Instance M_bind {S E} : MBind (M S E) := λ A B k m s,
  match m s with
  | (Ret a, s') => k a s'
  | (Fail e, s') => (Fail e, s')
  | (Panic, s') => (Panic, s')
  end.

Definition fail {S E A} (e : E) : M S E A := λ s, (Fail e, s).
Definition panic {S E A} : M S E A := λ s, (Panic, s).
Definition gets {S E A} (f : S → A) : M S E A := λ s, (Ret (f s), s).
Definition modify {S E} (f : S → S) : M S E () := λ s, (Ret (), f s).
(** An indexing or dereference that panics when there is nothing there. *)
Definition or_panic {S E A} (o : option A) : M S E A :=
  match o with Some a => mret a | None => panic end.

Lemma bind_Ret {S E A B} (m : M S E A) (k : A → M S E B) s a s' :
  m s = (Ret a, s') → (m ≫= k) s = k a s'.
Proof. unfold mbind, M_bind. by intros ->. Qed.

Lemma bind_Fail {S E A B} (m : M S E A) (k : A → M S E B) s e s' :
  m s = (Fail e, s') → (m ≫= k) s = (Fail e, s').
Proof. unfold mbind, M_bind. by intros ->. Qed.

Lemma bind_Panic {S E A B} (m : M S E A) (k : A → M S E B) s s' :
  m s = (Panic, s') → (m ≫= k) s = (Panic, s').
Proof. unfold mbind, M_bind. by intros ->. Qed.

(** Run the first call of a sequence, given the equation of its result. *)
Ltac run H :=
  first [ erewrite (bind_Ret _ _ _ _ _ H) | erewrite (bind_Fail _ _ _ _ _ H)
        | erewrite (bind_Panic _ _ _ _ H) ].
Ltac run_by tac :=
  first [ erewrite bind_Ret; [|solve [tac]] | erewrite bind_Fail; [|solve [tac]]
        | erewrite bind_Panic; [|solve [tac]] ].

(** ** Fixed-width integers

    [wrap_u w z] is the value of an unsigned [w]-bit Go integer after the
    conversion of [z], [wrap_s w z] that of a signed one. *)

Definition wrap_u (w z : Z) : Z := z `mod` 2 ^ w.
Definition wrap_s (w z : Z) : Z := (z + 2 ^ (w - 1)) `mod` 2 ^ w - 2 ^ (w - 1).

Definition in_u (w z : Z) : Prop := (0 ≤ z < 2 ^ w)%Z.
Definition in_s (w z : Z) : Prop := (- 2 ^ (w - 1) ≤ z < 2 ^ (w - 1))%Z.

Lemma pow2_pos w : (0 ≤ w → 0 < 2 ^ w)%Z.
Proof. intros. by apply Z.pow_pos_nonneg. Qed.

Lemma pow2_half w : (0 < w → 2 ^ w = 2 * 2 ^ (w - 1))%Z.
Proof. intros. rewrite <- Z.pow_succ_r by lia. f_equal. lia. Qed.

Lemma wrap_u_range w z : (0 ≤ w)%Z → in_u w (wrap_u w z).
Proof. intros. apply Z.mod_pos_bound, pow2_pos; lia. Qed.

Lemma wrap_u_id w z : in_u w z → wrap_u w z = z.
Proof. intros. by apply Z.mod_small. Qed.

Lemma wrap_s_range w z : (0 < w)%Z → in_s w (wrap_s w z).
Proof.
  intros Hw. unfold in_s, wrap_s.
  pose proof (pow2_half w Hw). pose proof (pow2_pos (w - 1) ltac:(lia)).
  pose proof (Z.mod_pos_bound (z + 2 ^ (w - 1)) (2 ^ w) ltac:(lia)). lia.
Qed.

Lemma wrap_s_id w z : (0 < w)%Z → in_s w z → wrap_s w z = z.
Proof.
  intros Hw Hz. unfold in_s, wrap_s in *.
  pose proof (pow2_half w Hw). rewrite Z.mod_small; lia.
Qed.

(** Reading back as signed what was stored as the unsigned image. *)
Lemma wrap_s_wrap_u w z : (0 < w)%Z → in_s w z → wrap_s w (wrap_u w z) = z.
Proof.
  intros Hw Hz. rewrite <- (wrap_s_id w z Hw Hz) at 2. unfold wrap_s, wrap_u.
  pose proof (pow2_pos w ltac:(lia)).
  by rewrite Zplus_mod_idemp_l.
Qed.

(** Little-endian bytes of an unsigned value, least significant first. *)
Fixpoint le_bytes (n : nat) (z : Z) : list Z :=
  match n with
  | O => []
  | S n => (z `mod` 256)%Z :: le_bytes n (z / 256)%Z
  end.

Fixpoint le_val (bs : list Z) : Z :=
  match bs with
  | [] => 0%Z
  | b :: rest => (b + 256 * le_val rest)%Z
  end.

Lemma length_le_bytes n z : length (le_bytes n z) = n.
Proof. revert z. induction n; intros z; simpl; [done|]. by f_equal. Qed.

Lemma le_val_le_bytes n z : (0 ≤ z < 256 ^ Z.of_nat n)%Z → le_val (le_bytes n z) = z.
Proof.
  revert z. induction n as [|n IH]; intros z Hz; cbn [le_bytes le_val].
  - change (256 ^ Z.of_nat 0)%Z with 1%Z in Hz. lia.
  - rewrite Nat2Z.inj_succ, Z.pow_succ_r in Hz by lia. rewrite IH.
    + pose proof (Z.div_mod z 256 ltac:(lia)). lia.
    + split; [apply Z.div_pos; lia|]. apply Z.div_lt_upper_bound; lia.
Qed.

(** ** Lists *)

(** Go's [copy(dst[at:], src)]: overwrite from index [at], as many elements as
    both sides have. *)
Definition go_copy {A} (dst : list A) (at_ : nat) (src : list A) : list A :=
  take at_ dst ++ take (length dst - at_) src ++ drop (at_ + length src) dst.

Lemma length_go_copy {A} (dst : list A) at_ src :
  at_ ≤ length dst → length (go_copy dst at_ src) = length dst.
Proof. intros. unfold go_copy. rewrite !length_app, !length_take, length_drop. lia. Qed.

Lemma go_copy_lookup_lt {A} (dst : list A) at_ src i :
  i < at_ → at_ ≤ length dst → go_copy dst at_ src !! i = dst !! i.
Proof.
  intros. unfold go_copy. rewrite lookup_app_l by (rewrite length_take; lia).
  by rewrite lookup_take_lt.
Qed.

Lemma go_copy_lookup_in {A} (dst : list A) at_ src i :
  at_ ≤ i → i < length dst → i < at_ + length src →
  go_copy dst at_ src !! i = src !! (i - at_).
Proof.
  intros. unfold go_copy.
  rewrite lookup_app_r by (rewrite length_take; lia).
  rewrite length_take, lookup_app_l by (rewrite length_take; lia).
  rewrite lookup_take_lt by lia. f_equal. lia.
Qed.

Lemma go_copy_lookup_ge {A} (dst : list A) at_ src i :
  at_ + length src ≤ i → at_ ≤ length dst → go_copy dst at_ src !! i = dst !! i.
Proof.
  intros. unfold go_copy.
  rewrite lookup_app_r by (rewrite length_take; lia).
  rewrite length_take.
  destruct (decide (at_ + length src ≤ length dst)).
  - rewrite lookup_app_r by (rewrite length_take; lia).
    rewrite lookup_drop, length_take. f_equal. lia.
  - rewrite (lookup_ge_None_2 dst) by lia. apply lookup_ge_None_2.
    rewrite length_app, length_take, length_drop. lia.
Qed.

(** A [for ... range] over a Go map visits the entries in an unspecified order:
    the models take the order as a list and the theorems hold for every list
    related to the map by [range_order]. *)
Definition range_order `{Countable K} {V} (m : gmap K V) (l : list (K * V)) : Prop :=
  l ≡ₚ map_to_list m.

Lemma range_order_elem `{Countable K} {V} (m : gmap K V) l k v :
  range_order m l → (k, v) ∈ l ↔ m !! k = Some v.
Proof. intros ->. apply elem_of_map_to_list. Qed.

Lemma range_order_refl `{Countable K} {V} (m : gmap K V) : range_order m (map_to_list m).
Proof. unfold range_order. reflexivity. Qed.

Lemma range_order_nodup `{Countable K} {V} (m : gmap K V) l :
  range_order m l → NoDup l.*1.
Proof. intros ->. apply NoDup_fst_map_to_list. Qed.

(** Two strongly sorted permutations of each other are equal: a sort by a total
    order of distinct keys does not depend on the input order. *)
Lemma sorted_perm_unique {A} (R : relation A) `{!AntiSymm (=) R} l1 l2 :
  StronglySorted R l1 → StronglySorted R l2 → l1 ≡ₚ l2 → l1 = l2.
Proof. intros. by eapply (StronglySorted_unique R). Qed.

Lemma forallb_false_exists {A} (f : A → bool) l :
  forallb f l = false → ∃ x, x ∈ l ∧ f x = false.
Proof.
  induction l as [|x l IH]; simpl; [done|].
  destruct (f x) eqn:E; simpl; intros Hf.
  - destruct (IH Hf) as (y & ? & ?). exists y. set_solver.
  - exists x. set_solver.
Qed.

Lemma existsb_elem_of {A} (f : A → bool) l :
  existsb f l = true ↔ ∃ x, x ∈ l ∧ f x = true.
Proof.
  rewrite existsb_exists. split; intros (x & Hx & ?); exists x;
    (split; [by apply list_elem_of_In|done]).
Qed.

Lemma NoDup_fst_unique {A B} (l : list (A * B)) x y y' :
  NoDup l.*1 → (x, y) ∈ l → (x, y') ∈ l → y = y'.
Proof.
  intros Hn Hy Hy'. apply list_elem_of_lookup in Hy as [i Hi], Hy' as [j Hj].
  assert (i = j) as <-; [|congruence].
  eapply (NoDup_lookup _ _ _ x Hn); by rewrite list_lookup_fmap, ?Hi, ?Hj.
Qed.

Lemma filter_all {A} (P : A → Prop) `{!∀ x, Decision (P x)} l : Forall P l → filter P l = l.
Proof. induction 1; [done|]. by rewrite filter_cons_True, IHForall. Qed.

(** The order of Go's strings, byte by byte. *)
Definition string_le (a b : string) : Prop := String.leb a b = true.
#[export] Instance string_le_dec : RelDecision string_le.
Proof. intros a b. unfold string_le. apply _. Defined.

(** ** Tactics and hints shared by the components *)

(** Case analysis on every [match] of the goal or of a hypothesis, with the
    equations kept and simplified. *)
Ltac go_case :=
  repeat (case_match; simplify_eq/=; try done).

Tactic Notation "inv" hyp(H) := inversion H; subst; clear H.

Ltac go_case_in H :=
  repeat (match type of H with context [match ?x with _ => _ end] =>
            let E := fresh "E" in destruct x eqn:E end; simplify_eq/=; try done).

(** A decidable proposition over closed data, evaluated. *)
Ltac by_decision := match goal with |- ?P => apply (bool_decide_unpack P); vm_compute; exact I end.

Create HintDb go.
Create Rewrite HintDb go_rw.
#[export] Hint Resolve wrap_u_range wrap_s_range pow2_pos : go.
#[export] Hint Rewrite @length_go_copy : go_rw.
