(* ===== verification/Wp.v ===== *)
(** * Postconditions of stateful calls

    [wp m s Q R]: the call [m] does not panic in the state [s], what it returns and
    the state it leaves satisfy [Q], and if it fails its error and state satisfy
    [R].  The rules follow the structure of a call, so that a proof about a handler
    reads in the order of its code. *)

From S2P Require Import Prelude.

Section wp.
Context {S E : Type}.
Implicit Types (s : S) (e : E).

Definition wp {A} (m : M S E A) s (Q : A → S → Prop) (R : E → S → Prop) : Prop :=
  match m s with
  | (Ret a, s') => Q a s'
  | (Fail e, s') => R e s'
  | (Panic, _) => False
  end.

Lemma wp_ret {A} (a : A) s (Q : A → S → Prop) R : Q a s → wp (mret a) s Q R.
Proof. done. Qed.

Lemma wp_fail {A} e s (Q : A → S → Prop) (R : E → S → Prop) : R e s → wp (fail e) s Q R.
Proof. done. Qed.

Lemma wp_gets {A} (f : S → A) s (Q : A → S → Prop) R : Q (f s) s → wp (gets f) s Q R.
Proof. done. Qed.

Lemma wp_modify (f : S → S) s (Q : () → S → Prop) R : Q () (f s) → wp (modify f) s Q R.
Proof. done. Qed.

Lemma wp_bind {A B} (m : M S E A) (k : A → M S E B) s Q R :
  wp m s (λ a s', wp (k a) s' Q R) R → wp (m ≫= k) s Q R.
Proof. unfold wp, mbind, M_bind. destruct (m s) as [[a|e|] s']; done. Qed.

Lemma wp_mono {A} (m : M S E A) s (Q Q' : A → S → Prop) (R R' : E → S → Prop) :
  wp m s Q R → (∀ a s', Q a s' → Q' a s') → (∀ e s', R e s' → R' e s') → wp m s Q' R'.
Proof. unfold wp. destruct (m s) as [[a|e|] s']; auto. Qed.

Lemma wp_conj {A} (m : M S E A) s (Q1 Q2 : A → S → Prop) (R1 R2 : E → S → Prop) :
  wp m s Q1 R1 → wp m s Q2 R2 → wp m s (λ a s', Q1 a s' ∧ Q2 a s') (λ e s', R1 e s' ∧ R2 e s').
Proof. unfold wp. destruct (m s) as [[a|e|] s']; auto. Qed.

(** A call that is known to return. *)
Lemma wp_Ret {A} (m : M S E A) s a s' (Q : A → S → Prop) R : m s = (Ret a, s') → Q a s' → wp m s Q R.
Proof. unfold wp. by intros ->. Qed.

Lemma wp_elim {A} (m : M S E A) s (Q : A → S → Prop) R : wp m s Q R →
  (∃ a s', m s = (Ret a, s') ∧ Q a s') ∨ (∃ e s', m s = (Fail e, s') ∧ R e s').
Proof. unfold wp. destruct (m s) as [[a|e|] s']; [left|right|done]; eauto. Qed.

(** A call whose result is known. *)
Lemma wp_result {A} (m : M S E A) s a (Q : A → S → Prop) R : wp m s Q R → (m s).1 = Ret a → Q a (m s).2.
Proof. unfold wp. destruct (m s) as [r s']. cbn. by intros Hw ->. Qed.

(** The pair of a known result. *)
Lemma run_Ret {A} (m : M S E A) s a : (m s).1 = Ret a → m s = (Ret a, (m s).2).
Proof. destruct (m s) as [r s']. cbn. by intros ->. Qed.

Lemma wp_returns {A} (m : M S E A) s (Q : A → S → Prop) : wp m s Q (λ _ _, False) →
  ∃ a s', m s = (Ret a, s') ∧ Q a s'.
Proof. intros [?|(? & ? & ? & [])]%wp_elim; done. Qed.

(** [if err := m; err != nil { ... }]: the code goes on with [k] or with [h]. *)
Definition handle {A B} (m : M S E A) (k : A → M S E B) (h : E → M S E B) : M S E B := λ s,
  match m s with
  | (Ret a, s') => k a s'
  | (Fail e, s') => h e s'
  | (Panic, s') => (Panic, s')
  end.

Lemma wp_handle {A B} (m : M S E A) (k : A → M S E B) (h : E → M S E B) s Q R :
  wp m s (λ a s', wp (k a) s' Q R) (λ e s', wp (h e) s' Q R) → wp (handle m k h) s Q R.
Proof. unfold wp, handle. destruct (m s) as [[a|e|] s']; done. Qed.

Lemma handle_Ret {A B} (m : M S E A) (k : A → M S E B) (h : E → M S E B) s a s' : m s = (Ret a, s') → handle m k h s = k a s'.
Proof. unfold handle. by intros ->. Qed.
Lemma handle_Fail {A B} (m : M S E A) (k : A → M S E B) (h : E → M S E B) s e s' : m s = (Fail e, s') → handle m k h s = h e s'.
Proof. unfold handle. by intros ->. Qed.

Lemma wp_eq {A} (m1 m2 : M S E A) s (Q : A → S → Prop) R : m1 s = m2 s → wp m2 s Q R → wp m1 s Q R.
Proof. unfold wp. by intros ->. Qed.
End wp.

(** A call on a part of the state, with its errors embedded in those of the
    whole: [get] and [set] read and replace the part. *)
Section parts.
Context {S T E F : Type} (get : S → T) (set : T → S → S) (err : F → E).

Definition on {A} (m : M T F A) : M S E A := λ s,
  match m (get s) with
  | (Ret a, t) => (Ret a, set t s)
  | (Fail e, t) => (Fail (err e), set t s)
  | (Panic, t) => (Panic, set t s)
  end.

Lemma wp_on {A} (m : M T F A) s (Q : A → S → Prop) (R : E → S → Prop) :
  wp m (get s) (λ a t, Q a (set t s)) (λ e t, R (err e) (set t s)) → wp (on m) s Q R.
Proof. unfold wp, on. by destruct (m (get s)) as [[a|e|] t]. Qed.

Lemma on_Ret {A} (m : M T F A) s a t : m (get s) = (Ret a, t) → on m s = (Ret a, set t s).
Proof. unfold on. by intros ->. Qed.
End parts.

(** ** Calls that may panic

    [wlp m s Q R] says the same of a call that may also panic, and [moves I m] that
    the state before a call and the state after it are always related by [I]. *)

Section wlp.
Context {S E : Type}.
Implicit Types (s : S) (e : E).

Definition wlp {A} (m : M S E A) s (Q : A → S → Prop) (R : E → S → Prop) : Prop :=
  match m s with
  | (Ret a, s') => Q a s'
  | (Fail e, s') => R e s'
  | (Panic, _) => True
  end.

Lemma wp_wlp {A} (m : M S E A) s (Q : A → S → Prop) R : wp m s Q R → wlp m s Q R.
Proof. unfold wp, wlp. by destruct (m s) as [[a|e|] s']. Qed.

Lemma wlp_ret {A} (a : A) s (Q : A → S → Prop) R : Q a s → wlp (mret a) s Q R.
Proof. done. Qed.
Lemma wlp_fail {A} e s (Q : A → S → Prop) (R : E → S → Prop) : R e s → wlp (fail e) s Q R.
Proof. done. Qed.
Lemma wlp_panic {A} s (Q : A → S → Prop) (R : E → S → Prop) : wlp panic s Q R.
Proof. done. Qed.
Lemma wlp_gets {A} (f : S → A) s (Q : A → S → Prop) R : Q (f s) s → wlp (gets f) s Q R.
Proof. done. Qed.
Lemma wlp_modify (f : S → S) s (Q : () → S → Prop) R : Q () (f s) → wlp (modify f) s Q R.
Proof. done. Qed.
Lemma wlp_bind {A B} (m : M S E A) (k : A → M S E B) s Q R :
  wlp m s (λ a s', wlp (k a) s' Q R) R → wlp (m ≫= k) s Q R.
Proof. unfold wlp, mbind, M_bind. destruct (m s) as [[a|e|] s']; done. Qed.
Lemma wlp_handle {A B} (m : M S E A) (k : A → M S E B) (h : E → M S E B) s Q R :
  wlp m s (λ a s', wlp (k a) s' Q R) (λ e s', wlp (h e) s' Q R) → wlp (handle m k h) s Q R.
Proof. unfold wlp, handle. destruct (m s) as [[a|e|] s']; done. Qed.
Lemma wlp_mono {A} (m : M S E A) s (Q Q' : A → S → Prop) (R R' : E → S → Prop) :
  wlp m s Q R → (∀ a s', Q a s' → Q' a s') → (∀ e s', R e s' → R' e s') → wlp m s Q' R'.
Proof. unfold wlp. destruct (m s) as [[a|e|] s']; auto. Qed.
Lemma wlp_conj {A} (m : M S E A) s (Q1 Q2 : A → S → Prop) (R1 R2 : E → S → Prop) :
  wlp m s Q1 R1 → wlp m s Q2 R2 → wlp m s (λ a s', Q1 a s' ∧ Q2 a s') (λ e s', R1 e s' ∧ R2 e s').
Proof. unfold wlp. destruct (m s) as [[a|e|] s']; auto. Qed.

Lemma wlp_failed {A} (m : M S E A) s (Q : A → S → Prop) (R : E → S → Prop) e : wlp m s Q R → (m s).1 = Fail e → R e (m s).2.
Proof. unfold wlp. destruct (m s) as [[a|e1|] s']; cbn; intros; congruence. Qed.

Definition moves {A} (I : S → S → Prop) (m : M S E A) : Prop := ∀ s, wlp m s (λ _ s', I s s') (λ _ s', I s s').

(** What a call returns, whatever state it is called in. *)
Definition yields {A} (m : M S E A) (P : A → Prop) : Prop := ∀ s, wlp m s (λ a _, P a) (λ _ _, True).

Lemma yields_ret {A} (a : A) (P : A → Prop) : P a → yields (mret a : M S E A) P.
Proof. intros HP s. by apply wlp_ret. Qed.
Lemma yields_fail {A} e (P : A → Prop) : yields (fail e : M S E A) P.
Proof. intros s. by apply wlp_fail. Qed.
Lemma yields_any {A} (m : M S E A) : yields m (λ _, True).
Proof. intros s. unfold wlp. by destruct (m s) as [[a|e|] s']. Qed.
Lemma yields_then {A B} (m : M S E A) (k : A → M S E B) (P : A → Prop) (Q : B → Prop) :
  yields m P → (∀ a, P a → yields (k a) Q) → yields (m ≫= k) Q.
Proof. intros Hm Hk s. apply wlp_bind. eapply wlp_mono; [apply Hm| |done]. intros a s' Ha. by apply Hk. Qed.
Lemma yields_bind {A B} (m : M S E A) (k : A → M S E B) (P : B → Prop) : (∀ a, yields (k a) P) → yields (m ≫= k) P.
Proof. intros Hk. apply (yields_then m k (λ _, True)); [apply yields_any|auto]. Qed.
Lemma yields_handle {A B} (m : M S E A) (k : A → M S E B) (h : E → M S E B) (P : B → Prop) :
  (∀ a, yields (k a) P) → (∀ e, yields (h e) P) → yields (handle m k h) P.
Proof.
  intros Hk Hh s. apply wlp_handle. eapply wlp_mono; [apply yields_any|intros a s' _; apply Hk|intros e s' _; apply Hh].
Qed.

Lemma moves_sub {A} (I J : S → S → Prop) (m : M S E A) : moves I m → (∀ s s', I s s' → J s s') → moves J m.
Proof. intros Hm HIJ s. eapply wlp_mono; [apply Hm| |]; auto. Qed.

Section preorder.
Context (I : S → S → Prop) `{!PreOrder I}.

Lemma moves_ret {A} (a : A) : moves I (mret a : M S E A).
Proof. intros s. apply wlp_ret. reflexivity. Qed.
Lemma moves_fail {A} e : moves I (fail e : M S E A).
Proof. intros s. apply wlp_fail. reflexivity. Qed.
Lemma moves_panic {A} : moves I (panic : M S E A).
Proof. intros s. apply wlp_panic. Qed.
Lemma moves_gets {A} (f : S → A) : moves I (gets f : M S E A).
Proof. intros s. apply wlp_gets. reflexivity. Qed.
Lemma moves_modify (f : S → S) : (∀ s, I s (f s)) → moves I (modify f : M S E ()).
Proof. intros Hf s. apply wlp_modify. auto. Qed.
Lemma moves_bind {A B} (m : M S E A) (k : A → M S E B) : moves I m → (∀ a, moves I (k a)) → moves I (m ≫= k).
Proof.
  intros Hm Hk s. apply wlp_bind. eapply wlp_mono; [apply Hm| |done].
  intros a s' Hs. eapply wlp_mono; [apply Hk| |]; intros x s'' Hs'; exact (transitivity Hs Hs').
Qed.
Lemma moves_handle {A B} (m : M S E A) (k : A → M S E B) (h : E → M S E B) :
  moves I m → (∀ a, moves I (k a)) → (∀ e, moves I (h e)) → moves I (handle m k h).
Proof.
  intros Hm Hk Hh s. apply wlp_handle. eapply wlp_mono; [apply Hm| |].
  - intros a s' Hs. eapply wlp_mono; [apply Hk| |]; intros x s'' Hs'; exact (transitivity Hs Hs').
  - intros e s' Hs. eapply wlp_mono; [apply Hh| |]; intros x s'' Hs'; exact (transitivity Hs Hs').
Qed.
End preorder.
End wlp.

Lemma wlp_on {S T E F A} (get : S → T) (set : T → S → S) (err : F → E) (m : M T F A) s (Q : A → S → Prop) (R : E → S → Prop) :
  wlp m (get s) (λ a t, Q a (set t s)) (λ e t, R (err e) (set t s)) → wlp (on get set err m) s Q R.
Proof. unfold wlp, on. by destruct (m (get s)) as [[a|e|] t]. Qed.

Lemma moves_on {S T E F A} (get : S → T) (set : T → S → S) (err : F → E) (m : M T F A) (I : S → S → Prop) :
  (∀ s t, I s (set t s)) → moves I (on get set err m).
Proof. intros Hs s. apply wlp_on. unfold wlp. destruct (m (get s)) as [[a|e|] t]; auto. Qed.

(** One step of a proof about a sequence of calls. *)
Ltac wp_step := first [ apply wp_bind | apply wp_handle | apply wp_ret | apply wp_fail | apply wp_gets | apply wp_modify ].
Ltac wp_steps := repeat wp_step.
Ltac wlp_step := first [ apply wlp_bind | apply wlp_handle | apply wlp_ret | apply wlp_fail | apply wlp_gets | apply wlp_modify ].
Ltac wlp_steps := repeat wlp_step.
