(* ===== verification/Handle.v ===== *)
(** * uuid.go, handle.go and encoding/handle.go: handles of B-tree nodes

    A [UUID] is the 128-bit number whose big-endian bytes are the Go array
    [[16]byte]; [uuid_bytes] is [id[:]].  A [Handle] maps the logical ID of a
    node to two physical IDs, one of them active. *)

From S2P Require Import Prelude.

Abbreviation UUID := N (only parsing).

Definition NilUUID : UUID := 0%N.

(** The bytes of [id[:]], most significant first, and the array they fill. *)
Definition uuid_bytes (id : UUID) : list Z := reverse (le_bytes 16 (Z.of_N id)).
Definition uuid_of_bytes (b : list Z) : UUID := Z.to_N (le_val (reverse b)).

Definition uuid_wf (id : UUID) : Prop := (id < 2 ^ 128)%N.

Definition IsNil (id : UUID) : bool := bool_decide (id = NilUUID).

(** [NewUUID]: up to ten attempts of the random source, then a panic; [gen i] is
    the answer of the [i]-th call of [uuid.NewRandom]. *)
Fixpoint NewUUID_loop (i attempts : nat) (gen : nat → option UUID) : option UUID :=
  match attempts with
  | 0 => None
  | S attempts =>
      match gen i with
      | Some id => Some id
      | None => NewUUID_loop (S i) attempts gen
      end
  end.

Definition NewUUID (gen : nat → option UUID) : option UUID := NewUUID_loop 0 10 gen.

(** [high = high<<8 | uint64(bytes[i])] over a byte slice, on 64 bits. *)
Definition be64 (bytes : list Z) : Z :=
  foldl (λ acc b, Z.lor (wrap_u 64 (Z.shiftl acc 8)) b) 0%Z bytes.

Definition Split (id : UUID) : Z * Z :=
  let bytes := uuid_bytes id in (be64 (take 8 bytes), be64 (drop 8 bytes)).

(** [bytes.Compare]: -1, 0 or 1. *)
Fixpoint bytes_compare (x y : list Z) : Z :=
  match x, y with
  | [], [] => 0
  | [], _ :: _ => -1
  | _ :: _, [] => 1
  | a :: x, b :: y => if (a <? b) then -1 else if (b <? a) then 1 else bytes_compare x y
  end%Z.

Definition Compare (x y : UUID) : Z := bytes_compare (uuid_bytes x) (uuid_bytes y).

(** ** handle.go *)

(** Times are nanoseconds since the Unix epoch; [UnixMilli] rounds down. *)
Definition UnixMilli (t : Z) : Z := t `div` 1000000.
Definition Hour : Z := 3600 * 1000000000.

Record Handle := mkHandle {
  LogicalID : UUID;
  PhysicalIDA : UUID;
  PhysicalIDB : UUID;
  IsActiveIDB : bool;
  Version : Z;
  WorkInProgressTimestamp : Z;
  IsDeleted : bool;
}.

#[global] Instance Handle_eq_dec : EqDecision Handle.
Proof. solve_decision. Defined.

Definition zero_handle : Handle := mkHandle NilUUID NilUUID NilUUID false 0 0 false.

Definition HandleSizeInBytes : nat := 62.

Definition NewHandle (id : UUID) : Handle := mkHandle id id NilUUID false 0 0 false.

Definition GetActiveID (h : Handle) : UUID :=
  if IsActiveIDB h then PhysicalIDB h else PhysicalIDA h.

Definition GetInActiveID (h : Handle) : UUID :=
  if IsActiveIDB h then PhysicalIDA h else PhysicalIDB h.

Definition IsAandBinUse (h : Handle) : bool :=
  negb (IsNil (PhysicalIDA h)) && negb (IsNil (PhysicalIDB h)).

Definition set_PhysicalIDA (h : Handle) (id : UUID) : Handle :=
  mkHandle (LogicalID h) id (PhysicalIDB h) (IsActiveIDB h) (Version h)
    (WorkInProgressTimestamp h) (IsDeleted h).
Definition set_PhysicalIDB (h : Handle) (id : UUID) : Handle :=
  mkHandle (LogicalID h) (PhysicalIDA h) id (IsActiveIDB h) (Version h)
    (WorkInProgressTimestamp h) (IsDeleted h).
Definition set_IsActiveIDB (h : Handle) (b : bool) : Handle :=
  mkHandle (LogicalID h) (PhysicalIDA h) (PhysicalIDB h) b (Version h)
    (WorkInProgressTimestamp h) (IsDeleted h).
Definition set_Version (h : Handle) (v : Z) : Handle :=
  mkHandle (LogicalID h) (PhysicalIDA h) (PhysicalIDB h) (IsActiveIDB h) v
    (WorkInProgressTimestamp h) (IsDeleted h).
Definition set_Timestamp (h : Handle) (ts : Z) : Handle :=
  mkHandle (LogicalID h) (PhysicalIDA h) (PhysicalIDB h) (IsActiveIDB h) (Version h)
    ts (IsDeleted h).
Definition set_IsDeleted (h : Handle) (b : bool) : Handle :=
  mkHandle (LogicalID h) (PhysicalIDA h) (PhysicalIDB h) (IsActiveIDB h) (Version h)
    (WorkInProgressTimestamp h) b.

(** [newid] is the result of the call of [NewUUID], [now] the current time. *)
Definition AllocateID (newid : UUID) (now : Z) (h : Handle) : UUID * Handle :=
  if IsAandBinUse h then (NilUUID, h)
  else
    let h := set_Timestamp h (UnixMilli now) in
    if IsActiveIDB h then (newid, set_PhysicalIDA h newid)
    else (newid, set_PhysicalIDB h newid).

Definition IsExpiredInactive (now : Z) (h : Handle) : bool :=
  let expiryTime := UnixMilli (now - 1 * Hour) in
  ((0 <? WorkInProgressTimestamp h) && (WorkInProgressTimestamp h <? expiryTime))%Z.

Definition HasID (h : Handle) (id : UUID) : bool :=
  bool_decide (PhysicalIDA h = id) || bool_decide (PhysicalIDB h = id).

Definition FlipActiveID (h : Handle) : Handle := set_IsActiveIDB h (negb (IsActiveIDB h)).

Definition ClearInactiveID (h : Handle) : Handle :=
  let h := if IsActiveIDB h then set_PhysicalIDA h NilUUID else set_PhysicalIDB h NilUUID in
  set_Timestamp h 0.

Definition IsEmpty (x : Handle) : bool :=
  bool_decide (LogicalID x = NilUUID) && negb (IsDeleted x) &&
  bool_decide (PhysicalIDA x = NilUUID) && bool_decide (PhysicalIDB x = NilUUID) &&
  bool_decide (Version x = 0%Z) && bool_decide (WorkInProgressTimestamp x = 0%Z).

Definition IsEqual (x y : Handle) : bool :=
  bool_decide (LogicalID x = LogicalID y) && Bool.eqb (IsDeleted x) (IsDeleted y) &&
  bool_decide (PhysicalIDA x = PhysicalIDA y) && bool_decide (PhysicalIDB x = PhysicalIDB y).

(** [RegistryPayload[T]]: a batch of handles or IDs of one registry table. *)
Record RegistryPayload (T : Type) := mkRegistryPayload {
  rp_RegistryTable : string;
  rp_BlobTable : string;
  rp_CacheDuration : Z;
  rp_IsCacheTTL : bool;
  rp_IDs : list T;
}.
Arguments mkRegistryPayload {T}.
Arguments rp_RegistryTable {T}.
Arguments rp_BlobTable {T}.
Arguments rp_CacheDuration {T}.
Arguments rp_IsCacheTTL {T}.
Arguments rp_IDs {T}.

Definition ExtractLogicalIDs (storeHandles : list (RegistryPayload Handle))
    : list (RegistryPayload UUID) :=
  map (λ sh, mkRegistryPayload (rp_RegistryTable sh) EmptyString (rp_CacheDuration sh) false
               (map LogicalID (rp_IDs sh))) storeHandles.

(** The field ranges of the Go struct: [int32] version, [int64] timestamp. *)
Definition handle_wf (h : Handle) : Prop :=
  uuid_wf (LogicalID h) ∧ uuid_wf (PhysicalIDA h) ∧ uuid_wf (PhysicalIDB h) ∧
  in_s 32 (Version h) ∧ in_s 64 (WorkInProgressTimestamp h).

(** ** encoding/handle.go *)

Definition byte_of_bool (b : bool) : Z := if b then 1 else 0.

Definition encode (h : Handle) : list Z :=
  uuid_bytes (LogicalID h) ++ uuid_bytes (PhysicalIDA h) ++ uuid_bytes (PhysicalIDB h) ++
  [byte_of_bool (IsActiveIDB h)] ++
  le_bytes 4 (wrap_u 32 (Version h)) ++
  le_bytes 8 (wrap_u 64 (WorkInProgressTimestamp h)) ++
  [byte_of_bool (IsDeleted h)].

(** [Marshal] appends to whatever the caller's buffer holds. *)
Definition Marshal (v : Handle) (buffer : list Z) : list Z := buffer ++ encode v.

(** The reader and the target of [decode]. *)
Record decoder := mkDecoder { d_rest : list Z; d_target : Handle }.

Inductive decode_error := ErrFromBytes.

(** [bytes.Buffer.Next]: the next [n] bytes, fewer when the buffer has fewer. *)
Definition Next {E} (n : nat) : M decoder E (list Z) := λ d,
  (Ret (take n (d_rest d)), mkDecoder (drop n (d_rest d)) (d_target d)).

Definition update_target {E} (f : Handle → Handle) : M decoder E () :=
  modify (λ d, mkDecoder (d_rest d) (f (d_target d))).

Section with_FromBytes.
(** [uuid.FromBytes] of github.com/google/uuid. *)
Context (FromBytes : list Z → option UUID).

Definition fromBytes : list Z → M decoder decode_error UUID := λ b,
  match FromBytes b with Some id => mret id | None => fail ErrFromBytes end.

(** [binary.LittleEndian.Uint32] and [Uint64] panic on a short slice. *)
Definition Uint (n : nat) (b : list Z) : M decoder decode_error Z :=
  if decide (n ≤ length b) then mret (le_val (take n b)) else panic.

Definition set_if_one (b : Z) (f : Handle → Handle) : M decoder decode_error () :=
  if decide (b = 1%Z) then update_target f else mret ().

Definition decode : M decoder decode_error () :=
  b ← Next 16; h ← fromBytes b;
  _ ← update_target (λ t, mkHandle h (PhysicalIDA t) (PhysicalIDB t) (IsActiveIDB t)
                        (Version t) (WorkInProgressTimestamp t) (IsDeleted t));
  b ← Next 16; h ← fromBytes b;
  _ ← update_target (λ t, set_PhysicalIDA t h);
  b ← Next 16; h ← fromBytes b;
  _ ← update_target (λ t, set_PhysicalIDB t h);
  bs ← Next 1; b ← or_panic (bs !! 0);
  _ ← set_if_one b (λ t, set_IsActiveIDB t true);
  b ← Next 4; v ← Uint 4 b;
  _ ← update_target (λ t, set_Version t (wrap_s 32 v));
  b ← Next 8; v ← Uint 8 b;
  _ ← update_target (λ t, set_Timestamp t (wrap_s 64 v));
  bs ← Next 1; b ← or_panic (bs !! 0);
  set_if_one b (λ t, set_IsDeleted t true).

Definition Unmarshal (data : list Z) (target : Handle)
    : outcome decode_error () * Handle :=
  let '(r, d) := decode (mkDecoder data target) in (r, d_target d).

Definition UnmarshalLogicalID (data : list Z) : result decode_error UUID :=
  match FromBytes (take 16 data) with Some id => Ok id | None => Err ErrFromBytes end.
End with_FromBytes.

(** What the package documents: 16 bytes give the UUID they spell, any other
    length is an error. *)
Definition FromBytes_documented (FromBytes : list Z → option UUID) : Prop :=
  ∀ b, FromBytes b = if decide (length b = 16) then Some (uuid_of_bytes b) else None.

Definition FromBytes_ref (b : list Z) : option UUID :=
  if decide (length b = 16) then Some (uuid_of_bytes b) else None.

(** ** Lemmas *)

Definition byte_list (bs : list Z) : Prop := Forall (λ b, 0 ≤ b < 256)%Z bs.

Lemma le_bytes_range n z : byte_list (le_bytes n z).
Proof.
  revert z. induction n as [|n IH]; intros z; cbn; constructor; [|apply IH].
  apply Z.mod_pos_bound. lia.
Qed.

Lemma length_uuid_bytes id : length (uuid_bytes id) = 16.
Proof. unfold uuid_bytes. by rewrite length_reverse, length_le_bytes. Qed.

Lemma uuid_bytes_range id : byte_list (uuid_bytes id).
Proof. unfold uuid_bytes, byte_list. rewrite Forall_reverse. apply le_bytes_range. Qed.

Lemma uuid_of_bytes_of id : uuid_wf id → uuid_of_bytes (uuid_bytes id) = id.
Proof.
  unfold uuid_wf, uuid_of_bytes, uuid_bytes. intros Hid.
  rewrite reverse_involutive, le_val_le_bytes; [apply N2Z.id|].
  change (256 ^ Z.of_nat 16)%Z with (Z.of_N (2 ^ 128)). lia.
Qed.

#[export] Hint Rewrite @length_app length_uuid_bytes length_le_bytes @length_take
  @length_drop : go_rw.

Lemma le_bytes_app n m z :
  (0 ≤ z)%Z → le_bytes (n + m) z = le_bytes n z ++ le_bytes m (z / 256 ^ Z.of_nat n).
Proof.
  revert z. induction n as [|n IH]; intros z Hz.
  - cbn. by rewrite Z.div_1_r.
  - cbn [le_bytes plus app]. f_equal. rewrite IH by (apply Z.div_pos; lia).
    rewrite Nat2Z.inj_succ, Z.pow_succ_r, Z.div_div by lia. done.
Qed.

Lemma le_bytes_mod n z : (0 ≤ z)%Z → le_bytes n z = le_bytes n (z `mod` 256 ^ Z.of_nat n).
Proof.
  revert z. induction n as [|n IH]; intros z Hz; [done|]. cbn [le_bytes].
  rewrite Nat2Z.inj_succ, Z.pow_succ_r by lia.
  assert (0 < 256 ^ Z.of_nat n)%Z by (apply Z.pow_pos_nonneg; lia).
  rewrite Z.rem_mul_r by lia. f_equal.
  - rewrite (Z.mul_comm 256), Z.mod_add by lia. by rewrite Z.mod_mod by lia.
  - rewrite (Z.mul_comm 256 (_ mod _)), Z.div_add by lia.
    rewrite (Z.div_small (z `mod` 256)) by (apply Z.mod_pos_bound; lia).
    rewrite Z.add_0_l. apply IH. apply Z.div_pos; lia.
Qed.

Lemma lor_byte a b : (0 ≤ a)%Z → (0 ≤ b < 256)%Z → Z.lor (Z.shiftl a 8) b = (a * 256 + b)%Z.
Proof.
  intros Ha Hb. pose proof (Z.add_lor_land (Z.shiftl a 8) b) as Hal.
  assert (Z.land (Z.shiftl a 8) b = 0)%Z as Hz.
  { apply Z.bits_inj'. intros n Hn. rewrite Z.land_spec, Z.shiftl_spec, Z.bits_0 by lia.
    destruct (decide (n < 8)%Z); [by rewrite Z.testbit_neg_r by lia|].
    rewrite (Z.bits_above_log2 b n), andb_false_r; [done|lia|].
    destruct (decide (b = 0)%Z) as [->|]; [cbn; lia|].
    assert (Z.log2 b < 8)%Z; [|lia]. apply Z.log2_lt_pow2; lia. }
  rewrite Hz in Hal. rewrite Z.shiftl_mul_pow2 in * by lia.
  change (2 ^ 8)%Z with 256%Z in *. lia.
Qed.

Lemma le_val_range bs : byte_list bs → (0 ≤ le_val bs < 256 ^ Z.of_nat (length bs))%Z.
Proof.
  induction 1 as [|b bs Hb _ IH]; [done|]. cbn [le_val length].
  rewrite Nat2Z.inj_succ, Z.pow_succ_r by lia. lia.
Qed.

(** The 64-bit accumulation loop computes the big-endian value. *)
Lemma be64_val bs : length bs ≤ 8 → byte_list bs → be64 bs = le_val (reverse bs).
Proof.
  induction bs as [|b bs IH] using rev_ind; intros Hl Hb; [done|].
  rewrite length_app in Hl. cbn in Hl. apply Forall_app in Hb as [Hbs Hb].
  apply Forall_cons in Hb as [Hb _]. rewrite reverse_snoc. cbn [le_val].
  rewrite <- IH by (lia || done). unfold be64 at 1. rewrite foldl_app. cbn [foldl].
  fold (be64 bs). specialize (IH ltac:(lia) Hbs).
  pose proof (le_val_range (reverse bs)) as Hr.
  rewrite length_reverse in Hr. rewrite <- IH in Hr.
  specialize (Hr ltac:(by apply Forall_reverse)).
  assert (256 ^ Z.of_nat (length bs) ≤ 256 ^ 7)%Z by (apply Z.pow_le_mono_r; lia).
  rewrite wrap_u_id.
  - rewrite lor_byte; lia.
  - unfold in_u. rewrite Z.shiftl_mul_pow2 by lia. change (256 ^ 7)%Z with (2 ^ 56)%Z in *. lia.
Qed.

Lemma IsNil_true id : IsNil id = true ↔ id = NilUUID.
Proof. apply bool_decide_eq_true. Qed.

(** ** Properties of UUIDs and handles *)

(** [Split] returns the high and the low 64 bits of the UUID, as unsigned
    64-bit numbers, so the two halves determine it. *)
Theorem Split_exact (id : UUID) :
  uuid_wf id →
  Split id = (Z.of_N id / 2 ^ 64, Z.of_N id `mod` 2 ^ 64)%Z ∧
  in_u 64 (Split id).1 ∧ in_u 64 (Split id).2 ∧
  Z.of_N id = ((Split id).1 * 2 ^ 64 + (Split id).2)%Z.
Proof.
  unfold uuid_wf. intros Hid.
  assert (Z.of_N id < 2 ^ 128)%Z by (change (2 ^ 128)%Z with (Z.of_N (2 ^ 128)); lia).
  assert (Split id = (Z.of_N id / 2 ^ 64, Z.of_N id `mod` 2 ^ 64)%Z) as ->.
  { unfold Split. pose proof (uuid_bytes_range id) as Hb.
    rewrite !be64_val; [| |by apply Forall_drop| |by apply Forall_take];
      [|rewrite length_drop, length_uuid_bytes; lia
       |rewrite length_take, length_uuid_bytes; lia].
    unfold uuid_bytes. rewrite (le_bytes_app 8 8) by lia. rewrite reverse_app.
    rewrite take_app_length', drop_app_length' by (by rewrite length_reverse, length_le_bytes).
    rewrite !reverse_involutive. change (256 ^ Z.of_nat 8)%Z with (2 ^ 64)%Z.
    rewrite (le_bytes_mod 8 (Z.of_N id)) by lia.
    rewrite !le_val_le_bytes; change (256 ^ Z.of_nat 8)%Z with (2 ^ 64)%Z.
    - done.
    - apply Z.mod_pos_bound. lia.
    - split; [apply Z.div_pos; lia|]. apply Z.div_lt_upper_bound; lia. }
  pose proof (Z.mod_pos_bound (Z.of_N id) (2 ^ 64) ltac:(lia)).
  pose proof (Z.div_mod (Z.of_N id) (2 ^ 64) ltac:(lia)).
  cbn [fst snd]. unfold in_u.
  split_and!; try lia; try done; (apply Z.div_pos || apply Z.div_lt_upper_bound); lia.
Qed.

(** The two-phase swap of a handle.  While one slot is free, staging a new
    physical ID leaves the active ID alone, undoing it restores the handle up to
    its timestamp, and committing it makes the staged ID active and, once the old
    one is cleared, frees a slot for the next update.  When both slots are taken
    nothing is allocated and the handle is unchanged. *)
Theorem handle_swap (h : Handle) (newid : UUID) (now : Z) :
  GetActiveID h ≠ NilUUID → newid ≠ NilUUID →
  let '(id, h1) := AllocateID newid now h in
  if IsAandBinUse h then id = NilUUID ∧ h1 = h
  else
    let h2 := FlipActiveID h1 in
    id = newid ∧ GetActiveID h1 = GetActiveID h ∧ GetInActiveID h1 = newid ∧
    IsAandBinUse h1 = true ∧
    ClearInactiveID h1 = set_Timestamp h 0 ∧
    GetActiveID h2 = newid ∧ GetInActiveID h2 = GetActiveID h ∧
    GetActiveID (ClearInactiveID h2) = newid ∧
    IsAandBinUse (ClearInactiveID h2) = false ∧
    LogicalID (ClearInactiveID h2) = LogicalID h.
Proof.
  destruct h as [lid a b act ver ts del].
  unfold AllocateID, IsAandBinUse, GetActiveID, GetInActiveID, ClearInactiveID, FlipActiveID,
    IsNil. cbn. intros Hact Hnew.
  destruct act; cbn; repeat case_bool_decide; cbn in *; subst; cbn;
    rewrite ?bool_decide_eq_true_2 by done; rewrite ?bool_decide_eq_false_2 by done; done.
Qed.

(** A timestamp expires after an hour and a millisecond, and not before an hour. *)
Lemma timestamp_expiry (h : Handle) (staged now : Z) :
  WorkInProgressTimestamp h = UnixMilli staged → (1000000 ≤ staged)%Z →
  ((now ≤ staged + Hour)%Z → IsExpiredInactive now h = false) ∧
  ((staged + Hour + 1000000 ≤ now)%Z → IsExpiredInactive now h = true).
Proof.
  intros Hts Hst. unfold IsExpiredInactive. rewrite Hts, Z.mul_1_l. unfold UnixMilli, Hour in *. split; intros Hn.
  - apply andb_false_iff. right. apply Z.ltb_ge. apply Z.div_le_mono; lia.
  - apply andb_true_iff. rewrite !Z.ltb_lt. split; [apply Z.div_str_pos; lia|].
    apply Z.lt_le_trans with ((staged + 1000000) `div` 1000000)%Z.
    + replace (staged + 1000000)%Z with (staged + 1 * 1000000)%Z by lia. rewrite Z.div_add by lia. lia.
    + apply Z.div_le_mono; lia.
Qed.

(** An inactive slot is only reclaimed after a full hour: a handle staged
    by [AllocateID] at one time is not expired at any time up to an hour later,
    and it is expired once more than an hour and a millisecond have passed. *)
Theorem staged_expiry (h : Handle) (newid : UUID) (staged now : Z) :
  IsAandBinUse h = false → (1000000 ≤ staged)%Z →
  let h1 := (AllocateID newid staged h).2 in
  ((now ≤ staged + Hour)%Z → IsExpiredInactive now h1 = false) ∧
  ((staged + Hour + 1000000 ≤ now)%Z → IsExpiredInactive now h1 = true).
Proof.
  intros Hfree Hst. unfold AllocateID. rewrite Hfree. cbv zeta.
  destruct (IsActiveIDB _); by apply timestamp_expiry.
Qed.

(** ** Encoding *)

Section decode_lemmas.
Context (FromBytes : list Z → option UUID).
Hypothesis HFB : FromBytes_documented FromBytes.

Lemma Next_app {E} n a r t :
  length a = n → @Next E n (mkDecoder (a ++ r) t) = (Ret a, mkDecoder r t).
Proof. intros <-. unfold Next. cbn. by rewrite take_app_length, drop_app_length. Qed.

Lemma fromBytes_16 b d :
  length b = 16 → fromBytes FromBytes b d = (Ret (uuid_of_bytes b), d).
Proof. intros Hb. unfold fromBytes. rewrite HFB, decide_True by done. done. Qed.

Lemma fromBytes_short b d :
  length b ≠ 16 → fromBytes FromBytes b d = (Fail ErrFromBytes, d).
Proof. intros Hb. unfold fromBytes. rewrite HFB, decide_False by done. done. Qed.

Lemma Uint_exact n b d : length b = n → Uint n b d = (Ret (le_val b), d).
Proof. intros <-. unfold Uint. rewrite decide_True by done. by rewrite take_ge. Qed.

Lemma Uint_short n b d : length b < n → Uint n b d = (Panic, d).
Proof. intros Hb. unfold Uint. rewrite decide_False by lia. done. Qed.

Lemma set_if_one_run b f d :
  set_if_one b f d =
    (Ret (), mkDecoder (d_rest d) (if decide (b = 1%Z) then f (d_target d) else d_target d)).
Proof. unfold set_if_one. destruct d. by case_decide. Qed.

Lemma or_panic_short {E} (bs : list Z) d :
  length bs = 0 → @or_panic decoder E Z (bs !! 0) d = (Panic, d).
Proof. intros ->%nil_length_inv. done. Qed.

Lemma or_panic_one {E} (bs : list Z) d :
  length bs = 1 → @or_panic decoder E Z (bs !! 0) d = (Ret (default 0%Z (bs !! 0)), d).
Proof. by destruct bs as [|b [|]]. Qed.
End decode_lemmas.

Ltac len := rewrite ?length_take, ?length_drop; lia.
Ltac decode_step := first
  [ reflexivity
  | apply set_if_one_run
  | apply fromBytes_16; [assumption|len]
  | apply fromBytes_short; [assumption|len]
  | apply Uint_exact; len
  | apply Uint_short; len
  | apply or_panic_one; len
  | apply or_panic_short; len ].
Ltac decode_run := repeat (run_by decode_step; cbn [d_rest d_target]; rewrite ?drop_drop).

(** On truncated data [decode] returns an error while a UUID is incomplete and
    panics afterwards. *)
Lemma decode_short FromBytes data t :
  FromBytes_documented FromBytes → length data < HandleSizeInBytes →
  (decode FromBytes (mkDecoder data t)).1 =
    if decide (length data < 48) then Fail ErrFromBytes else Panic.
Proof.
  unfold HandleSizeInBytes, decode. intros HFB Hlen.
  assert (length data < 16 ∨ 16 ≤ length data < 32 ∨ 32 ≤ length data < 48 ∨
          length data = 48 ∨ 49 ≤ length data < 53 ∨ 53 ≤ length data < 61 ∨
          length data = 61) as Hc by lia.
  destruct Hc as [Hc|[Hc|[Hc|[Hc|[Hc|[Hc|Hc]]]]]];
    first [rewrite decide_True by lia|rewrite decide_False by lia]; decode_run; reflexivity.
Qed.

(** Decoding an encoded handle over [t]. *)
Definition decoded_over (t h : Handle) : Handle :=
  set_IsDeleted (set_IsActiveIDB h (IsActiveIDB t || IsActiveIDB h)) (IsDeleted t || IsDeleted h).

Ltac enc_step := first
  [ apply Next_app; by autorewrite with go_rw
  | apply set_if_one_run
  | apply fromBytes_16; [assumption|by autorewrite with go_rw]
  | apply Uint_exact; by autorewrite with go_rw
  | reflexivity ].

Lemma decode_encode FromBytes h rest t :
  FromBytes_documented FromBytes → handle_wf h →
  decode FromBytes (mkDecoder (encode h ++ rest) t) = (Ret (), mkDecoder rest (decoded_over t h)).
Proof.
  intros HFB (Hl & Ha & Hb & Hv & Ht). unfold decode, encode.
  rewrite <- !app_assoc.
  repeat (run_by enc_step; cbn [d_rest d_target]).
  rewrite !uuid_of_bytes_of by done.
  rewrite !le_val_le_bytes by (apply wrap_u_range; lia).
  rewrite !wrap_s_wrap_u by (done || lia).
  destruct h as [lid a b act ver ts del], t as [lid' a' b' act' ver' ts' del'].
  destruct act, del, act', del'; reflexivity.
Qed.

(** The binary format of handles round-trips.  Marshalling appends exactly
    62 bytes to the buffer, and unmarshalling them, whatever follows, into a
    fresh handle gives the handle back and its logical ID alone as well; into a
    used target the two flags are only ever set, never cleared. *)
Theorem handle_roundtrip FromBytes h buffer rest t :
  FromBytes_documented FromBytes → handle_wf h →
  length (Marshal h buffer) = length buffer + HandleSizeInBytes ∧
  Unmarshal FromBytes (Marshal h [] ++ rest) zero_handle = (Ret (), h) ∧
  UnmarshalLogicalID FromBytes (Marshal h [] ++ rest) = Ok (LogicalID h) ∧
  Unmarshal FromBytes (Marshal h [] ++ rest) t = (Ret (), decoded_over t h).
Proof.
  intros HFB Hwf. unfold Marshal, Unmarshal. cbn [app]. rewrite !decode_encode by done.
  split_and!.
  - unfold encode, HandleSizeInBytes. autorewrite with go_rw. cbn. lia.
  - destruct h as [lid a b [] ver ts []]; reflexivity.
  - unfold UnmarshalLogicalID, encode. rewrite <- !app_assoc.
    rewrite take_app_length' by (by rewrite length_uuid_bytes).
    rewrite HFB, decide_True by (by rewrite length_uuid_bytes).
    by rewrite uuid_of_bytes_of by apply Hwf.
  - done.
Qed.

(** Unmarshalling truncated data never succeeds: below 48 bytes it is an
    error, from 48 to 61 bytes the run-time bounds check panics; from 62 bytes on
    an encoded handle is needed and enough. *)
Theorem unmarshal_truncated FromBytes data t :
  FromBytes_documented FromBytes → length data < HandleSizeInBytes →
  (Unmarshal FromBytes data t).1 =
    (if decide (length data < 48) then Fail ErrFromBytes else Panic).
Proof.
  intros HFB Hlen. unfold Unmarshal. rewrite <- (decode_short FromBytes data t HFB Hlen).
  by destruct (decode FromBytes _).
Qed.

(** ** Witnesses *)

Definition sample_handle : Handle :=
  mkHandle 0x0102030405060708090a0b0c0d0e0f10 7 (2 ^ 127 + 5) true (-3) 1700000000000 true.

Lemma sample_wf : handle_wf sample_handle.
Proof. unfold handle_wf, uuid_wf, in_s, sample_handle. cbn. lia. Qed.

Lemma FromBytes_ref_documented : FromBytes_documented FromBytes_ref.
Proof. by intros b. Qed.

Lemma Split_exact_witness :
  uuid_wf 0x0102030405060708090a0b0c0d0e0f10 ∧
  Split 0x0102030405060708090a0b0c0d0e0f10 = (0x0102030405060708, 0x090a0b0c0d0e0f10)%Z ∧
  in_u 64 (Split 0x0102030405060708090a0b0c0d0e0f10).1.
Proof.
  split; [done|]. split; [vm_compute; reflexivity|].
  apply (Split_exact 0x0102030405060708090a0b0c0d0e0f10). done.
Defined.

Lemma handle_swap_witness :
  let '(id, h1) := AllocateID 9 5 (NewHandle 7) in
  if IsAandBinUse (NewHandle 7) then id = NilUUID ∧ h1 = NewHandle 7
  else
    let h2 := FlipActiveID h1 in
    id = 9%N ∧ GetActiveID h1 = GetActiveID (NewHandle 7) ∧ GetInActiveID h1 = 9%N ∧
    IsAandBinUse h1 = true ∧
    ClearInactiveID h1 = set_Timestamp (NewHandle 7) 0 ∧
    GetActiveID h2 = 9%N ∧ GetInActiveID h2 = GetActiveID (NewHandle 7) ∧
    GetActiveID (ClearInactiveID h2) = 9%N ∧
    IsAandBinUse (ClearInactiveID h2) = false ∧
    LogicalID (ClearInactiveID h2) = LogicalID (NewHandle 7).
Proof. apply (handle_swap (NewHandle 7) 9 5); done. Defined.

Lemma staged_expiry_witness :
  IsExpiredInactive (2000000 + Hour) (AllocateID 9 2000000 (NewHandle 7)).2 = false.
Proof.
  apply (staged_expiry (NewHandle 7) 9 2000000 (2000000 + Hour)); [reflexivity|lia|lia].
Defined.

Lemma handle_roundtrip_witness :
  length (Marshal sample_handle [1%Z]) = 63 ∧
  Unmarshal FromBytes_ref (Marshal sample_handle [] ++ [255%Z]) zero_handle =
    (Ret (), sample_handle) ∧
  UnmarshalLogicalID FromBytes_ref (Marshal sample_handle [] ++ [255%Z]) =
    Ok (LogicalID sample_handle) ∧
  Unmarshal FromBytes_ref (Marshal sample_handle [] ++ [255%Z]) zero_handle =
    (Ret (), decoded_over zero_handle sample_handle).
Proof.
  apply (handle_roundtrip FromBytes_ref sample_handle [1%Z] [255%Z] zero_handle).
  - apply FromBytes_ref_documented.
  - apply sample_wf.
Defined.

Lemma unmarshal_truncated_witness :
  (Unmarshal FromBytes_ref (take 50 (encode sample_handle)) zero_handle).1 = Panic.
Proof.
  apply (unmarshal_truncated FromBytes_ref (take 50 (encode sample_handle)) zero_handle).
  - apply FromBytes_ref_documented.
  - vm_compute. lia.
Defined.
