(* ===== verification/Verify.v ===== *)
(** * verify/verify.go: the barrier

    A [Workflow] is a set of steps with pre- and postconditions and a list of
    precedence rules; a [Trace] is the record of one run.  Every exported method
    of the package takes the trace mutex for its whole body, so a concurrent
    history is a sequence of the atomic operations modelled here, in the order
    in which they get the lock (the relation [trace_step]). *)

From S2P Require Import Prelude.

Abbreviation State := string (only parsing).
Abbreviation StepID := string (only parsing).

(** ** Data (verify.go) *)

Record Step := mkStep {
  step_ID : StepID;
  step_Requires : list State;
  step_Establishes : list State;
}.

Record SafetyRule := mkSafetyRule {
  rule_Name : string;
  rule_Forbidden : State;
  rule_Requires : State;
}.

Record ReachabilityRule := mkReachabilityRule {
  rrule_Name : string;
  rrule_Target : State;
}.

Record Workflow := mkWorkflow {
  wf_Steps : gmap StepID Step;
  wf_Safety : list SafetyRule;
  wf_Reachability : list ReachabilityRule;
}.

(** The message of a [Violation] is a [fmt.Sprintf] of one of two formats; the
    model keeps the format and its arguments. *)
Inductive ViolationMessage :=
| MsgPrecondition (step : StepID) (req : State)
| MsgForbidden (step : StepID) (est req : State) (rule : string).

Record Violation := mkViolation {
  v_Rule : string;
  v_Message : ViolationMessage;
  v_MissingState : State;
  v_Attempts : Z;
}.

(** The errors the package returns: [fmt.Errorf] values are told apart by their
    format, [*Violation] and [*KeyReusedError] are the two exported types. *)
Inductive verify_error :=
| ErrUnknownStep (step : StepID)
| ErrDuplicateStep (step : StepID)
| ErrViolation (v : Violation)
| ErrKeyReused (key : string) (usedFor requested : StepID)
| ErrNoEstablisher (rule : string) (target : State)
| ErrStuck (rule : string) (target : State) (stuck : list State).

(** A Go [error]: [None] is nil. *)
Abbreviation gerror := (option verify_error) (only parsing).

Definition IsViolation (e : gerror) : bool :=
  match e with Some (ErrViolation _) => true | _ => false end.

Definition IsKeyReused (e : gerror) : bool :=
  match e with Some (ErrKeyReused _ _ _) => true | _ => false end.

Record commitRecord := mkCommitRecord {
  cr_step : StepID;
  cr_err : gerror;
}.

(** [Holds : map[State]bool] only ever stores true, so it is the set of its keys. *)
Record Trace := mkTrace {
  t_Executed : list StepID;
  t_Holds : gset State;
  t_commits : gmap string commitRecord;
  t_commitOrder : list string;
  t_blocked : gmap (StepID * string) Z;
}.

Definition maxIdempotencyKeysPerTrace : nat := 256.

Definition NewTrace : Trace := mkTrace [] ∅ ∅ [] ∅.

(** ** Operations *)

Fixpoint NewWorkflow_index (steps : list Step) (index : gmap StepID Step)
    : result verify_error (gmap StepID Step) :=
  match steps with
  | [] => Ok index
  | s :: rest =>
      match index !! step_ID s with
      | Some _ => Err (ErrDuplicateStep (step_ID s))
      | None => NewWorkflow_index rest (<[step_ID s := s]> index)
      end
  end.

Definition NewWorkflow (steps : list Step) (safety : list SafetyRule)
    (reachability : list ReachabilityRule) : result verify_error Workflow :=
  match NewWorkflow_index steps ∅ with
  | Err e => Err e
  | Ok index => Ok (mkWorkflow index safety reachability)
  end.

Definition ExecutedSteps (t : Trace) : list StepID := t_Executed t.

(** The precondition loop of [checkSafetyLocked]. *)
Fixpoint checkRequires (next : StepID) (holds : gset State) (reqs : list State) : gerror :=
  match reqs with
  | [] => None
  | req :: rest =>
      if decide (req ∈ holds) then checkRequires next holds rest
      else Some (ErrViolation (mkViolation "precondition" (MsgPrecondition next req) req 0))
  end.

(** The inner loop over the safety rules, for one established state. *)
Fixpoint checkRules (next : StepID) (holds : gset State) (est : State)
    (rules : list SafetyRule) : gerror :=
  match rules with
  | [] => None
  | rule :: rest =>
      if decide (rule_Forbidden rule ≠ est) then checkRules next holds est rest
      else if decide (rule_Requires rule ∈ holds) then checkRules next holds est rest
      else Some (ErrViolation (mkViolation (rule_Name rule)
                  (MsgForbidden next est (rule_Requires rule) (rule_Name rule))
                  (rule_Requires rule) 0))
  end.

(** The outer loop over the established states. *)
Fixpoint checkEstablishes (next : StepID) (holds : gset State) (rules : list SafetyRule)
    (ests : list State) : gerror :=
  match ests with
  | [] => None
  | est :: rest =>
      match checkRules next holds est rules with
      | Some e => Some e
      | None => checkEstablishes next holds rules rest
      end
  end.

Definition checkSafetyLocked (w : Workflow) (trace : Trace) (next : StepID) : gerror :=
  match wf_Steps w !! next with
  | None => Some (ErrUnknownStep next)
  | Some step =>
      match checkRequires next (t_Holds trace) (step_Requires step) with
      | Some e => Some e
      | None => checkEstablishes next (t_Holds trace) (wf_Safety w) (step_Establishes step)
      end
  end.

Definition CheckSafety (w : Workflow) (trace : Trace) (next : StepID) : gerror :=
  checkSafetyLocked w trace next.

Definition commitLocked (w : Workflow) (trace : Trace) (next : StepID) : gerror * Trace :=
  match wf_Steps w !! next with
  | None => (Some (ErrUnknownStep next), trace)
  | Some step =>
      (None,
       mkTrace (t_Executed trace ++ [next])
         (t_Holds trace ∪ list_to_set (step_Establishes step))
         (t_commits trace) (t_commitOrder trace) (t_blocked trace))
  end.

Definition Commit (w : Workflow) (trace : Trace) (next : StepID) : gerror * Trace :=
  commitLocked w trace next.

(** [trace.blocked[key]++; v.Attempts = trace.blocked[key]] for a violation. *)
Definition countBlocked (trace : Trace) (next : StepID) (v : Violation) : gerror * Trace :=
  let key := (next, v_Rule v) in
  let n := wrap_s 64 (default 0%Z (t_blocked trace !! key) + 1) in
  (Some (ErrViolation (mkViolation (v_Rule v) (v_Message v) (v_MissingState v) n)),
   mkTrace (t_Executed trace) (t_Holds trace) (t_commits trace) (t_commitOrder trace)
     (<[key := n]> (t_blocked trace))).

Definition checkAndCommitLocked (w : Workflow) (trace : Trace) (next : StepID)
    : gerror * Trace :=
  match checkSafetyLocked w trace next with
  | Some (ErrViolation v) => countBlocked trace next v
  | Some e => (Some e, trace)
  | None => commitLocked w trace next
  end.

Definition CheckAndCommit (w : Workflow) (trace : Trace) (next : StepID) : gerror * Trace :=
  checkAndCommitLocked w trace next.

(** The eviction loop: drop the oldest keys while the order list is full. *)
Fixpoint evictKeys (order : list string) (commits : gmap string commitRecord)
    : list string * gmap string commitRecord :=
  match order with
  | [] => ([], commits)
  | oldest :: rest =>
      if decide (maxIdempotencyKeysPerTrace ≤ length order)
      then evictKeys rest (delete oldest commits)
      else (order, commits)
  end.

(** The block of [CheckAndCommitIdempotent] after the check, for a non-empty key. *)
Definition recordOutcome (trace : Trace) (next : StepID) (key : string) (err : gerror) : Trace :=
  let '(order, commits) :=
    match t_commits trace !! key with
    | Some _ => (t_commitOrder trace, t_commits trace)
    | None =>
        let '(order, commits) := evictKeys (t_commitOrder trace) (t_commits trace) in
        (order ++ [key], commits)
    end in
  mkTrace (t_Executed trace) (t_Holds trace)
    (<[key := mkCommitRecord next err]> commits) order (t_blocked trace).

Definition CheckAndCommitIdempotent (w : Workflow) (trace : Trace) (next : StepID)
    (idempotencyKey : string) : bool * gerror * Trace :=
  if decide (idempotencyKey = "") then
    let '(err, trace') := checkAndCommitLocked w trace next in (false, err, trace')
  else
    match t_commits trace !! idempotencyKey with
    | Some cached =>
        if decide (cr_step cached ≠ next)
        then (false, Some (ErrKeyReused idempotencyKey (cr_step cached) next), trace)
        else (true, cr_err cached, trace)
    | None =>
        let '(err, trace') := checkAndCommitLocked w trace next in
        (false, err, recordOutcome trace' next idempotencyKey err)
    end.

Definition NextRunEstablishingSteps : string := "run_established_by_steps".
Definition NextStopAndAsk : string := "stop_and_ask".

Inductive WhyMessage :=
| WhyPrecondition (missing : State)
| WhyRule (rule : string) (forbidden requires : State)
| WhyUnknownRule (rule : string) (missing : State).

Definition WhyBlocked (w : Workflow) (v : Violation) : WhyMessage :=
  if decide (v_Rule v = "precondition") then WhyPrecondition (v_MissingState v)
  else
    match List.find (λ r, bool_decide (rule_Name r = v_Rule v)) (wf_Safety w) with
    | Some r => WhyRule (rule_Name r) (rule_Forbidden r) (rule_Requires r)
    | None => WhyUnknownRule (v_Rule v) (v_MissingState v)
    end.

(** [StepsThatEstablish] ranges over the step map in the order [ord] and sorts
    the result ([sort.Slice] by [<] on strings). *)
Definition establishes (step : Step) (state : State) : bool :=
  existsb (λ est, bool_decide (est = state)) (step_Establishes step).

Definition StepsThatEstablish (ord : list (StepID * Step)) (state : State) : list StepID :=
  merge_sort String.le
    (omap (λ '(id, step), if establishes step state then Some id else None) ord).

Definition NextAction (ord : list (StepID * Step)) (v : Violation) : string :=
  if decide (0 < length (StepsThatEstablish ord (v_MissingState v)))
  then NextRunEstablishingSteps else NextStopAndAsk.

(** ** Histories of one shared trace *)

Inductive trace_op :=
| OpCheckSafety (next : StepID)
| OpCheckAndCommit (next : StepID)
| OpCheckAndCommitIdempotent (next : StepID) (key : string)
| OpCommit (next : StepID).

Definition apply_op (w : Workflow) (t : Trace) (op : trace_op) : Trace :=
  match op with
  | OpCheckSafety _ => t
  | OpCheckAndCommit next => (CheckAndCommit w t next).2
  | OpCheckAndCommitIdempotent next key => (CheckAndCommitIdempotent w t next key).2
  | OpCommit next => (Commit w t next).2
  end.

(** What the callers in tools/mcpserver and tools/a2aagent may do: any gated
    operation, in any interleaving. *)
Inductive gated : trace_op → Prop :=
| gated_check next : gated (OpCheckSafety next)
| gated_cac next : gated (OpCheckAndCommit next)
| gated_caci next key : gated (OpCheckAndCommitIdempotent next key).

Inductive trace_step (w : Workflow) : Trace → Trace → Prop :=
| trace_step_op t op : gated op → trace_step w t (apply_op w t op).

Definition reachable_trace (w : Workflow) : Trace → Prop := rtc (trace_step w) NewTrace.

(** ** Specification

    [states_of w l] is what the committed steps [l] have established,
    [allowed w holds s] the documented rule of the barrier. *)

Definition establishes_of (w : Workflow) (s : StepID) : gset State :=
  match wf_Steps w !! s with
  | Some step => list_to_set (step_Establishes step)
  | None => ∅
  end.

Definition states_of (w : Workflow) (l : list StepID) : gset State :=
  ⋃ (establishes_of w <$> l).

Definition allowed (w : Workflow) (holds : gset State) (s : StepID) : Prop :=
  ∃ step, wf_Steps w !! s = Some step ∧
    (∀ req, req ∈ step_Requires step → req ∈ holds) ∧
    (∀ rule, rule ∈ wf_Safety w → rule_Forbidden rule ∈ step_Establishes step →
       rule_Requires rule ∈ holds).

(** Why a violation is one: the missing state does not hold and is required by
    the step itself or by the rule the violation names. *)
Definition justified (w : Workflow) (holds : gset State) (s : StepID) (v : Violation) : Prop :=
  v_MissingState v ∉ holds ∧
  ∃ step, wf_Steps w !! s = Some step ∧
    ((v_Rule v = "precondition" ∧ v_MissingState v ∈ step_Requires step) ∨
     (∃ rule, rule ∈ wf_Safety w ∧ v_Rule v = rule_Name rule ∧
        v_MissingState v = rule_Requires rule ∧
        rule_Forbidden rule ∈ step_Establishes step)).

(** ** Lemmas *)

Section check_lemmas.
Context (next : StepID) (holds : gset State).

Lemma checkRequires_None reqs :
  checkRequires next holds reqs = None ↔ ∀ r, r ∈ reqs → r ∈ holds.
Proof.
  induction reqs as [|r reqs IH]; simpl; [set_solver|].
  case_decide; rewrite ?IH; [set_solver|]. split; [done|]. set_solver.
Qed.

Lemma checkRequires_Some reqs e :
  checkRequires next holds reqs = Some e →
  ∃ v, e = ErrViolation v ∧ v_Rule v = "precondition" ∧
    v_MissingState v ∈ reqs ∧ v_MissingState v ∉ holds.
Proof.
  induction reqs as [|r reqs IH]; simpl; [done|].
  case_decide; intros He; [|simplify_eq; eexists; repeat split; set_solver].
  destruct (IH He) as (v & ? & ? & ? & ?). exists v. set_solver.
Qed.

Lemma checkRules_None est rules :
  checkRules next holds est rules = None ↔
  ∀ r, r ∈ rules → rule_Forbidden r = est → rule_Requires r ∈ holds.
Proof.
  induction rules as [|r rules IH]; simpl; [set_solver|].
  repeat case_decide; rewrite ?IH; set_solver.
Qed.

Lemma checkRules_Some est rules e :
  checkRules next holds est rules = Some e →
  ∃ v r, e = ErrViolation v ∧ r ∈ rules ∧ v_Rule v = rule_Name r ∧
    v_MissingState v = rule_Requires r ∧ rule_Forbidden r = est ∧
    rule_Requires r ∉ holds.
Proof.
  induction rules as [|r rules IH]; simpl; [done|].
  repeat case_decide; intros He;
    try (destruct (IH He) as (v & r' & ?); exists v, r'; set_solver).
  simplify_eq. eexists _, r. split; [done|]. set_solver.
Qed.

Lemma checkEstablishes_None rules ests :
  checkEstablishes next holds rules ests = None ↔
  ∀ r, r ∈ rules → rule_Forbidden r ∈ ests → rule_Requires r ∈ holds.
Proof.
  induction ests as [|est ests IH]; simpl; [set_solver|].
  pose proof (checkRules_None est rules) as HN.
  destruct (checkRules next holds est rules); rewrite ?IH; [|set_solver].
  split; [done|]. intros Hall. apply HN. set_solver.
Qed.

Lemma checkEstablishes_Some rules ests e :
  checkEstablishes next holds rules ests = Some e →
  ∃ v r, e = ErrViolation v ∧ r ∈ rules ∧ v_Rule v = rule_Name r ∧
    v_MissingState v = rule_Requires r ∧ rule_Forbidden r ∈ ests ∧
    rule_Requires r ∉ holds.
Proof.
  induction ests as [|est ests IH]; simpl; [done|].
  destruct (checkRules next holds est rules) eqn:Er; intros; simplify_eq.
  - apply checkRules_Some in Er as (v & r & ?). exists v, r. set_solver.
  - destruct (IH ltac:(done)) as (v & r & ?). exists v, r. set_solver.
Qed.
End check_lemmas.

Lemma checkSafety_None w t s :
  checkSafetyLocked w t s = None ↔ allowed w (t_Holds t) s.
Proof.
  unfold checkSafetyLocked, allowed.
  destruct (wf_Steps w !! s) as [step|]; [|naive_solver].
  pose proof (checkRequires_None s (t_Holds t) (step_Requires step)).
  pose proof (checkEstablishes_None s (t_Holds t) (wf_Safety w) (step_Establishes step)).
  destruct (checkRequires _ _ _); naive_solver.
Qed.

Lemma checkSafety_Some w t s e :
  checkSafetyLocked w t s = Some e →
  (e = ErrUnknownStep s ∧ wf_Steps w !! s = None) ∨
  (∃ v, e = ErrViolation v ∧ justified w (t_Holds t) s v).
Proof.
  unfold checkSafetyLocked, justified.
  destruct (wf_Steps w !! s) as [step|] eqn:Hs; [|naive_solver].
  destruct (checkRequires _ _ _) eqn:Er; intros He; right; simplify_eq.
  - apply checkRequires_Some in Er as (v & ? & ? & ? & ?). naive_solver.
  - apply checkEstablishes_Some in He as (v & r & ? & ? & ? & Hm & ? & ?).
    exists v. rewrite Hm. split; [done|]. split; [done|].
    exists step. split; [done|]. right. by exists r.
Qed.

Lemma allowed_mono w h1 h2 s : h1 ⊆ h2 → allowed w h1 s → allowed w h2 s.
Proof. unfold allowed. set_solver. Qed.

Lemma states_of_app w l1 l2 : states_of w (l1 ++ l2) = states_of w l1 ∪ states_of w l2.
Proof. unfold states_of. by rewrite fmap_app, union_list_app_L. Qed.

Lemma states_of_elem w l x :
  x ∈ states_of w l ↔
  ∃ s step, s ∈ l ∧ wf_Steps w !! s = Some step ∧ x ∈ step_Establishes step.
Proof.
  unfold states_of, establishes_of. rewrite elem_of_union_list. split.
  - intros (X & (s & -> & Hs)%list_elem_of_fmap & Hx).
    destruct (wf_Steps w !! s) eqn:E; set_solver.
  - intros (s & step & Hs & E & Hx). eexists. rewrite list_elem_of_fmap.
    split; [exists s; split; [done|done]|]. rewrite E. set_solver.
Qed.

(** The effect of one gated operation on what the trace records. *)
Lemma commitLocked_allowed w t s :
  allowed w (t_Holds t) s →
  ∃ t', commitLocked w t s = (None, t') ∧ t_Executed t' = t_Executed t ++ [s] ∧
    t_Holds t' = t_Holds t ∪ establishes_of w s ∧
    t_commits t' = t_commits t ∧ t_commitOrder t' = t_commitOrder t.
Proof.
  intros (step & Hs & _). unfold commitLocked, establishes_of. rewrite Hs.
  eexists; split_and!; done.
Qed.

Definition same_record (t t' : Trace) : Prop :=
  t_Executed t' = t_Executed t ∧ t_Holds t' = t_Holds t.

Definition same_keys (t t' : Trace) : Prop :=
  t_commits t' = t_commits t ∧ t_commitOrder t' = t_commitOrder t.

Lemma checkAndCommitLocked_cases w t s e t' :
  checkAndCommitLocked w t s = (e, t') →
  same_keys t t' ∧
  ((e = None ∧ allowed w (t_Holds t) s ∧ t_Executed t' = t_Executed t ++ [s] ∧
      t_Holds t' = t_Holds t ∪ establishes_of w s) ∨
   (e ≠ None ∧ ¬ allowed w (t_Holds t) s ∧ same_record t t')).
Proof.
  unfold checkAndCommitLocked, same_keys, same_record.
  destruct (checkSafetyLocked w t s) as [e'|] eqn:Ec.
  - assert (¬ allowed w (t_Holds t) s) by (rewrite <- checkSafety_None; congruence).
    destruct e'; intros; simplify_eq/=; try by eauto 10.
    unfold countBlocked in *; simplify_eq/=; eauto 10.
  - apply checkSafety_None in Ec as Ha.
    destruct (commitLocked_allowed w t s Ha) as (t2 & E & ? & ? & ? & ?).
    rewrite E. intros; simplify_eq. eauto 10.
Qed.

Lemma recordOutcome_record t s k e : same_record t (recordOutcome t s k e).
Proof. unfold recordOutcome, same_record. by repeat case_match. Qed.

(** *** The record of a reachable trace *)

Definition record_inv (w : Workflow) (t : Trace) : Prop :=
  t_Holds t = states_of w (t_Executed t) ∧
  ∀ pre s post, t_Executed t = pre ++ s :: post → allowed w (states_of w pre) s.

Lemma record_inv_same w t t' : same_record t t' → record_inv w t → record_inv w t'.
Proof. unfold same_record, record_inv. intros [-> ->]. done. Qed.

Lemma record_inv_commit w t t' s :
  record_inv w t → allowed w (t_Holds t) s →
  t_Executed t' = t_Executed t ++ [s] → t_Holds t' = t_Holds t ∪ establishes_of w s →
  record_inv w t'.
Proof.
  intros [Hh Hp] Ha HE HH. split.
  - rewrite HH, HE, states_of_app, Hh. unfold states_of. simpl. by rewrite union_empty_r_L.
  - intros pre s' post. rewrite HE.
    induction post as [|x post' _] using rev_ind.
    + intros [<- <-]%app_inj_tail. by rewrite <- Hh.
    + rewrite app_comm_cons, app_assoc. intros [Heq _]%app_inj_tail. eauto.
Qed.

Lemma record_inv_locked w t s e t' :
  record_inv w t → checkAndCommitLocked w t s = (e, t') → record_inv w t'.
Proof.
  intros Hi [_ [(-> & Ha & HE & HH)|(_ & _ & Hs)]]%checkAndCommitLocked_cases.
  - eapply record_inv_commit; eauto.
  - eapply record_inv_same; eauto.
Qed.

Lemma record_inv_op w t op : gated op → record_inv w t → record_inv w (apply_op w t op).
Proof.
  intros Hg Hi. inversion Hg; subst; simpl; [done| |].
  - unfold CheckAndCommit. destruct (checkAndCommitLocked w t next) eqn:E.
    eapply record_inv_locked; eauto.
  - unfold CheckAndCommitIdempotent.
    destruct (checkAndCommitLocked w t next) as [e t'] eqn:E.
    assert (record_inv w t') by (eapply record_inv_locked; eauto).
    repeat case_decide; repeat case_match; simplify_eq/=; try done.
    eapply record_inv_same; [apply recordOutcome_record|done].
Qed.

Lemma reachable_record w t : reachable_trace w t → record_inv w t.
Proof.
  unfold reachable_trace. revert t. apply rtc_ind_r; [|intros t t' _ [t0 op Hg] IH].
  - split; [done|]. by intros [|? ?] ? ?.
  - by apply record_inv_op.
Qed.

(** *** The idempotency cache of a reachable trace *)

Definition key_inv (t : Trace) : Prop :=
  NoDup (t_commitOrder t) ∧ length (t_commitOrder t) ≤ maxIdempotencyKeysPerTrace ∧
  ∀ k, is_Some (t_commits t !! k) ↔ k ∈ t_commitOrder t.

Lemma evictKeys_spec order commits :
  length order ≤ maxIdempotencyKeysPerTrace →
  evictKeys order commits =
    match order with
    | oldest :: rest =>
        if decide (length order = maxIdempotencyKeysPerTrace)
        then (rest, delete oldest commits) else (order, commits)
    | [] => (order, commits)
    end.
Proof.
  intros Hl. destruct order as [|o [|o' rest]]; [done|done|].
  cbn [evictKeys]. repeat case_decide; simpl in *; try done; exfalso; lia.
Qed.

Lemma key_inv_same t t' : same_keys t t' → key_inv t → key_inv t'.
Proof. unfold same_keys, key_inv. by intros [-> ->]. Qed.

Definition keys_of (commits : gmap string commitRecord) (order : list string) : Prop :=
  ∀ k, is_Some (commits !! k) ↔ k ∈ order.

Lemma keys_of_insert commits order k r :
  keys_of commits order → keys_of (<[k := r]> commits) (order ++ [k]).
Proof.
  unfold keys_of. intros Hk k'. rewrite lookup_insert_is_Some', elem_of_app, Hk, list_elem_of_singleton.
  naive_solver.
Qed.

Lemma keys_of_delete commits o rest :
  NoDup (o :: rest) → keys_of commits (o :: rest) → keys_of (delete o commits) rest.
Proof.
  unfold keys_of. intros [Hno _]%NoDup_cons Hk k'. rewrite lookup_delete_is_Some, Hk, elem_of_cons.
  split; [naive_solver|]. intros ?. split; [|by right]. by intros <-.
Qed.

Lemma NoDup_snoc {A} (l : list A) x : NoDup l → x ∉ l → NoDup (l ++ [x]).
Proof. intros. apply NoDup_app. split; [done|]. split; [set_solver|apply NoDup_singleton]. Qed.

Lemma key_inv_record t s k e : key_inv t → key_inv (recordOutcome t s k e).
Proof.
  intros (Hnd & Hl & Hdom). unfold recordOutcome.
  destruct (t_commits t !! k) eqn:Ek.
  - split; [done|]. split; [done|]. intros k'. cbn.
    rewrite lookup_insert_is_Some'. rewrite Hdom. split; [|by right].
    intros [<-|?]; [|done]. apply Hdom. by rewrite Ek.
  - assert (k ∉ t_commitOrder t) as Hk by (rewrite <- Hdom, Ek; by intros []).
    rewrite evictKeys_spec by done. unfold key_inv.
    destruct (t_commitOrder t) as [|o rest] eqn:Eo; [|case_decide]; cbn -[app].
    + split_and!; [by apply NoDup_snoc|unfold maxIdempotencyKeysPerTrace; simpl; lia|].
      by apply keys_of_insert.
    + rewrite length_app; cbn in *.
      split_and!; [|lia|by apply keys_of_insert, keys_of_delete].
      apply NoDup_cons in Hnd as [? ?]. apply NoDup_snoc; set_solver.
    + rewrite length_app; cbn in *.
      split_and!; [by apply (NoDup_snoc (o :: rest))|lia|].
      by apply (keys_of_insert _ (o :: rest)).
Qed.

Lemma key_inv_op w t op : gated op → key_inv t → key_inv (apply_op w t op).
Proof.
  intros Hg Hi. inversion Hg; subst; simpl; [done| |].
  - unfold CheckAndCommit. destruct (checkAndCommitLocked w t next) eqn:E.
    apply checkAndCommitLocked_cases in E as [? _]. by eapply key_inv_same.
  - unfold CheckAndCommitIdempotent.
    destruct (checkAndCommitLocked w t next) as [e t'] eqn:E.
    apply checkAndCommitLocked_cases in E as [? _].
    assert (key_inv t') by (by eapply key_inv_same).
    repeat case_decide; repeat case_match; simplify_eq/=; try done.
    by apply key_inv_record.
Qed.

Lemma reachable_keys w t : reachable_trace w t → key_inv t.
Proof.
  unfold reachable_trace. revert t. apply rtc_ind_r; [|intros t t' _ [t0 op Hg] IH].
  - split; [constructor|]. split; [unfold maxIdempotencyKeysPerTrace; simpl; lia|].
    intros k. cbn. rewrite lookup_empty. split; [by intros []|set_solver].
  - by apply key_inv_op.
Qed.

(** [k] is cached with record [r], and at most [n] keys were recorded after it. *)
Definition young (k : string) (r : commitRecord) (n : nat) (t : Trace) : Prop :=
  key_inv t ∧ t_commits t !! k = Some r ∧
  ∃ l1 l2, t_commitOrder t = l1 ++ k :: l2 ∧ length l2 ≤ n.

Lemma young_record k r n t s k' e :
  young k r n t → k' ≠ k → S n < maxIdempotencyKeysPerTrace →
  young k r (S n) (recordOutcome t s k' e).
Proof.
  intros (Hi & Hk & l1 & l2 & Ho & Hl) Hne Hn.
  split; [by apply key_inv_record|].
  destruct Hi as (Hnd & Hlen & Hdom). unfold recordOutcome.
  destruct (t_commits t !! k') eqn:Ek'; cbn.
  { split; [by rewrite lookup_insert_ne|]. exists l1, l2. split; [done|lia]. }
  rewrite evictKeys_spec by done. rewrite Ho.
  destruct l1 as [|o l1]; cbn.
  - case_decide; cbn.
    { exfalso. lia. }
    split; [by rewrite lookup_insert_ne|]. exists [], (l2 ++ [k']).
    rewrite length_app; cbn. split; [done|lia].
  - assert (o ≠ k) by (rewrite Ho in Hnd; cbn in Hnd; apply NoDup_cons in Hnd; set_solver).
    case_decide; cbn.
    + split; [by rewrite lookup_insert_ne, lookup_delete_ne|].
      exists l1, (l2 ++ [k']). rewrite <- app_assoc, length_app; cbn. split; [done|lia].
    + split; [by rewrite lookup_insert_ne|].
      exists (o :: l1), (l2 ++ [k']). rewrite length_app; cbn.
      rewrite <- app_assoc. split; [done|lia].
Qed.

Lemma young_same k r n t t' : same_keys t t' → young k r n t → young k r (S n) t'.
Proof.
  intros Hs (Hi & Hk & l1 & l2 & Ho & Hl).
  split; [by eapply key_inv_same|]. destruct Hs as [-> ->].
  split; [done|]. exists l1, l2. split; [done|lia].
Qed.

Lemma young_op w k r n t op :
  gated op → young k r n t → S n < maxIdempotencyKeysPerTrace →
  young k r (S n) (apply_op w t op).
Proof.
  intros Hg Hy Hn.
  inversion Hg; subst; simpl; [apply (young_same _ _ _ t); [split|]; done| |].
  - unfold CheckAndCommit. destruct (checkAndCommitLocked w t next) eqn:E.
    apply checkAndCommitLocked_cases in E as [? _]. by eapply young_same.
  - unfold CheckAndCommitIdempotent.
    destruct (checkAndCommitLocked w t next) as [e t'] eqn:E.
    apply checkAndCommitLocked_cases in E as [Hs _].
    assert (young k r (S n) t) by (apply (young_same _ _ _ t); [split|]; done).
    assert (young k r (S n) t') by (by eapply young_same).
    repeat case_decide; repeat case_match; simplify_eq/=; try done.
    apply young_record; [|intros ->|done].
    + destruct Hs as [Hs1 Hs2]. destruct Hy as ([? [? ?]] & ? & ?).
      unfold young, key_inv. rewrite Hs1, Hs2. naive_solver.
    + destruct Hy as (_ & ? & _). congruence.
Qed.

Lemma young_ops w k r ops : ∀ n t,
  Forall gated ops → young k r n t → n + length ops < maxIdempotencyKeysPerTrace →
  young k r (n + length ops) (fold_left (apply_op w) ops t).
Proof.
  induction ops as [|op ops IH]; intros n t Hg Hy Hn; cbn in *.
  - by rewrite Nat.add_0_r.
  - inversion Hg; subst. rewrite <- Nat.add_succ_comm. apply IH; [done| |lia].
    apply young_op; [done|done|lia].
Qed.

(** ** Properties *)

(** C4: the barrier.  In every trace built by any interleaving of the gated
    operations, each executed step was executed only after all its required
    states had been established by earlier executed steps, and it established
    the forbidden state of a safety rule only after the state the rule requires
    had been established by an earlier executed step. *)
Theorem barrier_precedence (w : Workflow) (t : Trace) pre s post :
  reachable_trace w t →
  t_Executed t = pre ++ s :: post →
  ∃ step, wf_Steps w !! s = Some step ∧
    (∀ req, req ∈ step_Requires step →
       ∃ s', s' ∈ pre ∧ req ∈ establishes_of w s') ∧
    (∀ rule, rule ∈ wf_Safety w → rule_Forbidden rule ∈ step_Establishes step →
       ∃ s', s' ∈ pre ∧ rule_Requires rule ∈ establishes_of w s').
Proof.
  intros [_ Hp]%reachable_record Heq.
  destruct (Hp _ _ _ Heq) as (step & Hs & Hr & Hf). exists step. split; [done|].
  assert (∀ x, x ∈ states_of w pre → ∃ s', s' ∈ pre ∧ x ∈ establishes_of w s') as Hx.
  { intros x (s' & st & ? & E & ?)%states_of_elem. exists s'. split; [done|].
    unfold establishes_of. rewrite E. set_solver. }
  split; intros; apply Hx; auto.
Qed.

(** The answer of [CheckSafety] is exact.  It is nil exactly when the step
    exists and everything it needs holds; an unknown step is an error that is
    not a violation; any other block is a violation whose missing state does not
    hold and is one the step or the rule it names really requires. *)
Theorem CheckSafety_exact (w : Workflow) (t : Trace) (s : StepID) :
  match CheckSafety w t s with
  | None => allowed w (t_Holds t) s
  | Some (ErrViolation v) => ¬ allowed w (t_Holds t) s ∧ justified w (t_Holds t) s v
  | Some e => e = ErrUnknownStep s ∧ wf_Steps w !! s = None
  end.
Proof.
  unfold CheckSafety. pose proof (checkSafety_None w t s) as HN.
  destruct (checkSafetyLocked w t s) as [e|] eqn:E; [|by apply HN].
  apply checkSafety_Some in E as [[-> ?]|(v & -> & ?)]; [done|].
  split; [|done]. rewrite <- HN. done.
Qed.

(** A blocked or malformed call records nothing: neither the executed steps
    nor the held states nor the idempotency keys change, and a block counts one
    more attempt of that step against that rule; an allowed call appends the
    step and establishes exactly its states. *)
Theorem CheckAndCommit_effect (w : Workflow) (t : Trace) (s : StepID) :
  let '(e, t') := CheckAndCommit w t s in
  match e with
  | None => allowed w (t_Holds t) s ∧ t_Executed t' = t_Executed t ++ [s] ∧
      t_Holds t' = t_Holds t ∪ establishes_of w s ∧ t_blocked t' = t_blocked t
  | Some (ErrViolation v) => ¬ allowed w (t_Holds t) s ∧ same_record t t' ∧
      v_Attempts v = wrap_s 64 (default 0%Z (t_blocked t !! (s, v_Rule v)) + 1) ∧
      t_blocked t' = <[(s, v_Rule v) := v_Attempts v]> (t_blocked t)
  | Some _ => t' = t
  end ∧ same_keys t t'.
Proof.
  unfold CheckAndCommit, checkAndCommitLocked, same_record, same_keys.
  destruct (checkSafetyLocked w t s) as [e|] eqn:E.
  - assert (¬ allowed w (t_Holds t) s) by (rewrite <- checkSafety_None; congruence).
    destruct e; cbn; split_and!; done.
  - apply checkSafety_None in E as Ha. destruct Ha as (step & Hs & ? & ?).
    unfold commitLocked, establishes_of. rewrite Hs. cbn. split_and!; try done.
    by exists step.
Qed.

(** Retries are safe.  After a call with a fresh non-empty key was decided
    (allowed or blocked), repeating it with the same key and step gives back the
    very same answer, marked as replayed, and changes nothing, whatever fewer
    than 256 gated operations ran on the shared trace in between. *)
Theorem retry_replays (w : Workflow) (t t1 : Trace) s k e ops :
  reachable_trace w t → k ≠ "" →
  CheckAndCommitIdempotent w t s k = (false, e, t1) → IsKeyReused e = false →
  Forall gated ops → length ops < maxIdempotencyKeysPerTrace →
  let t2 := fold_left (apply_op w) ops t1 in
  CheckAndCommitIdempotent w t2 s k = (true, e, t2).
Proof.
  intros Hr Hk Hc He Hg Hl t2.
  assert (young k (mkCommitRecord s e) 0 t1) as Hy.
  { revert Hc. unfold CheckAndCommitIdempotent. rewrite decide_False by done.
    destruct (t_commits t !! k) eqn:Ek; [case_decide; naive_solver|].
    destruct (checkAndCommitLocked w t s) as [e' t'] eqn:E. intros [= -> <-].
    apply checkAndCommitLocked_cases in E as [[Hc Ho] _].
    assert (key_inv t') as Hi by (eapply key_inv_same; [done|by apply reachable_keys in Hr]).
    split; [by apply key_inv_record|].
    destruct Hi as (_ & Hlen & _). unfold recordOutcome. rewrite Hc, Ek.
    destruct (evictKeys _ _) as [o c]; cbn. split; [apply lookup_insert_eq|].
    by exists o, []. }
  apply (young_ops w _ _ ops) in Hy as (_ & Hy & _); [|done|lia].
  unfold CheckAndCommitIdempotent. rewrite decide_False by done. fold t2 in Hy.
  rewrite Hy. cbn. rewrite decide_False by naive_solver. done.
Qed.

(** The cache of idempotency keys of a trace stays bounded: it never holds
    more than 256 keys, the keys in it are distinct and are exactly those in the
    eviction order. *)
Theorem key_cache_bounded (w : Workflow) (t : Trace) :
  reachable_trace w t →
  size (t_commits t) = length (t_commitOrder t) ∧
  length (t_commitOrder t) ≤ 256 ∧ NoDup (t_commitOrder t) ∧
  dom (t_commits t) = list_to_set (t_commitOrder t).
Proof.
  intros (Hnd & Hl & Hdom)%reachable_keys.
  assert (dom (t_commits t) = list_to_set (t_commitOrder t)) as Hd.
  { apply set_eq. intros k. rewrite elem_of_dom, elem_of_list_to_set. apply Hdom. }
  split_and!; try done. rewrite <- size_dom, Hd. by apply size_list_to_set.
Qed.

(** A passed check stays valid.  Held states are never retracted, so when
    [CheckSafety] answered nil, a commit of that step is still safe after any
    operations of other callers, gated or bare commits. *)
Theorem passed_check_is_stable (w : Workflow) (t : Trace) s ops :
  CheckSafety w t s = None →
  CheckSafety w (fold_left (apply_op w) ops t) s = None.
Proof.
  unfold CheckSafety. rewrite !checkSafety_None. revert t.
  induction ops as [|op ops IH]; intros t Ha; cbn; [done|].
  apply IH. eapply allowed_mono; [|done].
  assert (∀ s' e' t', checkAndCommitLocked w t s' = (e', t') → t_Holds t ⊆ t_Holds t') as Hm.
  { intros s' e' t' [_ [(_ & _ & _ & ->)|(_ & _ & _ & ->)]]%checkAndCommitLocked_cases;
      set_solver. }
  destruct op; cbn; [done| | |].
  - unfold CheckAndCommit. destruct (checkAndCommitLocked w t next) eqn:E. eauto.
  - unfold CheckAndCommitIdempotent.
    destruct (checkAndCommitLocked w t next) as [e t'] eqn:E. apply Hm in E.
    repeat case_decide; repeat case_match; simplify_eq/=; try done.
    match goal with |- context [recordOutcome ?a ?b ?c ?d] =>
      destruct (recordOutcome_record a b c d) as [_ ->] end. done.
  - unfold Commit, commitLocked. case_match; cbn; set_solver.
Qed.

(** ** Witnesses on the runbook of the README *)

Definition backup_steps : list Step :=
  [mkStep "take_backup" [] ["backup_taken"];
   mkStep "validate_backup" ["backup_taken"] ["backup_validated"];
   mkStep "drop_prod_db" [] ["prod_db_dropped"]].

Definition backup_rules : list SafetyRule :=
  [mkSafetyRule "no-drop-without-backup" "prod_db_dropped" "backup_validated"].

Definition backup_workflow : Workflow :=
  match NewWorkflow backup_steps backup_rules [] with
  | Ok w => w
  | Err _ => mkWorkflow ∅ [] []
  end.

Definition backup_ops : list trace_op :=
  [OpCheckAndCommit "drop_prod_db"; OpCheckAndCommitIdempotent "validate_backup" "k0";
   OpCheckAndCommit "take_backup"; OpCheckAndCommitIdempotent "validate_backup" "k1";
   OpCheckAndCommit "drop_prod_db"].

Lemma reachable_fold w ops t :
  Forall gated ops → reachable_trace w t → reachable_trace w (fold_left (apply_op w) ops t).
Proof.
  revert t. induction ops as [|op ops IH]; intros t Hg Hr; cbn; [done|].
  inversion Hg; subst. apply IH; [done|]. eapply rtc_r; [done|]. by constructor.
Qed.

Example readme_run :
  t_Executed (fold_left (apply_op backup_workflow) backup_ops NewTrace) =
  ["take_backup"; "validate_backup"; "drop_prod_db"].
Proof. vm_compute. reflexivity. Qed.

Lemma backup_gated : Forall gated backup_ops.
Proof. repeat constructor. Qed.

Lemma barrier_precedence_witness :
  ∃ step, wf_Steps backup_workflow !! "drop_prod_db" = Some step ∧
    (∀ req, req ∈ step_Requires step →
       ∃ s', s' ∈ ["take_backup"; "validate_backup"] ∧
         req ∈ establishes_of backup_workflow s') ∧
    (∀ rule, rule ∈ wf_Safety backup_workflow →
       rule_Forbidden rule ∈ step_Establishes step →
       ∃ s', s' ∈ ["take_backup"; "validate_backup"] ∧
         rule_Requires rule ∈ establishes_of backup_workflow s').
Proof.
  apply (barrier_precedence backup_workflow
           (fold_left (apply_op backup_workflow) backup_ops NewTrace)
           ["take_backup"; "validate_backup"] "drop_prod_db" []).
  - apply reachable_fold; [apply backup_gated|apply rtc_refl].
  - vm_compute. reflexivity.
Defined.

Lemma retry_replays_witness :
  let t1 := (CheckAndCommitIdempotent backup_workflow NewTrace "drop_prod_db" "k").2 in
  let e := (CheckAndCommitIdempotent backup_workflow NewTrace "drop_prod_db" "k").1.2 in
  let t2 := fold_left (apply_op backup_workflow) backup_ops t1 in
  CheckAndCommitIdempotent backup_workflow t2 "drop_prod_db" "k" = (true, e, t2).
Proof.
  cbv zeta.
  apply (retry_replays backup_workflow NewTrace).
  - apply rtc_refl.
  - done.
  - vm_compute. reflexivity.
  - vm_compute. reflexivity.
  - apply backup_gated.
  - unfold maxIdempotencyKeysPerTrace. simpl. lia.
Defined.

Lemma key_cache_bounded_witness :
  let t := fold_left (apply_op backup_workflow) backup_ops NewTrace in
  size (t_commits t) = length (t_commitOrder t) ∧
  length (t_commitOrder t) ≤ 256 ∧ NoDup (t_commitOrder t) ∧
  dom (t_commits t) = list_to_set (t_commitOrder t).
Proof.
  apply (key_cache_bounded backup_workflow).
  apply reachable_fold; [apply backup_gated|apply rtc_refl].
Defined.

Lemma passed_check_is_stable_witness :
  CheckSafety backup_workflow
    (fold_left (apply_op backup_workflow) backup_ops NewTrace) "take_backup" = None.
Proof. apply passed_check_is_stable. vm_compute. reflexivity. Defined.
