(* ===== verification/Reachability.v ===== *)
(** * verify/reachability.go: the static check of reachability rules

    The fixed-point loop of [statesReaching] is a function of the order in which
    each pass ranges over the step map; the theorems hold for every order.  The
    loop takes fuel, one unit per pass; [statesReaching_total] shows that one
    more unit than there are states in the workflow is always enough. *)

From S2P Require Import Prelude Verify.

(** ** The code *)

Definition stepEstablishesAny (step : Step) (reaches : gset State) : bool :=
  existsb (λ est, bool_decide (est ∈ reaches)) (step_Establishes step).

(** [for _, req := range step.Requires { if !reaches[req] {...} }] *)
Fixpoint addRequires (reqs : list State) (acc : gset State * bool) : gset State * bool :=
  match reqs with
  | [] => acc
  | req :: rest =>
      if decide (req ∈ acc.1) then addRequires rest acc
      else addRequires rest ({[req]} ∪ acc.1, true)
  end.

(** One pass over the steps, in the order the map range gives them. *)
Fixpoint scanSteps (steps : list (StepID * Step)) (acc : gset State * bool)
    : gset State * bool :=
  match steps with
  | [] => acc
  | (_, step) :: rest =>
      if stepEstablishesAny step acc.1
      then scanSteps rest (addRequires (step_Requires step) acc)
      else scanSteps rest acc
  end.

(** [for changed := true; changed; { changed = false; ... }]; [ord i] is the
    order of the [i]-th pass. *)
Fixpoint reachLoop (fuel : nat) (ord : nat → list (StepID * Step)) (i : nat)
    (reaches : gset State) : option (gset State) :=
  match fuel with
  | 0 => None
  | S fuel =>
      let '(reaches', changed) := scanSteps (ord i) (reaches, false) in
      if changed then reachLoop fuel ord (S i) reaches' else Some reaches'
  end.

Definition statesReaching (fuel : nat) (ord : nat → list (StepID * Step))
    (target : State) : option (gset State) :=
  reachLoop fuel ord 0 {[target]}.

Definition allStates (steps : list (StepID * Step)) : gset State :=
  foldl (λ states '(_, step),
           states ∪ list_to_set (step_Requires step) ∪ list_to_set (step_Establishes step))
    ∅ steps.

(** The rule loop.  [ord j] gives the map orders used while checking rule [j]
    (0 for [StepsThatEstablish], the others for the passes), [sord j] the order
    in which [allStates] is ranged over.  [None] is out of fuel, [Some None] is
    the nil error. *)
Fixpoint verifyRules (fuel : nat) (ord : nat → nat → list (StepID * Step))
    (sord : nat → list State) (j : nat) (rules : list ReachabilityRule)
    : option gerror :=
  match rules with
  | [] => Some None
  | rule :: rest =>
      if decide (length (StepsThatEstablish (ord j 0) (rrule_Target rule)) = 0)
      then Some (Some (ErrNoEstablisher (rrule_Name rule) (rrule_Target rule)))
      else
        match statesReaching fuel (λ i, ord j (S i)) (rrule_Target rule) with
        | None => None
        | Some canReachTarget =>
            let stuck := filter (λ s, s ≠ rrule_Target rule ∧ s ∉ canReachTarget) (sord j) in
            if decide (0 < length stuck)
            then Some (Some (ErrStuck (rrule_Name rule) (rrule_Target rule) stuck))
            else verifyRules fuel ord sord (S j) rest
        end
  end.

Definition VerifyReachability (fuel : nat) (ord : nat → nat → list (StepID * Step))
    (sord : nat → list State) (w : Workflow) : option gerror :=
  verifyRules fuel ord sord 0 (wf_Reachability w).

(** ** Specification: paths in the state graph *)

Definition edge (w : Workflow) (a b : State) : Prop :=
  ∃ id step, wf_Steps w !! id = Some step ∧ a ∈ step_Requires step ∧ b ∈ step_Establishes step.

Definition reaches_state (w : Workflow) (a b : State) : Prop := rtc (edge w) a b.

Definition mentioned (w : Workflow) (s : State) : Prop :=
  ∃ id step, wf_Steps w !! id = Some step ∧
    (s ∈ step_Requires step ∨ s ∈ step_Establishes step).

Definition reach_fuel (w : Workflow) : nat :=
  S (S (size (allStates (map_to_list (wf_Steps w))))).

(** ** Lemmas *)

Lemma stepEstablishesAny_true step reaches :
  stepEstablishesAny step reaches = true ↔ ∃ s, s ∈ step_Establishes step ∧ s ∈ reaches.
Proof.
  unfold stepEstablishesAny. rewrite existsb_elem_of.
  split; intros (s & ? & Hs); exists s; (split; [done|]); by apply bool_decide_eq_true in Hs || apply bool_decide_eq_true.
Qed.

Lemma addRequires_fst reqs acc :
  (addRequires reqs acc).1 = acc.1 ∪ list_to_set reqs.
Proof.
  revert acc. induction reqs as [|r reqs IH]; intros acc; simpl; [set_solver|].
  case_decide; rewrite IH; set_solver.
Qed.

Lemma addRequires_snd reqs acc :
  (addRequires reqs acc).2 = false ↔ acc.2 = false ∧ (list_to_set reqs : gset State) ⊆ acc.1.
Proof.
  revert acc. induction reqs as [|r reqs IH]; intros acc; simpl; [set_solver|].
  case_decide; rewrite IH; set_solver.
Qed.

Lemma addRequires_grows reqs acc :
  acc.2 = false → (addRequires reqs acc).2 = true → acc.1 ⊂ (addRequires reqs acc).1.
Proof.
  intros Ha Ht. pose proof (addRequires_snd reqs acc) as Hf.
  pose proof (addRequires_fst reqs acc) as H1.
  split; [set_solver|]. intros Hsub. rewrite Ht in Hf. destruct Hf as [_ Hf].
  discriminate Hf. split; [done|set_solver].
Qed.

Lemma scanSteps_mono steps acc : acc.1 ⊆ (scanSteps steps acc).1.
Proof.
  revert acc. induction steps as [|[id step] steps IH]; intros acc; simpl; [done|].
  case_match; [|apply IH]. etrans; [|apply IH]. rewrite addRequires_fst. set_solver.
Qed.

Lemma scanSteps_snd_true steps acc : acc.2 = true → (scanSteps steps acc).2 = true.
Proof.
  revert acc. induction steps as [|[id step] steps IH]; intros acc Ha; simpl; [done|].
  case_match; apply IH; [|done].
  destruct (addRequires _ _).2 eqn:E; [done|]. apply addRequires_snd in E. naive_solver.
Qed.

(** A pass that changes nothing has reached a set closed under the edges. *)
Lemma scanSteps_false steps acc :
  (scanSteps steps acc).2 = false →
  (scanSteps steps acc).1 = acc.1 ∧
  ∀ id step, (id, step) ∈ steps → stepEstablishesAny step acc.1 = true →
    (list_to_set (step_Requires step) : gset State) ⊆ acc.1.
Proof.
  revert acc. induction steps as [|[id step] steps IH]; intros acc; simpl; [set_solver|].
  destruct (stepEstablishesAny step acc.1) eqn:Ee; intros Hf.
  - destruct (addRequires (step_Requires step) acc).2 eqn:Ea.
    { rewrite scanSteps_snd_true in Hf; done. }
    pose proof (proj1 (addRequires_snd _ _) Ea) as [_ Hsub].
    assert ((addRequires (step_Requires step) acc).1 = acc.1) as H1.
    { rewrite addRequires_fst. set_solver. }
    destruct (IH _ Hf) as [Heq Hcl]. rewrite H1 in Heq, Hcl. split; [done|].
    intros id' step' [[= -> ->]|?]%elem_of_cons; eauto.
  - destruct (IH _ Hf) as [Heq Hcl]. split; [done|].
    intros id' step' [[= -> ->]|?]%elem_of_cons; [congruence|eauto].
Qed.

Lemma scanSteps_grows steps acc :
  acc.2 = false → (scanSteps steps acc).2 = true → acc.1 ⊂ (scanSteps steps acc).1.
Proof.
  revert acc. induction steps as [|[id step] steps IH]; intros acc Ha; simpl; [congruence|].
  case_match; [|by apply IH]. intros Ht.
  destruct (addRequires (step_Requires step) acc).2 eqn:Ea.
  - eapply strict_trans_l; [by apply addRequires_grows|apply scanSteps_mono].
  - eapply strict_trans_r; [|by apply IH]. rewrite addRequires_fst. set_solver.
Qed.

Lemma allStates_elem steps x :
  x ∈ allStates steps ↔
  ∃ id step, (id, step) ∈ steps ∧ (x ∈ step_Requires step ∨ x ∈ step_Establishes step).
Proof.
  unfold allStates.
  assert (∀ acc, x ∈ foldl (λ states '(_, step),
      states ∪ list_to_set (step_Requires step) ∪ list_to_set (step_Establishes step)) acc steps
    ↔ x ∈ (acc : gset State) ∨ ∃ id step, ((id, step) : StepID * Step) ∈ steps ∧
        (x ∈ step_Requires step ∨ x ∈ step_Establishes step)) as Hg.
  { induction steps as [|[id step] steps IH]; intros acc; simpl; [set_solver|].
    rewrite IH, !elem_of_union, !elem_of_list_to_set. setoid_rewrite elem_of_cons.
    naive_solver. }
  rewrite Hg. set_solver.
Qed.

Section with_workflow.
Context (w : Workflow) (target : State).

(** Everything a pass adds is mentioned in the workflow and reaches the target. *)
Definition sound (r : gset State) : Prop :=
  target ∈ r ∧ ∀ s, s ∈ r → reaches_state w s target ∧ (s = target ∨ mentioned w s).

Lemma scanSteps_sound steps acc :
  (∀ id step, (id, step) ∈ steps → wf_Steps w !! id = Some step) →
  sound acc.1 → sound (scanSteps steps acc).1.
Proof.
  revert acc. induction steps as [|[id step] steps IH]; intros acc Hst Hs; simpl; [done|].
  case_match eqn:Ee; (apply IH; [set_solver|]); [|done].
  apply stepEstablishesAny_true in Ee as (e & He & Her).
  destruct Hs as [Ht Hs]. rewrite addRequires_fst. split; [set_solver|].
  intros s [?|Hr%elem_of_list_to_set]%elem_of_union; [by apply Hs|].
  assert (wf_Steps w !! id = Some step) by (apply Hst; set_solver).
  split; [|right; exists id, step; eauto].
  eapply rtc_l; [by exists id, step|]. by apply Hs.
Qed.

Lemma sound_start : sound {[target]}.
Proof.
  split; [set_solver|]. intros s ->%elem_of_singleton.
  split; [apply rtc_refl|by left].
Qed.

Definition universe : gset State := {[target]} ∪ allStates (map_to_list (wf_Steps w)).

Lemma sound_universe r : sound r → r ⊆ universe.
Proof.
  intros [_ Hs] s Hin. destruct (Hs s Hin) as [_ [->|(id & step & Hst & ?)]].
  - unfold universe. set_solver.
  - apply elem_of_union_r, allStates_elem. exists id, step.
    split; [by apply elem_of_map_to_list|done].
Qed.

Context (ord : nat → list (StepID * Step)).
Context (Hord : ∀ i, range_order (wf_Steps w) (ord i)).

Lemma ord_elem i id step : (id, step) ∈ ord i ↔ wf_Steps w !! id = Some step.
Proof. by apply range_order_elem. Qed.

Lemma closed_complete r :
  target ∈ r →
  (∀ id step, wf_Steps w !! id = Some step → stepEstablishesAny step r = true →
    (list_to_set (step_Requires step) : gset State) ⊆ r) →
  ∀ s, reaches_state w s target → s ∈ r.
Proof.
  intros Ht Hcl s Hs. unfold reaches_state in Hs.
  induction Hs as [|a b c (id & step & Hst & Ha & Hb) _ IH]; [done|].
  apply (Hcl _ _ Hst); [|by apply elem_of_list_to_set].
  apply stepEstablishesAny_true. eauto.
Qed.

Lemma reachLoop_sound fuel i r r' :
  sound r → reachLoop fuel ord i r = Some r' →
  ∀ s, s ∈ r' ↔ reaches_state w s target.
Proof.
  revert i r. induction fuel as [|fuel IH]; intros i r Hr; simpl; [done|].
  assert (sound (scanSteps (ord i) (r, false)).1) as Hs.
  { apply scanSteps_sound; [|done]. intros ?? ?. by apply (ord_elem i). }
  pose proof (scanSteps_false (ord i) (r, false)) as Hf.
  destruct (scanSteps (ord i) (r, false)) as [r1 changed]. simpl in *.
  destruct changed; [by apply IH|]. intros [= <-].
  destruct Hf as [-> Hcl]; [done|]. intros s. split; [intros ?; by apply Hs|].
  apply closed_complete; [by apply Hs|]. intros id step ?. by eapply Hcl, ord_elem.
Qed.

Lemma reachLoop_total fuel i r :
  sound r → size universe < fuel + size r → is_Some (reachLoop fuel ord i r).
Proof.
  revert i r. induction fuel as [|fuel IH]; intros i r Hr Hf; simpl.
  - exfalso. pose proof (subseteq_size _ _ (sound_universe r Hr)). lia.
  - assert (sound (scanSteps (ord i) (r, false)).1) as Hs.
    { apply scanSteps_sound; [|done]. intros ?? ?. by apply (ord_elem i). }
    pose proof (scanSteps_grows (ord i) (r, false) eq_refl) as Hg.
    destruct (scanSteps (ord i) (r, false)) as [r1 changed]. simpl in *.
    destruct changed; [|done]. apply IH; [done|].
    pose proof (subset_size _ _ (Hg eq_refl)). lia.
Qed.

End with_workflow.

Lemma universe_size w target : size (universe w target) < reach_fuel w.
Proof.
  unfold universe, reach_fuel.
  pose proof (size_union_alt ({[target]} : gset State)
                (allStates (map_to_list (wf_Steps w)))) as Hs.
  rewrite Hs, size_singleton.
  assert (size (allStates (map_to_list (wf_Steps w)) ∖ {[target]}) ≤
          size (allStates (map_to_list (wf_Steps w)))) by (apply subseteq_size; set_solver).
  lia.
Qed.

Lemma statesReaching_spec w ord target :
  (∀ i, range_order (wf_Steps w) (ord i)) →
  ∃ r, statesReaching (reach_fuel w) ord target = Some r ∧
    ∀ s, s ∈ r ↔ reaches_state w s target.
Proof.
  intros Hord. unfold statesReaching.
  destruct (reachLoop_total w target ord Hord (reach_fuel w) 0 {[target]}) as [r Hr].
  - apply sound_start.
  - rewrite size_singleton. pose proof (universe_size w target). lia.
  - exists r. split; [done|].
    eapply (reachLoop_sound w target ord Hord (reach_fuel w) 0); [apply sound_start|done].
Qed.

Lemma establishes_true step s : establishes step s = true ↔ s ∈ step_Establishes step.
Proof.
  unfold establishes. rewrite existsb_elem_of. split.
  - intros (x & ? & ->%bool_decide_eq_true). done.
  - intros ?. exists s. split; [done|]. by apply bool_decide_eq_true.
Qed.

Lemma StepsThatEstablish_elem w ord s id :
  range_order (wf_Steps w) ord →
  id ∈ StepsThatEstablish ord s ↔
  ∃ step, wf_Steps w !! id = Some step ∧ s ∈ step_Establishes step.
Proof.
  intros Hord. unfold StepsThatEstablish.
  rewrite merge_sort_Permutation, list_elem_of_omap. split.
  - intros ([id' step] & Hin%(range_order_elem _ _ _ _ Hord) & Hif).
    destruct (establishes step s) eqn:E; simplify_eq.
    apply establishes_true in E. eauto.
  - intros (step & Hin & He%establishes_true). exists (id, step).
    split; [by apply (range_order_elem _ _ _ _ Hord)|]. by rewrite He.
Qed.

(** ** Properties *)

(** [StepsThatEstablish] returns exactly the steps that establish the state,
    in increasing order and without duplicates, whatever order the map range
    used; so [NextAction] says "run" exactly when some step of the workflow can
    establish the missing state. *)
Theorem StepsThatEstablish_exact (w : Workflow) ord1 ord2 (v : Violation) :
  range_order (wf_Steps w) ord1 → range_order (wf_Steps w) ord2 →
  let ids := StepsThatEstablish ord1 (v_MissingState v) in
  StronglySorted String.le ids ∧ NoDup ids ∧
  (∀ id, id ∈ ids ↔ ∃ step, wf_Steps w !! id = Some step ∧
     v_MissingState v ∈ step_Establishes step) ∧
  StepsThatEstablish ord2 (v_MissingState v) = ids ∧
  (NextAction ord1 v = NextRunEstablishingSteps ↔
   ∃ id step, wf_Steps w !! id = Some step ∧ v_MissingState v ∈ step_Establishes step).
Proof.
  intros Ho1 Ho2 ids.
  set (pick := λ p : StepID * Step,
    let '(id, step) := p in if establishes step (v_MissingState v) then Some id else None).
  assert (∀ l, StronglySorted String.le (merge_sort String.le (omap pick l))) as Hsort.
  { intros l. apply (StronglySorted_merge_sort String.le). }
  assert (NoDup ids) as Hnd.
  { unfold ids, StepsThatEstablish. rewrite merge_sort_Permutation.
    pose proof (range_order_nodup _ _ Ho1) as Hnd. clear -Hnd.
    induction ord1 as [|[id step] l IH]; cbn in *; [constructor|].
    apply NoDup_cons in Hnd as [Hno Hnd].
    destruct (establishes step _); [constructor|]; [|by apply IH..].
    intros ([id' step'] & Hin & Heq)%list_elem_of_omap. apply Hno.
    destruct (establishes step' _); simplify_eq. apply list_elem_of_fmap. by exists (id, step'). }
  split_and!; [apply Hsort|done|intros id; by apply StepsThatEstablish_elem| |].
  - unfold ids, StepsThatEstablish. apply (sorted_perm_unique String.le); [apply Hsort..|].
    rewrite !merge_sort_Permutation. by rewrite Ho1, Ho2.
  - unfold NextAction. fold ids.
    pose proof (λ id, StepsThatEstablish_elem w ord1 (v_MissingState v) id Ho1) as Hel.
    fold ids in Hel. destruct ids as [|id ids']; cbn; split; try done.
    + intros (id & step & Hs). exfalso. assert (id ∈ ([] : list StepID)) as Hin
        by (apply Hel; eauto). inversion Hin.
    + intros _. exists id. apply Hel. set_solver.
Qed.

(** [statesReaching] terminates within one pass more than there are states
    and returns exactly the states with a path to the target in the step graph,
    whatever order each pass visits the steps in. *)
Theorem statesReaching_exact (w : Workflow) ord target :
  (∀ i, range_order (wf_Steps w) (ord i)) →
  ∃ r, statesReaching (reach_fuel w) ord target = Some r ∧
    ∀ s, s ∈ r ↔ reaches_state w s target.
Proof. apply statesReaching_spec. Qed.

(** A reachability rule holds: a step establishes its target and every state of
    the workflow has a path to it. *)
Definition rule_holds (w : Workflow) (rule : ReachabilityRule) : Prop :=
  (∃ id step, wf_Steps w !! id = Some step ∧ rrule_Target rule ∈ step_Establishes step) ∧
  ∀ s, mentioned w s → s = rrule_Target rule ∨ reaches_state w s (rrule_Target rule).

Lemma verifyRules_spec w ord sord j rules :
  (∀ j i, range_order (wf_Steps w) (ord j i)) →
  (∀ j, sord j ≡ₚ elements (allStates (map_to_list (wf_Steps w)))) →
  ∃ e, verifyRules (reach_fuel w) ord sord j rules = Some e ∧
    (e = None ↔ ∀ rule, rule ∈ rules → rule_holds w rule).
Proof.
  intros Hord Hsord. revert j. induction rules as [|rule rules IH]; intros j; cbn [verifyRules].
  { exists None. set_solver. }
  pose proof (λ id, StepsThatEstablish_elem w (ord j 0) (rrule_Target rule) id (Hord j 0)) as Hel.
  destruct (statesReaching_spec w (λ i, ord j (S i)) (rrule_Target rule)) as (r & -> & Hr);
    [intros; apply Hord|].
  assert (∀ s, s ∈ sord j ↔ mentioned w s) as Hm.
  { intros s. rewrite Hsord, elem_of_elements, allStates_elem. unfold mentioned.
    by setoid_rewrite elem_of_map_to_list. }
  destruct (StepsThatEstablish (ord j 0) (rrule_Target rule)) as [|id0 ids0]; cbn.
  { eexists. split; [done|]. split; [done|]. intros Hall.
    destruct (Hall rule) as [(id & step & Hs) _]; [set_solver|].
    exfalso. assert (id ∈ ([] : list StepID)) as Hin by (apply Hel; eauto). inversion Hin. }
  set (stuck := filter _ (sord j)).
  assert (∀ s, s ∈ stuck ↔ mentioned w s ∧ s ≠ rrule_Target rule ∧
            ¬ reaches_state w s (rrule_Target rule)) as Hst.
  { intros s. unfold stuck. rewrite list_elem_of_filter, Hm, Hr. tauto. }
  destruct (decide (0 < length stuck)) as [Hlen|Hlen].
  - destruct stuck as [|s0 stuck]; [cbn in Hlen; lia|]. eexists. split; [done|].
    split; [done|]. intros Hall. destruct (Hall rule) as [_ Hp]; [set_solver|].
    destruct (proj1 (Hst s0) ltac:(set_solver)) as (Hm0 & ? & ?).
    exfalso. by destruct (Hp s0 Hm0).
  - destruct (IH (S j)) as (e & -> & He). exists e. split; [done|]. rewrite He.
    assert (rule_holds w rule); [|set_solver].
    split; [exists id0; apply Hel; set_solver|]. intros s Hs.
    destruct (decide (s = rrule_Target rule)); [by left|]. right.
    destruct (decide (s ∈ r)) as [Hin|Hin]; [by apply Hr|].
    exfalso. assert (s ∈ stuck) by (apply Hst; rewrite <- Hr; done).
    destruct stuck; [set_solver|cbn in Hlen; lia].
Qed.

(** C37: [VerifyReachability] always terminates and answers nil exactly when
    every reachability rule has an establishing step for its target and a path
    to it from every state the workflow mentions. *)
Theorem VerifyReachability_exact (w : Workflow) ord sord :
  (∀ j i, range_order (wf_Steps w) (ord j i)) →
  (∀ j, sord j ≡ₚ elements (allStates (map_to_list (wf_Steps w)))) →
  ∃ e, VerifyReachability (reach_fuel w) ord sord w = Some e ∧
    (e = None ↔ ∀ rule, rule ∈ wf_Reachability w → rule_holds w rule).
Proof. apply verifyRules_spec. Qed.

(** ** Witnesses *)

Definition rollback_workflow : Workflow :=
  match NewWorkflow
    [mkStep "take_backup" [] ["backup_taken"];
     mkStep "validate_backup" ["backup_taken"] ["backup_validated"];
     mkStep "restore" ["backup_validated"] ["restored"]]
    [] [mkReachabilityRule "rollback" "restored"] with
  | Ok w => w
  | Err _ => mkWorkflow ∅ [] []
  end.

Definition rollback_ord : list (StepID * Step) := map_to_list (wf_Steps rollback_workflow).

Lemma StepsThatEstablish_exact_witness :
  StepsThatEstablish (reverse rollback_ord) "restored" =
    StepsThatEstablish rollback_ord "restored" ∧
  StepsThatEstablish rollback_ord "restored" = ["restore"].
Proof.
  split; [|vm_compute; reflexivity].
  apply (StepsThatEstablish_exact rollback_workflow rollback_ord (reverse rollback_ord)
    (mkViolation "precondition" (MsgPrecondition "x" "restored") "restored" 0)).
  - apply range_order_refl.
  - unfold range_order. apply reverse_Permutation.
Defined.

Lemma statesReaching_exact_witness :
  ∃ r, statesReaching (reach_fuel rollback_workflow) (λ _, rollback_ord) "restored" = Some r ∧
    ∀ s, s ∈ r ↔ reaches_state rollback_workflow s "restored".
Proof. apply statesReaching_exact. intros _. apply range_order_refl. Defined.

Lemma VerifyReachability_exact_witness :
  VerifyReachability (reach_fuel rollback_workflow) (λ _ _, rollback_ord)
    (λ _, elements (allStates rollback_ord)) rollback_workflow = Some None ∧
  ∃ e, VerifyReachability (reach_fuel rollback_workflow) (λ _ _, rollback_ord)
      (λ _, elements (allStates rollback_ord)) rollback_workflow = Some e ∧
    (e = None ↔ ∀ rule, rule ∈ wf_Reachability rollback_workflow →
       rule_holds rollback_workflow rule).
Proof.
  split; [vm_compute; reflexivity|].
  apply VerifyReachability_exact; [intros _ _; apply range_order_refl|reflexivity].
Defined.
