(* ===== verification/IntentTypes.v ===== *)
(** * intent/types.go and intent/vault.go: rules, actions and the vault

    Times are nanoseconds since the Unix epoch.  [path.Match], SHA-256 over the
    JSON encoding and Ed25519 are parameters of the definitions that use them:
    the theorems hold for any of them. *)

From S2P Require Import Prelude.

Definition zero_time : Z := -62135596800 * 1000000000.
Definition IsZero (t : Z) : bool := bool_decide (t = zero_time).
Definition Unix (t : Z) : Z := t `div` 1000000000.
Definition Second : Z := 1000000000.

Inductive Verdict := Allow | Block | RequireApproval.
#[global] Instance Verdict_eq_dec : EqDecision Verdict.
Proof. solve_decision. Defined.

(** [Mode] and [RequirementKind] are strings in the code, so a rule built by hand
    or imported may hold any of them. *)
Definition Grant : string := "grant".
Definition Deny : string := "deny".
Definition NeedEvidence : string := "evidence".
Definition NeedApproval : string := "approval".

Record Requirement := mkRequirement {
  q_Kind : string;
  q_State : string;
  q_Role : string;
  q_Describe : string;
}.

Definition req_key (r : Requirement) : string :=
  if decide (q_Kind r = NeedEvidence) then ("evidence:" +:+ q_State r)%string
  else ("approval:" +:+ q_Role r)%string.

Record Provenance := mkProvenance { pv_Source : string; pv_By : string; pv_At : Z }.

Record Rule := mkRule {
  r_ID : string;
  r_Label : string;
  r_Preference : string;
  r_Owner : string;
  r_Purpose : string;
  r_Mode : string;
  r_Agent : string;
  r_Tool : string;
  r_Resource : string;
  r_Env : string;
  r_Requires : list Requirement;
  r_Provenance : Provenance;
  r_CreatedAt : Z;
  r_ExpiresAt : Z;
  r_Version : Z;
  r_Revoked : bool;
  r_RevokedAt : Z;
}.

Record Action := mkAction {
  a_Tenant : string;
  a_Agent : string;
  a_Tool : string;
  a_Resource : string;
  a_Env : string;
  a_Params : gmap string string;
}.

Record Reason := mkReason { rs_Code : string; rs_RuleID : string; rs_Message : string }.

Record Missing := mkMissing {
  m_Kind : string;
  m_State : string;
  m_Role : string;
  m_Describe : string;
  m_RuleID : string;
}.

Record Decision := mkDecision {
  d_Verdict : Verdict;
  d_Summary : string;
  d_Reasons : list Reason;
  d_Missing : list Missing;
  d_AppliedRules : list string;
  d_PolicyDigest : string;
  d_PolicyVer : Z;
  d_ActionHash : string;
  d_evidenceIDs : list string;
  d_approvalIDs : list string;
}.

(** The errors of the package, by format and arguments. *)
Inductive intent_error :=
| ErrNeedsID | ErrNeedsLabel (id : string) | ErrNeedsOwner (id : string)
| ErrNeedsPurpose (id : string) | ErrUnknownMode (id mode : string)
| ErrDenyRequirements (id : string) | ErrNeedsScope (id : string)
| ErrBadPattern (id pattern : string) | ErrIncompleteRequirement (id : string)
| ErrNeedsDescribe (id : string)
| ErrRuleExists (id : string) | ErrNoRule (id : string) | ErrRuleRevoked (id : string)
| ErrVaultTenant (tenant mine : string)
| ErrEmptyEnvelope (kind : string) | ErrEvidenceTenant (id : string)
| ErrApprovalTenant (id : string) | ErrRevocationTenant
| ErrUntrustedEvidence (id : string) | ErrUntrustedApproval (id : string) | ErrUntrusted
| ErrEvidenceRevoked (id : string) | ErrApprovalRevoked (id : string)
| ErrApprovalUsed (id : string) | ErrUnknownEnvelope (kind : string)
| ErrNeedsVault | ErrNeedsSigningKey
| ErrNoReceipt | ErrBadSignature | ErrNotAllow | ErrOtherAction | ErrOutsideWindow
| ErrReceiptUsed
| ErrNotOwnerSigned | ErrContractFields
| ErrNoSuggestion (id : string) | ErrSuggestionExpiry.

Definition active (r : Rule) (now : Z) : bool :=
  if r_Revoked r then false
  else IsZero (r_ExpiresAt r) || (now <? r_ExpiresAt r)%Z.

Definition complete (a : Action) : bool :=
  bool_decide (a_Tenant a ≠ "") && bool_decide (a_Agent a ≠ "") &&
  bool_decide (a_Tool a ≠ "") && bool_decide (a_Resource a ≠ "") &&
  bool_decide (a_Env a ≠ "").

(** [strings.Join]. *)
Fixpoint Join (sep : string) (p : list string) : string :=
  match p with
  | [] => ""
  | [x] => x
  | x :: rest => (x +:+ sep +:+ Join sep rest)%string
  end.

Definition joinPhrases (p : list string) : string :=
  match p with
  | [] => ""
  | [x] => x
  | _ => (Join ", " (take (length p - 1) p) +:+ " and " +:+ default "" (last p))%string
  end.

(** ** Rules *)

Section with_match.
(** [path.Match pattern name]: [None] is [ErrBadPattern]. *)
Context (path_Match : string → string → option bool).

Definition glob (pattern s : string) : bool := default false (path_Match pattern s).

Definition rule_matches (r : Rule) (a : Action) : bool :=
  glob (r_Agent r) (a_Agent a) && glob (r_Tool r) (a_Tool a) &&
  glob (r_Resource r) (a_Resource a) &&
  (bool_decide (r_Env r = "") || bool_decide (r_Env r = a_Env a)).

Fixpoint validatePatterns (id : string) (ps : list string) : option intent_error :=
  match ps with
  | [] => None
  | p :: rest =>
      if decide (p = "") then Some (ErrNeedsScope id)
      else match path_Match p "" with
           | None => Some (ErrBadPattern id p)
           | Some _ => validatePatterns id rest
           end
  end.

Fixpoint validateRequires (id : string) (qs : list Requirement) : option intent_error :=
  match qs with
  | [] => None
  | q :: rest =>
      if decide ((q_Kind q = NeedEvidence ∧ q_State q ≠ "") ∨
                 (q_Kind q = NeedApproval ∧ q_Role q ≠ "")) then
        if decide (q_Describe q = "") then Some (ErrNeedsDescribe id)
        else validateRequires id rest
      else Some (ErrIncompleteRequirement id)
  end.

Definition validate (r : Rule) : option intent_error :=
  if decide (r_ID r = "") then Some ErrNeedsID
  else if decide (r_Label r = "") then Some (ErrNeedsLabel (r_ID r))
  else if decide (r_Owner r = "") then Some (ErrNeedsOwner (r_ID r))
  else if decide (r_Purpose r = "") then Some (ErrNeedsPurpose (r_ID r))
  else if decide (r_Mode r ≠ Grant ∧ r_Mode r ≠ Deny)
       then Some (ErrUnknownMode (r_ID r) (r_Mode r))
  else if decide (r_Mode r = Deny ∧ 0 < length (r_Requires r))
       then Some (ErrDenyRequirements (r_ID r))
  else match validatePatterns (r_ID r) [r_Agent r; r_Tool r; r_Resource r] with
       | Some e => Some e
       | None => validateRequires (r_ID r) (r_Requires r)
       end.
End with_match.

Record publicView := mkPublicView {
  pub_ID : string;
  pub_Label : string;
  pub_Mode : string;
  pub_Agent : string;
  pub_Tool : string;
  pub_Resource : string;
  pub_Env : string;
  pub_Requires : list Requirement;
  pub_ExpiresAt : Z;
  pub_Version : Z;
  pub_Revoked : bool;
}.

Definition key_le (x y : Requirement) : Prop := String.le (req_key x) (req_key y).
#[global] Instance key_le_dec : RelDecision key_le.
Proof. intros x y. unfold key_le. apply _. Defined.

Definition public (r : Rule) : publicView :=
  mkPublicView (r_ID r) (r_Label r) (r_Mode r) (r_Agent r) (r_Tool r) (r_Resource r)
    (r_Env r) (merge_sort key_le (r_Requires r))
    (if IsZero (r_ExpiresAt r) then 0 else Unix (r_ExpiresAt r))
    (r_Version r) (r_Revoked r).

(** ** The vault (vault.go) *)

Record Vault := mkVault {
  vt_tenant : string;
  vt_version : Z;
  vt_rules : gmap string Rule;
}.

Definition NewVault (tenant : string) : Vault := mkVault tenant 0 ∅.

Definition set_Provenance (r : Rule) (p : Provenance) : Rule :=
  mkRule (r_ID r) (r_Label r) (r_Preference r) (r_Owner r) (r_Purpose r) (r_Mode r)
    (r_Agent r) (r_Tool r) (r_Resource r) (r_Env r) (r_Requires r) p (r_CreatedAt r)
    (r_ExpiresAt r) (r_Version r) (r_Revoked r) (r_RevokedAt r).
(** The fields the vault writes when it stores or revokes a rule. *)
Definition set_stamp (r : Rule) (owner : string) (p : Provenance) (created version : Z)
    (revoked : bool) (revokedAt : Z) : Rule :=
  mkRule (r_ID r) (r_Label r) (r_Preference r) owner (r_Purpose r) (r_Mode r)
    (r_Agent r) (r_Tool r) (r_Resource r) (r_Env r) (r_Requires r) p created
    (r_ExpiresAt r) version revoked revokedAt.

(** Entries of a list sorted by id, as [sort.Slice] by [ID]. *)
Definition id_le (x y : Rule) : Prop := String.le (r_ID x) (r_ID y).
#[global] Instance id_le_dec : RelDecision id_le.
Proof. intros x y. unfold id_le. apply _. Defined.

Section vault_ops.
Context (path_Match : string → string → option bool).
(** SHA-256 of the tenant and the JSON of the public views, in hexadecimal. *)
Context (policy_digest : string → list publicView → string).

(** [int] is 64 bits wide. *)
Definition bump (version : Z) : Z := wrap_s 64 (version + 1).

Definition vault_Add (now : Z) (r : Rule) (v : Vault) : option intent_error * Vault :=
  let r := if decide (pv_Source (r_Provenance r) = "")
           then set_Provenance r (mkProvenance "explicit" (r_Owner r) zero_time) else r in
  match validate path_Match r with
  | Some e => (Some e, v)
  | None =>
      match vt_rules v !! r_ID r with
      | Some _ => (Some (ErrRuleExists (r_ID r)), v)
      | None =>
          let version := bump (vt_version v) in
          let p := r_Provenance r in
          let p := if IsZero (pv_At p) then mkProvenance (pv_Source p) (pv_By p) now else p in
          let r := set_stamp r (r_Owner r) p now version false zero_time in
          (None, mkVault (vt_tenant v) version (<[r_ID r := r]> (vt_rules v)))
      end
  end.

Definition vault_Edit (r : Rule) (v : Vault) : option intent_error * Vault :=
  match validate path_Match r with
  | Some e => (Some e, v)
  | None =>
      match vt_rules v !! r_ID r with
      | None => (Some (ErrNoRule (r_ID r)), v)
      | Some old =>
          if r_Revoked old then (Some (ErrRuleRevoked (r_ID r)), v)
          else
            let version := bump (vt_version v) in
            let r := set_stamp r (r_Owner old) (r_Provenance old) (r_CreatedAt old)
                       version false (r_RevokedAt r) in
            (None, mkVault (vt_tenant v) version (<[r_ID r := r]> (vt_rules v)))
      end
  end.

Definition vault_Revoke (now : Z) (id : string) (v : Vault) : option intent_error * Vault :=
  match vt_rules v !! id with
  | None => (Some (ErrNoRule id), v)
  | Some r =>
      if r_Revoked r then (None, v)
      else
        let version := bump (vt_version v) in
        let r := set_stamp r (r_Owner r) (r_Provenance r) (r_CreatedAt r) version true now in
        (None, mkVault (vt_tenant v) version (<[id := r]> (vt_rules v)))
  end.

Definition vault_Delete (id : string) (v : Vault) : option intent_error * Vault :=
  match vt_rules v !! id with
  | None => (Some (ErrNoRule id), v)
  | Some _ => (None, mkVault (vt_tenant v) (bump (vt_version v)) (delete id (vt_rules v)))
  end.

Definition vault_Get (id : string) (v : Vault) : option Rule := vt_rules v !! id.

(** The rules sorted by id; [vault_list_order] shows that the order of the map
    range does not matter. *)
Definition vault_List (v : Vault) : list Rule :=
  merge_sort id_le (map_to_list (vt_rules v)).*2.

Definition vault_snapshot (now : Z) (v : Vault) : list Rule * string * Z :=
  let all := vault_List v in
  (filter (λ r, active r now = true) all,
   policy_digest (vt_tenant v) (map public all), vt_version v).

(** [Import] of a decoded vault file. *)
Fixpoint import_rules (rs : list Rule) (rules : gmap string Rule)
    : result intent_error (gmap string Rule) :=
  match rs with
  | [] => Ok rules
  | r :: rest =>
      match validate path_Match r with
      | Some e => Err e
      | None => import_rules rest (<[r_ID r := r]> rules)
      end
  end.

Definition vault_Import (tenant : string) (version : Z) (rs : list Rule) (v : Vault)
    : option intent_error * Vault :=
  if decide (tenant ≠ vt_tenant v) then (Some (ErrVaultTenant tenant (vt_tenant v)), v)
  else match import_rules rs ∅ with
       | Err e => (Some e, v)
       | Ok rules => (None, mkVault (vt_tenant v) version rules)
       end.
End vault_ops.

(** ** Histories of the vault

    The owner's operations, as the engine and the tools call them. *)

Inductive vault_op :=
| VAdd (now : Z) (r : Rule)
| VEdit (r : Rule)
| VRevoke (now : Z) (id : string)
| VDelete (id : string)
| VImport (tenant : string) (version : Z) (rs : list Rule).

Definition apply_vault (path_Match : string → string → option bool) (v : Vault) (op : vault_op)
    : Vault :=
  match op with
  | VAdd now r => (vault_Add path_Match now r v).2
  | VEdit r => (vault_Edit path_Match r v).2
  | VRevoke now id => (vault_Revoke now id v).2
  | VDelete id => (vault_Delete id v).2
  | VImport t n rs => (vault_Import path_Match t n rs v).2
  end.

(** The operations that keep the records of the vault: no [Import] and no
    [Delete] of the given id. *)
Definition keeps (id : string) (op : vault_op) : Prop :=
  match op with
  | VDelete id' => id' ≠ id
  | VImport _ _ _ => False
  | _ => True
  end.
Definition not_import (op : vault_op) : Prop :=
  match op with VImport _ _ _ => False | _ => True end.

Section vault_inv.
Context (path_Match : string → string → option bool).
Abbreviation validate := (validate path_Match).
Abbreviation apply_vault := (apply_vault path_Match).

(** Every rule is stored under its own id and passed [validate]. *)
Definition vault_wf (v : Vault) : Prop :=
  ∀ id r, vt_rules v !! id = Some r → r_ID r = id ∧ validate r = None.

Lemma validate_fields r : validate r = None →
  r_ID r ≠ "" ∧ r_Owner r ≠ "" ∧ (r_Mode r = Grant ∨ r_Mode r = Deny) ∧
  (r_Mode r = Deny → r_Requires r = []) ∧
  validateRequires (r_ID r) (r_Requires r) = None.
Proof.
  unfold IntentTypes.validate. intros H.
  repeat (case_decide; [done|]). case_match; [done|].
  repeat split; [done|done| | |done].
  - destruct (decide (r_Mode r = Grant)); [by left|right].
    destruct (decide (r_Mode r = Deny)); [done|tauto].
  - intros Hd. destruct (r_Requires r); [done|]. simpl in *. exfalso.
    match goal with Hn : ¬ (_ ∧ _) |- _ => apply Hn end. split; [done|lia].
Qed.

Lemma validateRequires_elem id qs q : validateRequires id qs = None → q ∈ qs →
  (q_Kind q = NeedEvidence ∧ q_State q ≠ "") ∨ (q_Kind q = NeedApproval ∧ q_Role q ≠ "").
Proof.
  induction qs as [|x qs IH]; simpl; [set_solver|].
  case_decide as Hd; [|done]. case_decide; [done|].
  intros Hv [->|Hq]%elem_of_cons; [done|]. by apply IH.
Qed.

(** The stamp does not touch what [validate] reads, but for the owner. *)
Lemma validate_stamp r o p c n b t : o ≠ "" → validate r = None →
  validate (set_stamp r o p c n b t) = None.
Proof.
  intros Ho H. pose proof (validate_fields r H) as (_ & Hr & _).
  revert H. unfold IntentTypes.validate. simpl.
  destruct (decide (o = "")); [done|]. destruct (decide (r_Owner r = "")); done.
Qed.

Lemma import_rules_wf rs rules rules' :
  import_rules path_Match rs rules = Ok rules' →
  (∀ id r, rules !! id = Some r → r_ID r = id ∧ validate r = None) →
  ∀ id r, rules' !! id = Some r → r_ID r = id ∧ validate r = None.
Proof.
  revert rules. induction rs as [|r rs IH]; intros rules; simpl.
  - by intros [= ->].
  - destruct (validate r) eqn:E; [done|]. intros H Hwf. eapply IH; [done|].
    intros id r'. rewrite lookup_insert_Some.
    intros [[<- <-]|[_ ?]]; [done|]. by apply Hwf.
Qed.

Lemma vault_wf_insert v n id r : vault_wf v → r_ID r = id → validate r = None →
  vault_wf (mkVault (vt_tenant v) n (<[id := r]> (vt_rules v))).
Proof.
  intros Hwf Hid Hr id' r'. simpl. rewrite lookup_insert_Some.
  intros [[<- <-]|[_ ?]]; [done|]. by apply Hwf.
Qed.

Lemma vault_wf_op v op : vault_wf v → vault_wf (apply_vault v op).
Proof.
  intros Hwf. destruct op as [now r|r|now id|id|t n rs]; simpl.
  - unfold vault_Add. set (r' := if decide _ then _ else r).
    destruct (validate r') eqn:E; [done|]. destruct (vt_rules v !! r_ID r'); [done|].
    pose proof (validate_fields r' E) as (_ & Ho & _).
    apply vault_wf_insert; [done|done|]. by apply validate_stamp.
  - unfold vault_Edit. destruct (validate r) eqn:E; [done|].
    destruct (vt_rules v !! r_ID r) as [old|] eqn:Eo; [|done].
    destruct (r_Revoked old); [done|].
    apply Hwf in Eo as [_ Eo]. pose proof (validate_fields old Eo) as (_ & Ho & _).
    apply vault_wf_insert; [done|done|]. by apply validate_stamp.
  - unfold vault_Revoke. destruct (vt_rules v !! id) as [r|] eqn:E; [|done].
    destruct (r_Revoked r); [done|]. apply Hwf in E as [<- E].
    pose proof (validate_fields r E) as (_ & Ho & _).
    apply vault_wf_insert; [done|done|]. by apply validate_stamp.
  - unfold vault_Delete. destruct (vt_rules v !! id); [|done].
    intros id' r'. simpl. rewrite lookup_delete_Some. intros [_ ?]. by apply Hwf.
  - unfold vault_Import. case_decide; [done|].
    destruct (import_rules path_Match rs ∅) as [rules|] eqn:E; [|done].
    intros id r. simpl. eapply import_rules_wf; [done|].
    intros ? ?. by rewrite lookup_empty.
Qed.

Lemma vault_wf_ops v ops : vault_wf v → vault_wf (foldl apply_vault v ops).
Proof. revert v. induction ops; simpl; auto using vault_wf_op. Qed.

Lemma vault_wf_new tenant : vault_wf (NewVault tenant).
Proof. intros ? ?. simpl. by rewrite lookup_empty. Qed.

(** Each operation other than [Import] either changes nothing or moves to the
    next version. *)
Lemma vault_op_version v op : not_import op →
  apply_vault v op = v ∨ vt_version (apply_vault v op) = bump (vt_version v).
Proof.
  intros Hn.
  destruct op as [now r|r|now id|id|t n rs]; simpl in *; [..|done];
    unfold vault_Add, vault_Edit, vault_Revoke, vault_Delete;
    repeat case_match; simpl; auto.
Qed.

Lemma revoked_kept v op id r : vt_rules v !! id = Some r → r_Revoked r = true →
  keeps id op → vt_rules (apply_vault v op) !! id = Some r.
Proof.
  intros Hid Hr Hk.
  destruct op as [now r'|r'|now id'|id'|t n rs]; simpl in *; [..|done].
  - unfold vault_Add. set (r'' := if decide _ then _ else r').
    destruct (validate r''); [done|]. destruct (vt_rules v !! r_ID r'') eqn:E; [done|].
    simpl. rewrite lookup_insert_ne; [done|]. congruence.
  - unfold vault_Edit. destruct (validate r'); [done|].
    destruct (vt_rules v !! r_ID r') as [old|] eqn:E; [|done].
    destruct (r_Revoked old) eqn:Er; [done|].
    simpl. rewrite lookup_insert_ne; [done|]. congruence.
  - unfold vault_Revoke. destruct (vt_rules v !! id') as [old|] eqn:E; [|done].
    destruct (r_Revoked old) eqn:Er; [done|].
    simpl. rewrite lookup_insert_ne; [done|]. congruence.
  - unfold vault_Delete. destruct (vt_rules v !! id') as [old|] eqn:E; [|done].
    simpl. by rewrite lookup_delete_ne.
Qed.

Lemma bump_iter_id n z : in_s 64 z → (0 < n < 2 ^ 64)%Z → wrap_s 64 (z + n) ≠ z.
Proof.
  intros Hz Hn He. unfold in_s, wrap_s in *. change (64 - 1)%Z with 63%Z in *.
  pose proof (Z.div_mod (z + n + 2 ^ 63) (2 ^ 64) ltac:(lia)).
  assert (n = 2 ^ 64 * ((z + n + 2 ^ 63) / 2 ^ 64))%Z by lia. nia.
Qed.

Lemma wrap_s_add w a b : (0 < w)%Z → wrap_s w (wrap_s w a + b) = wrap_s w (a + b).
Proof.
  intros Hw. unfold wrap_s. f_equal.
  replace ((a + 2 ^ (w - 1)) `mod` 2 ^ w - 2 ^ (w - 1) + b + 2 ^ (w - 1))%Z
    with ((a + 2 ^ (w - 1)) `mod` 2 ^ w + b)%Z by lia.
  rewrite Zplus_mod_idemp_l. f_equal. lia.
Qed.

(** After a run without [Import]: nothing changed, or the version advanced by
    the number of changes. *)
Lemma vault_run_version v ops : in_s 64 (vt_version v) → Forall not_import ops →
  ∃ n, (0 ≤ n ≤ Z.of_nat (length ops))%Z ∧
    (n = 0%Z → foldl apply_vault v ops = v) ∧
    vt_version (foldl apply_vault v ops) = wrap_s 64 (vt_version v + n).
Proof.
  intros Hv Hops. revert v Hv. induction Hops as [|op ops Hop Hops IH]; intros v Hv; simpl.
  - exists 0%Z. split; [lia|]. split; [done|]. rewrite Z.add_0_r, wrap_s_id by (done || lia). done.
  - destruct (vault_op_version v op Hop) as [Ho|Ho].
    + rewrite Ho. destruct (IH v Hv) as (n & Hn & Hz & He).
      exists n. split; [lia|]. done.
    + assert (Hv' : in_s 64 (vt_version (apply_vault v op))).
      { rewrite Ho. apply wrap_s_range. lia. }
      destruct (IH _ Hv') as (n & Hn & Hz & He).
      exists (1 + n)%Z. split; [lia|]. split; [lia|].
      rewrite He, Ho. unfold bump. rewrite wrap_s_add by lia. f_equal. lia.
Qed.
End vault_inv.

(** ** The list does not depend on the order of the map range *)

Lemma id_le_sorted_unique (l1 l2 : list Rule) :
  NoDup (map r_ID l1) → l1 ≡ₚ l2 → StronglySorted id_le l1 → StronglySorted id_le l2 →
  l1 = l2.
Proof.
  revert l2. induction l1 as [|x l1 IH]; intros l2 Hd Hp H1 H2.
  - by apply Permutation_nil in Hp.
  - destruct l2 as [|y l2]; [by apply Permutation_nil_r in Hp|].
    inversion H1 as [|? ? H1a H1b]; inversion H2 as [|? ? H2a H2b]; subst.
    rewrite Forall_forall in H1b, H2b. apply NoDup_cons in Hd as [Hx Hd].
    assert (x = y) as ->.
    { assert (Hy : y ∈ x :: l1) by (rewrite Hp; set_solver).
      assert (Hx' : x ∈ y :: l2) by (rewrite <- Hp; set_solver).
      apply elem_of_cons in Hy as [->|Hy]; [done|].
      apply elem_of_cons in Hx' as [->|Hx']; [done|].
      exfalso. apply Hx. apply list_elem_of_fmap. exists y. split; [|done].
      apply (anti_symm String.le); [by apply H1b|by apply H2b]. }
    f_equal. apply IH; try done. by eapply Permutation_cons_inv.
Qed.

#[global] Instance id_le_total : Total id_le.
Proof. intros x y. apply (total String.le). Qed.
#[global] Instance id_le_trans : Transitive id_le.
Proof. intros x y z. apply (transitivity (R := String.le)). Qed.

Section list_order.
Context (path_Match : string → string → option bool).

Lemma range_ids v ord : vault_wf path_Match v → range_order (vt_rules v) ord →
  map r_ID ord.*2 = ord.*1.
Proof.
  intros Hwf Ho. change (r_ID <$> (snd <$> ord) = fst <$> ord).
  rewrite <- list_fmap_compose. apply list_fmap_ext. intros i [k r] Hi. simpl.
  apply list_elem_of_lookup_2 in Hi. rewrite (range_order_elem _ _ _ _ Ho) in Hi.
  by apply Hwf in Hi as [-> _].
Qed.

(** [listLocked] sorts by id, so every order of the range gives [vault_List]. *)
Lemma vault_list_order v ord : vault_wf path_Match v → range_order (vt_rules v) ord →
  merge_sort id_le ord.*2 = vault_List v.
Proof.
  intros Hwf Ho. apply id_le_sorted_unique; try apply StronglySorted_merge_sort; try apply _.
  - rewrite merge_sort_Permutation. rewrite (range_ids v ord Hwf Ho).
    by eapply range_order_nodup.
  - unfold vault_List. rewrite !merge_sort_Permutation. by rewrite Ho.
Qed.

Lemma vault_List_elem v r : vault_wf path_Match v →
  r ∈ vault_List v ↔ vt_rules v !! r_ID r = Some r.
Proof.
  intros Hwf. unfold vault_List. rewrite merge_sort_Permutation, list_elem_of_fmap.
  setoid_rewrite elem_of_map_to_list'. split.
  - intros ([k r'] & -> & Hk). simpl in *. by destruct (Hwf _ _ Hk) as [<- _].
  - intros H. by exists (r_ID r, r).
Qed.
End list_order.

(** ** Theorems *)

(** From an empty vault, after any operations of the owner (imports
    included), every stored rule is filed under its own id and passes [validate];
    the listing that the policy digest is computed from has exactly the stored
    rules, each id once, in one order whatever order the map is ranged over. *)
Theorem vault_stays_valid path_Match tenant ops ord :
  let v := foldl (apply_vault path_Match) (NewVault tenant) ops in
  range_order (vt_rules v) ord →
  merge_sort id_le ord.*2 = vault_List v ∧
  StronglySorted id_le (vault_List v) ∧ NoDup (map r_ID (vault_List v)) ∧
  (∀ r, r ∈ vault_List v ↔ vt_rules v !! r_ID r = Some r) ∧
  (∀ r, r ∈ vault_List v → validate path_Match r = None) ∧
  vt_tenant v = tenant.
Proof.
  intros v Ho.
  assert (Hwf : vault_wf path_Match v) by apply vault_wf_ops, vault_wf_new.
  split; [by eapply vault_list_order|].
  split; [apply StronglySorted_merge_sort; apply _|].
  split. { rewrite <- (vault_list_order path_Match v ord) by done.
           rewrite merge_sort_Permutation, (range_ids path_Match v ord) by done.
           by eapply range_order_nodup. }
  split; [intros r; by eapply vault_List_elem|].
  split. { intros r. rewrite (vault_List_elem path_Match) by done. by intros [_ ?]%Hwf. }
  unfold v. clear. induction ops as [|op ops IH] using rev_ind; [done|].
  rewrite foldl_snoc. etransitivity; [|exact IH].
  generalize (foldl (apply_vault path_Match) (NewVault tenant) ops). intros v.
  destruct op; simpl;
    unfold vault_Add, vault_Edit, vault_Revoke, vault_Delete, vault_Import;
    repeat case_match; done.
Qed.

(** A revoked rule keeps its record: short of deleting that id or importing
    another vault file, no sequence of operations edits, replaces or reactivates it. *)
Theorem revoked_is_permanent path_Match v ops id r :
  vt_rules v !! id = Some r → r_Revoked r = true → Forall (keeps id) ops →
  vt_rules (foldl (apply_vault path_Match) v ops) !! id = Some r ∧
  (∀ now, active r now = false).
Proof.
  intros Hid Hr Hk. split; [|intros now; unfold active; by rewrite Hr].
  revert v Hid. induction Hk as [|op ops Hop Hk IH]; intros v Hid; simpl; [done|].
  by apply IH, revoked_kept.
Qed.

(** The version names the policy state: over a run of fewer than 2^64
    operations without an import, the vault has the version it started from
    only if it has not changed at all. *)
Theorem version_identifies_policy path_Match v ops :
  in_s 64 (vt_version v) → Forall not_import ops → (Z.of_nat (length ops) < 2 ^ 64)%Z →
  vt_version (foldl (apply_vault path_Match) v ops) = vt_version v →
  foldl (apply_vault path_Match) v ops = v.
Proof.
  intros Hv Hops Hlen Heq.
  destruct (vault_run_version path_Match v ops Hv Hops) as (n & Hn & Hz & He).
  destruct (decide (n = 0%Z)) as [->|Hne]; [by apply Hz|].
  exfalso. rewrite Heq in He. by apply (bump_iter_id n (vt_version v)); [done|lia|].
Qed.

(** ** Witnesses: a vault with one grant and one deny *)

(** Patterns that are a literal or a lone star. *)
Definition star_match (p s : string) : option bool :=
  Some (bool_decide (p = "*") || bool_decide (p = s)).

Definition ex_rule (id : string) (mode tool : string) (qs : list Requirement) : Rule :=
  mkRule id "label" "" "ada" "ops" mode "*" tool "*" "" qs
    (mkProvenance "" "" zero_time) zero_time zero_time 0 false zero_time.

Definition ex_grant : Rule :=
  ex_rule "g1" Grant "db.drop"
    [mkRequirement NeedEvidence "backup" "" "verified backup";
     mkRequirement NeedApproval "" "owner" "owner approval"].
Definition ex_deny : Rule := ex_rule "d1" Deny "db.truncate" [].

Definition ex_ops : list vault_op :=
  [VAdd 5 ex_grant; VAdd 6 ex_deny; VAdd 7 ex_grant; VRevoke 8 "d1"; VEdit ex_deny].
Definition ex_vault : Vault := foldl (apply_vault star_match) (NewVault "acme") ex_ops.

Lemma vault_stays_valid_witness :
  map r_ID (vault_List ex_vault) = ["d1"; "g1"] ∧
  merge_sort id_le (map_to_list (vt_rules ex_vault)).*2 = vault_List ex_vault.
Proof.
  split; [vm_compute; reflexivity|].
  apply (vault_stays_valid star_match "acme" ex_ops). apply range_order_refl.
Defined.

Lemma revoked_is_permanent_witness :
  ∃ r, vt_rules ex_vault !! "d1" = Some r ∧
    vt_rules (foldl (apply_vault star_match) ex_vault
                [VEdit ex_deny; VAdd 9 ex_deny; VRevoke 10 "d1"]) !! "d1" = Some r.
Proof.
  eexists. split; [vm_compute; reflexivity|].
  refine (proj1 (revoked_is_permanent star_match ex_vault _ _ _ _ _ _));
    [vm_compute; reflexivity|reflexivity|repeat constructor].
Defined.

Lemma version_identifies_policy_witness :
  vt_version ex_vault = 3%Z ∧
  foldl (apply_vault star_match) ex_vault [VEdit ex_deny; VRevoke 9 "d1"] = ex_vault.
Proof.
  split; [vm_compute; reflexivity|].
  apply (version_identifies_policy star_match ex_vault).
  - vm_compute. split; congruence.
  - repeat constructor.
  - vm_compute. reflexivity.
  - vm_compute. reflexivity.
Defined.
