(* ===== verification/Intent.v ===== *)
(** * intent/attest.go, intent/engine.go and intent/receipt.go: the engine and the guard

    The engine holds its mutex from the evaluation of an action to the spending
    of the approvals it relied on, so [Authorize] and [Ingest] are atomic.  The
    maps of evidence and approvals are ranged over in an arbitrary order, which
    the definitions take as an argument. *)

From S2P Require Import Prelude Verify IntentTypes.

(** A label between the double quotes that the messages put around it. *)
Definition quoted (s : string) : string :=
  let q := String (Ascii.ascii_of_nat 34) EmptyString in q +:+ s +:+ q.

(** ** Signed artifacts (attest.go) *)

Record Evidence := mkEvidence {
  ev_ID : string;
  ev_Tenant : string;
  ev_State : string;
  ev_Resource : string;
  ev_Issuer : string;
  ev_IssuedAt : Z;
  ev_ExpiresAt : Z;
  ev_Sig : string;
}.

Record Approval := mkApproval {
  ap_ID : string;
  ap_Tenant : string;
  ap_ActionHash : string;
  ap_Role : string;
  ap_Approver : string;
  ap_IssuedAt : Z;
  ap_ExpiresAt : Z;
  ap_Sig : string;
}.

Record Revocation := mkRevocation {
  rv_Tenant : string;
  rv_TargetID : string;
  rv_Signer : string;
  rv_IssuedAt : Z;
  rv_Sig : string;
}.

Record Envelope := mkEnvelope {
  env_Type : string;
  env_Evidence : option Evidence;
  env_Approval : option Approval;
  env_Revocation : option Revocation;
}.

Record TrustedKey := mkTrustedKey { tk_Key : string; tk_Scope : list string }.

Definition allows (t : TrustedKey) (s : string) : bool :=
  existsb (λ x, bool_decide (x = s)) (tk_Scope t).

Record Trust := mkTrust {
  tr_Owner : string;
  tr_Issuers : gmap string TrustedKey;
  tr_Approvers : gmap string TrustedKey;
}.

Record Receipt := mkReceipt {
  rc_Version : Z;
  rc_ID : string;
  rc_Tenant : string;
  rc_Verdict : Verdict;
  rc_ActionHash : string;
  rc_PolicyDigest : string;
  rc_PolicyVer : Z;
  rc_RuleIDs : list string;
  rc_EvidenceIDs : list string;
  rc_ApprovalIDs : list string;
  rc_IssuedAt : Z;
  rc_ExpiresAt : Z;
  rc_Nonce : string;
  rc_Statement : string;
  rc_Signer : string;
  rc_Sig : string;
}.

Definition ReceiptStatement : string :=
  "Records that an authorization decision was made for this action under this policy. It does not prove the action ran or succeeded.".

(** What is signed: the artifact with its [Sig] field cleared. *)
Inductive payload :=
| PEvidence (e : Evidence)
| PApproval (a : Approval)
| PRevocation (r : Revocation)
| PReceipt (r : Receipt).

(** What an audit hook receives. *)
Record Entry := mkEntry {
  en_At : Z;
  en_Tenant : string;
  en_Agent : string;
  en_Tool : string;
  en_Resource : string;
  en_Verdict : Verdict;
  en_ActionHash : string;
  en_RuleIDs : list string;
  en_ReceiptID : string;
}.

(** The external functions: the Ed25519 sizes are those of the package. *)
Definition SignatureSize : nat := 64.
Definition PublicKeySize : nat := 32.

Record Config := mkConfig {
  cfg_Vault : Vault;
  cfg_Trust : Trust;
  cfg_SigningKey : string;
  cfg_ReceiptTTL : Z;
  cfg_Audit : bool;
}.

Definition PrivateKeySize : nat := 64.

Record approvalState := mkApprovalState { as_Approval : Approval; as_used : bool }.

(** [revoked : map[string]bool] only stores true. *)
Record Engine := mkEngine {
  e_cfg : Config;
  e_evidence : gmap string Evidence;
  e_approvals : gmap string approvalState;
  e_revoked : gset string;
}.

Section with_crypto.
Context (path_Match : string → string → option bool).
Context (policy_digest : string → list publicView → string).
(** The hexadecimal SHA-256 of the JSON of an action. *)
Context (action_hash : Action → string).
(** [hex(sha256(pub)[:8])], [ed25519.Verify] over the signed bytes of a payload,
    [ed25519.Sign], and the public half of a private key. *)
Context (KeyID : string → string).
Context (ed_Verify : string → payload → string → bool).
Context (ed_Sign : string → payload → string).
Context (public_half : string → string).

Definition verify_evidence (e : Evidence) (pub : string) : bool :=
  bool_decide (String.length (ev_Sig e) = SignatureSize) &&
  ed_Verify pub (PEvidence (mkEvidence (ev_ID e) (ev_Tenant e) (ev_State e)
    (ev_Resource e) (ev_Issuer e) (ev_IssuedAt e) (ev_ExpiresAt e) "")) (ev_Sig e).

Definition verify_approval (a : Approval) (pub : string) : bool :=
  bool_decide (String.length (ap_Sig a) = SignatureSize) &&
  ed_Verify pub (PApproval (mkApproval (ap_ID a) (ap_Tenant a) (ap_ActionHash a)
    (ap_Role a) (ap_Approver a) (ap_IssuedAt a) (ap_ExpiresAt a) "")) (ap_Sig a).

Definition verify_revocation (r : Revocation) (pub : string) : bool :=
  bool_decide (String.length (rv_Sig r) = SignatureSize) &&
  ed_Verify pub (PRevocation (mkRevocation (rv_Tenant r) (rv_TargetID r)
    (rv_Signer r) (rv_IssuedAt r) "")) (rv_Sig r).

Definition checkEvidence (t : Trust) (e : Evidence) : option intent_error :=
  match tr_Issuers t !! ev_Issuer e with
  | Some k => if allows k (ev_State e) && verify_evidence e (tk_Key k) then None
              else Some (ErrUntrustedEvidence (ev_ID e))
  | None => Some (ErrUntrustedEvidence (ev_ID e))
  end.

Definition checkApproval (t : Trust) (a : Approval) : option intent_error :=
  match tr_Approvers t !! ap_Approver a with
  | Some k => if allows k (ap_Role a) && verify_approval a (tk_Key k) then None
              else Some (ErrUntrustedApproval (ap_ID a))
  | None => Some (ErrUntrustedApproval (ap_ID a))
  end.

(** ** Ingest (engine.go) *)

Definition tenant_of (e : Engine) : string := vt_tenant (cfg_Vault (e_cfg e)).

Definition set_revoked (e : Engine) (id : string) : Engine :=
  mkEngine (e_cfg e) (e_evidence e) (e_approvals e) ({[id]} ∪ e_revoked e).

Definition revokeLocked (r : Revocation) (e : Engine) : option intent_error * Engine :=
  let trust := cfg_Trust (e_cfg e) in
  if decide (rv_Tenant r ≠ tenant_of e) then (Some ErrRevocationTenant, e)
  else if bool_decide (String.length (tr_Owner trust) = PublicKeySize) &&
          bool_decide (KeyID (tr_Owner trust) = rv_Signer r) &&
          verify_revocation r (tr_Owner trust)
  then (None, set_revoked e (rv_TargetID r))
  else
    let signer := match e_evidence e !! rv_TargetID r with
                  | Some ev => ev_Issuer ev
                  | None => match e_approvals e !! rv_TargetID r with
                            | Some ap => ap_Approver (as_Approval ap)
                            | None => ""
                            end
                  end in
    if decide (signer = "" ∨ signer ≠ rv_Signer r) then (Some ErrUntrusted, e)
    else
      let k := match tr_Issuers trust !! signer with
               | Some k => Some k
               | None => tr_Approvers trust !! signer
               end in
      match k with
      | Some k => if verify_revocation r (tk_Key k)
                  then (None, set_revoked e (rv_TargetID r)) else (Some ErrUntrusted, e)
      | None => (Some ErrUntrusted, e)
      end.

Definition Ingest (env : Envelope) (e : Engine) : option intent_error * Engine :=
  let tenant := tenant_of e in
  if decide (env_Type env = "evidence") then
    match env_Evidence env with
    | None => (Some (ErrEmptyEnvelope "evidence"), e)
    | Some ev =>
        if decide (ev_Tenant ev ≠ tenant) then (Some (ErrEvidenceTenant (ev_ID ev)), e)
        else match checkEvidence (cfg_Trust (e_cfg e)) ev with
        | Some err => (Some err, e)
        | None =>
            if decide (ev_ID ev ∈ e_revoked e) then (Some (ErrEvidenceRevoked (ev_ID ev)), e)
            else (None, mkEngine (e_cfg e) (<[ev_ID ev := ev]> (e_evidence e))
                          (e_approvals e) (e_revoked e))
        end
    end
  else if decide (env_Type env = "approval") then
    match env_Approval env with
    | None => (Some (ErrEmptyEnvelope "approval"), e)
    | Some ap =>
        if decide (ap_Tenant ap ≠ tenant) then (Some (ErrApprovalTenant (ap_ID ap)), e)
        else match checkApproval (cfg_Trust (e_cfg e)) ap with
        | Some err => (Some err, e)
        | None =>
            if decide (ap_ID ap ∈ e_revoked e) then (Some (ErrApprovalRevoked (ap_ID ap)), e)
            else if match e_approvals e !! ap_ID ap with
                    | Some old => as_used old | None => false end
            then (Some (ErrApprovalUsed (ap_ID ap)), e)
            else (None, mkEngine (e_cfg e) (e_evidence e)
                          (<[ap_ID ap := mkApprovalState ap false]> (e_approvals e))
                          (e_revoked e))
        end
    end
  else if decide (env_Type env = "revocation") then
    match env_Revocation env with
    | None => (Some (ErrEmptyEnvelope "revocation"), e)
    | Some rv => revokeLocked rv e
    end
  else (Some (ErrUnknownEnvelope (env_Type env)), e).

(** ** Evaluation *)

(** The requirements of every matching grant, keyed; the first rule that asks
    for a key is the one reported. *)
Fixpoint gather_requires (rule : string) (qs : list Requirement)
    (reqs : gmap string Missing) : gmap string Missing :=
  match qs with
  | [] => reqs
  | q :: rest =>
      gather_requires rule rest
        (match reqs !! req_key q with
         | Some _ => reqs
         | None => <[req_key q := mkMissing (q_Kind q) (q_State q) (q_Role q)
                                    (q_Describe q) rule]> reqs
         end)
  end.

Definition gather (grants : list Rule) : gmap string Missing :=
  foldl (λ reqs r, gather_requires (r_ID r) (r_Requires r) reqs) ∅ grants.

Definition sorted_keys (reqs : gmap string Missing) : list string :=
  merge_sort String.le (map_to_list reqs).*1.

(** The facts that hold now and, for each state, the smallest id of the
    evidence that attests it. *)
Definition evidence_valid (e : Engine) (a : Action) (now : Z) (ev : Evidence) : bool :=
  negb (bool_decide (ev_ID ev ∈ e_revoked e) || (ev_ExpiresAt ev <=? Unix now)%Z ||
        negb (glob path_Match (ev_Resource ev) (a_Resource a))).

Definition add_fact (acc : gset string * gmap string string) (ev : Evidence)
    : gset string * gmap string string :=
  let by_ := match acc.2 !! ev_State ev with
             | Some id => if String.ltb (ev_ID ev) id
                          then <[ev_State ev := ev_ID ev]> acc.2 else acc.2
             | None => <[ev_State ev := ev_ID ev]> acc.2
             end in
  ({[ev_State ev]} ∪ acc.1, by_).

Definition facts (e : Engine) (ev_ord : list (string * Evidence)) (a : Action) (now : Z)
    : gset string * gmap string string :=
  foldl (λ acc '(_, ev), if evidence_valid e a now ev then add_fact acc ev else acc)
    (∅, ∅) ev_ord.

(** [missingEvidence]: one safety rule per required state, checked with the
    barrier of package verify against a scratch trace of the facts. *)
Definition evidence_rules (keys : list string) (reqs : gmap string Missing)
    : list SafetyRule * gmap string Missing :=
  foldl (λ '(rules, byState) k,
    match reqs !! k with
    | Some q =>
        if decide (m_Kind q ≠ NeedEvidence) then (rules, byState)
        else (rules ++ [mkSafetyRule ("needs-" +:+ m_State q) "action_performed" (m_State q)],
              <[m_State q := q]> byState)
    | None => (rules, byState)
    end) ([], ∅) keys.

Definition zero_missing : Missing := mkMissing "" "" "" "" "".

Definition hold_state (t : Trace) (s : string) : Trace :=
  mkTrace (t_Executed t) ({[s]} ∪ t_Holds t) (t_commits t) (t_commitOrder t) (t_blocked t).

(** [for i := 0; i <= len(rules); i++]: [n] is the number of rounds left. *)
Fixpoint missing_loop (n : nat) (wf : Workflow) (tr : Trace)
    (byState : gmap string Missing) : list Missing :=
  match n with
  | 0 => []
  | S n =>
      match CheckSafety wf tr "act" with
      | Some (ErrViolation v) =>
          default zero_missing (byState !! v_MissingState v) ::
          missing_loop n wf (hold_state tr (v_MissingState v)) byState
      | _ => []
      end
  end.

Definition missingEvidence (keys : list string) (reqs : gmap string Missing)
    (holds : gset string) : list Missing :=
  let '(rules, byState) := evidence_rules keys reqs in
  if decide (length rules = 0) then []
  else match NewWorkflow [mkStep "act" [] ["action_performed"]] rules [] with
       | Err _ => []
       | Ok wf => missing_loop (S (length rules)) wf (mkTrace [] holds ∅ [] ∅) byState
       end.

Definition approval_usable (e : Engine) (role hash : string) (now : Z)
    (id : string) (ap : approvalState) : bool :=
  negb (as_used ap || bool_decide (id ∈ e_revoked e) ||
        bool_decide (ap_Role (as_Approval ap) ≠ role) ||
        bool_decide (ap_ActionHash (as_Approval ap) ≠ hash) ||
        (ap_ExpiresAt (as_Approval ap) <=? Unix now)%Z).

Definition findApproval (e : Engine) (ap_ord : list (string * approvalState))
    (role hash : string) (now : Z) : string :=
  foldl (λ best '(id, ap),
    if approval_usable e role hash now id ap
    then if bool_decide (best = "") || String.ltb id best then id else best
    else best) "" ap_ord.

Definition phrases (m : list Missing) : list string := map m_Describe m.

(** The approval loop: the ids found and the requirements left without one. *)
Definition approval_step (e : Engine) (ap_ord : list (string * approvalState))
    (hash : string) (now : Z) (reqs : gmap string Missing)
    (acc : list string * list Missing) (k : string) : list string * list Missing :=
  match reqs !! k with
  | Some q =>
      if decide (m_Kind q ≠ NeedApproval) then acc
      else
        let id := findApproval e ap_ord (m_Role q) hash now in
        if decide (id ≠ "") then (acc.1 ++ [id], acc.2) else (acc.1, acc.2 ++ [q])
  | None => acc
  end.

Definition decide_block (d : Decision) (code msg : string) : Decision :=
  mkDecision Block ("Blocked: " +:+ msg) (d_Reasons d ++ [mkReason code "" msg])
    (d_Missing d) (d_AppliedRules d) (d_PolicyDigest d) (d_PolicyVer d) (d_ActionHash d)
    (d_evidenceIDs d) (d_approvalIDs d).

(** The part of [evaluateLocked] after the grants are known to be non-empty. *)
Definition evaluate_grants (e : Engine) (ev_ord : list (string * Evidence))
    (ap_ord : list (string * approvalState)) (now : Z) (a : Action) (digest : string)
    (ver : Z) (grants : list Rule) : Decision :=
  let hash := action_hash a in
  let applied := map r_ID grants in
  let reqs := gather grants in
  let keys := sorted_keys reqs in
  let '(holds, evBy) := facts e ev_ord a now in
  let missingEv := missingEvidence keys reqs holds in
  let '(usedApprovals, missingAp) :=
    foldl (approval_step e ap_ord hash now reqs) ([], []) keys in
  if decide (0 < length missingEv) then
    let missing := missingEv ++ missingAp in
    let summary := ("Blocked: " +:+ joinPhrases (phrases missing) +:+ " required.")%string in
    mkDecision Block summary
      [mkReason "missing_prerequisite" (default "" (m_RuleID <$> head missing)) summary]
      missing applied digest ver hash [] []
  else if decide (0 < length missingAp) then
    let summary := ("Approval required: " +:+ joinPhrases (phrases missingAp) +:+ ".")%string in
    mkDecision RequireApproval summary
      [mkReason "approval_needed" (default "" (m_RuleID <$> head missingAp)) summary]
      missingAp applied digest ver hash [] []
  else
    let summary := "Allowed: every prerequisite is met." in
    let evidenceIDs := omap (λ k,
      match reqs !! k with
      | Some q => if decide (m_Kind q = NeedEvidence)
                  then Some (default "" (evBy !! m_State q)) else None
      | None => None
      end) keys in
    mkDecision Allow summary [mkReason "prerequisites_met" "" summary] [] applied
      digest ver hash evidenceIDs usedApprovals.

Definition evaluateLocked (e : Engine) (ev_ord : list (string * Evidence))
    (ap_ord : list (string * approvalState)) (now : Z) (a : Action) : Decision :=
  let '(rules, digest, ver) := vault_snapshot policy_digest now (cfg_Vault (e_cfg e)) in
  let d := mkDecision Block "" [] [] [] digest ver (action_hash a) [] [] in
  if decide (a_Tenant a ≠ tenant_of e)
  then decide_block d "tenant_mismatch" "this action belongs to a different tenant."
  else if negb (complete a)
  then decide_block d "invalid_action"
         "the action is missing its agent, tool, resource or environment."
  else
    let matching := filter (λ r, rule_matches path_Match r a = true) rules in
    let denies := filter (λ r, r_Mode r = Deny) matching in
    let grants := filter (λ r, r_Mode r ≠ Deny) matching in
    match denies with
    | d0 :: _ =>
        mkDecision Block ("Blocked: rule " +:+ quoted (r_Label d0) +:+ " forbids this action.")
          (map (λ r, mkReason "denied_by_rule" (r_ID r)
                       ("rule " +:+ quoted (r_Label r) +:+ " forbids this action")) denies)
          [] (map r_ID denies) digest ver (action_hash a) [] []
    | [] =>
        match grants with
        | [] => decide_block d "no_grant" "no active rule lets this agent do this to this resource."
        | _ => evaluate_grants e ev_ord ap_ord now a digest ver grants
        end
    end.

Definition Evaluate := evaluateLocked.

(** ** Receipts (receipt.go) *)

Definition set_Sig (r : Receipt) (sig : string) : Receipt :=
  mkReceipt (rc_Version r) (rc_ID r) (rc_Tenant r) (rc_Verdict r) (rc_ActionHash r)
    (rc_PolicyDigest r) (rc_PolicyVer r) (rc_RuleIDs r) (rc_EvidenceIDs r)
    (rc_ApprovalIDs r) (rc_IssuedAt r) (rc_ExpiresAt r) (rc_Nonce r) (rc_Statement r)
    (rc_Signer r) sig.

(** [ReceiptKey]. *)
Definition ReceiptKey (e : Engine) : string := public_half (cfg_SigningKey (e_cfg e)).

(** [id] and [nonce] are the random hexadecimal strings of [newID] and
    [randomHex]. *)
Definition newReceipt (e : Engine) (id nonce : string) (a : Action) (d : Decision)
    (now : Z) : Receipt :=
  let r := mkReceipt 1 ("rc_" +:+ id) (a_Tenant a) Allow (d_ActionHash d)
    (d_PolicyDigest d) (d_PolicyVer d) (d_AppliedRules d) (d_evidenceIDs d)
    (d_approvalIDs d) (Unix now) (Unix (now + cfg_ReceiptTTL (e_cfg e))) nonce
    ReceiptStatement (KeyID (ReceiptKey e)) "" in
  set_Sig r (ed_Sign (cfg_SigningKey (e_cfg e)) (PReceipt r)).

Definition VerifySignature (r : option Receipt) (pub : string) : option intent_error :=
  match r with
  | None => Some ErrNoReceipt
  | Some r =>
      if bool_decide (rc_Version r ≠ 1%Z) ||
         bool_decide (String.length (rc_Sig r) ≠ SignatureSize) ||
         negb (ed_Verify pub (PReceipt (set_Sig r "")) (rc_Sig r))
      then Some ErrBadSignature else None
  end.

Definition receipt_Verify (ro : option Receipt) (pub : string) (action : Action) (now : Z)
    : option intent_error :=
  match VerifySignature ro pub, ro with
  | Some err, _ => Some err
  | None, None => Some ErrNoReceipt
  | None, Some r =>
      if decide (rc_Verdict r ≠ Allow) then Some ErrNotAllow
      else if decide (rc_Tenant r ≠ a_Tenant action ∨ rc_ActionHash r ≠ action_hash action)
      then Some ErrOtherAction
      else if decide (rc_ExpiresAt r ≤ Unix now ∨ Unix now < rc_IssuedAt r - 5)%Z
      then Some ErrOutsideWindow
      else None
  end.

(** ** Authorize (engine.go) *)

Definition NewEngine (vault : option Vault) (trust : Trust) (key : string) (ttl : Z)
    (audit : bool) : result intent_error Engine :=
  match vault with
  | None => Err ErrNeedsVault
  | Some v =>
      if decide (String.length key ≠ PrivateKeySize) then Err ErrNeedsSigningKey
      else Ok (mkEngine (mkConfig v trust key (if decide (ttl ≤ 0)%Z then 60 * Second else ttl)
                           audit) ∅ ∅ ∅)
  end.

(** [e.approvals[id].used = true] for each id: a nil entry panics. *)
Fixpoint spend (ids : list string) (aps : gmap string approvalState)
    : bool * gmap string approvalState :=
  match ids with
  | [] => (true, aps)
  | id :: rest =>
      match aps !! id with
      | None => (false, aps)
      | Some st => spend rest (<[id := mkApprovalState (as_Approval st) true]> aps)
      end
  end.

Definition set_approvals (e : Engine) (aps : gmap string approvalState) : Engine :=
  mkEngine (e_cfg e) (e_evidence e) aps (e_revoked e).

Definition internal_block (a : Action) : Decision :=
  mkDecision Block "Blocked: the policy engine failed, so the action was refused."
    [mkReason "internal_error" "" "evaluation failed closed"] [] [] "" 0 (action_hash a) [] [].

Definition audit_entry (e : Engine) (a : Action) (d : Decision) (r : option Receipt)
    (at_ : Z) : option Entry :=
  if cfg_Audit (e_cfg e)
  then Some (mkEntry at_ (a_Tenant a) (a_Agent a) (a_Tool a) (a_Resource a) (d_Verdict d)
               (d_ActionHash d) (d_AppliedRules d) (default "" (rc_ID <$> r)))
  else None.

(** [now1], [now2], [now3] are the readings of the clock by the evaluation, for
    the receipt and for the audit entry.  [rnd] is what the random source gives;
    [None] is a failed read, which panics inside [randomHex] and is recovered. *)
Definition Authorize (ev_ord : list (string * Evidence))
    (ap_ord : list (string * approvalState)) (now1 now2 now3 : Z)
    (rnd : option (string * string)) (a : Action) (e : Engine)
    : Decision * option Receipt * option Entry * Engine :=
  let d := evaluateLocked e ev_ord ap_ord now1 a in
  if decide (d_Verdict d = Allow) then
    match rnd with
    | None => (internal_block a, None, None, e)
    | Some (id, nonce) =>
        let r := newReceipt e id nonce a d now2 in
        let '(fine, aps) := spend (d_approvalIDs d) (e_approvals e) in
        if fine then (d, Some r, audit_entry e a d (Some r) now3, set_approvals e aps)
        else (internal_block a, None, None, set_approvals e aps)
    end
  else (d, None, audit_entry e a d None now3, e).

(** [WhatIfRevoke]: the verdicts of the samples before and after revoking a rule.
    [clock n] is the [n]-th reading of the clock during the call. *)
Definition with_vault (e : Engine) (v : Vault) : Engine :=
  let c := e_cfg e in
  mkEngine (mkConfig v (cfg_Trust c) (cfg_SigningKey c) (cfg_ReceiptTTL c) (cfg_Audit c))
    (e_evidence e) (e_approvals e) (e_revoked e).

Definition mark_revoked (id : string) (x : Rule) : Rule :=
  if decide (r_ID x = id)
  then set_stamp x (r_Owner x) (r_Provenance x) (r_CreatedAt x) (r_Version x) true (r_RevokedAt x)
  else x.

Definition shadow_vault (v : Vault) (id : string) : Vault :=
  mkVault (vt_tenant v) 0
    (foldl (λ m x, let x := mark_revoked id x in <[r_ID x := x]> m) ∅ (vault_List v)).

Definition WhatIfRevoke (e : Engine) (ev_ord : list (string * Evidence))
    (ap_ord : list (string * approvalState)) (clock : nat → Z) (ruleID : string)
    (samples : list Action) : result intent_error (list (Action * Verdict * Verdict)) :=
  match vault_Get ruleID (cfg_Vault (e_cfg e)) with
  | None => Err (ErrNoRule ruleID)
  | Some r =>
      let alt := with_vault e (shadow_vault (cfg_Vault (e_cfg e)) (r_ID r)) in
      Ok (imap (λ i a,
            (a, d_Verdict (evaluateLocked e ev_ord ap_ord (clock i) a),
             d_Verdict (evaluateLocked alt ev_ord ap_ord (clock (length samples + i)) a)))
            samples)
  end.

(** ** The guard (receipt.go)

    [Run] reads the clock and verifies the receipt before it takes the lock;
    [guard_enter] is the locked section, with the clock reading of its call.
    [true] means that [fn] is called. *)
Definition prune (now : Z) (seen : gmap string Z) : gmap string Z :=
  filter (λ '(_, exp), ¬ (exp ≤ Unix now)%Z) seen.

Definition guard_enter (r : Receipt) (now : Z) (seen : gmap string Z)
    : bool * gmap string Z :=
  let seen := prune now seen in
  match seen !! rc_Nonce r with
  | Some _ => (false, seen)
  | None => (true, <[rc_Nonce r := rc_ExpiresAt r]> seen)
  end.

(** One call of [Run] whose locked section runs at once: the error, whether
    [fn] was called, and the nonces after. *)
Definition guard_Run (pub : string) (action : Action) (ro : option Receipt) (now : Z)
    (seen : gmap string Z) : option intent_error * bool * gmap string Z :=
  match receipt_Verify ro pub action now, ro with
  | Some err, _ => (Some err, false, seen)
  | None, None => (Some ErrNoReceipt, false, seen)
  | None, Some r =>
      let '(run, seen) := guard_enter r now seen in
      if run then (None, true, seen) else (Some ErrReceiptUsed, false, seen)
  end.
End with_crypto.
