(* ===== verification/IntentSpec.v ===== *)
(** * What the engine decides: the lemmas on evaluation

    [evaluateLocked] gathers the requirements of the matching grants in a map,
    sorts its keys, computes the facts by a range over the evidence and asks
    package verify for the missing states one at a time.  Here each of these
    steps gets the specification the theorems of [IntentProps] are built from. *)

From S2P Require Import Prelude Verify IntentTypes Intent.

(** ** Requirement keys *)

Lemma append_inj (p s1 s2 : string) : (p +:+ s1)%string = (p +:+ s2)%string → s1 = s2.
Proof. induction p as [|c p IH]; simpl; [done|]. intros [= H]. by apply IH. Qed.

Definition valid_req (q : Requirement) : Prop :=
  (q_Kind q = NeedEvidence ∧ q_State q ≠ "") ∨ (q_Kind q = NeedApproval ∧ q_Role q ≠ "").

Lemma req_key_evidence q : q_Kind q = NeedEvidence → req_key q = ("evidence:" +:+ q_State q)%string.
Proof. intros H. unfold req_key. by rewrite decide_True. Qed.

Lemma req_key_approval q : q_Kind q = NeedApproval → req_key q = ("approval:" +:+ q_Role q)%string.
Proof. intros H. unfold req_key. by rewrite decide_False by (rewrite H; done). Qed.

(** Valid requirements with the same key ask for the same thing. *)
Lemma req_key_inj q1 q2 : valid_req q1 → valid_req q2 → req_key q1 = req_key q2 →
  q_Kind q1 = q_Kind q2 ∧ (q_Kind q1 = NeedEvidence → q_State q1 = q_State q2) ∧
  (q_Kind q1 = NeedApproval → q_Role q1 = q_Role q2).
Proof.
  intros [[K1 _]|[K1 _]] [[K2 _]|[K2 _]];
    rewrite ?(req_key_evidence q1 K1), ?(req_key_evidence q2 K2),
      ?(req_key_approval q1 K1), ?(req_key_approval q2 K2); intros H;
    try discriminate H; apply append_inj in H; by rewrite K1, K2.
Qed.

(** The requirement a gathered entry stands for. *)
Definition of_req (rule : string) (q : Requirement) : Missing :=
  mkMissing (q_Kind q) (q_State q) (q_Role q) (q_Describe q) rule.

Lemma gather_requires_spec rule qs reqs k m :
  gather_requires rule qs reqs !! k = Some m →
  reqs !! k = Some m ∨ ∃ q, q ∈ qs ∧ req_key q = k ∧ m = of_req rule q.
Proof.
  revert reqs. induction qs as [|q qs IH]; intros reqs; simpl; [auto|].
  intros [H|(q' & ? & ? & ?)]%IH; [|right; exists q'; set_solver].
  destruct (reqs !! req_key q) eqn:E; [auto|].
  apply lookup_insert_Some in H as [[<- <-]|[_ H]]; [|auto].
  right. exists q. set_solver.
Qed.

Lemma gather_requires_dom rule qs reqs k :
  is_Some (reqs !! k) ∨ (∃ q, q ∈ qs ∧ req_key q = k) →
  is_Some (gather_requires rule qs reqs !! k).
Proof.
  revert reqs. induction qs as [|q qs IH]; intros reqs; simpl.
  - intros [H|(q & Hq & _)]; [done|set_solver].
  - intros H. apply IH.
    destruct H as [H|(q' & [->|Hq]%elem_of_cons & <-)].
    + left. destruct (reqs !! req_key q) eqn:E; [done|].
      rewrite lookup_insert_is_Some. destruct (decide (req_key q = k)); auto.
    + left. destruct (reqs !! req_key q) eqn:E; [by rewrite E|]. by rewrite lookup_insert_eq.
    + right. by exists q'.
Qed.

Lemma gather_spec grants k m :
  gather grants !! k = Some m →
  ∃ r q, r ∈ grants ∧ q ∈ r_Requires r ∧ req_key q = k ∧ m = of_req (r_ID r) q.
Proof.
  unfold gather. induction grants as [|r grants IH] using rev_ind; simpl.
  - by rewrite lookup_empty.
  - rewrite foldl_snoc. intros [H|(q & ? & ? & ?)]%gather_requires_spec.
    + apply IH in H as (r' & q & ? & ?). exists r', q. set_solver.
    + exists r, q. set_solver.
Qed.

Lemma gather_dom grants r q : r ∈ grants → q ∈ r_Requires r →
  is_Some (gather grants !! req_key q).
Proof.
  unfold gather. induction grants as [|r' grants IH] using rev_ind; [set_solver|].
  rewrite foldl_snoc. intros [Hr| ->%list_elem_of_singleton]%elem_of_app Hq;
    apply gather_requires_dom; [left; by apply IH|right; by exists q].
Qed.

Definition grants_valid (grants : list Rule) : Prop :=
  ∀ r q, r ∈ grants → q ∈ r_Requires r → valid_req q.

(** What the gathered map promises when every requirement is valid. *)
Record reqs_ok (reqs : gmap string Missing) : Prop := {
  ro_key k m : reqs !! k = Some m →
    (m_Kind m = NeedEvidence ∧ k = ("evidence:" +:+ m_State m)%string) ∨
    (m_Kind m = NeedApproval ∧ k = ("approval:" +:+ m_Role m)%string)
}.

Lemma gather_ok grants : grants_valid grants → reqs_ok (gather grants).
Proof.
  intros Hv. constructor. intros k m (r & q & Hr & Hq & <- & ->)%gather_spec. simpl.
  destruct (Hv r q Hr Hq) as [[HK _]|[HK _]].
  - left. by rewrite req_key_evidence.
  - right. by rewrite req_key_approval.
Qed.

(** The states and the roles that the gathered map asks for. *)
Definition asks_state (reqs : gmap string Missing) (s : string) : Prop :=
  ∃ k m, reqs !! k = Some m ∧ m_Kind m = NeedEvidence ∧ m_State m = s.
Definition asks_role (reqs : gmap string Missing) (r : string) : Prop :=
  ∃ k m, reqs !! k = Some m ∧ m_Kind m = NeedApproval ∧ m_Role m = r.

Lemma gather_asks_state grants s : grants_valid grants →
  asks_state (gather grants) s ↔
  ∃ r q, r ∈ grants ∧ q ∈ r_Requires r ∧ q_Kind q = NeedEvidence ∧ q_State q = s.
Proof.
  intros Hv. split.
  - intros (k & m & (r & q & Hr & Hq & Hk & ->)%gather_spec & HK & Hs). by exists r, q.
  - intros (r & q & Hr & Hq & HK & <-).
    destruct (gather_dom grants r q Hr Hq) as [m Hm]. exists (req_key q), m.
    split; [done|]. pose proof Hm as (r' & q' & Hr' & Hq' & He & ->)%gather_spec. simpl.
    destruct (req_key_inj q q') as (H1 & H2 & _); [eauto..|].
    rewrite <- H1, <- H2 by done. done.
Qed.

Lemma gather_asks_role grants s : grants_valid grants →
  asks_role (gather grants) s ↔
  ∃ r q, r ∈ grants ∧ q ∈ r_Requires r ∧ q_Kind q = NeedApproval ∧ q_Role q = s.
Proof.
  intros Hv. split.
  - intros (k & m & (r & q & Hr & Hq & Hk & ->)%gather_spec & HK & Hs). by exists r, q.
  - intros (r & q & Hr & Hq & HK & <-).
    destruct (gather_dom grants r q Hr Hq) as [m Hm]. exists (req_key q), m.
    split; [done|]. pose proof Hm as (r' & q' & Hr' & Hq' & He & ->)%gather_spec. simpl.
    destruct (req_key_inj q q') as (H1 & _ & H2); [eauto..|].
    rewrite <- H1, <- H2 by done. done.
Qed.

Lemma sorted_keys_elem reqs k : k ∈ sorted_keys reqs ↔ is_Some (reqs !! k).
Proof.
  unfold sorted_keys. rewrite merge_sort_Permutation, list_elem_of_fmap. split.
  - intros ([k' m] & -> & H%elem_of_map_to_list'). by exists m.
  - intros [m H]. exists (k, m). by rewrite elem_of_map_to_list'.
Qed.

Lemma sorted_keys_NoDup reqs : NoDup (sorted_keys reqs).
Proof. unfold sorted_keys. rewrite merge_sort_Permutation. apply NoDup_fst_map_to_list. Qed.

(** ** Missing evidence *)

(** The gathered entries that ask for evidence, in key order. *)
Definition evidence_of (reqs : gmap string Missing) (k : string) : option Missing :=
  match reqs !! k with
  | Some q => if decide (m_Kind q = NeedEvidence) then Some q else None
  | None => None
  end.

Definition rule_of (q : Missing) : SafetyRule :=
  mkSafetyRule ("needs-" +:+ m_State q) "action_performed" (m_State q).

Lemma evidence_rules_spec keys reqs :
  evidence_rules keys reqs =
  (map rule_of (omap (evidence_of reqs) keys),
   foldl (λ m q, <[m_State q := q]> m) ∅ (omap (evidence_of reqs) keys)).
Proof.
  unfold evidence_rules. induction keys as [|k keys IH] using rev_ind; [done|].
  rewrite foldl_snoc, IH, omap_app.
  assert (He : omap (evidence_of reqs) [k] = option_list (evidence_of reqs k))
    by (simpl; by destruct (evidence_of reqs k)).
  rewrite He. clear He. generalize (omap (evidence_of reqs) keys). intros l.
  unfold evidence_of.
  destruct (reqs !! k) as [q|]; simpl; [|by rewrite app_nil_r].
  destruct (decide (m_Kind q = NeedEvidence)) as [E|E]; simpl.
  - rewrite decide_False by tauto. by rewrite map_app, foldl_snoc.
  - rewrite decide_True by done. by rewrite app_nil_r.
Qed.

Lemma byState_lookup (qs : list Missing) q : NoDup (map m_State qs) → q ∈ qs →
  foldl (λ m q, <[m_State q := q]> m) (∅ : gmap string Missing) qs !! m_State q = Some q.
Proof.
  induction qs as [|x qs IH] using rev_ind; [set_solver|].
  rewrite foldl_snoc, map_app, NoDup_app. intros (Hn & Hd & _).
  intros [Hq| ->%list_elem_of_singleton]%elem_of_app.
  - rewrite lookup_insert_ne; [by apply IH|]. intros He. apply (Hd (m_State x)).
    + rewrite He. apply list_elem_of_fmap. by exists q.
    + set_solver.
  - by rewrite lookup_insert_eq.
Qed.

(** The first required state that is not held is the violation reported. *)
Lemma checkRules_first n (holds : gset string) (qs : list Missing) :
  checkRules n holds "action_performed" (map rule_of qs) =
  match filter (λ q, m_State q ∉ holds) qs with
  | [] => None
  | q :: _ => Some (ErrViolation (mkViolation ("needs-" +:+ m_State q)
                (MsgForbidden n "action_performed" (m_State q) ("needs-" +:+ m_State q))
                (m_State q) 0))
  end.
Proof.
  induction qs as [|q qs IH]; [done|]. cbn [map checkRules rule_of rule_Forbidden rule_Requires].
  rewrite decide_False by tauto. rewrite filter_cons.
  destruct (decide (m_State q ∈ holds)) as [H|H].
  - rewrite decide_False by tauto. done.
  - rewrite decide_True by done. done.
Qed.

Definition act_workflow (qs : list Missing) : Workflow :=
  mkWorkflow {["act" := mkStep "act" [] ["action_performed"]]} (map rule_of qs) [].

Lemma CheckSafety_act qs tr :
  CheckSafety (act_workflow qs) tr "act" =
  checkRules "act" (t_Holds tr) "action_performed" (map rule_of qs).
Proof.
  unfold CheckSafety, checkSafetyLocked, act_workflow.
  cbn [wf_Steps wf_Safety]. rewrite lookup_singleton_eq.
  cbn [checkRequires step_Requires step_Establishes checkEstablishes]. by destruct checkRules.
Qed.

Lemma filter_hold (qs : list Missing) (holds : gset string) q rest :
  NoDup (map m_State qs) → filter (λ q, m_State q ∉ holds) qs = q :: rest →
  filter (λ x, m_State x ∉ {[m_State q]} ∪ holds) qs = rest.
Proof.
  intros Hn Hf.
  assert (Hs : filter (λ x, m_State x ∉ {[m_State q]} ∪ holds) qs =
               filter (λ x, m_State x ≠ m_State q) (filter (λ q, m_State q ∉ holds) qs)).
  { rewrite list_filter_filter. apply list_filter_iff. set_solver. }
  rewrite Hs, Hf, filter_cons, decide_False by tauto.
  assert (Hn' : NoDup (map m_State (q :: rest))).
  { rewrite <- Hf. eapply sublist_NoDup; [exact Hn|]. apply (fmap_sublist m_State), sublist_filter. }
  apply NoDup_cons in Hn' as [Hq _].
  rewrite filter_all; [done|]. apply Forall_forall. intros x Hx He. apply Hq.
  apply list_elem_of_fmap. by exists x.
Qed.

Lemma missing_loop_spec byState qs : NoDup (map m_State qs) →
  (∀ q, q ∈ qs → byState !! m_State q = Some q) →
  ∀ n tr, length (filter (λ q, m_State q ∉ t_Holds tr) qs) < n →
  missing_loop n (act_workflow qs) tr byState = filter (λ q, m_State q ∉ t_Holds tr) qs.
Proof.
  intros Hn Hb n. induction n as [|n IH]; intros tr Hlt; [lia|].
  cbn [missing_loop]. rewrite CheckSafety_act, checkRules_first.
  destruct (filter (λ q, m_State q ∉ t_Holds tr) qs) as [|q rest] eqn:Hf; [done|].
  simpl. assert (Hq : q ∈ qs).
  { assert (q ∈ q :: rest) as H by set_solver. rewrite <- Hf in H.
    by apply list_elem_of_filter in H as [_ H]. }
  rewrite (Hb q Hq). simpl. f_equal.
  pose proof (filter_hold qs (t_Holds tr) q rest Hn Hf) as Hr.
  rewrite IH; simpl; rewrite Hr; [done|]. simpl in Hlt. lia.
Qed.

Lemma evidence_states_NoDup reqs : reqs_ok reqs →
  NoDup (map m_State (omap (evidence_of reqs) (sorted_keys reqs))).
Proof.
  intros Hok. pose proof (sorted_keys_NoDup reqs) as Hn.
  induction Hn as [|k ks Hk Hn IH]; simpl; [constructor|].
  destruct (evidence_of reqs k) as [q|] eqn:E; [|done]. simpl. constructor; [|done].
  intros (q' & Hs & (k' & Hk' & E')%list_elem_of_omap)%list_elem_of_fmap.
  unfold evidence_of in E, E'.
  destruct (reqs !! k) as [x|] eqn:Ex; [|done]. destruct (reqs !! k') as [y|] eqn:Ey; [|done].
  case_decide as H1; [|done]. case_decide as H2; [|done]. simplify_eq.
  apply (ro_key _ Hok) in Ex as [[_ ->]|[HK _]]; [|unfold NeedEvidence, NeedApproval in *; congruence].
  apply (ro_key _ Hok) in Ey as [[_ ->]|[HK _]]; [|unfold NeedEvidence, NeedApproval in *; congruence].
  apply Hk. by rewrite Hs.
Qed.

Lemma missingEvidence_spec reqs (holds : gset string) : reqs_ok reqs →
  missingEvidence (sorted_keys reqs) reqs holds =
  filter (λ q, m_State q ∉ holds) (omap (evidence_of reqs) (sorted_keys reqs)).
Proof.
  intros Hok. unfold missingEvidence. rewrite evidence_rules_spec.
  pose proof (evidence_states_NoDup reqs Hok) as Hn.
  set (qs := omap _ _) in *. rewrite length_map. case_decide as Hl.
  { by destruct qs. }
  change (missing_loop (S (length qs)) (act_workflow qs)
    (mkTrace [] holds ∅ [] ∅) (foldl (λ m q, <[m_State q := q]> m) ∅ qs) =
    filter (λ q, m_State q ∉ holds) qs).
  rewrite missing_loop_spec; [done|done| |].
  - intros q Hq. by apply byState_lookup.
  - simpl. pose proof (length_filter (λ q, m_State q ∉ holds) qs). lia.
Qed.

(** ** The smallest id

    Both ranges keep the smallest id they meet, so their result is the least
    element of a set and not an artefact of the range order. *)

Lemma ltb_leb a b : String.ltb a b = negb (String.leb b a).
Proof.
  unfold String.ltb, String.leb. rewrite (String.compare_antisym b a).
  by destruct (String.compare a b).
Qed.

Lemma ltb_true_le a b : String.ltb a b = true → String.le a b.
Proof.
  rewrite ltb_leb, negb_true_iff. intros H. destruct (total String.le a b) as [|Hb]; [done|].
  unfold String.le in Hb. by rewrite H in Hb.
Qed.

Lemma ltb_false_le a b : String.ltb a b = false → String.le b a.
Proof. rewrite ltb_leb, negb_false_iff. unfold String.le. by intros ->. Qed.

Definition least (P : string → Prop) (x : string) : Prop := P x ∧ ∀ y, P y → String.le x y.

Lemma least_unique P x y : least P x → least P y → x = y.
Proof. intros [Hx Hx'] [Hy Hy']. apply (anti_symm String.le); auto. Qed.

Lemma least_ext (P Q : string → Prop) x : (∀ y, P y ↔ Q y) → least P x → least Q x.
Proof. intros H [Hx Hl]. split; [by apply H|]. intros y Hy. by apply Hl, H. Qed.

(** Adding one element. *)
Lemma least_step (P : string → Prop) best x :
  least P best →
  least (λ y, P y ∨ y = x) (if String.ltb x best then x else best).
Proof.
  intros [Hb Hl]. destruct (String.ltb x best) eqn:E.
  - apply ltb_true_le in E. split; [by right|]. intros y [Hy| ->]; [|done].
    by transitivity best; [|apply Hl].
  - apply ltb_false_le in E. split; [by left|]. intros y [Hy| ->]; auto.
Qed.

Lemma least_first (P : string → Prop) x : (∀ y, ¬ P y) → least (λ y, P y ∨ y = x) x.
Proof. intros HP. split; [by right|]. intros y [[]%HP| ->]. done. Qed.

Section facts.
Context (path_Match : string → string → option bool).

(** ** Facts *)

Definition attested (e : Engine) (ord : list (string * Evidence)) (a : Action) (now : Z)
    (s id : string) : Prop :=
  ∃ k ev, (k, ev) ∈ ord ∧ evidence_valid path_Match e a now ev = true ∧
    ev_State ev = s ∧ ev_ID ev = id.

Lemma attested_snoc e ord a now s id k ev :
  attested e (ord ++ [(k, ev)]) a now s id ↔
  attested e ord a now s id ∨
  (evidence_valid path_Match e a now ev = true ∧ ev_State ev = s ∧ id = ev_ID ev).
Proof.
  unfold attested. split.
  - intros (k' & ev' & [?|[= -> ->]%list_elem_of_singleton]%elem_of_app & ? & ? & <-);
      [left; by exists k', ev'|by right].
  - intros [(k' & ev' & ? & ? & ? & ?)|(? & ? & ->)];
      [exists k', ev'|exists k, ev]; rewrite elem_of_app, list_elem_of_singleton; auto.
Qed.

Lemma facts_snoc e ord a now k ev :
  facts path_Match e (ord ++ [(k, ev)]) a now =
  if evidence_valid path_Match e a now ev then add_fact (facts path_Match e ord a now) ev
  else facts path_Match e ord a now.
Proof. unfold facts. by rewrite foldl_snoc. Qed.

Lemma facts_spec e ord a now s :
  match (facts path_Match e ord a now).2 !! s with
  | None => s ∉ (facts path_Match e ord a now).1 ∧ ∀ id, ¬ attested e ord a now s id
  | Some id => s ∈ (facts path_Match e ord a now).1 ∧ least (attested e ord a now s) id
  end.
Proof.
  induction ord as [|[k ev] ord IH] using rev_ind.
  { split; [apply not_elem_of_empty|]. intros id (? & ? & ? & _). set_solver. }
  rewrite facts_snoc. destruct (evidence_valid path_Match e a now ev) eqn:Ev.
  2:{ assert (Hx : ∀ id, attested e ord a now s id ↔ attested e (ord ++ [(k, ev)]) a now s id)
        by (intros id; rewrite attested_snoc, Ev; naive_solver).
      destruct (_ !! s) as [id|]; destruct IH as [H1 H2]; split; try done.
      - by apply (least_ext _ _ _ Hx).
      - intros id. by rewrite <- Hx. }
  revert IH. generalize (facts path_Match e ord a now). intros [hs by_]. simpl.
  destruct (decide (ev_State ev = s)) as [<-|Hne].
  - assert (Hx : ∀ id, attested e ord a now (ev_State ev) id ∨ id = ev_ID ev ↔
                       attested e (ord ++ [(k, ev)]) a now (ev_State ev) id)
      by (intros id; rewrite attested_snoc, Ev; naive_solver).
    destruct (by_ !! ev_State ev) as [id|] eqn:E; intros [H1 H2].
    + destruct (String.ltb (ev_ID ev) id) eqn:El.
      * rewrite lookup_insert_eq. split; [set_solver|]. apply (least_ext _ _ _ Hx).
        pose proof (least_step _ _ (ev_ID ev) H2) as Hs. by rewrite El in Hs.
      * rewrite E. split; [set_solver|]. apply (least_ext _ _ _ Hx).
        pose proof (least_step _ _ (ev_ID ev) H2) as Hs. by rewrite El in Hs.
    + rewrite lookup_insert_eq. split; [set_solver|]. apply (least_ext _ _ _ Hx).
      by apply least_first.
  - assert (Hx : ∀ id, attested e ord a now s id ↔ attested e (ord ++ [(k, ev)]) a now s id)
      by (intros id; rewrite attested_snoc; naive_solver).
    assert (Hl : (match by_ !! ev_State ev with
                  | Some id => if String.ltb (ev_ID ev) id
                               then <[ev_State ev:=ev_ID ev]> by_ else by_
                  | None => <[ev_State ev:=ev_ID ev]> by_
                  end) !! s = by_ !! s).
    { destruct (by_ !! ev_State ev); [destruct (String.ltb _ _)|];
        by rewrite ?lookup_insert_ne. }
    rewrite Hl. destruct (by_ !! s) as [id|]; intros [H1 H2]; (split; [set_solver|]).
    + by apply (least_ext _ _ _ Hx).
    + intros id. by rewrite <- Hx.
Qed.

Lemma facts_holds e ord a now s :
  s ∈ (facts path_Match e ord a now).1 ↔ ∃ id, attested e ord a now s id.
Proof.
  pose proof (facts_spec e ord a now s) as H. destruct (_ !! s) as [id|]; destruct H as [H1 H2].
  - split; [|done]. intros _. exists id. apply H2.
  - split; [done|]. intros [id Hid]. by destruct (H2 id).
Qed.

End facts.

(** ** Approvals *)

Definition usable (e : Engine) (ord : list (string * approvalState)) (role hash : string)
    (now : Z) (id : string) : Prop :=
  ∃ st, (id, st) ∈ ord ∧ approval_usable e role hash now id st = true.

Lemma usable_snoc e ord role hash now k st x :
  usable e (ord ++ [(k, st)]) role hash now x ↔
  usable e ord role hash now x ∨ (x = k ∧ approval_usable e role hash now k st = true).
Proof.
  unfold usable. split.
  - intros (st' & [?|[= -> ->]%list_elem_of_singleton]%elem_of_app & ?);
      [left; by exists st'|by right].
  - intros [(st' & ? & ?)|(-> & ?)];
      [exists st'|exists st]; rewrite elem_of_app, list_elem_of_singleton; auto.
Qed.

(** An id that is found is that of a usable approval, whatever ids are stored. *)
Lemma findApproval_usable e ord role hash now :
  findApproval e ord role hash now ≠ "" →
  usable e ord role hash now (findApproval e ord role hash now).
Proof.
  induction ord as [|[k st] ord IH] using rev_ind; [done|].
  rewrite usable_snoc. unfold findApproval. rewrite foldl_snoc.
  change (foldl _ "" ord) with (findApproval e ord role hash now).
  destruct (approval_usable e role hash now k st) eqn:Eu; [|auto].
  destruct (bool_decide _ || _); auto.
Qed.

Lemma findApproval_spec e ord role hash now : "" ∉ ord.*1 →
  let id := findApproval e ord role hash now in
  (id = "" ∧ ∀ x, ¬ usable e ord role hash now x) ∨
  (id ≠ "" ∧ least (usable e ord role hash now) id).
Proof.
  induction ord as [|[k st] ord IH] using rev_ind; intros Hn.
  { left. split; [done|]. intros x (? & ? & _). set_solver. }
  rewrite fmap_app in Hn. destruct IH as [IH|IH]; [set_solver|..]; simpl.
  all: unfold findApproval; rewrite foldl_snoc;
    change (foldl _ "" ord) with (findApproval e ord role hash now);
    destruct (approval_usable e role hash now k st) eqn:Eu.
  all: assert (Hx : ∀ x, usable e (ord ++ [(k, st)]) role hash now x ↔
      usable e ord role hash now x ∨ (x = k ∧ approval_usable e role hash now k st = true))
    by apply usable_snoc.
  all: destruct IH as [Hid Hl].
  - rewrite Hid. simpl. right. split; [set_solver|].
    eapply least_ext; [|by apply (least_first _ k Hl)].
    intros y. rewrite Hx. clear -Eu Hl; intuition congruence.
  - left. split; [done|]. intros x. rewrite Hx, Eu. by intros [?%Hl|[_ ?]].
  - right. rewrite bool_decide_false by done. simpl. split; [destruct String.ltb; set_solver|].
    eapply least_ext; [|by apply least_step]. intros y. rewrite Hx. clear -Eu Hl; intuition congruence.
  - right. split; [done|]. eapply least_ext; [|done]. intros y. rewrite Hx. clear -Eu Hl; intuition congruence.
Qed.

Definition approval_of (reqs : gmap string Missing) (k : string) : option Missing :=
  match reqs !! k with
  | Some q => if decide (m_Kind q = NeedApproval) then Some q else None
  | None => None
  end.

Definition approval_ids e ap_ord hash now (qs : list Missing) : list string :=
  filter (λ id, id ≠ "") (map (λ q, findApproval e ap_ord (m_Role q) hash now) qs).
Definition approval_missing e ap_ord hash now (qs : list Missing) : list Missing :=
  filter (λ q, findApproval e ap_ord (m_Role q) hash now = "") qs.

Lemma approval_fold e ap_ord hash now reqs keys :
  foldl (approval_step e ap_ord hash now reqs) ([], []) keys =
  (approval_ids e ap_ord hash now (omap (approval_of reqs) keys),
   approval_missing e ap_ord hash now (omap (approval_of reqs) keys)).
Proof.
  unfold approval_ids, approval_missing.
  induction keys as [|k keys IH] using rev_ind; [done|].
  rewrite foldl_snoc, IH, omap_app.
  assert (He : omap (approval_of reqs) [k] = option_list (approval_of reqs k))
    by (simpl; by destruct (approval_of reqs k)).
  rewrite He. clear He IH. generalize (omap (approval_of reqs) keys). intros l.
  unfold approval_step, approval_of.
  destruct (reqs !! k) as [q|]; simpl; [|by rewrite app_nil_r].
  destruct (decide (m_Kind q = NeedApproval)) as [E|E]; simpl.
  - rewrite decide_False by tauto. rewrite map_app, !filter_app. cbn [map].
    rewrite !filter_cons, !filter_nil.
    destruct (decide (findApproval e ap_ord (m_Role q) hash now = "")) as [Hi|Hi].
    + rewrite !(decide_False (P := _ ≠ _)) by tauto. by rewrite app_nil_r.
    + rewrite !(decide_True (P := _ ≠ _)) by done. by rewrite app_nil_r.
  - rewrite decide_True by done. by rewrite app_nil_r.
Qed.

Lemma approval_of_elem reqs q :
  q ∈ omap (approval_of reqs) (sorted_keys reqs) ↔
  ∃ k, reqs !! k = Some q ∧ m_Kind q = NeedApproval.
Proof.
  rewrite list_elem_of_omap. unfold approval_of. setoid_rewrite sorted_keys_elem. split.
  - intros (k & _ & H). destruct (reqs !! k) as [x|] eqn:E; [|done].
    case_decide; simplify_eq. by exists k.
  - intros (k & H & HK). exists k. rewrite H, decide_True by done. by split.
Qed.

Lemma evidence_of_elem reqs q :
  q ∈ omap (evidence_of reqs) (sorted_keys reqs) ↔
  ∃ k, reqs !! k = Some q ∧ m_Kind q = NeedEvidence.
Proof.
  rewrite list_elem_of_omap. unfold evidence_of. setoid_rewrite sorted_keys_elem. split.
  - intros (k & _ & H). destruct (reqs !! k) as [x|] eqn:E; [|done].
    case_decide; simplify_eq. by exists k.
  - intros (k & H & HK). exists k. rewrite H, decide_True by done. by split.
Qed.

Lemma findApproval_empty e ord role hash now : "" ∉ ord.*1 →
  findApproval e ord role hash now = "" ↔ ∀ id, ¬ usable e ord role hash now id.
Proof.
  intros Hn. pose proof (findApproval_spec e ord role hash now Hn) as [[H1 H2]|[H1 [H2 _]]].
  - done.
  - split; [done|]. intros H. by destruct (H (findApproval e ord role hash now)).
Qed.

Lemma no_missing_approval e ord hash now reqs : "" ∉ ord.*1 →
  approval_missing e ord hash now (omap (approval_of reqs) (sorted_keys reqs)) = [] ↔
  ∀ r, asks_role reqs r → ∃ id, usable e ord r hash now id.
Proof.
  intros Hn. unfold approval_missing. split.
  - intros Hf r (k & m & Hm & HK & <-).
    destruct (findApproval_spec e ord (m_Role m) hash now Hn) as [[H1 _]|[_ [H2 _]]];
      [|by eexists].
    exfalso. eapply (filter_nil_not_elem_of _ _ m Hf); [done|].
    apply approval_of_elem. by exists k.
  - intros H. destruct (filter _ _) as [|q l] eqn:Hf; [done|].
    assert (Hq : q ∈ q :: l) by set_solver. rewrite <- Hf in Hq.
    apply list_elem_of_filter in Hq as [He (k & Hk & HK)%approval_of_elem].
    exfalso. rewrite findApproval_empty in He by done.
    destruct (H (m_Role q)) as [id Hid]; [by exists k, q|]. by destruct (He id).
Qed.

Lemma no_missing_evidence path_Match e ord a now reqs : reqs_ok reqs →
  missingEvidence (sorted_keys reqs) reqs (facts path_Match e ord a now).1 = [] ↔
  ∀ s, asks_state reqs s → ∃ id, attested path_Match e ord a now s id.
Proof.
  intros Hok. rewrite missingEvidence_spec by done. split.
  - intros Hf s (k & m & Hm & HK & <-). apply facts_holds.
    destruct (decide (m_State m ∈ (facts path_Match e ord a now).1)) as [|Hn]; [done|].
    exfalso. eapply (filter_nil_not_elem_of _ _ m Hf); [done|].
    apply evidence_of_elem. by exists k.
  - intros H. destruct (filter _ _) as [|q l] eqn:Hf; [done|].
    assert (Hq : q ∈ q :: l) by set_solver. rewrite <- Hf in Hq.
    apply list_elem_of_filter in Hq as [Hn (k & Hk & HK)%evidence_of_elem].
    exfalso. apply Hn, facts_holds, H. by exists k, q.
Qed.
