(* ===== verification/IntentProps.v ===== *)
(** * The theorems on the intent engine: verdicts, approvals, receipts, the guard *)

From S2P Require Import Prelude Verify IntentTypes Intent IntentSpec.

Section engine.
Context (path_Match : string → string → option bool).
Context (policy_digest : string → list publicView → string).
Context (action_hash : Action → string).
Abbreviation evaluateLocked := (evaluateLocked path_Match policy_digest action_hash).
Abbreviation evaluate_grants := (evaluate_grants path_Match action_hash).

(** ** The abstract policy

    What an owner means by a rule set, with no maps, orders or loops. *)

(** A rule of the vault that is active and whose scope covers the action. *)
Definition applicable (e : Engine) (now : Z) (a : Action) (r : Rule) : Prop :=
  vt_rules (cfg_Vault (e_cfg e)) !! r_ID r = Some r ∧ active r now = true ∧
  rule_matches path_Match r a = true.

Definition in_policy (e : Engine) (now : Z) (a : Action) : Prop :=
  a_Tenant a = tenant_of e ∧ complete a = true ∧
  (∃ r, applicable e now a r) ∧ (∀ r, applicable e now a r → r_Mode r ≠ Deny).

Definition evidence_met (e : Engine) (now : Z) (a : Action) (s : string) : Prop :=
  ∃ k ev, e_evidence e !! k = Some ev ∧ ev_State ev = s ∧ ev_ID ev ∉ e_revoked e ∧
    (Unix now < ev_ExpiresAt ev)%Z ∧ path_Match (ev_Resource ev) (a_Resource a) = Some true.

Definition approval_met (e : Engine) (now : Z) (a : Action) (role : string) : Prop :=
  ∃ id st, e_approvals e !! id = Some st ∧ as_used st = false ∧ id ∉ e_revoked e ∧
    ap_Role (as_Approval st) = role ∧ ap_ActionHash (as_Approval st) = action_hash a ∧
    (Unix now < ap_ExpiresAt (as_Approval st))%Z.

Definition evidence_all (e : Engine) (now : Z) (a : Action) : Prop :=
  ∀ r q, applicable e now a r → q ∈ r_Requires r → q_Kind q = NeedEvidence →
    evidence_met e now a (q_State q).
Definition approval_all (e : Engine) (now : Z) (a : Action) : Prop :=
  ∀ r q, applicable e now a r → q ∈ r_Requires r → q_Kind q = NeedApproval →
    approval_met e now a (q_Role q).

Lemma evidence_met_attested e ord a now s : range_order (e_evidence e) ord →
  evidence_met e now a s ↔ ∃ id, attested path_Match e ord a now s id.
Proof.
  intros Ho. unfold evidence_met, attested.
  setoid_rewrite (range_order_elem _ _ _ _ Ho).
  assert (Hv : ∀ ev, evidence_valid path_Match e a now ev = true ↔
    ev_ID ev ∉ e_revoked e ∧ (Unix now < ev_ExpiresAt ev)%Z ∧
    path_Match (ev_Resource ev) (a_Resource a) = Some true).
  { intros ev. unfold evidence_valid, glob.
    rewrite negb_true_iff, !orb_false_iff, bool_decide_eq_false, Z.leb_gt, negb_false_iff.
    destruct (path_Match _ _) as [[]|]; simpl; naive_solver. }
  setoid_rewrite Hv. split.
  - intros (k & ev & ? & ? & ? & ? & ?). by exists (ev_ID ev), k, ev.
  - intros (id & k & ev & ? & (? & ? & ?) & ? & _). by exists k, ev.
Qed.

Lemma approval_usable_iff e role hash now id st :
  approval_usable e role hash now id st = true ↔
  as_used st = false ∧ id ∉ e_revoked e ∧ ap_Role (as_Approval st) = role ∧
  ap_ActionHash (as_Approval st) = hash ∧ (Unix now < ap_ExpiresAt (as_Approval st))%Z.
Proof.
  unfold approval_usable.
  rewrite negb_true_iff, !orb_false_iff, !bool_decide_eq_false, Z.leb_gt.
  split; [|naive_solver]. intros ((((? & ?) & ?) & ?) & ?).
  repeat split; try done; by apply dec_stable.
Qed.

Lemma approval_met_usable e ord a now role : range_order (e_approvals e) ord →
  approval_met e now a role ↔ ∃ id, usable e ord role (action_hash a) now id.
Proof.
  intros Ho. unfold approval_met, usable.
  setoid_rewrite (range_order_elem _ _ _ _ Ho). by setoid_rewrite approval_usable_iff.
Qed.

Lemma range_order_fst {V} (m : gmap string V) ord k :
  range_order m ord → m !! k = None → k ∉ ord.*1.
Proof.
  intros Ho Hk ([k' v] & -> & Hin)%list_elem_of_fmap.
  rewrite (range_order_elem _ _ _ _ Ho) in Hin. simpl in Hk. by rewrite Hk in Hin.
Qed.

(** ** The branches of [evaluateLocked] *)

Definition matching (e : Engine) (now : Z) (a : Action) : list Rule :=
  filter (λ r, rule_matches path_Match r a = true)
    (filter (λ r, active r now = true) (vault_List (cfg_Vault (e_cfg e)))).

Lemma matching_elem e now a r : vault_wf path_Match (cfg_Vault (e_cfg e)) →
  r ∈ matching e now a ↔ applicable e now a r.
Proof.
  intros Hwf. unfold matching, applicable.
  rewrite !list_elem_of_filter, (vault_List_elem path_Match) by done. tauto.
Qed.

Lemma no_denies_grants e now a :
  filter (λ r, r_Mode r = Deny) (matching e now a) = [] →
  filter (λ r, r_Mode r ≠ Deny) (matching e now a) = matching e now a.
Proof.
  intros Hd. apply filter_all, Forall_forall. intros r Hr Hm.
  by apply (filter_nil_not_elem_of _ _ r Hd).
Qed.

(** Outside the policy the answer is BLOCK and nothing is spent; inside, it is
    that of [evaluate_grants]. *)
Lemma evaluate_cases e ev_ord ap_ord now a : vault_wf path_Match (cfg_Vault (e_cfg e)) →
  let d := evaluateLocked e ev_ord ap_ord now a in
  (¬ in_policy e now a ∧ d_Verdict d = Block ∧ d_approvalIDs d = []) ∨
  (in_policy e now a ∧
   ∃ digest ver, d = evaluate_grants e ev_ord ap_ord now a digest ver (matching e now a)).
Proof.
  intros Hwf. unfold Intent.evaluateLocked, vault_snapshot. fold (matching e now a).
  case_decide as Ht. { left. split; [|done]. by intros (? & _). }
  destruct (complete a) eqn:Hc; simpl; [|left; split; [|done]; intros (_ & ? & _); congruence].
  destruct (filter (λ r, r_Mode r = Deny) (matching e now a)) as [|d0 ds] eqn:Hd.
  - rewrite no_denies_grants by done.
    destruct (matching e now a) as [|r rs] eqn:Hm.
    + left. split; [|done]. intros (_ & _ & [r Hr] & _).
      rewrite <- matching_elem, Hm in Hr by done. set_solver.
    + right. split; [|by eexists _, _]. split; [destruct (decide (a_Tenant a = tenant_of e)); [done|contradiction]|]. split; [done|]. split.
      * exists r. rewrite <- matching_elem, Hm by done. set_solver.
      * intros r' Hr' Hmode. rewrite <- matching_elem in Hr' by done. rewrite <- Hm in Hd.
        by apply (filter_nil_not_elem_of _ _ r' Hd).
  - left. split; [|done]. intros (_ & _ & _ & Hn).
    assert (Hin : d0 ∈ d0 :: ds) by set_solver. rewrite <- Hd in Hin.
    apply list_elem_of_filter in Hin as [HK Hin]. rewrite matching_elem in Hin by done.
    by apply (Hn d0).
Qed.

Lemma matching_valid e now a : vault_wf path_Match (cfg_Vault (e_cfg e)) →
  grants_valid (matching e now a).
Proof.
  intros Hwf r q Hr Hq. rewrite matching_elem in Hr by done.
  destruct Hr as [Hr _]. apply Hwf in Hr as [_ Hr].
  apply validate_fields in Hr as (_ & _ & _ & _ & Hr).
  by eapply validateRequires_elem.
Qed.

Section order.
Context (e : Engine) (ev_ord : list (string * Evidence))
  (ap_ord : list (string * approvalState)).
Context (Hwf : vault_wf path_Match (cfg_Vault (e_cfg e)))
  (Hne : e_approvals e !! "" = None)
  (Hev : range_order (e_evidence e) ev_ord) (Hap : range_order (e_approvals e) ap_ord).

Lemma evidence_all_iff now a :
  missingEvidence (sorted_keys (gather (matching e now a))) (gather (matching e now a))
    (facts path_Match e ev_ord a now).1 = [] ↔ evidence_all e now a.
Proof.
  rewrite no_missing_evidence by by apply gather_ok, matching_valid.
  setoid_rewrite gather_asks_state; [|by apply matching_valid].
  setoid_rewrite <- evidence_met_attested; [|done].
  setoid_rewrite matching_elem; [|done]. split.
  - intros H r q Hr Hq HK. apply H. by exists r, q.
  - intros H s (r & q & Hr & Hq & HK & <-). by apply (H r).
Qed.

Lemma approval_all_iff now a :
  approval_missing e ap_ord (action_hash a) now
    (omap (approval_of (gather (matching e now a))) (sorted_keys (gather (matching e now a))))
    = [] ↔ approval_all e now a.
Proof.
  rewrite no_missing_approval by exact (range_order_fst _ _ _ Hap Hne).
  setoid_rewrite gather_asks_role; [|by apply matching_valid].
  setoid_rewrite <- approval_met_usable; [|done].
  setoid_rewrite matching_elem; [|done]. split.
  - intros H r q Hr Hq HK. apply H. by exists r, q.
  - intros H s (r & q & Hr & Hq & HK & <-). by apply (H r).
Qed.

(** The three verdicts of the granted branch. *)
Lemma evaluate_grants_verdict now a digest ver :
  let d := evaluate_grants e ev_ord ap_ord now a digest ver (matching e now a) in
  (d_Verdict d = Block ∧ ¬ evidence_all e now a) ∨
  (d_Verdict d = RequireApproval ∧ evidence_all e now a ∧ ¬ approval_all e now a) ∨
  (d_Verdict d = Allow ∧ evidence_all e now a ∧ approval_all e now a).
Proof.
  unfold Intent.evaluate_grants. pose proof (evidence_all_iff now a) as He.
  pose proof (approval_all_iff now a) as Ha.
  destruct (facts path_Match e ev_ord a now) as [holds evBy]. simpl in He.
  rewrite approval_fold.
  set (mv := missingEvidence _ _ _) in *. set (ma := approval_missing _ _ _ _ _) in *.
  destruct mv as [|m mv].
  - rewrite decide_False by (simpl; lia). assert (evidence_all e now a) by by apply He.
    destruct ma as [|m ma].
    + rewrite decide_False by (simpl; lia). right; right. split; [done|]. naive_solver.
    + rewrite decide_True by (simpl; lia). right; left. split; [done|].
      split; [done|]. by intros ?%Ha.
  - rewrite decide_True by (simpl; lia). left. split; [done|]. by intros ?%He.
Qed.
End order.

(** ** Independence of the range orders *)

Lemma facts_perm e ord ord' a now : ord ≡ₚ ord' →
  facts path_Match e ord a now = facts path_Match e ord' a now.
Proof.
  intros Hp.
  assert (Hx : ∀ s id, attested path_Match e ord a now s id ↔ attested path_Match e ord' a now s id).
  { intros s id. unfold attested. by setoid_rewrite Hp. }
  apply injective_projections.
  - apply set_eq. intros s. rewrite !facts_holds. by setoid_rewrite Hx.
  - apply map_eq. intros s.
    pose proof (facts_spec path_Match e ord a now s) as H1.
    pose proof (facts_spec path_Match e ord' a now s) as H2.
    destruct (_ !! s) as [x|], (_ !! s) as [y|]; [..|done].
    + f_equal. eapply least_unique; [|apply H2]. eapply least_ext; [|apply H1]. done.
    + exfalso. destruct H1 as [_ [H1 _]], H2 as [_ H2]. by apply Hx, H2 in H1.
    + exfalso. destruct H2 as [_ [H2 _]], H1 as [_ H1]. by apply Hx, H1 in H2.
Qed.

Lemma findApproval_perm e ord ord' role hash now : ord ≡ₚ ord' → "" ∉ ord.*1 →
  findApproval e ord role hash now = findApproval e ord' role hash now.
Proof.
  intros Hp Hn. assert (Hn' : "" ∉ ord'.*1) by by rewrite <- Hp.
  assert (Hx : ∀ id, usable e ord role hash now id ↔ usable e ord' role hash now id).
  { intros id. unfold usable. by setoid_rewrite Hp. }
  destruct (findApproval_spec e ord role hash now Hn) as [[-> H1]|[_ H1]],
    (findApproval_spec e ord' role hash now Hn') as [[-> H2]|[_ H2]]; [done|..].
  - exfalso. destruct H2 as [H2 _]. by apply Hx, H1 in H2.
  - exfalso. destruct H1 as [H1 _]. by apply Hx, H2 in H1.
  - eapply least_unique; [|done]. by eapply least_ext.
Qed.

Lemma approval_fold_perm e ord ord' hash now reqs keys : ord ≡ₚ ord' → "" ∉ ord.*1 →
  foldl (approval_step e ord hash now reqs) ([], []) keys =
  foldl (approval_step e ord' hash now reqs) ([], []) keys.
Proof.
  intros Hp Hn. generalize (([], []) : list string * list Missing).
  induction keys as [|k keys IH]; intros acc; simpl; [done|]. rewrite <- IH. f_equal.
  unfold approval_step. destruct (reqs !! k) as [q|]; [|done].
  by rewrite (findApproval_perm e ord ord').
Qed.

Lemma evaluate_grants_perm e ev_ord ev_ord' ap_ord ap_ord' now a dg ver grants :
  ev_ord ≡ₚ ev_ord' → ap_ord ≡ₚ ap_ord' → "" ∉ ap_ord.*1 →
  evaluate_grants e ev_ord ap_ord now a dg ver grants =
  evaluate_grants e ev_ord' ap_ord' now a dg ver grants.
Proof.
  intros Hpe Hpa Hn. unfold Intent.evaluate_grants.
  rewrite (facts_perm e ev_ord ev_ord') by done. destruct (facts _ _ _ _ _) as [holds evBy].
  by rewrite (approval_fold_perm e ap_ord ap_ord').
Qed.

(** ** The approvals a decision relies on *)

Lemma approval_roles_NoDup reqs : reqs_ok reqs →
  NoDup (map m_Role (omap (approval_of reqs) (sorted_keys reqs))).
Proof.
  intros Hok. pose proof (sorted_keys_NoDup reqs) as Hn.
  induction Hn as [|k ks Hk Hn IH]; simpl; [constructor|].
  destruct (approval_of reqs k) as [q|] eqn:E; [|done]. simpl. constructor; [|done].
  intros (q' & Hs & (k' & Hk' & E')%list_elem_of_omap)%list_elem_of_fmap.
  unfold approval_of in E, E'.
  destruct (reqs !! k) as [x|] eqn:Ex; [|done]. destruct (reqs !! k') as [y|] eqn:Ey; [|done].
  case_decide as H1; [|done]. case_decide as H2; [|done]. simplify_eq.
  apply (ro_key _ Hok) in Ex as [[HK _]|[_ ->]]; [unfold NeedEvidence, NeedApproval in *; congruence|].
  apply (ro_key _ Hok) in Ey as [[HK _]|[_ ->]]; [unfold NeedEvidence, NeedApproval in *; congruence|].
  apply Hk. by rewrite Hs.
Qed.

(** An approval has one role, so different roles are met by different approvals. *)
Lemma approval_ids_NoDup e ord hash now qs : NoDup ord.*1 →
  NoDup (map m_Role qs) → NoDup (approval_ids e ord hash now qs).
Proof.
  intros Hd. unfold approval_ids.
  induction qs as [|q qs IH]; simpl; [constructor|]. intros [Hq Hqs]%NoDup_cons.
  rewrite filter_cons. case_decide as Hid; [|by apply IH]. constructor; [|by apply IH].
  intros [_ (q' & He & Hq')%list_elem_of_fmap]%list_elem_of_filter.
  destruct (findApproval_usable e ord (m_Role q) hash now) as (st & Hin & Hu); [done|].
  destruct (findApproval_usable e ord (m_Role q') hash now) as (st' & Hin' & Hu'); [congruence|].
  rewrite He in Hin. assert (st = st') as <- by by eapply NoDup_fst_unique.
  rewrite approval_usable_iff in Hu, Hu'. destruct Hu as (_ & _ & Hu & _), Hu' as (_ & _ & Hu' & _).
  apply Hq, list_elem_of_fmap. exists q'. split; [congruence|done].
Qed.

Definition relied_on (e : Engine) (now : Z) (a : Action) (id : string) : Prop :=
  ∃ st, e_approvals e !! id = Some st ∧ as_used st = false ∧ id ∉ e_revoked e ∧
    ap_ActionHash (as_Approval st) = action_hash a ∧
    (Unix now < ap_ExpiresAt (as_Approval st))%Z.

Lemma approval_ids_relied e ap_ord now a qs id : range_order (e_approvals e) ap_ord →
  id ∈ approval_ids e ap_ord (action_hash a) now qs → relied_on e now a id.
Proof.
  intros Ho [Hid (q & -> & Hq)%list_elem_of_fmap]%list_elem_of_filter.
  apply findApproval_usable in Hid as (st & Hin & Hu).
  rewrite (range_order_elem _ _ _ _ Ho) in Hin.
  apply approval_usable_iff in Hu as (? & ? & ? & ? & ?). by exists st.
Qed.

Lemma decision_approvals e ev_ord ap_ord now a :
  vault_wf path_Match (cfg_Vault (e_cfg e)) → range_order (e_approvals e) ap_ord →
  NoDup (d_approvalIDs (evaluateLocked e ev_ord ap_ord now a)) ∧
  ∀ id, id ∈ d_approvalIDs (evaluateLocked e ev_ord ap_ord now a) → relied_on e now a id.
Proof.
  intros Hwf Ho.
  destruct (evaluate_cases e ev_ord ap_ord now a Hwf) as [(_ & _ & ->)|(_ & dg & ver & ->)].
  { split; [constructor|]. set_solver. }
  unfold Intent.evaluate_grants. destruct (facts path_Match e ev_ord a now) as [hs ev_by].
  rewrite approval_fold.
  repeat case_decide; simpl; [split; [constructor|set_solver]..|]. split.
  - apply approval_ids_NoDup; [by eapply range_order_nodup|].
    by apply approval_roles_NoDup, gather_ok, matching_valid.
  - intros id. by apply approval_ids_relied.
Qed.

Lemma spend_spec ids aps : (∀ id, id ∈ ids → is_Some (aps !! id)) →
  (spend ids aps).1 = true ∧
  ∀ id, (spend ids aps).2 !! id =
    if decide (id ∈ ids) then (λ st, mkApprovalState (as_Approval st) true) <$> aps !! id
    else aps !! id.
Proof.
  revert aps. induction ids as [|x ids IH]; intros aps Hs; cbn [spend].
  { split; [done|]. intros id. by rewrite decide_False by apply not_elem_of_nil. }
  destruct (Hs x) as [st Hst]; [set_solver|]. rewrite Hst.
  destruct (IH (<[x:=mkApprovalState (as_Approval st) true]> aps)) as [H1 H2].
  { intros id Hid. rewrite lookup_insert_is_Some'. right. apply Hs. set_solver. }
  split; [done|]. intros id. rewrite H2.
  destruct (decide (id = x)) as [->|Hne].
  - rewrite lookup_insert_eq, Hst, (decide_True (P := x ∈ x :: ids)) by set_solver.
    by case_decide.
  - rewrite lookup_insert_ne by done.
    destruct (decide (id ∈ ids)); [rewrite decide_True by set_solver|
      rewrite decide_False by set_solver]; done.
Qed.

(** ** Theorems on the verdict *)

(** C34: While no approval with an empty ID is stored, and the vault is well-formed,
    the verdict is exactly the owner's policy: ALLOW means that the action
    is of this tenant and complete, that an active rule covers it and none of
    them denies it, and that every requirement of every covering rule is met by
    unexpired, unrevoked evidence about the resource or by an unused, unexpired,
    unrevoked approval of this very action; REQUIRE_APPROVAL means that only
    approvals are missing; everything else is BLOCK. *)
Theorem Evaluate_exact e ev_ord ap_ord now a :
  vault_wf path_Match (cfg_Vault (e_cfg e)) → e_approvals e !! "" = None →
  range_order (e_evidence e) ev_ord → range_order (e_approvals e) ap_ord →
  let v := d_Verdict (evaluateLocked e ev_ord ap_ord now a) in
  (v = Allow ↔ in_policy e now a ∧ evidence_all e now a ∧ approval_all e now a) ∧
  (v = RequireApproval ↔ in_policy e now a ∧ evidence_all e now a ∧ ¬ approval_all e now a).
Proof.
  intros Hwf Hne Hev Hap. simpl.
  destruct (evaluate_cases e ev_ord ap_ord now a Hwf) as [(Hn & -> & _)|(Hp & dg & ver & ->)].
  { split; (split; [discriminate|]); by intros (? & _). }
  destruct (evaluate_grants_verdict e ev_ord ap_ord Hwf Hne Hev Hap now a dg ver)
    as [(-> & ?)|[(-> & ? & ?)|(-> & ? & ?)]];
    split; split; try discriminate; tauto.
Qed.

(** The whole decision (verdict, reasons, missing list, applied rules and
    the evidence and approvals relied on) is the same for every order in which
    the maps of evidence and approvals are ranged over. *)
Theorem Evaluate_deterministic e ev_ord ev_ord' ap_ord ap_ord' now a :
  e_approvals e !! "" = None →
  range_order (e_evidence e) ev_ord → range_order (e_evidence e) ev_ord' →
  range_order (e_approvals e) ap_ord → range_order (e_approvals e) ap_ord' →
  evaluateLocked e ev_ord ap_ord now a = evaluateLocked e ev_ord' ap_ord' now a.
Proof.
  intros Hne He He' Ha Ha'.
  assert (Hpe : ev_ord ≡ₚ ev_ord') by (unfold range_order in *; by rewrite He, He').
  assert (Hpa : ap_ord ≡ₚ ap_ord') by (unfold range_order in *; by rewrite Ha, Ha').
  unfold Intent.evaluateLocked, vault_snapshot.
  repeat (case_match; [done|]); repeat case_match; try done.
  all: apply evaluate_grants_perm; [done|done|exact (range_order_fst _ _ _ Ha Hne)].
Qed.

(** ** Histories of the engine *)

Context (KeyID : string → string).
Context (ed_Verify : string → payload → string → bool).
Context (ed_Sign : string → payload → string).
Context (public_half : string → string).
Abbreviation Authorize := (Authorize path_Match policy_digest action_hash KeyID ed_Sign public_half).
Abbreviation Ingest := (Ingest KeyID ed_Verify).

(** One call on the engine, or one change of its vault, and the receipt it
    returns, if any.  The calls are atomic because each holds the mutex. *)
Inductive engine_step : Engine → option Receipt → Engine → Prop :=
| step_ingest e env : engine_step e None (Ingest env e).2
| step_authorize e ev_ord ap_ord now1 now2 now3 rnd a d r en e' :
    range_order (e_evidence e) ev_ord → range_order (e_approvals e) ap_ord →
    Authorize ev_ord ap_ord now1 now2 now3 rnd a e = (d, r, en, e') →
    engine_step e r e'
| step_vault e op :
    engine_step e None (with_vault e (apply_vault path_Match (cfg_Vault (e_cfg e)) op)).

Inductive engine_run : Engine → list Receipt → Engine → Prop :=
| run_done e : engine_run e [] e
| run_step e r e' rs e'' :
    engine_step e r e' → engine_run e' rs e'' → engine_run e (option_list r ++ rs) e''.

Definition used_in (e : Engine) (id : string) : Prop :=
  ∃ st, e_approvals e !! id = Some st ∧ as_used st = true.

Lemma Ingest_mono e env : let e' := (Ingest env e).2 in
  e_cfg e' = e_cfg e ∧ (∀ id, used_in e id → used_in e' id).
Proof.
  assert (Hrv : ∀ rv, let e' := (revokeLocked KeyID ed_Verify rv e).2 in
    e_cfg e' = e_cfg e ∧ e_approvals e' = e_approvals e)
    by (intros rv; unfold revokeLocked; repeat case_match; done).
  simpl. unfold Intent.Ingest.
  repeat (first [case_decide|match goal with
    |- context [match ?x with _ => _ end] => destruct x eqn:? end]; simpl; try done).
  - split; [done|]. intros id (st & Hst & Hu).
    unfold used_in. simpl. rewrite lookup_insert_ne; [by exists st|].
    intros <-. match goal with H : (match _ with _ => _ end) = false |- _ => rewrite Hst in H end.
    congruence.
  - destruct (Hrv r) as [Hr1 Hr2]. split; [done|]. intros id. unfold used_in. by rewrite Hr2.
Qed.

(** What a successful [Authorize] writes: the approvals it relied on are used. *)
Lemma Authorize_cases e ev_ord ap_ord now1 now2 now3 rnd a :
  vault_wf path_Match (cfg_Vault (e_cfg e)) → range_order (e_approvals e) ap_ord →
  let d := evaluateLocked e ev_ord ap_ord now1 a in
  let '(d', r, en, e') := Authorize ev_ord ap_ord now1 now2 now3 rnd a e in
  (r = None ∧ e' = e ∧ d_Verdict d' ≠ Allow ∧ (d' = d ∨ rnd = None)) ∨
  (∃ id nonce, rnd = Some (id, nonce) ∧ d_Verdict d = Allow ∧ d' = d ∧
     r = Some (newReceipt KeyID ed_Sign public_half e id nonce a d now2) ∧
     e_cfg e' = e_cfg e ∧ e_evidence e' = e_evidence e ∧ e_revoked e' = e_revoked e ∧
     (∀ id, e_approvals e' !! id =
       if decide (id ∈ d_approvalIDs d)
       then (λ st, mkApprovalState (as_Approval st) true) <$> e_approvals e !! id
       else e_approvals e !! id)).
Proof.
  intros Hwf Ho. simpl. unfold Intent.Authorize.
  destruct (decision_approvals e ev_ord ap_ord now1 a Hwf Ho) as [_ Hrel].
  set (d := evaluateLocked e ev_ord ap_ord now1 a) in *.
  case_decide as Hv; [|by left; auto].
  destruct rnd as [[id nonce]|]; [|left; repeat split; simpl; auto].
  assert (Hs : ∀ id, id ∈ d_approvalIDs d → is_Some (e_approvals e !! id))
    by (intros x (st & ? & _)%Hrel; by exists st).
  destruct (spend_spec _ _ Hs) as [H1 H2].
  destruct (spend (d_approvalIDs d) (e_approvals e)) as [fine aps]. simpl in H1. subst fine.
  right. exists id, nonce. by repeat split.
Qed.

Lemma step_mono e r e' : engine_step e r e' → vault_wf path_Match (cfg_Vault (e_cfg e)) →
  vault_wf path_Match (cfg_Vault (e_cfg e')) ∧
  (∀ id, used_in e id → used_in e' id) ∧
  NoDup (from_option rc_ApprovalIDs [] r) ∧
  (∀ id, id ∈ from_option rc_ApprovalIDs [] r → ¬ used_in e id ∧ used_in e' id).
Proof.
  intros Hs Hwf. destruct Hs as [e env|e ev_ord ap_ord n1 n2 n3 rnd a d r en e' He Ha HA|e op].
  - destruct (Ingest_mono e env) as [Hc Hu]. rewrite Hc.
    split; [done|]. split; [done|]. split; [constructor|]. simpl. set_solver.
  - pose proof (Authorize_cases e ev_ord ap_ord n1 n2 n3 rnd a Hwf Ha) as Hcase. simpl in Hcase.
    rewrite HA in Hcase.
    destruct Hcase as [(-> & -> & _)|(id & nonce & -> & Hv & -> & -> & Hc & _ & _ & Hl)].
    { split; [done|]. split; [done|]. split; [constructor|]. simpl. set_solver. }
    rewrite Hc. split; [done|].
    destruct (decision_approvals e ev_ord ap_ord n1 a Hwf Ha) as [Hn Hrel].
    set (d := evaluateLocked e ev_ord ap_ord n1 a) in *. unfold used_in. simpl.
    split; [|split; [done|]].
    + intros x (st & Hst & Hu). rewrite Hl. case_decide as Hx; rewrite Hst; simpl; eauto.
    + intros x Hx. destruct (Hrel x Hx) as (st & Hst & Hu & _). split.
      * intros (st' & Hst' & Hu'). congruence.
      * rewrite Hl, decide_True, Hst by done. simpl. eauto.
  - split; [apply vault_wf_op, Hwf|]. split; [done|]. split; [constructor|]. simpl. set_solver.
Qed.

Lemma run_approvals e rs e' : engine_run e rs e' → vault_wf path_Match (cfg_Vault (e_cfg e)) →
  NoDup (concat (map rc_ApprovalIDs rs)) ∧ (∀ id, used_in e id → used_in e' id) ∧
  ∀ id, id ∈ concat (map rc_ApprovalIDs rs) → ¬ used_in e id ∧ used_in e' id.
Proof.
  induction 1 as [e|e r e' rs e'' Hs Hr IH]; intros Hwf.
  { split; [constructor|]. split; [done|]. simpl. set_solver. }
  destruct (step_mono e r e' Hs Hwf) as (Hwf' & Hm & Hn & Hids).
  destruct (IH Hwf') as (IHn & IHm & IHids).
  rewrite map_app, concat_app.
  assert (Hc : concat (map rc_ApprovalIDs (option_list r)) = from_option rc_ApprovalIDs [] r)
    by (destruct r; simpl; by rewrite ?app_nil_r).
  rewrite Hc. split; [|split].
  - apply NoDup_app. split; [done|]. split; [|done].
    intros x Hx Hx'. apply Hids in Hx as [_ Hx]. by apply IHids in Hx' as [Hx' _].
  - auto.
  - intros x [Hx|Hx]%elem_of_app.
    + apply Hids in Hx as [? ?]. auto.
    + apply IHids in Hx as [Hx ?]. split; [|done]. intros ?. by apply Hx, Hm.
Qed.

Lemma evaluate_hash e ev_ord ap_ord now a :
  d_ActionHash (evaluateLocked e ev_ord ap_ord now a) = action_hash a.
Proof.
  unfold Intent.evaluateLocked, vault_snapshot, Intent.evaluate_grants.
  repeat case_match; done.
Qed.

(** ** Theorems on authorization *)

Abbreviation receipt_Verify := (receipt_Verify action_hash ed_Verify).

(** [Authorize] fails closed and writes only what it must: either it returns
    no receipt, its verdict is not ALLOW and the engine is unchanged, or the
    random source worked, the evaluation allowed the action, the receipt is the
    one for that decision, and exactly the approvals the decision relied on
    become used; the panic of a missing approval never happens. *)
Theorem Authorize_effect e ev_ord ap_ord now1 now2 now3 rnd a :
  vault_wf path_Match (cfg_Vault (e_cfg e)) → range_order (e_approvals e) ap_ord →
  let d := evaluateLocked e ev_ord ap_ord now1 a in
  let '(d', r, en, e') := Authorize ev_ord ap_ord now1 now2 now3 rnd a e in
  (r = None ∧ e' = e ∧ d_Verdict d' ≠ Allow ∧ (d' = d ∨ rnd = None)) ∨
  (∃ id nonce, rnd = Some (id, nonce) ∧ d_Verdict d = Allow ∧ d' = d ∧
     r = Some (newReceipt KeyID ed_Sign public_half e id nonce a d now2) ∧
     e_cfg e' = e_cfg e ∧ e_evidence e' = e_evidence e ∧ e_revoked e' = e_revoked e ∧
     (∀ id, id ∈ d_approvalIDs d → relied_on e now1 a id) ∧
     (∀ id, e_approvals e' !! id =
       if decide (id ∈ d_approvalIDs d)
       then (λ st, mkApprovalState (as_Approval st) true) <$> e_approvals e !! id
       else e_approvals e !! id)).
Proof.
  intros Hwf Ho. pose proof (Authorize_cases e ev_ord ap_ord now1 now2 now3 rnd a Hwf Ho) as Hc.
  pose proof (decision_approvals e ev_ord ap_ord now1 a Hwf Ho) as [_ Hrel].
  simpl in *. destruct (Authorize _ _ _ _ _ _ _ _) as [[[d' r] en] e'].
  destruct Hc as [Hc|(id & nonce & Hc)]; [by left|right]. exists id, nonce. tauto.
Qed.

(** C35: An approval is used up by the first ALLOW it supports: over any sequence
    of ingests, authorizations and changes of the vault, with any clock and any
    range orders, no approval id occurs twice in the receipts issued, within one
    receipt or across receipts, and none that was used before occurs at all. *)
Theorem approval_single_use e rs e' :
  vault_wf path_Match (cfg_Vault (e_cfg e)) → engine_run e rs e' →
  NoDup (concat (map rc_ApprovalIDs rs)) ∧
  ∀ id, id ∈ concat (map rc_ApprovalIDs rs) → ¬ used_in e id ∧ used_in e' id.
Proof.
  intros Hwf Hr. destruct (run_approvals e rs e' Hr Hwf) as (? & _ & ?). by split.
Qed.

(** A receipt that [Authorize] issues verifies under the engine's receipt key
    for exactly the actions with the tenant and hash of the one authorized, from
    five seconds before it was issued until it expires. *)
Theorem receipt_covers e ev_ord ap_ord now1 now2 now3 rnd a d r en e' :
  (∀ k p, String.length (ed_Sign k p) = SignatureSize) →
  (∀ k p, ed_Verify (public_half k) p (ed_Sign k p) = true) →
  vault_wf path_Match (cfg_Vault (e_cfg e)) → range_order (e_approvals e) ap_ord →
  Authorize ev_ord ap_ord now1 now2 now3 rnd a e = (d, Some r, en, e') →
  ∀ a' now, receipt_Verify (Some r) (ReceiptKey public_half e) a' now = None ↔
    a_Tenant a' = a_Tenant a ∧ action_hash a' = action_hash a ∧
    (Unix now2 - 5 ≤ Unix now < Unix (now2 + cfg_ReceiptTTL (e_cfg e)))%Z.
Proof.
  intros Hlen Hver Hwf Ho HA a' now.
  pose proof (Authorize_cases e ev_ord ap_ord now1 now2 now3 rnd a Hwf Ho) as Hc. simpl in Hc.
  rewrite HA in Hc. destruct Hc as [(? & _)|(id & nonce & _ & _ & -> & Hr & _)]; [done|].
  injection Hr as ->.
  unfold Intent.receipt_Verify, VerifySignature, newReceipt, set_Sig, ReceiptKey. simpl.
  rewrite Hlen, Hver, evaluate_hash. simpl.
  simpl. repeat case_decide; split; try done; intros; try lia.
  - exfalso. match goal with H : _ ∨ _ |- _ => destruct H as [H|H] end; apply H; symmetry; tauto.
  - split; [|split]; [apply dec_stable; intros Hx..|lia]; naive_solver congruence.
Qed.

End engine.

(** ** The guard *)

Section guard.
Context (action_hash : Action → string).
Context (ed_Verify : string → payload → string → bool).

Abbreviation receipt_Verify := (receipt_Verify action_hash ed_Verify).

Lemma receipt_Verify_window r pub a now : receipt_Verify (Some r) pub a now = None →
  rc_Verdict r = Allow ∧ rc_Tenant r = a_Tenant a ∧ rc_ActionHash r = action_hash a ∧
  (rc_IssuedAt r - 5 ≤ Unix now < rc_ExpiresAt r)%Z.
Proof.
  unfold Intent.receipt_Verify. destruct (VerifySignature _ _ _); [done|].
  repeat case_decide; try done. intros _.
  repeat split; try lia; apply dec_stable; tauto.
Qed.

(** A call of [Guard.Run], seen at its locked section. *)
Record guard_call := mkCall { gc_action : Action; gc_receipt : Receipt; gc_now : Z }.

(** The calls in the order in which they take the lock, each past its check. *)
Definition verified (pub : string) (c : guard_call) : Prop :=
  receipt_Verify (Some (gc_receipt c)) pub (gc_action c) (gc_now c) = None.

Fixpoint guard_calls (cs : list guard_call) (seen : gmap string Z) : list Receipt :=
  match cs with
  | [] => []
  | c :: rest =>
      let '(run, seen) := guard_enter (gc_receipt c) (gc_now c) seen in
      (if run then [gc_receipt c] else []) ++ guard_calls rest seen
  end.

(** While a spent nonce is kept, or once its receipt has expired, the receipt
    does not run. *)
Definition spent (r : Receipt) (now : Z) (seen : gmap string Z) : Prop :=
  seen !! rc_Nonce r = Some (rc_ExpiresAt r) ∨ (rc_ExpiresAt r ≤ Unix now)%Z.

Lemma prune_lookup now seen n :
  prune now seen !! n =
  match seen !! n with
  | Some exp => if decide (exp ≤ Unix now)%Z then None else Some exp
  | None => None
  end.
Proof.
  unfold prune. destruct (seen !! n) as [x|] eqn:E.
  - case_decide.
    + apply map_lookup_filter_None. right. intros y Hy. simplify_eq. tauto.
    + by apply map_lookup_filter_Some.
  - apply map_lookup_filter_None. by left.
Qed.

Lemma spent_step pub r c seen :
  spent r (gc_now c) seen → verified pub c →
  let '(run, seen') := guard_enter (gc_receipt c) (gc_now c) seen in
  (run = true → gc_receipt c ≠ r) ∧ spent r (gc_now c) seen'.
Proof.
  intros Hs Hv. apply receipt_Verify_window in Hv as (_ & _ & _ & Hw).
  unfold guard_enter.
  destruct (decide (rc_ExpiresAt r ≤ Unix (gc_now c))%Z) as [Hx|Hx].
  { destruct (prune _ _ !! _).
    - split; [done|]. by right.
    - split; [|by right]. intros _ <-. lia. }
  assert (Hl : prune (gc_now c) seen !! rc_Nonce r = Some (rc_ExpiresAt r)).
  { rewrite prune_lookup. destruct Hs as [->|]; [by rewrite decide_False|done]. }
  destruct (prune (gc_now c) seen !! rc_Nonce (gc_receipt c)) eqn:E.
  - split; [done|]. by left.
  - split; [intros _ <-; congruence|]. left. rewrite lookup_insert_ne; [done|]. congruence.
Qed.

Definition clock_le (c1 c2 : guard_call) : Prop := (gc_now c1 ≤ gc_now c2)%Z.

Lemma spent_later r n n' seen : (n ≤ n')%Z → spent r n seen → spent r n' seen.
Proof.
  intros Hn [?|?]; [by left|right]. unfold Unix in *.
  pose proof (Z.div_le_mono n n' 1000000000 ltac:(lia) Hn). lia.
Qed.

Lemma guard_calls_spent pub r cs : Forall (verified pub) cs → ∀ n seen,
  spent r n seen → StronglySorted clock_le cs → Forall (λ c, (n ≤ gc_now c)%Z) cs →
  r ∉ guard_calls cs seen.
Proof.
  induction 1 as [|c cs Hc Hcs IH]; intros n seen Hs Hst Hn; cbn [guard_calls]; [set_solver|].
  inversion Hst as [|? ? Hst' Hle]; subst. apply Forall_cons in Hn as [Hn _].
  pose proof (spent_step pub r c seen (spent_later _ _ _ _ Hn Hs) Hc) as Hp.
  destruct (guard_enter _ _ _) as [run seen']. destruct Hp as [Hrun Hs'].
  rewrite elem_of_app. intros [Hr|Hr]; [|by eapply (IH (gc_now c))].
  destruct run; [|set_solver]. apply list_elem_of_singleton in Hr. by apply Hrun.
Qed.

(** While the clock readings of the calls do not go back in the order in
    which they take the guard's lock, a receipt runs its action at most once:
    the nonce is pruned only when the receipt can no longer verify. *)
Theorem guard_runs_once pub cs seen :
  Forall (verified pub) cs → StronglySorted clock_le cs → NoDup (guard_calls cs seen).
Proof.
  intros Hv. revert seen. induction Hv as [|c cs Hc Hcs IH]; intros seen Hst; cbn [guard_calls].
  { constructor. }
  inversion Hst as [|? ? Hst' Hle]; subst.
  destruct (guard_enter (gc_receipt c) (gc_now c) seen) as [run seen'] eqn:E.
  destruct run; [|by apply IH]. simpl. constructor; [|by apply IH].
  eapply guard_calls_spent; [done| |done|by eapply Forall_impl; [exact Hle|]].
  unfold guard_enter in E. destruct (prune _ _ !! _); [done|]. injection E as <-.
  left. by rewrite lookup_insert_eq.
Qed.
End guard.

(** ** Witnesses *)

Definition ex_action : Action := mkAction "acme" "bot" "db.drop" "orders" "prod" ∅.
Definition ex_hash (a : Action) : string := (a_Tool a +:+ "@" +:+ a_Resource a)%string.
Definition ex_digest (t : string) (vs : list publicView) : string := t.
(** A signature of the right size that every key accepts. *)
Definition ex_sig : string := String.concat "" (replicate 8 "12345678").
Definition ex_Sign (k : string) (p : payload) : string := ex_sig.
Definition ex_Verify (k : string) (p : payload) (s : string) : bool := bool_decide (s = ex_sig).
Definition ex_id (s : string) : string := s.

Definition ex_engine : Engine :=
  mkEngine
    (mkConfig ex_vault (mkTrust "" {["ci" := mkTrustedKey "ci" ["backup"]]}
                          {["ada" := mkTrustedKey "ada" ["owner"]]}) "key" (60 * Second) true)
    {["ev1" := mkEvidence "ev1" "acme" "backup" "*" "ci" 0 100 ex_sig]}
    {["ap1" := mkApprovalState
        (mkApproval "ap1" "acme" (ex_hash ex_action) "owner" "ada" 0 100 ex_sig) false]} ∅.

Definition ex_authorize (e : Engine) :=
  Authorize star_match ex_digest ex_hash ex_id ex_Sign ex_id
    (map_to_list (e_evidence e)) (map_to_list (e_approvals e)) (10 * Second) (10 * Second)
    (10 * Second) (Some ("01", "n1")) ex_action e.

Lemma ex_vault_wf : vault_wf star_match ex_vault.
Proof. apply vault_wf_ops, vault_wf_new. Qed.

Lemma Evaluate_exact_witness :
  in_policy star_match ex_engine (10 * Second) ex_action ∧
  evidence_all star_match ex_engine (10 * Second) ex_action ∧
  approval_all star_match ex_hash ex_engine (10 * Second) ex_action.
Proof.
  apply (Evaluate_exact star_match ex_digest ex_hash ex_engine
           (map_to_list (e_evidence ex_engine)) (map_to_list (e_approvals ex_engine))).
  - apply ex_vault_wf.
  - vm_compute. reflexivity.
  - apply range_order_refl.
  - apply range_order_refl.
  - vm_compute. reflexivity.
Defined.

(** Two approvals of the same action, met in either order. *)
Definition ex_two : list (string * approvalState) :=
  [("ap1", mkApprovalState (mkApproval "ap1" "acme" (ex_hash ex_action) "owner" "ada" 0 100 ex_sig) false);
   ("ap2", mkApprovalState (mkApproval "ap2" "acme" (ex_hash ex_action) "owner" "ada" 0 100 ex_sig) false)].
Definition ex_engine2 : Engine :=
  mkEngine (e_cfg ex_engine) (e_evidence ex_engine) (list_to_map ex_two) ∅.

Lemma ex_two_order : range_order (e_approvals ex_engine2) ex_two.
Proof.
  unfold range_order. symmetry. apply map_to_list_to_map.
  apply (bool_decide_unpack _). vm_compute. exact I.
Qed.

Lemma Evaluate_deterministic_witness :
  evaluateLocked star_match ex_digest ex_hash ex_engine2 (map_to_list (e_evidence ex_engine))
    ex_two (10 * Second) ex_action =
  evaluateLocked star_match ex_digest ex_hash ex_engine2 (map_to_list (e_evidence ex_engine))
    (reverse ex_two) (10 * Second) ex_action ∧
  d_approvalIDs (evaluateLocked star_match ex_digest ex_hash ex_engine2
    (map_to_list (e_evidence ex_engine)) ex_two (10 * Second) ex_action) = ["ap1"].
Proof.
  split; [|vm_compute; reflexivity].
  apply (Evaluate_deterministic star_match ex_digest ex_hash ex_engine2).
  - vm_compute. reflexivity.
  - apply range_order_refl.
  - apply range_order_refl.
  - apply ex_two_order.
  - unfold range_order. rewrite reverse_Permutation. apply ex_two_order.
Defined.

Lemma tuple4 {A B C D} (x : A * B * C * D) : x = (x.1.1.1, x.1.1.2, x.1.2, x.2).
Proof. by destruct x as [[[? ?] ?] ?]. Qed.

Lemma ex_step e :
  engine_step star_match ex_digest ex_hash ex_id ex_Verify ex_Sign ex_id
    e (ex_authorize e).1.1.2 (ex_authorize e).2.
Proof.
  exact (step_authorize _ _ _ _ _ _ _ e _ _ _ _ _ _ _ _ _ _ _
    (range_order_refl _) (range_order_refl _) (tuple4 (ex_authorize e))).
Qed.

Lemma ex_result e r : (ex_authorize e).1.1.2 = Some r →
  Authorize star_match ex_digest ex_hash ex_id ex_Sign ex_id
    (map_to_list (e_evidence e)) (map_to_list (e_approvals e)) (10 * Second) (10 * Second)
    (10 * Second) (Some ("01", "n1")) ex_action e =
  ((ex_authorize e).1.1.1, Some r, (ex_authorize e).1.2, (ex_authorize e).2).
Proof. intros <-. exact (tuple4 (ex_authorize e)). Qed.

Definition ex_once : Engine := (ex_authorize ex_engine).2.
Definition ex_receipts : list Receipt :=
  option_list (ex_authorize ex_engine).1.1.2 ++ option_list (ex_authorize ex_once).1.1.2 ++ [].

Lemma Authorize_effect_witness :
  d_Verdict (ex_authorize ex_engine).1.1.1 = Allow ∧
  let '(d', r, en, e') := ex_authorize ex_engine in
  d_Verdict d' = Allow → is_Some r ∧ e_evidence e' = e_evidence ex_engine.
Proof.
  split; [vm_compute; reflexivity|].
  pose proof (Authorize_effect star_match ex_digest ex_hash ex_id ex_Verify ex_Sign ex_id ex_engine
    (map_to_list (e_evidence ex_engine)) (map_to_list (e_approvals ex_engine))
    (10 * Second) (10 * Second) (10 * Second) (Some ("01", "n1")) ex_action
    ex_vault_wf (range_order_refl _)) as H.
  cbv zeta in H. unfold ex_authorize.
  destruct (Authorize _ _ _ _ _ _ _ _ _ _ _ _ _ _) as [[[d r] en] e'].
  intros Hd. destruct H as [(_ & _ & Hn & _)|(id & nonce & _ & _ & _ & Hr & _ & Hv & _)];
    [by destruct Hn|].
  split; [rewrite Hr; eexists; reflexivity|exact Hv].
Defined.

Lemma approval_single_use_witness :
  NoDup (concat (map rc_ApprovalIDs ex_receipts)) ∧
  map rc_ApprovalIDs ex_receipts = [["ap1"]].
Proof.
  split; [|vm_compute; reflexivity].
  refine (proj1 (approval_single_use star_match ex_digest ex_hash ex_id ex_Verify ex_Sign ex_id
    ex_engine ex_receipts (ex_authorize ex_once).2 ex_vault_wf _)).
  exact (run_step _ _ _ _ _ _ _ ex_engine _ ex_once _ _ (ex_step ex_engine)
    (run_step _ _ _ _ _ _ _ ex_once _ _ [] _ (ex_step ex_once) (run_done _ _ _ _ _ _ _ _))).
Defined.

Lemma receipt_covers_witness :
  ∃ r, (ex_authorize ex_engine).1.1.2 = Some r ∧
    receipt_Verify ex_hash ex_Verify (Some r) "key" ex_action (20 * Second) = None.
Proof.
  assert (Hr : is_Some (ex_authorize ex_engine).1.1.2)
    by (apply (bool_decide_unpack _); vm_compute; exact I).
  destruct Hr as [r Hr]. exists r. split; [exact Hr|].
  refine (proj2 (receipt_covers star_match ex_digest ex_hash ex_id ex_Verify ex_Sign ex_id ex_engine
    (map_to_list (e_evidence ex_engine)) (map_to_list (e_approvals ex_engine))
    (10 * Second) (10 * Second) (10 * Second) (Some ("01", "n1")) ex_action
    (ex_authorize ex_engine).1.1.1 r (ex_authorize ex_engine).1.2 (ex_authorize ex_engine).2
    (λ k p, eq_refl) (λ k p, eq_refl) ex_vault_wf (range_order_refl _) _ ex_action (20 * Second)) _).
  - exact (ex_result ex_engine r Hr).
  - split; [reflexivity|split; [reflexivity|vm_compute; split; congruence]].
Defined.

Definition ex_receipt (nonce : string) (exp : Z) : Receipt :=
  mkReceipt 1 "rc" "acme" Allow (ex_hash ex_action) "" 0 [] [] [] 0 exp nonce "" "" ex_sig.

Lemma guard_runs_once_witness :
  let cs := [mkCall ex_action (ex_receipt "a" 10) (8 * Second);
             mkCall ex_action (ex_receipt "a" 10) (9 * Second);
             mkCall ex_action (ex_receipt "b" 60) (10 * Second)] in
  NoDup (guard_calls cs ∅) ∧ length (guard_calls cs ∅) = 2.
Proof.
  split; [|vm_compute; reflexivity].
  apply (guard_runs_once ex_hash ex_Verify "key").
  - repeat constructor.
  - repeat constructor; vm_compute; discriminate.
Defined.

(** The hypothesis on the clock of [guard_runs_once] is needed.  [Run] reads the
    clock before it takes the lock, so a call that read it just before the expiry
    can take the lock after a call that read it after the expiry and pruned the
    nonce: the receipt runs twice, although every call verified it. *)
Example guard_replay_race :
  let r := ex_receipt "a" 10 in
  let cs := [mkCall ex_action r (8 * Second);
             mkCall ex_action (ex_receipt "b" 60) (10 * Second);
             mkCall ex_action r (9 * Second)] in
  Forall (verified ex_hash ex_Verify "key") cs ∧
  guard_calls cs ∅ = [r; ex_receipt "b" 60; r].
Proof. split; [repeat constructor|vm_compute; reflexivity]. Qed.

(** An approval with an empty id makes the result of [findApproval] depend on the
    range order: it is stored, and [best == ""] then takes it for no result. *)
Example findApproval_empty_id :
  let st id := mkApprovalState (mkApproval id "acme" "h" "owner" "ada" 0 100 ex_sig) false in
  findApproval ex_engine [(""%string, st ""); ("ap", st "ap")] "owner" "h" 0 = "ap" ∧
  findApproval ex_engine [("ap", st "ap"); (""%string, st "")] "owner" "h" 0 = "".
Proof. split; vm_compute; reflexivity. Qed.
