(* ===== verification/Contract.v ===== *)
(** * intent/contract.go and intent/suggest.go: scope locks and suggestions

    The texts that [fmt.Sprintf] builds are constructors of [lock_message] and a
    function that renders them; [strings.Fields], the signature check and the key
    ids are arguments, and so is the reader of the cited sources. *)

From S2P Require Import Prelude IntentTypes Intent.

Record Contract := mkContract {
  ct_ID : string;
  ct_Tenant : string;
  ct_Agent : string;
  ct_Task : string;
  ct_Tools : list string;
  ct_Resources : list string;
  ct_Env : string;
  ct_MaxActions : Z;
  ct_Issuer : string;
  ct_IssuedAt : Z;
  ct_ExpiresAt : Z;
  ct_Sig : string;
}.

Definition ct_set_Sig (c : Contract) (sig : string) : Contract :=
  mkContract (ct_ID c) (ct_Tenant c) (ct_Agent c) (ct_Task c) (ct_Tools c) (ct_Resources c)
    (ct_Env c) (ct_MaxActions c) (ct_Issuer c) (ct_IssuedAt c) (ct_ExpiresAt c) sig.

Definition CodeWrongAgent : string := "wrong_agent".
Definition CodeWrongTenant : string := "wrong_tenant".
Definition CodeExpired : string := "contract_expired".
Definition CodeToolOutOfScope : string := "tool_out_of_scope".
Definition CodeResourceOutOfScope : string := "resource_out_of_scope".
Definition CodeWrongEnv : string := "wrong_env".
Definition CodeBudget : string := "budget_exhausted".
Definition CodeNoEvidence : string := "no_evidence".
Definition CodeWeakQuote : string := "quote_too_short".
Definition CodeCitedOutOfScope : string := "cited_out_of_scope".
Definition CodeSourceMissing : string := "source_unreadable".
Definition CodeQuoteNotFound : string := "quote_not_found".

Definition minQuote : nat := 12.

Inductive lock_message :=
| MsgText (s : string)
| MsgTool (tool task : string)
| MsgResource (resource task : string)
| MsgBudget (max : Z)
| MsgWeakQuote (resource : string)
| MsgCited (resource : string)
| MsgUnreadable (resource : string)
| MsgNotFound (resource : string).

Record Attempt := mkAttempt {
  at_Seq : Z;
  at_At : Z;
  at_Tool : string;
  at_Resource : string;
  at_Verdict : Verdict;
  at_Code : string;
  at_Message : string;
}.

Record Citation := mkCitation { ci_Resource : string; ci_Quote : string }.
Record Claim := mkClaim { cl_Text : string; cl_Cites : list Citation }.

(** [MapSource]: reading what is not in the map is an error. *)
Definition MapSource_Read (m : gmap string string) (resource : string) : option string :=
  m !! resource.

Record ClaimResult := mkClaimResult {
  cr_Text : string;
  cr_Grounded : bool;
  cr_Code : string;
  cr_Message : string;
}.

Record ScopeLock := mkScopeLock {
  sl_c : Contract;
  sl_used : Z;
  sl_attempts : list Attempt;
  sl_claims : list ClaimResult;
}.

Record Report := mkReport {
  rp_Contract : string;
  rp_Agent : string;
  rp_Task : string;
  rp_Allowed : Z;
  rp_Blocked : Z;
  rp_Attempts : list Attempt;
  rp_Claims : list ClaimResult;
}.

Record SwarmSummary := mkSwarmSummary {
  sw_Agents : Z;
  sw_Allowed : Z;
  sw_Blocked : Z;
  sw_ClaimsGrounded : Z;
  sw_ClaimsRejected : Z;
  sw_Drifted : list string;
}.

Section scope_lock.
Context (path_Match : string → string → option bool).
Context (action_hash : Action → string).
Context (render : lock_message → string).
Context (Fields : string → list string).
Context (KeyID : string → string) (public_half : string → string).
Context (ct_ed_Sign : string → Contract → string).
Context (ct_ed_Verify : string → Contract → string → bool).

(** [newid] is what [newID] draws when the contract has no id. *)
Definition SignContract (priv : string) (c : Contract) (now ttl : Z) (newid : string)
    : Contract :=
  let c := mkContract (if decide (ct_ID c = "") then ("ct_" +:+ newid)%string else ct_ID c)
    (ct_Tenant c) (ct_Agent c) (ct_Task c) (ct_Tools c) (ct_Resources c) (ct_Env c)
    (ct_MaxActions c) (KeyID (public_half priv)) (Unix now) (Unix (now + ttl)) "" in
  ct_set_Sig c (ct_ed_Sign priv c).

Definition contract_verify (c : Contract) (pub : string) : bool :=
  bool_decide (String.length (ct_Sig c) = SignatureSize) &&
  ct_ed_Verify pub (ct_set_Sig c "") (ct_Sig c).

Definition NewScopeLock (c : Contract) (owner : string) : result intent_error ScopeLock :=
  if negb (contract_verify c owner) || bool_decide (ct_Issuer c ≠ KeyID owner)
  then Err ErrNotOwnerSigned
  else if bool_decide (ct_Agent c = "") || bool_decide (ct_Tenant c = "")
  then Err ErrContractFields
  else Ok (mkScopeLock c 0 [] []).

Definition anyGlob (patterns : list string) (s : string) : bool :=
  existsb (λ p, glob path_Match p s) patterns.

(** The switch of [Check]: the first condition that refuses, if any. *)
Definition refusal (l : ScopeLock) (now : Z) (a : Action) : option (string * lock_message) :=
  let c := sl_c l in
  if decide (a_Tenant a ≠ ct_Tenant c) then
    Some (CodeWrongTenant, MsgText "this contract belongs to another tenant")
  else if decide (a_Agent a ≠ ct_Agent c) then
    Some (CodeWrongAgent, MsgText "this contract was issued to a different agent")
  else if decide (ct_ExpiresAt c ≤ Unix now)%Z then
    Some (CodeExpired, MsgText "the contract for this task has expired")
  else if negb (anyGlob (ct_Tools c) (a_Tool a)) then
    Some (CodeToolOutOfScope, MsgTool (a_Tool a) (ct_Task c))
  else if negb (anyGlob (ct_Resources c) (a_Resource a)) then
    Some (CodeResourceOutOfScope, MsgResource (a_Resource a) (ct_Task c))
  else if decide (ct_Env c ≠ "" ∧ a_Env a ≠ ct_Env c) then
    Some (CodeWrongEnv, MsgText "this contract does not cover that environment")
  else if decide (0 < ct_MaxActions c ∧ ct_MaxActions c ≤ sl_used l)%Z then
    Some (CodeBudget, MsgBudget (ct_MaxActions c))
  else None.

Definition Check (now : Z) (a : Action) (l : ScopeLock) : Decision * ScopeLock :=
  let c := sl_c l in
  let '(d, used, code, msg) :=
    match refusal l now a with
    | Some (code, m) =>
        (mkDecision Block (render m) [mkReason code (ct_ID c) (render m)] [] [ct_ID c]
           "" 0 (action_hash a) [] [], sl_used l, code, render m)
    | None =>
        (mkDecision Allow "Inside the task scope." [] [] [ct_ID c]
           "" 0 (action_hash a) [] [], wrap_s 64 (sl_used l + 1), ""%string, ""%string)
    end in
  (d, mkScopeLock c used
        (sl_attempts l ++
           [mkAttempt (Z.of_nat (length (sl_attempts l)) + 1) (Unix now) (a_Tool a)
              (a_Resource a) (d_Verdict d) code msg])
        (sl_claims l)).

Definition squash (s : string) : string := Join " " (Fields s).

(** [strings.Contains]. *)
Definition Contains (s sub : string) : bool := bool_decide (is_Some (String.index 0 sub s)).

(** The loop over the citations: the first one that fails, if any. *)
Fixpoint check_cites (l : ScopeLock) (read : string → option string) (cs : list Citation)
    : option (string * lock_message) :=
  match cs with
  | [] => None
  | ct :: rest =>
      let q := squash (ci_Quote ct) in
      if decide (String.length q < minQuote) then
        Some (CodeWeakQuote, MsgWeakQuote (ci_Resource ct))
      else if negb (anyGlob (ct_Resources (sl_c l)) (ci_Resource ct)) then
        Some (CodeCitedOutOfScope, MsgCited (ci_Resource ct))
      else match read (ci_Resource ct) with
           | None => Some (CodeSourceMissing, MsgUnreadable (ci_Resource ct))
           | Some body =>
               if negb (Contains (squash body) q)
               then Some (CodeQuoteNotFound, MsgNotFound (ci_Resource ct))
               else check_cites l read rest
           end
  end.

Definition claim_result (l : ScopeLock) (read : string → option string) (c : Claim)
    : ClaimResult :=
  let fail p := mkClaimResult (cl_Text c) false p.1 (render p.2) in
  if decide (length (cl_Cites c) = 0)
  then fail (CodeNoEvidence, MsgText "the claim cites nothing")
  else match check_cites l read (cl_Cites c) with
       | Some p => fail p
       | None => mkClaimResult (cl_Text c) true "" ""
       end.

Definition CheckClaim (c : Claim) (read : string → option string) (l : ScopeLock)
    : ClaimResult * ScopeLock :=
  let res := claim_result l read c in
  (res, mkScopeLock (sl_c l) (sl_used l) (sl_attempts l) (sl_claims l ++ [res])).

Definition count_verdicts (as_ : list Attempt) : Z * Z :=
  foldl (λ '(al, bl) a, if decide (at_Verdict a = Allow) then ((al + 1)%Z, bl)
                        else (al, (bl + 1)%Z)) (0%Z, 0%Z) as_.

Definition lock_Report (l : ScopeLock) : Report :=
  let '(al, bl) := count_verdicts (sl_attempts l) in
  mkReport (ct_ID (sl_c l)) (ct_Agent (sl_c l)) (ct_Task (sl_c l)) al bl
    (sl_attempts l) (sl_claims l).

Definition Drifted (r : Report) : bool :=
  if decide (0 < rp_Blocked r)%Z then true
  else existsb (λ c, negb (cr_Grounded c)) (rp_Claims r).

Definition add_report (s : SwarmSummary) (r : Report) : SwarmSummary :=
  let '(g, x) := foldl (λ '(g, x) c, if cr_Grounded c then ((g + 1)%Z, x) else (g, (x + 1)%Z))
                   (sw_ClaimsGrounded s, sw_ClaimsRejected s) (rp_Claims r) in
  mkSwarmSummary (sw_Agents s) (sw_Allowed s + rp_Allowed r) (sw_Blocked s + rp_Blocked r) g x
    (if Drifted r then sw_Drifted s ++ [rp_Agent r] else sw_Drifted s).

Definition Summarize (reports : list Report) : SwarmSummary :=
  let s := foldl add_report (mkSwarmSummary (Z.of_nat (length reports)) 0 0 0 0 []) reports in
  mkSwarmSummary (sw_Agents s) (sw_Allowed s) (sw_Blocked s) (sw_ClaimsGrounded s)
    (sw_ClaimsRejected s) (merge_sort String.le (sw_Drifted s)).
End scope_lock.

(** ** Suggestions (suggest.go) *)

Record shape := mkShape { sh_agent : string; sh_tool : string; sh_resource : string; sh_env : string }.
#[global] Instance shape_eq_dec : EqDecision shape.
Proof. solve_decision. Defined.
#[global] Program Instance shape_countable : Countable shape :=
  inj_countable' (λ s, (sh_agent s, sh_tool s, sh_resource s, sh_env s))
    (λ t, mkShape t.1.1.1 t.1.1.2 t.1.2 t.2) _.
Next Obligation. by intros []. Qed.

Record Suggestions := mkSuggestions {
  sg_threshold : Z;
  sg_counts : gmap shape Z;
  sg_rejected : gset shape;
}.

Definition NewSuggestions (threshold : Z) : Suggestions :=
  mkSuggestions (if decide (threshold < 2)%Z then 2 else threshold) ∅ ∅.

Definition shape_of (a : Action) : shape := mkShape (a_Agent a) (a_Tool a) (a_Resource a) (a_Env a).

Definition Observe (a : Action) (s : Suggestions) : Suggestions :=
  mkSuggestions (sg_threshold s)
    (<[shape_of a := wrap_s 64 (default 0%Z (sg_counts s !! shape_of a) + 1)]> (sg_counts s))
    (sg_rejected s).

Record Suggestion := mkSuggestion {
  sn_ID : string;
  sn_Agent : string;
  sn_Tool : string;
  sn_Resource : string;
  sn_Env : string;
  sn_Seen : Z;
}.

Definition shape_id (sh : shape) : string :=
  Join "|" [sh_agent sh; sh_tool sh; sh_resource sh; sh_env sh].

Definition to_suggestion (sh : shape) (n : Z) : Suggestion :=
  mkSuggestion (shape_id sh) (sh_agent sh) (sh_tool sh) (sh_resource sh) (sh_env sh) n.

Definition sid_le (x y : Suggestion) : Prop := String.le (sn_ID x) (sn_ID y).
#[global] Instance sid_le_dec : RelDecision sid_le.
Proof. intros x y. unfold sid_le. apply _. Defined.

(** [ord] is the order of the range over the counts. *)
Definition Pending (s : Suggestions) (ord : list (shape * Z)) : list Suggestion :=
  merge_sort sid_le (omap (λ '(sh, n),
    if decide (sg_threshold s ≤ n ∧ sh ∉ sg_rejected s)%Z then Some (to_suggestion sh n)
    else None) ord).

Definition Reject (id : string) (s : Suggestions) : Suggestions :=
  mkSuggestions (sg_threshold s) (sg_counts s)
    (sg_rejected s ∪ filter (λ sh, shape_id sh = id) (dom (sg_counts s))).

Section accept.
Context (path_Match : string → string → option bool).

(** The last pending suggestion with the id. *)
Definition find_suggestion (id : string) (l : list Suggestion) : option Suggestion :=
  foldl (λ found p, if decide (sn_ID p = id) then Some p else found) None l.

(** [now1] and [now2] are the readings of the clock for the provenance and by
    [Add]. *)
Definition Accept (s : Suggestions) (ord : list (shape * Z)) (now1 now2 : Z) (id : string)
    (r : Rule) (v : Vault) : option intent_error * Suggestions * Vault :=
  match find_suggestion id (Pending s ord) with
  | None => (Some (ErrNoSuggestion id), s, v)
  | Some f =>
      if IsZero (r_ExpiresAt r) then (Some ErrSuggestionExpiry, s, v)
      else
        let r := mkRule (r_ID r) (r_Label r) (r_Preference r) (r_Owner r) (r_Purpose r) Grant
          (sn_Agent f) (sn_Tool f) (sn_Resource f) (sn_Env f) (r_Requires r)
          (mkProvenance "suggestion" (r_Owner r) now1) (r_CreatedAt r) (r_ExpiresAt r)
          (r_Version r) (r_Revoked r) (r_RevokedAt r) in
        match vault_Add path_Match now2 r v with
        | (Some e, v) => (Some e, s, v)
        | (None, v) => (None, Reject id s, v)
        end
  end.
End accept.

(** ** What a lock promises *)

Inductive lock_call :=
| LCheck (now : Z) (a : Action)
| LClaim (c : Claim) (read : string → option string).

Section lock_props.
Context (path_Match : string → string → option bool).
Context (action_hash : Action → string).
Context (render : lock_message → string).
Context (Fields : string → list string).
Abbreviation anyGlob := (anyGlob path_Match).
Abbreviation Check := (Check path_Match action_hash render).
Abbreviation CheckClaim := (CheckClaim path_Match render Fields).

Definition apply_lock (l : ScopeLock) (k : lock_call) : ScopeLock :=
  match k with
  | LCheck now a => (Check now a l).2
  | LClaim c read => (CheckClaim c read l).2
  end.

(** The scope of a contract, as the owner reads it. *)
Definition in_scope (c : Contract) (now : Z) (a : Action) : Prop :=
  a_Tenant a = ct_Tenant c ∧ a_Agent a = ct_Agent c ∧ (Unix now < ct_ExpiresAt c)%Z ∧
  anyGlob (ct_Tools c) (a_Tool a) = true ∧ anyGlob (ct_Resources c) (a_Resource a) = true ∧
  (ct_Env c = "" ∨ a_Env a = ct_Env c).

Definition in_budget (l : ScopeLock) : Prop :=
  (ct_MaxActions (sl_c l) ≤ 0 ∨ sl_used l < ct_MaxActions (sl_c l))%Z.

Lemma refusal_None l now a :
  refusal path_Match l now a = None ↔ in_scope (sl_c l) now a ∧ in_budget l.
Proof.
  unfold refusal, in_scope, in_budget. split.
  - repeat (case_decide; [done|]).
    destruct (anyGlob (ct_Tools (sl_c l)) (a_Tool a)); [simpl|done].
    destruct (anyGlob (ct_Resources (sl_c l)) (a_Resource a)); [simpl|done].
    repeat (case_decide; [done|]). intros _.
    assert (Hd : ∀ x y : string, ¬ x ≠ y → x = y) by (intros x y; destruct (decide (x = y)); tauto).
    repeat split; auto; [lia| |lia].
    destruct (decide (ct_Env (sl_c l) = "")); [by left|right]. apply Hd. tauto.
  - intros [(-> & -> & He & -> & -> & Hn) Hb]. simpl.
    rewrite !decide_False by (tauto || lia || (intros [? ?]; destruct Hn; congruence)). done.
Qed.

Definition allowed_of (l : ScopeLock) : list Attempt :=
  filter (λ t, at_Verdict t = Allow) (sl_attempts l).

Lemma count_verdicts_spec as_ :
  count_verdicts as_ =
  (Z.of_nat (length (filter (λ t, at_Verdict t = Allow) as_)),
   Z.of_nat (length (filter (λ t, at_Verdict t ≠ Allow) as_))).
Proof.
  unfold count_verdicts. induction as_ as [|t as_ IH] using rev_ind; [done|].
  rewrite foldl_snoc, IH, !filter_app, !filter_cons, !filter_nil, !length_app.
  destruct (decide (at_Verdict t = Allow)) as [E|E].
  - rewrite (decide_False (P := at_Verdict t ≠ Allow)) by tauto. simpl. f_equal; lia.
  - rewrite (decide_True (P := at_Verdict t ≠ Allow)) by done. simpl. f_equal; lia.
Qed.

(** The invariant of a lock with [n] calls of [Check] behind it. *)
Record lock_inv (c : Contract) (n : nat) (l : ScopeLock) : Prop := {
  li_c : sl_c l = c;
  li_len : length (sl_attempts l) = n;
  li_used : sl_used l = Z.of_nat (length (allowed_of l));
  li_budget : (0 < ct_MaxActions c → sl_used l ≤ ct_MaxActions c)%Z;
  li_scope : Forall (λ t, at_Code t = "" ∧ (at_At t < ct_ExpiresAt c)%Z ∧
               anyGlob (ct_Tools c) (at_Tool t) = true ∧
               anyGlob (ct_Resources c) (at_Resource t) = true) (allowed_of l);
  li_seq : ∀ i t, sl_attempts l !! i = Some t → at_Seq t = (Z.of_nat i + 1)%Z
}.

Lemma lock_inv_check c n l now a : (Z.of_nat n < 2 ^ 63 - 1)%Z →
  lock_inv c n l → lock_inv c (S n) (Check now a l).2.
Proof.
  intros Hn [Hc Hl Hu Hb Hs Hq]. unfold Contract.Check.
  assert (Hle : length (allowed_of l) ≤ n).
  { rewrite <- Hl. apply length_filter. }
  destruct (refusal path_Match l now a) as [[code m]|] eqn:E; constructor; simpl;
    try done; unfold allowed_of; simpl;
    rewrite ?filter_app, ?filter_cons, ?filter_nil; simpl; rewrite ?app_nil_r; try done.
  - rewrite length_app, Hl. simpl. lia.
  - intros i t [H|[H1 H2]]%lookup_app_Some; [by apply Hq|].
    destruct (i - length (sl_attempts l)) eqn:Ei; [|done]. simplify_eq/=. f_equal. lia.
  - rewrite length_app, Hl. simpl. lia.
  - rewrite length_app. rewrite wrap_s_id.
    + rewrite Hu. unfold allowed_of. simpl. lia.
    + lia.
    + unfold in_s. change (2 ^ (64 - 1))%Z with (2 ^ 63)%Z. lia.
  - apply refusal_None in E as [_ Hbud]. unfold in_budget in Hbud. rewrite Hc in Hbud. intros. rewrite wrap_s_id; [lia|lia|].
    unfold in_s. change (2 ^ (64 - 1))%Z with (2 ^ 63)%Z. lia.
  - apply refusal_None in E as [(_ & _ & ? & ? & ? & _) _]. rewrite Hc in *.
    apply Forall_app. split; [done|]. by constructor.
  - intros i t [H|[H1 H2]]%lookup_app_Some; [by apply Hq|].
    destruct (i - length (sl_attempts l)) eqn:Ei; [|done]. simplify_eq/=. f_equal. lia.
Qed.

Definition is_check (k : lock_call) : bool :=
  match k with LCheck _ _ => true | LClaim _ _ => false end.

Lemma lock_inv_run c ks : (Z.of_nat (length ks) < 2 ^ 63)%Z → ∀ n l,
  (Z.of_nat (n + length ks) < 2 ^ 63)%Z → lock_inv c n l →
  lock_inv c (n + length (filter (λ k, is_check k = true) ks)) (foldl apply_lock l ks).
Proof.
  induction ks as [|k ks IH]; intros Hk n l Hn Hi; cbn [foldl].
  - by rewrite Nat.add_0_r.
  - cbn [length] in *. rewrite filter_cons. destruct k as [now a|cl read]; cbn [is_check apply_lock].
    + rewrite decide_True by done. cbn [length]. rewrite Nat.add_succ_r, <- Nat.add_succ_l.
      apply IH; [lia|lia|]. apply lock_inv_check; [lia|done].
    + rewrite decide_False by done. apply IH; [lia|lia|]. by destruct Hi.
Qed.

(** C40: Over any run of fewer than 2^63 calls, a scope lock whose contract has a positive [MaxActions] lets the agent
    act at most that many times (zero is no cap), and any scope lock records every attempt with consecutive numbers,
    and every attempt it allowed was before the expiry with the tool and the resource in the signed scope; the report
    counts exactly the allowed and the refused. *)
Theorem scope_lock_budget KeyID ct_ed_Verify c owner l0 ks :
  NewScopeLock KeyID ct_ed_Verify c owner = Ok l0 → (Z.of_nat (length ks) < 2 ^ 63)%Z →
  let l := foldl apply_lock l0 ks in
  let n := length (filter (λ k, is_check k = true) ks) in
  lock_inv c n l ∧ rp_Allowed (lock_Report l) = sl_used l ∧
  (rp_Blocked (lock_Report l) = Z.of_nat n - sl_used l)%Z.
Proof.
  intros Hl0 Hk. simpl.
  assert (Hi0 : lock_inv c 0 l0).
  { unfold NewScopeLock in Hl0. repeat case_match; simplify_eq.
    constructor; simpl; try done; try lia. }
  pose proof (lock_inv_run c ks Hk 0 l0 Hk Hi0) as Hi. simpl in Hi.
  split; [done|]. unfold lock_Report. rewrite count_verdicts_spec. simpl.
  rewrite (li_used _ _ _ Hi). split; [done|]. rewrite <- (li_len _ _ _ Hi). unfold allowed_of.
  pose proof (filter_app_complement (λ t, at_Verdict t = Allow)
    (sl_attempts (foldl apply_lock l0 ks))) as Hp%Permutation_length.
  rewrite length_app in Hp. lia.
Qed.

(** [Check] allows exactly the actions of the contract's tenant and agent,
    before its expiry, on a listed tool and resource, in its environment, while
    the budget lasts; only an allowed action is counted, and either way one
    attempt with the verdict is recorded. *)
Theorem Check_exact now a l :
  let '(d, l') := Check now a l in
  (d_Verdict d = Allow ↔ in_scope (sl_c l) now a ∧ in_budget l) ∧
  d_Verdict d ≠ RequireApproval ∧ sl_c l' = sl_c l ∧ sl_claims l' = sl_claims l ∧
  (sl_used l' = if decide (d_Verdict d = Allow) then wrap_s 64 (sl_used l + 1) else sl_used l) ∧
  ∃ t, sl_attempts l' = sl_attempts l ++ [t] ∧ at_Verdict t = d_Verdict d ∧
    at_Tool t = a_Tool a ∧ at_Resource t = a_Resource a ∧ at_At t = Unix now ∧
    (at_Code t = "" ↔ d_Verdict d = Allow).
Proof.
  unfold Contract.Check. pose proof (refusal_None l now a) as Hr.
  destruct (refusal path_Match l now a) as [[code m]|] eqn:E; simpl.
  - assert (Hc : code ≠ "").
    { unfold refusal in E. repeat (case_match; simplify_eq; try done). }
    split. { split; [done|]. intros ?%Hr. done. }
    repeat split; try done. eexists. repeat split; done.
  - split; [split; [by intros _; apply Hr|done]|]. repeat split; try done.
    eexists. repeat split; done.
Qed.

Lemma check_cites_None l read cs :
  check_cites path_Match Fields l read cs = None ↔
  ∀ ct, ct ∈ cs →
    minQuote ≤ String.length (squash Fields (ci_Quote ct)) ∧
    anyGlob (ct_Resources (sl_c l)) (ci_Resource ct) = true ∧
    ∃ body, read (ci_Resource ct) = Some body ∧
      Contains (squash Fields body) (squash Fields (ci_Quote ct)) = true.
Proof.
  induction cs as [|ct cs IH]; [set_solver|]. cbn [check_cites].
  setoid_rewrite elem_of_cons. split.
  - case_decide as Hq; [done|].
    destruct (anyGlob _ _) eqn:Hg; [simpl|done]. destruct (read _) as [body|] eqn:Hr; [|done].
    destruct (Contains _ _) eqn:Hc; [simpl|done]. intros Hn ct' [->|Hin]; [|by apply IH].
    split; [lia|]. split; [done|]. by exists body.
  - intros H. destruct (H ct) as (Hq & -> & body & -> & ->); [by left|].
    rewrite decide_False by lia. simpl. apply IH. auto.
Qed.

(** A claim is accepted exactly when it cites something and every citation
    quotes at least twelve characters (white space squashed) of a resource in the
    contract that can be read and really contains the quote; the result is
    recorded and nothing else of the lock changes. *)
Theorem CheckClaim_exact c read l :
  let '(res, l') := CheckClaim c read l in
  (cr_Grounded res = true ↔
    cl_Cites c ≠ [] ∧ ∀ ct, ct ∈ cl_Cites c →
      12 ≤ String.length (squash Fields (ci_Quote ct)) ∧
      anyGlob (ct_Resources (sl_c l)) (ci_Resource ct) = true ∧
      ∃ body i, read (ci_Resource ct) = Some body ∧
        String.substring i (String.length (squash Fields (ci_Quote ct))) (squash Fields body) =
          squash Fields (ci_Quote ct)) ∧
  l' = mkScopeLock (sl_c l) (sl_used l) (sl_attempts l) (sl_claims l ++ [res]).
Proof.
  unfold Contract.CheckClaim, claim_result. simpl. split; [|done].
  case_decide as Hl.
  { destruct (cl_Cites c); [|done]. simpl. split; [done|]. by intros [? _]. }
  assert (Hne : cl_Cites c ≠ []) by (by destruct (cl_Cites c)).
  assert (Hs : ∀ s q, minQuote ≤ String.length q → Contains s q = true ↔
                      ∃ i, String.substring i (String.length q) s = q).
  { intros s q Hq. unfold Contains. rewrite bool_decide_eq_true. split.
    - intros [i Hi]. exists i. by eapply String.index_correct1.
    - intros [i Hi]. destruct (String.index 0 q s) as [n|] eqn:E; [by exists n|].
      exfalso. eapply (String.index_correct3 0 i q s E); [|lia|done].
      intros ->. simpl in Hq. unfold minQuote in Hq. lia. }
  pose proof (check_cites_None l read (cl_Cites c)) as Hcc.
  destruct (check_cites _ _ l read (cl_Cites c)) as [p|]; simpl.
  - split; [done|]. intros [_ H]. exfalso. assert (Hp : Some p = None); [|done]. apply Hcc. intros ct Hct.
    destruct (H ct Hct) as (Hq & Hg & body & i & Hb & Hi).
    split; [exact Hq|]. split; [done|]. exists body. split; [done|]. apply Hs; [exact Hq|eauto].
  - split; [|done]. intros _. split; [done|]. intros ct Hct.
    destruct (proj1 Hcc eq_refl ct Hct) as (Hq & Hg & body & Hb & Hi).
    split; [exact Hq|]. split; [done|]. apply Hs in Hi as [i Hi]; [|exact Hq]. by exists body, i.
Qed.
End lock_props.

(** ** What the suggestions promise *)

Lemma find_suggestion_spec id l f : find_suggestion id l = Some f → f ∈ l ∧ sn_ID f = id.
Proof.
  unfold find_suggestion. induction l as [|p l IH] using rev_ind; [done|].
  rewrite foldl_snoc. case_decide; [|intros ?%IH; set_solver].
  intros [= ->]. set_solver.
Qed.

Lemma Pending_elem s ord f : range_order (sg_counts s) ord →
  f ∈ Pending s ord ↔ ∃ sh n, sg_counts s !! sh = Some n ∧ (sg_threshold s ≤ n)%Z ∧
    sh ∉ sg_rejected s ∧ f = to_suggestion sh n.
Proof.
  intros Ho. unfold Pending. rewrite merge_sort_Permutation, list_elem_of_omap. split.
  - intros ([sh n] & Hin & Hc). case_decide as Hd; [|done]. simplify_eq.
    rewrite (range_order_elem _ _ _ _ Ho) in Hin. destruct Hd. by exists sh, n.
  - intros (sh & n & Hin & Hn & Hr & ->). exists (sh, n).
    rewrite (range_order_elem _ _ _ _ Ho). split; [done|]. by rewrite decide_True.
Qed.

(** Nothing becomes a rule by itself, and accepting creates what was seen: if
    [Accept] succeeds, the vault gained exactly one rule, under an id that was free,
    a grant with an expiry whose agent, tool, resource and environment are those of
    a shape that carries the accepted id, reached the threshold and was not
    rejected, and that id is no longer pending; if it fails nothing changes. *)
Theorem Accept_effect path_Match s ord now1 now2 id r v err s' v' :
  range_order (sg_counts s) ord →
  Accept path_Match s ord now1 now2 id r v = (err, s', v') →
  (err = None ∧ s' = Reject id s ∧ vt_rules v !! r_ID r = None ∧
   (∃ sh n r', vt_rules v' = <[r_ID r := r']> (vt_rules v) ∧
      sg_counts s !! sh = Some n ∧ (sg_threshold s ≤ n)%Z ∧ sh ∉ sg_rejected s ∧
      shape_id sh = id ∧ r_Mode r' = Grant ∧ r_Agent r' = sh_agent sh ∧
      r_Tool r' = sh_tool sh ∧ r_Resource r' = sh_resource sh ∧ r_Env r' = sh_env sh ∧
      IsZero (r_ExpiresAt r') = false ∧ r_Revoked r' = false) ∧
   (∀ ord' f, range_order (sg_counts s') ord' → f ∈ Pending s' ord' → sn_ID f ≠ id)) ∨
  (err ≠ None ∧ s' = s ∧ v' = v).
Proof.
  intros Ho. unfold Accept.
  destruct (find_suggestion id (Pending s ord)) as [f|] eqn:Ef;
    [|by intros [= <- <- <-]; right].
  apply find_suggestion_spec in Ef as [Hf Hid].
  apply (Pending_elem s ord f Ho) in Hf as (sh & n & Hn & Ht & Hr & ->).
  destruct (IsZero (r_ExpiresAt r)) eqn:Ez; [by intros [= <- <- <-]; right|].
  unfold vault_Add. simpl. destruct (validate path_Match _); [by intros [= <- <- <-]; right|].
  simpl. destruct (vt_rules v !! r_ID r) eqn:Ev; [by intros [= <- <- <-]; right|].
  intros [= <- <- <-]. left. split; [done|]. split; [done|]. split; [done|]. split.
  - exists sh, n. eexists. split; [reflexivity|]. simpl. by repeat split.
  - intros ord' f Ho' Hf. apply (Pending_elem _ _ _ Ho') in Hf as (sh' & n' & Hn' & _ & Hr' & ->).
    simpl in *. intros He. apply Hr'. apply elem_of_union_r, elem_of_filter. split; [done|].
    by apply elem_of_dom.
Qed.

(** ** Witnesses *)

Definition ex_contract : Contract :=
  mkContract "c1" "acme" "bot" "review" ["read"; "comment"] ["a.go"; "b.go"] "" 2 "own" 0 100
    (String.concat "" (replicate 8 "12345678")).

Definition ex_check (tool resource : string) (now : Z) : lock_call :=
  LCheck (now * Second) (mkAction "acme" "bot" tool resource "prod" ∅).

Definition ex_calls : list lock_call :=
  [ex_check "read" "a.go" 1; ex_check "push" "a.go" 2; ex_check "read" "c.go" 3;
   ex_check "comment" "b.go" 4; ex_check "read" "a.go" 5].
Definition ex_text (m : lock_message) : string := "refused".

Lemma scope_lock_budget_witness :
  ∃ l0, NewScopeLock (λ k, k) (λ _ _ _, true) ex_contract "own" = Ok l0 ∧
    map at_Code (sl_attempts (foldl (apply_lock star_match a_Tool ex_text (λ s, [s])) l0 ex_calls)) =
      [""%string; CodeToolOutOfScope; CodeResourceOutOfScope; ""%string; CodeBudget] ∧
    rp_Blocked (lock_Report (foldl (apply_lock star_match a_Tool ex_text (λ s, [s])) l0 ex_calls)) =
      (5 - sl_used (foldl (apply_lock star_match a_Tool ex_text (λ s, [s])) l0 ex_calls))%Z.
Proof.
  eexists. split; [vm_compute; reflexivity|]. split; [vm_compute; reflexivity|].
  refine (proj2 (proj2 (scope_lock_budget star_match a_Tool ex_text (λ s, [s])
    (λ k, k) (λ _ _ _, true) ex_contract "own" _ ex_calls _ _))).
  - vm_compute. reflexivity.
  - vm_compute. reflexivity.
Defined.

Definition ex_observed (a : Action) (n : nat) : Suggestions :=
  Nat.iter n (Observe a) (NewSuggestions 3).
Definition ex_seen : Action := mkAction "acme" "bot" "deploy" "web" "staging" ∅.
Definition ex_new_rule : Rule :=
  mkRule "n1" "label" "" "ada" "ops" "" "" "" "" "" [] (mkProvenance "" "" zero_time) zero_time 50
    0 false zero_time.

Lemma Accept_effect_witness :
  let s := ex_observed ex_seen 3 in
  let res := Accept star_match s (map_to_list (sg_counts s)) 1 2 (shape_id (shape_of ex_seen))
               ex_new_rule (NewVault "acme") in
  res.1.1 = None ∧
  ((res.1.1 = None ∧ vt_rules (NewVault "acme") !! "n1" = None) ∨ res.1.1 ≠ None).
Proof.
  intros s res. split; [vm_compute; reflexivity|].
  destruct (Accept_effect star_match s (map_to_list (sg_counts s)) 1 2
    (shape_id (shape_of ex_seen)) ex_new_rule (NewVault "acme") res.1.1 res.1.2 res.2)
    as [(H & _ & H' & _)|(H & _)].
  - apply range_order_refl.
  - vm_compute. reflexivity.
  - left. split; [exact H|exact H'].
  - right. exact H.
Defined.

(** The id of a shape joins its fields with bars, so two shapes can share one: the
    owner who accepts the id shown for one of them may get the rule of the other. *)
Example suggestion_id_ambiguous :
  let sh1 := mkShape "bot" "read" "x|y" "prod" in
  let sh2 := mkShape "bot" "read|x" "y" "prod" in
  shape_id sh1 = shape_id sh2 ∧ sh1 ≠ sh2.
Proof. split; [vm_compute; reflexivity|]. discriminate. Qed.

(** A rejected shape is still counted. *)
Example rejected_is_counted :
  let s := Observe ex_seen (Reject (shape_id (shape_of ex_seen)) (ex_observed ex_seen 3)) in
  sg_counts s !! shape_of ex_seen = Some 4%Z ∧ shape_of ex_seen ∈ sg_rejected s.
Proof. split; [vm_compute; reflexivity|apply (bool_decide_unpack _); vm_compute; exact I]. Qed.
