(* ===== verification/Sector.v ===== *)
(** * fs/marshaldata.go, fs/hashmap.fileregion.go and fs/hashmap.cow.go: checksummed
    blocks with a backup copy

    A block is a list of bytes with a CRC-32 at its end.  An update first writes
    the old block to a backup file (the COW file), then the new block in place,
    then removes the backup; a read that finds a bad checksum restores the backup.
    The functions are programs over the requests they make to the disk, so that a
    crash or a failure can come at any request; a write that fails or is cut off
    leaves a prefix of the new bytes. *)

From S2P Require Import Prelude Handle.

(** ** Checksums and blocks (marshaldata.go) *)

(** [crc32.ChecksumIEEE] of the standard library: the reflected polynomial
    0xEDB88320, bit by bit. *)
Definition crc_bit (c : Z) : Z :=
  if Z.odd c then Z.lxor (Z.shiftr c 1) 3988292384 else Z.shiftr c 1.
Definition crc_byte (c b : Z) : Z := Nat.iter 8 crc_bit (Z.lxor c b).
Definition ChecksumIEEE (bs : list Z) : Z := Z.lxor (foldl crc_byte 4294967295%Z bs) 4294967295.

Example crc_check : ChecksumIEEE [49; 50; 51; 52; 53; 54; 55; 56; 57]%Z = 3421780262%Z.
Proof. reflexivity. Qed.

Definition isZeroData (data : list Z) : bool := forallb (λ b, bool_decide (b = 0%Z)) data.

(** The four bytes behind the data. *)
Definition trailer (data : list Z) : list Z :=
  le_bytes 4 (if isZeroData data then 0%Z else ChecksumIEEE data).

(** [marshalData]; a block that is too small for the payload is replaced. *)
Definition marshalData (payload block : list Z) : list Z :=
  let dataLen := (Z.of_nat (length block) - 4)%Z in
  let dataLen := if decide (dataLen < Z.of_nat (length payload))%Z
                 then Z.of_nat (length payload) else dataLen in
  let data := payload ++ replicate (Z.to_nat dataLen - length payload) 0%Z in
  data ++ trailer data.

Inductive block_error := BlockTooSmall | ChecksumMismatch.

Definition unmarshalData (block : list Z) : result block_error (list Z) :=
  if decide (length block < 4) then Err BlockTooSmall
  else
    let dataLen := length block - 4 in
    if isZeroData block then Ok (take dataLen block)
    else if decide (ChecksumIEEE (take dataLen block) ≠ le_val (drop dataLen block))
         then Err ChecksumMismatch
         else Ok (take dataLen block).

Definition valid (block : list Z) : bool := is_ok (unmarshalData block).

(** ** The disk *)

(** A segment file and the offset of a block in it.  [makeBlockCowPath] gives each
    of them a backup path of its own. *)
Abbreviation addr := (string * Z)%type (only parsing).

Inductive io_error := IOError.

(** [RestoreFailure] is the error with the code [RestoreRegistryFileSectorFailure]. *)
Inductive fs_error :=
| ReadError (e : io_error)
| WriteError (e : io_error)
| Partial
| RestoreFailure
| LockAcquisitionFailure.

Record disk := mkDisk {
  dk_main : addr → list Z;
  dk_cow : gmap addr (list Z);
}.

Definition set_main (a : addr) (b : list Z) (d : disk) : disk :=
  mkDisk (λ a', if decide (a' = a) then b else dk_main d a') (dk_cow d).
Definition set_cow (a : addr) (c : option (list Z)) (d : disk) : disk :=
  mkDisk (dk_main d) (partial_alter (λ _, c) a (dk_cow d)).

(** A request to the disk, and what is done with its answer. *)
Inductive prog (A : Type) :=
| Done (r : result fs_error A)
| ReadAt (a : addr) (k : result io_error (list Z) → prog A)
| WriteAt (a : addr) (data : list Z) (k : result io_error () → prog A)
| CowExists (a : addr) (k : bool → prog A)
| CowRead (a : addr) (k : result io_error (list Z) → prog A)
| CowWrite (a : addr) (data : list Z) (k : result io_error () → prog A)
| CowRemove (a : addr) (k : result io_error () → prog A).
Arguments Done {A}.
Arguments ReadAt {A}.
Arguments WriteAt {A}.
Arguments CowExists {A}.
Arguments CowRead {A}.
Arguments CowWrite {A}.
Arguments CowRemove {A}.

Fixpoint prog_bind {A B} (m : prog A) (k : A → prog B) : prog B :=
  match m with
  | Done (Ok x) => k x
  | Done (Err e) => Done (Err e)
  | ReadAt a c => ReadAt a (λ r, prog_bind (c r) k)
  | WriteAt a data c => WriteAt a data (λ r, prog_bind (c r) k)
  | CowExists a c => CowExists a (λ r, prog_bind (c r) k)
  | CowRead a c => CowRead a (λ r, prog_bind (c r) k)
  | CowWrite a data c => CowWrite a data (λ r, prog_bind (c r) k)
  | CowRemove a c => CowRemove a (λ r, prog_bind (c r) k)
  end.

#[global] Instance prog_ret : MRet prog := λ A x, Done (Ok x).
#[global] Instance prog_mbind : MBind prog := λ A B k m, prog_bind m k.
Definition err {A} (e : fs_error) : prog A := Done (Err e).

(** ** Reading and writing a block (hashmap.fileregion.go, hashmap.cow.go) *)

Section blocks.
(** The block size of the direct I/O library, and the mode of the map. *)
Context (blockSize : nat) (readWrite : bool).

(** The removal of a file that is not there succeeds. *)
Definition deleteCow (a : addr) : prog () :=
  CowRemove a (λ r, match r with Ok _ => mret () | Err _ => err RestoreFailure end).

Definition createCow (a : addr) (data : list Z) : prog () :=
  CowWrite a data (λ r, match r with Ok _ => mret () | Err _ => err RestoreFailure end).

Definition checkCow (a : addr) : prog (list Z * bool) :=
  CowExists a (λ exists_,
    if exists_ then
      CowRead a (λ r,
        match r with
        | Err _ => err RestoreFailure
        | Ok data =>
            if decide (length data = 0) then mret ([], true)
            else if decide (length data ≠ blockSize) then mret ([], false)
            else if valid data then mret (data, true)
            else mret ([], false)
        end)
    else mret ([], false)).

(** The result is the buffer after the call. *)
Definition restoreFromCow (a : addr) (alignedBuffer cowData : list Z) : prog (list Z) :=
  if decide (length cowData = 0) then mret alignedBuffer
  else
    let alignedBuffer := go_copy alignedBuffer 0 cowData in
    WriteAt a alignedBuffer (λ r,
      match r with
      | Ok _ => mret alignedBuffer
      | Err _ => if readWrite then err RestoreFailure else mret alignedBuffer
      end).

Definition readAndRestoreBlock (a : addr) : prog (list Z) :=
  ReadAt a (λ r,
    match r with
    | Err e => err (ReadError e)
    | Ok alignedBuffer =>
        if decide (length alignedBuffer ≠ blockSize) then err Partial
        else if valid alignedBuffer then
          CowRemove a (λ _, mret alignedBuffer)
        else
          '(cowData, shouldRestore) ← checkCow a;
          if (shouldRestore : bool) then restoreFromCow a alignedBuffer cowData
          else mret alignedBuffer
    end).

(** The block with the handle merged and the checksum renewed. *)
Definition merge (handleInBlockOffset : nat) (handleData alignedBuffer : list Z) : list Z :=
  let alignedBuffer := go_copy alignedBuffer handleInBlockOffset (take HandleSizeInBytes handleData) in
  marshalData (take (blockSize - 4) alignedBuffer) alignedBuffer.

Definition writeBlockRegionPayload (a : addr) (handleInBlockOffset : nat)
    (handleData alignedBuffer : list Z) : prog () :=
  createCow a alignedBuffer;;
  WriteAt a (merge handleInBlockOffset handleData alignedBuffer) (λ r,
    match r with
    | Err e => err (WriteError e)
    | Ok _ => deleteCow a
    end).

(** [locked] is the outcome of [lockFileBlockRegionWithRetry] on the block. *)
Definition updateFileBlockRegion (locked : bool) (a : addr) (handleInBlockOffset : nat)
    (handleData : list Z) : prog () :=
  if locked then
    alignedBuffer ← readAndRestoreBlock a;
    writeBlockRegionPayload a handleInBlockOffset handleData alignedBuffer
  else err LockAcquisitionFailure.
End blocks.

(** ** Behaviours: failures and crashes *)

(** A write of [new] over [old] that was cut off. *)
Definition torn (old new img : list Z) : Prop := ∃ n, img = take n new ++ drop n old.

(** [behaves p d o d']: from the disk [d] the program can leave the disk [d'] with
    the result [o], or with a crash when [o] is [None].  Any request may fail; a
    crash in the middle of a write is a failure of it and a crash right after. *)
Inductive behaves {A} : prog A → disk → option (result fs_error A) → disk → Prop :=
| bh_done r d : behaves (Done r) d (Some r) d
| bh_crash p d : behaves p d None d
| bh_read a k d o d' : behaves (k (Ok (dk_main d a))) d o d' → behaves (ReadAt a k) d o d'
| bh_read_fails a k d o d' : behaves (k (Err IOError)) d o d' → behaves (ReadAt a k) d o d'
| bh_write a data k d o d' : behaves (k (Ok ())) (set_main a data d) o d' → behaves (WriteAt a data k) d o d'
| bh_write_fails a data k d img o d' : torn (dk_main d a) data img →
    behaves (k (Err IOError)) (set_main a img d) o d' → behaves (WriteAt a data k) d o d'
| bh_exists a k d o d' : behaves (k (bool_decide (is_Some (dk_cow d !! a)))) d o d' →
    behaves (CowExists a k) d o d'
| bh_cow_read a k d o d' data : dk_cow d !! a = Some data → behaves (k (Ok data)) d o d' →
    behaves (CowRead a k) d o d'
| bh_cow_read_fails a k d o d' : behaves (k (Err IOError)) d o d' → behaves (CowRead a k) d o d'
| bh_cow_write a data k d o d' : behaves (k (Ok ())) (set_cow a (Some data) d) o d' →
    behaves (CowWrite a data k) d o d'
| bh_cow_write_fails a data k d c o d' : c = dk_cow d !! a ∨ (∃ n, c = Some (take n data)) →
    behaves (k (Err IOError)) (set_cow a c d) o d' → behaves (CowWrite a data k) d o d'
| bh_cow_remove a k d o d' : behaves (k (Ok ())) (set_cow a None d) o d' → behaves (CowRemove a k) d o d'
| bh_cow_remove_fails a k d o d' : behaves (k (Err IOError)) d o d' → behaves (CowRemove a k) d o d'.

(** ** Lemmas on checksums *)

Lemma lxor_range n a b : (0 ≤ n)%Z → in_u n a → in_u n b → in_u n (Z.lxor a b).
Proof.
  intros Hn [Ha1 Ha2] [Hb1 Hb2]. split; [by apply Z.lxor_nonneg|].
  destruct (decide (Z.lxor a b = 0)%Z) as [->|Hne]; [by apply Z.pow_pos_nonneg|].
  assert (0 ≤ Z.lxor a b)%Z by (by apply Z.lxor_nonneg).
  apply Z.log2_lt_pow2; [lia|].
  assert (∀ c, (0 ≤ c < 2 ^ n)%Z → (Z.log2 c < n)%Z ∨ c = 0%Z) as Hlog.
  { intros c Hc. destruct (decide (c = 0)%Z); [by right|left]. apply Z.log2_lt_pow2; lia. }
  pose proof (Z.log2_lxor a b Ha1 Hb1).
  destruct (Hlog a ltac:(lia)) as [?| ->], (Hlog b ltac:(lia)) as [?| ->]; try lia.
  - rewrite Z.lxor_0_r. lia.
  - rewrite Z.lxor_0_l. lia.
  - done.
Qed.

Lemma crc_bit_range c : in_u 32 c → in_u 32 (crc_bit c).
Proof.
  intros [? ?]. unfold crc_bit.
  assert (in_u 32 (Z.shiftr c 1)).
  { rewrite Z.shiftr_div_pow2 by lia. change (2 ^ 1)%Z with 2%Z. split; [apply Z.div_pos; lia|].
    apply Z.div_lt_upper_bound; lia. }
  destruct (Z.odd c); [|done]. apply lxor_range; [lia|done|]. split; lia.
Qed.

(** The top bit of the shifted value tells whether the polynomial was added. *)
Lemma crc_bit_top c : in_u 32 c → Z.testbit (crc_bit c) 31 = Z.odd c.
Proof.
  intros [? ?]. unfold crc_bit.
  assert (Z.testbit (Z.shiftr c 1) 31 = false) as Hs.
  { rewrite Z.shiftr_spec by lia. destruct (decide (c = 0)%Z) as [->|]; [by rewrite Z.bits_0|].
    apply Z.bits_above_log2; [lia|]. enough (Z.log2 c < 32)%Z by lia. apply Z.log2_lt_pow2; lia. }
  destruct (Z.odd c); [|done]. by rewrite Z.lxor_spec, Hs.
Qed.

Lemma crc_bit_inj c c' : in_u 32 c → in_u 32 c' → crc_bit c = crc_bit c' → c = c'.
Proof.
  intros Hc Hc' He. assert (Z.odd c = Z.odd c') as Hodd by (by rewrite <- !crc_bit_top, He).
  assert (Z.shiftr c 1 = Z.shiftr c' 1) as Hs.
  { unfold crc_bit in He. rewrite <- Hodd in He. destruct (Z.odd c); [|done].
    apply (f_equal (λ z, Z.lxor z 3988292384)) in He. by rewrite !Z.lxor_assoc, Z.lxor_nilpotent, !Z.lxor_0_r in He. }
  rewrite <- !Z.div2_spec in Hs. rewrite (Z.div2_odd c), (Z.div2_odd c'). by rewrite Hs, Hodd.
Qed.

Lemma crc_iter_range k c : in_u 32 c → in_u 32 (Nat.iter k crc_bit c).
Proof. intros. induction k; [done|]. by apply crc_bit_range. Qed.

Lemma crc_iter_inj k c c' : in_u 32 c → in_u 32 c' → Nat.iter k crc_bit c = Nat.iter k crc_bit c' → c = c'.
Proof.
  intros Hc Hc'. induction k as [|k IH]; [done|]. intros He. apply IH.
  apply crc_bit_inj; [by apply crc_iter_range..|done].
Qed.

Lemma byte_word b : (0 ≤ b < 256)%Z → in_u 32 b.
Proof. unfold in_u. lia. Qed.

Lemma crc_byte_range c b : in_u 32 c → (0 ≤ b < 256)%Z → in_u 32 (crc_byte c b).
Proof. intros. apply crc_iter_range, lxor_range; [lia|done|by apply byte_word]. Qed.

Lemma crc_fold_range bs : ∀ c, in_u 32 c → byte_list bs → in_u 32 (foldl crc_byte c bs).
Proof.
  induction bs as [|b bs IH]; intros c Hc Hb; [done|]. apply Forall_cons in Hb as [Hb Hbs].
  apply IH; [by apply crc_byte_range|done].
Qed.

Lemma lxor_cancel_l a b c : Z.lxor a b = Z.lxor a c → b = c.
Proof.
  intros He. apply (f_equal (Z.lxor a)) in He.
  by rewrite <- !Z.lxor_assoc, Z.lxor_nilpotent, !Z.lxor_0_l in He.
Qed.

(** Equal bytes behind keep different states apart. *)
Lemma crc_fold_inj bs : ∀ c c', in_u 32 c → in_u 32 c' → byte_list bs →
  foldl crc_byte c bs = foldl crc_byte c' bs → c = c'.
Proof.
  induction bs as [|b bs IH]; intros c c' Hc Hc' Hb He; [done|]. apply Forall_cons in Hb as [Hb Hbs].
  cbn [foldl] in He. apply IH in He; [|by apply crc_byte_range..|done].
  apply crc_iter_inj in He; [|(apply lxor_range; [lia|done|by apply byte_word])..].
  rewrite !(Z.lxor_comm _ b) in He. by apply lxor_cancel_l in He.
Qed.

Lemma ChecksumIEEE_range bs : byte_list bs → in_u 32 (ChecksumIEEE bs).
Proof. intros. apply lxor_range; [lia|apply crc_fold_range; [split; lia|done]|split; lia]. Qed.

(** A change of one byte changes the checksum. *)
Lemma ChecksumIEEE_byte l1 a b l2 : byte_list (l1 ++ a :: l2) → (0 ≤ b < 256)%Z →
  ChecksumIEEE (l1 ++ a :: l2) = ChecksumIEEE (l1 ++ b :: l2) → a = b.
Proof.
  intros [H1 [Ha H2]%Forall_cons]%Forall_app Hb He. unfold ChecksumIEEE in He.
  rewrite !(Z.lxor_comm _ 4294967295) in He. apply lxor_cancel_l in He.
  rewrite !foldl_app in He. cbn [foldl] in He.
  assert (in_u 32 (foldl crc_byte 4294967295%Z l1)) as Hc by (apply crc_fold_range; [split; lia|done]).
  apply crc_fold_inj in He; [|by apply crc_byte_range..|done].
  apply crc_iter_inj in He; [|(apply lxor_range; [lia|done|by apply byte_word])..].
  by apply lxor_cancel_l in He.
Qed.

(** ** Lemmas on blocks *)

Lemma length_trailer data : length (trailer data) = 4.
Proof. apply length_le_bytes. Qed.

Lemma isZeroData_true data : isZeroData data = true ↔ Forall (λ b, b = 0%Z) data.
Proof.
  unfold isZeroData. induction data as [|b data IH]; cbn [forallb]; [by rewrite Forall_nil|].
  by rewrite andb_true_iff, bool_decide_eq_true, Forall_cons, IH.
Qed.

Lemma isZeroData_app l1 l2 : isZeroData (l1 ++ l2) = isZeroData l1 && isZeroData l2.
Proof. unfold isZeroData. apply forallb_app. Qed.

Lemma unmarshal_trailer data : byte_list data → unmarshalData (data ++ trailer data) = Ok data.
Proof.
  intros Hb. unfold unmarshalData. pose proof (length_trailer data) as Hl.
  rewrite decide_False by (rewrite length_app; lia).
  assert (length (data ++ trailer data) - 4 = length data) as -> by (rewrite length_app; lia).
  rewrite take_app_length, drop_app_length, isZeroData_app.
  destruct (isZeroData data && isZeroData (trailer data)) eqn:Hz; [done|].
  unfold trailer in *. destruct (isZeroData data) eqn:Hd.
  - by vm_compute in Hz.
  - rewrite le_val_le_bytes by (by apply ChecksumIEEE_range). by rewrite decide_False by auto.
Qed.

Lemma length_marshal payload block : length (marshalData payload block) = length payload `max` (length block - 4) + 4.
Proof.
  unfold marshalData. rewrite !length_app, length_replicate, length_trailer. case_decide; lia.
Qed.

Lemma merge_length bs off data buf : length buf = bs → 4 ≤ bs → off ≤ bs → length (merge bs off data buf) = bs.
Proof.
  intros Hl Hbs Hoff. unfold merge. rewrite length_marshal, length_take, length_go_copy by lia. lia.
Qed.

Lemma byte_list_go_copy dst at_ src : byte_list dst → byte_list src → byte_list (go_copy dst at_ src).
Proof.
  intros. unfold go_copy. apply Forall_app. split; [by apply Forall_take|].
  apply Forall_app. split; [by apply Forall_take|by apply Forall_drop].
Qed.

Lemma marshal_data payload block : ∃ data, marshalData payload block = data ++ trailer data ∧
  data = payload ++ replicate (length block - 4 - length payload) 0%Z.
Proof.
  eexists. split; [reflexivity|]. do 2 f_equal. case_decide; lia.
Qed.

Lemma byte_list_zeros n : byte_list (replicate n 0%Z).
Proof. apply Forall_replicate. lia. Qed.

Lemma valid_merge bs off data buf : byte_list buf → byte_list data → valid (merge bs off data buf) = true.
Proof.
  intros Hb Hd. unfold valid, merge. destruct (marshal_data (take (bs - 4) (go_copy buf off (take HandleSizeInBytes data)))
    (go_copy buf off (take HandleSizeInBytes data))) as (x & -> & ->).
  rewrite unmarshal_trailer; [done|]. apply Forall_app. split; [|apply byte_list_zeros].
  apply Forall_take, byte_list_go_copy; [done|by apply Forall_take].
Qed.

(** ** The theorems on blocks *)

(** A payload that fits comes back from its block, followed by the zeros that
    fill the block, and the block keeps its length. *)
Theorem block_roundtrip payload block :
  byte_list payload → length payload + 4 ≤ length block →
  length (marshalData payload block) = length block ∧
  unmarshalData (marshalData payload block) =
    Ok (payload ++ replicate (length block - 4 - length payload) 0%Z).
Proof.
  intros Hb Hl. split; [rewrite length_marshal; lia|].
  destruct (marshal_data payload block) as (data & -> & ->). apply unmarshal_trailer.
  apply Forall_app. split; [done|apply byte_list_zeros].
Qed.

Lemma le_val_inj l1 l2 : length l1 = length l2 → byte_list l1 → byte_list l2 → le_val l1 = le_val l2 → l1 = l2.
Proof.
  revert l2. induction l1 as [|a l1 IH]; intros [|b l2] Hl H1 H2 He; try done.
  apply Forall_cons in H1 as [Ha H1], H2 as [Hb H2]. cbn [le_val] in He.
  assert (a = b) as -> by lia. f_equal. apply IH; [by simplify_eq/=|done..|lia].
Qed.

Lemma valid_checksum block : isZeroData block = false → valid block = true →
  4 ≤ length block ∧ ChecksumIEEE (take (length block - 4) block) = le_val (drop (length block - 4) block).
Proof.
  unfold valid, unmarshalData. intros -> Hv. case_decide; [done|].
  destruct (decide (ChecksumIEEE _ ≠ _)) as [|Hc]; [done|]. split; [lia|]. by apply dec_stable in Hc.
Qed.

(** The checksum catches every change of a single byte, of the data or of the
    checksum itself, in a block that is not all zeros before nor after. *)
Theorem byte_change_detected l1 a b l2 :
  byte_list (l1 ++ a :: l2) → (0 ≤ b < 256)%Z → a ≠ b →
  isZeroData (l1 ++ a :: l2) = false → isZeroData (l1 ++ b :: l2) = false →
  valid (l1 ++ a :: l2) = true →
  unmarshalData (l1 ++ b :: l2) = Err ChecksumMismatch.
Proof.
  intros Hbytes Hb Hab Hz Hz' Hv. apply valid_checksum in Hv as [Hl Hc]; [|done].
  assert (Hlen : length (l1 ++ b :: l2) = length (l1 ++ a :: l2)) by (by rewrite !length_app).
  unfold unmarshalData. rewrite Hz', Hlen, decide_False by lia. set (m := length (l1 ++ a :: l2) - 4) in *.
  rewrite decide_True; [done|]. intros He. rewrite length_app in *. cbn [length] in *.
  destruct (decide (m ≤ length l1)).
  - rewrite !take_app_le, !drop_app_le in * by done. rewrite Hc in He.
    apply Forall_app in Hbytes as [H1 [Ha H2]%Forall_cons].
    apply le_val_inj in He.
    + by simplify_list_eq.
    + by rewrite !length_app.
    + apply Forall_app. split; [by apply Forall_drop|by apply Forall_cons].
    + apply Forall_app. split; [by apply Forall_drop|by apply Forall_cons].
  - rewrite !take_app_ge, !drop_app_ge in * by lia.
    destruct (m - length l1) as [|k] eqn:Ek; [lia|]. cbn [take drop] in *. rewrite <- Hc in He.
    apply Hab, (ChecksumIEEE_byte l1 _ _ (take k l2)); [|done|done].
    apply Forall_app in Hbytes as [? [? ?]%Forall_cons]. apply Forall_app. split; [done|].
    apply Forall_cons. split; [done|by apply Forall_take].
Qed.

(** ** Crashes *)

Lemma behaves_bind {A B} (m : prog A) (k : A → prog B) d o d' :
  behaves (m ≫= k) d o d' → ∃ o1 d1, behaves m d o1 d1 ∧
    match o1 with
    | Some (Ok x) => behaves (k x) d1 o d'
    | Some (Err e) => o = Some (Err e) ∧ d' = d1
    | None => o = None ∧ d' = d1
    end.
Proof.
  unfold mbind, prog_mbind. revert d.
  induction m as [[x|e]|a c IH|a data c IH|a c IH|a c IH|a data c IH|a c IH]; intros d; cbn [prog_bind]; intros H.
  { exists (Some (Ok x)), d. split; [constructor|done]. }
  { inversion H; subst; [exists (Some (Err e)), d'|exists None, d']; (split; [constructor|done]). }
  all: inversion H; subst; first
    [ exists None, d'; split; [apply bh_crash|by split]
    | match goal with Hb : behaves (prog_bind _ _) _ _ _ |- _ => apply IH in Hb as (o1 & d1 & Hm & Hk) end;
      exists o1, d1; split; [econstructor; eassumption|exact Hk] ].
Qed.

(** [old] with the bytes from [i] up to [n] taken from [new]. *)
Definition replaced (old new : list Z) (i n : nat) : list Z :=
  imap (λ j p, if decide (i ≤ j < n) then p.2 else p.1) (zip old new).

(** The checksum tells every partial write of [new] over [old] from a whole block. *)
Definition detected (old new : list Z) : Prop := ∀ i n,
  let img := replaced old new i n in img = old ∨ img = new ∨ valid img = false.

Lemma replaced_lookup old new i n j : length old = length new →
  replaced old new i n !! j = if decide (i ≤ j < n) then new !! j else old !! j.
Proof.
  intros Hl. unfold replaced. rewrite list_lookup_imap, lookup_zip_with.
  destruct (old !! j) as [x|] eqn:Eo, (new !! j) as [y|] eqn:En; cbn.
  - by case_decide.
  - apply lookup_lt_Some in Eo. apply lookup_ge_None in En. lia.
  - apply lookup_lt_Some in En. apply lookup_ge_None in Eo. lia.
  - by case_decide.
Qed.

Lemma torn_lookup old new img : length old = length new → torn old new img →
  ∃ n, ∀ j, img !! j = if decide (j < n) then new !! j else old !! j.
Proof.
  intros Hl [n ->]. exists n. intros j. case_decide.
  - destruct (decide (j < length new)).
    + by rewrite lookup_app_l, lookup_take_lt by (rewrite ?length_take; lia).
    + rewrite (lookup_ge_None_2 new) by lia. apply lookup_ge_None_2.
      rewrite length_app, length_take, length_drop. lia.
  - destruct (decide (n ≤ length new)).
    + rewrite lookup_app_r, lookup_drop by (rewrite length_take; lia).
      f_equal. rewrite length_take. lia.
    + rewrite (lookup_ge_None_2 old) by lia. apply lookup_ge_None_2.
      rewrite length_app, length_take, length_drop. lia.
Qed.

Lemma torn_update old new img : length old = length new → torn old new img →
  ∃ n, img = replaced old new 0 n.
Proof.
  intros Hl (n & Hn)%torn_lookup; [|done]. exists n. apply list_eq. intros j.
  rewrite Hn, replaced_lookup by done. repeat case_decide; (done || lia).
Qed.

Lemma length_replaced old new i n : length old = length new → length (replaced old new i n) = length old.
Proof. intros. unfold replaced. rewrite length_imap, length_zip_with. lia. Qed.

Lemma torn_restore old new i n img : length old = length new → torn (replaced old new i n) old img →
  ∃ i', i ≤ i' ∧ img = replaced old new i' n.
Proof.
  intros Hl (m & Hm)%torn_lookup; [|by rewrite length_replaced]. exists (i `max` m). split; [lia|].
  apply list_eq. intros j. rewrite Hm, !replaced_lookup by done. repeat case_decide; (done || lia).
Qed.

Lemma replaced_all old new i i' n : length old = length new → i ≤ i' →
  replaced old new i' n = new → replaced old new i n = new.
Proof.
  intros Hl Hi He. apply list_eq. intros j. rewrite replaced_lookup by done.
  pose proof (f_equal (lookup j) He) as Hj. cbn beta in Hj. rewrite replaced_lookup in Hj by done.
  repeat case_decide; (done || lia).
Qed.

Section crashes.
Context (bs : nat) (Hbs : 4 ≤ bs).
Implicit Types (d : disk) (a : addr) (v w : list Z).

Definition whole v : Prop := length v = bs ∧ byte_list v ∧ valid v = true.

(** The main file holds a cut off write over [v], and the backup holds [v]. *)
Definition backed_up d a v : Prop := ∃ w i n, length w = bs ∧ detected v w ∧
  dk_main d a = replaced v w i n ∧ valid (dk_main d a) = false ∧ dk_cow d !! a = Some v.

(** The block [a] of the disk stands for [v]. *)
Definition holds d a v : Prop := whole v ∧ (dk_main d a = v ∨ backed_up d a v).

Definition elsewhere a d d' : Prop := ∀ a', a' ≠ a →
  dk_main d' a' = dk_main d a' ∧ dk_cow d' !! a' = dk_cow d !! a'.

Lemma elsewhere_refl a d : elsewhere a d d.
Proof. done. Qed.
Lemma elsewhere_trans a d1 d2 d3 : elsewhere a d1 d2 → elsewhere a d2 d3 → elsewhere a d1 d3.
Proof.
  intros H1 H2 a' Ha. destruct (H1 a' Ha), (H2 a' Ha). split; congruence.
Qed.
Lemma elsewhere_main a b d : elsewhere a d (set_main a b d).
Proof. intros a' Ha. cbn. by rewrite decide_False. Qed.
Lemma elsewhere_cow a c d : elsewhere a d (set_cow a c d).
Proof. intros a' Ha. cbn. split; [done|]. by rewrite lookup_partial_alter_ne. Qed.

Lemma main_set a b d : dk_main (set_main a b d) a = b.
Proof. cbn. by rewrite decide_True. Qed.
Lemma cow_set a c d : dk_cow (set_cow a c d) !! a = c.
Proof. cbn. apply lookup_partial_alter_eq. Qed.

Ltac bstep := match goal with H : behaves _ _ _ _ |- _ => inversion H; subst; clear H; cbv beta in * end.

(** Removing the backup when the main block is whole. *)
Lemma run_remove d a v (k : result io_error () → prog (list Z)) o d' :
  holds d a v → dk_main d a = v → (∀ r, k r = mret v) → behaves (CowRemove a k) d o d' →
  holds d' a v ∧ elsewhere a d d' ∧ (∀ buf, o = Some (Ok buf) → buf = v ∧ dk_main d' a = v).
Proof.
  intros [Hw _] Hm Hk Hb. assert (Hh : ∀ d1, dk_main d1 a = v → holds d1 a v) by (split; auto).
  bstep; rewrite ?Hk in *.
  { split; [by apply Hh|]. split; [apply elsewhere_refl|]. by intros ? [=]. }
  all: unfold mret, prog_ret in *; bstep;
    (split; [by apply Hh|]; split; [first [apply elsewhere_cow|apply elsewhere_refl]|]; intros ? [=]; by subst).
Qed.

Lemma valid_whole_restore v w i n : whole v → length w = bs → go_copy (replaced v w i n) 0 v = v.
Proof.
  intros (Hl & _) Hw. apply list_eq. intros j.
  destruct (decide (j < bs)).
  - rewrite go_copy_lookup_in; rewrite ?length_replaced; try lia. f_equal. lia.
  - rewrite (lookup_ge_None_2 v) by lia. apply lookup_ge_None_2.
    rewrite length_go_copy, length_replaced; lia.
Qed.

(** Restoring the backup, with a restore that may itself be cut off. *)
Lemma run_restore d a v o d' : whole v → backed_up d a v →
  behaves (restoreFromCow true a (dk_main d a) v) d o d' →
  holds d' a v ∧ elsewhere a d d' ∧ (∀ buf, o = Some (Ok buf) → buf = v ∧ dk_main d' a = v).
Proof.
  intros Hv (w & i & n & Hw & Hdet & Hm & Hbad & Hcow) Hb. pose proof Hv as (Hl & _).
  unfold restoreFromCow in Hb. rewrite decide_False in Hb by lia. cbv zeta in Hb.
  rewrite Hm, (valid_whole_restore v w i n Hv Hw) in Hb. bstep.
  - split; [|split; [apply elsewhere_refl|by intros ? [=]]]. split; [done|]. right. by exists w, i, n.
  - assert (Hh : holds (set_main a v d) a v) by (split; [done|left; apply main_set]).
    unfold mret, prog_ret in *. bstep; (split; [done|]; split; [apply elsewhere_main|]); intros ? [=]; subst.
    split; [done|apply main_set].
  - assert (Hh : holds (set_main a img d) a v).
    { rewrite Hm in *. match goal with H : torn _ _ _ |- _ => apply torn_restore in H as (i' & Hi & ->); [|lia] end.
      split; [done|].
      destruct (Hdet i' n) as [E|[E|E]].
      - left. by rewrite E, main_set.
      - right. exists w, i', n. rewrite main_set. split; [done|]. split; [done|]. split; [done|].
        split; [|done]. rewrite E, <- (replaced_all v w i i' n ltac:(lia) Hi E). done.
      - right. exists w, i', n. split; [done|]. split; [done|]. split; [apply main_set|].
        split; [by rewrite main_set|done]. }
    bstep; (split; [done|]; split; [apply elsewhere_main|]); by intros ? [=].
Qed.

Lemma run_read d a v o d' : holds d a v → behaves (readAndRestoreBlock bs true a) d o d' →
  holds d' a v ∧ elsewhere a d d' ∧ (∀ buf, o = Some (Ok buf) → buf = v ∧ dk_main d' a = v).
Proof.
  intros Hh Hb. pose proof Hh as [Hw [Hm|Hbk]].
  - assert (Hkeep : holds d a v ∧ elsewhere a d d ∧ ∀ buf, None = Some (Ok buf : result fs_error _) → buf = v ∧ dk_main d a = v)
      by (split; [done|split; [apply elsewhere_refl|by intros ? [=]]]).
    pose proof Hw as (Hl & _ & Hv). unfold readAndRestoreBlock in Hb. bstep.
    + done.
    + rewrite decide_False, Hv in * by auto. by eapply run_remove.
    + bstep; split; (done || split; (apply elsewhere_refl || by intros ? [=])).
  - pose proof Hbk as (w & i & n & Hlw & Hdet & Hmain & Hbad & Hcow). pose proof Hw as (Hl & _ & Hv).
    assert (Hlm : length (dk_main d a) = bs) by (rewrite Hmain, length_replaced; lia).
    assert (Hsame : ∀ o, (∀ buf, o ≠ Some (Ok buf)) → holds d a v ∧ elsewhere a d d ∧
      ∀ buf, o = Some (Ok buf : result fs_error (list Z)) → buf = v ∧ dk_main d a = v).
    { intros o1 Ho. split; [done|]. split; [apply elsewhere_refl|]. intros buf E. by destruct (Ho buf). }
    unfold readAndRestoreBlock in Hb. bstep; [by apply Hsame| |bstep; by apply Hsame].
    rewrite decide_False, Hbad in * by auto.
    assert (Hb2 : behaves ('(cowData, shouldRestore) ← checkCow bs a;
      if (shouldRestore : bool) then restoreFromCow true a (dk_main d a) cowData else mret (dk_main d a)) d o d')
      by match goal with H : behaves _ _ _ _ |- _ => exact H end.
    match goal with H : behaves (CowExists _ _) _ _ _ |- _ => clear H end.
    apply behaves_bind in Hb2 as (o1 & d1 & Hc1 & Hc2).
    assert (Hc' : (d1 = d ∧ o1 = Some (Ok (v, true))) ∨ (d1 = d ∧ ∀ x, o1 ≠ Some (Ok x))).
    { unfold checkCow in Hc1. clear Hc2. bstep; [by right|]. rewrite bool_decide_true in * by eauto.
      bstep; [by right| |bstep; by right]. simplify_eq. rewrite decide_False, decide_False, Hv in * by lia.
      unfold mret, prog_ret in *. bstep; [by left|by right]. }
    destruct Hc' as [[-> ->]|[-> Ho]].
    + by eapply run_restore.
    + destruct o1 as [[x|e]|]; [by destruct (Ho x)|destruct Hc2 as [-> ->]; by apply Hsame..].
Qed.

Lemma byte_list_trailer data : byte_list (trailer data).
Proof. apply le_bytes_range. Qed.

Lemma whole_merge off data v : whole v → byte_list data → off ≤ bs → whole (merge bs off data v).
Proof.
  intros (Hl & Hb & _) Hd Hoff. split; [by apply merge_length|]. split; [|by apply valid_merge].
  unfold merge. destruct (marshal_data (take (bs - 4) (go_copy v off (take HandleSizeInBytes data)))
    (go_copy v off (take HandleSizeInBytes data))) as (x & -> & ->).
  apply Forall_app. split; [|apply byte_list_trailer]. apply Forall_app. split; [|apply byte_list_zeros].
  apply Forall_take, byte_list_go_copy; [done|by apply Forall_take].
Qed.

(** An equation that [subst] leaves alone. *)
Definition main_is d a v : Prop := dk_main d a = v.

(** The write itself, from a block that has just been read. *)
Lemma run_write_block d a v off data o d' : whole v → dk_main d a = v → byte_list data → off ≤ bs →
  detected v (merge bs off data v) →
  behaves (writeBlockRegionPayload bs a off data v) d o d' →
  elsewhere a d d' ∧ (holds d' a v ∨ holds d' a (merge bs off data v)) ∧
  (o = Some (Ok ()) → holds d' a (merge bs off data v)).
Proof.
  intros Hv Hm Hd Hoff Hdet Hb.
  pose proof (whole_merge off data v Hv Hd Hoff) as Hw.
  set (w := merge bs off data v) in *.
  assert (Hold : ∀ d1 c, dk_main d1 = dk_main d → holds (set_cow a c d1) a v).
  { intros d1 c E. split; [done|]. left. cbn. by rewrite E. }
  assert (Hnew : ∀ d1, dk_main d1 a = w → holds d1 a w) by (intros d1 E; split; [done|by left]).
  change (main_is d a v) in Hm. fold (main_is d a v) in *.
  unfold writeBlockRegionPayload, createCow in Hb. bstep.
  - split; [apply elsewhere_refl|]. split; [left; split; [done|by left]|by intros].
  - assert (Hel : ∀ b, elsewhere a d (set_main a b (set_cow a (Some v) d)))
      by (intros b; eapply elsewhere_trans; [apply elsewhere_cow|apply elsewhere_main]).
    assert (Hmain : ∀ c b, holds b a w → dk_main b a = w → holds (set_cow a c b) a w)
      by (intros c b _ E; split; [done|left; exact E]).
    pose proof (main_set a w (set_cow a (Some v) d)) as Hset. bstep.
    + split; [apply elsewhere_cow|]. split; [left; by apply Hold|done].
    + unfold deleteCow in *. bstep.
      * split; [apply Hel|]. split; [right; by apply Hnew|by intros].
      * assert (holds (set_cow a None (set_main a w (set_cow a (Some v) d))) a w) by (by apply Hmain; [apply Hnew|]).
        unfold mret, prog_ret in *. bstep; (split; [eapply elsewhere_trans; [apply Hel|apply elsewhere_cow]|]);
          (split; [by right|done]).
      * bstep; (split; [apply Hel|]); (split; [right; by apply Hnew|by intros]).
    + assert (holds (set_main a img (set_cow a (Some v) d)) a v ∨ holds (set_main a img (set_cow a (Some v) d)) a w).
      { match goal with H : torn _ _ _ |- _ => apply torn_update in H as (n & ->) end;
          [|cbn; unfold main_is in Hm; rewrite Hm; destruct Hv as (? & _), Hw as (? & _); fold w; congruence].
        cbn [dk_main set_cow] in *. unfold main_is in Hm. rewrite Hm. destruct (Hdet 0 n) as [E|[E|E]].
        - left. split; [done|]. left. by rewrite main_set.
        - right. apply Hnew. by rewrite main_set.
        - left. split; [done|]. right. exists w, 0, n. rewrite main_set. destruct Hw as (? & _).
          split; [done|]. split; [done|]. split; [done|]. split; [done|]. apply cow_set. }
      bstep; (split; [apply Hel|]); (split; [done|by intros]).
  - bstep; (split; [apply elsewhere_cow|]); (split; [left; by apply Hold|by intros]).
Qed.

(** A block that can be recovered is recovered: a read of the block, even one
    that fails or is cut off itself, leaves a block that still stands for the same
    bytes and touches no other block, and when it succeeds it returns exactly
    these bytes and the main file holds them. *)
Theorem recovery_exact d a v o d' : holds d a v → behaves (readAndRestoreBlock bs true a) d o d' →
  holds d' a v ∧ elsewhere a d d' ∧ (∀ buf, o = Some (Ok buf) → buf = v ∧ dk_main d' a = v).
Proof. apply run_read. Qed.

(** C24: an update is atomic under failures and crashes: wherever it stops, the
    block stands for the old bytes or for the bytes with the handle merged (so the
    next read recovers one of them), it stands for the latter when the update
    succeeds, and no other block is touched. *)
Theorem update_crash_safe d a v off data locked o d' :
  holds d a v → byte_list data → off ≤ bs → detected v (merge bs off data v) →
  behaves (updateFileBlockRegion bs true locked a off data) d o d' →
  elsewhere a d d' ∧
  (holds d' a v ∨ holds d' a (merge bs off data v)) ∧
  (o = Some (Ok ()) → holds d' a (merge bs off data v)).
Proof.
  intros Hh Hd Hoff Hdet Hb. unfold updateFileBlockRegion in Hb. destruct locked; cycle 1.
  { unfold err in Hb. bstep; (split; [apply elsewhere_refl|]); (split; [by left|by intros]). }
  apply behaves_bind in Hb as (o1 & d1 & H1 & H2).
  destruct (run_read d a v o1 d1 Hh H1) as (Hh1 & Hel & Hbuf).
  destruct o1 as [[buf|e]|].
  - destruct (Hbuf buf eq_refl) as [-> Hm].
    destruct (run_write_block d1 a v off data o d' (proj1 Hh1) Hm Hd Hoff Hdet H2) as (Hel2 & H3 & H4).
    split; [by eapply elsewhere_trans|done].
  - destruct H2 as [-> ->]. split; [done|]. split; [by left|by intros].
  - destruct H2 as [-> ->]. split; [done|]. split; [by left|by intros].
Qed.
End crashes.

(** ** Runs *)

(** The run in which every request succeeds. *)
Fixpoint run {A} (p : prog A) (d : disk) : result fs_error A * disk :=
  match p with
  | Done r => (r, d)
  | ReadAt a k => run (k (Ok (dk_main d a))) d
  | WriteAt a data k => run (k (Ok ())) (set_main a data d)
  | CowExists a k => run (k (bool_decide (is_Some (dk_cow d !! a)))) d
  | CowRead a k => run (k (match dk_cow d !! a with Some x => Ok x | None => Err IOError end)) d
  | CowWrite a data k => run (k (Ok ())) (set_cow a (Some data) d)
  | CowRemove a k => run (k (Ok ())) (set_cow a None d)
  end.

Lemma run_behaves {A} (p : prog A) d : behaves p d (Some (run p d).1) (run p d).2.
Proof.
  revert d. induction p as [r|a c IH|a data c IH|a c IH|a c IH|a data c IH|a c IH]; intros d; cbn [run].
  - apply bh_done.
  - by apply bh_read.
  - by apply bh_write.
  - by apply bh_exists.
  - destruct (dk_cow d !! a) as [x|] eqn:E; [by eapply bh_cow_read|by apply bh_cow_read_fails].
  - by apply bh_cow_write.
  - by apply bh_cow_remove.
Qed.

(** One request of a program. *)
Definition step1 {A} (p : prog A) (d : disk) : prog A * disk :=
  match p with
  | Done r => (Done r, d)
  | ReadAt a k => (k (Ok (dk_main d a)), d)
  | WriteAt a data k => (k (Ok ()), set_main a data d)
  | CowExists a k => (k (bool_decide (is_Some (dk_cow d !! a))), d)
  | CowRead a k => (k (match dk_cow d !! a with Some x => Ok x | None => Err IOError end), d)
  | CowWrite a data k => (k (Ok ()), set_cow a (Some data) d)
  | CowRemove a k => (k (Ok ()), set_cow a None d)
  end.

(** Two programs, and who moves next ([true] for the first). *)
Fixpoint interleave2 {A B} (moves : list bool) (p : prog A) (q : prog B) (d : disk)
    : prog A * prog B * disk :=
  match moves with
  | [] => (p, q, d)
  | true :: moves => let '(p, d) := step1 p d in interleave2 moves p q d
  | false :: moves => let '(q, d) := step1 q d in interleave2 moves p q d
  end.

(** ** Witnesses *)

Definition byte_listb (bs : list Z) : bool := forallb (λ b, (0 <=? b) && (b <? 256))%Z bs.

Lemma byte_listb_sound bs : byte_listb bs = true → byte_list bs.
Proof.
  unfold byte_listb, byte_list. induction bs as [|b bs IH]; cbn [forallb]; [done|].
  rewrite !andb_true_iff, Z.leb_le, Z.ltb_lt. intros [? ?]. constructor; [done|by apply IH].
Qed.

Definition detectedb (old new : list Z) : bool :=
  forallb (λ i, forallb (λ n,
    let img := replaced old new i n in
    bool_decide (img = old) || bool_decide (img = new) || negb (valid img))
    (seq 0 (S (length old)))) (seq 0 (S (length old))).

Lemma detectedb_sound old new : length old = length new → detectedb old new = true → detected old new.
Proof.
  intros Hl Hd i n. set (m := length old) in *.
  assert (He : replaced old new i n = replaced old new (i `min` m) (n `min` m)).
  { apply list_eq. intros j. rewrite !replaced_lookup by done.
    destruct (decide (j < m)); [repeat case_decide; (done || lia)|].
    rewrite (lookup_ge_None_2 old), (lookup_ge_None_2 new) by lia. by repeat case_decide. }
  cbv zeta. rewrite He. unfold detectedb in Hd. rewrite forallb_forall in Hd.
  specialize (Hd (i `min` m) ltac:(apply in_seq; lia)). rewrite forallb_forall in Hd.
  specialize (Hd (n `min` m) ltac:(apply in_seq; lia)). cbv zeta in Hd.
  rewrite !orb_true_iff, !bool_decide_eq_true, negb_true_iff in Hd. tauto.
Qed.

Definition ex_addr : addr := ("stores/books_r-1.reg", 0%Z).
Definition ex_handle (n : N) : Handle := mkHandle n (n + 1)%N (n + 2)%N true 3 4 false.

(** Small blocks: a logical ID and its checksum. *)
Definition ex_old : list Z := merge 20 0 (uuid_bytes 77) (replicate 20 0%Z).
Definition ex_new : list Z := merge 20 0 (uuid_bytes 90) ex_old.
Definition ex_disk : disk := mkDisk (λ _, ex_old) ∅.

Lemma ex_old_whole : whole 20 ex_old.
Proof. apply whole_merge; [lia| |apply uuid_bytes_range|lia]. split; [done|]. split; [apply byte_list_zeros|done]. Qed.

Lemma ex_detected : detected ex_old ex_new.
Proof. apply detectedb_sound; [done|]. vm_compute. reflexivity. Qed.

Lemma block_roundtrip_witness :
  unmarshalData (marshalData [7; 8]%Z (replicate 10 0%Z)) = Ok [7; 8; 0; 0; 0; 0]%Z.
Proof.
  destruct (block_roundtrip [7; 8]%Z (replicate 10 0%Z)) as [_ H].
  - by apply byte_listb_sound.
  - simpl. lia.
  - exact H.
Defined.

Lemma byte_change_detected_witness :
  unmarshalData (<[3%nat := 200%Z]> (marshalData [7; 8]%Z (replicate 10 0%Z))) = Err ChecksumMismatch.
Proof.
  apply (byte_change_detected [7; 8; 0]%Z 0%Z 200%Z (drop 4 (marshalData [7; 8]%Z (replicate 10 0%Z)))).
  - by apply byte_listb_sound.
  - lia.
  - lia.
  - reflexivity.
  - reflexivity.
  - reflexivity.
Defined.

(** A write that is cut off after the first seventeen bytes, seen by the next read. *)
Definition ex_cut : list Z := take 17 ex_new ++ drop 17 ex_old.
Definition ex_cut_disk : disk := set_main ex_addr ex_cut (set_cow ex_addr (Some ex_old) ex_disk).

Lemma recovery_exact_witness : valid ex_cut = false ∧ holds 20
  (run (readAndRestoreBlock 20 true ex_addr) ex_cut_disk).2 ex_addr ex_old.
Proof.
  split; [reflexivity|].
  refine (proj1 (recovery_exact 20 ltac:(lia) ex_cut_disk ex_addr ex_old _ _ _ (run_behaves _ _))).
  split; [exact ex_old_whole|]. right. exists ex_new, 0, 17.
  split; [reflexivity|]. split; [exact ex_detected|]. split; [reflexivity|]. split; reflexivity.
Defined.

Lemma update_crash_safe_witness : holds 20
  (run (updateFileBlockRegion 20 true true ex_addr 0 (uuid_bytes 90)) ex_disk).2 ex_addr ex_new.
Proof.
  refine (proj2 (proj2 (update_crash_safe 20 ltac:(lia) ex_disk ex_addr ex_old 0 (uuid_bytes 90) true _ _ _ _ _ _
    (run_behaves _ _))) _).
  - split; [exact ex_old_whole|by left].
  - apply uuid_bytes_range.
  - lia.
  - exact ex_detected.
  - vm_compute. reflexivity.
Defined.

(** ** Where the code differs from its intent *)

(** A block whose checksum fails and that has no backup is handed out as if it were
    good, and the next update of it gives the bad bytes a good checksum. *)
Definition ex_rotten : list Z := <[2 := 9%Z]> ex_old.

Example corrupt_block_accepted : valid ex_rotten = false ∧
  (run (readAndRestoreBlock 20 true ex_addr) (mkDisk (λ _, ex_rotten) ∅)).1 = Ok ex_rotten ∧
  let d := (run (updateFileBlockRegion 20 true true ex_addr 8 [1]%Z) (mkDisk (λ _, ex_rotten) ∅)).2 in
  valid (dk_main d ex_addr) = true ∧ dk_main d ex_addr !! 2 = Some 9%Z.
Proof. by vm_compute. Qed.

(** A reader takes no lock: it reads the old block, a writer makes its backup, the
    reader removes that backup as stale, and the write of the block is cut off.
    Neither the old nor the new bytes are left, and the next read returns neither. *)
Example reader_removes_backup :
  let '(_, w, d) := interleave2 [true; false; false; false; true]
      (readAndRestoreBlock 20 true ex_addr)
      (updateFileBlockRegion 20 true true ex_addr 0 (uuid_bytes 90)) ex_disk in
  ∃ k, w = WriteAt ex_addr ex_new k ∧
  let d := set_main ex_addr ex_cut d in
  valid (dk_main d ex_addr) = false ∧ dk_cow d !! ex_addr = None ∧
  (run (readAndRestoreBlock 20 true ex_addr) d).1 = Ok ex_cut.
Proof. vm_compute. eexists. split; [reflexivity|]. split_and!; reflexivity. Qed.
