(* ===== verification/Hashmap.v ===== *)
(** * fs/hashmap.go, fs/hashmap.fileregion.go and fs/registrymap.go: the registry
    as a hash map on disk

    A registry table is a list of segment files.  A handle lives in the block and,
    if it is free, in the slot that its logical ID hashes to; otherwise in another
    slot of the same block, or in the same block of a later segment.  Blocks are
    read and written here as [Sector] proves that they are: a successful read gives
    the bytes a block stands for, and a successful update the merged bytes.

    Files are opened when they are needed and kept open, which has no effect but
    the creation of a segment; a segment file that is there has its full size, and
    its blocks are zeros until they are written.  [locked] says whether the
    distributed locks of a call are obtained before its timeout. *)

From S2P Require Import Prelude Handle Sector.

Abbreviation segment := (gmap Z (list Z)) (only parsing).
Abbreviation files := (gmap string (list segment)) (only parsing).

Inductive reg_error :=
| ErrTooManySegments
| ErrNotFound (id : UUID)
| ErrPreallocate (filename : string)
| ErrUnmarshal
| ErrEmptyFilename
| ErrLockTimeout
| ErrSetDifferent (target source : UUID)
| ErrRemoveMissing
| ErrRemoveDifferent (target source : UUID).

Record fileRegionDetails := mkRegion {
  fr_segment : nat;
  fr_blockOffset : Z;
  fr_handleInBlockOffset : nat;
  fr_handle : Handle;
}.

Definition handlesPerBlock : nat := 66.
Definition MinimumModValue : Z := 250.
Definition maxSegments : nat := 1000.

Section hashmap.
(** [uuid.FromBytes], the block size of the direct I/O library, and the modulo
    value of the map. *)
Context (FromBytes : list Z → option UUID) (blockSize : nat) (hashModValue : Z).

(** [newHashmap] *)
Definition mod_value : Z := if decide (hashModValue ≤ 0)%Z then MinimumModValue else hashModValue.

Definition getBlockOffsetAndHandleInBlockOffset (id : UUID) : Z * nat :=
  let '(high, low) := Split id in
  ((high `mod` mod_value * Z.of_nat blockSize)%Z,
   Z.to_nat (low `mod` Z.of_nat handlesPerBlock) * HandleSizeInBytes).

Definition block_at (seg : gmap Z (list Z)) (offset : Z) : list Z :=
  default (replicate blockSize 0%Z) (seg !! offset).

(** One slot of the block: [Some] when the search ends there. *)
Definition check_slot (forWriting : bool) (id : UUID) (hbuf : list Z) : result reg_error (option Handle) :=
  if isZeroData hbuf then Ok (if forWriting then Some zero_handle else None)
  else
    match UnmarshalLogicalID FromBytes hbuf with
    | Err _ => Err ErrUnmarshal
    | Ok lid =>
        if decide (lid = id) then
          match Unmarshal FromBytes hbuf zero_handle with
          | (Ret _, h) => Ok (Some h)
          | _ => Err ErrUnmarshal
          end
        else Ok None
    end.

Definition slice (block : list Z) (off : nat) : list Z := take HandleSizeInBytes (drop off block).

(** The scan of the rest of the block, [n] turns from the offset [bao]. *)
Fixpoint scan_block (n bao : nat) (forWriting : bool) (id : UUID) (ideal : nat) (block : list Z)
    : result reg_error (option (nat * Handle)) :=
  match n with
  | O => Ok None
  | S n =>
      if decide (bao = ideal) then scan_block n (bao + HandleSizeInBytes) forWriting id ideal block
      else
        match check_slot forWriting id (slice block bao) with
        | Err e => Err e
        | Ok (Some h) => Ok (Some (bao, h))
        | Ok None => scan_block n (bao + HandleSizeInBytes) forWriting id ideal block
        end
  end.

Definition find_in_block (forWriting : bool) (id : UUID) (ideal : nat) (block : list Z)
    : result reg_error (option (nat * Handle)) :=
  match check_slot forWriting id (slice block ideal) with
  | Err e => Err e
  | Ok (Some h) => Ok (Some (ideal, h))
  | Ok None => scan_block handlesPerBlock 0 forWriting id ideal block
  end.

(** The loop over the segment files, from the [i]-th on; [None] for a segment that
    has to be created, which is [i]. *)
Fixpoint find_segment (i : nat) (forWriting : bool) (id : UUID) (rest : list (gmap Z (list Z)))
    : result reg_error (nat * option (nat * Handle)) :=
  if decide (maxSegments < i) then Err ErrTooManySegments
  else
    match rest with
    | [] => if forWriting then Ok (i, None) else Err (ErrNotFound id)
    | seg :: rest =>
        let '(blockOffset, ideal) := getBlockOffsetAndHandleInBlockOffset id in
        match find_in_block forWriting id ideal (block_at seg blockOffset) with
        | Err e => Err e
        | Ok (Some r) => Ok (i, Some r)
        | Ok None => find_segment (S i) forWriting id rest
        end
    end.

Definition F := M files reg_error.

Definition get_table (filename : string) : F (list (gmap Z (list Z))) :=
  gets (λ fs, default [] (fs !! filename)).
Definition lift {A} (r : result reg_error A) : F A :=
  match r with Ok x => mret x | Err e => fail e end.

(** [findOneFileRegion]; a new segment file is preallocated by [setupNewFile]. *)
Definition findOneFileRegion (locked forWriting : bool) (filename : string) (id : UUID)
    : F fileRegionDetails :=
  segs ← get_table filename;
  let '(blockOffset, ideal) := getBlockOffsetAndHandleInBlockOffset id in
  '(i, r) ← lift (find_segment 1 forWriting id segs);
  match r with
  | Some (off, h) => mret (mkRegion (i - 1) blockOffset off h)
  | None =>
      if locked then
        modify (insert filename (segs ++ [∅]));;
        mret (mkRegion (i - 1) blockOffset ideal zero_handle)
      else fail (ErrPreallocate filename)
  end.

(** [fetch]: ids that are not found are skipped. *)
Fixpoint fetch (filename : string) (ids : list UUID) : F (list Handle) :=
  match ids with
  | [] => mret []
  | id :: ids => λ fs,
      match findOneFileRegion true false filename id fs with
      | (Ret frd, fs) =>
          (hs ← fetch filename ids;
           mret (if IsEmpty (fr_handle frd) then hs else fr_handle frd :: hs)) fs
      | (Fail (ErrNotFound _), fs) => fetch filename ids fs
      | (Fail e, fs) => (Fail e, fs)
      | (Panic, fs) => (Panic, fs)
      end
  end.

Fixpoint findFileRegion (locked : bool) (filename : string) (ids : list UUID) : F (list fileRegionDetails) :=
  match ids with
  | [] => mret []
  | id :: ids =>
      frd ← findOneFileRegion locked true filename id;
      frds ← findFileRegion locked filename ids;
      mret (frd :: frds)
  end.

(** [updateFileBlockRegion] on the segment of a region. *)
Definition update_block (locked : bool) (filename : string) (frd : fileRegionDetails) (data : list Z) : F () :=
  if locked then
    segs ← get_table filename;
    seg ← or_panic (segs !! fr_segment frd);
    let block := merge blockSize (fr_handleInBlockOffset frd) data (block_at seg (fr_blockOffset frd)) in
    modify (insert filename (<[fr_segment frd := <[fr_blockOffset frd := block]> seg]> segs))
  else fail ErrLockTimeout.

Fixpoint updateFileRegion (locked : bool) (filename : string) (frds : list fileRegionDetails) : F () :=
  match frds with
  | [] => mret ()
  | frd :: frds =>
      update_block locked filename frd (Marshal (fr_handle frd) []);;
      updateFileRegion locked filename frds
  end.

Definition zeroSector : list Z := replicate HandleSizeInBytes 0%Z.

Fixpoint markDeleteFileRegion (locked : bool) (filename : string) (frds : list fileRegionDetails) : F () :=
  match frds with
  | [] => mret ()
  | frd :: frds =>
      update_block locked filename frd zeroSector;;
      markDeleteFileRegion locked filename frds
  end.

(** [findAndAdd]: while the region holds a handle already the loop waits, and ends
    with a timeout. *)
Definition findAndAdd (locked : bool) (filename : string) (handle : Handle) : F () :=
  if decide (filename = EmptyString) then fail ErrEmptyFilename
  else if locked then
    frd ← findOneFileRegion locked true filename (LogicalID handle);
    if IsEmpty (fr_handle frd) then update_block locked filename frd (Marshal handle [])
    else fail ErrLockTimeout
  else fail ErrLockTimeout.

(** ** registrymap.go *)

Fixpoint add_handles (locked : bool) (filename : string) (hs : list Handle) : F () :=
  match hs with
  | [] => mret ()
  | h :: hs => findAndAdd locked filename h;; add_handles locked filename hs
  end.

Fixpoint rm_add (locked : bool) (storesHandles : list (RegistryPayload Handle)) : F () :=
  match storesHandles with
  | [] => mret ()
  | item :: rest => add_handles locked (rp_RegistryTable item) (rp_IDs item);; rm_add locked rest
  end.

(** The regions with the handles that are to be written there. *)
Fixpoint replace_handles (frds : list fileRegionDetails) (hs : list Handle)
    : result reg_error (list fileRegionDetails) :=
  match frds, hs with
  | frd :: frds, h :: hs =>
      if negb (IsEmpty (fr_handle frd)) && bool_decide (LogicalID (fr_handle frd) ≠ LogicalID h)
      then Err (ErrSetDifferent (LogicalID (fr_handle frd)) (LogicalID h))
      else
        match replace_handles frds hs with
        | Ok r => Ok (mkRegion (fr_segment frd) (fr_blockOffset frd) (fr_handleInBlockOffset frd) h :: r)
        | Err e => Err e
        end
  | _, _ => Ok []
  end.

Definition set_handles (locked : bool) (filename : string) (hs : list Handle) : F () :=
  frds ← findFileRegion locked filename (map LogicalID hs);
  frds ← lift (replace_handles frds hs);
  updateFileRegion locked filename frds.

Fixpoint rm_set (locked : bool) (storesHandles : list (RegistryPayload Handle)) : F () :=
  match storesHandles with
  | [] => mret ()
  | item :: rest => set_handles locked (rp_RegistryTable item) (rp_IDs item);; rm_set locked rest
  end.

Fixpoint check_removals (frds : list fileRegionDetails) (ids : list UUID) : result reg_error () :=
  match frds, ids with
  | frd :: frds, id :: ids =>
      if IsEmpty (fr_handle frd) then Err ErrRemoveMissing
      else if decide (LogicalID (fr_handle frd) ≠ id)
           then Err (ErrRemoveDifferent (LogicalID (fr_handle frd)) id)
           else check_removals frds ids
  | _, _ => Ok ()
  end.

Definition remove_handles (locked : bool) (filename : string) (ids : list UUID) : F () :=
  frds ← findFileRegion locked filename ids;
  lift (check_removals frds ids);;
  markDeleteFileRegion locked filename frds.

Fixpoint rm_remove (locked : bool) (keys : list (RegistryPayload UUID)) : F () :=
  match keys with
  | [] => mret ()
  | key :: rest => remove_handles locked (rp_RegistryTable key) (rp_IDs key);; rm_remove locked rest
  end.

Fixpoint rm_fetch (keys : list (RegistryPayload UUID)) : F (list (string * list Handle)) :=
  match keys with
  | [] => mret []
  | key :: rest =>
      hs ← fetch (rp_RegistryTable key) (rp_IDs key);
      r ← rm_fetch rest;
      mret ((rp_RegistryTable key, hs) :: r)
  end.
End hashmap.
