(* ===== verification/HashmapSpec.v ===== *)
(** * The registry as a map: slots, probes and the lemmas on single writes

    A slot of a block is a handle or vacant; [block_shows] reads the bytes of a
    block as slots.  A search ends at the [first_hit] of the sequence of slots it
    visits: a handle with the ID, or, for writing, a vacant slot.  The block
    functions of Hashmap are run on blocks that show slots. *)

From S2P Require Import Prelude Handle Sector Hashmap.

Section spec.
Context (FromBytes : list Z → option UUID) (blockSize : nat) (hashModValue : Z).
Hypothesis HFB : FromBytes_documented FromBytes.
Hypothesis Hbs : handlesPerBlock * HandleSizeInBytes + 4 ≤ blockSize.

Local Abbreviation slots := (nat → Z → nat → option Handle).
Implicit Types (A : slots) (segs : list (gmap Z (list Z))) (h : Handle) (id : UUID) (m : gmap UUID Handle).

(** ** Slots *)

Definition storable h : Prop := handle_wf h ∧ LogicalID h ≠ NilUUID.

Definition enc (o : option Handle) : list Z :=
  match o with None => zeroSector | Some h => encode h end.

Definition fits (o : option Handle) : Prop := ∀ h, o = Some h → storable h.

Lemma length_encode h : length (encode h) = HandleSizeInBytes.
Proof. unfold encode. rewrite !length_app, !length_uuid_bytes, !length_le_bytes. done. Qed.

Lemma length_enc o : length (enc o) = HandleSizeInBytes.
Proof. destruct o; [apply length_encode|done]. Qed.

Lemma byte_list_enc o : byte_list (enc o).
Proof.
  destruct o as [h|]; [|apply byte_list_zeros]. unfold enc, encode.
  assert (Hb : ∀ b, byte_list [byte_of_bool b]) by (intros []; repeat constructor; simpl; lia).
  repeat (apply Forall_app; split); first [apply uuid_bytes_range|apply le_bytes_range|apply Hb].
Qed.

Lemma zero_uuid id : uuid_wf id → isZeroData (uuid_bytes id) = true → id = NilUUID.
Proof.
  intros Hid Hz%isZeroData_true. rewrite <- (uuid_of_bytes_of id Hid). unfold uuid_of_bytes.
  assert (Hv : ∀ bs, Forall (λ b, b = 0%Z) bs → le_val bs = 0%Z).
  { induction 1 as [|b bs -> _ IH]; [done|]. cbn [le_val]. lia. }
  rewrite Hv; [done|]. by apply Forall_reverse.
Qed.

Lemma isZeroData_encode h : storable h → isZeroData (encode h) = false.
Proof.
  intros [(Hid & _) Hne]. unfold encode. rewrite isZeroData_app.
  destruct (isZeroData (uuid_bytes (LogicalID h))) eqn:E; [|done]. by apply zero_uuid in E.
Qed.

Lemma UnmarshalLogicalID_encode h : storable h → UnmarshalLogicalID FromBytes (encode h) = Ok (LogicalID h).
Proof.
  intros [(Hid & _) _]. unfold UnmarshalLogicalID, encode.
  rewrite take_app_le, take_ge by (rewrite length_uuid_bytes; lia).
  rewrite HFB, decide_True by apply length_uuid_bytes. by rewrite uuid_of_bytes_of.
Qed.

Lemma Unmarshal_encode h : storable h → Unmarshal FromBytes (encode h) zero_handle = (Ret (), h).
Proof.
  intros [Hwf _]. unfold Unmarshal. rewrite <- (app_nil_r (encode h)), decode_encode by done.
  cbn [d_target]. f_equal. by destruct h.
Qed.

(** Where a search ends, and with which handle. *)
Definition hit (forWriting : bool) id (o : option Handle) : option Handle :=
  match o with
  | None => if forWriting then Some zero_handle else None
  | Some h => if decide (LogicalID h = id) then Some h else None
  end.

Lemma check_slot_enc w id o : fits o → check_slot FromBytes w id (enc o) = Ok (hit w id o).
Proof.
  intros Hf. unfold check_slot. destruct o as [h|]; cbn [enc hit].
  - specialize (Hf h eq_refl). rewrite isZeroData_encode, UnmarshalLogicalID_encode by done.
    case_decide; [|done]. by rewrite Unmarshal_encode.
  - done.
Qed.

(** ** Probe sequences *)

Fixpoint first_hit {P} (w : bool) id (g : P → option Handle) (ps : list P) : option (P * Handle) :=
  match ps with
  | [] => None
  | p :: ps => match hit w id (g p) with Some h => Some (p, h) | None => first_hit w id g ps end
  end.

Lemma first_hit_app {P} w id (g : P → option Handle) ps1 ps2 :
  first_hit w id g (ps1 ++ ps2) =
    match first_hit w id g ps1 with Some r => Some r | None => first_hit w id g ps2 end.
Proof. induction ps1 as [|p ps1 IH]; cbn [first_hit app]; [done|]. destruct (hit w id (g p)); [done|apply IH]. Qed.

Lemma first_hit_in {P} w id (g : P → option Handle) ps p h : first_hit w id g ps = Some (p, h) →
  p ∈ ps ∧ hit w id (g p) = Some h.
Proof.
  induction ps as [|q ps IH]; cbn [first_hit]; [done|]. destruct (hit w id (g q)) eqn:E.
  - intros [= -> ->]. split; [left|done].
  - intros [? ?]%IH. split; [by right|done].
Qed.

Lemma first_hit_None {P} w id (g : P → option Handle) ps :
  first_hit w id g ps = None ↔ ∀ p, p ∈ ps → hit w id (g p) = None.
Proof.
  induction ps as [|q ps IH]; cbn [first_hit]; [split; [intros _ p Hp; by apply not_elem_of_nil in Hp|done]|].
  destruct (hit w id (g q)) eqn:E.
  - split; [done|]. intros H. rewrite H in E by left. done.
  - rewrite IH. split; [|intros H p Hp; apply H; by right].
    intros H p [->|Hp]%elem_of_cons; [done|by apply H].
Qed.

(** A change at [p] that is no hit leaves the hits elsewhere. *)
Lemma first_hit_update {P} `{EqDecision P} w id (g g' : P → option Handle) ps p q h :
  first_hit w id g ps = Some (q, h) → q ≠ p → hit w id (g' p) = None →
  (∀ x, x ≠ p → g' x = g x) → first_hit w id g' ps = Some (q, h).
Proof.
  intros Hq Hne Hp Hg. induction ps as [|x ps IH]; cbn [first_hit] in *; [done|].
  destruct (decide (x = p)) as [->|Hx].
  - rewrite Hp. destruct (hit w id (g p)); [by simplify_eq|by apply IH].
  - rewrite (Hg x Hx). destruct (hit w id (g x)); [done|by apply IH].
Qed.

(** A read finds the only match. *)
Lemma first_hit_read {P} id (g : P → option Handle) ps p h : p ∈ ps → g p = Some h → LogicalID h = id →
  (∀ q h', q ∈ ps → g q = Some h' → LogicalID h' = id → q = p) → first_hit false id g ps = Some (p, h).
Proof.
  intros Hp Hg Hh Hu. destruct (first_hit false id g ps) as [[q h']|] eqn:E.
  - apply first_hit_in in E as [Hq Hhit]. unfold hit in Hhit. destruct (g q) as [h2|] eqn:Eg; [|done].
    case_decide as Hid; [|done]. simplify_eq. assert (q = p) as -> by (by eapply Hu). congruence.
  - apply (proj1 (first_hit_None _ _ _ _) E) in Hp. unfold hit in Hp. rewrite Hg, decide_True in Hp by done. done.
Qed.

(** ** Blocks *)

Definition block_shows (block : list Z) (f : nat → option Handle) : Prop :=
  length block = blockSize ∧ byte_list block ∧
  ∀ k, k < handlesPerBlock → slice block (k * HandleSizeInBytes) = enc (f k) ∧ fits (f k).

Lemma block_shows_ext block f g : block_shows block f → (∀ k, k < handlesPerBlock → g k = f k) → block_shows block g.
Proof. intros (Hl & Hb & Hs) He. split; [done|]. split; [done|]. intros k Hk. rewrite He by done. by apply Hs. Qed.

(** The slots in the order in which a search visits them. *)
Definition order (ideal : nat) : list nat :=
  ideal :: filter (λ k, k ≠ ideal) (seq 0 handlesPerBlock).

Lemma scan_block_spec w id ideal block f : block_shows block f → ∀ n k, k + n = handlesPerBlock →
  scan_block FromBytes n (k * HandleSizeInBytes) w id (ideal * HandleSizeInBytes) block =
    Ok ((λ '(k, h), (k * HandleSizeInBytes, h)) <$> first_hit w id f (filter (λ k, k ≠ ideal) (seq k n))).
Proof.
  intros (_ & _ & Hs). induction n as [|n IH]; intros k Hk; [done|]. cbn [scan_block seq].
  replace (k * HandleSizeInBytes + HandleSizeInBytes) with (S k * HandleSizeInBytes) by lia.
  rewrite filter_cons. destruct (decide (k = ideal)) as [->|Hne].
  - rewrite (decide_True (P := ideal * _ = _)), decide_False by auto. apply IH. lia.
  - rewrite (decide_False (P := k * _ = _)), decide_True by (unfold HandleSizeInBytes; lia || done).
    destruct (Hs k ltac:(lia)) as [-> Hf]. rewrite check_slot_enc by done. cbn [first_hit].
    destruct (hit w id (f k)); [done|]. apply IH. lia.
Qed.

Lemma find_in_block_spec w id ideal block f : block_shows block f → ideal < handlesPerBlock →
  find_in_block FromBytes w id (ideal * HandleSizeInBytes) block =
    Ok ((λ '(k, h), (k * HandleSizeInBytes, h)) <$> first_hit w id f (order ideal)).
Proof.
  intros Hb Hi. unfold find_in_block, order. pose proof Hb as (_ & _ & Hs).
  destruct (Hs ideal Hi) as [-> Hf]. rewrite check_slot_enc by done. cbn [first_hit].
  destruct (hit w id (f ideal)); [done|]. by apply (scan_block_spec w id ideal block f Hb handlesPerBlock 0).
Qed.

Lemma order_elem ideal k : ideal < handlesPerBlock → k ∈ order ideal ↔ k < handlesPerBlock.
Proof.
  clear Hbs HFB.
  intros Hi. unfold order. rewrite elem_of_cons, list_elem_of_filter, elem_of_seq.
  destruct (decide (k = ideal)); [naive_solver lia|naive_solver lia].
Qed.

(** One slot of a block is written. *)
Lemma merge_shows block f k o : block_shows block f → k < handlesPerBlock → fits o →
  block_shows (merge blockSize (k * HandleSizeInBytes) (enc o) block) (λ k', if decide (k' = k) then o else f k').
Proof.
  intros (Hl & Hb & Hs) Hk Ho. unfold HandleSizeInBytes, handlesPerBlock in *.
  pose proof (length_enc o) as Hlo. unfold HandleSizeInBytes in Hlo.
  split; [apply merge_length; lia|]. split.
  { unfold merge. destruct (marshal_data (take (blockSize - 4) (go_copy block (k * 62) (take HandleSizeInBytes (enc o))))
      (go_copy block (k * 62) (take HandleSizeInBytes (enc o)))) as (x & -> & ->).
    apply Forall_app. split; [|apply byte_list_trailer]. apply Forall_app. split; [|apply byte_list_zeros].
    apply Forall_take, byte_list_go_copy; [done|]. apply Forall_take, byte_list_enc. }
  intros k' Hk'. destruct (Hs k' Hk') as [Hs' Hf'].
  unfold handlesPerBlock, HandleSizeInBytes in *.
  assert (Hlook : ∀ j, j < blockSize - 4 → merge blockSize (k * 62) (enc o) block !! j =
    go_copy block (k * 62) (enc o) !! j).
  { intros j Hj. unfold merge. rewrite (take_ge (enc o)) by (unfold HandleSizeInBytes; lia).
    destruct (marshal_data (take (blockSize - 4) (go_copy block (k * 62) (enc o))) (go_copy block (k * 62) (enc o)))
      as (x & -> & ->).
    rewrite <- app_assoc, lookup_app_l by (rewrite length_take, length_go_copy; lia).
    by rewrite lookup_take_lt. }
  assert (Hsl : slice (merge blockSize (k * 62) (enc o) block) (k' * 62) =
    slice (go_copy block (k * 62) (enc o)) (k' * 62)).
  { apply list_eq. intros j. unfold slice, HandleSizeInBytes. rewrite !lookup_take.
    case_decide; [|done]. rewrite !lookup_drop. apply Hlook. lia. }
  rewrite Hsl. case_decide as Heq; [subst k'|].
  - split; [|done]. apply list_eq. intros j. unfold slice, HandleSizeInBytes. rewrite lookup_take.
    case_decide; [|by rewrite lookup_ge_None_2 by lia].
    rewrite lookup_drop, go_copy_lookup_in by lia. f_equal. lia.
  - split; [|done]. rewrite <- Hs'. apply list_eq. intros j. unfold slice, HandleSizeInBytes. rewrite !lookup_take.
    case_decide; [|done]. rewrite !lookup_drop.
    destruct (decide (k' < k)); [apply go_copy_lookup_lt; lia|apply go_copy_lookup_ge; lia].
Qed.

Lemma zero_block_shows : block_shows (replicate blockSize 0%Z) (λ _, None).
Proof.
  split; [by rewrite length_replicate|]. split; [apply byte_list_zeros|]. intros k Hk. split; [|done].
  unfold slice, enc, zeroSector. rewrite drop_replicate, take_replicate. f_equal.
  unfold handlesPerBlock, HandleSizeInBytes in *. lia.
Qed.
End spec.
