(* ===== verification/HashmapMap.v ===== *)
(** * The registry as a map: tables

    [holds] says that the segment files of a table show the slots [A] and that the
    slots hold the map [m]; [reachable], that nothing is vacant in front of the
    handle of an ID, so that a search for writing ends at it. *)

From stdpp Require Import gmap.
From S2P Require Import Prelude Handle Sector Hashmap HashmapSpec.

Section table.
Context (FromBytes : list Z → option UUID) (blockSize : nat) (hashModValue : Z).
Hypothesis HFB : FromBytes_documented FromBytes.
Hypothesis Hbs : handlesPerBlock * HandleSizeInBytes + 4 ≤ blockSize.

Local Abbreviation slots := (nat → Z → nat → option Handle).
Implicit Types (A : slots) (segs : list (gmap Z (list Z))) (h : Handle) (id : UUID) (m : gmap UUID Handle) (fs : files).

Definition block_of id : Z := (getBlockOffsetAndHandleInBlockOffset blockSize hashModValue id).1.
Definition ideal_of id : nat := Z.to_nat ((Split id).2 `mod` Z.of_nat handlesPerBlock).

Lemma ideal_of_lt id : ideal_of id < handlesPerBlock.
Proof.
  unfold ideal_of. pose proof (Z.mod_pos_bound (Split id).2 (Z.of_nat handlesPerBlock)).
  unfold handlesPerBlock in *. lia.
Qed.

Lemma location id :
  getBlockOffsetAndHandleInBlockOffset blockSize hashModValue id = (block_of id, ideal_of id * HandleSizeInBytes).
Proof.
  unfold block_of, ideal_of, getBlockOffsetAndHandleInBlockOffset. by destruct (Split id).
Qed.

(** The slots of the block of an ID, segment by segment. *)
Definition in_block A id : nat * nat → option Handle := λ '(s, k), A s (block_of id) k.
Definition probe id (from n : nat) : list (nat * nat) :=
  seq from n ≫= λ s, pair s <$> order (ideal_of id).

Lemma probe_cons id i n : probe id i (S n) = (pair i <$> order (ideal_of id)) ++ probe id (S i) n.
Proof. done. Qed.

Lemma probe_app id i n1 n2 : probe id i (n1 + n2) = probe id i n1 ++ probe id (i + n1) n2.
Proof. unfold probe. by rewrite seq_app, bind_app. Qed.

Lemma probe_elem id n s k : (s, k) ∈ probe id 0 n ↔ s < n ∧ k < handlesPerBlock.
Proof.
  unfold probe. rewrite list_elem_of_bind. split.
  - intros (s' & (k' & [= -> ->] & Hk)%list_elem_of_fmap & Hs%elem_of_seq).
    apply order_elem in Hk; [|apply ideal_of_lt]. lia.
  - intros [Hs Hk]. exists s. split; [|apply elem_of_seq; lia].
    apply list_elem_of_fmap. exists k. split; [done|]. apply order_elem; [apply ideal_of_lt|done].
Qed.

Definition shows segs A : Prop :=
  (∀ s seg off, segs !! s = Some seg → block_shows blockSize (block_at blockSize seg off) (A s off)) ∧
  (∀ s off k h, A s off k = Some h → s < length segs ∧ k < handlesPerBlock).

Definition represents A m : Prop :=
  (∀ id h, m !! id = Some h ↔ ∃ s k, A s (block_of id) k = Some h ∧ LogicalID h = id) ∧
  (∀ id p q h h', in_block A id p = Some h → in_block A id q = Some h' →
    LogicalID h = id → LogicalID h' = id → p = q).

Definition holds segs A m : Prop := shows segs A ∧ represents A m ∧ length segs < maxSegments.

Definition reachable segs A id : Prop :=
  ∃ p h, in_block A id p = Some h ∧ LogicalID h = id ∧
    first_hit true id (in_block A id) (probe id 0 (length segs)) = Some (p, h).

(** ** Searches *)

Lemma first_hit_fmap {P Q} w id (f : P → Q) (g : Q → option Handle) ps :
  first_hit w id g (f <$> ps) = (λ '(p, h), (f p, h)) <$> first_hit w id (λ p, g (f p)) ps.
Proof. induction ps as [|p ps IH]; cbn; [done|]. destruct (hit w id (g (f p))); [done|apply IH]. Qed.

Lemma find_segment_spec w id segs A : shows segs A → length segs < maxSegments →
  ∀ rest i, drop i segs = rest → i ≤ length segs →
  find_segment FromBytes blockSize hashModValue (S i) w id rest =
    match first_hit w id (in_block A id) (probe id i (length rest)) with
    | Some ((s, k), h) => Ok (S s, Some (k * HandleSizeInBytes, h))
    | None => if w then Ok (S (length segs), None) else Err (ErrNotFound id)
    end.
Proof.
  intros [Hs _] Hmax rest. induction rest as [|seg rest IH]; intros i Hd Hi; cbn [find_segment].
  - rewrite decide_False by lia. cbn. apply (f_equal length) in Hd. rewrite length_drop in Hd. cbn in Hd.
    destruct w; [|done]. by replace i with (length segs) by lia.
  - rewrite decide_False by lia. rewrite location.
    assert (segs !! i = Some seg) as Hseg by (rewrite <- (Nat.add_0_r i), <- lookup_drop, Hd; done).
    rewrite (find_in_block_spec FromBytes blockSize HFB Hbs w id (ideal_of id) _ (A i (block_of id)))
      by (apply ideal_of_lt || by apply Hs).
    cbn [length]. rewrite probe_cons, first_hit_app, first_hit_fmap.
    change (λ p, in_block A id (i, p)) with (A i (block_of id)).
    destruct (first_hit w id (A i (block_of id)) (order (ideal_of id))) as [[k h]|]; [done|]. cbn.
    apply IH; [|apply lookup_lt_Some in Hseg; lia].
    replace (S i) with (i + 1) by lia. by rewrite <- drop_drop, Hd.
Qed.

Lemma run_get_table filename fs (k : list (gmap Z (list Z)) → F fileRegionDetails) segs :
  default [] (fs !! filename) = segs → (get_table filename ≫= k) fs = k segs fs.
Proof. intros <-. done. Qed.

Lemma run_lift {X Y : Type} (x : X) (k : X → F Y) fs : (lift (Ok x) ≫= k) fs = k x fs.
Proof. done. Qed.

Ltac lifted_ := unfold lift, modify, mbind, M_bind, mret, M_ret; cbv beta iota; rewrite ?Nat.sub_succ, ?Nat.sub_0_r.
Ltac lifted := lifted_; done.

(** A search that reads finds what the map has. *)
Lemma run_find_read fs filename segs A m locked id : default [] (fs !! filename) = segs → holds segs A m →
  match m !! id with
  | Some h => ∃ s k, A s (block_of id) k = Some h ∧
      findOneFileRegion FromBytes blockSize hashModValue locked false filename id fs =
        (Ret (mkRegion s (block_of id) (k * HandleSizeInBytes) h), fs)
  | None => findOneFileRegion FromBytes blockSize hashModValue locked false filename id fs = (Fail (ErrNotFound id), fs)
  end.
Proof.
  intros Hfs (Hs & [Hm Hu] & Hn). pose proof Hs as [_ Hin].
  unfold findOneFileRegion. rewrite (run_get_table _ _ _ _ Hfs), location, (find_segment_spec false id segs A Hs Hn segs 0 eq_refl) by lia.
  destruct (m !! id) as [h|] eqn:Em.
  - apply Hm in Em as (s & k & Ha & Hid). exists s, k. split; [done|].
    rewrite (first_hit_read id (in_block A id) _ (s, k) h); [| |done|done|].
    + lifted.
    + apply probe_elem. by eapply Hin.
    + intros q h' _ Hq Hh'. by eapply Hu.
  - rewrite (proj2 (first_hit_None _ _ _ _)); [lifted|]. intros [s k] _. unfold in_block.
    destruct (A s (block_of id) k) as [h|] eqn:Ea; [|done]. cbn [hit]. case_decide as Hid; [|done].
    assert (m !! id = Some h) by (apply Hm; by exists s, k). congruence.
Qed.

(** A new segment shows no handles. *)
Lemma shows_new segs A : shows segs A → shows (segs ++ [∅]) A.
Proof.
  intros [Hs Hin]. split.
  - intros s seg off [Hseg|[Hge Hseg]]%lookup_app_Some; [by apply Hs|].
    apply list_lookup_singleton_Some in Hseg as [Hz <-]. unfold block_at. rewrite lookup_empty. cbn.
    destruct (zero_block_shows blockSize Hbs) as (Hl & Hb & Hz'). split; [done|]. split; [done|].
    intros k Hk. destruct (A s off k) as [h|] eqn:Ea; [apply Hin in Ea; lia|]. by apply Hz'.
  - intros s off k h Ha. rewrite length_app. cbn. apply Hin in Ha. lia.
Qed.

Lemma first_hit_eq {P} w id (g : P → option Handle) p ps h : hit w id (g p) = Some h →
  first_hit w id g (p :: ps) = Some (p, h).
Proof. intros H. cbn [first_hit]. by rewrite H. Qed.

Lemma first_hit_vacant A id n s : A s (block_of id) (ideal_of id) = None →
  first_hit true id (in_block A id) (probe id s (S n)) = Some ((s, ideal_of id), zero_handle).
Proof.
  intros Ha. rewrite probe_cons, first_hit_app, first_hit_fmap. unfold order.
  erewrite (first_hit_eq _ _ _ (ideal_of id)); [reflexivity|]. unfold in_block. by rewrite Ha.
Qed.

(** A search that writes ends at a slot of the table, which may have grown. *)
Lemma run_find_write fs filename segs A m id : default [] (fs !! filename) = segs → holds segs A m →
  S (length segs) < maxSegments →
  ∃ segs' s k h, holds segs' A m ∧ length segs ≤ length segs' ≤ S (length segs) ∧ s < length segs' ∧ k < handlesPerBlock ∧
    first_hit true id (in_block A id) (probe id 0 (length segs')) = Some ((s, k), h) ∧
    findOneFileRegion FromBytes blockSize hashModValue true true filename id fs =
      (Ret (mkRegion s (block_of id) (k * HandleSizeInBytes) h), <[filename := segs']> fs).
Proof.
  intros Hfs (Hs & Hm & Hn) Hmax.
  unfold findOneFileRegion. rewrite (run_get_table _ _ _ _ Hfs), location, (find_segment_spec true id segs A Hs Hn segs 0 eq_refl) by lia.
  destruct (first_hit true id (in_block A id) (probe id 0 (length segs))) as [[[s k] h]|] eqn:E.
  - exists segs, s, k, h. apply first_hit_in in E as Hin. destruct Hin as [[Hs' Hk]%probe_elem _].
    split; [done|]. split; [lia|]. do 3 (split; [done|]). lifted_. rewrite insert_id; [done|].
    destruct (fs !! filename) as [x|]; cbn in Hfs; [by subst|]. subst segs. cbn in Hs'. lia.
  - exists (segs ++ [∅]), (length segs), (ideal_of id), zero_handle.
    split; [split; [by apply shows_new|split; [done|rewrite length_app; cbn; lia]]|].
    rewrite length_app. cbn [length]. split; [lia|]. split; [lia|]. split; [apply ideal_of_lt|]. split.
    + rewrite probe_app, first_hit_app, E. apply first_hit_vacant.
      apply eq_None_not_Some. intros [h Ha]. apply (proj2 Hs) in Ha. lia.
    + lifted.
Qed.

(** For a reachable ID it ends at its handle. *)
Lemma run_find_reachable locked fs filename segs A m id h : default [] (fs !! filename) = segs → holds segs A m →
  reachable segs A id → m !! id = Some h →
  ∃ s k, A s (block_of id) k = Some h ∧
    findOneFileRegion FromBytes blockSize hashModValue locked true filename id fs =
      (Ret (mkRegion s (block_of id) (k * HandleSizeInBytes) h), fs).
Proof.
  intros Hfs (Hs & [Hm Hu] & Hn) ([s k] & h' & Ha & Hid & E) Hh.
  unfold findOneFileRegion. rewrite (run_get_table _ _ _ _ Hfs), location, (find_segment_spec true id segs A Hs Hn segs 0 eq_refl) by lia.
  rewrite E. exists s, k. assert (m !! id = Some h') by (apply Hm; by exists s, k). simplify_eq.
  split; [done|]. lifted.
Qed.
(** ** Writes *)

Definition write_slot A s off k (o : option Handle) : slots := λ s' off' k',
  if decide (s' = s ∧ off' = off ∧ k' = k) then o else A s' off' k'.

Lemma write_slot_in A s off k o : write_slot A s off k o s off k = o.
Proof. unfold write_slot. by rewrite decide_True. Qed.

Lemma write_slot_other A s off k o s' off' k' : (s', off', k') ≠ (s, off, k) →
  write_slot A s off k o s' off' k' = A s' off' k'.
Proof. intros Hne. unfold write_slot. rewrite decide_False; [done|]. by intros (-> & -> & ->). Qed.

Lemma run_update_block fs filename segs A s off k h0 o : default [] (fs !! filename) = segs → shows segs A →
  s < length segs → k < handlesPerBlock → fits o →
  ∃ segs', update_block blockSize true filename (mkRegion s off (k * HandleSizeInBytes) h0) (enc o) fs =
      (Ret (), <[filename := segs']> fs) ∧
    length segs' = length segs ∧ shows segs' (write_slot A s off k o).
Proof.
  intros Hfs [Hs Hin] Hlen Hk Ho. destruct (lookup_lt_is_Some_2 segs s Hlen) as [seg Hseg].
  eexists. split.
  { unfold update_block, get_table, gets, mbind, M_bind. rewrite Hfs. cbn [fr_segment]. rewrite Hseg. reflexivity. }
  rewrite length_insert. split; [done|]. cbn [fr_segment fr_blockOffset fr_handleInBlockOffset]. split.
  - intros s' seg' off' Hseg'. destruct (decide (s' = s)) as [->|Hne].
    + rewrite list_lookup_insert_eq in Hseg' by done. injection Hseg' as <-.
      unfold block_at at 1. destruct (decide (off' = off)) as [->|Hno].
      * rewrite lookup_insert_eq. cbn [default from_option id].
        pose proof (merge_shows blockSize Hbs _ _ k o (Hs s seg off Hseg) Hk Ho) as Hm.
        eapply block_shows_ext; [exact Hm|]. intros k' _. cbn. unfold write_slot.
        destruct (decide (k' = k)) as [->|]; [by rewrite decide_True|rewrite decide_False; [done|by intros (_ & _ & ?)]].
      * rewrite lookup_insert_ne by done. eapply block_shows_ext; [by apply (Hs s seg off')|].
        intros k' _. by rewrite write_slot_other by congruence.
    + rewrite list_lookup_insert_ne in Hseg' by done. eapply block_shows_ext; [by apply (Hs s' seg' off')|].
      intros k' _. by rewrite write_slot_other by congruence.
  - intros s' off' k' h. rewrite length_insert. unfold write_slot. case_decide as E; [|apply Hin].
    destruct E as (-> & -> & ->). done.
Qed.

(** What the slots represent after a write. *)
Lemma represents_put A m id s k h : represents A m → LogicalID h = id →
  (∀ h0, A s (block_of id) k = Some h0 → LogicalID h0 = id) →
  (m !! id = None ∨ ∃ h0, A s (block_of id) k = Some h0) →
  represents (write_slot A s (block_of id) k (Some h)) (<[id := h]> m).
Proof.
  intros [Hm Hu] Hid Hold Hfree.
  assert (Hother : ∀ s' k' h', A s' (block_of id) k' = Some h' → LogicalID h' = id → (s', k') = (s, k)).
  { intros s' k' h' Ha Hh'. destruct Hfree as [Hn|[h0 Ha0]].
    - assert (m !! id = Some h') by (apply Hm; by exists s', k'). congruence.
    - apply (Hu id (s', k') (s, k) h' h0); [done|done|done|by apply Hold]. }
  split.
  - intros id' h'. destruct (decide (id' = id)) as [->|Hne].
    + rewrite lookup_insert_eq. split.
      * intros [= <-]. exists s, k. by rewrite write_slot_in.
      * intros (s' & k' & Ha & Hh'). destruct (decide ((s', k') = (s, k))) as [[= -> ->]|Hp].
        { rewrite write_slot_in in Ha. by simplify_eq. }
        rewrite write_slot_other in Ha by congruence. by apply Hother in Ha.
    + rewrite lookup_insert_ne by done. rewrite Hm. split; intros (s' & k' & Ha & Hh'); exists s', k'; (split; [|done]).
      * rewrite write_slot_other; [done|]. intros [= -> Hb ->]. rewrite Hb in Ha. apply Hold in Ha. congruence.
      * destruct (decide ((s', block_of id', k') = (s, block_of id, k))) as [[= -> Hb ->]|Hp].
        { rewrite Hb, write_slot_in in Ha. congruence. }
        by rewrite write_slot_other in Ha by done.
  - intros id' [s1 k1] [s2 k2] h1 h2. cbn. intros H1 H2 Hid1 Hid2.
    destruct (decide (id' = id)) as [->|Hne].
    + assert (∀ s' k' h', write_slot A s (block_of id) k (Some h) s' (block_of id) k' = Some h' → LogicalID h' = id → (s', k') = (s, k)) as Hp.
      { intros s' k' h' Ha Hh'. destruct (decide ((s', k') = (s, k))) as [|Hp]; [done|].
        rewrite write_slot_other in Ha by congruence. by eapply Hother. }
      apply Hp in H1, H2; congruence.
    + assert (∀ s' k' h', write_slot A s (block_of id) k (Some h) s' (block_of id') k' = Some h' → LogicalID h' = id' →
        A s' (block_of id') k' = Some h') as Hp.
      { intros s' k' h' Ha Hh'. destruct (decide ((s', block_of id', k') = (s, block_of id, k))) as [[= -> Hb ->]|Hp].
        - rewrite Hb, write_slot_in in Ha. congruence.
        - by rewrite write_slot_other in Ha by done. }
      apply Hp in H1, H2; [|done..]. by apply (Hu id' (s1, k1) (s2, k2) h1 h2).
Qed.

Lemma represents_clear A m id s k h : represents A m → A s (block_of id) k = Some h → LogicalID h = id →
  represents (write_slot A s (block_of id) k None) (delete id m).
Proof.
  intros [Hm Hu] Ha Hid.
  assert (Hback : ∀ id' s' k' h', write_slot A s (block_of id) k None s' (block_of id') k' = Some h' →
    (s', block_of id', k') ≠ (s, block_of id, k) ∧ A s' (block_of id') k' = Some h').
  { intros id' s' k' h'. unfold write_slot. case_decide as E; [done|]. intros ?. split; [|done]. intros [= -> Hb ->]. by apply E. }
  split.
  - intros id' h'. rewrite lookup_delete_Some, Hm. split.
    + intros (Hne & s' & k' & Ha' & Hh'). exists s', k'. split; [|done].
      rewrite write_slot_other; [done|]. intros [= -> Hb ->]. rewrite Hb in Ha'. congruence.
    + intros (s' & k' & [Hp Ha']%Hback & Hh'). split; [|by exists s', k'].
      intros <-.
      enough ((s', k') = (s, k)) by congruence. by apply (Hu id (s', k') (s, k) h' h).
  - intros id' [s1 k1] [s2 k2] h1 h2 [_ H1]%Hback [_ H2]%Hback. by apply (Hu id' (s1, k1) (s2, k2)).
Qed.
(** ** What stays within reach of a search that writes *)

Lemma first_hit_at {P} w id (g g' : P → option Handle) ps p h0 h : first_hit w id g ps = Some (p, h0) →
  hit w id (g' p) = Some h → (∀ x, x ≠ p → g' x = g x) → EqDecision P → first_hit w id g' ps = Some (p, h).
Proof.
  intros Hp Hh Hg Heq. induction ps as [|x ps IH]; cbn [first_hit] in *; [done|].
  destruct (decide (x = p)) as [->|Hx]; [by rewrite Hh|].
  rewrite (Hg x Hx). destruct (hit w id (g x)); [by simplify_eq|by apply IH].
Qed.

Lemma first_hit_ext {P} w id (g g' : P → option Handle) ps : (∀ x, g' x = g x) →
  first_hit w id g' ps = first_hit w id g ps.
Proof. intros Hg. induction ps as [|x ps IH]; cbn [first_hit]; [done|]. by rewrite Hg, IH. Qed.

Lemma reachable_grow segs segs' A id : length segs ≤ length segs' → reachable segs A id → reachable segs' A id.
Proof.
  intros Hl (p & h & Ha & Hid & E). exists p, h. split; [done|]. split; [done|].
  replace (length segs') with (length segs + (length segs' - length segs)) by lia.
  by rewrite probe_app, first_hit_app, E.
Qed.

Lemma reachable_elsewhere segs A id s k o id' : block_of id' ≠ block_of id → reachable segs A id' →
  reachable segs (write_slot A s (block_of id) k o) id'.
Proof.
  intros Hb (p & h & Ha & Hid & E).
  assert (He : ∀ x, in_block (write_slot A s (block_of id) k o) id' x = in_block A id' x).
  { intros [s' k']. cbn [in_block]. by rewrite write_slot_other by congruence. }
  exists p, h. rewrite He, (first_hit_ext _ _ (in_block A id')) by done. done.
Qed.

Lemma reachable_put segs A id s k h id' : LogicalID h = id →
  (∀ h0, A s (block_of id) k = Some h0 → LogicalID h0 = id) → id' ≠ id →
  reachable segs A id' → reachable segs (write_slot A s (block_of id) k (Some h)) id'.
Proof.
  intros Hid Hold Hne Hr. destruct (decide (block_of id' = block_of id)) as [Hb|]; [|by apply reachable_elsewhere].
  destruct Hr as ([s' k'] & h' & Ha & Hid' & E). cbn [in_block] in Ha. rewrite Hb in Ha.
  assert (Hp : (s', k') ≠ (s, k)) by (intros [= -> ->]; apply Hold in Ha; congruence).
  exists (s', k'), h'. split; [|split; [done|]].
  - cbn [in_block]. by rewrite Hb, write_slot_other by congruence.
  - apply (first_hit_update true id' (in_block A id') _ _ (s, k)); [done..| |].
    + cbn [in_block]. rewrite Hb, write_slot_in. cbn [hit]. rewrite decide_False by congruence. done.
    + intros [s2 k2] Hx. cbn [in_block]. rewrite write_slot_other; [done|]. intros [= -> _ ->]. done.
Qed.

Lemma reachable_self segs A id s k h0 h : LogicalID h = id →
  first_hit true id (in_block A id) (probe id 0 (length segs)) = Some ((s, k), h0) →
  reachable segs (write_slot A s (block_of id) k (Some h)) id.
Proof.
  intros Hid E. exists (s, k), h. cbn [in_block]. rewrite write_slot_in. split; [done|]. split; [done|].
  eapply first_hit_at; [exact E| | |apply _].
  - cbn [in_block]. rewrite write_slot_in. cbn [hit]. by rewrite decide_True.
  - intros [s2 k2] Hx. cbn [in_block]. rewrite write_slot_other; [done|]. intros [= -> ->]. done.
Qed.

(** A table that holds [m], with the IDs [R] within reach. *)
Definition table segs m (R : gset UUID) : Prop :=
  ∃ A, holds segs A m ∧ ∀ id, id ∈ R → reachable segs A id.

Lemma table_empty : table [] ∅ ∅.
Proof.
  clear HFB Hbs. exists (λ _ _ _, None). split; [|by intros id ?%not_elem_of_empty].
  split; [by split|]. split; [|unfold maxSegments; cbn; lia]. split; [|by intros id [] [] h h'].
  intros id h. rewrite lookup_empty. split; [done|]. by intros (s & k & ? & _).
Qed.

Lemma holds_storable segs A m id h : holds segs A m → m !! id = Some h → storable h ∧ LogicalID h = id.
Proof.
  intros ([Hs Hin] & [Hm _] & _) (s & k & Ha & Hid)%Hm. split; [|done].
  apply Hin in Ha as Hlt. destruct Hlt as [Hlt Hk].
  destruct (lookup_lt_is_Some_2 segs s Hlt) as [seg Hseg].
  destruct (Hs s seg (block_of id) Hseg) as (_ & _ & Hb). by apply (proj2 (Hb k Hk)).
Qed.

Lemma storable_not_empty h : storable h → IsEmpty h = false.
Proof.
  intros [_ Hn]. unfold IsEmpty. rewrite bool_decide_eq_false_2 by done. done.
Qed.

Lemma findAndAdd_eq fs fs' filename h frd : filename ≠ EmptyString →
  findOneFileRegion FromBytes blockSize hashModValue true true filename (LogicalID h) fs = (Ret frd, fs') →
  findAndAdd FromBytes blockSize hashModValue true filename h fs =
    (if IsEmpty (fr_handle frd) then update_block blockSize true filename frd (Marshal h []) else fail ErrLockTimeout) fs'.
Proof. intros Hne Hrun. unfold findAndAdd. rewrite decide_False by done. by run Hrun. Qed.

(** [findAndAdd] of an ID the map does not have. *)
Lemma run_findAndAdd fs filename segs m R h : default [] (fs !! filename) = segs → table segs m R →
  filename ≠ EmptyString → storable h → m !! LogicalID h = None → S (length segs) < maxSegments →
  ∃ segs', findAndAdd FromBytes blockSize hashModValue true filename h fs = (Ret (), <[filename := segs']> fs) ∧
    table segs' (<[LogicalID h := h]> m) ({[LogicalID h]} ∪ R) ∧ length segs' ≤ S (length segs).
Proof.
  intros Hfs (A & Hh & HR) Hne Hst Hnew Hmax. set (id := LogicalID h) in *.
  destruct (run_find_write fs filename segs A m id Hfs Hh Hmax)
    as (segs1 & s & k & h0 & Hh1 & [Hl0 Hl1] & Hs & Hk & E & Hrun).
  apply first_hit_in in E as Hin. destruct Hin as [_ Hhit]. cbn [in_block] in Hhit.
  assert (A s (block_of id) k = None ∧ h0 = zero_handle) as [Ha ->].
  { unfold hit in Hhit. destruct (A s (block_of id) k) as [h1|] eqn:Ea; [|by simplify_eq].
    case_decide as Hid; [|done]. assert (m !! id = Some h1) by (apply (proj1 (proj1 (proj2 Hh1))); by exists s, k). congruence. }
  destruct Hh1 as (Hsh & Hm & Hn).
  destruct (run_update_block (<[filename := segs1]> fs) filename segs1 A s (block_of id) k zero_handle (Some h))
    as (segs2 & Hup & Hl2 & Hsh2); [by rewrite lookup_insert_eq|done..|by intros ? [= <-]|].
  exists segs2. split; [|split; [|lia]].
  - rewrite (findAndAdd_eq _ _ _ _ _ Hne Hrun). etransitivity; [exact Hup|]. by rewrite insert_insert_eq.
  - exists (write_slot A s (block_of id) k (Some h)). split.
    + split; [done|]. split; [|lia]. apply represents_put; [done|done|by rewrite Ha|by left].
    + intros id' Hid'. apply (reachable_grow segs1); [lia|]. destruct (decide (id' = id)) as [->|].
      { by eapply reachable_self. }
      apply reachable_put; [done|by rewrite Ha|done|]. apply (reachable_grow segs); [done|]. apply HR.
      by apply elem_of_union in Hid' as [?%elem_of_singleton|?].
Qed.

(** An ID within reach is not added a second time. *)
Lemma run_findAndAdd_present fs filename segs m R h : default [] (fs !! filename) = segs → table segs m R →
  filename ≠ EmptyString → LogicalID h ∈ R → is_Some (m !! LogicalID h) →
  findAndAdd FromBytes blockSize hashModValue true filename h fs = (Fail ErrLockTimeout, fs).
Proof.
  intros Hfs (A & Hh & HR) Hne Hin [h0 Hm].
  destruct (run_find_reachable true fs filename segs A m _ h0 Hfs Hh (HR _ Hin) Hm) as (s & k & Ha & Hrun).
  apply (holds_storable _ _ _ _ _ Hh) in Hm as [Hst _].
  rewrite (findAndAdd_eq _ _ _ _ _ Hne Hrun). cbn [fr_handle]. by rewrite storable_not_empty.
Qed.

Lemma run_fetch filename segs A m : ∀ ids fs, default [] (fs !! filename) = segs → holds segs A m →
  fetch FromBytes blockSize hashModValue filename ids fs = (Ret (omap (m !!.) ids), fs).
Proof.
  intros ids. induction ids as [|id ids IH]; intros fs Hfs Hh; [done|]. cbn [fetch].
  pose proof (run_find_read fs filename segs A m true id Hfs Hh) as Hr. cbn [omap list_omap].
  destruct (m !! id) as [h|] eqn:Em; [|rewrite Hr; by apply IH].
  destruct Hr as (s & k & _ & ->). apply (holds_storable _ _ _ _ _ Hh) in Em as [Hst _].
  run (IH fs Hfs Hh). cbn [fr_handle]. by rewrite storable_not_empty.
Qed.

(** ** Batches of handles that are in the table *)

(** The region of each ID: its slot and the handle [f] says is there. *)
Definition regions_of A (frds : list fileRegionDetails) (ids : list UUID) : Prop :=
  Forall2 (λ frd id, ∃ s k h, frd = mkRegion s (block_of id) (k * HandleSizeInBytes) (fr_handle frd) ∧
    A s (block_of id) k = Some h ∧ LogicalID h = id) frds ids.

Lemma run_findFileRegion locked fs filename segs A m ids : default [] (fs !! filename) = segs → holds segs A m →
  Forall (λ id, is_Some (m !! id) ∧ reachable segs A id) ids →
  ∃ frds, findFileRegion FromBytes blockSize hashModValue locked filename ids fs = (Ret frds, fs) ∧
    regions_of A frds ids ∧ Forall2 (λ frd id, storable (fr_handle frd) ∧ LogicalID (fr_handle frd) = id) frds ids.
Proof.
  intros Hfs Hh. induction 1 as [|id ids [[h Hm] Hr] _ (frds & Hrun & Hreg & Hst)]; cbn [findFileRegion].
  - exists []. by repeat constructor.
  - destruct (run_find_reachable locked fs filename segs A m id h Hfs Hh Hr Hm) as (s & k & Ha & Hrun').
    apply (holds_storable _ _ _ _ _ Hh) in Hm as [Hs Hid].
    eexists. split; [run Hrun'; run Hrun; reflexivity|]. split; constructor; [|done|done|done]. by exists s, k, h.
Qed.

(** The regions of other IDs are not touched by a write at the slot of [id]. *)
Lemma regions_of_write A frds ids id s k h o : regions_of A frds ids → id ∉ ids →
  A s (block_of id) k = Some h → LogicalID h = id → regions_of (write_slot A s (block_of id) k o) frds ids.
Proof.
  intros Hreg Hnin Ha Hid. unfold regions_of in *. apply Forall2_same_length_lookup in Hreg as [Hl Hreg].
  apply Forall2_same_length_lookup. split; [done|]. intros i frd id' Hi Hi'.
  destruct (Hreg i frd id' Hi Hi') as (s' & k' & h' & He & Ha' & Hid'). exists s', k', h'. split; [done|]. split; [|done].
  rewrite write_slot_other; [done|]. intros [= -> Hb ->]. rewrite Hb in Ha'. simplify_eq.
  apply Hnin. by apply list_elem_of_lookup_2 in Hi'.
Qed.

Definition put_all (hs : list Handle) m : gmap UUID Handle := foldl (λ m h, <[LogicalID h := h]> m) m hs.
Definition delete_all (ids : list UUID) m : gmap UUID Handle := foldl (λ m id, delete id m) m ids.

Lemma updateFileRegion_cons filename frd frds fs fs' segs :
  update_block blockSize true filename frd (Marshal (fr_handle frd) []) fs = (Ret (), <[filename := segs]> fs) →
  fs' = <[filename := segs]> fs →
  updateFileRegion blockSize true filename (frd :: frds) fs = updateFileRegion blockSize true filename frds fs'.
Proof. intros Hup ->. cbn [updateFileRegion]. by run Hup. Qed.

Lemma run_updateFileRegion filename hs : ∀ frds fs segs A m, default [] (fs !! filename) = segs → holds segs A m →
  NoDup (LogicalID <$> hs) → Forall storable hs → regions_of A frds (LogicalID <$> hs) → fr_handle <$> frds = hs →
  hs ≠ [] → ∃ segs' A', updateFileRegion blockSize true filename frds fs = (Ret (), <[filename := segs']> fs) ∧
    holds segs' A' (put_all hs m) ∧ length segs' = length segs ∧ ∀ id, reachable segs A id → reachable segs' A' id.
Proof.
  induction hs as [|h hs IH]; intros frds fs segs A m Hfs Hh Hnd Hst Hreg Heq Hne; [done|].
  rewrite fmap_cons in Hreg, Hnd.
  apply Forall2_cons_inv_r in Hreg as (frd & frds' & (s & k & h0 & Hf & Ha & Hid) & Hreg & ->).
  apply NoDup_cons in Hnd as [Hnin Hnd]. apply Forall_cons in Hst as [Hs Hst].
  rewrite fmap_cons in Heq. injection Heq as Hfh Hrest. rewrite Hfh in Hf.
  destruct Hh as (Hsh & Hm & Hn). apply (proj2 Hsh) in Ha as Hlt. destruct Hlt as [Hlt Hk].
  destruct (run_update_block fs filename segs A s (block_of (LogicalID h)) k h (Some h))
    as (segs1 & Hup & Hl1 & Hsh1); [done..|by intros ? [= <-]|].
  set (A1 := write_slot A s (block_of (LogicalID h)) k (Some h)) in *.
  assert (Hh1 : holds segs1 A1 (<[LogicalID h := h]> m)).
  { split; [done|]. split; [|lia]. apply represents_put; [done|done|by rewrite Ha; intros ? [= <-]|right; by exists h0]. }
  assert (Hr1 : ∀ id, reachable segs A id → reachable segs1 A1 id).
  { intros id Hr. apply (reachable_grow segs); [lia|]. destruct (decide (id = LogicalID h)) as [->|].
    - destruct Hr as ([s' k'] & h' & Ha' & Hid' & E). eapply reachable_self; [done|].
      assert ((s', k') = (s, k)) as [= -> ->] by (by apply (proj2 Hm (LogicalID h) (s', k') (s, k) h' h0)). exact E.
    - apply reachable_put; [done|by rewrite Ha; intros ? [= <-]|done|done]. }
  rewrite (updateFileRegion_cons _ _ _ _ (<[filename := segs1]> fs) segs1); [|rewrite Hfh, Hf; exact Hup|reflexivity].
  destruct hs as [|h1 hs].
  - destruct frds'; [|done]. by exists segs1, A1.
  - destruct (IH frds' (<[filename := segs1]> fs) segs1 A1 (<[LogicalID h := h]> m))
      as (segs2 & A2 & Hrun & Hh2 & Hl2 & Hr2); [by rewrite lookup_insert_eq|done|done|done|by eapply regions_of_write|exact Hrest|done|].
    exists segs2, A2. rewrite Hrun, insert_insert_eq. split; [done|]. split; [done|]. split; [lia|]. auto.
Qed.
Lemma markDeleteFileRegion_cons filename frd frds fs fs' segs :
  update_block blockSize true filename frd zeroSector fs = (Ret (), <[filename := segs]> fs) →
  fs' = <[filename := segs]> fs →
  markDeleteFileRegion blockSize true filename (frd :: frds) fs = markDeleteFileRegion blockSize true filename frds fs'.
Proof. intros Hup ->. cbn [markDeleteFileRegion]. by run Hup. Qed.

Lemma run_markDeleteFileRegion filename ids : ∀ frds fs segs A m, default [] (fs !! filename) = segs →
  holds segs A m → NoDup ids → regions_of A frds ids → ids ≠ [] →
  ∃ segs' A', markDeleteFileRegion blockSize true filename frds fs = (Ret (), <[filename := segs']> fs) ∧
    holds segs' A' (delete_all ids m) ∧ length segs' = length segs ∧
    ∀ id, Forall (λ id', block_of id ≠ block_of id') ids → reachable segs A id → reachable segs' A' id.
Proof.
  induction ids as [|id ids IH]; intros frds fs segs A m Hfs Hh Hnd Hreg Hne; [done|].
  apply Forall2_cons_inv_r in Hreg as (frd & frds' & (s & k & h & Hf & Ha & Hid) & Hreg & ->).
  apply NoDup_cons in Hnd as [Hnin Hnd].
  destruct Hh as (Hsh & Hm & Hn). apply (proj2 Hsh) in Ha as Hlt. destruct Hlt as [Hlt Hk].
  destruct (run_update_block fs filename segs A s (block_of id) k (fr_handle frd) None)
    as (segs1 & Hup & Hl1 & Hsh1); [done..|].
  set (A1 := write_slot A s (block_of id) k None) in *.
  assert (Hh1 : holds segs1 A1 (delete id m)).
  { split; [done|]. split; [|lia]. by eapply represents_clear. }
  assert (Hr1 : ∀ id', block_of id' ≠ block_of id → reachable segs A id' → reachable segs1 A1 id').
  { intros id' Hb Hr. apply (reachable_grow segs); [lia|]. by apply reachable_elsewhere. }
  rewrite (markDeleteFileRegion_cons _ _ _ _ (<[filename := segs1]> fs) segs1); [|rewrite Hf; exact Hup|reflexivity].
  destruct ids as [|id1 ids].
  - destruct frds'; [|by inversion Hreg]. exists segs1, A1. split; [done|]. split; [done|]. split; [done|].
    intros id' [Hb _]%Forall_cons. by apply Hr1.
  - destruct (IH frds' (<[filename := segs1]> fs) segs1 A1 (delete id m))
      as (segs2 & A2 & Hrun & Hh2 & Hl2 & Hr2); [by rewrite lookup_insert_eq|done|done|by eapply regions_of_write|done|].
    exists segs2, A2. rewrite Hrun, insert_insert_eq. split; [done|]. split; [done|]. split; [lia|].
    intros id' [Hb Hbs']%Forall_cons Hr. by apply Hr2, Hr1.
Qed.

Lemma replace_handles_Ok A hs : ∀ frds, regions_of A frds (LogicalID <$> hs) →
  Forall2 (λ frd id, storable (fr_handle frd) ∧ LogicalID (fr_handle frd) = id) frds (LogicalID <$> hs) →
  ∃ frds', replace_handles frds hs = Ok frds' ∧ regions_of A frds' (LogicalID <$> hs) ∧ fr_handle <$> frds' = hs.
Proof.
  induction hs as [|h hs IH]; intros frds Hreg Hst.
  - apply Forall2_nil_inv_r in Hreg as ->. exists []. split; [done|]. split; [constructor|done].
  - rewrite fmap_cons in *. apply Forall2_cons_inv_r in Hreg as (frd & frds' & (s & k & h0 & Hf & Ha & Hid) & Hreg & ->).
    apply Forall2_cons in Hst as [[Hs Hl] Hst]. destruct (IH frds' Hreg Hst) as (r & Hr & Hreg' & Hh).
    cbn [replace_handles]. rewrite (bool_decide_eq_false_2 (_ ≠ _)), andb_false_r by (rewrite Hl; auto). rewrite Hr.
    eexists. split; [reflexivity|]. split; [|by rewrite fmap_cons, Hh].
    constructor; [|done]. exists s, k, h0. cbn [fr_handle]. by rewrite Hf.
Qed.

Lemma check_removals_Ok frds ids :
  Forall2 (λ frd id, storable (fr_handle frd) ∧ LogicalID (fr_handle frd) = id) frds ids →
  check_removals frds ids = Ok ().
Proof.
  induction 1 as [|frd id frds ids [Hs Hl] _ IH]; [done|]. cbn [check_removals].
  rewrite storable_not_empty by done. by rewrite decide_False by auto.
Qed.

(** ** The table of a file *)

Definition stored fs filename m (R : gset UUID) : Prop := table (default [] (fs !! filename)) m R.
Definition untouched filename fs fs' : Prop := ∀ f, f ≠ filename → fs' !! f = fs !! f.

Lemma untouched_insert filename segs fs : untouched filename fs (<[filename := segs]> fs).
Proof. intros f Hf. by rewrite lookup_insert_ne. Qed.

Lemma stored_insert filename segs fs m R : table segs m R → stored (<[filename := segs]> fs) filename m R.
Proof. unfold stored. by rewrite lookup_insert_eq. Qed.

Lemma batch_reachable segs A m (R : gset UUID) ids : (∀ id, id ∈ R → reachable segs A id) →
  Forall (λ id, id ∈ R ∧ is_Some (m !! id)) ids → Forall (λ id, is_Some (m !! id) ∧ reachable segs A id) ids.
Proof.
  intros HR Hin. eapply Forall_impl; [exact Hin|]. intros id [??]. auto.
Qed.

Lemma run_set_handles fs filename m R hs : stored fs filename m R → NoDup (LogicalID <$> hs) → Forall storable hs →
  Forall (λ id, id ∈ R ∧ is_Some (m !! id)) (LogicalID <$> hs) →
  ∃ fs', set_handles FromBytes blockSize hashModValue true filename hs fs = (Ret (), fs') ∧
    stored fs' filename (put_all hs m) R ∧ untouched filename fs fs' ∧
    length (default [] (fs' !! filename)) = length (default [] (fs !! filename)).
Proof.
  intros (A & Hh & HR) Hnd Hst Hin.
  destruct (run_findFileRegion true fs filename _ A m (LogicalID <$> hs) eq_refl Hh) as (frds & Hrun & Hreg & Hstd);
    [by eapply batch_reachable|].
  destruct (replace_handles_Ok A hs frds Hreg Hstd) as (frds' & Hrep & Hreg' & Hhs).
  unfold set_handles. change (map LogicalID hs) with (LogicalID <$> hs). run Hrun. cbv beta. rewrite Hrep, run_lift. destruct (decide (hs = [])) as [->|Hne].
  - apply fmap_nil_inv in Hhs as ->. exists fs. split; [done|]. split; [by exists A|done].
  - destruct (run_updateFileRegion filename hs frds' fs _ A m eq_refl Hh Hnd Hst Hreg' Hhs Hne)
      as (segs' & A' & Hup & Hh' & Hl' & Hr').
    exists (<[filename := segs']> fs). split; [done|]. split; [|split; [apply untouched_insert|by rewrite lookup_insert_eq]].
    apply stored_insert. exists A'. split; [done|]. auto.
Qed.

(** Without the locks of the blocks nothing is written. *)
Lemma run_set_handles_unlocked fs filename m R hs : stored fs filename m R →
  Forall (λ id, id ∈ R ∧ is_Some (m !! id)) (LogicalID <$> hs) → hs ≠ [] →
  set_handles FromBytes blockSize hashModValue false filename hs fs = (Fail ErrLockTimeout, fs).
Proof.
  intros (A & Hh & HR) Hin Hne.
  destruct (run_findFileRegion false fs filename _ A m (LogicalID <$> hs) eq_refl Hh) as (frds & Hrun & Hreg & Hstd);
    [by eapply batch_reachable|].
  destruct (replace_handles_Ok A hs frds Hreg Hstd) as (frds' & Hrep & _ & Hhs).
  unfold set_handles. change (map LogicalID hs) with (LogicalID <$> hs). run Hrun. cbv beta. rewrite Hrep, run_lift.
  destruct frds' as [|frd frds']; [by destruct hs|]. done.
Qed.

(** The IDs whose block holds none of [ids]. *)
Definition apart (ids : list UUID) (R : gset UUID) : gset UUID :=
  filter (λ id, Forall (λ id', block_of id ≠ block_of id') ids) R.

Lemma run_remove_handles_unlocked fs filename m R ids : stored fs filename m R →
  Forall (λ id, id ∈ R ∧ is_Some (m !! id)) ids → ids ≠ [] →
  remove_handles FromBytes blockSize hashModValue false filename ids fs = (Fail ErrLockTimeout, fs).
Proof.
  intros (A & Hh & HR) Hin Hne.
  destruct (run_findFileRegion false fs filename _ A m ids eq_refl Hh) as (frds & Hrun & Hreg & Hst);
    [by eapply batch_reachable|].
  unfold remove_handles. run Hrun. cbv beta. rewrite (check_removals_Ok _ _ Hst), run_lift.
  destruct frds as [|frd frds]; [|done]. by apply Forall2_nil_inv_l in Hst.
Qed.

Lemma run_remove_handles fs filename m R ids : stored fs filename m R → NoDup ids →
  Forall (λ id, id ∈ R ∧ is_Some (m !! id)) ids →
  ∃ fs', remove_handles FromBytes blockSize hashModValue true filename ids fs = (Ret (), fs') ∧
    stored fs' filename (delete_all ids m) (apart ids R) ∧ untouched filename fs fs' ∧
    length (default [] (fs' !! filename)) = length (default [] (fs !! filename)).
Proof.
  intros (A & Hh & HR) Hnd Hin.
  destruct (run_findFileRegion true fs filename _ A m ids eq_refl Hh) as (frds & Hrun & Hreg & Hst);
    [by eapply batch_reachable|].
  unfold remove_handles. run Hrun. cbv beta. rewrite (check_removals_Ok _ _ Hst), run_lift. destruct (decide (ids = [])) as [->|Hne].
  - apply Forall2_nil_inv_r in Hreg as ->. exists fs. split; [done|]. split; [|split; done].
    exists A. split; [done|]. intros id [_ Hid]%elem_of_filter. auto.
  - destruct (run_markDeleteFileRegion filename ids frds fs _ A m eq_refl Hh Hnd Hreg Hne) as (segs' & A' & Hup & Hh' & Hl' & Hr').
    exists (<[filename := segs']> fs). split; [done|]. split; [|split; [apply untouched_insert|by rewrite lookup_insert_eq]].
    apply stored_insert. exists A'. split; [done|]. intros id [Ha Hid]%elem_of_filter. auto.
Qed.
End table.
