(* ===== verification/HashmapProps.v ===== *)
(** * The registry refines a map: theorems, instances and findings

    A table that is filled with [findAndAdd], changed with [set_handles] and
    emptied with [remove_handles] behaves as a map from logical IDs to handles, as
    long as the IDs that are changed or removed are within reach of a search that
    writes.  The examples at the end show what happens to the others. *)

From stdpp Require Import gmap.
From S2P Require Import Prelude Handle Sector Hashmap HashmapSpec HashmapMap.

Section properties.
Context (FromBytes : list Z → option UUID) (blockSize : nat) (hashModValue : Z).
Hypothesis HFB : FromBytes_documented FromBytes.
Hypothesis Hbs : handlesPerBlock * HandleSizeInBytes + 4 ≤ blockSize.

Implicit Types (h : Handle) (id : UUID) (m : gmap UUID Handle) (R : gset UUID) (fs : files).

Local Abbreviation stored := (stored blockSize hashModValue).
Local Abbreviation segments fs filename := (length (default [] (fs !! filename))).

(** A fetch from a table that stands for a map returns the handles the map has for the
    requested IDs, in their order, skips the IDs it does not have and changes nothing. *)
Theorem fetch_exact fs filename m R ids : stored fs filename m R →
  fetch FromBytes blockSize hashModValue filename ids fs = (Ret (omap (m !!.) ids), fs).
Proof. intros (A & Hh & _). by eapply run_fetch. Qed.

(** C29: adding a handle whose ID the table does not have stores it in one slot,
    creating a segment file if the block is full in all of them, leaves every other
    handle and every other table alone and puts the ID within reach; adding an ID
    that is there and within reach ends with the timeout and changes nothing. *)
Theorem add_exact fs filename m R h : stored fs filename m R → filename ≠ EmptyString → storable h →
  S (segments fs filename) < maxSegments →
  (m !! LogicalID h = None → ∃ fs', findAndAdd FromBytes blockSize hashModValue true filename h fs = (Ret (), fs') ∧
    stored fs' filename (<[LogicalID h := h]> m) ({[LogicalID h]} ∪ R) ∧ untouched filename fs fs' ∧
    segments fs' filename ≤ S (segments fs filename)) ∧
  (LogicalID h ∈ R → is_Some (m !! LogicalID h) →
    findAndAdd FromBytes blockSize hashModValue true filename h fs = (Fail ErrLockTimeout, fs)).
Proof.
  intros Ht Hne Hst Hmax. split.
  - intros Hnew. destruct (run_findAndAdd FromBytes blockSize hashModValue HFB Hbs fs filename _ m R h eq_refl Ht Hne Hst Hnew Hmax)
      as (segs & Hrun & Ht' & Hl). exists (<[filename := segs]> fs). split; [done|]. split; [by apply stored_insert|].
    split; [apply untouched_insert|]. by rewrite lookup_insert_eq.
  - intros Hin Hm. by apply (run_findAndAdd_present FromBytes blockSize hashModValue HFB Hbs fs filename _ m R h eq_refl).
Qed.

(** Setting a batch of handles whose IDs are in the table and within reach
    replaces exactly these handles, each in its slot. *)
Theorem set_exact fs filename m R hs : stored fs filename m R → NoDup (LogicalID <$> hs) → Forall storable hs →
  Forall (λ id, id ∈ R ∧ is_Some (m !! id)) (LogicalID <$> hs) →
  ∃ fs', set_handles FromBytes blockSize hashModValue true filename hs fs = (Ret (), fs') ∧
    stored fs' filename (put_all hs m) R ∧ untouched filename fs fs'.
Proof.
  intros Ht Hnd Hst Hin. destruct (run_set_handles FromBytes blockSize hashModValue HFB Hbs fs filename m R hs Ht Hnd Hst Hin) as (fs' & ? & ? & ? & _).
  by exists fs'.
Qed.

(** Removing a batch of IDs that are in the table and within reach zeroes
    exactly their slots; an ID stays within reach if its block had none of them. *)
Theorem remove_exact fs filename m R ids : stored fs filename m R → NoDup ids →
  Forall (λ id, id ∈ R ∧ is_Some (m !! id)) ids →
  ∃ fs', remove_handles FromBytes blockSize hashModValue true filename ids fs = (Ret (), fs') ∧
    stored fs' filename (delete_all ids m) (apart blockSize hashModValue ids R) ∧ untouched filename fs fs'.
Proof.
  intros Ht Hnd Hin. destruct (run_remove_handles FromBytes blockSize hashModValue HFB Hbs fs filename m R ids Ht Hnd Hin) as (fs' & ? & ? & ? & _).
  by exists fs'.
Qed.

(** *** Histories *)

Inductive tab_op :=
| TabAdd (h : Handle)
| TabSet (hs : list Handle)
| TabRemove (ids : list UUID)
| TabFetch (ids : list UUID).

(** The map, the IDs within reach of a search that writes, and how many handles may
    still be added: each may need a segment file. *)
Record tab := mkTab { tab_map : gmap UUID Handle; tab_reach : gset UUID; tab_room : nat }.

Definition tab_step (o : tab_op) (t : tab) : tab :=
  match o with
  | TabAdd h => mkTab (<[LogicalID h := h]> (tab_map t)) ({[LogicalID h]} ∪ tab_reach t) (pred (tab_room t))
  | TabSet hs => mkTab (put_all hs (tab_map t)) (tab_reach t) (tab_room t)
  | TabRemove ids => mkTab (delete_all ids (tab_map t)) (apart blockSize hashModValue ids (tab_reach t)) (tab_room t)
  | TabFetch _ => t
  end.
(** New IDs are added; an ID is changed or removed if no other ID of its block was
    removed since it was added. *)
Definition tab_allowed (o : tab_op) (t : tab) : Prop :=
  match o with
  | TabAdd h => storable h ∧ tab_map t !! LogicalID h = None ∧ 0 < tab_room t
  | TabSet hs => NoDup (LogicalID <$> hs) ∧ Forall storable hs ∧ Forall (λ id, id ∈ tab_reach t ∧ is_Some (tab_map t !! id)) (LogicalID <$> hs)
  | TabRemove ids => NoDup ids ∧ Forall (λ id, id ∈ tab_reach t ∧ is_Some (tab_map t !! id)) ids
  | TabFetch _ => True
  end.
Fixpoint tab_all_allowed (os : list tab_op) (t : tab) : Prop :=
  match os with [] => True | o :: os => tab_allowed o t ∧ tab_all_allowed os (tab_step o t) end.

Definition tab_exec (filename : string) (o : tab_op) : M files reg_error (list Handle) :=
  match o with
  | TabAdd h => findAndAdd FromBytes blockSize hashModValue true filename h;; mret []
  | TabSet hs => set_handles FromBytes blockSize hashModValue true filename hs;; mret []
  | TabRemove ids => remove_handles FromBytes blockSize hashModValue true filename ids;; mret []
  | TabFetch ids => fetch FromBytes blockSize hashModValue filename ids
  end.
Fixpoint tab_exec_all (filename : string) (os : list tab_op) : M files reg_error (list (list Handle)) :=
  match os with
  | [] => mret []
  | o :: os => r ← tab_exec filename o; rs ← tab_exec_all filename os; mret (r :: rs)
  end.

(** What the calls return: a fetch what the map has, the others nothing. *)
Definition tab_answer (o : tab_op) (t : tab) : list Handle :=
  match o with TabFetch ids => omap (tab_map t !!.) ids | _ => [] end.
Fixpoint tab_answers (os : list tab_op) (t : tab) : list (list Handle) :=
  match os with [] => [] | o :: os => tab_answer o t :: tab_answers os (tab_step o t) end.

Definition tab_stands fs filename (t : tab) : Prop :=
  stored fs filename (tab_map t) (tab_reach t) ∧ segments fs filename + tab_room t < maxSegments.

Lemma run_tab_op filename o fs t : filename ≠ EmptyString → tab_stands fs filename t → tab_allowed o t →
  ∃ fs', tab_exec filename o fs = (Ret (tab_answer o t), fs') ∧ tab_stands fs' filename (tab_step o t) ∧ untouched filename fs fs'.
Proof.
  intros Hne [Hs Hroom] Ha. destruct o as [h|hs|ids|ids]; cbn [tab_exec tab_allowed tab_answer] in *.
  - destruct Ha as (Hst & Hnew & Hpos).
    destruct (run_findAndAdd FromBytes blockSize hashModValue HFB Hbs fs filename _ _ _ h eq_refl Hs Hne Hst Hnew) as (segs & Hrun & Ht & Hl);
      [lia|]. exists (<[filename := segs]> fs). rewrite (bind_Ret _ _ _ _ _ Hrun). split; [done|]. split; [|apply untouched_insert].
    split; [by apply stored_insert|]. rewrite lookup_insert_eq. cbn [tab_step tab_room]. change (default [] (Some segs)) with segs. lia.
  - destruct Ha as (Hnd & Hst & Hin).
    destruct (run_set_handles FromBytes blockSize hashModValue HFB Hbs fs filename _ _ hs Hs Hnd Hst Hin) as (fs' & Hrun & Hs' & Hu & Hl).
    exists fs'. rewrite (bind_Ret _ _ _ _ _ Hrun). split; [done|]. split; [|done]. split; [done|]. by rewrite Hl.
  - destruct Ha as (Hnd & Hin).
    destruct (run_remove_handles FromBytes blockSize hashModValue HFB Hbs fs filename _ _ ids Hs Hnd Hin) as (fs' & Hrun & Hs' & Hu & Hl).
    exists fs'. rewrite (bind_Ret _ _ _ _ _ Hrun). split; [done|]. split; [|done]. split; [done|]. by rewrite Hl.
  - exists fs. split; [|done]. destruct Hs as (A & Hh & _). by eapply run_fetch.
Qed.

Lemma run_tab_ops filename os : filename ≠ EmptyString → ∀ fs t, tab_stands fs filename t → tab_all_allowed os t →
  ∃ fs', tab_exec_all filename os fs = (Ret (tab_answers os t), fs') ∧ tab_stands fs' filename (foldl (λ t o, tab_step o t) t os) ∧
    untouched filename fs fs'.
Proof.
  intros Hne. induction os as [|o os IH]; intros fs t Hs Ha; [by exists fs|]. destruct Ha as [Ho Ha].
  destruct (run_tab_op filename o fs t Hne Hs Ho) as (fs1 & Hrun1 & Hs1 & Hu1).
  destruct (IH fs1 _ Hs1 Ha) as (fs2 & Hrun2 & Hs2 & Hu2). exists fs2. cbn [tab_exec_all tab_answers].
  rewrite (bind_Ret _ _ _ _ _ Hrun1), (bind_Ret _ _ _ _ _ Hrun2). split; [done|]. split; [done|]. intros f Hf. by rewrite Hu2, Hu1.
Qed.

(** C28: from a table without files on, any history that adds new IDs, fewer than
    there may be segment files, and changes or removes an ID only if no other ID of
    its block was removed since it was added, runs to its end; each fetch in it
    returns exactly the handles that the history before it leaves in a map, in the
    order asked for, and the files stand for that map in the end; other tables are
    left alone. *)
Theorem history_exact filename fs os n : filename ≠ EmptyString → fs !! filename = None → n < maxSegments →
  tab_all_allowed os (mkTab ∅ ∅ n) →
  ∃ fs', tab_exec_all filename os fs = (Ret (tab_answers os (mkTab ∅ ∅ n)), fs') ∧
    tab_stands fs' filename (foldl (λ t o, tab_step o t) (mkTab ∅ ∅ n) os) ∧ untouched filename fs fs'.
Proof.
  intros Hne Hf Hn Ha. apply run_tab_ops; [done| |done]. split; [|by rewrite Hf]. unfold HashmapMap.stored. rewrite Hf. apply table_empty.
Qed.
End properties.

(** ** Instances: 250 blocks of 4096 bytes *)

Definition ex_id (high : N) : UUID := (high * 2 ^ 64 + 1)%N.
Definition ex_handle (high : N) (version : Z) : Handle := mkHandle (ex_id high) 7 NilUUID false version 0 false.

Local Abbreviation ex_add := (findAndAdd FromBytes_ref 4096 250 true).
Local Abbreviation ex_set := (set_handles FromBytes_ref 4096 250 true).
Local Abbreviation ex_remove := (remove_handles FromBytes_ref 4096 250 true).
Local Abbreviation ex_fetch := (fetch FromBytes_ref 4096 250).

Lemma ex_block : handlesPerBlock * HandleSizeInBytes + 4 ≤ 4096.
Proof. by apply Nat.leb_le. Qed.

Lemma ex_storable high version : (0 < high < 1000)%N → (0 ≤ version < 1000)%Z → storable (ex_handle high version).
Proof.
  intros Hh Hv. unfold storable, handle_wf, uuid_wf, in_s, ex_handle, ex_id, NilUUID. cbn [LogicalID PhysicalIDA PhysicalIDB Version WorkInProgressTimestamp].
  assert (high * 2 ^ 64 + 1 < 2 ^ 128)%N by (change (2 ^ 128)%N with (2 ^ 64 * 2 ^ 64)%N; nia). lia.
Qed.

Lemma ex_empty : stored 4096 250 ∅ "t" ∅ ∅.
Proof. apply table_empty. Qed.

(** Two handles with the same block and the same slot. *)
Lemma ex_two : ∃ fs1 fs2,
  ex_add "t" (ex_handle 1 1) ∅ = (Ret (), fs1) ∧ ex_add "t" (ex_handle 251 1) fs1 = (Ret (), fs2) ∧
  stored 4096 250 fs2 "t" {[ex_id 251 := ex_handle 251 1; ex_id 1 := ex_handle 1 1]} {[ex_id 251; ex_id 1]}.
Proof.
  destruct (run_findAndAdd FromBytes_ref 4096 250 FromBytes_ref_documented ex_block ∅ "t" [] ∅ ∅ (ex_handle 1 1))
    as (segs1 & Hr1 & Ht1 & Hl1); [done|apply ex_empty|done|apply ex_storable; lia|done|apply Nat.ltb_lt; done|].
  exists (<["t" := segs1]> ∅).
  destruct (run_findAndAdd FromBytes_ref 4096 250 FromBytes_ref_documented ex_block (<["t" := segs1]> ∅) "t" segs1
    (<[ex_id 1 := ex_handle 1 1]> ∅) ({[ex_id 1]} ∪ ∅) (ex_handle 251 1))
    as (segs2 & Hr2 & Ht2 & Hl2); [by rewrite lookup_insert_eq|exact Ht1|done|apply ex_storable; lia| | |].
  - apply lookup_insert_None. split; [done|]. done.
  - unfold maxSegments. cbn in Hl1. lia.
  - exists (<["t" := segs2]> (<["t" := segs1]> ∅)). split; [done|]. split; [done|].
    apply stored_insert. exact Ht2.
Qed.

Lemma fetch_exact_witness : ∃ fs, ex_fetch "t" [ex_id 251; ex_id 5; ex_id 1] fs =
  (Ret [ex_handle 251 1; ex_handle 1 1], fs).
Proof.
  destruct ex_two as (_ & fs & _ & _ & Ht). exists fs.
  exact (fetch_exact FromBytes_ref 4096 250 FromBytes_ref_documented ex_block fs "t" _ _ [ex_id 251; ex_id 5; ex_id 1] Ht).
Defined.

Lemma add_exact_witness : ∃ fs, ex_add "t" (ex_handle 1 1) ∅ = (Ret (), fs) ∧
  stored 4096 250 fs "t" {[ex_id 1 := ex_handle 1 1]} ({[ex_id 1]} ∪ ∅).
Proof.
  destruct (proj1 (add_exact FromBytes_ref 4096 250 FromBytes_ref_documented ex_block ∅ "t" ∅ ∅ (ex_handle 1 1)
    ex_empty ltac:(done) ltac:(apply ex_storable; lia) ltac:(apply Nat.ltb_lt; done)) eq_refl) as (fs & Hr & Ht & _).
  by exists fs.
Defined.

Lemma ex_within : Forall (λ id, id ∈ ({[ex_id 251; ex_id 1]} : gset UUID) ∧
  is_Some ((({[ex_id 251 := ex_handle 251 1; ex_id 1 := ex_handle 1 1]} : gmap UUID Handle) !! id))) [ex_id 1].
Proof.
  apply Forall_singleton. split; [set_solver|]. exists (ex_handle 1 1).
  apply lookup_insert_Some. right. split; [done|]. apply lookup_insert_eq.
Qed.

Lemma set_exact_witness : ∃ fs fs', ex_set "t" [ex_handle 1 2] fs = (Ret (), fs') ∧
  stored 4096 250 fs' "t" {[ex_id 1 := ex_handle 1 2; ex_id 251 := ex_handle 251 1]} {[ex_id 251; ex_id 1]}.
Proof.
  destruct ex_two as (_ & fs & _ & _ & Ht). exists fs.
  destruct (set_exact FromBytes_ref 4096 250 FromBytes_ref_documented ex_block fs "t" _ _ [ex_handle 1 2] Ht
    ltac:(repeat constructor; by intros ?%not_elem_of_nil) ltac:(repeat constructor; apply ex_storable; lia) ex_within) as (fs' & Hr & Ht' & _).
  exists fs'. split; [exact Hr|]. exact Ht'.
Defined.

Lemma remove_exact_witness : ∃ fs fs', ex_remove "t" [ex_id 1] fs = (Ret (), fs') ∧
  stored 4096 250 fs' "t" {[ex_id 251 := ex_handle 251 1]} ∅.
Proof.
  destruct ex_two as (_ & fs & _ & _ & Ht). exists fs.
  destruct (remove_exact FromBytes_ref 4096 250 FromBytes_ref_documented ex_block fs "t" _ _ [ex_id 1] Ht
    ltac:(repeat constructor; by intros ?%not_elem_of_nil) ex_within) as (fs' & Hr & Ht' & _).
  exists fs'. split; [exact Hr|]. exact Ht'.
Defined.

(** Two handles of one block, one of which is removed, and a handle of another block
    that is changed after that. *)
Definition ex_history : list tab_op :=
  [TabAdd (ex_handle 1 1); TabAdd (ex_handle 251 1); TabAdd (ex_handle 2 1); TabFetch [ex_id 251; ex_id 3; ex_id 1];
   TabRemove [ex_id 1]; TabSet [ex_handle 2 4]; TabFetch [ex_id 1; ex_id 2; ex_id 251]].

Lemma ex_history_allowed : tab_all_allowed 4096 250 ex_history (mkTab ∅ ∅ 10).
Proof.
  assert (Hone : ∀ id : UUID, NoDup [id]) by (intros; apply NoDup_singleton).
  repeat (refine (conj _ _)); try exact I; try (apply ex_storable; lia); try (apply Forall_singleton, ex_storable; lia);
    try (apply Hone); try (apply (bool_decide_unpack _); vm_compute; exact I).
Qed.

Lemma history_exact_witness : ∃ fs, tab_exec_all FromBytes_ref 4096 250 "t" ex_history ∅ =
  (Ret [[]; []; []; [ex_handle 251 1; ex_handle 1 1]; []; []; [ex_handle 2 4; ex_handle 251 1]], fs).
Proof.
  destruct (history_exact FromBytes_ref 4096 250 FromBytes_ref_documented ex_block "t" ∅ ex_history 10 ltac:(done) eq_refl
    ltac:(apply Nat.ltb_lt; done) ex_history_allowed) as (fs & Hrun & _).
  exists fs. exact Hrun.
Defined.

(** ** Findings *)

Definition after {X} (r : outcome reg_error X * files) : files := r.2.

Definition ex_hole : files :=
  after (ex_remove "t" [ex_id 1] (after (ex_add "t" (ex_handle 251 1) (after (ex_add "t" (ex_handle 1 1) ∅))))).

(** The slot of the first of two colliding handles is vacant after its removal, and
    a search that writes stops there: the second handle can be fetched, but not
    removed. *)
Example remove_misses_stored_handle :
  (ex_fetch "t" [ex_id 251] ex_hole).1 = Ret [ex_handle 251 1] ∧
  (ex_remove "t" [ex_id 251] ex_hole).1 = Fail ErrRemoveMissing.
Proof. split; vm_compute; reflexivity. Qed.

(** A set writes a second copy of the handle into the vacant slot; when that is
    removed, the version before the set is fetched again. *)
Example set_leaves_stale_copy :
  let fs := after (ex_set "t" [ex_handle 251 2] ex_hole) in
  (ex_fetch "t" [ex_id 251] fs).1 = Ret [ex_handle 251 2] ∧
  (ex_fetch "t" [ex_id 251] (after (ex_remove "t" [ex_id 251] fs))).1 = Ret [ex_handle 251 1].
Proof. split; vm_compute; reflexivity. Qed.
