(* ===== verification/Stores.v ===== *)
(** * repository.go: the stores below a transaction, as interfaces

    [sop.Registry] and [sop.BlobStore] are type classes over a state, and what they
    promise are classes of laws: a registry holds one map from logical IDs to
    handles, spread over its tables, and a set of IDs that a write can reach; a blob
    store holds a map from table and ID to bytes.  A call may fail, and then the
    laws say what it may have done. *)

From stdpp Require Import gmap.
From S2P Require Import Prelude Wp Handle HashmapSpec.

Record BlobsPayload (T : Type) := mkBlobsPayload {
  bp_BlobTable : string;
  bp_Blobs : list T;
}.
Arguments mkBlobsPayload {T}.
Arguments bp_BlobTable {T}.
Arguments bp_Blobs {T}.

Implicit Types (T : gmap UUID Handle) (R : gset UUID) (B : gmap (string * UUID) (list Z)).
Implicit Types (hs : list (RegistryPayload Handle)) (reqs : list (RegistryPayload UUID)).

(** ** Registry *)

Class Registry (RS E : Type) := {
  registry_Get : list (RegistryPayload UUID) → M RS E (list (RegistryPayload Handle));
  registry_Add : list (RegistryPayload Handle) → M RS E ();
  registry_Update : list (RegistryPayload Handle) → M RS E ();
  registry_UpdateNoLocks : bool → list (RegistryPayload Handle) → M RS E ();
  registry_Remove : list (RegistryPayload UUID) → M RS E ();
}.

(** All the IDs or handles of a request, and the handles put into the map. *)
Definition all_ids {X} (ps : list (RegistryPayload X)) : list X := ps ≫= rp_IDs.
Definition put_handles (l : list Handle) T : gmap UUID Handle := foldl (λ T h, <[LogicalID h := h]> T) T l.
Definition delete_ids (ids : list UUID) T : gmap UUID Handle := foldl (λ T id, base.delete id T) T ids.

(** Some of the entries are those of [T2], the others still those of [T1]. *)
Definition between T1 T2 (T : gmap UUID Handle) : Prop := ∀ id, T !! id = T1 !! id ∨ T !! id = T2 !! id.

(** The answer to one payload: the fields are copied, and the handles are those the
    map has for the IDs, in some order. *)
Definition answers T (req : RegistryPayload UUID) (p : RegistryPayload Handle) : Prop :=
  rp_RegistryTable p = rp_RegistryTable req ∧ rp_BlobTable p = rp_BlobTable req ∧
  rp_IDs p ≡ₚ omap (T !!.) (rp_IDs req).
Definition answers_in_order T (req : RegistryPayload UUID) (p : RegistryPayload Handle) : Prop :=
  rp_IDs p = omap (T !!.) (rp_IDs req).

(** [home] is the table of an ID: a UUID is used in one of them. *)
Definition homed (home : UUID → string) reqs : Prop :=
  Forall (λ p, Forall (λ id, home id = rp_RegistryTable p) (rp_IDs p)) reqs.
Definition homed_handles (home : UUID → string) hs : Prop :=
  Forall (λ p, Forall (λ h, home (LogicalID h) = rp_RegistryTable p) (rp_IDs p)) hs.

Class RegistryLaws (RS E : Type) `{Registry RS E} (home : UUID → string) := {
  (** The files hold the map; the caches agree with it, too. *)
  stands : RS → gmap UUID Handle → gset UUID → Prop;
  holds : RS → gmap UUID Handle → gset UUID → Prop;
  (** There is room for so many more handles. *)
  room : RS → nat → Prop;
  (** The handles of each payload come in the order of its IDs. *)
  ordered : RS → list (RegistryPayload UUID) → Prop;

  holds_stands s T R : holds s T R → stands s T R;
  holds_key s T R id h : holds s T R → T !! id = Some h → LogicalID h = id ∧ storable h;
  holds_reach s T R : holds s T R → ∀ id, id ∈ R → is_Some (T !! id);
  ordered_nothing s reqs : all_ids reqs = [] → ordered s reqs;
  Get_law s T R reqs : holds s T R → homed home reqs →
    wp (registry_Get reqs) s
      (λ hs s', holds s' T R ∧ (∀ n, room s n → room s' n) ∧ Forall2 (answers T) reqs hs ∧
         (ordered s reqs → Forall2 (answers_in_order T) reqs hs))
      (λ _ s', holds s' T R ∧ ∀ n, room s n → room s' n);
  Add_law s T R hs n : holds s T R → homed_handles home hs → Forall (λ p, rp_RegistryTable p ≠ EmptyString) hs →
    Forall storable (all_ids hs) → NoDup (LogicalID <$> all_ids hs) →
    Forall (λ h, T !! LogicalID h = None) (all_ids hs) → room s (length (all_ids hs) + n) →
    wp (registry_Add hs) s
      (λ _ s', holds s' (put_handles (all_ids hs) T) (list_to_set (LogicalID <$> all_ids hs) ∪ R) ∧ room s' n)
      (λ _ s', ∃ T' R', stands s' T' R' ∧ between T (put_handles (all_ids hs) T) T' ∧ R ⊆ R');
  UpdateNoLocks_law s T R b hs : holds s T R → homed_handles home hs →
    Forall storable (all_ids hs) → NoDup (LogicalID <$> all_ids hs) →
    Forall (λ h, LogicalID h ∈ R) (all_ids hs) →
    wp (registry_UpdateNoLocks b hs) s
      (λ _ s', holds s' (put_handles (all_ids hs) T) R ∧ (∀ n, room s n → room s' n) ∧
         (∀ reqs, NoDup (all_ids reqs) → all_ids reqs ⊆ LogicalID <$> all_ids hs → ordered s' reqs))
      (λ _ s', ∃ T', stands s' T' R ∧ between T (put_handles (all_ids hs) T) T');
  Update_law s T R hs : holds s T R → homed_handles home hs →
    Forall storable (all_ids hs) → NoDup (LogicalID <$> all_ids hs) →
    Forall (λ h, LogicalID h ∈ R) (all_ids hs) →
    wp (registry_Update hs) s
      (λ _ s', holds s' (put_handles (all_ids hs) T) R ∧ ∀ n, room s n → room s' n)
      (λ _ s', ∃ T', holds s' T' R ∧ between T (put_handles (all_ids hs) T) T');
  Remove_law s T R reqs : holds s T R → homed home reqs → NoDup (rp_RegistryTable <$> reqs) → NoDup (all_ids reqs) →
    Forall (λ id, id ∈ R) (all_ids reqs) →
    wp (registry_Remove reqs) s
      (λ _ s', (∃ R', holds s' (delete_ids (all_ids reqs) T) R' ∧ R' ⊆ R) ∧ ∀ n, room s n → room s' n)
      (λ _ s', ∃ T' R', stands s' T' R' ∧ between T (delete_ids (all_ids reqs) T) T' ∧ R' ⊆ R);
}.

(** ** Blob store *)

Class BlobStore (BS E : Type) := {
  blobStore_GetOne : string → UUID → M BS E (list Z);
  blobStore_Add : list (BlobsPayload (UUID * list Z)) → M BS E ();
  blobStore_Remove : list (BlobsPayload UUID) → M BS E ();
}.

Definition all_blobs {X} (ps : list (BlobsPayload X)) : list (string * X) :=
  ps ≫= λ p, pair (bp_BlobTable p) <$> bp_Blobs p.
Definition put_blobs (l : list (string * (UUID * list Z))) B : gmap (string * UUID) (list Z) :=
  foldl (λ B '(t, (id, b)), <[(t, id) := b]> B) B l.
Definition delete_blobs (l : list (string * UUID)) B : gmap (string * UUID) (list Z) :=
  foldl (λ B k, base.delete k B) B l.

Definition blob_keys {X} (ps : list (string * (UUID * X))) : list (string * UUID) := (λ '(t, (id, _)), (t, id)) <$> ps.

(** The blobs under the other keys are untouched. *)
Definition same_but (ks : list (string * UUID)) B (B' : gmap (string * UUID) (list Z)) : Prop :=
  ∀ k, k ∉ ks → B' !! k = B !! k.

Class BlobStoreLaws (BS E : Type) `{BlobStore BS E} := {
  blob_holds : BS → gmap (string * UUID) (list Z) → Prop;
  GetOne_law s B t id : blob_holds s B →
    wp (blobStore_GetOne t id) s (λ b s', B !! (t, id) = Some b ∧ blob_holds s' B) (λ _ s', blob_holds s' B);
  BlobAdd_law s B ps : blob_holds s B →
    wp (blobStore_Add ps) s
      (λ _ s', blob_holds s' (put_blobs (all_blobs ps) B))
      (λ _ s', ∃ B', blob_holds s' B' ∧ same_but (blob_keys (all_blobs ps)) B B');
  BlobRemove_law s B ps : blob_holds s B →
    wp (blobStore_Remove ps) s
      (λ _ s', blob_holds s' (delete_blobs (all_blobs ps) B))
      (λ _ s', ∃ B', blob_holds s' B' ∧ same_but (all_blobs ps) B B');
}.

(** ** Lemmas *)

Lemma put_handles_app l1 l2 T : put_handles (l1 ++ l2) T = put_handles l2 (put_handles l1 T).
Proof. apply foldl_app. Qed.

Lemma put_handles_cons h l T : put_handles (h :: l) T = put_handles l (<[LogicalID h := h]> T).
Proof. done. Qed.

Lemma put_handles_notin l : ∀ T id, id ∉ LogicalID <$> l → put_handles l T !! id = T !! id.
Proof.
  induction l as [|h l IH]; intros T id Hid; [done|]. rewrite fmap_cons, not_elem_of_cons in Hid.
  rewrite put_handles_cons, IH by tauto. rewrite lookup_insert_ne; [done|]. intros Heq. by destruct Hid.
Qed.

Lemma put_handles_in l : ∀ T h, NoDup (LogicalID <$> l) → h ∈ l → put_handles l T !! LogicalID h = Some h.
Proof.
  induction l as [|h' l IH]; intros T h Hnd Hin; [by apply not_elem_of_nil in Hin|].
  rewrite fmap_cons in Hnd. apply NoDup_cons in Hnd as [Hn Hnd]. rewrite put_handles_cons.
  apply elem_of_cons in Hin as [->|Hin].
  - rewrite (put_handles_notin l) by done. by rewrite lookup_insert_eq.
  - by apply IH.
Qed.

Lemma between_refl T1 T2 : between T1 T2 T1.
Proof. intros id. by left. Qed.

Lemma delete_ids_lookup ids : ∀ T id, delete_ids ids T !! id = if decide (id ∈ ids) then None else T !! id.
Proof.
  induction ids as [|i ids IH]; intros T id.
  - rewrite decide_False; [done|apply not_elem_of_nil].
  - cbn [delete_ids foldl]. unfold delete_ids in IH. rewrite IH. destruct (decide (id = i)) as [->|Hne].
    + rewrite (decide_True (P := i ∈ i :: ids)) by left. case_decide; [done|]. by rewrite lookup_delete_eq.
    + rewrite lookup_delete_ne by done. case_decide as H1; case_decide as H2; [done| | |done].
      * destruct H2. by right.
      * apply elem_of_cons in H2 as [?|?]; done.
Qed.

Lemma all_ids_cons {X} (p : RegistryPayload X) ps : all_ids (p :: ps) = rp_IDs p ++ all_ids ps.
Proof. done. Qed.

(** *** Blobs *)

Lemma same_but_cons k ks B x B' : same_but ks (<[k := x]> B) B' → same_but (k :: ks) B B'.
Proof. intros Hs k' [? ?]%not_elem_of_cons. rewrite Hs by done. by apply lookup_insert_ne. Qed.

Lemma same_but_weaken ks ks' B B' : same_but ks B B' → ks ⊆ ks' → same_but ks' B B'.
Proof. intros Hs Hk k Hn. apply Hs. auto. Qed.

Lemma put_blobs_app l1 l2 B : put_blobs (l1 ++ l2) B = put_blobs l2 (put_blobs l1 B).
Proof. apply foldl_app. Qed.

Lemma blob_keys_app {X} (l1 l2 : list (string * (UUID * X))) : blob_keys (l1 ++ l2) = blob_keys l1 ++ blob_keys l2.
Proof. apply fmap_app. Qed.

Lemma put_blobs_other l : ∀ B k, k ∉ blob_keys l → put_blobs l B !! k = B !! k.
Proof.
  induction l as [|[t [id ba]] l IH]; intros B k Hk; [done|].
  apply not_elem_of_cons in Hk as [Hne Hk]. change (put_blobs l (<[(t, id) := ba]> B) !! k = B !! k).
  rewrite IH by done. by apply lookup_insert_ne.
Qed.

Lemma delete_blobs_app l1 l2 B : delete_blobs (l1 ++ l2) B = delete_blobs l2 (delete_blobs l1 B).
Proof. apply foldl_app. Qed.

Lemma delete_blobs_lookup l : ∀ B k, delete_blobs l B !! k = if decide (k ∈ l) then None else B !! k.
Proof.
  induction l as [|x l IH]; intros B k.
  - rewrite decide_False; [done|apply not_elem_of_nil].
  - change (delete_blobs (x :: l) B) with (delete_blobs l (base.delete x B)). rewrite IH.
    destruct (decide (k = x)) as [->|Hne].
    + rewrite (decide_True (P := x ∈ x :: l)) by left. case_decide; [done|]. by rewrite lookup_delete_eq.
    + rewrite lookup_delete_ne by done. case_decide as H1; case_decide as H2; [done| | |done].
      * destruct H2. by right.
      * apply elem_of_cons in H2 as [?|?]; done.
Qed.

Lemma put_blobs_in l : ∀ B t id b, NoDup (blob_keys l) → (t, (id, b)) ∈ l → put_blobs l B !! (t, id) = Some b.
Proof.
  induction l as [|[t' [id' b']] l IH]; intros B t id b Hnd Hin; [by apply not_elem_of_nil in Hin|].
  apply NoDup_cons in Hnd as [Hn Hnd]. change (put_blobs l (<[(t', id') := b']> B) !! (t, id) = Some b).
  apply elem_of_cons in Hin as [[= -> -> ->]|Hin]; [|by apply IH].
  rewrite put_blobs_other by done. by apply lookup_insert_eq.
Qed.
