(* ===== verification/LinkedList.v ===== *)
(** * cache/doublylinkedlist.go: the doubly linked list of the MRU caches

    Nodes are objects of a heap that point to each other; a node that was taken out
    of the list stays in the heap.  [chain] reads a list of nodes and their data off
    the heap, forwards and backwards, and every operation refines the operation on
    that list. *)

From S2P Require Import Prelude.

Section list.
Context {T : Type}.

Record node := mkNode {
  nd_data : T;
  nd_prev : option N;
  nd_next : option N;
}.

Record doublyLinkedList := mkDll {
  dl_heap : gmap N node;
  dl_fresh : N;
  dl_head : option N;
  dl_tail : option N;
  dl_size : Z;
}.

Local Abbreviation dll := doublyLinkedList.
Local Abbreviation L := (M dll Empty_set).

Definition set_heap (f : gmap N node → gmap N node) (d : dll) : dll :=
  mkDll (f (dl_heap d)) (dl_fresh d) (dl_head d) (dl_tail d) (dl_size d).
Definition set_head (p : option N) (d : dll) : dll :=
  mkDll (dl_heap d) (dl_fresh d) p (dl_tail d) (dl_size d).
Definition set_tail (p : option N) (d : dll) : dll :=
  mkDll (dl_heap d) (dl_fresh d) (dl_head d) p (dl_size d).
Definition add_size (z : Z) (d : dll) : dll :=
  mkDll (dl_heap d) (dl_fresh d) (dl_head d) (dl_tail d) (dl_size d + z).

Definition with_prev (p : option N) (n : node) : node := mkNode (nd_data n) p (nd_next n).
Definition with_next (p : option N) (n : node) : node := mkNode (nd_data n) (nd_prev n) p.

(** Reading and writing a node; a nil pointer panics. *)
Definition deref (p : option N) : L node :=
  p ← or_panic p; n ← gets (λ d, dl_heap d !! p); or_panic n.
Definition write (p : option N) (f : node → node) : L () :=
  n ← deref p; q ← or_panic p; modify (set_heap (insert q (f n))).

Definition new_node (n : node) : L N := λ d,
  (Ret (dl_fresh d), mkDll (<[dl_fresh d := n]> (dl_heap d)) (dl_fresh d + 1) (dl_head d) (dl_tail d) (dl_size d)).

Definition newDoublyLinkedList : dll := mkDll ∅ 0 None None 0.
Definition count (d : dll) : Z := dl_size d.
Definition isEmpty (d : dll) : bool := bool_decide (dl_head d = None).

Definition addToHead (data : T) : L N :=
  head ← gets dl_head;
  newNode ← new_node (mkNode data None head);
  (match head with
   | Some _ => write head (with_prev (Some newNode))
   | None => modify (set_tail (Some newNode))
   end);;
  modify (set_head (Some newNode));;
  modify (add_size 1);;
  mret newNode.

(** [None] for the empty list. *)
Definition deleteFromTail : L (option T) :=
  empty ← gets isEmpty;
  if (empty : bool) then mret None
  else
    head ← gets dl_head; tail ← gets dl_tail;
    n ← deref tail;
    (if decide (head = tail) then modify (set_head None);; modify (set_tail None)
     else
       modify (set_tail (nd_prev n));;
       tail ← gets dl_tail;
       write tail (with_next None));;
    modify (add_size (-1));;
    mret (Some (nd_data n)).

Definition dll_delete (p : option N) : L bool :=
  match p with
  | None => mret false
  | Some _ =>
      n ← deref p;
      head ← gets dl_head;
      (if decide (p = head) then modify (set_head (nd_next n)) else mret ());;
      tail ← gets dl_tail;
      (if decide (p = tail) then modify (set_tail (nd_prev n)) else mret ());;
      (match nd_prev n with Some q => write (Some q) (with_next (nd_next n)) | None => mret () end);;
      (match nd_next n with Some q => write (Some q) (with_prev (nd_prev n)) | None => mret () end);;
      write p (with_next None);;
      write p (with_prev None);;
      modify (add_size (-1));;
      mret true
  end.

(** ** The list in the heap *)

Implicit Types (d : dll) (l : list (N * T)) (h : gmap N node).

Definition head_of l (nxt : option N) : option N := match l with [] => nxt | (p, _) :: _ => Some p end.
Fixpoint last_of (prv : option N) l : option N := match l with [] => prv | (p, _) :: l => last_of (Some p) l end.

Fixpoint chain h (prv : option N) l (nxt : option N) : Prop :=
  match l with
  | [] => True
  | (p, x) :: l => h !! p = Some (mkNode x prv (head_of l nxt)) ∧ chain h (Some p) l nxt
  end.

Definition dll_rep d l : Prop :=
  chain (dl_heap d) None l None ∧ NoDup l.*1 ∧ dl_head d = head_of l None ∧ dl_tail d = last_of None l ∧
  dl_size d = Z.of_nat (length l) ∧ (∀ p, (dl_fresh d ≤ p)%N → dl_heap d !! p = None).

Lemma head_of_app l1 l2 nxt : head_of (l1 ++ l2) nxt = head_of l1 (head_of l2 nxt).
Proof. by destruct l1 as [|[]]. Qed.

Lemma last_of_app l1 l2 prv : last_of prv (l1 ++ l2) = last_of (last_of prv l1) l2.
Proof. revert prv. induction l1 as [|[p x] l1 IH]; intros prv; [done|]. apply IH. Qed.

Lemma chain_app h l1 l2 nxt : ∀ prv,
  chain h prv (l1 ++ l2) nxt ↔ chain h prv l1 (head_of l2 nxt) ∧ chain h (last_of prv l1) l2 nxt.
Proof.
  induction l1 as [|[p x] l1 IH]; intros prv; cbn [chain app last_of]; [naive_solver|].
  rewrite IH, head_of_app. naive_solver.
Qed.

Lemma chain_frame h p n l nxt : p ∉ l.*1 → ∀ prv, chain h prv l nxt → chain (<[p := n]> h) prv l nxt.
Proof.
  induction l as [|[q x] l IH]; intros Hp prv; cbn [chain]; [done|]. rewrite fmap_cons, not_elem_of_cons in Hp.
  destruct Hp as [Hne Hp]. intros [Hq Hc]. rewrite lookup_insert_ne by done. split; [done|]. by apply IH.
Qed.

(** The pointer behind the last node changes with it. *)
Lemma chain_next h prv l p x nxt nxt' : NoDup (l ++ [(p, x)]).*1 → chain h prv (l ++ [(p, x)]) nxt →
  chain (<[p := mkNode x (last_of prv l) nxt']> h) prv (l ++ [(p, x)]) nxt'.
Proof.
  rewrite fmap_app. intros (Hnd & Hdis & _)%NoDup_app. rewrite !chain_app. cbn [chain head_of].
  intros (Hc & _ & _). split; [|by rewrite lookup_insert_eq].
  apply chain_frame; [|done]. intros Hin. apply (Hdis p Hin). by left.
Qed.

(** So does the pointer in front of the first. *)
Lemma chain_prev h prv prv' p x l nxt : p ∉ l.*1 → chain h prv ((p, x) :: l) nxt →
  chain (<[p := mkNode x prv' (head_of l nxt)]> h) prv' ((p, x) :: l) nxt.
Proof.
  intros Hp [Hh Hc]. cbn [chain]. rewrite lookup_insert_eq. split; [done|]. by apply chain_frame.
Qed.
Lemma chain_lookup h prv l nxt p : chain h prv l nxt → p ∈ l.*1 → is_Some (h !! p).
Proof.
  revert prv. induction l as [|[q x] l IH]; intros prv; [by intros _ ?%not_elem_of_nil|].
  intros [Hq Hc]. rewrite fmap_cons. intros [->|Hp]%elem_of_cons; [by eexists|by eapply IH].
Qed.

Lemma fresh_not_in d l : dll_rep d l → dl_fresh d ∉ l.*1.
Proof.
  intros (Hc & _ & _ & _ & _ & Hf) Hin. destruct (chain_lookup _ _ _ _ _ Hc Hin) as [n Hn].
  by rewrite Hf in Hn.
Qed.

Lemma run_deref_node h fr hd tl sz p n : h !! p = Some n →
  deref (Some p) (mkDll h fr hd tl sz) = (Ret n, mkDll h fr hd tl sz).
Proof. intros Hn. cbv [deref or_panic gets mbind M_bind mret M_ret]. cbn [dl_heap]. by rewrite Hn. Qed.

Lemma run_write_node h fr hd tl sz p n f : h !! p = Some n →
  write (Some p) f (mkDll h fr hd tl sz) = (Ret (), mkDll (<[p := f n]> h) fr hd tl sz).
Proof. intros Hn. unfold write. by run (run_deref_node h fr hd tl sz p n Hn). Qed.

Lemma fresh_insert d h p n : (∀ q, (dl_fresh d ≤ q)%N → h !! q = None) → is_Some (h !! p) →
  ∀ q, (dl_fresh d ≤ q)%N → <[p := n]> h !! q = None.
Proof.
  intros Hf [m Hm] q Hq. rewrite lookup_insert_ne; [by apply Hf|]. intros ->. by rewrite Hf in Hm.
Qed.

(** ** Each operation refines the one on lists *)

Lemma new_rep : dll_rep newDoublyLinkedList [].
Proof. split; [done|]. split; [constructor|]. done. Qed.

Lemma run_addToHead d l x : dll_rep d l →
  ∃ d', addToHead x d = (Ret (dl_fresh d), d') ∧ dll_rep d' ((dl_fresh d, x) :: l).
Proof.
  intros Hrep. pose proof (fresh_not_in d l Hrep) as Hnin. destruct d as [h p hd tl sz].
  destruct Hrep as (Hc & Hnd & Hh & Ht & Hs & Hf). cbn [dl_heap dl_fresh dl_head dl_tail dl_size] in *. subst hd tl sz.
  set (n := mkNode x None (head_of l None)).
  assert (Hf' : ∀ q, (p + 1 ≤ q)%N → <[p := n]> h !! q = None)
    by (intros q Hq; rewrite lookup_insert_ne by lia; apply Hf; lia).
  assert (Hc' := chain_frame _ p n _ _ Hnin _ Hc).
  destruct l as [|[q y] l]; cbn [head_of] in *.
  - eexists. split; [reflexivity|]. split; [cbn; by rewrite lookup_insert_eq|].
    split; [by apply NoDup_cons|]. do 3 (split; [done|]). exact Hf'.
  - pose proof Hc' as [Hq Hcl]. rewrite fmap_cons in *. apply NoDup_cons in Hnd as [Hql Hnd].
    apply not_elem_of_cons in Hnin as Hne. destruct Hne as [Hne _].
    eexists. split.
    { cbv beta delta [addToHead new_node mbind M_bind gets] iota. unfold modify, mret, M_ret. cbn [dl_heap dl_head dl_fresh dl_tail dl_size].
      rewrite (run_write_node (<[p := n]> h) _ _ _ _ q _ _ Hq). reflexivity. }
    split; [cbn [set_head add_size set_heap dl_heap]|].
    + cbn [chain head_of]. rewrite lookup_insert_ne, lookup_insert_eq by done. split; [done|].
      apply (chain_prev _ None (Some p)); [done|]. exact Hc'.
    + split; [by rewrite !fmap_cons, !NoDup_cons|]. split; [done|]. split; [done|]. split; [cbn; lia|].
      by apply (fresh_insert (mkDll ∅ (p + 1) None None 0)).
Qed.
Lemma dll_rep_intro h fr hd tl sz l : chain h None l None → NoDup l.*1 → hd = head_of l None →
  tl = last_of None l → sz = Z.of_nat (length l) → (∀ p, (fr ≤ p)%N → h !! p = None) →
  dll_rep (mkDll h fr hd tl sz) l.
Proof. done. Qed.

Lemma run_deleteFromTail_nil d : dll_rep d [] → deleteFromTail d = (Ret None, d).
Proof. intros (_ & _ & Hh & _). unfold deleteFromTail, isEmpty, gets, mbind, M_bind. by rewrite Hh. Qed.

Lemma run_deleteFromTail d l p x : dll_rep d (l ++ [(p, x)]) →
  ∃ d', deleteFromTail d = (Ret (Some x), d') ∧ dll_rep d' l.
Proof.
  destruct d as [h fr hd tl sz]. intros (Hc & Hnd & Hh & Ht & Hs & Hf).
  cbn [dl_heap dl_fresh dl_head dl_tail dl_size] in *. subst hd tl sz. rewrite last_of_app, head_of_app. cbn [last_of head_of].
  pose proof Hc as [_ [Hp _]]%chain_app. cbn [head_of] in Hp.
  destruct l as [|[q y] l _] using rev_ind.
  - eexists. split.
    { unfold deleteFromTail, isEmpty. cbv beta delta [mbind M_bind gets] iota. unfold modify, mret, M_ret.
      cbn [dl_head dl_tail head_of]. rewrite bool_decide_eq_false_2 by done. cbv iota.
      rewrite (run_deref_node h _ _ _ _ p _ Hp), decide_True by done. reflexivity. }
    apply dll_rep_intro; [done|constructor|done..].
  - rewrite <- app_assoc in Hc, Hnd |- *. cbn [app] in Hc, Hnd |- *.
    assert (Hne : head_of (l ++ [(q, y)]) (Some p) ≠ Some p ∧ is_Some (head_of (l ++ [(q, y)]) (Some p))).
    { rewrite fmap_app, !fmap_cons in Hnd. apply NoDup_app in Hnd as (_ & Hdis & Hnd).
      apply NoDup_cons in Hnd as [Hq _]. rewrite head_of_app. destruct l as [|[r z] l]; cbn; (split; [|by eexists]).
      - intros [= ->]. apply Hq. by left.
      - intros [= ->]. apply (Hdis p); [by left|]. right. by left. }
    assert (Hq : h !! q = Some (mkNode y (last_of None l) (Some p))) by (apply chain_app in Hc as [_ [Hq _]]; exact Hq).
    rewrite last_of_app in Hp. cbn [last_of] in Hp. destruct Hne as [Hne [r Hr]].
    eexists. split.
    { unfold deleteFromTail, isEmpty. cbv beta delta [mbind M_bind gets] iota. unfold modify, mret, M_ret.
      cbn [dl_head dl_tail]. rewrite bool_decide_eq_false_2 by (by rewrite Hr). cbv iota.
      rewrite (run_deref_node h _ _ _ _ p _ Hp), decide_False by done. unfold set_tail. cbn [nd_prev dl_heap dl_fresh dl_head dl_tail dl_size].
      rewrite (run_write_node h _ _ _ _ q _ _ Hq). reflexivity. }
    assert (Hnd' : NoDup (l ++ [(q, y)]).*1).
    { rewrite fmap_app, !fmap_cons in Hnd. change (q :: p :: []) with ([q] ++ [p]) in Hnd.
      rewrite fmap_app. rewrite (app_assoc l.*1 [q] [p]) in Hnd. by apply NoDup_app in Hnd as (? & _). }
    apply dll_rep_intro; cbn [dl_heap dl_head dl_tail dl_size dl_fresh set_heap add_size].
    + apply (chain_next _ _ _ _ _ (Some p)); [done|]. change (l ++ (q, y) :: [(p, x)]) with (l ++ [(q, y)] ++ [(p, x)]) in Hc.
      rewrite app_assoc, chain_app in Hc. by destruct Hc.
    + done.
    + rewrite !head_of_app. cbn. by destruct l as [|[]].
    + by rewrite last_of_app.
    + rewrite !length_app. cbn. lia.
    + apply (fresh_insert (mkDll ∅ fr None None 0)); [done|by eexists].
Qed.

Lemma chain_agree h h' prv l nxt : (∀ p, p ∈ l.*1 → h' !! p = h !! p) → chain h prv l nxt → chain h' prv l nxt.
Proof.
  revert prv. induction l as [|[p x] l IH]; intros prv He; cbn [chain]; [done|].
  rewrite fmap_cons in He. intros [Hp Hc]. rewrite He by left. split; [done|].
  apply IH; [|done]. intros q Hq. apply He. by right.
Qed.

(** The writes of [delete] to the neighbors. *)
Lemma run_relink_next h fr hd tl sz l nxt nxt' : NoDup l.*1 → chain h None l nxt →
  ∃ h', (match last_of None l with Some q => write (Some q) (with_next nxt') | None => mret () end) (mkDll h fr hd tl sz) =
      (Ret (), mkDll h' fr hd tl sz) ∧ chain h' None l nxt' ∧
    (∀ r, r ∉ l.*1 → h' !! r = h !! r) ∧ (∀ r, h !! r = None → h' !! r = None).
Proof.
  destruct l as [|[q y] l _] using rev_ind; intros Hnd Hc.
  - by exists h.
  - rewrite last_of_app. cbn [last_of]. pose proof Hc as [_ [Hq _]]%chain_app.
    rewrite (run_write_node h fr hd tl sz q _ _ Hq). eexists. split; [reflexivity|]. split; [by apply (chain_next _ _ _ _ _ nxt)|].
    rewrite fmap_app. split; intros r Hr.
    + apply lookup_insert_ne. intros ->. apply Hr, elem_of_app. right. by left.
    + rewrite lookup_insert_ne; [done|]. intros ->. congruence.
Qed.

Lemma run_relink_prev h fr hd tl sz l prv prv' nxt : NoDup l.*1 → chain h prv l nxt →
  ∃ h', (match head_of l None with Some q => write (Some q) (with_prev prv') | None => mret () end) (mkDll h fr hd tl sz) =
      (Ret (), mkDll h' fr hd tl sz) ∧ chain h' prv' l nxt ∧
    (∀ r, r ∉ l.*1 → h' !! r = h !! r) ∧ (∀ r, h !! r = None → h' !! r = None).
Proof.
  destruct l as [|[q y] l]; intros Hnd Hc.
  - by exists h.
  - cbn [head_of]. rewrite fmap_cons in *. apply NoDup_cons in Hnd as [Hql _]. pose proof Hc as [Hq _].
    rewrite (run_write_node h fr hd tl sz q _ _ Hq). eexists. split; [reflexivity|]. split; [by apply (chain_prev _ prv)|].
    split; intros r Hr.
    + apply lookup_insert_ne. intros ->. apply Hr. by left.
    + rewrite lookup_insert_ne; [done|]. intros ->. congruence.
Qed.

Lemma run_delete d l1 p x l2 : dll_rep d (l1 ++ (p, x) :: l2) →
  ∃ d', dll_delete (Some p) d = (Ret true, d') ∧ dll_rep d' (l1 ++ l2).
Proof.
  destruct d as [h fr hd tl sz]. intros (Hc & Hnd & Hh & Ht & Hs & Hf).
  cbn [dl_heap dl_fresh dl_head dl_tail dl_size] in *.
  pose proof Hc as [Hc1 [Hp Hc2]]%chain_app. cbn [head_of] in Hc1.
  rewrite fmap_app, fmap_cons in Hnd. pose proof Hnd as (Hn1 & Hd1 & [Hp2 Hn2]%NoDup_cons)%NoDup_app.
  assert (Hp1 : p ∉ l1.*1) by (intros Hin; apply (Hd1 p Hin); left).
  assert (Hl1 : last_of None l1 = None → l1 = []) by (by destruct l1 as [|[] ? _] using rev_ind; rewrite ?last_of_app).
  assert (Hhd : hd = Some p ↔ l1 = []).
  { rewrite Hh, head_of_app. cbn. destruct l1 as [|[q y] l1]; [done|]. split; [|done]. intros [= ->]. by destruct Hp1; left. }
  assert (Htl : tl = Some p ↔ l2 = []).
  { rewrite Ht, last_of_app. cbn. destruct l2 as [|[q y] l2 _] using rev_ind; [done|]. rewrite last_of_app. cbn.
    split; [|by destruct l2]. intros [= ->]. destruct Hp2. rewrite fmap_app. apply elem_of_app. right. by left. }
  set (hd' := if decide (Some p = hd) then head_of l2 None else hd).
  set (tl' := if decide (Some p = tl) then last_of None l1 else tl).
  destruct (run_relink_next h fr hd' tl' sz l1 (Some p) (head_of l2 None) Hn1 Hc1) as (h1 & Hr1 & Hc1' & Ho1 & Hf1).
  assert (Hc2' : chain h1 (Some p) l2 None).
  { eapply chain_agree; [|exact Hc2]. intros q Hq. apply Ho1. intros Hq1. apply (Hd1 q Hq1). by right. }
  destruct (run_relink_prev h1 fr hd' tl' sz l2 (Some p) (last_of None l1) None Hn2 Hc2') as (h2 & Hr2 & Hc2'' & Ho2 & Hf2).
  assert (Hp' : h2 !! p = Some (mkNode x (last_of None l1) (head_of l2 None))) by (rewrite Ho2, Ho1; done).
  eexists. split.
  { unfold dll_delete. run (run_deref_node h fr hd tl sz p _ Hp). erewrite bind_Ret by reflexivity. cbn [dl_head nd_next nd_prev].
    assert (E1 : (if decide (Some p = hd) then modify (set_head (head_of l2 None)) else mret ()) (mkDll h fr hd tl sz) =
      (Ret (), mkDll h fr hd' tl sz) :> outcome Empty_set () * _) by (unfold hd'; destruct (decide (Some p = hd)); reflexivity).
    run E1. erewrite bind_Ret by reflexivity. cbn [dl_tail].
    assert (E2 : (if decide (Some p = tl) then modify (set_tail (last_of None l1)) else mret ()) (mkDll h fr hd' tl sz) =
      (Ret (), mkDll h fr hd' tl' sz) :> outcome Empty_set () * _) by (unfold tl'; destruct (decide (Some p = tl)); reflexivity).
    run E2. run Hr1. run Hr2. run (run_write_node h2 fr hd' tl' sz p _ (with_next None) Hp').
    run (run_write_node _ fr hd' tl' sz p _ (with_prev None) (lookup_insert_eq h2 p (with_next None (mkNode x (last_of None l1) (head_of l2 None))))). reflexivity. }
  apply dll_rep_intro.
  - apply chain_frame; [rewrite fmap_app, elem_of_app; naive_solver|].
    apply chain_frame; [rewrite fmap_app, elem_of_app; naive_solver|].
    apply chain_app. split; [|done]. eapply chain_agree; [|exact Hc1'].
    intros q Hq. apply Ho2. intros Hq2. apply (Hd1 q Hq). by right.
  - rewrite fmap_app. apply NoDup_app. split; [done|]. split; [|done]. intros q Hq Hq2. apply (Hd1 q Hq). by right.
  - unfold hd'. rewrite Hh, !head_of_app. cbn [head_of]. case_decide as E.
    + assert (l1 = []) as -> by (apply Hhd; by rewrite Hh, head_of_app). done.
    + destruct l1 as [|[]]; [done|done].
  - unfold tl'. rewrite Ht, !last_of_app. cbn [last_of]. case_decide as E.
    + assert (l2 = []) as -> by (apply Htl; by rewrite Ht, last_of_app). done.
    + destruct l2 as [|[]]; [done|done].
  - rewrite !length_app in *. cbn in *. lia.
  - apply (fresh_insert (mkDll ∅ fr None None 0)); [|by rewrite lookup_insert_eq].
    apply (fresh_insert (mkDll ∅ fr None None 0)); [|by eexists]. intros q Hq. by apply Hf2, Hf1, Hf.
Qed.
End list.
Arguments node : clear implicits.
Arguments doublyLinkedList : clear implicits.
