(* ===== verification/Cache.v ===== *)
(** * cache/cache.go and cache/mru.go: the generic MRU cache

    The cache is an index of entries and a doubly linked list of their keys, most
    recent first; each entry points to its node of the list.  The reference is a
    list of keys and values in that order.  [SynchronizedCache] runs each of these
    operations under its lock. *)

From S2P Require Import Prelude LinkedList.

Section cache.
Context {K V : Type} `{Countable K} (zeroV : V).

Record cacheEntry := mkEntry {
  ce_data : V;
  ce_dllNode : option N;
}.

Record cache := mkCache {
  c_lookup : gmap K cacheEntry;
  c_dll : doublyLinkedList K;
  c_minCapacity : Z;
  c_maxCapacity : Z;
}.

Local Abbreviation C := (M cache Empty_set).

Definition set_lookup (f : gmap K cacheEntry → gmap K cacheEntry) (c : cache) : cache :=
  mkCache (f (c_lookup c)) (c_dll c) (c_minCapacity c) (c_maxCapacity c).
Definition set_dll (d : doublyLinkedList K) (c : cache) : cache :=
  mkCache (c_lookup c) d (c_minCapacity c) (c_maxCapacity c).
Definition on_dll {A} (m : M (doublyLinkedList K) Empty_set A) : C A := λ c,
  let '(r, d) := m (c_dll c) in (r, set_dll d c).

(** ** mru.go *)

Definition mru_add (id : K) : C N := on_dll (addToHead id).
Definition mru_remove (n : option N) : C () := _ ← on_dll (dll_delete n); mret ().
Definition mru_isFull (c : cache) : bool := bool_decide (c_maxCapacity c ≤ count (c_dll c))%Z.

Fixpoint evict_loop (rounds : nat) : C () :=
  match rounds with
  | O => panic
  | S rounds =>
      full ← gets mru_isFull;
      if negb full then mret ()
      else
        r ← on_dll deleteFromTail;
        match r with
        | None => mret ()
        | Some id => modify (set_lookup (base.delete id));; evict_loop rounds
        end
  end.

(** Each turn of the loop takes a node off the list. *)
Definition evict : C () :=
  n ← gets (λ c, count (c_dll c)); evict_loop (S (Z.to_nat n)).

(** ** cache.go *)

Definition NewCache (minCapacity maxCapacity : Z) : cache :=
  mkCache ∅ newDoublyLinkedList minCapacity maxCapacity.
Definition Clear : C () := modify (λ c, NewCache (c_minCapacity c) (c_maxCapacity c)).

Fixpoint set_items (items : list (K * V)) : C () :=
  match items with
  | [] => mret ()
  | (key, value) :: items =>
      v ← gets (λ c, c_lookup c !! key);
      (match v with
       | Some v => mru_remove (ce_dllNode v)
       | None => mret ()
       end);;
      n ← mru_add key;
      modify (set_lookup (insert key (mkEntry value (Some n))));;
      set_items items
  end.
Definition Set_ (items : list (K * V)) : C () := set_items items;; evict.

Fixpoint Get (keys : list K) : C (list V) :=
  match keys with
  | [] => mret []
  | key :: keys =>
      v ← gets (λ c, c_lookup c !! key);
      x ← (match v with
           | Some v =>
               mru_remove (ce_dllNode v);;
               n ← mru_add key;
               modify (set_lookup (insert key (mkEntry (ce_data v) (Some n))));;
               mret (ce_data v)
           | None => mret zeroV
           end);
      r ← Get keys;
      mret (x :: r)
  end.

Fixpoint Delete (keys : list K) : C () :=
  match keys with
  | [] => mret ()
  | key :: keys =>
      v ← gets (λ c, c_lookup c !! key);
      (match v with
       | Some v => mru_remove (ce_dllNode v);; modify (set_lookup (base.delete key))
       | None => mret ()
       end);;
      Delete keys
  end.

Definition Count (c : cache) : Z := Z.of_nat (size (c_lookup c)).
Definition IsFull (c : cache) : bool := mru_isFull c.
Definition Evict : C () := evict.

(** ** The reference: keys and values, the most recent first *)

Implicit Types (l : list (K * V)) (k : K) (v : V) (c : cache).

Definition lru_remove k l : list (K * V) := filter (λ kv, kv.1 ≠ k) l.
Definition lru_touch k v l : list (K * V) := (k, v) :: lru_remove k l.
Fixpoint lru_find k l : option V :=
  match l with [] => None | (k', v) :: l => if decide (k' = k) then Some v else lru_find k l end.
(** A cache that is full loses its oldest entries until it is not. *)
Definition lru_evict (max : Z) l : list (K * V) :=
  if decide (max ≤ Z.of_nat (length l))%Z then take (Z.to_nat (max - 1)) l else l.

Definition lru_set (max : Z) (items : list (K * V)) l : list (K * V) :=
  lru_evict max (foldl (λ l '(k, v), lru_touch k v l) l items).
Fixpoint lru_get (keys : list K) l : list V * list (K * V) :=
  match keys with
  | [] => ([], l)
  | k :: keys =>
      match lru_find k l with
      | Some v => let '(r, l) := lru_get keys (lru_touch k v l) in (v :: r, l)
      | None => let '(r, l) := lru_get keys l in (zeroV :: r, l)
      end
  end.
Definition lru_delete (keys : list K) l : list (K * V) := foldl (λ l k, lru_remove k l) l keys.

Inductive op :=
| OpSet (items : list (K * V))
| OpGet (keys : list K)
| OpDelete (keys : list K)
| OpEvict
| OpClear.

Definition exec (o : op) : C (list V) :=
  match o with
  | OpSet items => Set_ items;; mret []
  | OpGet keys => Get keys
  | OpDelete keys => Delete keys;; mret []
  | OpEvict => Evict;; mret []
  | OpClear => Clear;; mret []
  end.
Fixpoint exec_all (os : list op) : C (list (list V)) :=
  match os with
  | [] => mret []
  | o :: os => r ← exec o; rs ← exec_all os; mret (r :: rs)
  end.

Definition lru_exec (max : Z) (o : op) l : list V * list (K * V) :=
  match o with
  | OpSet items => ([], lru_set max items l)
  | OpGet keys => lru_get keys l
  | OpDelete keys => ([], lru_delete keys l)
  | OpEvict => ([], lru_evict max l)
  | OpClear => ([], [])
  end.
Fixpoint lru_exec_all (max : Z) (os : list op) l : list (list V) * list (K * V) :=
  match os with
  | [] => ([], l)
  | o :: os => let '(r, l) := lru_exec max o l in
               let '(rs, l) := lru_exec_all max os l in (r :: rs, l)
  end.
End cache.
Arguments cacheEntry : clear implicits.
Arguments cache _ _ {_ _}.
Arguments op : clear implicits.

(** ** The cache refines the reference *)

Section refinement.
Context {K V : Type} `{Countable K} (zeroV : V).
Local Abbreviation C := (M (cache K V) Empty_set).
Implicit Types (l : list (K * V)) (k : K) (v : V) (c : cache K V) (cl : list (N * (K * V))).

Definition node_of (x : N * (K * V)) : N * K := (x.1, x.2.1).
Definition entry_of (x : N * (K * V)) : K * cacheEntry V := (x.2.1, mkEntry x.2.2 (Some x.1)).

Definition indexed c cl : Prop :=
  dll_rep (c_dll c) (node_of <$> cl) ∧ NoDup cl.*2.*1 ∧ c_lookup c = list_to_map (entry_of <$> cl).
Definition rep (max : Z) c l : Prop := ∃ cl, indexed c cl ∧ cl.*2 = l ∧ c_maxCapacity c = max.

Lemma entry_keys cl : (entry_of <$> cl).*1 = cl.*2.*1.
Proof. rewrite <- !list_fmap_compose. done. Qed.

Lemma indexed_Some c cl k e : indexed c cl → c_lookup c !! k = Some e →
  ∃ cl1 p v cl2, cl = cl1 ++ (p, (k, v)) :: cl2 ∧ e = mkEntry v (Some p).
Proof.
  intros (_ & Hnd & ->) He. apply elem_of_list_to_map in He; [|by rewrite entry_keys].
  apply list_elem_of_fmap in He as ([p [k' v]] & [= -> ->] & (cl1 & cl2 & ->)%list_elem_of_split). by exists cl1, p, v, cl2.
Qed.

Lemma indexed_None c cl k : indexed c cl → c_lookup c !! k = None → k ∉ cl.*2.*1.
Proof. intros (_ & _ & ->) Hn. rewrite <- entry_keys. by apply not_elem_of_list_to_map_2. Qed.

Lemma NoDup_split {A B : Type} (l1 l2 : list (A * B)) x y : NoDup (l1 ++ (x, y) :: l2).*1 →
  NoDup (l1 ++ l2).*1 ∧ x ∉ l1.*1 ∧ x ∉ l2.*1.
Proof.
  rewrite !fmap_app, fmap_cons. intros Hnd. rewrite <- Permutation_middle in Hnd.
  apply NoDup_cons in Hnd as [Hx Hnd]. by rewrite elem_of_app in Hx; split; [|split; intros ?; apply Hx; auto].
Qed.

Lemma lru_remove_notin k l : k ∉ l.*1 → lru_remove k l = l.
Proof.
  intros Hk. apply filter_all, Forall_forall. intros [k' v] Hin. cbn. intros ->. apply Hk.
  apply list_elem_of_fmap. by exists (k, v).
Qed.

Lemma lru_remove_split k v l1 l2 : NoDup (l1 ++ (k, v) :: l2).*1 → lru_remove k (l1 ++ (k, v) :: l2) = l1 ++ l2.
Proof.
  intros (_ & H1 & H2)%NoDup_split. unfold lru_remove. rewrite filter_app, filter_cons_False by auto.
  f_equal; by apply lru_remove_notin.
Qed.

Lemma lru_find_None k l : k ∉ l.*1 → lru_find k l = None.
Proof.
  induction l as [|[k' v] l IH]; [done|]. rewrite fmap_cons, not_elem_of_cons. cbn [lru_find fst].
  intros [? ?]. rewrite decide_False by (intros ->; done). by apply IH.
Qed.

Lemma lru_find_split k v l1 l2 : k ∉ l1.*1 → lru_find k (l1 ++ (k, v) :: l2) = Some v.
Proof.
  induction l1 as [|[k' v'] l1 IH]; cbn [lru_find app].
  - intros _. by rewrite decide_True.
  - rewrite fmap_cons, not_elem_of_cons. intros [? ?]. rewrite decide_False by (intros ->; done). by apply IH.
Qed.

Lemma split_values cl1 x cl2 : (cl1 ++ x :: cl2).*2 = cl1.*2 ++ x.2 :: cl2.*2.
Proof. by rewrite fmap_app, fmap_cons. Qed.

Lemma index_split cl1 p k v cl2 : NoDup (cl1 ++ (p, (k, v)) :: cl2).*2.*1 →
  base.delete k (list_to_map (entry_of <$> (cl1 ++ (p, (k, v)) :: cl2)) : gmap K (cacheEntry V)) =
    list_to_map (entry_of <$> (cl1 ++ cl2)).
Proof.
  intros Hnd. rewrite <- entry_keys in Hnd.
  assert (Hp : entry_of <$> (cl1 ++ (p, (k, v)) :: cl2) ≡ₚ (k, mkEntry v (Some p)) :: (entry_of <$> (cl1 ++ cl2)))
    by (by rewrite <- Permutation_middle, fmap_cons).
  rewrite (list_to_map_proper _ _ Hnd Hp). cbn [list_to_map]. rewrite Hp in Hnd. cbn in Hnd.
  apply NoDup_cons in Hnd as [Hk _]. apply delete_insert_id. by apply not_elem_of_list_to_map_1.
Qed.

(** An entry moves to the front, or appears there. *)
Lemma run_touch {A} c cl k v (rest : C A) : indexed c cl →
  ∃ c' n cl', ((match c_lookup c !! k with Some e => mru_remove (ce_dllNode e) | None => mret () end);;
      n ← mru_add k; modify (set_lookup (insert k (mkEntry v (Some n))));; rest) c = rest c' ∧
    indexed c' ((n, (k, v)) :: cl') ∧ cl'.*2 = lru_remove k cl.*2 ∧ c_maxCapacity c' = c_maxCapacity c.
Proof.
  intros Hi. pose proof Hi as (Hd & Hnd & Hl). destruct (c_lookup c !! k) as [e|] eqn:Ek.
  - destruct (indexed_Some _ _ _ _ Hi Ek) as (cl1 & p & v0 & cl2 & -> & ->).
    rewrite split_values in *. apply NoDup_split in Hnd as Hs. destruct Hs as (Hnd' & Hk1 & Hk2).
    rewrite fmap_app, fmap_cons in Hd. change (node_of (p, (k, v0))) with (p, k) in Hd.
    destruct (run_delete _ _ _ _ _ Hd) as (d1 & Hr1 & Hd1).
    rewrite <- fmap_app in Hd1. destruct (run_addToHead _ _ k Hd1) as (d2 & Hr2 & Hd2).
    eexists _, (dl_fresh d1), (cl1 ++ cl2). split; [|split].
    + unfold mru_remove, mru_add, on_dll. cbv beta delta [mbind M_bind] iota. cbn [ce_dllNode node_of fst].
      rewrite Hr1. unfold mret, M_ret, set_dll. cbn [c_dll]. rewrite Hr2. reflexivity.
    + split; [exact Hd2|]. cbn [fmap list_fmap snd fst].
      assert (Hnin : k ∉ (cl1 ++ cl2).*2.*1) by (rewrite !fmap_app, elem_of_app; by intros [?|?]).
      split; [apply NoDup_cons; split; [done|by rewrite fmap_app]|].
      cbn [c_lookup set_lookup set_dll]. rewrite Hl, <- insert_delete_eq, index_split by (by rewrite split_values). done.
    + split; [|done]. rewrite fmap_app. symmetry. by apply lru_remove_split.
  - pose proof (indexed_None _ _ _ Hi Ek) as Hk. destruct (run_addToHead _ _ k Hd) as (d2 & Hr2 & Hd2).
    eexists _, (dl_fresh (c_dll c)), cl. split; [|split].
    + unfold mru_add, on_dll. cbv beta delta [mbind M_bind mret M_ret] iota. rewrite Hr2. reflexivity.
    + split; [exact Hd2|]. split; [by apply NoDup_cons|]. cbn. by rewrite Hl.
    + split; [|done]. by rewrite lru_remove_notin.
Qed.

Lemma rep_touch {A} max c l k v (rest : C A) : rep max c l →
  ∃ c', ((match c_lookup c !! k with Some e => mru_remove (ce_dllNode e) | None => mret () end);;
      n ← mru_add k; modify (set_lookup (insert k (mkEntry v (Some n))));; rest) c = rest c' ∧
    rep max c' (lru_touch k v l).
Proof.
  intros (cl & Hi & <- & Hmax). destruct (run_touch c cl k v rest Hi) as (c' & n & cl' & Hrun & Hi' & Hcl & Hm).
  exists c'. split; [done|]. exists ((n, (k, v)) :: cl'). rewrite fmap_cons, Hcl, Hm. done.
Qed.

Lemma find_lookup max c l k : rep max c l →
  match c_lookup c !! k with Some e => lru_find k l = Some (ce_data e) | None => lru_find k l = None end.
Proof.
  intros (cl & Hi & <- & _). destruct (c_lookup c !! k) as [e|] eqn:Ek.
  - destruct (indexed_Some _ _ _ _ Hi Ek) as (cl1 & p & v & cl2 & -> & ->). destruct Hi as (_ & Hnd & _).
    rewrite split_values in *. apply NoDup_split in Hnd as (_ & Hk & _). by apply lru_find_split.
  - apply lru_find_None. by eapply indexed_None.
Qed.

Lemma run_set_items max items : ∀ c l, rep max c l →
  ∃ c', set_items items c = (Ret (), c') ∧ rep max c' (foldl (λ l '(k, v), lru_touch k v l) l items).
Proof.
  induction items as [|[k v] items IH]; intros c l Hr; [by exists c|].
  destruct (rep_touch max c l k v (set_items items) Hr) as (c' & Hrun & Hr').
  destruct (IH c' _ Hr') as (c2 & Hrun2 & Hr2). exists c2. split; [|done].
  cbn [set_items]. erewrite bind_Ret by reflexivity. cbv beta. etransitivity; [|exact Hrun2].
  rewrite <- Hrun. by destruct (c_lookup c !! k).
Qed.

Lemma run_Get max keys : ∀ c l, rep max c l →
  ∃ c', Get zeroV keys c = (Ret (lru_get zeroV keys l).1, c') ∧ rep max c' (lru_get zeroV keys l).2.
Proof.
  induction keys as [|k keys IH]; intros c l Hr; [by exists c|].
  pose proof (find_lookup max c l k Hr) as Hl. cbn [Get lru_get]. erewrite bind_Ret by reflexivity. cbv beta.
  destruct (c_lookup c !! k) as [e|] eqn:Ek; rewrite Hl.
  - destruct (rep_touch max c l k (ce_data e) (mret (ce_data e)) Hr) as (c' & Hrun & Hr'). rewrite Ek in Hrun.
    destruct (IH c' _ Hr') as (c2 & Hrun2 & Hr2).
    rewrite (bind_Ret _ _ _ _ _ Hrun). cbv beta. rewrite (bind_Ret _ _ _ _ _ Hrun2).
    destruct (lru_get zeroV keys _) as [r l2]. by exists c2.
  - destruct (IH c l Hr) as (c2 & Hrun2 & Hr2).
    erewrite bind_Ret by reflexivity. cbv beta. rewrite (bind_Ret _ _ _ _ _ Hrun2).
    destruct (lru_get zeroV keys l) as [r l2]. by exists c2.
Qed.

Lemma run_Delete max keys : ∀ c l, rep max c l →
  ∃ c', Delete keys c = (Ret (), c') ∧ rep max c' (lru_delete keys l).
Proof.
  induction keys as [|k keys IH]; intros c l Hr; [by exists c|].
  destruct Hr as (cl & Hi & <- & Hmax). pose proof Hi as (Hd & Hnd & Hl).
  cbn [Delete]. erewrite bind_Ret by reflexivity. cbv beta.
  change (lru_delete (k :: keys) cl.*2) with (lru_delete keys (lru_remove k cl.*2)).
  destruct (c_lookup c !! k) as [e|] eqn:Ek.
  - destruct (indexed_Some _ _ _ _ Hi Ek) as (cl1 & p & v & cl2 & -> & ->).
    rewrite fmap_app, fmap_cons in Hd. change (node_of (p, (k, v))) with (p, k) in Hd.
    destruct (run_delete _ _ _ _ _ Hd) as (d1 & Hr1 & Hd1). rewrite <- fmap_app in Hd1.
    destruct (IH (set_lookup (base.delete k) (set_dll d1 c)) (cl1 ++ cl2).*2) as (c2 & Hrun2 & Hr2).
    { exists (cl1 ++ cl2). split; [|done]. split; [done|]. split.
      - rewrite fmap_app. rewrite split_values in Hnd. by apply NoDup_split in Hnd as (? & _).
      - cbn [c_lookup set_lookup set_dll]. by rewrite Hl, index_split. }
    exists c2. rewrite split_values in *. cbn [snd] in *. rewrite lru_remove_split by done. rewrite <- fmap_app. split; [|done].
    rewrite <- Hrun2. unfold mru_remove, on_dll. cbv beta delta [mbind M_bind mret M_ret] iota. cbn [ce_dllNode]. by rewrite Hr1.
  - destruct (IH c cl.*2) as (c2 & Hrun2 & Hr2); [by exists cl|].
    exists c2. rewrite lru_remove_notin by (by eapply indexed_None). by split.
Qed.

Lemma indexed_length c cl : indexed c cl → count (c_dll c) = Z.of_nat (length cl.*2).
Proof. intros ((_ & _ & _ & _ & Hs & _) & _). unfold count. by rewrite Hs, !length_fmap. Qed.

Lemma lru_evict_last max l x : (max ≤ Z.of_nat (length (l ++ [x])))%Z → lru_evict max (l ++ [x]) = lru_evict max l.
Proof.
  intros Hm. unfold lru_evict. rewrite decide_True by done. rewrite length_app in Hm. cbn in Hm. case_decide.
  - rewrite take_app_le by lia. done.
  - replace (Z.to_nat (max - 1)) with (length l) by lia. by rewrite take_app_length.
Qed.

Lemma run_evict_loop max rounds : ∀ c l, rep max c l → length l < rounds →
  ∃ c', evict_loop rounds c = (Ret (), c') ∧ rep max c' (lru_evict max l).
Proof.
  induction rounds as [|rounds IH]; intros c l Hr Hlt; [lia|]. destruct Hr as (cl & Hi & <- & Hmax).
  cbn [evict_loop]. erewrite bind_Ret by reflexivity. cbv beta. unfold mru_isFull. rewrite (indexed_length c cl Hi), Hmax.
  destruct (decide (max ≤ Z.of_nat (length cl.*2))%Z) as [Hfull|Hnot].
  - rewrite bool_decide_eq_true_2 by done. cbn [negb]. pose proof Hi as (Hd & Hnd & Hl).
    destruct cl as [|[p [k v]] cl _] using rev_ind.
    + exists c. split; [|exists []; split; [done|split; [|done]]].
      * unfold on_dll. cbv beta delta [mbind M_bind mret M_ret] iota.
        rewrite (run_deleteFromTail_nil _ Hd). unfold set_dll. by destruct c.
      * unfold lru_evict. case_decide; [|done]. by destruct (Z.to_nat (max - 1)).
    + rewrite fmap_app in Hd. cbn in Hd. destruct (run_deleteFromTail _ _ _ _ Hd) as (d1 & Hr1 & Hd1).
      rewrite fmap_app in Hfull, Hlt |- *. cbn [fmap list_fmap snd] in Hfull, Hlt |- *. rewrite lru_evict_last by done.
      destruct (IH (set_lookup (base.delete k) (set_dll d1 c)) cl.*2) as (c2 & Hrun2 & Hr2).
      { exists cl. split; [|done]. split; [done|]. split.
        - rewrite !fmap_app in Hnd. by apply NoDup_app in Hnd as (? & _).
        - cbn [c_lookup set_lookup set_dll]. rewrite Hl, index_split by done. by rewrite app_nil_r. }
      { rewrite length_app in Hlt. cbn in Hlt. lia. }
      exists c2. split; [|done]. rewrite <- Hrun2. unfold on_dll. cbv beta delta [mbind M_bind] iota. by rewrite Hr1.
  - rewrite bool_decide_eq_false_2 by done. exists c. split; [done|]. exists cl. split; [done|]. split; [|done].
    unfold lru_evict. by rewrite decide_False.
Qed.

Lemma run_evict max c l : rep max c l → ∃ c', evict c = (Ret (), c') ∧ rep max c' (lru_evict max l).
Proof.
  intros Hr. unfold evict. erewrite bind_Ret by reflexivity. cbv beta. apply run_evict_loop; [done|].
  destruct Hr as (cl & Hi & <- & _). rewrite (indexed_length c cl Hi). lia.
Qed.

Lemma NewCache_rep min max : rep max (NewCache min max) [].
Proof. exists []. split; [|done]. split; [apply new_rep|]. split; [constructor|done]. Qed.

Lemma run_exec max o c l : rep max c l →
  ∃ c', exec zeroV o c = (Ret (lru_exec zeroV max o l).1, c') ∧ rep max c' (lru_exec zeroV max o l).2.
Proof.
  intros Hr. destruct o as [items|keys|keys| |]; cbn [exec lru_exec fst snd].
  - destruct (run_set_items max items c l Hr) as (c1 & H1 & Hr1). destruct (run_evict max c1 _ Hr1) as (c2 & H2 & Hr2).
    exists c2. split; [|done]. unfold Set_. cbv beta delta [mbind M_bind mret M_ret] iota. by rewrite H1, H2.
  - by apply run_Get.
  - destruct (run_Delete max keys c l Hr) as (c1 & H1 & Hr1). exists c1. split; [|done]. by run H1.
  - destruct (run_evict max c l Hr) as (c1 & H1 & Hr1). exists c1. split; [|done]. unfold Evict. by run H1.
  - exists (NewCache (c_minCapacity c) (c_maxCapacity c)). split; [done|].
    destruct Hr as (_ & _ & _ & <-). apply NewCache_rep.
Qed.

Lemma run_exec_all max os : ∀ c l, rep max c l →
  ∃ c', exec_all zeroV os c = (Ret (lru_exec_all zeroV max os l).1, c') ∧ rep max c' (lru_exec_all zeroV max os l).2.
Proof.
  induction os as [|o os IH]; intros c l Hr; [by exists c|]. cbn [exec_all lru_exec_all].
  destruct (run_exec max o c l Hr) as (c1 & H1 & Hr1). destruct (lru_exec zeroV max o l) as [r l1].
  destruct (IH c1 l1 Hr1) as (c2 & H2 & Hr2). destruct (lru_exec_all zeroV max os l1) as [rs l2].
  exists c2. split; [|done]. run H1. cbv beta. by run H2.
Qed.

Lemma rep_counts max c l : rep max c l →
  Count c = Z.of_nat (length l) ∧ IsFull c = bool_decide (max ≤ Z.of_nat (length l))%Z.
Proof.
  intros (cl & Hi & <- & Hmax). pose proof Hi as (Hd & Hnd & Hl). split.
  - unfold Count. rewrite Hl, map_size_list_to_map by (by rewrite entry_keys). by rewrite !length_fmap.
  - unfold IsFull, mru_isFull. by rewrite (indexed_length c cl Hi), Hmax.
Qed.

Lemma lru_evict_below max l : (0 < max)%Z → (Z.of_nat (length (lru_evict max l)) < max)%Z.
Proof. intros Hm. unfold lru_evict. case_decide; [rewrite length_take|]; lia. Qed.

(** C30: any sequence of operations on a new cache returns what the reference list
    of keys and values, most recent first, returns; no operation panics, the
    eviction loop ends, [Count] and [IsFull] are those of the list, and behind a
    [Set] fewer entries than the maximum capacity are left. *)
Theorem cache_refines_lru min max os items :
  let '(rs, l) := lru_exec_all zeroV max (os ++ [OpSet items]) [] in
  ∃ c, exec_all zeroV (os ++ [OpSet items]) (NewCache min max) = (Ret rs, c) ∧
    Count c = Z.of_nat (length l) ∧ IsFull c = bool_decide (max ≤ Z.of_nat (length l))%Z ∧
    ((0 < max)%Z → (Count c < max)%Z).
Proof.
  destruct (run_exec_all max (os ++ [OpSet items]) (NewCache min max) [] (NewCache_rep min max)) as (c & Hrun & Hr).
  assert (Hl : ∃ l', (lru_exec_all zeroV max (os ++ [OpSet items]) []).2 = lru_evict max l').
  { clear. generalize (@nil (K * V)). induction os as [|o os IH]; intros l; cbn [lru_exec_all app].
    - by eexists.
    - destruct (lru_exec zeroV max o l) as [r l1]. destruct (IH l1) as [l' Hl'].
      exists l'. by destruct (lru_exec_all zeroV max (os ++ [OpSet items]) l1). }
  destruct (lru_exec_all zeroV max (os ++ [OpSet items]) []) as [rs l]. cbn in *. destruct Hl as [l' ->].
  exists c. destruct (rep_counts _ _ _ Hr) as [Hc Hf]. split; [done|]. split; [done|]. split; [done|].
  intros Hm. rewrite Hc. by apply lru_evict_below.
Qed.
End refinement.

(** ** Instances and a finding *)

(** Room for two of three entries: the one that was not read is lost. *)
Lemma cache_refines_lru_witness : ∃ c : cache N Z,
  exec_all 0%Z [OpSet [(1%N, 10%Z); (2%N, 20%Z)]; OpGet [1%N]; OpSet [(3%N, 30%Z)]] (NewCache 1 3) = (Ret [[]; [10%Z]; []], c) ∧
  Count c = 2%Z ∧ (Count c < 3)%Z.
Proof.
  destruct (cache_refines_lru 0%Z 1 3 [OpSet [(1%N, 10%Z); (2%N, 20%Z)]; OpGet [1%N]] [(3%N, 30%Z)])
    as (c & Hrun & Hcount & _ & Hmax).
  exists c. split; [exact Hrun|]. split; [exact Hcount|apply Hmax; lia].
Defined.

(** A cache made for one entry keeps none. *)
Example capacity_one_keeps_nothing :
  (exec_all 0%Z [OpSet [(1%N, 10%Z)]; OpGet [1%N]] (NewCache 1 1 : cache N Z)).1 = Ret [[]; [0%Z]].
Proof. vm_compute. reflexivity. Qed.
