(* ===== verification/Registry.v ===== *)
(** * fs/registry.go: the registry behind its caches

    The hash map of Hashmap is kept on disk; the handles it returns and writes are
    also put into the cache of the process (the MRU cache of Cache) and into the
    shared L2 cache.  An entry of the L2 cache is found under the logical ID that
    its key spells.  Failures of the L2 cache are logged and tolerated. *)

From stdpp Require Import gmap.
From S2P Require Import Prelude Wp Handle Sector Hashmap HashmapSpec HashmapMap LinkedList Cache Stores.

Inductive lock_answer := LockOk | LockBusy | LockError.

(** How the environment answers: the locks of file blocks are obtained; reads of
    the L2 cache fail; writes, removals, unlocks of an ID fail; its lock. *)
Record environment := mkEnvironment {
  e_locked : bool;
  e_getfails : bool;
  e_setfails : UUID → bool;
  e_deletefails : UUID → bool;
  e_lock : UUID → lock_answer;
  e_unlockfails : UUID → bool;
}.

Inductive registry_error :=
| ErrFile (e : reg_error)
| ErrLocked (id : UUID)
| ErrLockFailed (id : UUID)
| ErrUnlock (id : UUID).

Record registryOnDisk := mkRegistry {
  rg_files : gmap string (list (gmap Z (list Z)));
  rg_l1 : cache UUID Handle;
  rg_l2 : gmap UUID Handle;
  rg_env : environment;
}.

Definition set_files (f : gmap string (list (gmap Z (list Z)))) (s : registryOnDisk) : registryOnDisk :=
  mkRegistry f (rg_l1 s) (rg_l2 s) (rg_env s).
Definition set_l1 (c : cache UUID Handle) (s : registryOnDisk) : registryOnDisk :=
  mkRegistry (rg_files s) c (rg_l2 s) (rg_env s).
Definition set_l2 (l : gmap UUID Handle) (s : registryOnDisk) : registryOnDisk :=
  mkRegistry (rg_files s) (rg_l1 s) l (rg_env s).

Section registry.
Context (FromBytes : list Z → option UUID) (blockSize : nat) (hashModValue : Z).

Local Abbreviation G := (M registryOnDisk registry_error).

Definition on_files {A} (m : M (gmap string (list (gmap Z (list Z)))) reg_error A) : G A :=
  on rg_files set_files ErrFile m.
Definition on_l1 {A} (m : M (cache UUID Handle) Empty_set A) : G A :=
  on rg_l1 set_l1 (λ e : Empty_set, match e with end) m.

Definition convertToKvp (handles : list Handle) : list (UUID * Handle) := (λ h, (LogicalID h, h)) <$> handles.

(** [SetStruct] and [Delete] of the L2 cache; an error is only logged. *)
Definition l2_SetStruct (h : Handle) : G () :=
  modify (λ s, if e_setfails (rg_env s) (LogicalID h) then s else set_l2 (<[LogicalID h := h]> (rg_l2 s)) s).
Definition l2_Delete (id : UUID) : G () :=
  modify (λ s, if e_deletefails (rg_env s) id then s else set_l2 (base.delete id (rg_l2 s)) s).

Fixpoint l2_set_all (hs : list Handle) : G () :=
  match hs with [] => mret () | h :: hs => l2_SetStruct h;; l2_set_all hs end.
Fixpoint l2_delete_all (ids : list UUID) : G () :=
  match ids with [] => mret () | id :: ids => l2_Delete id;; l2_delete_all ids end.

(** The loop over the stores that follows a write. *)
Fixpoint refresh_caches (storesHandles : list (RegistryPayload Handle)) : G () :=
  match storesHandles with
  | [] => mret ()
  | sh :: rest =>
      on_l1 (Cache.Set_ (convertToKvp (rp_IDs sh)));;
      l2_set_all (rp_IDs sh);;
      refresh_caches rest
  end.

Definition Add (storesHandles : list (RegistryPayload Handle)) : G () :=
  locked ← gets (λ s, e_locked (rg_env s));
  on_files (rm_add FromBytes blockSize hashModValue locked storesHandles);;
  refresh_caches storesHandles.

Definition UpdateNoLocks (allOrNothing : bool) (storesHandles : list (RegistryPayload Handle)) : G () :=
  locked ← gets (λ s, e_locked (rg_env s));
  on_files (rm_set FromBytes blockSize hashModValue locked storesHandles);;
  refresh_caches storesHandles.

(** The loop of [Update] over the handles of a store. *)
Fixpoint update_handles (table : string) (hs : list Handle) : G () :=
  match hs with
  | [] => mret ()
  | h :: hs =>
      env ← gets rg_env;
      match e_lock env (LogicalID h) with
      | LockBusy => fail (ErrLocked (LogicalID h))
      | LockError => fail (ErrLockFailed (LogicalID h))
      | LockOk =>
          handle (on_files (rm_set FromBytes blockSize hashModValue (e_locked env)
                              [mkRegistryPayload table EmptyString 0 false [h]]))
            (λ _, l2_SetStruct h;;
              if e_unlockfails env (LogicalID h) then fail (ErrUnlock (LogicalID h)) else update_handles table hs)
            (λ e, on_l1 (Cache.Delete [LogicalID h]);; l2_Delete (LogicalID h);; fail e)
      end
  end.

Fixpoint Update (storesHandles : list (RegistryPayload Handle)) : G () :=
  match storesHandles with
  | [] => mret ()
  | sh :: rest =>
      update_handles (rp_RegistryTable sh) (rp_IDs sh);;
      on_l1 (Cache.Set_ (convertToKvp (rp_IDs sh)));;
      Update rest
  end.

(** [Get] of one store: the handles the L2 cache has and then, from the files, the
    others; these are put into the L2 cache. *)
Definition get_lookup (storeLids : RegistryPayload UUID) : G (list Handle * list Handle) :=
  err ← gets (λ s, e_getfails (rg_env s));
  l2 ← gets rg_l2;
  let found (id : UUID) := if (err : bool) then None else l2 !! id in
  let handles := omap found (rp_IDs storeLids) in
  let lids := filter (λ id, found id = None) (rp_IDs storeLids) in
  if decide (lids = []) then mret (handles, [])
  else
    mh ← on_files (rm_fetch FromBytes blockSize hashModValue
                     [mkRegistryPayload (rp_RegistryTable storeLids) EmptyString 0 false lids]);
    p ← or_panic (mh !! 0);
    mret (handles, snd p).

Definition get_store (storeLids : RegistryPayload UUID) : G (RegistryPayload Handle) :=
  '(handles, fetched) ← get_lookup storeLids;
  l2_set_all fetched;;
  mret (mkRegistryPayload (rp_RegistryTable storeLids) (rp_BlobTable storeLids)
          (rp_CacheDuration storeLids) (rp_IsCacheTTL storeLids) (handles ++ fetched)).

Fixpoint Get (storesLids : list (RegistryPayload UUID)) : G (list (RegistryPayload Handle)) :=
  match storesLids with
  | [] => mret []
  | storeLids :: rest => p ← get_store storeLids; ps ← Get rest; mret (p :: ps)
  end.

Fixpoint deleteFromCache (storesLids : list (RegistryPayload UUID)) : G () :=
  match storesLids with
  | [] => mret ()
  | storeLids :: rest =>
      on_l1 (Cache.Delete (rp_IDs storeLids));;
      l2_delete_all (rp_IDs storeLids);;
      deleteFromCache rest
  end.

(** The deferred eviction runs whatever the removal returns. *)
Definition Remove (storesLids : list (RegistryPayload UUID)) : G () := λ s,
  let '(r, s) := on_files (rm_remove FromBytes blockSize hashModValue (e_locked (rg_env s)) storesLids) s in
  match deleteFromCache storesLids s with
  | (Ret _, s) => (r, s)
  | other => other
  end.

(** [registryOnDisk] implements [sop.Registry]. *)
Definition registryOnDisk_Registry : Stores.Registry registryOnDisk registry_error := {|
  registry_Get := Get;
  registry_Add := Add;
  registry_Update := Update;
  registry_UpdateNoLocks := UpdateNoLocks;
  registry_Remove := Remove;
|}.
End registry.
