(* ===== verification/RegistrySpec.v ===== *)
(** * The registry keeps its caches in step with its files

    [holds s T R]: the files of [s] hold the map [T], spread over the tables by
    [home], the IDs [R] are within reach of a write, and every entry of the L2 cache
    agrees with [T].  Each operation keeps it, and the operations satisfy the laws
    of a registry. *)

From stdpp Require Import gmap.
From S2P Require Import Prelude Wp Handle Sector Hashmap HashmapSpec HashmapMap LinkedList Cache Stores Registry.

Section spec.
Context (FromBytes : list Z → option UUID) (blockSize : nat) (hashModValue : Z).
Hypothesis HFB : FromBytes_documented FromBytes.
Hypothesis Hbs : handlesPerBlock * HandleSizeInBytes + 4 ≤ blockSize.
Context (home : UUID → string).

Local Abbreviation G := (M registryOnDisk registry_error).
Local Abbreviation stored := (stored blockSize hashModValue).
Local Abbreviation segs_of fs f := (length (default [] (fs !! f))).
Implicit Types (T : gmap UUID Handle) (R : gset UUID) (fs : files) (s : registryOnDisk) (h : Handle).

(** ** Representation *)

Definition part (f : string) T : gmap UUID Handle := filter (λ kv, home kv.1 = f) T.
Definition part_ids (f : string) R : gset UUID := filter (λ id, home id = f) R.
Definition disk fs T R : Prop := ∀ f, stored fs f (part f T) (part_ids f R).

(** Writes and removals in the L2 cache succeed, and the process cache is sound. *)
Definition sound s : Prop :=
  (∀ id, e_setfails (rg_env s) id = false) ∧ (∀ id, e_deletefails (rg_env s) id = false) ∧
  ∃ max l, rep max (rg_l1 s) l.

Definition reg_stands s T R : Prop := disk (rg_files s) T R ∧ sound s.
Definition reg_holds s T R : Prop := reg_stands s T R ∧ rg_l2 s ⊆ T.
Definition reg_room s (n : nat) : Prop := ∀ f, segs_of (rg_files s) f + n < maxSegments.
Definition uniform s (ids : list UUID) : Prop :=
  e_getfails (rg_env s) = true ∨ Forall (λ id, is_Some (rg_l2 s !! id)) ids ∨ Forall (λ id, rg_l2 s !! id = None) ids.
Definition reg_ordered s (reqs : list (RegistryPayload UUID)) : Prop :=
  NoDup (all_ids reqs) ∧ Forall (λ p, uniform s (rp_IDs p)) reqs.

Lemma part_lookup f T id : part f T !! id = if decide (home id = f) then T !! id else None.
Proof.
  clear HFB Hbs. unfold part. rewrite map_lookup_filter. destruct (T !! id); cbn.
  - repeat case_guard || case_decide; done.
  - by case_decide.
Qed.

Lemma part_put f l : ∀ T, Forall (λ h, home (LogicalID h) = f) l → part f (put_handles l T) = put_all l (part f T).
Proof.
  clear HFB Hbs. induction l as [|h l IH]; intros T Hf; [done|]. apply Forall_cons in Hf as [Hh Hf].
  rewrite put_handles_cons, IH by done. unfold put_all. cbn [foldl]. f_equal.
  apply map_eq. intros id. rewrite part_lookup. destruct (decide (id = LogicalID h)) as [->|].
  - by rewrite decide_True, !lookup_insert_eq by done.
  - rewrite !lookup_insert_ne by done. by rewrite part_lookup.
Qed.

Lemma part_put_other f f' l : ∀ T, Forall (λ h, home (LogicalID h) = f) l → f' ≠ f → part f' (put_handles l T) = part f' T.
Proof.
  clear HFB Hbs. intros T Hf Hne. apply map_eq. intros id. rewrite !part_lookup. case_decide as Hid; [|done].
  apply put_handles_notin. intros (h & -> & Hin)%list_elem_of_fmap. rewrite Forall_forall in Hf. apply Hne. by rewrite <- Hid, (Hf h Hin).
Qed.

Lemma part_delete f ids : ∀ T, Forall (λ id, home id = f) ids → part f (delete_ids ids T) = delete_all ids (part f T).
Proof.
  clear HFB Hbs. induction ids as [|i ids IH]; intros T Hf; [done|]. apply Forall_cons in Hf as [Hh Hf].
  cbn [delete_ids delete_all foldl]. unfold delete_ids, delete_all in IH. rewrite IH by done. f_equal.
  apply map_eq. intros id. rewrite part_lookup. destruct (decide (id = i)) as [->|].
  - by rewrite decide_True, !lookup_delete_eq by done.
  - rewrite !lookup_delete_ne by done. by rewrite part_lookup.
Qed.

Lemma part_delete_other f f' ids : ∀ T, Forall (λ id, home id = f) ids → f' ≠ f → part f' (delete_ids ids T) = part f' T.
Proof.
  clear HFB Hbs. intros T Hf Hne. apply map_eq. intros id. rewrite !part_lookup. case_decide as Hid; [|done].
  rewrite delete_ids_lookup, decide_False; [done|]. intros Hin. rewrite Forall_forall in Hf. apply Hne. by rewrite <- Hid, (Hf id Hin).
Qed.

Lemma stored_untouched fs fs' f f' m (R0 : gset UUID) : untouched f fs fs' → f' ≠ f → stored fs f' m R0 → stored fs' f' m R0.
Proof. clear HFB Hbs. intros Hu Hne. unfold HashmapMap.stored. by rewrite (Hu f' Hne). Qed.

(** What the files hold, seen through one table. *)
Lemma disk_reach fs T R id : disk fs T R → id ∈ R → is_Some (T !! id).
Proof.
  clear HFB Hbs. intros Hd Hid. destruct (Hd (home id)) as (A & (_ & [Hm _] & _) & HR).
  destruct (HR id) as ([s k] & h & Ha & Hh & _); [by apply elem_of_filter|].
  exists h. assert (Hp : part (home id) T !! id = Some h) by (apply Hm; by exists s, k).
  rewrite part_lookup, decide_True in Hp by done. done.
Qed.

Lemma disk_key fs T R id h : disk fs T R → T !! id = Some h → LogicalID h = id ∧ storable h.
Proof.
  clear HFB Hbs. intros Hd Hid. destruct (Hd (home id)) as (A & Hh & _).
  assert (Hp : part (home id) T !! id = Some h) by (by rewrite part_lookup, decide_True).
  apply (holds_storable blockSize hashModValue _ _ _ _ _ Hh) in Hp. by destruct Hp.
Qed.

Lemma batch_in_part f T R ids fs : disk fs T R → Forall (λ id, home id = f) ids → Forall (λ id, id ∈ R) ids →
  Forall (λ id, id ∈ part_ids f R ∧ is_Some (part f T !! id)) ids.
Proof.
  clear HFB Hbs. rewrite !Forall_forall. intros Hd Hf HR id Hin. split.
  - apply elem_of_filter. auto.
  - rewrite part_lookup, decide_True by auto. eapply disk_reach; [exact Hd|auto].
Qed.

(** ** The operations of the hash map on all tables *)

Local Abbreviation rm_fetch := (Hashmap.rm_fetch FromBytes blockSize hashModValue).
Local Abbreviation rm_set := (Hashmap.rm_set FromBytes blockSize hashModValue).
Local Abbreviation rm_add := (Hashmap.rm_add FromBytes blockSize hashModValue).
Local Abbreviation rm_remove := (Hashmap.rm_remove FromBytes blockSize hashModValue).

Lemma run_rm_fetch fs T R table bt d ttl ids : disk fs T R → Forall (λ id, home id = table) ids →
  rm_fetch [mkRegistryPayload table bt d ttl ids] fs = (Ret [(table, omap (T !!.) ids)], fs).
Proof.
  intros Hd Hids. cbn [Hashmap.rm_fetch rp_RegistryTable rp_IDs]. destruct (Hd table) as (A & Hh & _).
  rewrite (bind_Ret _ _ _ _ _ (run_fetch FromBytes blockSize hashModValue HFB Hbs table _ A _ ids fs eq_refl Hh)).
  cbv beta delta [mbind M_bind mret M_ret] iota. do 4 f_equal. clear -Hids.
  induction Hids as [|id ids Hid _ IH]; [done|]. cbn. rewrite part_lookup, decide_True by done. by rewrite IH.
Qed.

Lemma disk_put fs fs' f T R l : disk fs T R → Forall (λ h, home (LogicalID h) = f) l →
  stored fs' f (put_all l (part f T)) (part_ids f R) → untouched f fs fs' → disk fs' (put_handles l T) R.
Proof.
  clear HFB Hbs. intros Hd Hl Hs Hu f'. destruct (decide (f' = f)) as [->|Hne].
  - by rewrite part_put.
  - rewrite (part_put_other f f') by done. by eapply stored_untouched.
Qed.

Definition same_segments fs fs' : Prop := ∀ f, segs_of fs' f = segs_of fs f.

Lemma untouched_segments f fs fs' : untouched f fs fs' → segs_of fs' f = segs_of fs f → same_segments fs fs'.
Proof. clear HFB Hbs. intros Hu Hf f'. destruct (decide (f' = f)) as [->|Hne]; [done|]. by rewrite (Hu f' Hne). Qed.

Lemma wp_rm_set locked hs : ∀ fs T R, disk fs T R → homed_handles home hs → Forall storable (all_ids hs) →
  NoDup (LogicalID <$> all_ids hs) → Forall (λ h, LogicalID h ∈ R) (all_ids hs) →
  wp (rm_set locked hs) fs
    (λ _ fs', disk fs' (put_handles (all_ids hs) T) R ∧ same_segments fs fs')
    (λ _ fs', locked = false ∧ fs' = fs).
Proof.
  induction hs as [|p hs IH]; intros fs T R Hd Hhome Hst Hnd HR; [by apply wp_ret|].
  apply Forall_cons in Hhome as [Hp Hhome]. rewrite all_ids_cons in *.
  rewrite fmap_app in Hnd. apply NoDup_app in Hnd as (Hnd1 & _ & Hnd2).
  apply Forall_app in Hst as [Hst1 Hst2]. apply Forall_app in HR as [HR1 HR2].
  cbn [Hashmap.rm_set]. apply wp_bind.
  assert (Hin : Forall (λ id, id ∈ part_ids (rp_RegistryTable p) R ∧ is_Some (part (rp_RegistryTable p) T !! id))
    (LogicalID <$> rp_IDs p)).
  { eapply batch_in_part; [exact Hd| |]; apply Forall_fmap; [|exact HR1].
    eapply Forall_impl; [exact Hp|]. by intros h. }
  destruct locked.
  - destruct (run_set_handles FromBytes blockSize hashModValue HFB Hbs fs _ _ _ (rp_IDs p) (Hd (rp_RegistryTable p)) Hnd1 Hst1 Hin)
      as (fs1 & Hrun & Hs1 & Hu1 & Hl1).
    eapply wp_Ret; [exact Hrun|]. eapply wp_mono.
    + apply (IH fs1 (put_handles (rp_IDs p) T) R); [|done..]. by eapply disk_put.
    + intros _ fs2 [Hd2 Hl2]. rewrite put_handles_app. split; [done|]. intros f.
      rewrite Hl2. by eapply untouched_segments.
    + by intros _ fs2 [? ?].
  - destruct (decide (rp_IDs p = [])) as [He|Hne].
    + rewrite He. eapply wp_Ret; [reflexivity|]. by apply (IH fs T R).
    + unfold wp. by rewrite (run_set_handles_unlocked FromBytes blockSize hashModValue HFB Hbs fs _ _ _ (rp_IDs p) (Hd (rp_RegistryTable p)) Hin).
Qed.

Lemma part_ids_new f h R : home (LogicalID h) = f → part_ids f ({[LogicalID h]} ∪ R) = {[LogicalID h]} ∪ part_ids f R.
Proof.
  clear HFB Hbs. intros Hh. apply set_eq. intros id. unfold part_ids. rewrite elem_of_filter, !elem_of_union, elem_of_filter, elem_of_singleton.
  split; [tauto|]. intros [->|?]; tauto.
Qed.

Lemma part_ids_other f h R : home (LogicalID h) ≠ f → part_ids f ({[LogicalID h]} ∪ R) = part_ids f R.
Proof.
  clear HFB Hbs. intros Hh. apply set_eq. intros id. unfold part_ids. rewrite !elem_of_filter, !elem_of_union, elem_of_singleton.
  split; [|tauto]. intros [? [->|?]]; [by destruct Hh|done].
Qed.

Lemma disk_add fs fs' f T R h : disk fs T R → home (LogicalID h) = f →
  stored fs' f (<[LogicalID h := h]> (part f T)) ({[LogicalID h]} ∪ part_ids f R) → untouched f fs fs' →
  disk fs' (<[LogicalID h := h]> T) ({[LogicalID h]} ∪ R).
Proof.
  clear HFB Hbs. intros Hd Hh Hs Hu f'. destruct (decide (f' = f)) as [->|Hne].
  - rewrite part_ids_new by done. pose proof (part_put f [h] T ltac:(by apply Forall_singleton)) as Hp.
    change (put_handles [h] T) with (<[LogicalID h := h]> T) in Hp. rewrite Hp. done.
  - rewrite part_ids_other by congruence. pose proof (part_put_other f f' [h] T ltac:(by apply Forall_singleton) Hne) as Hp.
    change (put_handles [h] T) with (<[LogicalID h := h]> T) in Hp. rewrite Hp. by eapply stored_untouched.
Qed.

Definition files_room fs (n : nat) : Prop := ∀ f, segs_of fs f + n < maxSegments.
Definition new_ids (l : list Handle) R : gset UUID := list_to_set (LogicalID <$> l) ∪ R.

Lemma new_ids_cons h l R : new_ids l ({[LogicalID h]} ∪ R) = new_ids (h :: l) R.
Proof.
  clear HFB Hbs. unfold new_ids. rewrite fmap_cons, list_to_set_cons.
  rewrite (assoc_L (∪)), (comm_L (∪) (list_to_set _)). done.
Qed.

Lemma new_ids_app l1 l2 R : new_ids l2 (new_ids l1 R) = new_ids (l1 ++ l2) R.
Proof.
  clear HFB Hbs. unfold new_ids. rewrite fmap_app, list_to_set_app_L.
  rewrite (assoc_L (∪)), (comm_L (∪) (list_to_set (LogicalID <$> l2))). done.
Qed.

Lemma wp_add_handles locked f l : f ≠ EmptyString → ∀ fs T R n, disk fs T R →
  Forall (λ h, home (LogicalID h) = f) l → Forall storable l → NoDup (LogicalID <$> l) →
  Forall (λ h, T !! LogicalID h = None) l → files_room fs (length l + n) →
  wp (add_handles FromBytes blockSize hashModValue locked f l) fs
    (λ _ fs', disk fs' (put_handles l T) (new_ids l R) ∧ files_room fs' n)
    (λ _ fs', locked = false ∧ fs' = fs).
Proof.
  intros Hf. induction l as [|h l IH]; intros fs T R n Hd Hhome Hst Hnd Hnew Hroom.
  - apply wp_ret. split; [|done]. unfold new_ids. rewrite fmap_nil, list_to_set_nil, (left_id_L ∅ (∪)). done.
  - apply Forall_cons in Hhome as [Hh Hhome]. apply Forall_cons in Hst as [Hs Hst]. apply Forall_cons in Hnew as [Hn Hnew].
    rewrite fmap_cons in Hnd. apply NoDup_cons in Hnd as [Hnin Hnd].
    cbn [add_handles]. apply wp_bind. destruct locked.
    + assert (Hpn : part f T !! LogicalID h = None) by (by rewrite part_lookup, decide_True by done).
      assert (Hseg : S (segs_of fs f) < maxSegments) by (specialize (Hroom f); cbn [length plus] in Hroom; lia).
      destruct (run_findAndAdd FromBytes blockSize hashModValue HFB Hbs fs f _ _ _ h eq_refl (Hd f) Hf Hs Hpn Hseg)
        as (segs & Hrun & Ht & Hl).
      eapply wp_Ret; [exact Hrun|]. eapply wp_mono.
      * apply (IH (<[f := segs]> fs) (<[LogicalID h := h]> T) ({[LogicalID h]} ∪ R) n); [|done..| |].
        -- eapply disk_add; [exact Hd|done|by apply stored_insert|apply untouched_insert].
        -- apply Forall_forall. intros h' Hin. rewrite lookup_insert_ne.
           ++ by apply (proj1 (Forall_forall _ _) Hnew).
           ++ intros Heq. apply Hnin. rewrite Heq. by apply list_elem_of_fmap_2.
        -- intros f'. specialize (Hroom f'). cbn [length plus] in Hroom. destruct (decide (f' = f)) as [->|Hne].
           ++ rewrite lookup_insert_eq. cbn [default]. unfold default, id in *. lia.
           ++ rewrite lookup_insert_ne by done. lia.
      * intros _ fs' [Hd' Hr']. by rewrite put_handles_cons, <- new_ids_cons.
      * by intros _ fs' [? ?].
    + unfold wp, findAndAdd. by rewrite decide_False.
Qed.

Lemma wp_rm_add locked hs : ∀ fs T R n, disk fs T R → homed_handles home hs →
  Forall (λ p, rp_RegistryTable p ≠ EmptyString) hs → Forall storable (all_ids hs) →
  NoDup (LogicalID <$> all_ids hs) → Forall (λ h, T !! LogicalID h = None) (all_ids hs) →
  files_room fs (length (all_ids hs) + n) →
  wp (rm_add locked hs) fs
    (λ _ fs', disk fs' (put_handles (all_ids hs) T) (new_ids (all_ids hs) R) ∧ files_room fs' n)
    (λ _ fs', locked = false ∧ fs' = fs).
Proof.
  induction hs as [|p hs IH]; intros fs T R n Hd Hhome Hne Hst Hnd Hnew Hroom.
  - apply (wp_add_handles locked "t" [] ltac:(done) fs T R n); try done; by constructor.
  - apply Forall_cons in Hhome as [Hp Hhome]. apply Forall_cons in Hne as [Hf Hne]. rewrite all_ids_cons in *.
    rewrite fmap_app in Hnd. apply NoDup_app in Hnd as (Hnd1 & Hdis & Hnd2).
    apply Forall_app in Hst as [Hst1 Hst2]. apply Forall_app in Hnew as [Hn1 Hn2].
    cbn [Hashmap.rm_add]. apply wp_bind. rewrite length_app, <- Nat.add_assoc in Hroom.
    assert (Hp' : Forall (λ h, home (LogicalID h) = rp_RegistryTable p) (rp_IDs p)) by (eapply Forall_impl; [exact Hp|by intros h]).
    destruct locked.
    + eapply wp_mono; [by apply (wp_add_handles true _ (rp_IDs p) Hf fs T R (length (all_ids hs) + n))| |by intros _ fs' [? ?]].
      intros _ fs1 [Hd1 Hr1]. eapply wp_mono; [apply (IH fs1 (put_handles (rp_IDs p) T) (new_ids (rp_IDs p) R) n); try done| |by intros _ fs' [? ?]].
      * apply Forall_forall. intros h Hin. rewrite put_handles_notin; [by apply (proj1 (Forall_forall _ _) Hn2)|].
        intros Hin1. apply (Hdis _ Hin1). by apply list_elem_of_fmap_2.
      * intros _ fs' [Hd' Hr']. by rewrite put_handles_app, <- new_ids_app.
    + destruct (rp_IDs p) as [|h l] eqn:He.
      * eapply wp_Ret; [reflexivity|]. by apply (IH fs T R n).
      * unfold wp. cbn [add_handles]. unfold findAndAdd. by rewrite decide_False.
Qed.

(** IDs that stay within reach when [ids] of the table [f] are removed. *)
Definition out_of (f : string) (ids : list UUID) R : gset UUID :=
  filter (λ id, home id ≠ f ∨ Forall (λ id', block_of blockSize hashModValue id ≠ block_of blockSize hashModValue id') ids) R.

Lemma disk_delete fs fs' f T R ids : disk fs T R → Forall (λ id, home id = f) ids →
  stored fs' f (delete_all ids (part f T)) (apart blockSize hashModValue ids (part_ids f R)) → untouched f fs fs' →
  disk fs' (delete_ids ids T) (out_of f ids R).
Proof.
  clear HFB Hbs. intros Hd Hl Hs Hu f'. destruct (decide (f' = f)) as [->|Hne].
  - rewrite part_delete by done. replace (part_ids f (out_of f ids R)) with (apart blockSize hashModValue ids (part_ids f R)); [done|].
    apply set_eq. intros id. unfold part_ids, out_of, apart. rewrite !elem_of_filter. tauto.
  - rewrite (part_delete_other f f') by done. replace (part_ids f' (out_of f ids R)) with (part_ids f' R); [by eapply stored_untouched|].
    apply set_eq. intros id. unfold part_ids, out_of. rewrite !elem_of_filter. split; [|tauto].
    intros [Hid Hin]. split; [done|]. split; [|done]. left. congruence.
Qed.

Lemma delete_ids_app l1 l2 T : delete_ids (l1 ++ l2) T = delete_ids l2 (delete_ids l1 T).
Proof. apply foldl_app. Qed.

(** Two IDs that share a block of their table, and the IDs that share none with the
    removed ones. *)
Definition collides (id id' : UUID) : Prop :=
  home id = home id' ∧ block_of blockSize hashModValue id = block_of blockSize hashModValue id'.
#[global] Instance collides_dec id id' : Decision (collides id id').
Proof. unfold collides. apply _. Defined.
Definition spared (ids : list UUID) R : gset UUID := filter (λ id, Forall (λ id', ¬ collides id id') ids) R.

Lemma spared_out_of f ids ids' R : Forall (λ id, home id = f) ids → spared (ids ++ ids') R ⊆ spared ids' (out_of f ids R).
Proof.
  clear HFB Hbs. intros Hf id [[H1 H2]%Forall_app Hid]%elem_of_filter. apply elem_of_filter. split; [done|].
  apply elem_of_filter. split; [|done]. destruct (decide (home id = f)) as [He|]; [right|by left].
  apply Forall_forall. intros id' Hin Hb. rewrite Forall_forall in H1, Hf. apply (H1 id' Hin). split; [|done]. by rewrite He, (Hf id').
Qed.

Lemma wp_rm_remove locked reqs : ∀ fs T R, disk fs T R → homed home reqs → NoDup (rp_RegistryTable <$> reqs) →
  NoDup (all_ids reqs) → Forall (λ id, id ∈ R) (all_ids reqs) →
  wp (rm_remove locked reqs) fs
    (λ _ fs', (∃ R', disk fs' (delete_ids (all_ids reqs) T) R' ∧ R' ⊆ R ∧ spared (all_ids reqs) R ⊆ R') ∧ same_segments fs fs')
    (λ _ fs', locked = false ∧ fs' = fs).
Proof.
  induction reqs as [|p reqs IH]; intros fs T R Hd Hhome Hdist Hnd HR; [apply wp_ret; split; [|done]|].
  { exists R. split; [done|]. split; [done|]. by intros id [_ ?]%elem_of_filter. }
  apply Forall_cons in Hhome as [Hp Hhome]. rewrite all_ids_cons in *. rewrite fmap_cons in Hdist.
  apply NoDup_cons in Hdist as [Hf Hdist]. apply NoDup_app in Hnd as (Hnd1 & _ & Hnd2). apply Forall_app in HR as [HR1 HR2].
  assert (Hp' : Forall (λ id, home id = rp_RegistryTable p) (rp_IDs p)) by (eapply Forall_impl; [exact Hp|by intros h]).
  pose proof (batch_in_part _ _ _ _ _ Hd Hp' HR1) as Hin.
  cbn [Hashmap.rm_remove]. apply wp_bind. destruct locked.
  - destruct (run_remove_handles FromBytes blockSize hashModValue HFB Hbs fs _ _ _ (rp_IDs p) (Hd (rp_RegistryTable p)) Hnd1 Hin)
      as (fs1 & Hrun & Hs1 & Hu1 & Hsg1).
    eapply wp_Ret; [exact Hrun|]. eapply wp_mono.
    + apply (IH fs1 (delete_ids (rp_IDs p) T) (out_of (rp_RegistryTable p) (rp_IDs p) R)); [by eapply disk_delete|done..|].
      apply Forall_forall. intros id Hid. apply elem_of_filter. split; [|by apply (proj1 (Forall_forall _ _) HR2)].
      left. intros Heq. apply Hf. apply list_elem_of_bind in Hid as (q & Hid & Hq).
      apply (proj1 (Forall_forall _ _) Hhome) in Hq as Hhq. apply (proj1 (Forall_forall _ _) Hhq) in Hid.
      rewrite <- Heq, Hid. by apply list_elem_of_fmap_2.
    + intros _ fs' ((R' & Hd' & HR' & Hsp) & Hsg). rewrite delete_ids_app. split.
      * exists R'. split; [done|]. split; [intros id [_ ?]%HR'%elem_of_filter; done|].
        transitivity (spared (all_ids reqs) (out_of (rp_RegistryTable p) (rp_IDs p) R)); [by apply spared_out_of|done].
      * intros f. rewrite Hsg. by apply (untouched_segments (rp_RegistryTable p)).
    + by intros _ fs' [? ?].
  - destruct (decide (rp_IDs p = [])) as [He|Hne].
    + rewrite He. eapply wp_Ret; [reflexivity|]. by apply (IH fs T R).
    + unfold wp. by rewrite (run_remove_handles_unlocked FromBytes blockSize hashModValue HFB Hbs fs _ _ _ (rp_IDs p) (Hd (rp_RegistryTable p)) Hin).
Qed.

(** ** The caches *)

(** Only the caches change, and the L2 cache to [l2]. *)
Definition recached s (l2 : gmap UUID Handle) s' : Prop :=
  rg_files s' = rg_files s ∧ rg_env s' = rg_env s ∧ rg_l2 s' = l2 ∧ ∃ max l, rep max (rg_l1 s') l.

Lemma recached_sound s l2 s' : sound s → recached s l2 s' → sound s'.
Proof. clear HFB Hbs. intros (H1 & H2 & _) (_ & He & _ & Hr). unfold sound. by rewrite He. Qed.

Lemma recached_trans s l1 s1 l2 s2 : recached s l1 s1 → recached s1 l2 s2 → recached s l2 s2.
Proof. clear HFB Hbs. intros (H1 & H2 & _ & _) (Hf & He & Hl & Hr). split; [congruence|]. split; [congruence|]. done. Qed.

Lemma wp_l1_Set items s : sound s → wp (on_l1 (Cache.Set_ items)) s (λ _ s', recached s (rg_l2 s) s') (λ _ _, False).
Proof.
  clear HFB Hbs. intros (_ & _ & max & l & Hr). apply wp_on. unfold Cache.Set_. apply wp_bind.
  destruct (run_set_items max items _ _ Hr) as (c1 & Hrun1 & Hr1). eapply wp_Ret; [exact Hrun1|].
  destruct (run_evict max c1 _ Hr1) as (c2 & Hrun2 & Hr2). eapply wp_Ret; [exact Hrun2|]. repeat split; eauto.
Qed.

Lemma wp_l1_Delete ids s : sound s → wp (on_l1 (Cache.Delete ids)) s (λ _ s', recached s (rg_l2 s) s') (λ _ _, False).
Proof.
  clear HFB Hbs. intros (_ & _ & max & l & Hr). apply wp_on.
  destruct (run_Delete max ids _ _ Hr) as (c1 & Hrun1 & Hr1). eapply wp_Ret; [exact Hrun1|]. repeat split; eauto.
Qed.

Lemma wp_l2_set_all l : ∀ s, sound s →
  wp (l2_set_all l) s (λ _ s', recached s (put_handles l (rg_l2 s)) s') (λ _ _, False).
Proof.
  clear HFB Hbs. induction l as [|h l IH]; intros s Hs; cbn [l2_set_all].
  - apply wp_ret. destruct Hs as (_ & _ & Hr). done.
  - apply wp_bind. apply wp_modify. destruct Hs as (H1 & H2 & Hr). rewrite H1.
    eapply wp_mono; [apply IH; by split|intros [] s' Hs'|done].
    destruct Hs' as (Hf & He & Hl & Hr'). split; [exact Hf|]. split; [exact He|]. by split.
Qed.

Lemma wp_l2_delete_all ids : ∀ s, sound s →
  wp (l2_delete_all ids) s (λ _ s', recached s (delete_ids ids (rg_l2 s)) s') (λ _ _, False).
Proof.
  clear HFB Hbs. induction ids as [|id ids IH]; intros s Hs; cbn [l2_delete_all].
  - apply wp_ret. destruct Hs as (_ & _ & Hr). done.
  - apply wp_bind. apply wp_modify. destruct Hs as (H1 & H2 & Hr). rewrite H2.
    eapply wp_mono; [apply IH; by split|intros [] s' Hs'|done].
    destruct Hs' as (Hf & He & Hl & Hr'). split; [exact Hf|]. split; [exact He|]. by split.
Qed.

Lemma wp_refresh_caches hs : ∀ s, sound s →
  wp (refresh_caches hs) s (λ _ s', recached s (put_handles (all_ids hs) (rg_l2 s)) s') (λ _ _, False).
Proof.
  clear HFB Hbs. induction hs as [|p hs IH]; intros s Hs; cbn [refresh_caches].
  - apply wp_ret. destruct Hs as (_ & _ & Hr). done.
  - apply wp_bind. eapply wp_mono; [by apply wp_l1_Set|intros [] s1 H1|done]. pose proof (recached_sound _ _ _ Hs H1) as Hs1.
    apply wp_bind. eapply wp_mono; [by apply wp_l2_set_all|intros [] s2 H2|done]. pose proof (recached_sound _ _ _ Hs1 H2) as Hs2.
    eapply wp_mono; [by apply IH|intros [] s3 H3|done]. rewrite all_ids_cons, put_handles_app.
    replace (rg_l2 s) with (rg_l2 s1) by apply H1. replace (put_handles _ (rg_l2 s1)) with (rg_l2 s2) by apply H2.
    eapply recached_trans; [exact H1|]. by eapply recached_trans.
Qed.

Lemma wp_deleteFromCache reqs : ∀ s, sound s →
  wp (deleteFromCache reqs) s (λ _ s', recached s (delete_ids (all_ids reqs) (rg_l2 s)) s') (λ _ _, False).
Proof.
  clear HFB Hbs. induction reqs as [|p reqs IH]; intros s Hs; cbn [deleteFromCache].
  - apply wp_ret. destruct Hs as (_ & _ & Hr). done.
  - apply wp_bind. eapply wp_mono; [by apply wp_l1_Delete|intros [] s1 H1|done]. pose proof (recached_sound _ _ _ Hs H1) as Hs1.
    apply wp_bind. eapply wp_mono; [by apply wp_l2_delete_all|intros [] s2 H2|done]. pose proof (recached_sound _ _ _ Hs1 H2) as Hs2.
    eapply wp_mono; [by apply IH|intros [] s3 H3|done]. rewrite all_ids_cons, delete_ids_app.
    replace (rg_l2 s) with (rg_l2 s1) by apply H1. replace (delete_ids _ (rg_l2 s1)) with (rg_l2 s2) by apply H2.
    eapply recached_trans; [exact H1|]. by eapply recached_trans.
Qed.

Lemma put_handles_mono l : ∀ T T', T' ⊆ T → put_handles l T' ⊆ put_handles l T.
Proof. clear HFB Hbs. induction l as [|h l IH]; intros T T' HT; [done|]. rewrite !put_handles_cons. by apply IH, insert_mono. Qed.

Lemma delete_ids_mono ids : ∀ T T', T' ⊆ T → delete_ids ids T' ⊆ delete_ids ids T.
Proof. clear HFB Hbs. induction ids as [|i ids IH]; intros T T' HT; [done|]. cbn. by apply IH, delete_mono. Qed.

Lemma put_handles_sub l T : ∀ T', Forall (λ h, T !! LogicalID h = Some h) l → T' ⊆ T → put_handles l T' ⊆ T.
Proof.
  clear HFB Hbs. induction l as [|h l IH]; intros T' Hl HT; [done|]. apply Forall_cons in Hl as [Hh Hl].
  rewrite put_handles_cons. apply IH; [done|]. apply map_subseteq_spec. intros id x Hx.
  apply lookup_insert_Some in Hx as [[<- <-]|[_ Hx]]; [done|]. by eapply lookup_weaken.
Qed.

(** Writes of a batch one after the other. *)
Lemma between_step l1 l2 T T' : NoDup (LogicalID <$> l1 ++ l2) →
  between (put_handles l1 T) (put_handles l2 (put_handles l1 T)) T' → between T (put_handles (l1 ++ l2) T) T'.
Proof.
  clear HFB Hbs. rewrite fmap_app. intros (_ & Hdis & _)%NoDup_app Hb id. rewrite put_handles_app.
  destruct (Hb id) as [->| ->]; [|by right].
  destruct (decide (id ∈ LogicalID <$> l1)) as [Hin|Hin]; [|left; by apply put_handles_notin].
  right. symmetry. apply put_handles_notin. auto.
Qed.

(** ** The operations *)

Local Abbreviation Add := (Registry.Add FromBytes blockSize hashModValue).
Local Abbreviation Update := (Registry.Update FromBytes blockSize hashModValue).
Local Abbreviation update_handles := (Registry.update_handles FromBytes blockSize hashModValue).
Local Abbreviation UpdateNoLocks := (Registry.UpdateNoLocks FromBytes blockSize hashModValue).
Local Abbreviation Get := (Registry.Get FromBytes blockSize hashModValue).
Local Abbreviation get_store := (Registry.get_store FromBytes blockSize hashModValue).
Local Abbreviation Remove := (Registry.Remove FromBytes blockSize hashModValue).

Lemma holds_after fs s s' T T' R l2 : disk fs T R → sound s → recached (set_files fs s) l2 s' → l2 ⊆ T' → T' = T →
  reg_holds s' T R.
Proof.
  clear HFB Hbs. intros Hd Hs Hr Hl ->. pose proof (recached_sound (set_files fs s) _ _ Hs Hr) as Hs'.
  destruct Hr as (Hf & _ & Hl2 & _). split; [split; [by rewrite Hf|done]|]. by rewrite Hl2.
Qed.

Lemma room_of s s' n : same_segments (rg_files s) (rg_files s') → reg_room s n → reg_room s' n.
Proof. clear HFB Hbs. intros Hss Hr f. rewrite Hss. apply Hr. Qed.

Lemma wp_UpdateNoLocks s T R b hs : reg_holds s T R → homed_handles home hs → Forall storable (all_ids hs) →
  NoDup (LogicalID <$> all_ids hs) → Forall (λ h, LogicalID h ∈ R) (all_ids hs) →
  wp (UpdateNoLocks b hs) s
    (λ _ s', reg_holds s' (put_handles (all_ids hs) T) R ∧ (∀ n, reg_room s n → reg_room s' n) ∧
       (∀ reqs, NoDup (all_ids reqs) → all_ids reqs ⊆ LogicalID <$> all_ids hs → reg_ordered s' reqs))
    (λ _ s', ∃ T', reg_stands s' T' R ∧ between T (put_handles (all_ids hs) T) T').
Proof.
  intros [[Hd Hs] Hl] Hhome Hst Hnd HR. unfold UpdateNoLocks. wp_step. apply wp_gets. wp_step. apply wp_on.
  eapply wp_mono; [by apply (wp_rm_set _ hs _ T R)| |].
  - intros [] fs [Hd' Hss]. eapply wp_mono; [apply wp_refresh_caches; exact Hs| |done].
    intros [] s' Hr. split.
    + eapply holds_after; [exact Hd'|exact Hs|exact Hr|by apply put_handles_mono|done].
    + split; [intros n; apply room_of; intros f; destruct Hr as (-> & _); apply Hss|].
      intros reqs Hnr Hsub. split; [done|]. apply Forall_forall. intros p Hp. right. left. apply Forall_forall. intros id Hid.
      destruct Hr as (_ & _ & Hl2 & _). rewrite Hl2. assert (Hin : id ∈ LogicalID <$> all_ids hs).
      { apply Hsub. apply list_elem_of_bind. by exists p. }
      apply list_elem_of_fmap in Hin as (h & -> & Hin). exists h. by apply put_handles_in.
  - intros e fs [_ ->]. exists T. split; [by split|apply between_refl].
Qed.

Lemma wp_Add s T R hs n : reg_holds s T R → homed_handles home hs → Forall (λ p, rp_RegistryTable p ≠ EmptyString) hs →
  Forall storable (all_ids hs) → NoDup (LogicalID <$> all_ids hs) →
  Forall (λ h, T !! LogicalID h = None) (all_ids hs) → reg_room s (length (all_ids hs) + n) →
  wp (Add hs) s
    (λ _ s', reg_holds s' (put_handles (all_ids hs) T) (new_ids (all_ids hs) R) ∧ reg_room s' n)
    (λ _ s', ∃ T' R', reg_stands s' T' R' ∧ between T (put_handles (all_ids hs) T) T' ∧ R ⊆ R').
Proof.
  intros [[Hd Hs] Hl] Hhome Hne Hst Hnd Hnew Hroom. unfold Add. wp_step. apply wp_gets. wp_step. apply wp_on.
  eapply wp_mono; [by apply (wp_rm_add _ hs _ T R n)| |].
  - intros [] fs [Hd' Hro]. eapply wp_mono; [apply wp_refresh_caches; exact Hs| |done].
    intros [] s' Hr. split.
    + eapply holds_after; [exact Hd'|exact Hs|exact Hr|by apply put_handles_mono|done].
    + intros f. destruct Hr as (-> & _). apply Hro.
  - intros e fs [_ ->]. exists T, R. split; [by split|]. split; [apply between_refl|done].
Qed.

Lemma wp_Remove s T R reqs : reg_holds s T R → homed home reqs → NoDup (rp_RegistryTable <$> reqs) →
  NoDup (all_ids reqs) → Forall (λ id, id ∈ R) (all_ids reqs) →
  wp (Remove reqs) s
    (λ _ s', (∃ R', reg_holds s' (delete_ids (all_ids reqs) T) R' ∧ R' ⊆ R ∧ spared (all_ids reqs) R ⊆ R') ∧
       ∀ n, reg_room s n → reg_room s' n)
    (λ _ s', reg_holds s' T R).
Proof.
  intros [[Hd Hs] Hl] Hhome Hdist Hnd HR.
  assert (Hf : wp (on_files (rm_remove (e_locked (rg_env s)) reqs)) s
    (λ _ s', ∃ fs R', s' = set_files fs s ∧ disk fs (delete_ids (all_ids reqs) T) R' ∧
       (R' ⊆ R ∧ spared (all_ids reqs) R ⊆ R') ∧ same_segments (rg_files s) fs)
    (λ _ s', s' = set_files (rg_files s) s)).
  { apply wp_on. eapply wp_mono; [by apply (wp_rm_remove _ reqs _ T R)| |].
    - intros [] fs ((R' & Hd' & HR') & Hsg). by exists fs, R'.
    - by intros e fs [_ ->]. }
  assert (Hc : ∀ fs, ∃ s2, deleteFromCache reqs (set_files fs s) = (Ret (), s2) ∧
    recached (set_files fs s) (delete_ids (all_ids reqs) (rg_l2 s)) s2).
  { intros fs. destruct (wp_returns _ _ _ (wp_deleteFromCache reqs (set_files fs s) Hs)) as ([] & s2 & Hrun & Hr). by exists s2. }
  unfold wp, Remove in *.
  destruct (on_files (rm_remove (e_locked (rg_env s)) reqs) s) as [[[]|e|] s1]; [| |done].
  - destruct Hf as (fs & R' & -> & Hd' & HR' & Hsg). destruct (Hc fs) as (s2 & -> & Hr).
    split; [|intros n; apply room_of; intros f; destruct Hr as (-> & _); apply Hsg]. exists R'. split; [|done].
    eapply holds_after; [exact Hd'|exact Hs|exact Hr|by apply delete_ids_mono|done].
  - rewrite Hf. destruct (Hc (rg_files s)) as (s2 & -> & Hr).
    eapply (holds_after (rg_files s)); [exact Hd|exact Hs|exact Hr| |done].
    transitivity (rg_l2 s); [|done]. apply map_subseteq_spec. intros id h. rewrite delete_ids_lookup. by case_decide.
Qed.

(** [Update] writes the handles one by one. *)
Lemma wp_update_handles table l : ∀ s T R, reg_holds s T R → Forall (λ h, home (LogicalID h) = table) l →
  Forall storable l → NoDup (LogicalID <$> l) → Forall (λ h, LogicalID h ∈ R) l →
  wp (update_handles table l) s
    (λ _ s', reg_holds s' (put_handles l T) R ∧ ∀ n, reg_room s n → reg_room s' n)
    (λ _ s', ∃ T', reg_holds s' T' R ∧ between T (put_handles l T) T').
Proof.
  induction l as [|h l IH]; intros s T R [[Hd Hs] Hl] Hhome Hst Hnd HR; [apply wp_ret; split; [split; [by split|done]|done]|].
  apply Forall_cons in Hhome as [Hh Hhome]. apply Forall_cons in Hst as [Hs1 Hst]. apply Forall_cons in HR as [HR1 HR].
  pose proof Hnd as Hnd0. rewrite fmap_cons in Hnd. apply NoDup_cons in Hnd as [Hnin Hnd].
  cbn [Registry.update_handles]. wp_step. apply wp_gets.
  assert (Hsame : ∃ T', reg_holds s T' R ∧ between T (put_handles (h :: l) T) T') by (exists T; split; [split; [by split|done]|apply between_refl]).
  destruct (e_lock (rg_env s) (LogicalID h)); [|by apply wp_fail..].
  apply wp_handle, wp_on. eapply wp_mono; [apply (wp_rm_set _ _ _ T R Hd)| |].
  { by apply Forall_singleton, Forall_singleton. }
  { by apply Forall_singleton. }
  { apply NoDup_singleton. }
  { by apply Forall_singleton. }
  - intros [] fs [Hd' Hss]. wp_step.
    eapply wp_mono; [apply (wp_l2_set_all [h] (set_files fs s)); exact Hs| |done]. intros [] s1 Hr.
    assert (Hh1 : reg_holds s1 (<[LogicalID h := h]> T) R)
      by (eapply (holds_after fs s s1); [exact Hd'|exact Hs|exact Hr|by apply (put_handles_mono [h])|done]).
    destruct (e_unlockfails (rg_env s) (LogicalID h)).
    + apply wp_fail. exists (<[LogicalID h := h]> T). split; [done|].
      apply (between_step [h] l T); [done|]. apply between_refl.
    + eapply wp_mono; [by apply (IH s1 (<[LogicalID h := h]> T) R)| |].
      * intros [] s' [Hh' Hro]. split; [done|]. intros n Hn. apply Hro. apply (room_of s); [|done].
        intros f. destruct Hr as (-> & _). apply Hss.
      * intros e s' (T' & Hh' & Hb). exists T'. split; [done|]. by apply (between_step [h] l T).
  - intros e fs [_ ->]. wp_step. eapply wp_mono; [apply (wp_l1_Delete [LogicalID h] (set_files (rg_files s) s)); exact Hs| |done].
    intros [] s1 H1. wp_step.
    eapply wp_mono; [apply (wp_l2_delete_all [LogicalID h] s1); eapply recached_sound; [|exact H1]; exact Hs| |done].
    intros [] s2 H2. apply wp_fail. exists T. split; [|apply between_refl].
    pose proof (recached_trans _ _ _ _ _ H1 H2) as Hr.
    eapply (holds_after (rg_files s)); [exact Hd|exact Hs|exact Hr| |done].
    transitivity (rg_l2 s); [|done]. destruct H1 as (_ & _ & -> & _). apply delete_subseteq.
Qed.

Lemma wp_Update hs : ∀ s T R, reg_holds s T R → homed_handles home hs → Forall storable (all_ids hs) →
  NoDup (LogicalID <$> all_ids hs) → Forall (λ h, LogicalID h ∈ R) (all_ids hs) →
  wp (Update hs) s
    (λ _ s', reg_holds s' (put_handles (all_ids hs) T) R ∧ ∀ n, reg_room s n → reg_room s' n)
    (λ _ s', ∃ T', reg_holds s' T' R ∧ between T (put_handles (all_ids hs) T) T').
Proof.
  induction hs as [|p hs IH]; intros s T R Hh Hhome Hst Hnd HR; [by apply wp_ret|].
  apply Forall_cons in Hhome as [Hp Hhome]. rewrite all_ids_cons in *. pose proof Hnd as Hnd0.
  rewrite fmap_app in Hnd. apply NoDup_app in Hnd as (Hnd1 & _ & Hnd2).
  apply Forall_app in Hst as [Hst1 Hst2]. apply Forall_app in HR as [HR1 HR2].
  cbn [Registry.Update]. wp_step. eapply wp_mono; [by apply (wp_update_handles _ (rp_IDs p) s T R)| |].
  - intros [] s1 [[[Hd1 Hs1] Hl1] Hro]. wp_step. eapply wp_mono; [by apply wp_l1_Set| |done]. intros [] s2 H2.
    assert (Hh2 : reg_holds s2 (put_handles (rp_IDs p) T) R)
      by (eapply (holds_after (rg_files s1) s1 s2); [exact Hd1|exact Hs1|exact H2|exact Hl1|done]).
    eapply wp_mono; [by apply (IH s2 (put_handles (rp_IDs p) T) R)| |].
    + intros [] s' [Hh' Hro']. rewrite put_handles_app. split; [done|]. intros n Hn. apply Hro'.
      intros f. destruct H2 as (-> & _). by apply Hro.
    + intros e s' (T' & Hh' & Hb). exists T'. split; [done|]. by apply between_step.
  - intros e s' (T' & Hh' & Hb). exists T'. split; [done|]. intros id.
    destruct (Hb id) as [->| ->]; [by left|]. rewrite put_handles_app.
    destruct (decide (id ∈ LogicalID <$> all_ids hs)) as [Hin|Hin].
    + left. apply put_handles_notin. intros Hin1. rewrite fmap_app in Hnd0. apply NoDup_app in Hnd0 as (_ & Hdis & _). by apply (Hdis id).
    + right. by rewrite (put_handles_notin (all_ids hs)).
Qed.

(** ** Reads *)

(** A read that finds some IDs in the cache and the others on disk. *)
Lemma omap_found T l2 ids : l2 ⊆ T →
  omap (l2 !!.) ids ++ omap (T !!.) (filter (λ id, l2 !! id = None) ids) ≡ₚ omap (T !!.) ids.
Proof.
  clear HFB Hbs. intros Hl. induction ids as [|id ids IH]; [done|]. rewrite filter_cons. cbn [omap list_omap].
  destruct (l2 !! id) as [h|] eqn:E.
  - rewrite decide_False by done. rewrite (lookup_weaken _ _ _ _ E Hl). cbn. by f_equiv.
  - rewrite decide_True by done. cbn [omap list_omap]. destruct (T !! id); [|done]. rewrite <- IH. by rewrite <- Permutation_middle.
Qed.

Lemma omap_uniform T l2 ids : l2 ⊆ T → Forall (λ id, is_Some (l2 !! id)) ids ∨ Forall (λ id, l2 !! id = None) ids →
  omap (l2 !!.) ids ++ omap (T !!.) (filter (λ id, l2 !! id = None) ids) = omap (T !!.) ids.
Proof.
  clear HFB Hbs. intros Hl [Hall|Hnone].
  - induction Hall as [|id ids [h Hh] _ IH]; [done|]. rewrite filter_cons, decide_False by congruence. cbn [omap list_omap].
    rewrite Hh, (lookup_weaken _ _ _ _ Hh Hl). cbn. by f_equal.
  - rewrite filter_all by done. assert (omap (l2 !!.) ids = []) as ->; [|done].
    induction Hnone as [|id ids Hid _ IH]; [done|]. cbn [omap list_omap]. by rewrite Hid, IH.
Qed.
Definition found_in s (id : UUID) : option Handle := if e_getfails (rg_env s) then None else rg_l2 s !! id.

(** The IDs that come from the cache, in order, and then the others. *)
Definition hits_first s (ids : list UUID) : list UUID :=
  filter (λ id, is_Some (found_in s id)) ids ++ filter (λ id, found_in s id = None) ids.

Lemma wp_get_store s T R req : reg_holds s T R → Forall (λ id, home id = rp_RegistryTable req) (rp_IDs req) →
  wp (get_store req) s
    (λ p s', reg_holds s' T R ∧ (∀ n, reg_room s n → reg_room s' n) ∧ rg_env s' = rg_env s ∧ rg_files s' = rg_files s ∧
       (∀ id, id ∉ rp_IDs req → rg_l2 s' !! id = rg_l2 s !! id) ∧
       rp_RegistryTable p = rp_RegistryTable req ∧ rp_BlobTable p = rp_BlobTable req ∧
       rp_IDs p = omap (found_in s) (rp_IDs req) ++ omap (T !!.) (filter (λ id, found_in s id = None) (rp_IDs req)))
    (λ _ _, False).
Proof.
  intros [[Hd Hs] Hl] Hhome. unfold Registry.get_store, get_lookup. wp_step. wp_step. apply wp_gets. wp_step. apply wp_gets.
  fold (found_in s). set (lids := filter (λ id, found_in s id = None) (rp_IDs req)).
  assert (Hget : wp (if decide (lids = []) then mret (omap (found_in s) (rp_IDs req), [])
      else mh ← on_files (rm_fetch [mkRegistryPayload (rp_RegistryTable req) EmptyString 0 false lids]);
           p ← or_panic (mh !! 0); mret (omap (found_in s) (rp_IDs req), p.2)) s
    (λ r s', r = (omap (found_in s) (rp_IDs req), omap (T !!.) lids) ∧ s' = set_files (rg_files s) s) (λ _ _, False)).
  { case_decide as He; [apply wp_ret; split; [by rewrite He|by destruct s]|]. wp_step. apply wp_on. eapply wp_Ret.
    - apply (run_rm_fetch _ T R); [done|]. apply Forall_forall. intros id [_ Hid]%list_elem_of_filter.
      by apply (proj1 (Forall_forall _ _) Hhome).
    - done. }
  eapply wp_mono; [exact Hget| |done]. intros [hits fetched] s1 [[= -> ->] ->]. wp_step.
  assert (Hfet : Forall (λ h, T !! LogicalID h = Some h) (omap (T !!.) lids)).
  { apply Forall_forall. intros h (id & _ & Hh)%list_elem_of_omap. by destruct (disk_key _ _ _ _ _ Hd Hh) as [-> _]. }
  eapply wp_mono; [apply (wp_l2_set_all _ (set_files (rg_files s) s)); exact Hs| |done]. intros [] s2 Hr. apply wp_ret.
  split; [eapply (holds_after (rg_files s) s s2); [exact Hd|exact Hs|exact Hr|by apply put_handles_sub|done]|].
  destruct Hr as (Hf & He & Hl2 & _). split; [intros n; apply room_of; by rewrite Hf|]. split; [done|]. split; [done|]. split; [|done].
  intros id Hid. rewrite Hl2. apply put_handles_notin. intros (h & -> & (i & Hin & Hh)%list_elem_of_omap)%list_elem_of_fmap.
  destruct (disk_key _ _ _ _ _ Hd Hh) as [Hk _]. apply Hid. rewrite Hk. by apply list_elem_of_filter in Hin as [_ ?].
Qed.
Lemma omap_nothing {A B} (l : list A) : omap (λ _, @None B) l = [].
Proof. clear HFB Hbs. induction l as [|x l IH]; [done|]. exact IH. Qed.

Lemma answers_store s T req p : rg_l2 s ⊆ T → rp_RegistryTable p = rp_RegistryTable req → rp_BlobTable p = rp_BlobTable req →
  rp_IDs p = omap (found_in s) (rp_IDs req) ++ omap (T !!.) (filter (λ id, found_in s id = None) (rp_IDs req)) →
  answers T req p ∧ (uniform s (rp_IDs req) → answers_in_order T req p).
Proof.
  clear HFB Hbs. intros Hl Ht Hb Hp. unfold answers, answers_in_order, uniform, found_in in *. rewrite Hp.
  destruct (e_getfails (rg_env s)).
  - rewrite omap_nothing. cbn [app].
    rewrite filter_all by (by apply Forall_forall). done.
  - split; [split; [done|split; [done|by apply omap_found]]|]. intros [?|Hu]; [done|]. by apply omap_uniform.
Qed.

Lemma wp_Get reqs : ∀ s T R, reg_holds s T R → homed home reqs →
  wp (Get reqs) s
    (λ hs s', reg_holds s' T R ∧ (∀ n, reg_room s n → reg_room s' n) ∧ Forall2 (answers T) reqs hs ∧
       (reg_ordered s reqs → Forall2 (answers_in_order T) reqs hs))
    (λ _ _, False).
Proof.
  induction reqs as [|req reqs IH]; intros s T R Hh Hhome; [apply wp_ret; by split|].
  apply Forall_cons in Hhome as [Hp Hhome]. cbn [Registry.Get]. wp_step.
  eapply wp_mono; [by apply (wp_get_store s T R)| |done]. intros p s1 (Hh1 & Hro1 & He1 & Hf1 & Hl1 & Ht & Hb & Hids).
  destruct (answers_store s T req p) as [Ha Ho]; [apply Hh|done..|]. wp_step.
  eapply wp_mono; [by apply (IH s1 T R)| |done]. intros ps s2 (Hh2 & Hro2 & Has & Hos). apply wp_ret.
  split; [done|]. split; [auto|]. split; [by constructor|]. intros [Hnd Hu].
  apply Forall_cons in Hu as [Hu1 Hu]. rewrite all_ids_cons in Hnd. apply NoDup_app in Hnd as (_ & Hdis & Hnd).
  constructor; [auto|]. apply Hos. split; [done|]. apply Forall_forall. intros q Hq.
  apply (proj1 (Forall_forall _ _) Hu) in Hq as Huq.
  assert (Hout : ∀ id, id ∈ rp_IDs q → rg_l2 s1 !! id = rg_l2 s !! id).
  { intros id Hid. apply Hl1. intros Hin. apply (Hdis _ Hin). apply list_elem_of_bind. by exists q. }
  unfold uniform in *. rewrite He1. destruct Huq as [?|[Hall|Hnone]]; [by left|right; left|right; right];
    apply Forall_forall; intros id Hid; rewrite (Hout id Hid).
  - by apply (proj1 (Forall_forall _ _) Hall).
  - by apply (proj1 (Forall_forall _ _) Hnone).
Qed.

(** The registry on disk obeys the laws of a registry. *)
#[local] Instance registry_instance : Stores.Registry registryOnDisk registry_error :=
  registryOnDisk_Registry FromBytes blockSize hashModValue.

Definition registryOnDisk_laws : RegistryLaws registryOnDisk registry_error home.
Proof.
  refine {| stands := reg_stands; holds := reg_holds; room := reg_room; ordered := reg_ordered |}.
  - clear HFB Hbs. by intros s T R [? _].
  - clear HFB Hbs. intros s T R id h [[Hd _] _]. by apply (disk_key (rg_files s) T R).
  - clear HFB Hbs. intros s T R [[Hd _] _] id. by apply (disk_reach (rg_files s) T R).
  - intros s reqs Hnil. split; [rewrite Hnil; constructor|]. apply Forall_forall. intros p Hp. right. left.
    apply Forall_forall. intros id Hid. exfalso. apply (not_elem_of_nil id). rewrite <- Hnil. apply list_elem_of_bind. by exists p.
  - intros s T R reqs Hh Hhome. eapply wp_mono; [by apply (wp_Get reqs s T R)|done|done].
  - intros s T R hs n Hh Hhome Hne Hst Hnd Hnew Hroom. by apply wp_Add.
  - intros s T R b hs Hh Hhome Hst Hnd HR. by apply wp_UpdateNoLocks.
  - intros s T R hs Hh Hhome Hst Hnd HR. by apply wp_Update.
  - intros s T R reqs Hh Hhome Hdist Hnd HR. eapply wp_mono; [by apply (wp_Remove s T R)|intros _ s' [(R' & ? & ? & _) ?]; split; [by exists R'|done]|].
    intros e s' [Hs' _]. exists T, R. split; [done|]. split; [apply between_refl|done].
Defined.
End spec.
