(* ===== verification/BlobStore.v ===== *)
(** * fs/blobstore.go: blobs as files

    A blob is a file whose path is made of its table and its ID.  The file system
    is a map from paths to bytes; a write that fails leaves the file cut off. *)

From stdpp Require Import gmap.
From S2P Require Import Prelude Wp Handle HashmapSpec Stores.

Inductive io_error := ErrRead (fn : string) | ErrMkdir (fp : string) | ErrWrite (fn : string) | ErrRemove (fn : string).

(** The files and directories, and how the next calls of [FileIO] on a path end:
    [Some k] for a write that fails after [k] bytes. *)
Record filesystem := mkFilesystem {
  fs_files : gmap string (list Z);
  fs_dirs : gset string;
  fs_readfails : string → bool;
  fs_mkdirfails : string → bool;
  fs_writefails : string → option nat;
  fs_removefails : string → bool;
}.

Definition set_fs_files (f : gmap string (list Z)) (s : filesystem) : filesystem :=
  mkFilesystem f (fs_dirs s) (fs_readfails s) (fs_mkdirfails s) (fs_writefails s) (fs_removefails s).
Definition set_fs_dirs (d : gset string) (s : filesystem) : filesystem :=
  mkFilesystem (fs_files s) d (fs_readfails s) (fs_mkdirfails s) (fs_writefails s) (fs_removefails s).

Section blobstore.
(** [filepath.IsAbs] and [filepath.Join], the hierarchy of directories, the text of
    an ID, and the base path of the store. *)
Context (IsAbs : string → bool) (Join : string → string → string).
Context (toFilePath : string → UUID → string) (uuid_String : UUID → string) (basePath : string).

Local Abbreviation D := (M filesystem io_error).

(** [FileIO] *)
Definition Exists_dir (fp : string) : D bool := gets (λ s, bool_decide (fp ∈ fs_dirs s)).
Definition Exists_file (fn : string) : D bool := gets (λ s, bool_decide (is_Some (fs_files s !! fn))).
Definition MkdirAll (fp : string) : D () := λ s,
  if fs_mkdirfails s fp then (Fail (ErrMkdir fp), s) else (Ret (), set_fs_dirs ({[fp]} ∪ fs_dirs s) s).
Definition WriteFile (fn : string) (ba : list Z) : D () := λ s,
  match fs_writefails s fn with
  | Some k => (Fail (ErrWrite fn), set_fs_files (<[fn := take k ba]> (fs_files s)) s)
  | None => (Ret (), set_fs_files (<[fn := ba]> (fs_files s)) s)
  end.
Definition ReadFile (fn : string) : D (list Z) := λ s,
  match fs_files s !! fn with
  | Some ba => if fs_readfails s fn then (Fail (ErrRead fn), s) else (Ret ba, s)
  | None => (Fail (ErrRead fn), s)
  end.
Definition RemoveFile (fn : string) : D () := λ s,
  if fs_removefails s fn then (Fail (ErrRemove fn), s) else (Ret (), set_fs_files (base.delete fn (fs_files s)) s).

Definition table_path (table : string) : string := if IsAbs table then table else Join basePath table.
Definition dir_path (table : string) (id : UUID) : string := toFilePath (table_path table) id.
Definition file_path (table : string) (id : UUID) : string :=
  String.append (dir_path table id) (String.append "/" (uuid_String id)).

Definition GetOne (blobFilePath : string) (blobID : UUID) : D (list Z) := ReadFile (file_path blobFilePath blobID).

Fixpoint add_blobs (table : string) (blobs : list (UUID * list Z)) : D () :=
  match blobs with
  | [] => mret ()
  | (key, ba) :: blobs =>
      let fp := dir_path table key in
      there ← Exists_dir fp;
      (if (there : bool) then mret () else MkdirAll fp);;
      WriteFile (file_path table key) ba;;
      add_blobs table blobs
  end.

Fixpoint Add (storesblobs : list (BlobsPayload (UUID * list Z))) : D () :=
  match storesblobs with
  | [] => mret ()
  | p :: rest => add_blobs (bp_BlobTable p) (bp_Blobs p);; Add rest
  end.

Definition Update (storesblobs : list (BlobsPayload (UUID * list Z))) : D () := Add storesblobs.

Fixpoint remove_blobs (table : string) (ids : list UUID) : D () :=
  match ids with
  | [] => mret ()
  | id :: ids =>
      let fn := file_path table id in
      there ← Exists_file fn;
      (if (there : bool) then RemoveFile fn else mret ());;
      remove_blobs table ids
  end.

Fixpoint Remove (storesBlobsIDs : list (BlobsPayload UUID)) : D () :=
  match storesBlobsIDs with
  | [] => mret ()
  | p :: rest => remove_blobs (bp_BlobTable p) (bp_Blobs p);; Remove rest
  end.

Definition blobStore_files : BlobStore filesystem io_error := {|
  blobStore_GetOne := GetOne;
  blobStore_Add := Add;
  blobStore_Remove := Remove;
|}.

(** ** The blob store keeps a map *)

(** Tables and IDs have different paths. *)
Hypothesis paths_differ : ∀ t id t' id', file_path t id = file_path t' id' → (t, id) = (t', id').

Implicit Types (s : filesystem) (B : gmap (string * UUID) (list Z)).

Definition shows_blobs s B : Prop := ∀ t id, B !! (t, id) = fs_files s !! file_path t id.

Lemma shows_write s B t id ba : shows_blobs s B →
  shows_blobs (set_fs_files (<[file_path t id := ba]> (fs_files s)) s) (<[(t, id) := ba]> B).
Proof.
  intros HB t' id'. cbn [fs_files set_fs_files]. destruct (decide ((t', id') = (t, id))) as [[= -> ->]|Hne].
  - by rewrite !lookup_insert_eq.
  - rewrite !lookup_insert_ne; [apply HB| |congruence]. intros He%paths_differ. congruence.
Qed.

Lemma shows_remove s B t id : shows_blobs s B →
  shows_blobs (set_fs_files (base.delete (file_path t id) (fs_files s)) s) (base.delete (t, id) B).
Proof.
  intros HB t' id'. cbn [fs_files set_fs_files]. destruct (decide ((t', id') = (t, id))) as [[= -> ->]|Hne].
  - by rewrite !lookup_delete_eq.
  - rewrite !lookup_delete_ne; [apply HB| |congruence]. intros He%paths_differ. congruence.
Qed.

Lemma wp_add_blobs t blobs : ∀ s B, shows_blobs s B →
  wp (add_blobs t blobs) s
    (λ _ s', shows_blobs s' (put_blobs (pair t <$> blobs) B))
    (λ _ s', ∃ B', shows_blobs s' B' ∧ same_but (blob_keys (pair t <$> blobs)) B B').
Proof.
  induction blobs as [|[id ba] blobs IH]; intros s B HB; [by apply wp_ret|]. cbn [add_blobs].
  wp_step. apply wp_gets. wp_step.
  assert (Hdir : wp (if bool_decide (dir_path t id ∈ fs_dirs s) then mret () else MkdirAll (dir_path t id)) s
    (λ _ s', shows_blobs s' B) (λ _ s', shows_blobs s' B)).
  { case_bool_decide; [by apply wp_ret|]. unfold wp, MkdirAll. by destruct (fs_mkdirfails s _). }
  eapply wp_mono; [exact Hdir| |intros e s' HB'; by exists B].
  intros [] s1 HB1. wp_step. unfold wp at 1, WriteFile. destruct (fs_writefails s1 _) as [k|].
  - exists (<[(t, id) := take k ba]> B). split; [by apply shows_write|]. apply (same_but_cons _ _ _ (take k ba)). by intros ??.
  - eapply wp_mono; [apply IH; by apply shows_write|done|]. intros e s' (B' & ? & ?). exists B'. split; [done|].
    by eapply same_but_cons.
Qed.

Lemma wp_blob_Add ps : ∀ s B, shows_blobs s B →
  wp (Add ps) s
    (λ _ s', shows_blobs s' (put_blobs (all_blobs ps) B))
    (λ _ s', ∃ B', shows_blobs s' B' ∧ same_but (blob_keys (all_blobs ps)) B B').
Proof.
  induction ps as [|p ps IH]; intros s B HB; [by apply wp_ret|]. cbn [Add]. wp_step.
  change (all_blobs (p :: ps)) with ((pair (bp_BlobTable p) <$> bp_Blobs p) ++ all_blobs ps).
  eapply wp_mono; [by apply wp_add_blobs| |].
  - intros [] s1 HB1. eapply wp_mono; [by apply IH| |].
    + intros [] s2 HB2. by rewrite put_blobs_app.
    + intros e s2 (B' & HB' & Hs). exists B'. split; [done|]. rewrite blob_keys_app. intros k [? ?]%not_elem_of_app.
      rewrite Hs by done. by apply put_blobs_other.
  - intros e s1 (B' & HB' & Hs). exists B'. split; [done|]. eapply same_but_weaken; [exact Hs|].
    rewrite blob_keys_app. intros k Hk. apply elem_of_app. by left.
Qed.

Lemma wp_remove_blobs t ids : ∀ s B, shows_blobs s B →
  wp (remove_blobs t ids) s
    (λ _ s', shows_blobs s' (delete_blobs (pair t <$> ids) B))
    (λ _ s', ∃ B', shows_blobs s' B' ∧ same_but (pair t <$> ids) B B').
Proof.
  induction ids as [|id ids IH]; intros s B HB; [by apply wp_ret|]. cbn [remove_blobs].
  wp_step. apply wp_gets. wp_step.
  assert (Hrm : wp (if bool_decide (is_Some (fs_files s !! file_path t id)) then RemoveFile (file_path t id) else mret ()) s
    (λ _ s', shows_blobs s' (base.delete (t, id) B)) (λ _ s', shows_blobs s' B)).
  { case_bool_decide as Hin.
    - unfold wp, RemoveFile. destruct (fs_removefails s _); [done|]. by apply shows_remove.
    - apply wp_ret. rewrite delete_id; [done|]. rewrite (HB t id). by apply eq_None_not_Some. }
  eapply wp_mono; [exact Hrm| |].
  - intros [] s1 HB1. eapply wp_mono; [by apply IH|done|]. intros e s' (B' & ? & Hs). exists B'. split; [done|].
    intros k [Hne Hk]%not_elem_of_cons. rewrite Hs by done. by apply lookup_delete_ne.
  - intros e s' HB'. exists B. split; [done|]. by intros ??.
Qed.

Lemma wp_blob_Remove ps : ∀ s B, shows_blobs s B →
  wp (Remove ps) s
    (λ _ s', shows_blobs s' (delete_blobs (all_blobs ps) B))
    (λ _ s', ∃ B', shows_blobs s' B' ∧ same_but (all_blobs ps) B B').
Proof.
  induction ps as [|p ps IH]; intros s B HB; [by apply wp_ret|]. cbn [Remove]. wp_step.
  change (all_blobs (p :: ps)) with ((pair (bp_BlobTable p) <$> bp_Blobs p) ++ all_blobs ps).
  eapply wp_mono; [by apply wp_remove_blobs| |].
  - intros [] s1 HB1. eapply wp_mono; [by apply IH| |].
    + intros [] s2 HB2. by rewrite delete_blobs_app.
    + intros e s2 (B' & HB' & Hs). exists B'. split; [done|]. intros k [? ?]%not_elem_of_app.
      rewrite Hs by done. rewrite delete_blobs_lookup, decide_False by done. done.
  - intros e s1 (B' & HB' & Hs). exists B'. split; [done|]. eapply same_but_weaken; [exact Hs|].
    intros k Hk. apply elem_of_app. by left.
Qed.

Lemma wp_blob_GetOne t id s B : shows_blobs s B →
  wp (GetOne t id) s (λ b s', B !! (t, id) = Some b ∧ shows_blobs s' B) (λ _ s', shows_blobs s' B).
Proof.
  intros HB. unfold wp, GetOne, ReadFile. destruct (fs_files s !! file_path t id) as [ba|] eqn:E; [|done].
  destruct (fs_readfails s _); [done|]. split; [by rewrite (HB t id)|done].
Qed.

#[local] Instance blobStore_instance : BlobStore filesystem io_error := blobStore_files.

Definition blobStore_laws : BlobStoreLaws filesystem io_error.
Proof.
  refine {| blob_holds := shows_blobs |}.
  - intros s B t id HB. by apply wp_blob_GetOne.
  - intros s B ps HB. by apply wp_blob_Add.
  - intros s B ps HB. by apply wp_blob_Remove.
Defined.
End blobstore.
