(* ===== verification/NodeRepo.v ===== *)
(** * common/noderepository.backend.go: how a transaction stages its nodes

    A node repository writes the nodes of a transaction under new physical IDs and
    records them in the registry, in the slot of the handle that is not active; the
    commit turns the handles later.  The registry and the blob store are used
    through their interfaces.  The handles that [Get] returns are copies: a change
    is seen by others when it is written back. *)

From stdpp Require Import gmap.
From S2P Require Import Prelude Wp Handle HashmapSpec Stores.

(** [btree.MetaDataType] and the marshaler of a node. *)
Class MetaData (Nd : Type) := {
  GetID : Nd → UUID;
  GetVersion : Nd → Z;
  Marshal_ : Nd → option (list Z);
}.

(** The fields of [StoreInfo] and its cache configuration that requests carry. *)
Record StoreInfo := mkStoreInfo {
  si_RegistryTable : string;
  si_BlobTable : string;
  si_RegistryCacheDuration : Z;
  si_IsRegistryCacheTTL : bool;
}.

Inductive repo_error (RE BE : Type) :=
| ErrRegistry (e : RE)
| ErrBlobStore (e : BE)
| ErrMarshal
| ErrCacheDelete (id : UUID).
Arguments ErrRegistry {RE BE}.
Arguments ErrBlobStore {RE BE}.
Arguments ErrMarshal {RE BE}.
Arguments ErrCacheDelete {RE BE}.

(** The commit functions of transactionlogger.go that rollbacks ask for. *)
Definition commitNewRootNodes_state : nat := 4.

Section repository.
Context {RS RE BS BE Nd : Type} `{RO : Registry RS RE} `{BO : BlobStore BS BE} `{MD : MetaData Nd}.
(** The [n]-th call of [sop.NewUUID]. *)
Context (gen : nat → UUID).

(** The registry, the blob store, the nodes in the L2 cache, the writes and
    removals there that fail, the time and the number of IDs drawn. *)
Record world := mkWorld {
  w_registry : RS;
  w_blobStore : BS;
  w_l2nodes : gmap UUID Nd;
  w_setfails : UUID → bool;
  w_deletefails : UUID → bool;
  w_now : Z;
  w_drawn : nat;
}.

Definition set_registry (r : RS) (w : world) : world :=
  mkWorld r (w_blobStore w) (w_l2nodes w) (w_setfails w) (w_deletefails w) (w_now w) (w_drawn w).
Definition set_blobStore (b : BS) (w : world) : world :=
  mkWorld (w_registry w) b (w_l2nodes w) (w_setfails w) (w_deletefails w) (w_now w) (w_drawn w).
Definition set_l2nodes (c : gmap UUID Nd) (w : world) : world :=
  mkWorld (w_registry w) (w_blobStore w) c (w_setfails w) (w_deletefails w) (w_now w) (w_drawn w).
Definition set_drawn (n : nat) (w : world) : world :=
  mkWorld (w_registry w) (w_blobStore w) (w_l2nodes w) (w_setfails w) (w_deletefails w) (w_now w) n.

Local Abbreviation W := (M world (repo_error RE BE)).

Definition on_registry {A} (m : M RS RE A) : W A := on w_registry set_registry ErrRegistry m.
Definition on_blobStore {A} (m : M BS BE A) : W A := on w_blobStore set_blobStore ErrBlobStore m.

Definition NewUUID : W UUID := λ w, (Ret (gen (w_drawn w)), set_drawn (S (w_drawn w)) w).
Definition Now : W Z := gets w_now.
Definition marshal (n : Nd) : W (list Z) :=
  match Marshal_ n with Some ba => mret ba | None => fail ErrMarshal end.

(** [l2Cache.SetStruct] of a node: an error is logged. *)
Definition l2_SetNode (id : UUID) (n : Nd) : W () :=
  modify (λ w, if w_setfails w id then w else set_l2nodes (<[id := n]> (w_l2nodes w)) w).
(** [l2Cache.Delete] of a node, [false] for an error. *)
Definition l2_DeleteNode (id : UUID) : W bool := λ w,
  if w_deletefails w id then (Ret false, w) else (Ret true, set_l2nodes (base.delete id (w_l2nodes w)) w).

(** The method [AllocateID] on a handle, with the ID and the time it draws. *)
Definition allocateID (h : Handle) : W (UUID * Handle) :=
  if IsAandBinUse h then mret (NilUUID, h)
  else id ← NewUUID; now ← Now; mret (AllocateID id now h).

(** ** Payloads *)

Definition nodes_of_stores : Type := list (StoreInfo * list Nd).

Definition convertToRegistryRequestPayload (nodes : nodes_of_stores) : list (RegistryPayload UUID) :=
  (λ '(st, ns), mkRegistryPayload (si_RegistryTable st) (si_BlobTable st) (si_RegistryCacheDuration st)
                  (si_IsRegistryCacheTTL st) (GetID <$> ns)) <$> nodes.

Definition convertToBlobRequestPayload (nodes : nodes_of_stores) : list (BlobsPayload UUID) :=
  (λ '(st, ns), mkBlobsPayload (si_BlobTable st) (GetID <$> ns)) <$> nodes.

Definition extractInactiveBlobsIDs (nodesHandles : list (RegistryPayload Handle)) : list (BlobsPayload UUID) :=
  (λ p, mkBlobsPayload (rp_BlobTable p)
          (GetInActiveID <$> filter (λ h, GetInActiveID h ≠ NilUUID) (rp_IDs p))) <$> nodesHandles.

Definition extractUUIDs (nodes : nodes_of_stores) : list UUID := nodes ≫= λ '(_, ns), GetID <$> ns.

Definition set_IDs {X Y} (p : RegistryPayload X) (ids : list Y) : RegistryPayload Y :=
  mkRegistryPayload (rp_RegistryTable p) (rp_BlobTable p) (rp_CacheDuration p) (rp_IsCacheTTL p) ids.

(** ** Loops

    The loops return [None] where the code returns early, and panic where it would
    index a slice out of range. *)

(** The turns of a loop, until one of them gives up. *)
Fixpoint each {X Y Z} (f : X → Y → W (option Z)) (xs : list X) (ys : list Y) : W (option (list Z)) :=
  match xs with
  | [] => mret (Some [])
  | x :: xs =>
      match ys with
      | [] => panic
      | y :: ys =>
          r ← f x y;
          match r with
          | None => mret None
          | Some z =>
              zs ← each f xs ys;
              mret (match zs with None => None | Some zs => Some (z :: zs) end)
          end
      end
  end.

(** [SetStruct] of each node under the ID [f] takes from its handle. *)
Fixpoint cache_nodes (f : Handle → UUID) (hs : list Handle) (ns : list Nd) : W () :=
  match ns with
  | [] => mret ()
  | n :: ns =>
      match hs with
      | [] => panic
      | h :: hs => l2_SetNode (f h) n;; cache_nodes f hs ns
      end
  end.
Fixpoint cache_stores (f : Handle → UUID) (handles : list (RegistryPayload Handle)) (nodes : nodes_of_stores) : W () :=
  match nodes with
  | [] => mret ()
  | (_, ns) :: nodes =>
      match handles with
      | [] => panic
      | p :: handles => cache_nodes f (rp_IDs p) ns;; cache_stores f handles nodes
      end
  end.

(** ** Staging *)

Definition stage_root (h : Handle) (idn : UUID * Nd) : W (option (Handle * (UUID * list Z))) :=
  if negb (IsNil (LogicalID h)) then mret None
  else
    let h := NewHandle idn.1 in
    ba ← marshal idn.2;
    mret (Some (h, (GetActiveID h, ba))).

Definition stage_root_store (p : RegistryPayload Handle) (vn : RegistryPayload UUID * (StoreInfo * list Nd))
    : W (option (RegistryPayload Handle * BlobsPayload (UUID * list Z))) :=
  let '(v, (st, ns)) := vn in
  let hs := if decide (rp_IDs p = []) then replicate (length (rp_IDs v)) zero_handle else rp_IDs p in
  r ← each stage_root hs (zip (rp_IDs v) ns);
  mret (match r with
        | None => None
        | Some l => Some (set_IDs p (fst <$> l), mkBlobsPayload (si_BlobTable st) (snd <$> l))
        end).

Definition commitNewRootNodes (nodes : nodes_of_stores) : W (bool * list (RegistryPayload Handle)) :=
  if decide (nodes = []) then mret (true, [])
  else
    let vids := convertToRegistryRequestPayload nodes in
    handles ← on_registry (registry_Get vids);
    r ← each stage_root_store handles (zip vids nodes);
    match r with
    | None => mret (false, [])
    | Some l =>
        on_blobStore (blobStore_Add (snd <$> l));;
        cache_stores GetActiveID (fst <$> l) nodes;;
        on_registry (registry_Add (fst <$> l));;
        mret (true, fst <$> l)
    end.

(** The turn of the loop of [commitUpdatedNodes] for one node. *)
Definition stage_update (h : Handle) (n : Nd) : W (option (Handle * (UUID * list Z))) :=
  now ← Now;
  if (IsDeleted h && negb (IsExpiredInactive now h)) || bool_decide (Version h ≠ GetVersion n) then mret None
  else
    let h := if IsDeleted h && IsExpiredInactive now h then set_IsDeleted h false else h in
    '(id, h) ← allocateID h;
    '(id, h) ← (if decide (id = NilUUID) then
                  if IsExpiredInactive now h then allocateID (ClearInactiveID h) else mret (id, h)
                else mret (id, h));
    if decide (id = NilUUID) then mret None
    else
      ba ← marshal n;
      mret (Some (h, (id, ba))).

Definition stage_update_store (p : RegistryPayload Handle) (sn : StoreInfo * list Nd)
    : W (option (RegistryPayload Handle * BlobsPayload (UUID * list Z))) :=
  r ← each stage_update (rp_IDs p) sn.2;
  mret (match r with
        | None => None
        | Some l => Some (set_IDs p (fst <$> l), mkBlobsPayload (si_BlobTable sn.1) (snd <$> l))
        end).

(** Whether every store got as many handles as it asked for. *)
Definition same_lengths (handles : list (RegistryPayload Handle)) (vids : list (RegistryPayload UUID)) : bool :=
  forallb (λ '(p, v), bool_decide (length (rp_IDs p) = length (rp_IDs v))) (zip handles vids).

Definition commitUpdatedNodes (nodes : nodes_of_stores) : W (bool * list (RegistryPayload Handle)) :=
  if decide (nodes = []) then mret (true, [])
  else
    let vids := convertToRegistryRequestPayload nodes in
    handles ← on_registry (registry_Get vids);
    if negb (same_lengths handles vids) then mret (false, [])
    else
      r ← each stage_update_store handles nodes;
      match r with
      | None => mret (false, [])
      | Some l =>
          on_registry (registry_UpdateNoLocks false (fst <$> l));;
          on_blobStore (blobStore_Add (snd <$> l));;
          cache_stores GetInActiveID (fst <$> l) nodes;;
          mret (true, fst <$> l)
      end.

Definition stage_removal (rightNow : Z) (h : Handle) (n : Nd) : W (option Handle) :=
  if IsDeleted h || bool_decide (Version h ≠ GetVersion n) then mret None
  else mret (Some (set_Timestamp (set_IsDeleted h true) rightNow)).

Definition stage_removal_store (rightNow : Z) (p : RegistryPayload Handle) (sn : StoreInfo * list Nd)
    : W (option (RegistryPayload Handle)) :=
  r ← each (stage_removal rightNow) (rp_IDs p) sn.2;
  mret (match r with None => None | Some l => Some (set_IDs p l) end).

Definition commitRemovedNodes (nodes : nodes_of_stores) : W (bool * list (RegistryPayload Handle)) :=
  if decide (nodes = []) then mret (true, [])
  else
    handles ← on_registry (registry_Get (convertToRegistryRequestPayload nodes));
    now ← Now;
    r ← each (stage_removal_store (UnixMilli now)) handles nodes;
    match r with
    | None => mret (false, [])
    | Some l => on_registry (registry_UpdateNoLocks false l);; mret (true, l)
    end.

(** New nodes: a handle of version 1 whose active ID is the logical ID. *)
Fixpoint stage_added (ns : list Nd) : W (list (Handle * (UUID * list Z))) :=
  match ns with
  | [] => mret []
  | n :: ns =>
      let h := set_Version (NewHandle (GetID n)) 1 in
      ba ← marshal n;
      l2_SetNode (GetID n) n;;
      r ← stage_added ns;
      mret ((h, (GetID n, ba)) :: r)
  end.

Fixpoint stage_added_stores (nodes : nodes_of_stores)
    : W (list (RegistryPayload Handle * BlobsPayload (UUID * list Z))) :=
  match nodes with
  | [] => mret []
  | (st, ns) :: nodes =>
      l ← stage_added ns;
      r ← stage_added_stores nodes;
      mret ((mkRegistryPayload (si_RegistryTable st) EmptyString (si_RegistryCacheDuration st) false (fst <$> l),
             mkBlobsPayload (si_BlobTable st) (snd <$> l)) :: r)
  end.

Definition commitAddedNodes (nodes : nodes_of_stores) : W (list (RegistryPayload Handle)) :=
  if decide (nodes = []) then mret []
  else
    l ← stage_added_stores nodes;
    on_registry (registry_Add (fst <$> l));;
    on_blobStore (blobStore_Add (snd <$> l));;
    mret (fst <$> l).

(** The turn of the loop of [areFetchedItemsIntact] for one node. *)
Definition intact (h : Handle) (n : Nd) : W (option ()) :=
  if decide (Version h = GetVersion n) then mret (Some ()) else mret None.

Definition intact_store (p : RegistryPayload Handle) (sn : StoreInfo * list Nd) : W (option (list ())) :=
  if decide (length (rp_IDs p) = length sn.2) then each intact (rp_IDs p) sn.2 else mret None.

Definition areFetchedItemsIntact (nodes : nodes_of_stores) : W bool :=
  if decide (nodes = []) then mret true
  else
    handles ← on_registry (registry_Get (convertToRegistryRequestPayload nodes));
    r ← each intact_store handles nodes;
    mret (match r with Some _ => true | None => false end).

(** ** Finalisation: the handles a commit writes last *)

Definition activateInactiveNodes (handles : list (RegistryPayload Handle)) : list (RegistryPayload Handle) :=
  (λ p, set_IDs p
     ((λ h, let h := FlipActiveID h in
            set_Timestamp (set_Version h (wrap_s 32 (Version h + 1))) 1) <$> rp_IDs p)) <$> handles.

Definition touchNodes (handles : list (RegistryPayload Handle)) : list (RegistryPayload Handle) :=
  (λ p, set_IDs p ((λ h, set_Timestamp (set_Version h (wrap_s 32 (Version h + 1))) 0) <$> rp_IDs p)) <$> handles.

(** ** Rollback: errors are remembered and the undoing goes on *)

(** [lastErr] after a call that may fail. *)
Definition undo {A} (lastErr : option (repo_error RE BE)) (m : W A) : W (option (repo_error RE BE)) :=
  handle m (λ _, mret lastErr) (λ e, mret (Some e)).

Definition end_undo (lastErr : option (repo_error RE BE)) : W () :=
  match lastErr with None => mret () | Some e => fail e end.

(** The loop that removes nodes from the L2 cache; the first error stays. *)
Fixpoint delete_cached (lastErr : option (repo_error RE BE)) (ids : list UUID) : W (option (repo_error RE BE)) :=
  match ids with
  | [] => mret lastErr
  | id :: ids =>
      ok ← l2_DeleteNode id;
      delete_cached (if (ok : bool) then lastErr
                     else match lastErr with None => Some (ErrCacheDelete id) | Some e => Some e end) ids
  end.

(** The registered IDs among those asked for, table by table. *)
Definition registered (handles : list (RegistryPayload Handle)) : list (RegistryPayload UUID) :=
  (λ p, mkRegistryPayload (rp_RegistryTable p) EmptyString 0 false (LogicalID <$> rp_IDs p)) <$>
    filter (λ p, rp_IDs p ≠ []) handles.

Definition rollbackNewRootNodes (committedState : nat) (vids : list (RegistryPayload UUID)) (bibs : list (BlobsPayload UUID)) : W () :=
  if decide (vids = []) then mret ()
  else
    err ← undo None (on_blobStore (blobStore_Remove bibs));
    err ← delete_cached err (all_ids vids);
    if decide (committedState ≤ commitNewRootNodes_state) then end_undo err
    else
      err ← handle (on_registry (registry_Get vids))
        (λ handles,
          let vidsToRemove := registered handles in
          if decide (vidsToRemove = []) then mret err
          else undo err (on_registry (registry_Remove vidsToRemove)))
        (λ e, mret (Some e));
      end_undo err.

Definition rollbackAddedNodes (vids : list (RegistryPayload UUID)) (bibs : list (BlobsPayload UUID)) : W () :=
  if decide (vids = []) then mret ()
  else
    err ← undo None (on_blobStore (blobStore_Remove bibs));
    err ← undo err (on_registry (registry_Remove vids));
    err ← delete_cached err (all_ids vids);
    end_undo err.

(** The handle without its inactive ID. *)
Definition clear_update (h : Handle) : Handle :=
  if IsNil (GetInActiveID h) then set_Timestamp h 0 else ClearInactiveID h.

Definition update_registry (nodesAreLocked : bool) (handles : list (RegistryPayload Handle)) : W () :=
  if nodesAreLocked then on_registry (registry_UpdateNoLocks false handles)
  else on_registry (registry_Update handles).

Definition rollbackUpdatedNodes (nodesAreLocked : bool) (vids : list (RegistryPayload UUID)) : W () :=
  if decide (vids = []) then mret ()
  else
    handles ← on_registry (registry_Get vids);
    let blobsIDs := zip_with (λ v p, mkBlobsPayload (rp_BlobTable v)
      (GetInActiveID <$> filter (λ h, GetInActiveID h ≠ NilUUID) (rp_IDs p))) vids handles in
    let handles := (λ p, set_IDs p (clear_update <$> rp_IDs p)) <$> handles in
    err ← undo None (on_blobStore (blobStore_Remove blobsIDs));
    err ← undo err (update_registry nodesAreLocked handles);
    err ← delete_cached err (blobsIDs ≫= bp_Blobs);
    end_undo err.

Definition removeNodes (blobsIDs : list (BlobsPayload UUID)) : W () :=
  if decide (blobsIDs = []) then mret ()
  else
    err ← undo None (on_blobStore (blobStore_Remove blobsIDs));
    err ← delete_cached err (blobsIDs ≫= bp_Blobs);
    end_undo err.

Definition marked (h : Handle) : Prop := IsDeleted h = true ∨ (0 < WorkInProgressTimestamp h)%Z.
#[global] Instance marked_dec h : Decision (marked h).
Proof. unfold marked. apply _. Defined.

Definition rollbackRemovedNodes (nodesAreLocked : bool) (vids : list (RegistryPayload UUID)) : W () :=
  if decide (vids = []) then mret ()
  else
    handles ← on_registry (registry_Get vids);
    update_registry nodesAreLocked
      ((λ p, mkRegistryPayload (rp_RegistryTable p) EmptyString 0 false
          ((λ h, set_Timestamp (set_IsDeleted h false) 0) <$> filter marked (rp_IDs p))) <$> handles).
End repository.
