(* ===== verification/NodeCommit.v ===== *)
(** * What the staging of nodes does: proofs

    [repo_inv w T R B]: the registry holds the map [T], the blob store the map [B],
    and the IDs that will be drawn are not in use.  [view] is what a reader gets
    for a logical ID: the version and the bytes of its active blob. *)

From stdpp Require Import gmap.
From S2P Require Import Prelude Wp Handle HashmapSpec Stores NodeRepo.

(** ** Handles *)

Definition view (T : gmap UUID Handle) (B : gmap (string * UUID) (list Z)) (table : string) (id : UUID)
    : option (Z * list Z) :=
  h ← T !! id; b ← B !! (table, GetActiveID h); Some (Version h, b).

(** Two handles that readers do not tell apart. *)
Definition same_view (h h' : Handle) : Prop := GetActiveID h' = GetActiveID h ∧ Version h' = Version h.

(** What a commit writes into a handle still fits its encoding. *)
Lemma storable_PhysicalIDA h id : storable h → uuid_wf id → storable (set_PhysicalIDA h id).
Proof. intros [(Hl & Ha & Hb & Hv & Ht) Hn] Hid. by repeat (split; [done|]). Qed.
Lemma storable_PhysicalIDB h id : storable h → uuid_wf id → storable (set_PhysicalIDB h id).
Proof. intros [(Hl & Ha & Hb & Hv & Ht) Hn] Hid. by repeat (split; [done|]). Qed.
Lemma storable_IsActiveIDB h b : storable h → storable (set_IsActiveIDB h b).
Proof. done. Qed.
Lemma storable_IsDeleted h b : storable h → storable (set_IsDeleted h b).
Proof. done. Qed.
Lemma storable_Timestamp h ts : storable h → in_s 64 ts → storable (set_Timestamp h ts).
Proof. intros [(Hl & Ha & Hb & Hv & Ht) Hn] Hts. by repeat (split; [done|]). Qed.
Lemma storable_Version h v : storable h → in_s 32 v → storable (set_Version h v).
Proof. intros [(Hl & Ha & Hb & Hv & Ht) Hn] Hts. by repeat (split; [done|]). Qed.
Lemma NilUUID_wf : uuid_wf NilUUID.
Proof. unfold uuid_wf, NilUUID. lia. Qed.
Lemma zero_in_s w : (0 < w)%Z → in_s w 0.
Proof. intros Hw. unfold in_s. pose proof (pow2_pos (w - 1) ltac:(lia)). lia. Qed.

Lemma one_in_s w : (1 < w)%Z → in_s w 1.
Proof.
  intros Hw. unfold in_s. assert (2 ^ 1 ≤ 2 ^ (w - 1))%Z by (apply Z.pow_le_mono_r; lia). lia.
Qed.

#[export] Hint Resolve storable_PhysicalIDA storable_PhysicalIDB storable_IsActiveIDB storable_IsDeleted
  storable_Timestamp storable_Version NilUUID_wf zero_in_s one_in_s : core.

Section update.
Context {Nd : Type} `{MD : MetaData Nd}.

(** When [commitUpdatedNodes] takes a node, and the handle it writes then. *)
Definition updatable (now : Z) (h : Handle) (n : Nd) : bool :=
  (negb (IsDeleted h) || IsExpiredInactive now h) && bool_decide (Version h = GetVersion n) &&
  (negb (IsAandBinUse h) || IsExpiredInactive now h).

Definition staged (now : Z) (newid : UUID) (h : Handle) : Handle :=
  let h := set_IsDeleted h false in
  let h := if IsAandBinUse h then ClearInactiveID h else h in
  (AllocateID newid now h).2.

Lemma IsAandBinUse_Clear h : IsAandBinUse (ClearInactiveID h) = false.
Proof.
  unfold IsAandBinUse, ClearInactiveID. destruct (IsActiveIDB h); cbn; [done|]. apply andb_false_r.
Qed.

Lemma IsAandBinUse_IsDeleted h b : IsAandBinUse (set_IsDeleted h b) = IsAandBinUse h.
Proof. done. Qed.

Lemma IsExpired_IsDeleted now h b : IsExpiredInactive now (set_IsDeleted h b) = IsExpiredInactive now h.
Proof. done. Qed.

(** The new ID is the inactive one, and readers do not notice. *)
Lemma staged_inactive now newid h : GetInActiveID (staged now newid h) = newid.
Proof.
  unfold staged. set (h' := if IsAandBinUse _ then _ else _).
  assert (Hf : IsAandBinUse h' = false).
  { subst h'. destruct (IsAandBinUse (set_IsDeleted h false)) eqn:E; [apply IsAandBinUse_Clear|done]. }
  unfold AllocateID. rewrite Hf. unfold GetInActiveID. cbn. by destruct (IsActiveIDB h') eqn:Ea; cbn; rewrite Ea.
Qed.

Lemma staged_fields now newid h :
  LogicalID (staged now newid h) = LogicalID h ∧ Version (staged now newid h) = Version h ∧
  IsActiveIDB (staged now newid h) = IsActiveIDB h ∧ GetActiveID (staged now newid h) = GetActiveID h ∧
  IsDeleted (staged now newid h) = false ∧ WorkInProgressTimestamp (staged now newid h) = UnixMilli now.
Proof.
  unfold staged. rewrite IsAandBinUse_IsDeleted.
  assert (Hf : IsAandBinUse (if IsAandBinUse h then ClearInactiveID (set_IsDeleted h false) else set_IsDeleted h false) = false).
  { destruct (IsAandBinUse h) eqn:E; [apply IsAandBinUse_Clear|done]. }
  unfold AllocateID. rewrite Hf. clear Hf. unfold GetActiveID, ClearInactiveID.
  destruct (IsAandBinUse h); destruct h as [l a b [] v ts d]; done.
Qed.

Lemma staged_same_view now newid h : same_view h (staged now newid h).
Proof. destruct (staged_fields now newid h) as (_ & Hv & _ & Ha & _). by split. Qed.

Lemma storable_Clear h : storable h → storable (ClearInactiveID h).
Proof. intros Hh. unfold ClearInactiveID. assert (in_s 64 0) by (apply zero_in_s; lia). destruct (IsActiveIDB h); auto. Qed.

Lemma staged_storable now newid h : storable h → uuid_wf newid → in_s 64 (UnixMilli now) → storable (staged now newid h).
Proof.
  intros Hh Hid Hnow. unfold staged.
  assert (Hs : storable (if IsAandBinUse (set_IsDeleted h false) then ClearInactiveID (set_IsDeleted h false) else set_IsDeleted h false)).
  { case_match; auto using storable_Clear. }
  revert Hs. generalize (if IsAandBinUse (set_IsDeleted h false) then ClearInactiveID (set_IsDeleted h false) else set_IsDeleted h false).
  intros h' Hs. unfold AllocateID. destruct (IsAandBinUse h'); [done|]. destruct (IsActiveIDB _); cbn [snd]; auto.
Qed.
End update.

(** ** Staging in the repository *)

Section staging.
Context {RS RE BS BE Nd : Type} `{RO : Registry RS RE} `{BO : BlobStore BS BE} `{MD : MetaData Nd}.
Context (gen : nat → UUID) (home : UUID → string).
Context `{RL : !RegistryLaws RS RE home} `{BL : !BlobStoreLaws BS BE}.
Hypothesis gen_not_nil : ∀ i, gen i ≠ NilUUID.
Hypothesis gen_wf : ∀ i, uuid_wf (gen i).
(** As many IDs as are drawn are different. *)
Context (limit : nat).
Hypothesis gen_inj : ∀ i j, i < limit → j < limit → gen i = gen j → i = j.

Local Abbreviation world := (@world RS BS Nd).
Implicit Types (T : gmap UUID Handle) (R : gset UUID) (B : gmap (string * UUID) (list Z)) (w : world) (h : Handle) (n : Nd).
Implicit Types (nodes : list (StoreInfo * list Nd)).

(** The IDs to come are neither blobs nor active. *)
Definition fresh (d : nat) T B : Prop := ∀ i, d ≤ i → i < limit →
  (∀ t, B !! (t, gen i) = None) ∧ (∀ id h, T !! id = Some h → GetActiveID h ≠ gen i).

Definition repo_inv w T R B : Prop :=
  holds (w_registry w) T R ∧ blob_holds (w_blobStore w) B ∧ fresh (w_drawn w) T B.

Definition same_views T B T' B' : Prop := ∀ t id, view T' B' t id = view T B t id.

(** The nodes of all stores, with their blob tables. *)
Definition flat nodes : list (string * Nd) := nodes ≫= λ sn, pair (si_BlobTable sn.1) <$> sn.2.

Lemma flat_cons sn nodes : flat (sn :: nodes) = (pair (si_BlobTable sn.1) <$> sn.2) ++ flat nodes.
Proof. done. Qed.

Lemma flat_IDs nodes : extractUUIDs nodes = GetID ∘ snd <$> flat nodes.
Proof.
  induction nodes as [|[st ns] nodes IH]; [done|]. rewrite flat_cons, fmap_app, <- IH. cbn.
  f_equal. by rewrite <- list_fmap_compose.
Qed.

(** What the loops leave: the handles and blobs for a list of handles and nodes. *)
Fixpoint staged_list (now : Z) (d : nat) (hs : list Handle) (tns : list (string * Nd))
    : list (Handle * (string * (UUID * list Z))) :=
  match hs, tns with
  | h :: hs, (t, n) :: tns => (staged now (gen d) h, (t, (gen d, default [] (Marshal_ n)))) :: staged_list now (S d) hs tns
  | _, _ => []
  end.

Lemma staged_list_lookup now hs tns : ∀ d i, length hs = length tns → staged_list now d hs tns !! i =
  match hs !! i, tns !! i with
  | Some h, Some (t, n) => Some (staged now (gen (d + i)) h, (t, (gen (d + i), default [] (Marshal_ n))))
  | _, _ => None
  end.
Proof.
  revert tns. induction hs as [|h hs IH]; intros [|[t n] tns] d i Hl; try done.
  destruct i as [|i]; [cbn; by rewrite Nat.add_0_r|].
  rewrite <- Nat.add_succ_comm. apply (IH tns (S d) i). cbn in Hl. lia.
Qed.

Lemma staged_list_app now hs1 tns1 hs2 tns2 : ∀ d, length hs1 = length tns1 →
  staged_list now d (hs1 ++ hs2) (tns1 ++ tns2) = staged_list now d hs1 tns1 ++ staged_list now (d + length hs1) hs2 tns2.
Proof.
  revert tns1. induction hs1 as [|h hs IH]; intros [|[t n] tns] d Hl; try done; cbn [staged_list app length].
  - by rewrite Nat.add_0_r.
  - rewrite IH by (cbn in Hl; lia). by rewrite Nat.add_succ_r.
Qed.

(** One node. *)
Lemma run_stage_update h n w : stage_update (RE := RE) (BE := BE) gen h n w =
  if updatable (w_now w) h n then
    match Marshal_ n with
    | Some ba => (Ret (Some (staged (w_now w) (gen (w_drawn w)) h, (gen (w_drawn w), ba))), set_drawn (S (w_drawn w)) w)
    | None => (Fail ErrMarshal, set_drawn (S (w_drawn w)) w)
    end
  else (Ret None, w).
Proof.
  assert (Hal : ∀ h w, allocateID (RE := RE) (BE := BE) gen h w =
    if IsAandBinUse h then (Ret (NilUUID, h), w)
    else (Ret (gen (w_drawn w), (AllocateID (gen (w_drawn w)) (w_now w) h).2), set_drawn (S (w_drawn w)) w)).
  { intros h0 w0. unfold allocateID. destruct (IsAandBinUse h0) eqn:E; [done|]. unfold AllocateID. rewrite E.
    cbv beta delta [mbind M_bind NewUUID Now gets mret M_ret] iota. cbn. by destruct (IsActiveIDB _). }
  unfold stage_update, updatable, staged. erewrite bind_Ret by reflexivity. cbv beta.
  destruct (IsDeleted h && negb (IsExpiredInactive (w_now w) h)) eqn:E1.
  { cbn [orb]. by destruct (IsDeleted h), (IsExpiredInactive (w_now w) h). }
  rewrite (bool_decide_not (Version h = _)). destruct (bool_decide (Version h = GetVersion n)); cbn [negb orb];
    [|by rewrite andb_false_r].
  rewrite andb_true_r. assert (negb (IsDeleted h) || IsExpiredInactive (w_now w) h = true) as ->
    by (by destruct (IsDeleted h), (IsExpiredInactive (w_now w) h)).
  assert (Hd : (if IsDeleted h && IsExpiredInactive (w_now w) h then set_IsDeleted h false else h) = set_IsDeleted h false).
  { destruct h as [l a b act v ts []]; cbn in *; [|done]. by destruct (IsExpiredInactive _ _). }
  rewrite Hd. clear Hd E1. cbn [andb].
  change (IsAandBinUse h) with (IsAandBinUse (set_IsDeleted h false)).
  change (IsExpiredInactive (w_now w) h) with (IsExpiredInactive (w_now w) (set_IsDeleted h false)).
  generalize (set_IsDeleted h false). clear h. intros h.
  destruct (IsAandBinUse h) eqn:Eu; cbn [negb orb].
  - erewrite bind_Ret; [|rewrite Hal, Eu; reflexivity]. cbv beta iota. rewrite decide_True by done.
    destruct (IsExpiredInactive (w_now w) h).
    + erewrite bind_Ret; [|rewrite Hal, IsAandBinUse_Clear; reflexivity]. cbv beta iota. rewrite decide_False by done.
      unfold marshal. by destruct (Marshal_ n).
    + erewrite bind_Ret by reflexivity. cbv beta iota. by rewrite decide_True.
  - erewrite bind_Ret; [|rewrite Hal, Eu; reflexivity]. cbv beta iota. rewrite decide_False by done.
    erewrite bind_Ret by reflexivity. cbv beta iota. rewrite decide_False by done. unfold marshal. by destruct (Marshal_ n).
Qed.

Definition takes (now : Z) h n : Prop := updatable now h n = true ∧ is_Some (Marshal_ n).
Definition refuses (now : Z) h n : Prop := updatable now h n = false.

(** Two payloads for the same IDs. *)
Definition same_shape (p q : RegistryPayload Handle) : Prop :=
  (rp_RegistryTable q, rp_BlobTable q) = (rp_RegistryTable p, rp_BlobTable p) ∧ LogicalID <$> rp_IDs q = LogicalID <$> rp_IDs p.

Lemma staged_list_LogicalID now t ns : ∀ d hs, length hs = length ns →
  LogicalID <$> (staged_list now d hs (pair t <$> ns)).*1 = LogicalID <$> hs.
Proof.
  induction ns as [|n ns IH]; intros d [|h hs] Hl; try done. cbn. f_equal; [by apply staged_fields|].
  apply IH. cbn in Hl. lia.
Qed.

Lemma set_drawn_drawn d d' w : set_drawn d (set_drawn d' w) = set_drawn d w.
Proof. done. Qed.

Lemma wp_each_update t ns : ∀ hs w, length hs = length ns →
  wp (each (stage_update (RE := RE) (BE := BE) gen) hs ns) w
    (λ r w', ∃ d, w' = set_drawn d w ∧ w_drawn w ≤ d ∧
      match r with
      | Some l => d = w_drawn w + length hs ∧ Forall2 (takes (w_now w)) hs ns ∧
          l.*1 = (staged_list (w_now w) (w_drawn w) hs (pair t <$> ns)).*1 ∧
          pair t <$> l.*2 = (staged_list (w_now w) (w_drawn w) hs (pair t <$> ns)).*2
      | None => ∃ i h n, hs !! i = Some h ∧ ns !! i = Some n ∧ refuses (w_now w) h n
      end)
    (λ e w', ∃ d, w' = set_drawn d w ∧ w_drawn w ≤ d).
Proof.
  induction ns as [|n ns IH]; intros [|h hs] w Hl; try done; cbn [each].
  { apply wp_ret. exists (w_drawn w). split; [by destruct w|]. split; [lia|]. split; [cbn; lia|]. by repeat constructor. }
  apply wp_bind. unfold wp at 1. rewrite run_stage_update. unfold refuses, takes.
  destruct (updatable (w_now w) h n) eqn:Eu.
  - destruct (Marshal_ n) as [ba|] eqn:Em; [|exists (S (w_drawn w)); split; [done|lia]].
    apply wp_bind. eapply wp_mono; [apply IH; cbn in Hl; lia| |].
    + intros r w' (d & -> & Hd & Hr). apply wp_ret. exists d. rewrite set_drawn_drawn. cbn [w_drawn set_drawn w_now] in *.
      split; [done|]. split; [lia|]. destruct r as [l|].
      * destruct Hr as (-> & Hall & H1 & H2). split; [cbn; lia|]. split; [constructor; [by split; [|exists ba]|done]|].
        cbn [fmap list_fmap staged_list fst snd]. rewrite Em. split; [by f_equal|by f_equal].
      * destruct Hr as (i & h' & n' & ? & ? & ?). by exists (S i), h', n'.
    + intros e w' (d & -> & Hd). exists d. rewrite set_drawn_drawn. cbn in Hd. split; [done|lia].
  - apply wp_ret. exists (w_drawn w). split; [by destruct w|]. split; [lia|]. by exists 0, h, n.
Qed.

Lemma wp_each_update_store nodes : ∀ ps w, Forall2 (λ p sn, length (rp_IDs p) = length sn.2) ps nodes →
  wp (each (stage_update_store (RE := RE) (BE := BE) gen) ps nodes) w
    (λ r w', ∃ d, w' = set_drawn d w ∧ w_drawn w ≤ d ∧
      match r with
      | Some l => d = w_drawn w + length (all_ids ps) ∧ Forall2 (takes (w_now w)) (all_ids ps) (flat nodes).*2 ∧
          all_ids l.*1 = (staged_list (w_now w) (w_drawn w) (all_ids ps) (flat nodes)).*1 ∧
          all_blobs l.*2 = (staged_list (w_now w) (w_drawn w) (all_ids ps) (flat nodes)).*2 ∧
          Forall2 same_shape ps l.*1
      | None => ∃ i h n, all_ids ps !! i = Some h ∧ (flat nodes).*2 !! i = Some n ∧ refuses (w_now w) h n
      end)
    (λ e w', ∃ d, w' = set_drawn d w ∧ w_drawn w ≤ d).
Proof.
  induction nodes as [|[st ns] nodes IH]; intros ps w Hl.
  { apply Forall2_nil_inv_r in Hl as ->. apply wp_ret. exists (w_drawn w). split; [by destruct w|]. split; [lia|].
    split; [cbn; lia|]. by repeat constructor. }
  apply Forall2_cons_inv_r in Hl as (p & ps' & Hp & Hl & ->). cbn [each snd] in *. apply wp_bind.
  unfold stage_update_store at 1. cbn [fst snd]. apply wp_bind. rewrite flat_cons, all_ids_cons, fmap_app. cbn [fst snd].
  assert (Hsnd : (pair (si_BlobTable st) <$> ns).*2 = ns) by (rewrite <- list_fmap_compose; apply list_fmap_id).
  eapply wp_mono; [by apply (wp_each_update (si_BlobTable st))| |done]. intros r w1 (d1 & -> & Hd1 & Hr). apply wp_ret.
  destruct r as [l|].
  - destruct Hr as (-> & Hall & H1 & H2). apply wp_bind. eapply wp_mono; [by apply IH| |].
    + intros r w2 (d & -> & Hd & Hr). apply wp_ret. exists d. rewrite set_drawn_drawn. cbn [w_drawn set_drawn w_now] in *.
      split; [done|]. split; [lia|]. destruct r as [l'|].
      * destruct Hr as (-> & Hall' & H1' & H2' & Hs).
        rewrite staged_list_app by (rewrite length_fmap; done). rewrite length_app, !fmap_app.
        split; [lia|]. split; [apply Forall2_app; [by rewrite Hsnd|done]|].
        split; [|split].
        -- rewrite fmap_cons, all_ids_cons. cbn [fst set_IDs rp_IDs]. by rewrite H1, H1'.
        -- rewrite <- H2, <- H2'. done.
        -- constructor; [|done]. split; [done|]. cbn [fst set_IDs rp_IDs]. rewrite H1. by apply staged_list_LogicalID.
      * destruct Hr as (i & h & n & Hh & Hn & Hrf). exists (length (rp_IDs p) + i), h, n. split; [|split; [|done]].
        -- by rewrite lookup_app_r, Nat.add_comm, Nat.add_sub by lia.
        -- rewrite Hsnd, Hp. by rewrite lookup_app_r, Nat.add_comm, Nat.add_sub by lia.
    + intros e w2 (d & -> & Hd). exists d. rewrite set_drawn_drawn. cbn in Hd. split; [done|lia].
  - apply wp_ret. exists d1. split; [done|]. split; [done|]. destruct Hr as (i & h & n & Hh & Hn & Hrf). exists i, h, n.
    split; [by apply lookup_app_l_Some|]. split; [|done]. rewrite Hsnd. by apply lookup_app_l_Some.
Qed.

(** ** The answer of the registry *)

Definition homed_nodes nodes : Prop :=
  Forall (λ sn, Forall (λ n, home (GetID n) = si_RegistryTable sn.1) sn.2) nodes.

Lemma homed_request nodes : homed_nodes nodes → homed home (convertToRegistryRequestPayload nodes).
Proof.
  intros Hh. unfold homed, convertToRegistryRequestPayload. apply Forall_fmap. eapply Forall_impl; [exact Hh|].
  intros [st ns] Hn. cbn. by apply Forall_fmap.
Qed.

Lemma request_ids nodes : all_ids (convertToRegistryRequestPayload nodes) = extractUUIDs nodes.
Proof. induction nodes as [|[st ns] nodes IH]; [done|]. cbn. by f_equal. Qed.

Lemma omap_length {X Y} (f : X → option Y) l : length (omap f l) ≤ length l.
Proof. induction l as [|x l IH]; [done|]. cbn. destruct (f x); cbn; lia. Qed.

Lemma omap_full {X Y} (f : X → option Y) l : length (omap f l) = length l → Forall2 (λ y x, f x = Some y) (omap f l) l.
Proof.
  induction l as [|x l IH]; [constructor|]. cbn. pose proof (omap_length f l). destruct (f x) eqn:E; cbn; intros Hl.
  - constructor; [done|]. apply IH. lia.
  - lia.
Qed.

Lemma omap_partial {X Y} (f : X → option Y) l : length (omap f l) ≠ length l → ∃ x, x ∈ l ∧ f x = None.
Proof.
  induction l as [|x l IH]; [done|]. cbn. destruct (f x) eqn:E; cbn; intros Hl.
  - destruct IH as (x0 & ? & ?); [lia|]. exists x0. split; [by right|done].
  - exists x. split; [left|done].
Qed.

Lemma answer_complete T nodes : ∀ handles, Forall2 (answers_in_order T) (convertToRegistryRequestPayload nodes) handles →
  same_lengths handles (convertToRegistryRequestPayload nodes) = true →
  Forall2 (λ p sn, length (rp_IDs p) = length sn.2) handles nodes ∧
  Forall2 (λ h n, T !! GetID n = Some h) (all_ids handles) (flat nodes).*2.
Proof.
  induction nodes as [|[st ns] nodes IH]; intros handles Ha Hl.
  - apply Forall2_nil_inv_l in Ha as ->. by split.
  - apply Forall2_cons_inv_l in Ha as (p & ps & Hp & Ha & ->). cbn in Hl. apply andb_true_iff in Hl as [Hlp Hl].
    apply bool_decide_eq_true in Hlp. destruct (IH ps Ha Hl) as [H1 H2]. unfold answers_in_order in Hp. cbn in Hp.
    rewrite length_fmap in Hlp. split; [by constructor|]. rewrite all_ids_cons, flat_cons, fmap_app. apply Forall2_app; [|done].
    cbn [fst snd]. rewrite <- list_fmap_compose. rewrite (list_fmap_id ns : (snd ∘ pair (si_BlobTable st)) <$> ns = ns).
    rewrite Hp in *. pose proof (omap_full (T !!.) (GetID <$> ns)) as Hf. rewrite length_fmap in Hf.
    specialize (Hf Hlp). apply Forall2_fmap_r in Hf. exact Hf.
Qed.

Lemma answer_incomplete T nodes : ∀ handles, Forall2 (answers_in_order T) (convertToRegistryRequestPayload nodes) handles →
  same_lengths handles (convertToRegistryRequestPayload nodes) = false → ∃ n, n ∈ (flat nodes).*2 ∧ T !! GetID n = None.
Proof.
  induction nodes as [|[st ns] nodes IH]; intros handles Ha Hl.
  - apply Forall2_nil_inv_l in Ha as ->. done.
  - apply Forall2_cons_inv_l in Ha as (p & ps & Hp & Ha & ->). cbn in Hl. apply andb_false_iff in Hl.
    rewrite flat_cons, fmap_app. cbn [fst snd]. rewrite <- list_fmap_compose.
    rewrite (list_fmap_id ns : (snd ∘ pair (si_BlobTable st)) <$> ns = ns). destruct Hl as [Hlp|Hl].
    + apply bool_decide_eq_false in Hlp. unfold answers_in_order in Hp. cbn in Hp. rewrite Hp in Hlp.
      apply omap_partial in Hlp as (id & (n & -> & Hn)%list_elem_of_fmap & Hid). exists n. split; [|done].
      apply elem_of_app. by left.
    + destruct (IH ps Ha Hl) as (n & Hn & Hid). exists n. split; [|done]. apply elem_of_app. by right.
Qed.

(** The handles that are written back go where they came from. *)
Lemma shapes_homed nodes T handles hs : homed_nodes nodes →
  Forall2 (answers T) (convertToRegistryRequestPayload nodes) handles →
  (∀ id h, T !! id = Some h → LogicalID h = id) →
  Forall2 same_shape handles hs → homed_handles home hs.
Proof.
  intros Hn. revert handles hs. induction Hn as [|[st ns] nodes Hns Hn IH]; intros handles hs Ha Hk Hs.
  - apply Forall2_nil_inv_l in Ha as ->. apply Forall2_nil_inv_l in Hs as ->. constructor.
  - apply Forall2_cons_inv_l in Ha as (p & ps & (Ht & _ & Hp) & Ha & ->).
    apply Forall2_cons_inv_l in Hs as (q & qs & [Hqt Hq] & Hs & ->). constructor; [|by eapply IH].
    apply Forall_forall. intros h Hh. injection Hqt as Hqt _. rewrite Hqt, Ht. cbn.
    assert (Hin : LogicalID h ∈ LogicalID <$> rp_IDs p) by (rewrite <- Hq; by apply list_elem_of_fmap_2).
    apply list_elem_of_fmap in Hin as (h0 & -> & Hin). rewrite Hp in Hin.
    apply list_elem_of_omap in Hin as (id & Hid & Hh0). cbn in Hid. apply list_elem_of_fmap in Hid as (n & -> & Hin).
    rewrite (Hk _ _ Hh0). by apply (proj1 (Forall_forall _ _) Hns).
Qed.

Lemma shapes_IDs handles hs : Forall2 same_shape handles hs → LogicalID <$> all_ids hs = LogicalID <$> all_ids handles.
Proof.
  induction 1 as [|p q ps qs [_ Hq] _ IH]; [done|]. by rewrite !all_ids_cons, !fmap_app, Hq, IH.
Qed.

Lemma answered_IDs T hs ns : (∀ id h, T !! id = Some h → LogicalID h = id) →
  Forall2 (λ h n, T !! GetID n = Some h) hs ns → LogicalID <$> hs = GetID <$> ns.
Proof. intros Hk. induction 1 as [|h n hs ns Hh _ IH]; [done|]. cbn. by rewrite (Hk _ _ Hh), IH. Qed.

(** ** What readers see *)

Definition unnoticed T T' : Prop := ∀ id, T' !! id = T !! id ∨
  ∃ h h', T !! id = Some h ∧ T' !! id = Some h' ∧ same_view h h'.

Definition active_kept T B B' : Prop := ∀ t id h, T !! id = Some h → B' !! (t, GetActiveID h) = B !! (t, GetActiveID h).

Lemma unnoticed_views T B T' B' : unnoticed T T' → active_kept T B B' → same_views T B T' B'.
Proof.
  intros HT HB t id. unfold view. destruct (HT id) as [->|(h & h' & Hh & Hh' & Ha & Hv)].
  - destruct (T !! id) as [h|] eqn:E; [|done]. cbn. by rewrite (HB t id h E).
  - rewrite Hh, Hh'. cbn. rewrite Ha, Hv. by rewrite (HB t id h Hh).
Qed.

Lemma unnoticed_refl T : unnoticed T T.
Proof. intros id. by left. Qed.

Lemma unnoticed_between T T1 T' : unnoticed T T1 → between T T1 T' → unnoticed T T'.
Proof. intros H1 Hb id. destruct (Hb id) as [->| ->]; [by left|apply H1]. Qed.

Lemma fresh_unnoticed d d' T T' B B' : fresh d T B → d ≤ d' → unnoticed T T' →
  (∀ i t, d' ≤ i → i < limit → B' !! (t, gen i) = B !! (t, gen i)) → fresh d' T' B'.
Proof.
  intros Hf Hd HT HB i Hi Hil. destruct (Hf i ltac:(lia) Hil) as [H1 H2]. split; [intros t; by rewrite HB|].
  intros id h Hh. destruct (HT id) as [He|(h0 & h1 & Hh0 & Hh1 & Ha & _)].
  - rewrite He in Hh. by eapply H2.
  - rewrite Hh in Hh1. injection Hh1 as <-. rewrite Ha. by eapply H2.
Qed.

Section staged.
Context (now : Z) (d : nat) (hs : list Handle) (tns : list (string * Nd)) (T : gmap UUID Handle) (B : gmap (string * UUID) (list Z)).
Hypothesis Hkey : ∀ id h, T !! id = Some h → LogicalID h = id.
Hypothesis Hhs : Forall2 (λ h n, T !! GetID n = Some h) hs tns.*2.
Hypothesis Hnd : NoDup (GetID <$> tns.*2).
Hypothesis Hfresh : fresh d T B.

Local Abbreviation SL := (staged_list now d hs tns).

Lemma staged_length : length hs = length tns.
Proof. apply Forall2_length in Hhs. by rewrite length_fmap in Hhs. Qed.

Lemma staged_elem x : x ∈ SL ↔ ∃ i h t n, hs !! i = Some h ∧ tns !! i = Some (t, n) ∧
  x = (staged now (gen (d + i)) h, (t, (gen (d + i), default [] (Marshal_ n)))).
Proof.
  rewrite list_elem_of_lookup. split.
  - intros [i Hi]. rewrite staged_list_lookup in Hi by apply staged_length.
    destruct (hs !! i) as [h|] eqn:Eh; [|done]. destruct (tns !! i) as [[t n]|] eqn:Et; [|done].
    exists i, h, t, n. by simplify_eq.
  - intros (i & h & t & n & Hh & Ht & ->). exists i. rewrite staged_list_lookup by apply staged_length. by rewrite Hh, Ht.
Qed.

Lemma staged_at i h t n : hs !! i = Some h → tns !! i = Some (t, n) → T !! GetID n = Some h ∧ LogicalID h = GetID n.
Proof.
  intros Hh Ht. assert (Hn : tns.*2 !! i = Some n) by (by rewrite list_lookup_fmap, Ht).
  pose proof (Forall2_lookup_lr _ _ _ _ _ _ Hhs Hh Hn) as He. split; [done|]. by apply Hkey.
Qed.

Lemma staged_NoDup : NoDup (LogicalID <$> SL.*1).
Proof.
  assert (He : LogicalID <$> SL.*1 = GetID <$> tns.*2); [|by rewrite He].
  apply list_eq. intros i. rewrite !list_lookup_fmap, staged_list_lookup by apply staged_length.
  pose proof staged_length as Hl. destruct (tns !! i) as [[t n]|] eqn:Et.
  - destruct (hs !! i) as [h|] eqn:Eh.
    + cbn. destruct (staged_fields now (gen (d + i)) h) as (-> & _). by destruct (staged_at i h t n Eh Et) as [_ ->].
    + apply lookup_ge_None in Eh. apply lookup_lt_Some in Et. lia.
  - destruct (hs !! i) as [h|] eqn:Eh; [|done]. apply lookup_ge_None in Et. apply lookup_lt_Some in Eh. lia.
Qed.

Lemma staged_put i h t n : hs !! i = Some h → tns !! i = Some (t, n) →
  put_handles SL.*1 T !! GetID n = Some (staged now (gen (d + i)) h).
Proof.
  intros Hh Ht. destruct (staged_at i h t n Hh Ht) as [_ <-].
  destruct (staged_fields now (gen (d + i)) h) as (<- & _). apply put_handles_in; [apply staged_NoDup|].
  apply list_elem_of_fmap. eexists. split; [|apply staged_elem; by exists i, h, t, n]. done.
Qed.

Lemma staged_others id : id ∉ GetID <$> tns.*2 → put_handles SL.*1 T !! id = T !! id.
Proof.
  intros Hid. apply put_handles_notin. intros (x & -> & (y & -> & (i & h & t & n & Hh & Ht & ->)%staged_elem)%list_elem_of_fmap)%list_elem_of_fmap.
  apply Hid. cbn. destruct (staged_fields now (gen (d + i)) h) as (-> & _). destruct (staged_at i h t n Hh Ht) as [_ ->].
  apply list_elem_of_fmap_2. apply list_elem_of_fmap. exists (t, n). split; [done|]. by eapply list_elem_of_lookup_2.
Qed.

Lemma staged_unnoticed : unnoticed T (put_handles SL.*1 T).
Proof.
  intros id. destruct (decide (id ∈ GetID <$> tns.*2)) as [(n & -> & ([t n'] & -> & Hin)%list_elem_of_fmap)%list_elem_of_fmap|Hid].
  - right. apply list_elem_of_lookup in Hin as [i Ht]. cbn [snd].
    destruct (lookup_lt_is_Some_2 hs i) as [h Hh]; [rewrite staged_length; by eapply lookup_lt_Some|].
    exists h, (staged now (gen (d + i)) h). destruct (staged_at i h t n' Hh Ht) as [? _].
    split; [done|]. split; [by eapply staged_put|]. apply staged_same_view.
  - left. by apply staged_others.
Qed.

Lemma staged_keys k : k ∈ blob_keys SL.*2 → ∃ i t n, tns !! i = Some (t, n) ∧ k = (t, gen (d + i)).
Proof.
  intros (x & -> & (y & -> & (i & h & t & n & Hh & Ht & ->)%staged_elem)%list_elem_of_fmap)%list_elem_of_fmap.
  by exists i, t, n.
Qed.

Hypothesis Hlimit : d + length tns ≤ limit.

Lemma staged_keys_NoDup : NoDup (blob_keys SL.*2).
Proof.
  apply (NoDup_fmap_1 snd). apply NoDup_alt. intros i j x. unfold blob_keys. rewrite !list_lookup_fmap, !staged_list_lookup by apply staged_length.
  destruct (hs !! i), (tns !! i) as [[]|] eqn:Eti, (hs !! j), (tns !! j) as [[]|] eqn:Etj; cbn; intros Hi Hj; try done.
  apply lookup_lt_Some in Eti, Etj. rewrite <- Hi in Hj. injection Hj as Hj. apply gen_inj in Hj; lia.
Qed.

Lemma staged_blob i h t n : hs !! i = Some h → tns !! i = Some (t, n) →
  put_blobs SL.*2 B !! (t, gen (d + i)) = Some (default [] (Marshal_ n)).
Proof.
  intros Hh Ht. apply put_blobs_in; [apply staged_keys_NoDup|]. apply list_elem_of_fmap.
  eexists. split; [|apply staged_elem; by exists i, h, t, n]. done.
Qed.

Lemma staged_active_kept B' : same_but (blob_keys SL.*2) B B' → active_kept T B B'.
Proof.
  intros Hs t id h Hh. apply Hs. intros (i & t0 & n & Hi & [= -> Hk])%staged_keys. apply lookup_lt_Some in Hi.
  by apply (proj2 (Hfresh (d + i) ltac:(lia) ltac:(lia)) id h).
Qed.

Lemma staged_fresh : fresh (d + length hs) (put_handles SL.*1 T) (put_blobs SL.*2 B).
Proof.
  eapply fresh_unnoticed; [exact Hfresh|lia|apply staged_unnoticed|]. intros i t Hi Hil. apply put_blobs_other.
  intros (j & t0 & n & Hj & [= -> Hk])%staged_keys. apply lookup_lt_Some in Hj. rewrite staged_length in Hi. apply gen_inj in Hk; lia.
Qed.

Lemma staged_stored R : Forall storable hs → in_s 64 (UnixMilli now) → (∀ n, n ∈ tns.*2 → GetID n ∈ R) →
  Forall storable SL.*1 ∧ Forall (λ h, LogicalID h ∈ R) SL.*1.
Proof.
  intros Hst Hnow HR. split; apply Forall_fmap, Forall_forall; intros x (i & h & t & n & Hh & Ht & ->)%staged_elem; cbn.
  - apply staged_storable; [by eapply Forall_lookup_1|apply gen_wf|done].
  - destruct (staged_fields now (gen (d + i)) h) as (-> & _). destruct (staged_at i h t n Hh Ht) as [_ ->].
    apply HR. apply list_elem_of_fmap. exists (t, n). split; [done|]. by eapply list_elem_of_lookup_2.
Qed.
End staged.
End staging.
