(* ===== verification/NodeProps.v ===== *)
(** * The commit of nodes is atomic: theorems

    Staging a set of updated nodes succeeds exactly when no other transaction has
    changed or is changing one of them; whatever happens, readers still see what
    they saw; the write of the turned handles then shows all of the new nodes. *)

From stdpp Require Import gmap.
From S2P Require Import Prelude Wp Handle HashmapSpec Stores NodeRepo NodeCommit.

Section properties.
Context {RS RE BS BE Nd : Type} `{RO : Registry RS RE} `{BO : BlobStore BS BE} `{MD : MetaData Nd}.
Context (gen : nat → UUID) (home : UUID → string).
Context `{RL : !RegistryLaws RS RE home} `{BL : !BlobStoreLaws BS BE}.
Hypothesis gen_not_nil : ∀ i, gen i ≠ NilUUID.
Hypothesis gen_wf : ∀ i, uuid_wf (gen i).
Context (limit : nat).
Hypothesis gen_inj : ∀ i j, i < limit → j < limit → gen i = gen j → i = j.

Local Abbreviation world := (@world RS BS Nd).
Local Abbreviation repo_inv := (NodeCommit.repo_inv gen home limit).
Implicit Types (T : gmap UUID Handle) (R : gset UUID) (B : gmap (string * UUID) (list Z)) (w : world) (h : Handle) (n : Nd).
Implicit Types (nodes : list (StoreInfo * list Nd)) (handles : list (RegistryPayload Handle)).

(** A request that can be served: the IDs are in the tables of their stores, each
    once and within reach of a write, and the registry answers in order. *)
Record request T R w nodes : Prop := {
  req_home : homed_nodes home nodes;
  req_NoDup : NoDup (extractUUIDs nodes);
  req_reach : ∀ id, id ∈ extractUUIDs nodes → is_Some (T !! id) → id ∈ R;
  req_ordered : ordered (w_registry w) (convertToRegistryRequestPayload nodes);
  req_now : in_s 64 (UnixMilli (w_now w));
  req_limit : w_drawn w + length (flat nodes) ≤ limit;
}.

(** The node is missing, changed, removed, or being updated by somebody. *)
Definition conflict (now : Z) T n : Prop :=
  match T !! GetID n with None => True | Some h => updatable now h n = false end.

(** [T'] and [B'] are [T] and [B] with every node staged under a new ID, and
    [handles] are the handles written, in the order of the nodes. *)
Record staged_update (now : Z) (d : nat) T B T' B' nodes handles : Prop := {
  su_IDs : LogicalID <$> all_ids handles = extractUUIDs nodes;
  su_home : homed_handles home handles;
  su_others : ∀ id, id ∉ extractUUIDs nodes → T' !! id = T !! id;
  su_node : ∀ i t n, flat nodes !! i = Some (t, n) → ∃ h ba,
    T !! GetID n = Some h ∧ updatable now h n = true ∧ Marshal_ n = Some ba ∧
    all_ids handles !! i = Some (staged now (gen (d + i)) h) ∧
    T' !! GetID n = Some (staged now (gen (d + i)) h) ∧ B' !! (t, gen (d + i)) = Some ba;
  su_blobs : ∀ k, (∀ i t n, flat nodes !! i = Some (t, n) → k ≠ (t, gen (d + i))) → B' !! k = B !! k;
  su_tables : Forall2 (λ p sn, rp_BlobTable p = si_BlobTable sn.1 ∧ length (rp_IDs p) = length sn.2) handles nodes;
}.

(** After a failed write the files stand for a map that readers do not tell from
    [T]. *)
Definition unseen T B w' : Prop := ∃ T' R' B', stands (w_registry w') T' R' ∧ blob_holds (w_blobStore w') B' ∧
  same_views T B T' B'.

Lemma same_views_refl T B : same_views T B T B.
Proof. done. Qed.

Lemma wp_Get_nodes w T R B nodes : repo_inv w T R B → homed_nodes home nodes →
  wp (on_registry (BE := BE) (registry_Get (convertToRegistryRequestPayload nodes))) w
    (λ handles w', ∃ r, w' = set_registry r w ∧ repo_inv w' T R B ∧
       Forall2 (answers T) (convertToRegistryRequestPayload nodes) handles ∧
       (ordered (w_registry w) (convertToRegistryRequestPayload nodes) →
        Forall2 (answers_in_order T) (convertToRegistryRequestPayload nodes) handles))
    (λ _ w', ∃ r, w' = set_registry r w ∧ repo_inv w' T R B).
Proof.
  intros (Hr & Hb & Hf) Hh. apply wp_on. eapply wp_mono.
  - apply (Get_law _ T R); [done|by apply homed_request].
  - intros hs r (Hr' & _ & Ha & Ho). exists r. split; [done|]. split; [by split|]. by split.
  - intros e r (Hr' & _). exists r. split; [done|by split].
Qed.

(** The caching of nodes changes nothing else. *)
Definition cached_only w w' : Prop := ∃ c, w' = set_l2nodes c w.

Lemma wp_l2_SetNode id n w : wp (l2_SetNode (RE := RE) (BE := BE) id n) w (λ _ w', cached_only w w') (λ _ _, False).
Proof.
  apply wp_modify. destruct (w_setfails w id); [exists (w_l2nodes w); by destruct w|by eexists].
Qed.

Lemma cached_only_refl w : cached_only w w.
Proof. exists (w_l2nodes w). by destruct w. Qed.

Lemma cached_only_trans w w1 w2 : cached_only w w1 → cached_only w1 w2 → cached_only w w2.
Proof. intros [c1 ->] [c2 ->]. by exists c2. Qed.

Lemma wp_cache_nodes f ns : ∀ hs w, length hs = length ns →
  wp (cache_nodes (RE := RE) (BE := BE) f hs ns) w (λ _ w', cached_only w w') (λ _ _, False).
Proof.
  induction ns as [|n ns IH]; intros [|h hs] w Hl; try done; cbn [cache_nodes].
  - apply wp_ret, cached_only_refl.
  - apply wp_bind. eapply wp_mono; [apply wp_l2_SetNode| |done]. intros [] w1 H1.
    eapply wp_mono; [apply IH; cbn in Hl; lia| |done]. intros [] w2 H2. by eapply cached_only_trans.
Qed.

Lemma wp_cache_stores f nodes : ∀ handles w, Forall2 (λ p sn, length (rp_IDs p) = length sn.2) handles nodes →
  wp (cache_stores (RE := RE) (BE := BE) f handles nodes) w (λ _ w', cached_only w w') (λ _ _, False).
Proof.
  induction nodes as [|[st ns] nodes IH]; intros handles w Hl.
  - apply Forall2_nil_inv_r in Hl as ->. apply wp_ret, cached_only_refl.
  - apply Forall2_cons_inv_r in Hl as (p & ps & Hp & Hl & ->). cbn [cache_stores]. apply wp_bind.
    eapply wp_mono; [by apply wp_cache_nodes| |done]. intros [] w1 H1.
    eapply wp_mono; [by apply IH| |done]. intros [] w2 H2. by eapply cached_only_trans.
Qed.

Lemma shape_lengths handles hs nodes : Forall2 same_shape handles hs →
  Forall2 (λ p sn, length (rp_IDs p) = length sn.2) handles nodes →
  Forall2 (λ (p : RegistryPayload Handle) (sn : StoreInfo * list Nd), length (rp_IDs p) = length sn.2) hs nodes.
Proof.
  intros Hs. revert nodes. induction Hs as [|p q ps qs [_ Hq] _ IH]; intros nodes Hl.
  - by apply Forall2_nil_inv_l in Hl as ->.
  - apply Forall2_cons_inv_l in Hl as (sn & nodes' & Hp & Hl & ->). constructor; [|by apply IH].
    apply (f_equal length) in Hq. rewrite !length_fmap in Hq. congruence.
Qed.

Lemma shape_tables T handles hs nodes : Forall2 (answers T) (convertToRegistryRequestPayload nodes) handles →
  Forall2 same_shape handles hs → Forall2 (λ p sn, length (rp_IDs p) = length sn.2) handles nodes →
  Forall2 (λ (p : RegistryPayload Handle) (sn : StoreInfo * list Nd), rp_BlobTable p = si_BlobTable sn.1 ∧ length (rp_IDs p) = length sn.2) hs nodes.
Proof.
  intros Ha. revert handles hs Ha. induction nodes as [|[st ns] nodes IH]; intros handles hs Ha Hs Hl.
  - apply Forall2_nil_inv_r in Hl as ->. by apply Forall2_nil_inv_l in Hs as ->.
  - apply Forall2_cons_inv_r in Hl as (p & ps & Hp & Hl & ->). apply Forall2_cons_inv_l in Hs as (q & qs & [Ht Hq] & Hs & ->).
    apply Forall2_cons in Ha as [(_ & Hb & _) Ha]. constructor; [|by eapply IH]. injection Ht as _ ->.
    split; [done|]. apply (f_equal length) in Hq. rewrite !length_fmap in Hq. cbn in Hp |- *. congruence.
Qed.

Lemma holds_keys s T R : holds s T R → ∀ id h, T !! id = Some h → LogicalID h = id.
Proof. intros Hh id h Hid. by destruct (holds_key s T R id h Hh Hid). Qed.

Lemma wp_commitUpdatedNodes w T R B nodes : repo_inv w T R B → request T R w nodes →
  wp (commitUpdatedNodes (RE := RE) (BE := BE) gen nodes) w
    (λ '(ok, handles) w', ∃ T' B', repo_inv w' T' R B' ∧ same_views T B T' B' ∧
       w_now w' = w_now w ∧
       if (ok : bool) then staged_update (w_now w) (w_drawn w) T B T' B' nodes handles ∧
         w_drawn w' = w_drawn w + length (flat nodes) ∧
         (∀ reqs, NoDup (all_ids reqs) → all_ids reqs ⊆ extractUUIDs nodes → ordered (w_registry w') reqs)
       else T' = T ∧ B' = B ∧ handles = [] ∧ ∃ n, n ∈ (flat nodes).*2 ∧ conflict (w_now w) T n)
    (λ _ w', unseen T B w').
Proof.
  intros Hinv [Hhome Hnd Hreach Hord Hnow Hlim]. unfold commitUpdatedNodes. case_decide as Hnil.
  { subst nodes. apply wp_ret. exists T, B. split; [done|]. split; [done|]. split; [done|]. split; [constructor; try done; constructor|].
    split; [cbn; lia|]. intros reqs _ Hsub. apply ordered_nothing. destruct (all_ids reqs) as [|id l]; [done|].
    exfalso. apply (not_elem_of_nil id), Hsub, list_elem_of_here. }
  apply wp_bind. eapply wp_mono; [by apply (wp_Get_nodes w T R B)| |].
  2:{ intros e w' (r & -> & (Hh & Hb & _)). exists T, R, B. split; [by apply holds_stands|]. by split. }
  intros handles w1 (r & -> & (Hh & Hb & Hf) & Ha & Ho). specialize (Ho Hord).
  destruct (same_lengths handles (convertToRegistryRequestPayload nodes)) eqn:El; cbn [negb].
  2:{ apply wp_ret. exists T, B. split; [by split|]. split; [done|]. split; [done|]. split; [done|]. split; [done|]. split; [done|].
      destruct (answer_incomplete T nodes handles Ho El) as (n & Hn & Hid). exists n. split; [done|]. unfold conflict. by rewrite Hid. }
  destruct (answer_complete T nodes handles Ho El) as [Hlen Hhs].
  apply wp_bind. eapply wp_mono; [by apply (wp_each_update_store gen)| |].
  2:{ intros e w2 (d & -> & Hd). exists T, R, B. split; [by apply holds_stands|]. by split. }
  intros res w2 (d & -> & Hd & Hres). cbn [w_now w_drawn set_registry] in Hd, Hres. destruct res as [l|].
  2:{ apply wp_ret. exists T, B. split.
      { split; [done|]. split; [done|]. intros i Hi. cbn in Hi. apply Hf; cbn; lia. }
      split; [done|]. split; [done|]. split; [done|]. split; [done|]. split; [done|].
      destruct Hres as (i & h & n & Hi & Hn & Hrf). exists n. split; [by eapply list_elem_of_lookup_2|]. unfold conflict.
      by rewrite (Forall2_lookup_lr _ _ _ _ _ _ Hhs Hi Hn). }
  destruct Hres as (-> & Htakes & H1 & H2 & Hshape). cbn [w_drawn w_now] in *.
  pose proof (holds_keys _ _ _ Hh) as Hkey. rewrite flat_IDs in Hnd.
  assert (Hnd' : NoDup (GetID <$> (flat nodes).*2)) by (by rewrite <- list_fmap_compose).
  assert (Hst : Forall storable (all_ids handles)).
  { apply Forall_lookup. intros i h Hi. destruct (Forall2_lookup_l _ _ _ _ _ Hhs Hi) as (n & _ & Hn). by apply (holds_key _ T R _ h Hh Hn). }
  assert (Hreach' : ∀ n, n ∈ (flat nodes).*2 → GetID n ∈ R).
  { intros n Hn. apply Hreach; [rewrite flat_IDs, list_fmap_compose; by apply list_elem_of_fmap_2|].
    apply list_elem_of_lookup in Hn as [i Hi]. destruct (Forall2_lookup_r _ _ _ _ _ Hhs Hi) as (h & _ & ->). by eexists. }
  destruct (staged_stored gen gen_wf (w_now w) (w_drawn w) _ _ T Hkey Hhs R Hst Hnow Hreach') as [Hst' HR'].
  pose proof (staged_NoDup gen (w_now w) (w_drawn w) _ _ T Hkey Hhs Hnd') as HndS.
  pose proof (staged_unnoticed gen (w_now w) (w_drawn w) _ _ T Hkey Hhs Hnd') as Hun.
  apply wp_bind, wp_on. cbn [w_registry set_drawn set_registry]. eapply wp_mono.
  { apply (UpdateNoLocks_law (RS := RS) r T R); [done|by eapply shapes_homed|by rewrite H1..]. }
  2:{ intros e r' (T' & Hs' & Hb'). exists T', R, B. split; [done|]. split; [done|]. apply unnoticed_views; [|done].
      rewrite H1 in Hb'. by eapply unnoticed_between. }
  intros [] r' (Hh' & _ & Hor). rewrite H1 in Hh', Hor. apply wp_bind, wp_on. eapply wp_mono; [by apply (BlobAdd_law _ B)| |].
  2:{ intros e b (B' & Hb' & Hsame). rewrite H2 in Hsame. eexists _, R, B'. split; [by apply holds_stands|]. split; [done|].
      apply unnoticed_views; [exact Hun|]. eapply staged_active_kept; [done|exact Hf|exact Hlim|done]. }
  intros [] b Hb'. rewrite H2 in Hb'. apply wp_bind. eapply wp_mono; [apply wp_cache_stores; by eapply shape_lengths| |done].
  intros [] w3 [c ->]. apply wp_ret. eexists _, _. split; [split; [exact Hh'|split; [exact Hb'|]]|split; [|split; [done|split; [|split]]]].
  - by apply staged_fresh.
  - apply unnoticed_views; [exact Hun|]. eapply staged_active_kept; [done|exact Hf|exact Hlim|]. intros k Hk. by apply put_blobs_other.
  - assert (Hlf : length (all_ids handles) = length (flat nodes)) by (apply Forall2_length in Hhs; by rewrite length_fmap in Hhs).
    constructor.
    + rewrite (shapes_IDs _ _ Hshape), (answered_IDs T _ _ Hkey Hhs), flat_IDs. by rewrite <- list_fmap_compose.
    + by eapply shapes_homed.
    + intros id Hid. eapply staged_others; [exact Hkey|exact Hhs|]. by rewrite flat_IDs, list_fmap_compose in Hid.
    + intros i t n Hi. destruct (lookup_lt_is_Some_2 (all_ids handles) i) as [h Hih]; [rewrite Hlf; by eapply lookup_lt_Some|].
      assert (Hn : (flat nodes).*2 !! i = Some n) by (by rewrite list_lookup_fmap, Hi).
      destruct (Forall2_lookup_lr _ _ _ _ _ _ Htakes Hih Hn) as [Hup [ba Hba]]. exists h, ba.
      split; [exact (Forall2_lookup_lr _ _ _ _ _ _ Hhs Hih Hn)|]. split; [done|]. split; [done|]. split; [|split].
      * rewrite H1, list_lookup_fmap, staged_list_lookup by done. by rewrite Hih, Hi.
      * by eapply staged_put.
      * rewrite (staged_blob gen limit gen_inj (w_now w) (w_drawn w) _ _ T B Hhs Hlim i h t n Hih Hi). by rewrite Hba.
    + intros k Hk. apply put_blobs_other. intros (i & t & n & Hi & He)%(staged_keys gen (w_now w) (w_drawn w) _ _ T Hhs). by apply (Hk i t n).
    + by eapply shape_tables.
  - cbn. apply Forall2_length in Hhs. rewrite length_fmap in Hhs. lia.
  - cbn. intros reqs Hnr Hsub. apply Hor; [done|]. rewrite <- H1, (shapes_IDs _ _ Hshape), (answered_IDs T _ _ Hkey Hhs), <- list_fmap_compose.
    by rewrite flat_IDs in Hsub.
Qed.

(** ** The switch *)

Definition activated h : Handle :=
  set_Timestamp (set_Version (FlipActiveID h) (wrap_s 32 (Version h + 1))) 1.

Lemma activated_fields h : LogicalID (activated h) = LogicalID h ∧ GetActiveID (activated h) = GetInActiveID h ∧
  GetInActiveID (activated h) = GetActiveID h ∧ Version (activated h) = wrap_s 32 (Version h + 1).
Proof. destruct h as [l a b [] v ts del]; done. Qed.

Lemma activated_storable h : storable h → storable (activated h).
Proof.
  intros Hh. unfold activated. apply storable_Timestamp; [|apply (one_in_s 64); lia].
  apply storable_Version; [by apply storable_IsActiveIDB|]. apply wrap_s_range. lia.
Qed.

Lemma activate_IDs handles : all_ids (activateInactiveNodes handles) = activated <$> all_ids handles.
Proof.
  induction handles as [|p ps IH]; [done|]. cbn [activateInactiveNodes fmap list_fmap]. rewrite !all_ids_cons, fmap_app. by f_equal.
Qed.

Lemma activate_home handles : homed_handles home handles → homed_handles home (activateInactiveNodes handles).
Proof.
  intros Hh. apply Forall_fmap. eapply Forall_impl; [exact Hh|]. intros p Hp. cbn. apply Forall_fmap.
  eapply Forall_impl; [exact Hp|]. by intros h.
Qed.
Definition touched h : Handle := set_Timestamp (set_Version h (wrap_s 32 (Version h + 1))) 0.

Lemma touched_storable h : storable h → storable (touched h).
Proof.
  intros Hh. unfold touched. apply storable_Timestamp; [|apply (zero_in_s 64); lia].
  apply storable_Version; [done|]. apply wrap_s_range. lia.
Qed.

Lemma touch_IDs handles : all_ids (touchNodes handles) = touched <$> all_ids handles.
Proof.
  induction handles as [|p ps IH]; [done|]. cbn [touchNodes fmap list_fmap]. rewrite !all_ids_cons, fmap_app. by f_equal.
Qed.

Lemma touch_home handles : homed_handles home handles → homed_handles home (touchNodes handles).
Proof.
  intros Hh. apply Forall_fmap. eapply Forall_impl; [exact Hh|]. intros p Hp. cbn. apply Forall_fmap.
  eapply Forall_impl; [exact Hp|]. by intros h.
Qed.

(** Handles as they are in the registry. *)
Definition current T handles : Prop := Forall (λ h, T !! LogicalID h = Some h) (all_ids handles).

Definition final_handles us ds : list Handle := (activated <$> all_ids us) ++ (touched <$> all_ids ds).

Lemma final_LogicalIDs us ds : LogicalID <$> final_handles us ds = LogicalID <$> all_ids us ++ all_ids ds.
Proof. unfold final_handles. rewrite !fmap_app, <- !list_fmap_compose. done. Qed.

Lemma final_lookup us ds T id : NoDup (LogicalID <$> all_ids us ++ all_ids ds) → current T us → current T ds →
  (∃ h, h ∈ all_ids us ∧ LogicalID h = id ∧ T !! id = Some h ∧ put_handles (final_handles us ds) T !! id = Some (activated h)) ∨
  (∃ h, h ∈ all_ids ds ∧ LogicalID h = id ∧ T !! id = Some h ∧ put_handles (final_handles us ds) T !! id = Some (touched h)) ∨
  (id ∉ LogicalID <$> all_ids us ++ all_ids ds ∧ put_handles (final_handles us ds) T !! id = T !! id).
Proof.
  intros Hnd Hu Hd. assert (Hnd' : NoDup (LogicalID <$> final_handles us ds)) by (by rewrite final_LogicalIDs).
  destruct (decide (id ∈ LogicalID <$> all_ids us ++ all_ids ds)) as [Hin|Hout].
  - apply list_elem_of_fmap in Hin as (h & -> & [Hin|Hin]%elem_of_app); [left|right; left]; exists h; split_and!; try done.
    + by apply (proj1 (Forall_forall _ _) Hu).
    + apply (put_handles_in _ T (activated h)); [done|]. apply elem_of_app. left. by apply list_elem_of_fmap_2.
    + by apply (proj1 (Forall_forall _ _) Hd).
    + apply (put_handles_in _ T (touched h)); [done|]. apply elem_of_app. right. by apply list_elem_of_fmap_2.
  - right; right. split; [done|]. apply put_handles_notin. by rewrite final_LogicalIDs.
Qed.

(** The last write of a commit: every handle is written turned, or touched. *)
Lemma wp_switch w T R B us ds : repo_inv w T R B → homed_handles home us → homed_handles home ds →
  NoDup (LogicalID <$> all_ids us ++ all_ids ds) → current T us → current T ds →
  Forall (λ h, LogicalID h ∈ R) (all_ids us ++ all_ids ds) →
  Forall (λ h, ∀ i, w_drawn w ≤ i → i < limit → GetInActiveID h ≠ gen i) (all_ids us) →
  wp (on_registry (BE := BE) (registry_UpdateNoLocks true (activateInactiveNodes us ++ touchNodes ds))) w
    (λ _ w', ∃ r, w' = set_registry r w ∧ repo_inv w' (put_handles (final_handles us ds) T) R B)
    (λ _ w', ∃ r T', w' = set_registry r w ∧ stands r T' R ∧ blob_holds (w_blobStore w') B ∧
       between T (put_handles (final_handles us ds) T) T').
Proof.
  intros (Hh & Hb & Hf) Hu Hd Hnd Hcu Hcd HR Hin. apply wp_on.
  assert (Hids : all_ids (activateInactiveNodes us ++ touchNodes ds) = final_handles us ds).
  { unfold all_ids. rewrite bind_app. fold (all_ids (activateInactiveNodes us)). fold (all_ids (touchNodes ds)).
    by rewrite activate_IDs, touch_IDs. }
  assert (Hst : ∀ hs, current T hs → Forall storable (all_ids hs)).
  { intros hs Hc. eapply Forall_impl; [exact Hc|]. intros h Hl. by apply (holds_key _ T R _ h Hh Hl). }
  eapply wp_mono; [apply (UpdateNoLocks_law (RS := RS) _ T R); [done| | | |]| |].
  - apply Forall_app. split; [by apply activate_home|by apply touch_home].
  - rewrite Hids. apply Forall_app. split; apply Forall_fmap.
    + eapply Forall_impl; [by apply (Hst us)|]. intros h. apply activated_storable.
    + eapply Forall_impl; [by apply (Hst ds)|]. intros h. apply touched_storable.
  - by rewrite Hids, final_LogicalIDs.
  - rewrite Hids. apply Forall_app in HR as [H1 H2]. apply Forall_app. split; apply Forall_fmap.
    + eapply Forall_impl; [exact H1|]. by intros h.
    + eapply Forall_impl; [exact H2|]. by intros h.
  - intros [] r [Hr _]. rewrite Hids in Hr. exists r. split; [done|]. split; [done|]. split; [done|].
    intros i Hi Hil. cbn in Hi. split; [by apply (proj1 (Hf i Hi Hil))|]. intros id h Hl.
    destruct (final_lookup us ds T id Hnd Hcu Hcd) as [(h0 & Hh0 & _ & _ & He)|[(h0 & _ & _ & HT & He)|[_ He]]]; rewrite He in Hl.
    + injection Hl as <-. destruct (activated_fields h0) as (_ & -> & _). by eapply (proj1 (Forall_forall _ _) Hin).
    + injection Hl as <-. by apply (proj2 (Hf i Hi Hil) _ _ HT).
    + by apply (proj2 (Hf i Hi Hil) _ _ Hl).
  - intros e r (T' & Hr & Hbt). rewrite Hids in Hbt. by exists r, T'.
Qed.

(** ** Removal marks *)

Definition removed_mark (now : Z) h : Handle := set_Timestamp (set_IsDeleted h true) (UnixMilli now).

Definition removable h n : Prop := IsDeleted h = false ∧ Version h = GetVersion n.

Lemma wp_each_removal ts ns : ∀ hs w, length hs = length ns →
  wp (each (stage_removal (RE := RE) (BE := BE) ts) hs ns) w
    (λ r w', w' = w ∧
      match r with
      | Some l => Forall2 removable hs ns ∧ l = (λ h, set_Timestamp (set_IsDeleted h true) ts) <$> hs
      | None => ∃ i h n, hs !! i = Some h ∧ ns !! i = Some n ∧ ¬ removable h n
      end)
    (λ _ _, False).
Proof.
  induction ns as [|n ns IH]; intros [|h hs] w Hl; try (by repeat constructor); cbn [each].
  apply wp_bind. unfold stage_removal at 1. destruct (IsDeleted h) eqn:Ed; cbn [orb].
  { apply wp_ret. apply wp_ret. split; [done|]. exists 0, h, n. split; [done|]. split; [done|]. intros [? _]. congruence. }
  case_bool_decide as Hv; apply wp_ret; cbv beta iota.
  { apply wp_ret. split; [done|]. exists 0, h, n. split; [done|]. split; [done|]. by intros [_ ?]. }
  apply wp_bind. eapply wp_mono; [apply IH; cbn in Hl; lia| |done]. intros r w' [-> Hr]. apply wp_ret. split; [done|].
  destruct r as [l|].
  - destruct Hr as [Hr ->]. split; [|done]. constructor; [|done]. split; [done|]. destruct (decide (Version h = GetVersion n)); [done|]. by destruct Hv.
  - destruct Hr as (i & h' & n' & ? & ? & ?). by exists (S i), h', n'.
Qed.
Lemma wp_each_removal_store ts nodes : ∀ ps w, Forall2 (λ p sn, length (rp_IDs p) = length sn.2) ps nodes →
  wp (each (stage_removal_store (RE := RE) (BE := BE) ts) ps nodes) w
    (λ r w', w' = w ∧
      match r with
      | Some l => Forall2 removable (all_ids ps) (flat nodes).*2 ∧
          all_ids l = (λ h, set_Timestamp (set_IsDeleted h true) ts) <$> all_ids ps ∧ Forall2 same_shape ps l
      | None => ∃ i h n, all_ids ps !! i = Some h ∧ (flat nodes).*2 !! i = Some n ∧ ¬ removable h n
      end)
    (λ _ _, False).
Proof.
  induction nodes as [|[st ns] nodes IH]; intros ps w Hl.
  { apply Forall2_nil_inv_r in Hl as ->. apply wp_ret. by repeat constructor. }
  apply Forall2_cons_inv_r in Hl as (p & ps' & Hp & Hl & ->). cbn [each snd] in *. apply wp_bind.
  unfold stage_removal_store at 1. cbn [fst snd]. apply wp_bind. rewrite flat_cons, all_ids_cons, fmap_app. cbn [fst snd].
  assert (Hsnd : (pair (si_BlobTable st) <$> ns).*2 = ns) by (rewrite <- list_fmap_compose; apply list_fmap_id).
  rewrite Hsnd. eapply wp_mono; [by apply wp_each_removal| |done]. intros r w1 [-> Hr]. apply wp_ret. destruct r as [l|].
  - destruct Hr as (Hall & ->). apply wp_bind. eapply wp_mono; [by apply IH| |done]. intros r w2 [-> Hr]. apply wp_ret.
    split; [done|]. destruct r as [l'|].
    + destruct Hr as (Hall' & H1 & Hs). split; [by apply Forall2_app|]. rewrite fmap_app, all_ids_cons. cbn [set_IDs rp_IDs].
      split; [by rewrite H1|]. constructor; [|done]. split; [done|]. cbn [set_IDs rp_IDs]. by rewrite <- list_fmap_compose.
    + destruct Hr as (i & h & n & Hh & Hn & Hrf). exists (length (rp_IDs p) + i), h, n. split; [|split; [|done]].
      * by rewrite lookup_app_r, Nat.add_comm, Nat.add_sub by lia.
      * by rewrite Hp, lookup_app_r, Nat.add_comm, Nat.add_sub by lia.
  - apply wp_ret. split; [done|]. destruct Hr as (i & h & n & Hh & Hn & Hrf). exists i, h, n.
    split; [by apply lookup_app_l_Some|]. split; [by apply lookup_app_l_Some|done].
Qed.

(** [T'] is [T] with every node marked as removed. *)
Record staged_removal (now : Z) T T' nodes handles : Prop := {
  sr_IDs : LogicalID <$> all_ids handles = extractUUIDs nodes;
  sr_home : homed_handles home handles;
  sr_current : current T' handles;
  sr_others : ∀ id, id ∉ extractUUIDs nodes → T' !! id = T !! id;
  sr_node : ∀ n, n ∈ (flat nodes).*2 → ∃ h, T !! GetID n = Some h ∧ removable h n ∧ T' !! GetID n = Some (removed_mark now h);
}.

Lemma same_lengths_present T nodes : ∀ handles, Forall2 (answers_in_order T) (convertToRegistryRequestPayload nodes) handles →
  (∀ id, id ∈ extractUUIDs nodes → is_Some (T !! id)) → same_lengths handles (convertToRegistryRequestPayload nodes) = true.
Proof.
  intros handles Ha Hp. destruct (same_lengths _ _) eqn:E; [done|].
  destruct (answer_incomplete T nodes handles Ha E) as (n & Hn & Hid).
  destruct (Hp (GetID n)) as [h Hh]; [rewrite flat_IDs, list_fmap_compose; by apply list_elem_of_fmap_2|congruence].
Qed.

(** The handles of the nodes of a request, changed by [f], are put back. *)
Lemma put_changed T nodes hs (f : Handle → Handle) : (∀ id h, T !! id = Some h → LogicalID h = id) → (∀ h, LogicalID (f h) = LogicalID h) →
  NoDup (extractUUIDs nodes) → Forall2 (λ h n, T !! GetID n = Some h) hs (flat nodes).*2 →
  (∀ id, id ∉ extractUUIDs nodes → put_handles (f <$> hs) T !! id = T !! id) ∧
  (∀ n h, n ∈ (flat nodes).*2 → T !! GetID n = Some h → put_handles (f <$> hs) T !! GetID n = Some (f h)) ∧
  LogicalID <$> (f <$> hs) = extractUUIDs nodes.
Proof.
  intros Hk Hf Hnd Hhs. assert (Hids : LogicalID <$> (f <$> hs) = extractUUIDs nodes).
  { rewrite flat_IDs, list_fmap_compose, <- (answered_IDs T hs _ Hk Hhs), <- list_fmap_compose. apply list_fmap_ext. intros i h _. apply Hf. }
  split; [|split; [|done]].
  - intros id Hid. apply put_handles_notin. by rewrite Hids.
  - intros n h Hn Hh. rewrite <- (Hk _ _ Hh) at 1. rewrite <- (Hf h). apply put_handles_in; [by rewrite Hids|].
    apply list_elem_of_fmap_2. apply list_elem_of_lookup in Hn as [i Hi].
    destruct (Forall2_lookup_r _ _ _ _ _ Hhs Hi) as (h' & Hi' & Hh'). rewrite Hh in Hh'. injection Hh' as ->. by eapply list_elem_of_lookup_2.
Qed.

Lemma removed_mark_view now h : same_view h (removed_mark now h).
Proof. done. Qed.

Lemma answered_storable s T R hs ns : holds s T R → Forall2 (λ h n, T !! GetID n = Some h) hs ns → Forall storable hs.
Proof.
  intros Hh Hhs. apply Forall_lookup. intros i h Hi. destruct (Forall2_lookup_l _ _ _ _ _ Hhs Hi) as (n & _ & Hn). by apply (holds_key _ T R _ h Hh Hn).
Qed.

Lemma answered_reach T R nodes hs : (∀ id h, T !! id = Some h → LogicalID h = id) →
  (∀ id, id ∈ extractUUIDs nodes → is_Some (T !! id) → id ∈ R) →
  Forall2 (λ h n, T !! GetID n = Some h) hs (flat nodes).*2 → Forall (λ h, LogicalID h ∈ R) hs.
Proof.
  intros Hk HR Hhs. apply Forall_lookup. intros i h Hi. destruct (Forall2_lookup_l _ _ _ _ _ Hhs Hi) as (n & Hn & Hh).
  rewrite (Hk _ _ Hh). apply HR; [|by eexists]. rewrite flat_IDs, list_fmap_compose. apply list_elem_of_fmap_2. by eapply list_elem_of_lookup_2.
Qed.

Lemma wp_commitRemovedNodes w T R B nodes : repo_inv w T R B → request T R w nodes →
  (∀ id, id ∈ extractUUIDs nodes → is_Some (T !! id)) →
  wp (commitRemovedNodes (RE := RE) (BE := BE) nodes) w
    (λ '(ok, handles) w', ∃ T', repo_inv w' T' R B ∧ w_drawn w' = w_drawn w ∧ unnoticed T T' ∧
       if (ok : bool) then staged_removal (w_now w) T T' nodes handles
       else T' = T ∧ handles = [] ∧ ∃ n h, n ∈ (flat nodes).*2 ∧ T !! GetID n = Some h ∧ ¬ removable h n)
    (λ _ w', unseen T B w').
Proof.
  intros Hinv [Hhome Hnd Hreach Hord Hnow Hlim] Hpres. unfold commitRemovedNodes. case_decide as Hnil.
  { subst nodes. apply wp_ret. exists T. split; [done|]. split; [done|]. split; [apply unnoticed_refl|].
    constructor; try done; [constructor|constructor|]. intros n Hn. by apply not_elem_of_nil in Hn. }
  apply wp_bind. eapply wp_mono; [by apply (wp_Get_nodes w T R B)| |].
  2:{ intros e w' (r & -> & (Hh & Hb & _)). exists T, R, B. split; [by apply holds_stands|]. by split. }
  intros handles w1 (r & -> & (Hh & Hb & Hf) & Ha & Ho). specialize (Ho Hord).
  pose proof (same_lengths_present T nodes handles Ho Hpres) as El.
  destruct (answer_complete T nodes handles Ho El) as [Hlen Hhs].
  pose proof (holds_keys _ _ _ Hh) as Hkey.
  apply wp_bind, wp_gets, wp_bind. eapply wp_mono; [by apply (wp_each_removal_store _ nodes)| |done].
  intros res w2 [-> Hres]. cbn [w_now set_registry] in *. destruct res as [l|].
  2:{ apply wp_ret. exists T. split; [by split|]. split; [done|]. split; [apply unnoticed_refl|]. split; [done|]. split; [done|].
      destruct Hres as (i & h & n & Hi & Hn & Hrf). exists n, h. split; [by eapply list_elem_of_lookup_2|]. split; [|done].
      exact (Forall2_lookup_lr _ _ _ _ _ _ Hhs Hi Hn). }
  destruct Hres as (Hrem & Hids & Hshape). change (λ h, set_Timestamp _ _) with (removed_mark (w_now w)) in Hids.
  destruct (put_changed T nodes (all_ids handles) (removed_mark (w_now w)) Hkey ltac:(done) Hnd Hhs) as (Hothers & Hput & Hlids).
  pose proof (answered_storable _ _ _ _ _ Hh Hhs) as Hst.
  assert (Hun : unnoticed T (put_handles (removed_mark (w_now w) <$> all_ids handles) T)).
  { intros id. destruct (decide (id ∈ extractUUIDs nodes)) as [Hin|Hout]; [|left; auto]. right.
    pose proof Hin as Hin0. rewrite flat_IDs, list_fmap_compose in Hin. apply list_elem_of_fmap in Hin as (n & -> & Hn).
    destruct (Hpres _ Hin0) as [h Hhn]. exists h, (removed_mark (w_now w) h). split; [done|]. split; [auto|apply removed_mark_view]. }
  apply wp_bind, wp_on. eapply wp_mono; [apply (UpdateNoLocks_law (RS := RS) r T R); [done|by eapply shapes_homed|rewrite Hids..]| |].
  - apply Forall_fmap. eapply Forall_impl; [exact Hst|]. intros h Hsh. cbn. apply storable_Timestamp; [by apply storable_IsDeleted|done].
  - by rewrite Hlids.
  - apply Forall_fmap. eapply Forall_impl; [by eapply answered_reach|]. by intros h.
  - intros [] r' [Hr _]. rewrite Hids in Hr. apply wp_ret. eexists. split; [split; [exact Hr|split; [exact Hb|]]|].
    { eapply fresh_unnoticed; [exact Hf|done|exact Hun|done]. }
    split; [done|]. split; [exact Hun|]. constructor; [by rewrite Hids|by eapply shapes_homed| |exact Hothers|].
    + unfold current. rewrite Hids. apply Forall_lookup. intros i h Hi. rewrite list_lookup_fmap in Hi.
      destruct (all_ids handles !! i) as [h0|] eqn:Ei; [|done]. injection Hi as <-.
      apply (put_handles_in _ T (removed_mark (w_now w) h0)); [by rewrite Hlids|]. apply list_elem_of_fmap_2. by eapply list_elem_of_lookup_2.
    + intros n Hn. pose proof Hn as Hn0. apply list_elem_of_lookup in Hn as [i Hi].
      destruct (Forall2_lookup_r _ _ _ _ _ Hhs Hi) as (h & Hih & Hh0). exists h. split; [done|]. split; [|auto].
      exact (Forall2_lookup_lr _ _ _ _ _ _ Hrem Hih Hi).
  - intros e r' (T' & Hs' & Hb'). exists T', R, B. split; [done|]. split; [done|]. apply unnoticed_views; [|done].
    rewrite Hids in Hb'. by eapply unnoticed_between.
Qed.
(** ** The check of what was read *)

Definition unchanged T n : Prop := ∃ h, T !! GetID n = Some h ∧ Version h = GetVersion n.

Lemma Forall2_app_iff {X Y} (P : X → Y → Prop) l1 l2 k1 k2 : length l1 = length k1 →
  Forall2 P (l1 ++ l2) (k1 ++ k2) ↔ Forall2 P l1 k1 ∧ Forall2 P l2 k2.
Proof. intros Hl. split; [by apply Forall2_app_inv|intros []; by apply Forall2_app]. Qed.

Lemma wp_each_intact ns : ∀ hs w, length hs = length ns →
  wp (each (intact (RE := RE) (BE := BE)) hs ns) w
    (λ r w', w' = w ∧ (is_Some r ↔ Forall2 (λ h n, Version h = GetVersion n) hs ns)) (λ _ _, False).
Proof.
  induction ns as [|n ns IH]; intros [|h hs] w Hl; try done; cbn [each].
  apply wp_bind. unfold intact at 1. case_decide as Hv; apply wp_ret.
  - apply wp_bind. eapply wp_mono; [apply IH; cbn in Hl; lia| |done]. intros r w' [-> Hr]. apply wp_ret. split; [done|].
    rewrite Forall2_cons, <- Hr. destruct r; unfold is_Some; naive_solver.
  - apply wp_ret. split; [done|]. split; [by intros [? ?]|]. by intros [? _]%Forall2_cons.
Qed.

Lemma wp_each_intact_store nodes : ∀ ps w, Forall2 (λ p sn, length (rp_IDs p) = length sn.2) ps nodes →
  wp (each (intact_store (RE := RE) (BE := BE)) ps nodes) w
    (λ r w', w' = w ∧ (is_Some r ↔ Forall2 (λ h n, Version h = GetVersion n) (all_ids ps) (flat nodes).*2)) (λ _ _, False).
Proof.
  induction nodes as [|[st ns] nodes IH]; intros ps w Hl.
  { apply Forall2_nil_inv_r in Hl as ->. apply wp_ret. split; [done|]. split; [constructor|by eexists]. }
  apply Forall2_cons_inv_r in Hl as (p & ps' & Hp & Hl & ->). cbn [each snd] in *. apply wp_bind.
  unfold intact_store at 1. cbn [fst snd]. rewrite decide_True by done. rewrite flat_cons, all_ids_cons, fmap_app. cbn [fst snd].
  assert (Hsnd : (pair (si_BlobTable st) <$> ns).*2 = ns) by (rewrite <- list_fmap_compose; apply list_fmap_id).
  rewrite Hsnd. eapply wp_mono; [by apply wp_each_intact| |done]. intros r w1 [-> Hr].
  pose proof (Forall2_app_iff (λ h n, Version h = GetVersion n) (rp_IDs p) (all_ids ps') ns (flat nodes).*2 Hp) as Hiff.
  destruct r as [l|].
  - apply wp_bind. eapply wp_mono; [by apply IH| |done]. intros r w2 [-> Hr2]. apply wp_ret. split; [done|].
    rewrite Hiff, <- Hr, <- Hr2. destruct r; unfold is_Some; naive_solver.
  - apply wp_ret. split; [done|]. rewrite Hiff, <- Hr. unfold is_Some; naive_solver.
Qed.

Lemma answered_all T hs ns : Forall2 (λ h n, T !! GetID n = Some h) hs ns →
  Forall2 (λ h n, Version h = GetVersion n) hs ns ↔ Forall (unchanged T) ns.
Proof.
  induction 1 as [|h n hs ns Hn _ IH]; [done|]. rewrite Forall2_cons, Forall_cons, IH. unfold unchanged. rewrite Hn. naive_solver.
Qed.

Lemma wp_each_intact_short nodes : ∀ ps w, length ps = length nodes →
  ¬ Forall2 (λ p sn, length (rp_IDs p) = length sn.2) ps nodes →
  wp (each (intact_store (RE := RE) (BE := BE)) ps nodes) w (λ r w', w' = w ∧ r = None) (λ _ _, False).
Proof.
  induction nodes as [|[st ns] nodes IH]; intros [|p ps] w Hl Hn; try done; [by destruct Hn|]. cbn [each]. apply wp_bind.
  unfold intact_store at 1. cbn [fst snd]. case_decide as Hd; [|by apply wp_ret].
  eapply wp_mono; [by apply wp_each_intact| |done]. intros [l|] w1 [-> _]; [|by apply wp_ret].
  apply wp_bind. eapply wp_mono; [apply IH; [cbn in Hl; lia|]| |done].
  - intros Hp. apply Hn. by constructor.
  - intros r w2 [-> ->]. by apply wp_ret.
Qed.

Lemma shape_same_lengths (nodes : list (StoreInfo * list Nd)) : ∀ (handles : list (RegistryPayload Handle)),
  Forall2 (λ p sn, length (rp_IDs p) = length sn.2) handles nodes →
  same_lengths handles (convertToRegistryRequestPayload nodes) = true.
Proof.
  induction nodes as [|[st ns] nodes IH]; intros handles Hl.
  - by apply Forall2_nil_inv_r in Hl as ->.
  - apply Forall2_cons_inv_r in Hl as (p & ps & Hp & Hl & ->). unfold same_lengths, convertToRegistryRequestPayload.
    cbn [fmap list_fmap zip zip_with forallb rp_IDs]. rewrite bool_decide_eq_true_2 by (rewrite length_fmap; done).
    by apply IH.
Qed.

Lemma wp_areFetchedItemsIntact w T R B nodes : repo_inv w T R B → request T R w nodes →
  wp (areFetchedItemsIntact (RE := RE) (BE := BE) nodes) w
    (λ ok w', repo_inv w' T R B ∧ (ok = true ↔ Forall (unchanged T) (flat nodes).*2))
    (λ _ w', repo_inv w' T R B).
Proof.
  intros Hinv [Hhome Hnd Hreach Hord Hnow Hlim]. unfold areFetchedItemsIntact. case_decide as Hnil.
  { subst nodes. apply wp_ret. split; [done|]. split; [constructor|done]. }
  apply wp_bind. eapply wp_mono; [by apply (wp_Get_nodes w T R B)| |].
  2:{ by intros e w' (r & -> & ?). }
  intros handles w1 (r & -> & Hi & Ha & Ho). specialize (Ho Hord). apply wp_bind.
  destruct (same_lengths handles (convertToRegistryRequestPayload nodes)) eqn:El.
  - destruct (answer_complete T nodes handles Ho El) as [Hlen Hhs].
    eapply wp_mono; [by apply wp_each_intact_store| |done]. intros res w2 [-> Hr]. apply wp_ret. split; [done|].
    rewrite <- (answered_all T _ _ Hhs), <- Hr. destruct res; unfold is_Some; naive_solver.
  - destruct (answer_incomplete T nodes handles Ho El) as (n & Hn & Hid).
    eapply wp_mono; [apply wp_each_intact_short| |done].
    + apply Forall2_length in Ho. unfold convertToRegistryRequestPayload in Ho. rewrite length_fmap in Ho. lia.
    + intros Hl. assert (Ht : same_lengths handles (convertToRegistryRequestPayload nodes) = true); [|congruence].
      apply shape_same_lengths. done.
    + intros res w2 [-> ->]. apply wp_ret. split; [done|]. split; [done|]. intros Hall.
      apply (proj1 (Forall_forall _ _) Hall) in Hn as (h & Hh & _). congruence.
Qed.
End properties.
