(* ===== verification/NodeRollback.v ===== *)
(** * Undoing a commit of nodes

    A rollback reads the handles again, removes what was staged, and writes the
    handles back without it.  It goes on after a failure and reports the last one;
    if it reports none, every node is as it was before it was staged, and free to be
    updated by the next transaction. *)

From stdpp Require Import gmap.
From S2P Require Import Prelude Wp Handle HashmapSpec Stores NodeRepo NodeCommit NodeProps.

Section rollback.
Context {RS RE BS BE Nd : Type} `{RO : Registry RS RE} `{BO : BlobStore BS BE} `{MD : MetaData Nd}.
Context (gen : nat → UUID) (home : UUID → string) (limit : nat).
Context `{RL : !RegistryLaws RS RE home} `{BL : !BlobStoreLaws BS BE}.

Local Abbreviation world := (@world RS BS Nd).
Local Abbreviation repo_inv := (NodeCommit.repo_inv gen home limit).
Local Abbreviation request := (NodeProps.request home limit).
Local Abbreviation unseen := (NodeProps.unseen home).
Implicit Types (T : gmap UUID Handle) (R : gset UUID) (B : gmap (string * UUID) (list Z)) (w : world) (h : Handle) (n : Nd).
Implicit Types (nodes : list (StoreInfo * list Nd)) (handles : list (RegistryPayload Handle)).

Lemma clear_update_fields h : LogicalID (clear_update h) = LogicalID h ∧ same_view h (clear_update h) ∧
  GetInActiveID (clear_update h) = NilUUID ∧ IsAandBinUse (clear_update h) = false ∧
  IsDeleted (clear_update h) = IsDeleted h ∧ WorkInProgressTimestamp (clear_update h) = 0%Z.
Proof.
  unfold clear_update. destruct (IsNil (GetInActiveID h)) eqn:E.
  - destruct h as [l a b [] v ts del]; unfold GetInActiveID, IsAandBinUse, same_view, GetActiveID in *; cbn in *;
      split_and!; try done; unfold IsNil in E; apply bool_decide_eq_true in E; subst; by rewrite ?andb_false_r.
  - destruct h as [l a b [] v ts del]; unfold IsAandBinUse, same_view; cbn; split_and!; try done; by rewrite ?andb_false_r.
Qed.

Lemma clear_update_storable h : storable h → storable (clear_update h).
Proof.
  intros Hh. unfold clear_update. case_match; [apply storable_Timestamp; [done|apply zero_in_s; lia]|by apply storable_Clear].
Qed.

Lemma wp_delete_cached ids : ∀ err w, wp (delete_cached (RE := RE) (BE := BE) err ids) w
  (λ r w', cached_only w w' ∧ (r = None → err = None)) (λ _ _, False).
Proof.
  induction ids as [|id ids IH]; intros err w; [apply wp_ret; split; [apply cached_only_refl|done]|]. cbn [delete_cached]. apply wp_bind.
  assert (Hd : wp (l2_DeleteNode (RE := RE) (BE := BE) id) w (λ _ w', cached_only w w') (λ _ _, False)).
  { unfold wp, l2_DeleteNode. destruct (w_deletefails w id); [apply cached_only_refl|by eexists]. }
  eapply wp_mono; [exact Hd| |done]. intros ok w1 H1. eapply wp_mono; [apply IH| |done]. intros e w2 [H2 He].
  split; [exact (cached_only_trans _ _ _ H1 H2)|]. intros Hn. specialize (He Hn). by destruct ok, err.
Qed.

Lemma wp_undo {A} err (m : M world (repo_error RE BE) A) w (Q : A → world → Prop) (R : repo_error RE BE → world → Prop) :
  wp m w Q R → wp (undo err m) w (λ r w', (r = err ∧ ∃ a, Q a w') ∨ (is_Some r ∧ ∃ e, R e w')) (λ _ _, False).
Proof.
  intros Hm. apply wp_handle. eapply wp_mono; [exact Hm| |].
  - intros a w' Ha. apply wp_ret. left. split; [done|by exists a].
  - intros e w' He. apply wp_ret. right. split; [by eexists|by exists e].
Qed.

(** The blobs a rollback of updates removes. *)
Definition inactive_blobs (vids : list (RegistryPayload UUID)) handles : list (BlobsPayload UUID) :=
  zip_with (λ v p, mkBlobsPayload (rp_BlobTable v) (GetInActiveID <$> filter (λ h, GetInActiveID h ≠ NilUUID) (rp_IDs p))) vids handles.

Lemma inactive_blobs_keys nodes : ∀ handles, Forall2 (λ p sn, length (rp_IDs p) = length sn.2) handles nodes → ∀ k,
  k ∈ all_blobs (inactive_blobs (convertToRegistryRequestPayload nodes) handles) ↔
  ∃ i h t n, all_ids handles !! i = Some h ∧ flat nodes !! i = Some (t, n) ∧ GetInActiveID h ≠ NilUUID ∧ k = (t, GetInActiveID h).
Proof.
  induction nodes as [|[st ns] nodes IH]; intros handles Hl k.
  { apply Forall2_nil_inv_r in Hl as ->. split; [by intros ?%not_elem_of_nil|]. intros (i & h & t & n & Hx & _). by destruct i. }
  apply Forall2_cons_inv_r in Hl as (p & ps & Hp & Hl & ->). cbn [snd] in Hp.
  change (all_blobs (inactive_blobs (convertToRegistryRequestPayload ((st, ns) :: nodes)) (p :: ps))) with
    ((pair (si_BlobTable st) <$> (GetInActiveID <$> filter (λ h, GetInActiveID h ≠ NilUUID) (rp_IDs p))) ++
     all_blobs (inactive_blobs (convertToRegistryRequestPayload nodes) ps)).
  rewrite elem_of_app, (IH _ Hl), all_ids_cons, flat_cons. cbn [fst snd]. split.
  - intros [(id & -> & (h & -> & [Hn Hin]%list_elem_of_filter)%list_elem_of_fmap)%list_elem_of_fmap|(i & h & t & n & Hh & Hn & Hne & ->)].
    + apply list_elem_of_lookup in Hin as [i Hi]. destruct (lookup_lt_is_Some_2 ns i) as [n Hns].
      { rewrite <- Hp. by eapply lookup_lt_Some. }
      exists i, h, (si_BlobTable st), n. split; [by apply lookup_app_l_Some|]. split; [|done].
      apply lookup_app_l_Some. by rewrite list_lookup_fmap, Hns.
    + exists (length (rp_IDs p) + i), h, t, n. split; [|split; [|done]].
      * by rewrite lookup_app_r, Nat.add_comm, Nat.add_sub by lia.
      * rewrite Hp. rewrite lookup_app_r by (rewrite length_fmap; lia). by rewrite length_fmap, Nat.add_comm, Nat.add_sub.
  - intros (i & h & t & n & Hh & Hn & Hne & ->). destruct (decide (i < length (rp_IDs p))) as [Hi|Hi].
    + left. rewrite lookup_app_l in Hh by done. rewrite lookup_app_l in Hn by (rewrite length_fmap; lia).
      rewrite list_lookup_fmap in Hn. destruct (ns !! i); [|done]. injection Hn as <- <-.
      apply list_elem_of_fmap_2, list_elem_of_fmap_2, list_elem_of_filter. split; [done|]. by eapply list_elem_of_lookup_2.
    + right. rewrite lookup_app_r in Hh by lia. rewrite lookup_app_r in Hn by (rewrite length_fmap; lia). rewrite length_fmap in Hn.
      exists (i - length (rp_IDs p)), h, t, n. split; [done|]. split; [by rewrite Hp|done].
Qed.

(** [T'] and [B'] are [T] and [B] with every node of the request back as it was
    before it was staged. *)
Record unstaged T B T' B' nodes : Prop := {
  un_others : ∀ id, id ∉ extractUUIDs nodes → T' !! id = T !! id;
  un_node : ∀ t n, (t, n) ∈ flat nodes → ∃ h, T !! GetID n = Some h ∧ T' !! GetID n = Some (clear_update h) ∧
    (GetInActiveID h ≠ NilUUID → B' !! (t, GetInActiveID h) = None);
  un_blobs : ∀ k, (∀ t n h, (t, n) ∈ flat nodes → T !! GetID n = Some h → k ≠ (t, GetInActiveID h)) → B' !! k = B !! k;
}.

(** What the nodes of the request have staged is not active anywhere. *)
Definition inactive_free T nodes : Prop := ∀ n h id h', n ∈ (flat nodes).*2 → T !! GetID n = Some h → T !! id = Some h' →
  GetInActiveID h ≠ NilUUID → GetActiveID h' ≠ GetInActiveID h.

Lemma changed_IDs (f : Handle → Handle) handles : all_ids ((λ p, set_IDs p (f <$> rp_IDs p)) <$> handles) = f <$> all_ids handles.
Proof.
  induction handles as [|p ps IH]; [done|]. rewrite fmap_cons, !all_ids_cons, fmap_app. by f_equal.
Qed.

Lemma changed_shape (f : Handle → Handle) handles : (∀ h, LogicalID (f h) = LogicalID h) →
  Forall2 same_shape handles ((λ p, set_IDs p (f <$> rp_IDs p)) <$> handles).
Proof.
  intros Hf. induction handles as [|p ps IH]; constructor; [|done]. split; [done|]. cbn [set_IDs rp_IDs].
  rewrite <- list_fmap_compose. apply list_fmap_ext. intros i h _. apply Hf.
Qed.

(** Writing back the handles of a request, changed by [f], locked or not. *)
Lemma wp_update_changed w T R (locked : bool) nodes handles (f : Handle → Handle) :
  holds (w_registry w) T R → homed_nodes home nodes → NoDup (extractUUIDs nodes) →
  (∀ id, id ∈ extractUUIDs nodes → is_Some (T !! id) → id ∈ R) → (∀ h, LogicalID (f h) = LogicalID h) → (∀ h, storable h → storable (f h)) →
  Forall2 (answers T) (convertToRegistryRequestPayload nodes) handles →
  Forall2 (λ h n, T !! GetID n = Some h) (all_ids handles) (flat nodes).*2 →
  wp (update_registry (BE := BE) locked ((λ p, set_IDs p (f <$> rp_IDs p)) <$> handles)) w
    (λ _ w', ∃ r, w' = set_registry r w ∧ holds r (put_handles (f <$> all_ids handles) T) R)
    (λ _ w', ∃ r T', w' = set_registry r w ∧ stands r T' R ∧ between T (put_handles (f <$> all_ids handles) T) T').
Proof.
  intros Hh Hhome Hnd Hreach Hf Hst Ha Hhs. pose proof (holds_keys home _ _ _ Hh) as Hkey.
  pose proof (shapes_homed home nodes T handles _ Hhome Ha Hkey (changed_shape f handles Hf)) as H1.
  assert (H2 : Forall storable (f <$> all_ids handles)).
  { apply Forall_fmap. eapply Forall_impl; [by eapply (answered_storable home)|]. intros h Hs. by apply Hst. }
  assert (H3 : NoDup (LogicalID <$> (f <$> all_ids handles))).
  { by destruct (put_changed T nodes (all_ids handles) f Hkey Hf Hnd Hhs) as (_ & _ & ->). }
  assert (H4 : Forall (λ h, LogicalID h ∈ R) (f <$> all_ids handles)).
  { apply Forall_fmap. eapply Forall_impl; [by eapply answered_reach|]. intros h HR. cbn. by rewrite Hf. }
  unfold update_registry. destruct locked; apply wp_on.
  - eapply wp_mono; [apply (UpdateNoLocks_law (RS := RS) _ T R); rewrite ?changed_IDs; done| |]; rewrite changed_IDs.
    + intros [] r [Hr _]. by exists r.
    + intros e r (T' & Hr & Hbt). by exists r, T'.
  - eapply wp_mono; [apply (Update_law (RS := RS) _ T R); rewrite ?changed_IDs; done| |]; rewrite changed_IDs.
    + intros [] r [Hr _]. by exists r.
    + intros e r (T' & Hr & Hbt). exists r, T'. split; [done|]. split; [by apply holds_stands|done].
Qed.

Lemma flat_node nodes i t n : flat nodes !! i = Some (t, n) → (flat nodes).*2 !! i = Some n.
Proof. intros Hi. by rewrite list_lookup_fmap, Hi. Qed.

(** Removing blobs in a rollback, and going on. *)
Lemma wp_undo_Remove err w B ps : blob_holds (w_blobStore w) B →
  wp (undo err (on_blobStore (RE := RE) (blobStore_Remove ps))) w
    (λ r w', ∃ b B', w' = set_blobStore b w ∧ blob_holds b B' ∧ same_but (all_blobs ps) B B' ∧
       (r = None → err = None ∧ B' = delete_blobs (all_blobs ps) B))
    (λ _ _, False).
Proof.
  intros Hb. apply wp_handle, wp_on. eapply wp_mono; [by apply (BlobRemove_law _ B)| |].
  - intros [] b Hb'. apply wp_ret. eexists b, _. split; [done|]. split; [exact Hb'|]. split; [|done].
    intros k Hk. rewrite delete_blobs_lookup. by rewrite decide_False.
  - intros e b (B' & Hb' & Hs). apply wp_ret. by exists b, B'.
Qed.

(** Removing more blobs does not use up an ID. *)
Lemma fresh_removed d T T' B B' : fresh gen limit d T B → unnoticed T T' →
  (∀ k, B !! k = None → B' !! k = None) → fresh gen limit d T' B'.
Proof.
  intros Hf HT HB i Hi Hil. destruct (Hf i Hi Hil) as [H1 H2]. split; [intros t; by apply HB|].
  intros id h Hh. destruct (HT id) as [He|(h0 & h1 & Hh0 & Hh1 & Ha & _)].
  - rewrite He in Hh. by eapply H2.
  - rewrite Hh in Hh1. injection Hh1 as <-. rewrite Ha. by eapply H2.
Qed.

Lemma wp_rollbackUpdatedNodes w T R B locked nodes : repo_inv w T R B →
  homed_nodes home nodes → NoDup (extractUUIDs nodes) → ordered (w_registry w) (convertToRegistryRequestPayload nodes) →
  (∀ id, id ∈ extractUUIDs nodes → id ∈ R ∧ is_Some (T !! id)) → inactive_free T nodes →
  wp (rollbackUpdatedNodes (RE := RE) (BE := BE) locked (convertToRegistryRequestPayload nodes)) w
    (λ _ w', ∃ T' B', repo_inv w' T' R B' ∧ same_views T B T' B' ∧ unstaged T B T' B' nodes)
    (λ _ w', unseen T B w').
Proof.
  intros Hinv Hhome Hnd Hord Hpres Hfree. unfold rollbackUpdatedNodes. case_decide as Hnil.
  { apply fmap_nil_inv in Hnil as ->. apply wp_ret. exists T, B. split; [done|]. split; [done|].
    constructor; [done| |done]. intros t n Hn. by apply not_elem_of_nil in Hn. }
  assert (Hpres' : ∀ id, id ∈ extractUUIDs nodes → is_Some (T !! id)) by (intros id Hid; by apply Hpres).
  assert (Hreach : ∀ id, id ∈ extractUUIDs nodes → is_Some (T !! id) → id ∈ R) by (intros id Hid _; by apply Hpres).
  apply wp_bind. eapply wp_mono; [by apply (wp_Get_nodes gen home limit w T R B)| |].
  2:{ intros e w' (r & -> & (Hh & Hb & _)). exists T, R, B. split; [by apply holds_stands|]. by split. }
  intros handles w1 (r & -> & Hi1 & Ha & Ho). specialize (Ho Hord). destruct Hi1 as (Hh & Hb & Hf).
  pose proof (same_lengths_present T nodes handles Ho Hpres') as El.
  destruct (answer_complete T nodes handles Ho El) as [Hlen Hhs]. pose proof (holds_keys home _ _ _ Hh) as Hkey.
  destruct (put_changed T nodes (all_ids handles) clear_update Hkey (λ h, proj1 (clear_update_fields h)) Hnd Hhs) as (Hothers & Hput & Hlids).
  set (keys := inactive_blobs (convertToRegistryRequestPayload nodes) handles).
  set (T' := put_handles (clear_update <$> all_ids handles) T) in *.
  assert (Hun : unnoticed T T').
  { intros id. destruct (decide (id ∈ extractUUIDs nodes)) as [Hin|Hout]; [|left; auto]. right. destruct (Hpres' id Hin) as [h Hhn].
    rewrite flat_IDs, list_fmap_compose in Hin. apply list_elem_of_fmap in Hin as (n & -> & Hn).
    exists h, (clear_update h). split; [done|]. split; [auto|apply clear_update_fields]. }
  assert (Hkept : ∀ B', same_but (all_blobs keys) B B' → active_kept T B B').
  { intros B' Hs t id h Hid. apply Hs. intros (i & h0 & t0 & n & Hi & Hn & Hne & [= -> He])%inactive_blobs_keys; [|done].
    apply (Hfree n h0 id h); [|exact (Forall2_lookup_lr _ _ _ _ _ _ Hhs Hi (flat_node _ _ _ _ Hn))|done|done|done].
    eapply list_elem_of_lookup_2, flat_node, Hn. }
  apply wp_bind. eapply wp_mono; [by apply (wp_undo_Remove None _ B)| |done].
  intros err w2 (b & B2 & -> & Hb2 & Hsame & Hdel).
  apply wp_bind. eapply wp_mono; [apply wp_undo; apply (wp_update_changed _ T R locked nodes handles clear_update)| |done];
    [done|done|done|exact Hreach|intros h; apply clear_update_fields|apply clear_update_storable|done|done|].
  intros err3 w3 H3. assert (H3' : ∃ r3 T3, w3 = set_registry r3 (set_blobStore b (set_registry r w)) ∧ stands r3 T3 R ∧ between T T' T3 ∧
    (err3 = None → err = None ∧ T3 = T' ∧ holds r3 T' R)).
  { destruct H3 as [(-> & _ & r3 & -> & Hr)|([e ->] & _ & r3 & T3 & -> & Hs & Hbt)].
    - exists r3, T'. split; [done|]. split; [by apply holds_stands|]. split; [|done]. intros id. by right.
    - by exists r3, T3. }
  clear H3. destruct H3' as (r3 & T3 & -> & Hs3 & Hbt3 & Hok3).
  apply wp_bind. eapply wp_mono; [apply wp_delete_cached| |done]. intros err4 w4 [[c ->] Hok4].
  destruct err4 as [e|]; cbn [end_undo].
  { apply wp_fail. exists T3, R, B2. split; [done|]. split; [done|]. apply unnoticed_views; [by eapply unnoticed_between|auto]. }
  destruct (Hok3 (Hok4 eq_refl)) as (He & -> & Hh3). destruct (Hdel He) as [_ ->]. apply wp_ret. exists T', (delete_blobs (all_blobs keys) B).
  split; [split; [done|split; [done|]]|].
  { eapply fresh_removed; [exact Hf|exact Hun|]. intros k Hk. rewrite delete_blobs_lookup. by case_decide. }
  split; [by apply unnoticed_views; auto|]. constructor; [exact Hothers| |].
  - intros t n Hn. apply list_elem_of_lookup in Hn as [i Hi]. pose proof (flat_node _ _ _ _ Hi) as Hin.
    destruct (Forall2_lookup_r _ _ _ _ _ Hhs Hin) as (h & Hih & Hh0). exists h. split; [done|]. split.
    + apply Hput; [by eapply list_elem_of_lookup_2|done].
    + intros Hne. rewrite delete_blobs_lookup, decide_True; [done|]. apply inactive_blobs_keys; [done|]. by exists i, h, t, n.
  - intros k Hk. apply Hsame. intros (i & h & t & n & Hi & Hn & Hne & ->)%inactive_blobs_keys; [|done].
    apply (Hk t n h); [by eapply list_elem_of_lookup_2| |done]. exact (Forall2_lookup_lr _ _ _ _ _ _ Hhs Hi (flat_node _ _ _ _ Hn)).
Qed.
(** What a request has staged is not active: its IDs are new. *)
Lemma staged_inactive_free now d T B T' B' nodes handles : fresh gen limit d T B →
  staged_update gen home now d T B T' B' nodes handles → d + length (flat nodes) ≤ limit → inactive_free T' nodes.
Proof.
  intros Hf Hs Hlim n h id h' Hn Hh Hh' _. apply list_elem_of_lookup in Hn as [i Hi]. rewrite list_lookup_fmap in Hi.
  destruct (flat nodes !! i) as [[t n']|] eqn:E; [|done]. injection Hi as ->.
  pose proof (lookup_lt_Some _ _ _ E) as Hil.
  destruct (su_node _ _ _ _ _ _ _ _ _ _ Hs i t n E) as (h0 & ba & _ & _ & _ & _ & HT & _).
  rewrite HT in Hh. injection Hh as <-. rewrite staged_inactive. destruct (Hf (d + i) ltac:(lia) ltac:(lia)) as [_ Hact].
  destruct (decide (id ∈ extractUUIDs nodes)) as [Hin|Hout].
  - rewrite flat_IDs in Hin. apply list_elem_of_fmap in Hin as ([t1 n1] & -> & Hin). apply list_elem_of_lookup in Hin as [j Hj].
    destruct (su_node _ _ _ _ _ _ _ _ _ _ Hs j t1 n1 Hj) as (h1 & ba1 & HT1 & _ & _ & _ & HT1' & _). cbn in Hh'.
    rewrite HT1' in Hh'. injection Hh' as <-. destruct (staged_fields now (gen (d + j)) h1) as (_ & _ & _ & -> & _). by eapply Hact.
  - rewrite (su_others _ _ _ _ _ _ _ _ _ _ Hs id Hout) in Hh'. by eapply Hact.
Qed.

End rollback.
