(* ===== verification/NodeInstance.v ===== *)
(** * An instance of the stores

    The registry on disk with blocks of 4096 bytes, the blob store over files named
    by their table and the decimal text of their ID, and nodes that are their ID,
    version and bytes.  Two nodes are registered in the table [t]. *)

From Stdlib Require Import Ascii.
From stdpp Require Import gmap pretty.
From S2P Require Import Prelude Wp Handle Sector Hashmap HashmapSpec HashmapMap HashmapProps Stores LinkedList Cache Registry RegistrySpec BlobStore NodeRepo NodeCommit NodeProps.

(** ** Blob paths *)

Fixpoint noslash (s : string) : Prop :=
  match s with EmptyString => True | String c s => c ≠ "/"%char ∧ noslash s end.

Lemma slash_inside t s : ¬ noslash (String.append t (String "/" s)).
Proof. induction t as [|c t IH]; [by intros [? _]|]. by intros [_ ?%IH]. Qed.

Lemma path_inj t1 : ∀ t2 s1 s2, noslash s1 → noslash s2 →
  String.append t1 (String "/" s1) = String.append t2 (String "/" s2) → t1 = t2 ∧ s1 = s2.
Proof.
  induction t1 as [|c1 t1 IH]; intros [|c2 t2] s1 s2 H1 H2 He; cbn in He.
  - by injection He as ->.
  - injection He as _ ->. by apply slash_inside in H1.
  - injection He as _ <-. by apply slash_inside in H2.
  - injection He as -> He. by destruct (IH t2 s1 s2 H1 H2 He) as [-> ->].
Qed.

Lemma digits_noslash x : ∀ s, noslash s → noslash (pretty_N_go x s).
Proof.
  induction (N.lt_wf_0 x) as [x _ IH]. intros s Hs. destruct (decide (0 < x)%N) as [Hx|Hx].
  - rewrite pretty_N_go_step by done. apply IH; [by apply N.div_lt|]. split; [|done].
    unfold pretty_N_char. by repeat case_match.
  - assert (x = 0%N) as -> by lia. done.
Qed.

Lemma pretty_noslash (x : N) : noslash (pretty x).
Proof. unfold pretty, pretty_N. case_decide; [done|]. by apply digits_noslash. Qed.

Definition ex_IsAbs (p : string) : bool := false.
Definition ex_Join (base p : string) : string := String.append base p.
Definition ex_toFilePath (p : string) (id : UUID) : string := p.

Lemma ex_paths_differ t id t' id' : file_path ex_IsAbs ex_Join ex_toFilePath pretty "blobs-" t id =
  file_path ex_IsAbs ex_Join ex_toFilePath pretty "blobs-" t' id' → (t, id) = (t', id').
Proof.
  unfold file_path, dir_path, table_path, ex_IsAbs, ex_Join, ex_toFilePath. intros He.
  change (String.append "/" (pretty id)) with (String "/" (pretty id)) in He.
  change (String.append "/" (pretty id')) with (String "/" (pretty id')) in He.
  apply path_inj in He as [Ht Hi]; [|apply pretty_noslash..]. injection Ht as Ht.
  by f_equal; [|apply (inj pretty)].
Qed.

(** ** The registry *)

Definition ex_env : environment := mkEnvironment true false (λ _, false) (λ _, false) (λ _, LockOk) (λ _, false).
Definition empty_registry : registryOnDisk := mkRegistry ∅ (NewCache 8 16) ∅ ex_env.
Definition ex_home (id : UUID) : string := "t".

#[export] Instance ex_Registry : Stores.Registry registryOnDisk registry_error := registryOnDisk_Registry FromBytes_ref 4096 250.
#[export] Instance ex_RegistryLaws : RegistryLaws registryOnDisk registry_error ex_home :=
  registryOnDisk_laws FromBytes_ref 4096 250 FromBytes_ref_documented ex_block ex_home.

Lemma empty_holds : holds empty_registry ∅ ∅.
Proof.
  split; [split|done].
  - intros f. unfold part, part_ids. rewrite map_filter_empty.
    assert (filter (λ id : UUID, ex_home id = f) (∅ : gset UUID) = ∅) as -> by set_solver. exact (table_empty 4096 250).
  - split; [done|]. split; [done|]. exists 16%Z, []. apply NewCache_rep.
Qed.

Lemma empty_room n : n < maxSegments → room empty_registry n.
Proof. intros Hn f. exact Hn. Qed.

(** Node [k] has the logical ID [ex_id k] and the active ID [100 + k]. *)
Definition ex_node_handle (k : N) (version : Z) : Handle := mkHandle (ex_id k) (100 + k) NilUUID false version 0 false.
Definition ex_table : gmap UUID Handle := put_handles [ex_node_handle 1 1; ex_node_handle 2 1] ∅.
Definition ex_reach : gset UUID := list_to_set [ex_id 1; ex_id 2] ∪ ∅.
Definition ex_payload : RegistryPayload Handle := mkRegistryPayload "t" "b" 0 false [ex_node_handle 1 1; ex_node_handle 2 1].
Definition ex_filled := registry_Add [ex_payload] empty_registry.
Definition ex_registry : registryOnDisk := ex_filled.2.

Lemma ex_filled_ok : ex_filled.1 = Ret ().
Proof. vm_compute. reflexivity. Qed.

Lemma ex_registry_holds : holds ex_registry ex_table ex_reach.
Proof.
  assert (Hw : wp (registry_Add [ex_payload]) empty_registry
    (λ _ s', holds s' ex_table ex_reach ∧ room s' 0)
    (λ _ s', ∃ T' R', stands s' T' R' ∧ between ∅ ex_table T' ∧ ∅ ⊆ R')).
  { apply (Add_law empty_registry ∅ ∅ [ex_payload] 0 empty_holds).
    - by repeat constructor.
    - by repeat constructor.
    - repeat constructor; by vm_compute.
    - repeat constructor; [by intros [?|?%not_elem_of_nil]%elem_of_cons|apply not_elem_of_nil].
    - by repeat constructor.
    - apply empty_room. apply Nat.ltb_lt. done. }
  unfold wp in Hw. fold ex_filled in Hw. unfold ex_registry. pose proof ex_filled_ok as Hok.
  destruct ex_filled as [r s]. cbn in Hok. subst r. apply Hw.
Qed.

(** ** The blobs *)

#[export] Instance ex_BlobStore : Stores.BlobStore filesystem io_error := blobStore_files ex_IsAbs ex_Join ex_toFilePath pretty "blobs-".
#[export] Instance ex_BlobStoreLaws : BlobStoreLaws filesystem io_error :=
  blobStore_laws ex_IsAbs ex_Join ex_toFilePath pretty "blobs-" ex_paths_differ.

Definition empty_files : filesystem := mkFilesystem ∅ ∅ (λ _, false) (λ _, false) (λ _, None) (λ _, false).
Definition ex_blobs : gmap (string * UUID) (list Z) := put_blobs [("b", (101%N, [7; 1]%Z)); ("b", (102%N, [7; 2]%Z))] ∅.
Definition ex_filled_files := blobStore_Add [mkBlobsPayload "b" [(101%N, [7; 1]%Z); (102%N, [7; 2]%Z)]] empty_files.
Definition ex_files : filesystem := ex_filled_files.2.

Lemma ex_files_hold : blob_holds ex_files ex_blobs.
Proof.
  assert (He : blob_holds empty_files ∅) by (by intros t id).
  pose proof (BlobAdd_law empty_files ∅ [mkBlobsPayload "b" [(101%N, [7; 1]%Z); (102%N, [7; 2]%Z)]] He) as Hw.
  assert (Hok : ex_filled_files.1 = Ret ()) by (by vm_compute).
  unfold wp in Hw. fold ex_filled_files in Hw. unfold ex_files. destruct ex_filled_files as [r s]. cbn in Hok. subst r. exact Hw.
Qed.

(** ** The world of a transaction *)

Record ex_node := mkNode { en_id : UUID; en_version : Z; en_bytes : list Z }.
#[export] Instance ex_MetaData : MetaData ex_node := {| GetID := en_id; GetVersion := en_version; Marshal_ n := Some (en_bytes n) |}.

Definition ex_gen (i : nat) : UUID := if decide (i < 100) then (5000 + N.of_nat i)%N else 5000%N.

Lemma ex_gen_not_nil i : ex_gen i ≠ NilUUID.
Proof. unfold ex_gen, NilUUID. case_decide; lia. Qed.
Lemma ex_gen_wf i : uuid_wf (ex_gen i).
Proof. unfold ex_gen, uuid_wf. case_decide; lia. Qed.
Lemma ex_gen_inj i j : i < 100 → j < 100 → ex_gen i = ex_gen j → i = j.
Proof. unfold ex_gen. intros Hi Hj. rewrite !decide_True by done. lia. Qed.

Definition ex_world : @world registryOnDisk filesystem ex_node :=
  mkWorld ex_registry ex_files ∅ (λ _, false) (λ _, false) 1700000000000000000 0.

Definition ex_store : StoreInfo := mkStoreInfo "t" "b" 0 false.
Definition ex_request : list (StoreInfo * list ex_node) := [(ex_store, [mkNode (ex_id 1) 1 [9; 9]%Z; mkNode (ex_id 2) 1 [8; 8]%Z])].

Lemma ex_inv : repo_inv ex_gen ex_home 100 ex_world ex_table ex_reach ex_blobs.
Proof.
  split; [exact ex_registry_holds|]. split; [exact ex_files_hold|]. intros i _ Hi. unfold ex_gen. rewrite decide_True by done. split.
  - intros t. apply not_elem_of_dom. unfold ex_blobs. intros Hin. apply elem_of_dom in Hin as [b Hb].
    unfold put_blobs in Hb. cbn in Hb. apply lookup_insert_Some in Hb as [[[= _ He] _]|[_ Hb]]; [lia|].
    apply lookup_insert_Some in Hb as [[[= _ He] _]|[_ Hb]]; [lia|done].
  - intros id h Hh. unfold ex_table, put_handles in Hh. cbn in Hh. apply lookup_insert_Some in Hh as [[_ <-]|[_ Hh]]; [cbn; lia|].
    apply lookup_insert_Some in Hh as [[_ <-]|[_ Hh]]; [cbn; lia|done].
Qed.

Lemma ex_requested : request ex_home 100 ex_table ex_reach ex_world ex_request.
Proof.
  constructor.
  - by repeat constructor.
  - repeat constructor; [by intros [?|?%not_elem_of_nil]%elem_of_cons|apply not_elem_of_nil].
  - intros id Hid _. unfold ex_reach. apply elem_of_union. left. by apply elem_of_list_to_set.
  - split; [|apply Forall_singleton].
    + repeat constructor; [by intros [?|?%not_elem_of_nil]%elem_of_cons|apply not_elem_of_nil].
    + right. left. repeat constructor; apply (bool_decide_unpack _); by vm_compute.
  - by vm_compute.
  - apply Nat.leb_le. done.
Qed.
