(* ===== verification/NodeClaims.v ===== *)
(** * A commit of nodes, from staging to its end

    The claims about the node repository, on top of NodeProps and NodeRollback, and
    an instance of every interface they use: the registry on disk and the blob store
    over files, with two nodes in one table. *)

From stdpp Require Import gmap.
From S2P Require Import Prelude Wp Handle HashmapSpec HashmapProps Stores Registry BlobStore NodeRepo NodeCommit NodeProps NodeRollback NodeInstance.

Section claims.
Context {RS RE BS BE Nd : Type} `{RO : Registry RS RE} `{BO : BlobStore BS BE} `{MD : MetaData Nd}.
Context (gen : nat → UUID) (home : UUID → string) (limit : nat).
Context `{RL : !RegistryLaws RS RE home} `{BL : !BlobStoreLaws BS BE}.
Hypothesis gen_not_nil : ∀ i, gen i ≠ NilUUID.
Hypothesis gen_wf : ∀ i, uuid_wf (gen i).
Hypothesis gen_inj : ∀ i j, i < limit → j < limit → gen i = gen j → i = j.

Local Abbreviation world := (@world RS BS Nd).
Local Abbreviation repo_inv := (NodeCommit.repo_inv gen home limit).
Local Abbreviation request := (NodeProps.request home limit).
Local Abbreviation unseen := (NodeProps.unseen home).
Implicit Types (T : gmap UUID Handle) (R : gset UUID) (B : gmap (string * UUID) (list Z)) (w : world) (h : Handle) (n : Nd).
Implicit Types (nodes : list (StoreInfo * list Nd)) (handles : list (RegistryPayload Handle)).

(** ** What follows the staging *)

Lemma staged_current now d T B T' B' nodes handles : staged_update gen home now d T B T' B' nodes handles →
  length (all_ids handles) = length (flat nodes) → current T' handles.
Proof.
  intros Hs Hl. apply Forall_lookup. intros i h Hi. destruct (lookup_lt_is_Some_2 (flat nodes) i) as [[t n] Hn].
  { rewrite <- Hl. by eapply lookup_lt_Some. }
  destruct (su_node _ _ _ _ _ _ _ _ _ _ Hs i t n Hn) as (h0 & ba & _ & _ & _ & Hih & HT & _).
  rewrite Hi in Hih. injection Hih as ->.
  pose proof (f_equal (.!! i) (su_IDs _ _ _ _ _ _ _ _ _ _ Hs)) as He.
  rewrite flat_IDs, !list_lookup_fmap, Hi, Hn in He. cbn in He. injection He as ->. done.
Qed.

Lemma staged_count now d T B T' B' nodes handles : staged_update gen home now d T B T' B' nodes handles →
  length (all_ids handles) = length (flat nodes).
Proof.
  intros Hs. pose proof (f_equal length (su_IDs _ _ _ _ _ _ _ _ _ _ Hs)) as Hl.
  rewrite flat_IDs, !length_fmap in Hl. done.
Qed.

(** Blobs that readers of the other nodes need are not touched. *)
Lemma staged_other_view now d T B T' B' nodes handles t id : fresh gen limit d T B →
  staged_update gen home now d T B T' B' nodes handles → d + length (flat nodes) ≤ limit →
  ∀ h, T !! id = Some h → B' !! (t, GetActiveID h) = B !! (t, GetActiveID h).
Proof.
  intros Hf Hs Hlim h Hh. apply (su_blobs _ _ _ _ _ _ _ _ _ _ Hs). intros i t0 n Hi [= -> He]. apply lookup_lt_Some in Hi.
  by apply (proj2 (Hf (d + i) ltac:(lia) ltac:(lia)) id h).
Qed.

(** Every node of the request shows its new version and bytes, every other ID what
    it showed before. *)
Definition published T B T' B' nodes : Prop :=
  (∀ t n, (t, n) ∈ flat nodes → ∃ ba, Marshal_ n = Some ba ∧
     view T' B' t (GetID n) = Some (wrap_s 32 (GetVersion n + 1), ba)) ∧
  (∀ t id, id ∉ extractUUIDs nodes → view T' B' t id = view T B t id).

Lemma updatable_version now h n : updatable now h n = true → Version h = GetVersion n.
Proof. unfold updatable. intros [[_ Hv]%andb_prop _]%andb_prop. by apply bool_decide_eq_true in Hv. Qed.

(** Turning a staged handle shows the node that was staged. *)
Lemma switched_view now d T B T' B' nodes handles : fresh gen limit d T B →
  staged_update gen home now d T B T' B' nodes handles → d + length (flat nodes) ≤ limit →
  NoDup (extractUUIDs nodes) → published T B (put_handles (final_handles handles []) T') B' nodes.
Proof.
  intros Hf Hs Hlim Hnd. pose proof (staged_count _ _ _ _ _ _ _ _ Hs) as Hcnt.
  pose proof (staged_current _ _ _ _ _ _ _ _ Hs Hcnt) as Hcur.
  assert (Hnd' : NoDup (LogicalID <$> all_ids handles ++ all_ids [])).
  { unfold all_ids at 2. cbn. by rewrite app_nil_r, (su_IDs _ _ _ _ _ _ _ _ _ _ Hs). }
  split.
  - intros t n Hn. apply list_elem_of_lookup in Hn as [i Hi].
    destruct (su_node _ _ _ _ _ _ _ _ _ _ Hs i t n Hi) as (h & ba & HT & Hup & Hba & Hih & HT' & HB'). exists ba. split; [done|].
    destruct (final_lookup handles [] T' (GetID n) Hnd' Hcur (Forall_nil_2 _)) as [(h1 & _ & _ & Hl & He)|[(h1 & Hin & _)|[Hout _]]].
    + rewrite HT' in Hl. injection Hl as <-. unfold view. rewrite He. cbn [mbind option_bind].
      destruct (activated_fields (staged now (gen (d + i)) h)) as (_ & -> & _ & ->). rewrite staged_inactive, HB'. cbn [mbind option_bind].
      destruct (staged_fields now (gen (d + i)) h) as (_ & -> & _). by rewrite (updatable_version _ _ _ Hup).
    + by apply not_elem_of_nil in Hin.
    + destruct Hout. unfold all_ids at 2. cbn. rewrite app_nil_r, (su_IDs _ _ _ _ _ _ _ _ _ _ Hs), flat_IDs.
      apply (list_elem_of_fmap_2 (GetID ∘ snd) _ (t, n)). by eapply list_elem_of_lookup_2.
  - intros t id Hid. unfold view. rewrite put_handles_notin.
    + rewrite (su_others _ _ _ _ _ _ _ _ _ _ Hs id Hid). destruct (T !! id) as [h|] eqn:Eh; [|done]. cbn.
      by rewrite (staged_other_view _ _ _ _ _ _ _ _ t id Hf Hs Hlim h Eh).
    + rewrite final_LogicalIDs. unfold all_ids at 2. cbn. by rewrite app_nil_r, (su_IDs _ _ _ _ _ _ _ _ _ _ Hs).
Qed.

Lemma staged_final_inactive now d T B T' B' nodes handles : staged_update gen home now d T B T' B' nodes handles →
  d + length (flat nodes) ≤ limit →
  Forall (λ h, ∀ i, d + length (flat nodes) ≤ i → i < limit → GetInActiveID h ≠ gen i) (all_ids handles).
Proof.
  intros Hs Hlim. apply Forall_lookup. intros i h Hi.
  destruct (lookup_lt_is_Some_2 (flat nodes) i) as [[t n] Hn].
  { rewrite <- (staged_count _ _ _ _ _ _ _ _ Hs). by eapply lookup_lt_Some. }
  destruct (su_node _ _ _ _ _ _ _ _ _ _ Hs i t n Hn) as (h0 & ba & _ & _ & _ & Hih & _ & _).
  rewrite Hi in Hih. injection Hih as ->. intros j Hj Hjl. rewrite staged_inactive. intros He%gen_inj; [|apply lookup_lt_Some in Hn; lia|done].
  apply lookup_lt_Some in Hn. lia.
Qed.

Lemma wp_stage_and_switch w T R B nodes : repo_inv w T R B → request T R w nodes →
  wp ('(ok, handles) ← commitUpdatedNodes (RE := RE) (BE := BE) gen nodes;
      if (ok : bool) then on_registry (registry_UpdateNoLocks true (activateInactiveNodes handles ++ touchNodes []));; mret true
      else mret false) w
    (λ ok w', ∃ T' B', repo_inv w' T' R B' ∧
       if (ok : bool) then published T B T' B' nodes
       else same_views T B T' B' ∧ ∃ n, n ∈ (flat nodes).*2 ∧ conflict (w_now w) T n)
    (λ _ w', ∃ T' R' B', stands (w_registry w') T' R' ∧ blob_holds (w_blobStore w') B' ∧
       ∀ id, (∀ t, view T' B' t id = view T B t id) ∨
         ∃ t n ba, (t, n) ∈ flat nodes ∧ id = GetID n ∧ Marshal_ n = Some ba ∧
           view T' B' t id = Some (wrap_s 32 (GetVersion n + 1), ba)).
Proof.
  intros Hinv Hreq. destruct Hreq as [Hhome Hnd Hreach Hord Hnow Hlim] eqn:E. clear E.
  apply wp_bind. eapply wp_mono; [by apply (wp_commitUpdatedNodes gen home gen_not_nil gen_wf limit gen_inj w T R B)| |].
  2:{ intros e w' (T' & R' & B' & Hs & Hb & Hv). exists T', R', B'. split; [done|]. split; [done|]. by left. }
  intros [ok handles] w1 (T1 & B1 & Hi1 & Hv1 & Hn1 & Hok). destruct ok.
  2:{ destruct Hok as (_ & _ & _ & Hc). apply wp_ret. by exists T1, B1. }
  destruct Hok as (Hs & Hd & _). pose proof (staged_count _ _ _ _ _ _ _ _ Hs) as Hcnt.
  pose proof (staged_current _ _ _ _ _ _ _ _ Hs Hcnt) as Hcur.
  destruct Hinv as (Hh & Hb & Hf). pose proof (switched_view _ _ _ _ _ _ _ _ Hf Hs Hlim Hnd) as Hpub.
  assert (Hnil : all_ids handles ++ all_ids [] = all_ids handles) by (unfold all_ids at 2; cbn; apply app_nil_r).
  apply wp_bind. eapply wp_mono.
  { apply (wp_switch gen home limit w1 T1 R B1 handles []); rewrite ?Hnil; [done|apply Hs|constructor| |done|constructor| |].
    - by rewrite (su_IDs _ _ _ _ _ _ _ _ _ _ Hs).
    - apply Forall_lookup. intros i h Hi. pose proof (list_elem_of_fmap_2 LogicalID _ _ (list_elem_of_lookup_2 _ _ _ Hi)) as Hin.
      rewrite (su_IDs _ _ _ _ _ _ _ _ _ _ Hs) in Hin. apply Hreach; [done|]. rewrite flat_IDs in Hin.
      apply list_elem_of_fmap in Hin as ([t n] & -> & [j Hj]%list_elem_of_lookup).
      destruct (su_node _ _ _ _ _ _ _ _ _ _ Hs j t n Hj) as (h1 & _ & HT1 & _). by exists h1.
    - rewrite Hd. by eapply staged_final_inactive. }
  - intros [] w2 (r & -> & Hi2). apply wp_ret. by exists (put_handles (final_handles handles []) T1), B1.
  - intros e w2 (r & T2 & -> & Hs2 & Hb2 & Hbt). exists T2, R, B1. split; [done|]. split; [done|]. intros id.
    destruct (Hbt id) as [He|He].
    + left. intros t. rewrite <- (Hv1 t id). unfold view. by rewrite He.
    + destruct (decide (id ∈ extractUUIDs nodes)) as [Hin|Hout].
      * right. rewrite flat_IDs in Hin. apply list_elem_of_fmap in Hin as ([t n] & -> & Hin).
        destruct (proj1 Hpub t n Hin) as (ba & Hba & Hvw). exists t, n, ba. split; [done|]. split; [done|]. split; [done|].
        rewrite <- Hvw. unfold view. cbn in He |- *. by rewrite He.
      * left. intros t. rewrite <- (proj2 Hpub t id Hout). unfold view. by rewrite He.
Qed.

(** ** Staging and rolling back *)





(** ** What a crash leaves *)

Definition at_time (now : Z) w : world :=
  mkWorld (w_registry w) (w_blobStore w) (w_l2nodes w) (w_setfails w) (w_deletefails w) now (w_drawn w).

Lemma staged_in_use now newid h : newid ≠ NilUUID → GetActiveID h ≠ NilUUID → IsAandBinUse (staged now newid h) = true.
Proof.
  intros Hne Ha. pose proof (staged_inactive now newid h) as Hi. destruct (staged_fields now newid h) as (_ & _ & _ & Hact & _).
  rewrite <- Hact in Ha. rewrite <- Hi in Hne. clear Hi Hact. destruct (staged now newid h) as [l a b [] v ts del];
    unfold IsAandBinUse, GetActiveID, GetInActiveID, IsNil in *; cbn in *; by rewrite !bool_decide_eq_false_2.
Qed.

Lemma expiry_of_staged t now newid h : (1000000 ≤ t)%Z →
  ((now ≤ t + Hour)%Z → IsExpiredInactive now (staged t newid h) = false) ∧
  ((t + Hour + 1000000 ≤ now)%Z → IsExpiredInactive now (staged t newid h) = true).
Proof.
  intros Ht. destruct (staged_fields t newid h) as (_ & _ & _ & _ & _ & Hts). by apply timestamp_expiry.
Qed.

Lemma staged_updatable t now newid h n : (1000000 ≤ t)%Z → newid ≠ NilUUID → updatable t h n = true →
  ((now ≤ t + Hour)%Z → GetActiveID h ≠ NilUUID → updatable now (staged t newid h) n = false) ∧
  ((t + Hour + 1000000 ≤ now)%Z → updatable now (staged t newid h) n = true).
Proof.
  intros Ht Hne Hup. destruct (expiry_of_staged t now newid h Ht) as [Hearly Hlate].
  destruct (staged_fields t newid h) as (_ & Hv & _ & _ & Hd & _). unfold updatable. rewrite Hv, Hd, (updatable_version _ _ _ Hup).
  split; intros Hnow.
  - intros Ha. rewrite (Hearly Hnow), (staged_in_use t newid h Hne Ha). apply andb_false_r.
  - rewrite (Hlate Hnow), bool_decide_eq_true_2 by done. by rewrite !orb_true_r.
Qed.

(** Of an earlier commit of [nodes] at the time [t], seen from a later one. *)
Definition left_staged (t : Z) T T2 nodes : Prop :=
  ∀ n, n ∈ (flat nodes).*2 → ∃ i h, T !! GetID n = Some h ∧ updatable t h n = true ∧ T2 !! GetID n = Some (staged t (gen i) h).

(** The node may be updated when what was staged has expired. *)
Definition updatable_again (now : Z) T T2 nodes n : Prop :=
  if decide (GetID n ∈ extractUUIDs nodes) then ∃ h, T !! GetID n = Some h ∧ Version h = GetVersion n else ¬ conflict now T2 n.

Lemma in_flat nodes id : id ∈ extractUUIDs nodes → ∃ n, n ∈ (flat nodes).*2 ∧ GetID n = id.
Proof. rewrite flat_IDs, list_fmap_compose. intros (n & -> & Hn)%list_elem_of_fmap. by exists n. Qed.

Lemma updatable_by_version now h n n' : GetVersion n' = GetVersion n → updatable now h n' = updatable now h n.
Proof. unfold updatable. by intros ->. Qed.

Lemma wp_stage_again t T nodes w2 T2 R2 B2 nodes2 : (1000000 ≤ t)%Z → left_staged t T T2 nodes →
  (∀ n h, n ∈ (flat nodes).*2 → T !! GetID n = Some h → GetActiveID h ≠ NilUUID) →
  repo_inv w2 T2 R2 B2 → request T2 R2 w2 nodes2 →
  wp (commitUpdatedNodes (RE := RE) (BE := BE) gen nodes2) w2
    (λ '(ok2, _) _,
       ((∃ id, id ∈ extractUUIDs nodes ∧ id ∈ extractUUIDs nodes2) → (w_now w2 ≤ t + Hour)%Z → ok2 = false) ∧
       ((t + Hour + 1000000 ≤ w_now w2)%Z → (∀ n, n ∈ (flat nodes2).*2 → updatable_again (w_now w2) T T2 nodes n) → ok2 = true))
    (λ _ w3, unseen T2 B2 w3).
Proof.
  intros Ht Hleft Hact Hinv Hreq.
  eapply wp_mono; [by apply (wp_commitUpdatedNodes gen home gen_not_nil gen_wf limit gen_inj w2 T2 R2 B2)| |done].
  intros [ok2 hs2] w3 (T3 & B3 & _ & _ & _ & Hok2). split.
  - intros (id & (n & Hn & <-)%in_flat & (n2 & Hn2 & He)%in_flat) Htime. destruct ok2; [|done]. destruct Hok2 as (Hs2 & _).
    destruct (Hleft n Hn) as (i & h & HT & _ & HT2). apply list_elem_of_fmap in Hn2 as ([tab n2'] & -> & [k Hk]%list_elem_of_lookup).
    destruct (su_node _ _ _ _ _ _ _ _ _ _ Hs2 k tab n2' Hk) as (h2 & _ & HT2' & Hup & _). cbn [snd] in He. rewrite He, HT2 in HT2'. injection HT2' as <-.
    unfold updatable in Hup. rewrite (proj1 (expiry_of_staged t _ (gen i) h Ht) Htime) in Hup.
    rewrite staged_in_use in Hup; [|done|by apply (Hact n h)]. by rewrite andb_false_r in Hup.
  - intros Htime Hall. destruct ok2; [done|]. destruct Hok2 as (_ & _ & _ & n2 & Hn2 & Hc). pose proof (Hall n2 Hn2) as Hagain.
    unfold updatable_again in Hagain. case_decide as Hin; [|done]. destruct Hagain as (h & HT & Hv).
    destruct (in_flat _ _ Hin) as (n & Hn & He). destruct (Hleft n Hn) as (i & h' & HT' & Hup & HT2).
    rewrite He in HT', HT2. rewrite HT in HT'. injection HT' as <-. unfold conflict in Hc. rewrite HT2 in Hc.
    assert (Hvn : GetVersion n2 = GetVersion n) by (pose proof (updatable_version _ _ _ Hup); congruence).
    rewrite (updatable_by_version _ _ n n2 Hvn), (proj2 (staged_updatable t _ (gen i) h n Ht (gen_not_nil i) Hup) Htime) in Hc. done.
Qed.

(** ** Claims *)

(** C7: For nodes whose handles can be written and are returned in the order in which they are asked for ([request]),
    commitUpdatedNodes stages all the nodes or reports a conflict with one of them.  In both cases a reader of any ID
    of any table sees the version and the bytes it saw before; on success each handle that was written is the one the
    registry had, with a new ID in its inactive slot, and the bytes of the node are stored under that ID and nothing
    else is; on a conflict nothing was written; and if a write fails, what the files stand for still looks the same to
    readers. *)
Theorem commitUpdatedNodes_exact w T R B nodes : repo_inv w T R B → request T R w nodes →
  wp (commitUpdatedNodes (RE := RE) (BE := BE) gen nodes) w
    (λ '(ok, handles) w', ∃ T' B', repo_inv w' T' R B' ∧ same_views T B T' B' ∧
       if (ok : bool) then staged_update gen home (w_now w) (w_drawn w) T B T' B' nodes handles
       else T' = T ∧ B' = B ∧ handles = [] ∧ ∃ n, n ∈ (flat nodes).*2 ∧ conflict (w_now w) T n)
    (λ _ w', unseen T B w').
Proof.
  intros Hinv Hreq. eapply wp_mono; [by apply (wp_commitUpdatedNodes gen home gen_not_nil gen_wf limit gen_inj w T R B)| |done].
  intros [[] handles] w' (T' & B' & Hi & Hv & _ & Hok); exists T', B'; by split_and!; try apply Hok.
Qed.

(** C1: The two steps of a commit of updated nodes, staging and writing the turned handles, publish exactly the nodes
    of the request, each with the next version, or leave every reader with what it saw, when there is a conflict.  If
    the last write is cut off, each ID shows either what it showed or its new node, never a mixture.  The nodes are
    such that their handles can be written and that the registry returns them in the order in which they are asked for
    ([request]): it does so when the L2 cache has all of the handles of a table or none of them, or cannot be read. *)
Theorem commit_published w T R B nodes : repo_inv w T R B → request T R w nodes →
  wp ('(ok, handles) ← commitUpdatedNodes (RE := RE) (BE := BE) gen nodes;
      if (ok : bool) then on_registry (registry_UpdateNoLocks true (activateInactiveNodes handles ++ touchNodes []));; mret true
      else mret false) w
    (λ ok w', ∃ T' B', repo_inv w' T' R B' ∧
       if (ok : bool) then published T B T' B' nodes
       else same_views T B T' B' ∧ ∃ n, n ∈ (flat nodes).*2 ∧ conflict (w_now w) T n)
    (λ _ w', ∃ T' R' B', stands (w_registry w') T' R' ∧ blob_holds (w_blobStore w') B' ∧
       ∀ id, (∀ t, view T' B' t id = view T B t id) ∨
         ∃ t n ba, (t, n) ∈ flat nodes ∧ id = GetID n ∧ Marshal_ n = Some ba ∧
           view T' B' t id = Some (wrap_s 32 (GetVersion n + 1), ba)).
Proof. apply wp_stage_and_switch. Qed.


(** The check of the nodes a transaction read answers yes exactly when each of
    them is registered with the version that was read, and changes nothing. *)
Theorem areFetchedItemsIntact_exact w T R B nodes : repo_inv w T R B → request T R w nodes →
  wp (areFetchedItemsIntact (RE := RE) (BE := BE) nodes) w
    (λ ok w', repo_inv w' T R B ∧ (ok = true ↔ Forall (unchanged T) (flat nodes).*2))
    (λ _ w', repo_inv w' T R B).
Proof. apply wp_areFetchedItemsIntact. Qed.

(** CommitRemovedNodes marks every node of the request as removed, or reports
    that one of them was changed or removed by somebody else and writes nothing;
    readers still see the nodes, also when the write fails. *)
Theorem commitRemovedNodes_exact w T R B nodes : repo_inv w T R B → request T R w nodes →
  (∀ id, id ∈ extractUUIDs nodes → is_Some (T !! id)) →
  wp (commitRemovedNodes (RE := RE) (BE := BE) nodes) w
    (λ '(ok, handles) w', ∃ T', repo_inv w' T' R B ∧ w_drawn w' = w_drawn w ∧ unnoticed T T' ∧
       if (ok : bool) then staged_removal home (w_now w) T T' nodes handles
       else T' = T ∧ handles = [] ∧ ∃ n h, n ∈ (flat nodes).*2 ∧ T !! GetID n = Some h ∧ ¬ removable h n)
    (λ _ w', unseen T B w').
Proof. apply wp_commitRemovedNodes. Qed.

(** C10: nodes that were staged by a transaction that never came back stay taken for
    an hour, counted from its clock, and are free after an hour and a millisecond:
    whatever happened to other nodes in between, a later transaction that updates one
    of them within the hour reports a conflict, and one that updates any of them after
    it, with the versions that are published, and other nodes without a conflict,
    stages all of its nodes.  Both requests are such as can be served ([request]), the nodes have
    active IDs, and the clock is past the first millisecond of 1970. *)
Theorem staging_expires w T R B nodes : repo_inv w T R B → request T R w nodes → (1000000 ≤ w_now w)%Z →
  (∀ n h, n ∈ (flat nodes).*2 → T !! GetID n = Some h → GetActiveID h ≠ NilUUID) →
  wp (commitUpdatedNodes (RE := RE) (BE := BE) gen nodes) w
    (λ '(ok, _) w1, ok = true → ∃ T1 B1, repo_inv w1 T1 R B1 ∧ same_views T B T1 B1 ∧
       ∀ w2 T2 R2 B2 nodes2, repo_inv w2 T2 R2 B2 → request T2 R2 w2 nodes2 →
         (∀ id, id ∈ extractUUIDs nodes → T2 !! id = T1 !! id) →
         wp (commitUpdatedNodes (RE := RE) (BE := BE) gen nodes2) w2
           (λ '(ok2, _) _,
              ((∃ id, id ∈ extractUUIDs nodes ∧ id ∈ extractUUIDs nodes2) → (w_now w2 ≤ w_now w + Hour)%Z → ok2 = false) ∧
              ((w_now w + Hour + 1000000 ≤ w_now w2)%Z → (∀ n, n ∈ (flat nodes2).*2 → updatable_again (w_now w2) T T2 nodes n) → ok2 = true))
           (λ _ w3, unseen T2 B2 w3))
    (λ _ w1, unseen T B w1).
Proof.
  intros Hinv Hreq Ht Hact. eapply wp_mono; [by apply (wp_commitUpdatedNodes gen home gen_not_nil gen_wf limit gen_inj w T R B)| |done].
  intros [ok handles] w1 (T1 & B1 & Hi1 & Hv1 & _ & Hok) ->. destruct Hok as (Hs & _). exists T1, B1. split; [done|]. split; [done|].
  intros w2 T2 R2 B2 nodes2 Hi2 Hr2 Hsame. apply (wp_stage_again _ _ _ _ _ R2); try done. intros n Hn.
  rewrite Hsame by (rewrite flat_IDs, list_fmap_compose; by apply list_elem_of_fmap_2).
  apply list_elem_of_fmap in Hn as ([tab n'] & -> & [i Hi]%list_elem_of_lookup).
  destruct (su_node _ _ _ _ _ _ _ _ _ _ Hs i tab n' Hi) as (h & _ & HT & Hup & _ & _ & HT1 & _). by eexists _, h.
Qed.
End claims.

(** ** The claims for the two nodes of NodeInstance *)

Local Abbreviation ex_commit := (commitUpdatedNodes (RE := registry_error) (BE := io_error) ex_gen ex_request).
Local Abbreviation ex_switch := ('(ok, handles) ← ex_commit;
  if (ok : bool) then on_registry (registry_UpdateNoLocks true (activateInactiveNodes handles ++ touchNodes []));; mret true
  else mret false).
Local Abbreviation ex_undo := ('(ok, handles) ← ex_commit;
  if (ok : bool) then rollbackUpdatedNodes true (convertToRegistryRequestPayload ex_request);; mret true else mret false).
Local Abbreviation ex_repo_inv := (NodeCommit.repo_inv ex_gen ex_home 100).

Lemma commitUpdatedNodes_exact_witness : ∃ handles T' B',
  (ex_commit ex_world).1 = Ret (true, handles) ∧ ex_repo_inv (ex_commit ex_world).2 T' ex_reach B' ∧
  same_views ex_table ex_blobs T' B' ∧
  staged_update ex_gen ex_home (w_now ex_world) 0 ex_table ex_blobs T' B' ex_request handles.
Proof.
  pose proof (commitUpdatedNodes_exact ex_gen ex_home 100 ex_gen_not_nil ex_gen_wf ex_gen_inj ex_world ex_table ex_reach ex_blobs
    ex_request ex_inv ex_requested) as Hw.
  assert (He : ∃ handles, (ex_commit ex_world).1 = Ret (true, handles)) by (eexists; vm_compute; reflexivity).
  destruct He as [handles He]. destruct (wp_result _ _ _ _ _ Hw He) as (T' & B' & Hi & Hv & Hs). exists handles, T', B'.
  exact (conj He (conj Hi (conj Hv Hs))).
Defined.

Lemma commit_published_witness : ∃ T' B', (ex_switch ex_world).1 = Ret true ∧ ex_repo_inv (ex_switch ex_world).2 T' ex_reach B' ∧
  view T' B' "b" (ex_id 1) = Some (2%Z, [9; 9]%Z) ∧ view T' B' "b" (ex_id 2) = Some (2%Z, [8; 8]%Z).
Proof.
  pose proof (commit_published ex_gen ex_home 100 ex_gen_not_nil ex_gen_wf ex_gen_inj ex_world ex_table ex_reach ex_blobs
    ex_request ex_inv ex_requested) as Hw.
  assert (He : (ex_switch ex_world).1 = Ret true) by (vm_compute; reflexivity).
  destruct (wp_result _ _ _ _ _ Hw He) as (T' & B' & Hi & Hp & _). exists T', B'. split; [exact He|]. split; [exact Hi|].
  split; [destruct (Hp "b" (mkNode (ex_id 1) 1 [9; 9]%Z)) as (ba & [= <-] & Hv); [by left|exact Hv]
         |destruct (Hp "b" (mkNode (ex_id 2) 1 [8; 8]%Z)) as (ba & [= <-] & Hv); [by right; left|exact Hv]].
Defined.


Lemma areFetchedItemsIntact_exact_witness :
  (areFetchedItemsIntact (RE := registry_error) (BE := io_error) ex_request ex_world).1 = Ret true ∧ Forall (unchanged ex_table) (flat ex_request).*2.
Proof.
  pose proof (areFetchedItemsIntact_exact ex_gen ex_home 100 ex_world ex_table ex_reach ex_blobs
    ex_request ex_inv ex_requested) as Hw.
  assert (He : (areFetchedItemsIntact (RE := registry_error) (BE := io_error) ex_request ex_world).1 = Ret true) by (vm_compute; reflexivity).
  destruct (wp_result _ _ _ _ _ Hw He) as (_ & Hi). split; [exact He|]. by apply Hi.
Defined.

Lemma commitRemovedNodes_exact_witness : ∃ handles T',
  (commitRemovedNodes (RE := registry_error) (BE := io_error) ex_request ex_world).1 = Ret (true, handles) ∧ unnoticed ex_table T' ∧
  staged_removal ex_home (w_now ex_world) ex_table T' ex_request handles.
Proof.
  pose proof (commitRemovedNodes_exact ex_gen ex_home 100 ex_world ex_table ex_reach ex_blobs
    ex_request ex_inv ex_requested) as Hw.
  assert (Hp : ∀ id, id ∈ extractUUIDs ex_request → is_Some (ex_table !! id)).
  { apply Forall_forall. change (extractUUIDs ex_request) with [ex_id 1; ex_id 2].
    apply Forall_cons_2; [|apply Forall_cons_2; [|apply Forall_nil_2]]; apply (bool_decide_unpack _); vm_compute; exact I. }
  assert (He : ∃ handles, (commitRemovedNodes (RE := registry_error) (BE := io_error) ex_request ex_world).1 = Ret (true, handles))
    by (eexists; vm_compute; reflexivity).
  destruct He as [handles He]. destruct (wp_result _ _ _ _ _ (Hw Hp) He) as (T' & _ & _ & Hu & Hs). exists handles, T'.
  exact (conj He (conj Hu Hs)).
Defined.

(** Another transaction that updates the second node only. *)
Definition ex_other : list (StoreInfo * list ex_node) := [(ex_store, [mkNode (ex_id 2) 1 [5]%Z])].
Local Abbreviation ex_later := (commitUpdatedNodes (RE := registry_error) (BE := io_error) ex_gen ex_other).

Lemma ex_at_time now (w : @world registryOnDisk filesystem ex_node) T R B : ex_repo_inv w T R B → ex_repo_inv (at_time now w) T R B.
Proof. done. Qed.

Lemma staging_expires_witness : ∃ T1 B1, ex_repo_inv (ex_commit ex_world).2 T1 ex_reach B1 ∧
  wp ex_later (at_time (w_now ex_world + 2 * Hour) (ex_commit ex_world).2) (λ '(ok2, _) _, ok2 = true) (λ _ w2, unseen ex_home T1 B1 w2) ∧
  wp ex_later (at_time (w_now ex_world + 1000) (ex_commit ex_world).2) (λ '(ok2, _) _, ok2 = false) (λ _ w2, unseen ex_home T1 B1 w2).
Proof.
  assert (Hact : ∀ n h, n ∈ (flat ex_request).*2 → ex_table !! GetID n = Some h → GetActiveID h ≠ NilUUID).
  { intros n h _ Hh. unfold ex_table, put_handles in Hh. cbn [foldl] in Hh.
    apply lookup_insert_Some in Hh as [[_ <-]|[_ Hh]]; [cbn; unfold NilUUID; lia|].
    apply lookup_insert_Some in Hh as [[_ <-]|[_ Hh]]; [cbn; unfold NilUUID; lia|by apply lookup_empty_Some in Hh]. }
  pose proof (staging_expires ex_gen ex_home 100 ex_gen_not_nil ex_gen_wf ex_gen_inj ex_world ex_table ex_reach ex_blobs
    ex_request ex_inv ex_requested ltac:(cbn; lia) Hact) as Hw.
  assert (He : ∃ handles, (ex_commit ex_world).1 = Ret (true, handles)) by (eexists; vm_compute; reflexivity).
  destruct He as [handles He]. pose proof (wp_result _ _ _ _ _ Hw He) as Hx. cbv beta iota in Hx.
  destruct (Hx eq_refl) as (T1 & B1 & Hi1 & _ & Hlater). exists T1, B1. split; [exact Hi1|].
  assert (Hreq : ∀ now, in_s 64 (UnixMilli now) → request ex_home 100 T1 ex_reach (at_time now (ex_commit ex_world).2) ex_other).
  { intros now Hnow. constructor.
    - by repeat constructor.
    - repeat constructor. apply not_elem_of_nil.
    - intros id Hid _. apply list_elem_of_singleton in Hid as ->. apply elem_of_union. left. apply elem_of_list_to_set. right. by left.
    - split; [|apply (proj2 (Forall_singleton _ _))].
      + repeat constructor. apply not_elem_of_nil.
      + right. left. apply (proj2 (Forall_singleton _ (ex_id 2))). apply (bool_decide_unpack _). vm_compute. exact I.
    - exact Hnow.
    - apply Nat.leb_le. vm_compute. reflexivity. }
  assert (Hid : ex_id 2 ∈ extractUUIDs ex_request) by (right; by left).
  split.
  - assert (Hb : in_s 64 (UnixMilli (w_now ex_world + 2 * Hour)%Z)) by (split; vm_compute; [discriminate|reflexivity]).
    eapply wp_mono; [exact (Hlater _ T1 ex_reach B1 ex_other (ex_at_time _ _ _ _ _ Hi1) (Hreq _ Hb) (λ id _, eq_refl))| |intros e w2 Hu; exact Hu].
    intros [ok2 hs2] w2 [_ Hl]. apply Hl; [cbn [w_now at_time]; unfold Hour; lia|]. intros n Hn. apply list_elem_of_singleton in Hn as ->.
    unfold updatable_again. change (GetID (mkNode (ex_id 2) 1 [5]%Z)) with (ex_id 2). rewrite (decide_True _ _ Hid).
    exists (ex_node_handle 2 1). split; vm_compute; reflexivity.
  - assert (Hb : in_s 64 (UnixMilli (w_now ex_world + 1000)%Z)) by (split; vm_compute; [discriminate|reflexivity]).
    eapply wp_mono; [exact (Hlater _ T1 ex_reach B1 ex_other (ex_at_time _ _ _ _ _ Hi1) (Hreq _ Hb) (λ id _, eq_refl))| |intros e w2 Hu; exact Hu].
    intros [ok2 hs2] w2 [Hl _]. apply Hl; [|cbn [w_now at_time]; unfold Hour; lia]. exists (ex_id 2). split; [exact Hid|by left].
Defined.
