(* ===== verification/RegistryProps.v ===== *)
(** * A registry behaves as a map

    A sequence of calls on the registry on disk behind its caches returns what the
    same calls on a map return, and stops only where a call fails. *)

From stdpp Require Import gmap.
From S2P Require Import Prelude Wp Handle Hashmap HashmapSpec HashmapMap HashmapProps Stores Cache Registry RegistrySpec NodeInstance.

Inductive reg_op :=
| OpGet (reqs : list (RegistryPayload UUID))
| OpAdd (hs : list (RegistryPayload Handle))
| OpUpdate (hs : list (RegistryPayload Handle))
| OpUpdateNoLocks (allOrNothing : bool) (hs : list (RegistryPayload Handle))
| OpRemove (reqs : list (RegistryPayload UUID)).

(** ** The map *)

(** The handles, the IDs that are known to be within reach of a write, and the
    number of handles there is room for. *)
Record reg_map := mkMap { rm_T : gmap UUID Handle; rm_R : gset UUID; rm_room : nat }.

Section registry.
Context (FromBytes : list Z → option UUID) (blockSize : nat) (hashModValue : Z).
Hypothesis HFB : FromBytes_documented FromBytes.
Hypothesis Hbs : handlesPerBlock * HandleSizeInBytes + 4 ≤ blockSize.
Context (home : UUID → string).

Local Abbreviation G := (M registryOnDisk registry_error).
Local Abbreviation collides := (RegistrySpec.collides blockSize hashModValue home).
Local Abbreviation spared := (RegistrySpec.spared blockSize hashModValue home).
Local Abbreviation reg_stands := (RegistrySpec.reg_stands blockSize hashModValue home).
Local Abbreviation reg_holds := (RegistrySpec.reg_holds blockSize hashModValue home).

(** A removal takes the IDs that share a block with a removed one out of reach. *)
Definition map_step (o : reg_op) (m : reg_map) : reg_map :=
  match o with
  | OpGet _ => m
  | OpAdd hs => mkMap (put_handles (all_ids hs) (rm_T m)) (list_to_set (LogicalID <$> all_ids hs) ∪ rm_R m)
                  (rm_room m - length (all_ids hs))
  | OpUpdate hs | OpUpdateNoLocks _ hs => mkMap (put_handles (all_ids hs) (rm_T m)) (rm_R m) (rm_room m)
  | OpRemove reqs => mkMap (delete_ids (all_ids reqs) (rm_T m)) (spared (all_ids reqs) (rm_R m)) (rm_room m)
  end.
Definition map_run (os : list reg_op) (m : reg_map) : reg_map := foldl (λ m o, map_step o m) m os.

(** A batch of handles that may be written. *)
Definition writable (hs : list (RegistryPayload Handle)) : Prop :=
  homed_handles home hs ∧ Forall storable (all_ids hs) ∧ NoDup (LogicalID <$> all_ids hs).

(** New IDs are added; since what is changed or removed was added, no ID was removed
    that shares its block. *)
Definition allowed (o : reg_op) (m : reg_map) : Prop :=
  match o with
  | OpGet reqs => homed home reqs
  | OpAdd hs => writable hs ∧ Forall (λ p, rp_RegistryTable p ≠ EmptyString) hs ∧
      Forall (λ h, rm_T m !! LogicalID h = None) (all_ids hs) ∧ length (all_ids hs) ≤ rm_room m
  | OpUpdate hs | OpUpdateNoLocks _ hs => writable hs ∧ Forall (λ h, LogicalID h ∈ rm_R m) (all_ids hs)
  | OpRemove reqs => homed home reqs ∧ NoDup (rp_RegistryTable <$> reqs) ∧ NoDup (all_ids reqs) ∧
      Forall (λ id, id ∈ rm_R m) (all_ids reqs)
  end.
Fixpoint all_allowed (os : list reg_op) (m : reg_map) : Prop :=
  match os with [] => True | o :: os => allowed o m ∧ all_allowed os (map_step o m) end.

(** What the calls return. *)
Definition answer_ok (o : reg_op) (m : reg_map) (r : list (RegistryPayload Handle)) : Prop :=
  match o with OpGet reqs => Forall2 (answers (rm_T m)) reqs r | _ => r = [] end.
Fixpoint answers_ok (os : list reg_op) (m : reg_map) (rs : list (list (RegistryPayload Handle))) : Prop :=
  match os, rs with
  | [], [] => True
  | o :: os, r :: rs => answer_ok o m r ∧ answers_ok os (map_step o m) rs
  | _, _ => False
  end.

(** ** The registry on disk *)

Definition reg_exec (o : reg_op) : G (list (RegistryPayload Handle)) :=
  match o with
  | OpGet reqs => Registry.Get FromBytes blockSize hashModValue reqs
  | OpAdd hs => Registry.Add FromBytes blockSize hashModValue hs;; mret []
  | OpUpdate hs => Registry.Update FromBytes blockSize hashModValue hs;; mret []
  | OpUpdateNoLocks b hs => Registry.UpdateNoLocks FromBytes blockSize hashModValue b hs;; mret []
  | OpRemove reqs => Registry.Remove FromBytes blockSize hashModValue reqs;; mret []
  end.

Fixpoint reg_exec_all (os : list reg_op) : G (list (list (RegistryPayload Handle))) :=
  match os with
  | [] => mret []
  | o :: os => r ← reg_exec o; rs ← reg_exec_all os; mret (r :: rs)
  end.

(** Without files and with empty caches. *)
Definition new_registry (min max : Z) (env : environment) : registryOnDisk := mkRegistry ∅ (NewCache min max) ∅ env.

(** The registry stands for the map; more IDs may be within reach. *)
Definition stands_for (s : registryOnDisk) (m : reg_map) : Prop :=
  ∃ R, reg_holds s (rm_T m) R ∧ rm_R m ⊆ R ∧ reg_room s (rm_room m).

(** Where a run stopped: after some of the calls, within the effect of the next. *)
Definition stopped (os : list reg_op) (m : reg_map) (s : registryOnDisk) : Prop :=
  ∃ k o T' R', os !! k = Some o ∧ reg_stands s T' R' ∧
    between (rm_T (map_run (take k os) m)) (rm_T (map_step o (map_run (take k os) m))) T'.

Lemma within (R R' : gset UUID) ids : Forall (λ id, id ∈ R) ids → R ⊆ R' → Forall (λ id, id ∈ R') ids.
Proof. intros H Hs. eapply Forall_impl; [exact H|]. intros id. apply Hs. Qed.
Lemma within_handles (R R' : gset UUID) hs : Forall (λ h, LogicalID h ∈ R) hs → R ⊆ R' → Forall (λ h, LogicalID h ∈ R') hs.
Proof. intros H Hs. eapply Forall_impl; [exact H|]. intros h. apply Hs. Qed.

Lemma spared_mono ids (R R' : gset UUID) : R ⊆ R' → spared ids R ⊆ spared ids R'.
Proof. intros Hs id [Hid Hin]%elem_of_filter. apply elem_of_filter. auto. Qed.

Lemma new_stands min max env n : (∀ id, e_setfails env id = false) → (∀ id, e_deletefails env id = false) → n < maxSegments →
  stands_for (new_registry min max env) (mkMap ∅ ∅ n).
Proof.
  intros Hs Hd Hn. exists ∅. split; [|split; [done|by intros f]]. split; [split|done].
  - intros f. unfold part, part_ids. cbn [rm_T new_registry rg_files]. rewrite map_filter_empty.
    assert (filter (λ id : UUID, home id = f) (∅ : gset UUID) = ∅) as -> by set_solver. exact (table_empty blockSize hashModValue).
  - split; [done|]. split; [done|]. exists max, []. apply NewCache_rep.
Qed.

Lemma wp_reg_exec o s m : stands_for s m → allowed o m →
  wp (reg_exec o) s (λ r s', stands_for s' (map_step o m) ∧ answer_ok o m r)
    (λ _ s', ∃ T' R', reg_stands s' T' R' ∧ between (rm_T m) (rm_T (map_step o m)) T').
Proof.
  intros (R & Hh & HR & Hro) Ha. destruct o as [reqs|hs|hs|b hs|reqs]; cbn [reg_exec allowed answer_ok map_step] in *.
  - eapply wp_mono; [by apply (wp_Get FromBytes blockSize hashModValue HFB Hbs home reqs s (rm_T m) R)| |done].
    intros r s' (Hh' & Hro' & Hans & _). split; [exists R; auto|done].
  - destruct Ha as ((Hhm & Hst & Hnd) & Hne & Hnew & Hlen). apply wp_bind. eapply wp_mono.
    + apply (wp_Add FromBytes blockSize hashModValue HFB Hbs home s (rm_T m) R hs (rm_room m - length (all_ids hs))); try done.
      by replace (length (all_ids hs) + (rm_room m - length (all_ids hs))) with (rm_room m) by lia.
    + intros [] s' [Hh' Hro']. apply wp_ret. split; [|done]. eexists. split; [exact Hh'|]. unfold new_ids. cbn [rm_R rm_room].
      split; [by apply union_mono|done].
    + intros e s' (T' & R' & Hs' & Hb & _). by exists T', R'.
  - destruct Ha as ((Hhm & Hst & Hnd) & Hin). apply wp_bind. eapply wp_mono.
    + apply (wp_Update FromBytes blockSize hashModValue HFB Hbs home hs s (rm_T m) R); try done. by eapply within_handles.
    + intros [] s' [Hh' Hro']. apply wp_ret. split; [exists R; auto|done].
    + intros e s' (T' & [Hs' _] & Hb). by exists T', R.
  - destruct Ha as ((Hhm & Hst & Hnd) & Hin). apply wp_bind. eapply wp_mono.
    + apply (wp_UpdateNoLocks FromBytes blockSize hashModValue HFB Hbs home s (rm_T m) R b hs); try done. by eapply within_handles.
    + intros [] s' (Hh' & Hro' & _). apply wp_ret. split; [exists R; auto|done].
    + intros e s' (T' & Hs' & Hb). by exists T', R.
  - destruct Ha as (Hhm & Hdis & Hnd & Hin). apply wp_bind. eapply wp_mono.
    + apply (wp_Remove FromBytes blockSize hashModValue HFB Hbs home s (rm_T m) R reqs); try done. by eapply within.
    + intros [] s' ((R' & Hh' & _ & Hsp) & Hro'). apply wp_ret. split; [|done]. exists R'. split; [done|]. split; [|auto].
      cbn. transitivity (spared (all_ids reqs) R); [by apply spared_mono|done].
    + intros e s' [Hs' _]. exists (rm_T m), R. split; [done|apply between_refl].
Qed.

Lemma wp_reg_exec_all os : ∀ s m, stands_for s m → all_allowed os m →
  wp (reg_exec_all os) s (λ rs s', stands_for s' (map_run os m) ∧ answers_ok os m rs) (λ _ s', stopped os m s').
Proof.
  induction os as [|o os IH]; intros s m Hs Ha; [by apply wp_ret|]. destruct Ha as [Ho Ha]. cbn [reg_exec_all].
  apply wp_bind. eapply wp_mono; [by apply wp_reg_exec| |].
  - intros r s1 [Hs1 Hr]. apply wp_bind. eapply wp_mono; [by apply (IH s1 (map_step o m))| |].
    + intros rs s2 [Hs2 Hrs]. by apply wp_ret.
    + intros e s2 (k & o' & T' & R' & Hk & Hst & Hb). by exists (S k), o', T', R'.
  - intros e s1 (T' & R' & Hst & Hb). by exists 0, o, T', R'.
Qed.

(** C8: on a new registry, whose L2 cache takes its writes and removals, any sequence
    of calls that adds fewer IDs than a table may have segments, each of them new,
    and that changes or removes an ID only if no other ID of its block was removed
    since it was added, returns for each Get the handles that the same calls leave in
    a map, and the files and caches stand for that map at the end; if a call fails,
    the files stand for the map before it with some of its changes. *)
Theorem registry_refines_map os min max env n :
  (∀ id, e_setfails env id = false) → (∀ id, e_deletefails env id = false) → n < maxSegments →
  all_allowed os (mkMap ∅ ∅ n) →
  wp (reg_exec_all os) (new_registry min max env)
    (λ rs s', stands_for s' (map_run os (mkMap ∅ ∅ n)) ∧ answers_ok os (mkMap ∅ ∅ n) rs)
    (λ _ s', stopped os (mkMap ∅ ∅ n) s').
Proof. intros Hs Hd Hn Ha. apply wp_reg_exec_all; [by apply new_stands|done]. Qed.
End registry.

(** ** An instance

    Node 251 shares the block of node 1, and is out of reach when that is removed;
    node 2 has a block of its own. *)

Definition ex_more : RegistryPayload Handle := mkRegistryPayload "t" "b" 0 false [ex_node_handle 251 1].
Definition ex_calls : list reg_op :=
  [OpAdd [ex_payload; ex_more]; OpUpdateNoLocks false [mkRegistryPayload "t" "b" 0 false [ex_node_handle 2 5]];
   OpGet [mkRegistryPayload "t" "b" 0 false [ex_id 2; ex_id 3; ex_id 1]]; OpRemove [mkRegistryPayload "t" "" 0 false [ex_id 1]];
   OpUpdate [mkRegistryPayload "t" "b" 0 false [ex_node_handle 2 6]];
   OpGet [mkRegistryPayload "t" "b" 0 false [ex_id 1; ex_id 2; ex_id 251]]].
Local Abbreviation ex_exec := (reg_exec_all FromBytes_ref 4096 250).
Definition ex_none : reg_map := mkMap ∅ ∅ 10.

Lemma ex_calls_allowed : all_allowed 4096 250 ex_home ex_calls ex_none.
Proof.
  assert (H1 : ∀ k v, (0 < k < 1000)%N → (0 ≤ v < 1000)%Z → storable (ex_node_handle k v)).
  { intros k v Hk Hv. unfold storable, handle_wf, uuid_wf, in_s, ex_node_handle, ex_id, NilUUID.
    cbn [LogicalID PhysicalIDA PhysicalIDB Version WorkInProgressTimestamp].
    assert (k * 2 ^ 64 + 1 < 2 ^ 128)%N by (change (2 ^ 128)%N with (2 ^ 64 * 2 ^ 64)%N; nia). lia. }
  refine (conj _ (conj _ (conj _ (conj _ (conj _ (conj _ I)))))).
  - refine (conj (conj _ (conj _ _)) (conj _ (conj _ _))); [by repeat constructor|repeat constructor; apply H1; lia| |by repeat constructor
      |by repeat constructor|apply Nat.leb_le; done].
    apply (bool_decide_unpack _); by vm_compute.
  - refine (conj (conj _ (conj _ _)) _); [by repeat constructor|repeat constructor; apply H1; lia| |].
    + repeat constructor; apply not_elem_of_nil.
    + repeat constructor; apply (bool_decide_unpack _); by vm_compute.
  - by repeat constructor.
  - refine (conj _ (conj _ (conj _ _))); [by repeat constructor| | |].
    + repeat constructor; apply not_elem_of_nil.
    + repeat constructor; apply not_elem_of_nil.
    + repeat constructor; apply (bool_decide_unpack _); by vm_compute.
  - refine (conj (conj _ (conj _ _)) _); [by repeat constructor|repeat constructor; apply H1; lia| |].
    + repeat constructor; apply not_elem_of_nil.
    + repeat constructor; apply (bool_decide_unpack _); by vm_compute.
  - by repeat constructor.
Qed.

Lemma registry_refines_map_witness : ∃ rs, (ex_exec ex_calls empty_registry).1 = Ret rs ∧
  answers_ok 4096 250 ex_home ex_calls ex_none rs ∧
  stands_for 4096 250 ex_home (ex_exec ex_calls empty_registry).2 (map_run 4096 250 ex_home ex_calls ex_none).
Proof.
  pose proof (registry_refines_map FromBytes_ref 4096 250 FromBytes_ref_documented ex_block ex_home ex_calls 8 16 ex_env 10
    ltac:(done) ltac:(done) ltac:(apply Nat.ltb_lt; done) ex_calls_allowed) as Hw.
  assert (He : ∃ rs, (ex_exec ex_calls empty_registry).1 = Ret rs) by (eexists; vm_compute; reflexivity).
  destruct He as [rs He]. destruct (wp_result _ _ _ _ _ Hw He) as [Hs Ha]. exists rs. exact (conj He (conj Ha Hs)).
Defined.
