(* ===== verification/NodeFindings.v ===== *)
(** * Node repository and registry: findings

    Runs of the modelled code on the instance of NodeInstance. *)

From stdpp Require Import gmap pretty.
From S2P Require Import Prelude Wp Handle HashmapSpec HashmapProps Stores Cache Registry BlobStore NodeRepo NodeCommit NodeProps NodeInstance NodeClaims.

Local Abbreviation world := (@world registryOnDisk filesystem ex_node).
Local Abbreviation W := (M world (repo_error registry_error io_error)).

Definition with_registry (r : registryOnDisk) : world := set_registry r ex_world.

(** The two steps of a commit, and what a reader then finds for an ID. *)
Definition publish (nodes : list (StoreInfo * list ex_node)) : W bool :=
  '(ok, handles) ← commitUpdatedNodes (RE := registry_error) (BE := io_error) ex_gen nodes;
  if (ok : bool) then on_registry (registry_UpdateNoLocks true (activateInactiveNodes handles));; mret true else mret false.
Definition read_node (id : UUID) : W (list Z) :=
  ps ← on_registry (registry_Get [mkRegistryPayload "t" "b" 0 false [id]]);
  p ← or_panic (ps !! 0);
  h ← or_panic (rp_IDs p !! 0);
  on_blobStore (blobStore_GetOne "b" (GetActiveID h)).

(** When the L2 cache has the handle of the second node only, Get returns it first,
    and the nodes are written under each other's handles. *)
Definition half_cached : registryOnDisk := set_l2 {[ex_id 2 := ex_node_handle 2 1]} ex_registry.

Definition publish_and_read : W (bool * list Z * list Z) :=
  b ← publish ex_request; x ← read_node (ex_id 1); y ← read_node (ex_id 2); mret (b, x, y).

Example cached_handles_first :
  (publish_and_read (with_registry ex_registry)).1 = Ret (true, [9; 9]%Z, [8; 8]%Z) ∧
  (publish_and_read (with_registry half_cached)).1 = Ret (true, [8; 8]%Z, [9; 9]%Z).
Proof. split; vm_compute; reflexivity. Qed.

(** The removal of a node that somebody else has removed already is not a conflict:
    Get leaves the missing handle out, and the others are compared with the nodes in
    front of them. *)
Example removal_of_missing_node :
  (commitRemovedNodes (RE := registry_error) (BE := io_error) [(ex_store, [mkNode (ex_id 3) 1 []])] ex_world).1 =
    Ret (true, [mkRegistryPayload "t" "b" 0 false []]) ∧
  (commitRemovedNodes (RE := registry_error) (BE := io_error) [(ex_store, [mkNode (ex_id 3) 7 []; mkNode (ex_id 1) 1 []])] ex_world).1 =
    Ret (false, []).
Proof. split; vm_compute; reflexivity. Qed.

(** A write of the registry whose update of the L2 cache fails leaves the old handle
    there, and Get prefers it to the file: a second commit of the old version passes
    the check and replaces the first. *)
Definition failing_cache : registryOnDisk :=
  mkRegistry (rg_files ex_registry) (rg_l1 ex_registry) (rg_l2 ex_registry)
    (mkEnvironment true false (λ _, true) (λ _, false) (λ _, LockOk) (λ _, false)).

Definition lost_update : W (bool * bool) :=
  a ← publish [(ex_store, [mkNode (ex_id 1) 1 [5]%Z])]; b ← publish [(ex_store, [mkNode (ex_id 1) 1 [6]%Z])]; mret (a, b).

Example stale_cache_loses_update :
  (lost_update (with_registry ex_registry)).1 = Ret (true, false) ∧ (lost_update (with_registry failing_cache)).1 = Ret (true, true).
Proof. split; vm_compute; reflexivity. Qed.

(** A reader that took the handle from the file puts it into the L2 cache after a
    writer has replaced it there: the old handle stays. *)
Definition overtaken : registryOnDisk := set_l2 ∅ ex_registry.

Definition reader_after_writer : M registryOnDisk registry_error (list Z) :=
  let lids := mkRegistryPayload "t" "b" 0 false [ex_id 1] in
  '(_, fetched) ← get_lookup FromBytes_ref 4096 250 lids;
  registry_UpdateNoLocks true [mkRegistryPayload "t" "b" 0 false [ex_node_handle 1 2]];;
  l2_set_all fetched;;
  ps ← registry_Get [lids];
  mret (Version <$> (ps ≫= rp_IDs)).

Example fill_of_cache_is_stale : (reader_after_writer overtaken).1 = Ret [1]%Z.
Proof. vm_compute. reflexivity. Qed.

(** A blob that cannot be written leaves the handles staged. *)
Definition full_disk : world :=
  set_blobStore (mkFilesystem (fs_files ex_files) (fs_dirs ex_files) (λ _, false) (λ _, false) (λ _, Some 0) (λ _, false)) ex_world.

Definition retry_on_good_disk : W bool := λ w,
  (publish ex_request (set_blobStore ex_files (publish ex_request w).2)).

Example failed_blob_leaves_staged :
  (publish ex_request full_disk).1 = Fail (ErrBlobStore (ErrWrite "blobs-b/5000")) ∧ (retry_on_good_disk full_disk).1 = Ret false.
Proof. split; vm_compute; reflexivity. Qed.
