(* ===== verification/Locks.v ===== *)
(** * cache/l2inmemorycache.go and l2inmemorycache.sharded_map.go: locks in memory

    The locks of the in-memory L2 cache are entries of a map in 256 shards.  Each
    operation of the map is atomic (a shard has a mutex), a call of the cache is
    not: it is a program over the operations of the map and readings of the clock,
    and [step] interleaves the programs of any number of callers.  The expiration
    of a lock is never the zero time. *)

From S2P Require Import Prelude Handle.

(** ** The sharded map *)

Record lockItem := mkLockItem {
  li_lockID : UUID;
  li_expiration : Z;
}.
#[global] Instance lockItem_eq_dec : EqDecision lockItem.
Proof. solve_decision. Defined.

Abbreviation lock_map := (gmap string lockItem) (only parsing).

(** [fnv.New32a] of the standard library. *)
Definition fnv_byte (h b : N) : N := (N.lxor h b * 16777619) `mod` 4294967296.
Fixpoint fnv_sum (h : N) (s : string) : N :=
  match s with EmptyString => h | String c s => fnv_sum (fnv_byte h (Ascii.N_of_ascii c)) s end.
Definition fnv32a (s : string) : N := fnv_sum 2166136261 s.

Example fnv_a : fnv32a "a" = 3826002220%N.
Proof. reflexivity. Qed.

Definition shardCount : N := 256.
Definition getShard (key : string) : N := (fnv32a key `mod` shardCount)%N.

Definition shard_items (locks : lock_map) (key : string) : lock_map :=
  filter (λ '(k, _), getShard k = getShard key) locks.

(** The eviction looks at the first five entries the range over the shard visits
    and takes the one that expires first. *)
Definition sampleSize : nat := 5.
Fixpoint earliest (best : option (string * Z)) (sample : list (string * lockItem)) : option (string * Z) :=
  match sample with
  | [] => best
  | (k, v) :: sample =>
      earliest (match best with
                | Some (_, minExp) => if (li_expiration v <? minExp)%Z then Some (k, li_expiration v) else best
                | None => Some (k, li_expiration v)
                end) sample
  end.
Definition victim (visited : list (string * lockItem)) : option string :=
  fst <$> earliest None (take sampleSize visited).

(** [loadOrStore], with the order in which the shard is ranged over. *)
Definition loadOrStore (maxItemsPerShard : nat) (visited : list (string * lockItem)) (key : string)
    (value : lockItem) (locks : lock_map) : (lockItem * bool) * lock_map :=
  match locks !! key with
  | Some actual => ((actual, true), locks)
  | None =>
      let locks := if decide (maxItemsPerShard ≤ size (shard_items locks key))
                   then match victim visited with Some k => delete k locks | None => locks end
                   else locks in
      ((value, false), <[key := value]> locks)
  end.

Definition compareAndSwap (key : string) (old new : lockItem) (locks : lock_map) : bool * lock_map :=
  if decide (locks !! key = Some old) then (true, <[key := new]> locks) else (false, locks).
Definition compareAndDelete (key : string) (old : lockItem) (locks : lock_map) : bool * lock_map :=
  if decide (locks !! key = Some old) then (true, delete key locks) else (false, locks).

(** ** Programs *)

Inductive prog (A : Type) :=
| Done (r : A)
| Load (key : string) (k : option lockItem → prog A)
| LoadOrStore (key : string) (value : lockItem) (k : lockItem * bool → prog A)
| CompareAndSwap (key : string) (old new : lockItem) (k : bool → prog A)
| CompareAndDelete (key : string) (old : lockItem) (k : bool → prog A)
| Now (k : Z → prog A).
Arguments Done {A}.
Arguments Load {A}.
Arguments LoadOrStore {A}.
Arguments CompareAndSwap {A}.
Arguments CompareAndDelete {A}.
Arguments Now {A}.

Fixpoint prog_bind {A B} (m : prog A) (k : A → prog B) : prog B :=
  match m with
  | Done x => k x
  | Load key c => Load key (λ r, prog_bind (c r) k)
  | LoadOrStore key v c => LoadOrStore key v (λ r, prog_bind (c r) k)
  | CompareAndSwap key o n c => CompareAndSwap key o n (λ r, prog_bind (c r) k)
  | CompareAndDelete key o c => CompareAndDelete key o (λ r, prog_bind (c r) k)
  | Now c => Now (λ r, prog_bind (c r) k)
  end.
#[global] Instance prog_ret : MRet prog := λ A x, Done x.
#[global] Instance prog_mbind : MBind prog := λ A B k m, prog_bind m k.

(** ** The calls (l2inmemorycache.go) *)

Record LockKey := mkLockKey {
  lk_Key : string;
  lk_LockID : UUID;
  lk_IsLockOwner : bool;
}.

Definition set_owner (b : bool) (lk : LockKey) : LockKey := mkLockKey (lk_Key lk) (lk_LockID lk) b.

Definition FormatLockKey (k : string) : string := String.append "lock:" k.
Definition CreateLockKeysForIDs (keys : list (string * UUID)) : list LockKey :=
  (λ '(k, id), mkLockKey (FormatLockKey k) id false) <$> keys.

Definition minute : Z := 60 * 10 ^ 9.

(** The order of [slices.SortFunc], which may arrange equal keys otherwise. *)
Definition key_le (a b : LockKey) : Prop := String.leb (lk_Key a) (lk_Key b) = true.
#[global] Instance key_le_dec : RelDecision key_le.
Proof. intros a b. unfold key_le. apply _. Defined.

Fixpoint rollback (acquired : list LockKey) : prog () :=
  match acquired with
  | [] => mret ()
  | lk :: acquired =>
      Load (lk_Key lk) (λ r,
        match r with
        | Some v =>
            if decide (li_lockID v = lk_LockID lk)
            then CompareAndDelete (lk_Key lk) v (λ _, rollback acquired)
            else rollback acquired
        | None => rollback acquired
        end)
  end.

(** The keys that were visited, each with whether this call acquired it; the
    result has the keys with their flags. *)
Definition acquired_keys (seen : list (LockKey * bool)) : list LockKey :=
  fst <$> filter (λ '(_, b), b = true) seen.
Definition refused_keys (seen : list (LockKey * bool)) (rest : list LockKey) : list LockKey :=
  ((λ '(lk, b), if (b : bool) then set_owner false lk else lk) <$> seen) ++ rest.

Fixpoint lock_loop (duration : Z) (seen : list (LockKey * bool)) (lks : list LockKey)
    : prog (bool * UUID * list LockKey) :=
  match lks with
  | [] => mret (true, NilUUID, fst <$> seen)
  | lk :: lks =>
      let acquire := lock_loop duration (seen ++ [(set_owner true lk, true)]) lks in
      let refuse existing :=
        rollback (acquired_keys seen);; mret (false, li_lockID existing, refused_keys seen (lk :: lks)) in
      Now (λ now,
        let newItem := mkLockItem (lk_LockID lk) (now + duration) in
        LoadOrStore (lk_Key lk) newItem (λ '(existing, loaded),
          if (loaded : bool) then
            Now (λ now,
              if (li_expiration existing <? now)%Z
              then CompareAndSwap (lk_Key lk) existing newItem (λ ok,
                     if (ok : bool) then acquire else refuse existing)
              else if decide (li_lockID existing = lk_LockID lk)
              then lock_loop duration (seen ++ [(set_owner true lk, false)]) lks
              else refuse existing)
          else acquire))
  end.

Definition Lock (duration : Z) (lockKeys : list LockKey) : prog (bool * UUID * list LockKey) :=
  let duration := if (duration <=? 0)%Z then (15 * minute)%Z else duration in
  lock_loop duration [] (merge_sort key_le lockKeys).

Fixpoint IsLocked (lockKeys : list LockKey) : prog bool :=
  match lockKeys with
  | [] => mret true
  | lk :: lks =>
      Load (lk_Key lk) (λ r,
        match r with
        | None => mret false
        | Some item =>
            if decide (li_lockID item ≠ lk_LockID lk) then mret false
            else Now (λ now, if (li_expiration item <? now)%Z then mret false else IsLocked lks)
        end)
  end.

Definition DualLock (duration : Z) (lockKeys : list LockKey) : prog (bool * UUID * list LockKey) :=
  '(ok, owner, lks) ← Lock duration lockKeys;
  if negb ok then mret (ok, owner, lks)
  else
    isLocked ← IsLocked lks;
    mret (isLocked, NilUUID, lks).

Fixpoint IsLockedByOthers (names : list string) : prog bool :=
  match names with
  | [] => mret false
  | key :: names =>
      Load key (λ r,
        match r with
        | Some item => Now (λ now, if (li_expiration item <? now)%Z then IsLockedByOthers names else mret true)
        | None => IsLockedByOthers names
        end)
  end.

Fixpoint Unlock (lockKeys : list LockKey) : prog () :=
  match lockKeys with
  | [] => mret ()
  | lk :: lks =>
      Load (lk_Key lk) (λ r,
        match r with
        | Some item =>
            if decide (li_lockID item = lk_LockID lk)
            then CompareAndDelete (lk_Key lk) item (λ _, Unlock lks)
            else Unlock lks
        | None => Unlock lks
        end)
  end.

(** The check of [IsLockedTTL], then the refresh; [tries] bounds the turns of the
    loop that retries a swap, and [None] says that they were not enough. *)
Fixpoint ttl_check (lockKeys : list LockKey) : prog bool :=
  match lockKeys with
  | [] => mret true
  | lk :: lks =>
      Load (lk_Key lk) (λ r,
        match r with
        | None => mret false
        | Some item =>
            if decide (li_lockID item ≠ lk_LockID lk) then mret false
            else Now (λ now,
              if (li_expiration item <? now)%Z then CompareAndDelete (lk_Key lk) item (λ _, mret false)
              else ttl_check lks)
        end)
  end.

Fixpoint swap_loop (tries : nat) (newExp : Z) (lk : LockKey) : prog (option bool) :=
  match tries with
  | O => mret None
  | S tries =>
      Load (lk_Key lk) (λ r,
        match r with
        | None => mret (Some false)
        | Some item =>
            if decide (li_lockID item ≠ lk_LockID lk) then mret (Some false)
            else CompareAndSwap (lk_Key lk) item (mkLockItem (li_lockID item) newExp) (λ ok,
                   if (ok : bool) then mret (Some true) else swap_loop tries newExp lk)
        end)
  end.

Fixpoint ttl_refresh (tries : nat) (newExp : Z) (lockKeys : list LockKey) : prog (option bool) :=
  match lockKeys with
  | [] => mret (Some true)
  | lk :: lks =>
      r ← swap_loop tries newExp lk;
      match r with Some true => ttl_refresh tries newExp lks | r => mret r end
  end.

Definition IsLockedTTL (tries : nat) (duration : Z) (lockKeys : list LockKey) : prog (option bool) :=
  ok ← ttl_check lockKeys;
  if negb ok then mret (Some false)
  else Now (λ now, ttl_refresh tries (now + duration) lockKeys).

(** ** Interleavings *)

Record world := mkWorld {
  w_locks : gmap string lockItem;
  w_now : Z;
}.

Section system.
Context (maxItemsPerShard : nat).

(** One operation of a program: the clock only moves forwards, and a shard is
    ranged over in any order. *)
Inductive step1 {A} : prog A → world → prog A → world → Prop :=
| st_load key k locks now :
    step1 (Load key k) (mkWorld locks now) (k (locks !! key)) (mkWorld locks now)
| st_load_or_store key value k visited r locks locks' now :
    range_order (shard_items locks key) visited →
    loadOrStore maxItemsPerShard visited key value locks = (r, locks') →
    step1 (LoadOrStore key value k) (mkWorld locks now) (k r) (mkWorld locks' now)
| st_cas key old new k ok locks locks' now :
    compareAndSwap key old new locks = (ok, locks') →
    step1 (CompareAndSwap key old new k) (mkWorld locks now) (k ok) (mkWorld locks' now)
| st_cad key old k ok locks locks' now :
    compareAndDelete key old locks = (ok, locks') →
    step1 (CompareAndDelete key old k) (mkWorld locks now) (k ok) (mkWorld locks' now)
| st_now k t locks now : (now ≤ t)%Z →
    step1 (Now k) (mkWorld locks now) (k t) (mkWorld locks t).

(** The calls of the cache, and what they answer. *)
Inductive call :=
| CLock (duration : Z) (lks : list LockKey)
| CDualLock (duration : Z) (lks : list LockKey)
| CIsLocked (lks : list LockKey)
| CIsLockedTTL (tries : nat) (duration : Z) (lks : list LockKey)
| CUnlock (lks : list LockKey)
| CIsLockedByOthers (names : list string).

(** Whether the caller is told that it has the locks it asked for. *)
Definition call_prog (c : call) : prog bool :=
  match c with
  | CLock d lks => r ← Lock d lks; mret r.1.1
  | CDualLock d lks => r ← DualLock d lks; mret r.1.1
  | CIsLocked lks => IsLocked lks
  | CIsLockedTTL tries d lks => r ← IsLockedTTL tries d lks; mret (bool_decide (r = Some true))
  | CUnlock lks => Unlock lks;; mret false
  | CIsLockedByOthers names => IsLockedByOthers names;; mret false
  end.
Definition call_keys (c : call) : list LockKey :=
  match c with
  | CLock _ lks | CDualLock _ lks | CIsLocked lks | CIsLockedTTL _ _ lks | CUnlock lks => lks
  | CIsLockedByOthers _ => []
  end.
Definition asks (k : string) (c : call) : Prop :=
  match c with CUnlock _ => False | _ => k ∈ lk_Key <$> call_keys c end.

Definition state : Type := list (prog bool) * world.

Inductive step : state → state → Prop :=
| sys_step i p p' ts w w' : ts !! i = Some p → step1 p w p' w' → step (ts, w) (<[i := p']> ts, w').

(** The shard of the key has room, so that nothing is evicted from it. *)
Definition room (k : string) (w : world) : Prop := size (shard_items (w_locks w) k) < maxItemsPerShard.
Definition step_with_room (k : string) (s s' : state) : Prop := step s s' ∧ room k s.2.

(** ** Programs that respect a lock *)

Section held.
Context (k : string) (it : lockItem).
Implicit Types (w : world) (a : UUID).

Definition held w : Prop := w_locks w !! k = Some it.

(** A program that never changes the entry of [k] as long as it is [it] and has not
    expired, and whose result then satisfies [Q]. *)
Fixpoint safe {A} (Q : A → Prop) (p : prog A) : Prop :=
  match p with
  | Done r => Q r
  | Load key c => ∀ o, (key = k → o = Some it) → safe Q (c o)
  | LoadOrStore key v c => ∀ x loaded, (key = k → x = it ∧ loaded = true) → safe Q (c (x, loaded))
  | CompareAndSwap key old new c => (key = k → old ≠ it) ∧ ∀ ok, safe Q (c ok)
  | CompareAndDelete key old c => (key = k → old ≠ it) ∧ ∀ ok, safe Q (c ok)
  | Now c => ∀ t, (t ≤ li_expiration it)%Z → safe Q (c t)
  end.

Lemma safe_bind {A B} (Q : B → Prop) (m : prog A) (f : A → prog B) :
  safe (λ x, safe Q (f x)) m → safe Q (m ≫= f).
Proof. unfold mbind, prog_mbind. induction m; cbn [safe prog_bind]; naive_solver. Qed.

Lemma safe_mono {A} (Q Q' : A → Prop) (m : prog A) : (∀ x, Q x → Q' x) → safe Q m → safe Q' m.
Proof. intros HQ. induction m; cbn [safe]; naive_solver. Qed.

Lemma victim_in visited key : victim visited = Some key → key ∈ visited.*1.
Proof.
  unfold victim. intros (r & He & ->)%fmap_Some.
  enough (Hs : ∀ l best, earliest best l = Some r → best = Some r ∨ r.1 ∈ l.*1).
  { apply Hs in He as [|Hin]; [done|]. rewrite <- (take_drop sampleSize visited), fmap_app. apply elem_of_app. by left. }
  clear. induction l as [|[q v] l IH]; cbn [earliest]; intros best He; [by left|].
  apply IH in He as [He|He]; [|right; by right]. destruct best as [[b m]|].
  - case_match; [|by left]. simplify_eq. right. by left.
  - simplify_eq. right. by left.
Qed.

Lemma loadOrStore_held visited key value locks r locks' now : held (mkWorld locks now) →
  size (shard_items locks k) < maxItemsPerShard → range_order (shard_items locks key) visited →
  loadOrStore maxItemsPerShard visited key value locks = (r, locks') →
  held (mkWorld locks' now) ∧ (key = k → r = (it, true)).
Proof.
  unfold held. cbn. intros Hh Hroom Hv. unfold loadOrStore.
  destruct (locks !! key) as [x|] eqn:Ek; intros [= <- <-]; [split; [done|intros ->; by simplify_eq]|].
  assert (Hne : key ≠ k) by (intros ->; congruence). split; [|done]. rewrite lookup_insert_ne by done.
  case_decide as Hfull; [|done]. destruct (victim visited) as [q|] eqn:Eq; [|done].
  rewrite lookup_delete_ne; [done|]. intros ->. apply victim_in, list_elem_of_fmap in Eq as ([q x] & -> & Hin).
  apply (range_order_elem _ _ _ _ Hv) in Hin. unfold shard_items in Hin. apply map_lookup_filter_Some in Hin as [_ Hsh].
  unfold shard_items in *. cbn in *. rewrite Hsh in Hroom. lia.
Qed.

Lemma safe_step {A} (Q : A → Prop) p w p' w' : safe Q p → step1 p w p' w' → held w → room k w →
  (w_now w' ≤ li_expiration it)%Z → safe Q p' ∧ held w'.
Proof.
  intros Hs Hst Hh Hroom Hexp. unfold room in Hroom. destruct Hst; cbn [safe w_locks w_now] in *.
  - split; [|done]. apply Hs. intros ->. exact Hh.
  - destruct r as [x loaded]. destruct (loadOrStore_held _ _ _ _ _ _ now Hh Hroom H H0) as [Hh' Hr].
    split; [|done]. apply Hs. intros He. by specialize (Hr He) as [= -> ->].
  - destruct Hs as [Hne Hs]. split; [apply Hs|]. unfold compareAndSwap in H. unfold held in *. cbn in *.
    case_decide as Ho; simplify_eq; [|done]. destruct (decide (key = k)) as [->|Hk].
    + exfalso. apply (Hne eq_refl). congruence.
    + cbn. by rewrite lookup_insert_ne.
  - destruct Hs as [Hne Hs]. split; [apply Hs|]. unfold compareAndDelete in H. unfold held in *. cbn in *.
    case_decide as Ho; simplify_eq; [|done]. destruct (decide (key = k)) as [->|Hk].
    + exfalso. apply (Hne eq_refl). congruence.
    + cbn. by rewrite lookup_delete_ne.
  - split; [by apply Hs|done].
Qed.

Definition others (lks : list LockKey) : Prop := Forall (λ lk, lk_LockID lk ≠ li_lockID it) lks.

Lemma rollback_safe (Q : () → Prop) acquired : others acquired → Q () → safe Q (rollback acquired).
Proof.
  intros Ho HQ. induction Ho as [|lk acquired Hlk _ IH]; cbn [rollback safe]; [done|]. intros [v|] Hv; [|done].
  case_decide as Hid; [|done]. cbn [safe]. split; [|done]. intros Hk ->. by specialize (Hv Hk).
Qed.

Lemma others_acquired seen : others (fst <$> seen) → others (acquired_keys seen).
Proof.
  unfold others, acquired_keys. rewrite !Forall_fmap, !Forall_forall. intros Hs x [_ Hx]%list_elem_of_filter. by apply Hs.
Qed.

Lemma others_refused seen rest : others (fst <$> seen) → others rest → others (refused_keys seen rest).
Proof.
  unfold others, refused_keys. intros Hs Hr. apply Forall_app. split; [|done]. rewrite !Forall_fmap in *.
  eapply Forall_impl; [exact Hs|]. by intros [lk []].
Qed.

Lemma lock_loop_safe duration lks : others lks → ∀ seen, others (fst <$> seen) →
  safe (λ r, (k ∈ lk_Key <$> lks → r.1.1 = false) ∧ others r.2) (lock_loop duration seen lks).
Proof.
  induction 1 as [|lk lks Hlk Hlks IH]; intros seen Hseen; cbn [lock_loop safe].
  { split; [by intros ?%not_elem_of_nil|done]. }
  assert (Hgo : lk_Key lk ≠ k → ∀ b, safe (λ r, (k ∈ lk_Key <$> (lk :: lks) → r.1.1 = false) ∧ others r.2)
    (lock_loop duration (seen ++ [(set_owner true lk, b)]) lks)).
  { intros Hne b. eapply safe_mono; [|apply IH].
    - intros r [Hr Hor]. split; [|done]. intros [Hk|Hk]%elem_of_cons; [by destruct Hne|by apply Hr].
    - unfold others. rewrite fmap_app, Forall_app. split; [done|]. by repeat constructor. }
  assert (Hno : ∀ e, safe (λ r, (k ∈ lk_Key <$> (lk :: lks) → r.1.1 = false) ∧ others r.2)
    (rollback (acquired_keys seen);; mret (false, li_lockID e, refused_keys seen (lk :: lks)))).
  { intros e. apply safe_bind, rollback_safe; [by apply others_acquired|]. cbn. split; [done|].
    apply others_refused; [done|by constructor]. }
  intros now Hnow x loaded Hx. destruct (decide (lk_Key lk = k)) as [Hk|Hk].
  - destruct (Hx Hk) as [-> ->]. cbn [safe]. intros t Ht.
    destruct (Z.ltb_spec (li_expiration it) t); [lia|]. rewrite decide_False by auto. apply Hno.
  - destruct loaded; cbn [safe]; [|by apply Hgo]. intros t Ht.
    case_match; [split; [done|intros []; [by apply Hgo|apply Hno]]|].
    case_decide; [by apply Hgo|apply Hno].
Qed.

Lemma sorted_elem lks : k ∈ lk_Key <$> lks ↔ k ∈ lk_Key <$> merge_sort key_le lks.
Proof. by rewrite (merge_sort_Permutation key_le lks). Qed.

Lemma Lock_safe duration lks : others lks → safe (λ r, (k ∈ lk_Key <$> lks → r.1.1 = false) ∧ others r.2) (Lock duration lks).
Proof.
  intros Ho. eapply safe_mono; [|apply lock_loop_safe; [|constructor]].
  - intros r [Hr Hor]. split; [|done]. intros Hk. apply Hr. by rewrite <- sorted_elem.
  - unfold others. by rewrite (merge_sort_Permutation key_le lks).
Qed.

Lemma IsLocked_safe lks : others lks → safe (λ r, k ∈ lk_Key <$> lks → r = false) (IsLocked lks).
Proof.
  induction 1 as [|lk lks Hlk _ IH]; cbn [IsLocked safe]; [by intros ?%not_elem_of_nil|].
  intros [x|] Hx; [|done]. case_decide as Hid; [done|]. cbn [safe]. intros t Ht. case_match; [done|].
  eapply safe_mono; [|exact IH]. intros r Hr [Hk|Hk]%elem_of_cons; [|by apply Hr].
  specialize (Hx (eq_sym Hk)) as [= ->]. congruence.
Qed.

Lemma ttl_check_safe lks : others lks → safe (λ r, k ∈ lk_Key <$> lks → r = false) (ttl_check lks).
Proof.
  induction 1 as [|lk lks Hlk _ IH]; cbn [ttl_check safe]; [by intros ?%not_elem_of_nil|].
  intros [x|] Hx; [|done]. case_decide as Hid; [done|].
  assert (Hne : lk_Key lk ≠ k) by (intros Hk; specialize (Hx Hk); congruence).
  cbn [safe]. intros t Ht. case_match; [split; done|].
  eapply safe_mono; [|exact IH]. intros r Hr [Hk|Hk]%elem_of_cons; [by destruct Hne|by apply Hr].
Qed.

Lemma ttl_refresh_safe tries newExp lks : others lks → safe (λ _, True) (ttl_refresh tries newExp lks).
Proof.
  induction 1 as [|lk lks Hlk _ IH]; cbn [ttl_refresh]; [done|]. apply safe_bind.
  eapply safe_mono with (Q := λ _, True); [intros [[]|] _; [exact IH|done|done]|].
  clear IH. induction tries as [|tries IHt]; cbn [swap_loop safe]; [done|]. intros [x|] Hx; [|done].
  case_decide as Hid; [done|]. cbn [safe]. split; [|intros []; [exact I|exact IHt]].
  intros Hk ->. specialize (Hx Hk). congruence.
Qed.

Lemma Unlock_safe (Q : () → Prop) lks : others lks → Q () → safe Q (Unlock lks).
Proof.
  intros Ho HQ. induction Ho as [|lk lks Hlk _ IH]; cbn [Unlock safe]; [done|]. intros [x|] Hx; [|done].
  case_decide as Hid; [|done]. cbn [safe]. split; [|done]. intros Hk ->. by specialize (Hx Hk).
Qed.

Lemma IsLockedByOthers_safe names : safe (λ _, True) (IsLockedByOthers names).
Proof.
  induction names as [|key names IH]; cbn [IsLockedByOthers safe]; [done|]. intros [x|] Hx; [|done].
  cbn [safe]. intros t Ht. by case_match.
Qed.

(** No call of another owner is told that it has the lock. *)
Lemma call_safe c : others (call_keys c) → safe (λ r, asks k c → r = false) (call_prog c).
Proof.
  destruct c as [d lks|d lks|lks|tries d lks|lks|names]; cbn [call_keys asks call_prog]; intros Ho.
  - apply safe_bind. eapply safe_mono; [|by apply Lock_safe]. by intros r [Hr _].
  - apply safe_bind. unfold DualLock. apply safe_bind. eapply safe_mono; [|by apply Lock_safe].
    intros [[ok owner] lks'] [Hok Ho']. cbn in Hok, Ho'. destruct ok; cbn [negb safe]; [|done].
    apply safe_bind. eapply safe_mono; [|by apply IsLocked_safe]. intros b _. cbn. intros Hk. by specialize (Hok Hk).
  - by apply IsLocked_safe.
  - apply safe_bind. unfold IsLockedTTL. apply safe_bind. eapply safe_mono; [|by apply ttl_check_safe].
    intros b Hb. destruct b; cbn [negb safe]; [|done]. intros t Ht.
    eapply safe_mono; [|by apply (ttl_refresh_safe tries _ lks)]. intros r _. cbn. intros Hk. by specialize (Hb Hk).
  - apply safe_bind, Unlock_safe; [done|]. by cbn.
  - apply safe_bind. eapply safe_mono; [|apply IsLockedByOthers_safe]. by cbn.
Qed.
End held.

Lemma step1_now {A} (p p' : prog A) w w' : step1 p w p' w' → (w_now w ≤ w_now w')%Z.
Proof. destruct 1; cbn; lia. Qed.

(** C27: mutual exclusion.  While the entry of a key has not expired and its shard
    has room, it stays as it is under any interleaving of any calls whose lock IDs
    are not its owner's, and none of these calls that asks for the key, to lock it,
    to check it or to refresh it, is told that it has it. *)
Theorem held_lock_excludes k it calls w ts' w' :
  w_locks w !! k = Some it →
  Forall (λ c, Forall (λ lk, lk_LockID lk ≠ li_lockID it) (call_keys c)) calls →
  rtc (step_with_room k) (call_prog <$> calls, w) (ts', w') → (w_now w' ≤ li_expiration it)%Z →
  w_locks w' !! k = Some it ∧
  ∀ i c r, calls !! i = Some c → ts' !! i = Some (Done r) → asks k c → r = false.
Proof.
  intros Hk Ho Hrun Hexp.
  set (Inv := λ s : state, held k it s.2 ∧ Forall2 (λ c p, safe k it (λ r, asks k c → r = false) p) calls s.1).
  assert (Hinv : Inv (ts', w')).
  { refine (rtc_ind_r (λ s, (w_now s.2 ≤ li_expiration it)%Z → Inv s) _ _ _ _ Hrun Hexp).
    - intros _. split; [done|]. apply Forall2_fmap_r, Forall_Forall2_diag. eapply Forall_impl; [exact Ho|].
      intros c Hc. by apply call_safe.
    - intros s2 s3 _ [Hst Hroom] IH Hlt. destruct Hst as [i p p' ts w1 w2 Hi Hst]. cbn in Hlt.
      destruct IH as [Hh Hs]; [cbn; apply step1_now in Hst; lia|]. cbn in Hh, Hs, Hroom.
      destruct (Forall2_lookup_r _ _ _ _ _ Hs Hi) as (c & Hc & Hsafe).
      destruct (safe_step k it _ p w1 p' w2 Hsafe Hst Hh Hroom Hlt) as [Hsafe' Hh'].
      split; [done|]. cbn. rewrite <- (list_insert_id calls i c Hc). by apply Forall2_insert. }
  destruct Hinv as [Hh Hs]. split; [done|]. intros i c r Hc Hr Hask.
  exact (Forall2_lookup_lr _ _ _ _ _ _ Hs Hc Hr Hask).
Qed.

(** A call with the clock at [t] and nobody else. *)
Fixpoint solo {A} (t : Z) (p : prog A) (locks : gmap string lockItem) : A * gmap string lockItem :=
  match p with
  | Done r => (r, locks)
  | Load key k => solo t (k (locks !! key)) locks
  | LoadOrStore key v k =>
      let '(r, locks) := loadOrStore maxItemsPerShard (map_to_list (shard_items locks key)) key v locks in
      solo t (k r) locks
  | CompareAndSwap key o n k => let '(ok, locks) := compareAndSwap key o n locks in solo t (k ok) locks
  | CompareAndDelete key o k => let '(ok, locks) := compareAndDelete key o locks in solo t (k ok) locks
  | Now k => solo t (k t) locks
  end.

Lemma solo_bind {A B} t (m : prog A) (f : A → prog B) : ∀ locks,
  solo t (m ≫= f) locks = (let '(x, locks) := solo t m locks in solo t (f x) locks).
Proof.
  unfold mbind, prog_mbind.
  induction m as [r|key c IH|key v c IH|key o n c IH|key o c IH|c IH]; intros locks; cbn [solo prog_bind]; auto.
  - destruct (loadOrStore _ _ key v locks) as [r locks']. apply IH.
  - destruct (compareAndSwap key o n locks) as [r locks']. apply IH.
  - destruct (compareAndDelete key o locks) as [r locks']. apply IH.
Qed.

(** ** A call alone *)

Section alone.
Context (t : Z) (locks0 : gmap string lockItem).
Implicit Types (locks : gmap string lockItem) (seen : list (LockKey * bool)).

Definition free (o : option lockItem) : Prop :=
  match o with None => True | Some x => (li_expiration x < t)%Z end.
Definition owned locks (lk : LockKey) : Prop :=
  ∃ e, locks !! lk_Key lk = Some (mkLockItem (lk_LockID lk) e) ∧ (t ≤ e)%Z.

(** The keys taken so far, and the entries of all the other names. *)
Definition taking seen locks : Prop :=
  (∀ lk b, (lk, b) ∈ seen → owned locks lk ∧ if (b : bool) then free (locks0 !! lk_Key lk) else owned locks0 lk) ∧
  (∀ k, k ∉ lk_Key <$> acquired_keys seen → locks !! k = locks0 !! k) ∧
  size locks ≤ size locks0 + length seen.

Lemma acquired_snoc seen lk b :
  acquired_keys (seen ++ [(lk, b)]) = acquired_keys seen ++ (if (b : bool) then [lk] else []).
Proof. unfold acquired_keys. rewrite filter_app, fmap_app. by destruct b. Qed.

Lemma acquired_sub seen k : k ∈ lk_Key <$> acquired_keys seen → k ∈ lk_Key <$> seen.*1.
Proof.
  unfold acquired_keys. intros (lk & -> & ([lk' b] & -> & [_ Hin]%list_elem_of_filter)%list_elem_of_fmap)%list_elem_of_fmap.
  by apply list_elem_of_fmap_2, (list_elem_of_fmap_2 fst _ (lk', b)).
Qed.

Lemma size_insert_le {V} (m : gmap string V) k v : size (<[k := v]> m) ≤ S (size m).
Proof. rewrite map_size_insert. destruct (m !! k); cbn; lia. Qed.

Lemma taking_put seen locks lk e : taking seen locks → lk_Key lk ∉ lk_Key <$> seen.*1 →
  free (locks0 !! lk_Key lk) → (t ≤ e)%Z →
  taking (seen ++ [(set_owner true lk, true)]) (<[lk_Key lk := mkLockItem (lk_LockID lk) e]> locks).
Proof.
  intros (Hs & Ho & Hz) Hnin Hf He. split; [|split].
  - intros lk' b [Hin|[= -> ->]%list_elem_of_singleton]%elem_of_app.
    + destruct (Hs lk' b Hin) as [(e' & Hl & He') Hb]. split; [|done]. exists e'. split; [|done].
      rewrite lookup_insert_ne; [done|]. intros Heq. apply Hnin. rewrite Heq.
      by apply list_elem_of_fmap_2, (list_elem_of_fmap_2 fst _ (lk', b)).
    + split; [|done]. exists e. cbn. by rewrite lookup_insert_eq.
  - intros k Hk. rewrite acquired_snoc, fmap_app, not_elem_of_app in Hk. destruct Hk as [Hk Hk2].
    rewrite lookup_insert_ne; [by apply Ho|]. intros <-. apply Hk2. by left.
  - rewrite length_app. cbn [length]. pose proof (size_insert_le locks (lk_Key lk) (mkLockItem (lk_LockID lk) e)). lia.
Qed.

Lemma taking_keep seen locks lk e : taking seen locks → locks0 !! lk_Key lk = locks !! lk_Key lk → locks !! lk_Key lk = Some (mkLockItem (lk_LockID lk) e) →
  (t ≤ e)%Z → taking (seen ++ [(set_owner true lk, false)]) locks.
Proof.
  intros (Hs & Ho & Hz) H0 Hl He. split; [|split].
  - intros lk' b [Hin|[= -> ->]%list_elem_of_singleton]%elem_of_app; [by apply Hs|].
    split; exists e; [done|]. cbn. by rewrite H0.
  - intros k. rewrite acquired_snoc, app_nil_r. apply Ho.
  - rewrite length_app. lia.
Qed.

Lemma run_rollback acquired : ∀ locks, Forall (owned locks) acquired → NoDup (lk_Key <$> acquired) →
  ∃ locks', solo t (rollback acquired) locks = ((), locks') ∧
    ∀ k, locks' !! k = if decide (k ∈ lk_Key <$> acquired) then None else locks !! k.
Proof.
  induction acquired as [|lk acquired IH]; intros locks Hown Hnd; cbn [rollback].
  - exists locks. split; [done|]. intros k. rewrite decide_False by apply not_elem_of_nil. done.
  - apply Forall_cons in Hown as [(e & Hl & He) Hown]. rewrite fmap_cons in *. apply NoDup_cons in Hnd as [Hnin Hnd].
    cbn [solo]. rewrite Hl. cbn [li_lockID]. rewrite decide_True by done. cbn [solo].
    unfold compareAndDelete. rewrite decide_True by done.
    destruct (IH (delete (lk_Key lk) locks)) as (locks' & Hrun & Hl'); [|done|].
    { apply Forall_forall. intros lk' Hin. rewrite Forall_forall in Hown. destruct (Hown lk' Hin) as (e' & Hl' & He').
      exists e'. rewrite lookup_delete_ne; [done|]. intros Heq. apply Hnin. rewrite Heq. by apply list_elem_of_fmap_2. }
    exists locks'. split; [done|]. intros k. rewrite Hl'. destruct (decide (k = lk_Key lk)) as [->|Hne].
    + rewrite (decide_True (P := _ ∈ _ :: _)) by left. rewrite decide_False by done. by rewrite lookup_delete_eq.
    + destruct (decide (k ∈ lk_Key <$> acquired)).
      * by rewrite decide_True by by right.
      * rewrite decide_False by (by rewrite not_elem_of_cons). by rewrite lookup_delete_ne.
Qed.

(** What the outcome of [Lock] says of the entries before and after. *)
Definition lock_outcome (lks : list LockKey) (ok : bool) (owner : UUID) locks : Prop :=
  if ok then Forall (owned locks) lks ∧ Forall (λ lk, free (locks0 !! lk_Key lk) ∨ owned locks0 lk) lks ∧
       ∀ k, k ∉ lk_Key <$> lks → locks !! k = locks0 !! k
  else (∃ lk e, lk ∈ lks ∧ locks0 !! lk_Key lk = Some (mkLockItem owner e) ∧ owner ≠ lk_LockID lk ∧ (t ≤ e)%Z) ∧
       ∀ k, locks !! k = locks0 !! k ∨ locks !! k = None ∧ free (locks0 !! k).

Lemma acquired_nodup seen : NoDup (lk_Key <$> seen.*1) → NoDup (lk_Key <$> acquired_keys seen).
Proof.
  induction seen as [|[lk b] seen IH]; [done|]. rewrite !fmap_cons. intros [Hnin Hnd]%NoDup_cons.
  unfold acquired_keys. rewrite filter_cons. case_decide; [|by apply IH]. rewrite !fmap_cons. apply NoDup_cons.
  split; [|by apply IH]. intros Hin. by apply Hnin, acquired_sub.
Qed.

Lemma size_shard_items locks key : size (shard_items locks key) ≤ size locks.
Proof. unfold shard_items. apply map_size_filter. Qed.

(** The owner flag of a key plays no part in it. *)
Lemma lock_outcome_owner l1 lk l2 b ok owner locks : lock_outcome (l1 ++ set_owner b lk :: l2) ok owner locks →
  lock_outcome (l1 ++ lk :: l2) ok owner locks.
Proof.
  destruct ok; cbn [lock_outcome].
  - rewrite !Forall_app, !Forall_cons, !fmap_app, !fmap_cons. done.
  - intros [(lk' & e & Hin & Hrest) Hk]. split; [|done].
    apply elem_of_app in Hin as [Hin|[->|Hin]%elem_of_cons];
      [exists lk', e|exists lk, e|exists lk', e]; (split; [|done]); apply elem_of_app; rewrite elem_of_cons; auto.
Qed.

Lemma taking_refuse seen locks lk lks x : taking seen locks → NoDup (lk_Key <$> seen.*1) →
  locks0 !! lk_Key lk = Some x → li_lockID x ≠ lk_LockID lk → (t ≤ li_expiration x)%Z →
  ∃ lks' locks', solo t (rollback (acquired_keys seen);; mret (false, li_lockID x, refused_keys seen (lk :: lks))) locks =
      ((false, li_lockID x, lks'), locks') ∧ lock_outcome (seen.*1 ++ lk :: lks) false (li_lockID x) locks'.
Proof.
  intros (Hs & Ho & Hz) Hnd Hl Hne He.
  destruct (run_rollback (acquired_keys seen) locks) as (locks' & Hrun & Hl').
  { apply Forall_forall. intros lk' ([lk2 b] & -> & [_ Hin]%list_elem_of_filter)%list_elem_of_fmap. by apply (Hs lk2 b). }
  { by apply acquired_nodup. }
  eexists _, locks'. split; [rewrite solo_bind, Hrun; reflexivity|]. split.
  - exists lk, (li_expiration x). split; [apply elem_of_app; right; left|]. by destruct x.
  - intros k. rewrite Hl'. case_decide as Hin; [right; split; [done|]|left; by apply Ho].
    apply list_elem_of_fmap in Hin as (lk' & -> & ([lk2 b] & -> & [Hb Hin]%list_elem_of_filter)%list_elem_of_fmap).
    subst b. by apply (Hs lk2 true Hin).
Qed.

Lemma run_lock_loop duration lks : (0 < duration)%Z → ∀ seen locks, taking seen locks →
  NoDup (lk_Key <$> (seen.*1 ++ lks)) → size locks0 + length seen + length lks < maxItemsPerShard →
  ∃ ok owner lks' locks', solo t (lock_loop duration seen lks) locks = ((ok, owner, lks'), locks') ∧
    lock_outcome (seen.*1 ++ lks) ok owner locks'.
Proof.
  intros Hd. induction lks as [|lk lks IH]; intros seen locks Ht Hnd Hsz; cbn [lock_loop].
  { eexists true, NilUUID, _, locks. split; [reflexivity|]. rewrite app_nil_r. destruct Ht as (Hs & Ho & _). split; [|split].
    - apply Forall_forall. intros lk ([lk' b] & -> & Hin)%list_elem_of_fmap. by apply (Hs lk' b).
    - apply Forall_forall. intros lk ([lk' b] & -> & Hin)%list_elem_of_fmap.
      destruct (Hs lk' b Hin) as [_ Hb]. destruct b; [by left|by right].
    - intros k Hk. apply Ho. intros Hin. by apply Hk, acquired_sub. }
  assert (Hmid : lk_Key lk ∉ lk_Key <$> seen.*1 ∧ NoDup (lk_Key <$> seen.*1)).
  { rewrite fmap_app, fmap_cons in Hnd. apply NoDup_app in Hnd as (Hnd & Hdis & _). split; [|done].
    intros Hin. apply (Hdis _ Hin). by left. }
  destruct Hmid as [Hnin Hnds].
  assert (H0 : locks0 !! lk_Key lk = locks !! lk_Key lk).
  { destruct Ht as (_ & Ho & _). symmetry. apply Ho. by intros ?%acquired_sub. }
  assert (Hgo : ∀ b locks', taking (seen ++ [(set_owner true lk, b)]) locks' →
    ∃ ok owner lks' locks'', solo t (lock_loop duration (seen ++ [(set_owner true lk, b)]) lks) locks' =
      ((ok, owner, lks'), locks'') ∧ lock_outcome (seen.*1 ++ lk :: lks) ok owner locks'').
  { intros b locks' Ht'. destruct (IH _ _ Ht') as (ok & owner & lks' & locks'' & Hrun & Hout).
    - rewrite (fmap_app fst), <- app_assoc, fmap_app. rewrite fmap_app in Hnd. exact Hnd.
    - rewrite length_app. cbn [length] in *. lia.
    - exists ok, owner, lks', locks''. split; [done|]. rewrite (fmap_app fst), <- app_assoc in Hout.
      eapply lock_outcome_owner; exact Hout. }
  cbn [solo]. unfold loadOrStore. destruct (locks !! lk_Key lk) as [x|] eqn:El.
  - cbn [solo]. destruct (Z.ltb_spec (li_expiration x) t) as [Hexp|Hexp].
    + cbn [solo]. unfold compareAndSwap. rewrite decide_True by done.
      apply Hgo, taking_put; [done..| |lia]. by rewrite H0.
    + case_decide as Hid.
      * apply Hgo, (taking_keep seen locks lk (li_expiration x)); [done|by rewrite El| |done].
        rewrite El. f_equal. destruct x. cbn in Hid. by subst.
      * destruct (taking_refuse seen locks lk lks x) as (lks' & locks' & Hrun & Hout); [done..|].
        by exists false, (li_lockID x), lks', locks'.
  - rewrite decide_False.
    + cbn [solo]. apply Hgo, taking_put; [done..| |lia]. by rewrite H0.
    + destruct Ht as (_ & _ & Hz). cbn [length] in Hsz. pose proof (size_shard_items locks (lk_Key lk)). lia.
Qed.

Lemma lock_outcome_perm l1 l2 ok owner locks : l1 ≡ₚ l2 → lock_outcome l1 ok owner locks → lock_outcome l2 ok owner locks.
Proof.
  intros Hp. destruct ok; cbn [lock_outcome].
  - intros (H1 & H2 & H3). split; [by rewrite <- Hp|]. split; [by rewrite <- Hp|].
    intros k Hk. apply H3. by rewrite Hp.
  - intros [(lk & e & Hin & Hrest) Hk]. split; [|done]. exists lk, e. by rewrite <- Hp.
Qed.
End alone.

(** [Lock] is all or nothing.  Alone and with room in the map, it takes every
    key, each for its lock ID and past the current time, exactly if none is held by
    another lock ID; otherwise it names the owner of such a key and leaves nothing
    behind but the removal of entries that had expired. *)
Theorem Lock_all_or_nothing t duration lks locks :
  NoDup (lk_Key <$> lks) → size locks + length lks < maxItemsPerShard →
  ∃ ok owner lks' locks', solo t (Lock duration lks) locks = ((ok, owner, lks'), locks') ∧
    if ok then Forall (owned t locks') lks ∧ Forall (λ lk, free t (locks !! lk_Key lk) ∨ owned t locks lk) lks ∧
         ∀ k, k ∉ lk_Key <$> lks → locks' !! k = locks !! k
    else (∃ lk e, lk ∈ lks ∧ locks !! lk_Key lk = Some (mkLockItem owner e) ∧ owner ≠ lk_LockID lk ∧ (t ≤ e)%Z) ∧
         ∀ k, locks' !! k = locks !! k ∨ locks' !! k = None ∧ free t (locks !! k).
Proof.
  intros Hnd Hsz. unfold Lock. pose proof (merge_sort_Permutation key_le lks) as Hp.
  set (d := if (duration <=? 0)%Z then (15 * minute)%Z else duration).
  assert (Hd : (0 < d)%Z) by (unfold d, minute; destruct (Z.leb_spec duration 0); lia).
  destruct (run_lock_loop t locks d (merge_sort key_le lks) Hd [] locks) as (ok & owner & lks' & locks' & Hrun & Hout).
  - split; [by intros ? ? ?%not_elem_of_nil|]. split; [done|cbn; lia].
  - cbn. by rewrite Hp.
  - cbn [length]. rewrite Hp. lia.
  - exists ok, owner, lks', locks'. split; [done|]. by apply (lock_outcome_perm t locks (merge_sort key_le lks) lks ok owner locks' Hp) in Hout.
Qed.
End system.

(** ** Instances and a finding *)

Definition ex_key (k : string) (id : UUID) : LockKey := mkLockKey (FormatLockKey k) id false.
Definition ex_held : gmap string lockItem := {[ "lock:9" := mkLockItem 7 100 ]}.

Lemma Lock_all_or_nothing_witness :
  ∃ owner lks' locks', solo 1000 5 (Lock 50 [ex_key "9" 8; ex_key "8" 8]) ex_held = ((false, owner, lks'), locks') ∧
    locks' !! "lock:9" = ex_held !! "lock:9".
Proof.
  destruct (Lock_all_or_nothing 1000 5 50 [ex_key "9" 8; ex_key "8" 8] ex_held) as (ok & owner & lks' & locks' & Hrun & Hout).
  - apply (bool_decide_unpack _). vm_compute. exact I.
  - apply Nat.ltb_lt. vm_compute. reflexivity.
  - assert (ok = false) as -> by (vm_compute in Hrun; congruence).
    exists owner, lks', locks'. split; [done|]. destruct Hout as [_ Hk].
    destruct (Hk "lock:9") as [->|[_ Hf]]; [done|]. vm_compute in Hf. done.
Defined.

(** A refused call on a held key, step by step. *)
Lemma held_lock_excludes_witness :
  ∃ w', rtc (step_with_room 1000 "lock:9") (call_prog <$> [CLock 50 [ex_key "9" 8]], mkWorld ex_held 5)
      ([Done false], w') ∧ w_locks w' !! "lock:9" = Some (mkLockItem 7 100) ∧ false = false.
Proof.
  exists (mkWorld ex_held 6).
  assert (Hroom : ∀ now, room 1000 "lock:9" (mkWorld ex_held now))
    by (intros now; unfold room; apply Nat.ltb_lt; vm_compute; reflexivity).
  assert (Hrun : rtc (step_with_room 1000 "lock:9") (call_prog <$> [CLock 50 [ex_key "9" 8]], mkWorld ex_held 5)
      ([Done false], mkWorld ex_held 6)).
  { eapply rtc_l; [split; [eapply (sys_step _ 0); [reflexivity|apply (st_now _ _ 5); lia]|apply Hroom]|].
    eapply rtc_l; [split; [eapply (sys_step _ 0); [reflexivity|eapply st_load_or_store; [apply range_order_refl|reflexivity]]|apply Hroom]|].
    eapply rtc_l; [split; [eapply (sys_step _ 0); [reflexivity|apply (st_now _ _ 6); lia]|apply Hroom]|].
    apply rtc_refl. }
  split; [exact Hrun|].
  destruct (held_lock_excludes 1000 "lock:9" (mkLockItem 7 100) [CLock 50 [ex_key "9" 8]] (mkWorld ex_held 5)
    [Done false] (mkWorld ex_held 6)) as [Hh Hno]; [reflexivity|by repeat constructor|exact Hrun|cbn; lia|].
  split; [exact Hh|]. apply (Hno 0 (CLock 50 [ex_key "9" 8]) false); [done|done|by left].
Defined.

(** When a shard is full, [loadOrStore] evicts the lock that expires first, held or
    not: with room for one entry, a lock on a second key of the shard takes the
    first away from its owner, and another caller gets it. *)
Example full_shard_drops_held_lock :
  let '(r1, locks1) := solo 1 0 (Lock 100 [ex_key "9" 7]) ∅ in
  let '(r2, locks2) := solo 1 0 (Lock 100 [ex_key "56" 8]) locks1 in
  let '(r3, locks3) := solo 1 0 (Lock 100 [ex_key "9" 9]) locks2 in
  r1.1.1 = true ∧ r2.1.1 = true ∧ r3.1.1 = true ∧ (solo 1 0 (IsLocked [ex_key "9" 7]) locks2).1 = false.
Proof. vm_compute. done. Qed.
