(* ===== verification/TwoPhase.v ===== *)
(** * common/twophasecommittransaction.go: the phases of a commit

    A transaction locks the nodes it changed, stages them through the node repository
    and logs each step (phase 1), then writes the turned handles (phase 2); a failure
    undoes the steps that the log says were done.  The stores below, the locks, the
    logs and the tracked items of the B-trees are interfaces. *)

From stdpp Require Import gmap.
From S2P Require Import Prelude Wp Handle HashmapSpec Stores NodeRepo.

(** ** Data *)

(** The commit functions of transactionlogger.go. *)
Definition unknown : nat := 0.
Definition createStore : nat := 1.
Definition lockTrackedItems_state : nat := 2.
Definition commitTrackedItemsValues_state : nat := 3.
Definition areFetchedItemsIntact_state : nat := 5.
Definition commitUpdatedNodes_state : nat := 6.
Definition commitRemovedNodes_state : nat := 7.
Definition commitAddedNodes_state : nat := 8.
Definition commitStoreInfo : nat := 9.
Definition beforeFinalize : nat := 10.
Definition finalizeCommit : nat := 11.
Definition deleteObsoleteEntries_state : nat := 12.
Definition deleteTrackedItemsValues_state : nat := 13.
Definition addActivelyPersistedItem : nat := 99.

Definition phase1CommitMaxRetryCount : nat := 30.
Definition phase1LockAcquireMaxRetryCount : nat := 300.

Inductive TransactionMode := NoCheck | ForWriting | ForReading.
#[export] Instance TransactionMode_dec : EqDecision TransactionMode.
Proof. solve_decision. Defined.

Inductive actionType := defaultAction | getAction | addAction | updateAction | removeAction.
#[export] Instance actionType_dec : EqDecision actionType.
Proof. solve_decision. Defined.

(** The key of a node's lock, or a lock with a name. *)
Inductive lock_name := NodeKey (id : UUID) | NamedKey (name : string).
#[export] Instance lock_name_dec : EqDecision lock_name.
Proof. solve_decision. Defined.
#[export] Instance lock_name_countable : Countable lock_name.
Proof.
  apply (inj_countable' (λ k, match k with NodeKey id => inl id | NamedKey s => inr s end)
           (λ x, match x with inl id => NodeKey id | inr s => NamedKey s end)). by intros [].
Defined.

Record LockKey := mkLockKey { lk_Key : lock_name; lk_LockID : UUID }.

(** The fields of a [StoreInfo] that a commit uses. *)
Record Store := mkStore {
  s_info : StoreInfo;
  s_Name : string;
  s_RootNodeID : UUID;
  s_Count : Z;
  s_CountDelta : Z;
  s_Timestamp : Z;
  s_IsValueDataGloballyCached : bool;
}.

(** What is logged with a step. *)
Inductive payload :=
| NoPayload
| ValuesPayload (itemsForDelete : list (bool * BlobsPayload UUID))
| NodesPayload (vids : list (RegistryPayload UUID)) (bibs : list (BlobsPayload UUID))
| BlobsIDsPayload (blobsIDs : list (BlobsPayload UUID))
| VidsPayload (vids : list (RegistryPayload UUID))
| StoresPayload (stores : list Store)
| FinalPayload (deletedIDs : list (RegistryPayload UUID)) (unusedNodeIDs : list (BlobsPayload UUID))
    (values : list (bool * BlobsPayload UUID))
| NamePayload (storeName : string)
| ItemsPayload (items : BlobsPayload UUID).

(** ** Interfaces *)

(** [sop.Locker]: the owner that [Lock] also returns is not used in a commit. *)
Class Locker (LS LE : Type) := {
  locks_Lock : Z → list LockKey → M LS LE bool;
  locks_DualLock : Z → list LockKey → M LS LE bool;
  locks_IsLocked : list LockKey → M LS LE bool;
  locks_Unlock : list LockKey → M LS LE ();
}.

(** [sop.TransactionLog] and its [PriorityLog]. *)
Class TransactionLog (TS TE : Type) := {
  tlog_Add : UUID → nat → payload → M TS TE ();
  tlog_Remove : UUID → M TS TE ();
  plog_IsEnabled : TS → bool;
  plog_Add : UUID → list (RegistryPayload Handle) → M TS TE ();
  plog_Remove : UUID → M TS TE ();
  plog_Get : UUID → M TS TE (option (list (RegistryPayload Handle)));
}.

(** [sop.StoreRepository] *)
Class StoreRepository (SS SE : Type) := {
  srepo_Update : list Store → M SS SE (list Store);
  srepo_Remove : string → M SS SE ();
  srepo_Get : string → M SS SE (list Store);
  srepo_Add : Store → M SS SE ();
}.

(** [StoreInfo.IsEmpty] and [IsCompatible] look at fields that a commit does not. *)
Class StoreSpecification := {
  IsEmpty : Store → bool;
  IsCompatible : Store → Store → bool;
}.

(** The nodes that the L1 cache of the process keeps: neither call fails. *)
Class NodeCache (CS Nd : Type) := {
  mru_SetNode : UUID → Nd → CS → CS;
  mru_DeleteNodes : list UUID → CS → CS;
}.

(** [SetVersion] of [btree.MetaDataType]. *)
Class Versioned (Nd : Type) := { SetVersion : Z → Nd → Nd }.

(** What a [sop.Error] says, if an error is one: the lock key in its user data. *)
Class SectorErrors (E : Type) := { as_sop_Error : E → option (option LockKey) }.

Inductive tx_error (RE BE LE TE SE KE : Type) :=
| EWorld (e : repo_error RE BE)
| ELocks (e : LE)
| ELog (e : TE)
| EStores (e : SE)
| EItems (e : KE)
| ENotBegun
| ENoName
| ENotFound
| EIncompatible
| EBegun
| EDone
| ECommitted
| ENoPhase1
| ETimedOut
| ELockRetries
| ECommitRetries
| ERollback (rerr : tx_error RE BE LE TE SE KE)
| ELocksLost
| ETaken (owner : UUID)
| EGonePast
| ESector (tid : UUID) (e : tx_error RE BE LE TE SE KE)
| EPhase (phase : nat) (e : tx_error RE BE LE TE SE KE) (rerr : option (tx_error RE BE LE TE SE KE)).
Arguments EWorld {RE BE LE TE SE KE}.
Arguments ELocks {RE BE LE TE SE KE}.
Arguments ELog {RE BE LE TE SE KE}.
Arguments EStores {RE BE LE TE SE KE}.
Arguments EItems {RE BE LE TE SE KE}.
Arguments ENotBegun {RE BE LE TE SE KE}.
Arguments ENoName {RE BE LE TE SE KE}.
Arguments ENotFound {RE BE LE TE SE KE}.
Arguments EIncompatible {RE BE LE TE SE KE}.
Arguments EBegun {RE BE LE TE SE KE}.
Arguments EDone {RE BE LE TE SE KE}.
Arguments ECommitted {RE BE LE TE SE KE}.
Arguments ENoPhase1 {RE BE LE TE SE KE}.
Arguments ETimedOut {RE BE LE TE SE KE}.
Arguments ELockRetries {RE BE LE TE SE KE}.
Arguments ECommitRetries {RE BE LE TE SE KE}.
Arguments ERollback {RE BE LE TE SE KE}.
Arguments ELocksLost {RE BE LE TE SE KE}.
Arguments ETaken {RE BE LE TE SE KE}.
Arguments EGonePast {RE BE LE TE SE KE}.
Arguments ESector {RE BE LE TE SE KE}.
Arguments EPhase {RE BE LE TE SE KE}.

(** The keys of the unique in-memory B-tree of [mergeNodesKeys], in its order. *)
Definition id_le (x y : UUID) : Prop := (Compare x y ≤ 0)%Z.
#[export] Instance id_le_dec : RelDecision id_le.
Proof. intros x y. unfold id_le. apply _. Defined.
Definition sort_ids (ids : list UUID) : list UUID := merge_sort id_le (remove_dups ids).

Section transaction.
Context {RS RE BS BE Nd LS LE TS TE SS SE CS KI KE : Type} `{RO : Stores.Registry RS RE} `{BO : Stores.BlobStore BS BE} `{MD : MetaData Nd}.
Context `{LO : Locker LS LE} `{TO : TransactionLog TS TE} `{SO : StoreRepository SS SE}.
Context `{CO : NodeCache CS Nd} `{VO : Versioned Nd} `{EO : SectorErrors (repo_error RE BE)}.
(** The [n]-th call of [sop.NewUUID]. *)
Context (gen : nat → UUID).

Local Abbreviation world := (@world RS BS Nd).
Local Abbreviation nodes_of_stores := (list (StoreInfo * list Nd)).
Local Abbreviation handles_of_stores := (list (RegistryPayload Handle)).
Local Abbreviation error := (tx_error RE BE LE TE SE KE).

Record cachedNode := mkCachedNode { cn_node : Nd; cn_action : actionType }.

(** A B-tree of the transaction: its store, the nodes it touched, the count the store
    had, whether it is new, and its tracked items. *)
Record btreeBackend := mkBackend {
  bb_storeInfo : Store;
  bb_localCache : gmap UUID cachedNode;
  bb_count : Z;
  bb_created : bool;
  bb_items : KI;
}.

(** The nodes of the stores by what happened to them. *)
Record classes := mkClasses {
  cl_updated : nodes_of_stores;
  cl_removed : nodes_of_stores;
  cl_added : nodes_of_stores;
  cl_fetched : nodes_of_stores;
  cl_roots : nodes_of_stores;
}.

(** What phase 1 leaves for phase 2. *)
Record prepared := mkPrepared {
  p_updatedNodeHandles : handles_of_stores;
  p_removedNodeHandles : handles_of_stores;
  p_addedNodeHandles : handles_of_stores;
  p_newRootNodeHandles : handles_of_stores;
  p_updatedNodes : nodes_of_stores;
  p_addedNodes : nodes_of_stores;
  p_rootNodes : nodes_of_stores;
}.

Record Transaction := mkTransaction {
  t_id : UUID;
  t_btreesBackend : list btreeBackend;
  t_mode : TransactionMode;
  t_maxTime : Z;
  t_phaseDone : Z;
  t_committed : bool;
  t_committedState : nat;
  t_transactionID : UUID;
  t_prepared : prepared;
  t_nodesKeys : list LockKey;
}.

(** The transaction and everything it works on: the stores, the locks, the logs, the
    L1 cache, whether the caller's context is done, and how often a map was ranged
    over. *)
Record txstate := mkTx {
  x_tx : Transaction;
  x_world : world;
  x_locks : LS;
  x_log : TS;
  x_stores : SS;
  x_l1 : CS;
  x_ctxDone : bool;
  x_ranges : nat;
}.

Definition set_tx (t : Transaction) (x : txstate) : txstate :=
  mkTx t (x_world x) (x_locks x) (x_log x) (x_stores x) (x_l1 x) (x_ctxDone x) (x_ranges x).
Definition set_world (w : world) (x : txstate) : txstate :=
  mkTx (x_tx x) w (x_locks x) (x_log x) (x_stores x) (x_l1 x) (x_ctxDone x) (x_ranges x).
Definition set_locks (l : LS) (x : txstate) : txstate :=
  mkTx (x_tx x) (x_world x) l (x_log x) (x_stores x) (x_l1 x) (x_ctxDone x) (x_ranges x).
Definition set_log (l : TS) (x : txstate) : txstate :=
  mkTx (x_tx x) (x_world x) (x_locks x) l (x_stores x) (x_l1 x) (x_ctxDone x) (x_ranges x).
Definition set_stores (s : SS) (x : txstate) : txstate :=
  mkTx (x_tx x) (x_world x) (x_locks x) (x_log x) s (x_l1 x) (x_ctxDone x) (x_ranges x).
Definition set_l1 (c : CS) (x : txstate) : txstate :=
  mkTx (x_tx x) (x_world x) (x_locks x) (x_log x) (x_stores x) c (x_ctxDone x) (x_ranges x).
Definition set_ranges (n : nat) (x : txstate) : txstate :=
  mkTx (x_tx x) (x_world x) (x_locks x) (x_log x) (x_stores x) (x_l1 x) (x_ctxDone x) n.

Definition set_phaseDone (p : Z) (t : Transaction) : Transaction :=
  mkTransaction (t_id t) (t_btreesBackend t) (t_mode t) (t_maxTime t) p (t_committed t) (t_committedState t)
    (t_transactionID t) (t_prepared t) (t_nodesKeys t).
Definition set_committed (t : Transaction) : Transaction :=
  mkTransaction (t_id t) (t_btreesBackend t) (t_mode t) (t_maxTime t) (t_phaseDone t) true (t_committedState t)
    (t_transactionID t) (t_prepared t) (t_nodesKeys t).
Definition set_committedState (f : nat) (t : Transaction) : Transaction :=
  mkTransaction (t_id t) (t_btreesBackend t) (t_mode t) (t_maxTime t) (t_phaseDone t) (t_committed t) f
    (t_transactionID t) (t_prepared t) (t_nodesKeys t).
Definition set_btrees (bs : list btreeBackend) (t : Transaction) : Transaction :=
  mkTransaction (t_id t) bs (t_mode t) (t_maxTime t) (t_phaseDone t) (t_committed t) (t_committedState t)
    (t_transactionID t) (t_prepared t) (t_nodesKeys t).
Definition set_transactionID (id : UUID) (t : Transaction) : Transaction :=
  mkTransaction (t_id t) (t_btreesBackend t) (t_mode t) (t_maxTime t) (t_phaseDone t) (t_committed t) (t_committedState t)
    id (t_prepared t) (t_nodesKeys t).
Definition set_prepared (p : prepared) (t : Transaction) : Transaction :=
  mkTransaction (t_id t) (t_btreesBackend t) (t_mode t) (t_maxTime t) (t_phaseDone t) (t_committed t) (t_committedState t)
    (t_transactionID t) p (t_nodesKeys t).
Definition set_nodesKeys (ks : list LockKey) (t : Transaction) : Transaction :=
  mkTransaction (t_id t) (t_btreesBackend t) (t_mode t) (t_maxTime t) (t_phaseDone t) (t_committed t) (t_committedState t)
    (t_transactionID t) (t_prepared t) ks.

Definition set_newRootNodeHandles (hs : handles_of_stores) (p : prepared) : prepared :=
  mkPrepared (p_updatedNodeHandles p) (p_removedNodeHandles p) (p_addedNodeHandles p) hs (p_updatedNodes p) (p_addedNodes p) (p_rootNodes p).
Definition set_addedNodeHandles (hs : handles_of_stores) (p : prepared) : prepared :=
  mkPrepared (p_updatedNodeHandles p) (p_removedNodeHandles p) hs (p_newRootNodeHandles p) (p_updatedNodes p) (p_addedNodes p) (p_rootNodes p).
Definition set_phase2 (uh rh : handles_of_stores) (c : classes) (p : prepared) : prepared :=
  mkPrepared uh rh (p_addedNodeHandles p) (p_newRootNodeHandles p) (cl_updated c) (cl_added c) (cl_roots c).

Local Abbreviation X := (M txstate error).

Definition on_world {A} (m : M world (repo_error RE BE) A) : X A := on x_world set_world EWorld m.
Definition on_locks {A} (m : M LS LE A) : X A := on x_locks set_locks ELocks m.
Definition on_log {A} (m : M TS TE A) : X A := on x_log set_log ELog m.
Definition on_stores {A} (m : M SS SE A) : X A := on x_stores set_stores EStores m.
Definition modify_tx (f : Transaction → Transaction) : X () := modify (λ x, set_tx (f (x_tx x)) x).
Definition tx {A} (f : Transaction → A) : X A := gets (λ x, f (x_tx x)).

(** A call whose error is dropped, and [lastErr] after a call. *)
Definition ignore {A} (m : X A) : X () := handle m (λ _, mret ()) (λ _, mret ()).
Definition attempt {A} (lastErr : option error) (m : X A) : X (option error) := handle m (λ _, mret lastErr) (λ e, mret (Some e)).
Definition end_attempt (lastErr : option error) : X () := match lastErr with None => mret () | Some e => fail e end.

(** ** The B-trees behind a transaction

    The functions of a [btreeBackend], by its place in [btreesBackend]; what happens
    while a transaction sleeps; replication and the callbacks of [OnCommit]. *)
Record hooks := mkHooks {
  refetchAndMerge : nat → X ();
  hasTrackedItems_of : btreeBackend → bool;
  checkTrackedItems_of : nat → X ();
  lockTrackedItems_of : nat → Z → X ();
  unlockTrackedItems_of : nat → X ();
  commitTrackedItemsValues_of : nat → X ();
  getForRollbackTrackedItemsValues_of : nat → X (option (BlobsPayload UUID));
  getObsoleteTrackedItemsValues_of : nat → X (option (BlobsPayload UUID));
  deleteCachedValue : UUID → X ();
  RandomSleep : X ();
  Replicate : X ();
  onCommitHooks : X ();
  (** what [onIdle] does for other transactions *)
  idle_services : X ();
  (** the order of the [n]-th range over a map *)
  range : nat → gmap UUID cachedNode → list cachedNode;
}.
End transaction.
