(* ===== verification/ItemTracker.v ===== *)
(** * common/itemactiontracker.go and itemactiontracker.valuedata.go

    A tracker remembers what a transaction did to each item of a B-tree, locks the
    items in the L2 cache and keeps the values that are stored apart from the nodes.
    It holds pointers to items, which others may hold too: the items are in a heap. *)

From stdpp Require Import gmap.
From S2P Require Import Prelude Wp Handle HashmapSpec Stores NodeRepo TwoPhase.

(** ** Data *)

Record lockRecord := mkLockRecord { lr_LockID : UUID; lr_Action : actionType }.
#[export] Instance lockRecord_dec : EqDecision lockRecord.
Proof. solve_decision. Defined.

(** The fields of [StoreInfo] that a tracker uses. *)
Record value_config := mkConfig {
  vc_BlobTable : string;
  vc_InNodeSegment : bool;
  vc_ActivelyPersisted : bool;
  vc_GloballyCached : bool;
}.

Inductive item_error (BE TE : Type) :=
| EBlob (e : BE)
| ETLog (e : TE)
| EEncoding
| ECache
| EConflict (id : UUID)
| ENoLock (id : UUID).
Arguments EBlob {BE TE}.
Arguments ETLog {BE TE}.
Arguments EEncoding {BE TE}.
Arguments ECache {BE TE}.
Arguments EConflict {BE TE}.
Arguments ENoLock {BE TE}.

Section tracker.
Context {V BS BE TS TE : Type} `{BO : Stores.BlobStore BS BE} `{TO : TransactionLog TS TE}.
(** [encoding.Marshal] and [Unmarshal] of a value, the [n]-th call of [sop.NewUUID],
    and the configuration of the store. *)
Context (MarshalV : V → option (list Z)) (UnmarshalV : list Z → option V) (gen : nat → UUID) (cfg : value_config).

Record Item := mkItem {
  it_ID : UUID;
  it_Value : option V;
  it_Version : Z;
  it_ValueNeedsFetch : bool;
}.
Definition set_ID (id : UUID) (i : Item) : Item := mkItem id (it_Value i) (it_Version i) (it_ValueNeedsFetch i).
Definition set_Value (v : option V) (needsFetch : bool) (i : Item) : Item := mkItem (it_ID i) v (it_Version i) needsFetch.
Definition bump_Version (i : Item) : Item := mkItem (it_ID i) (it_Value i) (wrap_s 32 (it_Version i + 1)) (it_ValueNeedsFetch i).

(** [ci_item] points to the item. *)
Record cacheItem := mkCacheItem {
  ci_LockID : UUID;
  ci_Action : actionType;
  ci_item : N;
  ci_versionInDB : Z;
  ci_isLockOwner : bool;
  ci_persisted : bool;
}.
Definition set_Action (a : actionType) (p : N) (c : cacheItem) : cacheItem :=
  mkCacheItem (ci_LockID c) a p (ci_versionInDB c) (ci_isLockOwner c) (ci_persisted c).
Definition set_isLockOwner (b : bool) (c : cacheItem) : cacheItem :=
  mkCacheItem (ci_LockID c) (ci_Action c) (ci_item c) (ci_versionInDB c) b (ci_persisted c).
Definition record_of (c : cacheItem) : lockRecord := mkLockRecord (ci_LockID c) (ci_Action c).

(** The tracker, the items it shares with others, the values in the L2 cache with the
    outcomes of the calls there ([true] for a failure), the blobs and the log. *)
Record tracker := mkTracker {
  tk_items : gmap UUID cacheItem;
  tk_forDeletionItems : list UUID;
  tk_heap : gmap N Item;
  tk_values : gmap UUID V;
  tk_faults : list bool;
  tk_blobs : BS;
  tk_log : TS;
  tk_transactionID : UUID;
  tk_committedState : nat;
  tk_drawn : nat;
}.

Definition set_items (f : gmap UUID cacheItem → gmap UUID cacheItem) (t : tracker) : tracker :=
  mkTracker (f (tk_items t)) (tk_forDeletionItems t) (tk_heap t) (tk_values t) (tk_faults t) (tk_blobs t) (tk_log t)
    (tk_transactionID t) (tk_committedState t) (tk_drawn t).
Definition set_forDeletionItems (f : list UUID → list UUID) (t : tracker) : tracker :=
  mkTracker (tk_items t) (f (tk_forDeletionItems t)) (tk_heap t) (tk_values t) (tk_faults t) (tk_blobs t) (tk_log t)
    (tk_transactionID t) (tk_committedState t) (tk_drawn t).
Definition set_heap (f : gmap N Item → gmap N Item) (t : tracker) : tracker :=
  mkTracker (tk_items t) (tk_forDeletionItems t) (f (tk_heap t)) (tk_values t) (tk_faults t) (tk_blobs t) (tk_log t)
    (tk_transactionID t) (tk_committedState t) (tk_drawn t).
Definition set_values (f : gmap UUID V → gmap UUID V) (t : tracker) : tracker :=
  mkTracker (tk_items t) (tk_forDeletionItems t) (tk_heap t) (f (tk_values t)) (tk_faults t) (tk_blobs t) (tk_log t)
    (tk_transactionID t) (tk_committedState t) (tk_drawn t).
Definition set_faults (fs : list bool) (t : tracker) : tracker :=
  mkTracker (tk_items t) (tk_forDeletionItems t) (tk_heap t) (tk_values t) fs (tk_blobs t) (tk_log t)
    (tk_transactionID t) (tk_committedState t) (tk_drawn t).
Definition set_blobs (b : BS) (t : tracker) : tracker :=
  mkTracker (tk_items t) (tk_forDeletionItems t) (tk_heap t) (tk_values t) (tk_faults t) b (tk_log t)
    (tk_transactionID t) (tk_committedState t) (tk_drawn t).
Definition set_tlog (l : TS) (t : tracker) : tracker :=
  mkTracker (tk_items t) (tk_forDeletionItems t) (tk_heap t) (tk_values t) (tk_faults t) (tk_blobs t) l
    (tk_transactionID t) (tk_committedState t) (tk_drawn t).
Definition set_logged (f : nat) (t : tracker) : tracker :=
  mkTracker (tk_items t) (tk_forDeletionItems t) (tk_heap t) (tk_values t) (tk_faults t) (tk_blobs t) (tk_log t)
    (tk_transactionID t) f (tk_drawn t).
Definition set_drawn_ids (n : nat) (t : tracker) : tracker :=
  mkTracker (tk_items t) (tk_forDeletionItems t) (tk_heap t) (tk_values t) (tk_faults t) (tk_blobs t) (tk_log t)
    (tk_transactionID t) (tk_committedState t) n.

Local Abbreviation T := (M tracker (item_error BE TE)).

(** ** Memory, cache, blobs, log *)

Definition deref (p : N) : T Item := o ← gets (λ t, tk_heap t !! p); or_panic o.
Definition write (p : N) (f : Item → Item) : T () := i ← deref p; modify (set_heap <[p := f i]>).
Definition put_item (id : UUID) (c : cacheItem) : T () := modify (set_items <[id := c]>).
Definition NewID : T UUID := λ t, (Ret (gen (tk_drawn t)), set_drawn_ids (S (tk_drawn t)) t).

(** Whether the next call of the L2 cache fails. *)
Definition fault : T bool := λ t,
  match tk_faults t with
  | [] => (Ret false, t)
  | b :: fs => (Ret b, set_faults fs t)
  end.
(** [GetStruct] of a value, where a failure is logged and counts as not found. *)
Definition cache_get (id : UUID) : T (option V) :=
  failed ← fault; if (failed : bool) then mret None else gets (λ t, tk_values t !! id).
Definition cache_set (id : UUID) (v : V) : T () :=
  failed ← fault; if (failed : bool) then mret () else modify (set_values <[id := v]>).

Definition on_blobs {A} (m : M BS BE A) : T A := on tk_blobs set_blobs EBlob m.
Definition tlog (f : nat) (p : payload) : T () :=
  modify (set_logged f);;
  tid ← gets tk_transactionID;
  on tk_log set_tlog ETLog (tlog_Add tid f p).

Definition encode (v : V) : T (list Z) := match MarshalV v with Some ba => mret ba | None => fail EEncoding end.
Definition decode (ba : list Z) : T V := match UnmarshalV ba with Some v => mret v | None => fail EEncoding end.
Definition blob_value (id : UUID) : T V := ba ← on_blobs (blobStore_GetOne (vc_BlobTable cfg) id); decode ba.

(** ** What was done to an item *)

Definition fetch_value (id : UUID) : T V :=
  if vc_GloballyCached cfg then
    found ← cache_get id;
    match found with
    | Some v => mret v
    | None => v ← blob_value id; cache_set id v;; mret v
    end
  else blob_value id.

Definition track_get (p : N) : T () :=
  item ← deref p;
  lockID ← NewID;
  put_item (it_ID item) (mkCacheItem lockID getAction p (it_Version item) false false).

(** The entry of an item that is there and is not to be fetched stays. *)
Definition Get (p : N) : T () :=
  item ← deref p;
  val ← gets (λ t, tk_items t !! it_ID item);
  stale ← (match val with None => mret true | Some c => i ← deref (ci_item c); mret (it_ValueNeedsFetch i) end);
  if negb stale then mret ()
  else
    match it_Value item, it_ValueNeedsFetch item with
    | None, true =>
        v ← fetch_value (it_ID item);
        write p (set_Value (Some v) false);;
        match val with Some _ => mret () | None => track_get p end
    | _, _ => track_get p
    end.

(** [manage] takes the value of an item out of it, for a blob of its own. *)
Definition replace_id (p : N) (item : Item) : T () :=
  modify (set_forDeletionItems (λ l, l ++ [it_ID item]));;
  id ← NewID;
  write p (λ i, set_ID id (set_Value (it_Value i) false i)).

Definition take_value (uuid : UUID) (c : cacheItem) : T (option (UUID * list Z)) :=
  item ← deref (ci_item c);
  r ← (match it_Value item with
       | Some v => ba ← encode v; write (ci_item c) (set_Value None true);; mret (Some (it_ID item, ba))
       | None => mret None
       end);
  put_item uuid c;;
  mret r.

Definition manage (uuid : UUID) (c : cacheItem) : T (option (UUID * list Z)) :=
  if ci_persisted c then mret None
  else
    item ← deref (ci_item c);
    (match ci_Action c with
     | removeAction =>
         (if it_ValueNeedsFetch item then modify (set_forDeletionItems (λ l, l ++ [it_ID item])) else mret ());;
         write (ci_item c) (λ i, set_Value (it_Value i) false i)
     | updateAction =>
         (match it_ValueNeedsFetch item, it_Value item with true, Some _ => replace_id (ci_item c) item | _, _ => mret () end);;
         put_item uuid c
     | _ => mret ()
     end);;
    if decide (ci_Action c = addAction ∨ ci_Action c = updateAction) then take_value uuid c else mret None.

(** The value of an item of a store that persists values at once. *)
Definition activelyPersist (uuid : UUID) (c : cacheItem) : T () :=
  if negb (vc_ActivelyPersisted cfg) then mret ()
  else
    item ← deref (ci_item c);
    r ← manage uuid c;
    match r with
    | None => mret ()
    | Some (id, ba) =>
        tlog addActivelyPersistedItem (ItemsPayload (mkBlobsPayload (vc_BlobTable cfg) [id]));;
        on_blobs (blobStore_Add [mkBlobsPayload (vc_BlobTable cfg) [(id, ba)]]);;
        match it_Value item with
        | Some v => if vc_GloballyCached cfg then cache_set id v else mret ()
        | None => mret ()
        end
    end.

Definition Add (p : N) : T () :=
  item ← deref p;
  lockID ← NewID;
  let c := mkCacheItem lockID addAction p (it_Version item) false false in
  put_item (it_ID item) c;;
  write p bump_Version;;
  activelyPersist (it_ID item) c.

Definition Update (p : N) : T () :=
  item ← deref p;
  val ← gets (λ t, tk_items t !! it_ID item);
  match val with
  | Some c =>
      if decide (ci_Action c = addAction) then activelyPersist (it_ID item) c
      else
        let c := set_Action updateAction p c in
        put_item (it_ID item) c;;
        (if decide (it_Version item = ci_versionInDB c) then write p bump_Version else mret ());;
        activelyPersist (it_ID item) c
  | None =>
      lockID ← NewID;
      let c := mkCacheItem lockID updateAction p (it_Version item) false false in
      put_item (it_ID item) c;;
      write p bump_Version;;
      activelyPersist (it_ID item) c
  end.

Definition Remove (p : N) : T () :=
  item ← deref p;
  if vc_ActivelyPersisted cfg then
    modify (set_forDeletionItems (λ l, l ++ [it_ID item]));;
    write p (λ i, set_Value (it_Value i) false i)
  else
    val ← gets (λ t, tk_items t !! it_ID item);
    let added := match val with Some c => bool_decide (ci_Action c = addAction) | None => false end in
    if added then modify (set_items (delete (it_ID item)))
    else
      lockID ← NewID;
      put_item (it_ID item) (mkCacheItem lockID removeAction p (it_Version item) false false).

Definition hasTrackedItems (t : tracker) : bool := bool_decide (tk_items t ≠ ∅).

(** ** Values in segments of their own *)

(** The order in which the map of items is ranged over. *)
Context (range : gmap UUID cacheItem → list (UUID * cacheItem)).

Fixpoint manage_all (items : list (UUID * cacheItem)) : T (list (UUID * list Z * option V)) :=
  match items with
  | [] => mret []
  | (uuid, c) :: items =>
      item ← deref (ci_item c);
      r ← manage uuid c;
      rest ← manage_all items;
      mret (match r with Some (id, ba) => (id, ba, it_Value item) :: rest | None => rest end)
  end.

Fixpoint cache_all (l : list (UUID * list Z * option V)) : T () :=
  match l with
  | [] => mret ()
  | (id, _, v) :: l => (match v with Some v => cache_set id v | None => mret () end);; cache_all l
  end.

Definition commitTrackedItemsValues : T () :=
  if vc_InNodeSegment cfg || vc_ActivelyPersisted cfg then mret ()
  else
    items ← gets tk_items;
    l ← manage_all (range items);
    (if decide (l = []) then mret ()
     else on_blobs (blobStore_Add [mkBlobsPayload (vc_BlobTable cfg) l.*1]));;
    if vc_GloballyCached cfg then cache_all l else mret ().

(** The blobs written for added and updated items; the items get their IDs back. *)
Fixpoint restore_ids (items : list (UUID * cacheItem)) : T (list UUID) :=
  match items with
  | [] => mret []
  | (itemID, c) :: items =>
      if decide (ci_Action c = addAction ∨ ci_Action c = updateAction) then
        item ← deref (ci_item c);
        write (ci_item c) (set_ID itemID);;
        put_item itemID c;;
        rest ← restore_ids items;
        mret (it_ID item :: rest)
      else restore_ids items
  end.

Definition getForRollbackTrackedItemsValues : T (option (BlobsPayload UUID)) :=
  if vc_InNodeSegment cfg then mret None
  else
    items ← gets tk_items;
    ids ← restore_ids (range items);
    modify (set_forDeletionItems (λ _, []));;
    mret (Some (mkBlobsPayload (vc_BlobTable cfg) ids)).

Definition getObsoleteTrackedItemsValues : T (option (BlobsPayload UUID)) :=
  if vc_InNodeSegment cfg then mret None
  else ids ← gets tk_forDeletionItems; mret (Some (mkBlobsPayload (vc_BlobTable cfg) ids)).
End tracker.
