(* ===== verification/ItemLocks.v ===== *)
(** * common/itemactiontracker.go: locks of the tracked items

    A tracker locks its items with records in the L2 cache, read before and after they
    are written.  A call of the tracker is a program whose requests the cache answers
    one at a time, so that the requests of several trackers may come in any order. *)

From stdpp Require Import gmap.
From S2P Require Import Prelude Handle TwoPhase ItemTracker.

(** ** Requests *)

(** [None] or [true] answers a request that failed. *)
Inductive prog (A : Type) :=
| Done (a : A)
| GetStructs (ids : list UUID) (k : option (list (option lockRecord)) → prog A)
| SetStructs (recs : list (UUID * lockRecord)) (k : bool → prog A)
| Delete (ids : list UUID) (k : bool → prog A).
Arguments Done {A}.
Arguments GetStructs {A}.
Arguments SetStructs {A}.
Arguments Delete {A}.

Abbreviation records := (gmap UUID lockRecord).
Abbreviation tracked := (gmap UUID cacheItem).

Inductive lock_error := LCache | LConflict (id : UUID) | LNotAttained (id : UUID).

Section locks.
(** The order in which the map of items is ranged over. *)
Context (range : tracked → list (UUID * cacheItem)).

(** Added items are not locked. *)
Definition lockable (e : UUID * cacheItem) : bool := bool_decide (ci_Action e.2 ≠ addAction).
Definition lockables (items : tracked) : list (UUID * cacheItem) := filter lockable (range items).

Definition shared (r : lockRecord) (c : cacheItem) : bool :=
  bool_decide (lr_Action r = getAction ∧ ci_Action c = getAction).
Definition own (r : lockRecord) (c : cacheItem) : bool := bool_decide (lr_LockID r = ci_LockID c).

Definition owner (b : bool) (uuid : UUID) (items : tracked) : tracked := alter (set_isLockOwner b) uuid items.

(** The items without a record, or one whose record is in the way. *)
Fixpoint free_items (es : list (UUID * cacheItem)) (found : list (option lockRecord)) : UUID + list (UUID * cacheItem) :=
  match es, found with
  | (uuid, c) :: es, Some r :: found => if own r c || shared r c then free_items es found else inl uuid
  | (uuid, c) :: es, None :: found =>
      match free_items es found with inl id => inl id | inr l => inr ((uuid, c) :: l) end
  | _, _ => inr []
  end.

(** The second look at the records that were written. *)
Fixpoint verify (es : list (UUID * cacheItem)) (found : list (option lockRecord)) (items : tracked) : tracked * option lock_error :=
  match es, found with
  | (uuid, c) :: es, Some r :: found =>
      if own r c then verify es found (owner true uuid items)
      else if shared r c then verify es found items
      else if decide (lr_LockID r = NilUUID) then (items, Some (LNotAttained uuid))
      else (items, Some (LConflict uuid))
  | (uuid, c) :: _, None :: _ => (items, Some (LNotAttained uuid))
  | _, _ => (items, None)
  end.

(** A second look at the records that were written tells who won. *)
Definition upsert (upserts : list (UUID * cacheItem)) (items : tracked) : prog (tracked * option lock_error) :=
  if decide (upserts = []) then Done (items, None)
  else
    SetStructs (prod_map id record_of <$> upserts) (λ failed,
      if (failed : bool) then Done (items, Some LCache)
      else
        GetStructs upserts.*1 (λ foundVerify,
          match foundVerify with
          | None => Done (items, Some LCache)
          | Some foundVerify => Done (verify upserts foundVerify items)
          end)).

Definition lock (items : tracked) : prog (tracked * option lock_error) :=
  let es := lockables items in
  if decide (es = []) then Done (items, None)
  else
    GetStructs es.*1 (λ found,
      match found with
      | None => Done (items, Some LCache)
      | Some found =>
          match free_items es found with
          | inl uuid => Done (items, Some (LConflict uuid))
          | inr upserts => upsert upserts items
          end
      end).

(** Every item is looked at; the last conflict is the error. *)
Fixpoint check_items (es : list (UUID * cacheItem)) (found : list (option lockRecord)) (lastErr : option lock_error) (items : tracked)
    : tracked * option lock_error :=
  match es, found with
  | (uuid, c) :: es, Some r :: found =>
      if own r c then check_items es found lastErr (owner true uuid items)
      else if shared r c then check_items es found lastErr items
      else check_items es found (Some (LConflict uuid)) (owner false uuid items)
  | (uuid, c) :: es, None :: found => check_items es found lastErr (owner false uuid items)
  | _, _ => (items, lastErr)
  end.

Definition checkTrackedItems (items : tracked) : prog (tracked * option lock_error) :=
  let es := lockables items in
  if decide (es = []) then Done (items, None)
  else
    GetStructs es.*1 (λ found,
      match found with
      | None => Done (items, Some LCache)
      | Some found => Done (check_items es found None items)
      end).

Definition unlock (items : tracked) : prog (tracked * option lock_error) :=
  let keys := (filter (λ e, ci_isLockOwner e.2) (lockables items)).*1 in
  if decide (keys = []) then Done (items, None)
  else Delete keys (λ failed, Done (items, if (failed : bool) then Some LCache else None)).
End locks.

(** ** The cache *)

Definition put_records (recs : list (UUID * lockRecord)) (c : records) : records := foldl (λ c e, <[e.1 := e.2]> c) c recs.
Definition delete_records (ids : list UUID) (c : records) : records := foldl (λ c id, delete id c) c ids.

(** One request that succeeds. *)
Definition answer {A} (p : prog A) (c : records) : prog A * records :=
  match p with
  | Done a => (Done a, c)
  | GetStructs ids k => (k (Some ((c !!.) <$> ids)), c)
  | SetStructs recs k => (k false, put_records recs c)
  | Delete ids k => (k false, delete_records ids c)
  end.

(** A program on its own. *)
Fixpoint alone {A} (p : prog A) (c : records) : A * records :=
  match p with
  | Done a => (a, c)
  | GetStructs ids k => alone (k (Some ((c !!.) <$> ids))) c
  | SetStructs recs k => alone (k false) (put_records recs c)
  | Delete ids k => alone (k false) (delete_records ids c)
  end.

(** Programs whose requests come in the order of a schedule. *)
Fixpoint interleave {A} (schedule : list nat) (ps : list (prog A)) (c : records) : list (prog A) * records :=
  match schedule with
  | [] => (ps, c)
  | i :: schedule =>
      match ps !! i with
      | Some p => let '(p', c') := answer p c in interleave schedule (<[i := p']> ps) c'
      | None => interleave schedule ps c
      end
  end.

(** A program among others: before each of its requests they may have changed the
    cache to anything, and the requests may fail. *)
Inductive meets {A} : prog A → list records → A → Prop :=
| meets_done a : meets (Done a) [] a
| meets_get ids k c cs a : meets (k (Some ((c !!.) <$> ids))) cs a → meets (GetStructs ids k) (c :: cs) a
| meets_get_fails ids k c cs a : meets (k None) cs a → meets (GetStructs ids k) (c :: cs) a
| meets_set recs k b c cs a : meets (k b) cs a → meets (SetStructs recs k) (c :: cs) a
| meets_delete ids k b c cs a : meets (k b) cs a → meets (Delete ids k) (c :: cs) a.

(** ** What a tracker holds *)

Section properties.
Context (range : tracked → list (UUID * cacheItem)) (range_exact : ∀ items, range items ≡ₚ map_to_list items).
Implicit Types (items : tracked) (c : records) (es : list (UUID * cacheItem)).

(** The record of an item is not in the way. *)
Definition available c (e : UUID * cacheItem) : bool :=
  match c !! e.1 with Some r => own r e.2 || shared r e.2 | None => true end.
Definition unlocked c (e : UUID * cacheItem) : bool := bool_decide (c !! e.1 = None).

(** The items that a lock adds records for. *)
Definition takes items c (id : UUID) : bool :=
  match items !! id with Some ci => lockable (id, ci) && unlocked c (id, ci) | None => false end.

Lemma elem_of_lockables items id ci : (id, ci) ∈ lockables range items ↔ items !! id = Some ci ∧ lockable (id, ci).
Proof.
  unfold lockables. rewrite list_elem_of_filter, range_exact, elem_of_map_to_list. tauto.
Qed.

Lemma NoDup_filter_keys (P : UUID * cacheItem → Prop) `{∀ e, Decision (P e)} es : NoDup es.*1 → NoDup (filter P es).*1.
Proof. intros Hnd. eapply sublist_NoDup; [exact Hnd|]. apply fmap_sublist, sublist_filter. Qed.

Lemma NoDup_lockables items : NoDup (lockables range items).*1.
Proof. apply NoDup_filter_keys. rewrite (range_exact items). apply NoDup_fst_map_to_list. Qed.

Lemma free_items_all c es : Forall (available c) es →
  free_items es ((c !!.) <$> es.*1) = inr (filter (unlocked c) es).
Proof.
  induction 1 as [|[id ci] es Ha _ IH]; [done|]. cbn [fmap list_fmap fst free_items]. rewrite filter_cons.
  unfold available in Ha. cbn [fst snd] in Ha. case_decide as Hu; unfold unlocked in Hu; cbn [fst] in Hu.
  - apply bool_decide_unpack in Hu. rewrite Hu. by setoid_rewrite IH.
  - rewrite bool_decide_spec in Hu. destruct (c !! id) as [r|]; [|done]. apply Is_true_eq_true in Ha. by rewrite Ha.
Qed.

Lemma free_items_conflict c es : ¬ Forall (available c) es →
  ∃ e, e ∈ es ∧ ¬ available c e ∧ free_items es ((c !!.) <$> es.*1) = inl e.1.
Proof.
  induction es as [|[id ci] es IH]; [by intros []|]. intros Hn. cbn [fmap list_fmap fst free_items].
  destruct (decide (available c (id, ci))) as [Ha|Ha].
  - destruct IH as (e & He & Hav & Hf). { intros Hall. apply Hn. by constructor. }
    exists e. split; [by right|]. split; [done|]. unfold available in Ha. cbn [fst snd] in Ha.
    destruct (c !! id) as [r|]; [apply Is_true_eq_true in Ha; by rewrite Ha|]. by setoid_rewrite Hf.
  - exists (id, ci). split; [by left|]. split; [done|]. unfold available in Ha. cbn [fst snd] in Ha |- *.
    destruct (c !! id) as [r|]; [|by destruct Ha]. destruct (own r ci || shared r ci); [by destruct Ha|done].
Qed.

Lemma put_records_notin recs : ∀ c id, id ∉ recs.*1 → put_records recs c !! id = c !! id.
Proof.
  induction recs as [|[id' r] recs IH]; intros c id Hid; [done|]. cbn in Hid. apply not_elem_of_cons in Hid as [Hne Hid].
  cbn. setoid_rewrite IH; [|done]. by apply lookup_insert_ne.
Qed.
Lemma put_records_in recs : ∀ c id r, NoDup recs.*1 → (id, r) ∈ recs → put_records recs c !! id = Some r.
Proof.
  induction recs as [|[id' r'] recs IH]; intros c id r Hnd Hin; [by apply not_elem_of_nil in Hin|].
  cbn in Hnd. apply NoDup_cons in Hnd as [Hn Hnd]. cbn. apply elem_of_cons in Hin as [[= -> ->]|Hin]; [|by apply IH].
  setoid_rewrite put_records_notin; [|done]. apply lookup_insert_eq.
Qed.
Lemma delete_records_lookup ids : ∀ c id, delete_records ids c !! id = if decide (id ∈ ids) then None else c !! id.
Proof.
  induction ids as [|i ids IH]; intros c id; [by rewrite decide_False by apply not_elem_of_nil|].
  cbn. setoid_rewrite IH. destruct (decide (id = i)) as [->|Hne].
  - rewrite (decide_True (P := i ∈ i :: ids)) by left. case_decide; [done|]. apply lookup_delete_eq.
  - rewrite lookup_delete_ne by done. case_decide as H1; case_decide as H2; [done| | |done].
    + destruct H2. by right.
    + apply elem_of_cons in H2 as [?|?]; done.
Qed.

Lemma verify_own es : ∀ items c, Forall (λ e, c !! e.1 = Some (record_of e.2)) es →
  verify es ((c !!.) <$> es.*1) items = (foldl (λ items e, owner true e.1 items) items es, None).
Proof.
  induction es as [|[id ci] es IH]; intros items c Hc; [done|]. apply Forall_cons in Hc as [Hr Hc].
  cbn in Hr. cbn. rewrite Hr. unfold own. rewrite bool_decide_eq_true_2 by done. by apply IH.
Qed.

Lemma owners_lookup es : ∀ items id, NoDup es.*1 → foldl (λ items e, owner true e.1 items) items es !! id =
  if decide (id ∈ es.*1) then set_isLockOwner true <$> items !! id else items !! id.
Proof.
  induction es as [|[i ci] es IH]; intros items id Hnd; [by rewrite decide_False by apply not_elem_of_nil|].
  cbn in Hnd. apply NoDup_cons in Hnd as [Hn Hnd]. cbn. rewrite IH by done. unfold owner.
  destruct (decide (id = i)) as [->|Hne].
  - rewrite decide_False by done. rewrite decide_True by left. by rewrite lookup_alter_eq.
  - rewrite lookup_alter_ne by done. case_decide as H1; case_decide as H2; [done| | |done].
    + destruct H2. by right.
    + apply elem_of_cons in H2 as [?|?]; done.
Qed.

Lemma elem_of_upserts items c id : id ∈ (filter (unlocked c) (lockables range items)).*1 ↔ takes items c id.
Proof.
  rewrite list_elem_of_fmap. unfold takes. split.
  - intros ([i ci] & -> & Hin). apply list_elem_of_filter in Hin as [Hu Hin].
    apply elem_of_lockables in Hin as [Hi Hl]. cbn [fst]. rewrite Hi. by apply andb_prop_intro.
  - destruct (items !! id) as [ci|] eqn:Hi; [|done]. intros [Hl Hu]%andb_prop_elim.
    exists (id, ci). split; [done|]. apply list_elem_of_filter. split; [done|]. by apply elem_of_lockables.
Qed.

Lemma NoDup_upserts items c : NoDup (filter (unlocked c) (lockables range items)).*1.
Proof. apply NoDup_filter_keys, NoDup_lockables. Qed.

Lemma alone_upsert ups items c : NoDup ups.*1 →
  alone (upsert ups items) c =
    (foldl (λ items e, owner true e.1 items) items ups, None, put_records (prod_map id record_of <$> ups) c).
Proof.
  intros Hnd. unfold upsert. case_decide as He; [by subst ups|]. cbn [alone]. f_equal. apply verify_own, Forall_forall.
  intros [i ci] Hin. apply put_records_in; [by rewrite <-list_fmap_compose|].
  by apply (list_elem_of_fmap_2 (prod_map id record_of) ups (i, ci)).
Qed.

Lemma alone_lock items c : Forall (available c) (lockables range items) →
  let ups := filter (unlocked c) (lockables range items) in
  alone (lock range items) c =
    (foldl (λ items e, owner true e.1 items) items ups, None, put_records (prod_map id record_of <$> ups) c).
Proof.
  intros Ha ups. unfold lock. case_decide as He; [unfold ups; by rewrite He|].
  cbn [alone]. rewrite free_items_all by done. apply alone_upsert, NoDup_upserts.
Qed.

Lemma alone_conflict items c : ¬ Forall (available c) (lockables range items) →
  ∃ e, e ∈ lockables range items ∧ ¬ available c e ∧
    alone (lock range items) c = (items, Some (LConflict e.1), c).
Proof.
  intros Hn. unfold lock. case_decide as He; [by destruct Hn; rewrite He|].
  destruct (free_items_conflict _ _ Hn) as (e & Hin & Ha & Hf). exists e. split_and!; [done..|].
  cbn [alone]. by rewrite Hf.
Qed.

(** What [lock] leaves of the records and of the items. *)
Definition locked_records items c c' : Prop := ∀ id, c' !! id = if takes items c id then record_of <$> items !! id else c !! id.
Definition locked_items items c items' : Prop :=
  ∀ id, items' !! id = if takes items c id then set_isLockOwner true <$> items !! id else items !! id.

Lemma if_true {A} (b : bool) (x y : A) : b → (if b then x else y) = x.
Proof. by destruct b. Qed.
Lemma if_false {A} (b : bool) (x y : A) : ¬ b → (if b then x else y) = y.
Proof. by destruct b. Qed.

Lemma locked_records_of items c :
  locked_records items c (put_records (prod_map id record_of <$> filter (unlocked c) (lockables range items)) c).
Proof.
  intros id. pose proof (NoDup_upserts items c) as Hnd. pose proof (elem_of_upserts items c id) as Hin.
  destruct (decide (takes items c id)) as [Ht|Ht].
  - rewrite if_true by done. apply Hin in Ht. apply list_elem_of_fmap in Ht as ([i ci] & -> & Hups).
    erewrite put_records_in; [| |by apply (list_elem_of_fmap_2 (prod_map id record_of) _ (i, ci))].
    + apply list_elem_of_filter in Hups as [_ [Hi _]%elem_of_lockables]. cbn [fst]. by rewrite Hi.
    + by rewrite <-list_fmap_compose.
  - rewrite if_false by done. apply put_records_notin. rewrite <-list_fmap_compose. by rewrite Hin.
Qed.

Lemma locked_items_of items c :
  locked_items items c (foldl (λ items e, owner true e.1 items) items (filter (unlocked c) (lockables range items))).
Proof.
  intros id. rewrite owners_lookup by apply NoDup_upserts. pose proof (elem_of_upserts items c id) as Hin.
  destruct (decide (takes items c id)) as [Ht|Ht].
  - rewrite decide_True by by apply Hin. by rewrite if_true.
  - rewrite decide_False by by rewrite Hin. by rewrite if_false.
Qed.

Lemma alone_unlock items c items' c1 : locked_items items c items' →
  (∀ id ci, items !! id = Some ci → ci_isLockOwner ci = false) →
  ∃ c2, alone (unlock range items') c1 = (items', None, c2) ∧
    ∀ id, c2 !! id = if takes items c id then None else c1 !! id.
Proof.
  intros Hi Hno. set (keys := (filter (λ e, ci_isLockOwner e.2) (lockables range items')).*1).
  assert (Hk : ∀ id, id ∈ keys ↔ takes items c id).
  { intros id. unfold keys. rewrite list_elem_of_fmap. split.
    - intros ([i ci] & -> & Hin). cbn [fst]. apply list_elem_of_filter in Hin as [Ho [Hl _]%elem_of_lockables].
      cbn [snd] in Ho. rewrite (Hi i) in Hl. destruct (decide (takes items c i)) as [|Hf]; [done|].
      rewrite if_false in Hl by done. by rewrite (Hno _ _ Hl) in Ho.
    - intros Ht. pose proof (Hi id) as Hl. rewrite if_true in Hl by done. unfold takes in Ht.
      destruct (items !! id) as [ci|] eqn:Hci; [|done]. apply andb_prop_elim in Ht as [Hlock _].
      exists (id, set_isLockOwner true ci). split; [done|]. apply list_elem_of_filter. split; [done|].
      by apply elem_of_lockables. }
  exists (delete_records keys c1). split.
  - unfold unlock. fold keys. case_decide as He; [by rewrite He|done].
  - intros id. rewrite delete_records_lookup. specialize (Hk id). case_decide as H1.
    + rewrite if_true; [done|by apply Hk].
    + rewrite if_false; [done|by rewrite <-Hk].
Qed.

(** A tracker that locks its items alone locks all of them or none: when no record is in the way the items
    without a record get one and know that they own it, and an unlock, whatever was locked in between, takes
    exactly these away; else the error names an item whose record is in the way and nothing changes. *)
Theorem lock_unlock_exact items c :
  (Forall (available c) (lockables range items) ∧
   ∃ items' c', alone (lock range items) c = (items', None, c') ∧
     locked_records items c c' ∧ locked_items items c items' ∧
     ((∀ id ci, items !! id = Some ci → ci_isLockOwner ci = false) →
      ∀ c1, ∃ c2, alone (unlock range items') c1 = (items', None, c2) ∧
        ∀ id, c2 !! id = if takes items c id then None else c1 !! id)) ∨
  (∃ id ci, items !! id = Some ci ∧ ci_Action ci ≠ addAction ∧ ¬ available c (id, ci) ∧
     alone (lock range items) c = (items, Some (LConflict id), c)).
Proof.
  destruct (decide (Forall (available c) (lockables range items))) as [Ha|Hn].
  - left. split; [done|]. eexists _, _. split; [by apply alone_lock|]. split; [apply locked_records_of|].
    pose proof (locked_items_of items c) as Hi. split; [done|]. intros Hno c1. by apply alone_unlock.
  - right. destruct (alone_conflict _ _ Hn) as ([id ci] & Hin & Ha & Heq).
    apply elem_of_lockables in Hin as [Hi Hl]. exists id, ci. split_and!; [done| |done..].
    by apply bool_decide_unpack in Hl.
Qed.

(** ** Among other trackers *)

(** The record of an item was seen to be the tracker's own or shared with it. *)
Definition seen (cs : list records) (e : UUID * cacheItem) : Prop :=
  ∃ c r, c ∈ cs ∧ c !! e.1 = Some r ∧ (own r e.2 || shared r e.2).
Definition seen_own (cs : list records) (e : UUID * cacheItem) : Prop :=
  ∃ c r, c ∈ cs ∧ c !! e.1 = Some r ∧ own r e.2.

Lemma free_items_seen c es l : free_items es ((c !!.) <$> es.*1) = inr l →
  l ⊆ es ∧ ∀ e, e ∈ es → e ∈ l ∨ seen [c] e.
Proof.
  revert l. induction es as [|[id ci] es IH]; intros l Hf.
  { injection Hf as <-. split; [done|]. intros e He. by apply not_elem_of_nil in He. }
  cbn [fmap list_fmap fst free_items] in Hf. destruct (c !! id) as [r|] eqn:Hr.
  - destruct (own r ci || shared r ci) eqn:Ho; [|done]. apply IH in Hf as [Hsub Hs]. split; [set_solver +Hsub|].
    intros e [->|He]%elem_of_cons; [|by apply Hs]. right. exists c, r. split; [by left|]. split; [done|]. cbn [snd]. by rewrite Ho.
  - fold (list_fmap _ _ fst es) in Hf. destruct (free_items es _) as [|l'] eqn:Hl; [done|]. injection Hf as <-.
    destruct (IH _ eq_refl) as [Hsub Hs]. split; [set_solver +Hsub|].
    intros e [->|He]%elem_of_cons; [left; by left|]. destruct (Hs e He) as [?|?]; [left; by right|by right].
Qed.

Lemma verify_seen c es : ∀ items items', verify es ((c !!.) <$> es.*1) items = (items', None) →
  (∀ e, e ∈ es → seen [c] e) ∧
  ∀ id, items' !! id = items !! id ∨ (items' !! id = set_isLockOwner true <$> items !! id ∧ ∃ ci, (id, ci) ∈ es ∧ seen_own [c] (id, ci)).
Proof.
  induction es as [|[id ci] es IH]; intros items items' Hv.
  { injection Hv as <-. split; [intros e He; by apply not_elem_of_nil in He|by left]. }
  cbn [fmap list_fmap fst verify] in Hv. destruct (c !! id) as [r|] eqn:Hr; [|done].
  destruct (own r ci) eqn:Ho; [|destruct (shared r ci) eqn:Hs; [|by case_decide]].
  - apply IH in Hv as [Hseen Hown]. split.
    + intros e [->|He]%elem_of_cons; [|by apply Hseen]. exists c, r. split; [by left|]. split; [done|]. cbn [snd]. by rewrite Ho.
    + intros id'. assert (Hmine : seen_own [c] (id, ci)).
      { exists c, r. split; [by left|]. split; [done|]. cbn [snd]. by rewrite Ho. }
      destruct (decide (id' = id)) as [->|Hne].
      * right. split; [|exists ci; split; [by left|done]].
        destruct (Hown id) as [->|[-> _]]; unfold owner; rewrite lookup_alter_eq; [done|].
        rewrite <-option_fmap_compose. by apply option_fmap_ext.
      * unfold owner in Hown. destruct (Hown id') as [->|[-> (ci' & Hin & Hs)]]; rewrite lookup_alter_ne by done; [by left|].
        right. split; [done|]. exists ci'. split; [by right|done].
  - apply IH in Hv as [Hseen Hown]. split.
    + intros e [->|He]%elem_of_cons; [|by apply Hseen]. exists c, r. split; [by left|]. split; [done|]. cbn [snd]. by rewrite Ho, Hs.
    + intros id'. destruct (Hown id') as [->|[-> (ci' & Hin & Hs')]]; [by left|].
      right. split; [done|]. exists ci'. split; [by right|done].
Qed.

Lemma seen_mono cs cs' e : seen cs e → cs ⊆ cs' → seen cs' e.
Proof. intros (c & r & Hc & Hr) Hs. exists c, r. split; [by apply Hs|done]. Qed.
Lemma seen_own_mono cs cs' e : seen_own cs e → cs ⊆ cs' → seen_own cs' e.
Proof. intros (c & r & Hc & Hr) Hs. exists c, r. split; [by apply Hs|done]. Qed.

(** The caches that a program sees on its own. *)
Fixpoint views {A} (p : prog A) (c : records) : list records :=
  match p with
  | Done a => []
  | GetStructs ids k => c :: views (k (Some ((c !!.) <$> ids))) c
  | SetStructs recs k => c :: views (k false) (put_records recs c)
  | Delete ids k => c :: views (k false) (delete_records ids c)
  end.
Lemma meets_alone {A} (p : prog A) : ∀ c, meets p (views p c) (alone p c).1.
Proof. induction p as [a|ids k IH|recs k IH|ids k IH]; intros c; cbn; econstructor; apply IH. Qed.

Lemma meets_Done {A} (a b : A) cs : meets (Done a) cs b → a = b ∧ cs = [].
Proof. by inversion 1. Qed.

(** C26: Whatever other trackers do to the cache between the requests of [lock], and whichever requests fail, a lock
    that is granted has seen, for every tracked item that was not added, a record of the tracker itself or one of a
    reader beside a reader; an item that becomes owned was seen with the tracker's own record. *)
Theorem lock_seen items cs items' : meets (lock range items) cs (items', None) →
  ∀ id ci, items !! id = Some ci → ci_Action ci ≠ addAction →
    seen cs (id, ci) ∧ (items' !! id = Some ci ∨ items' !! id = Some (set_isLockOwner true ci) ∧ seen_own cs (id, ci)).
Proof.
  intros Hm id ci Hi Ha.
  assert (Hin : (id, ci) ∈ lockables range items).
  { apply elem_of_lockables. split; [done|]. by apply bool_decide_pack. }
  unfold lock in Hm. rewrite decide_False in Hm by (intros He; rewrite He in Hin; by apply not_elem_of_nil in Hin).
  inversion Hm as [|? ? c cs' ? Hk|? ? c cs' ? Hk| |]; subst; [|by inversion Hk]. clear Hm.
  destruct (free_items _ _) as [?|ups] eqn:Hf; [by inversion Hk|]. destruct (free_items_seen _ _ _ Hf) as [Hsub Hs]. specialize (Hs _ Hin).
  unfold upsert in Hk. destruct (decide (ups = [])) as [->|Hne].
  { inversion Hk; subst. destruct Hs as [He|Hs]; [by apply not_elem_of_nil in He|]. split; [done|by left]. }
  inversion Hk as [| | |? ? b c1 cs1 ? Hk1|]; subst. clear Hk. destruct b; [by inversion Hk1|].
  inversion Hk1 as [|? ? c2 cs2 ? Hk2|? ? c2 cs2 ? Hk2| |]; subst; [|by inversion Hk2]. apply meets_Done in Hk2 as [Hv ->].
  apply verify_seen in Hv as [Hseen Hown]. split.
  - destruct Hs as [He|Hs]; [|eapply seen_mono; [exact Hs|]; by intros x ->%list_elem_of_singleton; left].
    eapply seen_mono; [by apply Hseen|]. intros x ->%list_elem_of_singleton. right. right. by left.
  - destruct (Hown id) as [->|[-> (ci' & He & Hs')]]; [by left|]. right. rewrite Hi. split; [done|].
    apply Hsub, elem_of_lockables in He as [Hi' _]. rewrite Hi in Hi'. injection Hi' as ->.
    eapply seen_own_mono; [exact Hs'|]. intros x ->%list_elem_of_singleton. right. right. by left.
Qed.
End properties.

(** ** Examples *)

Definition ex_range (items : tracked) : list (UUID * cacheItem) := map_to_list items.
Definition ex_tracked (lockID : UUID) (a : actionType) : tracked :=
  {[ 1%N := mkCacheItem lockID a 0 1 false false; 2%N := mkCacheItem (lockID + 1) getAction 1 1 false false ]}.
Definition ex_records : records := {[ 2%N := mkLockRecord 90 getAction; 7%N := mkLockRecord 91 updateAction ]}.

Lemma lock_unlock_exact_witness :
  ∃ items' c', alone (lock ex_range (ex_tracked 11 updateAction)) ex_records = (items', None, c') ∧
    locked_records (ex_tracked 11 updateAction) ex_records c' ∧ locked_items (ex_tracked 11 updateAction) ex_records items'.
Proof.
  destruct (lock_unlock_exact ex_range (λ _, reflexivity _) (ex_tracked 11 updateAction) ex_records)
    as [(_ & items' & c' & He & Hc & Hi & _)|(id & ci & _ & _ & _ & He)].
  - exists items', c'. split; [exact He|]. split; [exact Hc|exact Hi].
  - vm_compute in He. discriminate He.
Defined.

Definition ex_locked : tracked := (alone (lock ex_range (ex_tracked 11 updateAction)) ex_records).1.1.

Definition ex_views : list records := views (lock ex_range (ex_tracked 11 updateAction)) ex_records.

Lemma lock_seen_witness :
  meets (lock ex_range (ex_tracked 11 updateAction)) ex_views (ex_locked, None) ∧
  (seen ex_views (1%N, mkCacheItem 11 updateAction 0 1 false false) ∧
   (ex_locked !! 1%N = Some (mkCacheItem 11 updateAction 0 1 false false) ∨
    ex_locked !! 1%N = Some (set_isLockOwner true (mkCacheItem 11 updateAction 0 1 false false)) ∧
    seen_own ex_views (1%N, mkCacheItem 11 updateAction 0 1 false false))).
Proof.
  assert (Hm : meets (lock ex_range (ex_tracked 11 updateAction)) ex_views (ex_locked, None)).
  { refine (eq_ind _ (meets _ _) (meets_alone _ _) _ _). vm_compute. reflexivity. }
  split; [exact Hm|].
  refine (lock_seen ex_range (λ _, reflexivity _) _ _ _ Hm 1%N (mkCacheItem 11 updateAction 0 1 false false) _ _); [by vm_compute|done].
Defined.

(** Two trackers that want to update the same item both read that it is free.  The first then writes its record and
    sees that it won; the second writes over it and sees that it won, too: the second read does not tell a winner. *)
Example both_locks_granted :
  let ps := [lock ex_range (ex_tracked 11 updateAction); lock ex_range (ex_tracked 21 updateAction)] in
  match (interleave [0; 1; 0; 0; 1; 1] ps ∅).1 with
  | [Done (items1, None); Done (items2, None)] =>
      (ci_isLockOwner <$> items1 !! 1%N) = Some true ∧ (ci_isLockOwner <$> items2 !! 1%N) = Some true
  | _ => False
  end.
Proof. by vm_compute. Qed.

(** The later look at the records finds the conflict only if it comes after the second write; here it comes before. *)
Example both_checks_passed :
  let first := lock ex_range (ex_tracked 11 updateAction) in
  let second := lock ex_range (ex_tracked 21 updateAction) in
  match interleave [0; 1; 0; 0] [first; second] ∅ with
  | ([Done (items1, None); second'], c1) =>
      match interleave [0; 1; 1] [checkTrackedItems ex_range items1; second'] c1 with
      | ([Done (_, None); Done (items2, None)], c2) => (alone (checkTrackedItems ex_range items2) c2).1.2 = None
      | _ => False
      end
  | _ => False
  end.
Proof. by vm_compute. Qed.

(** A lock that is lost, because its time is up or the cache was restarted, passes the check. *)
Example lost_lock_passes :
  (alone (checkTrackedItems ex_range ex_locked) ∅).1.2 = None.
Proof. by vm_compute. Qed.

(** The unlock of a tracker that lost the race deletes the record of the one that won. *)
Example unlock_deletes_others :
  let ps := [lock ex_range (ex_tracked 11 updateAction); lock ex_range (ex_tracked 21 updateAction)] in
  match interleave [0; 1; 0; 0; 1; 1] ps ∅ with
  | ([Done (items1, None); _], c) =>
      c !! 1%N = Some (mkLockRecord 21 updateAction) ∧ (alone (unlock ex_range items1) c).2 !! 1%N = None
  | _ => False
  end.
Proof. by vm_compute. Qed.
