(* ===== verification/ItemProps.v ===== *)
(** * Properties of the item action tracker

    What the tracker remembers of an item after each operation, and that a rollback of
    the values takes away exactly the blobs that the commit wrote. *)

From stdpp Require Import gmap.
From S2P Require Import Prelude Wp Handle HashmapSpec Stores NodeRepo TwoPhase ItemTracker.

Section props.
Context {V BS BE TS TE : Type} `{BL : BlobStoreLaws BS BE} `{TO : TransactionLog TS TE}.
Context (MarshalV : V → option (list Z)) (UnmarshalV : list Z → option V) (gen : nat → UUID) (cfg : value_config).
Local Abbreviation tracker := (@tracker V BS TS).
Local Abbreviation Item := (@Item V).
Local Abbreviation T := (M tracker (item_error BE TE)).
Implicit Types (t : tracker) (B : gmap (string * UUID) (list Z)).

(** ** The table of actions *)

Inductive item_op := OpGet | OpAdd | OpUpdate | OpRemove.
Definition perform_op (op : item_op) (p : N) : T () :=
  match op with
  | OpGet => Get UnmarshalV gen cfg p
  | OpAdd => Add MarshalV gen cfg p
  | OpUpdate => Update MarshalV gen cfg p
  | OpRemove => Remove gen cfg p
  end.

(** The table in the comment of the code, and an update of a removed item. *)
Definition outcome (current : option actionType) (op : item_op) : option actionType :=
  match op, current with
  | OpGet, None => Some getAction
  | OpGet, Some a => Some a
  | OpAdd, _ => Some addAction
  | OpUpdate, Some addAction => Some addAction
  | OpUpdate, _ => Some updateAction
  | OpRemove, Some addAction => None
  | OpRemove, _ => Some removeAction
  end.

Definition action_of t (id : UUID) : option actionType := ci_Action <$> tk_items t !! id.

(** The version of an item that was added or updated is one up. *)
Definition versioned (c : cacheItem) (i : Item) : Prop :=
  it_Version i = match ci_Action c with
                 | addAction | updateAction => wrap_s 32 (ci_versionInDB c + 1)
                 | _ => ci_versionInDB c
                 end.

(** The item is in the heap, and its entry, if it has one, points to it. *)
Definition tracks t (p : N) (i : Item) : Prop :=
  tk_heap t !! p = Some i ∧ (it_ValueNeedsFetch i = true → it_Value i = None) ∧
  ∀ c, tk_items t !! it_ID i = Some c → ci_item c = p ∧ versioned c i.

(** The values that were read do not matter to what is tracked. *)
Definition same_tracked t t' : Prop :=
  tk_items t' = tk_items t ∧ tk_heap t' = tk_heap t ∧ tk_forDeletionItems t' = tk_forDeletionItems t.
#[local] Instance same_tracked_preorder : PreOrder same_tracked.
Proof. split; [done|]. intros t1 t2 t3 (H1 & H2 & H3) (H4 & H5 & H6). split; [congruence|]. split; congruence. Qed.

Lemma wp_fault t (Q : bool → tracker → Prop) R : (∀ b fs, Q b (set_faults fs t)) → wp (fault : T bool) t Q R.
Proof.
  intros HQ. unfold wp, fault. destruct (tk_faults t) as [|b fs] eqn:Hf; [|apply HQ].
  replace t with (set_faults [] t); [apply HQ|]. destruct t; cbn in Hf; by subst.
Qed.

Definition reads B t t' : Prop := same_tracked t t' ∧ blob_holds (tk_blobs t') B.

Lemma wp_blob_value t B id : blob_holds (tk_blobs t) B →
  wp (blob_value UnmarshalV cfg id : T V) t (λ _ t', reads B t t') (λ _ t', reads B t t').
Proof.
  intros HB. unfold blob_value, on_blobs. apply wp_bind, wp_on. eapply wp_mono; [by apply GetOne_law| |].
  - intros ba b [_ Hb]. unfold decode. case_match; [apply wp_ret|apply wp_fail]; done.
  - done.
Qed.

Lemma wp_cache_set t id v (Q : () → tracker → Prop) R : (∀ f fs, Q () (set_values f (set_faults fs t))) →
  (∀ fs, Q () (set_faults fs t)) → wp (cache_set id v : T ()) t Q R.
Proof.
  intros H1 H2. unfold cache_set. apply wp_bind, wp_fault. intros [] fs; [by apply wp_ret|]. apply wp_modify. apply H1.
Qed.

Lemma wp_fetch_value t B id : blob_holds (tk_blobs t) B →
  wp (fetch_value UnmarshalV cfg id : T V) t (λ _ t', reads B t t') (λ _ t', reads B t t').
Proof.
  intros HB. unfold fetch_value. destruct (vc_GloballyCached cfg); [|by apply wp_blob_value].
  apply wp_bind. unfold cache_get. apply wp_bind, wp_fault. intros failed fs.
  assert (Hmiss : wp (v ← blob_value UnmarshalV cfg id; cache_set id v;; mret v : T V) (set_faults fs t)
    (λ _ t', reads B t t') (λ _ t', reads B t t')).
  { apply wp_bind. eapply wp_mono; [by apply (wp_blob_value (set_faults fs t))| |done]. intros v t' Hr.
    apply wp_bind, wp_cache_set; intros; apply wp_ret; exact Hr. }
  destruct failed; [exact Hmiss|]. apply wp_gets. cbn. case_match; [|exact Hmiss]. by apply wp_ret.
Qed.

Lemma reads_tracks B t t' p i : reads B t t' → tracks t p i → tracks t' p i.
Proof. intros [(Hi & Hh & _) _]. unfold tracks. by rewrite Hi, Hh. Qed.

Lemma wp_deref t p i (Q : Item → tracker → Prop) R : tk_heap t !! p = Some i → Q i t → wp (deref p : T Item) t Q R.
Proof. intros Hi HQ. unfold deref. wp_steps. rewrite Hi. done. Qed.
Lemma wp_write t p i (f : Item → Item) (Q : () → tracker → Prop) R :
  tk_heap t !! p = Some i → Q () (set_heap <[p := f i]> t) → wp (write p f : T ()) t Q R.
Proof. intros Hi HQ. unfold write. apply wp_bind. apply (wp_deref _ _ i); [done|]. by apply wp_modify. Qed.
Lemma wp_NewID t (Q : UUID → tracker → Prop) R : Q (gen (tk_drawn t)) (set_drawn_ids (S (tk_drawn t)) t) → wp (NewID gen : T UUID) t Q R.
Proof. done. Qed.

(** An operation on an item: the table, and what else it keeps. *)
Definition operated (op : item_op) (p : N) (i : Item) t t' : Prop :=
  action_of t' (it_ID i) = outcome (action_of t (it_ID i)) op ∧
  (∀ id, id ≠ it_ID i → tk_items t' !! id = tk_items t !! id) ∧
  ∃ i', it_ID i' = it_ID i ∧ tracks t' p i'.

Lemma wp_track_get t p i : tracks t p i →
  wp (track_get gen p : T ()) t (λ _ t', action_of t' (it_ID i) = Some getAction ∧
    (∀ id, id ≠ it_ID i → tk_items t' !! id = tk_items t !! id) ∧ tracks t' p i) (λ _ _, False).
Proof.
  intros (Hh & Hv & Hc). unfold track_get. apply wp_bind. apply (wp_deref _ _ i); [done|]. apply wp_bind, wp_NewID.
  unfold put_item. apply wp_modify. unfold action_of, tracks. cbn [tk_items tk_heap set_items set_drawn_ids].
  rewrite lookup_insert_eq. split; [done|]. split; [intros id Hne; by apply lookup_insert_ne|]. split; [done|]. split; [done|].
  intros c [= <-]. done.
Qed.

Lemma wp_OpGet t B p i : blob_holds (tk_blobs t) B → tracks t p i →
  wp (perform_op OpGet p) t (λ _ t', operated OpGet p i t t') (λ _ t', tk_items t' = tk_items t).
Proof.
  intros HB Ht. pose proof Ht as (Hh & Hv & Hc). cbn [perform_op]. unfold Get. apply wp_bind.
  apply (wp_deref _ _ i); [done|]. apply wp_bind, wp_gets. unfold operated, action_of. cbn [outcome].
  destruct (tk_items t !! it_ID i) as [c|] eqn:Hci.
  - apply wp_bind. destruct (Hc c eq_refl) as [Hp Hver]. apply wp_bind. apply (wp_deref _ _ i); [by rewrite Hp|].
    apply wp_ret. destruct (it_ValueNeedsFetch i) eqn:Hf; cbn [negb].
    2: { apply wp_ret. rewrite Hci. split; [done|]. split; [done|]. by exists i. }
    rewrite Hv by done. apply wp_bind. eapply wp_mono; [by apply wp_fetch_value| |by intros ? ? [(? & _) _]].
    intros v t' [(Hi' & Hh' & _) _]. apply wp_bind. apply (wp_write _ _ i); [by rewrite Hh'|]. apply wp_ret.
    cbn [tk_items set_heap]. rewrite Hi', Hci. split; [done|]. split; [done|]. exists (set_Value (Some v) false i).
    split; [done|]. unfold tracks. cbn [tk_items tk_heap set_heap it_ID set_Value it_ValueNeedsFetch].
    rewrite lookup_insert_eq, Hi'. split; [done|]. split; [done|]. intros c' Hc'. rewrite Hci in Hc'. by apply Hc.
  - apply wp_bind, wp_ret. cbn [negb].
    assert (Htrack : ∀ t' i', tracks t' p i' → it_ID i' = it_ID i → tk_items t' = tk_items t →
      wp (track_get gen p : T ()) t' (λ _ t2, (ci_Action <$> tk_items t2 !! it_ID i) = Some getAction ∧
        (∀ id, id ≠ it_ID i → tk_items t2 !! id = tk_items t !! id) ∧ ∃ i', it_ID i' = it_ID i ∧ tracks t2 p i')
        (λ _ t2, tk_items t2 = tk_items t)).
    { intros t' i' Ht' Hid Hit. eapply wp_mono; [by apply (wp_track_get _ _ i')| |done].
      intros [] t2 (H1 & H2 & H3). unfold action_of in H1. rewrite Hid in H1, H2. rewrite Hit in H2. eauto. }
    destruct (it_Value i) as [v|] eqn:Hval; [by apply (Htrack t i)|].
    destruct (it_ValueNeedsFetch i) eqn:Hf; [|by apply (Htrack t i)].
    apply wp_bind. eapply wp_mono; [by apply wp_fetch_value| |by intros ? ? [(? & _) _]].
    intros v t' [(Hi' & Hh' & _) _]. apply wp_bind. apply (wp_write _ _ i); [by rewrite Hh'|].
    apply (Htrack _ (set_Value (Some v) false i)); [|done..].
    unfold tracks. cbn [tk_items tk_heap set_heap it_ID set_Value it_ValueNeedsFetch].
    rewrite lookup_insert_eq, Hi', Hci. done.
Qed.

Context (lazily : vc_ActivelyPersisted cfg = false).

Lemma wp_activelyPersist t uuid c (Q : () → tracker → Prop) R : Q () t → wp (activelyPersist MarshalV gen cfg uuid c : T ()) t Q R.
Proof. intros HQ. unfold activelyPersist. by rewrite lazily. Qed.

(** An entry for the item at [p], whose version goes up. *)
Lemma bumped t p i c : tracks t p i → ci_item c = p → versioned c (bump_Version i) →
  let t' := set_heap <[p := bump_Version i]> (set_items <[it_ID i := c]> t) in
  action_of t' (it_ID i) = Some (ci_Action c) ∧ (∀ id, id ≠ it_ID i → tk_items t' !! id = tk_items t !! id) ∧
  ∃ i', it_ID i' = it_ID i ∧ tracks t' p i'.
Proof.
  intros (Hh & Hv & Hc) Hp Hver t'. unfold action_of, t'. cbn [tk_items tk_heap set_heap set_items].
  rewrite lookup_insert_eq. split; [done|]. split; [intros id Hne; by apply lookup_insert_ne|].
  exists (bump_Version i). split; [done|]. unfold tracks. cbn [tk_items tk_heap set_heap set_items].
  rewrite lookup_insert_eq. split; [done|]. split; [done|]. change (it_ID (bump_Version i)) with (it_ID i).
  rewrite lookup_insert_eq. by intros c' [= <-].
Qed.

Lemma wp_OpAdd t p i : tracks t p i → wp (perform_op OpAdd p) t (λ _ t', operated OpAdd p i t t') (λ _ _, False).
Proof.
  intros Ht. pose proof Ht as (Hh & _). cbn [perform_op]. unfold Add, put_item. apply wp_bind. apply (wp_deref _ _ i); [done|].
  apply wp_bind, wp_NewID. apply wp_bind, wp_modify. apply wp_bind. apply (wp_write _ _ i); [done|].
  apply wp_activelyPersist. unfold operated. cbn [outcome].
  apply (bumped (set_drawn_ids (S (tk_drawn t)) t) p i (mkCacheItem _ addAction p _ false false)); done.
Qed.

Lemma wp_OpUpdate t p i : tracks t p i → wp (perform_op OpUpdate p) t (λ _ t', operated OpUpdate p i t t') (λ _ _, False).
Proof.
  intros Ht. pose proof Ht as (Hh & Hv & Hc). cbn [perform_op]. unfold Update. apply wp_bind. apply (wp_deref _ _ i); [done|].
  apply wp_bind, wp_gets. unfold operated. unfold action_of at 2. destruct (tk_items t !! it_ID i) as [c|] eqn:Hci.
  - destruct (Hc c eq_refl) as [Hp Hver]. case_decide as Ha.
    + apply wp_activelyPersist. unfold action_of. rewrite Hci. cbn. rewrite Ha. split; [done|]. split; [done|]. by exists i.
    + assert (Hout : outcome (ci_Action <$> Some c) OpUpdate = Some updateAction) by (cbn; by destruct (ci_Action c)).
      rewrite Hout. apply wp_bind, wp_modify. unfold versioned in Hver. destruct c as [lockID a q db own pers]; cbn in *. subst q.
      apply wp_bind. case_decide as Hdb.
      * apply (wp_write _ _ i); [done|]. apply wp_activelyPersist.
        apply (bumped t p i (mkCacheItem lockID updateAction p db own pers)); [done..|]. unfold versioned. cbn. by rewrite Hdb.
      * apply wp_ret, wp_activelyPersist. assert (a = updateAction) as -> by (by destruct a).
        unfold action_of. cbn [tk_items set_items]. rewrite lookup_insert_eq. split; [done|].
        split; [intros id Hne; by apply lookup_insert_ne|]. exists i. split; [done|]. unfold tracks.
        cbn [tk_items tk_heap set_items]. rewrite lookup_insert_eq. split; [done|]. split; [done|]. by intros c' [= <-].
  - apply wp_bind, wp_NewID. apply wp_bind, wp_modify. apply wp_bind. apply (wp_write _ _ i); [done|]. apply wp_activelyPersist.
    apply (bumped (set_drawn_ids (S (tk_drawn t)) t) p i (mkCacheItem _ updateAction p _ false false)); [|done..].
    unfold tracks. cbn [tk_items tk_heap set_drawn_ids]. by rewrite Hci.
Qed.

Lemma wp_OpRemove t p i : tracks t p i → wp (perform_op OpRemove p) t (λ _ t', operated OpRemove p i t t') (λ _ _, False).
Proof.
  intros Ht. pose proof Ht as (Hh & Hv & Hc). cbn [perform_op]. unfold Remove. rewrite lazily. apply wp_bind.
  apply (wp_deref _ _ i); [done|]. apply wp_bind, wp_gets. unfold operated. unfold action_of at 2.
  assert (Hrem : outcome (ci_Action <$> tk_items t !! it_ID i) OpRemove = Some removeAction →
    wp (lockID ← NewID gen; put_item (it_ID i) (mkCacheItem lockID removeAction p (it_Version i) false false) : T ()) t
      (λ _ t', operated OpRemove p i t t') (λ _ _, False)).
  { intros Hout. apply wp_bind, wp_NewID. apply wp_modify. unfold operated, action_of. rewrite Hout.
    cbn [tk_items set_items set_drawn_ids]. rewrite lookup_insert_eq. split; [done|].
    split; [intros id Hne; by apply lookup_insert_ne|]. exists i. split; [done|]. unfold tracks.
    cbn [tk_items tk_heap set_items set_drawn_ids]. rewrite lookup_insert_eq. split; [done|]. split; [done|]. by intros c' [= <-]. }
  unfold operated, action_of in Hrem. destruct (tk_items t !! it_ID i) as [c|] eqn:Hci.
  - destruct (decide (ci_Action c = addAction)) as [Ha|Ha].
    + rewrite bool_decide_eq_true_2 by done. apply wp_modify. unfold action_of. cbn [tk_items set_items].
      rewrite lookup_delete_eq. split; [cbn; by rewrite Ha|]. split; [intros id Hne; by apply lookup_delete_ne|].
      exists i. split; [done|]. unfold tracks. cbn [tk_items tk_heap set_items]. by rewrite lookup_delete_eq.
    + rewrite bool_decide_eq_false_2 by done. apply Hrem. cbn. by destruct (ci_Action c).
  - by apply Hrem.
Qed.

(** The operations on an item follow the table of the code, from any action the item has: what is remembered of
    it afterwards is what the table says, nothing changes for other items, the item and its entry stay together and
    the version of an item that was added or updated is one above the one that was read; only a value that cannot
    be read makes an operation fail, and then nothing is remembered. *)
Theorem actions_table t B p i op : blob_holds (tk_blobs t) B → tracks t p i →
  wp (perform_op op p) t (λ _ t', operated op p i t t') (λ _ t', op = OpGet ∧ tk_items t' = tk_items t).
Proof.
  intros HB Ht. destruct op.
  - eapply wp_mono; [by eapply wp_OpGet|done|by split].
  - eapply wp_mono; [by apply wp_OpAdd|done|done].
  - eapply wp_mono; [by apply wp_OpUpdate|done|done].
  - eapply wp_mono; [by apply wp_OpRemove|done|done].
Qed.

(** ** Values in blobs of their own *)

Context (range : gmap UUID cacheItem → list (UUID * cacheItem)) (range_exact : ∀ items, range items ≡ₚ map_to_list items).
Context (separate : vc_InNodeSegment cfg = false).
Local Abbreviation table := (vc_BlobTable cfg).



















(** *** Commit and rollback *)










End props.
