(* ===== verification/TwoPhaseCommit.v ===== *)
(** * common/twophasecommittransaction.go and twophasecommittransaction2.go: the calls

    Begin, Phase1Commit, Phase2Commit and Rollback, with what they are made of.  The
    loop of phase 1 and that of a reader's commit run with fuel and answer [None]
    when it is used up. *)

From stdpp Require Import gmap.
From S2P Require Import Prelude Wp Handle HashmapSpec Stores NodeRepo TwoPhase.

(** The lock of [handleRegistrySectorLockTimeout]. *)
Definition DTrollbk : lock_name := NamedKey "DTrollbk".
Definition defaultLockDuration : Z := 5 * 60 * 10 ^ 9.

Section calls.
Context {RS RE BS BE Nd LS LE TS TE SS SE CS KI KE : Type} `{RO : Stores.Registry RS RE} `{BO : Stores.BlobStore BS BE} `{MD : MetaData Nd}.
Context `{LO : Locker LS LE} `{TO : TransactionLog TS TE} `{SO : StoreRepository SS SE}.
Context `{CO : NodeCache CS Nd} `{VO : Versioned Nd} `{EO : SectorErrors (repo_error RE BE)}.
Context (gen : nat → UUID).

Local Abbreviation nodes_of_stores := (list (StoreInfo * list Nd)).
Local Abbreviation handles_of_stores := (list (RegistryPayload Handle)).
Local Abbreviation error := (tx_error RE BE LE TE SE KE).
Local Abbreviation txstate := (@txstate RS BS Nd LS TS SS CS KI).
Local Abbreviation classes := (@classes Nd).
Local Abbreviation prepared := (@prepared Nd).
Local Abbreviation btreeBackend := (@btreeBackend Nd KI).
Local Abbreviation X := (M txstate error).
Context (H : @hooks RS RE BS BE Nd LS LE TS TE SS SE CS KI KE).

Implicit Types (ks : list LockKey) (c : classes).

(** ** The log of the transaction *)

Definition log (f : nat) (p : payload) : X () :=
  modify_tx (set_committedState f);;
  if decide (f = unknown) then mret ()
  else tid ← tx t_transactionID; on_log (tlog_Add tid f p).

Definition removeLogs : X () := tid ← tx t_transactionID; on_log (tlog_Remove tid).

(** Restores the handles of a transaction's priority log. *)
Definition priorityRollback (tid : UUID) : X () :=
  enabled ← gets (λ x, plog_IsEnabled (x_log x));
  if negb enabled then mret ()
  else
    uhAndrh ← on_log (plog_Get tid);
    match uhAndrh with
    | None => on_log (plog_Remove tid)
    | Some hs =>
        handle (on_world (on_registry (registry_UpdateNoLocks false hs)))
          (λ _, on_log (plog_Remove tid))
          (λ e, fail (ESector tid e))
    end.

(** ** The state of a transaction *)

Definition HasBegun (t : @Transaction Nd KI) : bool := (0 <=? t_phaseDone t)%Z && (t_phaseDone t <? 2)%Z.

Definition timedOut (startTime : Z) : X () :=
  x ← gets (λ x, x);
  if x_ctxDone x then fail ETimedOut
  else if (t_maxTime (x_tx x) <=? w_now (x_world x) - startTime)%Z then fail ETimedOut
  else mret ().

(** ** The B-trees *)

(** A function of each B-tree, until one fails. *)
Fixpoint each_btree (f : nat → X ()) (js : list nat) : X () :=
  match js with
  | [] => mret ()
  | i :: js => f i;; each_btree f js
  end.
Definition for_btrees (f : nat → X ()) : X () :=
  bs ← tx t_btreesBackend; each_btree f (seq 0 (length bs)).

Definition has_items_at (i : nat) : X bool :=
  bs ← tx t_btreesBackend;
  mret (match bs !! i with Some b => hasTrackedItems_of H b | None => false end).
Definition if_tracked (f : nat → X ()) (i : nat) : X () :=
  has ← has_items_at i; if (has : bool) then f i else mret ().

Definition hasTrackedItems : X bool := tx (λ t, existsb (hasTrackedItems_of H) (t_btreesBackend t)).
Definition checkTrackedItems : X () := for_btrees (if_tracked (checkTrackedItems_of H)).
Definition lockTrackedItems : X () :=
  for_btrees (if_tracked (λ i, maxTime ← tx t_maxTime; lockTrackedItems_of H i maxTime)).
Fixpoint unlock_each (lastErr : option error) (js : list nat) : X (option error) :=
  match js with
  | [] => mret lastErr
  | i :: js => err ← attempt lastErr (if_tracked (unlockTrackedItems_of H) i); unlock_each err js
  end.
Definition unlockTrackedItems : X () :=
  bs ← tx t_btreesBackend;
  err ← unlock_each None (seq 0 (length bs));
  end_attempt err.
Definition commitTrackedItemsValues : X () := for_btrees (commitTrackedItemsValues_of H).
Definition refetchAndMergeModifications : X () := for_btrees (refetchAndMerge H).

(** The blobs of the B-trees' values, for a rollback or for the end of a commit. *)
Fixpoint values_of (f : nat → X (option (BlobsPayload UUID))) (js : list nat) : X (list (bool * BlobsPayload UUID)) :=
  match js with
  | [] => mret []
  | i :: js =>
      r ← f i;
      bs ← tx t_btreesBackend;
      rest ← values_of f js;
      mret (match r, bs !! i with
            | Some p, Some b =>
                if decide (bp_Blobs p = []) then rest
                else (s_IsValueDataGloballyCached (bb_storeInfo b), p) :: rest
            | _, _ => rest
            end)
  end.
Definition getForRollbackTrackedItemsValues : X (list (bool * BlobsPayload UUID)) :=
  bs ← tx t_btreesBackend; values_of (getForRollbackTrackedItemsValues_of H) (seq 0 (length bs)).
Definition getObsoleteTrackedItemsValues : X (list (bool * BlobsPayload UUID)) :=
  bs ← tx t_btreesBackend; values_of (getObsoleteTrackedItemsValues_of H) (seq 0 (length bs)).

Fixpoint delete_values (lastErr : option error) (ids : list UUID) : X (option error) :=
  match ids with
  | [] => mret lastErr
  | id :: ids => err ← attempt lastErr (deleteCachedValue H id); delete_values err ids
  end.
Fixpoint delete_items (lastErr : option error) (itemsForDelete : list (bool * BlobsPayload UUID)) : X (option error) :=
  match itemsForDelete with
  | [] => mret lastErr
  | (cached, p) :: l =>
      err ← (if (cached : bool) then delete_values lastErr (bp_Blobs p) else mret lastErr);
      err ← attempt err (on_world (on_blobStore (blobStore_Remove [p])));
      delete_items err l
  end.
Definition deleteTrackedItemsValues (itemsForDelete : list (bool * BlobsPayload UUID)) : X () :=
  err ← delete_items None itemsForDelete; end_attempt err.

(** ** The nodes by their actions *)

Definition add_store (st : Store) (ns : list Nd) (l : nodes_of_stores) : nodes_of_stores :=
  if decide (ns = []) then l else (s_info st, ns) :: l.
Definition with_action (a : actionType) (ns : list cachedNode) : list Nd :=
  cn_node <$> filter (λ n, cn_action n = a) ns.
Definition is_new_root (b : btreeBackend) (n : cachedNode) : bool :=
  bool_decide (bb_count b = 0)%Z && bool_decide (cn_action n = addAction) &&
  bool_decide (s_RootNodeID (bb_storeInfo b) = GetID (cn_node n)).

Definition classify_store (b : btreeBackend) (cached : list cachedNode) (c : classes) : classes :=
  let roots := filter (λ n, is_new_root b n = true) cached in
  let rest := filter (λ n, is_new_root b n ≠ true) cached in
  let st := bb_storeInfo b in
  mkClasses (add_store st (with_action updateAction rest) (cl_updated c))
            (add_store st (with_action removeAction rest) (cl_removed c))
            (add_store st (with_action addAction rest) (cl_added c))
            (add_store st (with_action getAction rest) (cl_fetched c))
            (add_store st (cn_node <$> roots) (cl_roots c)).

(** Each store's cache is ranged over in an order of its own. *)
Fixpoint classify_stores (n : nat) (bs : list btreeBackend) : classes :=
  match bs with
  | [] => mkClasses [] [] [] [] []
  | b :: bs => classify_store b (range H n (bb_localCache b)) (classify_stores (S n) bs)
  end.
Definition classifyModifiedNodes : X classes := λ x,
  let bs := t_btreesBackend (x_tx x) in
  (Ret (classify_stores (x_ranges x) bs), set_ranges (x_ranges x + length bs) x).

(** ** The locks of the nodes *)

Definition draw : X UUID := on_world (NewUUID gen).
Definition CreateLockKey (k : lock_name) : X LockKey := id ← draw; mret (mkLockKey k id).

(** A lock key for each ID, the first one that is made for it. *)
Fixpoint create_keys (ids : list UUID) (ks : gmap UUID LockKey) : X (gmap UUID LockKey) :=
  match ids with
  | [] => mret ks
  | id :: ids =>
      k ← CreateLockKey (NodeKey id);
      create_keys ids (match ks !! id with None => <[id := k]> ks | Some _ => ks end)
  end.
(** The keys that are held stay, those of other nodes are unlocked. *)
Fixpoint keep_keys (held : list LockKey) (lookup : gmap UUID LockKey) : X (gmap UUID LockKey) :=
  match held with
  | [] => mret lookup
  | nk :: held =>
      match lk_Key nk with
      | NodeKey id =>
          match lookup !! id with
          | Some _ => keep_keys held (<[id := nk]> lookup)
          | None => ignore (on_locks (locks_Unlock [nk]));; keep_keys held lookup
          end
      | NamedKey _ => ignore (on_locks (locks_Unlock [nk]));; keep_keys held lookup
      end
  end.

Definition mergeNodesKeys (updatedNodes removedNodes : nodes_of_stores) : X () :=
  held ← tx t_nodesKeys;
  if decide (updatedNodes = [] ∧ removedNodes = []) then
    ignore (on_locks (locks_Unlock held));;
    modify_tx (set_nodesKeys [])
  else
    let ids := extractUUIDs updatedNodes ++ extractUUIDs removedNodes in
    lookup ← create_keys ids ∅;
    lookup ← keep_keys held lookup;
    modify_tx (set_nodesKeys (omap (lookup !!.) (sort_ids ids))).

Definition unlockNodesKeys : X () :=
  ks ← tx t_nodesKeys;
  if decide (ks = []) then mret ()
  else
    ignore (on_locks (locks_Unlock ks));;
    modify_tx (set_nodesKeys []).
Definition nodesKeysExist : X bool := tx (λ t, bool_decide (t_nodesKeys t ≠ [])).
Definition nodesKeysNilOrLocked : X bool :=
  ks ← tx t_nodesKeys;
  if decide (ks = []) then mret true
  else handle (on_locks (locks_IsLocked ks)) (λ ok, mret ok) (λ _, mret false).
(** ** The stores' counts *)

Definition with_delta (st : Store) (delta timestamp : Z) : Store :=
  mkStore (s_info st) (s_Name st) (s_RootNodeID st) (s_Count st) delta timestamp (s_IsValueDataGloballyCached st).

Definition commit_delta (b : btreeBackend) : Z := wrap_s 64 (s_Count (bb_storeInfo b) - bb_count b).
Definition getCommitStoresInfo (now : Z) (bs : list btreeBackend) : list Store :=
  (λ b, with_delta (bb_storeInfo b) (commit_delta b) (UnixMilli now)) <$> filter (λ b, commit_delta b ≠ 0%Z) bs.
Definition getRollbackStoresInfo (bs : list btreeBackend) : list Store :=
  (λ b, with_delta (bb_storeInfo b) (wrap_s 64 (bb_count b - s_Count (bb_storeInfo b))) (s_Timestamp (bb_storeInfo b))) <$> bs.

Definition commitStores : X () :=
  x ← gets (λ x, x);
  let stores := getCommitStoresInfo (w_now (x_world x)) (t_btreesBackend (x_tx x)) in
  if decide (stores = []) then mret () else on_stores (srepo_Update stores);; mret ().

Definition rollbackStores : X () :=
  bs ← tx t_btreesBackend;
  let storesToUpdate := getRollbackStoresInfo (filter (λ b, bb_created b = false) bs) in
  if decide (storesToUpdate = []) then mret () else on_stores (srepo_Update storesToUpdate);; mret ().

(** The stores that the transaction created are removed. *)
Fixpoint remove_created (lastErr : option error) (bs : list btreeBackend) : X (option error) :=
  match bs with
  | [] => mret lastErr
  | b :: bs =>
      err ← (if bb_created b then attempt lastErr (on_stores (srepo_Remove (s_Name (bb_storeInfo b)))) else mret lastErr);
      remove_created err bs
  end.

(** ** Undoing *)

(** A step of a rollback, for the states of the log in which it was done. *)
Definition if_state (p : nat → bool) (lastErr : option error) (m : X ()) : X (option error) :=
  st ← tx t_committedState; if p st then attempt lastErr m else mret lastErr.

Definition rollback (rollbackTrackedItemsValues : bool) : X () :=
  st ← tx t_committedState;
  if decide (st = addActivelyPersistedItem) then
    itemsForDelete ← getForRollbackTrackedItemsValues;
    err ← attempt None (deleteTrackedItemsValues itemsForDelete);
    ignore removeLogs;;
    ignore (log unknown NoPayload);;
    end_attempt err
  else if decide (finalizeCommit < st) then fail ECommitted
  else
    err ← if_state (λ st, beforeFinalize <=? st) None (tid ← tx t_id; on_log (plog_Remove tid));
    c ← classifyModifiedNodes;
    err ← if_state (λ st, commitStoreInfo <? st) err rollbackStores;
    err ← if_state (λ st, commitAddedNodes_state <? st) err
      (on_world (rollbackAddedNodes (convertToRegistryRequestPayload (cl_added c)) (convertToBlobRequestPayload (cl_added c))));
    err ← if_state (λ st, commitRemovedNodes_state <? st) err
      (locked ← nodesKeysExist; on_world (rollbackRemovedNodes locked (convertToRegistryRequestPayload (cl_removed c))));
    err ← if_state (λ st, commitUpdatedNodes_state <? st) err
      (locked ← nodesKeysExist; on_world (rollbackUpdatedNodes locked (convertToRegistryRequestPayload (cl_updated c))));
    unlockNodesKeys;;
    err ← if_state (λ st, commitNewRootNodes_state <? st) err
      (st ← tx t_committedState;
       on_world (rollbackNewRootNodes st (convertToRegistryRequestPayload (cl_roots c)) (convertToBlobRequestPayload (cl_roots c))));
    err ← if_state (λ st, rollbackTrackedItemsValues && (commitTrackedItemsValues_state <=? st)) err
      (itemsForDelete ← getForRollbackTrackedItemsValues; deleteTrackedItemsValues itemsForDelete);
    err ← if_state (λ st, lockTrackedItems_state <=? st) err unlockTrackedItems;
    err ← (st ← tx t_committedState; bs ← tx t_btreesBackend;
           if createStore <=? st then remove_created err bs else mret err);
    ignore removeLogs;;
    ignore (log unknown NoPayload);;
    end_attempt err.

(** The registry says that another transaction holds the lock of a sector: its
    priority log is restored and its lock released. *)
Definition handleRegistrySectorLockTimeout (e : repo_error RE BE) (userData : option LockKey) : X () :=
  lk ← CreateLockKey DTrollbk;
  ok ← handle (on_locks (locks_DualLock defaultLockDuration [lk])) (λ ok, mret ok) (λ _, mret false);
  if negb ok then fail (EWorld e)
  else
    err ← attempt None
      (match userData with
       | None => fail (EWorld e)
       | Some ud =>
           handle (priorityRollback (lk_LockID ud))
             (λ _, ignore (on_locks (locks_Unlock [ud])))
             (λ _, fail (EWorld e))
       end);
    ignore (on_locks (locks_Unlock [lk]));;
    end_attempt err.

(** A step of the node repository whose [sop.Error] is handled: it then did not
    succeed, and its result is [dflt]. *)
Definition or_sector {A} (dflt : A) (m : M (@world RS BS Nd) (repo_error RE BE) A) : X A :=
  handle (on_world m) (λ a, mret a) (λ e,
    match e with
    | EWorld e' =>
        match as_sop_Error e' with
        | None => fail e
        | Some ud => handleRegistrySectorLockTimeout e' ud;; mret dflt
        end
    | _ => fail e
    end).

(** ** Phase 1 *)

(** What the turns of the loop of phase 1 hand on. *)
Record progress := mkProgress {
  pr_classes : classes;
  pr_preCommitTID : UUID;
  pr_needsRefetchAndMerge : bool;
  pr_retryCount : nat;
  pr_lockRetryCount : nat;
  pr_updated : handles_of_stores;
  pr_removed : handles_of_stores;
}.
Definition set_retries (n m : nat) (l : progress) : progress :=
  mkProgress (pr_classes l) (pr_preCommitTID l) (pr_needsRefetchAndMerge l) n m (pr_updated l) (pr_removed l).
Definition set_needs (b : bool) (l : progress) : progress :=
  mkProgress (pr_classes l) (pr_preCommitTID l) b (pr_retryCount l) (pr_lockRetryCount l) (pr_updated l) (pr_removed l).
Definition set_classes (c : classes) (l : progress) : progress :=
  mkProgress c (pr_preCommitTID l) (pr_needsRefetchAndMerge l) (pr_retryCount l) (pr_lockRetryCount l) (pr_updated l) (pr_removed l).
Definition set_preCommitTID (tid : UUID) (l : progress) : progress :=
  mkProgress (pr_classes l) tid (pr_needsRefetchAndMerge l) (pr_retryCount l) (pr_lockRetryCount l) (pr_updated l) (pr_removed l).
Definition set_updated (hs : handles_of_stores) (l : progress) : progress :=
  mkProgress (pr_classes l) (pr_preCommitTID l) (pr_needsRefetchAndMerge l) (pr_retryCount l) (pr_lockRetryCount l) hs (pr_removed l).
Definition set_removed (hs : handles_of_stores) (l : progress) : progress :=
  mkProgress (pr_classes l) (pr_preCommitTID l) (pr_needsRefetchAndMerge l) (pr_retryCount l) (pr_lockRetryCount l) (pr_updated l) hs.

(** A turn that could not get the locks: the loop sleeps and goes on. *)
Definition lock_retry (l : progress) : X progress :=
  let n := S (pr_lockRetryCount l) in
  if decide (phase1LockAcquireMaxRetryCount ≤ n) then fail ELockRetries
  else RandomSleep H;; mret (set_retries (pr_retryCount l) n l).

(** The second lock, of the nodes as they are now; [inl] starts the next turn. *)
Definition relock (l : progress) : X (progress + progress) :=
  ks ← tx t_nodesKeys;
  maxTime ← tx t_maxTime;
  ok ← handle (on_locks (locks_DualLock maxTime ks)) (λ ok, mret ok) (λ _, mret false);
  if (ok : bool) then mret (inr l)
  else
    ignore (on_locks (locks_Unlock ks));;
    l ← lock_retry l;
    mret (inl (set_needs true l)).

(** After a turn without the locks the nodes are fetched again. *)
Definition remerge (l : progress) : X (progress + progress) :=
  if negb (pr_needsRefetchAndMerge l) then mret (inr l)
  else
    refetchAndMergeModifications;;
    log lockTrackedItems_state NoPayload;;
    lockTrackedItems;;
    c ← classifyModifiedNodes;
    mergeNodesKeys (cl_updated c) (cl_removed c);;
    relock (set_needs false (set_classes c l)).

Definition modify_prepared (f : prepared → prepared) : X () := modify_tx (λ t, set_prepared (f (t_prepared t)) t).

(** Writing what the transaction changed: whether it succeeded. *)
Definition stage_values (l : progress) : X progress :=
  itemsForDelete ← getForRollbackTrackedItemsValues;
  log commitTrackedItemsValues_state (ValuesPayload itemsForDelete);;
  commitTrackedItemsValues;;
  if decide (pr_preCommitTID l = NilUUID) then mret l
  else ignore (on_log (tlog_Remove (pr_preCommitTID l)));; mret (set_preCommitTID NilUUID l).

Definition stage_roots (nodes : nodes_of_stores) : X bool :=
  log commitNewRootNodes_state (NodesPayload (convertToRegistryRequestPayload nodes) (convertToBlobRequestPayload nodes));;
  '(ok, hs) ← or_sector (false, []) (commitNewRootNodes nodes);
  modify_prepared (set_newRootNodeHandles hs);;
  mret ok.

Definition stage_fetched (nodes : nodes_of_stores) : X bool :=
  log areFetchedItemsIntact_state NoPayload;;
  on_world (areFetchedItemsIntact nodes).

Definition stage_updated (l : progress) : X (bool * progress) :=
  '(ok, hs) ← or_sector (false, []) (commitUpdatedNodes gen (cl_updated (pr_classes l)));
  log commitUpdatedNodes_state (BlobsIDsPayload (extractInactiveBlobsIDs hs));;
  mret (ok, set_updated hs l).

Definition stage_removed (l : progress) : X (bool * progress) :=
  let nodes := cl_removed (pr_classes l) in
  log commitRemovedNodes_state (VidsPayload (convertToRegistryRequestPayload nodes));;
  '(ok, hs) ← on_world (commitRemovedNodes nodes);
  mret (ok, set_removed hs l).

Definition stage_added (nodes : nodes_of_stores) : X bool :=
  log commitAddedNodes_state (NodesPayload (convertToRegistryRequestPayload nodes) (convertToBlobRequestPayload nodes));;
  r ← or_sector None (hs ← commitAddedNodes nodes; mret (Some hs));
  match r with
  | Some hs => modify_prepared (set_addedNodeHandles hs);; mret true
  | None => modify_prepared (set_addedNodeHandles []);; mret false
  end.

Definition stage (l : progress) : X (bool * progress) :=
  l ← stage_values l;
  ok ← stage_roots (cl_roots (pr_classes l));
  ok ← (if (ok : bool) then stage_fetched (cl_fetched (pr_classes l)) else mret false);
  '(ok, l) ← (if (ok : bool) then stage_updated l else mret (false, l));
  '(ok, l) ← (if (ok : bool) then stage_removed l else mret (false, l));
  ok ← (if (ok : bool) then stage_added (cl_added (pr_classes l)) else mret false);
  mret (ok, l).

(** The undoing of a turn that did not succeed. *)
Definition give_back (l : progress) : X progress :=
  let n := S (pr_retryCount l) in
  if decide (phase1CommitMaxRetryCount ≤ n) then fail ECommitRetries
  else
    handle (rollback false)
      (λ _, RandomSleep H;; mret (set_needs true (set_retries n (pr_lockRetryCount l) l)))
      (λ e, fail (ERollback e)).

(** The lock of all nodes' keys, given back if it was not granted. *)
Definition lock_nodes : X bool :=
  ks ← tx t_nodesKeys;
  maxTime ← tx t_maxTime;
  ok ← handle (on_locks (locks_Lock maxTime ks)) (λ ok, mret ok)
         (λ e, ignore (on_locks (locks_Unlock ks));; fail e);
  if (ok : bool) then mret true
  else ignore (on_locks (locks_Unlock ks));; mret false.

(** A turn of the loop, with whether it was the last. *)
Definition phase1_turn (startTime : Z) (l : progress) : X (bool * progress) :=
  timedOut startTime;;
  ok ← lock_nodes;
  if negb ok then l ← lock_retry l; mret (false, set_needs true l)
  else
    ks ← tx t_nodesKeys;
    locked ← on_locks (locks_IsLocked ks);
    if negb locked then l ← lock_retry l; mret (false, l)
    else
      r ← remerge l;
      match r with
      | inl l => mret (false, l)
      | inr l =>
          '(successful, l) ← stage l;
          if (successful : bool) then mret (true, l)
          else l ← give_back l; mret (false, l)
      end.

Fixpoint phase1_loop (fuel : nat) (startTime : Z) (l : progress) : X (option progress) :=
  match fuel with
  | O => mret None
  | S fuel =>
      '(successful, l) ← phase1_turn startTime l;
      if (successful : bool) then mret (Some l) else phase1_loop fuel startTime l
  end.
(** The nodes' keys are still locked, or are locked again. *)
Definition confirm_locks : X () :=
  ks ← tx t_nodesKeys;
  maxTime ← tx t_maxTime;
  held ← nodesKeysNilOrLocked;
  if (held : bool) then mret ()
  else
    ok ← handle (on_locks (locks_DualLock maxTime ks)) (λ ok, mret ok) (λ _, mret false);
    if (ok : bool) then mret () else fail ELocksLost.

(** Phase 1 after the loop. *)
Definition phase1_finish (l : progress) : X () :=
  bs ← tx t_btreesBackend;
  log commitStoreInfo (StoresPayload (getRollbackStoresInfo bs));;
  commitStores;;
  log beforeFinalize NoPayload;;
  (if decide (pr_updated l = [] ∧ pr_removed l = []) then mret ()
   else tid ← tx t_id; on_log (plog_Add tid (pr_updated l ++ pr_removed l)));;
  let uh := activateInactiveNodes (pr_updated l) in
  let rh := touchNodes (pr_removed l) in
  checkTrackedItems;;
  confirm_locks;;
  modify_prepared (set_phase2 uh rh (pr_classes l)).

Definition phase1Commit (fuel : nat) : X (option ()) :=
  has ← hasTrackedItems;
  if negb has then mret (Some ())
  else
    st ← tx t_committedState;
    logged ← tx t_transactionID;
    let preCommitTID := if decide (st = addActivelyPersistedItem) then logged else NilUUID in
    modify_tx (λ t, set_transactionID (t_id t) t);;
    log lockTrackedItems_state NoPayload;;
    lockTrackedItems;;
    c ← classifyModifiedNodes;
    mergeNodesKeys (cl_updated c) (cl_removed c);;
    startTime ← gets (λ x, w_now (x_world x));
    r ← phase1_loop fuel startTime (mkProgress c preCommitTID false 0 0 [] []);
    match r with
    | None => mret None
    | Some l => phase1_finish l;; mret (Some ())
    end.

Fixpoint reader_loop (fuel : nat) (startTime : Z) : X (option ()) :=
  match fuel with
  | O => mret None
  | S fuel =>
      timedOut startTime;;
      c ← classifyModifiedNodes;
      ok ← on_world (areFetchedItemsIntact (cl_fetched c));
      if (ok : bool) then mret (Some ())
      else RandomSleep H;; refetchAndMergeModifications;; reader_loop fuel startTime
  end.

Definition commitForReaderTransaction (fuel : nat) : X (option ()) :=
  mode ← tx t_mode;
  has ← hasTrackedItems;
  if decide (mode = ForWriting) then mret (Some ())
  else if negb has then mret (Some ())
  else startTime ← gets (λ x, w_now (x_world x)); reader_loop fuel startTime.

(** ** Phase 2 *)

(** The blobs and handles that are of no use when the handles have turned. *)
Definition getToBeObsoleteEntries (p : prepared) : list (RegistryPayload UUID) * list (BlobsPayload UUID) :=
  ((λ h, mkRegistryPayload (rp_RegistryTable h) EmptyString 0 false (LogicalID <$> rp_IDs h)) <$> p_removedNodeHandles p,
   ((λ h, mkBlobsPayload (rp_BlobTable h) (GetInActiveID <$> rp_IDs h)) <$> p_updatedNodeHandles p) ++
   ((λ h, mkBlobsPayload (rp_BlobTable h) (GetActiveID <$> rp_IDs h)) <$> p_removedNodeHandles p)).

(** [l1Cache.DeleteNodes]: from the L1 cache, then one by one from the L2 cache. *)
Definition DeleteNodes (ids : list UUID) : X () :=
  modify (λ x, set_l1 (mru_DeleteNodes ids (x_l1 x)) x);;
  err ← on_world (delete_cached None ids);
  match err with None => mret () | Some e => fail (EWorld e) end.

Fixpoint delete_obsolete_nodes (lastErr : option error) (ps : list (BlobsPayload UUID)) : X (option error) :=
  match ps with
  | [] => mret lastErr
  | p :: ps => err ← attempt lastErr (DeleteNodes (bp_Blobs p)); delete_obsolete_nodes err ps
  end.

Definition deleteObsoleteEntries (deletedRegistryIDs : list (RegistryPayload UUID)) (unusedNodeIDs : list (BlobsPayload UUID)) : X () :=
  err ← (if decide (unusedNodeIDs = []) then mret None
         else
           err ← delete_obsolete_nodes None unusedNodeIDs;
           attempt err (on_world (on_blobStore (blobStore_Remove unusedNodeIDs))));
  err ← attempt err (on_world (on_registry (registry_Remove deletedRegistryIDs)));
  end_attempt err.

Definition cleanup : X () :=
  log deleteObsoleteEntries_state NoPayload;;
  p ← tx t_prepared;
  let '(ids, blobs) := getToBeObsoleteEntries p in
  ignore (deleteObsoleteEntries ids blobs);;
  log deleteTrackedItemsValues_state NoPayload;;
  values ← getObsoleteTrackedItemsValues;
  ignore (deleteTrackedItemsValues values);;
  ignore removeLogs.

(** The nodes get the version of their handles and go to the L1 cache. *)
Fixpoint mru_nodes (hs : list Handle) (ns : list Nd) : X () :=
  match ns with
  | [] => mret ()
  | n :: ns =>
      match hs with
      | [] => panic
      | h :: hs =>
          modify (λ x, set_l1 (mru_SetNode (GetActiveID h) (SetVersion (Version h) n) (x_l1 x)) x);;
          mru_nodes hs ns
      end
  end.
Fixpoint updateVersionThenPopulateMru (handles : handles_of_stores) (nodes : nodes_of_stores) : X () :=
  match nodes with
  | [] => mret ()
  | (_, ns) :: nodes =>
      match handles with
      | [] => panic
      | p :: handles => mru_nodes (rp_IDs p) ns;; updateVersionThenPopulateMru handles nodes
      end
  end.
Definition populateMru : X () :=
  p ← tx t_prepared;
  updateVersionThenPopulateMru (p_addedNodeHandles p) (p_addedNodes p);;
  updateVersionThenPopulateMru (p_updatedNodeHandles p) (p_updatedNodes p);;
  updateVersionThenPopulateMru (p_newRootNodeHandles p) (p_rootNodes p).

Definition phase2Commit : X () :=
  p ← tx t_prepared;
  values ← getObsoleteTrackedItemsValues;
  let '(ids, blobs) := getToBeObsoleteEntries p in
  handle (log finalizeCommit (FinalPayload ids blobs values)) (λ _, mret ())
    (λ e, unlockNodesKeys;; fail e);;
  (if decide (p_updatedNodeHandles p = [] ∧ p_removedNodeHandles p = []) then mret ()
   else
     on_world (on_registry (registry_UpdateNoLocks true (p_updatedNodeHandles p ++ p_removedNodeHandles p)));;
     tid ← tx t_id; ignore (on_log (plog_Remove tid)));;
  ignore (Replicate H);;
  populateMru;;
  unlockNodesKeys;;
  ignore unlockTrackedItems;;
  ignore cleanup;;
  ignore (onCommitHooks H).

(** ** The calls of a transaction

    [None] stands for fuel that was not enough. *)

Definition minute : Z := 60 * 10 ^ 9.
Definition commit_duration (commitMaxDuration : Z) : Z :=
  let d := if (commitMaxDuration <=? 0)%Z then (15 * minute)%Z else commitMaxDuration in
  if (60 * minute <? d)%Z then (60 * minute)%Z else d.
Definition NewTwoPhaseCommitTransaction (mode : TransactionMode) (commitMaxDuration : Z) (id : UUID) : @Transaction Nd KI :=
  mkTransaction id [] mode (commit_duration commitMaxDuration) (-1) false unknown id (mkPrepared [] [] [] [] [] [] []) [].

Definition onIdle : X () :=
  bs ← tx t_btreesBackend;
  if decide (bs = []) then mret () else idle_services H.

Definition Begin : X () :=
  t ← tx (λ t, t);
  if HasBegun t then fail EBegun
  else if decide (t_phaseDone t = 2)%Z then fail EDone
  else modify_tx (set_phaseDone 0);; onIdle.

Definition failed (phase : nat) (e : error) : X () :=
  handle (rollback true) (λ _, fail (EPhase phase e None)) (λ rerr, fail (EPhase phase e (Some rerr))).

Definition Phase1Commit (fuel : nat) : X (option ()) :=
  t ← tx (λ t, t);
  if negb (HasBegun t) then fail ENotBegun
  else if decide (t_phaseDone t = 2)%Z then (if t_committed t then mret (Some ()) else fail EDone)
  else
    modify_tx (set_phaseDone 1);;
    match t_mode t with
    | NoCheck => mret (Some ())
    | ForReading => commitForReaderTransaction fuel
    | ForWriting =>
        handle (phase1Commit fuel) (λ r, mret r)
          (λ e, modify_tx (set_phaseDone 2);; failed 1 e;; mret (Some ()))
    end.

(** What is undone when phase 2 fails, and the error it then reports. *)
Definition phase2_failed (e : error) : X () :=
  exist ← nodesKeysExist;
  tid ← tx t_id;
  e ← (if (exist : bool) then
         e ← handle (priorityRollback tid) (λ _, mret e)
               (λ p1Err, mret (match p1Err with ESector _ _ => p1Err | _ => e end));
         unlockNodesKeys;;
         mret e
       else ignore (on_log (plog_Remove tid));; mret e);
  failed 2 e.

Definition Phase2Commit : X () :=
  t ← tx (λ t, t);
  if negb (HasBegun t) then fail ENotBegun
  else if decide (t_phaseDone t = 0)%Z then fail ENoPhase1
  else if decide (t_phaseDone t = 2)%Z then (if t_committed t then mret () else fail EDone)
  else
    modify_tx (set_phaseDone 2);;
    match t_mode t with
    | ForWriting => handle phase2Commit (λ _, modify_tx set_committed) phase2_failed
    | _ => modify_tx set_committed
    end.

Definition Rollback : X () :=
  t ← tx (λ t, t);
  if decide (t_phaseDone t = 2)%Z then (if t_committed t then fail ECommitted else mret ())
  else if negb (HasBegun t) then fail ENotBegun
  else
    modify_tx (set_phaseDone 2);;
    handle (rollback true) (λ _, mret ()) (λ rerr, fail (ERollback rerr)).

(** ** managebtree.go: B-trees in a transaction

    The result is the place of the B-tree in [btreesBackend]. *)

Context `{SP : StoreSpecification} (no_items : KI).

Definition rollback_for {A} (e : error) : X A :=
  handle Rollback (λ _, fail e) (λ rerr, fail (EPhase 0 e (Some rerr))).

Definition opened (name : string) (bs : list btreeBackend) : option nat :=
  fst <$> list_find (λ b, s_Name (bb_storeInfo b) = name) bs.

(** The new backend starts with an empty cache and no tracked items. *)
Definition newBtree (s : Store) (created : bool) : X nat :=
  if IsEmpty s then rollback_for ENotFound
  else
    bs ← tx t_btreesBackend;
    modify_tx (set_btrees (bs ++ [mkBackend s ∅ (s_Count s) created no_items]));;
    mret (length bs).

Definition OpenBtree (name : string) : X nat :=
  t ← tx (λ t, t);
  if negb (HasBegun t) then fail ENotBegun
  else if decide (name = EmptyString) then fail ENoName
  else
    match opened name (t_btreesBackend t) with
    | Some i => mret i
    | None =>
        handle (on_stores (srepo_Get name))
          (λ stores,
            match stores with
            | [] => rollback_for ENotFound
            | s :: _ => if IsEmpty s then rollback_for ENotFound else newBtree s false
            end)
          (λ e, rollback_for e)
    end.

(** A store that does not exist is added: [ns] is what [NewStoreInfo] makes of the
    options. *)
Definition createStoreInfo (ns : Store) : X nat :=
  now ← gets (λ x, w_now (x_world x));
  id ← (if decide (s_RootNodeID ns = NilUUID) then draw else mret (s_RootNodeID ns));
  let ns := if decide (s_RootNodeID ns = NilUUID)
            then mkStore (s_info ns) (s_Name ns) id (s_Count ns) (s_CountDelta ns) (UnixMilli now) (s_IsValueDataGloballyCached ns)
            else ns in
  handle (log createStore (NamePayload (s_Name ns)))
    (λ _, handle (on_stores (srepo_Add ns))
            (λ _, newBtree ns true)
            (λ e, ignore (on_stores (srepo_Remove (s_Name ns)));; rollback_for e))
    (λ e, rollback_for e).

Definition NewBtree (ns : Store) : X nat :=
  t ← tx (λ t, t);
  if negb (HasBegun t) then fail ENotBegun
  else if decide (s_Name ns = EmptyString) then fail ENoName
  else
    handle (on_stores (srepo_Get (s_Name ns)))
      (λ stores,
        match stores with
        | [] => createStoreInfo ns
        | s :: _ =>
            if IsEmpty s then createStoreInfo ns
            else if negb (IsCompatible ns s) then rollback_for EIncompatible
            else match opened (s_Name ns) (t_btreesBackend t) with
                 | Some i => mret i
                 | None => newBtree s false
                 end
        end)
      (λ e, rollback_for e).
End calls.
