(* ===== verification/TxLog.v ===== *)
(** * common/transactionlogger.go: recovery of transactions that crashed

    The logs of a transaction that did not come back are walked from the last entry
    to the first and undone, or its cleanup is finished; before that the handles of its
    priority log are restored under the locks of its nodes.  The recovering
    transaction calls this when it begins. *)

From stdpp Require Import gmap.
From S2P Require Import Prelude Wp Handle HashmapSpec Stores NodeRepo TwoPhase TwoPhaseCommit.

(** ** Interfaces *)

(** The calls of the lock service that tell the owner of a lock: the one that [DualLock]
    names when it is refused, [NilUUID] if none, and the content of a lock's entry. *)
Class LockOwners (LS LE : Type) := {
  owners_DualLock : Z → list LockKey → M LS LE (bool * UUID);
  owners_GetEx : Z → lock_name → M LS LE (option UUID);
  owners_IsLockedByOthers : list lock_name → M LS LE bool;
  owners_IsLockedByOthersTTL : Z → list lock_name → M LS LE bool;
}.

(** The logs of other transactions, with the hour of the oldest; the priority logs that
    are due, all of them if age is ignored, and the transactions of those that are not. *)
Class LogReader (TS TE : Type) := {
  tlog_GetOne : M TS TE (UUID * string * list (nat * payload));
  tlog_GetOneOfHour : string → M TS TE (UUID * list (nat * payload));
  plog_GetBatch : bool → nat → M TS TE (list (UUID * list (RegistryPayload Handle)));
  plog_Newer : M TS TE (list UUID);
}.

(** The variables of the process. *)
Record globals := mkGlobals {
  g_hourBeingProcessed : string;
  g_lastOnIdleRunTime : Z;
  g_lastPriorityOnIdleTime : Z;
  g_priorityLogFound : bool;
  g_onStartUpFlag : bool;
}.
Definition set_hour (h : string) (g : globals) : globals :=
  mkGlobals h (g_lastOnIdleRunTime g) (g_lastPriorityOnIdleTime g) (g_priorityLogFound g) (g_onStartUpFlag g).
Definition set_lastOnIdle (t : Z) (g : globals) : globals :=
  mkGlobals (g_hourBeingProcessed g) t (g_lastPriorityOnIdleTime g) (g_priorityLogFound g) (g_onStartUpFlag g).
Definition set_lastPriority (t : Z) (g : globals) : globals :=
  mkGlobals (g_hourBeingProcessed g) (g_lastOnIdleRunTime g) t (g_priorityLogFound g) (g_onStartUpFlag g).
Definition set_found (b : bool) (g : globals) : globals :=
  mkGlobals (g_hourBeingProcessed g) (g_lastOnIdleRunTime g) (g_lastPriorityOnIdleTime g) b (g_onStartUpFlag g).
Definition set_onStartUp (b : bool) (g : globals) : globals :=
  mkGlobals (g_hourBeingProcessed g) (g_lastOnIdleRunTime g) (g_lastPriorityOnIdleTime g) (g_priorityLogFound g) b.

Definition coordinatorLockName : lock_name := NamedKey "Prbs".
Definition resurrectLogLocksCoordinatorLockName : lock_name := NamedKey "Prbl".
Definition notRestartedToken : lock_name := NamedKey "notrestarted".

(** ** What an entry says *)

(** [toStruct] of the entry's bytes: an entry of another kind decodes to nothing. *)
Definition logged_items (p : payload) : BlobsPayload UUID := match p with ItemsPayload b => b | _ => mkBlobsPayload EmptyString [] end.
Definition logged_name (p : payload) : string := match p with NamePayload n => n | _ => EmptyString end.
Definition logged_values (p : payload) : list (bool * BlobsPayload UUID) := match p with ValuesPayload v => v | _ => [] end.
Definition logged_nodes (p : payload) : list (RegistryPayload UUID) * list (BlobsPayload UUID) :=
  match p with NodesPayload vids bibs => (vids, bibs) | _ => ([], []) end.
Definition logged_blobs (p : payload) : list (BlobsPayload UUID) := match p with BlobsIDsPayload b => b | _ => [] end.
Definition logged_vids (p : payload) : list (RegistryPayload UUID) := match p with VidsPayload v => v | _ => [] end.
Definition logged_stores (p : payload) : list Store := match p with StoresPayload l => l | _ => [] end.
Definition logged_final (p : payload) : list (RegistryPayload UUID) * list (BlobsPayload UUID) * list (bool * BlobsPayload UUID) :=
  match p with FinalPayload ids blobs values => (ids, blobs, values) | _ => ([], [], []) end.
Definition is_nil (p : payload) : bool := match p with NoPayload => true | _ => false end.

(** The versions of the handles in a priority log and of those that the registry has, by
    their places: the same, or one up.  [None] is an index out of range. *)
Fixpoint repairable_IDs (hs cs : list Handle) : option bool :=
  match hs, cs with
  | [], _ => Some true
  | _ :: _, [] => None
  | h :: hs, c :: cs =>
      if bool_decide (Version h = Version c) || bool_decide (wrap_s 32 (Version h + 1) = Version c) then repairable_IDs hs cs
      else Some false
  end.
Fixpoint repairable (ps cs : list (RegistryPayload Handle)) : option bool :=
  match ps, cs with
  | [], _ => Some true
  | p :: ps, [] => if decide (rp_IDs p = []) then repairable ps [] else None
  | p :: ps, c :: cs =>
      match repairable_IDs (rp_IDs p) (rp_IDs c) with
      | Some true => repairable ps cs
      | r => r
      end
  end.

Section recovery.
Context {RS RE BS BE Nd LS LE TS TE SS SE CS KI KE : Type} `{RO : Stores.Registry RS RE} `{BO : Stores.BlobStore BS BE} `{MD : MetaData Nd}.
Context `{LO : Locker LS LE} `{OO : LockOwners LS LE} `{TO : TransactionLog TS TE} `{LR : LogReader TS TE} `{SO : StoreRepository SS SE}.
Context `{CO : NodeCache CS Nd}.
Context (gen : nat → UUID).

Local Abbreviation error := (tx_error RE BE LE TE SE KE).
Local Abbreviation txstate := (@txstate RS BS Nd LS TS SS CS KI).
Local Abbreviation X := (M txstate error).
Context (H : @hooks RS RE BS BE Nd LS LE TS TE SS SE CS KI KE).
(** What happens in the time that the process sleeps. *)
Context (Sleep : Z → X ()).

Implicit Types (logs : list (nat * payload)) (hs : list (RegistryPayload Handle)).

(** ** Undoing what the log says *)

(** The transaction that recovers uses the node repository of its first B-tree. *)
Definition of_first {A} (m : M (@world RS BS Nd) (repo_error RE BE) A) : X A :=
  bs ← tx t_btreesBackend; if decide (bs = []) then panic else on_world m.

(** The end of a recovery. *)
Definition drop_logs (tid : UUID) (lastErr : option error) : X () :=
  err ← attempt lastErr (on_log (tlog_Remove tid)); end_attempt err.

(** What a step that was logged is undone with, given the last step that was. *)
Definition undo_step (last : nat) (f : nat) (p : payload) : option (X ()) :=
  if decide (f = addActivelyPersistedItem) then
    if is_nil p then None else Some (on_world (on_blobStore (blobStore_Remove [logged_items p])))
  else if decide (f = createStore) then
    if is_nil p then None else Some (on_stores (srepo_Remove (logged_name p)))
  else if decide (f = commitStoreInfo) then
    if (commitStoreInfo <? last) && negb (is_nil p) then Some (on_stores (srepo_Update (logged_stores p));; mret ()) else None
  else if decide (f = commitAddedNodes_state) then
    if (commitAddedNodes_state <? last) && negb (is_nil p) then
      Some (of_first (rollbackAddedNodes (logged_nodes p).1 (logged_nodes p).2))
    else None
  else if decide (f = commitRemovedNodes_state) then
    if (commitRemovedNodes_state <? last) && negb (is_nil p) then Some (of_first (rollbackRemovedNodes false (logged_vids p))) else None
  else if decide (f = commitUpdatedNodes_state) then
    if (commitUpdatedNodes_state <=? last) && negb (is_nil p) then Some (of_first (removeNodes (logged_blobs p))) else None
  else if decide (f = commitNewRootNodes_state) then
    if (commitNewRootNodes_state <? last) && negb (is_nil p) then
      Some (st ← tx t_committedState; of_first (rollbackNewRootNodes st (logged_nodes p).1 (logged_nodes p).2))
    else None
  else if decide (f = commitTrackedItemsValues_state) then
    if (commitTrackedItemsValues_state <=? last) && negb (is_nil p) then Some (deleteTrackedItemsValues H (logged_values p)) else None
  else None.

(** The entries from the last to the first; the end of a commit is finished instead. *)
Fixpoint undo_logs (tid : UUID) (last : nat) (lastErr : option error) logs : X () :=
  match logs with
  | [] => drop_logs tid lastErr
  | (f, p) :: logs =>
      if decide (f = finalizeCommit) then
        if is_nil p then
          if deleteObsoleteEntries_state <=? last then drop_logs tid lastErr else undo_logs tid last lastErr logs
        else
          let '(ids, blobs, values) := logged_final p in
          err ← (if decide (last = deleteTrackedItemsValues_state) then attempt lastErr (deleteTrackedItemsValues H values)
                 else mret lastErr);
          if deleteObsoleteEntries_state <=? last then
            err ← attempt err (deleteObsoleteEntries ids blobs);
            drop_logs tid err
          else undo_logs tid last err logs
      else
        match undo_step last f p with
        | Some m => err ← attempt lastErr m; undo_logs tid last err logs
        | None => undo_logs tid last lastErr logs
        end
  end.

Definition rollback_logs (tid : UUID) logs : X () :=
  match list.last logs with
  | None => if decide (tid = NilUUID) then mret () else on_log (tlog_Remove tid)
  | Some (last, _) => undo_logs tid last None (reverse logs)
  end.

(** The hour is kept in a variable of the process; [inr] is the error that is returned. *)
Definition processExpiredTransactionLogs (g : globals) : X (globals * option error) :=
  r ← (if decide (g_hourBeingProcessed g = EmptyString) then
         handle (on_log tlog_GetOne) (λ '(tid, hr, logs), mret (inl (tid, logs, set_hour hr g))) (λ e, mret (inr e))
       else
         handle (on_log (tlog_GetOneOfHour (g_hourBeingProcessed g))) (λ '(tid, logs), mret (inl (tid, logs, g))) (λ e, mret (inr e)));
  match r with
  | inr e => mret (g, Some e)
  | inl (tid, logs, g) =>
      if decide (tid = NilUUID) then mret (set_hour EmptyString g, None)
      else
        own ← tx t_transactionID;
        if decide (tid = own) then mret (g, None)
        else err ← attempt None (rollback_logs tid logs); mret (g, err)
  end.

(** ** The locks of a dead transaction *)

(** Each key is taken over from the transaction or locked; [all] is given back if one
    of them cannot be had. *)
Fixpoint take_over (tid : UUID) (all ks : list LockKey) : X (list LockKey) :=
  match ks with
  | [] => mret []
  | k :: ks =>
      r ← handle (on_locks (owners_GetEx defaultLockDuration (lk_Key k))) (λ r, mret r)
            (λ e, ignore (on_locks (locks_Unlock all));; fail e);
      k ← (match r with
           | Some tid2 =>
               if decide (tid2 = tid) then mret (mkLockKey (lk_Key k) tid)
               else ignore (on_locks (locks_Unlock all));; fail (ETaken tid2)
           | None =>
               '(ok, owner) ← handle (on_locks (owners_DualLock defaultLockDuration [k])) (λ r, mret r)
                 (λ e, ignore (on_locks (locks_Unlock all));; fail e);
               if (ok : bool) then mret k
               else ignore (on_locks (locks_Unlock all));; fail (ETaken owner)
           end);
      rest ← take_over tid all ks;
      mret (k :: rest)
  end.

(** A refusal without an owner is returned as the keys and no error. *)
Definition acquireLocks (tid : UUID) hs : X (list LockKey) :=
  let ids := all_ids (ExtractLogicalIDs hs) in
  lookup ← create_keys gen ids ∅;
  if decide (ids = []) then panic
  else
    let keys := omap (lookup !!.) (sort_ids ids) in
    '(ok, owner) ← handle (on_locks (owners_DualLock defaultLockDuration keys)) (λ r, mret r)
      (λ e, ignore (on_locks (locks_Unlock keys));; fail e);
    if (ok : bool) then mret keys
    else if decide (owner = NilUUID) then ignore (on_locks (locks_Unlock keys));; mret keys
    else if decide (owner ≠ tid) then ignore (on_locks (locks_Unlock keys));; fail (ETaken owner)
    else take_over tid keys keys.

(** The registry must not have gone past the versions of the log; if it cannot be read
    that is not known. *)
Definition check_versions (tid : UUID) (lks : list LockKey) hs : X () :=
  handle (on_world (on_registry (registry_Get (ExtractLogicalIDs hs))))
    (λ cs,
      match repairable hs cs with
      | None => panic
      | Some true => mret ()
      | Some false => ignore (on_locks (locks_Unlock lks));; fail (ESector tid EGonePast)
      end)
    (λ _, mret ()).

(** ** Restoring priority logs *)

Inductive batch_step := Skipped | Restored | Stopped (found : bool) (e : error).

Definition maxDuration : Z := 5 * 60 * 10 ^ 9.
Definition timed_out (start : Z) : X bool :=
  gets (λ x, x_ctxDone x || (maxDuration <=? w_now (x_world x) - start)%Z).

Definition restore_one (start : Z) (tid : UUID) hs : X batch_step :=
  handle (acquireLocks tid hs)
    (λ lks,
      handle (check_versions tid lks hs)
        (λ _,
          handle (on_world (on_registry (registry_UpdateNoLocks false hs)))
            (λ _,
              ignore (on_locks (locks_Unlock lks));;
              handle (on_log (plog_Remove tid))
                (λ _, late ← timed_out start; mret (if (late : bool) then Stopped true ETimedOut else Restored))
                (λ e, mret (Stopped false e)))
            (λ e, ignore (on_locks (locks_Unlock lks));; mret (Stopped false (ESector tid e))))
        (λ e, mret (Stopped false e)))
    (λ e, match e with ETaken _ => mret (Stopped false e) | _ => mret Skipped end).

Fixpoint restore_batch (start : Z) (v : list (UUID * list (RegistryPayload Handle))) : X (option (bool * error)) :=
  match v with
  | [] => mret None
  | (tid, hs) :: v =>
      r ← restore_one start tid hs;
      match r with
      | Stopped found e => mret (Some (found, e))
      | _ => restore_batch start v
      end
  end.

(** Batches until there are none, or one if only the old logs are wanted. *)
Fixpoint restore_batches (fuel : nat) (ignoreAge : bool) (start : Z) (consumed : bool) : X (option (bool * option error)) :=
  match fuel with
  | O => mret None
  | S fuel =>
      handle (on_log (plog_GetBatch ignoreAge 20))
        (λ v,
          if decide (v = []) then mret (Some (consumed, None))
          else
            r ← restore_batch start v;
            match r with
            | Some (found, e) => mret (Some (found, Some e))
            | None => if ignoreAge then restore_batches fuel ignoreAge start true else mret (Some (true, None))
            end)
        (λ e, mret (Some (consumed, Some e)))
  end.

Fixpoint waitForCoordinatorRelease (fuel : nat) (name : lock_name) (start : Z) : X (option (option error)) :=
  match fuel with
  | O => mret None
  | S fuel =>
      heldByOthers ← handle (on_locks (owners_IsLockedByOthers [name])) (λ b, mret b) (λ _, mret false);
      if negb heldByOthers then mret (Some None)
      else
        late ← timed_out start;
        if (late : bool) then mret (Some (Some ETimedOut))
        else Sleep (250 * 10 ^ 6);; waitForCoordinatorRelease fuel name start
  end.

(** Whether there was a priority log, and an error; [None] if the fuel is used up. *)
Definition doPriorityRollbacks (fuel : nat) (ignoreAge : bool) : X (option (bool * option error)) :=
  lk ← CreateLockKey gen coordinatorLockName;
  ok ← handle (on_locks (owners_DualLock maxDuration [lk])) (λ r, mret r.1) (λ _, mret false);
  start ← gets (λ x, w_now (x_world x));
  if negb ok then
    if ignoreAge then
      r ← waitForCoordinatorRelease fuel coordinatorLockName start;
      mret ((λ err, (false, err)) <$> r)
    else mret (Some (false, None))
  else
    r ← restore_batches fuel ignoreAge start false;
    ignore (on_locks (locks_Unlock [lk]));;
    mret r.

(** The locks of the transactions whose priority logs are not due are taken again. *)
Fixpoint resurrect (tids : list UUID) : X () :=
  match tids with
  | [] => mret ()
  | tid :: tids =>
      r ← on_log (plog_Get tid);
      let hs := default [] r in
      r ← handle (acquireLocks tid hs) (λ lks, mret (Some lks)) (λ _, mret None);
      (match r with Some lks => check_versions tid lks hs | None => mret () end);;
      resurrect tids
  end.

Definition resurrectPriorityLogLocks (fuel : nat) : X (option (option error)) :=
  lk ← CreateLockKey gen resurrectLogLocksCoordinatorLockName;
  ok ← handle (on_locks (owners_DualLock maxDuration [lk])) (λ r, mret r.1) (λ _, mret false);
  if negb ok then
    start ← gets (λ x, w_now (x_world x));
    waitForCoordinatorRelease fuel resurrectLogLocksCoordinatorLockName start
  else
    r ← handle (tids ← on_log plog_Newer; resurrect tids) (λ _, mret None) (λ e, mret (Some e));
    ignore (on_locks (locks_Unlock [lk]));;
    mret (Some r).

(** ** onIdle

    [inMemory] says which L2 cache there is, [failover] is the handler of errors of the
    replication. *)

Context (inMemory : bool) (failover : error → X ()).

Definition onStartUp (g : globals) : bool * globals :=
  if g_onStartUpFlag g && inMemory then (true, set_onStartUp false g) else (false, g).

Definition processNewerPriorityLogsLocksResurrection (fuel : nat) : X (option ()) :=
  if inMemory then mret (Some ())
  else
    there ← handle (on_locks (owners_IsLockedByOthersTTL (24 * 60 * minute) [notRestartedToken])) (λ b, mret b) (λ _, mret true);
    if (there : bool) then mret (Some ())
    else
      lk ← CreateLockKey gen notRestartedToken;
      ok ← handle (on_locks (owners_DualLock (24 * 60 * minute) [lk])) (λ r, mret r.1) (λ _, mret false);
      if negb ok then mret (Some ())
      else
        r ← resurrectPriorityLogLocks fuel;
        match r with
        | None => mret None
        | Some None => mret (Some ())
        | Some (Some e) => failover e;; mret (Some ())
        end.

Definition processPriorityRollbackOnRestart (fuel : nat) (g : globals) : X (option globals) :=
  enabled ← gets (λ x, plog_IsEnabled (x_log x));
  if negb enabled then mret (Some g)
  else
    let '(started, g) := onStartUp g in
    if negb started then mret (Some g)
    else
      r ← doPriorityRollbacks fuel true;
      match r with
      | None => mret None
      | Some (_, err) =>
          (match err with Some e => failover e | None => mret () end);;
          now ← gets (λ x, w_now (x_world x));
          mret (Some (set_lastPriority (UnixMilli now) (set_found false g)))
      end.

(** Every five minutes, or every two if there was a priority log. *)
Definition processScheduledPriorityRollback (fuel : nat) (g : globals) : X (option globals) :=
  let interval := if g_priorityLogFound g then (2 * 60)%Z else (5 * 60)%Z in
  now ← gets (λ x, w_now (x_world x));
  enabled ← gets (λ x, plog_IsEnabled (x_log x));
  if (enabled : bool) && (g_lastPriorityOnIdleTime g <? UnixMilli (now - interval * 10 ^ 9))%Z then
    r ← doPriorityRollbacks fuel false;
    match r with
    | None => mret None
    | Some (found, err) =>
        (match err with Some e => failover e | None => mret () end);;
        mret (Some (set_found found (set_lastPriority (UnixMilli now) g)))
    end
  else mret (Some g).

(** Every four hours, or every five minutes while an hour is being processed. *)
Definition processExpiredLogs (g : globals) : X globals :=
  let interval := if decide (g_hourBeingProcessed g = EmptyString) then (4 * 60)%Z else 5%Z in
  now ← gets (λ x, w_now (x_world x));
  if (g_lastOnIdleRunTime g <? UnixMilli (now - interval * minute))%Z then
    r ← processExpiredTransactionLogs (set_lastOnIdle (UnixMilli now) g);
    mret r.1
  else mret g.

Definition onIdle (fuel : nat) (g : globals) : X (option globals) :=
  bs ← tx t_btreesBackend;
  if decide (bs = []) then mret (Some g)
  else
    r ← processNewerPriorityLogsLocksResurrection fuel;
    match r with
    | None => mret None
    | Some () =>
        r ← processPriorityRollbackOnRestart fuel g;
        match r with
        | None => mret None
        | Some g =>
            r ← processScheduledPriorityRollback fuel g;
            match r with
            | None => mret None
            | Some g => g ← processExpiredLogs g; mret (Some g)
            end
        end
    end.
End recovery.
