(* ===== verification/TxLogProps.v ===== *)
(** * Recovery from the logs

    A transaction that crashed while it staged nodes is undone by its logs, and one
    that had switched to its new nodes is finished. *)

From stdpp Require Import gmap.
From S2P Require Import Prelude Wp Handle HashmapSpec Stores NodeRepo NodeCommit NodeProps NodeRollback TwoPhase TwoPhaseCommit TxLog.

Section props.
Context {RS RE BS BE Nd LS LE TS TE SS SE CS KI KE : Type} `{RO : Stores.Registry RS RE} `{BO : Stores.BlobStore BS BE} `{MD : MetaData Nd}.
Context `{LO : Locker LS LE} `{TO : TransactionLog TS TE} `{SO : StoreRepository SS SE}.
Context `{CO : NodeCache CS Nd}.
Context (H : @hooks RS RE BS BE Nd LS LE TS TE SS SE CS KI KE).

Local Abbreviation error := (tx_error RE BE LE TE SE KE).
Local Abbreviation txstate := (@txstate RS BS Nd LS TS SS CS KI).
Local Abbreviation X := (M txstate error).
Local Abbreviation world := (@world RS BS Nd).
Implicit Types (x : txstate) (w : world) (logs : list (nat * payload)).

(** ** Before the switch *)

Context (gen : nat → UUID) (home : UUID → string) (limit : nat).
Context `{RL : !RegistryLaws RS RE home} `{BL : !BlobStoreLaws BS BE}.
Hypothesis gen_not_nil : ∀ i, gen i ≠ NilUUID.
Hypothesis gen_wf : ∀ i, uuid_wf (gen i).
Hypothesis gen_inj : ∀ i j, i < limit → j < limit → gen i = gen j → i = j.
(** The calls of the log and of the store repository return. *)
Hypothesis log_returns : ∀ tid l, wp (tlog_Remove tid) l (λ _ _, True) (λ _ _, True).
Hypothesis stores_return : ∀ ss l, wp (srepo_Update ss) l (λ _ _, True) (λ _ _, True).
Local Abbreviation repo_inv := (NodeCommit.repo_inv gen home limit).
Local Abbreviation request := (NodeProps.request home limit).
Local Abbreviation unseen := (NodeProps.unseen home).
Implicit Types (T : gmap UUID Handle) (R : gset UUID) (B : gmap (string * UUID) (list Z)).
Implicit Types (nodes : list (StoreInfo * list Nd)) (handles : list (RegistryPayload Handle)).

(** The entries of a transaction that updates nodes and does nothing else to nodes and values. *)
Definition harmless (e : nat * payload) : Prop :=
  e.1 < deleteObsoleteEntries_state ∧
  match e.2 with
  | NoPayload => True
  | ValuesPayload l => e.1 = commitTrackedItemsValues_state ∧ l = []
  | NodesPayload vids _ => (e.1 = commitNewRootNodes_state ∨ e.1 = commitAddedNodes_state) ∧ vids = []
  | VidsPayload vids => e.1 = commitRemovedNodes_state ∧ vids = []
  | StoresPayload _ => e.1 = commitStoreInfo
  | FinalPayload _ _ _ => e.1 = finalizeCommit
  | _ => False
  end.

(** A part of a recovery that leaves the registry and the blobs alone. *)
Definition idle (m : X ()) : Prop := ∀ x, t_btreesBackend (x_tx x) ≠ [] →
  wp m x (λ _ x', x_world x' = x_world x ∧ x_tx x' = x_tx x) (λ _ x', x_world x' = x_world x ∧ x_tx x' = x_tx x).

Lemma idle_first (m : M world (repo_error RE BE) ()) : (∀ w, m w = (Ret (), w)) → idle (of_first m).
Proof.
  intros Hm x Hb. unfold of_first. apply wp_bind, wp_gets. rewrite decide_False by done. unfold on_world. apply wp_on.
  unfold wp. rewrite Hm. destruct x. done.
Qed.

Lemma idle_stores ss : idle (on_stores (srepo_Update ss);; mret ()).
Proof.
  intros x Hb. apply wp_bind. unfold on_stores. apply wp_on. eapply wp_mono; [apply stores_return| |]; done.
Qed.

(** The entry is of another kind. *)
Local Ltac no_entry :=
  repeat match goal with E : _ ∧ _ |- _ => destruct E | E : _ ∨ _ |- _ => destruct E end;
  match goal with E : _ = _ |- _ => discriminate E | E : False |- _ => destruct E | E : ?a = ?b |- _ => vm_compute in E; discriminate E end.

Lemma idle_step last f p m : harmless (f, p) → undo_step H last f p = Some m → idle m.
Proof.
  intros [Hf Hp] Hm. cbn [fst snd] in *. unfold undo_step in Hm.
  destruct (decide (f = addActivelyPersistedItem)) as [->|_].
  { exfalso. revert Hf. unfold addActivelyPersistedItem, deleteObsoleteEntries_state. lia. }
  destruct (decide (f = createStore)) as [->|_]; [destruct p; no_entry|].
  destruct (decide (f = commitStoreInfo)) as [->|_].
  { destruct (_ && _); [|discriminate Hm]. injection Hm as <-. apply idle_stores. }
  destruct (decide (f = commitAddedNodes_state)) as [->|_].
  { destruct p; try no_entry; rewrite ?andb_false_r in Hm; try discriminate Hm. destruct Hp as [_ ->].
    destruct (_ && _); [|discriminate Hm]. injection Hm as <-. by apply idle_first. }
  destruct (decide (f = commitRemovedNodes_state)) as [->|_].
  { destruct p; try no_entry; rewrite ?andb_false_r in Hm; try discriminate Hm. destruct Hp as [_ ->].
    destruct (_ && _); [|discriminate Hm]. injection Hm as <-. by apply idle_first. }
  destruct (decide (f = commitUpdatedNodes_state)) as [->|_].
  { destruct p; try no_entry. by rewrite andb_false_r in Hm. }
  destruct (decide (f = commitNewRootNodes_state)) as [->|_].
  { destruct p; try no_entry; rewrite ?andb_false_r in Hm; try discriminate Hm. destruct Hp as [_ ->].
    destruct (_ && _); [|discriminate Hm]. injection Hm as <-. intros x Hb. apply wp_bind, wp_gets. by apply idle_first. }
  destruct (decide (f = commitTrackedItemsValues_state)) as [->|_]; [|discriminate Hm].
  destruct p; try no_entry; rewrite ?andb_false_r in Hm; try discriminate Hm. destruct Hp as [_ ->].
  destruct (_ && _); [|discriminate Hm]. injection Hm as <-. intros x Hb. by apply wp_ret.
Qed.

Lemma idle_attempt err (m : X ()) x (Q : option error → txstate → Prop) : idle m → t_btreesBackend (x_tx x) ≠ [] →
  (∀ err' x', x_world x' = x_world x → x_tx x' = x_tx x → (err' = None → err = None) → Q err' x') →
  wp (attempt err m) x Q (λ _ _, False).
Proof.
  intros Hm Hb HQ. apply wp_handle. eapply wp_mono; [by apply Hm| |].
  - intros [] x' [H1 H2]. apply wp_ret. by apply HQ.
  - intros e x' [H1 H2]. apply wp_ret. by apply HQ.
Qed.

Lemma wp_drop_logs tid err x : wp (drop_logs tid err : X ()) x
  (λ _ x', x_world x' = x_world x ∧ err = None) (λ _ x', x_world x' = x_world x).
Proof.
  unfold drop_logs. apply wp_bind, wp_handle. unfold on_log. apply wp_on. eapply wp_mono; [apply log_returns| |].
  - intros [] l _. apply wp_ret. destruct err; by constructor.
  - intros e l _. apply wp_ret. done.
Qed.

(** Entries that are idle are walked over. *)
Lemma wp_undo_harmless tid last l1 l2 : last < deleteObsoleteEntries_state → Forall harmless l1 → ∀ err x Q P,
  t_btreesBackend (x_tx x) ≠ [] →
  (∀ err' x', x_world x' = x_world x → x_tx x' = x_tx x → (err' = None → err = None) →
     wp (undo_logs H tid last err' l2) x' Q P) →
  wp (undo_logs H tid last err (l1 ++ l2)) x Q P.
Proof.
  intros Hlast. induction 1 as [|[f p] l1 Hh _ IH]; intros err x Q P Hb HQ; [by apply HQ|].
  assert (Hgo : ∀ err' x', x_world x' = x_world x → x_tx x' = x_tx x → (err' = None → err = None) →
    wp (undo_logs H tid last err' (l1 ++ l2)) x' Q P).
  { intros err' x' Hw Ht He. apply IH; [by rewrite Ht|]. intros err2 x2 Hw2 Ht2 He2. apply HQ; [congruence|congruence|auto]. }
  rewrite <-app_comm_cons. cbn [undo_logs]. case_decide as Hf.
  - assert (Hn : (deleteObsoleteEntries_state <=? last) = false) by (apply Nat.leb_gt; lia). rewrite Hn.
    destruct (is_nil p); [by apply Hgo|]. destruct (logged_final p) as [[ids blobs] values].
    rewrite decide_False; [by apply Hgo|]. intros ->. revert Hlast. unfold deleteTrackedItemsValues_state, deleteObsoleteEntries_state. lia.
  - destruct (undo_step H last f p) as [m|] eqn:Hm; [|by apply Hgo].
    apply wp_bind. eapply wp_mono; [apply (idle_attempt err m x (λ err' x', x_world x' = x_world x ∧ x_tx x' = x_tx x ∧ (err' = None → err = None)))| |done].
    + by eapply idle_step.
    + done.
    + done.
    + intros err' x' (Hw & Ht & He). by apply Hgo.
Qed.

Lemma wp_removeNodes w B bibs : blob_holds (w_blobStore w) B →
  wp (removeNodes (RE := RE) bibs) w
    (λ _ w', ∃ b c, w' = set_l2nodes c (set_blobStore b w) ∧ blob_holds b (delete_blobs (all_blobs bibs) B))
    (λ _ w', ∃ b c B', w' = set_l2nodes c (set_blobStore b w) ∧ blob_holds b B' ∧ same_but (all_blobs bibs) B B').
Proof.
  intros HB. unfold removeNodes. case_decide as Hn.
  { subst bibs. apply wp_ret. exists (w_blobStore w), (w_l2nodes w). by destruct w. }
  apply wp_bind. eapply wp_mono; [by apply (wp_undo_Remove None w B)| |done]. intros r w1 (b & B' & -> & Hb & Hs & Hr).
  apply wp_bind. eapply wp_mono; [apply wp_delete_cached| |done]. intros r2 w2 [[c ->] H2]. destruct r2 as [e|]; cbn [end_undo].
  - apply wp_fail. by exists b, c, B'.
  - apply wp_ret. exists b, c. split; [done|]. destruct (Hr (H2 eq_refl)) as [_ <-]. done.
Qed.

(** ** The staged blobs *)

Lemma inactive_tables nodes handles :
  Forall2 (λ p sn, rp_BlobTable p = si_BlobTable sn.1 ∧ length (rp_IDs p) = length sn.2) handles nodes →
  extractInactiveBlobsIDs handles = inactive_blobs (convertToRegistryRequestPayload nodes) handles.
Proof.
  unfold extractInactiveBlobsIDs, inactive_blobs. induction 1 as [|p [st ns] ps nodes [Ht _] _ IH]; [done|].
  cbn in Ht |- *. rewrite Ht, IH. done.
Qed.

Lemma staged_blob_keys now d T B T1 B1 nodes handles k : staged_update gen home now d T B T1 B1 nodes handles →
  k ∈ all_blobs (extractInactiveBlobsIDs handles) →
  ∃ i t n, flat nodes !! i = Some (t, n) ∧ k = (t, gen (d + i)).
Proof.
  intros Hs Hk. pose proof (su_tables _ _ _ _ _ _ _ _ _ _ Hs) as Ht. rewrite (inactive_tables nodes) in Hk by done.
  apply inactive_blobs_keys in Hk as (i & h & t & n & Hi & Hn & _ & ->); [|eapply Forall2_impl; [exact Ht|by intros ?? [_ ?]]].
  destruct (su_node _ _ _ _ _ _ _ _ _ _ Hs i t n Hn) as (h0 & ba & _ & _ & _ & Hh & _). rewrite Hi in Hh. injection Hh as ->.
  exists i, t, n. split; [done|]. by rewrite staged_inactive.
Qed.

Lemma staged_blobs_removed now d T B T1 B1 nodes handles : fresh gen limit d T B → d + length (flat nodes) ≤ limit →
  staged_update gen home now d T B T1 B1 nodes handles → delete_blobs (all_blobs (extractInactiveBlobsIDs handles)) B1 = B.
Proof.
  intros Hf Hlim Hs. apply map_eq. intros k. rewrite delete_blobs_lookup. case_decide as Hk.
  - destruct (staged_blob_keys _ _ _ _ _ _ _ _ _ Hs Hk) as (i & t & n & Hi & ->). pose proof (lookup_lt_Some _ _ _ Hi).
    symmetry. apply (Hf (d + i)); lia.
  - apply (su_blobs _ _ _ _ _ _ _ _ _ _ Hs). intros i t n Hi ->. apply Hk. pose proof (su_tables _ _ _ _ _ _ _ _ _ _ Hs) as Ht.
    rewrite (inactive_tables nodes) by done. apply inactive_blobs_keys; [eapply Forall2_impl; [exact Ht|by intros ?? [_ ?]]|].
    destruct (su_node _ _ _ _ _ _ _ _ _ _ Hs i t n Hi) as (h0 & ba & _ & _ & _ & Hh & _).
    eexists i, _, t, n. split; [exact Hh|]. split; [done|]. rewrite staged_inactive. split; [apply gen_not_nil|done].
Qed.

Lemma staged_blobs_unread now d T B T1 B1 nodes handles B' : fresh gen limit d T B → d + length (flat nodes) ≤ limit →
  staged_update gen home now d T B T1 B1 nodes handles → same_but (all_blobs (extractInactiveBlobsIDs handles)) B1 B' →
  same_views T1 B1 T1 B'.
Proof.
  intros Hf Hlim Hs Hb. apply unnoticed_views; [apply unnoticed_refl|]. intros t id h Hh. apply Hb. intros Hk.
  destruct (staged_blob_keys _ _ _ _ _ _ _ _ _ Hs Hk) as (i & t' & n & Hi & [= -> He]).
  destruct (su_node _ _ _ _ _ _ _ _ _ _ Hs i t' n Hi) as (h0 & ba & _ & _ & _ & _ & HT1 & _).
  apply (staged_inactive_free gen home limit _ _ _ _ _ _ _ _ Hf Hs Hlim n (staged now (gen (d + i)) h0) id h); [|exact HT1|exact Hh| |].
  - apply list_elem_of_lookup. exists i. by rewrite list_lookup_fmap, Hi.
  - rewrite staged_inactive. apply gen_not_nil.
  - by rewrite staged_inactive.
Qed.

(** The world after the recovery of a transaction that staged [nodes]. *)
Definition recovered T R B w : Prop := ∃ T', repo_inv w T' R B ∧ same_views T B T' B.

Lemma recovered_unseen T R B w : recovered T R B w → unseen T B w.
Proof. intros (T' & (Hh & Hb & _) & Hv). exists T', R, B. split; [by apply holds_stands|]. done. Qed.

Lemma wp_undo_staged tid last pre err x T R B now d T1 B1 nodes handles :
  t_btreesBackend (x_tx x) ≠ [] → commitUpdatedNodes_state ≤ last → last < deleteObsoleteEntries_state → Forall harmless pre →
  fresh gen limit d T B → d + length (flat nodes) ≤ limit → d ≤ w_drawn (x_world x) →
  repo_inv (x_world x) T1 R B1 → same_views T B T1 B1 →
  staged_update gen home now d T B T1 B1 nodes handles →
  wp (undo_logs H tid last err ((commitUpdatedNodes_state, BlobsIDsPayload (extractInactiveBlobsIDs handles)) :: pre)) x
    (λ _ x', recovered T R B (x_world x')) (λ _ x', unseen T B (x_world x')).
Proof.
  intros Hbt Hge Hlast Hpre Hf Hlim Hd (Hh & Hb & Hf1) Hv Hs. cbn [undo_logs]. rewrite decide_False by done.
  assert (Hstep : undo_step H last commitUpdatedNodes_state (BlobsIDsPayload (extractInactiveBlobsIDs handles)) =
    Some (of_first (removeNodes (extractInactiveBlobsIDs handles)))).
  { unfold undo_step. rewrite !decide_False by done. rewrite decide_True by done. cbn [is_nil negb logged_blobs].
    by rewrite andb_true_r, (proj2 (Nat.leb_le _ _) Hge). }
  rewrite Hstep. apply wp_bind, wp_handle. unfold of_first. apply wp_bind, wp_gets. rewrite decide_False by done.
  unfold on_world. apply wp_on.
  assert (Hsame : ∀ B', same_but (all_blobs (extractInactiveBlobsIDs handles)) B1 B' → same_views T B T1 B').
  { intros B' Hs' t id. rewrite <-(Hv t id). exact (staged_blobs_unread _ _ _ _ _ _ _ _ _ Hf Hlim Hs Hs' t id). }
  assert (Hend : ∀ err' x1, x_tx x1 = x_tx x → (err' = None → recovered T R B (x_world x1)) → unseen T B (x_world x1) →
    wp (undo_logs H tid last err' pre) x1 (λ _ x', recovered T R B (x_world x')) (λ _ x', unseen T B (x_world x'))).
  { intros err' x1 Ht Hok Hno. rewrite <-(app_nil_r pre). apply wp_undo_harmless; [done|done|by rewrite Ht|].
    intros err2 x2 Hw2 _ He2. cbn [undo_logs]. eapply wp_mono; [apply wp_drop_logs| |].
    - intros [] x3 [-> ->]. rewrite Hw2. by apply Hok, He2.
    - intros e x3 ->. by rewrite Hw2. }
  eapply wp_mono; [by apply (wp_removeNodes _ B1)| |].
  - intros [] w' (b & c & -> & Hb').
    assert (Hr : recovered T R B (set_l2nodes c (set_blobStore b (x_world x)))).
    { rewrite (staged_blobs_removed now d T B T1 B1 nodes) in Hb' by done. exists T1. split; [split; [exact Hh|split; [exact Hb'|]]|].
      - intros i Hi Hil. cbn in Hi. split; [intros t; apply (Hf i); lia|]. intros id h Hid. by apply (Hf1 i) with id.
      - apply Hsame. rewrite <-(staged_blobs_removed now d T B T1 B1 nodes handles) by done.
        intros k Hk. rewrite delete_blobs_lookup. by rewrite decide_False. }
    apply wp_ret, Hend; [done|done|by apply (recovered_unseen _ R)].
  - intros e w' (b & c & B' & -> & Hb' & Hs'). apply wp_ret, Hend; [done|done|]. exists T1, R, B'.
    split; [by apply holds_stands|]. split; [done|]. by apply Hsame.
Qed.

(** C12: A transaction that only updates nodes, whose handles can be written and are returned in the order asked for
    ([request]), and that crashed after it staged them and logged it, before it wrote the turned handles, is undone by
    the recovery of its logs: the blob store is byte for byte what it was before, and readers see no difference, also
    if a step of the recovery fails.  The handles keep what was staged until it expires.  Its other log entries name
    no nodes and values, and none of a step before the staging is the last. *)
Theorem crash_recovered w T R B nodes : repo_inv w T R B → request T R w nodes →
  wp (commitUpdatedNodes (RE := RE) (BE := BE) gen nodes) w
    (λ '(ok, handles) w1, ok = true → ∀ tid x pre post, x_world x = w1 → t_btreesBackend (x_tx x) ≠ [] →
       Forall harmless (pre ++ post) → (∀ e, list.last post = Some e → commitUpdatedNodes_state ≤ e.1) →
       wp (rollback_logs H tid (pre ++ (commitUpdatedNodes_state, BlobsIDsPayload (extractInactiveBlobsIDs handles)) :: post)) x
         (λ _ x', recovered T R B (x_world x')) (λ _ x', unseen T B (x_world x')))
    (λ _ w1, unseen T B w1).
Proof.
  intros Hinv Hreq. pose proof Hreq as [_ _ _ _ _ Hlim]. pose proof Hinv as (_ & _ & Hf).
  eapply wp_mono; [by apply (wp_commitUpdatedNodes gen home gen_not_nil gen_wf limit gen_inj w T R B)| |done].
  intros [ok handles] w1 (T1 & B1 & Hi1 & Hv1 & _ & Hok) -> tid x pre post <- Hb Hall Hpost.
  destruct Hok as (Hs & Hdrawn & _). apply Forall_app in Hall as [Hpre Hpo]. unfold rollback_logs.
  rewrite list.last_app. cbn [list.last].
  assert (Hlast : ∃ last p, list.last ((commitUpdatedNodes_state, BlobsIDsPayload (extractInactiveBlobsIDs handles)) :: post) = Some (last, p) ∧
    commitUpdatedNodes_state ≤ last ∧ last < deleteObsoleteEntries_state).
  { destruct (list.last post) as [[f p]|] eqn:Hl.
    - exists f, p. rewrite last_cons, Hl. split; [done|]. split; [by apply (Hpost (f, p))|].
      apply last_Some_elem_of in Hl. by apply (proj1 (Forall_forall _ _) Hpo) in Hl as [? _].
    - exists commitUpdatedNodes_state, (BlobsIDsPayload (extractInactiveBlobsIDs handles)). rewrite last_cons, Hl.
      split; [done|]. split; [done|]. unfold commitUpdatedNodes_state, deleteObsoleteEntries_state. lia. }
  destruct Hlast as (last & p & Hl & Hge & Hlt). cbn [list.last] in Hl. rewrite Hl.
  rewrite reverse_app, reverse_cons, <-app_assoc. apply wp_undo_harmless; [done|by apply Forall_reverse|done|].
  intros err x' Hw Ht _. apply (wp_undo_staged tid last (reverse pre) err x' T R B (w_now w) (w_drawn w) T1 B1 nodes);
    rewrite ?Ht, ?Hw, ?Hdrawn; try done; [by apply Forall_reverse|lia].
Qed.

(** ** After the switch *)

(** The calls that drop cached values leave the stores alone. *)
Hypothesis cached_calls : ∀ id x, wp (deleteCachedValue H id) x (λ _ x', x_world x' = x_world x) (λ _ x', x_world x' = x_world x).

(** [B'] is [B] without the blobs [ks]. *)
Definition without (ks : list (string * UUID)) B B' : Prop := ∀ k, B' !! k = if decide (k ∈ ks) then None else B !! k.

Lemma without_nil B : without [] B B.
Proof. intros k. rewrite decide_False; [done|apply not_elem_of_nil]. Qed.
Lemma without_app l1 l2 B B1 B2 : without l1 B B1 → without l2 B1 B2 → without (l1 ++ l2) B B2.
Proof.
  intros H1 H2 k. rewrite H2, H1. destruct (decide (k ∈ l2)), (decide (k ∈ l1)), (decide (k ∈ l1 ++ l2)) as [Hk|Hk]; try done;
    first [by destruct Hk; apply elem_of_app; auto|by apply elem_of_app in Hk as [?|?]].
Qed.
Lemma same_but_app l1 l2 B B1 B2 : same_but l1 B B1 → same_but l2 B1 B2 → same_but (l1 ++ l2) B B2.
Proof. intros H1 H2 k [? ?]%not_elem_of_app. by rewrite H2, H1. Qed.
Lemma delete_without l B : without l B (delete_blobs l B).
Proof. intros k. apply delete_blobs_lookup. Qed.

(** A part of a cleanup that removes the blobs [ks]: which are gone if no error is
    reported beyond the one there was. *)
Definition sweeps (ks : list (string * UUID)) (err : option error) (m : X (option error)) : Prop := ∀ x B, blob_holds (w_blobStore (x_world x)) B →
  wp m x (λ err' x', ∃ b c B', x_world x' = set_l2nodes c (set_blobStore b (x_world x)) ∧ blob_holds b B' ∧ same_but ks B B' ∧
    (err' = None → err = None ∧ without ks B B')) (λ _ _, False).

Lemma sweeps_bind ks1 ks2 err (m : X (option error)) k : sweeps ks1 err m → (∀ err', sweeps ks2 err' (k err')) → sweeps (ks1 ++ ks2) err (m ≫= k).
Proof.
  intros Hm Hk x B HB. apply wp_bind. eapply wp_mono; [by apply Hm| |done]. intros err1 x1 (b & c & B1 & Hw & Hb & Hs & Hn).
  eapply wp_mono; [apply (Hk err1 x1 B1); by rewrite Hw| |done]. intros err2 x2 (b2 & c2 & B2 & Hw2 & Hb2 & Hs2 & Hn2).
  exists b2, c2, B2. split; [by rewrite Hw2, Hw|]. split; [done|]. split; [by eapply same_but_app|]. intros He.
  destruct (Hn2 He) as [H1 H2]. destruct (Hn H1) as [H3 H4]. split; [done|]. by eapply without_app.
Qed.
Lemma sweeps_nothing err : sweeps [] err (mret err).
Proof.
  intros x B HB. apply wp_ret. exists (w_blobStore (x_world x)), (w_l2nodes (x_world x)), B. split; [by destruct (x_world x)|].
  split; [done|]. split; [done|]. intros ->. split; [done|apply without_nil].
Qed.
Lemma sweeps_blobs err ps : sweeps (all_blobs ps) err (attempt err (on_world (on_blobStore (blobStore_Remove ps)))).
Proof.
  intros x B HB. apply wp_handle. unfold on_world, on_blobStore. apply wp_on, wp_on. eapply wp_mono; [by apply (BlobRemove_law _ B)| |].
  - intros [] b Hb. apply wp_ret. exists b, (w_l2nodes (x_world x)), (delete_blobs (all_blobs ps) B).
    split; [done|]. split; [done|]. split; [|by split; [|apply delete_without]].
    intros k Hk. rewrite delete_blobs_lookup. by rewrite decide_False.
  - intros e b (B' & Hb & Hs). apply wp_ret. by exists b, (w_l2nodes (x_world x)), B'.
Qed.
Lemma sweeps_calm err (m : X ()) :
  (∀ x, wp m x (λ _ x', ∃ c, x_world x' = set_l2nodes c (x_world x)) (λ _ x', ∃ c, x_world x' = set_l2nodes c (x_world x))) →
  sweeps [] err (attempt err m).
Proof.
  intros Hm x B HB. apply wp_handle. eapply wp_mono; [apply Hm| |].
  - intros [] x' [c Hw]. apply wp_ret. exists (w_blobStore (x_world x)), c, B. rewrite Hw. split; [by destruct (x_world x)|].
    split; [done|]. split; [done|]. intros ->. split; [done|apply without_nil].
  - intros e x' [c Hw]. apply wp_ret. exists (w_blobStore (x_world x)), c, B. rewrite Hw. split; [by destruct (x_world x)|]. by split.
Qed.

Lemma sweeps_values ids : ∀ err, sweeps [] err (delete_values H err ids).
Proof.
  induction ids as [|id ids IH]; intros err; cbn [delete_values]; [apply sweeps_nothing|].
  apply (sweeps_bind [] []); [|exact IH]. apply sweeps_calm. intros x. eapply wp_mono; [apply cached_calls| |];
    intros a x' Hw; exists (w_l2nodes (x_world x)); rewrite Hw; by destruct (x_world x).
Qed.
Definition value_blobs (l : list (bool * BlobsPayload UUID)) : list (string * UUID) := l ≫= λ v, all_blobs [v.2].
Lemma sweeps_items l : ∀ err, sweeps (value_blobs l) err (delete_items H err l).
Proof.
  induction l as [|[cached p] l IH]; intros err; cbn [delete_items]; [apply sweeps_nothing|].
  change (value_blobs ((cached, p) :: l)) with ([] ++ all_blobs [p] ++ value_blobs l). apply sweeps_bind.
  - destruct cached; [apply sweeps_values|apply sweeps_nothing].
  - intros err1. apply sweeps_bind; [apply sweeps_blobs|exact IH].
Qed.
Lemma sweeps_attempt ks err (m : X (option error)) : sweeps ks None m →
  sweeps ks err (attempt err (r ← m; end_attempt r)).
Proof.
  intros Hm x B HB. apply wp_handle, wp_bind. eapply wp_mono; [by apply Hm| |done].
  intros r x' (b & c & B' & Hw & Hb & Hs & Hn). destruct r as [e|]; cbn [end_attempt].
  - apply wp_fail, wp_ret. by exists b, c, B'.
  - apply wp_ret, wp_ret. exists b, c, B'. split; [done|]. split; [done|]. split; [done|]. intros ->. split; [done|]. by apply Hn.
Qed.
Lemma sweeps_nodes ps : ∀ err, sweeps [] err (delete_obsolete_nodes err ps).
Proof.
  induction ps as [|p ps IH]; intros err; cbn [delete_obsolete_nodes]; [apply sweeps_nothing|].
  apply (sweeps_bind [] []); [|exact IH]. apply sweeps_calm. intros x. unfold DeleteNodes. apply wp_bind, wp_modify, wp_bind.
  unfold on_world. apply wp_on. eapply wp_mono; [apply (wp_delete_cached (bp_Blobs p) None)| |done].
  intros r w [[c ->] _]. destruct r as [e|]; [apply wp_fail|apply wp_ret]; by exists c.
Qed.

(** What the cleanup of a commit has done to the stores, when [err'] is what it reports. *)
Definition cleaned_up T B (ids : list UUID) (ks : list (string * UUID)) (err err' : option error) w w' : Prop :=
  ∃ r b c T' R' B', w' = set_l2nodes c (set_blobStore b (set_registry r w)) ∧ stands r T' R' ∧ between T (delete_ids ids T) T' ∧
    blob_holds b B' ∧ same_but ks B B' ∧
    (err' = None → err = None ∧ T' = delete_ids ids T ∧ holds r T' R' ∧ without ks B B').

Lemma wp_obsolete T R B reqs blobs err x : holds (w_registry (x_world x)) T R → blob_holds (w_blobStore (x_world x)) B →
  homed home reqs → NoDup (rp_RegistryTable <$> reqs) → NoDup (all_ids reqs) → Forall (λ id, id ∈ R) (all_ids reqs) →
  wp (attempt err (deleteObsoleteEntries reqs blobs)) x
    (λ err' x', cleaned_up T B (all_ids reqs) (all_blobs blobs) err err' (x_world x) (x_world x')) (λ _ _, False).
Proof.
  intros Hh Hb Hhome Hdist Hnd HR. apply wp_handle. unfold deleteObsoleteEntries.
  assert (Hs : sweeps (all_blobs blobs) None (if decide (blobs = []) then mret None
    else err ← delete_obsolete_nodes None blobs; attempt err (on_world (on_blobStore (blobStore_Remove blobs))))).
  { case_decide as Hn; [subst blobs; apply sweeps_nothing|].
    apply (sweeps_bind []); [apply sweeps_nodes|intros err1; apply sweeps_blobs]. }
  apply wp_bind. eapply wp_mono; [by apply (Hs x B)| |done]. intros err1 x1 (b & c & B' & Hw & Hb' & Hsame & Hnone).
  apply wp_bind, wp_handle. unfold on_world, on_registry. apply wp_on, wp_on. rewrite Hw.
  eapply wp_mono; [apply (Remove_law (RS := RS) _ T R); try done| |].
  - intros [] r [(R' & Hh' & _) _]. apply wp_ret. destruct err1 as [e|]; cbn [end_attempt].
    + apply wp_fail, wp_ret. exists r, b, c, (delete_ids (all_ids reqs) T), R', B'. split; [done|].
      split; [by apply holds_stands|]. split; [intros id; by right|]. done.
    + apply wp_ret, wp_ret. exists r, b, c, (delete_ids (all_ids reqs) T), R', B'. split; [done|].
      split; [by apply holds_stands|]. split; [intros id; by right|]. split; [done|]. split; [done|]. intros ->.
      destruct (Hnone eq_refl) as [_ ?]. done.
  - intros e r (T' & R' & Hst & Hbt & _). apply wp_ret. cbn [end_attempt]. apply wp_fail, wp_ret.
    exists r, b, c, T', R', B'. split; [done|]. by split_and!.
Qed.

(** Readers of other IDs see what they saw. *)
Lemma cleaned_up_views T B ids ks T' B' : between T (delete_ids ids T) T' → same_but ks B B' →
  (∀ t id h, id ∉ ids → T !! id = Some h → (t, GetActiveID h) ∉ ks) → ∀ t id, id ∉ ids → view T' B' t id = view T B t id.
Proof.
  intros Hbt Hs Hact t id Hid. assert (HT : T' !! id = T !! id).
  { destruct (Hbt id) as [?|Hd]; [done|]. by rewrite Hd, delete_ids_lookup, decide_False. }
  unfold view. rewrite HT. destruct (T !! id) as [h|] eqn:E; [|done]. cbn. by rewrite (Hs _ (Hact t id h Hid E)).
Qed.

Lemma without_same_but ks B B' : without ks B B' → same_but ks B B'.
Proof. intros Hw k Hk. by rewrite Hw, decide_False. Qed.

(** The blobs that the recovery removes: those of the nodes, and those of the values if
    the log says that their removal had begun. *)
Definition doomed (tail : list nat) (blobs : list (BlobsPayload UUID)) (values : list (bool * BlobsPayload UUID)) : list (string * UUID) :=
  (if decide (tail = [deleteObsoleteEntries_state]) then [] else value_blobs values) ++ all_blobs blobs.

(** C13: The recovery of a transaction whose log says that it switched to its new nodes and had begun to clean up, at
    its obsolete entries or at its obsolete values, undoes none of the steps logged before.  If it reports no error, the
    registry has lost exactly the handles of the removed nodes, and the blob store exactly the blobs that the log names
    as obsolete, those of values only if their removal had begun; and whatever fails, readers of all other nodes see
    what they saw.  The removed nodes are within reach of a write and the blobs are not those of other nodes; the calls
    that drop cached values leave the stores alone. *)
Theorem recovery_finishes (tid : UUID) logs ids blobs values (tail : list nat) x T R B :
  repo_inv (x_world x) T R B →
  tail = [deleteObsoleteEntries_state] ∨ tail = [deleteObsoleteEntries_state; deleteTrackedItemsValues_state] →
  homed home ids → NoDup (rp_RegistryTable <$> ids) → NoDup (all_ids ids) → Forall (λ id, id ∈ R) (all_ids ids) →
  (∀ t id h, id ∉ all_ids ids → T !! id = Some h → (t, GetActiveID h) ∉ doomed tail blobs values) →
  wp (rollback_logs H tid (logs ++ (finalizeCommit, FinalPayload ids blobs values) :: ((λ f, (f, NoPayload)) <$> tail))) x
    (λ _ x', ∃ R' B', repo_inv (x_world x') (delete_ids (all_ids ids) T) R' B' ∧ without (doomed tail blobs values) B B' ∧
       ∀ t id, id ∉ all_ids ids → view (delete_ids (all_ids ids) T) B' t id = view T B t id)
    (λ _ x', ∃ T' R' B', stands (w_registry (x_world x')) T' R' ∧ blob_holds (w_blobStore (x_world x')) B' ∧
       ∀ t id, id ∉ all_ids ids → view T' B' t id = view T B t id).
Proof.
  intros (Hh & Hb & Hf) Htail Hhome Hdist Hnd HR Hact.
  assert (Hfirst : sweeps (if decide (tail = [deleteObsoleteEntries_state]) then [] else value_blobs values) None
    (if decide (tail = [deleteObsoleteEntries_state]) then mret None else attempt None (deleteTrackedItemsValues H values))).
  { case_decide; [apply sweeps_nothing|]. apply sweeps_attempt, sweeps_items. }
  assert (Hrun : rollback_logs H tid (logs ++ (finalizeCommit, FinalPayload ids blobs values) :: ((λ f, (f, NoPayload)) <$> tail)) x =
    (err ← (if decide (tail = [deleteObsoleteEntries_state]) then mret None else attempt None (deleteTrackedItemsValues H values));
     err ← attempt err (deleteObsoleteEntries ids blobs);
     drop_logs tid err) x).
  { unfold rollback_logs. rewrite list.last_app. by destruct Htail as [->| ->]; cbn [fmap list_fmap list.last]; rewrite reverse_app; cbn. }
  unfold wp. rewrite Hrun. apply wp_bind. eapply wp_mono; [by apply (Hfirst x B)| |done].
  intros err1 x1 (b1 & c1 & B1 & Hw1 & Hb1 & Hs1 & Hn1). apply wp_bind.
  eapply wp_mono; [apply (wp_obsolete T R B1 ids blobs err1 x1); rewrite ?Hw1; done| |done].
  intros err2 x2 (r & b & c & T' & R' & B' & Hw2 & Hst & Hbt & Hb2 & Hs2 & Hn2).
  assert (Hsame : same_but (doomed tail blobs values) B B') by (by eapply same_but_app).
  eapply wp_mono; [apply wp_drop_logs| |].
  - intros [] x3 [-> ->]. destruct (Hn2 eq_refl) as (H1 & -> & Hh' & Hwo). destruct (Hn1 H1) as [_ Hwo1].
    assert (Hgone : without (doomed tail blobs values) B B') by (by eapply without_app).
    exists R', B'. rewrite Hw2, Hw1. split; [split; [exact Hh'|split; [exact Hb2|]]|split; [done|]].
    + intros i Hi Hl. cbn in Hi. destruct (Hf i Hi Hl) as [HB HT]. split.
      * intros t. rewrite Hgone. destruct (decide (_ ∈ doomed _ _ _)); [reflexivity|apply HB].
      * intros id h Hid. rewrite delete_ids_lookup in Hid. case_decide; [done|]. by apply (HT id).
    + by eapply cleaned_up_views.
  - intros e x3 ->. exists T', R', B'. rewrite Hw2. split; [done|]. split; [done|]. by eapply cleaned_up_views.
Qed.
End props.
