(* ===== verification/TwoPhaseProps.v ===== *)
(** * The phases of a commit: locks, lifecycle and termination

    The calls of TwoPhaseCommit.v preserve relations between the state before and
    after: [keeping] for the steps that leave the keys of the nodes alone, [releasing]
    for those that may drop some.  [settled] is what every call leaves behind.  First
    come the turns of phase 1: what the steps of a turn return, and how the counters of
    the loop bound its turns, which needs nothing of the locks, stores or B-trees. *)

From stdpp Require Import gmap propset.
From S2P Require Import Prelude Wp Handle HashmapSpec Stores NodeRepo TwoPhase TwoPhaseCommit.

(** ** The turns of phase 1 *)

Section counters.
Context {RS RE BS BE Nd LS LE TS TE SS SE CS KI KE : Type} `{RO : Stores.Registry RS RE} `{BO : Stores.BlobStore BS BE} `{MD : MetaData Nd}.
Context `{LO : Locker LS LE} `{TO : TransactionLog TS TE} `{SO : StoreRepository SS SE}.
Context `{CO : NodeCache CS Nd} `{VO : Versioned Nd} `{EO : SectorErrors (repo_error RE BE)}.
Context (gen : nat → UUID) (H : @hooks RS RE BS BE Nd LS LE TS TE SS SE CS KI KE).
Local Abbreviation X := (M (@txstate RS BS Nd LS TS SS CS KI) (tx_error RE BE LE TE SE KE)).
Local Abbreviation progress := (@progress Nd).
Implicit Types (l : progress).

(** The turns that the counters allow for. *)
Definition turns_left l : nat :=
  (phase1CommitMaxRetryCount - pr_retryCount l) + (phase1LockAcquireMaxRetryCount - pr_lockRetryCount l).
Definition bounded l : Prop :=
  pr_retryCount l < phase1CommitMaxRetryCount ∧ pr_lockRetryCount l < phase1LockAcquireMaxRetryCount.

(** The counters of the next turn. *)
Definition counted l l' : Prop := bounded l' ∧ S (turns_left l') = turns_left l.
Definition same_count l l' : Prop := pr_retryCount l' = pr_retryCount l ∧ pr_lockRetryCount l' = pr_lockRetryCount l.

Lemma lock_retry_yields l : bounded l →
  yields (lock_retry H l) (λ l', counted l l' ∧ pr_classes l' = pr_classes l ∧ pr_needsRefetchAndMerge l' = pr_needsRefetchAndMerge l).
Proof.
  intros Hb. unfold lock_retry. case_decide; [apply yields_fail|]. apply yields_bind. intros _. apply yields_ret.
  unfold counted, bounded, turns_left in *.
  cbn [set_needs set_retries pr_retryCount pr_lockRetryCount]. split; [lia|done].
Qed.

Lemma give_back_yields l : bounded l → yields (give_back H l) (λ l', counted l l' ∧ pr_needsRefetchAndMerge l' = true).
Proof.
  intros Hb. unfold give_back. case_decide; [apply yields_fail|]. apply yields_handle; intros a; [|apply yields_fail].
  apply yields_bind. intros _. apply yields_ret. unfold counted, bounded, turns_left in *.
  cbn [set_needs set_retries pr_retryCount pr_lockRetryCount]. split; [lia|done].
Qed.

Lemma relock_yields l : bounded l →
  yields (relock H l) (λ r, match r with
                          | inl l' => counted l l' ∧ pr_needsRefetchAndMerge l' = true
                          | inr l' => l' = l
                          end).
Proof.
  intros Hb. unfold relock. do 2 (apply yields_bind; intros ?). apply yields_bind. intros [].
  - by apply yields_ret.
  - apply yields_bind. intros _. eapply yields_then; [by apply lock_retry_yields|]. intros l' (Hc & _ & _).
    apply yields_ret. by split.
Qed.

Lemma remerge_yields l : bounded l →
  yields (remerge gen H l) (λ r, match r with
                                 | inl l' => counted l l' ∧ pr_needsRefetchAndMerge l' = true
                                 | inr l' => same_count l l' ∧ pr_needsRefetchAndMerge l' = false
                                 end).
Proof.
  intros Hb. unfold remerge. destruct (pr_needsRefetchAndMerge l) eqn:En; cbn [negb]; [|by apply yields_ret].
  do 5 (apply yields_bind; intros ?). intros x. eapply wlp_mono; [by apply relock_yields| |done].
  intros [l'|l'] x'; [exact (λ Hl, Hl)|by intros ->].
Qed.

(** Staging changes none of what decides about the next turn. *)
Definition carried l l' : Prop :=
  same_count l l' ∧ pr_needsRefetchAndMerge l' = pr_needsRefetchAndMerge l ∧ pr_classes l' = pr_classes l.
#[local] Instance carried_preorder : PreOrder carried.
Proof.
  split; [done|]. intros l1 l2 l3 [[? ?] [? ?]] [[? ?] [? ?]]. split; [split|split]; congruence.
Qed.

Lemma stage_values_yields l : yields (stage_values H l) (carried l).
Proof.
  unfold stage_values. do 3 (apply yields_bind; intros ?). case_decide; [by apply yields_ret|].
  apply yields_bind. intros _. by apply yields_ret.
Qed.
Lemma stage_updated_yields l : yields (stage_updated gen l : X _) (λ r, carried l r.2).
Proof. unfold stage_updated. apply yields_bind. intros [ok hs]. apply yields_bind. intros _. by apply yields_ret. Qed.
Lemma stage_removed_yields l : yields (stage_removed l : X _) (λ r, carried l r.2).
Proof. unfold stage_removed. apply yields_bind. intros _. apply yields_bind. intros [ok hs]. by apply yields_ret. Qed.

Lemma stage_yields l : yields (stage gen H l) (λ r, carried l r.2).
Proof.
  unfold stage. eapply yields_then; [apply stage_values_yields|]. intros l1 H1. do 2 (apply yields_bind; intros ?).
  eapply (yields_then _ _ (λ r, carried l r.2)); [case_match; [|by apply yields_ret]|].
  { intros x. eapply wlp_mono; [apply stage_updated_yields| |done]. intros r x' Hr. exact (transitivity H1 Hr). }
  intros [ok l2] H2. eapply (yields_then _ _ (λ r, carried l r.2)); [case_match; [|by apply yields_ret]|].
  { intros x. eapply wlp_mono; [apply stage_removed_yields| |done]. intros r x' Hr. exact (transitivity H2 Hr). }
  intros [ok' l3] H3. apply yields_bind. intros ok''. by apply yields_ret.
Qed.

(** A turn that was not the last uses up one of those the counters allow. *)
Lemma turn_yields startTime l : bounded l →
  yields (phase1_turn gen H startTime l) (λ r, if r.1 then True else counted l r.2).
Proof.
  intros Hb. unfold phase1_turn. do 2 (apply yields_bind; intros ?).
  destruct (negb _).
  { eapply yields_then; [by apply lock_retry_yields|]. intros l' (Hc & _). by apply yields_ret. }
  do 2 (apply yields_bind; intros ?). destruct (negb _).
  { eapply yields_then; [by apply lock_retry_yields|]. intros l' (Hc & _). by apply yields_ret. }
  eapply yields_then; [by apply remerge_yields|]. intros [l'|l'] Hl; [apply yields_ret; apply Hl|].
  destruct Hl as [[Hr1 Hr2] _]. eapply yields_then; [apply stage_yields|]. intros [[] l2] [[H21 H22] _]; [by apply yields_ret|].
  cbn [snd] in *. assert (Hb2 : bounded l2) by (unfold bounded; rewrite H21, H22, Hr1, Hr2; exact Hb).
  eapply yields_then; [by apply give_back_yields|]. intros l3 [[Hb3 Hc3] _]. apply yields_ret. split; [exact Hb3|].
  cbn [snd]. unfold turns_left in *. by rewrite Hc3, H21, H22, Hr1, Hr2.
Qed.

Lemma loop_yields fuel : ∀ startTime l, bounded l → turns_left l < fuel →
  yields (phase1_loop gen H fuel startTime l) (λ r, r ≠ None).
Proof.
  induction fuel as [|fuel IH]; intros startTime l Hb Hf; [lia|]. cbn [phase1_loop].
  eapply yields_then; [by apply turn_yields|]. intros [[] l'] Hl; [by apply yields_ret|]. destruct Hl as [Hb' Hc]. apply IH; [done|].
  cbn [snd] in *. lia.
Qed.
End counters.

(** ** The locks *)

(** The entries of the lock table that are asked for with some keys. *)
Definition entries (ks : list LockKey) : propset (lock_name * UUID) := list_to_set ((λ k, (lk_Key k, lk_LockID k)) <$> ks).

(** What the locks promise: a call acquires no more than its keys, and unlocking
    does not fail. *)
Class LockerLaws (LS LE : Type) `{Locker LS LE} := {
  held : LS → propset (lock_name * UUID);
  Lock_law s d ks :
    wlp (locks_Lock d ks) s (λ _ s', held s' ⊆ held s ∪ entries ks) (λ _ s', held s' ⊆ held s ∪ entries ks);
  DualLock_law s d ks :
    wlp (locks_DualLock d ks) s
      (λ ok s', held s' ⊆ held s ∪ entries ks ∧ (ok = true → entries ks ⊆ held s'))
      (λ _ s', held s' ⊆ held s ∪ entries ks);
  IsLocked_law s ks :
    wlp (locks_IsLocked ks) s
      (λ ok s', held s' ⊆ held s ∧ (ok = true → entries ks ⊆ held s')) (λ _ s', held s' ⊆ held s);
  Unlock_law s ks : wlp (locks_Unlock ks) s (λ _ s', held s' ⊆ held s ∖ entries ks) (λ _ _, False);
}.

Section props.
Context {RS RE BS BE Nd LS LE TS TE SS SE CS KI KE : Type} `{RO : Stores.Registry RS RE} `{BO : Stores.BlobStore BS BE} `{MD : MetaData Nd}.
Context `{LO : Locker LS LE} `{TO : TransactionLog TS TE} `{SO : StoreRepository SS SE}.
Context `{CO : NodeCache CS Nd} `{VO : Versioned Nd} `{EO : SectorErrors (repo_error RE BE)}.
Context `{LL : !LockerLaws LS LE}.
Context (gen : nat → UUID).
(** The lock IDs that are the transaction's own. *)
Context (mine : UUID → Prop).

Local Abbreviation error := (tx_error RE BE LE TE SE KE).
Local Abbreviation txstate := (@txstate RS BS Nd LS TS SS CS KI).
Local Abbreviation X := (M txstate error).
Local Abbreviation hooks := (@hooks RS RE BS BE Nd LS LE TS TE SS SE CS KI KE).
Implicit Types (x : txstate) (B : propset (lock_name * UUID)).

(** ** Relations between the states before and after a call *)

Definition keys x : propset (lock_name * UUID) := entries (t_nodesKeys (x_tx x)).

(** The transaction is the same, and its log is still one that can be undone. *)
Record same (x x' : txstate) : Prop := {
  same_id : t_id (x_tx x') = t_id (x_tx x);
  same_mode : t_mode (x_tx x') = t_mode (x_tx x);
  same_phaseDone : t_phaseDone (x_tx x') = t_phaseDone (x_tx x);
  same_committed : t_committed (x_tx x') = t_committed (x_tx x);
  same_btrees : length (t_btreesBackend (x_tx x')) = length (t_btreesBackend (x_tx x));
}.
#[global] Instance same_preorder : PreOrder same.
Proof. split; [by intros x; split|]. intros x y z [] []. split; congruence. Qed.

(** A lock of the transaction on a node. *)
Definition ours (p : lock_name * UUID) : Prop := mine p.2 ∧ ∃ id, p.1 = NodeKey id.

(** A node has one key, and the locks of the transaction beyond [B] are those of its
    nodes. *)
Definition settled B x : Prop :=
  NoDup (lk_Key <$> t_nodesKeys (x_tx x)) ∧
  ∀ p, p ∈ held (x_locks x) → ours p → p ∈ B ∨ p ∈ keys x.

Definition undoable x : Prop := t_committedState (x_tx x) ≤ finalizeCommit.

Record releasing (x x' : txstate) : Prop := {
  rel_same : same x x';
  rel_settled : ∀ B, settled B x → settled B x';
  rel_undoable : undoable x → undoable x';
}.
#[global] Instance releasing_preorder : PreOrder releasing.
Proof.
  split; [by intros x; split|]. intros x y z [] []. split; [by etrans|auto|auto].
Qed.

Record keeping (x x' : txstate) : Prop := {
  keep_same : same x x';
  keep_nodesKeys : t_nodesKeys (x_tx x') = t_nodesKeys (x_tx x);
  keep_held : ∀ p, p ∈ held (x_locks x') → ours p → p ∈ held (x_locks x) ∨ p ∈ keys x;
  keep_undoable : undoable x → undoable x';
}.
#[global] Instance keeping_preorder : PreOrder keeping.
Proof.
  split; [intros x; split; auto; reflexivity|]. intros x y z [Hs1 Hk1 Hh1 Hu1] [Hs2 Hk2 Hh2 Hu2].
  split; [by etrans|congruence| |auto]. intros p Hp Hm. destruct (Hh2 p Hp Hm) as [Hp1|Hp1]; [auto|].
  right. unfold keys in *. by rewrite Hk1 in Hp1.
Qed.

Lemma keeping_releasing x x' : keeping x x' → releasing x x'.
Proof.
  intros [Hs Hk Hh Hu]. split; [done| |done]. intros B [Hnd HB]. split; [by rewrite Hk|].
  intros p Hp Hm. unfold keys. rewrite Hk. destruct (Hh p Hp Hm) as [Hp'|Hp']; auto.
Qed.

Lemma moves_keeping {A} (m : X A) : moves keeping m → moves releasing m.
Proof. intros Hm. eapply moves_sub; [exact Hm|exact keeping_releasing]. Qed.

(** What the functions of the B-trees and the callbacks leave alone. *)
Record hooks_ok (H : hooks) : Prop := {
  ok_refetch i : moves keeping (refetchAndMerge H i);
  ok_check i : moves keeping (checkTrackedItems_of H i);
  ok_lock i d : moves keeping (lockTrackedItems_of H i d);
  ok_unlock i : moves keeping (unlockTrackedItems_of H i);
  ok_values i : moves keeping (commitTrackedItemsValues_of H i);
  ok_rollback_values i : moves keeping (getForRollbackTrackedItemsValues_of H i);
  ok_obsolete_values i : moves keeping (getObsoleteTrackedItemsValues_of H i);
  ok_cached id : moves keeping (deleteCachedValue H id);
  ok_sleep : moves keeping (RandomSleep H);
  ok_replicate : moves keeping (Replicate H);
  ok_hooks : moves keeping (onCommitHooks H);
}.
Context (H : hooks) (HH : hooks_ok H).

(** ** Steps that leave the keys of the nodes alone *)

Lemma keeping_tx x (f : Transaction → Transaction) :
  (∀ t : @Transaction Nd KI, t_id (f t) = t_id t ∧ t_mode (f t) = t_mode t ∧ t_phaseDone (f t) = t_phaseDone t ∧ t_committed (f t) = t_committed t ∧
     t_btreesBackend (f t) = t_btreesBackend t ∧ t_nodesKeys (f t) = t_nodesKeys t ∧
     (t_committedState t ≤ finalizeCommit → t_committedState (f t) ≤ finalizeCommit)) → keeping x (set_tx (f (x_tx x)) x).
Proof.
  intros Hf. destruct (Hf (x_tx x)) as (? & ? & ? & ? & Hb & Hk & Hu). split; [split|..]; cbn; try congruence; auto.
Qed.

Lemma keeping_other x x' : x_tx x' = x_tx x → x_locks x' = x_locks x → keeping x x'.
Proof. intros Ht Hl. split; [split|..]; unfold undoable; rewrite ?Ht, ?Hl; auto. Qed.

Lemma moves_world {A} (m : M (@world RS BS Nd) (repo_error RE BE) A) : moves keeping (on_world m : X A).
Proof. apply moves_on. intros x w. by apply keeping_other. Qed.
Lemma moves_log_calls {A} (m : M TS TE A) : moves keeping (on_log m : X A).
Proof. apply moves_on. intros x w. by apply keeping_other. Qed.
Lemma moves_stores {A} (m : M SS SE A) : moves keeping (on_stores m : X A).
Proof. apply moves_on. intros x w. by apply keeping_other. Qed.

Lemma moves_ignore {A} (I : txstate → txstate → Prop) `{!PreOrder I} (m : X A) : moves I m → moves I (ignore m).
Proof. intros Hm. apply moves_handle; [done|done|..]; intros; by apply moves_ret. Qed.
Lemma moves_attempt {A} (I : txstate → txstate → Prop) `{!PreOrder I} err (m : X A) : moves I m → moves I (attempt err m).
Proof. intros Hm. apply moves_handle; [done|done|..]; intros; by apply moves_ret. Qed.
Lemma moves_end_attempt (I : txstate → txstate → Prop) `{!PreOrder I} err : moves I (end_attempt err : X ()).
Proof. destruct err; [by apply moves_fail|by apply moves_ret]. Qed.
Lemma moves_tx (f : Transaction → Transaction) :
  (∀ t : @Transaction Nd KI, t_id (f t) = t_id t ∧ t_mode (f t) = t_mode t ∧ t_phaseDone (f t) = t_phaseDone t ∧ t_committed (f t) = t_committed t ∧
     t_btreesBackend (f t) = t_btreesBackend t ∧ t_nodesKeys (f t) = t_nodesKeys t ∧
     (t_committedState t ≤ finalizeCommit → t_committedState (f t) ≤ finalizeCommit)) → moves keeping (modify_tx f : X ()).
Proof. intros Hf. apply moves_modify. intros x. by apply (keeping_tx x f). Qed.

Create HintDb moves.
#[local] Hint Resolve moves_world moves_log_calls moves_stores : moves.
#[local] Hint Resolve ok_refetch ok_check ok_lock ok_unlock ok_values ok_rollback_values ok_obsolete_values ok_cached ok_sleep
  ok_replicate ok_hooks : moves.
Ltac moves := repeat (first
  [ solve [eauto 3 with moves]
  | apply moves_bind; [apply _| |intros ?]
  | apply moves_handle; [apply _| |intros ?|intros ?]
  | apply moves_ret; apply _
  | apply moves_fail; apply _
  | apply moves_gets; apply _
  | apply moves_panic
  | apply moves_ignore; [apply _|]
  | apply moves_attempt; [apply _|]
  | apply moves_end_attempt; apply _
  | case_match ]).

Lemma moves_log f p : f ≤ finalizeCommit → moves keeping (log f p : X ()).
Proof. intros Hf. unfold log. apply moves_bind; [apply _| |intros []; moves]. by apply moves_tx. Qed.

Lemma moves_removeLogs : moves keeping (removeLogs : X ()).
Proof. unfold removeLogs. moves. Qed.

Lemma moves_priorityRollback tid : moves keeping (priorityRollback tid : X ()).
Proof. unfold priorityRollback. moves. Qed.

Lemma moves_each f js : (∀ i, moves keeping (f i : X ())) → moves keeping (each_btree f js : X ()).
Proof. intros Hf. induction js as [|j js IH]; cbn [each_btree]; moves. Qed.

Lemma moves_for_btrees f : (∀ i, moves keeping (f i : X ())) → moves keeping (for_btrees f : X ()).
Proof. intros Hf. unfold for_btrees. apply moves_bind; [apply _|moves|]. intros bs. by apply moves_each. Qed.

Lemma moves_if_tracked f i : moves keeping (f i : X ()) → moves keeping (if_tracked H f i).
Proof. intros Hf. unfold if_tracked, has_items_at. moves. Qed.
#[local] Hint Resolve moves_removeLogs moves_priorityRollback moves_for_btrees moves_if_tracked : moves.

Lemma moves_checkTrackedItems : moves keeping (checkTrackedItems H).
Proof. apply moves_for_btrees. moves. Qed.
Lemma moves_lockTrackedItems : moves keeping (lockTrackedItems H).
Proof. apply moves_for_btrees. intros i. apply moves_if_tracked. moves. Qed.
Lemma moves_unlock_each js : ∀ err, moves keeping (unlock_each H err js).
Proof. induction js as [|j js IH]; intros err; cbn [unlock_each]; moves. Qed.
Lemma moves_unlockTrackedItems : moves keeping (unlockTrackedItems H).
Proof. unfold unlockTrackedItems. apply moves_bind; [apply _|moves|]. intros bs. apply moves_bind; [apply _|apply moves_unlock_each|moves]. Qed.
Lemma moves_commitTrackedItemsValues : moves keeping (commitTrackedItemsValues H).
Proof. apply moves_for_btrees. moves. Qed.
Lemma moves_refetchAndMerge : moves keeping (refetchAndMergeModifications H).
Proof. apply moves_for_btrees. moves. Qed.

Lemma moves_values_of f js : (∀ i, moves keeping (f i : X _)) → moves keeping (values_of f js : X _).
Proof. intros Hf. induction js as [|j js IH]; cbn [values_of]; moves. Qed.
Lemma moves_getForRollback : moves keeping (getForRollbackTrackedItemsValues H).
Proof. unfold getForRollbackTrackedItemsValues. apply moves_bind; [apply _|moves|]. intros bs. apply moves_values_of. moves. Qed.
Lemma moves_getObsolete : moves keeping (getObsoleteTrackedItemsValues H).
Proof. unfold getObsoleteTrackedItemsValues. apply moves_bind; [apply _|moves|]. intros bs. apply moves_values_of. moves. Qed.

Lemma moves_delete_values ids : ∀ err, moves keeping (delete_values H err ids).
Proof. induction ids as [|id ids IH]; intros err; cbn [delete_values]; moves. Qed.
#[local] Hint Resolve moves_delete_values : moves.
Lemma moves_delete_items l : ∀ err, moves keeping (delete_items H err l).
Proof. induction l as [|[b p] l IH]; intros err; cbn [delete_items]; moves. Qed.
#[local] Hint Resolve moves_delete_items : moves.
Lemma moves_deleteTrackedItemsValues l : moves keeping (deleteTrackedItemsValues H l).
Proof. unfold deleteTrackedItemsValues. moves. Qed.

Lemma moves_classify : moves keeping (classifyModifiedNodes H).
Proof. intros x. cbn. by apply keeping_other. Qed.
Lemma moves_commitStores : moves keeping (commitStores : X ()).
Proof. unfold commitStores. moves. Qed.
Lemma moves_rollbackStores : moves keeping (rollbackStores : X ()).
Proof. unfold rollbackStores. moves. Qed.
Lemma moves_remove_created bs : ∀ err, moves keeping (remove_created err bs : X _).
Proof. induction bs as [|b bs IH]; intros err; cbn [remove_created]; moves. Qed.
#[local] Hint Resolve moves_checkTrackedItems moves_lockTrackedItems moves_unlockTrackedItems moves_commitTrackedItemsValues
  moves_refetchAndMerge moves_getForRollback moves_getObsolete moves_deleteTrackedItemsValues moves_classify moves_commitStores
  moves_rollbackStores moves_remove_created : moves.
(** ** Steps with the keys of the nodes *)

(** [holding ks I m]: a call in a state whose nodes have the keys [ks]. *)
Definition holding {A} (ks : list LockKey) (I : txstate → txstate → Prop) (m : X A) : Prop :=
  ∀ x, t_nodesKeys (x_tx x) = ks → wlp m x (λ _ x', I x x') (λ _ x', I x x').

Lemma holding_moves {A} ks I (m : X A) : moves I m → holding ks I m.
Proof. intros Hm x _. apply Hm. Qed.

Lemma moves_holding {A} I (k : list LockKey → X A) : (∀ ks, holding ks I (k ks)) → moves I (ks ← tx t_nodesKeys; k ks).
Proof. intros Hk x. apply wlp_bind, wlp_gets. by apply Hk. Qed.

Section holding.
Context (ks : list LockKey) (I : txstate → txstate → Prop) `{!PreOrder I} (HI : ∀ x x', keeping x x' → I x x').

Lemma holding_bind {A C} (m : X A) (k : A → X C) : holding ks keeping m → (∀ a, holding ks I (k a)) → holding ks I (m ≫= k).
Proof.
  intros Hm Hk x Hx. apply wlp_bind. eapply wlp_mono; [by apply Hm| |by intros; apply HI].
  intros a x' Hxx. assert (Hx' : t_nodesKeys (x_tx x') = ks) by (rewrite (keep_nodesKeys _ _ Hxx); done).
  eapply wlp_mono; [by apply Hk| |]; intros y x'' Hy; (transitivity x'; [by apply HI|exact Hy]).
Qed.

Lemma holding_handle {A C} (m : X A) (k : A → X C) (h : error → X C) :
  holding ks keeping m → (∀ a, holding ks I (k a)) → (∀ e, holding ks I (h e)) → holding ks I (handle m k h).
Proof.
  intros Hm Hk Hh x Hx. apply wlp_handle. eapply wlp_mono; [by apply Hm| |].
  - intros a x' Hxx. assert (Hx' : t_nodesKeys (x_tx x') = ks) by (rewrite (keep_nodesKeys _ _ Hxx); done).
    eapply wlp_mono; [by apply Hk| |]; intros y x'' Hy; (transitivity x'; [by apply HI|exact Hy]).
  - intros a x' Hxx. assert (Hx' : t_nodesKeys (x_tx x') = ks) by (rewrite (keep_nodesKeys _ _ Hxx); done).
    eapply wlp_mono; [by apply Hh| |]; intros y x'' Hy; (transitivity x'; [by apply HI|exact Hy]).
Qed.
End holding.

Lemma keeping_locks x l : (∀ p, p ∈ held l → ours p → p ∈ held (x_locks x) ∨ p ∈ keys x) → keeping x (set_locks l x).
Proof. intros Hl. by split. Qed.

Lemma holding_Lock ks d : holding ks keeping (on_locks (locks_Lock d ks) : X bool).
Proof.
  intros x <-. apply wlp_on. eapply wlp_mono; [apply Lock_law| |]; intros a l Hl; apply keeping_locks; set_solver.
Qed.
Lemma holding_DualLock ks d : holding ks keeping (on_locks (locks_DualLock d ks) : X bool).
Proof.
  intros x <-. apply wlp_on. eapply wlp_mono; [apply DualLock_law|intros ok l [Hl _]|intros e l Hl];
    apply keeping_locks; set_solver.
Qed.
Lemma moves_IsLocked ks : moves keeping (on_locks (locks_IsLocked ks) : X bool).
Proof.
  intros x. apply wlp_on. eapply wlp_mono; [apply IsLocked_law|intros ok l [Hl _]|intros e l Hl];
    apply keeping_locks; set_solver.
Qed.
Lemma moves_Unlock ks : moves keeping (on_locks (locks_Unlock ks) : X ()).
Proof.
  intros x. apply wlp_on. eapply wlp_mono; [apply Unlock_law|intros [] l Hl|done]. apply keeping_locks. set_solver.
Qed.
#[local] Hint Resolve moves_IsLocked moves_Unlock : moves.
Ltac holding := repeat (first
  [ solve [apply holding_Lock | apply holding_DualLock]
  | solve [apply holding_moves; moves]
  | apply holding_bind; [apply _|done| |intros ?]
  | apply holding_handle; [apply _|done| |intros ?|intros ?]
  | case_match ]).

Lemma moves_nodesKeysNilOrLocked : moves keeping (nodesKeysNilOrLocked : X bool).
Proof. unfold nodesKeysNilOrLocked. moves. Qed.

(** The keys are held when they are confirmed. *)
Lemma wlp_confirm_locks x :
  wlp (confirm_locks : X ()) x (λ _ x', keeping x x' ∧ keys x' ⊆ held (x_locks x')) (λ _ x', keeping x x').
Proof.
  unfold confirm_locks. apply wlp_bind, wlp_gets, wlp_bind, wlp_gets, wlp_bind. unfold nodesKeysNilOrLocked.
  apply wlp_bind, wlp_gets.
  assert (Hdual : ∀ x', keeping x x' →
    wlp (ok ← handle (on_locks (locks_DualLock (t_maxTime (x_tx x)) (t_nodesKeys (x_tx x)))) (λ ok, mret ok) (λ _, mret false);
         if (ok : bool) then mret () else fail ELocksLost : X ()) x'
      (λ _ x', keeping x x' ∧ keys x' ⊆ held (x_locks x')) (λ _ x', keeping x x')).
  { intros x' Hx'. pose proof (keep_nodesKeys _ _ Hx') as Hk. rewrite <- Hk.
    apply wlp_bind, wlp_handle, wlp_on. eapply wlp_mono; [apply DualLock_law| |].
    - intros ok l [Hl Hok]. assert (Hxl : keeping x (set_locks l x')).
      { refine (transitivity Hx' _). apply keeping_locks. set_solver. }
      apply wlp_ret. destruct ok; [|by apply wlp_fail]. apply wlp_ret. split; [done|]. by apply Hok.
    - intros e l Hl. apply wlp_ret, wlp_fail. refine (transitivity Hx' _). apply keeping_locks. set_solver. }
  case_decide as Hks.
  - apply wlp_ret, wlp_ret. split; [reflexivity|]. unfold keys. rewrite Hks. cbn. set_solver.
  - apply wlp_handle, wlp_on. eapply wlp_mono; [apply IsLocked_law| |].
    + intros ok l [Hl Hok]. assert (Hxl : keeping x (set_locks l x)) by (apply keeping_locks; set_solver).
      apply wlp_ret. destruct ok; [|by apply Hdual]. apply wlp_ret. split; [done|]. by apply Hok.
    + intros e l Hl. apply wlp_ret, Hdual, keeping_locks. set_solver.
Qed.
Lemma moves_confirm_locks : moves keeping (confirm_locks : X ()).
Proof. intros x. eapply wlp_mono; [apply wlp_confirm_locks| |done]. by intros [] x' [? _]. Qed.

Lemma entries_elem p ks : p ∈ entries ks ↔ ∃ k, p = (lk_Key k, lk_LockID k) ∧ k ∈ ks.
Proof. unfold entries. by rewrite elem_of_list_to_set, list_elem_of_fmap. Qed.

Lemma moves_named_DualLock d s id : moves keeping (on_locks (locks_DualLock d [mkLockKey (NamedKey s) id]) : X bool).
Proof.
  intros x. apply wlp_on.
  assert (Hn : ∀ l p, held l ⊆ held (x_locks x) ∪ entries [mkLockKey (NamedKey s) id] → p ∈ held l → ours p → p ∈ held (x_locks x) ∨ p ∈ keys x).
  { intros l p Hl Hp [_ [n Hn]]. apply Hl, elem_of_union in Hp as [Hp|Hp]; [by left|].
    apply entries_elem in Hp as (k & -> & ->%list_elem_of_singleton). done. }
  eapply wlp_mono; [apply DualLock_law|intros ok l [Hl _]|intros e l Hl]; apply keeping_locks; intros p Hp; by apply (Hn l p Hl Hp).
Qed.

Lemma moves_CreateLockKey {A} k (f : LockKey → X A) :
  (∀ id, moves keeping (f (mkLockKey k id))) → moves keeping (CreateLockKey gen k ≫= f).
Proof.
  intros Hf x. apply wlp_bind. unfold CreateLockKey. apply wlp_bind.
  eapply wlp_mono; [apply (moves_world (NewUUID gen))| |done]. intros id x' Hx. apply wlp_ret.
  eapply wlp_mono; [apply Hf| |]; intros a x'' Hx'; exact (transitivity Hx Hx').
Qed.

Lemma moves_sector e ud : moves keeping (handleRegistrySectorLockTimeout gen e ud : X ()).
Proof.
  unfold handleRegistrySectorLockTimeout. apply moves_CreateLockKey. intros id.
  apply moves_bind; [apply _| |intros ok; moves].
  apply moves_handle; [apply _|apply moves_named_DualLock|intros ok; moves|intros ok; moves].
Qed.

#[local] Hint Resolve moves_sector : moves.

Lemma moves_or_sector {A} (d : A) m : moves keeping (or_sector gen d m : X A).
Proof.
  unfold or_sector. apply moves_handle; [apply _|moves|intros a; moves|]. intros e. destruct e; moves.
Qed.

Lemma moves_modify_prepared f : moves keeping (modify_prepared f : X ()).
Proof. by apply moves_tx. Qed.
#[local] Hint Resolve moves_or_sector moves_modify_prepared : moves.

(** ** What phase 1 writes *)

Ltac logged := unfold commitTrackedItemsValues_state, commitNewRootNodes_state, areFetchedItemsIntact_state, commitUpdatedNodes_state,
  commitRemovedNodes_state, commitAddedNodes_state, lockTrackedItems_state, unknown, finalizeCommit; lia.
#[local] Hint Extern 1 (moves keeping (log _ _)) => apply moves_log; logged : moves.

Lemma moves_stage_values l : moves keeping (stage_values H l).
Proof. unfold stage_values. moves. Qed.
Lemma moves_stage_roots ns : moves keeping (stage_roots gen ns : X _).
Proof. unfold stage_roots. moves. Qed.
Lemma moves_stage_fetched ns : moves keeping (stage_fetched ns : X _).
Proof. unfold stage_fetched. moves. Qed.
Lemma moves_stage_updated l : moves keeping (stage_updated gen l : X _).
Proof. unfold stage_updated. moves. Qed.
Lemma moves_stage_removed l : moves keeping (stage_removed l : X _).
Proof. unfold stage_removed. moves. Qed.
Lemma moves_stage_added ns : moves keeping (stage_added gen ns : X _).
Proof. unfold stage_added. moves. Qed.
#[local] Hint Resolve moves_stage_values moves_stage_roots moves_stage_fetched moves_stage_updated moves_stage_removed moves_stage_added : moves.
Lemma moves_stage l : moves keeping (stage gen H l).
Proof. unfold stage. moves. Qed.
#[local] Hint Resolve moves_stage : moves.

(** ** Dropping keys *)

Lemma wlp_unlockNodesKeys x :
  wlp (unlockNodesKeys : X ()) x (λ _ x', releasing x x' ∧ t_nodesKeys (x_tx x') = []) (λ _ _, False).
Proof.
  unfold unlockNodesKeys. apply wlp_bind, wlp_gets. case_decide as Hks; [by apply wlp_ret|].
  apply wlp_bind, wlp_handle, wlp_on. eapply wlp_mono; [apply Unlock_law|intros [] l Hl|intros e l []].
  apply wlp_ret, wlp_modify. split; [|done]. split; [by split| |done].
  intros B [_ HB]. split; [constructor|]. intros p Hp Ho. cbn in Hp. left. apply Hl, elem_of_difference in Hp as [Hp Hn].
  by destruct (HB p Hp Ho).
Qed.

(** A state in which the nodes have no keys. *)
Definition unlocked x : Prop := t_nodesKeys (x_tx x) = [].

Lemma keeping_unlocked x x' : keeping x x' → unlocked x → unlocked x'.
Proof. intros Hk Hx. unfold unlocked. by rewrite (keep_nodesKeys _ _ Hk). Qed.

(** A call that does not fail. *)
Definition calm {A} (m : X A) : Prop := ∀ x, wlp m x (λ _ x', keeping x x') (λ _ _, False).

Lemma calm_attempt {A} err (m : X A) : moves keeping m → calm (attempt err m).
Proof. intros Hm x. apply wlp_handle. eapply wlp_mono; [apply Hm| |]; intros a x' Hx; by apply wlp_ret. Qed.
Lemma calm_if_state p err m : moves keeping m → calm (if_state p err m : X _).
Proof. intros Hm x. unfold if_state. apply wlp_bind, wlp_gets. case_match; [by apply calm_attempt|apply wlp_ret; reflexivity]. Qed.
Lemma calm_classify : calm (classifyModifiedNodes H).
Proof. intros x. cbn. by apply keeping_other. Qed.

Definition unlocks {A} (m : X A) : Prop :=
  ∀ x, wlp m x (λ _ x', releasing x x' ∧ unlocked x') (λ _ x', releasing x x' ∧ unlocked x').

Lemma unlocks_calm {A C} (m : X A) (k : A → X C) : calm m → (∀ a, unlocks (k a)) → unlocks (m ≫= k).
Proof.
  intros Hm Hk x. apply wlp_bind. eapply wlp_mono; [apply Hm| |done].
  intros a x' Hx%keeping_releasing. eapply wlp_mono; [apply Hk| |]; intros c x'' [Hx' ?]; (split; [exact (transitivity Hx Hx')|done]).
Qed.
Lemma unlocks_unlock {C} (k : () → X C) : moves keeping (k ()) → unlocks (unlockNodesKeys ≫= k).
Proof.
  intros Hk x. apply wlp_bind. eapply wlp_mono; [apply wlp_unlockNodesKeys| |done].
  intros [] x' [Hx Hu]. eapply wlp_mono; [apply Hk| |]; intros c x'' Hx';
    (split; [exact (transitivity Hx (keeping_releasing _ _ Hx'))|by apply (keeping_unlocked x')]).
Qed.

Lemma moves_if_state p err m : moves keeping m → moves keeping (if_state p err m : X _).
Proof. intros Hm. unfold if_state. moves. Qed.
#[local] Hint Resolve moves_if_state : moves.

(** The rollback of a log that can be undone leaves no keys, even when it fails. *)
Lemma wlp_rollback b x :
  wlp (rollback H b) x (λ _ x', releasing x x' ∧ (undoable x ∨ unlocked x → unlocked x'))
    (λ _ x', releasing x x' ∧ (undoable x ∨ unlocked x → unlocked x')).
Proof.
  assert (Hvac : ∀ x', ¬ undoable x → keeping x x' → releasing x x' ∧ (undoable x ∨ unlocked x → unlocked x')).
  { intros x' Hn Hk. split; [by apply keeping_releasing|]. intros [|Hu]; [done|by apply (keeping_unlocked x)]. }
  unfold rollback. apply wlp_bind, wlp_gets. case_decide as H99; [|case_decide as Hfin].
  - assert (Hn : ¬ undoable x) by (unfold undoable; rewrite H99; by intros ?%Nat.leb_le).
    match goal with |- wlp ?m _ _ _ => assert (Hm : moves keeping m) by moves end.
    eapply wlp_mono; [apply Hm|intros; by apply Hvac|intros; by apply Hvac].
  - apply wlp_fail, Hvac; [unfold undoable; lia|reflexivity].
  - match goal with |- wlp ?m _ _ _ => assert (Hm : unlocks m) end.
    { repeat (apply unlocks_calm; [first [apply calm_if_state; moves|apply calm_classify]|intros ?]).
      apply unlocks_unlock. moves. }
    eapply wlp_mono; [apply Hm| |]; intros y x' [? ?]; (split; [done|by intros _]).
Qed.

Lemma moves_rollback b : moves releasing (rollback H b).
Proof. intros x. eapply wlp_mono; [apply wlp_rollback| |]; by intros y x' [? _]. Qed.
(** ** Merging the keys of the nodes *)

Definition named (lookup : gmap UUID LockKey) : Prop := ∀ id k, lookup !! id = Some k → lk_Key k = NodeKey id.

Lemma wlp_create_keys ids : ∀ x lookup, named lookup →
  wlp (create_keys gen ids lookup : X _) x
    (λ lookup' x', keeping x x' ∧ named lookup' ∧ dom lookup' = dom lookup ∪ list_to_set ids) (λ _ _, False).
Proof.
  induction ids as [|id ids IH]; intros x lookup Hn; cbn [create_keys].
  { apply wlp_ret. split; [reflexivity|]. split; [done|]. cbn. by rewrite union_empty_r_L. }
  apply wlp_bind. unfold CreateLockKey, draw, on_world. apply wlp_bind, wlp_on. cbn.
  assert (Hd : dom (match lookup !! id with None => <[id := mkLockKey (NodeKey id) (gen (w_drawn (x_world x)))]> lookup | Some _ => lookup end)
               = {[id]} ∪ dom lookup).
  { destruct (lookup !! id) eqn:El; [|by rewrite dom_insert_L]. apply elem_of_dom_2 in El. set_solver. }
  eapply wlp_mono; [apply IH| |done].
  - destruct (lookup !! id) eqn:El; [done|]. intros i k [[<- <-]|[_ Hk]]%lookup_insert_Some; [done|by apply Hn].
  - intros l' x' (Hk & Hn' & Hd'). split; [|split; [done|rewrite Hd', Hd; set_solver]].
    refine (transitivity _ Hk). by apply keeping_other.
Qed.

(** A key that was held is kept or given back. *)
Definition kept (lookup : gmap UUID LockKey) x (nk : LockKey) : Prop :=
  (∃ id, lookup !! id = Some nk) ∨ (lk_Key nk, lk_LockID nk) ∉ held (x_locks x).

Definition unlocking x x' : Prop := x_tx x' = x_tx x ∧ held (x_locks x') ⊆ held (x_locks x).

Lemma wlp_ignore_Unlock nk x :
  wlp (ignore (on_locks (locks_Unlock [nk])) : X ()) x
    (λ _ x', unlocking x x' ∧ (lk_Key nk, lk_LockID nk) ∉ held (x_locks x')) (λ _ _, False).
Proof.
  apply wlp_handle, wlp_on. eapply wlp_mono; [apply Unlock_law|intros [] l Hl; apply wlp_ret|intros e l []].
  split; [split; [done|set_solver]|]. cbn. intros Hin. apply Hl, elem_of_difference in Hin as [_ Hn]. apply Hn, entries_elem.
  exists nk. by split; [|apply list_elem_of_singleton].
Qed.

Lemma wlp_keep_keys (hs : list LockKey) : ∀ x lookup, named lookup → NoDup (lk_Key <$> hs) →
  wlp (keep_keys hs lookup : X _) x
    (λ lookup' x', unlocking x x' ∧ named lookup' ∧ dom lookup' = dom lookup ∧ Forall (kept lookup' x') hs ∧
       (∀ id, NodeKey id ∉ lk_Key <$> hs → lookup' !! id = lookup !! id)) (λ _ _, False).
Proof.
  induction hs as [|nk hs IH]; intros x lookup Hn Hnd; cbn [keep_keys].
  { apply wlp_ret. by repeat split. }
  apply NoDup_cons in Hnd as [Hnin Hnd].
  assert (Hdrop : (∀ id, lk_Key nk = NodeKey id → lookup !! id = None) →
    wlp (ignore (on_locks (locks_Unlock [nk]));; keep_keys hs lookup : X _) x
      (λ lookup' x', unlocking x x' ∧ named lookup' ∧ dom lookup' = dom lookup ∧ Forall (kept lookup' x') (nk :: hs) ∧
         (∀ id, NodeKey id ∉ lk_Key <$> nk :: hs → lookup' !! id = lookup !! id)) (λ _ _, False)).
  { intros Hnone. apply wlp_bind. eapply wlp_mono; [apply wlp_ignore_Unlock| |done]. intros [] x1 [[Ht1 Hh1] Hg].
    eapply wlp_mono; [by apply IH| |done]. intros l' x' ([Ht Hh] & Hn' & Hd & Hf & Ho).
    split; [split; [congruence|set_solver]|]. split; [done|]. split; [done|]. split.
    - constructor; [right; set_solver|done].
    - intros id [_ Hid]%not_elem_of_cons. by apply Ho. }
  destruct (lk_Key nk) as [id|nm] eqn:Ek; [|by apply Hdrop].
  destruct (lookup !! id) as [k0|] eqn:El; [|apply Hdrop; by intros i [= <-]]. clear Hdrop.
  eapply wlp_mono; [apply IH; [|done]| |done].
  { intros i k [[<- <-]|[_ Hk]]%lookup_insert_Some; [done|by apply Hn]. }
  intros l' x' (Hu & Hn' & Hd & Hf & Ho). split; [done|]. split; [done|]. split.
  { rewrite Hd, dom_insert_L. apply elem_of_dom_2 in El. set_solver. }
  split.
  - constructor; [|done]. left. exists id. rewrite Ho; [by rewrite lookup_insert_eq|done].
  - intros i [Hi Hid]%not_elem_of_cons. rewrite Ho by done. rewrite lookup_insert_ne; [done|]. intros ->. by rewrite Ek in Hi.
Qed.
Lemma sort_ids_elem id ids : id ∈ sort_ids ids ↔ id ∈ ids.
Proof. unfold sort_ids. by rewrite merge_sort_Permutation, elem_of_remove_dups. Qed.
Lemma sort_ids_NoDup ids : NoDup (sort_ids ids).
Proof. unfold sort_ids. rewrite merge_sort_Permutation. apply NoDup_remove_dups. Qed.

Lemma named_omap (lookup : gmap UUID LockKey) ids : named lookup → NoDup ids →
  NoDup (lk_Key <$> omap (lookup !!.) ids).
Proof.
  intros Hn Hnd. induction Hnd as [|id ids Hid Hnd IH]; [constructor|]. cbn [omap list_omap].
  destruct (lookup !! id) as [k|] eqn:El; [|exact IH]. cbn [fmap list_fmap]. constructor; [|exact IH].
  intros (k' & Hk' & (id' & Hin & El')%list_elem_of_omap)%list_elem_of_fmap. apply Hn in El, El'. congruence.
Qed.

(** The nodes that have a key. *)
Definition covers (ids : list UUID) x : Prop := ∀ id, NodeKey id ∈ lk_Key <$> t_nodesKeys (x_tx x) ↔ id ∈ ids.
Definition tidy x : Prop := NoDup (lk_Key <$> t_nodesKeys (x_tx x)).

Lemma same_nodesKeys x x' ks : keeping x x' → same x (set_tx (set_nodesKeys ks (x_tx x')) x').
Proof. intros [[] _ _ _]. by split. Qed.

Lemma wlp_mergeNodesKeys u r x : tidy x →
  wlp (mergeNodesKeys gen u r : X ()) x
    (λ _ x', releasing x x' ∧ covers (extractUUIDs u ++ extractUUIDs r) x') (λ _ _, False).
Proof.
  intros Ht. unfold mergeNodesKeys. apply wlp_bind, wlp_gets. case_decide as Hnil.
  - destruct Hnil as [-> ->]. apply wlp_bind, wlp_handle, wlp_on.
    eapply wlp_mono; [apply Unlock_law|intros [] l Hl|intros e l []]. apply wlp_ret, wlp_modify.
    split; [|intros id; cbn; split; by intros ?%not_elem_of_nil]. split; [by split| |done].
    intros B [_ HB]. split; [constructor|]. intros p Hp Ho. left. cbn in Hp. apply Hl, elem_of_difference in Hp as [Hp Hn].
    by destruct (HB p Hp Ho).
  - clear Hnil. set (ids := extractUUIDs u ++ extractUUIDs r).
    apply wlp_bind. eapply wlp_mono; [by apply wlp_create_keys| |done]. intros lookup x1 (Hk & Hn & Hd).
    apply wlp_bind. eapply wlp_mono; [apply (wlp_keep_keys _ x1 lookup Hn Ht)| |done].
    intros lookup' x2 ([Ht2 Hh2] & Hn2 & Hd2 & Hkept & _). apply wlp_modify.
    assert (Hdom : ∀ id, id ∈ ids ↔ is_Some (lookup' !! id)).
    { intros id. rewrite <- elem_of_dom, Hd2, Hd, dom_empty_L, union_empty_l_L. by rewrite elem_of_list_to_set. }
    split.
    + destruct Hk as [[] Hkeys Hheld Hun]. unfold undoable in Hun. rewrite <- Ht2 in *. split; [by split| |exact Hun].
      intros B [_ HB]. split; [apply named_omap; [done|apply sort_ids_NoDup]|]. intros p Hp Ho. cbn in Hp.
      assert (Hp1 : p ∈ B ∨ p ∈ keys x) by (destruct (Hheld p (Hh2 p Hp) Ho); auto).
      destruct Hp1 as [|(nk & -> & Hin)%entries_elem]; [by left|]. right.
      rewrite Forall_forall in Hkept. destruct (Hkept nk Hin) as [[id El]|Hno]; [|by destruct Hno].
      apply entries_elem. exists nk. split; [done|]. apply list_elem_of_omap. exists id. split; [|done].
      apply sort_ids_elem, Hdom. by eexists.
    + intros id. cbn. rewrite Hdom. split.
      * intros (k & Hk' & (i & _ & El)%list_elem_of_omap)%list_elem_of_fmap. pose proof (Hn2 _ _ El). assert (i = id) as -> by congruence.
        by eexists.
      * intros [k El]. apply list_elem_of_fmap. exists k. split; [symmetry; by apply Hn2|]. apply list_elem_of_omap.
        exists id. split; [|done]. apply sort_ids_elem, Hdom. by eexists.
Qed.
(** ** The loop of phase 1 *)

Lemma releasing_tidy x x' : releasing x x' → tidy x → tidy x'.
Proof.
  intros Hr Ht. refine (proj1 (rel_settled _ _ Hr (held (x_locks x)) _)). split; [exact Ht|]. intros p Hp _. by left.
Qed.
Lemma keeping_covers ids x x' : keeping x x' → covers ids x → covers ids x'.
Proof. intros Hk Hc id. rewrite (keep_nodesKeys _ _ Hk). apply Hc. Qed.

Definition node_ids (c : @classes Nd) : list UUID := extractUUIDs (cl_updated c) ++ extractUUIDs (cl_removed c).

(** The keys are those of the classified nodes, unless they are fetched again. *)
Definition ready (l : progress) x : Prop := tidy x ∧ (pr_needsRefetchAndMerge l = false → covers (node_ids (pr_classes l)) x).

Lemma keeping_ready l x x' : keeping x x' → ready l x → ready l x'.
Proof.
  intros Hk [Ht Hc]. split; [exact (releasing_tidy x x' (keeping_releasing _ _ Hk) Ht)|]. intros Hn. apply (keeping_covers _ x x' Hk), Hc, Hn.
Qed.

Lemma moves_lock_retry l : moves keeping (lock_retry H l).
Proof. unfold lock_retry. moves. Qed.
#[local] Hint Resolve moves_lock_retry : moves.
Lemma moves_relock l : moves keeping (relock H l).
Proof. apply moves_holding. intros ks. holding. Qed.
#[local] Hint Resolve moves_relock : moves.

(** A call that may release keys, with what it then ensures. *)
Definition ensures {A} (m : X A) x (Q : A → txstate → Prop) : Prop :=
  wlp m x (λ a x', releasing x x' ∧ Q a x') (λ _ x', releasing x x').

Lemma ensures_bind {A C} (m : X A) (k : A → X C) x P Q : ensures m x P →
  (∀ a x', releasing x x' → P a x' → ensures (k a) x' Q) → ensures (m ≫= k) x Q.
Proof.
  intros Hm Hk. apply wlp_bind. eapply wlp_mono; [exact Hm| |done]. intros a x' [Hx HP].
  eapply wlp_mono; [by apply Hk|intros c x'' [Hr HQ]|intros e x'' Hr]; [split; [|done]|]; exact (transitivity Hx Hr).
Qed.
Lemma ensures_keeping {A C} (m : X A) (k : A → X C) x Q : moves keeping m →
  (∀ a x', keeping x x' → ensures (k a) x' Q) → ensures (m ≫= k) x Q.
Proof.
  intros Hm Hk. apply wlp_bind. eapply wlp_mono; [apply Hm| |intros e x'; apply keeping_releasing]. intros a x' Hx.
  pose proof (keeping_releasing _ _ Hx) as Hx'.
  eapply wlp_mono; [by apply Hk|intros c x'' [Hr HQ]|intros e x'' Hr]; [split; [|done]|]; exact (transitivity Hx' Hr).
Qed.
Lemma ensures_ret {A} (a : A) x (Q : A → txstate → Prop) : Q a x → ensures (mret a) x Q.
Proof. intros HQ. apply wlp_ret. split; [reflexivity|done]. Qed.
Lemma ensures_moves {A} (m : X A) x : moves keeping m → ensures m x (λ _ x', keeping x x').
Proof. intros Hm. eapply wlp_mono; [apply Hm|intros a x' Hx|intros e x' Hx]; [split; [|done]|]; by apply keeping_releasing. Qed.
Lemma ensures_fail {A} e x (Q : A → txstate → Prop) : ensures (fail e) x Q.
Proof. apply wlp_fail. reflexivity. Qed.

Lemma ensures_yields {A} (m : X A) x (P : A → Prop) (Q : A → txstate → Prop) : yields m P →
  ensures m x Q → ensures m x (λ a x', Q a x' ∧ P a).
Proof.
  intros Hm He. eapply wlp_mono; [apply (wlp_conj _ _ _ _ _ _ He (Hm x))| |]; cbn; [intros a x' [[? ?] ?]|intros e x' [? _]]; done.
Qed.

Lemma moves_lock_nodes : moves keeping (lock_nodes : X bool).
Proof. apply moves_holding. intros ks. holding. Qed.
Lemma moves_timedOut t : moves keeping (timedOut t : X ()).
Proof. unfold timedOut. moves. Qed.
#[local] Hint Resolve moves_lock_nodes moves_timedOut : moves.

Lemma ensures_merge u r x : tidy x → ensures (mergeNodesKeys gen u r) x (λ _ x', covers (extractUUIDs u ++ extractUUIDs r) x').
Proof. intros Ht. eapply wlp_mono; [by apply wlp_mergeNodesKeys| |done]. by intros [] x' []. Qed.

Lemma ensures_remerge l x : ready l x → bounded l →
  ensures (remerge gen H l) x (λ r x',
    match r with
    | inl l' => ready l' x'
    | inr l' => ready l' x' ∧ pr_needsRefetchAndMerge l' = false
    end).
Proof.
  intros [Ht Hc] Hb. unfold remerge. destruct (pr_needsRefetchAndMerge l) eqn:En; cbn [negb].
  2: { apply ensures_ret. split; [split; [done|by intros _; apply Hc]|done]. }
  do 3 (apply ensures_keeping; [moves|]; intros ? ? ?%keeping_releasing%releasing_tidy; [|done]).
  apply ensures_keeping; [moves|]. intros c x1 Hx1%keeping_releasing%releasing_tidy; [|done].
  eapply ensures_bind; [by apply ensures_merge|]. intros [] x2 Hx2%releasing_tidy Hcov; [|done].
  eapply wlp_mono; [apply ensures_yields; [by apply relock_yields|apply ensures_moves; moves]| |done].
  intros r x3 [Hr [Hk Hy]]. split; [done|]. pose proof (releasing_tidy _ _ Hr Hx2) as Ht3.
  destruct r as [l'|l']; cbn in Hy.
  - destruct Hy as [_ Hn]. split; [done|]. rewrite Hn. done.
  - subst l'. split; [|done]. split; [done|]. intros _. by apply (keeping_covers _ x2).
Qed.

Lemma ensures_stage l x : ready l x → ensures (stage gen H l) x (λ r x', ready r.2 x' ∧ carried l r.2).
Proof.
  intros Hl. eapply wlp_mono; [apply ensures_yields; [apply stage_yields|apply ensures_moves; moves]| |done].
  intros r x' (Hr & Hk & Hc). split; [done|]. split; [|done]. destruct Hc as (_ & Hn & Hcl).
  destruct (keeping_ready _ _ _ Hk Hl) as [Ht' Hc']. split; [done|]. rewrite Hn, Hcl. exact Hc'.
Qed.

Lemma moves_give_back l : moves releasing (give_back H l).
Proof.
  unfold give_back. case_decide; [by apply moves_fail, _|].
  apply moves_handle; [apply _|apply moves_rollback|intros _|intros e; by apply moves_fail, _].
  apply moves_bind; [apply _|apply moves_keeping, ok_sleep, HH|intros _; by apply moves_ret, _].
Qed.

Lemma ensures_of_moves {A} (m : X A) x : moves releasing m → ensures m x (λ _ x', releasing x x').
Proof. intros Hm. eapply wlp_mono; [apply Hm| |done]. by intros a x' Hx. Qed.

Lemma ensures_give_back l x : tidy x → bounded l → ensures (give_back H l) x (λ l' x', ready l' x').
Proof.
  intros Ht Hb. eapply wlp_mono; [apply ensures_yields; [by apply give_back_yields|apply ensures_of_moves, moves_give_back]| |done].
  intros l' x' (Hr & _ & _ & Hn). split; [done|]. split; [by apply (releasing_tidy x)|]. by rewrite Hn.
Qed.

(** A turn that ends the loop has fetched nothing that is stale. *)
Lemma ensures_turn startTime l x : ready l x → bounded l →
  ensures (phase1_turn gen H startTime l) x (λ r x', ready r.2 x' ∧ (r.1 = true → pr_needsRefetchAndMerge r.2 = false)).
Proof.
  intros Hl Hb. unfold phase1_turn. apply ensures_keeping; [moves|]. intros _ x1 Hx1.
  apply (keeping_ready l) in Hx1; [clear Hl|done]. apply ensures_keeping; [moves|]. intros ok x2 Hx2.
  apply (keeping_ready l) in Hx2; [clear Hx1|done].
  assert (Hretry : ∀ (b : bool) x3, ready l x3 →
    ensures (l' ← lock_retry H l; mret (false, if b then set_needs true l' else l')) x3
      (λ r x', ready r.2 x' ∧ (r.1 = true → pr_needsRefetchAndMerge r.2 = false))).
  { intros b x3 Hx3. eapply ensures_bind; [apply ensures_yields; [by apply lock_retry_yields|apply ensures_moves; moves]|].
    intros l' x4 Hr4 (Hk & _ & Hcl & Hn). apply ensures_ret. split; [|done].
    destruct (keeping_ready _ _ _ Hk Hx3) as [Ht Hc]. destruct b; (split; [done|]); [done|]. cbn. rewrite Hcl, Hn. exact Hc. }
  destruct (negb ok); [by apply (Hretry true)|].
  apply ensures_keeping; [moves|]. intros ks x3 Hx3. apply (keeping_ready l) in Hx3; [clear Hx2|done].
  apply ensures_keeping; [moves|]. intros locked x4 Hx4. apply (keeping_ready l) in Hx4; [clear Hx3|done].
  destruct (negb locked); [by apply (Hretry false)|].
  eapply ensures_bind; [apply ensures_yields; [by apply remerge_yields|by apply ensures_remerge]|].
  intros [l'|l'] x5 _ [Hl' Hy]; [by apply ensures_ret|]. destruct Hl' as [Hl' Hn], Hy as [[Hr1 Hr2] _].
  eapply ensures_bind; [by apply ensures_stage|]. intros [[] l2] x6 _ [Hl2 Hc].
  { apply ensures_ret. split; [done|]. intros _. destruct Hc as (_ & Hn2 & _). cbn in *. congruence. }
  destruct Hc as ([Hc1 Hc2] & _). cbn [snd] in *.
  eapply ensures_bind; [apply (ensures_give_back l2); [apply Hl2|unfold bounded; rewrite Hc1, Hc2, Hr1, Hr2; exact Hb]|].
  intros l3 x7 _ Hl3. by apply ensures_ret.
Qed.

Lemma ensures_loop fuel : ∀ startTime l x, ready l x → bounded l →
  ensures (phase1_loop gen H fuel startTime l) x
    (λ r x', match r with Some l' => ready l' x' ∧ pr_needsRefetchAndMerge l' = false | None => True end).
Proof.
  induction fuel as [|fuel IH]; intros startTime l x Hl Hb; cbn [phase1_loop]; [by apply ensures_ret|].
  eapply ensures_bind; [apply ensures_yields; [by apply turn_yields|by apply ensures_turn]|].
  intros [[] l'] x' _ [[Hl' Hn] Hy]; [apply ensures_ret; split; [done|by apply Hn]|]. by apply IH; [|apply Hy].
Qed.

#[local] Hint Resolve moves_confirm_locks : moves.

(** After phase 1 the keys of the nodes are locked, and phase 2 has its nodes. *)
Lemma ensures_finish l x :
  ensures (phase1_finish H l) x (λ _ x', keeping x x' ∧ keys x' ⊆ held (x_locks x') ∧
    p_updatedNodes (t_prepared (x_tx x')) = cl_updated (pr_classes l)).
Proof.
  assert (Hlog : ∀ f p, f ≤ finalizeCommit → moves keeping (log f p : X ())) by apply moves_log.
  unfold phase1_finish. apply ensures_keeping; [moves|]. intros bs x1 H1.
  apply ensures_keeping; [apply Hlog; unfold commitStoreInfo, finalizeCommit; lia|]. intros _ x2 H2.
  apply ensures_keeping; [moves|]. intros _ x3 H3.
  apply ensures_keeping; [apply Hlog; unfold beforeFinalize, finalizeCommit; lia|]. intros _ x4 H4.
  apply ensures_keeping; [moves|]. intros _ x5 H5. apply ensures_keeping; [moves|]. intros _ x6 H6.
  assert (H06 : keeping x x6) by (do 5 (etrans; [eassumption|]); done). clear H1 H2 H3 H4 H5 H6.
  apply wlp_bind. eapply wlp_mono; [apply wlp_confirm_locks| |intros e x7; apply keeping_releasing].
  intros [] x7 [H7 Hheld]. assert (Hm : ∀ f, keeping x7 (set_tx (set_prepared (f (t_prepared (x_tx x7))) (x_tx x7)) x7)).
  { intros f. by apply (keeping_tx x7 (λ t, set_prepared (f (t_prepared t)) t)). }
  apply wlp_modify. split; [apply keeping_releasing; etrans; [exact H7|apply Hm]|].
  split; [etrans; [exact H06|]; etrans; [exact H7|apply Hm]|]. done.
Qed.
(** ** The calls *)

Definition tracks x : bool := existsb (hasTrackedItems_of H) (t_btreesBackend (x_tx x)).

(** Logging a step of phase 1, even when the log fails. *)
Lemma wlp_log f p x : f ≤ finalizeCommit →
  wlp (log f p : X ()) x (λ _ x', keeping x x' ∧ undoable x') (λ _ x', keeping x x' ∧ undoable x').
Proof.
  intros Hf. assert (Hu : undoable (set_tx (set_committedState f (x_tx x)) x)) by exact Hf.
  assert (Hk : keeping x (set_tx (set_committedState f (x_tx x)) x)) by (by apply (keeping_tx x (set_committedState f))).
  unfold log. apply wlp_bind, wlp_modify.
  match goal with |- wlp ?m ?x1 _ _ => assert (Hm : moves keeping m) by moves; assert (Hx1 : keeping x1 x1) by reflexivity end.
  eapply wlp_mono; [apply Hm|intros a x'|intros e x']; intros Hx'; (split; [exact (transitivity Hk Hx')|by apply (keep_undoable _ _ Hx')]).
Qed.

(** What phase 1 leaves for phase 2. *)
Definition holds_nodes x : Prop :=
  keys x ⊆ held (x_locks x) ∧ ∃ c, p_updatedNodes (t_prepared (x_tx x)) = cl_updated c ∧ covers (node_ids c) x.

Definition start_progress (c : @classes Nd) (tid : UUID) : progress := mkProgress c tid false 0 0 [] [].
Lemma start_bounded c tid : bounded (start_progress c tid).
Proof. unfold bounded, start_progress, phase1CommitMaxRetryCount, phase1LockAcquireMaxRetryCount. cbn. lia. Qed.

Lemma releasing_undoable {A} (m : X A) x (Q : A → txstate → Prop) : undoable x → ensures m x Q →
  wlp m x (λ a x', releasing x x' ∧ undoable x' ∧ Q a x') (λ _ x', releasing x x' ∧ undoable x').
Proof.
  intros Hu Hm. eapply wlp_mono; [exact Hm|intros a x' [Hr HQ]|intros e x' Hr]; (split; [done|]); [split; [|done]|]; by apply (rel_undoable _ _ Hr).
Qed.

Lemma ensures_commit fuel tid x : tidy x →
  ensures (
    lockTrackedItems H;;
    c ← classifyModifiedNodes H;
    mergeNodesKeys gen (cl_updated c) (cl_removed c);;
    startTime ← gets (λ x, w_now (x_world x));
    r ← phase1_loop gen H fuel startTime (start_progress c tid);
    match r with
    | None => mret None
    | Some l => phase1_finish H l;; mret (Some ())
    end) x (λ r x', r = Some () → holds_nodes x').
Proof.
  intros Ht. apply ensures_keeping; [moves|]. intros _ x1 Hx1%keeping_releasing%releasing_tidy; [|done].
  apply ensures_keeping; [moves|]. intros c x2 Hx2%keeping_releasing%releasing_tidy; [|done].
  eapply ensures_bind; [by apply ensures_merge|]. intros [] x3 Hr3 Hcov. apply releasing_tidy in Hr3; [|done].
  apply ensures_keeping; [moves|]. intros t x4 Hx4. apply (keeping_ready (start_progress c tid)) in Hx4; [|by split].
  eapply ensures_bind; [apply ensures_loop; [exact Hx4|apply start_bounded]|]. intros [l|] x5 _ Hl; [|by apply ensures_ret].
  destruct Hl as [[Ht5 Hc5] Hn5]. eapply ensures_bind; [apply ensures_finish|]. intros [] x6 _ (Hk & Hheld & Hp).
  apply ensures_ret. intros _. split; [exact Hheld|]. exists (pr_classes l). split; [exact Hp|].
  apply (keeping_covers _ _ _ Hk). by apply Hc5.
Qed.

Lemma wlp_phase1Commit fuel x : tidy x →
  wlp (phase1Commit gen H fuel) x
    (λ r x', releasing x x' ∧ (tracks x = true → undoable x' ∧ (r = Some () → holds_nodes x')) ∧ (tracks x = false → x' = x))
    (λ _ x', releasing x x' ∧ undoable x').
Proof.
  intros Ht. unfold phase1Commit, hasTrackedItems. apply wlp_bind, wlp_gets. fold (tracks x).
  destruct (tracks x); cbn [negb].
  2: { apply wlp_ret. split; [reflexivity|]. by split. }
  apply wlp_bind, wlp_gets, wlp_bind, wlp_gets. cbn zeta.
  assert (Hid : keeping x (set_tx (set_transactionID (t_id (x_tx x)) (x_tx x)) x)).
  { by apply (keeping_tx x (λ t, set_transactionID (t_id t) t)). }
  apply wlp_bind, wlp_modify, wlp_bind.
  eapply wlp_mono; [apply wlp_log; unfold lockTrackedItems_state, finalizeCommit; lia| |].
  2: { intros e x1 [Hk Hu]. split; [|done]. apply keeping_releasing. exact (transitivity Hid Hk). }
  intros [] x1 [Hk Hu]. pose proof (keeping_releasing _ _ (transitivity Hid Hk)) as Hr1.
  eapply wlp_mono; [apply releasing_undoable; [exact Hu|apply ensures_commit; by apply (releasing_tidy x)]| |].
  - intros r x2 (Hr & Hu2 & Hh). split; [exact (transitivity Hr1 Hr)|]. split; [by intros _|done].
  - intros e x2 [Hr Hu2]. split; [exact (transitivity Hr1 Hr)|done].
Qed.

(** ** The nodes that have keys are those the B-trees changed *)

(** What each B-tree is to do with which nodes. *)
Definition outline (b : @btreeBackend Nd KI) : gmap UUID (actionType * UUID) :=
  (λ c, (cn_action c, GetID (cn_node c))) <$> bb_localCache b.
Definition still x x' : Prop := outline <$> t_btreesBackend (x_tx x') = outline <$> t_btreesBackend (x_tx x).
#[global] Instance still_preorder : PreOrder still.
Proof. split; [done|]. intros x y z. unfold still. congruence. Qed.

(** The node is updated or removed by one of the B-trees. *)
Definition wants x (nid : UUID) : Prop :=
  ∃ o id a, o ∈ outline <$> t_btreesBackend (x_tx x) ∧ o !! id = Some (a, nid) ∧ (a = updateAction ∨ a = removeAction).

Lemma still_wants x x' nid : still x x' → wants x' nid ↔ wants x nid.
Proof. unfold still, wants. by intros ->. Qed.

(** A range over a map meets what is in it; the callbacks that are called while the
    nodes are staged keep the nodes that the B-trees changed. *)
Record hooks_still : Prop := {
  still_range n (m : gmap UUID cachedNode) c : c ∈ range H n m ↔ ∃ id, m !! id = Some c;
  still_check i : moves still (checkTrackedItems_of H i);
  still_values i : moves still (commitTrackedItemsValues_of H i);
  still_rollback_values i : moves still (getForRollbackTrackedItemsValues_of H i);
  still_sleep : moves still (RandomSleep H);
}.
Context (HS : hooks_still).

Lemma in_add_store nid st ns l : nid ∈ extractUUIDs (add_store st ns l) ↔ nid ∈ GetID <$> ns ∨ nid ∈ extractUUIDs l.
Proof.
  unfold add_store. case_decide as Hn.
  - subst ns. split; [by right|]. intros [Hf|Hf]; [by apply not_elem_of_nil in Hf|done].
  - unfold extractUUIDs. rewrite bind_cons, elem_of_app. done.
Qed.

Lemma in_action nid a (b : @btreeBackend Nd KI) (cached : list cachedNode) : a ≠ addAction →
  nid ∈ GetID <$> with_action a (filter (λ n, is_new_root b n ≠ true) cached) ↔
  ∃ c, c ∈ cached ∧ cn_action c = a ∧ GetID (cn_node c) = nid.
Proof.
  intros Ha. unfold with_action. rewrite <- list_fmap_compose, list_elem_of_fmap. split.
  - intros (c & -> & [Hc [_ Hin]%list_elem_of_filter]%list_elem_of_filter). by exists c.
  - intros (c & Hin & Hc & <-). exists c. split; [done|]. apply list_elem_of_filter. split; [done|]. apply list_elem_of_filter.
    split; [|done]. unfold is_new_root. rewrite (bool_decide_eq_false_2 (cn_action c = addAction)) by congruence.
    by rewrite andb_false_r.
Qed.

Lemma in_outline nid b n a : (∃ c, c ∈ range H n (bb_localCache b) ∧ cn_action c = a ∧ GetID (cn_node c) = nid) ↔
  ∃ id, outline b !! id = Some (a, nid).
Proof.
  unfold outline. split.
  - intros (c & [id Hid]%(still_range HS) & <- & <-). exists id. by rewrite lookup_fmap, Hid.
  - intros [id Hid]. rewrite lookup_fmap in Hid. apply fmap_Some in Hid as (c & Hid & [= -> ->]). exists c.
    split; [|done]. apply (still_range HS). by exists id.
Qed.

Lemma in_classified nid bs : ∀ n, nid ∈ node_ids (classify_stores H n bs) ↔
  ∃ o id a, o ∈ outline <$> bs ∧ o !! id = Some (a, nid) ∧ (a = updateAction ∨ a = removeAction).
Proof.
  unfold node_ids. induction bs as [|b bs IH]; intros n; cbn [classify_stores].
  - cbn. split; [by intros ?%not_elem_of_nil|]. by intros (o & id & a & ?%not_elem_of_nil & _).
  - specialize (IH (S n)). rewrite elem_of_app in IH |- *. cbn [classify_store cl_updated cl_removed].
    rewrite !in_add_store, !in_action, !in_outline by done. split.
    + intros [[[id Hid]|Hu]|[[id Hid]|Hr]].
      * exists (outline b), id, updateAction. split; [left|auto].
      * destruct (proj1 IH (or_introl Hu)) as (o & id & a & Ho & Hx). exists o, id, a. split; [by right|done].
      * exists (outline b), id, removeAction. split; [left|auto].
      * destruct (proj1 IH (or_intror Hr)) as (o & id & a & Ho & Hx). exists o, id, a. split; [by right|done].
    + intros (o & id & a & [->|Ho]%elem_of_cons & Hid & Ha).
      * destruct Ha as [->| ->]; [left|right]; left; by exists id.
      * assert (Hx : ∃ o id a, o ∈ outline <$> bs ∧ o !! id = Some (a, nid) ∧ (a = updateAction ∨ a = removeAction)) by (by exists o, id, a).
        apply IH in Hx as [?|?]; auto.
Qed.

Lemma still_tx (f : Transaction → Transaction) :
  (∀ t : @Transaction Nd KI, t_btreesBackend (f t) = t_btreesBackend t) → moves still (modify_tx f : X ()).
Proof. intros Hf. apply moves_modify. intros x. unfold still. cbn. by rewrite Hf. Qed.
Lemma still_world {A} (m : M (@world RS BS Nd) (repo_error RE BE) A) : moves still (on_world m : X A).
Proof. by apply moves_on. Qed.
Lemma still_log_calls {A} (m : M TS TE A) : moves still (on_log m : X A).
Proof. by apply moves_on. Qed.
Lemma still_stores {A} (m : M SS SE A) : moves still (on_stores m : X A).
Proof. by apply moves_on. Qed.
Lemma still_locks {A} (m : M LS LE A) : moves still (on_locks m : X A).
Proof. by apply moves_on. Qed.
#[local] Hint Resolve still_world still_log_calls still_stores still_locks : moves.
#[local] Hint Resolve still_check still_values still_rollback_values still_sleep : moves.

Lemma still_log f p : moves still (log f p : X ()).
Proof. unfold log. apply moves_bind; [apply _|by apply still_tx|intros []; moves]. Qed.
Lemma still_for_btrees f : (∀ i, moves still (f i : X ())) → moves still (for_btrees f : X ()).
Proof.
  intros Hf. unfold for_btrees. apply moves_bind; [apply _|moves|]. intros bs. generalize (seq 0 (length bs)). intros js.
  induction js as [|j js IH]; cbn [each_btree]; moves.
Qed.
Lemma still_checkTrackedItems : moves still (checkTrackedItems H).
Proof. apply still_for_btrees. intros i. unfold if_tracked, has_items_at. moves. Qed.
Lemma still_commitTrackedItemsValues : moves still (commitTrackedItemsValues H).
Proof. apply still_for_btrees. moves. Qed.
Lemma still_getForRollback : moves still (getForRollbackTrackedItemsValues H).
Proof.
  unfold getForRollbackTrackedItemsValues. apply moves_bind; [apply _|moves|]. intros bs. generalize (seq 0 (length bs)). intros js.
  induction js as [|j js IH]; cbn [values_of]; moves.
Qed.
Lemma still_priorityRollback tid : moves still (priorityRollback tid : X ()).
Proof. unfold priorityRollback. moves. Qed.
#[local] Hint Resolve still_log still_checkTrackedItems still_commitTrackedItemsValues still_getForRollback still_priorityRollback : moves.

Lemma still_timedOut t : moves still (timedOut t : X ()).
Proof. unfold timedOut. moves. Qed.
Lemma still_lock_nodes : moves still (lock_nodes : X bool).
Proof. unfold lock_nodes. moves. Qed.
Lemma still_lock_retry l : moves still (lock_retry H l).
Proof. unfold lock_retry. moves. Qed.
#[local] Hint Resolve still_timedOut still_lock_nodes still_lock_retry : moves.
Lemma still_relock l : moves still (relock H l).
Proof. unfold relock. moves. Qed.
Lemma still_create_keys ids : ∀ ks, moves still (create_keys gen ids ks : X _).
Proof. induction ids as [|id ids IH]; intros ks; cbn [create_keys]; unfold CreateLockKey, draw; moves. Qed.
Lemma still_keep_keys hs : ∀ ks, moves still (keep_keys hs ks : X _).
Proof. induction hs as [|h hs IH]; intros ks; cbn [keep_keys]; moves. Qed.
#[local] Hint Resolve still_relock still_create_keys still_keep_keys : moves.
Lemma still_mergeNodesKeys u r : moves still (mergeNodesKeys gen u r : X ()).
Proof.
  unfold mergeNodesKeys. apply moves_bind; [apply _|moves|intros hs]. case_decide.
  - apply moves_bind; [apply _|moves|intros _]. by apply still_tx.
  - do 2 (apply moves_bind; [apply _|moves|intros ?]). by apply still_tx.
Qed.

Lemma still_or_sector {A} (dflt : A) (m : M (@world RS BS Nd) (repo_error RE BE) A) : moves still (or_sector gen dflt m : X A).
Proof.
  unfold or_sector. apply moves_handle; [apply _|moves..|]. intros e. case_match; try (by apply moves_fail, _).
  case_match; [|by apply moves_fail, _]. unfold handleRegistrySectorLockTimeout, CreateLockKey, draw. moves.
Qed.
Lemma still_prepared f : moves still (modify_prepared f : X ()).
Proof. by apply still_tx. Qed.
#[local] Hint Resolve still_mergeNodesKeys still_or_sector still_prepared : moves.
Lemma still_stage l : moves still (stage gen H l).
Proof. unfold stage, stage_values, stage_roots, stage_fetched, stage_updated, stage_removed, stage_added. moves. Qed.
Lemma still_finish l : moves still (phase1_finish H l).
Proof. unfold phase1_finish, commitStores, confirm_locks, nodesKeysNilOrLocked. moves. Qed.

(** The classified nodes are those the B-trees changed, unless they are fetched again. *)
Definition current (l : progress) x : Prop :=
  pr_needsRefetchAndMerge l = false → ∀ nid, nid ∈ node_ids (pr_classes l) ↔ wants x nid.
Definition attains {A} (m : X A) x (Q : A → txstate → Prop) : Prop := wlp m x Q (λ _ _, True).

Lemma attains_bind {A C} (m : X A) (k : A → X C) x P Q : attains m x P →
  (∀ a x', P a x' → attains (k a) x' Q) → attains (m ≫= k) x Q.
Proof. intros Hm Hk. apply wlp_bind. by eapply wlp_mono; [exact Hm| |]. Qed.
Lemma attains_any {A} (m : X A) x : attains m x (λ _ _, True).
Proof. unfold attains, wlp. by destruct (m x) as [[a|e|] x']. Qed.
Lemma attains_still {A C} (m : X A) (k : A → X C) l x Q : moves still m → current l x →
  (∀ a x', current l x' → attains (k a) x' Q) → attains (m ≫= k) x Q.
Proof.
  intros Hm Hl Hk. apply wlp_bind. eapply wlp_mono; [apply Hm| |done]. intros a x' Hx. apply Hk. intros Hn nid.
  rewrite (still_wants _ _ _ Hx). by apply Hl.
Qed.
Lemma attains_keeps {A} (m : X A) l x (P : A → Prop) : moves still m → current l x → yields m P →
  attains m x (λ a x', current l x' ∧ P a).
Proof.
  intros Hm Hl Hy. eapply wlp_mono; [apply (wlp_conj _ _ _ _ _ _ (Hm x) (Hy x))| |done]. intros a x' [Hx Ha]. split; [|done].
  intros Hn nid. rewrite (still_wants _ _ _ Hx). by apply Hl.
Qed.
Lemma current_again l x : pr_needsRefetchAndMerge l = true → current l x.
Proof. unfold current. by intros ->. Qed.
Lemma current_same l l' x : pr_needsRefetchAndMerge l' = pr_needsRefetchAndMerge l → pr_classes l' = pr_classes l → current l x → current l' x.
Proof. unfold current. by intros -> ->. Qed.

Lemma attains_classify l x : attains (classifyModifiedNodes H) x (λ c x', current (set_needs false (set_classes c l)) x').
Proof. intros Hn nid. cbn. apply in_classified. Qed.

Lemma attains_remerge l x : current l x → bounded l →
  attains (remerge gen H l) x (λ r x', match r with
    | inl l' => current l' x' ∧ bounded l'
    | inr l' => current l' x' ∧ same_count l l'
    end).
Proof.
  intros Hl Hb. unfold remerge. destruct (pr_needsRefetchAndMerge l) eqn:En; cbn [negb]; [|by apply wlp_ret].
  do 3 (eapply attains_bind; [apply attains_any|]; intros ? ? _).
  eapply attains_bind; [apply (attains_classify l)|]. intros c x1 Hc.
  eapply attains_still; [moves|exact Hc|]. intros [] x2 Hc2.
  eapply wlp_mono; [eapply attains_keeps; [apply still_relock|exact Hc2|by apply relock_yields]| |done].
  intros [l'|l'] x3 [Hc3 Hr].
  - destruct Hr as [[Hb' _] Hn]. split; [by apply current_again|done].
  - subst l'. by split.
Qed.

Lemma attains_turn startTime l x : current l x → bounded l →
  attains (phase1_turn gen H startTime l) x (λ r x', current r.2 x').
Proof.
  intros Hl Hb. unfold phase1_turn. eapply attains_still; [moves|exact Hl|]. intros _ x1 H1.
  eapply attains_still; [moves|exact H1|]. intros ok x2 H2.
  destruct (negb ok).
  { eapply attains_bind; [apply attains_any|]. intros l' x3 _. apply wlp_ret. by apply current_again. }
  eapply attains_still; [moves|exact H2|]. intros ks x3 H3. eapply attains_still; [moves|exact H3|]. intros locked x4 H4.
  destruct (negb locked).
  { eapply attains_bind; [eapply attains_keeps; [apply still_lock_retry|exact H4|by apply lock_retry_yields]|].
    intros l' x5 (H5 & _ & Hcl & Hn). apply wlp_ret. by apply (current_same l). }
  eapply attains_bind; [by apply attains_remerge|]. intros [l'|l'] x5 [H5 Hy]; [by apply wlp_ret|].
  eapply attains_bind; [eapply attains_keeps; [apply still_stage|exact H5|apply stage_yields]|].
  intros [[] l2] x6 [H6 ([Hr1 Hr2] & Hn & Hcl)]; cbn [snd] in *; [apply wlp_ret; by apply (current_same l')|].
  eapply attains_bind; [apply give_back_yields; destruct Hy as [Hy1 Hy2]; unfold bounded; rewrite Hr1, Hr2, Hy1, Hy2; exact Hb|].
  intros l3 x7 [_ Hn3]. apply wlp_ret. by apply current_again.
Qed.

Lemma attains_loop fuel : ∀ startTime l x, current l x → bounded l →
  attains (phase1_loop gen H fuel startTime l) x (λ r x', match r with Some l' => current l' x' | None => True end).
Proof.
  induction fuel as [|fuel IH]; intros startTime l x Hl Hb; cbn [phase1_loop]; [by apply wlp_ret|].
  eapply attains_bind.
  { eapply wlp_mono; [apply (wlp_conj _ _ _ _ _ _ (attains_turn startTime l x Hl Hb) (turn_yields gen H startTime l Hb x))| |done].
    intros r x' Hr. exact Hr. }
  intros [[] l'] x' [Hl' Hy]; [by apply wlp_ret|]. apply IH; [done|apply Hy].
Qed.

(** After phase 1 a node has a key exactly if one of the B-trees updates or removes it. *)
Lemma attains_phase1Commit fuel x : tidy x → tracks x = true →
  attains (phase1Commit gen H fuel) x (λ r x', r = Some () → ∀ nid, NodeKey nid ∈ lk_Key <$> t_nodesKeys (x_tx x') ↔ wants x' nid).
Proof.
  intros Ht Htr. unfold phase1Commit, hasTrackedItems. apply wlp_bind, wlp_gets. fold (tracks x). rewrite Htr. cbn [negb].
  apply wlp_bind, wlp_gets, wlp_bind, wlp_gets. cbn zeta. apply wlp_bind, wlp_modify, wlp_bind.
  set (x0 := set_tx _ x). assert (H0 : tidy x0) by done.
  eapply wlp_mono; [apply (moves_log lockTrackedItems_state NoPayload); unfold lockTrackedItems_state, finalizeCommit; lia| |done].
  intros [] x1 Hx1%keeping_releasing%releasing_tidy; [|done].
  apply wlp_bind. eapply wlp_mono; [apply moves_lockTrackedItems| |done]. intros [] x2 Hx2%keeping_releasing%releasing_tidy; [|done].
  match goal with |- wlp (classifyModifiedNodes H ≫= ?k) _ _ _ =>
    set (kk := k) end.
  eapply attains_bind.
  { eapply wlp_mono; [apply (wlp_conj _ _ _ _ _ _ (attains_classify (start_progress (mkClasses [] [] [] [] []) NilUUID) x2) (moves_classify x2))| |done].
    intros c x' Hc. exact Hc. }
  intros c x3 [Hc Hk3]. apply keeping_releasing, releasing_tidy in Hk3; [|done]. unfold kk. clear kk.
  eapply attains_bind.
  { eapply wlp_mono; [apply (wlp_conj _ _ _ _ _ _ (ensures_merge (cl_updated c) (cl_removed c) x3 Hk3) (still_mergeNodesKeys _ _ x3))| |done].
    intros u x' Hx'. exact Hx'. }
  intros [] x4 [[Hr4 Hcov] Hs4]. apply releasing_tidy in Hr4; [|done].
  assert (Hready : ∀ tid, ready (start_progress c tid) x4) by (intros tid; split; [done|by intros _]).
  assert (Hcur : ∀ tid, current (start_progress c tid) x4).
  { intros tid _ nid. rewrite (still_wants _ _ _ Hs4). by apply Hc. }
  apply wlp_bind, wlp_gets. eapply attains_bind.
  { eapply wlp_mono; [apply (wlp_conj _ _ _ _ _ _ (ensures_loop fuel _ _ x4 (Hready _) (start_bounded c _)) (attains_loop fuel _ _ x4 (Hcur _) (start_bounded c _)))| |done].
    intros r x' Hx'. exact Hx'. }
  intros [l|] x5 [[_ Hl] Hcl]; [|by apply wlp_ret]. destruct Hl as [[_ Hc5] Hn5]. eapply attains_bind.
  { eapply wlp_mono; [apply (wlp_conj _ _ _ _ _ _ (ensures_finish l x5) (still_finish l x5))| |done]. intros u x' Hx'. exact Hx'. }
  intros [] x6 [(_ & Hk & _) Hs6]. apply wlp_ret. intros _ nid. rewrite (still_wants _ _ _ Hs6), <- (Hcl Hn5).
  apply (keeping_covers _ _ _ Hk). by apply Hc5.
Qed.
End props.
