(* ===== verification/MemLocks.v ===== *)
(** * The in-memory L2 cache as the locks of a commit

    A call of the cache that is not interrupted, and the laws of [LockerLaws] for it:
    the entries of the sharded map are the locks that are held. *)

From stdpp Require Import gmap propset pretty.
From S2P Require Import Prelude Wp Handle Locks HashmapSpec Stores NodeRepo TwoPhase TwoPhaseCommit TwoPhaseProps.

Section locks.
Context (maxItemsPerShard : nat) (name : lock_name → string) `{!Inj (=) (=) name}.

(** The lock table, and the time. *)
Record lock_table := mkTable { lt_locks : gmap string lockItem; lt_now : Z }.
Implicit Types (t : lock_table) (lks : list Locks.LockKey) (ks : list LockKey).

Definition set_lt_locks (m : gmap string lockItem) t : lock_table := mkTable m (lt_now t).

(** A program of the cache from its first to its last step. *)
Fixpoint run_prog {A} (p : prog A) t : A * lock_table :=
  match p with
  | Done r => (r, t)
  | Load key k => run_prog (k (lt_locks t !! key)) t
  | LoadOrStore key v k =>
      let '(r, m) := loadOrStore maxItemsPerShard (map_to_list (shard_items (lt_locks t) key)) key v (lt_locks t) in
      run_prog (k r) (set_lt_locks m t)
  | CompareAndSwap key o n k =>
      let '(ok, m) := compareAndSwap key o n (lt_locks t) in run_prog (k ok) (set_lt_locks m t)
  | CompareAndDelete key o k =>
      let '(ok, m) := compareAndDelete key o (lt_locks t) in run_prog (k ok) (set_lt_locks m t)
  | Locks.Now k => run_prog (k (lt_now t)) t
  end.

Lemma run_bind {A B} (m : prog A) (k : A → prog B) t :
  run_prog (m ≫= k) t = run_prog (k (run_prog m t).1) (run_prog m t).2.
Proof.
  unfold mbind, prog_mbind. revert t. induction m as [r|key c IH|key v c IH|key o n c IH|key o c IH|c IH]; intros t;
    cbn [prog_bind run_prog]; [done|apply IH| | | |apply IH].
  - destruct (loadOrStore _ _ _ _ _). apply IH.
  - destruct (compareAndSwap _ _ _ _). apply IH.
  - destruct (compareAndDelete _ _ _). apply IH.
Qed.

Definition key_of (k : LockKey) : Locks.LockKey := Locks.mkLockKey (FormatLockKey (name (lk_Key k))) (lk_LockID k) false.

#[local] Instance memory_Locker : Locker lock_table Empty_set := {
  locks_Lock d ks := λ t, let '(r, t') := run_prog (Lock d (key_of <$> ks)) t in (Ret r.1.1, t');
  locks_DualLock d ks := λ t, let '(r, t') := run_prog (DualLock d (key_of <$> ks)) t in (Ret r.1.1, t');
  locks_IsLocked ks := λ t, let '(r, t') := run_prog (IsLocked (key_of <$> ks)) t in (Ret r, t');
  locks_Unlock ks := λ t, let '(r, t') := run_prog (Unlock (key_of <$> ks)) t in (Ret r, t');
}.

(** ** What a program writes *)

(** The entries of the table that another table has not, or with another owner, are
    those of the keys. *)
Definition grows lks (m m' : gmap string lockItem) : Prop :=
  ∀ s it, m' !! s = Some it → (∃ it', m !! s = Some it' ∧ li_lockID it' = li_lockID it) ∨
    ∃ lk, lk ∈ lks ∧ Locks.lk_Key lk = s ∧ Locks.lk_LockID lk = li_lockID it.

Lemma grows_refl lks m : grows lks m m.
Proof. intros s it Hs. left. by exists it. Qed.
Lemma grows_trans lks m1 m2 m3 : grows lks m1 m2 → grows lks m2 m3 → grows lks m1 m3.
Proof. intros H12 H23 s it Hs. destruct (H23 s it Hs) as [(it' & Hs' & <-)|]; [|by right]. by apply H12. Qed.

(** The item of a key. *)
Definition own lks (key : string) (it : lockItem) : Prop :=
  ∃ lk, lk ∈ lks ∧ Locks.lk_Key lk = key ∧ Locks.lk_LockID lk = li_lockID it.

(** A program that stores nothing but the items of its keys. *)
Fixpoint writes {A} lks (p : prog A) : Prop :=
  match p with
  | Done _ => True
  | Load key c => ∀ o, writes lks (c o)
  | LoadOrStore key v c => own lks key v ∧ ∀ r, writes lks (c r)
  | CompareAndSwap key o n c => own lks key n ∧ ∀ r, writes lks (c r)
  | CompareAndDelete key o c => ∀ r, writes lks (c r)
  | Locks.Now c => ∀ z, writes lks (c z)
  end.

Lemma writes_bind {A B} lks (m : prog A) (k : A → prog B) : writes lks m → (∀ a, writes lks (k a)) → writes lks (m ≫= k).
Proof. unfold mbind, prog_mbind. induction m; cbn [writes prog_bind]; naive_solver. Qed.

Lemma grows_insert lks m key it : own lks key it → grows lks m (<[key := it]> m).
Proof.
  intros Ho s x [[<- <-]|[_ Hs]]%lookup_insert_Some; [right; exact Ho|left; by exists x].
Qed.
Lemma grows_delete lks m key : grows lks m (delete key m).
Proof. intros s x [_ Hs]%lookup_delete_Some. left. by exists x. Qed.

Lemma run_grows {A} lks (p : prog A) : ∀ t, writes lks p → grows lks (lt_locks t) (lt_locks (run_prog p t).2).
Proof.
  induction p as [r|key c IH|key v c IH|key o n c IH|key o c IH|c IH]; intros t Hw; cbn [run_prog writes] in *.
  - apply grows_refl.
  - by apply IH.
  - destruct Hw as [Ho Hw]. destruct (loadOrStore _ _ key v (lt_locks t)) as [r m] eqn:El.
    eapply grows_trans; [|by apply IH]. cbn. unfold loadOrStore in El. destruct (lt_locks t !! key); simplify_eq; [apply grows_refl|].
    eapply grows_trans; [|by apply grows_insert]. case_decide; [|apply grows_refl].
    destruct (victim _); [apply grows_delete|apply grows_refl].
  - destruct Hw as [Ho Hw]. destruct (compareAndSwap key o n (lt_locks t)) as [r m] eqn:El.
    eapply grows_trans; [|by apply IH]. cbn. unfold compareAndSwap in El. case_decide; simplify_eq; [by apply grows_insert|apply grows_refl].
  - destruct (compareAndDelete key o (lt_locks t)) as [r m] eqn:El.
    eapply grows_trans; [|by apply IH]. cbn. unfold compareAndDelete in El. case_decide; simplify_eq; [apply grows_delete|apply grows_refl].
  - by apply IH.
Qed.
(** ** The calls *)

Lemma rollback_writes lks l : writes lks (Locks.rollback l).
Proof. induction l as [|lk l IH]; cbn [Locks.rollback writes]; [done|]. intros [v|]; [case_decide|]; cbn [writes]; auto. Qed.

Lemma lock_loop_writes lks d l : ∀ seen, l ⊆ lks → writes lks (lock_loop d seen l).
Proof.
  induction l as [|lk l IH]; intros seen Hl; cbn [lock_loop writes]; [done|].
  assert (Hlk : lk ∈ lks) by (apply Hl; left). assert (Hl' : l ⊆ lks) by (intros x Hx; apply Hl; by right).
  assert (Hr : ∀ x, writes lks (Locks.rollback (acquired_keys seen);; mret (false, li_lockID x, refused_keys seen (lk :: l)))).
  { intros x. apply writes_bind; [apply rollback_writes|done]. }
  intros now. split; [by exists lk|]. intros [existing loaded]. destruct loaded; [|by apply IH]. cbn [writes]. intros now'.
  case_match; cbn [writes].
  - split; [by exists lk|]. intros []; [by apply IH|apply Hr].
  - case_decide; [by apply IH|apply Hr].
Qed.

Lemma IsLocked_writes lks l : writes lks (IsLocked l).
Proof.
  induction l as [|lk l IH]; cbn [IsLocked writes]; [done|]. intros [v|]; [|done]. case_decide; [done|]. cbn [writes].
  intros z. by case_match.
Qed.

Lemma Lock_writes d lks : writes lks (Lock d lks).
Proof. unfold Lock. apply lock_loop_writes. intros x Hx. by rewrite merge_sort_Permutation in Hx. Qed.

Lemma DualLock_writes d lks : writes lks (DualLock d lks).
Proof.
  unfold DualLock. apply writes_bind; [apply Lock_writes|]. intros [[ok owner] lks']. destruct (negb ok); [done|].
  apply writes_bind; [apply IsLocked_writes|done].
Qed.

(** What [IsLocked] found. *)
Lemma IsLocked_run l t : (run_prog (IsLocked l) t).2 = t ∧
  ((run_prog (IsLocked l) t).1 = true →
   Forall (λ lk, ∃ it, lt_locks t !! Locks.lk_Key lk = Some it ∧ li_lockID it = Locks.lk_LockID lk) l).
Proof.
  induction l as [|lk l [IH1 IH2]]; cbn [IsLocked run_prog]; [by split|].
  destruct (lt_locks t !! Locks.lk_Key lk) as [it|] eqn:El; [|by split]. case_decide as Hid; [by split|]. cbn [run_prog].
  case_match; [by split|]. split; [done|]. intros Hr. constructor; [|by apply IH2]. exists it. split; [done|]. by destruct (decide (li_lockID it = Locks.lk_LockID lk)); [|destruct Hid].
Qed.

(** What [Unlock] leaves: what was there, without the items of the keys. *)
Lemma Unlock_run l : ∀ t, let t' := (run_prog (Unlock l) t).2 in
  lt_locks t' ⊆ lt_locks t ∧
  Forall (λ lk, ∀ it, lt_locks t' !! Locks.lk_Key lk = Some it → li_lockID it ≠ Locks.lk_LockID lk) l.
Proof.
  induction l as [|lk l IH]; intros t; cbn [Unlock run_prog]; [by split|].
  assert (Hgo : ∀ t1, lt_locks t1 ⊆ lt_locks t → (∀ it, lt_locks t1 !! Locks.lk_Key lk = Some it → li_lockID it ≠ Locks.lk_LockID lk) →
    let t' := (run_prog (Unlock l) t1).2 in lt_locks t' ⊆ lt_locks t ∧
    Forall (λ lk, ∀ it, lt_locks t' !! Locks.lk_Key lk = Some it → li_lockID it ≠ Locks.lk_LockID lk) (lk :: l)).
  { intros t1 H1 Hlk. destruct (IH t1) as [Hs Hf]. split; [by etrans|]. constructor; [|done].
    intros it Hit. apply Hlk. exact (lookup_weaken _ _ _ _ Hit Hs). }
  destruct (lt_locks t !! Locks.lk_Key lk) as [it|] eqn:El; [|apply Hgo; [done|]; intros it; by rewrite El].
  case_decide as Hid; [|apply Hgo; [done|]; intros it'; rewrite El; by intros [= <-]].
  cbn [run_prog]. unfold compareAndDelete. rewrite decide_True by done. apply Hgo; cbn; [apply delete_subseteq|].
  intros it'. by rewrite lookup_delete_eq.
Qed.

(** ** The laws *)

Definition table_held t : propset (lock_name * UUID) :=
  {[ p | ∃ it, lt_locks t !! FormatLockKey (name p.1) = Some it ∧ li_lockID it = p.2 ]}.

Lemma FormatLockKey_inj s1 s2 : FormatLockKey s1 = FormatLockKey s2 → s1 = s2.
Proof. unfold FormatLockKey. intros [= Hs]. exact Hs. Qed.

Lemma grows_held ks t m : grows (key_of <$> ks) (lt_locks t) m → table_held (set_lt_locks m t) ⊆ table_held t ∪ entries ks.
Proof.
  intros Hg [n id]. unfold table_held. cbn. rewrite elem_of_union, !elem_of_PropSet. cbn. intros (it & Hit & <-).
  destruct (Hg _ _ Hit) as [(it' & Hit' & Hid)|(lk & Hlk & Hk & Hid)]; [left; by exists it'|right].
  apply list_elem_of_fmap in Hlk as (k & -> & Hk'). cbn in *. apply FormatLockKey_inj, (inj name) in Hk. subst n.
  apply entries_elem. exists k. by rewrite Hid.
Qed.
Lemma run_held {A} ks (p : prog A) t : writes (key_of <$> ks) p → table_held (run_prog p t).2 ⊆ table_held t ∪ entries ks.
Proof. intros Hw. exact (grows_held ks t _ (run_grows _ p t Hw)). Qed.

Lemma found_held ks t : Forall (λ lk, ∃ it, lt_locks t !! Locks.lk_Key lk = Some it ∧ li_lockID it = Locks.lk_LockID lk) (key_of <$> ks) →
  entries ks ⊆ table_held t.
Proof.
  rewrite Forall_fmap, Forall_forall. intros Hf p (k & -> & Hk)%entries_elem. apply elem_of_PropSet. exact (Hf k Hk).
Qed.

Definition unflagged (lk : Locks.LockKey) : string * UUID := (Locks.lk_Key lk, Locks.lk_LockID lk).

Lemma found_perm l1 l2 t : unflagged <$> l1 ≡ₚ unflagged <$> l2 →
  Forall (λ lk, ∃ it, lt_locks t !! Locks.lk_Key lk = Some it ∧ li_lockID it = Locks.lk_LockID lk) l1 →
  Forall (λ lk, ∃ it, lt_locks t !! Locks.lk_Key lk = Some it ∧ li_lockID it = Locks.lk_LockID lk) l2.
Proof.
  intros Hp. set (P := λ p : string * UUID, ∃ it, lt_locks t !! p.1 = Some it ∧ li_lockID it = p.2).
  change (Forall (P ∘ unflagged) l1 → Forall (P ∘ unflagged) l2). rewrite <- !Forall_fmap. by rewrite Hp.
Qed.

(** The keys come back, with flags. *)
Lemma lock_loop_keys d l : ∀ seen t, let r := (run_prog (lock_loop d seen l) t).1 in
  r.1.1 = true → unflagged <$> r.2 ≡ₚ (unflagged <$> seen.*1) ++ (unflagged <$> l).
Proof.
  induction l as [|lk l IH]; intros seen t; cbn [lock_loop run_prog]; [by rewrite app_nil_r|].
  assert (Hnext : ∀ b t', let r := (run_prog (lock_loop d (seen ++ [(set_owner true lk, b)]) l) t').1 in
    r.1.1 = true → unflagged <$> r.2 ≡ₚ (unflagged <$> seen.*1) ++ (unflagged <$> lk :: l)).
  { intros b t' r Hr. unfold r. rewrite (IH _ t' Hr), !fmap_app, <- app_assoc. done. }
  assert (Hrefuse : ∀ x t', (run_prog (Locks.rollback (acquired_keys seen);; mret (false, x, refused_keys seen (lk :: l)) : prog (bool * UUID * list Locks.LockKey)) t').1.1.1 = false).
  { intros x t'. by rewrite run_bind. }
  destruct (loadOrStore _ _ _ _ _) as [[existing loaded] m]. destruct loaded; [|apply Hnext]. cbn [run_prog].
  case_match; [cbn [run_prog]; destruct (compareAndSwap _ _ _ _) as [[] m']; [apply Hnext|]|case_decide; [apply Hnext|]];
    cbn zeta; by rewrite Hrefuse.
Qed.

Lemma DualLock_found d ks t : (run_prog (DualLock d (key_of <$> ks)) t).1.1.1 = true →
  entries ks ⊆ table_held (run_prog (DualLock d (key_of <$> ks)) t).2.
Proof.
  unfold DualLock. rewrite run_bind. set (r := run_prog (Lock d (key_of <$> ks)) t).
  assert (Hk : r.1.1.1 = true → unflagged <$> r.1.2 ≡ₚ unflagged <$> (key_of <$> ks)).
  { intros Hr. unfold r, Lock. rewrite (lock_loop_keys _ _ [] t Hr). cbn. by rewrite merge_sort_Permutation. }
  clearbody r. destruct r as [[[ok owner] lks] t1]. cbn in *. destruct ok; cbn [negb]; [|done]. rewrite run_bind. cbn.
  destruct (IsLocked_run lks t1) as [Ht Hf]. rewrite Ht. intros Hr. apply found_held.
  apply (found_perm lks); [by apply Hk|by apply Hf].
Qed.

#[local] Instance memory_laws : LockerLaws lock_table Empty_set.
Proof.
  refine {| held := table_held |}.
  - intros t d ks. unfold wlp. cbn. pose proof (run_held ks (Lock d (key_of <$> ks)) t (Lock_writes _ _)) as Hh.
    by destruct (run_prog _ t).
  - intros t d ks. unfold wlp. cbn. pose proof (run_held ks (DualLock d (key_of <$> ks)) t (DualLock_writes _ _)) as Hh.
    pose proof (DualLock_found d ks t) as Hf. by destruct (run_prog _ t).
  - intros t ks. unfold wlp. cbn. destruct (IsLocked_run (key_of <$> ks) t) as [Ht Hf].
    destruct (run_prog _ t) as [r t']. cbn in *. subst t'. split; [done|]. intros Hr. by apply found_held, Hf.
  - intros t ks. unfold wlp. cbn. destruct (Unlock_run (key_of <$> ks) t) as [Hs Hf].
    destruct (run_prog _ t) as [[] t']. cbn in *. intros [n id] Hp. apply elem_of_PropSet in Hp as (it & Hit & Hid). cbn in *.
    apply elem_of_difference. split; [apply elem_of_PropSet; exists it; split; [exact (lookup_weaken _ _ _ _ Hit Hs)|done]|].
    intros (k & [= -> ->] & Hk)%entries_elem. rewrite Forall_fmap, Forall_forall in Hf. by apply (Hf k Hk it).
Qed.
End locks.
