(* ===== verification/TwoPhaseLife.v ===== *)
(** * The life of a transaction

    A transaction begins, opens B-trees, works on them and ends with a commit or a
    rollback.  [steady] holds between its calls, whatever their results. *)

From stdpp Require Import gmap propset.
From S2P Require Import Prelude Wp Handle HashmapSpec Stores NodeRepo TwoPhase TwoPhaseCommit TwoPhaseProps.

Section life.
Context {RS RE BS BE Nd LS LE TS TE SS SE CS KI KE : Type} `{RO : Stores.Registry RS RE} `{BO : Stores.BlobStore BS BE} `{MD : MetaData Nd}.
Context `{LO : Locker LS LE} `{TO : TransactionLog TS TE} `{SO : StoreRepository SS SE}.
Context `{CO : NodeCache CS Nd} `{VO : Versioned Nd} `{EO : SectorErrors (repo_error RE BE)}.
Context `{SP : StoreSpecification} `{LL : !LockerLaws LS LE}.
Context (gen : nat → UUID) (mine : UUID → Prop) (no_items : KI).

Local Abbreviation error := (tx_error RE BE LE TE SE KE).
Local Abbreviation txstate := (@txstate RS BS Nd LS TS SS CS KI).
Local Abbreviation X := (M txstate error).
Local Abbreviation settled := (settled mine).
Local Abbreviation releasing := (releasing mine).
Local Abbreviation keeping := (keeping mine).
Context (H : @hooks RS RE BS BE Nd LS LE TS TE SS SE CS KI KE) (HH : hooks_ok mine H).
Implicit Types (x : txstate) (B : propset (lock_name * UUID)).

(** ** What holds between two calls *)

Record steady B x : Prop := {
  st_phase : (-1 ≤ t_phaseDone (x_tx x) ≤ 2)%Z;
  st_settled : settled B x;
  st_committed : t_committed (x_tx x) = true → t_phaseDone (x_tx x) = 2%Z;
  st_unlocked : t_phaseDone (x_tx x) ≠ 1%Z → unlocked x;
  st_undoable : t_phaseDone (x_tx x) = 1%Z → unlocked x ∨ undoable x;
  st_mode : t_mode (x_tx x) ≠ ForWriting → unlocked x;
  st_btrees : t_phaseDone (x_tx x) = (-1)%Z → t_btreesBackend (x_tx x) = [];
}.

(** A call of a transaction, whatever it returns, is [steady] in the end. *)
Definition steadies {A} B x (m : X A) : Prop := wlp m x (λ _ x', steady B x') (λ _ x', steady B x').

(** The keys are as good as given back: a rollback gives them back. *)
Definition returnable x : Prop := undoable x ∨ unlocked x.

(** A transaction that is done, with all its locks given back. *)
Lemma steady_done B x : settled B x → t_phaseDone (x_tx x) = 2%Z → unlocked x → steady B x.
Proof. intros Hs Hp Hu. split; rewrite ?Hp; try done; lia. Qed.

Definition with_phase (p : Z) x : txstate := set_tx (set_phaseDone p (x_tx x)) x.

Lemma rollback_done B b x : settled B x → t_phaseDone (x_tx x) = 2%Z → returnable x → steadies B x (rollback H b).
Proof.
  intros Hs Hp Hr. eapply wlp_mono; [by apply wlp_rollback| |]; intros a x' [Hx Hu];
    (apply steady_done; [by apply (rel_settled _ _ _ Hx)|by rewrite (same_phaseDone _ _ (rel_same _ _ _ Hx))|by apply Hu]).
Qed.

Lemma failed_done B phase e x : settled B x → t_phaseDone (x_tx x) = 2%Z → returnable x → steadies B x (failed H phase e).
Proof.
  intros Hs Hp Hr. apply wlp_handle. eapply wlp_mono; [by apply rollback_done| |]; intros a x' Hx'; by apply wlp_fail.
Qed.

Lemma steady_returnable B x : steady B x → returnable x.
Proof. intros Hs. destruct (decide (t_phaseDone (x_tx x) = 1%Z)) as [Hp|Hp]; [destruct (st_undoable _ _ Hs Hp)|pose proof (st_unlocked _ _ Hs Hp)]; unfold returnable; auto. Qed.

Lemma Rollback_steadies B x : steady B x → steadies B x (Rollback H).
Proof.
  intros Hs. unfold Rollback. apply wlp_bind, wlp_gets. case_decide as H2; [destruct (t_committed _); done|].
  destruct (HasBegun _) eqn:Hb; [|done]. cbn [negb]. apply wlp_bind, wlp_modify, wlp_handle.
  eapply wlp_mono; [apply (rollback_done B true (with_phase 2 x)); [apply Hs|done|apply (steady_returnable B x Hs)]| |]; intros a x' Hx';
    [by apply wlp_ret|by apply wlp_fail].
Qed.

(** ** Begin *)

Lemma begun_phase x : HasBegun (x_tx x) = true → t_phaseDone (x_tx x) = 0%Z ∨ t_phaseDone (x_tx x) = 1%Z.
Proof. unfold HasBegun. lia. Qed.

Lemma Begin_run B x : steady B x → t_phaseDone (x_tx x) = (-1)%Z → Begin H x = (Ret (), with_phase 0 x).
Proof.
  intros Hs Hp. unfold Begin. unfold mbind, M_bind, tx, gets. unfold HasBegun. rewrite Hp. cbn.
  unfold onIdle, mbind, M_bind, tx, gets. cbn.
  rewrite decide_False by done. cbn. by rewrite (st_btrees _ _ Hs Hp).
Qed.

Lemma Begin_steadies B x : steady B x → steadies B x (Begin H).
Proof.
  intros Hs. destruct (decide (t_phaseDone (x_tx x) = (-1)%Z)) as [Hp|Hp].
  - unfold steadies, wlp. rewrite (Begin_run B x Hs Hp). destruct Hs as [H1 H2 H3 H4 H5 H6 H7].
    assert (Hu : unlocked x) by (apply H4; lia). split; cbn; try done; try lia. intros Hc. specialize (H3 Hc). lia.
  - unfold Begin. apply wlp_bind, wlp_gets. destruct (HasBegun _) eqn:Hb; [by apply wlp_fail|].
    case_decide as H2; [by apply wlp_fail|]. pose proof (st_phase _ _ Hs). unfold HasBegun in Hb. lia.
Qed.
(** ** Phase 1 *)

Lemma with_phase_settled B p x : settled B x → settled B (with_phase p x).
Proof. done. Qed.

Lemma releasing_phase x x' : releasing x x' → t_phaseDone (x_tx x') = t_phaseDone (x_tx x).
Proof. intros Hr. exact (same_phaseDone _ _ (rel_same _ _ _ Hr)). Qed.

(** In the middle of a commit, when phase 1 is or will be done. *)
Lemma steady_phase1 B x : settled B x → t_phaseDone (x_tx x) = 1%Z → t_committed (x_tx x) = false → returnable x →
  (t_mode (x_tx x) ≠ ForWriting → unlocked x) → steady B x.
Proof.
  intros Hs Hp Hc Hr Hm. split; rewrite ?Hp; first [done|lia|by rewrite Hc|unfold returnable in Hr; tauto].
Qed.

Lemma steady_uncommitted B x : steady B x → t_phaseDone (x_tx x) ≠ 2%Z → t_committed (x_tx x) = false.
Proof. intros Hs Hp. destruct (t_committed (x_tx x)) eqn:Hc; [|done]. by destruct Hp; apply (st_committed _ _ Hs). Qed.

Lemma steady_keeping B x x' : keeping x x' → steady B x → t_phaseDone (x_tx x) = 1%Z → steady B x'.
Proof.
  intros Hk Hs Hp. pose proof (keeping_releasing _ _ _ Hk) as Hr.
  assert (Hp' : t_phaseDone (x_tx x') = 1%Z) by (by rewrite (releasing_phase _ _ Hr)).
  apply steady_phase1; [apply (rel_settled _ _ _ Hr), Hs|done| | |].
  - rewrite (same_committed _ _ (keep_same _ _ _ Hk)). apply (steady_uncommitted B); [done|]. by rewrite Hp.
  - destruct (steady_returnable _ _ Hs) as [Hu|Hu]; [left; by apply (keep_undoable _ _ _ Hk)|right; by apply (keeping_unlocked _ _ _ Hk)].
  - rewrite (same_mode _ _ (keep_same _ _ _ Hk)). intros Hm. apply (keeping_unlocked _ _ _ Hk), (st_mode _ _ Hs Hm).
Qed.

Lemma moves_reader_loop fuel : ∀ startTime, moves keeping (reader_loop H fuel startTime).
Proof.
  induction fuel as [|fuel IH]; intros startTime; cbn [reader_loop]; [by apply moves_ret, _|].
  apply moves_bind; [apply _|apply moves_timedOut|intros []].
  apply moves_bind; [apply _|apply moves_classify|intros c].
  apply moves_bind; [apply _|apply moves_world|intros []; [by apply moves_ret, _|]].
  apply moves_bind; [apply _|apply ok_sleep, HH|intros []].
  apply moves_bind; [apply _|by apply moves_refetchAndMerge|intros []]. apply IH.
Qed.

Lemma moves_reader fuel : moves keeping (commitForReaderTransaction H fuel).
Proof.
  unfold commitForReaderTransaction, hasTrackedItems. apply moves_bind; [apply _|by apply moves_gets, _|intros mode].
  apply moves_bind; [apply _|by apply moves_gets, _|intros has]. case_decide; [by apply moves_ret, _|].
  destruct (negb has); [by apply moves_ret, _|]. apply moves_bind; [apply _|by apply moves_gets, _|intros t]. apply moves_reader_loop.
Qed.

Lemma Phase1Commit_steadies B fuel x : steady B x → steadies B x (Phase1Commit gen H fuel).
Proof.
  intros Hs. unfold Phase1Commit. apply wlp_bind, wlp_gets. destruct (HasBegun (x_tx x)) eqn:Hb; [|by apply wlp_fail].
  apply begun_phase in Hb. cbn [negb]. rewrite decide_False by lia. apply wlp_bind, wlp_modify. fold (with_phase 1 x).
  assert (Hc : t_committed (x_tx x) = false) by (apply (steady_uncommitted B); [done|lia]).
  assert (Hs1 : steady B (with_phase 1 x)).
  { apply steady_phase1; [apply Hs|done|exact Hc|exact (steady_returnable _ _ Hs)|exact (st_mode _ _ Hs)]. }
  destruct (t_mode (x_tx x)) eqn:Hm.
  - by apply wlp_ret.
  - apply wlp_handle. eapply wlp_mono; [apply wlp_phase1Commit; [done|apply Hs]| |].
    + intros r x' (Hr & Ht & Hf). apply wlp_ret. destruct (tracks H (with_phase 1 x)) eqn:Htr.
      * apply steady_phase1; [apply (rel_settled _ _ _ Hr), Hs|by rewrite (releasing_phase _ _ Hr)| |left; by apply Ht|].
        -- rewrite (same_committed _ _ (rel_same _ _ _ Hr)). exact Hc.
        -- rewrite (same_mode _ _ (rel_same _ _ _ Hr)). intros Hn. destruct Hn. exact Hm.
      * by rewrite Hf.
    + intros e x' [Hr Hu]. apply wlp_bind, wlp_modify, wlp_bind. fold (with_phase 2 x').
      eapply wlp_mono; [apply failed_done; [apply (rel_settled _ _ _ Hr), Hs|done|left; exact Hu]| |done].
      intros [] x'' Hx. by apply wlp_ret.
  - eapply wlp_mono; [apply moves_reader|intros r x'|intros e x']; intros Hk; by apply (steady_keeping B (with_phase 1 x)).
Qed.
(** ** Phase 2 *)

(** A transaction whose keys are accounted for and can be given back. *)
Definition accounted B x : Prop := settled B x ∧ t_phaseDone (x_tx x) = 2%Z ∧ returnable x.
Definition finished B x : Prop := settled B x ∧ t_phaseDone (x_tx x) = 2%Z ∧ unlocked x.

Lemma keeping_accounted B x x' : keeping x x' → accounted B x → accounted B x'.
Proof.
  intros Hk (Hs & Hp & Hr). pose proof (keeping_releasing _ _ _ Hk) as Hr'.
  split; [by apply (rel_settled _ _ _ Hr')|]. split; [by rewrite (releasing_phase _ _ Hr')|].
  destruct Hr as [Hu|Hu]; [left; by apply (keep_undoable _ _ _ Hk)|right; by apply (keeping_unlocked _ _ _ Hk)].
Qed.

Lemma wlp_unlock_finished B x : accounted B x → wlp (unlockNodesKeys : X ()) x (λ _ x', finished B x') (λ _ _, False).
Proof.
  intros (Hs & Hp & _). eapply wlp_mono; [apply (wlp_unlockNodesKeys mine)| |done]. intros [] x' [Hr Hu].
  split; [by apply (rel_settled _ _ _ Hr)|]. split; [by rewrite (releasing_phase _ _ Hr)|done].
Qed.

(** What is done after the locks are given back, where the log goes beyond undoing. *)
Record loosely x x' : Prop := {
  lo_phaseDone : t_phaseDone (x_tx x') = t_phaseDone (x_tx x);
  lo_nodesKeys : t_nodesKeys (x_tx x') = t_nodesKeys (x_tx x);
  lo_held p : p ∈ held (x_locks x') → ours mine p → p ∈ held (x_locks x) ∨ p ∈ keys x;
}.
#[local] Instance loosely_preorder : PreOrder loosely.
Proof.
  split; [split; auto|]. intros x y z [Hp1 Hk1 Hh1] [Hp2 Hk2 Hh2].
  split; [congruence|congruence|]. intros p Hp Hm. destruct (Hh2 p Hp Hm) as [Hp3|Hp3]; [auto|].
  right. unfold keys in *. by rewrite Hk1 in Hp3.
Qed.

Lemma keeping_loosely x x' : keeping x x' → loosely x x'.
Proof. intros [[] Hk Hh Hu]. by split. Qed.
Lemma moves_loosely {A} (m : X A) : moves keeping m → moves loosely m.
Proof. intros Hm. eapply moves_sub; [exact Hm|exact keeping_loosely]. Qed.

Lemma loosely_finished B x x' : loosely x x' → finished B x → finished B x'.
Proof.
  intros [Hp Hk Hh] ([Hnd Hs] & Hx & Hu). split; [split; [by rewrite Hk|]|split; [by rewrite Hp|unfold unlocked; by rewrite Hk]].
  intros q Hq Ho. unfold keys. rewrite Hk. destruct (Hh q Hq Ho) as [Hq'|Hq']; [by apply Hs|by right].
Qed.

Lemma moves_log_loosely f p : moves loosely (log f p : X ()).
Proof.
  unfold log. apply moves_bind; [apply _|apply moves_modify; intros y; split; auto|intros []]. case_decide; [by apply moves_ret, _|].
  apply moves_bind; [apply _|by apply moves_gets, _|]. intros tid. apply moves_loosely, moves_log_calls.
Qed.

Lemma moves_delete_obsolete ps : ∀ err, moves keeping (delete_obsolete_nodes err ps : X _).
Proof.
  induction ps as [|p ps IH]; intros err; cbn [delete_obsolete_nodes]; [by apply moves_ret, _|].
  apply moves_bind; [apply _| |intros e; apply IH]. apply moves_attempt; [apply _|]. unfold DeleteNodes.
  apply moves_bind; [apply _|apply moves_modify; intros y; by apply keeping_other|intros []].
  apply moves_bind; [apply _|apply moves_world|intros []]; [by apply moves_fail, _|by apply moves_ret, _].
Qed.

Lemma moves_deleteObsoleteEntries ids ps : moves keeping (deleteObsoleteEntries ids ps : X ()).
Proof.
  unfold deleteObsoleteEntries. apply moves_bind; [apply _| |intros e].
  - case_decide; [by apply moves_ret, _|]. apply moves_bind; [apply _|apply moves_delete_obsolete|intros e].
    apply moves_attempt; [apply _|apply moves_world].
  - apply moves_bind; [apply _|apply moves_attempt; [apply _|apply moves_world]|intros e']. by apply moves_end_attempt, _.
Qed.

Lemma moves_ignore_keeping {A} (m : X A) : moves keeping m → moves loosely (ignore m).
Proof. intros Hm. apply moves_loosely, moves_ignore; [apply _|exact Hm]. Qed.

Lemma moves_cleanup : moves loosely (cleanup H).
Proof.
  unfold cleanup. apply moves_bind; [apply _|apply moves_log_loosely|intros []].
  apply moves_bind; [apply _|by apply moves_gets, _|intros p]. destruct (getToBeObsoleteEntries p) as [ids blobs].
  apply moves_bind; [apply _|apply moves_ignore_keeping, moves_deleteObsoleteEntries|intros []].
  apply moves_bind; [apply _|apply moves_log_loosely|intros []].
  apply moves_bind; [apply _|by apply moves_loosely, moves_getObsolete|intros values].
  apply moves_bind; [apply _|by apply moves_ignore_keeping, moves_deleteTrackedItemsValues|intros []].
  apply moves_ignore_keeping, moves_removeLogs.
Qed.

Lemma moves_mru_nodes hs ns : moves keeping (mru_nodes hs ns : X ()).
Proof.
  revert hs. induction ns as [|n ns IH]; intros [|h hs]; cbn [mru_nodes];
    [by apply moves_ret, _|by apply moves_ret, _|by apply moves_panic|].
  apply moves_bind; [apply _|apply moves_modify; intros y; by apply keeping_other|intros []; apply IH].
Qed.
Lemma moves_updateVersion hs ns : moves keeping (updateVersionThenPopulateMru hs ns : X ()).
Proof.
  revert hs. induction ns as [|[st n] ns IH]; intros [|h hs]; cbn [updateVersionThenPopulateMru];
    [by apply moves_ret, _|by apply moves_ret, _|by apply moves_panic|].
  apply moves_bind; [apply _|apply moves_mru_nodes|intros []; apply IH].
Qed.
Lemma moves_populateMru : moves keeping (populateMru : X ()).
Proof.
  unfold populateMru. apply moves_bind; [apply _|by apply moves_gets, _|intros p].
  do 2 (apply moves_bind; [apply _|apply moves_updateVersion|intros []]). apply moves_updateVersion.
Qed.
Lemma wlp_accounted {A C} B (m : X A) (k : A → X C) x Q R : moves keeping m → accounted B x →
  (∀ a x', accounted B x' → wlp (k a) x' Q R) → (∀ e x', accounted B x' → R e x') → wlp (m ≫= k) x Q R.
Proof.
  intros Hm Hx Hk HR. apply wlp_bind.
  eapply wlp_mono; [apply Hm|intros a x' Hx'; apply Hk|intros e x' Hx'; apply HR]; by apply (keeping_accounted B x).
Qed.

Lemma wlp_phase2Commit B x : accounted B x →
  wlp (phase2Commit H) x (λ _ x', finished B x') (λ _ x', accounted B x').
Proof.
  intros Hx. unfold phase2Commit. apply wlp_bind, wlp_gets. generalize (t_prepared (x_tx x)). intros p.
  apply (wlp_accounted B); [by apply moves_getObsolete|done|clear x Hx; intros values x Hx|done].
  destruct (getToBeObsoleteEntries p) as [ids blobs]. apply wlp_bind, wlp_handle.
  eapply wlp_mono; [apply (wlp_log mine); unfold finalizeCommit; lia| |].
  2: { intros e x' [Hk _]. apply (keeping_accounted B) in Hk; [|done]. apply wlp_bind.
       eapply wlp_mono; [by apply wlp_unlock_finished| |done]. intros [] x'' (? & ? & ?). apply wlp_fail. split; [done|].
       split; [done|by right]. }
  intros [] x' [Hk _]. apply (keeping_accounted B) in Hk; [clear x Hx|done]. apply wlp_ret.
  apply (wlp_accounted B); [|exact Hk|clear x' Hk; intros [] x Hx|done].
  { case_decide; [by apply moves_ret, _|]. apply moves_bind; [apply _|apply moves_world|intros []].
    apply moves_bind; [apply _|by apply moves_gets, _|intros tid]. apply moves_ignore; [apply _|apply moves_log_calls]. }
  apply (wlp_accounted B); [apply moves_ignore; [apply _|apply ok_replicate, HH]|exact Hx|clear x Hx; intros [] x Hx|done].
  apply (wlp_accounted B); [apply moves_populateMru|exact Hx|clear x Hx; intros [] x Hx|done].
  apply wlp_bind. eapply wlp_mono; [by apply wlp_unlock_finished| |done]. intros [] x1 H1.
  match goal with |- wlp ?m _ _ _ => assert (Hm : moves loosely m) end.
  { apply moves_bind; [apply _|by apply moves_ignore_keeping, moves_unlockTrackedItems|intros []].
    apply moves_bind; [apply _|apply moves_ignore; [apply _|apply moves_cleanup]|intros []].
    apply moves_ignore_keeping, ok_hooks, HH. }
  eapply wlp_mono; [apply Hm| |]; intros a x2 H2; apply (loosely_finished B) in H2; [done|done| |done].
  destruct H2 as (? & ? & ?). split; [done|]. split; [done|by right].
Qed.

Lemma phase2_failed_done B e x : accounted B x → steadies B x (phase2_failed H e).
Proof.
  intros Hx. unfold phase2_failed, nodesKeysExist.
  assert (Hend : ∀ e' x', accounted B x' → steadies B x' (failed H 2 e')) by (intros e' x' (? & ? & ?); by apply failed_done).
  apply wlp_bind, wlp_gets, wlp_bind, wlp_gets. case_bool_decide as Hk.
  - apply wlp_bind, wlp_bind, wlp_handle.
    eapply wlp_mono; [apply (moves_priorityRollback mine)|intros [] x1 H1|intros p1 x1 H1];
      (apply (keeping_accounted B) in H1; [|done]; apply wlp_ret, wlp_bind;
       eapply wlp_mono; [by apply wlp_unlock_finished| |done]; intros [] x2 (? & ? & ?); apply wlp_ret, Hend;
       split; [done|]; split; [done|by right]).
  - assert (Hu : unlocked x) by (unfold unlocked; by destruct (t_nodesKeys (x_tx x)); [|destruct Hk]). apply wlp_bind.
    match goal with |- wlp ?m _ _ _ => assert (Hm : moves keeping m) end.
    { apply moves_bind; [apply _|apply moves_ignore; [apply _|apply moves_log_calls]|intros []]. by apply moves_ret, _. }
    eapply wlp_mono; [apply Hm| |]; intros a x' Hx'; pose proof (keeping_accounted B _ _ Hx' Hx) as Ha.
    + by apply Hend.
    + apply steady_done; [apply Ha..|by apply (keeping_unlocked mine x)].
Qed.

Lemma Phase2Commit_steadies B x : steady B x → steadies B x (Phase2Commit H).
Proof.
  intros Hs. unfold Phase2Commit. apply wlp_bind, wlp_gets. destruct (HasBegun _) eqn:Hb; [|by apply wlp_fail].
  apply begun_phase in Hb. cbn [negb]. case_decide; [by apply wlp_fail|]. rewrite decide_False by lia.
  apply wlp_bind, wlp_modify. fold (with_phase 2 x).
  assert (Hother : t_mode (x_tx x) ≠ ForWriting → steadies B (with_phase 2 x) (modify_tx set_committed)).
  { intros Hm. apply wlp_modify. apply steady_done; [apply Hs|done|exact (st_mode _ _ Hs Hm)]. }
  destruct (t_mode (x_tx x)) eqn:Hm; [by apply Hother| |by apply Hother]. clear Hother.
  assert (Hx : accounted B (with_phase 2 x)) by (split; [apply Hs|split; [done|exact (steady_returnable _ _ Hs)]]).
  apply wlp_handle. eapply wlp_mono; [by apply wlp_phase2Commit|intros [] x' (? & ? & ?)|intros e x' Hx'; by apply phase2_failed_done].
  apply wlp_modify. by apply steady_done.
Qed.

(** ** B-trees *)

Lemma rollback_for_steadies {A} B (e : error) x : steady B x → steadies B x (rollback_for H e : X A).
Proof.
  intros Hs. apply wlp_handle. eapply wlp_mono; [by apply Rollback_steadies| |]; intros a x' Hx'; by apply wlp_fail.
Qed.

(** Only B-trees, handles and counters of a transaction that has begun change. *)
Lemma steady_begun_keeping B x x' : keeping x x' → steady B x → HasBegun (x_tx x) = true → steady B x'.
Proof.
  intros Hk Hs Hb. apply begun_phase in Hb as [Hp|Hp]; [|by apply (steady_keeping B x)].
  pose proof (keeping_releasing _ _ _ Hk) as Hr. assert (Hp' : t_phaseDone (x_tx x') = 0%Z) by (by rewrite (releasing_phase _ _ Hr)).
  assert (Hu : unlocked x') by (apply (keeping_unlocked _ _ _ Hk), (st_unlocked _ _ Hs); by rewrite Hp).
  split; rewrite ?Hp'; try done; try lia.
  - by apply (rel_settled _ _ _ Hr), Hs.
  - rewrite (same_committed _ _ (keep_same _ _ _ Hk)). intros Hc%(st_committed _ _ Hs). lia.
Qed.
Lemma keeping_begun x x' : keeping x x' → HasBegun (x_tx x) = true → HasBegun (x_tx x') = true.
Proof. intros Hk. unfold HasBegun. by rewrite (releasing_phase _ _ (keeping_releasing _ _ _ Hk)). Qed.

Lemma newBtree_steadies B s b x : steady B x → HasBegun (x_tx x) = true → steadies B x (newBtree H no_items s b).
Proof.
  intros Hs Hb. unfold newBtree. destruct (IsEmpty s); [by apply rollback_for_steadies|].
  apply wlp_bind, wlp_gets, wlp_bind, wlp_modify, wlp_ret. apply begun_phase in Hb.
  destruct Hs. split; cbn; try done. intros Hp. lia.
Qed.

(** A call that keeps the transaction going before the next one. *)
Lemma steadies_bind {A C} B (m : X A) (k : A → X C) x : moves keeping m → steady B x → HasBegun (x_tx x) = true →
  (∀ a x', steady B x' → HasBegun (x_tx x') = true → steadies B x' (k a)) → steadies B x (m ≫= k).
Proof.
  intros Hm Hs Hb Hk. apply wlp_bind. eapply wlp_mono; [apply Hm|intros a x' Hx'|intros e x' Hx'];
    pose proof (steady_begun_keeping B _ _ Hx' Hs Hb); [|done]. apply Hk; [done|by apply (keeping_begun x)].
Qed.
Lemma steadies_handle {A C} B (m : X A) (k : A → X C) h x : moves keeping m → steady B x → HasBegun (x_tx x) = true →
  (∀ a x', steady B x' → HasBegun (x_tx x') = true → steadies B x' (k a)) →
  (∀ e x', steady B x' → HasBegun (x_tx x') = true → steadies B x' (h e)) → steadies B x (handle m k h).
Proof.
  intros Hm Hs Hb Hk Hh. apply wlp_handle. eapply wlp_mono; [apply Hm|intros a x' Hx'|intros e x' Hx'];
    pose proof (steady_begun_keeping B _ _ Hx' Hs Hb); [apply Hk|apply Hh]; try done; by apply (keeping_begun x).
Qed.

Lemma OpenBtree_steadies B name x : steady B x → steadies B x (OpenBtree H no_items name).
Proof.
  intros Hs. unfold OpenBtree. apply wlp_bind, wlp_gets. destruct (HasBegun _) eqn:Hb; [|by apply wlp_fail].
  cbn [negb]. case_decide; [by apply wlp_fail|]. destruct (opened _ _); [by apply wlp_ret|].
  apply steadies_handle; [apply moves_stores|done|done| |intros; by apply rollback_for_steadies].
  intros [|s ss] x' Hx' Hb'; [by apply rollback_for_steadies|]. destruct (IsEmpty s) eqn:He; [by apply rollback_for_steadies|].
  by apply newBtree_steadies.
Qed.

Lemma createStoreInfo_steadies B ns x : steady B x → HasBegun (x_tx x) = true → steadies B x (createStoreInfo gen H no_items ns).
Proof.
  intros Hs Hb. unfold createStoreInfo. apply steadies_bind; [by apply moves_gets, _|done|done|clear x Hs Hb; intros now x Hs Hb].
  apply steadies_bind; [|done|done|clear x Hs Hb; intros id x Hs Hb].
  { case_decide; [apply moves_world|by apply moves_ret, _]. }
  apply steadies_handle; [apply moves_log; unfold createStore, finalizeCommit; lia|done|done| |intros; by apply rollback_for_steadies].
  clear x Hs Hb. intros [] x Hs Hb. apply steadies_handle; [apply moves_stores|done|done|intros []; intros; by apply newBtree_steadies|].
  clear x Hs Hb. intros e x Hs Hb. apply steadies_bind; [apply moves_ignore; [apply _|apply moves_stores]|done|done|].
  intros []; intros; by apply rollback_for_steadies.
Qed.

Lemma NewBtree_steadies B ns x : steady B x → steadies B x (NewBtree gen H no_items ns).
Proof.
  intros Hs. unfold NewBtree. apply wlp_bind, wlp_gets. destruct (HasBegun _) eqn:Hb; [|by apply wlp_fail].
  cbn [negb]. case_decide; [by apply wlp_fail|].
  apply steadies_handle; [apply moves_stores|done|done| |intros; by apply rollback_for_steadies].
  intros [|s ss] x' Hx' Hb'; [by apply createStoreInfo_steadies|]. destruct (IsEmpty s) eqn:He; [by apply createStoreInfo_steadies|].
  destruct (IsCompatible ns s); cbn [negb]; [|by apply rollback_for_steadies].
  destruct (opened _ _); [by apply wlp_ret|by apply newBtree_steadies].
Qed.

(** ** A transaction and its calls *)

Inductive call :=
| CBegin
| COpenBtree (name : string)
| CNewBtree (ns : Store)
| CPhase1Commit (fuel : nat)
| CPhase2Commit
| CRollback.

Definition perform (c : call) : X () :=
  match c with
  | CBegin => Begin H
  | COpenBtree name => OpenBtree H no_items name;; mret ()
  | CNewBtree ns => NewBtree gen H no_items ns;; mret ()
  | CPhase1Commit fuel => Phase1Commit gen H fuel;; mret ()
  | CPhase2Commit => Phase2Commit H
  | CRollback => Rollback H
  end.

(** What the B-trees do between the calls: it reaches the keys of the nodes no more
    than the fields of the transaction.  Between the two phases it must not log, as
    the adding of a value that is stored at once does: a rollback then takes the
    transaction for one that has not begun to commit. *)
Record works x x' : Prop := {
  wk_mode : t_mode (x_tx x') = t_mode (x_tx x);
  wk_phaseDone : t_phaseDone (x_tx x') = t_phaseDone (x_tx x);
  wk_committed : t_committed (x_tx x') = t_committed (x_tx x);
  wk_btrees : t_btreesBackend (x_tx x) = [] → t_btreesBackend (x_tx x') = [];
  wk_nodesKeys : t_nodesKeys (x_tx x') = t_nodesKeys (x_tx x);
  wk_held p : p ∈ held (x_locks x') → ours mine p → p ∈ held (x_locks x);
}.

Inductive reachable x0 : txstate → Prop :=
| reach_start : reachable x0 x0
| reach_call x c r x' : reachable x0 x → perform c x = (r, x') → r ≠ Panic → reachable x0 x'
| reach_work x x' : reachable x0 x → works x x' →
    (t_phaseDone (x_tx x) = 1%Z → t_committedState (x_tx x') = t_committedState (x_tx x)) → reachable x0 x'.

(** A transaction as [NewTwoPhaseCommitTransaction] makes it. *)
Definition created mode d id x : Prop := x_tx x = NewTwoPhaseCommitTransaction mode d id.

Lemma created_steady mode d id x : created mode d id x → steady (held (x_locks x)) x.
Proof.
  unfold created. intros Hx. assert (Hu : unlocked x) by (unfold unlocked; by rewrite Hx).
  split; rewrite ?Hx; try done. split; [by rewrite Hu; constructor|]. intros p Hp _. by left.
Qed.

Lemma call_steadies B c x : steady B x → steadies B x (perform c).
Proof.
  assert (Hdrop : ∀ {A} (m : X A), steadies B x m → steadies B x (m;; mret ())).
  { intros A m Hm. apply wlp_bind. eapply wlp_mono; [exact Hm| |done]. intros a x' Hx'. by apply wlp_ret. }
  intros Hs. destruct c; cbn [perform].
  - by apply Begin_steadies.
  - by apply Hdrop, OpenBtree_steadies.
  - by apply Hdrop, NewBtree_steadies.
  - by apply Hdrop, Phase1Commit_steadies.
  - by apply Phase2Commit_steadies.
  - by apply Rollback_steadies.
Qed.

Lemma works_steady B x x' : works x x' → (t_phaseDone (x_tx x) = 1%Z → t_committedState (x_tx x') = t_committedState (x_tx x)) →
  steady B x → steady B x'.
Proof.
  intros [Hm Hp Hc Hb Hk Hh] Hn [H1 [Hnd H2] H3 H4 H5 H6 H7].
  assert (Hu : unlocked x → unlocked x') by (unfold unlocked; by rewrite Hk).
  split; rewrite ?Hp, ?Hm; auto.
  - split; [by rewrite Hk|]. intros p Hp' Ho. unfold keys. rewrite Hk. apply H2; auto.
  - rewrite Hc. exact H3.
  - intros H1'. destruct (H5 H1') as [?|Hu']; [left; auto|right]. unfold undoable in *. by rewrite (Hn H1').
Qed.

Lemma reachable_steady mode d id x0 x : created mode d id x0 → reachable x0 x → steady (held (x_locks x0)) x.
Proof.
  intros Hc Hr. induction Hr as [|x c r x' _ IH Hrun Hp|x x' _ IH Hw Hn].
  - by apply (created_steady mode d id).
  - pose proof (call_steadies _ c x IH) as Hs. unfold steadies, wlp in Hs. rewrite Hrun in Hs. by destruct r.
  - by apply (works_steady _ x).
Qed.
End life.
