(* ===== verification/TwoPhaseClaims.v ===== *)
(** * What a transaction promises its callers

    The properties of the calls of a transaction, for any stores, locks, logs and
    B-trees that keep to their interfaces. *)

From stdpp Require Import gmap propset.
From S2P Require Import Prelude Wp Handle HashmapSpec Stores NodeRepo TwoPhase TwoPhaseCommit TwoPhaseProps TwoPhaseLife.

Section claims.
Context {RS RE BS BE Nd LS LE TS TE SS SE CS KI KE : Type} `{RO : Stores.Registry RS RE} `{BO : Stores.BlobStore BS BE} `{MD : MetaData Nd}.
Context `{LO : Locker LS LE} `{TO : TransactionLog TS TE} `{SO : StoreRepository SS SE}.
Context `{CO : NodeCache CS Nd} `{VO : Versioned Nd} `{EO : SectorErrors (repo_error RE BE)}.
Context `{SP : StoreSpecification}.
Context (gen : nat → UUID) (no_items : KI).
Context (H : @hooks RS RE BS BE Nd LS LE TS TE SS SE CS KI KE).
Local Abbreviation txstate := (@txstate RS BS Nd LS TS SS CS KI).
Local Abbreviation error := (tx_error RE BE LE TE SE KE).
Local Abbreviation X := (M txstate error).
Implicit Types (x : txstate).

(** ** Without the laws of the locks *)

Lemma Phase1Commit_yields fuel x : t_mode (x_tx x) = ForWriting → 331 ≤ fuel →
  wlp (Phase1Commit gen H fuel) x (λ r _, r ≠ None) (λ _ _, True).
Proof.
  intros Hm Hf. unfold Phase1Commit. apply wlp_bind, wlp_gets. destruct (HasBegun _); [|by apply wlp_fail]. cbn [negb].
  case_decide; [destruct (t_committed _); [by apply wlp_ret|by apply wlp_fail]|]. apply wlp_bind, wlp_modify. rewrite Hm.
  assert (Hy : yields (phase1Commit gen H fuel) (λ r, r ≠ None)).
  { unfold phase1Commit. apply yields_bind. intros has. destruct (negb has); [by apply yields_ret|].
    do 8 (apply yields_bind; intros ?). eapply yields_then; [apply loop_yields|].
    - apply start_bounded.
    - unfold turns_left, phase1CommitMaxRetryCount, phase1LockAcquireMaxRetryCount. cbn [pr_retryCount pr_lockRetryCount]. lia.
    - intros [l|] Hl; [|done]. apply yields_bind. intros _. by apply yields_ret. }
  apply wlp_handle. eapply wlp_mono; [apply Hy|intros r x' Hr; by apply wlp_ret|intros e x' _].
  apply wlp_bind, wlp_modify, wlp_bind. eapply wlp_mono; [apply yields_any|intros [] x'' _; by apply wlp_ret|done].
Qed.

(** The answer of a transaction that is done. *)
Definition refusal (c : call) x : outcome error () :=
  match c with
  | CBegin => Fail EDone
  | CRollback => if t_committed (x_tx x) then Fail ECommitted else Ret ()
  | _ => Fail ENotBegun
  end.

Lemma done_call c x : t_phaseDone (x_tx x) = 2%Z → perform gen no_items H c x = (refusal c x, x).
Proof.
  intros Hp. destruct c; cbn [perform refusal];
    unfold Begin, OpenBtree, NewBtree, Phase1Commit, Phase2Commit, Rollback, HasBegun, mbind, M_bind, tx, gets; rewrite Hp; cbn; try done.
  destruct (t_committed (x_tx x)); done.
Qed.

(** ** With them *)

Context `{LL : !LockerLaws LS LE} (mine : UUID → Prop) (HH : hooks_ok mine H).
Local Abbreviation releasing := (releasing mine).
Local Abbreviation steady := (steady mine).

(** The commit flag stays as it is. *)
Definition unmoved x x' : Prop := t_committed (x_tx x') = t_committed (x_tx x).
#[local] Instance unmoved_preorder : PreOrder unmoved.
Proof. split; [done|]. intros x y z. unfold unmoved. congruence. Qed.

Lemma moves_unmoved {A} (m : X A) : moves releasing m → moves unmoved m.
Proof. intros Hm. eapply moves_sub; [exact Hm|]. intros x x' Hr. exact (same_committed _ _ (rel_same _ _ _ Hr)). Qed.
Lemma keeping_unmoved {A} (m : X A) : moves (keeping mine) m → moves unmoved m.
Proof. intros Hm. by apply moves_unmoved, moves_keeping. Qed.

Lemma failed_unmoved p e : moves unmoved (failed H p e).
Proof.
  apply moves_handle; [apply _|by apply moves_unmoved, moves_rollback|intros []; by apply moves_fail, _|intros e'; by apply moves_fail, _].
Qed.
Lemma Rollback_unmoved : moves unmoved (Rollback H).
Proof.
  unfold Rollback. apply moves_bind; [apply _|by apply moves_gets, _|intros t].
  case_decide; [destruct (t_committed t); [by apply moves_fail, _|by apply moves_ret, _]|]. destruct (negb _); [by apply moves_fail, _|].
  apply moves_bind; [apply _|by apply moves_modify|intros []].
  apply moves_handle; [apply _|by apply moves_unmoved, moves_rollback|intros []; by apply moves_ret, _|intros e; by apply moves_fail, _].
Qed.
Lemma rollback_for_unmoved {A} (e : error) : moves unmoved (rollback_for H e : X A).
Proof. apply moves_handle; [apply _|apply Rollback_unmoved|intros []; by apply moves_fail, _|intros e'; by apply moves_fail, _]. Qed.
Lemma newBtree_unmoved s b : moves unmoved (newBtree H no_items s b).
Proof.
  unfold newBtree. destruct (IsEmpty s); [apply rollback_for_unmoved|]. apply moves_bind; [apply _|by apply moves_gets, _|intros bs].
  apply moves_bind; [apply _|by apply moves_modify|intros []]. by apply moves_ret, _.
Qed.

Lemma OpenBtree_unmoved name : moves unmoved (OpenBtree H no_items name).
Proof.
  unfold OpenBtree. apply moves_bind; [apply _|by apply moves_gets, _|intros t]. destruct (negb _); [by apply moves_fail, _|].
  case_decide; [by apply moves_fail, _|]. destruct (opened _ _); [by apply moves_ret, _|].
  apply moves_handle; [apply _|apply keeping_unmoved, moves_stores| |intros e; apply rollback_for_unmoved].
  intros [|s ss]; [apply rollback_for_unmoved|]. destruct (IsEmpty s) eqn:He; [apply rollback_for_unmoved|apply newBtree_unmoved].
Qed.

Lemma createStoreInfo_unmoved ns : moves unmoved (createStoreInfo gen H no_items ns).
Proof.
  unfold createStoreInfo. apply moves_bind; [apply _|by apply moves_gets, _|intros now].
  apply moves_bind; [apply _|case_decide; [apply keeping_unmoved, moves_world|by apply moves_ret, _]|intros id].
  apply moves_handle; [apply _|apply keeping_unmoved, moves_log; unfold createStore, finalizeCommit; lia| |intros e; apply rollback_for_unmoved].
  intros []. apply moves_handle; [apply _|apply keeping_unmoved, moves_stores|intros []; apply newBtree_unmoved|intros e].
  apply moves_bind; [apply _|apply keeping_unmoved, moves_ignore; [apply _|apply moves_stores]|intros []; apply rollback_for_unmoved].
Qed.

Lemma NewBtree_unmoved ns : moves unmoved (NewBtree gen H no_items ns).
Proof.
  unfold NewBtree. apply moves_bind; [apply _|by apply moves_gets, _|intros t]. destruct (negb _); [by apply moves_fail, _|].
  case_decide; [by apply moves_fail, _|].
  apply moves_handle; [apply _|apply keeping_unmoved, moves_stores| |intros e; apply rollback_for_unmoved].
  intros [|s ss]; [apply createStoreInfo_unmoved|]. destruct (IsEmpty s) eqn:He; [apply createStoreInfo_unmoved|].
  destruct (negb _); [apply rollback_for_unmoved|]. destruct (opened _ _); [by apply moves_ret, _|apply newBtree_unmoved].
Qed.

Lemma Phase1Commit_unmoved B fuel x : steady B x → wlp (Phase1Commit gen H fuel) x (λ _ x', unmoved x x') (λ _ x', unmoved x x').
Proof.
  intros Hs. unfold Phase1Commit. apply wlp_bind, wlp_gets. destruct (HasBegun _) eqn:Hb; [|by apply wlp_fail]. cbn [negb].
  case_decide; [destruct (t_committed _); [by apply wlp_ret|by apply wlp_fail]|]. apply wlp_bind, wlp_modify.
  destruct (t_mode (x_tx x)) eqn:Hm; [by apply wlp_ret| |].
  - apply wlp_handle. eapply wlp_mono; [apply (wlp_phase1Commit gen mine H HH fuel (with_phase 1 x)), Hs| |].
    + intros r x' [Hr _]. apply wlp_ret. exact (same_committed _ _ (rel_same _ _ _ Hr)).
    + intros e x' [Hr _]. pose proof (same_committed _ _ (rel_same _ _ _ Hr)) as Hc. apply wlp_bind, wlp_modify, wlp_bind.
      eapply wlp_mono; [apply failed_unmoved|intros [] x'' Hu; apply wlp_ret|intros e' x'' Hu]; unfold unmoved in *; cbn in *; congruence.
  - eapply wlp_mono; [apply keeping_unmoved, (moves_reader mine H HH)|done|done].
Qed.

Lemma calls_unmoved B c x : steady B x → c ≠ CPhase2Commit → wlp (perform gen no_items H c) x (λ _ x', unmoved x x') (λ _ x', unmoved x x').
Proof.
  assert (Hdrop : ∀ {A} (m : X A), wlp m x (λ _ x', unmoved x x') (λ _ x', unmoved x x') →
    wlp (m;; mret ()) x (λ _ x', unmoved x x') (λ _ x', unmoved x x')).
  { intros A m Hm. apply wlp_bind. eapply wlp_mono; [exact Hm| |done]. intros a x' Hx'. by apply wlp_ret. }
  intros Hs Hc. destruct c; cbn [perform]; [| | | |done|apply Rollback_unmoved].
  - destruct (decide (t_phaseDone (x_tx x) = (-1)%Z)) as [Hp|Hp]; [unfold wlp; by rewrite (Begin_run mine H B x Hs Hp)|].
    unfold Begin. apply wlp_bind, wlp_gets. destruct (HasBegun _) eqn:Hb; [by apply wlp_fail|].
    case_decide as H2; [by apply wlp_fail|]. pose proof (st_phase _ _ _ Hs). unfold HasBegun in Hb. lia.
  - apply Hdrop, OpenBtree_unmoved.
  - apply Hdrop, NewBtree_unmoved.
  - by apply Hdrop, (Phase1Commit_unmoved B).
Qed.

Lemma unlock_unmoved : moves unmoved (unlockNodesKeys : X ()).
Proof.
  apply moves_unmoved. intros x. eapply wlp_mono; [apply (wlp_unlockNodesKeys mine)|intros [] x' [Hr _]; exact Hr|done].
Qed.

Lemma loosely_unmoved {A} (m : X A) : moves unmoved m → moves unmoved (ignore m).
Proof. intros Hm. apply moves_ignore; [apply _|exact Hm]. Qed.

Lemma log_unmoved f p : moves unmoved (log f p : X ()).
Proof.
  unfold log. apply moves_bind; [apply _|by apply moves_modify|intros []]. case_decide; [by apply moves_ret, _|].
  apply moves_bind; [apply _|by apply moves_gets, _|intros tid]. apply keeping_unmoved, moves_log_calls.
Qed.

Lemma cleanup_unmoved : moves unmoved (cleanup H).
Proof.
  unfold cleanup. apply moves_bind; [apply _|apply log_unmoved|intros []].
  apply moves_bind; [apply _|by apply moves_gets, _|intros p]. destruct (getToBeObsoleteEntries p) as [ids blobs].
  apply moves_bind; [apply _|apply loosely_unmoved, keeping_unmoved, moves_deleteObsoleteEntries|intros []].
  apply moves_bind; [apply _|apply log_unmoved|intros []].
  apply moves_bind; [apply _|by apply keeping_unmoved, moves_getObsolete|intros values].
  apply moves_bind; [apply _|by apply loosely_unmoved, keeping_unmoved, moves_deleteTrackedItemsValues|intros []].
  apply loosely_unmoved, keeping_unmoved, moves_removeLogs.
Qed.

Lemma phase2Commit_unmoved : moves unmoved (phase2Commit H).
Proof.
  unfold phase2Commit. apply moves_bind; [apply _|by apply moves_gets, _|intros p].
  apply moves_bind; [apply _|by apply keeping_unmoved, moves_getObsolete|intros values].
  destruct (getToBeObsoleteEntries p) as [ids blobs]. apply moves_bind; [apply _| |intros []].
  { apply moves_handle; [apply _|apply log_unmoved|intros []; by apply moves_ret, _|intros e].
    apply moves_bind; [apply _|apply unlock_unmoved|intros []; by apply moves_fail, _]. }
  apply moves_bind; [apply _| |intros []].
  { case_decide; [by apply moves_ret, _|]. apply moves_bind; [apply _|apply keeping_unmoved, moves_world|intros []].
    apply moves_bind; [apply _|by apply moves_gets, _|intros tid]. apply loosely_unmoved, keeping_unmoved, moves_log_calls. }
  apply moves_bind; [apply _|apply loosely_unmoved, keeping_unmoved, ok_replicate, HH|intros []].
  apply moves_bind; [apply _|apply keeping_unmoved, moves_populateMru|intros []].
  apply moves_bind; [apply _|apply unlock_unmoved|intros []].
  apply moves_bind; [apply _|by apply loosely_unmoved, keeping_unmoved, moves_unlockTrackedItems|intros []].
  apply moves_bind; [apply _|apply loosely_unmoved, cleanup_unmoved|intros []].
  apply loosely_unmoved, keeping_unmoved, ok_hooks, HH.
Qed.

Lemma phase2_failed_unmoved e : moves unmoved (phase2_failed H e).
Proof.
  unfold phase2_failed, nodesKeysExist. apply moves_bind; [apply _|by apply moves_gets, _|intros exist].
  apply moves_bind; [apply _|by apply moves_gets, _|intros tid]. apply moves_bind; [apply _| |intros e'; apply failed_unmoved].
  destruct exist.
  - apply moves_bind; [apply _| |intros e']. 2: { apply moves_bind; [apply _|apply unlock_unmoved|intros []; by apply moves_ret, _]. }
    apply moves_handle; [apply _|apply keeping_unmoved, moves_priorityRollback|intros []; by apply moves_ret, _|intros p1; by apply moves_ret, _].
  - apply moves_bind; [apply _|apply loosely_unmoved, keeping_unmoved, moves_log_calls|intros []; by apply moves_ret, _].
Qed.

Lemma failed_fails phase e x : wlp (failed H phase e) x (λ _ _, False) (λ _ _, True).
Proof. apply wlp_handle. eapply wlp_mono; [apply yields_any| |]; intros a x' _; by apply wlp_fail. Qed.

Lemma phase2_failed_fails e x : wlp (phase2_failed H e) x (λ _ _, False) (λ _ _, True).
Proof.
  unfold phase2_failed, nodesKeysExist. do 2 (apply wlp_bind, wlp_gets). apply wlp_bind.
  eapply wlp_mono; [apply yields_any|intros e' x' _; apply failed_fails|done].
Qed.

(** The commit flag after phase 2. *)
Lemma Phase2Commit_committed x : t_committed (x_tx x) = false → t_phaseDone (x_tx x) ≠ 2%Z →
  wlp (Phase2Commit H) x (λ _ x', t_committed (x_tx x') = true) (λ _ x', t_committed (x_tx x') = false).
Proof.
  intros Hc Hp. unfold Phase2Commit. apply wlp_bind, wlp_gets. destruct (negb _); [by apply wlp_fail|]. case_decide; [by apply wlp_fail|].
  rewrite decide_False by done. apply wlp_bind, wlp_modify. destruct (t_mode (x_tx x)); [by apply wlp_modify| |by apply wlp_modify].
  apply wlp_handle. eapply wlp_mono; [apply phase2Commit_unmoved|intros [] x' _; by apply wlp_modify|intros e x' Hu].
  eapply wlp_mono; [apply (wlp_conj _ _ _ _ _ _ (phase2_failed_unmoved e x') (phase2_failed_fails e x'))|by intros [] x'' [_ []]|].
  intros e' x'' [Hu' _]. unfold unmoved in *. cbn in *. congruence.
Qed.

(** ** The claims *)

Section started.
Context (mode : TransactionMode) (commitMaxDuration : Z) (id : UUID) (x0 : txstate).
Context (Hstart : created mode commitMaxDuration id x0).
Local Abbreviation reachable := (reachable gen mine no_items H x0).


(** C3: when phase 1 of a writer that tracks items succeeds, a node has a key exactly
    if one of the opened B-trees updates or removes it, as their caches of nodes stand
    in the end, however often they were fetched and merged again; and the locks of all
    keys are held.  The callbacks of the B-trees keep to [hooks_ok] and, while nodes
    are staged, leave the caches of nodes as they are. *)
Theorem phase1_holds_locks (HS : hooks_still H) fuel x x' : reachable x → HasBegun (x_tx x) = true → t_mode (x_tx x) = ForWriting → tracks H x = true →
  Phase1Commit gen H fuel x = (Ret (Some ()), x') →
  (∀ k, k ∈ t_nodesKeys (x_tx x') → (lk_Key k, lk_LockID k) ∈ held (x_locks x')) ∧
  ∀ nid, NodeKey nid ∈ lk_Key <$> t_nodesKeys (x_tx x') ↔
    ∃ b id c, b ∈ t_btreesBackend (x_tx x') ∧ bb_localCache b !! id = Some c ∧ GetID (cn_node c) = nid ∧
      (cn_action c = updateAction ∨ cn_action c = removeAction).
Proof using HH Hstart.
  intros Hr Hb Hm Ht Hrun. pose proof (reachable_steady gen mine no_items H HH _ _ _ _ _ Hstart Hr) as Hs.
  assert (Hw : wlp (Phase1Commit gen H fuel) x (λ r x', r = Some () → holds_nodes x' ∧
    ∀ nid, NodeKey nid ∈ lk_Key <$> t_nodesKeys (x_tx x') ↔ wants x' nid) (λ _ _, True)).
  { unfold Phase1Commit. apply wlp_bind, wlp_gets. rewrite Hb. cbn [negb]. apply begun_phase in Hb. rewrite decide_False by lia.
    apply wlp_bind, wlp_modify. rewrite Hm. apply wlp_handle.
    assert (Htidy : tidy (with_phase 1 x)) by apply (st_settled _ _ _ Hs).
    eapply wlp_mono; [apply (wlp_conj _ _ _ _ _ _ (wlp_phase1Commit gen mine H HH fuel (with_phase 1 x) Htidy)
      (attains_phase1Commit gen mine H HH HS fuel (with_phase 1 x) Htidy Ht))| |].
    - intros r x1 [(_ & Ht1 & _) Hn]. apply wlp_ret. intros Hr1. split; [by apply Ht1|by apply Hn].
    - intros e x1 _. apply wlp_bind, wlp_modify, wlp_bind. eapply wlp_mono; [apply failed_fails|by intros [] ? []|done]. }
  unfold wlp in Hw. rewrite Hrun in Hw. destruct (Hw eq_refl) as [[Hheld _] Hcov]. split.
  - intros k Hk. apply Hheld, entries_elem. by exists k.
  - intros nid. rewrite Hcov. unfold wants, outline. split.
    + intros (o & k & a & (b & -> & Hin)%list_elem_of_fmap & Hid & Ha). rewrite lookup_fmap in Hid.
      apply fmap_Some in Hid as (c & Hid & [= -> ->]). by exists b, k, c.
    + intros (b & k & c & Hin & Hid & <- & Ha). eexists _, k, _. split; [by apply list_elem_of_fmap_2|].
      rewrite lookup_fmap, Hid. by split.
Qed.

(** A transaction becomes committed by a call exactly when the call is a
    Phase2Commit that succeeds. *)
Theorem committed_by_phase2 c x r x' : reachable x → t_committed (x_tx x) = false → perform gen no_items H c x = (r, x') → r ≠ Panic →
  t_committed (x_tx x') = true ↔ c = CPhase2Commit ∧ r = Ret ().
Proof using HH Hstart.
  intros Hr Hc Hrun Hnp. pose proof (reachable_steady gen mine no_items H HH _ _ _ _ _ Hstart Hr) as Hs.
  assert (Hdec : c = CPhase2Commit ∨ c ≠ CPhase2Commit) by (destruct c; auto). destruct Hdec as [->|Hne].
  - cbn [perform] in Hrun. destruct (decide (t_phaseDone (x_tx x) = 2%Z)) as [Hp|Hp].
    + pose proof (done_call CPhase2Commit x Hp) as Hd. cbn [perform refusal] in Hd. rewrite Hd in Hrun. injection Hrun as <- <-.
      split; [congruence|by intros [_ ?]].
    + pose proof (Phase2Commit_committed x Hc Hp) as Hw. unfold wlp in Hw. rewrite Hrun in Hw.
      destruct r as [[]|e|]; [split; done| |done]. split; [congruence|by intros [_ ?]].
  - pose proof (calls_unmoved _ c x Hs Hne) as Hw. unfold wlp, unmoved in Hw. rewrite Hrun in Hw.
    split; [|by intros [? _]]. destruct r; congruence.
Qed.

(** A transaction that has not begun has no B-trees, so that its Begin only opens
    it: the clean-up of other transactions that Begin calls is never run. *)
Theorem Begin_only_opens x : reachable x → t_phaseDone (x_tx x) = (-1)%Z →
  Begin H x = (Ret (), set_tx (set_phaseDone 0 (x_tx x)) x).
Proof using HH Hstart.
  intros Hr Hp. pose proof (reachable_steady gen mine no_items H HH _ _ _ _ _ Hstart Hr) as Hs. exact (Begin_run mine H _ x Hs Hp).
Qed.
End started.

(** C16: phase 1 of a writer ends: 331 turns of its loop are enough, however the
    locks, the stores and the B-trees behave. *)
Theorem phase1_terminates fuel x : t_mode (x_tx x) = ForWriting → 331 ≤ fuel → (Phase1Commit gen H fuel x).1 ≠ Ret None.
Proof.
  intros Hm Hf. pose proof (Phase1Commit_yields fuel x Hm Hf) as Hw. unfold wlp in Hw.
  destruct (Phase1Commit gen H fuel x) as [[r|e|] x']; cbn; congruence.
Qed.

(** A call of a transaction that is done changes nothing; a second commit of a
    committed transaction is refused, and rolling back one that was not committed
    is accepted again. *)
Theorem done_is_final c x : t_phaseDone (x_tx x) = 2%Z → perform gen no_items H c x = (refusal c x, x).
Proof. apply done_call. Qed.
End claims.
