(* ===== verification/TwoPhaseInstance.v ===== *)
(** * A transaction over the instances

    The stores of NodeInstance, the in-memory locks of MemLocks, a log and a list of
    stores, and one B-tree whose two nodes are updated.  The claims about transactions
    are applied to its commit. *)

From Stdlib Require Import Ascii.
From stdpp Require Import gmap propset pretty.
From S2P Require Import Prelude Wp Handle Locks Hashmap HashmapSpec Stores LinkedList Cache HashmapProps Registry BlobStore NodeRepo NodeInstance TwoPhase TwoPhaseCommit TwoPhaseProps MemLocks TwoPhaseLife TwoPhaseClaims.

(** ** Names, logs and stores *)

Definition ex_name (n : lock_name) : string :=
  match n with NodeKey id => String "n"%char (pretty id) | NamedKey s => String "s"%char s end.
#[export] Instance ex_name_inj : Inj (=) (=) ex_name.
Proof. intros [id1|s1] [id2|s2]; cbn; try done; intros [= He]; [by apply (inj pretty) in He as ->|by subst]. Qed.

#[export] Instance ex_Locker : Locker lock_table Empty_set := memory_Locker 1000 ex_name.
#[export] Instance ex_LockerLaws : LockerLaws lock_table Empty_set := memory_laws 1000 ex_name.

(** The steps that were logged, the handles of the priority logs, and how many more steps can be
    logged before the process dies. *)
Record ex_logs := mkLogs {
  lg_steps : list (UUID * (nat * payload));
  lg_priority : gmap UUID (list (RegistryPayload Handle));
  lg_dies : option nat;
}.
Definition ex_tlog_Add (tid : UUID) (f : nat) (p : payload) : M ex_logs Empty_set () := λ s,
  match lg_dies s with
  | Some O => (Panic, s)
  | d => (Ret (), mkLogs (lg_steps s ++ [(tid, (f, p))]) (lg_priority s) (pred <$> d))
  end.
#[export] Instance ex_TransactionLog : TransactionLog ex_logs Empty_set := {
  tlog_Add := ex_tlog_Add;
  tlog_Remove tid := λ s, (Ret (), mkLogs (filter (λ e, e.1 ≠ tid) (lg_steps s)) (lg_priority s) (lg_dies s));
  plog_IsEnabled s := true;
  plog_Add tid hs := λ s, (Ret (), mkLogs (lg_steps s) (<[tid := hs]> (lg_priority s)) (lg_dies s));
  plog_Remove tid := λ s, (Ret (), mkLogs (lg_steps s) (delete tid (lg_priority s)) (lg_dies s));
  plog_Get tid := λ s, (Ret (lg_priority s !! tid), s);
}.

Definition ex_apply (stores : list Store) (s : Store) : list Store :=
  (λ s', if decide (s_Name s' = s_Name s)
         then mkStore (s_info s') (s_Name s') (s_RootNodeID s') (s_Count s' + s_CountDelta s) 0 (s_Timestamp s) (s_IsValueDataGloballyCached s')
         else s') <$> stores.
#[export] Instance ex_StoreRepository : StoreRepository (list Store) Empty_set := {
  srepo_Update ss := λ l, (Ret ss, foldl ex_apply l ss);
  srepo_Remove name := λ l, (Ret (), filter (λ s, s_Name s ≠ name) l);
  srepo_Get name := λ l, (Ret (filter (λ s, s_Name s = name) l), l);
  srepo_Add s := λ l, (Ret (), l ++ [s]);
}.
#[export] Instance ex_StoreSpecification : StoreSpecification := {
  IsEmpty s := bool_decide (s_Name s = EmptyString);
  IsCompatible s1 s2 := bool_decide (si_RegistryTable (s_info s1) = si_RegistryTable (s_info s2));
}.

#[export] Instance ex_NodeCache : NodeCache (gmap UUID ex_node) ex_node := {
  mru_SetNode id n c := <[id := n]> c;
  mru_DeleteNodes ids c := foldl (λ c id, delete id c) c ids;
}.
#[export] Instance ex_Versioned : Versioned ex_node := { SetVersion v n := mkNode (en_id n) v (en_bytes n) }.
#[export] Instance ex_SectorErrors : SectorErrors (repo_error registry_error io_error) := { as_sop_Error e := None }.

(** ** The B-tree: whether it tracks items *)

Local Abbreviation txs := (@txstate registryOnDisk filesystem ex_node lock_table ex_logs (list Store) (gmap UUID ex_node) bool).
Local Abbreviation hks := (@hooks registryOnDisk registry_error filesystem io_error ex_node lock_table Empty_set ex_logs Empty_set (list Store) Empty_set (gmap UUID ex_node) bool Empty_set).

Definition ex_sleep (x : txs) : txs :=
  let w := x_world x in
  set_world (mkWorld (w_registry w) (w_blobStore w) (w_l2nodes w) (w_setfails w) (w_deletefails w) (w_now w + 20000000) (w_drawn w)) x.

Definition ex_hooks : hks := {|
  refetchAndMerge i := mret ();
  hasTrackedItems_of b := bb_items b;
  checkTrackedItems_of i := mret ();
  lockTrackedItems_of i d := mret ();
  unlockTrackedItems_of i := mret ();
  commitTrackedItemsValues_of i := mret ();
  getForRollbackTrackedItemsValues_of i := mret None;
  getObsoleteTrackedItemsValues_of i := mret None;
  deleteCachedValue id := mret ();
  RandomSleep := modify ex_sleep;
  Replicate := mret ();
  onCommitHooks := mret ();
  idle_services := mret ();
  range n c := (map_to_list c).*2;
|}.

Definition ex_mine (id : UUID) : Prop := True.

Lemma ex_hooks_ok : hooks_ok ex_mine ex_hooks.
Proof.
  split; intros; cbn; try (by apply moves_ret, _). apply moves_modify. intros x. by apply keeping_other.
Qed.

(** ** The run *)

Definition ex_btree_store : Store := mkStore ex_store "s" (ex_id 1) 2 0 0 false.
(** Another transaction holds the lock of a third node. *)
Definition ex_other_lock : string * lockItem :=
  (FormatLockKey (ex_name (NodeKey (ex_id 3))), mkLockItem 77 (1700000000000000000 + 10 ^ 12)).
Definition ex_start : txs :=
  mkTx (NewTwoPhaseCommitTransaction ForWriting 0 9000) ex_world (mkTable {[ex_other_lock.1 := ex_other_lock.2]} 1700000000000000000)
    (mkLogs [] ∅ None) [ex_btree_store] ∅ false 0.

Local Abbreviation ex_perform := (perform ex_gen false ex_hooks).
Definition ex_begun : txs := (ex_perform CBegin ex_start).2.
Definition ex_open : txs := (ex_perform (COpenBtree "s") ex_begun).2.

(** The B-tree updates its two nodes. *)
Definition ex_cached : gmap UUID cachedNode :=
  {[ex_id 1 := mkCachedNode (mkNode (ex_id 1) 1 [9; 9]%Z) updateAction; ex_id 2 := mkCachedNode (mkNode (ex_id 2) 1 [8; 8]%Z) updateAction]}.
Definition ex_update (bs : list (@btreeBackend ex_node bool)) : list (@btreeBackend ex_node bool) :=
  (λ b, mkBackend (bb_storeInfo b) ex_cached (bb_count b) (bb_created b) true) <$> bs.
Definition ex_worked : txs := set_tx (set_btrees (ex_update (t_btreesBackend (x_tx ex_open))) (x_tx ex_open)) ex_open.
Definition ex_phase1 : txs := (ex_perform (CPhase1Commit 331) ex_worked).2.
Definition ex_phase2 : txs := (ex_perform CPhase2Commit ex_phase1).2.

Lemma ex_begun_ok : (ex_perform CBegin ex_start).1 = Ret ().
Proof. vm_compute. reflexivity. Qed.
Lemma ex_open_ok : (ex_perform (COpenBtree "s") ex_begun).1 = Ret ().
Proof. vm_compute. reflexivity. Qed.
Lemma ex_phase1_ok : (ex_perform (CPhase1Commit 331) ex_worked).1 = Ret ().
Proof. vm_compute. reflexivity. Qed.
Lemma ex_phase2_ok : (ex_perform CPhase2Commit ex_phase1).1 = Ret ().
Proof. vm_compute. reflexivity. Qed.

(** ** Reachability *)

Local Abbreviation ex_reachable := (TwoPhaseLife.reachable ex_gen ex_mine false ex_hooks ex_start).

Lemma ex_reach_call x c : ex_reachable x → (ex_perform c x).1 = Ret () → ex_reachable (ex_perform c x).2.
Proof.
  intros Hr He. apply (reach_call _ _ _ _ _ x c (Ret ())); [exact Hr|exact (run_Ret _ _ _ He)|discriminate].
Qed.

Lemma ex_worked_reachable : ex_reachable ex_worked.
Proof.
  apply (reach_work _ _ _ _ _ ex_open).
  - exact (ex_reach_call _ _ (ex_reach_call _ _ (reach_start _ _ _ _ _) ex_begun_ok) ex_open_ok).
  - unfold ex_worked. generalize ex_open. intros x. split; cbn; try done. by intros ->.
  - by vm_compute.
Qed.
Lemma ex_phase1_reachable : ex_reachable ex_phase1.
Proof. exact (ex_reach_call _ _ ex_worked_reachable ex_phase1_ok). Qed.

Lemma ex_created : created ForWriting 0 9000 ex_start.
Proof. reflexivity. Qed.

(** The fields of the states that the witnesses look at. *)
Definition ex_phases (x : txs) : Z * bool * list UUID :=
  (t_phaseDone (x_tx x), t_committed (x_tx x), (λ k, match lk_Key k with NodeKey id => id | NamedKey _ => NilUUID end) <$> t_nodesKeys (x_tx x)).

Lemma ex_phases_inv x p c ks : ex_phases x = (p, c, ks) → t_phaseDone (x_tx x) = p ∧ t_committed (x_tx x) = c.
Proof. unfold ex_phases. by intros [= -> -> _]. Qed.

Lemma ex_phase1_fields : ex_phases ex_phase1 = (1%Z, false, [ex_id 1; ex_id 2]).
Proof. vm_compute. reflexivity. Qed.
Lemma ex_phase2_fields : ex_phases ex_phase2 = (2%Z, true, []).
Proof. vm_compute. reflexivity. Qed.
Lemma ex_phase1_phase : t_phaseDone (x_tx ex_phase1) = 1%Z.
Proof. exact (proj1 (ex_phases_inv _ _ _ _ ex_phase1_fields)). Qed.
Lemma ex_phase2_phase : t_phaseDone (x_tx ex_phase2) = 2%Z.
Proof. exact (proj1 (ex_phases_inv _ _ _ _ ex_phase2_fields)). Qed.

(** ** Witnesses *)


Lemma ex_hooks_still : hooks_still ex_hooks.
Proof.
  split; [|intros; cbn; by apply moves_ret, _..|].
  - intros n m c. cbn. rewrite list_elem_of_fmap. split.
    + intros ([id c'] & -> & Hin%elem_of_map_to_list). by exists id.
    + intros [id Hid]. exists (id, c). split; [done|]. by apply elem_of_map_to_list.
  - cbn. apply moves_modify. by intros x.
Qed.

Lemma phase1_holds_locks_witness :
  (∀ k, k ∈ t_nodesKeys (x_tx ex_phase1) → (lk_Key k, lk_LockID k) ∈ held (x_locks ex_phase1)) ∧
  ∀ nid, NodeKey nid ∈ lk_Key <$> t_nodesKeys (x_tx ex_phase1) ↔
    ∃ b id c, b ∈ t_btreesBackend (x_tx ex_phase1) ∧ bb_localCache b !! id = Some c ∧ GetID (cn_node c) = nid ∧
      (cn_action c = updateAction ∨ cn_action c = removeAction).
Proof.
  assert (He : (Phase1Commit ex_gen ex_hooks 331 ex_worked).1 = Ret (Some ())) by (vm_compute; reflexivity).
  assert (Hb : HasBegun (x_tx ex_worked) = true) by (vm_compute; reflexivity).
  assert (Hm : t_mode (x_tx ex_worked) = ForWriting) by (vm_compute; reflexivity).
  assert (Ht : tracks ex_hooks ex_worked = true) by (vm_compute; reflexivity).
  assert (Hx : ex_phase1 = (Phase1Commit ex_gen ex_hooks 331 ex_worked).2).
  { unfold ex_phase1. cbn [perform]. unfold mbind, M_bind. destruct (Phase1Commit _ _ _ _) as [[r|e|] x']; reflexivity. }
  rewrite Hx. pose proof (run_Ret _ _ _ He) as Hrun.
  exact (phase1_holds_locks ex_gen false ex_hooks ex_mine ex_hooks_ok ForWriting 0 9000 ex_start ex_created ex_hooks_still 331 ex_worked _
    ex_worked_reachable Hb Hm Ht Hrun).
Defined.

Lemma committed_by_phase2_witness : t_committed (x_tx ex_phase2) = true.
Proof.
  assert (Hc : t_committed (x_tx ex_phase1) = false) by exact (proj2 (ex_phases_inv _ _ _ _ ex_phase1_fields)).
  assert (Hrun : ex_perform CPhase2Commit ex_phase1 = (Ret (), ex_phase2)) by exact (run_Ret _ _ _ ex_phase2_ok).
  apply (committed_by_phase2 ex_gen false ex_hooks ex_mine ex_hooks_ok ForWriting 0 9000 ex_start ex_created CPhase2Commit ex_phase1 (Ret ()) ex_phase2
    ex_phase1_reachable Hc Hrun ltac:(discriminate)). split; reflexivity.
Defined.

Lemma Begin_only_opens_witness : Begin ex_hooks ex_start = (Ret (), set_tx (set_phaseDone 0 (x_tx ex_start)) ex_start).
Proof.
  exact (Begin_only_opens ex_gen false ex_hooks ex_mine ex_hooks_ok ForWriting 0 9000 ex_start ex_created ex_start
    (reach_start _ _ _ _ _) eq_refl).
Defined.

Lemma phase1_terminates_witness : (Phase1Commit ex_gen ex_hooks 331 ex_worked).1 ≠ Ret None.
Proof.
  assert (Hm : t_mode (x_tx ex_worked) = ForWriting) by (vm_compute; reflexivity).
  exact (phase1_terminates ex_gen ex_hooks 331 ex_worked Hm (le_n 331)).
Defined.

Lemma done_is_final_witness : ex_perform CPhase2Commit ex_phase2 = (Fail ENotBegun, ex_phase2).
Proof. exact (done_is_final ex_gen false ex_hooks CPhase2Commit ex_phase2 ex_phase2_phase). Defined.

(** ** A value that is stored at once between the two phases

    A B-tree that adds such an item between the phases logs it.  A rollback then takes
    the transaction for one that has not begun to commit: it returns without giving
    back the locks of the nodes, and the transaction is done. *)
Definition ex_late : txs := (log addActivelyPersistedItem NoPayload ex_phase1 : Prelude.outcome (tx_error registry_error io_error Empty_set Empty_set Empty_set Empty_set) () * txs).2.
Definition ex_locked (x : txs) : bool :=
  match (locks_IsLocked (t_nodesKeys (x_tx ex_phase1)) (x_locks x) : Prelude.outcome Empty_set bool * _).1 with Ret b => b | _ => false end.

Example late_value_keeps_locks :
  (ex_perform CRollback ex_phase1).1 = Ret () ∧ ex_locked (ex_perform CRollback ex_phase1).2 = false ∧
  (ex_perform CRollback ex_late).1 = Ret () ∧ t_phaseDone (x_tx (ex_perform CRollback ex_late).2) = 2%Z ∧
  ex_locked (ex_perform CRollback ex_late).2 = true.
Proof. vm_compute. by split_and!. Qed.
