(* ===== verification/TxLogFindings.v ===== *)
(** * Runs of the recovery

    A process dies in the middle of a commit, over the instances of TwoPhaseInstance,
    and another transaction recovers from its logs. *)

From stdpp Require Import gmap propset pretty.
From S2P Require Import Prelude Wp Handle Locks Hashmap HashmapSpec Stores LinkedList Cache HashmapProps Registry BlobStore NodeRepo NodeCommit NodeProps NodeInstance TwoPhase TwoPhaseCommit TxLog TxLogProps TwoPhaseProps MemLocks TwoPhaseLife TwoPhaseClaims TwoPhaseInstance.

(** ** The in-memory cache tells owners

    Its [GetEx] reads another map than the one of the locks. *)
#[export] Instance ex_LockOwners : LockOwners lock_table Empty_set := {
  owners_DualLock d ks := λ t, let '(r, t') := run_prog 1000 (Locks.DualLock d (key_of ex_name <$> ks)) t in (Ret (r.1.1, r.1.2), t');
  owners_GetEx d k := λ t, (Ret None, t);
  owners_IsLockedByOthers ns := λ t, let '(r, t') := run_prog 1000 (Locks.IsLockedByOthers ((λ n, FormatLockKey (ex_name n)) <$> ns)) t in (Ret r, t');
  owners_IsLockedByOthersTTL d ns := λ t, (Ret true, t);
}.

Local Abbreviation txs := (@txstate registryOnDisk filesystem ex_node lock_table ex_logs (list Store) (gmap UUID ex_node) bool).
Local Abbreviation ex_error := (tx_error registry_error io_error Empty_set Empty_set Empty_set Empty_set).
Local Abbreviation X := (M txs ex_error).
Local Abbreviation ex_perform := (perform ex_gen false ex_hooks).

(** A transaction with a B-tree, in the state that another one left. *)
Definition ex_recoverer (x : txs) : txs :=
  set_tx (set_btrees [mkBackend ex_btree_store ∅ 2 false false] (NewTwoPhaseCommitTransaction ForWriting 0 9100)) x.
Definition ex_logged (tid : UUID) (x : txs) : list (nat * payload) := (filter (λ e, e.1 = tid) (lg_steps (x_log x))).*2.
Definition ex_dying (n : nat) (x : txs) : txs := set_log (mkLogs (lg_steps (x_log x)) (lg_priority (x_log x)) (Some n)) x.
Definition ex_recover (tid : UUID) (logs : list (nat * payload)) : X () := rollback_logs ex_hooks tid logs.

(** The node that a reader gets: its bytes, if the registry has it and its blob is there. *)
Definition ex_read (id : UUID) : X (option (list Z)) :=
  hs ← on_world (on_registry (registry_Get [mkRegistryPayload "t" "b" 0 false [id]]));
  match all_ids hs with
  | h :: _ => handle (on_world (on_blobStore (blobStore_GetOne "b" (GetActiveID h)))) (λ b, mret (Some b)) (λ _, mret None)
  | [] => fail ENotFound
  end.
Definition ex_read_nodes (x : txs) : list (Prelude.outcome ex_error (option (list Z))) :=
  (λ id, (ex_read id x).1) <$> [ex_id 1; ex_id 2].

(** The process dies after it wrote the turned handles and removed the priority log, before it logs that obsolete
    entries are deleted. *)
Definition ex_dead : txs := (ex_perform CPhase2Commit (ex_dying 1 ex_phase1)).2.

Example switched_commit_undone :
  (ex_perform CPhase2Commit (ex_dying 1 ex_phase1)).1 = Panic ∧
  ex_read_nodes ex_dead = [Ret (Some [9; 9]); Ret (Some [8; 8])]%Z ∧
  (ex_recover 9000 (ex_logged 9000 ex_dead) (ex_recoverer ex_dead)).1 = Ret () ∧
  ex_read_nodes (ex_recover 9000 (ex_logged 9000 ex_dead) (ex_recoverer ex_dead)).2 = [Ret None; Ret None].
Proof. vm_compute. repeat split. Qed.

(** ** A new root *)

Definition ex_root : list (StoreInfo * list ex_node) := [(ex_store, [mkNode (ex_id 5) 0 [4; 4]%Z])].
Definition ex_commit_root : X (bool * list (RegistryPayload Handle)) := on_world (commitNewRootNodes ex_root).
Definition ex_root_logs : list (nat * payload) :=
  [(commitNewRootNodes_state, NodesPayload (convertToRegistryRequestPayload ex_root) (convertToBlobRequestPayload ex_root));
   (areFetchedItemsIntact_state, NoPayload)].
Definition ex_root_recovered : txs := (ex_recover 9000 ex_root_logs (ex_recoverer (ex_commit_root ex_start).2)).2.

(** The blob of a new root is removed by the recovery, its handle stays in the registry: the recovery asks for the
    state of the transaction that recovers, which is at its beginning.  No transaction can add the root from then on. *)
Example root_handle_stays :
  (ex_read (ex_id 5) (ex_commit_root ex_start).2).1 = Ret (Some [4; 4]%Z) ∧
  (ex_recover 9000 ex_root_logs (ex_recoverer (ex_commit_root ex_start).2)).1 = Ret () ∧
  (ex_read (ex_id 5) ex_root_recovered).1 = Ret None ∧
  (ex_commit_root ex_root_recovered).1 = Ret (false, []).
Proof. vm_compute. repeat split. Qed.

(** ** Locks *)

Definition ex_acquire (tid : UUID) (hs : list (RegistryPayload Handle)) : X (list LockKey) := acquireLocks ex_gen tid hs.
Definition ex_priority : list (RegistryPayload Handle) := default [] (lg_priority (x_log ex_phase1) !! 9000%N).

(** The locks of the nodes of transaction 9000 have IDs of their own, so that they are never taken over from it. *)
Example dead_locks_not_taken : (ex_acquire 9000 ex_priority (ex_recoverer ex_phase1)).1 = Fail (ETaken 5001).
Proof. vm_compute. reflexivity. Qed.

(** A priority log that another process removed meanwhile is read as no handles, for which there is no key to lock. *)
Example vanished_log_panics : (ex_acquire 9000 [] (ex_recoverer ex_phase1)).1 = Panic.
Proof. vm_compute. reflexivity. Qed.

(** *** A lock service that refuses without an owner, or that is down *)

Inductive service := Refusing | Down.
#[local] Instance service_Locker : Locker service () := {
  locks_Lock d ks := λ s, (Ret false, s);
  locks_DualLock d ks := λ s, (Ret false, s);
  locks_IsLocked ks := λ s, (Ret false, s);
  locks_Unlock ks := λ s, (Ret (), s);
}.
#[local] Instance service_LockOwners : LockOwners service () := {
  owners_DualLock d ks := λ s, match s with Refusing => (Ret (false, NilUUID), s) | Down => (Fail (), s) end;
  owners_GetEx d k := λ s, (Ret None, s);
  owners_IsLockedByOthers ns := λ s, (Ret false, s);
  owners_IsLockedByOthersTTL d ns := λ s, (Ret true, s);
}.
#[local] Instance ex_LogReader : LogReader ex_logs Empty_set := {
  tlog_GetOne := λ s, (Ret (NilUUID, EmptyString, []), s);
  tlog_GetOneOfHour h := λ s, (Ret (NilUUID, []), s);
  plog_GetBatch ignoreAge n := λ s, (Ret (take n (map_to_list (lg_priority s))), s);
  plog_Newer := λ s, (Ret ((map_to_list (lg_priority s)).*1), s);
}.
Local Abbreviation service_state := (@txstate registryOnDisk filesystem ex_node service ex_logs (list Store) (gmap UUID ex_node) bool).
Local Abbreviation service_error := (tx_error registry_error io_error () Empty_set Empty_set Empty_set).
Definition with_service (s : service) (x : txs) : service_state :=
  mkTx (x_tx x) (x_world x) s (x_log x) (x_stores x) (x_l1 x) (x_ctxDone x) (x_ranges x).

(** A refusal that names no owner, as when the second look of DualLock finds that a lock is gone, is taken for the
    locks: the handles of the log are written without them. *)
Example refused_locks_used :
  ∃ ks, (acquireLocks ex_gen 9000 ex_priority (with_service Refusing (ex_recoverer ex_phase1)) : Prelude.outcome service_error _ * _).1 = Ret ks.
Proof. eexists. vm_compute. reflexivity. Qed.

(** The sweep of all priority logs goes on with the same batch as long as its locks cannot be had. *)
Example sweep_spins :
  let r := restore_batches ex_gen 100 true 0 false (with_service Down (ex_recoverer ex_phase1)) : Prelude.outcome service_error _ * _ in
  r.1 = Ret None ∧ size (lg_priority (x_log r.2)) = 1.
Proof. vm_compute. repeat split. Qed.

(** ** The claims on runs *)

(** Node 2 was removed: its handle and its blob are what the dead transaction left to clean up. *)
Definition ex_final_ids : list (RegistryPayload UUID) := [mkRegistryPayload "t" "b" 0 false [ex_id 2]].
Definition ex_final_blobs : list (BlobsPayload UUID) := [mkBlobsPayload "b" [102%N]].
Definition ex_died_late : txs := ex_recoverer (set_world ex_world ex_start).
Definition ex_finish : X () := rollback_logs ex_hooks 9000 ([(lockTrackedItems_state, NoPayload)] ++
  (finalizeCommit, FinalPayload ex_final_ids ex_final_blobs []) :: ((λ f, (f, NoPayload)) <$> [deleteObsoleteEntries_state])).
Example ex_finish_ok : (ex_finish ex_died_late).1 = Ret ().
Proof. vm_compute. reflexivity. Qed.

Lemma recovery_finishes_witness : wp ex_finish ex_died_late
  (λ _ x', ∃ R' B', repo_inv ex_gen ex_home 100 (x_world x') (delete_ids (all_ids ex_final_ids) ex_table) R' B' ∧
     without (doomed [deleteObsoleteEntries_state] ex_final_blobs []) ex_blobs B' ∧
     ∀ t id, id ∉ all_ids ex_final_ids → view (delete_ids (all_ids ex_final_ids) ex_table) B' t id = view ex_table ex_blobs t id)
  (λ _ x', ∃ T' R' B', stands (w_registry (x_world x')) T' R' ∧ blob_holds (w_blobStore (x_world x')) B' ∧
     ∀ t id, id ∉ all_ids ex_final_ids → view T' B' t id = view ex_table ex_blobs t id).
Proof.
  assert (Hc : ∀ id (x : txs), wp (deleteCachedValue ex_hooks id) x (λ _ x', x_world x' = x_world x) (λ _ x', x_world x' = x_world x))
    by (intros; exact eq_refl).
  assert (Hlog : ∀ tid (l : ex_logs), wp (tlog_Remove tid) l (λ _ _, True) (λ _ _, True)) by (intros; exact I).
  apply (recovery_finishes ex_hooks ex_gen ex_home 100 Hlog Hc 9000 [(lockTrackedItems_state, NoPayload)] ex_final_ids ex_final_blobs []
    [deleteObsoleteEntries_state] ex_died_late ex_table ex_reach ex_blobs ex_inv).
  - left. reflexivity.
  - by repeat constructor.
  - apply NoDup_singleton.
  - apply NoDup_singleton.
  - apply Forall_singleton. unfold ex_reach. apply elem_of_union_l, elem_of_list_to_set. right. left.
  - intros t id h Hid Hh. unfold ex_table, put_handles in Hh. cbn in Hh. apply lookup_insert_Some in Hh as [[<- _]|[_ Hh]];
      [by destruct Hid; left|]. apply lookup_insert_Some in Hh as [[_ <-]|[_ Hh]]; [|done].
    unfold doomed. cbn. intros [[= ]|?%not_elem_of_nil]%elem_of_cons; done.
Defined.

(** The obsolete value 77 of a commit that died while it deleted its obsolete entries: the
    recovery deletes the entries and then the logs, and nothing names the value any more. *)
Definition ex_value_stored : txs :=
  ex_recoverer (set_world (on_blobStore (RE := registry_error) (blobStore_Add [mkBlobsPayload "v" [(77%N, [5%Z])]]) ex_world).2 ex_start).
Definition ex_finish_value (tail : list nat) : X () := rollback_logs ex_hooks 9000
  ((finalizeCommit, FinalPayload ex_final_ids ex_final_blobs [(false, mkBlobsPayload "v" [77%N])]) :: ((λ f, (f, NoPayload)) <$> tail)).
Definition ex_value (x : txs) : option (list Z) :=
  match (on_world (on_blobStore (blobStore_GetOne "v" 77%N)) x : Prelude.outcome ex_error _ * _).1 with Ret b => Some b | _ => None end.
Example obsolete_value_stays :
  (ex_finish_value [deleteObsoleteEntries_state] ex_value_stored).1 = Ret () ∧
  ex_value (ex_finish_value [deleteObsoleteEntries_state] ex_value_stored).2 = Some [5%Z] ∧
  ex_value (ex_finish_value [deleteObsoleteEntries_state; deleteTrackedItemsValues_state] ex_value_stored).2 = None.
Proof. vm_compute. by split_and!. Qed.

Definition ex_pre : list (nat * payload) :=
  [(lockTrackedItems_state, NoPayload); (commitTrackedItemsValues_state, ValuesPayload []);
   (commitNewRootNodes_state, NodesPayload [] []); (areFetchedItemsIntact_state, NoPayload)].
Definition ex_post : list (nat * payload) := [(commitRemovedNodes_state, VidsPayload [])].
Local Abbreviation ex_stage := (commitUpdatedNodes (RE := registry_error) (BE := io_error) ex_gen ex_request).
Definition ex_crashed : txs := ex_recoverer (set_world (ex_stage ex_world).2 ex_start).

Lemma crash_recovered_witness : ∃ handles, (ex_stage ex_world).1 = Ret (true, handles) ∧
  wp (rollback_logs ex_hooks 9000 (ex_pre ++ (commitUpdatedNodes_state, BlobsIDsPayload (extractInactiveBlobsIDs handles)) :: ex_post)) ex_crashed
    (λ _ x', recovered ex_gen ex_home 100 ex_table ex_reach ex_blobs (x_world x'))
    (λ _ x', unseen ex_home ex_table ex_blobs (x_world x')).
Proof.
  assert (Hlog : ∀ tid (l : ex_logs), wp (tlog_Remove tid) l (λ _ _, True) (λ _ _, True)) by (intros; exact I).
  assert (Hst : ∀ ss (l : list Store), wp (srepo_Update ss) l (λ _ _, True) (λ _ _, True)) by (intros; exact I).
  pose proof (crash_recovered ex_hooks ex_gen ex_home 100 ex_gen_not_nil ex_gen_wf ex_gen_inj Hlog Hst ex_world ex_table ex_reach ex_blobs
    ex_request ex_inv ex_requested) as Hw.
  assert (He : ∃ handles, (ex_stage ex_world).1 = Ret (true, handles)) by (eexists; vm_compute; reflexivity).
  destruct He as [handles He]. pose proof (wp_result _ _ _ _ _ Hw He) as Hx. cbv beta iota in Hx. exists handles. split; [exact He|].
  apply (Hx eq_refl 9000%N ex_crashed ex_pre ex_post); [reflexivity|discriminate| |].
  - repeat (apply Forall_cons_2; [vm_compute; intuition lia|]). apply Forall_nil_2.
  - intros e [= <-]. vm_compute. lia.
Defined.
