(* ===== verification/FsLog.v ===== *)
(** * fs/transactionlog.go and fs/transactionprioritylog.go: logs as files

    A transaction appends a line of JSON for each step to a file of its own in one
    folder; a sweeper claims the oldest aged file under the lock of the hour and
    reads its lines back.  The file that a transaction has open stays open when its
    name is removed, so the folder is a map from names to file objects.  Every call
    of the operating system may fail, and a write that fails may have written any
    number of bytes. *)

From stdpp Require Import gmap.
From stdpp Require Import propset.
From S2P Require Import Prelude Wp Handle HashmapSpec Stores Sector NodeRepo TwoPhase TxLog TwoPhaseProps.

(** ** The folder of the logs *)

Inductive log_error :=
| ErrCreate (fn : string) | ErrOpen (fn : string) | ErrWriteLog | ErrRemoveLog (fn : string)
| ErrMkdirLogs | ErrReadDir | ErrTooLong | ErrReadLog | ErrParse
| ErrBlock (e : block_error) | ErrUnmarshal.

(** A file: its bytes and when they were last modified. *)
Record logfile := mkLogfile { lfi_bytes : list Z; lfi_ModTime : Z }.

(** [lf_faults] says how the next calls end: [Some k] for one that fails, after [k]
    bytes if it transfers any.  [lf_gone] are the names that are removed between the
    listing of the folder and a look at the file. *)
Record logfolder := mkLogfolder {
  lf_there : bool;
  lf_names : gmap string nat;
  lf_objects : gmap nat logfile;
  lf_next : nat;
  lf_now : Z;
  lf_faults : list (option nat);
  lf_gone : list string;
}.
Definition set_lf_there (b : bool) (s : logfolder) : logfolder :=
  mkLogfolder b (lf_names s) (lf_objects s) (lf_next s) (lf_now s) (lf_faults s) (lf_gone s).
Definition set_lf_names (m : gmap string nat) (s : logfolder) : logfolder :=
  mkLogfolder (lf_there s) m (lf_objects s) (lf_next s) (lf_now s) (lf_faults s) (lf_gone s).
Definition set_lf_objects (m : gmap nat logfile) (s : logfolder) : logfolder :=
  mkLogfolder (lf_there s) (lf_names s) m (lf_next s) (lf_now s) (lf_faults s) (lf_gone s).
Definition set_lf_next (n : nat) (s : logfolder) : logfolder :=
  mkLogfolder (lf_there s) (lf_names s) (lf_objects s) n (lf_now s) (lf_faults s) (lf_gone s).
Definition set_lf_now (t : Z) (s : logfolder) : logfolder :=
  mkLogfolder (lf_there s) (lf_names s) (lf_objects s) (lf_next s) t (lf_faults s) (lf_gone s).
Definition set_lf_faults (l : list (option nat)) (s : logfolder) : logfolder :=
  mkLogfolder (lf_there s) (lf_names s) (lf_objects s) (lf_next s) (lf_now s) l (lf_gone s).

Local Abbreviation F := (M logfolder log_error).

(** How the next call ends. *)
Definition fault : F (option nat) := λ s,
  match lf_faults s with [] => (Ret None, s) | f :: fs => (Ret f, set_lf_faults fs s) end.

Definition put_file (i : nat) (bs : list Z) (s : logfolder) : logfolder :=
  set_lf_objects (<[i := mkLogfile bs (lf_now s)]> (lf_objects s)) s.
Definition file_bytes (i : nat) (s : logfolder) : list Z := from_option lfi_bytes [] (lf_objects s !! i).
Definition bytes_of (fn : string) (s : logfolder) : option (list Z) :=
  i ← lf_names s !! fn; lfi_bytes <$> lf_objects s !! i.

(** [os.Create]: the file that has the name is emptied, or there is a new one. *)
Definition os_Create (fn : string) : F nat :=
  f ← fault;
  there ← gets lf_there;
  if (f : option nat) then fail (ErrCreate fn)
  else if negb there then fail (ErrCreate fn)
  else λ s,
    match lf_names s !! fn with
    | Some i => (Ret i, put_file i [] s)
    | None =>
        let i := lf_next s in
        (Ret i, put_file i [] (set_lf_next (S i) (set_lf_names (<[fn := i]> (lf_names s)) s)))
    end.

(** A write at the end of an open file. *)
Definition os_Write (i : nat) (bs : list Z) : F () :=
  f ← fault;
  match (f : option nat) with
  | None => modify (λ s, put_file i (file_bytes i s ++ bs) s)
  | Some k => modify (λ s, put_file i (file_bytes i s ++ take k bs) s);; fail ErrWriteLog
  end.

Definition os_Remove (fn : string) : F () :=
  f ← fault;
  there ← gets (λ s, lf_names s !! fn);
  match (f : option nat), (there : option nat) with
  | None, Some _ => modify (λ s, set_lf_names (base.delete fn (lf_names s)) s)
  | _, _ => fail (ErrRemoveLog fn)
  end.

(** [os.Open], and the bytes of the file as far as they can be read: the flag says
    that the read failed there. *)
Definition os_Open (fn : string) : F (list Z) :=
  f ← fault;
  data ← gets (bytes_of fn);
  match (f : option nat), (data : option (list Z)) with
  | None, Some data => mret data
  | _, _ => fail (ErrOpen fn)
  end.
Definition read_all (data : list Z) : F (list Z * bool) :=
  f ← fault; mret (match (f : option nat) with None => (data, false) | Some k => (take k data, true) end).

Definition lf_MkdirAll : F () :=
  f ← fault; if (f : option nat) then fail ErrMkdirLogs else modify (set_lf_there true).

(** [FileIO.WriteFile]: a write that fails is tried again once the folder is made. *)
Definition os_WriteFile (fn : string) (bs : list Z) : F () := i ← os_Create fn; os_Write i bs.
Definition lf_WriteFile (fn : string) (bs : list Z) : F () :=
  handle (os_WriteFile fn bs) mret (λ e, handle lf_MkdirAll (λ _, os_WriteFile fn bs) (λ _, fail e)).

Definition lf_ReadFile (fn : string) : F (list Z) :=
  data ← os_Open fn; r ← read_all data;
  if (r : list Z * bool).2 then fail ErrReadLog else mret r.1.

(** [os.ReadDir]: the names with the files behind them, as [DirEntry.Info] gives
    them for a name that is still there. *)
Record DirEntry := mkDirEntry { de_Name : string; de_Info : option Z }.
Definition entry_of (s : logfolder) (p : string * nat) : DirEntry :=
  mkDirEntry p.1 (if decide (p.1 ∈ lf_gone s) then None else lfi_ModTime <$> lf_objects s !! p.2).
Definition lf_ReadDir : F (list DirEntry) :=
  f ← fault; if (f : option nat) then fail ErrReadDir else gets (λ s, entry_of s <$> map_to_list (lf_names s)).

(** ** Lines (bufio.Scanner) *)

Definition newline : Z := 10.
Definition carriage_return : Z := 13.
(** [bufio.MaxScanTokenSize] *)
Definition MaxScanTokenSize : Z := 64 * 1024.
(** The size of a [bufio.Writer]. *)
Definition defaultBufSize : Z := 4096.

Fixpoint split_line (data : list Z) : option (list Z * list Z) :=
  match data with
  | [] => None
  | b :: data => if decide (b = newline) then Some ([], data) else prod_map (cons b) id <$> split_line data
  end.

Definition dropCR (line : list Z) : list Z :=
  if decide (last line = Some carriage_return) then take (length line - 1) line else line.

(** The lines of a file and whether the scanner gave up: it does when its buffer is
    full and holds no end of a line. *)
Fixpoint scan_lines (fuel : nat) (data : list Z) : list (list Z) * bool :=
  match fuel, data with
  | S fuel, _ :: _ =>
      match split_line data with
      | Some (line, rest) =>
          if decide (Z.of_nat (length line) < MaxScanTokenSize)%Z
          then prod_map (cons (dropCR line)) id (scan_lines fuel rest) else ([], true)
      | None =>
          if decide (Z.of_nat (length data) < MaxScanTokenSize)%Z then ([dropCR data], false) else ([], true)
      end
  | _, _ => ([], false)
  end.
Definition Scan (data : list Z) : list (list Z) * bool := scan_lines (length data) data.
Arguments Scan : simpl never.

(** ** Names and hours *)

(** [strings.HasSuffix] and the slice [name[0:len(name)-len(suf)]]. *)
Definition HasSuffix (name suf : string) : bool :=
  (String.length suf <=? String.length name)%nat &&
  bool_decide (String.substring (String.length name - String.length suf) (String.length suf) name = suf).
Definition without_suffix (name suf : string) : string := String.substring 0 (String.length name - String.length suf) name.

Definition logFileExtension : string := ".log".
Definition priorityLogFileExtension : string := ".plg".
Definition priorityLogMinAgeInMin : Z := 5.
Definition AgeLimit : Z := 70.

(** Times are in nanoseconds, hours and minutes are those of the local clock. *)
Definition a_minute : Z := 60 * 10 ^ 9.
Definition an_hour : Z := 60 * a_minute.

(** ** The log of a process *)

(** [tl_file] is the open file and whether its [bufio.Writer] has failed: such a
    writer fails for good. *)
Record translog {LS} := mkTranslog {
  tl_fs : logfolder;
  tl_tid : UUID;
  tl_file : option (nat * bool);
  tl_locks : LS;
}.
Arguments translog : clear implicits.

Inductive tl_error {LE} := FsError (e : log_error) | LockError (e : LE).
Arguments tl_error : clear implicits.

Section fslog.
(** [P] is what is logged with a step: bytes, which the JSON of a line carries. *)
Context {LS LE P : Type} `{LO : Locker LS LE}.
(** [uuid.UUID.String] and [ParseUUID]; the hour of the local clock at an instant,
    and the layout [DateHourLayout] of an hour. *)
Context (uuid_String : UUID → string) (ParseUUID : string → option UUID).
Context (local_hour : Z → Z) (Format : Z → string) (Parse : string → option Z).
(** The line of JSON of an entry, with the newline, and what a line is read as; the
    JSON of the handles of a priority log. *)
Context (Encode : nat * P → list Z) (Unmarshal : list Z → option (nat * P)).
Context (Marshal_handles : list (RegistryPayload Handle) → list Z)
        (Unmarshal_handles : list Z → option (list (RegistryPayload Handle))).
(** [slices.SortFunc] by the time of modification. *)
Context (SortFunc : list (string * Z) → list (string * Z)).
(** The key of the lock of the hour. *)
Context (hourLockKey : LockKey).

Local Abbreviation translog := (translog LS).
Local Abbreviation T := (M translog (tl_error LE)).

Definition set_tl_fs (f : logfolder) (s : translog) : translog := mkTranslog LS f (tl_tid s) (tl_file s) (tl_locks s).
Definition set_tl_tid (t : UUID) (s : translog) : translog := mkTranslog LS (tl_fs s) t (tl_file s) (tl_locks s).
Definition set_tl_file (f : option (nat * bool)) (s : translog) : translog := mkTranslog LS (tl_fs s) (tl_tid s) f (tl_locks s).
Definition set_tl_locks (l : LS) (s : translog) : translog := mkTranslog LS (tl_fs s) (tl_tid s) (tl_file s) l.

Definition on_fs {A} : F A → T A := on tl_fs set_tl_fs FsError.
Definition on_hour {A} : M LS LE A → T A := on tl_locks set_tl_locks LockError.
Definition attempt_ {A} (m : T A) : T () := handle m (λ _, mret ()) (λ _, mret ()).

(** [NewTransactionLog] *)
Definition NewTransactionLog (f : logfolder) (locks : LS) : translog := mkTranslog LS f NilUUID None locks.

Definition log_name (tid : UUID) : string := String.append (uuid_String tid) logFileExtension.
Definition plog_name (tid : UUID) : string := String.append (uuid_String tid) priorityLogFileExtension.

(** [TransactionLog.Add]: a line that fits into the buffer of the writer reaches the
    file by [Flush], whose error is ignored; a longer one is written at once. *)
Definition open_log (tid : UUID) : T () :=
  modify (set_tl_tid tid);;
  i ← handle (on_fs (os_Create (log_name tid))) mret (λ _,
        there ← on_fs (gets lf_there);
        (if (there : bool) then mret () else attempt_ (on_fs lf_MkdirAll));;
        on_fs (os_Create (log_name tid)));
  modify (set_tl_file (Some (i, false))).

Definition encode_line (line : list Z) : T () :=
  file ← gets tl_file;
  match (file : option (nat * bool)) with
  | None => panic
  | Some (i, true) => modify (set_tl_file None);; fail (FsError ErrWriteLog)
  | Some (i, false) =>
      if decide (defaultBufSize < Z.of_nat (length line))%Z
      then handle (on_fs (os_Write i line)) mret (λ e, modify (set_tl_file None);; fail e)
      else handle (on_fs (os_Write i line)) mret (λ _, modify (set_tl_file (Some (i, true))))
  end.

Definition tl_Add (tid : UUID) (commitFunction : nat) (pl : P) : T () :=
  file ← gets tl_file;
  (if (file : option (nat * bool)) then mret () else open_log tid);;
  encode_line (Encode (commitFunction, pl)).

(** [TransactionLog.Remove] *)
Definition tl_Remove (tid : UUID) : T () :=
  modify (λ s, if decide (tl_tid s = tid) then set_tl_file None s else s);;
  on_fs (os_Remove (log_name tid)).

(** [getFilesSortedDescByModifiedTime]; a name that is gone by now has no
    [FileInfo], whose methods then panic. *)
Fixpoint sift (suf : string) (filter : DirEntry → option bool) (files : list DirEntry) : F (list (string * Z)) :=
  match files with
  | [] => mret []
  | file :: files =>
      if HasSuffix (de_Name file) suf then
        keep ← or_panic (filter file);
        t ← or_panic (de_Info file);
        rest ← sift suf filter files;
        mret (if (keep : bool) then (de_Name file, t) :: rest else rest)
      else sift suf filter files
  end.

Definition getFilesSortedDescByModifiedTime (suf : string) (filter : DirEntry → option bool) : F (list (string * Z)) :=
  there ← gets lf_there;
  (if (there : bool) then mret () else lf_MkdirAll);;
  files ← lf_ReadDir;
  found ← sift suf filter files;
  mret (SortFunc found).

(** The filters: the time of a file, capped to its hour, against that of the clock. *)
Definition aged (limit now mtime : Z) : bool :=
  (local_hour mtime * an_hour <=? local_hour now * an_hour - limit * a_minute)%Z.
Definition is_tid (suf name : string) : bool := bool_decide (is_Some (ParseUUID (without_suffix name suf))).

Definition log_filter (now : Z) (de : DirEntry) : option bool :=
  mtime ← de_Info de;
  if is_tid logFileExtension (de_Name de) then Some (aged AgeLimit now mtime) else Some false.
Definition batch_filter (ignoreAge : bool) (now : Z) (de : DirEntry) : option bool :=
  mtime ← de_Info de;
  if negb (is_tid priorityLogFileExtension (de_Name de)) then Some false
  else if ignoreAge then Some true else Some (aged priorityLogMinAgeInMin now mtime).
Definition newer_filter (now : Z) (de : DirEntry) : option bool :=
  mtime ← de_Info de;
  if (mtime <? now - priorityLogMinAgeInMin * a_minute)%Z then Some false
  else Some (is_tid priorityLogFileExtension (de_Name de)).

(** [getOne] *)
Definition getOne : F (string * UUID) :=
  now ← gets lf_now;
  files ← getFilesSortedDescByModifiedTime logFileExtension (log_filter now);
  match (files : list (string * Z)) with
  | [] => mret (EmptyString, NilUUID)
  | (filename, mtime) :: _ =>
      mret (Format (local_hour mtime), from_option id NilUUID (ParseUUID (without_suffix filename logFileExtension)))
  end.

(** [getLogsDetails]: a line that is no entry is left out. *)
Definition getLogsDetails (tid : UUID) : F (list (nat * P)) :=
  data ← os_Open (log_name tid);
  r ← read_all data;
  let '(lines, too_long) := Scan (r : list Z * bool).1 in
  if (too_long : bool) then fail ErrTooLong
  else if r.2 then fail ErrReadLog
  else mret (omap Unmarshal lines).

(** [GetOne] *)
Definition tl_GetOne : T (UUID * string * list (nat * P)) :=
  let hlk := [hourLockKey] in
  let unlock := attempt_ (on_hour (locks_Unlock hlk)) in
  ok ← handle (on_hour (locks_Lock (7 * an_hour) hlk)) mret (λ _, mret false);
  if negb ok then mret (NilUUID, EmptyString, [])
  else
    found ← handle (on_fs getOne) mret (λ e, unlock;; fail e);
    let '(hour, tid) := (found : string * UUID) in
    if decide (tid = NilUUID) then unlock;; mret (NilUUID, EmptyString, [])
    else
      r ← handle (on_fs (getLogsDetails tid)) mret (λ e, unlock;; fail e);
      still ← handle (on_hour (locks_IsLocked hlk)) mret (λ _, mret false);
      if negb still then unlock;; mret (NilUUID, EmptyString, [])
      else mret (tid, hour, r).

(** [GetOneOfHour] *)
Definition tl_GetOneOfHour (hour : string) : T (UUID * list (nat * P)) :=
  let unlock := attempt_ (on_hour (locks_Unlock [hourLockKey])) in
  if decide (hour = EmptyString) then mret (NilUUID, [])
  else match Parse hour with
  | None => fail (FsError ErrParse)
  | Some t =>
      now ← on_fs (gets lf_now);
      if (4 <? local_hour now - t)%Z then unlock;; mret (NilUUID, [])
      else
        found ← on_fs getOne;
        let tid := (found : string * UUID).2 in
        if decide (tid = NilUUID) then unlock;; mret (NilUUID, [])
        else r ← on_fs (getLogsDetails tid); mret (tid, r)
  end.

(** ** Priority logs *)

Definition pl_Add (tid : UUID) (hs : list (RegistryPayload Handle)) : F () :=
  let payload := Marshal_handles hs in
  lf_WriteFile (plog_name tid) (marshalData payload (replicate (length payload + 4) 0%Z)).

Definition pl_Get (tid : UUID) : F (option (list (RegistryPayload Handle))) :=
  there ← gets (λ s, lf_names s !! plog_name tid);
  if (there : option nat) then
    ba ← lf_ReadFile (plog_name tid);
    match unmarshalData ba with
    | Err e => fail (ErrBlock e)
    | Ok payload => match Unmarshal_handles payload with None => fail ErrUnmarshal | Some hs => mret (Some hs) end
    end
  else mret None.

Definition pl_Remove (tid : UUID) : F () :=
  there ← gets (λ s, lf_names s !! plog_name tid);
  if (there : option nat) then os_Remove (plog_name tid) else mret ().

(** [GetBatch]: a log that is gone by now has no handles. *)
Fixpoint get_each (files : list (string * Z)) : F (list (UUID * list (RegistryPayload Handle))) :=
  match files with
  | [] => mret []
  | (filename, _) :: files =>
      match ParseUUID (without_suffix filename priorityLogFileExtension) with
      | None => get_each files
      | Some tid => r ← pl_Get tid; rest ← get_each files; mret ((tid, from_option id [] r) :: rest)
      end
  end.

Definition pl_GetBatch (ignoreAge : bool) (batchSize : nat) : F (list (UUID * list (RegistryPayload Handle))) :=
  now ← gets lf_now;
  there ← gets lf_there;
  if negb there then handle lf_MkdirAll (λ _, mret []) (λ _, mret [])
  else
    files ← getFilesSortedDescByModifiedTime priorityLogFileExtension (batch_filter ignoreAge now);
    get_each (take (if decide (batchSize = 0) then 25 else batchSize) files).

(** [ProcessNewer], for a processor on the log and more. *)
Fixpoint process_each {S E} (up : ∀ A, F A → M S E A) (processor : UUID → list (RegistryPayload Handle) → M S E ())
    (files : list (string * Z)) : M S E () :=
  match files with
  | [] => mret ()
  | (filename, _) :: files =>
      match ParseUUID (without_suffix filename priorityLogFileExtension) with
      | None => process_each up processor files
      | Some tid => r ← up _ (pl_Get tid); processor tid (from_option id [] r);; process_each up processor files
      end
  end.

Definition pl_ProcessNewer {S E} (up : ∀ A, F A → M S E A) (processor : UUID → list (RegistryPayload Handle) → M S E ()) : M S E () :=
  now ← up _ (gets lf_now);
  there ← up _ (gets lf_there);
  if negb there then mret ()
  else
    files ← up _ (getFilesSortedDescByModifiedTime priorityLogFileExtension (newer_filter now));
    process_each up processor files.

(** The transactions of the newer logs: [ProcessNewer] reads each log before it is
    processed. *)
Definition pl_Newer : F (list UUID) :=
  now ← gets lf_now;
  there ← gets lf_there;
  if negb there then mret []
  else
    files ← getFilesSortedDescByModifiedTime priorityLogFileExtension (newer_filter now);
    mret (omap (λ f, ParseUUID (without_suffix f.1 priorityLogFileExtension)) files).

(** ** Reading lines back *)

Definition has_line (e : nat * P) (body : list Z) : Prop :=
  Encode e = body ++ [newline] ∧ body ≠ [] ∧ newline ∉ body ∧ carriage_return ∉ body ∧
  Unmarshal body = Some e ∧ ∀ k, k < length body → Unmarshal (take k body) = None.
(** An entry is one line of JSON, which no proper prefix of it is. *)
Hypothesis Encode_line : ∀ e, ∃ body, has_line e body.

Implicit Types (es : list (nat * P)) (data body : list Z).

Definition lines_of es : list Z := concat (Encode <$> es).
(** A line with its newline fits into the buffer of the scanner. *)
Definition fits (e : nat * P) : Prop := (Z.of_nat (length (Encode e)) ≤ MaxScanTokenSize)%Z.

Lemma split_line_app body data : newline ∉ body → split_line (body ++ newline :: data) = Some (body, data).
Proof.
  induction body as [|b body IH]; cbn [split_line app]; [by rewrite decide_True|].
  intros [Hb Hn]%not_elem_of_cons. rewrite decide_False by done. by rewrite (IH Hn).
Qed.

Lemma split_line_none body : newline ∉ body → split_line body = None.
Proof.
  induction body as [|b body IH]; cbn [split_line]; [done|]. intros [Hb Hn]%not_elem_of_cons.
  rewrite decide_False by done. by rewrite (IH Hn).
Qed.

Lemma dropCR_none body : carriage_return ∉ body → dropCR body = body.
Proof.
  intros Hn. unfold dropCR. rewrite decide_False; [done|]. intros Hl. apply Hn.
  apply last_Some in Hl as [l ->]. set_solver.
Qed.

Lemma scan_line fuel body data : newline ∉ body → carriage_return ∉ body →
  (Z.of_nat (length body) < MaxScanTokenSize)%Z →
  scan_lines (S fuel) (body ++ newline :: data) = prod_map (cons body) id (scan_lines fuel data).
Proof.
  intros Hn Hc Hl. cbn [scan_lines].
  rewrite split_line_app, decide_True, dropCR_none by done. by destruct body.
Qed.

Lemma scan_tail fuel body : body ≠ [] → newline ∉ body → carriage_return ∉ body →
  (Z.of_nat (length body) < MaxScanTokenSize)%Z → scan_lines (S fuel) body = ([body], false).
Proof.
  intros Hne Hn Hc Hl. cbn [scan_lines]. rewrite split_line_none, decide_True, dropCR_none by done. by destruct body.
Qed.

(** What a scan of the first [k] bytes of a log gives: [n] entries, where [n] is the
    number of lines that are there up to their newline. *)
Definition whole_lines (k : nat) es (n : nat) : Prop :=
  n ≤ length es ∧ ∀ m, m ≤ length es → m ≤ n ↔ length (lines_of (take m es)) ≤ S k.

Lemma lines_length es : length es ≤ length (lines_of es).
Proof.
  induction es as [|e es IH]; [done|]. unfold lines_of in *. cbn [fmap list_fmap concat].
  destruct (Encode_line e) as (body & -> & _). rewrite !length_app. cbn in *. lia.
Qed.

Lemma scan_torn es : Forall fits es → ∀ fuel k, k ≤ fuel → ∃ lines n,
  scan_lines fuel (take k (lines_of es)) = (lines, false) ∧ omap Unmarshal lines = take n es ∧ whole_lines k es n.
Proof.
  induction 1 as [|e es He _ IH]; intros fuel k Hk.
  { exists [], 0. split_and!; [by destruct fuel, k|done|]. split; [done|].
    intros m Hm. rewrite take_nil. cbn in *. lia. }
  destruct (Encode_line e) as (body & Hb & Hne & Hn & Hc & Hu & Hp). unfold fits in He. rewrite Hb, length_app in He. cbn in He.
  unfold lines_of. cbn [fmap list_fmap concat]. fold (lines_of es). rewrite Hb, <- app_assoc. cbn [app].
  destruct (decide (S (length body) ≤ k)) as [Hle|Hlt].
  - destruct fuel as [|fuel]; [lia|].
    destruct (IH fuel (k - S (length body))) as (lines & n & Hs & Ho & Hn1 & Hn2); [lia|].
    replace (take k (body ++ newline :: lines_of es)) with (body ++ newline :: take (k - S (length body)) (lines_of es)).
    2:{ rewrite take_app_ge by lia. f_equal. replace (k - length body) with (S (k - S (length body))) by lia. done. }
    rewrite scan_line by (try done; lia). rewrite Hs. exists (body :: lines), (S n).
    split_and!; [done| |].
    + change (omap Unmarshal (body :: lines)) with (match Unmarshal body with Some y => y :: omap Unmarshal lines | None => omap Unmarshal lines end).
      by rewrite Hu, Ho.
    + split; [cbn; lia|]. intros [|m] Hm; [cbn; split; lia|]. cbn in Hm.
      specialize (Hn2 m ltac:(lia)). cbn [take]. unfold lines_of in *. cbn [fmap list_fmap concat].
      rewrite Hb, !length_app. cbn [length]. lia.
  - rewrite take_app_le by lia. exists (if decide (take k body = []) then [] else [take k body]), (if decide (k = length body) then 1 else 0).
    assert (Hin : ∀ b, b ∈ take k body → b ∈ body) by (intros b Hbk; rewrite <- (take_drop k body); set_solver).
    assert (Hnt : newline ∉ take k body) by auto.
    assert (Hct : carriage_return ∉ take k body) by auto.
    split_and!.
    + case_decide as Hnil; [rewrite Hnil; by destruct fuel|].
      assert (k ≠ 0) by (intros ->; done). destruct fuel as [|fuel]; [lia|].
      apply scan_tail; [done..|]. rewrite length_take. lia.
    + case_decide as Hnil; case_decide as Hkl; subst.
      * by rewrite firstn_all in Hnil.
      * done.
      * rewrite firstn_all. cbn [omap list_omap]. rewrite Hu. done.
      * cbn [omap list_omap]. rewrite Hp by lia. done.
    + split; [case_decide; cbn; lia|]. intros [|m] Hm; [cbn; split; lia|]. cbn [take].
      unfold lines_of. cbn [fmap list_fmap concat]. rewrite Hb, !length_app. cbn [length].
      fold (lines_of (take m es)). pose proof (lines_length (take m es)) as Hlen. rewrite length_take in Hlen. cbn in Hm.
      case_decide; split; try lia. intros ?. assert (m = 0) as -> by lia. change (lines_of (take 0 es)) with (@nil Z). cbn. lia.
Qed.

(** ** Appending lines *)

Implicit Types (s : translog) (f : logfolder).

(** No two names have the same file. *)
Record folder_ok f : Prop := mkFolderOk {
  fo_files : ∀ fn i, lf_names f !! fn = Some i → i < lf_next f ∧ is_Some (lf_objects f !! i);
  fo_names : ∀ fn fn' i, lf_names f !! fn = Some i → lf_names f !! fn' = Some i → fn = fn';
}.

(** The transaction [tid] has logged the entries [es]: they are what its open file
    holds. *)
Record has_logged s (tid : UUID) es (i : nat) : Prop := mkHasLogged {
  hl_file : tl_file s = Some (i, false);
  hl_name : lf_names (tl_fs s) !! log_name tid = Some i;
  hl_bytes : lfi_bytes <$> lf_objects (tl_fs s) !! i = Some (lines_of es);
}.

(** The other files are as they were. *)
Definition others_same (fn : string) f f' : Prop := ∀ fn', fn' ≠ fn → bytes_of fn' f' = bytes_of fn' f.

Lemma lines_of_snoc es e : lines_of (es ++ [e]) = lines_of es ++ Encode e.
Proof. unfold lines_of. rewrite fmap_app, concat_app. cbn. by rewrite app_nil_r. Qed.

Lemma put_ok f i bs : folder_ok f → folder_ok (put_file i bs f).
Proof.
  intros [H1 H2]. constructor; cbn; [|exact H2]. intros fn j Hj. destruct (H1 fn j Hj). split; [done|].
  destruct (decide (j = i)) as [->|]; [rewrite lookup_insert_eq; by eexists|by rewrite lookup_insert_ne].
Qed.

Lemma put_others f fn i bs : folder_ok f → lf_names f !! fn = Some i → others_same fn f (put_file i bs f).
Proof.
  intros Hok Hi fn' Hne. unfold bytes_of. cbn. destruct (lf_names f !! fn') as [j|] eqn:Hj; [|done]. cbn.
  rewrite lookup_insert_ne; [done|]. intros ->. apply Hne. by eapply fo_names.
Qed.

Lemma bytes_put f fn i bs : lf_names f !! fn = Some i → bytes_of fn (put_file i bs f) = Some bs.
Proof. intros Hi. unfold bytes_of. cbn. rewrite Hi. cbn. by rewrite lookup_insert_eq. Qed.

Lemma others_trans fn f1 f2 f3 : others_same fn f1 f2 → others_same fn f2 f3 → others_same fn f1 f3.
Proof. intros H1 H2 fn' Hne. by rewrite H2, H1. Qed.

(** [os.Create] in a folder without faults. *)
Lemma create_ok f fn : folder_ok f → lf_faults f = [] → lf_there f = true →
  ∃ i f', os_Create fn f = (Ret i, f') ∧ folder_ok f' ∧ lf_faults f' = [] ∧ lf_there f' = true ∧
    lf_names f' !! fn = Some i ∧ lf_objects f' !! i = Some (mkLogfile [] (lf_now f)) ∧ others_same fn f f'.
Proof.
  intros Hok Hf Ht. unfold os_Create, fault, mbind, M_bind, gets. rewrite Hf. cbn. rewrite Ht. cbn.
  destruct (lf_names f !! fn) as [i|] eqn:Hi.
  - exists i, (put_file i [] f). split_and!; try done; [by apply put_ok|cbn; by rewrite lookup_insert_eq|by apply put_others].
  - eexists _, _. split; [done|]. split_and!; try done.
    + constructor; cbn.
      * intros fn' j. destruct (decide (fn' = fn)) as [->|]; [rewrite lookup_insert_eq; intros [= <-]|rewrite lookup_insert_ne by done; intros Hj].
        { split; [lia|]. rewrite lookup_insert_eq. by eexists. }
        destruct (fo_files f Hok _ _ Hj). split; [lia|]. rewrite lookup_insert_ne by lia. done.
      * intros fn1 fn2 j. rewrite !lookup_insert_Some. intros [[<- <-]|[Hn1 H1]] [[<- E2]|[Hn2 H2]]; [done| | |by eapply fo_names].
        -- destruct (fo_files f Hok _ _ H2). lia.
        -- subst. destruct (fo_files f Hok _ _ H1). lia.
    + cbn. by rewrite lookup_insert_eq.
    + cbn. by rewrite lookup_insert_eq.
    + intros fn' Hne. unfold bytes_of. cbn. rewrite lookup_insert_ne by done.
      destruct (lf_names f !! fn') as [j|] eqn:Hj; [|done]. cbn. destruct (fo_files f Hok _ _ Hj).
      rewrite lookup_insert_ne by lia. done.
Qed.

(** How much of a line a write that ends with [o] leaves in the file. *)
Definition written (o : option nat) (line : list Z) : list Z := from_option (λ k, take k line) line o.

Lemma write_cut f i bs o rest : lf_faults f = o :: rest ∨ (lf_faults f = [] ∧ o = None ∧ rest = []) →
  os_Write i bs f =
    (from_option (λ _, Fail ErrWriteLog) (Ret ()) o, put_file i (file_bytes i f ++ written o bs) (set_lf_faults rest f)).
Proof.
  intros Hf. unfold os_Write, fault, mbind, M_bind. destruct Hf as [->|(Hf & -> & ->)]; [by destruct o|].
  rewrite Hf. cbn. unfold modify, put_file, file_bytes, set_lf_faults, set_lf_objects. cbn. by rewrite Hf.
Qed.

(** Appending an entry: the line, or what a write that fails leaves of it. *)
Lemma add_appends s tid es i e o rest : folder_ok (tl_fs s) → has_logged s tid es i →
  lf_faults (tl_fs s) = o :: rest ∨ (lf_faults (tl_fs s) = [] ∧ o = None ∧ rest = []) →
  ∃ r s', tl_Add tid e.1 e.2 s = (r, s') ∧ folder_ok (tl_fs s') ∧ lf_faults (tl_fs s') = rest ∧
    lf_names (tl_fs s') = lf_names (tl_fs s) ∧
    bytes_of (log_name tid) (tl_fs s') = Some (lines_of es ++ written o (Encode e)) ∧
    others_same (log_name tid) (tl_fs s) (tl_fs s') ∧ (o = None → r = Ret () ∧ has_logged s' tid (es ++ [e]) i).
Proof.
  intros Hok [Hfile Hname Hbytes] Hf. destruct e as [c pl].
  assert (Hfb : file_bytes i (tl_fs s) = lines_of es).
  { unfold file_bytes. destruct (lf_objects (tl_fs s) !! i); simplify_eq/=; done. }
  assert (Hw := write_cut (tl_fs s) i (Encode (c, pl)) o rest Hf). rewrite Hfb in Hw.
  set (f' := put_file i _ _) in Hw.
  assert (Hok' : folder_ok f') by (apply put_ok; destruct Hok; by constructor).
  assert (Hoth : others_same (log_name tid) (tl_fs s) f').
  { apply (put_others (set_lf_faults rest (tl_fs s))); [destruct Hok; by constructor|done]. }
  assert (Hb : bytes_of (log_name tid) f' = Some (lines_of es ++ written o (Encode (c, pl)))) by (by apply bytes_put).
  unfold tl_Add, encode_line, mbind, M_bind, gets. cbn. rewrite Hfile. cbn. rewrite Hfile.
  case_decide; unfold handle, on_fs, on; rewrite Hw; destruct o as [k|]; cbn; eexists _, _; (split; [reflexivity|]); cbn;
    (split_and!; [done|done|done|exact Hb|exact Hoth|]); try done; intros _; (split; [done|]);
    (constructor; cbn; [done|done|rewrite lookup_insert_eq; cbn; by rewrite lines_of_snoc]).
Qed.

(** Opening the log of a transaction makes an empty file, and the folder if there is
    none. *)
Lemma open_log_ok s tid : folder_ok (tl_fs s) → lf_faults (tl_fs s) = [] →
  ∃ i s', open_log tid s = (Ret (), s') ∧ folder_ok (tl_fs s') ∧ lf_faults (tl_fs s') = [] ∧ has_logged s' tid [] i ∧
    others_same (log_name tid) (tl_fs s) (tl_fs s').
Proof.
  intros Hok Hf. destruct s as [f t o l]. cbn in Hok, Hf. unfold open_log, mbind, M_bind, modify. cbn.
  unfold handle, on_fs, on. cbn. destruct (lf_there f) eqn:Ht.
  - destruct (create_ok f (log_name tid) Hok Hf Ht) as (i & f' & -> & Hok' & Hf' & _ & Hn & Ho & Hs).
    eexists i, _. split; [reflexivity|]. split_and!; try done. constructor; [done|done|]. cbn. by rewrite Ho.
  - assert (Hc : os_Create (log_name tid) f = (Fail (ErrCreate (log_name tid)), f)).
    { unfold os_Create, fault, mbind, M_bind, gets. rewrite Hf. cbn. by rewrite Ht. }
    rewrite Hc. cbn. rewrite Ht. cbn. unfold attempt_, handle, on, lf_MkdirAll, fault, mbind, M_bind. cbn. rewrite Hf. cbn.
    destruct (create_ok (set_lf_there true f) (log_name tid)) as (i & f' & -> & Hok' & Hf' & _ & Hn & Ho & Hs);
      [destruct Hok; by constructor|done|done|].
    eexists i, _. split; [reflexivity|]. split_and!; try done. constructor; [done|done|]. cbn. by rewrite Ho.
Qed.

Fixpoint tl_Adds (tid : UUID) es : T () :=
  match es with [] => mret () | e :: es => tl_Add tid e.1 e.2;; tl_Adds tid es end.

Lemma adds_append tid es' : ∀ s es i, folder_ok (tl_fs s) → lf_faults (tl_fs s) = [] → has_logged s tid es i →
  ∃ s', tl_Adds tid es' s = (Ret (), s') ∧ folder_ok (tl_fs s') ∧ lf_faults (tl_fs s') = [] ∧
    has_logged s' tid (es ++ es') i ∧ others_same (log_name tid) (tl_fs s) (tl_fs s').
Proof.
  induction es' as [|e es' IH]; intros s es i Hok Hf Hl.
  { exists s. rewrite app_nil_r. by split_and!. }
  destruct (add_appends s tid es i e None [] Hok Hl) as (r & s1 & Ha & Hok1 & Hf1 & _ & _ & Ho1 & Hn); [by right|].
  destruct (Hn eq_refl) as [-> Hl1].
  destruct (IH s1 (es ++ [e]) i Hok1 Hf1 Hl1) as (s' & Hs & Hok' & Hf' & Hl' & Ho').
  exists s'. cbn [tl_Adds]. rewrite (bind_Ret _ _ _ _ _ Ha). rewrite <- app_assoc in Hl'.
  split_and!; try done. by eapply others_trans.
Qed.

(** Making the file and the first entry are one call. *)
Lemma add_opens s tid e : tl_file s = None → folder_ok (tl_fs s) → lf_faults (tl_fs s) = [] →
  ∃ i s', tl_Add tid e.1 e.2 s = (Ret (), s') ∧ folder_ok (tl_fs s') ∧ lf_faults (tl_fs s') = [] ∧
    has_logged s' tid [e] i ∧ others_same (log_name tid) (tl_fs s) (tl_fs s').
Proof.
  intros Hn Hok Hf. destruct (open_log_ok s tid Hok Hf) as (i & s1 & Ho & Hok1 & Hf1 & Hl1 & Hs1).
  destruct (add_appends s1 tid [] i e None [] Hok1 Hl1) as (r & s' & Ha & Hok' & Hf' & _ & _ & Hs' & He); [by right|].
  destruct (He eq_refl) as [-> Hl']. exists i, s'. split; [|split_and!; try done; by eapply others_trans].
  revert Ha. unfold tl_Add, mbind, M_bind, gets. cbn. rewrite Hn, (hl_file _ _ _ _ Hl1). cbn. by rewrite Ho.
Qed.

(** ** Reading a log *)

Lemma details_read f tid data lines : lf_faults f = [] → bytes_of (log_name tid) f = Some data →
  Scan data = (lines, false) → getLogsDetails tid f = (Ret (omap Unmarshal lines), f).
Proof.
  intros Hf Hb Hs. unfold getLogsDetails, os_Open, read_all, fault, mbind, M_bind, gets. cbn. rewrite Hf. cbn.
  rewrite Hb. cbn. rewrite Hf. cbn. by rewrite Hs.
Qed.

(** A file that was cut off within its last line. *)
Lemma scan_cut es e k : Forall fits (es ++ [e]) →
  ∃ lines, Scan (lines_of es ++ take k (Encode e)) = (lines, false) ∧
    omap Unmarshal lines = es ++ (if decide (S k < length (Encode e)) then [] else [e]).
Proof.
  intros Hfit. assert (Hl : lines_of es ++ take k (Encode e) = take (length (lines_of es) + k) (lines_of (es ++ [e]))).
  { rewrite lines_of_snoc, take_app_ge by lia. do 2 f_equal. lia. }
  destruct (decide (length (Encode e) ≤ k)) as [Hk|Hk].
  - rewrite (take_ge (Encode e) k), <- lines_of_snoc by lia. set (n := length (lines_of (es ++ [e]))).
    destruct (scan_torn (es ++ [e]) Hfit n n (Nat.le_refl _)) as (lines & m & Hs & Ho & Hn1 & Hn2).
    rewrite take_ge in Hs by (unfold n; lia).
    exists lines. split; [exact Hs|]. rewrite Ho, decide_False by lia.
    apply take_ge. apply Hn2; [done|]. rewrite take_ge by lia. unfold n. lia.
  - destruct (scan_torn (es ++ [e]) Hfit (length (lines_of es ++ take k (Encode e))) (length (lines_of es) + k))
      as (lines & n & Hs & Ho & Hn1 & Hn2); [rewrite length_app, length_take; lia|]. rewrite <- Hl in Hs.
    exists lines. split; [exact Hs|]. rewrite Ho. rewrite length_app in Hn1, Hn2. cbn in Hn1, Hn2.
    pose proof (Hn2 (length es) ltac:(lia)) as H1. rewrite take_app_length in H1.
    pose proof (Hn2 (length es + 1) ltac:(lia)) as H2.
    rewrite take_ge, lines_of_snoc, length_app in H2 by (rewrite length_app; cbn; lia).
    case_decide.
    + assert (n = length es) as -> by lia. by rewrite take_app_length, app_nil_r.
    + apply take_ge. rewrite length_app. cbn. lia.
Qed.

Definition with_faults (l : list (option nat)) s : translog := set_tl_fs (set_lf_faults l (tl_fs s)) s.

(** C14: A transaction without failures that logs the entries [es], each of which gives a line that fits into the 64
    KB of the scanner, leaves a file from which exactly [es] is read back, and no other file is changed.  If the
    process dies, or the disk fails, after [k] bytes of one more such entry, the entries before it are read, and it
    too if only its newline is missing. *)
Theorem log_roundtrip f locks tid es e : folder_ok f → lf_faults f = [] → es ≠ [] → Forall fits (es ++ [e]) →
  ∃ s, tl_Adds tid es (NewTransactionLog f locks) = (Ret (), s) ∧
    others_same (log_name tid) f (tl_fs s) ∧
    (getLogsDetails tid (tl_fs s)).1 = Ret es ∧
    ∀ k, (getLogsDetails tid (tl_fs (tl_Add tid e.1 e.2 (with_faults [Some k] s)).2)).1
           = Ret (es ++ if decide (S k < length (Encode e)) then [] else [e]).
Proof.
  intros Hok Hf Hne Hfit. destruct es as [|e0 es]; [done|].
  destruct (add_opens (NewTransactionLog f locks) tid e0 eq_refl Hok Hf) as (i & s1 & Ha & Hok1 & Hf1 & Hl1 & Ho1).
  destruct (adds_append tid es s1 [e0] i Hok1 Hf1 Hl1) as (s & Hs & Hok2 & Hf2 & Hl2 & Ho2).
  exists s. cbn [tl_Adds]. rewrite (bind_Ret _ _ _ _ _ Ha). split_and!; [done|by eapply others_trans| |].
  - destruct (scan_cut (e0 :: es) e 0 Hfit) as (lines & Hsc & Hom). cbn [take] in Hsc. rewrite app_nil_r in Hsc.
    erewrite details_read; [|done| |exact Hsc].
    + cbn. rewrite Hom. rewrite decide_True; [by rewrite app_nil_r|].
      destruct (Encode_line e) as (body & -> & ? & _). rewrite length_app. destruct body; [done|cbn; lia].
    + unfold bytes_of. rewrite (hl_name _ _ _ _ Hl2). cbn. apply (hl_bytes _ _ _ _ Hl2).
  - intros k.
    destruct (add_appends (with_faults [Some k] s) tid (e0 :: es) i e (Some k) []) as (r & s' & Hadd & Hok' & Hf' & _ & Hb & _ & _).
    + destruct Hok2. by constructor.
    + destruct Hl2. by constructor.
    + by left.
    + rewrite Hadd. cbn [snd]. destruct (scan_cut (e0 :: es) e k Hfit) as (lines & Hsc & Hom).
      by erewrite details_read, Hom.
Qed.

(** ** Priority logs come back *)

(** What is written is read, with a checksum. *)
Lemma plog_roundtrip f tid hs : folder_ok f → lf_faults f = [] → lf_there f = true →
  byte_list (Marshal_handles hs) → Unmarshal_handles (Marshal_handles hs) = Some hs →
  ∃ f', pl_Add tid hs f = (Ret (), f') ∧ others_same (plog_name tid) f f' ∧ (pl_Get tid f').1 = Ret (Some hs).
Proof.
  intros Hok Hf Ht Hb Hu. unfold pl_Add, lf_WriteFile, os_WriteFile, handle, mbind, M_bind.
  destruct (create_ok f (plog_name tid) Hok Hf Ht) as (i & f1 & -> & Hok1 & Hf1 & _ & Hn & Ho & Hs). cbn [mret M_ret].
  set (bs := marshalData _ _). erewrite write_cut by (by right). cbn [from_option mret M_ret].
  eexists. split; [reflexivity|]. cbn [written from_option].
  assert (Hfb : file_bytes i f1 = []) by (unfold file_bytes; by rewrite Ho). rewrite Hfb. cbn [app].
  assert (Hok1' : folder_ok (set_lf_faults [] f1)) by (destruct Hok1; by constructor).
  split; [eapply others_trans; [exact Hs|]; by apply (put_others (set_lf_faults [] f1))|].
  set (f2 := put_file i bs _).
  assert (Hf2 : lf_faults f2 = [] ∧ lf_names f2 = lf_names f1 ∧ bytes_of (plog_name tid) f2 = Some bs)
    by (split_and!; [done..|by apply bytes_put]).
  clearbody f2. destruct Hf2 as (Hf2 & Hn2 & Hb2).
  unfold pl_Get, lf_ReadFile, os_Open, read_all, fault, mbind, M_bind, gets. rewrite Hn2, Hn, Hf2, Hb2. cbn -[unmarshalData bs].
  rewrite Hf2. cbn -[unmarshalData bs].
  assert (He : unmarshalData bs = Ok (Marshal_handles hs)).
  { unfold bs. destruct (marshal_data (Marshal_handles hs) (replicate (length (Marshal_handles hs) + 4) 0%Z)) as (x & -> & ->).
    rewrite length_replicate. replace (_ + 4 - 4 - _) with 0 by lia. cbn [replicate]. rewrite app_nil_r.
    by apply unmarshal_trailer. }
  rewrite He, Hu. done.
Qed.

(** ** Claiming the oldest log *)

Hypothesis SortFunc_law : ∀ l, SortFunc l ≡ₚ l ∧ StronglySorted (λ a b, (a.2 ≤ b.2)%Z) (SortFunc l).
Hypothesis ParseUUID_String : ∀ id, ParseUUID (uuid_String id) = Some id.

Definition same_files f f' : Prop :=
  lf_names f' = lf_names f ∧ lf_objects f' = lf_objects f ∧ lf_now f' = lf_now f ∧ lf_gone f' = lf_gone f.

(** The folder holds the logs of transactions and nothing else. *)
Definition own_names f : Prop :=
  ∀ fn i, lf_names f !! fn = Some i → ∃ tid, fn = log_name tid ∨ fn = plog_name tid.

Lemma same_files_refl f : same_files f f.
Proof. done. Qed.
Lemma same_files_trans f1 f2 f3 : same_files f1 f2 → same_files f2 f3 → same_files f1 f3.
Proof. intros (?&?&?&?) (?&?&?&?). split_and!; congruence. Qed.

Lemma substring_all (u : string) : String.substring 0 (String.length u) u = u.
Proof. induction u as [|c u IH]; [done|]. cbn. by rewrite IH. Qed.
Lemma substring_app u v n : String.substring (String.length u) n (String.append u v) = String.substring 0 n v.
Proof.
  induction u as [|c u IH]; [done|]. change (String.append (String c u) v) with (String c (String.append u v)). exact IH.
Qed.
Lemma substring_app_l u v : String.substring 0 (String.length u) (String.append u v) = u.
Proof.
  induction u as [|c u IH]; [by destruct v|]. change (String.append (String c u) v) with (String c (String.append u v)).
  cbn. by rewrite IH.
Qed.
Lemma length_append u v : String.length (String.append u v) = String.length u + String.length v.
Proof.
  induction u as [|c u IH]; [done|]. change (String.append (String c u) v) with (String c (String.append u v)).
  cbn. by rewrite IH.
Qed.

Lemma HasSuffix_app u v suf : String.length v = String.length suf →
  HasSuffix (String.append u v) suf = bool_decide (v = suf).
Proof.
  intros Hl. unfold HasSuffix. rewrite length_append, (proj2 (Nat.leb_le _ _)) by lia.
  replace (String.length u + String.length v - String.length suf) with (String.length u) by lia.
  rewrite substring_app, <- Hl, substring_all. done.
Qed.

Lemma without_suffix_app u suf : without_suffix (String.append u suf) suf = u.
Proof.
  unfold without_suffix. rewrite length_append, Nat.add_sub. apply substring_app_l.
Qed.

Lemma log_name_parses tid fn : fn = log_name tid ∨ fn = plog_name tid → HasSuffix fn logFileExtension = true →
  fn = log_name tid ∧ ParseUUID (without_suffix fn logFileExtension) = Some tid.
Proof.
  intros [->| ->] Hs; unfold log_name, plog_name in *; rewrite HasSuffix_app in Hs by done; [|by apply bool_decide_eq_true in Hs].
  by rewrite without_suffix_app.
Qed.

Lemma wlp_fault f : wlp fault f (λ _ f', same_files f f') (λ _ _, False).
Proof. unfold wlp, fault. by destruct (lf_faults f). Qed.

Lemma skip_first {A} (K : A → Prop) a l : ¬ K a → (∃ x, x ∈ l ∧ K x) ↔ ∃ x, x ∈ a :: l ∧ K x.
Proof.
  intros Ha. split; intros (x & Hin & HP); exists x; (split; [|done]); [set_solver|].
  apply elem_of_cons in Hin as [->|]; done.
Qed.

Lemma wlp_sift suf filter files f :
  wlp (sift suf filter files) f
    (λ l f', f' = f ∧ ∀ n t, (n, t) ∈ l ↔
       ∃ de, de ∈ files ∧ HasSuffix (de_Name de) suf = true ∧ filter de = Some true ∧ de_Name de = n ∧ de_Info de = Some t)
    (λ _ _, False).
Proof.
  revert f. induction files as [|de files IH]; intros f; cbn [sift].
  - wlp_step. split; [done|]. intros n t. set_solver.
  - destruct (HasSuffix (de_Name de) suf) eqn:Hs.
    + wlp_step. destruct (filter de) as [keep|] eqn:Hk; [|apply wlp_panic]. wlp_step.
      destruct (de_Info de) as [t0|] eqn:Ht; [|apply wlp_panic]. wlp_step.
      eapply wlp_mono; [apply IH| |done]. intros l f' [-> Hl]. wlp_step. split; [done|]. intros n t.
      destruct keep.
      * rewrite elem_of_cons, Hl. split.
        -- intros [[= -> ->]|(de' & ? & ?)]; [exists de|exists de']; (split; [set_solver|done]).
        -- intros (de' & [->|?]%elem_of_cons & ? & ? & ? & ?); [left; congruence|right; eauto 10].
      * rewrite Hl. by apply skip_first; rewrite Hk; intros (? & ? & _).
    + eapply wlp_mono; [apply IH| |done]. intros l f' [-> Hl]. split; [done|]. intros n t. rewrite Hl.
      apply skip_first. rewrite Hs. by intros [? _].
Qed.

(** What the listing gives: the files that pass the filter, the oldest first. *)
Definition listed suf filter f (l : list (string * Z)) : Prop :=
  StronglySorted (λ a b, (a.2 ≤ b.2)%Z) l ∧
  ∀ n t, (n, t) ∈ l ↔ HasSuffix n suf = true ∧ filter (mkDirEntry n (Some t)) = Some true ∧ n ∉ lf_gone f ∧
    ∃ i, lf_names f !! n = Some i ∧ lfi_ModTime <$> lf_objects f !! i = Some t.

Lemma wlp_ReadDir f : wlp lf_ReadDir f (λ l f', same_files f f' ∧ l = entry_of f <$> map_to_list (lf_names f)) (λ _ f', same_files f f').
Proof.
  unfold lf_ReadDir. wlp_step. eapply wlp_mono; [apply wlp_fault| |done]. intros [k|] f' Hs; [by wlp_step|].
  wlp_step. split; [done|]. destruct Hs as (Hn & Ho & _ & Hg). rewrite Hn. apply list_fmap_ext.
  intros _ [n i] _. unfold entry_of. cbn. by rewrite Ho, Hg.
Qed.

Lemma wlp_MkdirAll f : wlp lf_MkdirAll f (λ _ f', same_files f f') (λ _ f', same_files f f').
Proof.
  unfold lf_MkdirAll. wlp_step. eapply wlp_mono; [apply wlp_fault| |done]. intros [k|] f' Hs; by wlp_step.
Qed.

Lemma wlp_getFiles suf filter f :
  wlp (getFilesSortedDescByModifiedTime suf filter) f
    (λ l f', same_files f f' ∧ listed suf filter f l) (λ _ f', same_files f f').
Proof.
  unfold getFilesSortedDescByModifiedTime.
  assert (Hdir : wlp (if lf_there f then mret () else lf_MkdirAll) f (λ _ f', same_files f f') (λ _ f', same_files f f')).
  { destruct (lf_there f); [by apply wlp_ret|apply wlp_MkdirAll]. }
  apply wlp_bind, wlp_gets, wlp_bind. eapply wlp_mono; [exact Hdir| |done].
  intros [] f1 Hs1. wlp_step. eapply wlp_mono; [apply wlp_ReadDir| |intros e f2; by eapply same_files_trans].
  intros l f2 [Hs2 ->]. wlp_step. eapply wlp_mono; [apply wlp_sift| |done]. intros found f3 [-> Hf]. wlp_step.
  destruct (SortFunc_law found) as [Hp Hsort]. split; [by eapply same_files_trans|]. split; [done|].
  destruct Hs1 as (Hn & Ho & _ & Hg). rewrite Hn in Hf.
  intros n t. rewrite Hp, Hf. split.
  - intros (de & Hin & Hs & Hk & <- & Ht). apply list_elem_of_fmap in Hin as ([m i] & -> & Hm%elem_of_map_to_list).
    unfold entry_of in *. cbn in *. rewrite Ho, Hg in *. case_decide; [done|]. rewrite Ht in Hk.
    split_and!; [done..|]. by exists i.
  - intros (Hs & Hk & Hgone & i & Hi & Ht). exists (mkDirEntry n (Some t)). split_and!; try done.
    apply list_elem_of_fmap. exists (n, i). split; [|by apply elem_of_map_to_list].
    unfold entry_of. cbn. by rewrite decide_False, Ho, Ht by (by rewrite Hg).
Qed.

(** A log that is old enough to be claimed, and the oldest of them. *)
Definition aged_log f (tid : UUID) (mtime : Z) : Prop :=
  aged AgeLimit (lf_now f) mtime = true ∧ log_name tid ∉ lf_gone f ∧
  ∃ i, lf_names f !! log_name tid = Some i ∧ lfi_ModTime <$> lf_objects f !! i = Some mtime.
Definition is_oldest f (tid : UUID) (mtime : Z) : Prop :=
  aged_log f tid mtime ∧ ∀ tid' mtime', aged_log f tid' mtime' → (mtime ≤ mtime')%Z.

Lemma aged_log_same f f' tid m : same_files f f' → aged_log f tid m ↔ aged_log f' tid m.
Proof. intros (Hn & Ho & Ht & Hg). unfold aged_log. by rewrite Hn, Ho, Ht, Hg. Qed.

Lemma is_oldest_same f f' tid m : same_files f f' → is_oldest f tid m ↔ is_oldest f' tid m.
Proof.
  intros Hs. unfold is_oldest. rewrite (aged_log_same f f' tid m Hs).
  by setoid_rewrite (aged_log_same f f' _ _ Hs).
Qed.

Lemma listed_log f l n t : own_names f → listed logFileExtension (log_filter (lf_now f)) f l → (n, t) ∈ l →
  ∃ tid, n = log_name tid ∧ ParseUUID (without_suffix n logFileExtension) = Some tid ∧ aged_log f tid t.
Proof.
  intros Hown [_ Hl] (Hs & Hk & Hg & i & Hi & Ht)%Hl. destruct (Hown n i Hi) as [tid Hn].
  destruct (log_name_parses tid n Hn Hs) as [-> Hp]. exists tid. split_and!; try done. split; [|split; [done|by exists i]].
  unfold log_filter in Hk. cbn in Hk. by case_match; simplify_eq.
Qed.

Lemma aged_listed f l tid t : listed logFileExtension (log_filter (lf_now f)) f l → aged_log f tid t → (log_name tid, t) ∈ l.
Proof.
  intros [_ Hl] (Ha & Hg & Hi). apply Hl. split_and!; [|unfold log_filter; cbn|done..].
  - unfold log_name. rewrite HasSuffix_app by done. by apply bool_decide_eq_true.
  - unfold is_tid, log_name. rewrite without_suffix_app, ParseUUID_String. by rewrite bool_decide_true, Ha.
Qed.

Lemma wlp_getOne f : own_names f →
  wlp getOne f
    (λ r f', same_files f f' ∧ ((r : string * UUID).2 ≠ NilUUID → ∃ mtime, is_oldest f r.2 mtime ∧ r.1 = Format (local_hour mtime)))
    (λ _ f', same_files f f').
Proof.
  intros Hown. unfold getOne. apply wlp_bind, wlp_gets, wlp_bind. eapply wlp_mono; [apply wlp_getFiles| |done].
  intros [|[n t] l] f' [Hs Hl]; [by apply wlp_ret|]. apply wlp_ret. split; [done|]. cbn. intros _.
  destruct (listed_log f _ n t Hown Hl (list_elem_of_here _ _)) as (tid & -> & -> & Ha). cbn. exists t. split; [|done].
  split; [done|]. intros tid' t' Hin%(aged_listed f _ tid' t' Hl).
  apply elem_of_cons in Hin as [E|Hin]; [apply (f_equal snd) in E; cbn in E; lia|].
  destruct Hl as [[_ Hall]%StronglySorted_inv _]. rewrite Forall_forall in Hall. apply (Hall _ Hin).
Qed.

Lemma wlp_getLogsDetails f tid :
  wlp (getLogsDetails tid) f
    (λ r f', same_files f f' ∧ ∃ data, bytes_of (log_name tid) f = Some data ∧ r = omap Unmarshal (Scan data).1)
    (λ _ f', same_files f f').
Proof.
  unfold getLogsDetails, os_Open, read_all. wlp_step. wlp_step. eapply wlp_mono; [apply wlp_fault| |done].
  intros o f1 Hs1. apply wlp_bind, wlp_gets. destruct o as [k|]; [by apply wlp_fail|].
  destruct (bytes_of (log_name tid) f1) as [data|] eqn:Hb; [|by apply wlp_fail]. apply wlp_ret, wlp_bind, wlp_bind.
  eapply wlp_mono; [apply wlp_fault| |done]. intros o f2 Hs2. apply wlp_ret.
  assert (Hs : same_files f f2) by (by eapply same_files_trans).
  destruct (Scan _) as [lines long] eqn:Hsc. destruct long; [by apply wlp_fail|]. destruct o as [k|]; [by apply wlp_fail|].
  apply wlp_ret. split; [done|]. exists data. cbn in Hsc. rewrite Hsc. split; [|done]. rewrite <- Hb.
  destruct Hs1 as (Hn & Ho & _). unfold bytes_of. by rewrite Hn, Ho.
Qed.

(** What a log that was claimed is: the oldest of those that are old enough, read
    as it is in its file. *)
Definition claimed s s' (tid : UUID) es : Prop :=
  same_files (tl_fs s) (tl_fs s') ∧
  ∃ mtime data, is_oldest (tl_fs s) tid mtime ∧ bytes_of (log_name tid) (tl_fs s) = Some data ∧
    es = omap Unmarshal (Scan data).1.

Lemma bytes_same f f' fn : same_files f f' → bytes_of fn f' = bytes_of fn f.
Proof. intros (Hn & Ho & _). unfold bytes_of. by rewrite Hn, Ho. Qed.

Lemma wlp_on_fs {A} (m : F A) s (Q : A → translog → Prop) (E : tl_error LE → translog → Prop) :
  wlp m (tl_fs s) (λ a f, Q a (set_tl_fs f s)) (λ e f, E (FsError e) (set_tl_fs f s)) → wlp (on_fs m) s Q E.
Proof. apply wlp_on. Qed.

Lemma wlp_on_hour {A} (m : M LS LE A) s (Q : A → translog → Prop) (E : tl_error LE → translog → Prop) :
  wlp m (tl_locks s) (λ a l, Q a (set_tl_locks l s)) (λ e l, E (LockError e) (set_tl_locks l s)) → wlp (on_hour m) s Q E.
Proof. apply wlp_on. Qed.

(** Reading the log that [getOne] chose. *)
Lemma wlp_claim_read s tid mtime : is_oldest (tl_fs s) tid mtime →
  wlp (on_fs (getLogsDetails tid)) s
    (λ es s', claimed s s' tid es) (λ _ _, True).
Proof.
  intros Hold. apply wlp_on_fs. eapply wlp_mono; [apply wlp_getLogsDetails| |done].
  intros es f (Hs & data & Hb & ->). split; [done|]. by exists mtime, data.
Qed.

Lemma claimed_before s1 s s' tid es : same_files (tl_fs s1) (tl_fs s) → claimed s s' tid es → claimed s1 s' tid es.
Proof.
  intros Hs (Hs' & mtime & data & Ho & Hb & ->). split; [by eapply same_files_trans|]. exists mtime, data.
  rewrite (is_oldest_same _ _ _ _ Hs), <- Hb. split_and!; [done| |done]. symmetry. by apply bytes_same.
Qed.

(** A call whose result does not matter. *)
Lemma wlp_after {S E A B} (m : M S E A) (k : A → M S E B) x (Q : B → S → Prop) (G : E → S → Prop) :
  (∀ a x', wlp (k a) x' Q G) → (∀ e x', G e x') → wlp (m ≫= k) x Q G.
Proof. intros Hk Hg. apply wlp_bind. unfold wlp. destruct (m x) as [[a|e|] x']; [apply Hk|apply Hg|done]. Qed.

Section claims.
Context {LL : LockerLaws LS LE}.

Lemma wlp_GetOne s : own_names (tl_fs s) →
  wlp tl_GetOne s
    (λ r s', let '(tid, hour, es) := (r : UUID * string * list (nat * P)) in
       tid = NilUUID ∨ (claimed s s' tid es ∧ entries [hourLockKey] ⊆ held (tl_locks s')))
    (λ _ _, True).
Proof.
  intros Hown. unfold tl_GetOne. apply wlp_bind, wlp_handle, wlp_on_hour.
  eapply wlp_mono; [apply (Lock_law (tl_locks s))| |]; [|intros; by apply wlp_ret, wlp_ret; left].
  intros ok l _. apply wlp_ret. destruct ok; cbn [negb]; [|apply wlp_ret; by left].
  apply wlp_bind, wlp_handle, wlp_on_fs. eapply wlp_mono; [by apply wlp_getOne| |].
  2:{ intros e f _. apply wlp_after; [|done]. intros. by apply wlp_fail. }
  intros [hour tid] f (Hs & Hold). apply wlp_ret. cbn in Hold. case_decide as Hnil.
  { apply wlp_after; [|done]. intros. apply wlp_ret. by left. }
  destruct (Hold Hnil) as (mtime & Ho & _). apply (is_oldest_same _ _ _ _ Hs) in Ho.
  apply wlp_bind, wlp_handle.
  eapply wlp_mono; [eapply (wlp_claim_read (set_tl_fs f (set_tl_locks l s))); exact Ho| |].
  2:{ intros e s2 _. apply wlp_after; [|done]. intros. by apply wlp_fail. }
  intros es s2 Hc. apply wlp_ret, wlp_bind, wlp_handle, wlp_on_hour.
  eapply wlp_mono; [apply (IsLocked_law (tl_locks s2))| |].
  - intros still l2 [_ Hk]. apply wlp_ret. destruct still; cbn [negb].
    + apply wlp_ret. right. split; [|by apply Hk]. eapply claimed_before; [|exact Hc]. done.
    + apply wlp_after; [|done]. intros. apply wlp_ret. by left.
  - intros e l2 _. apply wlp_ret. cbn [negb]. apply wlp_after; [|done].
    intros. apply wlp_ret. by left.
Qed.

Lemma wlp_GetOneOfHour hour s : own_names (tl_fs s) →
  wlp (tl_GetOneOfHour hour) s
    (λ r s', (r : UUID * list (nat * P)).1 = NilUUID ∨ claimed s s' r.1 r.2) (λ _ _, True).
Proof.
  intros Hown. unfold tl_GetOneOfHour. case_decide; [apply wlp_ret; by left|]. destruct (Parse hour) as [t|]; [|by apply wlp_fail].
  apply wlp_bind, wlp_on_fs, wlp_gets. case_match; [apply wlp_after; [|done]; intros; apply wlp_ret; by left|].
  apply wlp_bind, wlp_on_fs. eapply wlp_mono; [by apply wlp_getOne| |done]. intros [h tid] f (Hs & Hold). cbn in Hold |- *.
  case_decide as Hnil; [apply wlp_after; [|done]; intros; apply wlp_ret; by left|].
  destruct (Hold Hnil) as (mtime & Ho & _). apply (is_oldest_same _ _ _ _ Hs) in Ho.
  apply wlp_bind. eapply wlp_mono; [eapply (wlp_claim_read (set_tl_fs f s)); exact Ho| |done].
  intros es s' Hc. apply wlp_ret. right. eapply claimed_before; [|exact Hc]. done.
Qed.

(** By the local clock, which may be off by another time now, a log is claimed when more
    than an hour has passed since its last entry, and can be claimed from two hours on. *)
Lemma aged_window (off : Z → Z) now mtime : (∀ t, local_hour t = (t + off t) `div` an_hour)%Z →
  (aged AgeLimit now mtime = true → an_hour < (now + off now) - (mtime + off mtime))%Z ∧
  (2 * an_hour ≤ (now + off now) - (mtime + off mtime) → aged AgeLimit now mtime = true)%Z.
Proof.
  intros Hz. unfold aged, AgeLimit. rewrite !Hz. assert (an_hour = 60 * a_minute)%Z as Hh by done.
  assert (0 < a_minute)%Z as Hm by (unfold a_minute; lia). generalize dependent a_minute. intros m Hh Hm.
  pose proof (Z.div_mod (now + off now) an_hour ltac:(lia)). pose proof (Z.mod_pos_bound (now + off now) an_hour ltac:(lia)).
  pose proof (Z.div_mod (mtime + off mtime) an_hour ltac:(lia)). pose proof (Z.mod_pos_bound (mtime + off mtime) an_hour ltac:(lia)).
  set (q := ((now + off now) `div` an_hour)%Z) in *. set (q' := ((mtime + off mtime) `div` an_hour)%Z) in *.
  rewrite Z.leb_le. split; intros Hl.
  - assert (q' + 2 ≤ q)%Z by nia. nia.
  - assert (q' + 2 ≤ q)%Z by nia. nia.
Qed.

(** C15: A log that the sweeper claims, in a folder whose files have the names that logs are given, is the oldest of
    the logs that are old enough, its last entry is more than an hour old by the local clock (by any clock if the
    offset [off] of the time zone did not change in between), its entries are those of its file, and no file is
    changed; after [GetOne] the sweeper holds the lock of the hour. *)
Theorem claim_is_safe (off : Z → Z) s s' tid es :
  (∀ t, local_hour t = (t + off t) `div` an_hour)%Z → own_names (tl_fs s) → tid ≠ NilUUID →
  (∃ hour, tl_GetOne s = (Ret (tid, hour, es), s')) ∨ (∃ hour, tl_GetOneOfHour hour s = (Ret (tid, es), s')) →
  same_files (tl_fs s) (tl_fs s') ∧
  ((∃ hour, tl_GetOne s = (Ret (tid, hour, es), s')) → entries [hourLockKey] ⊆ held (tl_locks s')) ∧
  ∃ mtime data, is_oldest (tl_fs s) tid mtime ∧ (an_hour < (lf_now (tl_fs s) + off (lf_now (tl_fs s))) - (mtime + off mtime))%Z ∧
    bytes_of (log_name tid) (tl_fs s) = Some data ∧ es = omap Unmarshal (Scan data).1.
Proof.
  intros Hz Hown Hne Hr.
  assert (Hc : claimed s s' tid es ∧ ((∃ hour, tl_GetOne s = (Ret (tid, hour, es), s')) → entries [hourLockKey] ⊆ held (tl_locks s'))).
  { pose proof (wlp_GetOne s Hown) as H1. unfold wlp in H1. destruct Hr as [[hour Hr]|[hour Hr]].
    - rewrite Hr in H1. destruct H1 as [|[? ?]]; done.
    - pose proof (wlp_GetOneOfHour hour s Hown) as H2. unfold wlp in H2. rewrite Hr in H2. destruct H2 as [|H2]; [done|].
      split; [done|]. intros [hour' Hr']. rewrite Hr' in H1. destruct H1 as [|[? ?]]; done. }
  destruct Hc as [(Hs & mtime & data & Ho & Hb & ->) Hk]. split_and!; [done..|]. exists mtime, data.
  split_and!; [done| |done..]. apply (aged_window off); [done|]. apply Ho.
Qed.
End claims.
End fslog.

(** The logs of a transaction and of the recovery are these files. *)
Section instances.
Context {LS LE : Type} `{LO : Locker LS LE}.
Context (uuid_String : UUID → string) (ParseUUID : string → option UUID).
Context (local_hour : Z → Z) (Format : Z → string) (Parse : string → option Z).
Context (Encode : nat * payload → list Z) (Unmarshal : list Z → option (nat * payload)).
Context (Marshal_handles : list (RegistryPayload Handle) → list Z)
        (Unmarshal_handles : list Z → option (list (RegistryPayload Handle))).
Context (SortFunc : list (string * Z) → list (string * Z)) (hourLockKey : LockKey).

Definition fs_TransactionLog : TransactionLog (translog LS) (tl_error LE) := {|
  tlog_Add := tl_Add uuid_String Encode;
  tlog_Remove := tl_Remove uuid_String;
  plog_IsEnabled := λ _, true;
  plog_Add := λ tid hs, on_fs (pl_Add uuid_String Marshal_handles tid hs);
  plog_Remove := λ tid, on_fs (pl_Remove uuid_String tid);
  plog_Get := λ tid, on_fs (pl_Get uuid_String Unmarshal_handles tid);
|}.

Definition fs_LogReader : LogReader (translog LS) (tl_error LE) := {|
  tlog_GetOne := tl_GetOne uuid_String ParseUUID local_hour Format Unmarshal SortFunc hourLockKey;
  tlog_GetOneOfHour := tl_GetOneOfHour uuid_String ParseUUID local_hour Format Parse Unmarshal SortFunc hourLockKey;
  plog_GetBatch := λ ignoreAge n, on_fs (pl_GetBatch uuid_String ParseUUID local_hour Unmarshal_handles SortFunc ignoreAge n);
  plog_Newer := on_fs (pl_Newer ParseUUID SortFunc);
|}.
End instances.
