(* ===== verification/FsLogFindings.v ===== *)
(** * The log files: instances of the theorems, and findings

    Names of IDs, hours and lines are spelled in unary; the locks are those in
    memory.  The runs show what the code does when a line is longer than the buffer
    of the scanner, when a flush fails, when a file is removed while the folder is
    listed, and what the ages of logs mean. *)

From Stdlib Require Import Ascii.
From stdpp Require Import gmap propset.
From S2P Require Import Prelude Wp Handle HashmapSpec Stores Sector NodeRepo TwoPhase TwoPhaseProps Locks MemLocks TwoPhaseInstance FsLog.

Local Open Scope nat_scope.

Fixpoint unary (n : nat) : string := match n with O => EmptyString | S n => String "i"%char (unary n) end.
Definition u_String (id : UUID) : string := unary (N.to_nat id).
Definition u_Parse (s : string) : option UUID := Some (N.of_nat (String.length s)).
Lemma u_Parse_String id : u_Parse (u_String id) = Some id.
Proof.
  unfold u_Parse, u_String. f_equal. rewrite <- (N2Nat.id id) at 2. f_equal.
  induction (N.to_nat id) as [|n IH]; [done|]. cbn. by rewrite IH.
Qed.

(** An entry with a number as its payload: letters a for the step, b, letters a for
    the payload, c. *)
Definition u_Encode (e : nat * nat) : list Z := replicate e.1 97%Z ++ [98%Z] ++ replicate e.2 97%Z ++ [99%Z; 10%Z].
Fixpoint u_count (l : list Z) : nat * list Z :=
  match l with b :: l' => if decide (b = 97%Z) then prod_map S id (u_count l') else (0, l) | [] => (0, []) end.
Definition u_Unmarshal (l : list Z) : option (nat * nat) :=
  let '(f, l) := u_count l in
  match l with
  | b :: l => if decide (b = 98%Z) then let '(p, l) := u_count l in if decide (l = [99%Z]) then Some (f, p) else None else None
  | [] => None
  end.

Lemma u_count_app n l : u_count (replicate n 97%Z ++ l) = (n + (u_count l).1, (u_count l).2).
Proof. induction n as [|n IH]; cbn; [by destruct (u_count l)|]. by rewrite IH. Qed.

Lemma u_count_stop b l : b ≠ 97%Z → u_count (b :: l) = (0, b :: l).
Proof. intros Hb. cbn. by rewrite decide_False. Qed.

Lemma u_line e : has_line u_Encode u_Unmarshal e (replicate e.1 97%Z ++ [98%Z] ++ replicate e.2 97%Z ++ [99%Z]).
Proof.
  destruct e as [f p]. cbn [fst snd].
  assert (Hin : ∀ b, b ∈ replicate f 97%Z ++ [98%Z] ++ replicate p 97%Z ++ [99%Z] → (b = 97 ∨ b = 98 ∨ b = 99)%Z).
  { intros b. rewrite !elem_of_app.
    intros [[-> _]%elem_of_replicate|[->%list_elem_of_singleton|[[-> _]%elem_of_replicate| ->%list_elem_of_singleton]]]; auto. }
  split_and!.
  - unfold u_Encode. cbn [fst snd]. by rewrite <- !app_assoc.
  - by destruct f.
  - intros Hn%Hin. unfold newline in Hn. lia.
  - intros Hn%Hin. unfold carriage_return in Hn. lia.
  - unfold u_Unmarshal. cbn [app]. rewrite u_count_app, u_count_stop by lia. cbn [fst snd].
    rewrite decide_True, u_count_app, u_count_stop by done. cbn [fst snd]. by rewrite decide_True, !Nat.add_0_r.
  - intros k Hk. rewrite !length_app, !length_replicate in Hk. cbn in Hk.
    destruct (decide (k ≤ f)).
    + rewrite take_app_le by (by rewrite length_replicate). rewrite take_replicate, Nat.min_l by lia.
      unfold u_Unmarshal. rewrite <- (app_nil_r (replicate k 97%Z)), u_count_app. done.
    + rewrite take_app_ge by (rewrite length_replicate; lia). rewrite length_replicate.
      destruct (k - f) as [|j] eqn:Hj; [lia|]. cbn [app take]. rewrite take_app_le by (rewrite length_replicate; lia).
      rewrite take_replicate, Nat.min_l by lia. unfold u_Unmarshal. rewrite u_count_app, u_count_stop by lia.
      cbn [fst snd]. rewrite decide_True by done. rewrite <- (app_nil_r (replicate j 97%Z)), u_count_app. done.
Qed.
Lemma u_Encode_line e : ∃ body, has_line u_Encode u_Unmarshal e body.
Proof. eexists. apply u_line. Qed.

(** A clock without an offset, hours in unary. *)
Definition u_hour (t : Z) : Z := (t `div` an_hour)%Z.
Definition u_Format (h : Z) : string := String "h"%char (unary (Z.to_nat h)).
Definition u_ParseHour (s : string) : option Z := Some (Z.of_nat (String.length s) - 1)%Z.

Definition by_time (a b : string * Z) : Prop := (a.2 ≤ b.2)%Z.
#[local] Instance by_time_dec : RelDecision by_time.
Proof. intros a b. unfold by_time. apply _. Defined.
Definition u_Sort (l : list (string * Z)) : list (string * Z) := merge_sort by_time l.
Lemma u_Sort_law l : u_Sort l ≡ₚ l ∧ StronglySorted (λ a b, (a.2 ≤ b.2)%Z) (u_Sort l).
Proof.
  split; [apply merge_sort_Permutation|]. apply StronglySorted_merge_sort.
  - intros a b c. unfold by_time. lia.
  - intros a b. unfold by_time. lia.
Qed.

Definition u_hourLock : TwoPhase.LockKey := TwoPhase.mkLockKey (NamedKey "HBP") 77.
Abbreviation t_Add := (tl_Add (LS := lock_table) (LE := Empty_set) (P := nat) u_String u_Encode).
Abbreviation t_Adds := (tl_Adds (LS := lock_table) (LE := Empty_set) (P := nat) u_String u_Encode).
Abbreviation t_Remove := (tl_Remove (LS := lock_table) (LE := Empty_set) u_String).
Abbreviation t_details := (getLogsDetails u_String u_Unmarshal).
Abbreviation t_GetOne := (tl_GetOne u_String u_Parse u_hour u_Format u_Unmarshal u_Sort u_hourLock).

(** A folder without logs, and the log of a new process. *)
Definition empty_folder (now : Z) : logfolder := mkLogfolder true ∅ ∅ 0 now [] [].
Definition no_locks : lock_table := mkTable ∅ 0.
Definition new_log (now : Z) : translog lock_table := NewTransactionLog (empty_folder now) no_locks.

Lemma empty_ok now : folder_ok (empty_folder now).
Proof. constructor; cbn; intros fn; [intros i|intros fn' i]; by rewrite lookup_empty. Qed.

(** ** Instances *)

Example log_roundtrip_witness : ∃ s,
  t_Adds 5 [(1, 4); (2, 6)] (new_log 100) = (Ret (), s) ∧
  others_same (log_name u_String 5) (empty_folder 100) (tl_fs s) ∧
  (t_details 5 (tl_fs s)).1 = Ret [(1, 4); (2, 6)] ∧
  ∀ k, (t_details 5 (tl_fs (t_Add 5 3 7 (with_faults [Some k] s)).2)).1
         = Ret ([(1, 4); (2, 6)] ++ if decide (S k < 13) then [] else [(3, 7)]).
Proof.
  refine (log_roundtrip u_String u_Parse u_hour u_Format u_ParseHour u_Encode u_Unmarshal (λ _, None) u_Encode_line
            (empty_folder 100) no_locks 5 [(1, 4); (2, 6)] (3, 7) (empty_ok 100) eq_refl _ _); [done|].
  repeat constructor; unfold fits; vm_compute; discriminate.
Defined.

(** Two transactions that died: 5 at ten past one, 6 at twenty past; the sweeper comes
    at four o'clock. *)
Definition at_time (now : Z) (s : translog lock_table) : translog lock_table := set_tl_fs (set_lf_now now (tl_fs s)) s.
Definition other_process (s : translog lock_table) : translog lock_table := NewTransactionLog (tl_fs s) (tl_locks s).
Definition two_dead : translog lock_table :=
  at_time (4 * an_hour)
    (t_Add 6 1 2 (at_time (80 * a_minute) (other_process (t_Adds 5 [(1, 4); (2, 6)] (new_log (70 * a_minute))).2))).2.

Lemma two_dead_names : own_names u_String (tl_fs two_dead).
Proof.
  intros fn i Hi. apply elem_of_map_to_list, (list_elem_of_fmap_2 fst) in Hi.
  assert (E : Forall (λ x, x = log_name u_String 5 ∨ x = log_name u_String 6) (map_to_list (lf_names (tl_fs two_dead))).*1).
  { apply (bool_decide_unpack _). vm_compute. exact I. }
  rewrite Forall_forall in E. destruct (E fn Hi) as [-> | ->]; [exists 5%N|exists 6%N]; by left.
Qed.

Example claim_is_safe_witness : ∃ s', t_GetOne two_dead = (Ret (5%N, u_Format 1, [(1, 4); (2, 6)]), s') ∧
  entries [u_hourLock] ⊆ TwoPhaseProps.held (tl_locks s') ∧
  ∃ mtime, is_oldest u_String u_hour (tl_fs two_dead) 5 mtime ∧ (an_hour < lf_now (tl_fs two_dead) - mtime)%Z.
Proof.
  assert (E : (t_GetOne two_dead).1 = Ret (5%N, u_Format 1, [(1, 4); (2, 6)])) by (vm_compute; reflexivity).
  apply run_Ret in E. eexists. split; [exact E|].
  destruct (claim_is_safe u_String u_Parse u_hour u_Format u_ParseHour u_Encode u_Unmarshal u_Sort u_hourLock u_Encode_line
    u_Sort_law u_Parse_String (λ _, 0%Z) two_dead (t_GetOne two_dead).2 5 [(1, 4); (2, 6)]) as (_ & Hk & mtime & data & Ho & Ha & _).
  - intros t. unfold u_hour. by rewrite Z.add_0_r.
  - exact two_dead_names.
  - discriminate.
  - left. eexists. exact E.
  - split; [apply Hk; eexists; exact E|]. exists mtime. split; [exact Ho|]. rewrite !Z.add_0_r in Ha. exact Ha.
Defined.

(** ** Findings *)

(** A line that is longer than the buffer of the scanner is written without an error
    and cannot be read back: the recovery of the transaction fails, and so does every
    sweep after it, because this log stays the oldest. *)
Definition long_log : translog lock_table :=
  at_time (9 * an_hour) (t_Add 6 1 2 (at_time a_minute (other_process (t_Add 5 1 65536 (new_log 0)).2))).2.
Example long_line_not_read :
  (t_Add 5 1 65536 (new_log 0)).1 = Ret () ∧
  (t_GetOne long_log).1 = Fail (FsError ErrTooLong) ∧
  (t_GetOne (t_GetOne long_log).2).1 = Fail (FsError ErrTooLong).
Proof. vm_compute. by split_and!. Qed.

(** [Flush] fails and [Add] returns no error: the entry is not in the file. *)
Definition flush_fails : outcome (tl_error Empty_set) () * translog lock_table :=
  t_Add 5 2 6 (with_faults [Some 0] (t_Add 5 1 4 (new_log 0)).2).
Example flush_error_ignored :
  flush_fails.1 = Ret () ∧ (t_details 5 (tl_fs flush_fails.2)).1 = Ret [(1, 4)].
Proof. vm_compute. by split. Qed.

(** The next [Add] fails, and one more starts the file anew: the entries before are gone. *)
Example failed_log_starts_anew :
  let s := (t_Add 5 3 1 flush_fails.2).2 in
  (t_Add 5 3 1 flush_fails.2).1 = Fail (FsError ErrWriteLog) ∧
  (t_details 5 (tl_fs (t_Add 5 4 1 s).2)).1 = Ret [(4, 1)].
Proof. vm_compute. by split. Qed.

(** At two o'clock the clocks go forward to three.  A log that got its last entry at
    six to two is claimed at six past three, twelve minutes later. *)
Definition summer_hour (t : Z) : Z := ((t + if t <? 2 * an_hour then 0 else an_hour) `div` an_hour)%Z.
Definition just_logged : translog lock_table :=
  at_time (126 * a_minute) (other_process (t_Adds 5 [(1, 4); (2, 6)] (new_log (114 * a_minute))).2).
Example young_log_claimed : summer_hour (114 * a_minute) = 1%Z ∧ summer_hour (126 * a_minute) = 3%Z ∧
  (tl_GetOne u_String u_Parse summer_hour u_Format u_Unmarshal u_Sort u_hourLock just_logged).1 = Ret (5%N, u_Format 1, [(1, 4); (2, 6)]) ∧
  (t_GetOne just_logged).1 = Ret (NilUUID, EmptyString, []).
Proof. vm_compute. done. Qed.

(** A file that another process removes while the folder is listed: the sweep panics. *)
Definition with_gone (l : list string) (s : translog lock_table) : translog lock_table :=
  let f := tl_fs s in
  set_tl_fs (mkLogfolder (lf_there f) (lf_names f) (lf_objects f) (lf_next f) (lf_now f) (lf_faults f) l) s.
Example vanished_file_panics : (t_GetOne (with_gone [log_name u_String 6] two_dead)).1 = Panic.
Proof. vm_compute. reflexivity. Qed.

(** A priority log of a transaction that runs is taken for an old one a nanosecond
    after it was written, if the hour is over; one that was written at the full hour
    is not for an hour. *)
Abbreviation t_GetBatch now f :=
  (pl_GetBatch u_String u_Parse u_hour (λ _, Some []) u_Sort false 20 (set_lf_now now f)).
Abbreviation t_plog tid now := (pl_Add u_String (λ _, [1%Z]) tid [] (set_lf_now now (empty_folder 0))).2.
Example age_of_priority_logs :
  (t_GetBatch an_hour (t_plog 5 (an_hour - 1))).1 = Ret [(5%N, [])] ∧
  (t_GetBatch (an_hour + 59 * a_minute) (t_plog 5 an_hour)).1 = Ret [].
Proof. vm_compute. by split. Qed.

(** A transaction whose logger removes the log of its own ID in phase 1: what it logged
    before is lost. *)
Example own_log_removed :
  let s := (t_Adds 5 [(99, 1); (2, 1); (3, 1)] (new_log 0)).2 in
  (t_details 5 (tl_fs (t_Add 5 4 1 (t_Remove 5 s).2).2)).1 = Ret [(4, 1)].
Proof. vm_compute. reflexivity. Qed.
