(* ===== verification/FileTree.v ===== *)
(** * fs/fileio.go, internal/pathsafety: a tree of files

    The base folders of a database are directories of one tree.  A path is resolved
    to the names on the way to it.  Each call takes the next event of a script: how
    long it takes, and whether it fails, before it has any effect or, if it
    transfers bytes, after some of them.  The retries of [retryIO] are within a
    call. *)

From Stdlib Require Import Ascii.
From stdpp Require Import gmap.
From S2P Require Import Prelude Wp Handle FsLog.

(** ** Paths *)

Definition slash : ascii := "/"%char.

Fixpoint split_slash (s : string) : list string :=
  match s with
  | EmptyString => [EmptyString]
  | String c s =>
      if decide (c = slash) then EmptyString :: split_slash s
      else match split_slash s with
           | x :: l => String c x :: l
           | [] => [String c EmptyString]
           end
  end.

(** One element of a path: [.] and an empty name stay, [..] goes up. *)
Definition walk (p : list string) (x : string) : list string :=
  if decide (x = EmptyString ∨ x = ".") then p
  else if decide (x = "..") then take (length p - 1) p
  else p ++ [x].

Definition IsAbs (s : string) : bool := match s with String c _ => bool_decide (c = slash) | EmptyString => false end.

(** The names from the root, for a process that works in the directory [cwd]. *)
Definition resolve (cwd : list string) (s : string) : list string :=
  foldl walk (if IsAbs s then [] else cwd) (split_slash s).

(** [fmt.Sprintf("%s%c%s", a, os.PathSeparator, b)] *)
Definition join (a b : string) : string := String.append a (String slash b).

(** A name of one directory entry. *)
Definition plain (x : string) : Prop := split_slash x = [x] ∧ x ≠ EmptyString ∧ x ≠ "." ∧ x ≠ "..".

Lemma split_slash_ne s : split_slash s ≠ [].
Proof. destruct s as [|c s]; cbn; [done|]. case_decide; [done|]. by destruct (split_slash s). Qed.

Lemma split_join a b : split_slash (join a b) = split_slash a ++ split_slash b.
Proof.
  induction a as [|c a IH]; [done|]. change (join (String c a) b) with (String c (join a b)).
  cbn [split_slash]. rewrite IH. case_decide; [done|]. pose proof (split_slash_ne a). by destruct (split_slash a).
Qed.

Lemma resolve_join cwd a b : a ≠ EmptyString →
  resolve cwd (join a b) = foldl walk (resolve cwd a) (split_slash b).
Proof. intros Ha. unfold resolve. rewrite split_join, foldl_app. by destruct a. Qed.

Lemma walk_plain p x : plain x → walk p x = p ++ [x].
Proof. intros (_ & ? & ? & ?). unfold walk. do 2 (case_decide; [naive_solver|]). done. Qed.

Lemma resolve_plain cwd a b : a ≠ EmptyString → plain b → resolve cwd (join a b) = resolve cwd a ++ [b].
Proof. intros Ha Hb. rewrite resolve_join by done. rewrite (proj1 Hb). cbn. by apply walk_plain. Qed.

(** A base folder with a separator at its end is the same folder. *)
Lemma resolve_trailing cwd a : a ≠ EmptyString → resolve cwd (join a EmptyString) = resolve cwd a.
Proof. intros Ha. rewrite resolve_join by done. done. Qed.

Lemma resolve_empty_mid cwd a b : a ≠ EmptyString →
  resolve cwd (join a (String slash b)) = resolve cwd (join a b).
Proof.
  intros Ha. rewrite !resolve_join by done. change (String slash b) with (join EmptyString b).
  rewrite split_join. done.
Qed.

(** ** The tree *)

Record file := mkFile { f_bytes : list Z; f_ModTime : Z }.

Inductive ending := Fine | Untouched | Torn (k : nat).
Record event := mkEvent { ev_end : ending; ev_elapsed : Z }.

Record filetree := mkTree {
  t_files : gmap (list string) file;
  t_dirs : gset (list string);
  t_now : Z;
  t_script : list event;
}.
Definition set_t_files (m : gmap (list string) file) (s : filetree) : filetree := mkTree m (t_dirs s) (t_now s) (t_script s).
Definition set_t_dirs (d : gset (list string)) (s : filetree) : filetree := mkTree (t_files s) d (t_now s) (t_script s).

Inductive tree_error :=
| ErrNoDirectory (p : list string) | ErrWriteFile (p : list string) | ErrReadFile (p : list string)
| ErrMkdirAll (p : list string) | ErrRemoveAll (p : list string) | ErrRemoveFile (p : list string)
| ErrStat (p : list string) | ErrReadDirectory (p : list string) | ErrRefused.

Local Abbreviation F := (M filetree tree_error).

(** The next event; a script that has ended goes on without faults. *)
Definition next_event : F ending := λ s,
  match t_script s with
  | [] => (Ret Fine, mkTree (t_files s) (t_dirs s) (t_now s + 1) [])
  | e :: es => (Ret (ev_end e), mkTree (t_files s) (t_dirs s) (t_now s + ev_elapsed e) es)
  end.

Definition is_dir (p : list string) (s : filetree) : bool := bool_decide (p = [] ∨ p ∈ t_dirs s).
Definition parent (p : list string) : list string := take (length p - 1) p.
Definition contents (p : list string) (s : filetree) : option (list Z) := f_bytes <$> t_files s !! p.
Definition put (p : list string) (bs : list Z) (s : filetree) : filetree :=
  set_t_files (<[p := mkFile bs (t_now s)]> (t_files s)) s.

(** [os.WriteFile] *)
Definition os_WriteFile (p : list string) (bs : list Z) : F () :=
  e ← next_event;
  ok ← gets (λ s, is_dir (parent p) s && negb (is_dir p s));
  if negb ok then fail (ErrWriteFile p)
  else match (e : ending) with
       | Fine => modify (put p bs)
       | Untouched => fail (ErrWriteFile p)
       | Torn k => modify (put p (take k bs));; fail (ErrWriteFile p)
       end.

(** The directories on the way to a path. *)
Definition prefixes (p : list string) : list (list string) := (λ i, take i p) <$> seq 1 (length p).

(** [FileIO.MkdirAll]: a file that is in the way is an error. *)
Definition fio_MkdirAll (p : list string) : F () :=
  e ← next_event;
  ok ← gets (λ s, forallb (λ q, bool_decide (t_files s !! q = None)) (prefixes p));
  match (e : ending), (ok : bool) with
  | Fine, true => modify (λ s, set_t_dirs (list_to_set (prefixes p) ∪ t_dirs s) s)
  | _, _ => fail (ErrMkdirAll p)
  end.

(** [FileIO.WriteFile]: when the first write fails, the parent is made and the write
    repeated; if that cannot be made, the first error is the result. *)
Definition fio_WriteFile (p : list string) (bs : list Z) : F () :=
  handle (os_WriteFile p bs) mret (λ e,
    handle (fio_MkdirAll (parent p)) (λ _, os_WriteFile p bs) (λ _, fail e)).

Definition fio_ReadFile (p : list string) : F (list Z) :=
  e ← next_event;
  bs ← gets (contents p);
  match (e : ending), (bs : option (list Z)) with
  | Fine, Some bs => mret bs
  | _, _ => fail (ErrReadFile p)
  end.

(** [FileIO.Exists]: a call that fails says that the path exists. *)
Definition fio_Exists (p : list string) : F bool :=
  e ← next_event;
  there ← gets (λ s, is_dir p s || bool_decide (is_Some (t_files s !! p)));
  match (e : ending) with Fine => mret there | _ => mret true end.

(** [os.Stat] of a file: when it was last modified. *)
Definition os_Stat (p : list string) : F Z :=
  e ← next_event;
  f ← gets (λ s, t_files s !! p);
  match (e : ending), (f : option file) with
  | Fine, Some f => mret (f_ModTime f)
  | _, _ => fail (ErrStat p)
  end.

Definition fio_Remove (p : list string) : F () :=
  e ← next_event;
  there ← gets (λ s, bool_decide (is_Some (t_files s !! p)));
  match (e : ending), (there : bool) with
  | Fine, true => modify (λ s, set_t_files (base.delete p (t_files s)) s)
  | _, _ => fail (ErrRemoveFile p)
  end.

(** [os.RemoveAll]: a path that is not there is no error. *)
Definition below (p q : list string) : bool := bool_decide (take (length p) q = p).
Definition os_RemoveAll (p : list string) : F () :=
  e ← next_event;
  match (e : ending) with
  | Fine => modify (λ s, mkTree (filter (λ x, ¬ below p x.1) (t_files s)) (filter (λ q, ¬ below p q) (t_dirs s)) (t_now s) (t_script s))
  | _ => fail (ErrRemoveAll p)
  end.

(** [os.ReadDir]: the names in a directory, and whether each is a directory. *)
Definition child (p q : list string) : option string :=
  if decide (length q = S (length p) ∧ take (length p) q = p) then last q else None.
Definition entries (p : list string) (s : filetree) : list (string * bool) :=
  omap (λ q, (λ x, (x, true)) <$> child p q) (elements (t_dirs s)) ++
  omap (λ f, (λ x, (x, false)) <$> child p f.1) (map_to_list (t_files s)).
Definition fio_ReadDir (p : list string) : F (list (string * bool)) :=
  e ← next_event;
  ok ← gets (is_dir p);
  match (e : ending), (ok : bool) with
  | Fine, true => gets (entries p)
  | _, _ => fail (ErrReadDirectory p)
  end.

(** [copyFile]: open, create, copy. *)
Definition copyFile (src dst : list string) : F () :=
  bs ← fio_ReadFile src;
  os_WriteFile dst bs.

(** ** internal/pathsafety *)

Section safety.
(** [filepath.Abs] works in [cwd]; the home directory of the user, if it is known;
    [strings.TrimSpace]. *)
Context (cwd : list string) (home : option (list string)) (TrimSpace : string → string).

Definition backslash : ascii := "\"%char.
Fixpoint normalizeSlashes (s : string) : string :=
  match s with
  | EmptyString => EmptyString
  | String c s => String (if decide (c = backslash) then slash else c) (normalizeSlashes s)
  end.

Definition dangerousTargetList : list string :=
  ["/"; "/bin"; "/boot"; "/dev"; "/etc"; "/lib"; "/lib64"; "/proc"; "/root"; "/sbin"; "/sys"; "/usr"; "/var"; "/home";
   "/Users"; "/System"; "/Library"; "/Applications"; "/opt"; "C:\"; "C:\Windows"; "C:\Program Files"; "C:\Program Files (x86)"].
Definition dangerousTargets : list string := dangerousTargetList ++ (normalizeSlashes <$> dangerousTargetList).

(** The text of a clean absolute path. *)
Definition path_text (p : list string) : string :=
  match p with [] => "/" | _ => foldr (λ x s, String slash (String.append x s)) EmptyString p end.

Definition RejectDangerous (path : string) : F () :=
  let trimmed := TrimSpace path in
  if decide (trimmed = EmptyString) then fail ErrRefused
  else if decide (normalizeSlashes trimmed ∈ dangerousTargets) then fail ErrRefused
  else
    let clean := resolve cwd trimmed in
    if decide (clean = [] ∨ path_text clean ∈ dangerousTargets) then fail ErrRefused
    else if decide (home = Some clean) then fail ErrRefused
    else mret ().

(** [FileIO.RemoveAll] *)
Definition fio_RemoveAll (path : string) : F () := RejectDangerous path;; os_RemoveAll (resolve cwd path).
End safety.

(** ** Calls that succeed *)

Definition calm (s : filetree) : Prop := Forall (λ e, ev_end e = Fine) (t_script s).

Lemma wp_next_calm s (Q : ending → filetree → Prop) R :
  calm s → (∀ s', calm s' → t_files s' = t_files s → t_dirs s' = t_dirs s → Q Fine s') → wp next_event s Q R.
Proof.
  intros Hs HQ. unfold wp, next_event. destruct (t_script s) as [|e es] eqn:E.
  - apply HQ; [by apply Forall_nil_2|done|done].
  - assert (He : Forall (λ e, ev_end e = Fine) (e :: es)) by (by rewrite <- E). apply Forall_cons in He as [He Hes].
    rewrite He. by apply HQ.
Qed.

(** In a calm tree a write to a file of an existing directory has its effect. *)
Lemma wp_write_calm p bs s (Q : () → filetree → Prop) R :
  calm s → is_dir (parent p) s = true → is_dir p s = false →
  (∀ s' t, calm s' → t_files s' = <[p := mkFile bs t]> (t_files s) → t_dirs s' = t_dirs s → Q () s') →
  wp (fio_WriteFile p bs) s Q R.
Proof.
  intros Hs Hp Hd HQ. apply wp_handle. unfold os_WriteFile. wp_step. apply wp_next_calm; [done|].
  intros s' Hs' Hf Hds. wp_step. apply wp_gets. unfold is_dir in *. rewrite Hds, Hp, Hd. cbn [negb andb].
  apply wp_modify. apply wp_ret. apply (HQ _ (t_now s')); cbn; [done|by rewrite Hf|done].
Qed.

Lemma wp_read_calm p bs s (Q : list Z → filetree → Prop) R :
  calm s → contents p s = Some bs →
  (∀ s', calm s' → t_files s' = t_files s → t_dirs s' = t_dirs s → Q bs s') → wp (fio_ReadFile p) s Q R.
Proof.
  intros Hs Hp HQ. unfold fio_ReadFile. wp_step. apply wp_next_calm; [done|].
  intros s' Hs' Hf Hds. wp_step. apply wp_gets. unfold contents in *. rewrite Hf, Hp. apply wp_ret. by apply HQ.
Qed.

Lemma wp_exists_calm p s (Q : bool → filetree → Prop) R :
  calm s →
  (∀ s', calm s' → t_files s' = t_files s → t_dirs s' = t_dirs s →
    Q (is_dir p s || bool_decide (is_Some (t_files s !! p))) s') → wp (fio_Exists p) s Q R.
Proof.
  intros Hs HQ. unfold fio_Exists. wp_step. apply wp_next_calm; [done|].
  intros s' Hs' Hf Hds. wp_step. apply wp_gets. apply wp_ret. unfold is_dir. rewrite Hf, Hds. by apply HQ.
Qed.
