(* ===== verification/StoreJson.v ===== *)
(** * storeinfo.go as JSON, and the patch of two of its numbers

    A store's information is kept as the JSON of encoding/json.  An update of the
    count does not decode and encode it: patchJSONNumericField of
    fs/storerepository.go looks for the name of the field and replaces the number
    after it.  Here the encoding is written out up to the two numbers, so that the
    patch can be compared with encoding the changed record. *)

From Stdlib Require Import Ascii.
From S2P Require Import Prelude Wp Handle.

Definition dquote : Z := 34.
Definition comma : Z := 44.
Definition colon : Z := 58.
Definition closing : Z := 125.

(** The bytes of a text. *)
Fixpoint text (s : string) : list Z :=
  match s with EmptyString => [] | String c s => Z.of_N (N_of_ascii c) :: text s end.

(** ** Strings and numbers of encoding/json *)

Definition hex (d : Z) : Z := if (d <? 10)%Z then 48 + d else 87 + d.

(** [htmlSafeSet] *)
Definition html_safe (b : Z) : bool :=
  (32 <=? b)%Z && (b <? 128)%Z && negb (bool_decide (b ∈ [34; 38; 60; 62; 92]%Z)).

Definition escaped (b : Z) : list Z :=
  if bool_decide (b ∈ [92; 34]%Z) then [92; b]%Z
  else if decide (b = 8)%Z then [92; 98]%Z
  else if decide (b = 12)%Z then [92; 102]%Z
  else if decide (b = 10)%Z then [92; 110]%Z
  else if decide (b = 13)%Z then [92; 114]%Z
  else if decide (b = 9)%Z then [92; 116]%Z
  else text "\u00" ++ [hex (b / 16); hex (b `mod` 16)].

(** [utf8.DecodeRuneInString]: the size of a valid sequence of two to four bytes. *)
Definition cont (b : Z) : bool := (128 <=? b)%Z && (b <=? 191)%Z.
Definition between (lo hi b : Z) : bool := (lo <=? b)%Z && (b <=? hi)%Z.
Definition rune_size (bs : list Z) : option nat :=
  match bs with
  | b :: c :: bs =>
      if between 194 223 b then (if cont c then Some 2 else None)
      else match bs with
      | d :: bs =>
          if between 224 239 b then
            let second := if decide (b = 224)%Z then between 160 191 c else if decide (b = 237)%Z then between 128 159 c else cont c in
            if second && cont d then Some 3 else None
          else match bs with
          | e :: _ =>
              let second := if decide (b = 240)%Z then between 144 191 c else if decide (b = 244)%Z then between 128 143 c else cont c in
              if between 240 244 b && second && cont d && cont e then Some 4 else None
          | [] => None
          end
      | [] => None
      end
  | _ => None
  end.

Fixpoint json_chars (fuel : nat) (bs : list Z) : list Z :=
  match fuel, bs with
  | S fuel, b :: rest =>
      if (b <? 128)%Z then (if html_safe b then [b] else escaped b) ++ json_chars fuel rest
      else match rune_size bs with
           | None => text "\ufffd" ++ json_chars fuel rest
           | Some n =>
               (if bool_decide (take n bs ∈ [[226; 128; 168]; [226; 128; 169]]%Z)
                then text "\u202" ++ [hex (nth 2 bs 0%Z - 160)] else take n bs) ++ json_chars fuel (drop n bs)
           end
  | _, _ => []
  end.

Definition quote (s : string) : list Z := [dquote] ++ json_chars (length (text s)) (text s) ++ [dquote].

(** [strconv.AppendInt], in base ten. *)
Fixpoint digits (fuel : nat) (n : Z) : list Z :=
  match fuel with
  | O => []
  | S fuel => (if (n <? 10)%Z then [] else digits fuel (n / 10)) ++ [48 + n `mod` 10]%Z
  end.
Definition AppendInt (n : Z) : list Z :=
  (if (n <? 0)%Z then [45%Z] else []) ++ digits (S (Z.to_nat (Z.log2 (Z.abs n)))) (Z.abs n).

Definition json_bool (b : bool) : list Z := text (if b then "true" else "false").

Example quote_text : quote "a&b" = [dquote] ++ text "a\u0026b" ++ [dquote].
Proof. reflexivity. Qed.
Example AppendInt_negative : AppendInt (-1050) = text "-1050".
Proof. reflexivity. Qed.

(** ** The information about a store *)

Section info.
(** The members after the timestamp that the repository does not look at, and their
    JSON with the closing brace: custom data may have none. *)
Context {Rest : Type} (json_rest : Z → bool → Rest → option (list Z)).
(** [uuid.UUID.MarshalText] *)
Context (uuid_text : UUID → string).

(** [StoreInfo], in the order of its members.  [i_CountDelta] and
    [i_NeedsMetaDataSave] are not encoded. *)
Record info := mkInfo {
  i_Name : string;
  i_SlotLength : Z;
  i_IsUnique : bool;
  i_Description : string;
  i_RegistryTable : string;
  i_BlobTable : string;
  i_RootNodeID : UUID;
  i_Count : Z;
  i_CountDelta : Z;
  i_Timestamp : Z;
  i_StoreInfoCacheDuration : Z;
  i_IsStoreInfoCacheTTL : bool;
  i_rest : Rest;
  i_NeedsMetaDataSave : bool;
}.

Definition set_Count (c : Z) (i : info) : info :=
  mkInfo (i_Name i) (i_SlotLength i) (i_IsUnique i) (i_Description i) (i_RegistryTable i) (i_BlobTable i) (i_RootNodeID i)
    c (i_CountDelta i) (i_Timestamp i) (i_StoreInfoCacheDuration i) (i_IsStoreInfoCacheTTL i) (i_rest i) (i_NeedsMetaDataSave i).
Definition set_Timestamp (t : Z) (i : info) : info :=
  mkInfo (i_Name i) (i_SlotLength i) (i_IsUnique i) (i_Description i) (i_RegistryTable i) (i_BlobTable i) (i_RootNodeID i)
    (i_Count i) (i_CountDelta i) t (i_StoreInfoCacheDuration i) (i_IsStoreInfoCacheTTL i) (i_rest i) (i_NeedsMetaDataSave i).
Definition set_NeedsMetaDataSave (b : bool) (i : info) : info :=
  mkInfo (i_Name i) (i_SlotLength i) (i_IsUnique i) (i_Description i) (i_RegistryTable i) (i_BlobTable i) (i_RootNodeID i)
    (i_Count i) (i_CountDelta i) (i_Timestamp i) (i_StoreInfoCacheDuration i) (i_IsStoreInfoCacheTTL i) (i_rest i) b.
(** What is read back of what was encoded. *)
Definition persisted (i : info) : info :=
  mkInfo (i_Name i) (i_SlotLength i) (i_IsUnique i) (i_Description i) (i_RegistryTable i) (i_BlobTable i) (i_RootNodeID i)
    (i_Count i) 0 (i_Timestamp i) (i_StoreInfoCacheDuration i) (i_IsStoreInfoCacheTTL i) (i_rest i) false.

Definition field_name (k : string) : list Z := [dquote] ++ text k ++ [dquote].
Definition member (k : string) : list Z := field_name k ++ [colon].

Definition json_before (i : info) : list Z :=
  [123%Z] ++ member "name" ++ quote (i_Name i) ++ [comma] ++
  member "slot_length" ++ AppendInt (i_SlotLength i) ++ [comma] ++
  member "is_unique" ++ json_bool (i_IsUnique i) ++ [comma] ++
  member "description" ++ quote (i_Description i) ++ [comma] ++
  member "registry_table" ++ quote (i_RegistryTable i) ++ [comma] ++
  member "blob_table" ++ quote (i_BlobTable i) ++ [comma] ++
  member "root_node_id" ++ quote (uuid_text (i_RootNodeID i)) ++ [comma].

Definition json_of (i : info) (rest : list Z) : list Z :=
  json_before i ++ member "count" ++ AppendInt (i_Count i) ++ [comma] ++
  member "timestamp" ++ AppendInt (i_Timestamp i) ++ [comma] ++ rest.

(** [encoding.Marshal] *)
Definition Marshal_info (i : info) : option (list Z) :=
  json_of i <$> json_rest (i_StoreInfoCacheDuration i) (i_IsStoreInfoCacheTTL i) (i_rest i).
End info.

Arguments info : clear implicits.

(** ** The patch *)

Inductive patch_error := ErrFieldNotFound | ErrNoDelimiter | ErrNoValue.

Fixpoint starts (pat data : list Z) : bool :=
  match pat, data with
  | [], _ => true
  | p :: pat, b :: data => (p =? b)%Z && starts pat data
  | _, [] => false
  end.

(** [bytes.Index] *)
Fixpoint Index (pat data : list Z) : option nat :=
  if starts pat data then Some O
  else match data with [] => None | _ :: data => S <$> Index pat data end.

Fixpoint IndexByte (c : Z) (data : list Z) : option nat :=
  match data with [] => None | b :: data => if decide (b = c) then Some O else S <$> IndexByte c data end.

(** How many bytes satisfy a test before one does not. *)
Fixpoint span_length (P : Z → bool) (data : list Z) : nat :=
  match data with b :: data => if P b then S (span_length P data) else O | [] => O end.

Definition json_space (b : Z) : bool := bool_decide (b ∈ [32; 9; 10; 13]%Z).
Definition in_value (b : Z) : bool := negb (bool_decide (b = comma)) && negb (bool_decide (b = closing)).

Definition patchJSONNumericField (data : list Z) (field : string) (value : Z) : result patch_error (list Z) :=
  let key := field_name field in
  match Index key data with
  | None => Err ErrFieldNotFound
  | Some start =>
      match IndexByte colon (drop (start + length key) data) with
      | None => Err ErrNoDelimiter
      | Some c =>
          let p := start + length key + c + 1 in
          let valueStart := p + span_length json_space (drop p data) in
          let valueEnd := valueStart + span_length in_value (drop valueStart data) in
          if valueEnd <=? valueStart then Err ErrNoValue
          else Ok (take valueStart data ++ AppendInt value ++ drop valueEnd data)
      end
  end.

(** ** Where a name occurs *)

(** No occurrence of [pat] in [a ++ rest] begins in [a]. *)
Fixpoint clear (pat a rest : list Z) : Prop :=
  match a with [] => True | _ :: a' => starts pat (a ++ rest) = false ∧ clear pat a' rest end.

Lemma clear_app pat a b rest : clear pat (a ++ b) rest ↔ clear pat a (b ++ rest) ∧ clear pat b rest.
Proof.
  induction a as [|x a IH]; cbn [clear app]; [tauto|]. rewrite IH, <- app_assoc. tauto.
Qed.

Lemma starts_self pat rest : starts pat (pat ++ rest) = true.
Proof. induction pat as [|p pat IH]; cbn; [done|]. by rewrite Z.eqb_refl. Qed.

Lemma Index_clear pat a rest : clear pat a (pat ++ rest) → Index pat (a ++ pat ++ rest) = Some (length a).
Proof.
  induction a as [|x a IH]; cbn [clear]; intros Hc.
  - cbn [app length]. pose proof (starts_self pat rest) as Hs. by destruct (pat ++ rest) eqn:E; cbn [Index]; rewrite Hs.
  - destruct Hc as [Hs Hc]. cbn [app Index]. change (x :: a ++ pat ++ rest) with ((x :: a) ++ pat ++ rest). rewrite Hs, IH by done. done.
Qed.

(** The first bytes of a text differ from those of the name. *)
Fixpoint mismatch (pat x : list Z) : bool :=
  match pat, x with p :: pat, b :: x => if (p =? b)%Z then mismatch pat x else true | _, _ => false end.
Fixpoint all_mismatch (pat a : list Z) : bool :=
  match a with [] => true | _ :: a' => mismatch pat a && all_mismatch pat a' end.

Lemma mismatch_starts pat x rest : mismatch pat x = true → starts pat (x ++ rest) = false.
Proof.
  revert x. induction pat as [|p pat IH]; intros [|b x]; cbn; try done.
  destruct (p =? b)%Z eqn:E; intros Hm; [by apply IH|done].
Qed.

Lemma clear_literal pat a rest : all_mismatch pat a = true → clear pat a rest.
Proof.
  induction a as [|x a IH]; cbn [all_mismatch clear]; [done|]. intros [Hm Ha]%andb_prop.
  split; [|by apply IH]. by apply (mismatch_starts pat (x :: a)).
Qed.

(** Digits have no quotes. *)
Lemma clear_unquoted pat a rest : head pat = Some dquote → dquote ∉ a → clear pat a rest.
Proof.
  intros Hp. induction a as [|x a IH]; [done|]. intros Ha. apply not_elem_of_cons in Ha as [Hx Ha]. cbn [clear]. split; [|by apply IH].
  destruct pat as [|p pat]; [done|]. injection Hp as ->. cbn [app starts]. by rewrite (proj2 (Z.eqb_neq _ _)) by done.
Qed.

Lemma starts_app pat x y : starts pat (x ++ y) = true →
  starts pat x = true ∨ ∃ z, pat = x ++ z ∧ z ≠ [] ∧ starts z y = true.
Proof.
  revert pat. induction x as [|b x IH]; intros pat Hs.
  - destruct pat as [|p pat]; [by left|]. right. exists (p :: pat). done.
  - destruct pat as [|p pat]; [by left|]. cbn in *. apply andb_prop in Hs as [->%Z.eqb_eq Hs].
    destruct (IH _ Hs) as [Hl|(z & -> & Hz & Hy)]; [left|right].
    + by rewrite Z.eqb_refl.
    + exists z. done.
Qed.

Lemma Index_None_suffix pat a b : Index pat (a ++ b) = None → starts pat b = false.
Proof.
  induction a as [|x a IH]; cbn [app Index].
  - destruct b; cbn [Index]; by destruct (starts _ _).
  - destruct (starts pat (x :: a ++ b)); [done|]. intros Hi. apply IH. by destruct (Index pat (a ++ b)).
Qed.

(** A string between quotes that does not contain the name is clear of it, as the
    name has its quotes at its ends and a comma follows the string. *)
Lemma clear_quoted q w rest : Index ([dquote] ++ w ++ [dquote]) (q ++ [dquote]) = None →
  w ≠ [] → dquote ∉ w → head w ≠ Some comma → clear ([dquote] ++ w ++ [dquote]) (q ++ [dquote]) (comma :: rest).
Proof.
  intros Hi Hw Hq Hc. set (pat := [dquote] ++ w ++ [dquote]) in *.
  assert (Hall : ∀ x y, q ++ [dquote] = x ++ y → clear pat y (comma :: rest)); [|by apply (Hall [])].
  intros x y. revert x. induction y as [|b y IH]; intros x He; [done|]. cbn [clear]. split; cycle 1.
  { apply (IH (x ++ [b])). by rewrite <- app_assoc. }
  destruct (starts pat ((b :: y) ++ comma :: rest)) eqn:Es; [exfalso|done].
  destruct (starts_app _ _ _ Es) as [Hl|(z & Hp & Hz & Hy)].
  { rewrite He in Hi. apply Index_None_suffix in Hi. congruence. }
  assert (Hlast : last (b :: y) = Some dquote).
  { assert (Hl : last (x ++ b :: y) = Some dquote) by (rewrite <- He; by rewrite last_snoc).
    by rewrite last_app_cons in Hl. }
  destruct z as [|c z]; [done|]. cbn in Hy. apply andb_prop in Hy as [->%Z.eqb_eq _].
  unfold pat in Hp. cbn [app] in Hp. injection Hp as Hb Hp. destruct y as [|b' y].
  - destruct w as [|v w]; [done|]. cbn in Hp. injection Hp as -> _. done.
  - destruct (last (b' :: y)) as [l|] eqn:El; [|by rewrite last_None in El].
    assert (l = dquote) as -> by (change (last (b :: b' :: y)) with (last (b' :: y)) in Hlast; congruence).
    apply last_Some in El as [l' El]. rewrite El in Hp. destruct z as [|d z'] using rev_ind.
    + by apply app_inj_tail in Hp as [_ ?].
    + change (comma :: z' ++ [d]) with ((comma :: z') ++ [d]) in Hp. rewrite app_assoc in Hp. apply app_inj_tail in Hp as [-> _].
      apply Hq. rewrite !elem_of_app. left. right. left.
Qed.

(** ** The patch of an encoded record *)

Lemma digits_unquoted fuel n : (0 ≤ n)%Z → Forall (λ b, 48 ≤ b ≤ 57)%Z (digits fuel n).
Proof.
  revert n. induction fuel as [|fuel IH]; intros n Hn; cbn [digits]; [done|]. apply Forall_app. split.
  - destruct (n <? 10)%Z; [done|]. apply IH. by apply Z.div_pos.
  - apply Forall_singleton. pose proof (Z.mod_pos_bound n 10). lia.
Qed.

Lemma AppendInt_bytes n : Forall (λ b, b = 45 ∨ 48 ≤ b ≤ 57)%Z (AppendInt n) ∧ AppendInt n ≠ [].
Proof.
  unfold AppendInt. split.
  - apply Forall_app. split; [destruct (n <? 0)%Z; [apply Forall_singleton; by left|done]|].
    eapply Forall_impl; [apply digits_unquoted; lia|]. intros b Hb. by right.
  - intros [_ He]%app_nil. cbn [digits] in He. by apply app_nil in He as [_ ?].
Qed.

Lemma AppendInt_unquoted n : dquote ∉ AppendInt n.
Proof. intros Hi. destruct (AppendInt_bytes n) as [Hf _]. rewrite Forall_forall in Hf. specialize (Hf _ Hi). unfold dquote in Hf. lia. Qed.

Lemma span_app P x c rest : Forall (λ b, P b = true) x → P c = false → span_length P (x ++ c :: rest) = length x.
Proof. induction 1 as [|b x Hb Hx IH]; intros Hc; cbn [app span_length length]; [by rewrite Hc|]. rewrite Hb. by rewrite IH. Qed.

(** The patch of a member whose name does not occur before it. *)
Lemma patch_member a field old rest value :
  head (text field) ≠ None →
  clear (field_name field) a (member field ++ AppendInt old ++ comma :: rest) →
  patchJSONNumericField (a ++ member field ++ AppendInt old ++ comma :: rest) field value =
  Ok (a ++ member field ++ AppendInt value ++ comma :: rest).
Proof.
  intros Hf Hc. unfold patchJSONNumericField, member in *. cbv zeta. rewrite <- !app_assoc in *.
  rewrite Index_clear by done. set (key := field_name field) in *.
  assert (Hd : ∀ k x, drop (length a + length key + k) (a ++ key ++ x) = drop k x).
  { intros k x. rewrite <- drop_drop, <- drop_drop, !drop_app_length. done. }
  assert (Ht : ∀ k x, take (length a + length key + k) (a ++ key ++ x) = a ++ key ++ take k x).
  { intros k x. rewrite !take_app, !(take_ge a), !(take_ge key) by lia.
    replace (length a + length key + k - length a - length key) with k by lia. done. }
  rewrite <- (Nat.add_0_r (length a + length key)) at 1. rewrite Hd. cbn [drop app IndexByte]. rewrite decide_True by done. cbv beta iota.
  destruct (AppendInt_bytes old) as [Hb Hne].
  assert (Hs : span_length json_space (AppendInt old ++ comma :: rest) = 0).
  { destruct (AppendInt old) as [|b l]; [done|]. apply Forall_cons in Hb as [Hb _]. cbn [app span_length].
    replace (json_space b) with false; [done|]. symmetry. apply bool_decide_eq_false. set_unfold. lia. }
  replace (length a + length key + 0 + 1) with (length a + length key + 1) by lia.
  rewrite Hd. cbn [drop]. rewrite !drop_0, Hs, Nat.add_0_r, Hd. cbn [drop]. rewrite !drop_0.
  assert (Hv : span_length in_value (AppendInt old ++ comma :: rest) = length (AppendInt old)).
  { apply span_app; [|done]. eapply Forall_impl; [exact Hb|]. intros b Hr. cbv beta in Hr. unfold in_value, comma, closing.
    rewrite !bool_decide_eq_false_2 by lia. done. }
  rewrite Hv. assert (0 < length (AppendInt old)) by (destruct (AppendInt old); cbn; [done|lia]).
  rewrite (proj2 (Nat.leb_gt _ _)) by lia. f_equal.
  rewrite Ht. cbn [take]. replace (length a + length key + 1 + length (AppendInt old)) with (length a + length key + S (length (AppendInt old))) by lia.
  rewrite Hd. cbn [drop]. rewrite ?take_0, drop_app_length. by rewrite <- !app_assoc.
Qed.

(** ** Texts that hide a name *)

Lemma Index_None pat data : (∀ x y, data = x ++ y → starts pat y = false) → Index pat data = None.
Proof.
  induction data as [|b data IH]; intros Hs; cbn [Index]; [by rewrite (Hs [] [])|].
  rewrite (Hs [] (b :: data)) by done. rewrite IH; [done|]. intros x y He. apply (Hs (b :: x)). cbn. by rewrite He.
Qed.

Lemma starts_prefix pat data : starts pat data = true → ∃ z, data = pat ++ z.
Proof.
  revert data. induction pat as [|p pat IH]; intros data; [by exists data|]. destruct data as [|b data]; [done|]. cbn.
  intros [->%Z.eqb_eq Hs]%andb_prop. destruct (IH _ Hs) as [z ->]. by exists z.
Qed.

Lemma text_inj s1 s2 : text s1 = text s2 → s1 = s2.
Proof.
  revert s2. induction s1 as [|c s1 IH]; intros [|d s2]; cbn; [done..|]. intros [= Hc Hs].
  apply N2Z.inj in Hc. f_equal; [|by apply IH]. by rewrite <- (ascii_N_embedding c), <- (ascii_N_embedding d), Hc.
Qed.

(** A text that is encoded as it is. *)
Definition unescaped (s : string) : bool := forallb html_safe (text s).

Lemma quote_unescaped s : unescaped s = true → quote s = [dquote] ++ text s ++ [dquote].
Proof.
  unfold unescaped, quote. intros Hs. do 2 f_equal. induction (text s) as [|b l IH]; [done|].
  cbn [forallb length json_chars] in *. apply andb_prop in Hs as [Hb Hs]. rewrite Hb.
  assert (b <? 128 = true)%Z as ->; [|by rewrite IH].
  unfold html_safe in Hb. destruct (b <? 128)%Z; [done|]. by rewrite andb_false_r in Hb.
Qed.

Lemma unescaped_unquoted s : unescaped s = true → dquote ∉ text s.
Proof.
  unfold unescaped. rewrite forallb_forall. intros Hs Hd%list_elem_of_In. by specialize (Hs _ Hd).
Qed.

(** Of these only the name itself is taken for the field. *)
Lemma unescaped_hides field s : unescaped s = true → s ≠ field → Index (field_name field) (quote s) = None.
Proof.
  intros Hs Hne. rewrite quote_unescaped by done. apply Index_None. intros x y He.
  destruct (starts (field_name field) y) eqn:E; [exfalso|done]. apply starts_prefix in E as [z ->].
  pose proof (unescaped_unquoted _ Hs) as Hq. unfold field_name in He. destruct x as [|b x].
  - cbn [app] in He. injection He as He. rewrite <- app_assoc in He. destruct z as [|c z _] using rev_ind.
    + rewrite app_nil_r in He. apply app_inj_tail in He as [He _]. by apply text_inj in He.
    + replace (text field ++ [dquote] ++ z ++ [c]) with ((text field ++ [dquote] ++ z) ++ [c]) in He by (by rewrite <- !app_assoc).
      apply app_inj_tail in He as [He _].
      apply Hq. rewrite He. set_solver.
  - cbn [app] in He. injection He as _ He. destruct z as [|c z _] using rev_ind.
    + rewrite app_nil_r in He. replace (x ++ dquote :: text field ++ [dquote]) with ((x ++ dquote :: text field) ++ [dquote]) in He by (by rewrite <- app_assoc).
      apply app_inj_tail in He as [He _]. apply Hq. rewrite He. set_solver.
    + replace (x ++ dquote :: (text field ++ [dquote]) ++ z ++ [c]) with ((x ++ dquote :: (text field ++ [dquote]) ++ z) ++ [c]) in He
        by (rewrite <- !app_assoc; cbn [app]; by rewrite <- !app_assoc).
      apply app_inj_tail in He as [He _]. apply Hq. rewrite He. set_solver.
Qed.

(** The two patches of the fast path of [Update]. *)
Definition patch_info (data : list Z) (count timestamp : Z) : result patch_error (list Z) :=
  (patched ←? patchJSONNumericField data "count" count;
   patchJSONNumericField patched "timestamp" timestamp)%go.

Section theorem.
Context {Rest : Type} (json_rest : Z → bool → Rest → option (list Z)) (uuid_text : UUID → string).
Implicit Types i : info Rest.

(** The texts before the numbers; none of them may contain the name of a field with
    its quotes. *)
Definition texts_before i : list string :=
  [i_Name i; i_Description i; i_RegistryTable i; i_BlobTable i; uuid_text (i_RootNodeID i)].
Definition hides (field s : string) : Prop := Index (field_name field) (quote s) = None.
Definition patchable i : Prop := Forall (λ s, hides "count" s ∧ hides "timestamp" s) (texts_before i).

#[export] Instance patchable_dec i : Decision (patchable i).
Proof. unfold patchable, hides. apply _. Defined.

Lemma clear_text field s rest : hides field s → dquote ∉ text field → text field ≠ [] → head (text field) ≠ Some comma →
  clear (field_name field) (quote s) (comma :: rest).
Proof.
  unfold hides, quote, field_name. intros Hh Hd Hn Hc.
  pose proof (clear_quoted ([dquote] ++ json_chars (length (text s)) (text s)) (text field) rest) as Hq.
  rewrite <- app_assoc in Hq. by apply Hq.
Qed.

(** [json_before] is clear of a name that its texts hide and its own names are not. *)
Lemma clear_before field i rest :
  Forall (hides field) (texts_before i) → dquote ∉ text field → text field ≠ [] → head (text field) ≠ Some comma →
  (∀ k, k ∈ ["name"; "slot_length"; "is_unique"; "description"; "registry_table"; "blob_table"; "root_node_id"] →
    all_mismatch (field_name field) (member k) = true) →
  clear (field_name field) (json_before uuid_text i) rest.
Proof.
  intros Ht Hd Hn Hc Hk. unfold texts_before in Ht. rewrite !Forall_cons in Ht. destruct Ht as (H1 & H2 & H3 & H4 & H5 & _).
  assert (Hone : ∀ b r, b ≠ dquote → clear (field_name field) [b] r)
    by (intros b r Hb; apply clear_unquoted; [done|]; by rewrite list_elem_of_singleton).
  assert (Hbool : ∀ b r, clear (field_name field) (json_bool b) r).
  { intros b r. apply clear_unquoted; [done|]. destruct b; vm_compute; set_solver. }
  unfold json_before. rewrite !clear_app.
  repeat match goal with |- _ ∧ _ => split end;
  first [apply Hone; unfold comma, dquote; lia | apply clear_literal, Hk; set_solver
    | apply clear_text; [assumption..] | apply Hbool | apply clear_unquoted; [done|apply AppendInt_unquoted] ].
Qed.

Lemma names_mismatch field k : field = "count" ∨ field = "timestamp" →
  k ∈ ["name"; "slot_length"; "is_unique"; "description"; "registry_table"; "blob_table"; "root_node_id"] →
  all_mismatch (field_name field) (member k) = true.
Proof.
  intros Hf Hk. rewrite !elem_of_cons in Hk.
  destruct Hf as [->| ->], Hk as [->|[->|[->|[->|[->|[->|[->|Hk]]]]]]]; try reflexivity; by apply not_elem_of_nil in Hk.
Qed.

(** The patch of the count and the time in the encoding of a store is the
    encoding of the store with that count and time, if none of the texts before them
    contains the quoted name of one of the two fields.  *)
Theorem patch_is_encoding i bs count timestamp :
  patchable i → Marshal_info json_rest uuid_text i = Some bs →
  ∃ bs', Marshal_info json_rest uuid_text (set_Timestamp timestamp (set_Count count i)) = Some bs' ∧
    patch_info bs count timestamp = Ok bs'.
Proof.
  intros [Hcount Htime]%Forall_and (rest & Hr & ->)%fmap_Some_1.
  eexists. split; [unfold Marshal_info; cbn [i_StoreInfoCacheDuration i_IsStoreInfoCacheTTL i_rest set_Timestamp set_Count]; by rewrite Hr|].
  unfold patch_info, json_of. cbn [i_Count i_Timestamp set_Timestamp set_Count app].
  rewrite (patch_member _ "count"); [|done|].
  - cbn [result_bind].
    change (json_before uuid_text (set_Timestamp timestamp (set_Count count i))) with (json_before uuid_text i).
    set (mid := member "count" ++ AppendInt count ++ [comma]).
    assert (Hmid : ∀ x, json_before uuid_text i ++ member "count" ++ AppendInt count ++ comma :: x = (json_before uuid_text i ++ mid) ++ x)
      by (intros x; unfold mid; by rewrite <- !app_assoc).
    rewrite !Hmid. apply patch_member; [done|]. apply clear_app. split; [apply clear_before|]; try done; [vm_compute; set_solver|..].
    + intros k; apply names_mismatch; by right.
    + unfold mid. rewrite !clear_app. split; [by apply clear_literal|]. split; apply clear_unquoted; try done; [apply AppendInt_unquoted|].
      by rewrite list_elem_of_singleton.
  - apply clear_before; try done; [vm_compute; set_solver|].
    intros k; apply names_mismatch; by left.
Qed.
End theorem.
