(* ===== verification/Replication.v ===== *)
(** * fs/replicationtracker.go: active and passive folders

    A database that replicates has two base folders, one active and one passive.
    Which is active, and whether writing to the passive one has failed, is kept in
    each tracker, in a variable of the process, in the L2 cache and in a file of the
    folder that was active when it was written. *)

From Stdlib Require Import Ascii.
From stdpp Require Import gmap.
From S2P Require Import Prelude Wp Handle FsLog FileTree StoreJson.

(** [sop.L2Cache] for values of one type, kept as JSON under keys. *)
Class L2Structs (CS CE V : Type) := {
  l2s_Set : string → V → Z → M CS CE ();
  l2s_Get : string → M CS CE (option V);
  l2s_GetEx : string → Z → M CS CE (option V);
  l2s_Delete : string → M CS CE bool;
}.

(** The laws of a cache: an entry may be gone at any call; what is there is what was written last. *)
Class L2StructsLaws {CS CE V : Type} `(L2Structs CS CE V) := {
  cached : CS → gmap string V;
  law_Get k c : wp (l2s_Get k) c (λ r c', r = cached c' !! k ∧ cached c' ⊆ cached c) (λ _ c', cached c' ⊆ cached c);
  law_GetEx k d c : wp (l2s_GetEx k d) c (λ r c', r = cached c' !! k ∧ cached c' ⊆ cached c) (λ _ c', cached c' ⊆ cached c);
  law_Set k v d c : wp (l2s_Set k v d) c (λ _ c', cached c' ⊆ <[k := v]> (cached c)) (λ _ c', cached c' ⊆ cached c);
  law_Delete k c : wp (l2s_Delete k) c (λ _ c', cached c' ⊆ base.delete k (cached c)) (λ _ c', cached c' ⊆ cached c);
}.

Record ReplicationTrackedDetails := mkDetails {
  FailedToReplicate : bool;
  ActiveFolderToggler : bool;
  LogCommitChanges : bool;
}.
#[export] Instance details_dec : EqDecision ReplicationTrackedDetails.
Proof. solve_decision. Defined.

Definition isEqual (a b : ReplicationTrackedDetails) : bool :=
  bool_decide (ActiveFolderToggler a = ActiveFolderToggler b) && bool_decide (FailedToReplicate a = FailedToReplicate b).

Definition with_Failed (b : bool) (d : ReplicationTrackedDetails) : ReplicationTrackedDetails :=
  mkDetails b (ActiveFolderToggler d) (LogCommitChanges d).
Definition with_Toggler (b : bool) (d : ReplicationTrackedDetails) : ReplicationTrackedDetails :=
  mkDetails (FailedToReplicate d) b (LogCommitChanges d).
Definition with_Log (b : bool) (d : ReplicationTrackedDetails) : ReplicationTrackedDetails :=
  mkDetails (FailedToReplicate d) (ActiveFolderToggler d) b.

Record replicationTracker := mkTracker {
  rt_details : ReplicationTrackedDetails;
  rt_storesBaseFolders : list string;
  rt_replicate : bool;
}.

(** What a [fileIO] of a call has done so far. *)
Inductive action :=
| WriteAction (targetFilename : string) (contents : list Z)
| CreateAction (folderName : string)
| RemoveAction (folderName : string).

(** The tree of files, the L2 cache, the variable of the process, the tracker of the
    call, the actions it recorded and the number of lock IDs drawn. *)
Record repl {CS : Type} := mkRepl {
  r_tree : filetree;
  r_cache : CS;
  r_global : option ReplicationTrackedDetails;
  r_tracker : replicationTracker;
  r_actions : list action;
  r_drawn : nat;
}.
Arguments repl : clear implicits.

Inductive repl_error {CE : Type} :=
| ETree (e : tree_error)
| ECache (e : CE)
| EDecode
| EReadStatus (e : repl_error)
| ENotTwoFolders
| ELockFailed
| EStoreExists (name : string)
| EStoreMarshal (name : string)
| ERemoveStore (name : string) (e : repl_error)
| EWriteStoreList (e : repl_error)
| EJoined (es : list repl_error)
| EReplicateOff
| ENotFailed
| EBadHashMod.
Arguments repl_error : clear implicits.

Definition a_second : Z := 10 ^ 9.
Definition replicationStatusFilename : string := "replstat.txt".
Definition replicationStatusCacheTTLDuration : Z := 5 * 60 * a_second.
Definition commitChangesLogFolder : string := "commitlogs".

(** The JSON of the details. *)
Definition Marshal_details (d : ReplicationTrackedDetails) : list Z :=
  [123]%Z ++ member "FailedToReplicate" ++ json_bool (FailedToReplicate d) ++ [comma] ++
  member "ActiveFolderToggler" ++ json_bool (ActiveFolderToggler d) ++ [comma] ++
  member "LogCommitChanges" ++ json_bool (LogCommitChanges d) ++ [closing].

Section tracker.
Context {CS CE : Type} `{LD : L2Structs CS CE ReplicationTrackedDetails}.
(** The working directory, and what the JSON of a file is read as. *)
Context (cwd : list string) (Unmarshal_details : list Z → option ReplicationTrackedDetails).

Local Abbreviation repl := (repl CS).
Local Abbreviation error := (repl_error CE).
Local Abbreviation R := (M repl error).

Definition set_r_tree (t : filetree) (s : repl) : repl := mkRepl CS t (r_cache s) (r_global s) (r_tracker s) (r_actions s) (r_drawn s).
Definition set_r_cache (c : CS) (s : repl) : repl := mkRepl CS (r_tree s) c (r_global s) (r_tracker s) (r_actions s) (r_drawn s).
Definition set_r_global (g : option ReplicationTrackedDetails) (s : repl) : repl :=
  mkRepl CS (r_tree s) (r_cache s) g (r_tracker s) (r_actions s) (r_drawn s).
Definition set_r_tracker (t : replicationTracker) (s : repl) : repl :=
  mkRepl CS (r_tree s) (r_cache s) (r_global s) t (r_actions s) (r_drawn s).
Definition set_r_actions (l : list action) (s : repl) : repl :=
  mkRepl CS (r_tree s) (r_cache s) (r_global s) (r_tracker s) l (r_drawn s).
Definition set_r_drawn (n : nat) (s : repl) : repl :=
  mkRepl CS (r_tree s) (r_cache s) (r_global s) (r_tracker s) (r_actions s) n.
Definition set_details (d : ReplicationTrackedDetails) (s : repl) : repl :=
  set_r_tracker (mkTracker d (rt_storesBaseFolders (r_tracker s)) (rt_replicate (r_tracker s))) s.
Definition details (s : repl) : ReplicationTrackedDetails := rt_details (r_tracker s).

Definition on_tree {A} : M filetree tree_error A → R A := on r_tree set_r_tree ETree.
Definition on_cache {A} : M CS CE A → R A := on r_cache set_r_cache ECache.
(** An error that is only logged. *)
Definition logged {A} (m : R A) : R () := handle m (λ _, mret ()) (λ _, mret ()).

(** ** Folders and their entities *)

Definition base_folder (first : bool) (s : repl) : option string :=
  rt_storesBaseFolders (r_tracker s) !! (if first then 0 else 1).
Definition getActiveBaseFolder : R string := bf ← gets (λ s, base_folder (ActiveFolderToggler (details s)) s); or_panic bf.
Definition getPassiveBaseFolder : R string := bf ← gets (λ s, base_folder (negb (ActiveFolderToggler (details s))) s); or_panic bf.

Definition format_entity (bf entityName : string) : string :=
  if HasSuffix bf "/" then String.append bf entityName else join bf entityName.
Definition formatActiveFolderEntity (entityName : string) : R string :=
  bf ← getActiveBaseFolder; mret (format_entity bf entityName).
Definition formatPassiveFolderEntity (entityName : string) : R string :=
  bf ← getPassiveBaseFolder; mret (format_entity bf entityName).
Definition active_path (entityName : string) : R (list string) :=
  fn ← formatActiveFolderEntity entityName; mret (resolve cwd fn).
Definition passive_path (entityName : string) : R (list string) :=
  fn ← formatPassiveFolderEntity entityName; mret (resolve cwd fn).

(** ** Status *)

Definition getReplicationStatusCacheKey (s : repl) : string :=
  match rt_storesBaseFolders (r_tracker s) with
  | f :: _ => String.append "Rreplstat:" f
  | [] => "Rreplstat"
  end.

(** [syncWithL2Cache(ctx, true)] and [(ctx, false)] *)
Definition sync_push : R () :=
  key ← gets getReplicationStatusCacheKey;
  found ← on_cache (l2s_GetEx key replicationStatusCacheTTLDuration);
  g ← gets r_global;
  d ← or_panic g;
  match (found : option ReplicationTrackedDetails) with
  | None => on_cache (l2s_Set key d replicationStatusCacheTTLDuration)
  | Some rtd => if isEqual rtd d then mret () else on_cache (l2s_Set key d replicationStatusCacheTTLDuration)
  end.
Definition sync_pull : R () :=
  key ← gets getReplicationStatusCacheKey;
  found ← on_cache (l2s_GetEx key replicationStatusCacheTTLDuration);
  match (found : option ReplicationTrackedDetails) with
  | None => mret ()
  | Some rtd => modify (set_r_global (Some rtd))
  end.

Definition writeReplicationStatus (p : list string) : R () :=
  d ← gets details; on_tree (fio_WriteFile p (Marshal_details d)).

Definition readReplicationStatus (p : list string) : R () :=
  ba ← on_tree (fio_ReadFile p);
  match Unmarshal_details ba with
  | Some d => modify (set_details d)
  | None => fail EDecode
  end.

Definition flip : R () := modify (λ s, set_details (with_Toggler (negb (ActiveFolderToggler (details s))) (details s)) s).

Definition readStatusFromHomeFolder : R () :=
  active ← active_path replicationStatusFilename;
  passive ← passive_path replicationStatusFilename;
  there ← on_tree (fio_Exists active);
  if negb there then
    there2 ← on_tree (fio_Exists passive);
    if (there2 : bool) then handle (readReplicationStatus passive) (λ _, flip) (λ _, mret ()) else mret ()
  else
    handle (on_tree (os_Stat active))
      (λ t, handle (on_tree (os_Stat passive)) (λ t2, if (t <? t2)%Z then flip else mret ()) (λ _, mret ()))
      (λ _, on_tree (os_Stat passive);; flip);;
    p ← active_path replicationStatusFilename;
    readReplicationStatus p.

(** [NewReplicationTracker]: the tracker of the call. *)
Definition NewReplicationTracker (storesBaseFolders : list string) (replicate : bool) : R () :=
  modify (set_r_tracker (mkTracker (mkDetails false true false) storesBaseFolders replicate));;
  if negb replicate then mret ()
  else
    logged sync_pull;;
    g ← gets r_global;
    match (g : option ReplicationTrackedDetails) with
    | Some d => modify (set_details d)
    | None =>
        handle readStatusFromHomeFolder mret (λ e, fail (EReadStatus e));;
        modify (λ s, set_r_global (Some (details s)) s);;
        logged sync_push
    end.

(** ** Failures *)

Definition handleFailedToReplicate : R () :=
  replicate ← gets (λ s, rt_replicate (r_tracker s));
  failed ← gets (λ s, FailedToReplicate (details s));
  if negb replicate || failed then mret ()
  else
    logged sync_pull;;
    known ← gets (λ s, from_option FailedToReplicate false (r_global s));
    if (known : bool) then modify (λ s, set_details (with_Failed true (details s)) s)
    else
      modify (λ s, set_details (with_Failed true (details s)) s);;
      modify (λ s, set_r_global (with_Failed true <$> r_global s) s);;
      p ← active_path replicationStatusFilename;
      logged (writeReplicationStatus p);;
      logged sync_push.

Definition toggled (s : repl) : bool :=
  from_option (λ g, bool_decide (ActiveFolderToggler g = negb (ActiveFolderToggler (details s)))) false (r_global s).

Definition failover : R () :=
  already ← gets (λ s, from_option (λ _, toggled s || FailedToReplicate (details s)) false (r_global s));
  if (already : bool) then mret ()
  else
    logged sync_pull;;
    already2 ← gets toggled;
    if (already2 : bool) then mret ()
    else
      modify (λ s, set_details (with_Failed true (details s)) s);;
      p ← passive_path replicationStatusFilename;
      writeReplicationStatus p;;
      flip;;
      modify (λ s, set_r_global (Some (details s)) s);;
      logged sync_push.

(** [TriggerFailover] *)
Definition TriggerFailover (storesBaseFolders : list string) (replicate : bool) : R () :=
  NewReplicationTracker storesBaseFolders replicate;; failover.
End tracker.
