(* ===== verification/StoreRepo.v ===== *)
(** * fs/storerepository.go: the information about stores

    A directory for each store with a file of JSON, a list of the stores, and the
    L2 cache in front of them.  A call that changes something holds locks of the L2
    cache; the file system, the folders and the actions to replicate are those of
    Replication. *)

From Stdlib Require Import Ascii.
From stdpp Require Import gmap.
From S2P Require Import Prelude Wp Handle HashmapSpec Stores NodeRepo TwoPhase FsLog FileTree StoreJson Replication.

(** [defer]: a call that is made however the one before it ends. *)
Definition deferring {S E A} (d : M S E ()) (m : M S E A) : M S E A := λ s,
  let '(o, s1) := m s in
  match d s1 with (Panic, s2) => (Panic, s2) | (_, s2) => (o, s2) end.

Lemma wp_deferring {S E A} (d : M S E ()) (m : M S E A) s Q R :
  wp m s (λ a s1, wp d s1 (λ _ s2, Q a s2) (λ _ s2, Q a s2)) (λ e s1, wp d s1 (λ _ s2, R e s2) (λ _ s2, R e s2)) →
  wp (deferring d m) s Q R.
Proof.
  unfold wp, deferring. destruct (m s) as [[a|e|] s1]; [| |done]; by destruct (d s1) as [[[]|e'|] s2].
Qed.

Section repository.
Context {CS CE Rest : Type} `{LK : Locker CS CE} `{LI : L2Structs CS CE (info Rest)}
  `{LD : L2Structs CS CE ReplicationTrackedDetails}.
(** The working directory, the home directory, [strings.TrimSpace]; the [n]-th call
    of [sop.NewUUID]; the order in which a map is ranged over. *)
Context (cwd : list string) (home : option (list string)) (TrimSpace : string → string) (gen : nat → UUID)
  (range_names : gset string → list string).
(** JSON: what is not written out in StoreJson, and what bytes are read as. *)
Context (json_rest : Z → bool → Rest → option (list Z)) (uuid_text : UUID → string)
  (Unmarshal_info : list Z → option (info Rest)) (Unmarshal_names : list Z → option (list string)).

Local Abbreviation info := (info Rest).
Local Abbreviation repl := (repl CS).
Local Abbreviation R := (M repl (repl_error CE)).
Local Abbreviation on_cache := (@on_cache CS CE _).
Local Abbreviation on_tree := (@on_tree CS CE _).

Definition lockStoreListKey : string := "infs_sr".
Definition lockStoreListDuration : Z := 10 * 60 * a_second.
Definition updateStoresLockDuration : Z := 15 * 60 * a_second.
Definition storeListFilename : string := "storelist.txt".
Definition StoreInfoFilename : string := "storeinfo.txt".
Definition RegistryHashModValueFilename : string := "reghashmod.txt".

(** The JSON of a list of names. *)
Definition Marshal_names (names : list string) : list Z :=
  [91]%Z ++ concat (imap (λ i s, (if decide (i = 0) then [] else [comma]) ++ quote s) names) ++ [93]%Z.

(** The path of a store's file: [Update] and [Add] begin it with a separator. *)
Definition info_file (name : string) : string := join name StoreInfoFilename.
Definition info_path (name : string) : string := String slash (info_file name).

(** ** fileiowithreplication.go *)

Definition record_action (a : action) : R () := modify (λ s, set_r_actions (r_actions s ++ [a]) s).
Definition new_writer : R () := modify (set_r_actions []).

Definition exists_ (fn : string) : R bool := p ← active_path cwd fn; on_tree (fio_Exists p).
Definition read_ (fn : string) : R (list Z) := p ← active_path cwd fn; on_tree (fio_ReadFile p).
Definition write_ (trackActions : bool) (fn : string) (bs : list Z) : R () :=
  p ← active_path cwd fn;
  on_tree (fio_WriteFile p bs);;
  if trackActions then record_action (WriteAction fn bs) else mret ().
Definition createStore (trackActions : bool) (folder : string) : R () :=
  p ← active_path cwd folder;
  on_tree (fio_MkdirAll p);;
  if trackActions then record_action (CreateAction folder) else mret ().
Definition removeStore (trackActions : bool) (folder : string) : R () :=
  fn ← formatActiveFolderEntity folder;
  on_tree (fio_RemoveAll cwd home TrimSpace fn);;
  if trackActions then record_action (RemoveAction folder) else mret ().

Definition replicate_action (a : action) : R () :=
  match a with
  | WriteAction fn bs => p ← passive_path cwd fn; on_tree (fio_WriteFile p bs)
  | CreateAction folder => p ← passive_path cwd folder; on_tree (fio_MkdirAll p)
  | RemoveAction folder => fn ← formatPassiveFolderEntity folder; on_tree (fio_RemoveAll cwd home TrimSpace fn)
  end.
Fixpoint replicate_actions (l : list action) : R () :=
  match l with [] => mret () | a :: l => replicate_action a;; replicate_actions l end.
Definition replicate_ : R () :=
  on_ ← gets (λ s, rt_replicate (r_tracker s));
  if negb on_ then mret ()
  else l ← gets r_actions; replicate_actions l;; modify (set_r_actions []).

(** ** Locks and the cache *)

Definition formatCacheKey (name : string) : R string :=
  bf ← getActiveBaseFolder; mret (String.append bf (String.append ":" name)).

Fixpoint CreateLockKeys (keys : list string) : R (list LockKey) :=
  match keys with
  | [] => mret []
  | k :: keys =>
      id ← gets (λ s, gen (r_drawn s));
      modify (λ s, set_r_drawn (S (r_drawn s)) s);;
      ks ← CreateLockKeys keys;
      mret (mkLockKey (NamedKey k) id :: ks)
  end.

(** [sop.Retry]: the first attempt and five more. *)
Fixpoint lock_attempts (n : nat) (duration : Z) (ks : list LockKey) : R () :=
  let again (e : repl_error CE) := match n with O => fail e | S n => lock_attempts n duration ks end in
  handle (on_cache (locks_DualLock duration ks))
    (λ ok, if (ok : bool) then mret () else again ELockFailed)
    again.
Definition DualLock_retry (duration : Z) (ks : list LockKey) : R () := lock_attempts 5 duration ks.
Definition Unlock_ (ks : list LockKey) : R () := on_cache (locks_Unlock ks).

(** The cache keeps the JSON of the information; an error is logged. *)
Definition cache_info (name : string) (i : info) : R () :=
  key ← formatCacheKey name;
  logged (on_cache (l2s_Set key (persisted i) (i_StoreInfoCacheDuration i))).

(** ** Reading *)

(** [GetAll] *)
Definition GetAll : R (option (list string)) :=
  there ← exists_ storeListFilename;
  if negb there then mret None
  else
    ba ← read_ storeListFilename;
    match Unmarshal_names ba with Some l => mret (Some l) | None => fail EDecode end.

(** [GetWithTTL]: what is cached comes first. *)
Definition get_cached (isCacheTTL : bool) (cacheDuration : Z) (name : string) : R (option info) :=
  key ← formatCacheKey name;
  handle (on_cache (if isCacheTTL then l2s_GetEx key cacheDuration else l2s_Get key)) mret (λ _, mret None).

Fixpoint look_in_cache (isCacheTTL : bool) (cacheDuration : Z) (names : list string) : R (list info * list string) :=
  match names with
  | [] => mret ([], [])
  | n :: names =>
      found ← get_cached isCacheTTL cacheDuration n;
      r ← look_in_cache isCacheTTL cacheDuration names;
      mret (match (found : option info) with Some i => (i :: (r : list info * list string).1, r.2) | None => (r.1, n :: r.2) end)
  end.

Fixpoint load_files (names : list string) : R (list info) :=
  match names with
  | [] => mret []
  | n :: names =>
      there ← exists_ (info_file n);
      if negb there then load_files names
      else
        ba ← read_ (info_file n);
        match Unmarshal_info ba with
        | None => fail EDecode
        | Some store =>
            cache_info (i_Name store) store;;
            stores ← load_files names;
            mret (store :: stores)
        end
  end.

Definition GetWithTTL (isCacheTTL : bool) (cacheDuration : Z) (names : list string) : R (list info) :=
  r ← look_in_cache isCacheTTL cacheDuration names;
  match (r : list info * list string) with
  | (stores, []) => mret stores
  | (stores, notInCache) => loaded ← load_files notInCache; mret (stores ++ loaded)
  end.
Definition Get (names : list string) : R (list info) := GetWithTTL false 0 names.

(** [getFromCache] *)
Fixpoint getFromCache (names : list string) : R (list info) :=
  match names with
  | [] => mret []
  | n :: names =>
      found ← get_cached false 0 n;
      stores ← getFromCache names;
      mret (match (found : option info) with Some i => i :: stores | None => stores end)
  end.

(** ** Adding *)

Fixpoint merge_names (names : list string) (known : gset string) : result (repl_error CE) (gset string) :=
  match names with
  | [] => Ok known
  | n :: names => if decide (n ∈ known) then Err (EStoreExists n) else merge_names names ({[n]} ∪ known)
  end.

Fixpoint write_infos (stores : list info) : R () :=
  match stores with
  | [] => mret ()
  | x :: stores =>
      createStore true (i_Name x);;
      match Marshal_info json_rest uuid_text x with
      | None => fail (EStoreMarshal (i_Name x))
      | Some ba => write_ true (info_path (i_Name x)) ba;; write_infos stores
      end
  end.
Fixpoint cache_infos (stores : list info) : R () :=
  match stores with [] => mret () | x :: stores => cache_info (i_Name x) x;; cache_infos stores end.

Definition Add (stores : list info) : R () :=
  if decide (length stores = 0) then mret ()
  else
    key ← formatCacheKey lockStoreListKey;
    lk ← CreateLockKeys [key];
    DualLock_retry lockStoreListDuration lk;;
    deferring (Unlock_ lk) (
      sl ← GetAll;
      match merge_names (i_Name <$> stores) (list_to_set (from_option id [] (sl : option (list string)))) with
      | Err e => fail e
      | Ok storesLookup =>
          new_writer;;
          (if (sl : option (list string)) then mret () else createStore true EmptyString);;
          write_ true storeListFilename (Marshal_names (range_names storesLookup));;
          write_infos stores;;
          replicate_;;
          cache_infos stores
      end).

(** ** Updating *)

(** The count and the time are patched into the file; [false] when that fails. *)
Definition fast_write (name : string) (count timestamp : Z) : R bool :=
  handle (read_ (info_path name))
    (λ ba, match patch_info ba count timestamp with
           | Ok patched => handle (write_ true (info_path name) patched) (λ _, mret true) (λ _, mret false)
           | Err _ => mret false
           end)
    (λ _, mret false).

(** The closure [undo], for the stores that were written and what they were before;
    its errors are ignored. *)
Definition undo_one (x original : info) : R () :=
  sis ← handle (GetWithTTL (i_IsStoreInfoCacheTTL x) (i_StoreInfoCacheDuration x) [i_Name x]) mret (λ _, mret []);
  match (sis : list info) with
  | [] => mret ()
  | si :: _ =>
      let si := set_Timestamp (i_Timestamp original) (set_Count (wrap_s 64 (i_Count si - i_CountDelta x)) si) in
      fast ← (if negb (bool_decide (i_Name si = EmptyString)) && negb (i_NeedsMetaDataSave x)
              then fast_write (i_Name x) (i_Count si) (i_Timestamp si) else mret false);
      if (fast : bool) then cache_info (i_Name si) si
      else match Marshal_info json_rest uuid_text si with
           | None => mret ()
           | Some ba =>
               handle (write_ true (info_path (i_Name x)) ba)
                 (λ _, cache_info (i_Name si) (set_NeedsMetaDataSave false si)) (λ _, mret ())
           end
  end.
Fixpoint undo (done : list (info * info)) : R () :=
  match done with [] => mret () | (x, original) :: done => undo_one x original;; undo done end.

(** The loop over the sorted stores; [done] are those already written. *)
Fixpoint update_loop (done : list (info * info)) (stores : list info) : R (list info) :=
  match stores with
  | [] => mret done.*1
  | x :: stores =>
      r ← handle (GetWithTTL (i_IsStoreInfoCacheTTL x) (i_StoreInfoCacheDuration x) [i_Name x])
            (λ sis, mret (sis, None)) (λ e, mret ([], Some e));
      match (r : list info * option (repl_error CE)) with
      | ([], err) => undo done;; match err with Some e => fail e | None => mret [] end
      | (si :: _, _) =>
          let x := set_Count (wrap_s 64 (i_Count si + i_CountDelta x)) x in
          fast ← (if negb (bool_decide (i_Name si = EmptyString)) && negb (i_NeedsMetaDataSave x)
                  then fast_write (i_Name x) (i_Count x) (i_Timestamp x) else mret false);
          if (fast : bool) then cache_info (i_Name x) x;; update_loop (done ++ [(x, si)]) stores
          else match Marshal_info json_rest uuid_text x with
               | None => undo done;; fail (EStoreMarshal (i_Name x))
               | Some ba =>
                   handle (write_ true (info_path (i_Name x)) ba)
                     (λ _, let x := set_NeedsMetaDataSave false x in
                           cache_info (i_Name x) x;; update_loop (done ++ [(x, si)]) stores)
                     (λ e, undo done;; fail e)
               end
      end
  end.

(** [slices.SortFunc] by name. *)
Definition name_le (x y : info) : Prop := string_le (i_Name x) (i_Name y).
#[export] Instance name_le_dec : RelDecision name_le.
Proof. intros x y. unfold name_le. apply _. Defined.
Definition sort_stores (stores : list info) : list info := merge_sort name_le stores.

Fixpoint format_keys (names : list string) : R (list string) :=
  match names with [] => mret [] | n :: names => k ← formatCacheKey n; ks ← format_keys names; mret (k :: ks) end.

Definition Update (stores : list info) : R (list info) :=
  if decide (length stores = 0) then mret []
  else
    let stores := sort_stores stores in
    keys ← format_keys (i_Name <$> stores);
    lockKeys ← CreateLockKeys keys;
    handle (DualLock_retry updateStoresLockDuration lockKeys) mret (λ e, logged (Unlock_ lockKeys);; fail e);;
    new_writer;;
    deferring (Unlock_ lockKeys) (update_loop [] stores).

(** ** Removing *)

Fixpoint remove_loop (names : list string) (errs : list (repl_error CE)) : R (list (repl_error CE)) :=
  match names with
  | [] => mret errs
  | n :: names =>
      key ← formatCacheKey n;
      logged (on_cache (l2s_Delete (V := info) key));;
      errs ← handle (removeStore true n) (λ _, mret errs) (λ e, mret (errs ++ [ERemoveStore n e]));
      remove_loop names errs
  end.

Definition Remove (storeNames : list string) : R () :=
  key ← formatCacheKey lockStoreListKey;
  lk ← CreateLockKeys [key];
  DualLock_retry lockStoreListDuration lk;;
  deferring (Unlock_ lk) (
    sl ← GetAll;
    new_writer;;
    errs ← remove_loop storeNames [];
    let storesLookup := list_to_set (from_option id [] (sl : option (list string))) ∖ list_to_set storeNames : gset string in
    let storeList := merge_sort string_le (elements storesLookup) in
    handle (write_ true storeListFilename (Marshal_names storeList)) mret (λ e, fail (EWriteStoreList e));;
    errs ← handle replicate_ (λ _, mret errs) (λ e, mret (errs ++ [e]));
    match (errs : list (repl_error CE)) with [] => mret () | _ => fail (EJoined errs) end).

(** ** Replication *)

Definition Replicate (stores : list info) : R () :=
  on_ ← gets (λ s, rt_replicate (r_tracker s));
  failed ← gets (λ s, FailedToReplicate (details s));
  if negb on_ || failed then mret ()
  else
    (fix go (stores : list info) : R () :=
       match stores with
       | [] => mret ()
       | x :: stores =>
           match Marshal_info json_rest uuid_text x with
           | None => handleFailedToReplicate cwd;; fail (EStoreMarshal (i_Name x))
           | Some ba =>
               p ← passive_path cwd (info_file (i_Name x));
               handle (on_tree (fio_WriteFile p ba)) (λ _, go stores) (λ e, handleFailedToReplicate cwd;; fail e)
           end
       end) stores.
End repository.
