(* ===== verification/ReplicationProps.v ===== *)
(** * What trackers know of a failure

    A tracker that cannot write to the passive folder stops replicating, and so does
    every tracker made after it while the cache works.  After a failover a process
    that starts anew finds the same folder active, if the failed one never had a
    status file. *)

From stdpp Require Import gmap.
From S2P Require Import Prelude Wp Handle HashmapSpec Stores NodeRepo TwoPhase FsLog FileTree StoreJson Replication StoreRepo.

(** ** Replication that failed *)

Section stops.
Context {CS CE Rest : Type} `{LD : L2Structs CS CE ReplicationTrackedDetails}.
Context (cwd : list string) (json_rest : Z → bool → Rest → option (list Z)) (uuid_text : UUID → string).

Local Abbreviation repl := (repl CS).
Local Abbreviation R := (M repl (repl_error CE)).
Implicit Types s : repl.

(** The call changes neither the tracker's details nor, by itself, the process's. *)
Definition same_tracker s s' : Prop := r_tracker s' = r_tracker s.
#[local] Instance same_tracker_preorder : PreOrder same_tracker.
Proof. split; [by intros s|]. unfold same_tracker. intros s1 s2 s3 H1 H2. by rewrite H2. Qed.

Lemma moves_on_tree {A} (m : M filetree tree_error A) : moves same_tracker (on_tree m : R A).
Proof. by apply moves_on. Qed.
Lemma moves_on_cache {A} (m : M CS CE A) : moves same_tracker (on_cache m : R A).
Proof. by apply moves_on. Qed.

Lemma moves_or_panic {A} (o : option A) : moves same_tracker (or_panic o : R A).
Proof. destruct o; [apply (moves_ret _)|apply (moves_panic _)]. Qed.

Lemma moves_logged {A} (m : R A) : moves same_tracker m → moves same_tracker (logged m).
Proof. intros Hm. apply (moves_handle _); [done|intros; apply (moves_ret _)..]. Qed.

Lemma moves_active_path e : moves same_tracker (active_path cwd e : R _).
Proof.
  unfold active_path, formatActiveFolderEntity, getActiveBaseFolder.
  repeat first [apply (moves_bind _)|apply (moves_gets _)|apply moves_or_panic|apply (moves_ret _)|intros ?].
Qed.
Lemma wlp_passive_path e s : wlp (passive_path cwd e : R _) s (λ _ s', s' = s) (λ _ _, False).
Proof.
  unfold passive_path, formatPassiveFolderEntity, getPassiveBaseFolder. repeat wlp_step.
  destruct (base_folder _ s); [|apply wlp_panic]. by repeat wlp_step.
Qed.

Lemma moves_sync_pull : moves same_tracker (sync_pull : R ()).
Proof.
  unfold sync_pull. apply (moves_bind _); [apply (moves_gets _)|intros k]. apply (moves_bind _); [apply moves_on_cache|].
  intros [d|]; [by apply (moves_modify _)|apply (moves_ret _)].
Qed.
Lemma moves_sync_push : moves same_tracker (sync_push : R ()).
Proof.
  unfold sync_push. apply (moves_bind _); [apply (moves_gets _)|intros k]. apply (moves_bind _); [apply moves_on_cache|intros found].
  apply (moves_bind _); [apply (moves_gets _)|intros g]. apply (moves_bind _); [apply moves_or_panic|intros d].
  destruct found as [rtd|]; [|apply moves_on_cache]. destruct (isEqual rtd d); [apply (moves_ret _)|apply moves_on_cache].
Qed.
Lemma moves_writeStatus p : moves same_tracker (writeReplicationStatus p : R ()).
Proof. unfold writeReplicationStatus. apply (moves_bind _); [apply (moves_gets _)|intros d; apply moves_on_tree]. Qed.

Lemma wlp_moves {A} (m : R A) s (Q : A → repl → Prop) (R' : repl_error CE → repl → Prop) :
  moves same_tracker m → (∀ a s', same_tracker s s' → Q a s') → (∀ e s', same_tracker s s' → R' e s') → wlp m s Q R'.
Proof. intros Hm HQ HR. eapply wlp_mono; [apply Hm|done|done]. Qed.

(** An error that is logged is not one of the call. *)
Lemma wlp_logged {A} (m : R A) s : moves same_tracker m → wlp (logged m) s (λ _ s', same_tracker s s') (λ _ _, False).
Proof. intros Hm. apply wlp_handle. eapply wlp_mono; [apply Hm|intros; by apply wlp_ret..]. Qed.

(** What is done once the tracker has the failure. *)
Lemma moves_spread : moves same_tracker
  ((modify (λ s, set_r_global (with_Failed true <$> r_global s) s) : R ());;
   p ← active_path cwd replicationStatusFilename;
   logged (writeReplicationStatus p);;
   logged sync_push).
Proof.
  apply (moves_bind _); [by apply (moves_modify _)|intros []]. apply (moves_bind _); [apply moves_active_path|intros p].
  apply (moves_bind _); [apply moves_logged, moves_writeStatus|intros []]. apply moves_logged, moves_sync_push.
Qed.

Definition failed_tracker (t : replicationTracker) : replicationTracker :=
  mkTracker (with_Failed true (rt_details t)) (rt_storesBaseFolders t) (rt_replicate t).

(** Whatever fails, the tracker has it that replication failed. *)
Lemma wlp_handleFailed s : rt_replicate (r_tracker s) = true →
  wlp (handleFailedToReplicate cwd : R ()) s (λ _ s', r_tracker s' = failed_tracker (r_tracker s)) (λ _ s', r_tracker s' = failed_tracker (r_tracker s)).
Proof.
  intros Hr. unfold handleFailedToReplicate. wlp_step. apply wlp_gets. wlp_step. apply wlp_gets. rewrite Hr. cbn [negb orb].
  destruct (FailedToReplicate (details s)) eqn:Ef.
  { apply wlp_ret. unfold details in Ef. destruct (r_tracker s) as [[f t l] fs r]. cbn in *. by subst. }
  wlp_step. assert (Hf : ∀ s1, same_tracker s s1 → r_tracker (set_details (with_Failed true (details s1)) s1) = failed_tracker (r_tracker s)).
  { intros s1 H1. unfold same_tracker in H1. unfold set_details, details. cbn. by rewrite H1. }
  eapply wlp_mono; [apply (wlp_logged _ _ moves_sync_pull)| |done]. intros [] s1 H1. wlp_step. apply wlp_gets. destruct (from_option _ _ _); [apply wlp_modify; by apply Hf|].
  wlp_step. apply wlp_modify. apply (wlp_moves _ _ _ _ moves_spread); intros x s2 H2; unfold same_tracker in H2; by rewrite H2, Hf.
Qed.

(** C20: A tracker with which Replicate failed to write a store to the passive folder writes no more stores there by
    Replicate: whatever happened to the files and the cache in between, each later Replicate with it does nothing and
    succeeds. *)
Theorem failed_Replicate_stops s (stores : list (info Rest)) :
  wlp (Replicate cwd json_rest uuid_text stores : R ()) s (λ _ _, True)
    (λ _ s', ∀ more s2, r_tracker s2 = r_tracker s' → (Replicate cwd json_rest uuid_text more : R ()) s2 = (Ret (), s2)).
Proof.
  assert (Hstop : ∀ t s', r_tracker s' = failed_tracker t →
    ∀ (more : list (info Rest)) s2, r_tracker s2 = r_tracker s' → (Replicate cwd json_rest uuid_text more : R ()) s2 = (Ret (), s2)).
  { intros t s' Ht more s2 H2. unfold Replicate, gets, mbind, M_bind, details. rewrite H2, Ht. cbn. by rewrite orb_true_r. }
  unfold Replicate. wlp_step. apply wlp_gets. wlp_step. apply wlp_gets.
  destruct (rt_replicate (r_tracker s)) eqn:Hr; cbn [negb orb]; [|by apply wlp_ret].
  destruct (FailedToReplicate (details s)) eqn:Hf; [by apply wlp_ret|].
  assert (Hfail : ∀ e s1, same_tracker s s1 → wlp (handleFailedToReplicate cwd;; fail e : R ()) s1 (λ _ _, True)
    (λ _ s', ∀ more s2, r_tracker s2 = r_tracker s' → (Replicate cwd json_rest uuid_text more : R ()) s2 = (Ret (), s2))).
  { intros e s1 H1. wlp_step. eapply wlp_mono; [apply wlp_handleFailed; unfold same_tracker in H1; by rewrite H1| |].
    - intros [] s2 H2. apply wlp_fail. eapply Hstop. exact H2.
    - intros e' s2 H2. eapply Hstop. exact H2. }
  assert (Hs : same_tracker s s) by done. revert Hs. generalize s at 2 3. induction stores as [|x stores IH]; intros s1 H1; [by apply wlp_ret|].
  destruct (Marshal_info json_rest uuid_text x) as [ba|]; [|by apply Hfail].
  wlp_step. eapply wlp_mono; [apply wlp_passive_path| |done]. intros p s2 ->. apply wlp_handle, wlp_moves; [apply moves_on_tree| |].
  - intros [] s3 H3. apply IH. by etrans.
  - intros e s3 H3. apply Hfail. by etrans.
Qed.
End stops.

(** ** A failover *)

Section failover.
Context {CS CE : Type} `{LD : L2Structs CS CE ReplicationTrackedDetails} `{LW : !L2StructsLaws LD}.
Context (cwd : list string) (Unmarshal_details : list Z → option ReplicationTrackedDetails).
Hypothesis Unmarshal_Marshal : ∀ d, Unmarshal_details (Marshal_details d) = Some d.
Context (f0 f1 : string).

Local Abbreviation repl := (repl CS).
Local Abbreviation R := (M repl (repl_error CE)).
Local Abbreviation NewReplicationTracker := (NewReplicationTracker cwd Unmarshal_details (CE := CE)).
Implicit Types s : repl.

(** The status files in the two folders. *)
Definition status_at (f : string) : list string := resolve cwd (format_entity f replicationStatusFilename).
Definition status_key : string := String.append "Rreplstat:" f0.

(** The tracker's folders, the first of them active: it works, in a calm tree whose
    first folder has no status file. *)
Record first_active s : Prop := {
  fa_calm : calm (r_tree s);
  fa_folders : rt_storesBaseFolders (r_tracker s) = [f0; f1];
  fa_details : FailedToReplicate (details s) = false ∧ ActiveFolderToggler (details s) = true;
  fa_none : is_dir (status_at f0) (r_tree s) = false ∧ t_files (r_tree s) !! status_at f0 = None;
  fa_place : is_dir (parent (status_at f1)) (r_tree s) = true ∧ is_dir (status_at f1) (r_tree s) = false;
}.

Lemma wp_folder_path s (first : bool) (Q : list string → repl → Prop) (R : repl_error CE → repl → Prop) e :
  rt_storesBaseFolders (r_tracker s) = [f0; f1] → ActiveFolderToggler (details s) = first →
  Q (resolve cwd (format_entity (if first then f0 else f1) e)) s → wp (active_path cwd e) s Q R.
Proof.
  intros Hf Ht HQ. unfold active_path, formatActiveFolderEntity, getActiveBaseFolder. wp_steps. unfold base_folder.
  rewrite Hf, Ht. by destruct first; wp_steps.
Qed.
Lemma wp_other_path s (first : bool) (Q : list string → repl → Prop) (R : repl_error CE → repl → Prop) e :
  rt_storesBaseFolders (r_tracker s) = [f0; f1] → ActiveFolderToggler (details s) = first →
  Q (resolve cwd (format_entity (if first then f1 else f0) e)) s → wp (passive_path cwd e) s Q R.
Proof.
  intros Hf Ht HQ. unfold passive_path, formatPassiveFolderEntity, getPassiveBaseFolder. wp_steps. unfold base_folder.
  rewrite Hf, Ht. by destruct first; wp_steps.
Qed.

(** A call on the cache that is logged changes the cache alone. *)
Lemma wp_pull s (Q : () → repl → Prop) (R : repl_error CE → repl → Prop) :
  (∀ c g, (g = r_global s ∨ (g = cached c !! getReplicationStatusCacheKey s ∧ is_Some g ∧ cached c ⊆ cached (r_cache s))) →
    Q () (set_r_global g (set_r_cache c s))) → wp (logged sync_pull) s Q R.
Proof.
  intros HQ. unfold logged, sync_pull. wp_step. wp_step. apply wp_gets. wp_step. apply wp_on.
  eapply wp_mono; [apply law_GetEx| |].
  - intros [d|] c [Hr Hc]; [apply wp_modify|]; wp_step; apply HQ; [right; by rewrite <- Hr|by left].
  - intros e c Hc. wp_step. apply HQ. by left.
Qed.

Lemma wp_push s d (Q : () → repl → Prop) (R : repl_error CE → repl → Prop) : r_global s = Some d →
  (∀ c, Q () (set_r_cache c s)) → wp (logged sync_push) s Q R.
Proof.
  intros Hg HQ. unfold logged, sync_push. wp_step. wp_step. apply wp_gets. wp_step. apply wp_on.
  eapply wp_mono; [apply law_GetEx| |]; [|intros e c Hc; wp_step; apply HQ].
  intros found c _. wp_step. apply wp_gets. cbn [r_global set_r_cache]. rewrite Hg. cbn [or_panic]. wp_step. wp_step.
  assert (Hset : ∀ k v, wp (on_cache (l2s_Set k v replicationStatusCacheTTLDuration)) (set_r_cache c s)
    (λ _ s', wp (mret ()) s' Q R) (λ _ s', wp (mret ()) s' Q R)).
  { intros k v. apply wp_on. eapply wp_mono; [apply law_Set|intros; wp_step; apply HQ..]. }
  destruct found as [rtd|]; [|apply Hset]. destruct (isEqual rtd d); [|apply Hset]. wp_steps. apply HQ.
Qed.

(** What a failover leaves: the second folder active, and its status file, which
    still names the first. *)
Definition failed_over (log : bool) s s' : Prop :=
  details s' = mkDetails true false log ∧ r_global s' = Some (details s') ∧ calm (r_tree s') ∧
  t_dirs (r_tree s') = t_dirs (r_tree s) ∧
  ∃ t, t_files (r_tree s') = <[status_at f1 := mkFile (Marshal_details (mkDetails true true log)) t]> (t_files (r_tree s)).

Lemma wp_failover s g :
  first_active s → r_global s = Some g → ActiveFolderToggler g = true →
  (∀ d, cached (r_cache s) !! status_key = Some d → ActiveFolderToggler d = true) →
  wp (failover cwd : R ()) s (λ _ s', failed_over (LogCommitChanges (details s)) s s') (λ _ _, False).
Proof.
  intros [Hcalm Hfo [Hfail Hact] Hnone [Hpar Hdir]] Hg Hgt Hc. unfold failover. wp_step. apply wp_gets.
  unfold toggled at 1. rewrite Hg. cbn [from_option]. rewrite Hgt, Hact, Hfail. cbn [negb].
  rewrite bool_decide_eq_false_2 by done. cbn [orb]. wp_step. apply wp_pull. intros c g' Hg'.
  assert (Ht : ∃ d, g' = Some d ∧ ActiveFolderToggler d = true).
  { destruct Hg' as [->|(Hk & [d Hd] & Hsub)]; [by exists g|]. exists d. split; [done|].
    apply Hc. unfold getReplicationStatusCacheKey in Hk. rewrite Hfo in Hk. rewrite Hd in Hk. symmetry in Hk. by eapply lookup_weaken. }
  destruct Ht as (d & -> & Hdt). set (s1 := set_r_global _ _). wp_step. apply wp_gets.
  unfold toggled. cbn [r_global s1 set_r_global from_option]. rewrite Hdt. change (details s1) with (details s). rewrite Hact.
  rewrite bool_decide_eq_false_2 by done. wp_step. apply wp_modify. wp_step.
  eapply (wp_other_path _ true); [done|done|]. wp_step. unfold writeReplicationStatus. wp_step. apply wp_gets.
  apply wp_on. eapply wp_write_calm; [exact Hcalm|exact Hpar|exact Hdir|]. intros t now Htc Htf Htd.
  wp_step. apply wp_modify. wp_step. apply wp_modify. set (s2 := set_r_global _ _).
  assert (Hw : with_Failed true (details s) = mkDetails true true (LogCommitChanges (details s))) by (unfold with_Failed; by rewrite Hact).
  eapply wp_push; [done|]. intros c'. split; [|split; [done|split; [exact Htc|split; [exact Htd|]]]].
  - change (mkDetails true (negb (ActiveFolderToggler (details s))) (LogCommitChanges (details s)) = mkDetails true false (LogCommitChanges (details s))).
    by rewrite Hact.
  - exists now. rewrite <- Hw. exact Htf.
Qed.

(** C21: A failover from the first folder, which has no status file, makes the second
    one active and marks replication as failed, and a process that starts later,
    when the cache has forgotten the status, finds it so from the files.  *)
Theorem failover_survives_restart s g :
  first_active s → status_at f0 ≠ status_at f1 → r_global s = Some g → ActiveFolderToggler g = true →
  (∀ d, cached (r_cache s) !! status_key = Some d → ActiveFolderToggler d = true) →
  wp (failover cwd : R ()) s
    (λ _ s1, details s1 = mkDetails true false (LogCommitChanges (details s)) ∧ r_global s1 = Some (details s1) ∧
       ∀ s2, r_tree s2 = r_tree s1 → r_global s2 = None → cached (r_cache s2) !! status_key = None →
         wp (NewReplicationTracker [f0; f1] true) s2 (λ _ s3, details s3 = details s1 ∧ r_global s3 = Some (details s1)) (λ _ _, False))
    (λ _ _, False).
Proof.
  intros Hs Hne Hg Hgt Hc. eapply wp_mono; [by eapply wp_failover| |done].
  intros [] s1 (Hd & Hg1 & Hcalm & Hdirs & now & Hfiles). split; [done|]. split; [done|]. intros s2 Htree Hg2 Hc2.
  destruct Hs as [_ _ _ [Hnd Hnf] [_ Hnd1]].
  unfold Replication.NewReplicationTracker. wp_step. apply wp_modify. cbn [negb]. wp_step. apply wp_pull. intros c g' Hg'.
  assert (g' = None) as ->.
  { destruct Hg' as [->|(Hk & [d Hdd] & Hsub)]; [done|]. exfalso. rewrite Hdd in Hk. symmetry in Hk.
    cbn in Hsub, Hk. pose proof (lookup_weaken _ _ _ _ Hk Hsub) as Hw. unfold status_key in Hc2. congruence. }
  set (s3 := set_r_global _ _). wp_step. apply wp_gets. cbn [r_global s3 set_r_global].
  do 2 wp_step. unfold readStatusFromHomeFolder. wp_step. apply (wp_folder_path s3 true); [done..|]. wp_step. apply (wp_other_path s3 true); [done..|].
  cbv iota. fold (status_at f0) (status_at f1).
  assert (Ht3 : r_tree s3 = r_tree s1) by done.
  wp_step. apply wp_on. apply wp_exists_calm; [by rewrite Ht3|]. intros t1 Ht1 Hf1 Hd1. rewrite Ht3 in *.
  unfold is_dir in Hnd, Hnd1 |- *. rewrite Hdirs, Hnd, Hfiles, lookup_insert_ne by done. rewrite Hnf. cbn [orb is_Some].
  rewrite bool_decide_eq_false_2 by (by intros [? ?]). cbn [negb].
  wp_step. apply wp_on. apply wp_exists_calm; [done|]. cbn [r_tree set_r_tree]. intros t2 Ht2 Hf2 Hd2.
  unfold is_dir. rewrite Hd1, Hdirs, Hnd1, Hf1, Hfiles, lookup_insert_eq. cbn [orb]. rewrite bool_decide_eq_true_2 by done.
  wp_step. unfold readReplicationStatus. wp_step. apply wp_on. eapply wp_read_calm; [done| |].
  { cbn [r_tree set_r_tree]. unfold contents. by rewrite Hf2, Hf1, Hfiles, lookup_insert_eq. }
  intros t3 Ht3' Hf3 Hd3. cbn [f_bytes]. rewrite Unmarshal_Marshal. apply wp_modify. unfold flip. apply wp_modify. apply wp_ret.
  wp_step. apply wp_modify. eapply wp_push; [done|]. intros c'. cbn. by rewrite Hd.
Qed.
End failover.
