(* ===== verification/StoreRepoProps.v ===== *)
(** * The store repository keeps a table of counts

    What the repository shows is a table from the names of stores to their counts
    and times of change.  Reads give what the table has, from the cache or from the
    files, and an update changes all of its stores or none. *)

From Stdlib Require Import Ascii.
From stdpp Require Import gmap.
From S2P Require Import Prelude Wp Handle HashmapSpec Stores NodeRepo TwoPhase FsLog FileTree StoreJson Replication StoreRepo.

(** Locks and values of a cache do not meet. *)
Class LocksApart {CS CE V : Type} `{Locker CS CE} `(L2StructsLaws CS CE V) := {
  lock_apart d ks c : wp (locks_DualLock d ks) c (λ _ c', cached c' ⊆ cached c) (λ _ c', cached c' ⊆ cached c);
  unlock_apart ks c : wp (locks_Unlock ks) c (λ _ c', cached c' ⊆ cached c) (λ _ c', cached c' ⊆ cached c);
}.

Section table.
Context {CS CE Rest : Type} `{LK : Locker CS CE} `{LI : L2Structs CS CE (info Rest)}
  `{LW : !L2StructsLaws LI} `{LA : !LocksApart LW}.
Context (cwd : list string) (gen : nat → UUID).
Context (json_rest : Z → bool → Rest → option (list Z)) (uuid_text : UUID → string)
  (Unmarshal_info : list Z → option (info Rest)).
(** Information that JSON gives back, whatever its numbers are. *)
Context (sound : info Rest → Prop).
Hypothesis sound_numbers : ∀ i c t, sound i → sound (set_Timestamp t (set_Count c i)).
Hypothesis Unmarshal_Marshal : ∀ i bs, sound i → Marshal_info json_rest uuid_text i = Some bs → Unmarshal_info bs = Some (persisted i).
(** The cache takes what is written to it. *)
Hypothesis cache_takes : ∀ k (v : info Rest) d c, wp (l2s_Set k v d) c (λ _ _, True) (λ _ _, False).
(** The base folder. *)
Context (bf : string) (bf_there : bf ≠ EmptyString).

Local Abbreviation info := (info Rest).
Local Abbreviation repl := (repl CS).
Local Abbreviation R := (M repl (repl_error CE)).
Local Abbreviation Marshal_info := (Marshal_info json_rest uuid_text).
Local Abbreviation GetWithTTL := (GetWithTTL cwd Unmarshal_info (CE := CE)).
Local Abbreviation patchable := (patchable uuid_text).
Local Abbreviation on_cache := (@on_cache CS CE _).
Local Abbreviation on_tree := (@on_tree CS CE _).
Local Abbreviation getActiveBaseFolder := (@getActiveBaseFolder CS CE).
Local Abbreviation formatCacheKey := (@formatCacheKey CS CE).
Local Abbreviation exists_ := (@exists_ CS CE cwd).
Local Abbreviation read_ := (@read_ CS CE cwd).
Local Abbreviation write_ := (@write_ CS CE cwd).
Local Abbreviation fast_write := (@fast_write CS CE cwd).
Local Abbreviation active_path := (@active_path CS CE cwd).
Implicit Types (s : repl) (T : gmap string (Z * Z)) (n : string) (i x : info).

(** ** Paths *)

Definition base : list string := resolve cwd bf.
Definition info_at n : list string := base ++ [n; StoreInfoFilename].
Definition key_of n : string := String.append bf (String.append ":" n).

Lemma resolve_format e : resolve cwd (format_entity bf e) = foldl walk base (split_slash e).
Proof.
  unfold format_entity. destruct (HasSuffix bf "/") eqn:Hs; [|by apply resolve_join].
  apply andb_prop in Hs as [Hl Hs%bool_decide_eq_true]. unfold base.
  assert (Hb : ∃ a, bf = join a EmptyString).
  { clear -Hl Hs. revert Hs. generalize bf Hl. clear. intros u. induction u as [|c u IH]; [done|]. intros _ Hs. destruct u as [|d u].
    - exists EmptyString. cbn in Hs. by injection Hs as ->.
    - destruct IH as [a Ha]; [done| |exists (String c a); exact (f_equal (String c) Ha)].
      cbn in Hs |- *. by rewrite Nat.sub_0_r. }
  destruct Hb as [a ->]. replace (String.append (join a EmptyString) e) with (join a e); cycle 1.
  { clear. unfold join. induction a as [|c a IH]; [done|]. exact (f_equal (String c) IH). }
  unfold resolve. rewrite !split_join, !foldl_app.
  replace (IsAbs (join a e)) with (IsAbs (join a EmptyString)) by (by destruct a). done.
Qed.

Lemma plain_file : plain StoreInfoFilename.
Proof. done. Qed.

Lemma walk_info n : plain n → foldl walk base (split_slash (info_file n)) = info_at n.
Proof.
  intros Hn. unfold info_file. rewrite split_join, (proj1 Hn), (proj1 plain_file). cbn [app foldl].
  rewrite !walk_plain by done. unfold info_at. by rewrite <- app_assoc.
Qed.
Lemma walk_info_path n : plain n → foldl walk base (split_slash (info_path n)) = info_at n.
Proof. intros Hn. change (info_path n) with (join EmptyString (info_file n)). rewrite split_join. cbn [foldl app]. by apply walk_info. Qed.

Lemma info_at_inj n n' : info_at n = info_at n' → n = n'.
Proof. intros [=]%app_inv_head. done. Qed.
Lemma key_of_inj n n' : key_of n = key_of n' → n = n'.
Proof. unfold key_of. clear. induction bf as [|c s IH]; cbn; [by intros [=]|]. intros [= ?]. by apply IH. Qed.
Lemma parent_info n : parent (info_at n) = base ++ [n].
Proof.
  unfold parent, info_at. rewrite length_app. cbn [length].
  replace (length base + 2 - 1) with (length (base ++ [n])) by (rewrite length_app; cbn; lia).
  change [n; StoreInfoFilename] with ([n] ++ [StoreInfoFilename]). rewrite app_assoc. apply take_app_length.
Qed.

(** ** The table

    [shows X T s]: the files show [T], and so does the cache but for the names of
    [X]. *)

Definition saved n (c t : Z) s : Prop :=
  ∃ i bs, contents (info_at n) (r_tree s) = Some bs ∧ Marshal_info i = Some bs ∧ sound i ∧ patchable i ∧
    i_Name i = n ∧ i_Count i = c ∧ i_Timestamp i = t.

Record shows (X : gset string) T s : Prop := {
  sh_calm : calm (r_tree s);
  sh_folder : base_folder (ActiveFolderToggler (details s)) s = Some bf;
  sh_saved n c t : T !! n = Some (c, t) → plain n ∧ in_s 64 c ∧ saved n c t s ∧
    is_dir (base ++ [n]) (r_tree s) = true ∧ is_dir (info_at n) (r_tree s) = false;
  sh_none n : plain n → T !! n = None →
    is_dir (info_at n) (r_tree s) = false ∧ t_files (r_tree s) !! info_at n = None;
  sh_cache n i : n ∉ X → cached (r_cache s) !! key_of n = Some i → i_Name i = n ∧ T !! n = Some (i_Count i, i_Timestamp i);
}.

Lemma shows_keeps X T s s' : shows X T s → calm (r_tree s') → t_files (r_tree s') = t_files (r_tree s) →
  t_dirs (r_tree s') = t_dirs (r_tree s) → r_tracker s' = r_tracker s → cached (r_cache s') ⊆ cached (r_cache s) → shows X T s'.
Proof.
  intros [Hc Hb Hs Hn Hca] Hc' Hf Hd Ht Hsub. split; try done.
  - unfold details, base_folder in *. by rewrite Ht.
  - intros n c t Hn'. destruct (Hs n c t Hn') as (? & ? & ? & ? & ?). unfold saved, is_dir, contents in *. by rewrite Hf, Hd.
  - intros n Hp Hn'. destruct (Hn n Hp Hn'). unfold is_dir in *. by rewrite Hf, Hd.
  - intros n i HX Hi. apply (Hca n i HX). by eapply lookup_weaken.
Qed.

(** A call on the tree that leaves the files, and one on the cache that writes
    nothing. *)
Lemma wp_tree {A} (m : M filetree tree_error A) X T s (Q : A → repl → Prop) R :
  shows X T s →
  wp m (r_tree s) (λ a t, calm t ∧ t_files t = t_files (r_tree s) ∧ t_dirs t = t_dirs (r_tree s) ∧ ∀ s', shows X T s' → Q a s') (λ _ _, False) →
  wp (on_tree m) s Q R.
Proof.
  intros Hs Hm. apply wp_on. eapply wp_mono; [exact Hm| |done]. intros a t (Hc & Hf & Hd & HQ). apply HQ.
  by eapply shows_keeps.
Qed.

Lemma wp_cache {A} (m : M CS CE A) X T s (Q : A → repl → Prop) R :
  shows X T s → wp m (r_cache s) (λ a c, cached c ⊆ cached (r_cache s) ∧ ∀ s', shows X T s' → Q a s')
    (λ e c, cached c ⊆ cached (r_cache s) ∧ ∀ s', shows X T s' → R (ECache e) s') →
  wp (on_cache m) s Q R.
Proof.
  intros Hs Hm. apply wp_on. eapply wp_mono; [exact Hm| |].
  - intros a c [Hc HQ]. apply HQ. eapply shows_keeps; eauto. apply (sh_calm _ _ _ Hs).
  - intros e c [Hc HQ]. apply HQ. eapply shows_keeps; eauto. apply (sh_calm _ _ _ Hs).
Qed.

Lemma wp_folder X T s (Q : string → repl → Prop) R : shows X T s → Q bf s → wp getActiveBaseFolder s Q R.
Proof. intros Hs HQ. unfold Replication.getActiveBaseFolder. wp_step. apply wp_gets. rewrite (sh_folder _ _ _ Hs). by apply wp_ret. Qed.

Lemma wp_active_path X T s e (Q : list string → repl → Prop) R :
  shows X T s → Q (foldl walk base (split_slash e)) s → wp (active_path e) s Q R.
Proof.
  intros Hs HQ. unfold Replication.active_path, formatActiveFolderEntity. do 2 wp_step. eapply wp_folder; [done|].
  apply wp_ret. apply wp_ret. by rewrite resolve_format.
Qed.

Lemma wp_key X T s n (Q : string → repl → Prop) R : shows X T s → Q (key_of n) s → wp (formatCacheKey n) s Q R.
Proof. intros Hs HQ. unfold StoreRepo.formatCacheKey. wp_step. eapply wp_folder; [done|]. by apply wp_ret. Qed.

(** ** Reading *)

(** What the table says of the store of an information. *)
Definition view T i : Prop := T !! i_Name i = Some (i_Count i, i_Timestamp i).

Lemma wp_cache_info X T s n i (Q : () → repl → Prop) R :
  shows X T s → i_Name i = n → view T i → (∀ s', shows (X ∖ {[n]}) T s' → Q () s') → wp (cache_info n i) s Q R.
Proof.
  intros Hs Hn Hv HQ. unfold cache_info, logged. wp_step. eapply wp_key; [done|]. apply wp_handle, wp_on.
  eapply wp_mono; [apply (wp_conj _ _ _ _ _ _ (law_Set (key_of n) (persisted i) (i_StoreInfoCacheDuration i) (r_cache s)) (cache_takes _ _ _ _))| |by intros e c [_ []]].
  intros [] c [Hc _]. apply wp_ret, HQ.
  destruct Hs as [Hca Hb Hsa Hno Hch]. split; [done|done|done|done|]. cbn [r_cache set_r_cache]. intros n' i' HX Hi'.
  apply (lookup_weaken _ _ _ _ Hi') in Hc. destruct (decide (n' = n)) as [->|Hne].
  - rewrite lookup_insert_eq in Hc. injection Hc as <-. by rewrite <- Hn.
  - rewrite lookup_insert_ne in Hc by (intros He%key_of_inj; congruence). apply Hch; [set_solver|done].
Qed.

Lemma wp_get_cached T s ttl d n (Q : option info → repl → Prop) R :
  shows ∅ T s → (∀ r s', shows ∅ T s' → (∀ i, r = Some i → i_Name i = n ∧ view T i) → Q r s') → wp (get_cached ttl d n) s Q R.
Proof.
  intros Hs HQ. unfold get_cached. wp_step. eapply wp_key; [done|]. wp_step.
  assert (Hl : wp (if ttl then l2s_GetEx (key_of n) d else l2s_Get (key_of n)) (r_cache s)
    (λ r c', r = cached c' !! key_of n ∧ cached c' ⊆ cached (r_cache s)) (λ _ c', cached c' ⊆ cached (r_cache s)))
    by (destruct ttl; [apply law_GetEx|apply law_Get]).
  eapply wp_cache; [done|]. eapply wp_mono; [exact Hl| |].
  - intros r c [Hr Hc]. split; [done|]. intros s' Hs'. apply wp_ret, HQ; [done|]. intros i ->. symmetry in Hr.
    destruct (sh_cache _ _ _ Hs n i) as [<- Hv]; [done|by eapply lookup_weaken|done].
  - intros e c Hc. split; [done|]. intros s' Hs'. apply wp_ret, HQ; [done|]. done.
Qed.

Lemma wp_look_in_cache T ttl d names : ∀ s (Q : list info * list string → repl → Prop) R,
  shows ∅ T s →
  (∀ hits misses s', shows ∅ T s' → Forall (view T) hits → names ≡ₚ (i_Name <$> hits) ++ misses → Q (hits, misses) s') →
  wp (look_in_cache ttl d names) s Q R.
Proof.
  induction names as [|n names IH]; intros s Q R Hs HQ; cbn [look_in_cache]; [apply wp_ret; by apply HQ|].
  wp_step. eapply wp_get_cached; [done|]. intros r s1 Hs1 Hr. wp_step. apply IH; [done|].
  intros hits misses s2 Hs2 Hv Hp. apply wp_ret. destruct r as [i|].
  - destruct (Hr i eq_refl) as [Hn Hi]. apply HQ; [done|by constructor|]. cbn. by rewrite Hn, Hp.
  - apply HQ; [done|done|]. rewrite Hp. cbn. by rewrite Permutation_middle.
Qed.

Definition known T (n : string) : Prop := is_Some (T !! n).
#[local] Instance known_dec T n : Decision (known T n) := _.

Lemma wp_exists_info T s n (Q : bool → repl → Prop) R : shows ∅ T s → plain n →
  (∀ s', shows ∅ T s' → Q (bool_decide (known T n)) s') → wp (exists_ (info_file n)) s Q R.
Proof.
  intros Hs Hn HQ. unfold StoreRepo.exists_. wp_step. eapply wp_active_path; [done|]. rewrite walk_info by done.
  eapply wp_tree; [done|]. apply wp_exists_calm; [apply (sh_calm _ _ _ Hs)|]. intros t Hc Hf Hd. split_and!; try done.
  intros s' Hs'. replace (is_dir (info_at n) (r_tree s) || bool_decide (is_Some (t_files (r_tree s) !! info_at n)))
    with (bool_decide (known T n)); [by apply HQ|]. case_bool_decide as Hk.
  - destruct Hk as [[c t'] E].
    destruct (sh_saved _ _ _ Hs n c t' E) as (_ & _ & (i & bs & Hbs & _) & _ & ->). unfold contents in Hbs.
    destruct (t_files (r_tree s) !! info_at n); [|done]. by rewrite bool_decide_eq_true_2.
  - apply eq_None_not_Some in Hk. destruct (sh_none _ _ _ Hs n Hn Hk) as [-> ->]. by rewrite bool_decide_eq_false_2 by (by intros [? ?]).
Qed.

Lemma wp_read_info T X s n c t (Q : list Z → repl → Prop) R : shows X T s → T !! n = Some (c, t) →
  (∀ i bs s', shows X T s' → Marshal_info i = Some bs → sound i → patchable i → i_Name i = n → view T i → Q bs s') →
  ∀ fn, foldl walk base (split_slash fn) = info_at n → wp (read_ fn) s Q R.
Proof.
  intros Hs HT HQ fn Hfn. unfold StoreRepo.read_. wp_step. eapply wp_active_path; [done|]. rewrite Hfn.
  destruct (sh_saved _ _ _ Hs n c t HT) as (_ & _ & (i & bs & Hbs & Hm & Hv & Hp & Hn & Hct & Hts) & _).
  eapply wp_tree; [done|]. eapply wp_read_calm; [apply (sh_calm _ _ _ Hs)|done|]. intros t' Hc Hf Hd. split_and!; try done.
  intros s' Hs'. apply (HQ i); try done. unfold view. by rewrite Hn, HT, Hct, Hts.
Qed.

Lemma wp_load_files T names : ∀ s (Q : list info → repl → Prop) R,
  shows ∅ T s → Forall plain names →
  (∀ loaded s', shows ∅ T s' → Forall (view T) loaded → i_Name <$> loaded = filter (known T) names → Q loaded s') →
  wp (load_files cwd Unmarshal_info names) s Q R.
Proof.
  induction names as [|n names IH]; intros s Q R Hs Hp HQ; cbn [load_files]; [apply wp_ret; by apply HQ|].
  apply Forall_cons in Hp as [Hn Hp]. wp_step. eapply wp_exists_info; [done..|]. intros s1 Hs1.
  case_bool_decide as Hk; cbn [negb].
  - destruct Hk as [[c t] E].
    wp_step. eapply wp_read_info; [done|done| |by apply walk_info]. intros i bs s2 Hs2 Hm Hso _ Hi Hv.
    rewrite (Unmarshal_Marshal i bs) by done. wp_step. eapply wp_cache_info; [exact Hs2|done|exact Hv|]. intros s3 Hs3.
    wp_step. apply IH; [by replace (∅ ∖ {[i_Name (persisted i)]}) with (∅ : gset string) in Hs3 by set_solver|done|].
    intros loaded s4 Hs4 Hl He. apply wp_ret, HQ; [done|by constructor|]. rewrite filter_cons_True by (by eexists). cbn. by rewrite He, Hi.
  - apply IH; [done..|]. intros loaded s2 Hs2 Hl He. apply HQ; [done..|]. by rewrite filter_cons_False.
Qed.

Lemma wp_GetWithTTL T s ttl d names (Q : list info → repl → Prop) R :
  shows ∅ T s → Forall plain names →
  (∀ out s', shows ∅ T s' → Forall (view T) out → i_Name <$> out ≡ₚ filter (known T) names → Q out s') →
  wp (GetWithTTL ttl d names) s Q R.
Proof.
  intros Hs Hp HQ. unfold StoreRepo.GetWithTTL. wp_step. apply (wp_look_in_cache T); [done|].
  intros hits misses s1 Hs1 Hv Hperm.
  assert (Hh : filter (known T) (i_Name <$> hits) = i_Name <$> hits).
  { apply filter_all, Forall_fmap. eapply Forall_impl; [exact Hv|]. intros i Hi. unfold known. cbn. by rewrite Hi. }
  destruct misses as [|m misses].
  - apply wp_ret, HQ; [done..|]. rewrite Hperm, app_nil_r. by rewrite Hh.
  - wp_step. apply (wp_load_files T); [done| |].
    { rewrite Hperm, Forall_app in Hp. apply Hp. }
    intros loaded s2 Hs2 Hl He. apply wp_ret, HQ; [done|by apply Forall_app|].
    rewrite Hperm, filter_app, Hh, fmap_app. by rewrite He.
Qed.

(** ** Writing *)

Lemma wp_write_info T s n i bs fn (Q : () → repl → Prop) R :
  shows ∅ T s → known T n → i_Name i = n → in_s 64 (i_Count i) → Marshal_info i = Some bs → sound i → patchable i →
  foldl walk base (split_slash fn) = info_at n →
  (∀ s', shows {[n]} (<[n := (i_Count i, i_Timestamp i)]> T) s' → Q () s') → wp (write_ true fn bs) s Q R.
Proof.
  intros Hs [[c t] Hk] Hn Hin Hm Hso Hpa Hfn HQ. unfold StoreRepo.write_. wp_step. eapply wp_active_path; [done|]. rewrite Hfn.
  destruct (sh_saved _ _ _ Hs n c t Hk) as (Hpl & _ & _ & Hd & Hd').
  wp_step. apply wp_on. eapply wp_write_calm; [apply (sh_calm _ _ _ Hs)|by rewrite parent_info|done|].
  intros tr now Hc Hf Hds. apply wp_modify, HQ. destruct Hs as [Hca Hb Hsa Hno Hch].
  assert (Hcont : ∀ n', contents (info_at n') tr = if decide (n' = n) then Some bs else contents (info_at n') (r_tree s)).
  { intros n'. unfold contents. rewrite Hf. case_decide as He; [subst n'; by rewrite lookup_insert_eq|].
    rewrite lookup_insert_ne; [done|]. intros Hi%info_at_inj. congruence. }
  split; cbn [r_tree r_cache set_r_tree set_r_actions]; [done|exact Hb| | |].
  - intros n' c' t' HT. unfold saved, is_dir. cbn [r_tree set_r_tree set_r_actions]. rewrite Hcont, Hds. case_decide as He.
    + subst n'. rewrite lookup_insert_eq in HT. injection HT as <- <-. split_and!; try done. by exists i, bs.
    + rewrite lookup_insert_ne in HT by done. destruct (Hsa n' c' t' HT) as (? & ? & ? & ? & ?). done.
  - intros n' Hp HT. destruct (decide (n' = n)) as [->|Hne]; [by rewrite lookup_insert_eq in HT|].
    rewrite lookup_insert_ne in HT by done. destruct (Hno n' Hp HT) as [? Hno']. unfold is_dir in *. rewrite Hds, Hf.
    rewrite lookup_insert_ne; [done|]. intros Hi%info_at_inj. congruence.
  - intros n' i' HX Hi'. apply not_elem_of_singleton in HX. rewrite lookup_insert_ne by done. apply Hch; [set_solver|done].
Qed.

Lemma wp_fast_write T s n c t (Q : bool → repl → Prop) R :
  shows ∅ T s → known T n → in_s 64 c → (∀ s', shows {[n]} (<[n := (c, t)]> T) s' → Q true s') →
  wp (fast_write n c t) s Q R.
Proof.
  intros Hs Hk Hin HQ. unfold StoreRepo.fast_write. wp_step. pose proof Hk as [[c0 t0] HT].
  destruct (sh_saved _ _ _ Hs n c0 t0 HT) as (Hpl & _).
  eapply wp_read_info; [done|done| |by apply walk_info_path]. intros i bs s1 Hs1 Hm Hso Hpa Hn Hv.
  destruct (patch_is_encoding json_rest uuid_text i bs c t Hpa Hm) as (bs' & Hm' & ->).
  wp_step. eapply (wp_write_info T s1 n (set_Timestamp t (set_Count c i))); try done; [by apply sound_numbers|by apply walk_info_path].
Qed.

(** A write and the cache after it. *)
Lemma wp_cache_written T s n i p (Q : () → repl → Prop) R :
  shows {[n]} (<[n := p]> T) s → i_Name i = n → p = (i_Count i, i_Timestamp i) →
  (∀ s', shows ∅ (<[n := p]> T) s' → Q () s') → wp (cache_info n i) s Q R.
Proof.
  intros Hs Hn -> HQ. eapply wp_cache_info; [done|done|unfold view; by rewrite Hn, lookup_insert_eq|].
  intros s' Hs'. apply HQ. by replace ({[n]} ∖ {[n]} : gset string) with (∅ : gset string) in Hs' by set_solver.
Qed.

(** The store that [undo_one] undoes was written with [x]. *)
Lemma wp_undo_one T s x si t (Q : () → repl → Prop) R :
  shows ∅ T s → T !! i_Name x = Some (i_Count x, t) → plain (i_Name x) → i_NeedsMetaDataSave x = false →
  (∀ s', shows ∅ (<[i_Name x := (wrap_s 64 (i_Count x - i_CountDelta x), i_Timestamp si)]> T) s' → Q () s') →
  wp (undo_one cwd json_rest uuid_text Unmarshal_info x si) s Q R.
Proof.
  intros Hs HT Hp Hneed HQ. unfold undo_one. do 2 wp_step. apply (wp_GetWithTTL T); [done|by apply Forall_singleton|].
  intros out s1 Hs1 Hv He. apply wp_ret. rewrite filter_cons_True, filter_nil in He by (by eexists).
  destruct out as [|i out]; [by apply Permutation_nil_l in He|]. rewrite fmap_cons in He.
  assert (out = []) as ->. { apply Permutation_length in He. cbn in He. by destruct out. }
  apply Permutation_singleton_r in He. injection He as He. apply Forall_cons in Hv as [Hv _].
  assert (Hc : i_Count i = i_Count x). { unfold view in Hv. rewrite He, HT in Hv. by injection Hv. }
  cbv zeta. wp_step. cbn [i_Name i_Count i_Timestamp set_Timestamp set_Count]. rewrite Hneed, He, Hc.
  rewrite bool_decide_eq_false_2 by (intros E; rewrite E in Hp; by destruct Hp as (_ & ? & _)). cbn [negb andb].
  eapply wp_fast_write; [done|by eexists|by apply wrap_s_range|]. intros s2 Hs2.
  eapply wp_cache_written; [done|done|done|]. exact HQ.
Qed.

(** ** An update *)

(** The table after some stores were written. *)
Definition written T (stores : list info) : gmap string (Z * Z) :=
  foldl (λ T x, <[i_Name x := (i_Count x, i_Timestamp x)]> T) T stores.

Lemma written_insert T l n p : n ∉ i_Name <$> l → written (<[n := p]> T) l = <[n := p]> (written T l).
Proof.
  revert T. induction l as [|x l IH]; intros T Hn; [done|]. rewrite fmap_cons in Hn. apply not_elem_of_cons in Hn as [Hx Hn].
  cbn. rewrite insert_insert_ne by done. by apply IH.
Qed.
Lemma written_other T l n : n ∉ i_Name <$> l → written T l !! n = T !! n.
Proof.
  revert T. induction l as [|x l IH]; intros T Hn; [done|]. rewrite fmap_cons in Hn. apply not_elem_of_cons in Hn as [Hx Hn].
  cbn. rewrite IH by done. by rewrite lookup_insert_ne.
Qed.
Lemma written_snoc T l x : written T (l ++ [x]) = <[i_Name x := (i_Count x, i_Timestamp x)]> (written T l).
Proof. unfold written. by rewrite foldl_app. Qed.

(** What an update makes of an information. *)
Definition updated T x : info :=
  set_NeedsMetaDataSave false (set_Count (wrap_s 64 (from_option fst 0%Z (T !! i_Name x) + i_CountDelta x)) x).

Lemma no_need x : i_NeedsMetaDataSave x = false → set_NeedsMetaDataSave false x = x.
Proof. destruct x; cbn. by intros ->. Qed.

Lemma wrap_back c d : in_s 64 c → wrap_s 64 (wrap_s 64 (c + d) - d) = c.
Proof.
  intros Hc. rewrite <- (wrap_s_id 64 c) at 2 by done. unfold wrap_s. change (64 - 1)%Z with 63%Z. f_equal.
  replace ((c + d + 2 ^ 63) `mod` 2 ^ 64 - 2 ^ 63 - d + 2 ^ 63)%Z with ((c + d + 2 ^ 63) `mod` 2 ^ 64 - d)%Z by lia.
  rewrite Zminus_mod_idemp_l. f_equal. lia.
Qed.

(** A store that was written, and what it was before. *)
Record was_written T (x si : info) : Prop := {
  ww_plain : plain (i_Name x);
  ww_need : i_NeedsMetaDataSave x = false;
  ww_before : T !! i_Name x = Some (i_Count si, i_Timestamp si);
  ww_range : in_s 64 (i_Count si);
  ww_count : i_Count x = wrap_s 64 (i_Count si + i_CountDelta x);
}.

Lemma wp_undo_store T (done : list (info * info)) : ∀ s (Q : () → repl → Prop) R,
  NoDup (i_Name <$> done.*1) → Forall (λ p, was_written T p.1 p.2) done → shows ∅ (written T done.*1) s →
  (∀ s', shows ∅ T s' → Q () s') → wp (undo cwd json_rest uuid_text Unmarshal_info done) s Q R.
Proof.
  induction done as [|[x si] done IH]; intros s Q R Hnd Hw Hs HQ; cbn [undo]; [apply wp_ret; by apply HQ|].
  rewrite !fmap_cons in Hnd. apply NoDup_cons in Hnd as [Hn Hnd]. apply Forall_cons in Hw as [[Hp Hneed Hb Hr Hc] Hw].
  cbn [fst] in *. change (written T (((x, si) :: done).*1)) with (written (<[i_Name x := (i_Count x, i_Timestamp x)]> T) done.*1) in Hs.
  rewrite written_insert in Hs by done.
  wp_step. eapply wp_undo_one; [exact Hs|apply lookup_insert_eq|done|done|]. intros s1 Hs1. apply IH; [done|done| |done].
  rewrite insert_insert_eq, Hc, wrap_back in Hs1 by done. rewrite insert_id in Hs1; [done|]. by rewrite written_other.
Qed.

Definition updatable x : Prop := plain (i_Name x) ∧ sound x ∧ patchable x.

Lemma updatable_Marshal T x bs c : updatable x → Marshal_info (set_Count c x) = Some bs →
  sound (set_Count c x) ∧ patchable (set_Count c x).
Proof. intros (_ & Hs & Hp) _. split; [|exact Hp]. by apply (sound_numbers x c (i_Timestamp x)) in Hs; destruct x. Qed.

Lemma view_in_range T s i : shows ∅ T s → view T i → in_s 64 (i_Count i).
Proof. intros Hs Hv. apply (sh_saved _ _ _ Hs _ _ _ Hv). Qed.

Lemma wp_GetOne T s ttl d n (Q : list info → repl → Prop) R :
  shows ∅ T s → plain n →
  (∀ s', shows ∅ T s' → ¬ known T n → Q [] s') →
  (∀ si s', shows ∅ T s' → i_Name si = n → view T si → Q [si] s') →
  wp (GetWithTTL ttl d [n]) s Q R.
Proof.
  intros Hs Hp H0 H1. apply (wp_GetWithTTL T); [done|by apply Forall_singleton|]. intros out s' Hs' Hv He.
  destruct (decide (known T n)) as [Hk|Hk].
  - rewrite filter_cons_True, filter_nil in He by done. destruct out as [|i [|j out]].
    + by apply Permutation_nil_l in He.
    + apply Permutation_singleton_r in He. injection He as <-. apply Forall_cons in Hv as [Hv _]. by apply H1.
    + apply Permutation_length in He. cbn in He. lia.
  - rewrite filter_cons_False, filter_nil in He by done. apply Permutation_nil_r, fmap_nil_inv in He as ->. by apply H0.
Qed.

(** How the loop over the stores ends. *)
Definition updates T (ys stores out : list info) s : Prop :=
  (out = ys ++ (updated T <$> stores) ∧ Forall (λ x, known T (i_Name x)) stores ∧ shows ∅ (written T out) s) ∨
  (out = [] ∧ (∃ x, x ∈ stores ∧ ¬ known T (i_Name x)) ∧ shows ∅ T s).

Lemma updates_cons T ys x stores out s : known T (i_Name x) →
  updates T (ys ++ [updated T x]) stores out s → updates T ys (x :: stores) out s.
Proof.
  intros Hx [(-> & Hk & Hs)|(-> & (y & Hy & Hk) & Hs)]; [left|right]; (split; [|split; [|done]]); try done.
  - by rewrite <- app_assoc.
  - by constructor.
  - exists y. split; [by right|done].
Qed.

(** A store whose information is written as a whole. *)
Lemma wp_full_write {A} T done x c (k : R A) s (Q : A → repl → Prop) R :
  NoDup (i_Name <$> done.*1) → Forall (λ p, was_written T p.1 p.2) done → updatable x → known (written T done.*1) (i_Name x) →
  in_s 64 c → shows ∅ (written T done.*1) s → (∀ e s', shows ∅ T s' → R e s') →
  (∀ s', shows ∅ (<[i_Name x := (c, i_Timestamp x)]> (written T done.*1)) s' → wp k s' Q R) →
  wp (match Marshal_info (set_Count c x) with
      | None => undo cwd json_rest uuid_text Unmarshal_info done;; fail (EStoreMarshal (i_Name x))
      | Some ba => handle (write_ true (info_path (i_Name x)) ba)
          (λ _, cache_info (i_Name x) (set_NeedsMetaDataSave false (set_Count c x));; k)
          (λ e, undo cwd json_rest uuid_text Unmarshal_info done;; fail e)
      end) s Q R.
Proof.
  intros Hnd Hw Hu Hk Hc Hs HR HQ. destruct (Marshal_info (set_Count c x)) as [ba|] eqn:Em.
  - destruct (updatable_Marshal T x ba c Hu Em) as [Hso Hpa]. apply wp_handle.
    eapply (wp_write_info _ _ (i_Name x) (set_Count c x)); try done; [by apply walk_info_path, (proj1 Hu)|].
    intros s2 Hs2. wp_step. by eapply wp_cache_written.
  - wp_step. eapply wp_undo_store; [done..|]. intros s2 Hs2. by apply wp_fail, HR.
Qed.

Lemma wp_update_loop T stores : ∀ done s R,
  NoDup (i_Name <$> (done.*1 ++ stores)) → Forall (λ p, was_written T p.1 p.2) done → Forall updatable stores →
  shows ∅ (written T done.*1) s → (∀ e s', shows ∅ T s' → (R : repl_error CE → repl → Prop) e s') →
  wp (update_loop cwd json_rest uuid_text Unmarshal_info done stores) s (updates T done.*1 stores) R.
Proof.
  induction stores as [|x stores IH]; intros done s R Hnd Hw Hu Hs HR; cbn [update_loop].
  { apply wp_ret. left. rewrite fmap_nil, app_nil_r. done. }
  apply Forall_cons in Hu as [Hux Hu]. pose proof (proj1 Hux) as Hp.
  assert (Hnx : i_Name x ∉ i_Name <$> done.*1).
  { rewrite fmap_app, fmap_cons in Hnd. apply NoDup_app in Hnd as (_ & Hd & _). intros Hi. apply (Hd _ Hi). left. }
  assert (Hndd : NoDup (i_Name <$> done.*1)) by (rewrite fmap_app in Hnd; by apply NoDup_app in Hnd as (? & _)).
  wp_step. apply wp_handle. eapply wp_GetOne; [done|done| |].
  { intros s1 Hs1 Hno. apply wp_ret. wp_step. eapply wp_undo_store; [done..|]. intros s2 Hs2. apply wp_ret. right.
    split; [done|]. split; [|done]. exists x. split; [left|]. unfold known in *. by rewrite written_other in Hno. }
  intros si s1 Hs1 Hn Hv. apply wp_ret. cbv zeta beta iota. wp_step.
  pose proof (view_in_range _ _ _ Hs1 Hv) as Hrange. unfold view in Hv. rewrite Hn in Hv. pose proof Hv as Hv0. rewrite written_other in Hv0 by done.
  set (c := wrap_s 64 (i_Count si + i_CountDelta x)) in *.
  assert (Hup : updated T x = set_NeedsMetaDataSave false (set_Count c x)) by (unfold updated; by rewrite Hv0).
  assert (Hnext : ∀ x' s2, x' = updated T x → shows ∅ (<[i_Name x := (c, i_Timestamp x)]> (written T done.*1)) s2 →
    wp (update_loop cwd json_rest uuid_text Unmarshal_info (done ++ [(x', si)]) stores) s2 (updates T done.*1 (x :: stores)) R).
  { intros x' s2 -> Hs2. assert (Hd : (done ++ [(updated T x, si)]).*1 = done.*1 ++ [updated T x]) by (by rewrite fmap_app).
    eapply wp_mono; [apply (IH (done ++ [(updated T x, si)]))| |]; [| |done| |done| |done].
    - rewrite Hd, <- app_assoc. rewrite !fmap_app, !fmap_cons in *. done.
    - apply Forall_app. split; [done|]. apply Forall_singleton. cbn [fst snd]. rewrite Hup. split; cbn; try done.
    - rewrite Hd, written_snoc. by rewrite Hup.
    - rewrite Hd. intros out s3. apply updates_cons. by eexists. }
  assert (Hne : i_Name si ≠ EmptyString) by (rewrite Hn; by destruct Hp as (_ & ? & _)).
  rewrite (bool_decide_eq_false_2 _ Hne). cbn [negb andb i_NeedsMetaDataSave set_Count i_Name i_Count i_Timestamp].
  destruct (i_NeedsMetaDataSave x) eqn:Eneed; cbn [negb].
  - apply wp_ret. cbv zeta beta iota. apply (wp_full_write T done x c); try done; [by eexists|by apply wrap_s_range|]. intros s2 Hs2. by apply Hnext.
  - eapply wp_fast_write; [done|by eexists|by apply wrap_s_range|]. intros s2 Hs2.
    wp_step. eapply wp_cache_written; [exact Hs2|done|done|]. intros s3 Hs3. apply Hnext; [|done].
    rewrite Hup. symmetry. by apply no_need.
Qed.

(** ** Locks *)

Lemma shows_aside X T s s' : shows X T s → r_tree s' = r_tree s → r_cache s' = r_cache s → r_tracker s' = r_tracker s → shows X T s'.
Proof. intros Hs Ht Hc Hr. eapply shows_keeps; [done|rewrite Ht; apply (sh_calm _ _ _ Hs)|by rewrite Ht..|done|by rewrite Hc]. Qed.

Lemma wp_format_keys X T s names : shows X T s → wp (format_keys (CS := CS) (CE := CE) names) s (λ _, shows X T) (λ _ _, False).
Proof.
  intros Hs. induction names as [|n names IH]; cbn [format_keys]; [by apply wp_ret|].
  wp_step. eapply wp_key; [done|]. wp_step. eapply wp_mono; [exact IH| |done]. intros ks s' Hs'. by apply wp_ret.
Qed.

Lemma wp_CreateLockKeys X T keys : ∀ s, shows X T s →
  wp (CreateLockKeys (CS := CS) (CE := CE) gen keys) s (λ _, shows X T) (λ _ _, False).
Proof.
  induction keys as [|k keys IH]; intros s Hs; cbn [CreateLockKeys]; [by apply wp_ret|].
  wp_step. apply wp_gets. wp_step. apply wp_modify. wp_step. eapply wp_mono; [apply IH; by eapply shows_aside| |done].
  intros ks s' Hs'. by apply wp_ret.
Qed.

Lemma wp_lock_attempts X T (tries : nat) d ks : ∀ s, shows X T s →
  wp (lock_attempts (CE := CE) tries d ks) s (λ _, shows X T) (λ _, shows X T).
Proof.
  induction tries as [|tries IH]; intros s Hs; cbn [lock_attempts]; apply wp_handle; (eapply wp_cache; [done|]);
    (eapply wp_mono; [apply lock_apart| |]); intros x c Hc; (split; [done|]); intros s' Hs'.
  - destruct x; [by apply wp_ret|by apply wp_fail].
  - by apply wp_fail.
  - destruct x; [by apply wp_ret|by apply IH].
  - by apply IH.
Qed.

Lemma wp_Unlock X T ks s (Q : () → repl → Prop) (R : repl_error CE → repl → Prop) :
  shows X T s → (∀ s', shows X T s' → Q () s') → (∀ e s', shows X T s' → R e s') → wp (Unlock_ ks) s Q R.
Proof.
  intros Hs HQ HR. unfold Unlock_. eapply wp_cache; [done|]. eapply wp_mono; [apply unlock_apart| |].
  - intros [] c Hc. auto.
  - intros e c Hc. auto.
Qed.

(** ** The theorems *)

(** A read gives each known store once, with its count and time, and no other,
    whichever of them the cache still has. *)
Theorem Get_exact T s ttl d names : shows ∅ T s → Forall plain names →
  wp (GetWithTTL ttl d names) s
    (λ out s', shows ∅ T s' ∧ (i_Name <$> out) ≡ₚ filter (known T) names ∧
       ∀ i, i ∈ out → T !! i_Name i = Some (i_Count i, i_Timestamp i)) (λ _ _, False).
Proof.
  intros Hs Hp. apply (wp_GetWithTTL T); [done..|]. intros out s' Hs' Hv He. split; [done|]. split; [done|].
  by rewrite Forall_forall in Hv.
Qed.

Lemma sort_perm (l : list info) : sort_stores l ≡ₚ l.
Proof. apply merge_sort_Permutation. Qed.
Lemma in_sorted (l : list info) x : x ∈ sort_stores l ↔ x ∈ l.
Proof. by rewrite sort_perm. Qed.

(** C19: While no file call fails and the cache takes what is written to it, an update of stores with different names,
    none of whose texts before the numbers look like the fields [count] or [timestamp], adds each delta to the count
    that the table has and sets the times, in the files and in the cache, and returns the changed stores by name; if
    one of them is not known, or the call fails (its locks cannot be had, or a store cannot be encoded), all counts
    and times are as before. *)
Theorem Update_all_or_nothing T s stores : shows ∅ T s → NoDup (i_Name <$> stores) → Forall updatable stores →
  wp (Update cwd gen json_rest uuid_text Unmarshal_info stores) s
    (λ out s',
      (out = updated T <$> sort_stores stores ∧ (∀ x, x ∈ stores → known T (i_Name x)) ∧ shows ∅ (written T out) s') ∨
      (out = [] ∧ (∃ x, x ∈ stores ∧ ¬ known T (i_Name x)) ∧ shows ∅ T s'))
    (λ _ s', shows ∅ T s').
Proof.
  intros Hs Hnd Hu. unfold Update. case_decide as Hl.
  { apply nil_length_inv in Hl as ->. apply wp_ret. left. split; [done|]. split; [set_solver|done]. }
  cbv zeta. wp_step. eapply wp_mono; [apply wp_format_keys; exact Hs| |done]. intros keys s1 Hs1.
  wp_step. eapply wp_mono; [apply wp_CreateLockKeys; exact Hs1| |done]. intros lks s2 Hs2.
  do 2 wp_step. eapply wp_mono; [apply wp_lock_attempts; exact Hs2| |].
  - intros [] s3 Hs3. apply wp_ret. wp_step. apply wp_modify. assert (Hs4 : shows ∅ T (set_r_actions [] s3)) by (by eapply shows_aside).
    apply wp_deferring. eapply wp_mono; [apply (wp_update_loop T _ [] _ (λ _ s', shows ∅ T s')); try done| |].
    + cbn. by rewrite sort_perm.
    + by rewrite sort_perm.
    + intros out s5 [(-> & Hk & Hs5)|(-> & (x & Hx & Hk) & Hs5)]; eapply wp_Unlock; try exact Hs5; intros; [left..|right|right].
      all: (split; [done|]); (split; [|done]).
      1,2: intros x Hx%in_sorted; by rewrite Forall_forall in Hk; apply Hk.
      all: exists x; by rewrite <- in_sorted.
    + intros e s5 Hs5. eapply wp_Unlock; [exact Hs5|done..].
  - intros e s3 Hs3. wp_step. unfold logged. wp_step. eapply wp_Unlock; [exact Hs3| |]; intros; by apply wp_fail.
Qed.
End table.
