(* ===== verification/Reinstate.v ===== *)
(** * fs/storerepository.copier.go, replicationtracker.reinstatefaileddrives.go

    A folder whose drive was replaced gets the stores of the active folder again:
    the transactions log what they change, the stores and their registries are
    copied, the logs are applied to the copies, and replication is turned on. *)

From Stdlib Require Import Ascii.
From stdpp Require Import gmap.
From S2P Require Import Prelude Wp Handle HashmapSpec Stores NodeRepo TwoPhase FsLog FileTree StoreJson Replication StoreRepo.

Section reinstate.
Context {CS CE Rest : Type} `{LK : Locker CS CE} `{LI : L2Structs CS CE (info Rest)}
  `{LD : L2Structs CS CE ReplicationTrackedDetails}.
Context (cwd : list string) (home : option (list string)) (TrimSpace : string → string).
Context (json_rest : Z → bool → Rest → option (list Z)) (uuid_text : UUID → string)
  (Unmarshal_info : list Z → option (info Rest)) (Unmarshal_names : list Z → option (list string)).
(** [strconv.Itoa] and [Atoi]; the changes of a commit as a log has them;
    [slices.SortFunc] by the time of modification; [Replicate] of the registry. *)
Context (Itoa : Z → list Z) (Atoi : list Z → option Z).
Context (Unmarshal_changes : list Z → option (list (info Rest) * list (list (RegistryPayload Handle)))).
Context (SortFunc : list (string * Z) → list (string * Z)).
Context (reg_Replicate : list (list (RegistryPayload Handle)) → M (repl CS) (repl_error CE) ()).

Local Abbreviation info := (info Rest).
Local Abbreviation repl := (repl CS).
Local Abbreviation R := (M repl (repl_error CE)).
Local Abbreviation on_tree := (@on_tree CS CE _).

Definition registryFileExtension : string := ".reg".

(** ** The modulus of the registry *)

(** [NewStoreRepository]: errors of the writes are ignored. *)
Definition NewStoreRepository (registryHashModVal : Z) : R () :=
  on_ ← gets (λ s, rt_replicate (r_tracker s));
  n ← gets (λ s, length (rt_storesBaseFolders (r_tracker s)));
  if on_ && negb (n =? 2) then fail ENotTwoFolders
  else if (0 <? registryHashModVal)%Z then
    new_writer;;
    there ← exists_ cwd RegistryHashModValueFilename;
    if (there : bool) then mret ()
    else
      logged (write_ cwd true RegistryHashModValueFilename (Itoa registryHashModVal));;
      logged (replicate_ cwd home TrimSpace)
  else mret ().

(** The value the repository was made with, or the file's. *)
Definition GetRegistryHashModValue (registryHashModValue : Z) : R Z :=
  if decide (registryHashModValue = 0)%Z then
    there ← exists_ cwd RegistryHashModValueFilename;
    if negb there then mret 0%Z
    else
      ba ← read_ cwd RegistryHashModValueFilename;
      match Atoi ba with Some i => mret i | None => fail EBadHashMod end
  else mret registryHashModValue.

(** ** Copying *)

Fixpoint copy_files (src dst : list string) (extension : string) (files : list (string * bool)) : R () :=
  match files with
  | [] => mret ()
  | (name, isDir) :: files =>
      (if negb isDir && HasSuffix name extension then on_tree (copyFile (src ++ [name]) (dst ++ [name])) else mret ());;
      copy_files src dst extension files
  end.
Definition copyFilesByExtension (src dst : list string) (extension : string) : R () :=
  files ← on_tree (fio_ReadDir src);
  on_tree (fio_MkdirAll dst);;
  copy_files src dst extension files.

Definition folder_at (first : bool) : R string := bf ← gets (base_folder first); or_panic bf.

Fixpoint copy_stores (oaf : bool) (names : list string) : R () :=
  match names with
  | [] => mret ()
  | n :: names =>
      createStore cwd false n;;
      store ← Get cwd Unmarshal_info [n];
      match (store : list info) with
      | [] => copy_stores oaf names
      | si :: _ =>
          match Marshal_info json_rest uuid_text si with
          | None => fail (EStoreMarshal n)
          | Some ba =>
              write_ cwd false (info_path n) ba;;
              src ← folder_at oaf;
              dst ← folder_at (negb oaf);
              copyFilesByExtension (resolve cwd (join src (i_RegistryTable si))) (resolve cwd (join dst (i_RegistryTable si))) registryFileExtension;;
              copy_stores oaf names
          end
      end
  end.

(** [CopyToPassiveFolders]: the tracker's active folder is flipped meanwhile. *)
Definition set_toggler (b : bool) : R () := modify (λ s, set_details (with_Toggler b (details s)) s).
Definition CopyToPassiveFolders : R () :=
  storeList ← GetAll cwd Unmarshal_names;
  oaf ← gets (λ s, ActiveFolderToggler (details s));
  set_toggler (negb oaf);;
  deferring (set_toggler oaf) (
    createStore cwd false EmptyString;;
    write_ cwd false storeListFilename (match (storeList : option (list string)) with Some l => Marshal_names l | None => text "null" end);;
    copy_stores oaf (from_option id [] storeList)).

(** ** Reinstating *)

(** The variable of the process is dereferenced. *)
Definition update_global (f : ReplicationTrackedDetails → ReplicationTrackedDetails) : R () :=
  g ← gets r_global; d ← or_panic g; modify (set_r_global (Some (f d))).

Definition startLoggingCommitChanges : R () :=
  update_global (with_Log true);;
  modify (λ s, set_details (with_Log true (details s)) s);;
  p ← active_path cwd replicationStatusFilename;
  writeReplicationStatus p;;
  sync_push.

Definition turnOnReplication : R () :=
  update_global (λ d, with_Log false (with_Failed false d));;
  g ← gets r_global;
  d ← or_panic g;
  modify (set_details d);;
  p ← active_path cwd replicationStatusFilename;
  writeReplicationStatus p;;
  sync_push.

(** [getFilesSortedDescByModifiedTime], without a filter: the oldest is first. *)
Definition log_files : R (list (string * Z)) :=
  p ← active_path cwd commitChangesLogFolder;
  there ← on_tree (fio_Exists p);
  (if (there : bool) then mret () else on_tree (fio_MkdirAll p));;
  files ← on_tree (fio_ReadDir p);
  times ← gets (λ s, omap (λ f : string * bool, (λ x, (f.1, f_ModTime x)) <$> t_files (r_tree s) !! (p ++ [f.1]))
                       (filter (λ f : string * bool, HasSuffix f.1 logFileExtension = true) files));
  mret (SortFunc times).

(** The latest counts come from the cache. *)
Fixpoint latest_counts (stores : list info) : R (list info) :=
  match stores with
  | [] => mret []
  | x :: stores =>
      sis ← getFromCache [i_Name x];
      rest ← latest_counts stores;
      mret ((match (sis : list info) with [si] => set_Count (i_Count si) x | _ => x end) :: rest)
  end.

Fixpoint apply_logs (files : list (string * Z)) : R () :=
  match files with
  | [] => mret ()
  | (filename, _) :: files =>
      p ← active_path cwd (join commitChangesLogFolder filename);
      ba ← on_tree (fio_ReadFile p);
      match Unmarshal_changes ba with
      | None => fail EDecode
      | Some (stores, handles) =>
          stores ← latest_counts stores;
          Replicate cwd json_rest uuid_text stores;;
          reg_Replicate handles;;
          on_tree (fio_Remove p);;
          apply_logs files
      end
  end.

Definition fastForward : R bool :=
  files ← log_files;
  match (files : list (string * Z)) with
  | [] => mret false
  | _ =>
      modify (λ s, set_details (with_Failed false (details s)) s);;
      NewStoreRepository 0;;
      _ ← GetRegistryHashModValue 0;
      apply_logs files;;
      mret true
  end.

(** Each turn that finds logs removes them; a turn beyond [fuel] is a panic. *)
Fixpoint fast_forward_all (fuel : nat) : R () :=
  match fuel with
  | O => panic
  | S fuel => found ← fastForward; if (found : bool) then fast_forward_all fuel else mret ()
  end.

Definition ReinstateFailedDrives (fuel : nat) : R () :=
  on_ ← gets (λ s, rt_replicate (r_tracker s));
  failed ← gets (λ s, FailedToReplicate (details s));
  if negb on_ then fail EReplicateOff
  else if negb failed then fail ENotFailed
  else
    startLoggingCommitChanges;;
    NewStoreRepository 0;; CopyToPassiveFolders;;
    fast_forward_all fuel;;
    turnOnReplication;;
    fast_forward_all fuel.
End reinstate.
