(* ===== verification/StoreRepoFindings.v ===== *)
(** * A store repository with two stores

    A cache of maps whose locks are always free, a reader of JSON for given stores,
    the claims of StoreRepoProps at a concrete repository, and what goes wrong in
    it. *)

From Stdlib Require Import Ascii.
From stdpp Require Import gmap.
From S2P Require Import Prelude Wp Handle HashmapSpec Stores NodeRepo TwoPhase FsLog FileTree StoreJson Replication StoreRepo StoreRepoProps.

(** ** A cache *)

Record ex_l2 := mkL2 { l2_infos : gmap string (info ()); l2_details : gmap string ReplicationTrackedDetails }.

(** The keys that [refuses] names are not written. *)
Definition l2_set (refuses : string → bool) (k : string) (v : info ()) : M ex_l2 () () := λ c,
  if refuses k then (Fail (), c) else (Ret (), mkL2 (<[k := v]> (l2_infos c)) (l2_details c)).
Definition ex_infos (refuses : string → bool) : L2Structs ex_l2 () (info ()) := {|
  l2s_Set k v d := l2_set refuses k v;
  l2s_Get k := gets (λ c, l2_infos c !! k);
  l2s_GetEx k d := gets (λ c, l2_infos c !! k);
  l2s_Delete k := λ c, (Ret true, mkL2 (base.delete k (l2_infos c)) (l2_details c));
|}.
#[export] Instance ex_details : L2Structs ex_l2 () ReplicationTrackedDetails := {
  l2s_Set k v d := modify (λ c, mkL2 (l2_infos c) (<[k := v]> (l2_details c)));
  l2s_Get k := gets (λ c, l2_details c !! k);
  l2s_GetEx k d := gets (λ c, l2_details c !! k);
  l2s_Delete k := λ c, (Ret true, mkL2 (l2_infos c) (base.delete k (l2_details c)));
}.
#[export] Instance ex_free : Locker ex_l2 () := {
  locks_Lock d ks := mret true;
  locks_DualLock d ks := mret true;
  locks_IsLocked ks := mret true;
  locks_Unlock ks := mret ();
}.

Definition never (k : string) : bool := false.

#[export] Program Instance ex_info_laws refuses : L2StructsLaws (ex_infos refuses) := {| cached := l2_infos |}.
Next Obligation. intros. apply wp_gets. done. Qed.
Next Obligation. intros. apply wp_gets. done. Qed.
Next Obligation. intros. cbn [l2s_Set ex_infos]. unfold wp, l2_set. destruct (refuses k); cbn; reflexivity. Qed.
Next Obligation. intros. cbn. reflexivity. Qed.
#[export] Program Instance ex_details_laws : L2StructsLaws ex_details := {| cached := l2_details |}.
Next Obligation. intros. apply wp_gets. done. Qed.
Next Obligation. intros. apply wp_gets. done. Qed.
Next Obligation. intros. apply wp_modify. cbn. reflexivity. Qed.
Next Obligation. intros. cbn. reflexivity. Qed.
#[export] Program Instance ex_locks_apart refuses : LocksApart (ex_info_laws refuses) := {}.
Next Obligation. intros. by apply wp_ret. Qed.
Next Obligation. intros. by apply wp_ret. Qed.

(** ** JSON *)

Definition ex_rest (d : Z) (ttl : bool) (r : ()) : option (list Z) :=
  Some (member "cache_config" ++ AppendInt d ++ [comma] ++ member "ttl" ++ json_bool ttl ++ [closing]).
Definition ex_uuid (id : UUID) : string := pretty.pretty id.

(** A number and what follows it. *)
Definition is_digit (b : Z) : bool := (48 <=? b)%Z && (b <=? 57)%Z.
Fixpoint read_digits (acc : Z) (bs : list Z) : Z * list Z :=
  match bs with
  | b :: rest => if is_digit b then read_digits (acc * 10 + (b - 48)) rest else (acc, bs)
  | [] => (acc, [])
  end.
Definition read_int (bs : list Z) : Z * list Z :=
  match bs with
  | 45%Z :: bs => prod_map Z.opp id (read_digits 0 bs)
  | _ => read_digits 0 bs
  end.
Fixpoint strip (pat bs : list Z) : option (list Z) :=
  match pat, bs with
  | [], _ => Some bs
  | p :: pat, b :: bs => if (p =? b)%Z then strip pat bs else None
  | _, [] => None
  end.

(** The information of [i] with the numbers that the bytes have. *)
Definition read_as (i : info ()) (bs : list Z) : option (info ()) :=
  bs ← strip (json_before ex_uuid i ++ member "count") bs;
  let '(c, bs) := read_int bs in
  bs ← strip ([comma] ++ member "timestamp") bs;
  let '(t, bs) := read_int bs in
  bs ← strip [comma] bs;
  if decide (Some bs = ex_rest (i_StoreInfoCacheDuration i) (i_IsStoreInfoCacheTTL i) (i_rest i))
  then Some (persisted (set_Timestamp t (set_Count c i))) else None.

Lemma read_digits_app fuel n acc c rest : (0 ≤ n < 10 ^ Z.of_nat fuel)%Z → is_digit c = false →
  ∃ k, read_digits acc (digits fuel n ++ c :: rest) = (acc * 10 ^ k + n, c :: rest)%Z ∧ (0 ≤ k)%Z.
Proof.
  intros Hn Hc. revert n acc c rest Hn Hc.
  assert (Hgen : ∀ fuel n acc rest, (0 ≤ n < 10 ^ Z.of_nat fuel)%Z → ∃ k, (0 ≤ k)%Z ∧
    read_digits acc (digits fuel n ++ rest) = read_digits (acc * 10 ^ k + n) rest).
  { clear. induction fuel as [|fuel IH]; intros n acc rest Hn.
    - exists 0%Z. cbn [digits app]. change (10 ^ Z.of_nat 0)%Z with 1%Z in Hn. split; [lia|]. f_equal. lia.
    - cbn [digits]. rewrite <- app_assoc. pose proof (Z.mod_pos_bound n 10 ltac:(lia)) as Hm. pose proof (Z.div_mod n 10 ltac:(lia)) as Hd.
      assert (Hone : ∀ a r, read_digits a ([48 + n `mod` 10]%Z ++ r) = read_digits (a * 10 + n `mod` 10) r).
      { intros a r. cbn [app read_digits]. assert (is_digit (48 + n `mod` 10) = true) as ->; [|f_equal; lia].
        unfold is_digit. apply andb_true_intro. lia. }
      destruct (n <? 10)%Z eqn:E.
      + exists 1%Z. split; [lia|]. rewrite app_nil_l, Hone. f_equal. apply Z.ltb_lt in E. rewrite (Z.mod_small n 10) by lia. lia.
      + rewrite Nat2Z.inj_succ, Z.pow_succ_r in Hn by lia.
        destruct (IH (n / 10)%Z acc ([48 + n `mod` 10]%Z ++ rest)) as (k & Hk & ->).
        { split; [apply Z.div_pos; lia|]. apply Z.div_lt_upper_bound; lia. }
        exists (Z.succ k). split; [lia|]. rewrite Hone, Z.pow_succ_r by done. f_equal. lia. }
  intros n acc c rest Hn Hc. destruct (Hgen fuel n acc (c :: rest) Hn) as (k & Hk & ->). exists k. split; [|done].
  cbn [read_digits]. by rewrite Hc.
Qed.

Lemma fuel_enough n : (0 ≤ n)%Z → (n < 10 ^ Z.of_nat (S (Z.to_nat (Z.log2 n))))%Z.
Proof.
  intros Hn. pose proof (Z.log2_nonneg n). rewrite Nat2Z.inj_succ, Z2Nat.id by done.
  destruct (decide (n = 0)%Z) as [->|]; [done|]. pose proof (Z.log2_spec n ltac:(lia)) as [_ Hl].
  eapply Z.lt_le_trans; [exact Hl|]. apply Z.pow_le_mono_l. lia.
Qed.

Lemma read_int_unsigned b l : b ≠ 45%Z → read_int (b :: l) = read_digits 0 (b :: l).
Proof.
  intros Hb. destruct b as [|p|p]; try reflexivity.
  do 6 (try (destruct p as [p|p|]; try reflexivity)). done.
Qed.

Lemma read_int_AppendInt n c rest : is_digit c = false → c ≠ 45%Z → read_int (AppendInt n ++ c :: rest) = (n, c :: rest).
Proof.
  intros Hc Hne. unfold AppendInt. destruct (n <? 0)%Z eqn:E.
  - apply Z.ltb_lt in E. cbn [app read_int].
    destruct (read_digits_app (S (Z.to_nat (Z.log2 (Z.abs n)))) (Z.abs n) 0 c rest) as (k & -> & _);
      [split; [lia|apply fuel_enough; lia]|done|]. cbn. f_equal. lia.
  - apply Z.ltb_ge in E. cbn [app].
    destruct (read_digits_app (S (Z.to_nat (Z.log2 (Z.abs n)))) (Z.abs n) 0 c rest) as (k & Hr & _);
      [split; [lia|apply fuel_enough; lia]|done|].
    assert (Hh : ∀ b l, digits (S (Z.to_nat (Z.log2 (Z.abs n)))) (Z.abs n) ++ c :: rest = b :: l → b ≠ 45%Z).
    { intros b l He. pose proof (digits_unquoted (S (Z.to_nat (Z.log2 (Z.abs n)))) (Z.abs n) ltac:(lia)) as Hf.
      destruct (digits _ _) as [|b' l'] eqn:Ed; cbn in He; injection He as <- _; [done|]. apply Forall_cons in Hf as [Hb _]. lia. }
    destruct (digits _ _ ++ c :: rest) as [|b l] eqn:Ed; [by apply app_nil in Ed as [_ ?]|].
    rewrite read_int_unsigned by (by eapply Hh). rewrite Hr. f_equal. lia.
Qed.

Lemma strip_app pat bs : strip pat (pat ++ bs) = Some bs.
Proof. induction pat as [|p pat IH]; [done|]. cbn. by rewrite Z.eqb_refl. Qed.

(** Two informations that differ in their numbers, and in what is not encoded. *)
Definition blank (i : info ()) : info () := set_Timestamp 0 (set_Count 0 (persisted i)).

Lemma read_as_Marshal i j bs : blank j = blank i → Marshal_info ex_rest ex_uuid j = Some bs → read_as i bs = Some (persisted j).
Proof.
  intros Hb. unfold Marshal_info. destruct j as [n sl u d rt bt root c cd t dur ttl r need]. injection Hb as -> -> -> -> -> -> -> -> -> ->.
  unfold ex_rest. cbn [fmap option_fmap option_map i_StoreInfoCacheDuration i_IsStoreInfoCacheTTL i_rest]. intros Hm. apply (inj Some) in Hm as <-. unfold read_as, json_of.
  change (json_before ex_uuid (mkInfo _ _ _ _ _ _ _ _ _ _ _ _ _ _)) with (json_before ex_uuid i).
  rewrite (app_assoc (json_before ex_uuid i)), strip_app. cbn [mbind option_bind i_Count i_Timestamp app].
  rewrite read_int_AppendInt by done. change (comma :: member "timestamp" ++ ?x) with (([comma] ++ member "timestamp") ++ x).
  rewrite strip_app. cbn [mbind option_bind]. rewrite read_int_AppendInt by done. cbn [strip]. rewrite Z.eqb_refl. cbn [mbind option_bind].
  by rewrite decide_True.
Qed.

(** ** Two stores *)

Definition ex_store (name : string) (count delta timestamp : Z) (need : bool) : info () :=
  mkInfo name 4 true "a test" (String.append name "_r") (String.append name "_b") 7 count delta timestamp (10 ^ 12) false () need.
Definition ex_a : info () := ex_store "a" 5 0 100 false.
Definition ex_b : info () := ex_store "b" 9 0 200 false.

Definition ex_Unmarshal (bs : list Z) : option (info ()) :=
  match read_as ex_a bs with Some i => Some i | None => read_as ex_b bs end.
Definition ex_sound (i : info ()) : Prop := blank i = blank ex_a ∨ blank i = blank ex_b.

Lemma ex_sound_numbers i c t : ex_sound i → ex_sound (set_Timestamp t (set_Count c i)).
Proof. done. Qed.

Lemma ex_Unmarshal_Marshal i bs : ex_sound i → Marshal_info ex_rest ex_uuid i = Some bs → ex_Unmarshal bs = Some (persisted i).
Proof.
  intros [Hi|Hi] Hm; unfold ex_Unmarshal; [by rewrite (read_as_Marshal _ _ _ Hi Hm)|].
  rewrite (read_as_Marshal _ _ _ Hi Hm). replace (read_as ex_a bs) with (@None (info ())); [done|].
  unfold Marshal_info in Hm. destruct i as [n sl u d rt bt root c cd t dur ttl r need]. injection Hi as -> -> -> -> -> -> -> -> -> ->.
  unfold ex_rest in Hm. cbn [fmap option_fmap option_map i_StoreInfoCacheDuration i_IsStoreInfoCacheTTL i_rest] in Hm.
  apply (inj Some) in Hm as <-. reflexivity.
Qed.

Lemma ex_takes k v d c : wp (@l2s_Set _ _ _ (ex_infos never) k v d) c (λ _ _, True) (λ _ _, False).
Proof. done. Qed.

Definition ex_bytes (i : info ()) : list Z := from_option id [] (Marshal_info ex_rest ex_uuid i).
Definition ex_gen (n : nat) : UUID := N.of_nat (1000 + n).

(** The folder "/d" with the stores [a] and [b]; only [b] is cached. *)
Definition ex_files : gmap (list string) file :=
  list_to_map [(["d"; "storelist.txt"], mkFile (Marshal_names ["a"; "b"]) 0);
               (["d"; "a"; "storeinfo.txt"], mkFile (ex_bytes ex_a) 0);
               (["d"; "b"; "storeinfo.txt"], mkFile (ex_bytes ex_b) 0)].
Definition ex_dirs : gset (list string) := {[ ["d"]; ["d"; "a"]; ["d"; "b"] ]}.
Definition ex_repo (script : list event) (cache : gmap string (info ())) : repl ex_l2 :=
  mkRepl ex_l2 (mkTree ex_files ex_dirs 1000 script) (mkL2 cache ∅) None
    (mkTracker (mkDetails false true false) ["/d"] false) [] 0.
Definition ex_start : repl ex_l2 := ex_repo [] {["/d:b" := persisted ex_b]}.
Definition ex_table : gmap string (Z * Z) := {["a" := (5, 100); "b" := (9, 200)]}%Z.

Lemma ex_shows : shows [] ex_rest ex_uuid ex_sound "/d" ∅ ex_table ex_start (LW := ex_info_laws never).
Proof.
  split.
  - by apply Forall_nil_2.
  - done.
  - intros n c t HT. unfold ex_table in HT. apply lookup_insert_Some in HT as [[<- [= <- <-]]|[_ [<- [= <- <-]]%lookup_singleton_Some]].
    + split; [done|]. split; [done|]. split; [|done]. exists ex_a. eexists. split; [vm_compute; reflexivity|]. split; [vm_compute; reflexivity|].
      split; [by left|]. split; [by_decision|done].
    + split; [done|]. split; [done|]. split; [|done]. exists ex_b. eexists. split; [vm_compute; reflexivity|]. split; [vm_compute; reflexivity|].
      split; [by right|]. split; [by_decision|done].
  - intros n Hp Hn. unfold ex_table in Hn. apply lookup_insert_None in Hn as [Hn Hna]. apply lookup_singleton_None in Hn.
    unfold info_at. change (base [] "/d") with ["d"]. cbn [app]. split.
    + apply bool_decide_eq_false. unfold ex_start, ex_repo. cbn [r_tree t_dirs]. unfold ex_dirs. set_solver.
    + unfold ex_start, ex_repo. cbn [r_tree t_files]. unfold ex_files. apply not_elem_of_list_to_map. set_solver.
  - intros n i _ Hk. change (({["/d:b" := persisted ex_b]} : gmap string (info ())) !! key_of "/d" n = Some i) in Hk.
    apply lookup_singleton_Some in Hk as [Hk <-]. change "/d:b" with (key_of "/d" "b") in Hk. apply key_of_inj in Hk as <-. done.
Qed.

(** ** The claims at the two stores *)

Lemma ex_plain s : s ∈ ["a"; "b"; "c"] → plain s.
Proof. intros Hs. rewrite !elem_of_cons in Hs. destruct Hs as [->|[->|[->|Hs]]]; [done..|]. by apply not_elem_of_nil in Hs. Qed.

Lemma Get_exact_witness :
  wp (@GetWithTTL ex_l2 () () (ex_infos never) [] ex_Unmarshal true 60 ["c"; "a"; "b"]) ex_start
    (λ out s', shows [] ex_rest ex_uuid ex_sound "/d" ∅ ex_table s' (LW := ex_info_laws never) ∧
       (i_Name <$> out) ≡ₚ filter (known ex_table) ["c"; "a"; "b"] ∧
       ∀ i, i ∈ out → ex_table !! i_Name i = Some (i_Count i, i_Timestamp i)) (λ _ _, False).
Proof.
  apply (Get_exact (LW := ex_info_laws never) (CE := ())); [exact ex_sound_numbers|exact ex_Unmarshal_Marshal|exact ex_takes|done|exact ex_shows|].
  repeat constructor; apply ex_plain; set_solver.
Defined.

Definition ex_Update (refuses : string → bool) (stores : list (info ())) : M (repl ex_l2) (repl_error ()) (list (info ())) :=
  @Update ex_l2 () () ex_free (ex_infos refuses) [] ex_gen ex_rest ex_uuid ex_Unmarshal stores.
Definition ex_both : list (info ()) := [ex_store "b" 0 3 300 false; ex_store "a" 0 (-2) 301 true].

Lemma ex_updatable stores : stores = ex_both → Forall (updatable ex_uuid ex_sound) stores.
Proof.
  intros ->. constructor; [|constructor; [|constructor]]; (split; [apply ex_plain; set_solver|]); (split; [|by_decision]).
  - by right.
  - by left.
Qed.

Lemma Update_all_or_nothing_witness :
  (ex_Update never ex_both ex_start).1 = Ret [ex_store "a" 3 (-2) 301 false; ex_store "b" 12 3 300 false] ∧
  wp (ex_Update never ex_both) ex_start
    (λ out s',
      (out = updated ex_table <$> sort_stores ex_both ∧ (∀ x, x ∈ ex_both → known ex_table (i_Name x)) ∧
       shows [] ex_rest ex_uuid ex_sound "/d" ∅ (written ex_table out) s' (LW := ex_info_laws never)) ∨
      (out = [] ∧ (∃ x, x ∈ ex_both ∧ ¬ known ex_table (i_Name x)) ∧
       shows [] ex_rest ex_uuid ex_sound "/d" ∅ ex_table s' (LW := ex_info_laws never)))
    (λ _ s', shows [] ex_rest ex_uuid ex_sound "/d" ∅ ex_table s' (LW := ex_info_laws never)).
Proof.
  split; [vm_compute; reflexivity|]. unfold ex_Update.
  apply (Update_all_or_nothing (LW := ex_info_laws never) (LA := ex_locks_apart never) (CE := ()));
    [exact ex_sound_numbers|exact ex_Unmarshal_Marshal|exact ex_takes|done|exact ex_shows| |by apply ex_updatable].
  vm_compute. repeat constructor; set_solver.
Defined.

Lemma patch_is_encoding_witness :
  ∃ bs', Marshal_info ex_rest ex_uuid (set_Timestamp 12345 (set_Count (-7) ex_a)) = Some bs' ∧
    patch_info (ex_bytes ex_a) (-7) 12345 = Ok bs'.
Proof.
  apply (patch_is_encoding ex_rest ex_uuid ex_a); [by_decision|vm_compute; reflexivity].
Defined.

(** ** Findings *)

Definition file_of (n : string) (s : repl ex_l2) : option (list Z) := contents ["d"; n; "storeinfo.txt"] (r_tree s).
Definition count_in_file (n : string) (s : repl ex_l2) : option Z := bs ← file_of n s; i_Count <$> ex_Unmarshal bs.

(** In a store that is called [count] the patch takes the name for the field: it
    writes the count over the number that follows, the slot length. *)
Definition with_slots (n : Z) (i : info ()) : info () :=
  mkInfo (i_Name i) n (i_IsUnique i) (i_Description i) (i_RegistryTable i) (i_BlobTable i) (i_RootNodeID i) (i_Count i)
    (i_CountDelta i) (i_Timestamp i) (i_StoreInfoCacheDuration i) (i_IsStoreInfoCacheTTL i) (i_rest i) (i_NeedsMetaDataSave i).
Example count_is_taken_for_the_field :
  let i := ex_store "count" 5 0 100 false in
  patchJSONNumericField (ex_bytes i) "count" 17 = Ok (ex_bytes (with_slots 17 i)) ∧
  Index (field_name "count") (quote "count") = Some 0.
Proof. split; vm_compute; reflexivity. Qed.

(** A store that is not there: nothing is written, and there is no error. *)
Example missing_store_is_no_error :
  let r := ex_Update never (ex_both ++ [ex_store "c" 0 1 302 false]) ex_start in
  r.1 = Ret [] ∧ count_in_file "a" r.2 = Some 5%Z ∧ count_in_file "b" r.2 = Some 9%Z.
Proof. vm_compute. done. Qed.

(** The cache refuses to be written: the file has the new count, the next update
    starts from the old one. *)
Example stale_cache_loses_a_count :
  let r1 := ex_Update (λ _, true) [ex_store "b" 0 3 300 false] ex_start in
  let r2 := ex_Update (λ _, true) [ex_store "b" 0 4 301 false] r1.2 in
  count_in_file "b" r1.2 = Some 12%Z ∧ count_in_file "b" r2.2 = Some 13%Z.
Proof. vm_compute. done. Qed.

(** A write that is cut off leaves the file cut off: what is undone are the stores
    before it. *)
Example failed_write_stays_torn :
  let script := [mkEvent Fine 1; mkEvent (Torn 20) 1; mkEvent Fine 1; mkEvent Untouched 1;
                 mkEvent Untouched 1; mkEvent Fine 1; mkEvent Untouched 1] in
  let r := ex_Update never [ex_store "b" 0 3 300 false] (ex_repo script {["/d:b" := persisted ex_b]}) in
  r.1 = Fail (ETree (ErrWriteFile ["d"; "b"; "storeinfo.txt"])) ∧
  file_of "b" r.2 = Some (take 20 (ex_bytes ex_b)) ∧ count_in_file "b" r.2 = None.
Proof. vm_compute. done. Qed.

(** A store without a name is the folder of all stores. *)
Definition ex_Unmarshal_names (bs : list Z) : option (list string) :=
  if decide (bs = Marshal_names ["a"; "b"]) then Some ["a"; "b"] else None.
Example removing_no_name_removes_all :
  let r := @Remove ex_l2 () () ex_free (ex_infos never) [] None id ex_gen ex_Unmarshal_names [EmptyString] ex_start in
  r.1 = Ret () ∧ file_of "a" r.2 = None ∧ file_of "b" r.2 = None ∧
  contents ["d"; "storelist.txt"] (r_tree r.2) = Some (Marshal_names ["a"; "b"]).
Proof. vm_compute. done. Qed.
