(* ===== verification/ReplicationFindings.v ===== *)
(** * Two folders

    The claims of ReplicationProps at a database with the folders "/d0" and "/d1",
    and what goes wrong when a folder fails and is reinstated. *)

From stdpp Require Import gmap.
From S2P Require Import Prelude Wp Handle HashmapSpec Stores NodeRepo TwoPhase FsLog FileTree StoreJson Replication StoreRepo ReplicationProps StoreRepoProps Reinstate StoreRepoFindings.

(** ** Status *)

Definition all_details : list ReplicationTrackedDetails :=
  f ← [false; true]; t ← [false; true]; l ← [false; true]; [mkDetails f t l].
Definition read_details (bs : list Z) : option ReplicationTrackedDetails :=
  list_find (λ d, Marshal_details d = bs) all_details ≫= λ p, Some p.2.
Lemma read_details_Marshal d : read_details (Marshal_details d) = Some d.
Proof. by destruct d as [[] [] []]. Qed.

(** A tracker of "/d0" and "/d1" with the given details, known to the process. *)
Definition two_folders (files : list (list string * list Z)) (dirs : list (list string)) (cache : ex_l2)
    (d : ReplicationTrackedDetails) : repl ex_l2 :=
  mkRepl ex_l2 (mkTree ((λ bs, mkFile bs 0) <$> list_to_map files) (list_to_set dirs) 1000 []) cache (Some d)
    (mkTracker d ["/d0"; "/d1"] true) [] 0.
Definition no_cache : ex_l2 := mkL2 ∅ ∅.
Definition ex_folders : list (list string) := [["d0"]; ["d1"]].
Definition ex_failing : repl ex_l2 := two_folders [] ex_folders no_cache (mkDetails false true false).

Local Abbreviation failover := (failover [] : M (repl ex_l2) (repl_error ()) ()).
Local Abbreviation NewReplicationTracker := (NewReplicationTracker [] read_details (CE := ())).

Lemma failover_survives_restart_witness :
  wp failover ex_failing
    (λ _ s1, details s1 = mkDetails true false (LogCommitChanges (details ex_failing)) ∧ r_global s1 = Some (details s1) ∧
       ∀ s2, r_tree s2 = r_tree s1 → r_global s2 = None → cached (r_cache s2) !! status_key "/d0" = None →
         wp (NewReplicationTracker ["/d0"; "/d1"] true) s2 (λ _ s3, details s3 = details s1 ∧ r_global s3 = Some (details s1)) (λ _ _, False))
    (λ _ _, False).
Proof.
  apply (failover_survives_restart [] read_details read_details_Marshal "/d0" "/d1" ex_failing (mkDetails false true false)).
  - split; [by apply Forall_nil_2|done|done|done|done].
  - done.
  - done.
  - done.
  - done.
Defined.

(** The drive of "/d1" refuses the first write; the tracker knows of no failure. *)
Definition ex_broken : repl ex_l2 :=
  let s := two_folders [] ex_folders no_cache (mkDetails false true false) in
  set_r_tree (mkTree (t_files (r_tree s)) (t_dirs (r_tree s)) 1000 (replicate 8 (mkEvent Untouched 1))) s.
Local Abbreviation Replicate := (StoreRepo.Replicate [] ex_rest ex_uuid : list (info ()) → M (repl ex_l2) (repl_error ()) ()).

Lemma failed_Replicate_stops_witness : (∃ e, (Replicate [ex_a] ex_broken).1 = Fail e) ∧
  ∀ more s2, r_tracker s2 = r_tracker (Replicate [ex_a] ex_broken).2 → Replicate more s2 = (Ret (), s2).
Proof.
  pose proof (failed_Replicate_stops (CE := ()) [] ex_rest ex_uuid ex_broken [ex_a]) as Hw.
  assert (He : ∃ e, (Replicate [ex_a] ex_broken).1 = Fail e) by (eexists; vm_compute; reflexivity).
  split; [exact He|]. destruct He as [e He]. exact (wlp_failed _ _ _ _ _ Hw He).
Defined.

(** ** Findings *)

(** A process that starts: nothing is known to it, and the cache has forgotten. *)
Definition restarted (s : repl ex_l2) : repl ex_l2 := set_r_global None (set_r_cache no_cache s).

(** What Add and Remove record is written to the passive folder by a test of its own,
    which asks whether the database replicates and not whether replication failed. *)
Definition ex_Remove : list string → M (repl ex_l2) (repl_error ()) () :=
  @Remove ex_l2 () () ex_free (ex_infos never) [] None id ex_gen ex_Unmarshal_names.
Example failed_tracker_still_removes :
  let passive := (["d1"; "a"; "storeinfo.txt"], ex_bytes ex_a) in
  let s := two_folders [(["d0"; "storelist.txt"], Marshal_names ["a"; "b"]); passive] [["d0"]; ["d0"; "a"]; ["d1"]; ["d1"; "a"]]
    no_cache (mkDetails true true false) in
  let r := ex_Remove ["a"] s in
  r.1 = Ret () ∧ Replicate [ex_a] s = (Ret (), s) ∧
  contents ["d1"; "a"; "storeinfo.txt"] (r_tree s) = Some (ex_bytes ex_a) ∧
  contents ["d1"; "a"; "storeinfo.txt"] (r_tree r.2) = None ∧
  contents ["d1"; "storelist.txt"] (r_tree r.2) = Some (Marshal_names ["b"]).
Proof. vm_compute. done. Qed.

(** The second folder is active and fails; the status file that the failover writes
    still says so, and a process that starts anew believes it. *)
Example failover_back_is_forgotten :
  let s1 := (failover (two_folders [] ex_folders no_cache (mkDetails false false false))).2 in
  let s2 := (NewReplicationTracker ["/d0"; "/d1"] true (restarted s1)).2 in
  ActiveFolderToggler (details s1) = true ∧ ActiveFolderToggler (details s2) = false.
Proof. vm_compute. done. Qed.

(** The flag that makes transactions log their changes is not pushed to the cache,
    whose entry counts as equal; the next tracker takes the entry. *)
Definition ex_known_failure : ex_l2 := mkL2 ∅ {["Rreplstat:/d0" := mkDetails true true false]}.
Example log_flag_is_not_pushed :
  let s0 := two_folders [] ex_folders ex_known_failure (mkDetails true true false) in
  let s1 := (startLoggingCommitChanges [] (CE := ()) s0).2 in
  let s2 := (NewReplicationTracker ["/d0"; "/d1"] true s1).2 in
  LogCommitChanges (details s1) = true ∧ l2_details (r_cache s1) = l2_details ex_known_failure ∧
  LogCommitChanges (details s2) = false ∧ r_global s2 = Some (mkDetails true true false).
Proof. vm_compute. done. Qed.

(** The store [a] with its registry in "/d0"; the drive of "/d1" is new. *)
Definition ex_active_files : list (list string * list Z) :=
  [(["d0"; "storelist.txt"], Marshal_names ["a"; "b"]);
   (["d0"; "a"; "storeinfo.txt"], ex_bytes ex_a);
   (["d0"; "b"; "storeinfo.txt"], ex_bytes ex_b);
   (["d0"; "a_r"; "a_r-1.reg"], [1; 2; 3]%Z);
   (["d0"; "b_r"; "b_r-1.reg"], [4; 5; 6]%Z)].
Definition ex_active_dirs : list (list string) := [["d0"]; ["d0"; "a"]; ["d0"; "b"]; ["d0"; "a_r"]; ["d0"; "b_r"]; ["d1"]].
Definition ex_CopyToPassiveFolders : M (repl ex_l2) (repl_error ()) () :=
  @CopyToPassiveFolders ex_l2 () () (ex_infos never) [] ex_rest ex_uuid ex_Unmarshal ex_Unmarshal_names.

(** The copier reads the stores from the folder it copies to: it finds none there,
    and copies neither them nor their registries. *)
Example copier_reads_the_new_folder :
  let r := ex_CopyToPassiveFolders (two_folders ex_active_files ex_active_dirs no_cache (mkDetails true true true)) in
  r.1 = Ret () ∧ contents ["d1"; "storelist.txt"] (r_tree r.2) = Some (Marshal_names ["a"; "b"]) ∧
  contents ["d1"; "a"; "storeinfo.txt"] (r_tree r.2) = None ∧ contents ["d1"; "a_r"; "a_r-1.reg"] (r_tree r.2) = None.
Proof. vm_compute. done. Qed.

(** What an old drive has is kept, however old it is. *)
Example copier_keeps_old_counts :
  let old := (["d1"; "a"; "storeinfo.txt"], ex_bytes (set_Count 2 ex_a)) in
  let r := ex_CopyToPassiveFolders (two_folders (old :: ex_active_files) (["d1"; "a"] :: ex_active_dirs) no_cache (mkDetails true true true)) in
  r.1 = Ret () ∧ contents ["d1"; "a"; "storeinfo.txt"] (r_tree r.2) = Some (ex_bytes (set_Count 2 ex_a)).
Proof. vm_compute. done. Qed.
