(* ===== verification/EcStore.v ===== *)
(** * fs/blobstore.withec.go, fs/erasure: blobs as shards on several drives

    A blob is split into data shards to which a Reed-Solomon code adds parity
    shards; each drive keeps one shard in a file, after a byte that says how many
    zeroes fill up the data and the MD5 sum of the shard.  The tasks of a call work
    on files of their own, so that they are run in turn.  The Reed-Solomon code and
    MD5 are arguments; what is proved holds for codes with [coder_laws]. *)

From stdpp Require Import gmap.
From S2P Require Import Prelude Wp Handle HashmapSpec Stores BlobStore.

(** ** The code

    [reedsolomon.Encoder]: a missing shard is [None], an error of a call is [None]. *)
Record coder := mkCoder {
  c_Split : list Z → option (list (list Z));
  c_Encode : list (list Z) → option (list (list Z));
  c_Verify : list (option (list Z)) → bool;
  c_Reconstruct : list (option (list Z)) → option (list (option (list Z)));
  c_ReconstructSome : list (option (list Z)) → list bool → option (list (option (list Z)));
  c_Join : list (option (list Z)) → nat → option (list Z);
}.

Record Erasure := mkErasure { DataShardsCount : nat; ParityShardsCount : nat; encoder : coder }.

Inductive ec_error :=
| ErrTooManyShards | ErrCoder | ErrEncode | ErrNoShards | ErrReconstruct | ErrFinalReconstruct | ErrJoin
| ErrNoConfig (table : string) | ErrPathCount | ErrNoShardRead | ErrShardFile (e : io_error) | ErrRemoveStore (es : list io_error).

Section ec.
(** [md5.Sum] *)
Context (md5 : list Z → list Z).
(** The hierarchy of directories, the text of an ID and of a number. *)
Context (toFilePath : string → UUID → string) (uuid_String : UUID → string) (Itoa : nat → string).

Local Abbreviation D := (M filesystem ec_error).
Definition on_files {A} (m : M filesystem io_error A) : D A := on id (λ f _, f) ErrShardFile m.

(** ** fs/erasure *)

Definition MetaDataSize : nat := 17.

(** [New] is that of [reedsolomon]. *)
Definition NewErasure (New : nat → nat → option coder) (dataShards parityShards : nat) : result ec_error Erasure :=
  if decide (256 < dataShards + parityShards) then Err ErrTooManyShards
  else match New dataShards parityShards with
       | Some c => Ok (mkErasure dataShards parityShards c)
       | None => Err ErrCoder
       end.

Definition Encode (e : Erasure) (data : list Z) : option (list (list Z)) :=
  shards ← c_Split (encoder e) data; c_Encode (encoder e) shards.

(** The zeroes that fill up the data and the sum of the shard.  An index without a
    shard panics, and so does a division by no data shards. *)
Definition shard_meta (e : Erasure) (dataSize : nat) (shard : list Z) : list Z :=
  let r := dataSize `mod` DataShardsCount e in
  (if decide (r = 0) then 0%Z else wrap_u 8 (Z.of_nat (DataShardsCount e - r))) :: md5 shard.
Definition ComputeShardMetadata (e : Erasure) (dataSize : nat) (shards : list (list Z)) (shardIndex : nat) : D (list Z) :=
  shard ← or_panic (shards !! shardIndex);
  if decide (DataShardsCount e = 0) then panic else mret (shard_meta e dataSize shard).

Definition missing (shards : list (option (list Z))) : list bool := (λ o : option (list Z), bool_decide (o = None)) <$> shards.
Definition indices (flags : list bool) : list nat := (filter (λ p : nat * bool, p.2 = true) (imap pair flags)).*1.

(** [reconstructMissingShards] *)
Definition reconstructMissingShards (e : Erasure) (shards : list (option (list Z))) : D (list (option (list Z)) * list nat) :=
  match c_ReconstructSome (encoder e) shards (missing shards) with
  | Some shards' => mret (shards', indices (missing shards))
  | None => fail ErrReconstruct
  end.

(** The shards whose sum is not the one that was stored; without metadata there is
    nothing to slice. *)
Fixpoint bad_shards (shards metas : list (option (list Z))) : D (list bool) :=
  match shards, metas with
  | shard :: shards, meta :: metas =>
      md ← or_panic meta;
      rest ← bad_shards shards metas;
      mret (negb (bool_decide (drop 1 (md : list Z) = md5 (from_option id [] shard))) :: rest)
  | [], _ => mret []
  | _ :: _, [] => panic
  end.
Definition without (shards : list (option (list Z))) (bad : list bool) : list (option (list Z)) :=
  zip_with (λ o (b : bool), if b then None else o) shards bad.

Definition detectBadShardsThenReconstruct (e : Erasure) (shards metas : list (option (list Z))) : D (list (option (list Z)) * list nat) :=
  bad ← bad_shards shards metas;
  if decide (indices bad = []) then fail ErrFinalReconstruct
  else match c_Reconstruct (encoder e) (without shards bad) with
       | None => fail ErrFinalReconstruct
       | Some shards' => if c_Verify (encoder e) shards' then mret (shards', indices bad) else fail ErrFinalReconstruct
       end.

(** The number of zeroes after the data, from the first metadata there are. *)
Definition padding (metas : list (option (list Z))) : option Z := md ← head (omap id metas); head md.

Definition Decode (e : Erasure) (shards metas : list (option (list Z))) : D (list Z * list nat) :=
  if decide (length shards = 0) then fail ErrNoShards
  else
    r ← (if c_Verify (encoder e) shards then mret (shards, [])
         else
           r ← reconstructMissingShards e shards;
           if c_Verify (encoder e) (r : list (option (list Z)) * list nat).1 then mret r
           else detectBadShardsThenReconstruct e r.1 metas);
    let '(shards, indeces) := (r : list (option (list Z)) * list nat) in
    let size := length (from_option id [] (mjoin (head shards))) * DataShardsCount e in
    match c_Join (encoder e) shards size with
    | None => fail ErrJoin
    | Some joined =>
        pad ← or_panic (padding metas);
        if decide (Z.of_nat (length joined) < pad)%Z then panic
        else mret (take (length joined - Z.to_nat pad) joined, indeces)
    end.

(** ** fs/blobstore.withec.go *)

Record ErasureCodingConfig := mkConfig {
  cf_DataShardsCount : nat;
  cf_ParityShardsCount : nat;
  cf_BaseFolderPathsAcrossDrives : list string;
  cf_RepairCorruptedShards : bool;
}.
Record BlobStoreWithEC := mkEcStore {
  ec_erasure : gmap string (Erasure * list string);
  ec_repairCorruptedShards : bool;
}.

(** [NewBlobStoreWithEC], for the entries of the configuration in the order in which
    they are ranged over: the flag of the last one stays. *)
Fixpoint new_configs (New : nat → nat → option coder) (cfg : list (string * ErasureCodingConfig)) (b : BlobStoreWithEC) : result ec_error BlobStoreWithEC :=
  match cfg with
  | [] => Ok b
  | (k, v) :: cfg =>
      (ec ←? NewErasure New (cf_DataShardsCount v) (cf_ParityShardsCount v);
       if decide (DataShardsCount ec + ParityShardsCount ec ≠ length (cf_BaseFolderPathsAcrossDrives v)) then Err ErrPathCount
       else new_configs New cfg (mkEcStore (<[k := (ec, cf_BaseFolderPathsAcrossDrives v)]> (ec_erasure b)) (cf_RepairCorruptedShards v)))%go
  end.
(** [None] is a nil map; the global configuration is taken for it. *)
Definition NewBlobStoreWithEC (New : nat → nat → option coder) (globalErasureConfig cfg : option (list (string * ErasureCodingConfig))) : result ec_error BlobStoreWithEC :=
  new_configs New (default [] (match cfg with Some c => Some c | None => globalErasureConfig end)) (mkEcStore ∅ false).

(** A table without paths has those of the entry for all tables. *)
Definition config_of (b : BlobStoreWithEC) (blobTable : string) : option (Erasure * list string) :=
  c ← ec_erasure b !! blobTable;
  if decide (c.2 = []) then None else Some c.
Definition getBaseFolderPathsAndErasureConfig (b : BlobStoreWithEC) (blobTable : string) : option (Erasure * list string) :=
  match config_of b blobTable with Some c => Some c | None => config_of b EmptyString end.

(** The directory and the file of a shard on a drive. *)
Definition shard_dir (table : string) (key : UUID) (drive : string) : string :=
  toFilePath (String.append drive (String.append "/" table)) key.
Definition shard_file (table : string) (key : UUID) (drive : string) (i : nat) : string :=
  String.append (shard_dir table key drive) (String.append "/" (String.append (uuid_String key) (String.append "_" (Itoa i)))).

(** The shard files that can be read, cut into metadata and shard, and the errors of
    the others. *)
Definition read_shard (fn : string) : D (list Z * list Z) :=
  ba ← on_files (ReadFile fn);
  if decide (length ba < MetaDataSize) then panic else mret (take MetaDataSize ba, drop MetaDataSize ba).
Fixpoint read_shards (table : string) (key : UUID) (i : nat) (drives : list string) : D (list (option (list Z * list Z)) * list ec_error) :=
  match drives with
  | [] => mret ([], [])
  | drive :: drives =>
      r ← handle (read_shard (shard_file table key drive i)) (λ x, mret (Some x, [])) (λ err, mret (None, [err]));
      rest ← read_shards table key (S i) drives;
      mret ((r : option (list Z * list Z) * list ec_error).1 :: (rest : list (option (list Z * list Z)) * list ec_error).1, r.2 ++ rest.2)
  end.

Definition shards_read (found : list (option (list Z * list Z))) : list (option (list Z)) := (λ o : option (list Z * list Z), option_map snd o) <$> found.
Definition metas_read (found : list (option (list Z * list Z))) : list (option (list Z)) := (λ o : option (list Z * list Z), option_map fst o) <$> found.

Definition isShardsEmpty (shards : list (option (list Z))) : bool := bool_decide (Forall (λ o, o = None) shards).

(** The shard and its metadata in one file. *)
Definition write_shard (e : Erasure) (dataSize : nat) (shards : list (list Z)) (i : nat) (fn : string) : D () :=
  md ← ComputeShardMetadata e dataSize shards i;
  shard ← or_panic (shards !! i);
  on_files (WriteFile fn (md ++ shard)).

Fixpoint repair (table : string) (key : UUID) (e : Erasure) (drives : list string) (size : nat) (shards : list (list Z)) (indeces : list nat) : D () :=
  match indeces with
  | [] => mret ()
  | i :: indeces =>
      drive ← or_panic (drives !! i);
      handle (write_shard e size shards i (shard_file table key drive i)) mret (λ _, mret ());;
      repair table key e drives size shards indeces
  end.

Definition GetOne (b : BlobStoreWithEC) (table : string) (key : UUID) : D (list Z) :=
  match getBaseFolderPathsAndErasureConfig b table with
  | None => fail (ErrNoConfig table)
  | Some (e, drives) =>
      found ← read_shards table key 0 drives;
      let '(found, errs) := (found : list (option (list Z * list Z)) * list ec_error) in
      if isShardsEmpty (shards_read found) then fail (default ErrNoShardRead (last errs))
      else
        r ← Decode e (shards_read found) (metas_read found);
        let '(data, indeces) := (r : list Z * list nat) in
        (if ec_repairCorruptedShards b && negb (bool_decide (indeces = []))
         then match Encode e data with
              | Some shards => repair table key e drives (length data) shards indeces
              | None => mret ()
              end
         else mret ());;
        mret data
  end.

(** A task that writes a shard; the errors go to a channel. *)
Definition add_shard (table : string) (key : UUID) (e : Erasure) (size : nat) (shards : list (list Z)) (i : nat) (drive : string) : D (list ec_error) :=
  let fp := shard_dir table key drive in
  there ← on_files (Exists_dir fp);
  handle (if (there : bool) then mret () else on_files (MkdirAll fp))
    (λ _, handle (write_shard e size shards i (shard_file table key drive i)) (λ _, mret []) (λ err, mret [err]))
    (λ err, mret [err]).
Fixpoint add_shards (table : string) (key : UUID) (e : Erasure) (size : nat) (shards : list (list Z)) (i : nat) (rest : list (list Z)) (drives : list string) : D (list ec_error) :=
  match rest with
  | [] => mret []
  | _ :: rest =>
      drive ← or_panic (head drives);
      errs ← add_shard table key e size shards i drive;
      errs' ← add_shards table key e size shards (S i) rest (tail drives);
      mret (errs ++ errs')
  end.

Fixpoint add_blobs (table : string) (e : Erasure) (drives : list string) (blobs : list (UUID * list Z)) : D () :=
  match blobs with
  | [] => mret ()
  | (key, ba) :: blobs =>
      match Encode e ba with
      | None => fail ErrEncode
      | Some shards =>
          errs ← add_shards table key e (length ba) shards 0 shards drives;
          if decide (ParityShardsCount e < length errs) then fail (default ErrNoShardRead (last errs))
          else add_blobs table e drives blobs
      end
  end.

Definition add_table (b : BlobStoreWithEC) (p : BlobsPayload (UUID * list Z)) : D () :=
  match getBaseFolderPathsAndErasureConfig b (bp_BlobTable p) with
  | None => fail (ErrNoConfig (bp_BlobTable p))
  | Some (e, drives) => add_blobs (bp_BlobTable p) e drives (bp_Blobs p)
  end.

(** The tables are written whatever becomes of the others; the first error is the
    result. *)
Fixpoint Add (b : BlobStoreWithEC) (storesblobs : list (BlobsPayload (UUID * list Z))) : D () :=
  match storesblobs with
  | [] => mret ()
  | p :: storesblobs => handle (add_table b p) (λ _, Add b storesblobs) (λ err, handle (Add b storesblobs) (λ _, fail err) (λ _, fail err))
  end.
Definition Update (b : BlobStoreWithEC) (storesblobs : list (BlobsPayload (UUID * list Z))) : D () := Add b storesblobs.

Fixpoint remove_shards (table : string) (key : UUID) (i : nat) (drives : list string) : D () :=
  match drives with
  | [] => mret ()
  | drive :: drives =>
      let fn := shard_file table key drive i in
      there ← on_files (Exists_file fn);
      (if (there : bool) then handle (on_files (RemoveFile fn)) mret (λ _, mret ()) else mret ());;
      remove_shards table key (S i) drives
  end.
Fixpoint remove_blobs (table : string) (drives : list string) (keys : list UUID) : D () :=
  match keys with [] => mret () | key :: keys => remove_shards table key 0 drives;; remove_blobs table drives keys end.
Fixpoint Remove (b : BlobStoreWithEC) (storesBlobsIDs : list (BlobsPayload UUID)) : D () :=
  match storesBlobsIDs with
  | [] => mret ()
  | p :: rest =>
      match getBaseFolderPathsAndErasureConfig b (bp_BlobTable p) with
      | None => fail (ErrNoConfig (bp_BlobTable p))
      | Some (_, drives) => remove_blobs (bp_BlobTable p) drives (bp_Blobs p);; Remove b rest
      end
  end.

Section remove_store.
(** [filepath.Join], and whether a path is in a directory. *)
Context (Join : string → string → string) (inside : string → string → bool).

(** [FileIO.RemoveAll] *)
Definition RemoveAll (fp : string) : M filesystem io_error () := λ s,
  if fs_removefails s fp then (Fail (ErrRemove fp), s)
  else (Ret (), set_fs_files (filter (λ f, inside fp f.1 = false) (fs_files s)) (set_fs_dirs (filter (λ d, inside fp d = false) (fs_dirs s)) s)).
Fixpoint remove_folders (blobStoreName : string) (drives : list string) : D (list io_error) :=
  match drives with
  | [] => mret []
  | drive :: drives =>
      errs ← handle (on_files (RemoveAll (Join drive blobStoreName))) (λ _, mret [])
               (λ err, mret (match err with ErrShardFile e => [e] | _ => [] end));
      errs' ← remove_folders blobStoreName drives;
      mret (errs ++ errs')
  end.
Definition RemoveStore (b : BlobStoreWithEC) (blobStoreName : string) : D () :=
  match getBaseFolderPathsAndErasureConfig b blobStoreName with
  | None => fail (ErrNoConfig blobStoreName)
  | Some (_, drives) =>
      errs ← remove_folders blobStoreName drives;
      if decide (errs = []) then mret () else fail (ErrRemoveStore errs)
  end.
End remove_store.

(** ** The promises of the code

    What [reedsolomon] documents: the shards have one size, which is not zero, the data are in front and
    zeroes fill them up; any [d] shards of a verified set determine the others. *)

Definition present {A} (l : list (option A)) : list A := omap (λ o, o) l.
Definition agree (l : list (option (list Z))) (sh : list (list Z)) : Prop := Forall2 (λ o x, o = None ∨ o = Some x) l sh.
Definition one_size (sh : list (list Z)) : Prop := ∃ n, 0 < n ∧ Forall (λ x : list Z, length x = n) sh.
Definition shard_size (d size : nat) : nat := (size + d - 1) / d.

Record coder_laws (d p : nat) (c : coder) : Prop := {
  law_data : 0 < d;
  law_count : d + p ≤ 256;
  law_encode data : data ≠ [] → ∃ split sh, c_Split c data = Some split ∧ c_Encode c split = Some sh ∧
    length sh = d + p ∧ c_Verify c (Some <$> sh) = true ∧ Forall (λ x, length x = shard_size d (length data)) sh ∧
    c_Join c (Some <$> sh) (shard_size d (length data) * d) =
      Some (data ++ replicate (shard_size d (length data) * d - length data) 0%Z);
  law_present l : c_Verify c l = true → ∃ sh, l = Some <$> sh;
  law_rebuild l sh : c_Verify c (Some <$> sh) = true → length sh = d + p → agree l sh → d ≤ length (present l) →
    c_Reconstruct c l = Some (Some <$> sh) ∧ c_ReconstructSome c l (missing l) = Some (Some <$> sh);
  law_nothing_missing sh : length sh = d + p → one_size sh →
    c_ReconstructSome c (Some <$> sh) (missing (Some <$> sh)) = Some (Some <$> sh);
}.

Lemma lookup_indices flags i : i ∈ indices flags ↔ flags !! i = Some true.
Proof.
  unfold indices. rewrite list_elem_of_fmap. split.
  - intros ([j b] & -> & Hin). apply list_elem_of_filter in Hin as [Hb Hin]. cbn in Hb. subst b. cbn.
    apply list_elem_of_lookup in Hin as [k Hk]. rewrite list_lookup_imap in Hk.
    destruct (flags !! k) eqn:E; [|done]. cbn in Hk. congruence.
  - intros Hi. exists (i, true). split; [done|]. apply list_elem_of_filter. split; [done|].
    apply list_elem_of_lookup. exists i. by rewrite list_lookup_imap, Hi.
Qed.

Lemma agree_all sh : agree (Some <$> sh) sh.
Proof. unfold agree. induction sh; constructor; auto. Qed.
Lemma agree_present sh sh' : agree (Some <$> sh') sh → sh' = sh.
Proof.
  unfold agree. revert sh'. induction sh as [|x sh IH]; intros [|y sh'] H; inv H; [done|].
  f_equal; [destruct H3; congruence|by apply IH].
Qed.
Lemma omap_present (sh : list (list Z)) : length (present (Some <$> sh)) = length sh.
Proof. induction sh; [done|]. cbn. by f_equal. Qed.

(** The number of zeroes after the data. *)
Definition padded (d size : nat) : nat := shard_size d size * d - size.

Lemma padded_mod d size : 0 < d → size ≤ shard_size d size * d ∧
  padded d size = if decide (size `mod` d = 0) then 0 else d - size `mod` d.
Proof.
  intros Hd. unfold padded, shard_size. pose proof (Nat.div_mod size d ltac:(lia)) as Hm.
  pose proof (Nat.mod_upper_bound size d ltac:(lia)) as Hr. set (q := size / d) in *. set (r := size `mod` d) in *.
  assert (Hq : (size + d - 1) / d = if decide (r = 0) then q else S q).
  { case_decide as H0; symmetry; [apply (Nat.div_unique _ _ _ (d - 1))|apply (Nat.div_unique _ _ _ (r - 1))]; nia. }
  rewrite Hq. case_decide; split; nia.
Qed.

Section decode.
Context (e : Erasure) (laws : coder_laws (DataShardsCount e) (ParityShardsCount e) (encoder e)).
Local Abbreviation d := (DataShardsCount e).
Local Abbreviation p := (ParityShardsCount e).
Local Abbreviation c := (encoder e).

Lemma shard_meta_head size x : shard_meta e size x = Z.of_nat (padded d size) :: md5 x.
Proof.
  unfold shard_meta. destruct laws as [Hd Hp _ _ _ _]. destruct (padded_mod d size Hd) as [_ ->].
  case_decide as H0; [done|]. f_equal. pose proof (Nat.mod_upper_bound size d ltac:(lia)). apply wrap_u_id. unfold in_u. lia.
Qed.

(** A code word of [data]. *)
Definition encodes (data : list Z) (sh : list (list Z)) : Prop := data ≠ [] ∧ Encode e data = Some sh.

Lemma encodes_facts data sh : encodes data sh →
  length sh = d + p ∧ c_Verify c (Some <$> sh) = true ∧ Forall (λ x, length x = shard_size d (length data)) sh ∧
  c_Join c (Some <$> sh) (shard_size d (length data) * d) = Some (data ++ replicate (padded d (length data)) 0%Z).
Proof.
  intros [Hne He]. destruct (law_encode _ _ _ laws data Hne) as (sp & sh' & Hs & Hc & H). unfold Encode in He.
  rewrite Hs in He. cbn in He. rewrite Hc in He. by simplify_eq.
Qed.

Lemma encodes_some data : data ≠ [] → ∃ sh, encodes data sh.
Proof.
  intros Hne. destruct (law_encode _ _ _ laws data Hne) as (sp & sh & Hs & Hc & _). exists sh. split; [done|].
  unfold Encode. rewrite Hs. cbn. by rewrite Hc.
Qed.

(** Once the code word is there, the data are. *)
Lemma join_padded data sh metas : encodes data sh → padding metas = Some (Z.of_nat (padded d (length data))) →
  ∃ joined, c_Join c (Some <$> sh) (length (from_option id [] (mjoin (head (Some <$> sh)))) * d) = Some joined ∧
    padding metas = Some (Z.of_nat (padded d (length data))) ∧
    (padded d (length data) ≤ length joined) ∧ take (length joined - padded d (length data)) joined = data.
Proof.
  intros Hen Hpad. destruct (encodes_facts _ _ Hen) as (Hlen & _ & Hsz & Hj). destruct laws as [Hd _ _ _ _ _].
  exists (data ++ replicate (padded d (length data)) 0%Z). split_and!.
  - rewrite <-Hj. f_equal. destruct sh as [|x sh]; [cbn in Hlen; lia|]. apply Forall_cons in Hsz as [Hx _]. by rewrite <-Hx.
  - done.
  - rewrite length_app, length_replicate. lia.
  - rewrite length_app, length_replicate. rewrite take_app_le by lia. apply take_ge. lia.
Qed.
Definition whole (size : nat) (x : list Z) : list Z * list Z := (shard_meta e size x, x).

(** What is left of the files of a blob: shards are lost, or their bytes changed. *)
Definition some_lost (size : nat) (found : list (option (list Z * list Z))) (sh : list (list Z)) : Prop :=
  Forall2 (λ (o : option (list Z * list Z)) x, o = None ∨ o = Some (whole size x)) found sh ∧
  d ≤ length (present found).
Definition differ (sh ys : list (list Z)) : list (list Z * list Z) := filter (λ xy, xy.1 ≠ xy.2) (zip sh ys).
Definition some_rotten (size : nat) (found : list (option (list Z * list Z))) (sh : list (list Z)) : Prop :=
  ∃ ys, found = zip_with (λ x y, Some (shard_meta e size x, y)) sh ys ∧
    Forall2 (λ x y : list Z, length y = length x ∧ (y = x ∨ md5 y ≠ md5 x)) sh ys ∧ length (differ sh ys) ≤ p.

(** The indices that [Decode] reports are those of the shards that are not whole. *)
Definition reports (size : nat) (found : list (option (list Z * list Z))) (sh : list (list Z)) (idx : list nat) : Prop :=
  (∀ i, i ∈ idx → i < length sh) ∧
  (∀ i x, sh !! i = Some x → i ∈ idx ∨ found !! i = Some (Some (whole size x))).

Lemma padding_metas size found :
  (∃ i x y, found !! i = Some (Some (shard_meta e size x, y))) →
  Forall (λ o : option (list Z * list Z), o = None ∨ ∃ x y, o = Some (shard_meta e size x, y)) found →
  padding (metas_read found) = Some (Z.of_nat (padded d size)).
Proof.
  intros (i & x & y & Hi) Hall. unfold padding, metas_read. revert i Hi.
  induction Hall as [|o found Ho _ IH]; intros i Hi; [done|]. destruct Ho as [->|(x' & y' & ->)].
  - destruct i as [|i]; [done|]. exact (IH i Hi).
  - by rewrite shard_meta_head.
Qed.

Lemma decode_ends data sh found idx s : encodes data sh →
  padding (metas_read found) = Some (Z.of_nat (padded d (length data))) → found ≠ [] →
  (if c_Verify c (shards_read found) then (shards_read found, []) = (Some <$> sh, idx)
   else ∃ r, reconstructMissingShards e (shards_read found) s = (Ret r, s) ∧
     (if c_Verify c r.1 then r = (Some <$> sh, idx)
      else detectBadShardsThenReconstruct e r.1 (metas_read found) s = (Ret (Some <$> sh, idx), s))) →
  Decode e (shards_read found) (metas_read found) s = (Ret (data, idx), s).
Proof.
  intros Hen Hpad Hne Hr. unfold Decode. rewrite decide_False by (unfold shards_read; rewrite length_fmap; by destruct found).
  destruct (join_padded _ _ _ Hen Hpad) as (joined & Hj & _ & Hle & Ht).
  erewrite bind_Ret.
  2: { destruct (c_Verify c (shards_read found)) eqn:Hv; [rewrite Hr; reflexivity|]. destruct Hr as (r & Hm & Hr).
    erewrite bind_Ret by exact Hm. destruct (c_Verify c r.1); [rewrite Hr; reflexivity|exact Hr]. }
  cbv beta iota zeta. rewrite Hj, Hpad. cbn [or_panic].
  erewrite bind_Ret by reflexivity. rewrite decide_False by lia. by rewrite Nat2Z.id, Ht.
Qed.

Lemma decode_lost data sh found s : encodes data sh → some_lost (length data) found sh →
  ∃ idx, Decode e (shards_read found) (metas_read found) s = (Ret (data, idx), s) ∧ reports (length data) found sh idx.
Proof.
  intros Hen [Hf Hd]. destruct (encodes_facts _ _ Hen) as (Hlen & Hv & Hsz & _). pose proof (law_data _ _ _ laws) as Hd0.
  assert (Ha : agree (shards_read found) sh).
  { apply Forall2_fmap_l. eapply Forall2_impl; [exact Hf|]. intros o x [->| ->]; [by left|by right]. }
  assert (Hp : padding (metas_read found) = Some (Z.of_nat (padded d (length data)))).
  { apply padding_metas.
    - destruct (present found) as [|[m y] l] eqn:E; [cbn in Hd; lia|].
      assert (Hin : (m, y) ∈ present found) by (rewrite E; left).
      unfold present in Hin; apply list_elem_of_omap in Hin as (o & Hin & Ho). cbn in Ho. subst o. apply list_elem_of_lookup in Hin as [i Hi].
      destruct (Forall2_lookup_l _ _ _ _ _ Hf Hi) as (x & _ & [|He]); [done|]. injection He as -> ->. by exists i, x, x.
    - apply Forall_forall. intros o [i Hi]%list_elem_of_lookup.
      destruct (Forall2_lookup_l _ _ _ _ _ Hf Hi) as (x & _ & [->| ->]); [by left|right; by exists x, x]. }
  assert (Hne : found ≠ []) by (intros ->; cbn in Hd; lia).
  assert (Hnum : length (present (shards_read found)) = length (present found)).
  { clear. unfold shards_read. induction found as [|[[m y]|] l IH]; [done| |exact IH]. cbn. f_equal. exact IH. }
  destruct (law_rebuild _ _ _ laws _ _ Hv Hlen Ha ltac:(lia)) as [_ Hrs].
  destruct (c_Verify c (shards_read found)) eqn:Hv1.
  - exists []. split.
    + apply (decode_ends _ sh); [done..|]. rewrite Hv1. f_equal.
      destruct (law_present _ _ _ laws _ Hv1) as [sh' Hsh]. rewrite Hsh in Ha |- *. by rewrite (agree_present _ _ Ha).
    + split; [by intros i ?%elem_of_nil|]. intros i x Hx. right.
      destruct (Forall2_lookup_r _ _ _ _ _ Hf Hx) as (o & Ho & [->| ->]); [|done].
      destruct (law_present _ _ _ laws _ Hv1) as [sh' Hsh].
      assert (Hl : shards_read found !! i = Some None) by (unfold shards_read; by rewrite list_lookup_fmap, Ho).
      rewrite Hsh, list_lookup_fmap in Hl. by destruct (sh' !! i).
  - exists (indices (missing (shards_read found))). split.
    + apply (decode_ends _ sh); [done..|]. rewrite Hv1. eexists. split.
      * unfold reconstructMissingShards. rewrite Hrs. reflexivity.
      * cbn [fst]. by rewrite Hv.
    + assert (Hlf : ∀ i, missing (shards_read found) !! i = (λ o : option (list Z * list Z), bool_decide (o = None)) <$> found !! i).
      { intros i. unfold missing, shards_read. rewrite !list_lookup_fmap. destruct (found !! i) as [[[]|]|]; [|done..].
        cbn. f_equal. }
      split.
      * intros i Hi%lookup_indices. rewrite Hlf in Hi. rewrite <-(Forall2_length _ _ _ Hf). apply lookup_lt_is_Some.
        by destruct (found !! i).
      * intros i x Hx. destruct (Forall2_lookup_r _ _ _ _ _ Hf Hx) as (o & Ho & [->| ->]); [left|by right].
        apply lookup_indices. by rewrite Hlf, Ho.
Qed.

Definition changed (sh ys : list (list Z)) : list bool := zip_with (λ x y, negb (bool_decide (md5 x = md5 y))) sh ys.
Definition same_or_seen (sh ys : list (list Z)) : Prop :=
  Forall2 (λ x y : list Z, length y = length x ∧ (y = x ∨ md5 y ≠ md5 x)) sh ys.

Lemma bad_shards_changed size sh ys s : length ys = length sh →
  bad_shards (Some <$> ys) (Some <$> (shard_meta e size <$> sh)) s = (Ret (changed sh ys), s).
Proof.
  revert ys. induction sh as [|x sh IH]; intros [|y ys] Hl; simplify_eq/=; [done|].
  erewrite bind_Ret by reflexivity. cbv beta. erewrite bind_Ret by (apply IH; lia). unfold shard_meta. cbn. by rewrite drop_0.
Qed.

Lemma without_changed sh ys : same_or_seen sh ys →
  agree (without (Some <$> ys) (changed sh ys)) sh ∧ agree (without (Some <$> ys) (changed sh ys)) ys ∧
  length (present (without (Some <$> ys) (changed sh ys))) + length (differ sh ys) = length sh.
Proof.
  unfold agree, differ. induction 1 as [|x y sh ys [_ Hxy] _ (IH1 & IH2 & IH3)]; [by split_and!|].
  unfold without, changed in *. cbn [fmap list_fmap zip_with zip].
  rewrite filter_cons. cbn [fst snd]. destruct Hxy as [->|Hne].
  - rewrite bool_decide_true by done. rewrite decide_False by auto. cbn [negb]. split_and!; [constructor; auto..|]. exact (f_equal S IH3).
  - rewrite bool_decide_false by congruence. rewrite decide_True by congruence. cbn [negb].
    split_and!; [constructor; auto..|]. exact (eq_trans (Nat.add_succ_r _ _) (f_equal S IH3)).
Qed.

Lemma changed_none sh ys : same_or_seen sh ys → indices (changed sh ys) = [] → ys = sh.
Proof.
  intros H Hnil. apply list_eq_Forall2, Forall2_flip. apply Forall2_same_length_lookup_2; [by eapply Forall2_length|].
  intros i x y Hx Hy. destruct (Forall2_lookup_lr _ _ _ _ _ _ H Hx Hy) as [_ [->|Hne]]; [done|].
  exfalso. assert (Hin : i ∈ indices (changed sh ys)); [|rewrite Hnil in Hin; by apply elem_of_nil in Hin].
  apply lookup_indices. unfold changed. rewrite lookup_zip_with, Hx. cbn. rewrite Hy. cbn. by rewrite bool_decide_false.
Qed.

Lemma missing_none (ys : list (list Z)) : indices (missing (Some <$> ys)) = [].
Proof.
  destruct (indices (missing (Some <$> ys))) as [|i l] eqn:E; [done|].
  assert (Hi : i ∈ indices (missing (Some <$> ys))) by (rewrite E; left).
  apply lookup_indices in Hi. unfold missing in Hi. rewrite !list_lookup_fmap in Hi. by destruct (ys !! i).
Qed.

Lemma decode_rotten data sh found s : encodes data sh → some_rotten (length data) found sh →
  ∃ idx, Decode e (shards_read found) (metas_read found) s = (Ret (data, idx), s) ∧ reports (length data) found sh idx.
Proof.
  intros Hen (ys & -> & Hs & Hp). destruct (encodes_facts _ _ Hen) as (Hlen & Hv & Hsz & _).
  pose proof (law_data _ _ _ laws) as Hd0. pose proof (Forall2_length _ _ _ Hs) as Hly.
  set (found := zip_with _ sh ys) in *.
  assert (Hsr : shards_read found = Some <$> ys ∧ metas_read found = Some <$> (shard_meta e (length data) <$> sh)).
  { unfold found, shards_read, metas_read. clear -Hly. revert ys Hly. induction sh as [|x sh IH]; intros [|y ys] Hl; simplify_eq/=; [done|].
    destruct (IH ys ltac:(lia)) as [-> ->]. done. }
  destruct Hsr as [Hsr Hmr].
  destruct (without_changed _ _ Hs) as (Ha1 & Ha2 & Hn).
  assert (Hnum : d ≤ length (present (without (Some <$> ys) (changed sh ys)))) by lia.
  destruct (law_rebuild _ _ _ laws _ _ Hv Hlen Ha1 Hnum) as [Hrec _].
  assert (Huniq : c_Verify c (Some <$> ys) = true → ys = sh).
  { intros Hvy. destruct (law_rebuild _ _ _ laws _ _ Hvy ltac:(lia) Ha2 Hnum) as [Hrec' _].
    rewrite Hrec in Hrec'. injection Hrec' as He. symmetry. by apply (inj (fmap Some)) in He. }
  assert (Hlk : ∀ i x y, sh !! i = Some x → ys !! i = Some y → found !! i = Some (Some (shard_meta e (length data) x, y))).
  { intros i x y Hx Hy. unfold found. rewrite lookup_zip_with, Hx. cbn. by rewrite Hy. }
  assert (Hpad : padding (metas_read found) = Some (Z.of_nat (padded d (length data)))).
  { rewrite Hmr. destruct sh as [|x sh]; [cbn in Hlen; lia|]. unfold padding. cbn [fmap list_fmap omap list_omap head id mbind option_bind].
    by rewrite shard_meta_head. }
  assert (Hne : found ≠ []).
  { intros E. assert (length found = length sh) by (unfold found; rewrite length_zip_with; lia). rewrite E in *. cbn in *. lia. }
  assert (Hgood : ys = sh → reports (length data) found sh []).
  { intros ->. split; [by intros i ?%elem_of_nil|]. intros i x Hx. right. by apply Hlk. }
  destruct (c_Verify c (Some <$> ys)) eqn:Hvy.
  { rewrite (Huniq eq_refl) in *. exists []. split; [|by apply Hgood].
    apply (decode_ends _ sh); [done..|]. by rewrite Hsr, Hvy. }
  assert (Hns : ys ≠ sh) by (intros ->; congruence).
  exists (indices (changed sh ys)). split.
  - apply (decode_ends _ sh); [done..|]. rewrite Hsr, Hvy. exists (Some <$> ys, []). split.
    + unfold reconstructMissingShards. rewrite (law_nothing_missing _ _ _ laws).
      * by rewrite missing_none.
      * lia.
      * exists (shard_size d (length data)). split.
        { destruct Hen as [Hdata _]. destruct data as [|z data]; [done|]. apply Nat.div_str_pos. cbn. lia. }
        apply Forall_lookup. intros i y Hy.
        destruct (Forall2_lookup_r _ _ _ _ _ Hs Hy) as (x & Hx & -> & _). by eapply (Forall_lookup_1 _ _ _ _ Hsz).
    + cbn [fst]. rewrite Hvy. unfold detectBadShardsThenReconstruct. rewrite Hmr.
      erewrite bind_Ret by (apply bad_shards_changed; lia). rewrite decide_False by (intros ?; by apply Hns, changed_none).
      by rewrite Hrec, Hv.
  - split.
    + intros i Hi%lookup_indices. unfold changed in Hi. apply lookup_zip_with_Some in Hi as (x & y & _ & Hx & _).
      by apply lookup_lt_Some in Hx.
    + intros i x Hx. destruct (Forall2_lookup_l _ _ _ _ _ Hs Hx) as (y & Hy & _ & [->|Hc]); [right; by apply Hlk|left].
      apply lookup_indices. unfold changed. rewrite lookup_zip_with, Hx. cbn. rewrite Hy. cbn. by rewrite bool_decide_false.
Qed.
End decode.

(** ** The files of a blob *)

Hypothesis md5_length : ∀ x, length (md5 x) = 16.

(** The directory and the file of each shard, from shard [i] on. *)
Fixpoint targets (table : string) (key : UUID) (i : nat) (drives : list string) : list (string * string) :=
  match drives with
  | [] => []
  | drive :: drives => (shard_dir table key drive, shard_file table key drive i) :: targets table key (S i) drives
  end.

Lemma lookup_targets table key drives : ∀ i j, targets table key i drives !! j =
  (λ drive, (shard_dir table key drive, shard_file table key drive (i + j))) <$> drives !! j.
Proof.
  induction drives as [|drive drives IH]; intros i [|j]; [done..| |].
  - cbn. by rewrite Nat.add_0_r.
  - cbn. rewrite IH. by rewrite Nat.add_succ_r.
Qed.

Definition lost (s : filesystem) (fn : string) : Prop := fs_files s !! fn = None ∨ fs_readfails s fn = true.
#[global] Instance lost_dec s fn : Decision (lost s fn) := _.

(** What reading the file gives. *)
Definition shows (s : filesystem) (fn : string) (o : option (list Z * list Z)) : Prop :=
  match o with
  | None => lost s fn
  | Some (m, x) => fs_files s !! fn = Some (m ++ x) ∧ fs_readfails s fn = false ∧ length m = MetaDataSize
  end.

Lemma read_shard_shows s fn o : shows s fn o → ∃ errs,
  handle (read_shard fn) (λ x, mret (Some x, [])) (λ err, mret (None, [err])) s = (Ret (o, errs), s).
Proof.
  unfold shows, lost, handle, read_shard, on_files, on, mbind, M_bind, ReadFile. cbn [id]. destruct o as [[m x]|].
  - intros (Hf & Hr & Hm). rewrite Hf, Hr. unfold MetaDataSize in *. rewrite decide_False by (rewrite length_app; lia).
    rewrite <-Hm, take_app_length, drop_app_length. by exists [].
  - intros [Hn|Hr].
    + rewrite Hn. by eexists.
    + destruct (fs_files s !! fn) as [ba|]; [rewrite Hr|]; by eexists.
Qed.

Lemma read_shards_shows table key drives s : ∀ i found, Forall2 (shows s) (targets table key i drives).*2 found →
  ∃ errs, read_shards table key i drives s = (Ret (found, errs), s).
Proof.
  induction drives as [|drive drives IH]; intros i found H; cbn [targets fmap list_fmap snd] in H; inv H; [by exists []|].
  destruct (read_shard_shows _ _ _ H2) as [errs1 Hr]. destruct (IH _ _ H4) as [errs2 Hrs].
  exists (errs1 ++ errs2). cbn [read_shards]. erewrite bind_Ret by exact Hr. by erewrite bind_Ret by exact Hrs.
Qed.

(** The calls leave the ways the drives fail alone, and only ever make directories. *)
Definition same_drives (s s' : filesystem) : Prop :=
  fs_dirs s ⊆ fs_dirs s' ∧ fs_readfails s' = fs_readfails s ∧ fs_mkdirfails s' = fs_mkdirfails s ∧ fs_writefails s' = fs_writefails s.
#[global] Instance same_drives_preorder : PreOrder same_drives.
Proof.
  split; [by intros s; split_and!|]. intros s1 s2 s3 (? & ? & ? & ?) (? & ? & ? & ?). split_and!; [set_solver|congruence..].
Qed.

(** A drive that does not take a shard. *)
Definition refuses (s : filesystem) (t : string * string) : Prop :=
  (t.1 ∉ fs_dirs s ∧ fs_mkdirfails s t.1 = true) ∨ fs_writefails s t.2 ≠ None.
#[global] Instance refuses_dec s t : Decision (refuses s t) := _.

Lemma refuses_mono s s' t : same_drives s s' → refuses s' t → refuses s t.
Proof. unfold refuses. intros (Hd & _ & -> & ->) [[Hn ?]|?]; [left|by right]. split; [set_solver|done]. Qed.

(** The bytes of the file of shard [x]. *)
Definition shard_bytes (e : Erasure) (size : nat) (x : list Z) : list Z := shard_meta e size x ++ x.

Lemma write_shard_bytes e size sh i fn x s : DataShardsCount e ≠ 0 → sh !! i = Some x →
  write_shard e size sh i fn s = on_files (WriteFile fn (shard_bytes e size x)) s.
Proof.
  intros Hd Hx. unfold write_shard, ComputeShardMetadata. rewrite Hx. cbn [or_panic].
  erewrite bind_Ret; [by erewrite bind_Ret|]. erewrite bind_Ret by reflexivity. by rewrite decide_False.
Qed.

Lemma add_shard_writes table key e size sh i drive x s : DataShardsCount e ≠ 0 → sh !! i = Some x →
  let t := (shard_dir table key drive, shard_file table key drive i) in
  ∃ errs s', add_shard table key e size sh i drive s = (Ret errs, s') ∧ same_drives s s' ∧
    length errs = (if decide (refuses s t) then 1 else 0) ∧
    (∀ fn, fn ≠ t.2 → fs_files s' !! fn = fs_files s !! fn) ∧
    (¬ refuses s t → fs_files s' !! t.2 = Some (shard_bytes e size x)).
Proof.
  intros Hd Hx t. unfold add_shard. erewrite bind_Ret by reflexivity. fold t.1. fold t.2.
  assert (Hw : ∀ s1, same_drives s s1 → fs_files s1 = fs_files s → (t.1 ∈ fs_dirs s ∨ fs_mkdirfails s t.1 = false) → ∃ errs s',
    handle (write_shard e size sh i t.2) (λ _, mret []) (λ err, mret [err]) s1 = (Ret errs, s') ∧ same_drives s s' ∧
    length errs = (if decide (refuses s t) then 1 else 0) ∧ (∀ fn, fn ≠ t.2 → fs_files s' !! fn = fs_files s !! fn) ∧
    (¬ refuses s t → fs_files s' !! t.2 = Some (shard_bytes e size x))).
  { intros s1 Hs1 Hf1 Hdir. unfold handle. rewrite (write_shard_bytes _ _ _ _ _ x) by done.
    unfold on_files, on, WriteFile. cbn [id]. assert (Hwf : fs_writefails s1 = fs_writefails s) by apply Hs1.
    rewrite Hwf, Hf1. destruct (fs_writefails s t.2) as [k|] eqn:Hk; eexists _, _; (split; [reflexivity|]).
    - (split; [exact Hs1|]); split_and!.
      + rewrite decide_True; [done|]. right. congruence.
      + intros fn Hfn. cbn [fs_files set_fs_files]. by rewrite lookup_insert_ne.
      + intros Hn. exfalso. apply Hn. right. congruence.
    - (split; [exact Hs1|]); split_and!.
      + rewrite decide_False; [done|]. intros [[? ?]|?]; [|done]. destruct Hdir; congruence.
      + intros fn Hfn. cbn [fs_files set_fs_files]. by rewrite lookup_insert_ne.
      + intros _. cbn [fs_files set_fs_files]. by rewrite lookup_insert_eq. }
  case_bool_decide as Hin; [erewrite handle_Ret by reflexivity; by apply Hw; [reflexivity| |left]|].
  assert (Hmk : on_files (MkdirAll t.1) s = if fs_mkdirfails s t.1 then (Fail (ErrShardFile (ErrMkdir t.1)), s)
    else (Ret (), set_fs_dirs ({[t.1]} ∪ fs_dirs s) s)).
  { unfold on_files, on, MkdirAll. cbn [id]. by destruct (fs_mkdirfails s t.1). }
  destruct (fs_mkdirfails s t.1) eqn:Hf.
  - erewrite handle_Fail by exact Hmk. eexists _, _. split; [reflexivity|]. split; [reflexivity|]. rewrite decide_True by (left; done).
    split_and!; [done..|]. intros Hn. exfalso. apply Hn. by left.
  - erewrite handle_Ret by exact Hmk. apply Hw; [|done|by right]. split_and!; [|done..]. cbn. set_solver.
Qed.

Lemma length_filter_weaken {A} (P Q : A → Prop) `{!∀ x, Decision (P x), !∀ x, Decision (Q x)} l :
  (∀ x, P x → Q x) → length (filter P l) ≤ length (filter Q l).
Proof. intros HPQ. induction l as [|x l IH]; [done|]. rewrite !filter_cons. repeat case_decide; cbn [length]; [lia|naive_solver|lia..]. Qed.

Lemma add_shards_writes table key e size sh : DataShardsCount e ≠ 0 → ∀ rest drives i s,
  rest = drop i sh → length rest = length drives → NoDup (targets table key i drives).*2 →
  ∃ errs s', add_shards table key e size sh i rest drives s = (Ret errs, s') ∧ same_drives s s' ∧
    length errs ≤ length (filter (refuses s) (targets table key i drives)) ∧
    (∀ fn, fn ∉ (targets table key i drives).*2 → fs_files s' !! fn = fs_files s !! fn) ∧
    (∀ j t x, targets table key i drives !! j = Some t → rest !! j = Some x → ¬ refuses s t →
      fs_files s' !! t.2 = Some (shard_bytes e size x)).
Proof.
  intros Hd. induction rest as [|x rest IH]; intros [|drive drives] i s Hrest Hlen Hnd; simplify_eq/=.
  { exists [], s. split_and!; [done|reflexivity|done..]. }
  assert (Hx : sh !! i = Some x) by (rewrite <-(Nat.add_0_r i), <-lookup_drop, <-Hrest; done).
  assert (Hdrop : rest = drop (S i) sh) by (by rewrite <-Nat.add_1_r, <-drop_drop, <-Hrest).
  apply NoDup_cons in Hnd as [Hnin Hnd]. erewrite bind_Ret by reflexivity.
  destruct (add_shard_writes table key e size sh i drive x s Hd Hx) as (errs1 & s1 & Hr1 & Hs1 & Hl1 & Ho1 & Hw1).
  set (t := (shard_dir table key drive, shard_file table key drive i)) in *.
  destruct (IH drives (S i) s1 Hdrop ltac:(lia) Hnd) as (errs2 & s2 & Hr2 & Hs2 & Hl2 & Ho2 & Hw2).
  exists (errs1 ++ errs2), s2. erewrite bind_Ret by exact Hr1. erewrite bind_Ret by exact Hr2.
  split_and!; [done|by transitivity s1| | |].
  - rewrite length_app, Hl1, filter_cons.
    assert (length (filter (refuses s1) (targets table key (S i) drives)) ≤ length (filter (refuses s) (targets table key (S i) drives))).
    { apply length_filter_weaken. intros t' ?. by eapply refuses_mono. }
    case_decide; cbn [length]; lia.
  - intros fn [Hne Hn]%not_elem_of_cons. rewrite Ho2 by done. by apply Ho1.
  - intros [|j] t' x' Ht' Hx' Hok; cbn in Ht', Hx'.
    + simplify_eq. rewrite Ho2 by done. by apply Hw1.
    + apply (Hw2 j); [done..|]. intros Hr. apply Hok. by eapply refuses_mono.
Qed.

(** The shards of a reported index are written again. *)
Lemma repair_writes table key e size sh drives : DataShardsCount e ≠ 0 → length sh = length drives →
  NoDup (targets table key 0 drives).*2 → ∀ idx s, (∀ i, i ∈ idx → i < length sh) →
  ∃ s', repair table key e drives size sh idx s = (Ret (), s') ∧ same_drives s s' ∧
    (∀ fn, fn ∉ (targets table key 0 drives).*2 → fs_files s' !! fn = fs_files s !! fn) ∧
    (∀ j t x, targets table key 0 drives !! j = Some t → sh !! j = Some x → fs_writefails s t.2 = None →
      j ∈ idx ∨ fs_files s !! t.2 = Some (shard_bytes e size x) → fs_files s' !! t.2 = Some (shard_bytes e size x)).
Proof.
  intros Hd Hlen Hnd. induction idx as [|i idx IH]; intros s Hidx; cbn [repair].
  { exists s. split_and!; [done|reflexivity|done|]. by intros j t x _ _ _ [?%elem_of_nil|]. }
  assert (Hi : i < length sh) by (apply Hidx; left).
  destruct (lookup_lt_is_Some_2 sh i Hi) as [xi Hxi]. destruct (lookup_lt_is_Some_2 drives i ltac:(lia)) as [drive Hdrive].
  rewrite Hdrive. erewrite bind_Ret by reflexivity.
  assert (Hti : targets table key 0 drives !! i = Some (shard_dir table key drive, shard_file table key drive i)).
  { by rewrite lookup_targets, Hdrive. }
  assert (Hw : ∃ s1, handle (write_shard e size sh i (shard_file table key drive i)) mret (λ _, mret ()) s = (Ret (), s1) ∧ same_drives s s1 ∧
    (∀ fn, fn ≠ shard_file table key drive i → fs_files s1 !! fn = fs_files s !! fn) ∧
    (fs_writefails s (shard_file table key drive i) = None → fs_files s1 !! shard_file table key drive i = Some (shard_bytes e size xi))).
  { unfold handle. rewrite (write_shard_bytes _ _ _ _ _ xi) by done. unfold on_files, on, WriteFile. cbn [id].
    destruct (fs_writefails s _) as [k|]; eexists; (split; [reflexivity|]); (split; [by split_and!|]); cbn [fs_files set_fs_files];
      (split; [by intros fn Hfn; rewrite lookup_insert_ne|]); intros Hn; [done|by rewrite lookup_insert_eq]. }
  destruct Hw as (s1 & Hr1 & Hs1 & Ho1 & Hw1). erewrite bind_Ret by exact Hr1.
  destruct (IH s1) as (s2 & Hr2 & Hs2 & Ho2 & Hw2); [intros j Hj; apply Hidx; by right|].
  exists s2. split_and!; [done|by transitivity s1| |].
  - intros fn Hfn. rewrite Ho2 by done. apply Ho1. intros ->. apply Hfn, list_elem_of_fmap. eexists. split; [|by eapply list_elem_of_lookup_2].
    done.
  - intros j t x Ht Hx Hwf Hor. assert (Hwf1 : fs_writefails s1 t.2 = None) by (destruct Hs1 as (_ & _ & _ & ->); done).
    apply (Hw2 j); [done..|]. destruct (decide (j = i)) as [->|Hji].
    + right. rewrite Hti in Ht. injection Ht as <-. cbn [snd] in *. simplify_eq. by apply Hw1.
    + assert (Hne : t.2 ≠ shard_file table key drive i).
      { intros He. apply Hji. apply (NoDup_lookup _ _ _ (t.2) Hnd); rewrite list_lookup_fmap, ?Ht, ?Hti; [done|]. by rewrite He. }
      destruct Hor as [[->|Hin]%elem_of_cons|Hf]; [done|by left|right]. by rewrite Ho1.
Qed.

(** The files of the blob are the shards of [data]. *)
Definition in_place (e : Erasure) (table : string) (key : UUID) (drives : list string) (data : list Z) (sh : list (list Z)) (s : filesystem) : Prop :=
  ∀ j t x, targets table key 0 drives !! j = Some t → sh !! j = Some x → fs_files s !! t.2 = Some (shard_bytes e (length data) x).

Lemma found_some e size found sh : coder_laws (DataShardsCount e) (ParityShardsCount e) (encoder e) →
  length sh = DataShardsCount e + ParityShardsCount e → some_lost e size found sh ∨ some_rotten e size found sh →
  isShardsEmpty (shards_read found) = false.
Proof.
  intros laws Hl Hcase. pose proof (law_data _ _ _ laws) as Hd. apply bool_decide_eq_false. intros Hall.
  unfold shards_read in Hall. rewrite Forall_fmap in Hall. destruct Hcase as [[_ Hp]|(ys & -> & Hs & _)].
  - assert (present found = []) as Hnil; [|rewrite Hnil in Hp; cbn in Hp; lia].
    clear Hp. induction Hall as [|[]]; [done..|]. by cbn.
  - destruct Hs as [|x y sh ys]; [cbn in Hl; lia|]. cbn in Hall. apply Forall_cons in Hall as [? _]. done.
Qed.

(** What the files show is enough for the data, and they can be repaired. *)
Lemma GetOne_found b table key e drives data sh found s :
  getBaseFolderPathsAndErasureConfig b table = Some (e, drives) →
  coder_laws (DataShardsCount e) (ParityShardsCount e) (encoder e) → length drives = length sh →
  NoDup (targets table key 0 drives).*2 → encodes e data sh →
  Forall2 (shows s) (targets table key 0 drives).*2 found →
  some_lost e (length data) found sh ∨ some_rotten e (length data) found sh →
  ∃ s', GetOne b table key s = (Ret data, s') ∧ same_drives s s' ∧
    (∀ fn, fn ∉ (targets table key 0 drives).*2 → fs_files s' !! fn = fs_files s !! fn) ∧
    (ec_repairCorruptedShards b = true → (∀ t, t ∈ targets table key 0 drives → fs_writefails s t.2 = None) →
      in_place e table key drives data sh s').
Proof.
  intros Hcfg laws Hlen Hnd Hen Hshow Hcase.
  assert (Hdec : ∃ idx, Decode e (shards_read found) (metas_read found) s = (Ret (data, idx), s) ∧ reports e (length data) found sh idx).
  { destruct Hcase; [by apply decode_lost|by apply decode_rotten]. }
  destruct Hdec as (idx & Hdec & Hin & Hrep). destruct (read_shards_shows _ _ _ _ _ _ Hshow) as [errs Hrd].
  unfold GetOne. rewrite Hcfg. erewrite bind_Ret by exact Hrd. cbv beta iota zeta.
  rewrite (found_some e (length data) _ sh) by (first [done|by apply (encodes_facts e laws data)]).
  erewrite bind_Ret by exact Hdec. cbv beta iota zeta.
  assert (Hplace : ∀ j t x, targets table key 0 drives !! j = Some t → sh !! j = Some x →
    j ∈ idx ∨ fs_files s !! t.2 = Some (shard_bytes e (length data) x)).
  { intros j t x Ht Hx. destruct (Hrep j x Hx) as [|Hf]; [by left|right].
    assert (Ht2 : (targets table key 0 drives).*2 !! j = Some t.2) by (by rewrite list_lookup_fmap, Ht).
    destruct (Forall2_lookup_lr _ _ _ _ _ _ Hshow Ht2 Hf) as (Hs & _ & _). exact Hs. }
  pose proof (law_data _ _ _ laws) as Hd.
  destruct (ec_repairCorruptedShards b) eqn:Hflag; cbn [andb].
  - case_bool_decide as Hidx; cbn [negb].
    + subst idx. exists s. split_and!; [done|reflexivity|done|]. intros _ _ j t x Ht Hx.
      by destruct (Hplace j t x Ht Hx) as [?%elem_of_nil|].
    + rewrite (proj2 Hen).
      destruct (repair_writes table key e (length data) sh drives ltac:(lia) ltac:(lia) Hnd idx s Hin) as (s' & Hr & Hs' & Ho & Hw).
      exists s'. erewrite bind_Ret by exact Hr. split_and!; [done..|]. intros _ Hwf j t x Ht Hx.
      apply (Hw j); [done..| |by apply Hplace]. apply Hwf. by eapply list_elem_of_lookup_2.
  - exists s. split_and!; [done|reflexivity|done..].
Qed.

(** ** What the store promises *)

Section store.
Context (b : BlobStoreWithEC) (table : string) (key : UUID) (e : Erasure) (drives : list string).
Hypothesis configured : getBaseFolderPathsAndErasureConfig b table = Some (e, drives).
Hypothesis laws : coder_laws (DataShardsCount e) (ParityShardsCount e) (encoder e).
Hypothesis one_drive_each : length drives = DataShardsCount e + ParityShardsCount e.
Hypothesis files_differ : NoDup (targets table key 0 drives).*2.

(** The blob is read, and its files are whole again if the store repairs. *)
Definition reads_and_repairs (data : list Z) (s : filesystem) : Prop :=
  ∃ s' sh, GetOne b table key s = (Ret data, s') ∧ Encode e data = Some sh ∧
    (∀ fn, fn ∉ (targets table key 0 drives).*2 → fs_files s' !! fn = fs_files s !! fn) ∧
    (ec_repairCorruptedShards b = true → (∀ t, t ∈ targets table key 0 drives → fs_writefails s t.2 = None) →
      in_place e table key drives data sh s').

Lemma length_targets i l : length (targets table key i l) = length l.
Proof. revert i. induction l as [|x l IH]; intros i; cbn; [done|]. by rewrite IH. Qed.

Lemma length_shard_meta size x : length (shard_meta e size x) = MetaDataSize.
Proof. unfold shard_meta, MetaDataSize. cbn [length]. by rewrite md5_length. Qed.

Lemma present_filter (f : string * string → list Z → option (list Z * list Z)) (P : string * string → Prop) `{!∀ t, Decision (P t)} ts sh :
  length ts = length sh → (∀ t x, f t x = None → P t) →
  length sh ≤ length (present (zip_with f ts sh)) + length (filter P ts).
Proof.
  intros Hl Hf. revert sh Hl. induction ts as [|t ts IH]; intros [|x sh] Hl; [cbn; lia|done..|].
  cbn [length] in Hl. specialize (IH sh ltac:(lia)). rewrite filter_cons.
  change (present (zip_with f (t :: ts) (x :: sh))) with (match f t x with Some y => y :: present (zip_with f ts sh) | None => present (zip_with f ts sh) end).
  destruct (f t x) eqn:E; [|rewrite decide_True by (by eapply Hf)]; try case_decide; cbn [length]; lia.
Qed.

(** C17: A blob that Add took, although up to as many drives as there are parity shards refused theirs, is read back
    as it was written whenever at most that many shard files are gone or unreadable, those of the drives that refused
    among them, and each of the others has the bytes that were written to it; a store that repairs then has every shard
    in its place again. *)
Theorem survives_lost_drives data s : data ≠ [] →
  length (filter (refuses s) (targets table key 0 drives)) ≤ ParityShardsCount e →
  ∃ s1, Add b [mkBlobsPayload table [(key, data)]] s = (Ret (), s1) ∧
    (∀ fn, fn ∉ (targets table key 0 drives).*2 → fs_files s1 !! fn = fs_files s !! fn) ∧
    ∀ s2, length (filter (λ t, lost s2 t.2) (targets table key 0 drives)) ≤ ParityShardsCount e →
      (∀ t, t ∈ targets table key 0 drives → lost s2 t.2 ∨ (¬ refuses s t ∧ fs_files s2 !! t.2 = fs_files s1 !! t.2)) →
      reads_and_repairs data s2.
Proof.
  intros Hne Hok. destruct (encodes_some e laws data Hne) as [sh Hen].
  destruct (encodes_facts e laws data sh Hen) as (Hlen & _). pose proof (law_data _ _ _ laws) as Hd.
  destruct (add_shards_writes table key e (length data) sh ltac:(lia) sh drives 0 s) as (errs & s1 & Hr & Hs1 & Hle & Ho & Hw); [done|lia|done|].
  exists s1. split_and!; [|done|].
  { cbn [Add]. erewrite handle_Ret; [reflexivity|]. unfold add_table. cbn [bp_BlobTable bp_Blobs]. rewrite configured.
    cbn [add_blobs]. rewrite (proj2 Hen). erewrite bind_Ret by exact Hr. rewrite decide_False by lia. reflexivity. }
  intros s2 Hlost Hkept.
  set (ts := targets table key 0 drives) in *. assert (Hlt : length ts = length drives) by apply length_targets.
  set (found := zip_with (λ t x, if decide (lost s2 t.2) then None else Some (whole e (length data) x)) ts sh).
  destruct (GetOne_found b table key e drives data sh found s2) as (s3 & Hg & _ & Ho3 & Hrep); [done|done|lia|done|done| | |exists s3, sh; split_and!; [done|apply Hen|done..]].
  - apply Forall2_same_length_lookup_2; [unfold found; rewrite length_fmap, length_zip_with; fold ts; lia|].
    intros i fn o Hfn Hfo. apply list_lookup_fmap_Some in Hfn as (t & -> & Ht). fold ts in Ht.
    unfold found in Hfo. apply lookup_zip_with_Some in Hfo as (t' & x & -> & Ht' & Hx).
    assert (t' = t) as -> by congruence. case_decide as Hl; [exact Hl|]. destruct (Hkept t) as [|[Hnr Hf]]; [by eapply list_elem_of_lookup_2|done|].
    unfold shows, whole. rewrite Hf. split_and!.
    + by apply (Hw i t x).
    + apply not_true_iff_false. intros ?. apply Hl. by right.
    + apply length_shard_meta.
  - left. split.
    + apply Forall2_same_length_lookup_2; [unfold found; rewrite length_zip_with; lia|].
      intros i o x Hfo Hx. unfold found in Hfo. apply lookup_zip_with_Some in Hfo as (t' & x' & -> & Ht' & Hx').
      assert (x' = x) as -> by congruence.
      case_decide; [by left|by right].
    + pose proof (present_filter (λ t x, if decide (lost s2 t.2) then None else Some (whole e (length data) x)) (λ t, lost s2 t.2) ts sh ltac:(lia)) as Hp.
      cbv beta in Hp. fold found in Hp. assert (length sh ≤ length (present found) + length (filter (λ t, lost s2 t.2) ts)); [|lia].
      apply Hp. intros t x. by case_decide.
Qed.

(** C18: When no shard file is missing and the bytes of at most as many shards as there are parity shards changed, to as
    many bytes with another sum, the blob is read as it was; a store that repairs then has every shard in its place
    again. *)
Theorem heals_bit_rot data sh ys s : encodes e data sh → same_or_seen sh ys → length (differ sh ys) ≤ ParityShardsCount e →
  (∀ j t x y, targets table key 0 drives !! j = Some t → sh !! j = Some x → ys !! j = Some y →
    fs_files s !! t.2 = Some (shard_meta e (length data) x ++ y) ∧ fs_readfails s t.2 = false) →
  reads_and_repairs data s.
Proof.
  intros Hen Hss Hdiff Hfiles. destruct (encodes_facts e laws data sh Hen) as (Hlen & _).
  pose proof (Forall2_length _ _ _ Hss) as Hly.
  set (found := zip_with (λ x y, Some (shard_meta e (length data) x, y)) sh ys).
  destruct (GetOne_found b table key e drives data sh found s) as (s3 & Hg & _ & Ho3 & Hrep); [done|done|lia|done|done| | |].
  - apply Forall2_same_length_lookup_2; [unfold found; rewrite length_fmap, length_zip_with, length_targets; lia|].
    intros i fn o Hfn Hfo. apply list_lookup_fmap_Some in Hfn as (t & -> & Ht).
    unfold found in Hfo. apply lookup_zip_with_Some in Hfo as (x & y & -> & Hx & Hy).
    destruct (Hfiles i t x y Ht Hx Hy) as [Hf Hr]. split_and!; [done..|apply length_shard_meta].
  - right. by exists ys.
  - exists s3, sh. split_and!; [done|apply Hen|done..].
Qed.
End store.
End ec.
