(* ===== verification/EcFindings.v ===== *)
(** * What the erasure-coded blob store does at its edges

    A mirror is the code with one data shard: each of three drives has the data.
    The theorems of EcStore apply to it, and runs on it show damage that the store
    does not get over. *)

From stdpp Require Import gmap.
From S2P Require Import Prelude Wp Handle HashmapSpec Stores BlobStore EcStore.

(** ** A mirror on three drives *)

Definition equal_sizes (l : list (list Z)) : bool := match l with [] => true | x :: l => forallb (λ y : list Z, length y =? length x) l end.
Definition mirror_rebuild (l : list (option (list Z))) : option (list (option (list Z))) :=
  if bool_decide (length l = 3) && equal_sizes (present l) then x ← head (present l); Some (Some ∘ default x <$> l) else None.

Definition mirror : coder := {|
  c_Split data := if decide (data = []) then None else Some [data; data; data];
  c_Encode l := x ← head l; Some [x; x; x];
  c_Verify l := match l with [Some x; Some y; Some z] => bool_decide (x ≠ [] ∧ x = y ∧ x = z) | _ => false end;
  c_Reconstruct := mirror_rebuild;
  c_ReconstructSome l required :=
    if forallb negb required then (if bool_decide (length l = 3) && equal_sizes (present l) then Some l else None) else mirror_rebuild l;
  c_Join l n := Some (take n (concat (present (take 1 l))));
|}.
Definition toy_md5 (x : list Z) : list Z := le_bytes 16 (le_val x).
Definition toy_New (d p : nat) : option coder := if bool_decide (d = 1 ∧ p = 2) then Some mirror else None.
Definition one_directory (base : string) (id : UUID) : string := base.
Definition digit (i : nat) : string := match i with 0 => "0" | 1 => "1" | _ => "2" end.
Definition the_id (id : UUID) : string := "id".
Definition slash (a b : string) : string := String.append a (String.append "/" b).

Lemma mirror_verified sh : c_Verify mirror (Some <$> sh) = true → ∃ x, sh = [x; x; x].
Proof.
  cbn. destruct sh as [|x [|y [|z [|]]]]; try done. cbn. intros (_ & <- & <-)%bool_decide_eq_true. by exists x.
Qed.

Lemma mirror_laws : coder_laws 1 2 mirror.
Proof.
  split; [lia|lia| | | |].
  - intros data Hne. exists [data; data; data], [data; data; data].
    assert (Hs : shard_size 1 (length data) = length data) by (unfold shard_size; rewrite Nat.div_1_r; lia).
    rewrite Hs. split_and!; [cbn; by rewrite decide_False|done|done| |by repeat constructor|].
    + by apply bool_decide_eq_true.
    + rewrite Nat.mul_1_r, Nat.sub_diag, app_nil_r. cbn. rewrite app_nil_r. f_equal. by apply take_ge.
  - intros [|[x|] [|[y|] [|[z|] [|]]]] H; try discriminate H. by exists [x; y; z].
  - intros l sh [x ->]%mirror_verified _ Ha Hp. unfold agree in Ha.
    pose proof (Forall2_length _ _ _ Ha) as Hl.
    destruct l as [|a [|b [|c [|]]]]; try discriminate Hl. clear Hl.
    repeat (apply Forall2_cons in Ha as [[->| ->] Ha]); try (by cbn in Hp; lia); cbn; unfold mirror_rebuild; cbn; rewrite ?Nat.eqb_refl; by split.
  - intros sh Hl (n & _ & Hn). destruct sh as [|x [|y [|z [|]]]]; try done.
    apply Forall_cons in Hn as [Hx Hn]. apply Forall_cons in Hn as [Hy Hn]. apply Forall_cons in Hn as [Hz _].
    cbn. by rewrite Hx, Hy, Hz, Nat.eqb_refl.
Qed.

(** ** The store over it *)

Definition ex_erasure : Erasure := mkErasure 1 2 mirror.
Definition ex_drives : list string := ["a"; "b"; "c"]%string.
Definition ex_store : BlobStoreWithEC := mkEcStore {[EmptyString := (ex_erasure, ex_drives)]} true.
Definition ex_disk (writefails : string → option nat) : filesystem :=
  mkFilesystem ∅ ∅ (λ _, false) (λ _, false) writefails (λ _, false).
Definition ex_file (drive : string) (i : nat) : string := shard_file one_directory the_id digit "t" 1%N drive i.
Definition ex_data : list Z := [7; 8; 9]%Z.
Definition ex_shard : list Z := shard_bytes toy_md5 ex_erasure 3 ex_data.

Local Abbreviation ex_Add := (Add toy_md5 one_directory the_id digit ex_store).
Local Abbreviation ex_GetOne := (GetOne toy_md5 one_directory the_id digit ex_store "t" 1%N).

Lemma toy_md5_length x : length (toy_md5 x) = 16.
Proof. apply length_le_bytes. Qed.

(** The third drive takes no shard of [ex_data]. *)
Definition ex_refusing (fn : string) : option nat := if decide (fn = ex_file "c" 2) then Some 5 else None.

Lemma survives_lost_drives_witness : ∃ s1,
  ex_Add [mkBlobsPayload "t" [(1%N, ex_data)]] (ex_disk ex_refusing) = (Ret (), s1) ∧
  ∃ s3, ex_GetOne (set_fs_files (base.delete (ex_file "a" 0) (base.delete (ex_file "c" 2) (fs_files s1))) s1) = (Ret ex_data, s3).
Proof.
  destruct (survives_lost_drives toy_md5 one_directory the_id digit toy_md5_length ex_store "t" 1%N ex_erasure ex_drives
    eq_refl mirror_laws eq_refl ltac:(by_decision) ex_data (ex_disk ex_refusing) ltac:(done) ltac:(vm_compute; lia)) as (s1 & Hadd & _ & Hget).
  exists s1. split; [exact Hadd|].
  assert (s1 = (ex_Add [mkBlobsPayload "t" [(1%N, ex_data)]] (ex_disk ex_refusing)).2) as Hs1 by (by rewrite Hadd).
  destruct (Hget (set_fs_files (base.delete (ex_file "a" 0) (base.delete (ex_file "c" 2) (fs_files s1))) s1)) as (s3 & sh & Hs3 & _).
  - rewrite Hs1. vm_compute. lia.
  - rewrite Hs1. apply Forall_forall. by_decision.
  - exists s3. exact Hs3.
Defined.

(** Two of three shards are not what was written. *)
Definition ex_rotten : filesystem :=
  set_fs_files {[ex_file "a" 0 := shard_meta toy_md5 ex_erasure 3 ex_data ++ [0; 8; 9]%Z; ex_file "b" 1 := ex_shard;
                 ex_file "c" 2 := shard_meta toy_md5 ex_erasure 3 ex_data ++ [7; 8; 0]%Z]} (ex_disk (λ _, None)).

Lemma heals_bit_rot_witness : ∃ s', ex_GetOne ex_rotten = (Ret ex_data, s').
Proof.
  destruct (heals_bit_rot toy_md5 one_directory the_id digit toy_md5_length ex_store "t" 1%N ex_erasure ex_drives
    eq_refl mirror_laws eq_refl ltac:(by_decision) ex_data [ex_data; ex_data; ex_data] [[0; 8; 9]; ex_data; [7; 8; 0]]%Z ex_rotten) as (s' & sh & Hs' & _).
  - split; [done|reflexivity].
  - unfold same_or_seen. repeat (apply Forall2_cons_2; [split; [done|first [by left|right; by vm_compute]]|]). constructor.
  - vm_compute. lia.
  - intros [|[|[|j]]] t x y Ht Hx Hy; [| | |by rewrite lookup_ge_None_2 in Hx by (cbn; lia)];
      injection Ht as <-; injection Hx as <-; injection Hy as <-; split; vm_compute; reflexivity.
  - exists s'. exact Hs'.
Defined.

(** ** Findings *)

(** A write that tears the file of a shard counts as a drive that failed, which the
    parity makes up for; but the short file is there to be read, and to cut 17 bytes
    from it panics. *)
Example torn_shard_panics :
  (ex_Add [mkBlobsPayload "t" [(1%N, ex_data)]] (ex_disk ex_refusing)).1 = Ret () ∧
  (ex_GetOne (ex_Add [mkBlobsPayload "t" [(1%N, ex_data)]] (ex_disk ex_refusing)).2).1 = Panic.
Proof. by vm_compute. Qed.

(** So does one shard that is gone while another one changed, with two parity shards:
    the missing shard has no metadata to compare its sum with. *)
Example missing_and_rotten_panics :
  (ex_GetOne (set_fs_files {[ex_file "b" 1 := ex_shard; ex_file "c" 2 := shard_meta toy_md5 ex_erasure 3 ex_data ++ [7; 8; 0]%Z]}
    (ex_disk (λ _, None)))).1 = Panic.
Proof. by vm_compute. Qed.

(** A file that lost its end is there, so that it is not a missing shard, and has
    another size, so that nothing is rebuilt: two good shards out of three are not
    enough for a mirror. *)
Example truncated_shard_fails :
  (ex_GetOne (set_fs_files {[ex_file "a" 0 := ex_shard; ex_file "b" 1 := ex_shard; ex_file "c" 2 := take 19 ex_shard]}
    (ex_disk (λ _, None)))).1 = Fail ErrReconstruct.
Proof. by vm_compute. Qed.

(** The byte with the number of zeroes is under no sum: one bit of it changed, and
    the blob is cut short without an error. *)
Example padding_byte_unchecked :
  (ex_GetOne (set_fs_files {[ex_file "a" 0 := 1%Z :: tail ex_shard; ex_file "b" 1 := ex_shard; ex_file "c" 2 := ex_shard]}
    (ex_disk (λ _, None)))).1 = Ret [7; 8]%Z.
Proof. by vm_compute. Qed.

(** Whether any table is repaired is up to the entry that the range over the
    configuration comes to last. *)
Example repair_flag_of_the_last_entry :
  let c r := mkConfig 1 2 ex_drives r in
  ec_repairCorruptedShards <$> (match NewBlobStoreWithEC toy_New None (Some [("t"%string, c true); ("u"%string, c false)]) with Ok b => Some b | Err _ => None end) = Some false ∧
  ec_repairCorruptedShards <$> (match NewBlobStoreWithEC toy_New None (Some [("u"%string, c false); ("t"%string, c true)]) with Ok b => Some b | Err _ => None end) = Some true.
Proof. by vm_compute. Qed.

(** An empty blob is not taken. *)
Example empty_blob_refused : (ex_Add [mkBlobsPayload "t" [(1%N, [])]] (ex_disk (λ _, None))).1 = Fail ErrEncode.
Proof. by vm_compute. Qed.
