(* ===== verification/AuditLog.v ===== *)
(** * governance/audit.go, audit_ed25519.go, pii.go: the chain of audit events

    An event is stored with the hash of its fields and of the hash before it.  The
    events are objects that the recorder shares with whoever queries it; a pointer is
    the event's position.  SHA-256 with its hexadecimal text, the signer, UUIDs and
    the clock are arguments. *)

From Stdlib Require Import Ascii.
From stdpp Require Import gmap pretty.
From S2P Require Import Prelude.

(** [Decision] *)
Inductive AuditDecision := DecisionAllow | DecisionDeny | DecisionViolation | DecisionQuarantined | OtherDecision (s : string).
Definition decision_text (d : AuditDecision) : string :=
  match d with
  | DecisionAllow => "allow" | DecisionDeny => "deny" | DecisionViolation => "violation"
  | DecisionQuarantined => "quarantined" | OtherDecision s => s
  end.

Inductive audit_error :=
| ErrTamperedLink (idx : nat) (id : string)
| ErrTamperedHash (idx : nat) (id : string)
| ErrAuditSinkClosed
| ErrSign
| ErrPublicKeySize
| ErrBadAuditSignature (idx : nat) (id : string).

(** A time is its nanoseconds; the zero [time.Time] is [None]. *)
Record AuditEvent := mkEvent {
  ae_ID : string;
  ae_Timestamp : option Z;
  ae_TenantID : string;
  ae_WorkspaceID : string;
  ae_ActorID : string;
  ae_Action : string;
  ae_Resource : string;
  ae_Decision : AuditDecision;
  ae_Reason : string;
  ae_Metadata : gmap string string;
  ae_PrevHash : string;
  ae_Hash : string;
  ae_Signature : string;
}.

Definition zero_UnixNano : Z := (-6795364578871345152)%Z.
Definition UnixNano (t : option Z) : Z := default zero_UnixNano t.

Definition set_stamp (id : string) (t : option Z) (e : AuditEvent) : AuditEvent :=
  mkEvent id t (ae_TenantID e) (ae_WorkspaceID e) (ae_ActorID e) (ae_Action e) (ae_Resource e) (ae_Decision e) (ae_Reason e) (ae_Metadata e) (ae_PrevHash e) (ae_Hash e) (ae_Signature e).
Definition set_hashes (prev h : string) (e : AuditEvent) : AuditEvent :=
  mkEvent (ae_ID e) (ae_Timestamp e) (ae_TenantID e) (ae_WorkspaceID e) (ae_ActorID e) (ae_Action e) (ae_Resource e) (ae_Decision e) (ae_Reason e) (ae_Metadata e) prev h (ae_Signature e).
Definition set_signature (sig : string) (e : AuditEvent) : AuditEvent :=
  mkEvent (ae_ID e) (ae_Timestamp e) (ae_TenantID e) (ae_WorkspaceID e) (ae_ActorID e) (ae_Action e) (ae_Resource e) (ae_Decision e) (ae_Reason e) (ae_Metadata e) (ae_PrevHash e) (ae_Hash e) sig.
Definition set_texts (reason resource : string) (meta : gmap string string) (e : AuditEvent) : AuditEvent :=
  mkEvent (ae_ID e) (ae_Timestamp e) (ae_TenantID e) (ae_WorkspaceID e) (ae_ActorID e) (ae_Action e) resource (ae_Decision e) reason meta (ae_PrevHash e) (ae_Hash e) (ae_Signature e).

Section audit.
(** [hex.EncodeToString(sha256.Sum256(text))]. *)
Context (hash : string → string).

(** ** The digest of an event *)

(** The fields after each other with a bar between them. *)
Fixpoint joined (fields : list string) (last : string) : string :=
  match fields with [] => last | f :: fields => f +:+ "|" +:+ joined fields last end.
Definition canonical (e : AuditEvent) (prevHash : string) : string :=
  joined [prevHash; pretty (UnixNano (ae_Timestamp e)); ae_TenantID e; ae_WorkspaceID e; ae_ActorID e; ae_Action e; ae_Resource e;
          decision_text (ae_Decision e)] (ae_Reason e).
Definition sized (s : string) : string := pretty (String.length s) +:+ ":" +:+ s.
Definition pair_text (p : string * string) : string := "|" +:+ sized p.1 +:+ "=" +:+ sized p.2.
Definition key_le (x y : string * string) : Prop := string_le x.1 y.1.
#[export] Instance key_le_dec : RelDecision key_le.
Proof. intros x y. unfold key_le. apply _. Defined.
Definition sort_pairs (l : list (string * string)) : list (string * string) := merge_sort key_le l.
Definition meta_text (m : gmap string string) : string := foldr (λ p rest, pair_text p +:+ rest) EmptyString (sort_pairs (map_to_list m)).
Definition ComputeHash (e : AuditEvent) (prevHash : string) : string := hash (canonical e prevHash +:+ meta_text (ae_Metadata e)).

(** ** The recorder *)

Record MemoryAuditRecorder := mkRecorder {
  ar_closed : bool;
  ar_events : list AuditEvent;
  ar_lastHash : string;
  ar_signer : option (string → option string);
}.
Definition NewMemoryAuditRecorder (signer : option (string → option string)) : MemoryAuditRecorder := mkRecorder false [] EmptyString signer.

(** The event of the caller is written to, also when the signer fails; what is stored
    is a copy. *)
Definition Record (uuid : string) (now : Z) (ev : AuditEvent) (r : MemoryAuditRecorder) : option audit_error * AuditEvent * MemoryAuditRecorder :=
  if ar_closed r then (Some ErrAuditSinkClosed, ev, r)
  else
    let ev := set_stamp (if decide (ae_ID ev = EmptyString) then uuid else ae_ID ev) (Some (default now (ae_Timestamp ev))) ev in
    let ev := set_hashes (ar_lastHash r) (ComputeHash ev (ar_lastHash r)) ev in
    match (match ar_signer r with Some sign => sig ← sign (ae_Hash ev); Some (set_signature sig ev) | None => Some ev end) with
    | None => (Some ErrSign, ev, r)
    | Some ev => (None, ev, mkRecorder (ar_closed r) (ar_events r ++ [ev]) (ae_Hash ev) (ar_signer r))
    end.
Definition Close (r : MemoryAuditRecorder) : MemoryAuditRecorder := mkRecorder true (ar_events r) (ar_lastHash r) (ar_signer r).
Definition Count (r : MemoryAuditRecorder) : nat := length (ar_events r).

Fixpoint verify_from (idx : nat) (prev : string) (events : list AuditEvent) : option audit_error :=
  match events with
  | [] => None
  | ev :: events =>
      if decide (ae_PrevHash ev ≠ prev) then Some (ErrTamperedLink idx (ae_ID ev))
      else if decide (ae_Hash ev ≠ ComputeHash ev prev) then Some (ErrTamperedHash idx (ae_ID ev))
      else verify_from (S idx) (ae_Hash ev) events
  end.
Definition VerifyIntegrity (r : MemoryAuditRecorder) : option audit_error := verify_from 0 EmptyString (ar_events r).

(** [ed25519.Verify] for a key, a text and a signature. *)
Fixpoint verify_signatures (Verify : string → string → string → bool) (pub : string) (idx : nat) (events : list AuditEvent) : option audit_error :=
  match events with
  | [] => None
  | ev :: events =>
      if Verify pub (ae_Hash ev) (ae_Signature ev) then verify_signatures Verify pub (S idx) events
      else Some (ErrBadAuditSignature idx (ae_ID ev))
  end.
Definition PublicKeySize : nat := 32.
Definition VerifySignatures (Verify : string → string → string → bool) (pub : string) (r : MemoryAuditRecorder) : option audit_error :=
  match VerifyIntegrity r with
  | Some err => Some err
  | None => if decide (String.length pub ≠ PublicKeySize) then Some ErrPublicKeySize else verify_signatures Verify pub 0 (ar_events r)
  end.

Record AuditFilter := mkFilter {
  af_TenantID : string;
  af_WorkspaceID : string;
  af_ActorID : string;
  af_Decision : string;
  af_Since : option Z;
}.
Definition passes (f : AuditFilter) (ev : AuditEvent) : bool :=
  negb (negb (bool_decide (af_TenantID f = EmptyString)) && negb (bool_decide (ae_TenantID ev = af_TenantID f))) &&
  negb (negb (bool_decide (af_WorkspaceID f = EmptyString)) && negb (bool_decide (ae_WorkspaceID ev = af_WorkspaceID f))) &&
  negb (negb (bool_decide (af_ActorID f = EmptyString)) && negb (bool_decide (ae_ActorID ev = af_ActorID f))) &&
  negb (negb (bool_decide (af_Decision f = EmptyString)) && negb (bool_decide (decision_text (ae_Decision ev) = af_Decision f))) &&
  match af_Since f with
  | None => true
  | Some since => negb (match ae_Timestamp ev with None => true | Some t => (t <? since)%Z end)
  end.

(** The pointers to the events that pass, and a write through such a pointer. *)
Definition Query (f : AuditFilter) (r : MemoryAuditRecorder) : list nat :=
  (filter (λ p : nat * AuditEvent, passes f p.2 = true) (imap pair (ar_events r))).*1.
Definition write_event (i : nat) (g : AuditEvent → AuditEvent) (r : MemoryAuditRecorder) : MemoryAuditRecorder :=
  mkRecorder (ar_closed r) (alter g i (ar_events r)) (ar_lastHash r) (ar_signer r).

(** ** pii.go *)

Definition byte_of (c : ascii) : Z := Z.of_nat (nat_of_ascii c).
(** [s[a:b]] of a string that is long enough. *)
Definition slice (a b : nat) (s : string) : string := String.substring a (b - a) s.
Definition validSSN (s : string) : bool :=
  negb (String.prefix "000" s) && negb (String.prefix "666" s) && negb (String.prefix "9" s) &&
  negb (bool_decide (slice 4 6 s = "00"%string)) && negb (bool_decide (slice 7 (String.length s) s = "0000"%string)).

(** The loop goes over the characters from the last one on. *)
Fixpoint luhn_loop (chars : list ascii) (sum : Z) (alt : bool) (n : Z) : Z * Z :=
  match chars with
  | [] => (sum, n)
  | c :: chars =>
      if bool_decide (c = " "%char) || bool_decide (c = "-"%char) then luhn_loop chars sum alt n
      else
        let d := wrap_u 8 (byte_of c - 48) in
        let d := if alt then (if (9 <? 2 * d)%Z then 2 * d - 9 else 2 * d)%Z else d in
        luhn_loop chars (sum + d) (negb alt) (n + 1)
  end.
Definition luhnValid (s : string) : bool :=
  let '(sum, n) := luhn_loop (rev (String.list_ascii_of_string s)) 0 false 0 in
  (13 <=? n)%Z && (n <=? 19)%Z && (sum mod 10 =? 0)%Z.

Definition piiRules : list (string * option (string → bool)) :=
  [("aws_key", None); ("jwt", None); ("email", None); ("ssn", Some validSSN); ("card", Some luhnValid); ("phone", None); ("ipv4", None)]%string.

Section redact.
(** [ReplaceAllStringFunc] of the pattern with the label; the hexadecimal text of
    HMAC-SHA256 for a key and a text. *)
Context (ReplaceAllStringFunc : string → (string → string) → string → string) (mac : string → string → string).

Definition redact_match (Key label : string) (ok : option (string → bool)) (m : string) : string :=
  if match ok with Some f => negb (f m) | None => false end then m
  else if decide (Key = EmptyString) then "[" +:+ label +:+ "]"
  else "[" +:+ label +:+ ":" +:+ slice 0 8 (mac Key (label +:+ ":" +:+ m)) +:+ "]".
Definition Redact (Key s : string) : string :=
  foldl (λ s rule, ReplaceAllStringFunc rule.1 (redact_match Key rule.1 rule.2) s) s piiRules.
Definition RedactEvent (Key : string) (ev : AuditEvent) : AuditEvent :=
  set_texts (Redact Key (ae_Reason ev)) (Redact Key (ae_Resource ev)) (Redact Key <$> ae_Metadata ev) ev.

(** The next sink gets a redacted copy, the caller's event its stamps and hashes. *)
Definition redacting_Record (Key uuid : string) (now : Z) (ev : AuditEvent) (r : MemoryAuditRecorder) : option audit_error * AuditEvent * MemoryAuditRecorder :=
  let '(err, cp, r) := Record uuid now (RedactEvent Key ev) r in
  (err, set_signature (ae_Signature cp) (set_hashes (ae_PrevHash cp) (ae_Hash cp) (set_stamp (ae_ID cp) (ae_Timestamp cp) ev)), r).
End redact.
End audit.

(** ** Texts that can be taken apart *)

Fixpoint free_of (c : ascii) (s : string) : Prop := match s with EmptyString => True | String a s => a ≠ c ∧ free_of c s end.
#[export] Instance free_of_dec c s : Decision (free_of c s).
Proof. induction s; cbn; apply _. Defined.

(** A text that is empty or begins with [c]. *)
Definition stops_at (c : ascii) (s : string) : Prop := match s with EmptyString => True | String a _ => a = c end.

Lemma cut_at c x y s t : free_of c x → free_of c y → stops_at c s → stops_at c t → x +:+ s = y +:+ t → x = y ∧ s = t.
Proof.
  revert y. induction x as [|a x IH]; intros [|b y] Hx Hy Hs Ht He.
  - done.
  - change (s = String b (y +:+ t)) in He. subst s. by destruct Hy.
  - change (String a (x +:+ s) = t) in He. subst t. by destruct Hx.
  - change (String a (x +:+ s) = String b (y +:+ t)) in He. injection He as -> He. destruct Hx as [_ Hx], Hy as [_ Hy]. by destruct (IH y Hx Hy Hs Ht He) as [-> ->].
Qed.

Lemma cut_length x y s t : String.length x = String.length y → x +:+ s = y +:+ t → x = y ∧ s = t.
Proof.
  revert y. induction x as [|a x IH]; intros [|b y] Hl He; try done.
  change (String a (x +:+ s) = String b (y +:+ t)) in He. injection He as -> He.
  cbn in Hl. destruct (IH y) as [-> ->]; [lia|done..].
Qed.

Lemma append_inj_l x s t : x +:+ s = x +:+ t → s = t.
Proof. induction x as [|a x IH]; [done|]. intros [= Hx]. by apply IH. Qed.

Lemma append_assoc_str x y z : (x +:+ y) +:+ z = x +:+ y +:+ z.
Proof. induction x as [|a x IH]; [done|]. exact (f_equal (String a) IH). Qed.

Lemma pretty_N_go_free c x : (∀ d, pretty_N_char d ≠ c) → ∀ s, free_of c s → free_of c (pretty_N_go x s).
Proof.
  intros Hc. induction (N.lt_wf_0 x) as [x _ IH]; intros s Hs.
  destruct (decide (0 < x)%N) as [Hx|Hx].
  - rewrite pretty_N_go_step by done. apply IH; [by apply N.div_lt|]. by split.
  - assert (x = 0%N) as -> by lia. by rewrite pretty_N_go_0.
Qed.
Lemma pretty_N_free c x : (∀ d, pretty_N_char d ≠ c) → free_of c (pretty (x : N)).
Proof.
  intros Hc. unfold pretty, pretty_N. case_decide; [|by apply pretty_N_go_free].
  split; [|done]. apply (Hc 0%N).
Qed.
Lemma pretty_nat_free c n : (∀ d, pretty_N_char d ≠ c) → free_of c (pretty (n : nat)).
Proof. apply pretty_N_free. Qed.
Lemma pretty_Z_free c z : (∀ d, pretty_N_char d ≠ c) → c ≠ "-"%char → c ≠ "0"%char → free_of c (pretty (z : Z)).
Proof.
  intros Hc Hd H0. unfold pretty, pretty_Z. destruct z as [|z|z].
  - by split.
  - by apply pretty_N_free.
  - split; [done|]. by apply pretty_N_free.
Qed.
Lemma digit_not c : c ∉ ["0"; "1"; "2"; "3"; "4"; "5"; "6"; "7"; "8"; "9"]%char → ∀ d, pretty_N_char d ≠ c.
Proof. intros Hc d He. apply Hc. rewrite <-He. unfold pretty_N_char. repeat case_match; by_decision. Qed.

Lemma sized_inj x y s t : sized x +:+ s = sized y +:+ t → x = y ∧ s = t.
Proof.
  unfold sized. rewrite !append_assoc_str. intros He.
  assert (Hc : ∀ d, pretty_N_char d ≠ ":"%char) by (apply digit_not; by_decision).
  apply (cut_at ":"%char) in He as [Hl He]; [|by apply pretty_nat_free|by apply pretty_nat_free|exact eq_refl|exact eq_refl].
  apply (inj pretty) in Hl. injection He as He. exact (cut_length _ _ _ _ Hl He).
Qed.

Lemma pairs_text_inj l l' : foldr (λ p rest, pair_text p +:+ rest) EmptyString l = foldr (λ p rest, pair_text p +:+ rest) EmptyString l' → l = l'.
Proof.
  revert l'. induction l as [|[k v] l IH]; intros [|[k' v'] l'] He; [done..|]. cbn [foldr] in He. unfold pair_text in He. cbn [fst snd] in He.
  rewrite !append_assoc_str in He. injection He as He. apply sized_inj in He as [-> He]. injection He as He.
  apply sized_inj in He as [-> He]. f_equal. by apply IH.
Qed.

Lemma meta_text_inj m m' : meta_text m = meta_text m' → m = m'.
Proof.
  intros He%pairs_text_inj. unfold sort_pairs in He. apply map_to_list_inj.
  rewrite <-(merge_sort_Permutation key_le (map_to_list m)), <-(merge_sort_Permutation key_le (map_to_list m')). by rewrite He.
Qed.

Lemma meta_text_stops m : stops_at "|"%char (meta_text m).
Proof. unfold meta_text. by destruct (sort_pairs (map_to_list m)). Qed.

Lemma joined_inj fs fs' x y s t : length fs = length fs' → Forall (free_of "|"%char) fs → Forall (free_of "|"%char) fs' →
  free_of "|"%char x → free_of "|"%char y → stops_at "|"%char s → stops_at "|"%char t →
  joined fs x +:+ s = joined fs' y +:+ t → fs = fs' ∧ x = y ∧ s = t.
Proof.
  revert fs'. induction fs as [|f fs IH]; intros [|f' fs'] Hl Hf Hf' Hx Hy Hs Ht He; try done.
  - cbn [joined] in He. destruct (cut_at _ _ _ _ _ Hx Hy Hs Ht He) as [-> ->]. done.
  - cbn [joined] in He. rewrite !append_assoc_str in He. apply Forall_cons in Hf as [Hf1 Hf2], Hf' as [Hf1' Hf2'].
    apply (cut_at "|"%char) in He as [-> He]; [|done|done|exact eq_refl|exact eq_refl]. injection He as He.
    destruct (IH fs' ltac:(cbn in Hl; lia) Hf2 Hf2' Hx Hy Hs Ht He) as (-> & -> & ->). done.
Qed.

(** ** What the chain shows *)

(** A history of calls: each record gets its draws of UUID and clock. *)
Inductive audit_op := OpRecord (uuid : string) (now : Z) (ev : AuditEvent) | OpClose | OpQuery (f : AuditFilter).
Definition audit_step (hash : string → string) (op : audit_op) (r : MemoryAuditRecorder) : list (option audit_error * AuditEvent) * MemoryAuditRecorder :=
  match op with
  | OpRecord uuid now ev => let '(err, ev, r) := Record hash uuid now ev r in ([(err, ev)], r)
  | OpClose => ([], Close r)
  | OpQuery _ => ([], r)
  end.
Fixpoint audit_run (hash : string → string) (ops : list audit_op) (r : MemoryAuditRecorder) : list (option audit_error * AuditEvent) * MemoryAuditRecorder :=
  match ops with
  | [] => ([], r)
  | op :: ops => let '(out, r) := audit_step hash op r in let '(out', r) := audit_run hash ops r in (out ++ out', r)
  end.
(** The events that [Record] took. *)
Definition taken (out : list (option audit_error * AuditEvent)) : list AuditEvent :=
  omap (λ p : option audit_error * AuditEvent, match p.1 with None => Some p.2 | Some _ => None end) out.

(** What an event says, and that its texts have no bar in them. *)
Definition content (e : AuditEvent) : Z * string * string * string * string * string * string * string * gmap string string :=
  (UnixNano (ae_Timestamp e), ae_TenantID e, ae_WorkspaceID e, ae_ActorID e, ae_Action e, ae_Resource e, decision_text (ae_Decision e), ae_Reason e, ae_Metadata e).
Definition texts (e : AuditEvent) : list string :=
  [ae_TenantID e; ae_WorkspaceID e; ae_ActorID e; ae_Action e; ae_Resource e; decision_text (ae_Decision e); ae_Reason e].
Definition no_bars (e : AuditEvent) : Prop := Forall (free_of "|"%char) (texts e).
#[export] Instance no_bars_dec e : base.Decision (no_bars e) := _.
Definition op_no_bars (op : audit_op) : Prop := match op with OpRecord _ _ ev => no_bars ev | _ => True end.
#[export] Instance op_no_bars_dec op : base.Decision (op_no_bars op).
Proof. destruct op; cbn; apply _. Defined.

Section chain.
Context (hash : string → string).
(** SHA-256 has no collisions, and its text is made of hexadecimal digits. *)
Hypothesis hash_inj : Inj (=) (=) hash.
Hypothesis hash_text : ∀ s, hash s ≠ EmptyString ∧ free_of "|"%char (hash s).

Lemma ComputeHash_inj e e' p p' : no_bars e → no_bars e' → free_of "|"%char p → free_of "|"%char p' →
  ComputeHash hash e p = ComputeHash hash e' p' → content e = content e' ∧ p = p'.
Proof.
  unfold no_bars, texts. intros He He' Hp Hp' Heq%hash_inj. unfold canonical in Heq.
  repeat match goal with H : Forall _ (_ :: _) |- _ => apply Forall_cons in H as [? H] end.
  assert (Hz : ∀ z : Z, free_of "|"%char (pretty z)) by (intros z; apply pretty_Z_free; [apply digit_not; by_decision|done|done]).
  apply joined_inj in Heq as (Hf & Hr & Hm%meta_text_inj);
    [|done|by repeat constructor|by repeat constructor|done|done|apply meta_text_stops|apply meta_text_stops].
  injection Hf as -> Ht E1 E2 E3 E4 E5 E6. apply (inj pretty) in Ht. unfold content. split; [|done]. congruence.
Qed.

Definition end_hash (prev : string) (events : list AuditEvent) : string := default prev (ae_Hash <$> last events).
Definition links (events : list AuditEvent) : Prop := ∀ i, verify_from hash i EmptyString events = None.

Lemma verify_from_app i prev events ev : verify_from hash i prev (events ++ [ev]) = None ↔
  verify_from hash i prev events = None ∧ ae_PrevHash ev = end_hash prev events ∧ ae_Hash ev = ComputeHash hash ev (end_hash prev events).
Proof.
  revert i prev. induction events as [|e events IH]; intros i prev; cbn [app verify_from].
  - change (end_hash prev []) with prev. repeat case_decide; naive_solver.
  - repeat case_decide; [naive_solver..|]. rewrite IH. unfold end_hash. rewrite last_cons. by destruct (last events).
Qed.

(** Chains that end in the same hash say the same. *)
Lemma same_end events : ∀ events' i i', verify_from hash i EmptyString events = None → verify_from hash i' EmptyString events' = None →
  Forall no_bars events → Forall no_bars events' → end_hash EmptyString events = end_hash EmptyString events' →
  content <$> events = content <$> events'.
Proof.
  assert (Hend : ∀ i evs, verify_from hash i EmptyString evs = None → free_of "|"%char (end_hash EmptyString evs)).
  { intros i evs. destruct evs as [|ev evs _] using rev_ind; [done|]. intros (_ & _ & Hh)%verify_from_app.
    unfold end_hash at 1. rewrite last_snoc. cbn [fmap option_fmap option_map default]. rewrite Hh. apply hash_text. }
  induction events as [|ev events IH] using rev_ind; intros events' i i' Hv Hv' Hb Hb' He.
  - destruct events' as [|ev' events' _] using rev_ind; [done|]. apply verify_from_app in Hv' as (_ & _ & Hh).
    unfold end_hash in He at 2. rewrite last_snoc in He. cbn in He. rewrite Hh in He. by destruct (hash_text (canonical ev' (end_hash EmptyString events') +:+ meta_text (ae_Metadata ev'))) as [[] _].
  - destruct events' as [|ev' events' _] using rev_ind.
    + apply verify_from_app in Hv as (_ & _ & Hh). unfold end_hash in He at 1. rewrite last_snoc in He. cbn in He. rewrite Hh in He.
      by destruct (hash_text (canonical ev (end_hash EmptyString events) +:+ meta_text (ae_Metadata ev))) as [[] _].
    + apply verify_from_app in Hv as (Hv & _ & Hh), Hv' as (Hv' & _ & Hh').
      apply Forall_app in Hb as [Hb [Hb1 _]%Forall_cons], Hb' as [Hb' [Hb1' _]%Forall_cons].
      unfold end_hash in He. rewrite !last_snoc in He. cbn in He. rewrite Hh, Hh' in He.
      apply ComputeHash_inj in He as [Hc He]; [|done|done|by eapply Hend|by eapply Hend].
      rewrite !fmap_app, (IH events' i i') by done. cbn [fmap list_fmap]. by rewrite Hc.
Qed.

Definition recorder_inv (r : MemoryAuditRecorder) : Prop :=
  verify_from hash 0 EmptyString (ar_events r) = None ∧ ar_lastHash r = end_hash EmptyString (ar_events r) ∧ Forall no_bars (ar_events r).

Lemma Record_inv uuid now ev r : recorder_inv r → no_bars ev →
  let '(err, ev', r') := Record hash uuid now ev r in
  recorder_inv r' ∧ ar_events r' = ar_events r ++ taken [(err, ev')] ∧ ar_signer r' = ar_signer r ∧
  (err = None → content ev' = (default now (ae_Timestamp ev), ae_TenantID ev, ae_WorkspaceID ev, ae_ActorID ev, ae_Action ev, ae_Resource ev, decision_text (ae_Decision ev), ae_Reason ev, ae_Metadata ev)
    ∧ match ar_signer r with Some sign => sign (ae_Hash ev') = Some (ae_Signature ev') | None => True end).
Proof.
  intros (Hv & Hl & Hb) Hev. unfold Record, taken. destruct (ar_closed r); [cbn; by rewrite app_nil_r|]. cbv zeta.
  set (ev1 := set_hashes _ _ _).
  assert (H1 : no_bars ev1 ∧ ae_PrevHash ev1 = ar_lastHash r ∧ ae_Hash ev1 = ComputeHash hash ev1 (ar_lastHash r)) by (split_and!; done).
  destruct H1 as (Hb1 & Hp1 & Hh1).
  assert (Hadd : ∀ sig, let ev2 := set_signature sig ev1 in recorder_inv (mkRecorder false (ar_events r ++ [ev2]) (ae_Hash ev2) (ar_signer r))).
  { intros sig ev2. split_and!; cbn [ar_events ar_lastHash].
    - apply verify_from_app. rewrite <-Hl. by split_and!.
    - unfold end_hash. by rewrite last_snoc.
    - apply Forall_app. split; [done|]. by constructor. }
  destruct (ar_signer r) as [sign|] eqn:Hs; [destruct (sign (ae_Hash ev1)) as [sig|] eqn:Hsig|].
  - cbn [mbind option_bind]. split_and!; [apply Hadd|done|done|done].
  - cbn. by rewrite app_nil_r.
  - split_and!; [apply (Hadd (ae_Signature ev1))|done|done|done].
Qed.
End chain.

Section recorder.
Context (hash : string → string) (Verify : string → string → string → bool).
Hypothesis hash_inj : Inj (=) (=) hash.
Hypothesis hash_text : ∀ s, hash s ≠ EmptyString ∧ free_of "|"%char (hash s).

Lemma audit_run_inv ops : ∀ r, recorder_inv hash r → Forall op_no_bars ops →
  let '(out, r') := audit_run hash ops r in
  recorder_inv hash r' ∧ ar_events r' = ar_events r ++ taken out ∧ ar_signer r' = ar_signer r ∧
  (∀ sign, ar_signer r = Some sign → Forall (λ e, sign (ae_Hash e) = Some (ae_Signature e)) (taken out)).
Proof.
  induction ops as [|op ops IH]; intros r Hr Hops; cbn [audit_run].
  { split_and!; [done|by rewrite app_nil_r|done|by constructor]. }
  apply Forall_cons in Hops as [Hop Hops].
  assert (Hstep : let '(out, r1) := audit_step hash op r in recorder_inv hash r1 ∧ ar_events r1 = ar_events r ++ taken out ∧
    ar_signer r1 = ar_signer r ∧ (∀ sign, ar_signer r = Some sign → Forall (λ e, sign (ae_Hash e) = Some (ae_Signature e)) (taken out))).
  { destruct op as [uuid now ev| |f]; cbn [audit_step]; [|split_and!; [done|cbn; by rewrite app_nil_r|done|constructor]..].
    pose proof (Record_inv hash hash_text uuid now ev r Hr Hop) as H. destruct (Record hash uuid now ev r) as [[err ev'] r1].
    destruct H as (H1 & H2 & H3 & H4). split_and!; [done..|]. intros sign Hs. unfold taken. cbn.
    destruct err; [constructor|]. constructor; [|constructor]. destruct (H4 eq_refl) as [_ H5]. by rewrite Hs in H5. }
  destruct (audit_step hash op r) as [out1 r1]. destruct Hstep as (H1 & H2 & H3 & H4).
  specialize (IH r1 H1 Hops). destruct (audit_run hash ops r1) as [out2 r2]. destruct IH as (H5 & H6 & H7 & H8).
  unfold taken in *. rewrite omap_app. split_and!; [done|by rewrite H6, H2, app_assoc|by rewrite H7|].
  intros sign Hs. apply Forall_app. split; [by apply H4|apply H8; by rewrite H3].
Qed.

(** C6: After any history of calls with events whose fields contain no bar the recorder holds exactly the events it
    took, in their order; its chain verifies, and so do the signatures of a signer that the public key fits.  Whatever
    events without bars are put in their place, if they verify and end in the recorder's last hash, they say the same.
    *)
Theorem audit_chain_commits signer pub ops : Forall op_no_bars ops → String.length pub = PublicKeySize →
  (∀ sign text sig, signer = Some sign → sign text = Some sig → Verify pub text sig = true) →
  let '(out, r) := audit_run hash ops (NewMemoryAuditRecorder signer) in
  ar_events r = taken out ∧ VerifyIntegrity hash r = None ∧ (signer ≠ None → VerifySignatures hash Verify pub r = None) ∧
  ∀ events, VerifyIntegrity hash (mkRecorder (ar_closed r) events (ar_lastHash r) signer) = None → Forall no_bars events →
    end_hash EmptyString events = ar_lastHash r → content <$> events = content <$> ar_events r.
Proof.
  intros Hops Hpub Hsig. assert (Hnew : recorder_inv hash (NewMemoryAuditRecorder signer)) by (split_and!; [done..|by constructor]).
  pose proof (audit_run_inv ops _ Hnew Hops) as Hrun. destruct (audit_run hash ops (NewMemoryAuditRecorder signer)) as [out r].
  destruct Hrun as ((Hv & Hl & Hb) & He & Hs & Hall). cbn [NewMemoryAuditRecorder ar_events ar_signer app] in *. split_and!; [done|done| |].
  - intros Hsome. unfold VerifySignatures. unfold VerifyIntegrity. rewrite Hv, decide_False by auto.
    destruct signer as [sign|]; [|done]. specialize (Hall sign eq_refl). rewrite <-He in Hall. clear -Hall Hsig.
    generalize 0. induction Hall as [|e events He _ IH]; intros i; [done|]. cbn [verify_signatures].
    rewrite (Hsig sign _ _ eq_refl He). apply IH.
  - intros events Hve Hbe Hend. symmetry. eapply (same_end hash); [done|done|exact Hv|exact Hve|done|done|]. by rewrite <-Hl.
Qed.
End recorder.

(** ** A hash of hexadecimal letters, and findings *)

Definition hi (c : ascii) : ascii := ascii_of_nat (97 + nat_of_ascii c / 16).
Definition lo (c : ascii) : ascii := ascii_of_nat (97 + nat_of_ascii c `mod` 16).
Fixpoint letters (s : string) : string := match s with EmptyString => EmptyString | String c s => String (hi c) (String (lo c) (letters s)) end.
Definition toy_hash (s : string) : string := String "h" (letters s).

Lemma letters_inj : Inj (=) (=) letters.
Proof.
  assert (Hback : ∀ c, ascii_of_nat ((nat_of_ascii (hi c) - 97) * 16 + (nat_of_ascii (lo c) - 97)) = c).
  { intros [[] [] [] [] [] [] [] []]; vm_compute; reflexivity. }
  intros x. induction x as [|a x IH]; intros [|b y]; [done..|]. intros [= Hh Hl Hs]. apply IH in Hs as ->.
  f_equal. by rewrite <-(Hback a), Hh, Hl.
Qed.
Lemma toy_hash_inj : Inj (=) (=) toy_hash.
Proof. intros x y [= H]. by apply letters_inj. Qed.
Lemma toy_hash_text s : toy_hash s ≠ EmptyString ∧ free_of "|"%char (toy_hash s).
Proof.
  split; [done|]. split; [done|]. induction s as [|c s IH]; [done|]. cbn [letters free_of]. split_and!; [| |exact IH].
  all: destruct c as [[] [] [] [] [] [] [] []]; vm_compute; discriminate.
Qed.

Definition toy_sign (text : string) : option string := Some ("signed " +:+ text).
Definition toy_Verify (pub text sig : string) : bool := bool_decide (sig = "signed " +:+ text).
Definition toy_key : string := "0123456789abcdef0123456789abcdef".
Definition ex_event (tenant workspace reason : string) : AuditEvent :=
  mkEvent EmptyString None tenant workspace "agent" "drop_prod_db" "db" DecisionDeny reason ∅ EmptyString EmptyString EmptyString.
Definition ex_ops : list audit_op :=
  [OpRecord "1" 10 (ex_event "acme" "ops" "no backup"); OpRecord "2" 20 (ex_event "acme" "dev" "no role"); OpClose; OpRecord "3" 30 (ex_event "acme" "dev" "late")].

Lemma audit_chain_commits_witness :
  length (taken (audit_run toy_hash ex_ops (NewMemoryAuditRecorder (Some toy_sign))).1) = 2 ∧
  VerifySignatures toy_hash toy_Verify toy_key (audit_run toy_hash ex_ops (NewMemoryAuditRecorder (Some toy_sign))).2 = None.
Proof.
  assert (Hops : Forall op_no_bars ex_ops) by by_decision.
  assert (Hsig : ∀ sign text sig, Some toy_sign = Some sign → sign text = Some sig → toy_Verify toy_key text sig = true).
  { intros sign text sig [= <-] [= <-]. unfold toy_Verify. by apply bool_decide_eq_true. }
  pose proof (audit_chain_commits toy_hash toy_Verify toy_hash_inj toy_hash_text (Some toy_sign) toy_key ex_ops Hops eq_refl Hsig) as H.
  split; [vm_compute; reflexivity|]. destruct (audit_run toy_hash ex_ops _) as [out r]. destruct H as (_ & _ & H & _). by apply H.
Defined.

Definition ex_recorder : MemoryAuditRecorder := (audit_run toy_hash [OpRecord "1" 10 (ex_event "acme|eu" "ops" "no backup")] (NewMemoryAuditRecorder None)).2.
Definition ex_pointers : list nat := Query (mkFilter EmptyString EmptyString "agent" EmptyString None) ex_recorder.

(** [Query] hands out the events of the recorder themselves.  A bar in a field lets
    text be moved to the next field, and the ID is in no digest: both changes pass. *)
Definition set_owner (tenant workspace : string) (e : AuditEvent) : AuditEvent :=
  mkEvent (ae_ID e) (ae_Timestamp e) tenant workspace (ae_ActorID e) (ae_Action e) (ae_Resource e) (ae_Decision e) (ae_Reason e) (ae_Metadata e) (ae_PrevHash e) (ae_Hash e) (ae_Signature e).
Example bars_move_between_fields :
  ex_pointers = [0] ∧ VerifyIntegrity toy_hash (write_event 0 (set_owner "acme" "eu|ops") ex_recorder) = None ∧
  VerifyIntegrity toy_hash (write_event 0 (set_owner "acme" "eu") ex_recorder) ≠ None.
Proof. split_and!; by vm_compute. Qed.
Example id_is_not_hashed : VerifyIntegrity toy_hash (write_event 0 (λ e, set_stamp "another" (ae_Timestamp e) e) ex_recorder) = None.
Proof. by vm_compute. Qed.

(** The last hash is kept but not compared: a log without its last events verifies. *)
Example cut_log_verifies : ∀ r, r = (audit_run toy_hash ex_ops (NewMemoryAuditRecorder None)).2 →
  VerifyIntegrity toy_hash (mkRecorder (ar_closed r) (take 1 (ar_events r)) (ar_lastHash r) (ar_signer r)) = None ∧
  end_hash EmptyString (take 1 (ar_events r)) ≠ ar_lastHash r.
Proof. intros r ->. split; by vm_compute. Qed.

(** A card number by its check digit. *)
Example luhn_examples : luhnValid "4111 1111 1111 1111" = true ∧ luhnValid "4111 1111 1111 1112" = false ∧ validSSN "123-45-6789" = true ∧ validSSN "000-45-6789" = false.
Proof. by vm_compute. Qed.
