(* ===== verification/Governance.v ===== *)
(** * governance/tier.go and policy.go: what a tier may do, policies over the barrier

    A gate answers which capabilities a deployment has.  A policy manifest becomes a
    workflow of the barrier (Verify) with the roles that each step asks for; its
    evaluation commits to the trace and leaves an event in the audit log. *)

From stdpp Require Import gmap.
From S2P Require Import Prelude Verify AuditLog.

(** ** tier.go

    Tiers and capabilities are strings. *)

Abbreviation Tier := string (only parsing).
Abbreviation Capability := string (only parsing).

Definition TierCore : Tier := "core".
Definition TierPro : Tier := "pro".
Definition TierEnterprise : Tier := "enterprise".
Definition TierHosted : Tier := "hosted".

Definition CapPolicyAsCode : Capability := "pro:policy_as_code".
Definition CapEnterpriseSSO : Capability := "enterprise:sso".

Definition coreCaps : list Capability :=
  ["core:btree"; "core:wal_2pc"; "core:erasure_coding"; "core:agent_memory"; "core:vector_similarity"; "core:embedded_mcp"; "core:a2a_runtime";
   "core:verify_barrier"; "core:developer_oidc"]%string.
Definition proCaps : list Capability :=
  [CapPolicyAsCode; "pro:signed_audit_export"; "pro:tamper_evident_lineage"; "pro:team_workspaces"; "pro:priority_mcp_gateway"]%string.
Definition entCaps : list Capability :=
  ["enterprise:multi_tenant_rbac"; CapEnterpriseSSO; "enterprise:siem_streaming_audit"; "enterprise:fine_grained_verification";
   "enterprise:custom_invariants"; "enterprise:compliance_enforcement"]%string.
Definition hostedCaps : list Capability :=
  ["hosted:managed_instances"; "hosted:cloud_mcp_hub"; "hosted:multi_region_replication"; "hosted:managed_coordination";
   "hosted:automated_snapshots"]%string.

Inductive gov_error :=
| ErrCapabilityNotLicensed
| ErrInvalidTier (tier : Tier)
| ErrUnknownRuleKind (kind name : string)
| ErrWorkflow (e : verify_error).

Definition TierCapabilities (tier : Tier) : result gov_error (list Capability) :=
  if decide (tier = TierCore ∨ tier = EmptyString) then Ok coreCaps
  else if decide (tier = TierPro) then Ok (coreCaps ++ proCaps)
  else if decide (tier = TierEnterprise) then Ok ((coreCaps ++ proCaps) ++ entCaps)
  else if decide (tier = TierHosted) then Ok (((coreCaps ++ proCaps) ++ entCaps) ++ hostedCaps)
  else Err (ErrInvalidTier tier).

Record FeatureGate := mkGate { fg_tier : Tier; fg_overrides : gmap Capability bool }.

(** The options are overrides. *)
Definition NewFeatureGate (tier : Tier) (opts : list (Capability * bool)) : FeatureGate :=
  mkGate tier (foldl (λ m o, <[o.1 := o.2]> m) ∅ opts).
Definition Allows (fg : FeatureGate) (cap : Capability) : bool :=
  match fg_overrides fg !! cap with
  | Some enabled => enabled
  | None => match TierCapabilities (fg_tier fg) with Ok caps => bool_decide (cap ∈ caps) | Err _ => false end
  end.
Definition Require (fg : FeatureGate) (cap : Capability) : option gov_error := if Allows fg cap then None else Some ErrCapabilityNotLicensed.
Definition SetTier (tier : Tier) (fg : FeatureGate) : FeatureGate := mkGate tier (fg_overrides fg).
Definition SetOverride (cap : Capability) (enabled : bool) (fg : FeatureGate) : FeatureGate := mkGate (fg_tier fg) (<[cap := enabled]> (fg_overrides fg)).
(** The keys of the map of active capabilities. *)
Definition Capabilities (fg : FeatureGate) : gset Capability :=
  let caps : gset Capability := match TierCapabilities (fg_tier fg) with Ok caps => list_to_set caps | Err _ => ∅ end in
  map_fold (λ (c : Capability) (enabled : bool) (active : gset Capability), if enabled then {[c]} ∪ active else active ∖ {[c]}) caps (fg_overrides fg).

(** ** policy.go *)

Definition RuleKindPrecedence : string := "precedence".
Definition RuleKindReachability : string := "reachability".

Record RuleSpec := mkRuleSpec { rs_Name : string; rs_Kind : string; rs_Forbidden : State; rs_Requires : State; rs_Target : State }.
Record StepSpec := mkStepSpec { ss_ID : StepID; ss_Requires : list State; ss_Establishes : list State; ss_AllowedRoles : list string }.
Record PolicyManifest := mkManifest { pm_ID : string; pm_MinTier : Tier; pm_Rules : list RuleSpec; pm_Steps : list StepSpec }.
Record CompiledPolicy := mkPolicy {
  cp_Manifest : PolicyManifest;
  cp_Workflow : Workflow;
  cp_roleRequirements : gmap StepID (list string);
}.

(** The format of the reason and its arguments. *)
Inductive Reason := MsgRoles (callerRoles : list string) (step : StepID) (allowedRoles : list string) | MsgViolation (m : ViolationMessage) | MsgMet.
Record EvaluationResult := mkEval {
  er_Allowed : bool;
  er_Decision : AuditDecision;
  er_StepID : StepID;
  er_Reason : Reason;
  er_Violation : option Violation;
}.

Definition check_tier (manifest : PolicyManifest) (gate : option FeatureGate) : option gov_error :=
  match gate with
  | Some gate =>
      if decide (pm_MinTier manifest = EmptyString) then None
      else match TierCapabilities (fg_tier gate), TierCapabilities (pm_MinTier manifest) with
           | Err e, _ => Some e
           | _, Err e => Some e
           | Ok caps, Ok requiredCaps => if decide (length caps < length requiredCaps) then Some ErrCapabilityNotLicensed else None
           end
  | None => None
  end.

Definition to_step (s : StepSpec) : Step := mkStep (ss_ID s) (ss_Requires s) (ss_Establishes s).
Definition add_roles (m : gmap StepID (list string)) (s : StepSpec) : gmap StepID (list string) :=
  if decide (ss_AllowedRoles s = []) then m else <[ss_ID s := ss_AllowedRoles s]> m.
Definition role_requirements (steps : list StepSpec) : gmap StepID (list string) := foldl add_roles ∅ steps.
Fixpoint sort_rules (rules : list RuleSpec) (safety : list SafetyRule) (reachability : list ReachabilityRule) : result gov_error (list SafetyRule * list ReachabilityRule) :=
  match rules with
  | [] => Ok (safety, reachability)
  | r :: rules =>
      if decide (rs_Kind r = RuleKindPrecedence) then sort_rules rules (safety ++ [mkSafetyRule (rs_Name r) (rs_Forbidden r) (rs_Requires r)]) reachability
      else if decide (rs_Kind r = RuleKindReachability) then sort_rules rules safety (reachability ++ [mkReachabilityRule (rs_Name r) (rs_Target r)])
      else Err (ErrUnknownRuleKind (rs_Kind r) (rs_Name r))
  end.

Definition CompilePolicy (manifest : PolicyManifest) (gate : option FeatureGate) : result gov_error CompiledPolicy :=
  match check_tier manifest gate with
  | Some e => Err e
  | None =>
      match sort_rules (pm_Rules manifest) [] [] with
      | Err e => Err e
      | Ok (safetyRules, reachabilityRules) =>
          match NewWorkflow (to_step <$> pm_Steps manifest) safetyRules reachabilityRules with
          | Err e => Err (ErrWorkflow e)
          | Ok wf => Ok (mkPolicy manifest wf (role_requirements (pm_Steps manifest)))
          end
      end
  end.

(** The loops over the allowed roles and the caller's. *)
Definition role_matches (callerRoles : list string) (ar : string) : bool :=
  bool_decide (ar = "*"%string) || existsb (λ cr, bool_decide (cr = ar) || bool_decide (cr = "Admin"%string)) callerRoles.
Definition role_authorized (allowedRoles callerRoles : list string) : bool := existsb (role_matches callerRoles) allowedRoles.

Definition Evaluate (cp : CompiledPolicy) (trace : Trace) (stepID : StepID) (callerRoles : list string) : result verify_error EvaluationResult :=
  let allowedRoles := default [] (cp_roleRequirements cp !! stepID) in
  if negb (bool_decide (allowedRoles = [])) && negb (role_authorized allowedRoles callerRoles)
  then Ok (mkEval false DecisionDeny stepID (MsgRoles callerRoles stepID allowedRoles) None)
  else match CheckSafety (cp_Workflow cp) trace stepID with
       | Some (ErrViolation v) => Ok (mkEval false DecisionViolation stepID (MsgViolation (v_Message v)) (Some v))
       | Some err => Err err
       | None => Ok (mkEval true DecisionAllow stepID MsgMet None)
       end.

Section evaluate.
(** The hash of the audit log, and the text of a reason. *)
Context (hash : string → string) (reason_text : Reason → string).

Definition policy_event (cp : CompiledPolicy) (eval : EvaluationResult) (actorID tenantID workspaceID : string) : AuditEvent :=
  mkEvent EmptyString None tenantID workspaceID actorID (er_StepID eval) (pm_ID (cp_Manifest cp)) (er_Decision eval) (reason_text (er_Reason eval)) ∅
    EmptyString EmptyString EmptyString.

(** Other callers use the trace [meanwhile], between the evaluation and the commit.
    The UUID and the clock are those that the audit event draws. *)
Definition EvaluateAndCommit (cp : CompiledPolicy) (stepID : StepID) (callerRoles : list string) (actorID tenantID workspaceID : string)
    (meanwhile : Trace → Trace) (uuid : string) (now : Z) (trace : Trace) (sink : option MemoryAuditRecorder) :
    result verify_error EvaluationResult * Trace * option MemoryAuditRecorder :=
  match Evaluate cp trace stepID callerRoles with
  | Err err => (Err err, meanwhile trace, sink)
  | Ok eval =>
      let trace := meanwhile trace in
      let '(res, trace) :=
        if er_Allowed eval
        then match CheckAndCommit (cp_Workflow cp) trace stepID with
             | (Some (ErrViolation v), trace) => (Ok (mkEval false DecisionViolation stepID (MsgViolation (v_Message v)) (Some v)), trace)
             | (Some err, trace) => (Err err, trace)
             | (None, trace) => (Ok eval, trace)
             end
        else (Ok eval, trace) in
      match res with
      | Err err => (Err err, trace, sink)
      | Ok eval => (Ok eval, trace, (λ r, (Record hash uuid now (policy_event cp eval actorID tenantID workspaceID) r).2) <$> sink)
      end
  end.
End evaluate.

(** ** What the gate of capabilities answers *)

Lemma Allows_override cap b fg cap' : Allows (SetOverride cap b fg) cap' = if decide (cap' = cap) then b else Allows fg cap'.
Proof. unfold Allows, SetOverride. cbn. case_decide; subst; [by rewrite lookup_insert_eq|by rewrite lookup_insert_ne]. Qed.

(** The tiers build upon each other. *)
Lemma tiers_grow : ∀ t1 t2 c1 c2, TierCapabilities t1 = Ok c1 → TierCapabilities t2 = Ok c2 → length c1 ≤ length c2 → c1 ⊆ c2.
Proof.
  unfold TierCapabilities. intros t1 t2 c1 c2. repeat case_decide; intros [= <-] [= <-]; try done; intros Hl; try (by cbn in Hl; lia); set_solver.
Qed.

(** [Capabilities] lists what [Allows] answers. *)
Lemma Capabilities_exact fg cap : cap ∈ Capabilities fg ↔ Allows fg cap = true.
Proof.
  unfold Capabilities, Allows. set (caps := match TierCapabilities (fg_tier fg) with Ok _ => _ | Err _ => _ end).
  assert (Hcaps : cap ∈ caps ↔ match TierCapabilities (fg_tier fg) with Ok caps => bool_decide (cap ∈ caps) | Err _ => false end = true).
  { unfold caps. destruct (TierCapabilities (fg_tier fg)); [|set_solver]. rewrite bool_decide_eq_true. set_solver. }
  apply (map_fold_weak_ind (λ (active : gset Capability) (m : gmap Capability bool), cap ∈ active ↔ (match m !! cap with Some b => b | None =>
    match TierCapabilities (fg_tier fg) with Ok caps => bool_decide (cap ∈ caps) | Err _ => false end end) = true)).
  - by rewrite lookup_empty.
  - intros c b m active Hm IH. destruct (decide (cap = c)) as [->|Hne].
    + rewrite lookup_insert_eq. destruct b; set_solver.
    + rewrite lookup_insert_ne by done. rewrite <-IH. destruct b; set_solver.
Qed.

(** ** A policy is a gate before the barrier *)

Lemma NewWorkflow_index_NoDup steps : ∀ index res, NewWorkflow_index steps index = Ok res →
  NoDup (step_ID <$> steps) ∧ (∀ s, s ∈ steps → index !! step_ID s = None).
Proof.
  induction steps as [|s steps IH]; intros index res Hr; cbn in *; [split; [constructor|set_solver]|].
  destruct (index !! step_ID s) eqn:Hs; [done|]. destruct (IH _ _ Hr) as [Hnd Hin]. split.
  - apply NoDup_cons. split; [|done]. intros (s' & He & Hs')%list_elem_of_fmap. specialize (Hin s' Hs').
    rewrite <-He, lookup_insert_eq in Hin. done.
  - intros s' [->|Hs']%elem_of_cons; [done|]. specialize (Hin s' Hs'). by apply lookup_insert_None in Hin as [? _].
Qed.

Lemma role_requirements_from steps s : NoDup (ss_ID <$> steps) → ∀ m,
  let res := foldl add_roles m steps in
  ((∀ spec, spec ∈ steps → ss_ID spec ≠ s) → res !! s = m !! s) ∧
  (∀ spec, spec ∈ steps → ss_ID spec = s → m !! s = None → default [] (res !! s) = ss_AllowedRoles spec).
Proof.
  induction steps as [|spec steps IH]; intros Hnd m res; [split; [done|set_solver]|].
  cbn [fmap list_fmap] in Hnd. apply NoDup_cons in Hnd as [Hnin Hnd]. cbn [foldl] in res.
  destruct (IH Hnd (add_roles m spec)) as [IH1 IH2].
  assert (Ha : ∀ s', add_roles m spec !! s' = if decide (ss_AllowedRoles spec = []) then m !! s' else if decide (ss_ID spec = s') then Some (ss_AllowedRoles spec) else m !! s').
  { intros s'. unfold add_roles. repeat case_decide; subst; [done|by rewrite lookup_insert_eq|by rewrite lookup_insert_ne]. }
  split.
  - intros Hno. unfold res. rewrite IH1 by (intros; apply Hno; by right).
    rewrite Ha. rewrite (decide_False (P := ss_ID spec = s)) by (apply Hno; by left). by case_decide.
  - intros spec' [->|Hin]%elem_of_cons Hs Hm.
    + assert (Hno : ∀ spec', spec' ∈ steps → ss_ID spec' ≠ s).
      { intros spec' Hin He. apply Hnin, list_elem_of_fmap. exists spec'. split; [congruence|done]. }
      unfold res. rewrite (IH1 Hno), Ha, (decide_True (P := ss_ID spec = s)) by done. case_decide as Hr; [by rewrite Hm, Hr|done].
    + apply IH2; [done..|]. rewrite Ha, (decide_False (P := ss_ID spec = s)); [by case_decide|]. intros He. apply Hnin, list_elem_of_fmap.
      exists spec'. split; [congruence|done].
Qed.

(** Whether the manifest lets a caller with these roles run the step. *)
Definition may_run (m : PolicyManifest) (s : StepID) (roles : list string) : Prop :=
  ∀ spec, spec ∈ pm_Steps m → ss_ID spec = s → ss_AllowedRoles spec = [] ∨
    ∃ ar, ar ∈ ss_AllowedRoles spec ∧ (ar = "*"%string ∨ ∃ cr, cr ∈ roles ∧ (cr = ar ∨ cr = "Admin"%string)).

Lemma role_authorized_exact allowed roles : role_authorized allowed roles = true ↔
  ∃ ar, ar ∈ allowed ∧ (ar = "*"%string ∨ ∃ cr, cr ∈ roles ∧ (cr = ar ∨ cr = "Admin"%string)).
Proof.
  unfold role_authorized. rewrite existsb_elem_of. unfold role_matches.
  split; intros (ar & Har & H); exists ar; (split; [done|]).
  - apply orb_true_iff in H as [H|H]; [left; by apply bool_decide_eq_true in H|right].
    apply existsb_elem_of in H as (cr & Hcr & H). exists cr. split; [done|].
    apply orb_true_iff in H as [H|H]; apply bool_decide_eq_true in H; auto.
  - apply orb_true_iff. destruct H as [->|(cr & Hcr & H)]; [by left|right]. apply existsb_elem_of. exists cr. split; [done|].
    apply orb_true_iff. rewrite !bool_decide_eq_true. done.
Qed.

Lemma compiled_roles m gate cp s roles : CompilePolicy m gate = Ok cp →
  let allowedRoles := default [] (cp_roleRequirements cp !! s) in
  (allowedRoles = [] ∨ role_authorized allowedRoles roles = true) ↔ may_run m s roles.
Proof.
  unfold CompilePolicy. destruct (check_tier m gate); [done|]. destruct (sort_rules _ _ _) as [[sr rr]|]; [|done].
  unfold NewWorkflow. destruct (NewWorkflow_index _ _) as [index|] eqn:Hi; [|done]. intros [= <-]. cbn [cp_roleRequirements].
  apply NewWorkflow_index_NoDup in Hi as [Hnd _]. rewrite <-list_fmap_compose in Hnd. change (step_ID ∘ to_step) with ss_ID in Hnd.
  destruct (role_requirements_from _ s Hnd ∅) as [Hno Hsome]. fold (role_requirements (pm_Steps m)) in Hno, Hsome.
  unfold may_run. destruct (decide (Exists (λ spec, ss_ID spec = s) (pm_Steps m))) as [Hex|Hnex].
  - apply Exists_exists in Hex as (spec & Hin & He). rewrite (Hsome spec Hin He) by apply lookup_empty. split.
    + intros Ha spec' Hin' He'. assert (spec' = spec) as ->.
      { apply list_elem_of_lookup in Hin as [i Hi], Hin' as [j Hj].
        assert (i = j) as <-; [|congruence]. eapply (NoDup_lookup _ _ _ s Hnd); rewrite list_lookup_fmap; [rewrite Hi|rewrite Hj]; cbn; congruence. }
      destruct Ha as [Ha|Ha]; [by left|right]. by apply role_authorized_exact.
    + intros Ha. destruct (Ha spec Hin He) as [|H]; [by left|right]. by apply role_authorized_exact.
  - rewrite Hno; [|intros spec Hin He; apply Hnex, Exists_exists; by exists spec]. rewrite lookup_empty. split; [|by left].
    intros _ spec Hin He. exfalso. apply Hnex, Exists_exists. by exists spec.
Qed.

Lemma fold_left_foldl {A B} (f : A → B → A) l : ∀ a, fold_left f l a = foldl f a l.
Proof. induction l as [|x l IH]; intros a; [done|]. apply IH. Qed.

Section gate.
Context (hash : string → string) (reason_text : Reason → string).

(** C5: for a policy compiled from a manifest, whatever checks and checked commits
    other callers make on the trace between its check and its commit (a bare [Commit]
    excluded, which no barrier guards), a step is allowed exactly if the manifest lets
    one of the caller's roles run it and the barrier allows it; then, and only then,
    it is committed, and the trace stays one that the barrier reaches.  Each verdict
    leaves one event with that verdict in a log that is open and whose signer, if it
    has one, does not fail; only a step that the policy does not know gives none. *)
Theorem policy_is_a_gate m gate cp s roles actor tenant workspace ops uuid now t (r : MemoryAuditRecorder) :
  CompilePolicy m gate = Ok cp → reachable_trace (cp_Workflow cp) t → Forall gated ops → ar_closed r = false →
  (∀ sign text, ar_signer r = Some sign → is_Some (sign text)) →
  let w := cp_Workflow cp in
  let t1 := foldl (apply_op w) t ops in
  let '(res, t', sink) := EvaluateAndCommit hash reason_text cp s roles actor tenant workspace (λ t, foldl (apply_op w) t ops) uuid now t (Some r) in
  reachable_trace w t' ∧
  match res with
  | Ok eval =>
      (er_Allowed eval = true ↔ may_run m s roles ∧ allowed w (t_Holds t) s) ∧
      (er_Decision eval = DecisionDeny ↔ ¬ may_run m s roles) ∧
      (if er_Allowed eval then er_Decision eval = DecisionAllow ∧ t_Executed t' = t_Executed t1 ++ [s] else t' = t1) ∧
      ∃ r' ev, sink = Some r' ∧ ar_events r' = ar_events r ++ [ev] ∧ ae_Decision ev = er_Decision eval ∧ ae_Action ev = s ∧ ae_ActorID ev = actor
  | Err err => err = ErrUnknownStep s ∧ may_run m s roles ∧ t' = t1 ∧ sink = Some r
  end.
Proof.
  intros Hcp Hreach Hops Hclosed Hsigner w t1.
  assert (Hr1 : reachable_trace w t1).
  { unfold t1. clear -Hreach Hops. revert t Hreach. induction Hops as [|op ops Hop _ IH]; intros t Ht; [done|]. cbn [foldl]. apply IH.
    eapply rtc_r; [exact Ht|by constructor]. }
  pose proof (compiled_roles m gate cp s roles Hcp) as Hroles. cbv zeta in Hroles.
  unfold EvaluateAndCommit, Evaluate. set (ar := default [] _) in *.
  assert (Hlog : ∀ eval, ∃ r' ev, Some (Record hash uuid now (policy_event reason_text cp eval actor tenant workspace) r).2 = Some r' ∧
    ar_events r' = ar_events r ++ [ev] ∧ ae_Decision ev = er_Decision eval ∧ ae_Action ev = er_StepID eval ∧ ae_ActorID ev = actor).
  { intros eval. unfold Record. rewrite Hclosed. cbv zeta. destruct (ar_signer r) as [sign|] eqn:Hs.
    - edestruct (Hsigner sign) as [sig Hsig]; [done|]. rewrite Hsig. cbn. eexists _, _. split; [reflexivity|]. by split_and!.
    - eexists _, _. split; [reflexivity|]. by split_and!. }
  destruct (negb (bool_decide (ar = [])) && negb (role_authorized ar roles)) eqn:Hdeny.
  { apply andb_true_iff in Hdeny as [He Ha]. apply negb_true_iff in He, Ha. apply bool_decide_eq_false in He.
    assert (Hno : ¬ may_run m s roles) by (rewrite <-Hroles; intros [|]; congruence).
    cbn [er_Allowed]. split; [exact Hr1|]. split_and!; [split; [done|by intros []]|done|done|exact (Hlog _)]. }
  assert (Hmay : may_run m s roles).
  { apply Hroles. apply andb_false_iff in Hdeny as [H|H]; apply negb_false_iff in H; [left; by apply bool_decide_eq_true in H|by right]. }
  destruct (CheckSafety (cp_Workflow cp) t s) as [err|] eqn:Hchk.
  { assert (Hna : ¬ allowed w (t_Holds t) s) by (intros Ha%checkSafety_None; unfold w, CheckSafety in *; congruence).
    destruct (checkSafety_Some _ _ _ _ Hchk) as [[-> _]|(v & -> & _)]; [by split_and!|].
    cbn [er_Allowed]. split; [exact Hr1|]. split_and!; [split; [done|by intros [_ ?]]|split; [done|intros H; by destruct (H Hmay)]|done|exact (Hlog _)]. }
  assert (Hal : allowed w (t_Holds t) s) by (by apply checkSafety_None).
  assert (Hal1 : allowed w (t_Holds t1) s).
  { apply checkSafety_None. unfold t1. rewrite <-fold_left_foldl. by apply passed_check_is_stable. }
  cbn [er_Allowed]. fold w. fold t1. assert (Hstep : trace_step w t1 (CheckAndCommit w t1 s).2) by exact (trace_step_op w t1 (OpCheckAndCommit s) (gated_cac s)).
  destruct (CheckAndCommit w t1 s) as [e t2] eqn:Hcac. pose proof Hcac as Hc. apply checkAndCommitLocked_cases in Hc as [_ [(-> & _ & Hex & _)|(_ & Hn & _)]]; [|done].
  split; [eapply rtc_r; [exact Hr1|exact Hstep]|]. split_and!; [done|split; [done|intros H; by destruct (H Hmay)]|done|exact (Hlog _)].
Qed.
End gate.

(** ** A policy for the database of the README, and findings *)

Definition ex_manifest : PolicyManifest := mkManifest "db" TierPro
  [mkRuleSpec "no-drop-without-backup" RuleKindPrecedence "prod_db_dropped" "backup_validated" EmptyString]
  [mkStepSpec "take_backup" [] ["backup_taken"] ["User"]; mkStepSpec "validate_backup" ["backup_taken"] ["backup_validated"] ["*"];
   mkStepSpec "drop_prod_db" [] ["prod_db_dropped"] ["Admin"]]%string.
Definition ex_policy : CompiledPolicy :=
  match CompilePolicy ex_manifest (Some (NewFeatureGate TierPro [])) with Ok cp => cp | Err _ => mkPolicy ex_manifest (mkWorkflow ∅ [] []) ∅ end.
Definition plain_text (r : Reason) : string := match r with MsgRoles _ _ _ => "roles" | MsgViolation _ => "violation" | MsgMet => "met" end.
Definition ex_call (s : StepID) (roles : list string) (t : Trace) (r : MemoryAuditRecorder) :=
  EvaluateAndCommit toy_hash plain_text ex_policy s roles "agent" "acme" "ops" (λ t, t) "id" 1 t (Some r).

Lemma policy_is_a_gate_witness :
  let '(res, t, _) := ex_call "drop_prod_db" ["User"] NewTrace (NewMemoryAuditRecorder None) in
  reachable_trace (cp_Workflow ex_policy) t ∧ match res with Ok eval => er_Decision eval = DecisionDeny | Err _ => False end.
Proof.
  pose proof (policy_is_a_gate toy_hash plain_text ex_manifest (Some (NewFeatureGate TierPro [])) ex_policy "drop_prod_db" ["User"%string] "agent" "acme" "ops" []
    "id" 1 NewTrace (NewMemoryAuditRecorder None) ltac:(vm_compute; reflexivity) ltac:(apply rtc_refl) ltac:(constructor) eq_refl ltac:(by intros)) as H.
  unfold ex_call. cbn [foldl] in H.
  assert (Hno : ¬ may_run ex_manifest "drop_prod_db" ["User"%string]).
  { intros Hm. destruct (Hm (mkStepSpec "drop_prod_db" [] ["prod_db_dropped"] ["Admin"])%string) as [He|(ar & Har & H')]; [right; right; by left|done|done|].
    apply list_elem_of_singleton in Har as ->. destruct H' as [H'|(cr & Hcr & H')]; [done|]. apply list_elem_of_singleton in Hcr as ->. by destruct H'. }
  destruct (EvaluateAndCommit _ _ _ _ _ _ _ _ _ _ _ _ _) as [[res t] sink]. destruct H as [Hr H]. split; [exact Hr|].
  destruct res as [eval|err]; [|by destruct H as (_ & H & _)]. destruct H as (_ & H & _). by apply H.
Defined.

(** A step that is blocked by a policy is not counted: each attempt says it is the
    zeroth, and the trace does not see that the agent tries again. *)
Example blocked_attempts_uncounted :
  let '(_, t, _) := ex_call "validate_backup" ["User"] NewTrace (NewMemoryAuditRecorder None) in
  let '(res, _, _) := ex_call "validate_backup" ["User"] t (NewMemoryAuditRecorder None) in
  match res with Ok eval => er_Decision eval = DecisionViolation ∧ (v_Attempts <$> er_Violation eval) = Some 0%Z | Err _ => False end ∧
  match CheckAndCommit (cp_Workflow ex_policy) (CheckAndCommit (cp_Workflow ex_policy) NewTrace "validate_backup").2 "validate_backup" with
  | (Some (ErrViolation v), _) => v_Attempts v = 2%Z | _ => False end.
Proof. vm_compute. by split_and!. Qed.

(** A closed log takes no event, and the step is committed all the same. *)
Example unlogged_commit :
  let '(res, t, sink) := ex_call "take_backup" ["User"] NewTrace (Close (NewMemoryAuditRecorder None)) in
  match res with Ok eval => er_Allowed eval = true | Err _ => False end ∧ t_Executed t = ["take_backup"%string] ∧ Count <$> sink = Some 0.
Proof. vm_compute. by split_and!. Qed.

(** A tier that is not known has no capabilities, but a policy without a tier of its
    own is compiled for it. *)
Example unknown_tier_compiles :
  is_ok (CompilePolicy (mkManifest "db" EmptyString [] []) (Some (NewFeatureGate "gold" []))) = true ∧
  Allows (NewFeatureGate "gold" []) CapPolicyAsCode = false.
Proof. by vm_compute. Qed.
