(* ===== verification/Gateway.v ===== *)
(** * governance/gateway.go and workspace.go: callers, their limits and quotas

    Tokens name identities; each tenant has a bucket of tokens that refills with time,
    in IEEE doubles as the code computes them; tenants have workspaces up to a quota. *)

From Stdlib Require Import SpecFloat.
From stdpp Require Import gmap.
From S2P Require Import Prelude Verify AuditLog Governance.

(** ** gateway.go *)

Record GatewayIdentity := mkIdentity { gi_CallerID : string; gi_TenantID : string; gi_WorkspaceID : string; gi_Tier : Tier; gi_Roles : list string }.

Definition PriorityWeight (tier : Tier) : Z :=
  (if decide (tier = TierHosted) then 20 else if decide (tier = TierEnterprise) then 10 else if decide (tier = TierPro) then 5 else 1)%Z.

Definition RegisterToken (token : string) (identity : GatewayIdentity) (tokens : gmap string GatewayIdentity) : gmap string GatewayIdentity :=
  <[token := identity]> tokens.
(** [None] is [ErrInvalidGatewayToken]. *)
Definition Authenticate (tokens : gmap string GatewayIdentity) (token : string) : option GatewayIdentity := tokens !! token.

(** *** Doubles *)

Local Abbreviation float64 := spec_float.
Definition fadd : float64 → float64 → float64 := SFadd 53 1024.
Definition fsub : float64 → float64 → float64 := SFsub 53 1024.
Definition fmul : float64 → float64 → float64 := SFmul 53 1024.
Definition fdiv : float64 → float64 → float64 := SFdiv 53 1024.
Definition float_of (z : Z) : float64 := binary_normalize 53 1024 z 0 false.
(** A duration in nanoseconds; [Seconds] and the conversion of a double to an integer
    that is in range. *)
Definition Second : Z := 1000000000.
Definition Seconds (d : Z) : float64 := fadd (float_of (Z.quot d Second)) (fdiv (float_of (Z.rem d Second)) (float_of Second)).
Definition trunc (f : float64) : Z :=
  match f with
  | S754_finite s m e => let v := if (0 <=? e)%Z then Z.shiftl (Zpos m) e else Z.shiftr (Zpos m) (- e) in if s then (- v)%Z else v
  | _ => 0%Z
  end.

(** *** The limiter *)

Record bucket := mkBucket { bk_tokens : float64; bk_capacity : float64; bk_refillRate : float64; bk_lastRefill : Z }.
Record TierRateLimiter := mkLimiter { rl_buckets : gmap string bucket; rl_lastSweep : Z }.

Definition maxBuckets : nat := 50000.
Definition bucketIdleTTL : Z := (60 * Second)%Z.
Definition overflowKey : string := String (Ascii.ascii_of_nat 0) "overflow".
(** The zero time is far before any reading of the clock. *)
Definition NewTierRateLimiter : TierRateLimiter := mkLimiter ∅ (-62135596800 * Second)%Z.

Definition sweepLocked (now : Z) (rl : TierRateLimiter) : TierRateLimiter :=
  if (now - rl_lastSweep rl <? 10 * Second)%Z then rl
  else mkLimiter (filter (λ kb, ¬ (bucketIdleTTL < now - bk_lastRefill kb.2)%Z) (rl_buckets rl)) now.

Definition rates (tier : Tier) : Z * Z :=
  (if decide (tier = TierPro) then (100, 200)
  else if decide (tier = TierEnterprise) then (1000, 2000)
  else if decide (tier = TierHosted) then (5000, 10000)
  else (10, 20))%Z.
Definition full_bucket (tier : Tier) (now : Z) : bucket :=
  let '(rate, capacity) := rates tier in mkBucket (float_of capacity) (float_of capacity) (float_of rate) now.

(** The key of the bucket and the bucket. *)
Definition new_bucket (key : string) (tier : Tier) (now : Z) (rl : TierRateLimiter) : string * bucket * TierRateLimiter :=
  let b := full_bucket tier now in (key, b, mkLimiter (<[key := b]> (rl_buckets rl)) (rl_lastSweep rl)).
Definition getBucketLocked (now : Z) (tenantID : string) (tier : Tier) (rl : TierRateLimiter) : string * bucket * TierRateLimiter :=
  match rl_buckets rl !! tenantID with
  | Some b => (tenantID, b, rl)
  | None =>
      if decide (maxBuckets ≤ size (rl_buckets rl))
      then
        let rl := sweepLocked now rl in
        if decide (maxBuckets ≤ size (rl_buckets rl))
        then match rl_buckets rl !! overflowKey with
             | Some b => (overflowKey, b, rl)
             | None => new_bucket overflowKey tier now rl
             end
        else new_bucket tenantID tier now rl
      else new_bucket tenantID tier now rl
  end.

(** One reading of the clock for a call; the answer and the time to wait. *)
Definition refilled (now : Z) (b : bucket) : float64 :=
  let tokens := fadd (bk_tokens b) (fmul (Seconds (now - bk_lastRefill b)%Z) (bk_refillRate b)) in
  if SFltb (bk_capacity b) tokens then bk_capacity b else tokens.
Definition Allow (now : Z) (identity : GatewayIdentity) (rl : TierRateLimiter) : bool * Z * TierRateLimiter :=
  let '(key, b, rl) := getBucketLocked now (gi_TenantID identity) (gi_Tier identity) rl in
  let tokens := refilled now b in
  let put t := mkLimiter (<[key := mkBucket t (bk_capacity b) (bk_refillRate b) now]> (rl_buckets rl)) (rl_lastSweep rl) in
  if SFleb (float_of 1) tokens then (true, 0%Z, put (fsub tokens (float_of 1)))
  else (false, trunc (fmul (fdiv (fsub (float_of 1) tokens) (bk_refillRate b)) (float_of Second)), put tokens).

(** ** workspace.go *)

Record Tenant := mkTenant { tn_ID : string; tn_Name : string; tn_Tier : Tier; tn_MaxWorkspaces : Z; tn_MaxAgents : Z; tn_CreatedAt : Z }.
Record Workspace := mkWorkspace { ws_ID : string; ws_TenantID : string; ws_Name : string; ws_CreatedAt : Z }.
Record MemoryWorkspaceManager := mkManager { mm_tenants : gmap string Tenant; mm_workspaces : gmap string Workspace }.
Definition NewMemoryWorkspaceManager : MemoryWorkspaceManager := mkManager ∅ ∅.

Inductive workspace_error := ErrTenantNotFound | ErrWorkspaceNotFound | ErrQuotaExceeded (limit : Z).

Definition quotas (tier : Tier) : Z * Z :=
  (if decide (tier = TierPro) then (10, 50) else if decide (tier = TierEnterprise ∨ tier = TierHosted) then (1000, 10000) else (1, 5))%Z.
(** The UUID and the clock that a call draws come first. *)
Definition CreateTenant (uuid : string) (now : Z) (name : string) (tier : Tier) (m : MemoryWorkspaceManager) : Tenant * MemoryWorkspaceManager :=
  let '(maxWorkspaces, maxAgents) := quotas tier in
  let t := mkTenant uuid name tier maxWorkspaces maxAgents now in
  (t, mkManager (<[uuid := t]> (mm_tenants m)) (mm_workspaces m)).
Definition GetTenant (id : string) (m : MemoryWorkspaceManager) : result workspace_error Tenant :=
  match mm_tenants m !! id with Some t => Ok t | None => Err ErrTenantNotFound end.
Definition workspaces_of (tenantID : string) (m : MemoryWorkspaceManager) : gmap string Workspace :=
  filter (λ kw, ws_TenantID kw.2 = tenantID) (mm_workspaces m).
Definition CreateWorkspace (uuid : string) (now : Z) (tenantID name : string) (m : MemoryWorkspaceManager) : result workspace_error Workspace * MemoryWorkspaceManager :=
  match mm_tenants m !! tenantID with
  | None => (Err ErrTenantNotFound, m)
  | Some tenant =>
      if decide (tn_MaxWorkspaces tenant ≤ Z.of_nat (size (workspaces_of tenantID m)))%Z
      then (Err (ErrQuotaExceeded (tn_MaxWorkspaces tenant)), m)
      else let ws := mkWorkspace uuid tenantID name now in (Ok ws, mkManager (mm_tenants m) (<[uuid := ws]> (mm_workspaces m)))
  end.
Definition GetWorkspace (id : string) (m : MemoryWorkspaceManager) : result workspace_error Workspace :=
  match mm_workspaces m !! id with Some w => Ok w | None => Err ErrWorkspaceNotFound end.
(** The order is that of the map's range. *)
Definition ListWorkspaces (tenantID : string) (m : MemoryWorkspaceManager) : list Workspace := (map_to_list (workspaces_of tenantID m)).*2.
Definition ValidateQuota (tenantID resourceType : string) (currentCount : Z) (m : MemoryWorkspaceManager) : option workspace_error :=
  match mm_tenants m !! tenantID with
  | None => Some ErrTenantNotFound
  | Some tenant =>
      if decide (resourceType = "workspaces"%string)
      then if decide (tn_MaxWorkspaces tenant ≤ currentCount)%Z then Some (ErrQuotaExceeded (tn_MaxWorkspaces tenant)) else None
      else if decide (resourceType = "agents"%string)
      then if decide (tn_MaxAgents tenant ≤ currentCount)%Z then Some (ErrQuotaExceeded (tn_MaxAgents tenant)) else None
      else None
  end.

(** ** The limiter stays small *)

Lemma sweep_small now rl : size (rl_buckets (sweepLocked now rl)) ≤ size (rl_buckets rl).
Proof. unfold sweepLocked. destruct (_ <? _)%Z; [done|]. cbn [rl_buckets]. apply map_size_filter. Qed.

#[local] Opaque maxBuckets.

(** What is not the shared bucket of an overflow. *)
Definition own_buckets (rl : TierRateLimiter) : gmap string bucket := base.delete overflowKey (rl_buckets rl).

Lemma own_small rl : size (rl_buckets rl) ≤ maxBuckets → size (own_buckets rl) ≤ maxBuckets.
Proof. intros Hs. unfold own_buckets. etrans; [|exact Hs]. apply map_subseteq_size, delete_subseteq. Qed.

Lemma own_insert_overflow rl b sweep : own_buckets (mkLimiter (<[overflowKey := b]> (rl_buckets rl)) sweep) = own_buckets rl.
Proof. unfold own_buckets. apply delete_insert_eq. Qed.

Lemma own_insert rl key b sweep : size (rl_buckets rl) < maxBuckets →
  size (own_buckets (mkLimiter (<[key := b]> (rl_buckets rl)) sweep)) ≤ maxBuckets.
Proof.
  intros Hs. apply own_small. cbn [rl_buckets]. rewrite map_size_insert. destruct (rl_buckets rl !! key); cbn; lia.
Qed.

Lemma own_sweep now rl : size (own_buckets rl) ≤ maxBuckets → size (own_buckets (sweepLocked now rl)) ≤ maxBuckets.
Proof.
  unfold sweepLocked. destruct (_ <? _)%Z; [done|]. intros Hs. etrans; [|exact Hs]. unfold own_buckets. cbn [rl_buckets].
  apply map_subseteq_size, delete_mono, map_filter_subseteq.
Qed.

Lemma getBucket_small now tenant tier rl : size (own_buckets rl) ≤ maxBuckets →
  let '(key, b, rl') := getBucketLocked now tenant tier rl in
  size (own_buckets rl') ≤ maxBuckets ∧ rl_buckets rl' !! key = Some b ∧ (key = tenant ∨ key = overflowKey).
Proof.
  intros Hs. unfold getBucketLocked, new_bucket. destruct (rl_buckets rl !! tenant) eqn:E; [by split_and!; auto|].
  case_decide as Hfull; [case_decide as Hfull'; [destruct (rl_buckets (sweepLocked now rl) !! overflowKey) as [b|] eqn:E2|]|].
  - split_and!; [by apply own_sweep|done|by right].
  - split_and!; [rewrite own_insert_overflow; by apply own_sweep|apply lookup_insert_eq|by right].
  - split_and!; [apply own_insert; lia|apply lookup_insert_eq|by left].
  - split_and!; [apply own_insert; lia|apply lookup_insert_eq|by left].
Qed.

Lemma Allow_small now identity rl : size (own_buckets rl) ≤ maxBuckets → size (own_buckets (Allow now identity rl).2) ≤ maxBuckets.
Proof.
  intros Hs. unfold Allow. pose proof (getBucket_small now (gi_TenantID identity) (gi_Tier identity) rl Hs) as H.
  destruct (getBucketLocked _ _ _ _) as [[key b] rl']. destruct H as (Hs' & Hk & _).
  assert (Hput : ∀ b', size (own_buckets (mkLimiter (<[key := b']> (rl_buckets rl')) (rl_lastSweep rl'))) ≤ maxBuckets).
  { intros b'. destruct (decide (key = overflowKey)) as [->|Hne]; [by rewrite own_insert_overflow|].
    unfold own_buckets in *. cbn [rl_buckets]. rewrite delete_insert_ne, map_size_insert by done.
    by rewrite lookup_delete_ne, Hk by done. }
  destruct (SFleb _ _); apply Hput.
Qed.

(** A history of requests with the clock at each. *)
Definition requests (calls : list (Z * GatewayIdentity)) (rl : TierRateLimiter) : TierRateLimiter :=
  foldl (λ rl c, (Allow c.1 c.2 rl).2) rl calls.

(** C39: however many tenants send requests, at whatever times, the limiter never
    holds more than 50,000 buckets and the one that an overflow shares; and a tenant
    that has a bucket is answered from it. *)
Theorem limiter_bounded calls : size (rl_buckets (requests calls NewTierRateLimiter)) ≤ S maxBuckets ∧
  ∀ now tenant tier b, rl_buckets (requests calls NewTierRateLimiter) !! tenant = Some b →
    getBucketLocked now tenant tier (requests calls NewTierRateLimiter) = (tenant, b, requests calls NewTierRateLimiter).
Proof.
  split; [|intros now tenant tier b Hb; unfold getBucketLocked; by rewrite Hb].
  assert (Hown : size (own_buckets (requests calls NewTierRateLimiter)) ≤ maxBuckets).
  { unfold requests. assert (H0 : size (own_buckets NewTierRateLimiter) ≤ maxBuckets) by (apply own_small; cbn [NewTierRateLimiter rl_buckets]; rewrite map_size_empty; lia).
    revert H0. generalize NewTierRateLimiter. induction calls as [|c calls IH]; intros rl Hs; [done|]. cbn [foldl]. by apply IH, Allow_small. }
  revert Hown. unfold own_buckets. set (m := rl_buckets _). rewrite map_size_delete. destruct (m !! overflowKey); cbn; lia.
Qed.

(** ** Quotas hold *)

Inductive workspace_op := WTenant (uuid : string) (now : Z) (name : string) (tier : Tier) | WWorkspace (uuid : string) (now : Z) (tenantID name : string).
Definition workspace_step (m : MemoryWorkspaceManager) (op : workspace_op) : MemoryWorkspaceManager :=
  match op with
  | WTenant uuid now name tier => (CreateTenant uuid now name tier m).2
  | WWorkspace uuid now tenantID name => (CreateWorkspace uuid now tenantID name m).2
  end.
Definition tenant_draws (ops : list workspace_op) : list string := omap (λ op, match op with WTenant uuid _ _ _ => Some uuid | _ => None end) ops.

Definition within_quota (m : MemoryWorkspaceManager) : Prop :=
  (∀ id t, mm_tenants m !! id = Some t → (Z.of_nat (size (workspaces_of id m)) ≤ tn_MaxWorkspaces t)%Z) ∧
  (∀ id w, mm_workspaces m !! id = Some w → is_Some (mm_tenants m !! ws_TenantID w)).

Lemma workspaces_insert uuid ws tenant m : (Z.of_nat (size (workspaces_of tenant (mkManager (mm_tenants m) (<[uuid := ws]> (mm_workspaces m)))))
  ≤ Z.of_nat (size (workspaces_of tenant m)) + if decide (ws_TenantID ws = tenant) then 1 else 0)%Z.
Proof.
  unfold workspaces_of. cbn [mm_workspaces]. case_decide as Ht.
  - rewrite map_filter_insert_True by done. rewrite map_size_insert. destruct (_ !! uuid); cbn; lia.
  - rewrite map_filter_insert_False by done. pose proof (map_subseteq_size (filter (λ kw : string * Workspace, ws_TenantID kw.2 = tenant) (base.delete uuid (mm_workspaces m)))
      (filter (λ kw : string * Workspace, ws_TenantID kw.2 = tenant) (mm_workspaces m))) as H.
    rewrite Z.add_0_r. apply Nat2Z.inj_le, H, map_filter_subseteq_mono, delete_subseteq.
Qed.

(** At every time each tenant has at most as many workspaces as its tier grants, if
    the UUIDs of tenants differ. *)
Theorem quota_kept ops : NoDup (tenant_draws ops) → within_quota (foldl workspace_step NewMemoryWorkspaceManager ops).
Proof.
  assert (Hgen : ∀ m, within_quota m → NoDup (tenant_draws ops) → (∀ id, id ∈ tenant_draws ops → mm_tenants m !! id = None) →
    within_quota (foldl workspace_step m ops)).
  { induction ops as [|op ops IH]; intros m [Hq He] Hnd Hfresh; [done|]. cbn [foldl]. destruct op as [uuid now name tier|uuid now tenant name].
    - cbn [tenant_draws omap list_omap] in Hnd, Hfresh. apply NoDup_cons in Hnd as [Hnin Hnd]. fold (tenant_draws ops) in *. apply IH; [|done|].
      + cbn [workspace_step]. unfold CreateTenant. destruct (quotas tier) as [mw ma] eqn:Hqt. cbn. split; cbn [mm_tenants mm_workspaces].
        * intros id t [[<- <-]|[Hne Ht]]%lookup_insert_Some; [|by apply (Hq id)].
          assert (workspaces_of uuid m = ∅) as Hemp.
          { apply map_empty. intros k. apply map_lookup_filter_None. right. intros w Hw Hid. cbn in Hid. destruct (He k w Hw) as [t Ht]. rewrite Hid, Hfresh in Ht; [done|by left]. }
          unfold workspaces_of in *. cbn [mm_workspaces]. rewrite Hemp, map_size_empty. cbn. unfold quotas in Hqt. repeat case_decide; simplify_eq; lia.
        * intros id w Hw. destruct (He id w Hw) as [t Ht]. destruct (decide (ws_TenantID w = uuid)) as [->|Hne]; [by rewrite lookup_insert_eq|].
          by rewrite lookup_insert_ne by done.
      + cbn [workspace_step]. unfold CreateTenant. destruct (quotas tier). cbn. intros id Hid. rewrite lookup_insert_ne by (intros ->; done).
        apply Hfresh. by right.
    - cbn [tenant_draws omap list_omap] in Hnd, Hfresh. fold (tenant_draws ops) in *. cbn [workspace_step]. unfold CreateWorkspace.
      destruct (mm_tenants m !! tenant) as [t|] eqn:Ht; [|by apply IH].
      case_decide as Hfull; [by apply IH|]. cbn [snd]. apply IH; [|done|done]. split; cbn [mm_tenants mm_workspaces].
      + intros id t' Ht'. pose proof (workspaces_insert uuid (mkWorkspace uuid tenant name now) id m) as Hi. cbn [ws_TenantID] in Hi.
        case_decide as Heq; [assert (t' = t) as -> by congruence; rewrite Heq in Hfull; lia|]. specialize (Hq id t' Ht'). lia.
      + intros id w [[<- <-]|[_ Hw]]%lookup_insert_Some; [by exists t|by eapply He]. }
  intros Hnd. apply Hgen; [|done|done]. split; [intros id t Ht|intros id w Hw]; exfalso; [apply (lookup_empty_Some _ _ Ht)|apply (lookup_empty_Some _ _ Hw)].
Qed.

(** ** Runs and findings *)

Definition ex_identity (tier : Tier) : GatewayIdentity := mkIdentity "caller" "acme" "ops" tier [].
Fixpoint admitted (n : nat) (now : Z) (identity : GatewayIdentity) (rl : TierRateLimiter) : nat * TierRateLimiter :=
  match n with
  | 0 => (0, rl)
  | S n => let '(ok, _, rl) := Allow now identity rl in let '(k, rl) := admitted n now identity rl in ((if ok then 1 else 0) + k, rl)
  end.

(** A burst gets the capacity of the tier, and after a tenth of a second a tenth of
    its rate. *)
Example bursts :
  (admitted 40 0 (ex_identity "core") NewTierRateLimiter).1 = 20 ∧
  (admitted 400 0 (ex_identity "pro") NewTierRateLimiter).1 = 200 ∧
  (admitted 40 (Second / 10)%Z (ex_identity "pro") (admitted 400 0 (ex_identity "pro") NewTierRateLimiter).2).1 = 10.
Proof. by vm_compute. Qed.

(** A bucket keeps the rate of the tier it was made for: a tenant that moves from the
    free tier to pro, even after an hour, is still held to 20 requests at once. *)
Example upgrade_keeps_the_old_rate :
  (admitted 400 (3600 * Second)%Z (ex_identity "pro") (admitted 1 0 (ex_identity "core") NewTierRateLimiter).2).1 = 20.
Proof. by vm_compute. Qed.
