(* ===== verification/Billing.v ===== *)
(** * governance/billing.go: subscriptions and the events of the payment provider

    A webhook is an authentic event of the provider that changes a subscription and
    the tier of the server's gate, once.  JSON, HMAC-SHA256, UUIDs, the calendar and
    [strings.TrimSpace] are arguments; a time is its nanoseconds. *)

From Stdlib Require Import Ascii.
From stdpp Require Import gmap pretty.
From S2P Require Import Prelude Wp Verify AuditLog Governance.

Definition SubStatus := string.
Definition SubStatusActive : SubStatus := "active".
Definition SubStatusTrialing : SubStatus := "trialing".
Definition SubStatusPastDue : SubStatus := "past_due".
Definition SubStatusCanceled : SubStatus := "canceled".

Record Subscription := mkSubscription {
  sub_ID : string;
  sub_TenantID : string;
  sub_CustomerID : string;
  sub_PlanTier : Tier;
  sub_Status : SubStatus;
  sub_CurrentPeriodStart : Z;
  sub_CurrentPeriodEnd : Z;
  sub_CreatedAt : Z;
  sub_UpdatedAt : Z;
}.
Definition with_status (st : SubStatus) (now : Z) (s : Subscription) : Subscription :=
  mkSubscription (sub_ID s) (sub_TenantID s) (sub_CustomerID s) (sub_PlanTier s) st (sub_CurrentPeriodStart s) (sub_CurrentPeriodEnd s) (sub_CreatedAt s) now.
Definition with_plan (customer : string) (tier : Tier) (s : Subscription) : Subscription :=
  mkSubscription (sub_ID s) (sub_TenantID s) customer tier (sub_Status s) (sub_CurrentPeriodStart s) (sub_CurrentPeriodEnd s) (sub_CreatedAt s) (sub_UpdatedAt s).

(** ** Readiness *)

Record StripeConfig := mkConfig {
  st_SecretKey : string;
  st_WebhookSecret : string;
  st_ProPriceID : string;
  st_EnterprisePriceID : string;
  st_SuccessURL : string;
  st_CancelURL : string;
  st_Simulate : bool;
}.
Definition placeholderProPriceID : string := "price_joltrin_pro_monthly".
Definition placeholderEnterprisePriceID : string := "price_joltrin_enterprise_annual".

Record TierCheckout := mkCheckout { tc_Available : bool; tc_Mode : string; tc_Missing : list string }.
Record BillingReadiness := mkReadiness { br_Mode : string; br_Pro : TierCheckout; br_Enterprise : TierCheckout }.

Definition isAbsoluteURL (u : string) : bool := String.prefix "https://" u || String.prefix "http://" u.
Definition is_live (cfg : StripeConfig) : bool := negb (bool_decide (st_SecretKey cfg = EmptyString)) && negb (st_Simulate cfg).
Definition missing_pro (cfg : StripeConfig) : list string :=
  (if negb (bool_decide (st_ProPriceID cfg = EmptyString)) && negb (bool_decide (st_ProPriceID cfg = placeholderProPriceID)) then [] else ["STRIPE_PRO_PRICE_ID"%string]) ++
  (if decide (st_WebhookSecret cfg = EmptyString) then ["STRIPE_WEBHOOK_SECRET"%string] else []) ++
  (if isAbsoluteURL (st_SuccessURL cfg) then [] else ["STRIPE_SUCCESS_URL"%string]) ++
  (if isAbsoluteURL (st_CancelURL cfg) then [] else ["STRIPE_CANCEL_URL"%string]).
Definition checkout_of (missing : list string) : TierCheckout :=
  if decide (missing = []) then mkCheckout true "stripe" [] else mkCheckout false "unavailable" missing.
Definition AssessBilling (cfg : StripeConfig) : BillingReadiness :=
  let live := is_live cfg in
  let hasEnt := negb (bool_decide (st_EnterprisePriceID cfg = EmptyString)) && negb (bool_decide (st_EnterprisePriceID cfg = placeholderEnterprisePriceID)) in
  mkReadiness (if live then "live" else "simulated")
    (if live then checkout_of (missing_pro cfg) else mkCheckout true "simulated" [])
    (if negb hasEnt then mkCheckout false "contact_sales" []
     else if negb live then mkCheckout true "simulated" []
     else checkout_of (filter (λ m, m ≠ "STRIPE_PRO_PRICE_ID"%string) (missing_pro cfg))).

(** ** The signature of a webhook *)

Inductive billing_error :=
| ErrNoSecret | ErrInvalidWebhookSignature | ErrStripeTimestampExpired | ErrWebhookNotConfigured | ErrDecode
| ErrDuplicateWebhookEvent (id : string) | ErrPersistEvent | ErrPersistSubscription | ErrPersistCustomer.

(** [strings.Split] by one character, and the cut at its first occurrence. *)
Fixpoint split_on (c : ascii) (s : string) : list string :=
  match s with
  | EmptyString => [EmptyString]
  | String a s =>
      if decide (a = c) then EmptyString :: split_on c s
      else match split_on c s with p :: ps => String a p :: ps | [] => [String a EmptyString] end
  end.
Fixpoint cut_first (c : ascii) (s : string) : option (string * string) :=
  match s with
  | EmptyString => None
  | String a s => if decide (a = c) then Some (EmptyString, s) else p ← cut_first c s; Some (String a p.1, p.2)
  end.

Definition digit_val (c : ascii) : option Z := let n := byte_of c in if (48 <=? n)%Z && (n <=? 57)%Z then Some (n - 48)%Z else None.
Fixpoint digits (acc : Z) (s : string) : option Z :=
  match s with EmptyString => Some acc | String c s => d ← digit_val c; digits (10 * acc + d) s end.
(** [strconv.ParseInt(val, 10, 64)]: digits after a sign, in range. *)
Definition ParseInt (s : string) : option Z :=
  let unsigned s := match s with EmptyString => None | _ => digits 0 s end in
  v ← match s with
      | EmptyString => None
      | String c rest =>
          if decide (c = "-"%char) then v ← unsigned rest; Some (- v)%Z
          else if decide (c = "+"%char) then unsigned rest else unsigned s
      end;
  if (- 2 ^ 63 <=? v)%Z && (v <? 2 ^ 63)%Z then Some v else None.

Definition hex_val (c : ascii) : option Z :=
  let n := byte_of c in
  if (48 <=? n)%Z && (n <=? 57)%Z then Some (n - 48)%Z
  else if (97 <=? n)%Z && (n <=? 102)%Z then Some (n - 87)%Z
  else if (65 <=? n)%Z && (n <=? 70)%Z then Some (n - 55)%Z else None.
(** [hex.DecodeString] *)
Fixpoint hex_decode (s : string) : option (list Z) :=
  match s with
  | EmptyString => Some []
  | String a (String b s) => x ← hex_val a; y ← hex_val b; rest ← hex_decode s; Some (16 * x + y :: rest)%Z
  | String _ EmptyString => None
  end.

Section billing.
Context (TrimSpace : string → string) (hmac : string → string → list Z).

(** The loop over the pairs of the header. *)
Fixpoint header_pairs (pairs : list string) (timestamp : Z) (signatures : list (list Z)) : Z * list (list Z) :=
  match pairs with
  | [] => (timestamp, signatures)
  | part :: pairs =>
      match cut_first "=" (TrimSpace part) with
      | None => header_pairs pairs timestamp signatures
      | Some (key, val) =>
          if decide (key = "t"%string) then header_pairs pairs (default timestamp (ParseInt val)) signatures
          else if decide (key = "v1"%string) then header_pairs pairs timestamp (match hex_decode val with Some sig => signatures ++ [sig] | None => signatures end)
          else header_pairs pairs timestamp signatures
      end
  end.

(** [nowUnix] is the clock in seconds, [tolerance] nanoseconds; the product with a
    second wraps around. *)
Definition age (nowUnix timestamp : Z) : Z :=
  let diff := wrap_s 64 (nowUnix - timestamp) in if (diff <? 0)%Z then wrap_s 64 (- diff) else diff.
Definition VerifyStripeSignature (payload sigHeader secret : string) (tolerance nowUnix : Z) : option billing_error :=
  if decide (secret = EmptyString) then Some ErrNoSecret
  else if decide (sigHeader = EmptyString) then Some ErrInvalidWebhookSignature
  else
    let tolerance := (if tolerance <=? 0 then 300 * 1000000000 else tolerance)%Z in
    let '(timestamp, signatures) := header_pairs (split_on "," sigHeader) (-1) [] in
    if decide (timestamp = -1)%Z then Some ErrInvalidWebhookSignature
    else if decide (signatures = []) then Some ErrInvalidWebhookSignature
    else if (tolerance <? wrap_s 64 (age nowUnix timestamp * 1000000000))%Z then Some ErrStripeTimestampExpired
    else if decide (hmac secret (pretty timestamp +:+ "." +:+ payload) ∈ signatures) then None
    else Some ErrInvalidWebhookSignature.

(** ** The service *)

(** A decoded JSON value, as far as the handler looks into it. *)
Inductive any := VString (s : string) | VMap (fields : list (string * any)) | VOther.
Definition field (obj : list (string * any)) (name : string) : option any :=
  (λ p : nat * (string * any), p.2.2) <$> list_find (λ p : string * any, p.1 = name) obj.
Definition str_field (obj : list (string * any)) (name : string) : string :=
  match field obj name with Some (VString s) => s | _ => EmptyString end.
Definition meta_field (obj : list (string * any)) (name : string) : string :=
  match field obj "metadata" with Some (VMap meta) => str_field meta name | _ => EmptyString end.

Record StripeWebhookEvent := mkWebhookEvent { wh_ID : string; wh_Type : string; wh_Object : option (list (string * any)) }.

(** The durable store, and which of its next writes fail. *)
Record BillingStore := mkStore {
  bs_subscriptions : gmap string Subscription;
  bs_customers : gmap string string;
  bs_events : gmap string Z;
  bs_fail_events : bool;
  bs_fail_subscriptions : bool;
  bs_fail_customers : bool;
}.
Record DefaultBillingService := mkService {
  sv_cfg : StripeConfig;
  sv_gate : option FeatureGate;
  sv_store : option BillingStore;
  sv_subscriptions : gmap string Subscription;
  sv_customerMap : gmap string string;
  sv_processedEvents : gmap string Z;
}.
Definition set_gate (g : option FeatureGate) (s : DefaultBillingService) := mkService (sv_cfg s) g (sv_store s) (sv_subscriptions s) (sv_customerMap s) (sv_processedEvents s).
Definition set_store (st : option BillingStore) (s : DefaultBillingService) := mkService (sv_cfg s) (sv_gate s) st (sv_subscriptions s) (sv_customerMap s) (sv_processedEvents s).
Definition set_subscriptions (m : gmap string Subscription) (s : DefaultBillingService) := mkService (sv_cfg s) (sv_gate s) (sv_store s) m (sv_customerMap s) (sv_processedEvents s).
Definition set_customers (m : gmap string string) (s : DefaultBillingService) := mkService (sv_cfg s) (sv_gate s) (sv_store s) (sv_subscriptions s) m (sv_processedEvents s).
Definition set_processed (m : gmap string Z) (s : DefaultBillingService) := mkService (sv_cfg s) (sv_gate s) (sv_store s) (sv_subscriptions s) (sv_customerMap s) m.

(** The maps are those of the store, as far as they can be read; all of it can. *)
Definition NewDefaultBillingService (cfg : StripeConfig) (gate : option FeatureGate) (store : option BillingStore) : DefaultBillingService :=
  let cfg := mkConfig (st_SecretKey cfg) (st_WebhookSecret cfg)
    (if decide (st_ProPriceID cfg = EmptyString) then placeholderProPriceID else st_ProPriceID cfg)
    (if decide (st_EnterprisePriceID cfg = EmptyString) then placeholderEnterprisePriceID else st_EnterprisePriceID cfg)
    (st_SuccessURL cfg) (st_CancelURL cfg) (if decide (st_SecretKey cfg = EmptyString) then true else st_Simulate cfg) in
  match store with
  | None => mkService cfg gate None ∅ ∅ ∅
  | Some st => mkService cfg gate store (bs_subscriptions st) (bs_customers st) (bs_events st)
  end.

(** The calls of the store write through. *)
Local Abbreviation B := (M DefaultBillingService billing_error).
Definition MarkProcessedEvent (id : string) (at_ : Z) : B () := λ s,
  match sv_store s with
  | None => (Ret (), s)
  | Some st =>
      if bs_fail_events st then (Fail ErrPersistEvent, s)
      else (Ret (), set_store (Some (mkStore (bs_subscriptions st) (bs_customers st) (<[id := at_]> (bs_events st)) (bs_fail_events st) (bs_fail_subscriptions st) (bs_fail_customers st))) s)
  end.
Definition PutSubscription (sub : Subscription) : B () := λ s,
  match sv_store s with
  | None => (Ret (), s)
  | Some st =>
      if bs_fail_subscriptions st then (Fail ErrPersistSubscription, s)
      else (Ret (), set_store (Some (mkStore (<[sub_TenantID sub := sub]> (bs_subscriptions st)) (bs_customers st) (bs_events st) (bs_fail_events st) (bs_fail_subscriptions st) (bs_fail_customers st))) s)
  end.
Definition PutCustomerTenant (customer tenant : string) : B () := λ s,
  match sv_store s with
  | None => (Ret (), s)
  | Some st =>
      if bs_fail_customers st then (Fail ErrPersistCustomer, s)
      else (Ret (), set_store (Some (mkStore (bs_subscriptions st) (<[customer := tenant]> (bs_customers st)) (bs_events st) (bs_fail_events st) (bs_fail_subscriptions st) (bs_fail_customers st))) s)
  end.

Definition gate_tier (tier : Tier) : B () := modify (λ s, set_gate (SetTier tier <$> sv_gate s) s).
Definition put_subscription (tenant : string) (sub : Subscription) : B () := modify (λ s, set_subscriptions (<[tenant := sub]> (sv_subscriptions s)) s).
Definition or_default (s d : string) : string := if decide (s = EmptyString) then d else s.

(** The handlers answer with the tenant and the customer they touched. *)
Definition checkout_completed (AddMonth : Z → Z) (uuid : string) (now : Z) (obj : list (string * any)) : B (string * string) :=
  let tenantID := or_default (str_field obj "client_reference_id") (or_default (meta_field obj "tenant_id") "default") in
  let targetTier := or_default (meta_field obj "tier") TierPro in
  let subID := or_default (str_field obj "subscription") ("sub_" +:+ slice 0 8 uuid) in
  let customerID := str_field obj "customer" in
  put_subscription tenantID (mkSubscription subID tenantID customerID targetTier SubStatusActive now (AddMonth now) now now);;
  (if decide (customerID = EmptyString) then mret () else modify (λ s, set_customers (<[customerID := tenantID]> (sv_customerMap s)) s));;
  gate_tier targetTier;;
  mret (tenantID, customerID).

Definition status_of (statusStr : string) : SubStatus :=
  if decide (statusStr = "past_due"%string) then SubStatusPastDue
  else if decide (statusStr = "canceled"%string) then SubStatusCanceled
  else if decide (statusStr = "trialing"%string) then SubStatusTrialing
  else SubStatusActive.
Definition subscription_updated (now : Z) (obj : list (string * any)) : B (string * string) :=
  customers ← gets sv_customerMap;
  let customerID := str_field obj "customer" in
  let tenantID := or_default (default EmptyString ((customers : gmap string string) !! customerID)) (or_default (meta_field obj "tenant_id") "default") in
  let targetTier := or_default (meta_field obj "tier") TierPro in
  let status := status_of (str_field obj "status") in
  subs ← gets sv_subscriptions;
  let existing := default (mkSubscription (str_field obj "id") tenantID EmptyString EmptyString EmptyString 0 0 now 0) ((subs : gmap string Subscription) !! tenantID) in
  put_subscription tenantID (with_status status now (with_plan customerID targetTier existing));;
  (if decide (status = SubStatusActive ∨ status = SubStatusTrialing) then gate_tier targetTier
   else if decide (status = SubStatusCanceled) then gate_tier TierCore else mret ());;
  mret (tenantID, customerID).

Definition subscription_deleted (now : Z) (obj : list (string * any)) : B (string * string) :=
  customers ← gets sv_customerMap;
  let tenantID := or_default (default EmptyString ((customers : gmap string string) !! str_field obj "customer")) "default" in
  subs ← gets sv_subscriptions;
  affected ← match (subs : gmap string Subscription) !! tenantID with
             | Some sub => put_subscription tenantID (with_status SubStatusCanceled now sub);; mret tenantID
             | None => mret EmptyString
             end;
  gate_tier TierCore;;
  mret (affected, EmptyString).

(** A paid or a failed invoice. *)
Definition invoice_event (status : SubStatus) (paid : bool) (now : Z) (obj : list (string * any)) : B (string * string) :=
  customers ← gets sv_customerMap;
  let tenantID := default EmptyString ((customers : gmap string string) !! str_field obj "customer") in
  if decide (tenantID = EmptyString) then mret (EmptyString, EmptyString)
  else
    subs ← gets sv_subscriptions;
    match (subs : gmap string Subscription) !! tenantID with
    | Some sub =>
        put_subscription tenantID (with_status status now sub);;
        (if paid then gate_tier (sub_PlanTier sub) else mret ());;
        mret (tenantID, EmptyString)
    | None => mret (EmptyString, EmptyString)
    end.

Definition apply_event (AddMonth : Z → Z) (uuid : string) (now : Z) (type : string) (obj : list (string * any)) : B (string * string) :=
  if decide (type = "checkout.session.completed"%string) then checkout_completed AddMonth uuid now obj
  else if decide (type = "customer.subscription.created"%string ∨ type = "customer.subscription.updated"%string) then subscription_updated now obj
  else if decide (type = "customer.subscription.deleted"%string) then subscription_deleted now obj
  else if decide (type = "invoice.payment_succeeded"%string) then invoice_event SubStatusActive true now obj
  else if decide (type = "invoice.payment_failed"%string) then invoice_event SubStatusPastDue false now obj
  else mret (EmptyString, EmptyString).

Definition persist (affected : string * string) : B () :=
  if decide (affected.1 = EmptyString) then mret ()
  else
    subs ← gets sv_subscriptions;
    match (subs : gmap string Subscription) !! affected.1 with Some sub => PutSubscription sub | None => mret () end;;
    if decide (affected.2 = EmptyString) then mret () else PutCustomerTenant affected.2 affected.1.

Definition day : Z := (24 * 3600 * 1000000000)%Z.
Definition maxProcessed : nat := 5000.
Definition forget_old (now : Z) (m : gmap string Z) : gmap string Z :=
  if decide (maxProcessed < size m) then filter (λ p : string * Z, ¬ (p.2 < now - day)%Z) m else m.

(** What comes before the handlers: is the event authentic, can it be read, is it
    new. *)
Definition check_signature (payload sigHeader : string) (now : Z) (cfg : StripeConfig) : option billing_error :=
  if decide (st_WebhookSecret cfg = EmptyString)
  then if is_live cfg then Some ErrWebhookNotConfigured else None
  else VerifyStripeSignature payload sigHeader (st_WebhookSecret cfg) (300 * 1000000000) (now / 1000000000).

(** One reading of the clock, in nanoseconds, stands for those of the call. *)
Definition HandleWebhook (Unmarshal : string → option StripeWebhookEvent) (AddMonth : Z → Z) (uuid : string) (now : Z) (payload sigHeader : string) : B StripeWebhookEvent :=
  cfg ← gets sv_cfg;
  match check_signature payload sigHeader now cfg with
  | Some err => fail err
  | None =>
      match Unmarshal payload with
      | None => fail ErrDecode
      | Some ev =>
          processed ← gets sv_processedEvents;
          match (processed : gmap string Z) !! wh_ID ev with
          | Some _ => fail (ErrDuplicateWebhookEvent (wh_ID ev))
          | None =>
              modify (λ s, set_processed (<[wh_ID ev := now]> (sv_processedEvents s)) s);;
              MarkProcessedEvent (wh_ID ev) now;;
              modify (λ s, set_processed (forget_old now (sv_processedEvents s)) s);;
              match wh_Object ev with
              | None => mret ev
              | Some obj =>
                  affected ← apply_event AddMonth uuid now (wh_Type ev) obj;
                  persist affected;;
                  mret ev
              end
          end
      end
  end.

Definition GetSubscription (AddYears100 : Z → Z) (now : Z) (tenantID : string) (s : DefaultBillingService) : Subscription :=
  let tenantID := or_default tenantID "default" in
  default (mkSubscription "sub_core_implicit" tenantID EmptyString TierCore SubStatusActive now (AddYears100 now) 0 0) (sv_subscriptions s !! tenantID).

Definition SetSubscription (sub : Subscription) : B () :=
  put_subscription (sub_TenantID sub) sub;;
  (if decide (sub_CustomerID sub = EmptyString) then mret () else modify (λ s, set_customers (<[sub_CustomerID sub := sub_TenantID sub]> (sv_customerMap s)) s));;
  PutSubscription sub;;
  (if decide (sub_CustomerID sub = EmptyString) then mret () else PutCustomerTenant (sub_CustomerID sub) (sub_TenantID sub));;
  if decide (sub_Status sub = SubStatusActive) then gate_tier (sub_PlanTier sub) else mret ().
End billing.

(** ** An event takes effect once, and only if it is authentic *)

Record webhook_call := mkCall { wc_uuid : string; wc_now : Z; wc_payload : string; wc_sigHeader : string }.

Section webhooks.
Context (TrimSpace : string → string) (hmac : string → string → list Z).
Context (Unmarshal : string → option StripeWebhookEvent) (AddMonth : Z → Z).

Local Abbreviation handle_call c := (HandleWebhook TrimSpace hmac Unmarshal AddMonth (wc_uuid c) (wc_now c) (wc_payload c) (wc_sigHeader c)).

(** The header has the keyed hash of its time and the payload among its signatures, and
    the time is no more than 300 seconds off the clock, or as many years (292) that
    the nanoseconds between the two do not fit into an int64. *)
Definition authentic (secret : string) (c : webhook_call) : Prop :=
  let '(timestamp, signatures) := header_pairs TrimSpace (split_on "," (wc_sigHeader c)) (-1) [] in
  hmac secret (pretty timestamp +:+ "." +:+ wc_payload c) ∈ signatures ∧
  let off := Z.abs (wc_now c / 1000000000 - timestamp) in (off ≤ 300 ∨ 2 ^ 63 ≤ off * 1000000000)%Z.

(** The event that a call brings, if it gets to the handlers. *)
Definition admits (s : DefaultBillingService) (c : webhook_call) : option StripeWebhookEvent :=
  match check_signature TrimSpace hmac (wc_payload c) (wc_sigHeader c) (wc_now c) (sv_cfg s) with
  | Some _ => None
  | None => ev ← Unmarshal (wc_payload c); if decide (sv_processedEvents s !! wh_ID ev = None) then Some ev else None
  end.

Lemma age_in_bounds now timestamp : (wrap_s 64 (age now timestamp * 1000000000) ≤ 300 * 1000000000)%Z →
  (Z.abs (now - timestamp) ≤ 300 ∨ 2 ^ 63 ≤ Z.abs (now - timestamp) * 1000000000)%Z.
Proof.
  intros Hage. destruct (decide (2 ^ 63 ≤ Z.abs (now - timestamp) * 1000000000)%Z) as [|Hs]; [by right|left].
  assert (He : age now timestamp = Z.abs (now - timestamp)).
  { unfold age. rewrite (wrap_s_id 64) by (unfold in_s; lia). destruct (_ <? 0)%Z eqn:Hneg;
      [apply Z.ltb_lt in Hneg; rewrite (wrap_s_id 64) by (unfold in_s; lia)|apply Z.ltb_ge in Hneg]; lia. }
  rewrite He, (wrap_s_id 64) in Hage by (unfold in_s; lia). lia.
Qed.

Lemma check_signature_authentic c cfg : is_live cfg = true →
  check_signature TrimSpace hmac (wc_payload c) (wc_sigHeader c) (wc_now c) cfg = None →
  st_WebhookSecret cfg ≠ EmptyString ∧ authentic (st_WebhookSecret cfg) c.
Proof.
  intros Hlive. unfold check_signature. case_decide as Hs; [by rewrite Hlive|]. unfold VerifyStripeSignature, authentic.
  rewrite decide_False by done. case_decide; [done|]. cbn zeta.
  change ((if 300 * 1000000000 <=? 0 then 300 * 1000000000 else 300 * 1000000000)%Z) with (300 * 1000000000)%Z.
  destruct (header_pairs TrimSpace (split_on "," (wc_sigHeader c)) (-1) []) as [ts sigs].
  do 2 (case_decide; [done|]). destruct (_ <? _)%Z eqn:Hage; [done|]. apply Z.ltb_ge, age_in_bounds in Hage.
  by case_decide.
Qed.

(** What the handlers leave alone. *)
Definition same_books (s s' : DefaultBillingService) : Prop := sv_cfg s' = sv_cfg s ∧ sv_processedEvents s' = sv_processedEvents s.
#[global] Instance same_books_preorder : PreOrder same_books.
Proof. split; [by split|]. intros s1 s2 s3 [? ?] [? ?]. split; congruence. Qed.

Definition quiet {A} (m : M DefaultBillingService billing_error A) : Prop :=
  ∀ s, wp m s (λ _ s', same_books s s') (λ _ s', same_books s s').
Lemma quiet_ret {A} (a : A) : quiet (mret a).
Proof. intros s. by apply wp_ret. Qed.
Lemma quiet_gets {A} (f : DefaultBillingService → A) : quiet (gets f).
Proof. intros s. by apply wp_gets. Qed.
Lemma quiet_modify (f : DefaultBillingService → DefaultBillingService) : (∀ s, same_books s (f s)) → quiet (modify f).
Proof. intros Hf s. apply wp_modify. apply Hf. Qed.
Lemma quiet_bind {A C} (m : M DefaultBillingService billing_error A) (k : A → M DefaultBillingService billing_error C) :
  quiet m → (∀ a, quiet (k a)) → quiet (m ≫= k).
Proof.
  intros Hm Hk s. apply wp_bind. eapply wp_mono; [apply Hm| |done].
  intros a s' Hs. eapply wp_mono; [apply Hk| |]; intros x s'' Hs'; exact (transitivity Hs Hs').
Qed.
Ltac books := repeat (first [ apply quiet_bind | apply quiet_ret | apply quiet_gets | apply quiet_modify; by intros | match goal with |- ∀ _, quiet _ => intro end | case_decide | case_match ]).

Lemma store_calls_quiet : (∀ id at_, quiet (MarkProcessedEvent id at_)) ∧ (∀ sub, quiet (PutSubscription sub)) ∧
  (∀ cu te, quiet (PutCustomerTenant cu te)).
Proof.
  split_and!; intros; intros s; unfold wp, MarkProcessedEvent, PutSubscription, PutCustomerTenant; destruct (sv_store s) as [st|]; [|done| |done| |done].
  - by destruct (bs_fail_events st).
  - by destruct (bs_fail_subscriptions st).
  - by destruct (bs_fail_customers st).
Qed.

Lemma apply_event_quiet uuid now type obj : quiet (apply_event AddMonth uuid now type obj).
Proof.
  unfold apply_event, checkout_completed, subscription_updated, subscription_deleted, invoice_event, gate_tier, put_subscription. books.
Qed.
Lemma persist_quiet affected : quiet (persist affected).
Proof. destruct store_calls_quiet as (_ & H1 & H2). unfold persist. books; auto. Qed.

(** A call that brings no event changes nothing. *)
Lemma refused_call c s : admits s c = None → ∃ err, handle_call c s = (Fail err, s).
Proof.
  unfold admits, HandleWebhook. intros Ha. erewrite bind_Ret by reflexivity. destruct (check_signature _ _ _ _ _ _); [by eexists|].
  destruct (Unmarshal (wc_payload c)) as [ev|]; [|by eexists]. cbn in Ha. erewrite bind_Ret by reflexivity.
  case_decide as Hp; [done|]. destruct (sv_processedEvents s !! wh_ID ev); [by eexists|done].
Qed.

(** One that brings an event notes it, and forgets only what is older than a day. *)
Lemma admitted_call c s ev : admits s c = Some ev →
  let s' := (handle_call c s).2 in
  sv_cfg s' = sv_cfg s ∧ sv_processedEvents s !! wh_ID ev = None ∧
  ∀ id t, <[wh_ID ev := wc_now c]> (sv_processedEvents s) !! id = Some t → (wc_now c - day ≤ t)%Z → sv_processedEvents s' !! id = Some t.
Proof.
  intros Ha s'. unfold admits in Ha. destruct (check_signature _ _ _ _ _ _) eqn:Hc; [done|].
  destruct (Unmarshal (wc_payload c)) as [ev'|] eqn:Hu; [|done]. cbn in Ha. case_decide as Hp; [|done]. injection Ha as ->.
  assert (Hw : wp (handle_call c) s (λ _ s', sv_cfg s' = sv_cfg s ∧ ∀ id t, <[wh_ID ev := wc_now c]> (sv_processedEvents s) !! id = Some t → (wc_now c - day ≤ t)%Z → sv_processedEvents s' !! id = Some t)
    (λ _ s', sv_cfg s' = sv_cfg s ∧ ∀ id t, <[wh_ID ev := wc_now c]> (sv_processedEvents s) !! id = Some t → (wc_now c - day ≤ t)%Z → sv_processedEvents s' !! id = Some t)).
  { unfold HandleWebhook. apply wp_bind, wp_gets. rewrite Hc, Hu. apply wp_bind, wp_gets. rewrite Hp.
    apply wp_bind, wp_modify. apply wp_bind. destruct store_calls_quiet as (H1 & _).
    eapply wp_mono; [apply H1| |]; [|intros e s1 [Hcfg Hpr]; cbn in Hpr; split; [done|]; intros id t Ht _; by rewrite Hpr].
    intros _ s1 [Hcfg Hpr]. cbn in Hcfg, Hpr. apply wp_bind, wp_modify.
    assert (Hforget : ∀ id t, <[wh_ID ev := wc_now c]> (sv_processedEvents s) !! id = Some t → (wc_now c - day ≤ t)%Z → forget_old (wc_now c) (sv_processedEvents s1) !! id = Some t).
    { intros id t Ht Hd. unfold forget_old. rewrite Hpr. case_decide; [|done]. apply map_lookup_filter_Some. split; [done|]. cbn. lia. }
    destruct (wh_Object ev) as [obj|]; [|apply wp_ret; split; [exact Hcfg|exact Hforget]].
    apply wp_bind. eapply wp_mono; [apply apply_event_quiet| |].
    - intros affected s2 [Hc2 Hp2]. cbn in Hc2, Hp2. apply wp_bind. eapply wp_mono; [apply persist_quiet| |].
      + intros _ s3 [Hc3 Hp3]. apply wp_ret. split; [congruence|]. intros id t Ht Hd. rewrite Hp3, Hp2. by apply Hforget.
      + intros e s3 [Hc3 Hp3]. split; [congruence|]. intros id t Ht Hd. rewrite Hp3, Hp2. by apply Hforget.
    - intros e s2 [Hc2 Hp2]. cbn in Hc2, Hp2. split; [congruence|]. intros id t Ht Hd. rewrite Hp2. by apply Hforget. }
  unfold s'. unfold wp in Hw. destruct (handle_call c s) as [[r|e|] s2]; [| |done]; destruct Hw as [H1 H2]; by split_and!.
Qed.

(** The calls in turn: what each of them brings, and the state in the end. *)
Fixpoint webhooks (calls : list webhook_call) (s : DefaultBillingService) : list (option StripeWebhookEvent) * DefaultBillingService :=
  match calls with
  | [] => ([], s)
  | c :: calls => let '(evs, s') := webhooks calls (handle_call c s).2 in (admits s c :: evs, s')
  end.
Definition brought (evs : list (option StripeWebhookEvent)) : list string := wh_ID <$> omap (λ o, o) evs.

Lemma webhooks_fresh t0 calls : ∀ s, (∀ c, c ∈ calls → (t0 ≤ wc_now c ≤ t0 + day)%Z) →
  NoDup (brought (webhooks calls s).1) ∧
  ∀ id t, sv_processedEvents s !! id = Some t → (t0 ≤ t)%Z → id ∉ brought (webhooks calls s).1.
Proof.
  induction calls as [|c calls IH]; intros s Hw; [split; [constructor|intros; apply not_elem_of_nil]|].
  cbn [webhooks]. specialize (IH (handle_call c s).2 ltac:(intros c' Hc'; apply Hw; by right)).
  destruct (webhooks calls (handle_call c s).2) as [evs s2] eqn:E. cbn [fst] in *. destruct IH as [Hnd Hold].
  destruct (admits s c) as [ev|] eqn:Ha.
  - destruct (admitted_call c s ev Ha) as (_ & Hnew & Hkept). specialize (Hw c ltac:(by left)). unfold brought. cbn [omap list_omap fmap list_fmap]. split.
    + apply NoDup_cons. split; [|exact Hnd]. apply (Hold _ (wc_now c)); [|lia]. apply Hkept; [by rewrite lookup_insert_eq|unfold day; lia].
    + intros id t Hid Ht [->|Hin]%elem_of_cons; [congruence|]. revert Hin. apply (Hold _ t); [|done].
      apply Hkept; [|lia]. rewrite lookup_insert_ne; [done|congruence].
  - destruct (refused_call c s Ha) as [err Hr]. rewrite Hr in Hold. split; [exact Hnd|exact Hold].
Qed.

Lemma webhooks_cfg calls : ∀ s, sv_cfg (webhooks calls s).2 = sv_cfg s.
Proof.
  induction calls as [|c calls IH]; intros s; [done|]. cbn [webhooks]. specialize (IH (handle_call c s).2).
  destruct (webhooks calls _) as [evs s2]. cbn [snd] in *. rewrite IH. destruct (admits s c) as [ev|] eqn:Ha.
  - by destruct (admitted_call c s ev Ha) as (-> & _).
  - by destruct (refused_call c s Ha) as [err ->].
Qed.

Lemma webhooks_at calls : ∀ s i c, calls !! i = Some c → (webhooks calls s).1 !! i = Some (admits (webhooks (take i calls) s).2 c).
Proof.
  induction calls as [|c calls IH]; intros s i c' Hc; [done|]. cbn [webhooks].
  destruct (webhooks calls (handle_call c s).2) as [evs s2] eqn:E. destruct i as [|i]; cbn [lookup list_lookup fst] in *.
  - by injection Hc as ->.
  - specialize (IH (handle_call c s).2 i c' Hc). rewrite E in IH. cbn [fst] in IH.
    transitivity (evs !! i); [reflexivity|]. rewrite IH. cbn [take webhooks]. by destruct (webhooks (take i calls) (handle_call c s).2).
Qed.

(** C38: On a live deployment, over any webhook calls within a day, whatever they claim and however the store fails, an
    event takes effect at most once, and not at all if it was taken within that day before; it is one that the header
    authenticates by the webhook secret and a time that is no more than five minutes off the clock, or more than 292
    years, where the age wraps around; every other call fails and changes nothing. *)
Theorem webhooks_authentic_and_once t0 calls s :
  is_live (sv_cfg s) = true → (∀ c, c ∈ calls → (t0 ≤ wc_now c ≤ t0 + day)%Z) →
  let evs := (webhooks calls s).1 in
  NoDup (brought evs) ∧
  (∀ id t, sv_processedEvents s !! id = Some t → (t0 ≤ t)%Z → id ∉ brought evs) ∧
  (∀ i c, calls !! i = Some c → let before := (webhooks (take i calls) s).2 in
    match evs !! i with
    | Some (Some ev) => Unmarshal (wc_payload c) = Some ev ∧ st_WebhookSecret (sv_cfg s) ≠ EmptyString ∧ authentic (st_WebhookSecret (sv_cfg s)) c
    | _ => ∃ err, handle_call c before = (Fail err, before)
    end).
Proof.
  intros Hlive Hw evs. destruct (webhooks_fresh t0 calls s Hw) as [Hnd Hold]. split_and!; [done|done|].
  intros i c Hc before. unfold evs. rewrite (webhooks_at calls s i c Hc). fold before.
  destruct (admits before c) as [ev|] eqn:Ha; [|by apply refused_call].
  assert (Hcfg : sv_cfg before = sv_cfg s) by apply webhooks_cfg. unfold admits in Ha. rewrite Hcfg in Ha.
  destruct (check_signature _ _ _ _ _ _) eqn:Hsig; [done|]. destruct (Unmarshal (wc_payload c)) as [ev'|]; [|done]. cbn in Ha.
  case_decide; [|done]. injection Ha as ->. split; [done|]. by apply check_signature_authentic.
Qed.
End webhooks.

(** ** Runs and findings *)

Definition ex_hmac (secret text : string) : list Z := byte_of <$> String.list_ascii_of_string (slice 0 4 text).
Definition hex_digit (n : Z) : ascii := ascii_of_nat (Z.to_nat (if (n <? 10)%Z then n + 48 else n + 87)).
Fixpoint hex_text (bs : list Z) : string := match bs with [] => EmptyString | b :: bs => String (hex_digit (b / 16)) (String (hex_digit (b mod 16)) (hex_text bs)) end.
Definition ex_header (timestamp : Z) : string := "t=" +:+ pretty timestamp +:+ ",v1=" +:+ hex_text (ex_hmac "s" (pretty timestamp +:+ ".p")).
Definition ex_obj (tenant customer tier status : string) : list (string * any) :=
  [("client_reference_id", VString tenant); ("customer", VString customer); ("status", VString status); ("metadata", VMap [("tier", VString tier); ("tenant_id", VString tenant)])]%string.
Definition ex_Unmarshal (payload : string) : option StripeWebhookEvent :=
  if decide (payload = "buy"%string) then Some (mkWebhookEvent "evt_1" "checkout.session.completed" (Some (ex_obj "acme" "cus_a" "enterprise" "active")))
  else if decide (payload = "cancel other"%string) then Some (mkWebhookEvent "evt_2" "customer.subscription.deleted" (Some (ex_obj "other" "cus_o" "pro" "canceled")))
  else if decide (payload = "unpaid"%string) then Some (mkWebhookEvent "evt_3" "customer.subscription.created" (Some (ex_obj "acme" "cus_a" "enterprise" "incomplete")))
  else None.
Definition ex_cfg : StripeConfig := mkConfig "sk_live" "s" "price" EmptyString "https://x" "https://x" false.
Definition ex_store (fail_events : bool) : BillingStore := mkStore ∅ ∅ ∅ fail_events false false.
Definition ex_service (fail_events : bool) : DefaultBillingService := NewDefaultBillingService ex_cfg (Some (NewFeatureGate TierCore [])) (Some (ex_store fail_events)).
Definition ex_now : Z := (1700000000 * 1000000000)%Z.
Definition ex_webhook (payload : string) : webhook_call := mkCall "12345678-9" ex_now payload (ex_header 1700000000).
Local Abbreviation ex_handle c := (HandleWebhook id ex_hmac ex_Unmarshal (λ t, t + 30 * day)%Z (wc_uuid c) (wc_now c) (wc_payload c) (wc_sigHeader c)).
Definition gate_of (s : DefaultBillingService) : option Tier := fg_tier <$> sv_gate s.

Lemma webhooks_authentic_and_once_witness :
  brought (webhooks id ex_hmac ex_Unmarshal (λ t, t + 30 * day)%Z [ex_webhook "buy"; ex_webhook "buy"; mkCall "u" ex_now "buy" "t=1,v1=00"] (ex_service false)).1 = ["evt_1"%string] ∧
  NoDup (brought (webhooks id ex_hmac ex_Unmarshal (λ t, t + 30 * day)%Z [ex_webhook "buy"; ex_webhook "buy"; mkCall "u" ex_now "buy" "t=1,v1=00"] (ex_service false)).1).
Proof.
  split; [vm_compute; reflexivity|].
  apply (webhooks_authentic_and_once id ex_hmac ex_Unmarshal (λ t, t + 30 * day)%Z ex_now); [reflexivity|].
  intros c Hc. unfold ex_webhook in Hc. set_unfold in Hc. assert (wc_now c = ex_now) as -> by (destruct Hc as [->|[->|[->|[]]]]; reflexivity). unfold day. lia.
Defined.

(** The event is noted before the store takes it: when that write fails the provider
    is told of a failure, and when it sends the event again, that it is a duplicate.
    The customer who paid has no subscription. *)
Example failed_event_is_lost :
  let '(r1, s1) := ex_handle (ex_webhook "buy") (ex_service true) in
  let '(r2, s2) := ex_handle (ex_webhook "buy") s1 in
  r1 = Fail ErrPersistEvent ∧ r2 = Fail (ErrDuplicateWebhookEvent "evt_1") ∧ sv_subscriptions s2 = ∅ ∧ gate_of s2 = Some TierCore.
Proof. vm_compute. by split_and!. Qed.

(** There is one gate for all tenants: a customer that nobody knows ends its
    subscription and the server falls back to the free tier. *)
Example one_gate_for_all :
  let s1 := (ex_handle (ex_webhook "buy") (ex_service false)).2 in
  let s2 := (ex_handle (ex_webhook "cancel other") s1).2 in
  gate_of s1 = Some TierEnterprise ∧ gate_of s2 = Some TierCore ∧ (sub_Status <$> sv_subscriptions s2 !! "acme"%string) = Some SubStatusActive.
Proof. vm_compute. by split_and!. Qed.

(** A subscription whose first payment is not complete counts as active. *)
Example incomplete_is_active :
  let s1 := (ex_handle (ex_webhook "unpaid") (ex_service false)).2 in
  gate_of s1 = Some TierEnterprise ∧ (sub_Status <$> sv_subscriptions s1 !! "acme"%string) = Some SubStatusActive.
Proof. vm_compute. by split_and!. Qed.

(** What is read back from the store after a restart does not set the tier. *)
Example restart_forgets_the_tier :
  let s1 := (ex_handle (ex_webhook "buy") (ex_service false)).2 in
  let s2 := NewDefaultBillingService ex_cfg (Some (NewFeatureGate TierCore [])) (sv_store s1) in
  (sub_PlanTier <$> sv_subscriptions s2 !! "acme"%string) = Some TierEnterprise ∧ gate_of s2 = Some TierCore.
Proof. vm_compute. by split_and!. Qed.

(** The age of a signature in nanoseconds wraps around: one that is 584 years off is
    taken for one of this second. *)
Example age_wraps_around :
  VerifyStripeSignature id ex_hmac "p" (ex_header (1700000000 - 18446744074)) "s" (300 * 1000000000) 1700000000 = None ∧
  VerifyStripeSignature id ex_hmac "p" (ex_header (1700000000 - 301)) "s" (300 * 1000000000) 1700000000 = Some ErrStripeTimestampExpired.
Proof. by vm_compute. Qed.
