(* ===== verification/Rbac.v ===== *)
(** * rbac.go, rbac_registry.go, rbac_blueprint.go: who may do what to a resource

    The caller is a value of the context; a context without one has the zero caller. *)

From stdpp Require Import gmap.
From S2P Require Import Prelude.

(** Visibilities, roles and actions are strings. *)
Definition VisibilityPublic : string := "public".
Definition VisibilityPrivate : string := "private".
Definition VisibilitySystem : string := "system".
Definition RoleAdmin : string := "Admin".

Record ResourceAccess := mkAccess {
  ra_Visibility : string;
  ra_OwnerID : string;
  ra_Roles : gmap string (list string);
  ra_Users : gmap string (list string);
}.
Definition no_access : ResourceAccess := mkAccess EmptyString EmptyString ∅ ∅.

Abbreviation Action := string (only parsing).
Definition ActionRead : Action := "read".
Definition ActionWrite : Action := "write".
Definition ActionDelete : Action := "delete".
Definition ActionList : Action := "list".
Definition ActionAISelect : Action := "ai_select".

Record AuthContext := mkAuth { au_UserID : string; au_Roles : list string; au_IsSystem : bool }.
Definition GetAuthFromContext (ctx : option AuthContext) : AuthContext := default (mkAuth EmptyString [] false) ctx.
Definition ContextWithAuth (ctx : option AuthContext) (auth : AuthContext) : option AuthContext := Some auth.

(** The loop over the actions that a role or a user is granted. *)
Definition grants (allowedActions : option (list string)) (action : Action) : bool :=
  match allowedActions with
  | Some l => existsb (λ a, bool_decide (a = action) || bool_decide (a = "*"%string)) l
  | None => false
  end.

Definition Authorize (ctx : option AuthContext) (access : ResourceAccess) (action : Action) : bool :=
  let caller := GetAuthFromContext ctx in
  if decide (ra_Visibility access = VisibilitySystem) then au_IsSystem caller
  else if existsb (λ role, bool_decide (role = RoleAdmin)) (au_Roles caller) then true
  else if negb (bool_decide (ra_OwnerID access = EmptyString)) && bool_decide (au_UserID caller = ra_OwnerID access) then true
  else if (bool_decide (ra_Visibility access = VisibilityPublic) || bool_decide (ra_Visibility access = EmptyString)) &&
          (bool_decide (action = ActionRead) || bool_decide (action = ActionList)) then true
  else if existsb (λ role, grants (ra_Roles access !! role) action) (au_Roles caller) then true
  else grants (ra_Users access !! au_UserID caller) action.

Definition IsSystemReadOnly (resourceName : string) : bool := bool_decide (resourceName = "SOP"%string) || bool_decide (resourceName = "LongTermMemory"%string).

Inductive policy_error := ErrSystemReadOnly | ErrUnauthorized.
#[export] Instance policy_error_dec : EqDecision policy_error.
Proof. solve_decision. Defined.

Definition CheckPolicy (ctx : option AuthContext) (resourceName : string) (access : ResourceAccess) (action : Action) : option policy_error :=
  if IsSystemReadOnly resourceName && (bool_decide (action = ActionWrite) || bool_decide (action = ActionDelete)) then Some ErrSystemReadOnly
  else if negb (Authorize ctx access action) then Some ErrUnauthorized
  else None.
Definition EnforcePolicy (ctx : option AuthContext) (resourceName : string) (access : ResourceAccess) (action : Action) : option policy_error :=
  CheckPolicy ctx resourceName access action.
Definition CanPerformAction (ctx : option AuthContext) (resourceName : string) (access : ResourceAccess) (action : Action) : bool :=
  bool_decide (CheckPolicy ctx resourceName access action = None).

(** ** The registry of assets and what a UI is shown *)

Record EntitlementContext := mkEntitlement { en_AssetID : string; en_Database : string; en_IsSystemDB : bool; en_UserRole : string; en_UserID : string }.
Record AssetBlueprint := mkBlueprint {
  bp_AssetType : string;
  bp_Description : string;
  bp_Endpoints : list string;
  bp_Actions : list Action;
  bp_Evaluator : option (option AuthContext → EntitlementContext → Action → bool);
}.

Definition RegisterAssetRBAC (blueprint : AssetBlueprint) (m : gmap string AssetBlueprint) : gmap string AssetBlueprint := <[bp_AssetType blueprint := blueprint]> m.
Definition GetAssetBlueprint (assetType : string) (m : gmap string AssetBlueprint) : option AssetBlueprint := m !! assetType.
Definition GetAllBlueprints (m : gmap string AssetBlueprint) : gmap string AssetBlueprint := m.

Definition ActionToUICapability (action : Action) : string :=
  if decide (action = ActionRead) then "can_read"
  else if decide (action = ActionWrite) then "can_edit"
  else if decide (action = ActionDelete) then "can_delete"
  else if decide (action = ActionAISelect) then "can_ai_select"
  else action.

Definition ResolveRBACMap (systemRBACMap : gmap string AssetBlueprint) (ctx : option AuthContext) (assetType : string) (entitlementCtx : EntitlementContext)
    (getLocalAccess : option ResourceAccess) : gmap string bool :=
  match GetAssetBlueprint assetType systemRBACMap with
  | None => ∅
  | Some bp =>
      let localAccess := default no_access getLocalAccess in
      foldl (λ capabilities action,
        <[ActionToUICapability action := match bp_Evaluator bp with
                                         | Some evaluator => evaluator ctx entitlementCtx action
                                         | None => CanPerformAction ctx (en_AssetID entitlementCtx) localAccess action
                                         end]> capabilities) ∅ (bp_Actions bp)
  end.

(** ** The rule *)

Definition granted (o : option (list string)) (action : Action) : Prop := ∃ l, o = Some l ∧ (action ∈ l ∨ "*"%string ∈ l).

Lemma grants_exact o action : grants o action = true ↔ granted o action.
Proof.
  unfold grants, granted. destruct o as [l|]; [|naive_solver]. rewrite existsb_elem_of. setoid_rewrite orb_true_iff. setoid_rewrite bool_decide_eq_true.
  split; [intros (a & Ha & [->| ->]); naive_solver|intros (l' & [= <-] & [H|H]); eauto].
Qed.

(** A system resource is for the system; any other for admins, its owner, for readers
    if it is public or says nothing, and for whom it grants the action. *)
Theorem Authorize_exact ctx access action : let caller := GetAuthFromContext ctx in
  Authorize ctx access action = true ↔
  if decide (ra_Visibility access = VisibilitySystem) then au_IsSystem caller = true
  else RoleAdmin ∈ au_Roles caller ∨
       (ra_OwnerID access ≠ EmptyString ∧ au_UserID caller = ra_OwnerID access) ∨
       (ra_Visibility access ∈ [VisibilityPublic; EmptyString] ∧ action ∈ [ActionRead; ActionList]) ∨
       (∃ role, role ∈ au_Roles caller ∧ granted (ra_Roles access !! role) action) ∨
       granted (ra_Users access !! au_UserID caller) action.
Proof.
  intros caller. unfold Authorize. fold caller. case_decide; [done|].
  assert (Hand : ∀ b c d : bool, (if b then true else c) = true ↔ b = true ∨ c = true) by (intros [] []; naive_solver).
  rewrite !(Hand _ _ true), !andb_true_iff, !orb_true_iff, !negb_true_iff, !bool_decide_eq_true, bool_decide_eq_false, !existsb_elem_of, grants_exact.
  setoid_rewrite bool_decide_eq_true. setoid_rewrite grants_exact. set_solver.
Qed.

(** A resource of the system's own is never written or deleted, whoever asks. *)
Theorem system_is_read_only ctx name access action : IsSystemReadOnly name = true → action ∈ [ActionWrite; ActionDelete] →
  CheckPolicy ctx name access action = Some ErrSystemReadOnly ∧ CanPerformAction ctx name access action = false.
Proof.
  intros Hn Ha. unfold CanPerformAction, CheckPolicy. rewrite Hn.
  assert (bool_decide (action = ActionWrite) || bool_decide (action = ActionDelete) = true) as ->; [|done].
  apply orb_true_iff. rewrite !bool_decide_eq_true. set_solver.
Qed.

(** Without a function for the local access the zero access is checked, which says
    nothing about visibility: everyone may read, a caller without an identity too. *)
Example no_local_access_is_public :
  ResolveRBACMap {["space"%string := mkBlueprint "space" EmptyString [] [ActionRead; ActionWrite] None]} None "space" (mkEntitlement "secrets" "db" false EmptyString EmptyString) None
  = {["can_read"%string := true; "can_edit"%string := false]}.
Proof. by vm_compute. Qed.
