(* ===== verification/Identity.v ===== *)
(** * governance/identity.go: tokens of identity providers and the users they name

    A token is three segments with points between them; its claims are checked and
    mapped to a user.  Base64, JSON, HMAC-SHA256 and the encoding of URLs are
    arguments. *)

From Stdlib Require Import Ascii.
From stdpp Require Import gmap.
From S2P Require Import Prelude Verify AuditLog Governance Billing.

Definition IdPTypeGitHub : string := "github".
Definition IdPTypeOkta : string := "okta".
Definition IdPTypeEntraID : string := "entraid".

Inductive identity_error :=
| ErrInvalidToken | ErrTokenExpired | ErrInvalidIssuer | ErrInvalidAudience | ErrProviderNotRegistered (id : string)
| ErrEnterpriseSSONotLicensed | ErrEmptyProviderID.

(** A decoded claim; a number is its conversion to an [int64]. *)
Inductive claim := CString (s : string) | CNumber (n : Z) | CList (l : list claim) | COther.

Record IdentityClaims := mkClaims {
  ic_Subject : string; ic_Email : string; ic_PreferredUsername : string; ic_Name : string;
  ic_Groups : list string; ic_Roles : list string; ic_Issuer : string; ic_Audience : string; ic_TenantID : string;
  ic_Repository : string; ic_RepositoryOwner : string; ic_Actor : string; ic_ExpiresAt : Z; ic_IssuedAt : Z;
}.
Record AuthenticatedUser := mkUser { us_Username : string; us_Email : string; us_Role : string; us_TenantID : string; us_Provider : string; us_Groups : list string }.

Record OIDCConfig := mkOIDC {
  oc_Type : string; oc_ID : string; oc_DisplayName : string; oc_IssuerURL : string; oc_ClientID : string; oc_RedirectURL : string;
  oc_Scopes : list string; oc_TenantID : string; oc_Domain : string; oc_DefaultRole : string; oc_RoleMapping : gmap string string;
  oc_SkipIssuerCheck : bool; oc_SigningKeySecret : string;
}.
(** The three kinds of provider differ in their fields and in GitHub's mapping of
    users. *)
Record Provider := mkProvider { pv_cfg : OIDCConfig; pv_authURL : string; pv_tokenURL : string; pv_reqTier : Tier; pv_signingKey : string }.

Definition ID (p : Provider) : string := or_default (oc_ID (pv_cfg p)) (oc_Type (pv_cfg p)).
Definition DisplayName (p : Provider) : string := or_default (oc_DisplayName (pv_cfg p)) (oc_Type (pv_cfg p)).

(** [strings.TrimSuffix(s, "/")] and [strings.TrimPrefix]. *)
Fixpoint trim_slash (s : string) : string :=
  match s with
  | EmptyString => EmptyString
  | String c EmptyString => if decide (c = "/"%char) then EmptyString else s
  | String c rest => String c (trim_slash rest)
  end.
Definition TrimPrefix (s prefix : string) : string := if String.prefix prefix s then slice (String.length prefix) (String.length s) s else s.

Section identity.
Context (TrimSpace ToLower : string → string).
(** The unpadded base64 of the HMAC of a text; the two decodings; the JSON of claims;
    [fmt.Sprint] of a claim. *)
Context (sign : string → string → string) (RawURLDecode URLDecode : string → option string).
Context (Unmarshal : string → option (list (string * claim))) (Sprint : claim → string).

Definition claim_of (raw : list (string * claim)) (name : string) : option claim :=
  (λ p : nat * (string * claim), p.2.2) <$> list_find (λ p : string * claim, p.1 = name) raw.
Definition claim_text (raw : list (string * claim)) (name : string) : string := match claim_of raw name with Some (CString s) => s | _ => EmptyString end.
Definition claim_number (raw : list (string * claim)) (name : string) : Z := match claim_of raw name with Some (CNumber n) => n | _ => 0%Z end.
Definition extractStringSlice (raw : list (string * claim)) (name : string) : list string :=
  match claim_of raw name with Some (CList l) => omap (λ c, match c with CString s => Some s | _ => None end) l | _ => [] end.
Definition audience_of (raw : list (string * claim)) : string :=
  match claim_of raw "aud" with Some (CString s) => s | Some (CList (c :: _)) => Sprint c | _ => EmptyString end.
Definition claims_of (raw : list (string * claim)) : IdentityClaims :=
  mkClaims (claim_text raw "sub") (claim_text raw "email") (claim_text raw "preferred_username") (claim_text raw "name")
    (extractStringSlice raw "groups") (extractStringSlice raw "roles") (claim_text raw "iss") (audience_of raw) (claim_text raw "tid")
    (claim_text raw "repository") (claim_text raw "repository_owner") (claim_text raw "actor") (claim_number raw "exp") (claim_number raw "iat").

(** The second decoding is tried on the segment filled up with padding. *)
Fixpoint equals_signs (n : nat) : string := match n with O => EmptyString | S n => String "=" (equals_signs n) end.
Definition decode_payload (part : string) : option string :=
  match RawURLDecode part with
  | Some text => Some text
  | None => let missing := String.length part `mod` 4 in URLDecode (if decide (missing = 0) then part else part +:+ equals_signs (4 - missing))
  end.

Definition check_claims (p : Provider) (now : Z) (claims : IdentityClaims) : result identity_error IdentityClaims :=
  if (0 <? ic_ExpiresAt claims)%Z && (ic_ExpiresAt claims <? now - 60)%Z then Err ErrTokenExpired
  else if negb (oc_SkipIssuerCheck (pv_cfg p)) && negb (bool_decide (oc_IssuerURL (pv_cfg p) = EmptyString)) &&
          negb (bool_decide (trim_slash (ic_Issuer claims) = trim_slash (oc_IssuerURL (pv_cfg p)))) then Err ErrInvalidIssuer
  else if negb (bool_decide (oc_ClientID (pv_cfg p) = EmptyString)) && negb (bool_decide (ic_Audience claims = EmptyString)) &&
          negb (bool_decide (ic_Audience claims = oc_ClientID (pv_cfg p))) then Err ErrInvalidAudience
  else Ok claims.

(** [now] is the clock in seconds. *)
Definition ValidateToken (p : Provider) (now : Z) (rawToken : string) : result identity_error IdentityClaims :=
  let rawToken := TrimSpace rawToken in
  if decide (rawToken = EmptyString) then Err ErrInvalidToken
  else match split_on "." rawToken with
       | [p0; p1; p2] =>
           if negb (bool_decide (pv_signingKey p = EmptyString)) && negb (bool_decide (p2 = sign (pv_signingKey p) (p0 +:+ "." +:+ p1))) then Err ErrInvalidToken
           else match decode_payload p1 with
                | None => Err ErrInvalidToken
                | Some text => match Unmarshal text with
                               | None => Err ErrInvalidToken
                               | Some raw => check_claims p now (claims_of raw)
                               end
                end
       | _ => Err ErrInvalidToken
       end.

(** The first group or role that is mapped gives the role. *)
Definition mapped_role (mapping : gmap string string) (role : string) (names : list string) : string :=
  default role (head (omap (λ r, mapping !! r) names)).
Definition base_user (p : Provider) (claims : IdentityClaims) : AuthenticatedUser :=
  mkUser (or_default (ic_PreferredUsername claims) (or_default (ic_Email claims) (or_default (ic_Subject claims) "user"))) (ic_Email claims)
    (mapped_role (oc_RoleMapping (pv_cfg p)) (or_default (oc_DefaultRole (pv_cfg p)) "User") (ic_Groups claims ++ ic_Roles claims))
    (ic_TenantID claims) (oc_Type (pv_cfg p)) (ic_Groups claims).
Definition github_user (p : Provider) (claims : IdentityClaims) : AuthenticatedUser :=
  let u := base_user p claims in
  mkUser (or_default (ic_Actor claims) (us_Username u)) (us_Email u) (us_Role u) (us_TenantID u) (us_Provider u) (us_Groups u).
Definition MapClaimsToUser (p : Provider) (claims : IdentityClaims) : AuthenticatedUser :=
  if decide (oc_Type (pv_cfg p) = IdPTypeGitHub) then github_user p claims else base_user p claims.

(** ** Providers *)

Definition completed (type issuer display : string) (cfg : OIDCConfig) : OIDCConfig :=
  mkOIDC type (oc_ID cfg) (or_default (oc_DisplayName cfg) display) (or_default (oc_IssuerURL cfg) issuer) (oc_ClientID cfg) (oc_RedirectURL cfg)
    (oc_Scopes cfg) (oc_TenantID cfg) (oc_Domain cfg) (oc_DefaultRole cfg) (oc_RoleMapping cfg) (oc_SkipIssuerCheck cfg) (oc_SigningKeySecret cfg).
Definition NewGitHubOIDCProvider (cfg : OIDCConfig) : Provider :=
  mkProvider (completed IdPTypeGitHub "https://token.actions.githubusercontent.com" "GitHub" cfg)
    "https://github.com/login/oauth/authorize" "https://github.com/login/oauth/access_token" TierCore (oc_SigningKeySecret cfg).
(** [Host] is that of [url.Parse], for a URL that can be parsed. *)
Definition NewOktaProvider (Host : string → option string) (cfg : OIDCConfig) : Provider :=
  let domain := TrimPrefix (TrimPrefix (oc_Domain cfg) "https://") "http://" in
  let domain := if bool_decide (domain = EmptyString) && negb (bool_decide (oc_IssuerURL cfg = EmptyString)) then default domain (Host (oc_IssuerURL cfg)) else domain in
  let domain := or_default domain "dev-company.okta.com" in
  mkProvider (completed IdPTypeOkta ("https://" +:+ domain +:+ "/oauth2/default") "Okta" cfg)
    ("https://" +:+ domain +:+ "/oauth2/v1/authorize") ("https://" +:+ domain +:+ "/oauth2/v1/token") TierEnterprise (oc_SigningKeySecret cfg).
Definition NewEntraIDProvider (cfg : OIDCConfig) : Provider :=
  let base := "https://login.microsoftonline.com/" +:+ or_default (oc_TenantID cfg) "common" in
  mkProvider (completed IdPTypeEntraID (base +:+ "/v2.0") "Microsoft Entra ID" cfg)
    (base +:+ "/oauth2/v2.0/authorize") (base +:+ "/oauth2/v2.0/token") TierEnterprise (oc_SigningKeySecret cfg).

(** [Encode] of the query's values. *)
Definition AuthorizationURL (Encode : list (string * string) → string) (contains_query : string → bool) (p : Provider) (state nonce : string) : string :=
  let baseURL := or_default (pv_authURL p) (trim_slash (oc_IssuerURL (pv_cfg p)) +:+ "/v1/authorize") in
  let scopes := if decide (oc_Scopes (pv_cfg p) = []) then ["openid"; "profile"; "email"]%string else oc_Scopes (pv_cfg p) in
  let params := [("client_id", oc_ClientID (pv_cfg p)); ("response_type", "code"); ("redirect_uri", oc_RedirectURL (pv_cfg p));
                 ("scope", String.concat " " scopes); ("state", state)]%string ++
                (if decide (nonce = EmptyString) then [] else [("nonce"%string, nonce)]) in
  baseURL +:+ (if contains_query baseURL then "&" else "?") +:+ Encode params.

(** ** The registry *)

Definition registry_key (id : string) : string := ToLower (TrimSpace id).
Definition Register (p : Provider) (providers : gmap string Provider) : result identity_error (gmap string Provider) :=
  let id := registry_key (ID p) in
  if decide (id = EmptyString) then Err ErrEmptyProviderID else Ok (<[id := p]> providers).
(** Without a gate, the text of the refusal asks a nil gate for its tier. *)
Definition Get (id : string) (gate : option FeatureGate) (providers : gmap string Provider) : outcome identity_error Provider :=
  match providers !! registry_key id with
  | None => Fail (ErrProviderNotRegistered id)
  | Some p =>
      if decide (pv_reqTier p = TierEnterprise)
      then match gate with
           | None => Panic
           | Some gate => if Allows gate CapEnterpriseSSO then Ret p else Fail ErrEnterpriseSSONotLicensed
           end
      else Ret p
  end.
Definition is_entitled (gate : option FeatureGate) (p : Provider) : bool :=
  if decide (pv_reqTier p = TierEnterprise) then match gate with Some gate => Allows gate CapEnterpriseSSO | None => false end else true.

(** ** What an accepted token has shown *)

(** With a signing key the third segment is the keyed hash of the first two; a token
    with an expiry is at most a minute past it; the issuer and the audience, if both
    sides name one, are the configured ones. *)
Theorem ValidateToken_sound p now rawToken claims : ValidateToken p now rawToken = Ok claims →
  ∃ p0 p1 p2, split_on "." (TrimSpace rawToken) = [p0; p1; p2] ∧
    (pv_signingKey p ≠ EmptyString → p2 = sign (pv_signingKey p) (p0 +:+ "." +:+ p1)) ∧
    ((0 < ic_ExpiresAt claims)%Z → (now - 60 ≤ ic_ExpiresAt claims)%Z) ∧
    (oc_SkipIssuerCheck (pv_cfg p) = false → oc_IssuerURL (pv_cfg p) ≠ EmptyString → trim_slash (ic_Issuer claims) = trim_slash (oc_IssuerURL (pv_cfg p))) ∧
    (oc_ClientID (pv_cfg p) ≠ EmptyString → ic_Audience claims ≠ EmptyString → ic_Audience claims = oc_ClientID (pv_cfg p)).
Proof.
  unfold ValidateToken. case_decide; [done|]. destruct (split_on _ _) as [|p0 [|p1 [|p2 [|]]]] eqn:Hsplit; try done.
  destruct (negb _ && negb _) eqn:Hsig; [done|]. destruct (decode_payload p1); [|done]. destruct (Unmarshal _); [|done].
  unfold check_claims. destruct (_ && (_ <? _)%Z) eqn:Hexp; [done|]. destruct (negb (oc_SkipIssuerCheck _) && _ && _) eqn:Hiss; [done|].
  destruct (negb (bool_decide (oc_ClientID _ = _)) && _ && _) eqn:Haud; [done|]. intros He. injection He as <-. exists p0, p1, p2. split; [done|].
  rewrite !andb_false_iff, ?negb_false_iff, ?bool_decide_eq_true in *. rewrite Z.ltb_ge, Z.ltb_ge in Hexp.
  split_and!; [intuition done|lia| |intuition done]. intros Hsk Hi. rewrite Hsk in Hiss. by intuition.
Qed.
End identity.

(** ** Findings *)

Definition ex_sign (key text : string) : string := key.
Definition ex_claims (text : string) : option (list (string * claim)) := Some [("sub"%string, CString "mallory"); ("roles"%string, CList [CString "admins"])].
Definition ex_oidc : OIDCConfig := mkOIDC EmptyString "github" EmptyString EmptyString "client" EmptyString [] EmptyString EmptyString EmptyString {["admins"%string := "Admin"%string]} true EmptyString.

(** A provider without a signing key takes any three segments as a token: whoever
    writes the claims is who they say, with the role they say. *)
Example unsigned_token_accepted :
  match ValidateToken id ex_sign Some Some ex_claims (λ _, EmptyString) (NewGitHubOIDCProvider ex_oidc) 1700000000 "a.b.c" with
  | Ok claims => us_Username (MapClaimsToUser (NewGitHubOIDCProvider ex_oidc) claims) = "mallory"%string ∧ us_Role (MapClaimsToUser (NewGitHubOIDCProvider ex_oidc) claims) = "Admin"%string
  | Err _ => False
  end.
Proof. vm_compute. by split. Qed.

(** A request for an enterprise provider where there is no gate panics. *)
Example missing_gate_panics : Get id id "entraid" None {["entraid"%string := NewEntraIDProvider ex_oidc]} = Panic.
Proof. by vm_compute. Qed.
