(* ===== verification/L1Cache.v ===== *)
(** * cache/l1cache.go and cache/l1mru.go: the nodes a process keeps

    The entries are objects that the index points to: a reader finds an entry under
    the lock of the cache and looks into it after it has released the lock, when an
    eviction may have emptied it.  The list of IDs is that of LinkedList.  The
    reference is a list of IDs and nodes, the most recent first. *)

From stdpp Require Import gmap.
From S2P Require Import Prelude Wp Handle LinkedList Cache.

(** [sop.L2Cache], for nodes: set, get, get with a new time to live, delete. *)
Class L2Nodes (CS CE Nd : Type) := {
  l2_SetStruct : UUID → Nd → Z → M CS CE ();
  l2_GetStruct : UUID → M CS CE (option Nd);
  l2_GetStructEx : UUID → Z → M CS CE (option Nd);
  l2_Delete : UUID → M CS CE bool;
}.

Section l1.
Context {CS CE Nd : Type} `{L2 : L2Nodes CS CE Nd}.
(** [btree.MetaDataType]; a cached node is a clone, and what a hit gives is a copy of
    it in the target. *)
Context (GetVersion : Nd → Z).

Record l1CacheEntry := mkL1Entry {
  le_nodeVersion : Z;
  le_nodeData : option Nd;
  le_dllNode : option N;
}.

Record l1Cache := mkL1Cache {
  l1_lookup : gmap UUID N;
  l1_entries : gmap N l1CacheEntry;
  l1_fresh : N;
  l1_dll : doublyLinkedList UUID;
  l1_minCapacity : Z;
  l1_maxCapacity : Z;
  l1_l2CacheNodes : CS;
}.
Definition set_l1_lookup (m : gmap UUID N) (c : l1Cache) : l1Cache :=
  mkL1Cache m (l1_entries c) (l1_fresh c) (l1_dll c) (l1_minCapacity c) (l1_maxCapacity c) (l1_l2CacheNodes c).
Definition set_l1_entries (m : gmap N l1CacheEntry) (c : l1Cache) : l1Cache :=
  mkL1Cache (l1_lookup c) m (l1_fresh c) (l1_dll c) (l1_minCapacity c) (l1_maxCapacity c) (l1_l2CacheNodes c).
Definition set_l1_dll (d : doublyLinkedList UUID) (c : l1Cache) : l1Cache :=
  mkL1Cache (l1_lookup c) (l1_entries c) (l1_fresh c) d (l1_minCapacity c) (l1_maxCapacity c) (l1_l2CacheNodes c).
Definition set_l1_l2 (s : CS) (c : l1Cache) : l1Cache :=
  mkL1Cache (l1_lookup c) (l1_entries c) (l1_fresh c) (l1_dll c) (l1_minCapacity c) (l1_maxCapacity c) s.

Local Abbreviation C := (M l1Cache CE).

(** No operation of the list fails. *)
Definition on_l1_dll {A} (m : M (doublyLinkedList UUID) Empty_set A) : C A :=
  on l1_dll set_l1_dll (λ e : Empty_set, match e with end) m.
Definition on_l2 {A} (m : M CS CE A) : C A := on l1_l2CacheNodes set_l1_l2 id m.

Definition l1_deref (e : N) : C l1CacheEntry := v ← gets (λ c, l1_entries c !! e); or_panic v.
Definition l1_write (e : N) (v : l1CacheEntry) : C () := modify (λ c, set_l1_entries (<[e := v]> (l1_entries c)) c).
Definition l1_new (id : UUID) (v : l1CacheEntry) : C () := modify (λ c,
  mkL1Cache (<[id := l1_fresh c]> (l1_lookup c)) (<[l1_fresh c := v]> (l1_entries c)) (l1_fresh c + 1)
    (l1_dll c) (l1_minCapacity c) (l1_maxCapacity c) (l1_l2CacheNodes c)).

(** ** l1mru.go *)

Definition l1_mru_add (id : UUID) : C N := on_l1_dll (addToHead id).
Definition l1_mru_remove (n : option N) : C () := _ ← on_l1_dll (dll_delete n); mret ().
Definition l1_isFull (c : l1Cache) : bool := bool_decide (l1_maxCapacity c ≤ count (l1_dll c))%Z.

Fixpoint l1_evict_loop (itemsToRemove : nat) : C () :=
  match itemsToRemove with
  | O => mret ()
  | S n =>
      r ← on_l1_dll deleteFromTail;
      match r with
      | None => mret ()
      | Some id =>
          v ← gets (λ c, l1_lookup c !! id);
          (match v with
           | Some e =>
               en ← l1_deref e;
               l1_write e (mkL1Entry (le_nodeVersion en) None None);;
               modify (λ c, set_l1_lookup (base.delete id (l1_lookup c)) c)
           | None => mret ()
           end);;
          l1_evict_loop n
      end
  end.

Definition l1_evict : C () :=
  full ← gets l1_isFull;
  if negb full then mret ()
  else n ← gets (λ c, (l1_maxCapacity c - l1_minCapacity c)%Z); l1_evict_loop (Z.to_nat n).

(** ** l1cache.go *)

Definition NewL1Cache (l2 : CS) (minCapacity maxCapacity : Z) : l1Cache :=
  mkL1Cache ∅ ∅ 0 newDoublyLinkedList minCapacity maxCapacity l2.

Definition SetNodeToMRU (nodeID : UUID) (node : Nd) : C () :=
  v ← gets (λ c, l1_lookup c !! nodeID);
  match v with
  | Some e =>
      en ← l1_deref e;
      l1_write e (mkL1Entry (GetVersion node) (Some node) (le_dllNode en));;
      l1_mru_remove (le_dllNode en);;
      n ← l1_mru_add nodeID;
      l1_write e (mkL1Entry (GetVersion node) (Some node) (Some n))
  | None =>
      n ← l1_mru_add nodeID;
      l1_new nodeID (mkL1Entry (GetVersion node) (Some node) (Some n));;
      l1_evict
  end.

(** An error of the L2 cache is logged. *)
Definition SetNode (nodeID : UUID) (node : Nd) (nodeCacheDuration : Z) : C () :=
  SetNodeToMRU nodeID node;;
  handle (on_l2 (l2_SetStruct nodeID node nodeCacheDuration)) mret (λ _, mret ()).

Definition getEntryForHandleLocked (h : Handle) : C (option N) :=
  let nodeID := GetActiveID h in
  v ← gets (λ c, l1_lookup c !! nodeID);
  match v with
  | Some e =>
      en ← l1_deref e;
      if decide (le_nodeVersion en = Version h) then
        l1_mru_remove (le_dllNode en);;
        n ← l1_mru_add nodeID;
        l1_write e (mkL1Entry (le_nodeVersion en) (le_nodeData en) (Some n));;
        mret (Some e)
      else mret None
  | None => mret None
  end.

(** What is read of an entry when the lock is released: the target as it is if there
    is no node any more. *)
Definition read_entry (e : N) (nodeTarget : Nd) : C Nd :=
  en ← l1_deref e; mret (from_option id nodeTarget (le_nodeData en)).

Definition GetNodeFromMRU (h : Handle) (nodeTarget : Nd) : C (option Nd) :=
  hit ← getEntryForHandleLocked h;
  match hit with None => mret None | Some e => v ← read_entry e nodeTarget; mret (Some v) end.

Definition GetNode (h : Handle) (nodeTarget : Nd) (isNodeCacheTTL : bool) (nodeCacheTTLDuration : Z) : C (option Nd) :=
  let nodeID := GetActiveID h in
  hit ← getEntryForHandleLocked h;
  match hit with
  | Some e => v ← read_entry e nodeTarget; mret (Some v)
  | None =>
      found ← on_l2 (if isNodeCacheTTL then l2_GetStructEx nodeID nodeCacheTTLDuration else l2_GetStruct nodeID);
      match found with
      | None => mret None
      | Some node => SetNodeToMRU nodeID node;; mret (Some node)
      end
  end.

Fixpoint delete_mru (nodesIDs : list UUID) : C bool :=
  match nodesIDs with
  | [] => mret false
  | nodeID :: nodesIDs =>
      v ← gets (λ c, l1_lookup c !! nodeID);
      match v with
      | Some e =>
          en ← l1_deref e;
          l1_mru_remove (le_dllNode en);;
          l1_write e (mkL1Entry (le_nodeVersion en) None None);;
          modify (λ c, set_l1_lookup (base.delete nodeID (l1_lookup c)) c);;
          _ ← delete_mru nodesIDs; mret true
      | None => delete_mru nodesIDs
      end
  end.
(** The last error is returned with the result. *)
Fixpoint delete_l2 (nodesIDs : list UUID) (result : bool) (lastErr : option CE) : C (bool * option CE) :=
  match nodesIDs with
  | [] => mret (result, lastErr)
  | nodeID :: nodesIDs =>
      handle (on_l2 (l2_Delete nodeID)) (λ found, delete_l2 nodesIDs (result || found) lastErr)
        (λ e, delete_l2 nodesIDs result (Some e))
  end.
Definition DeleteNodes (nodesIDs : list UUID) : C (bool * option CE) :=
  result ← delete_mru nodesIDs; delete_l2 nodesIDs result None.

Definition l1_Count (c : l1Cache) : Z := Z.of_nat (size (l1_lookup c)).
Definition l1_IsFull (c : l1Cache) : bool := l1_isFull c.
Definition l1_Evict : C () := l1_evict.

(** ** The reference: IDs and nodes, the most recent first *)

Implicit Types (l : list (UUID * Nd)) (id : UUID) (n : Nd) (c : l1Cache).

Definition lru_shrink (min max : Z) l : list (UUID * Nd) :=
  if decide (max ≤ Z.of_nat (length l))%Z then take (length l - Z.to_nat (max - min)) l else l.
Definition lru_put (min max : Z) id n l : list (UUID * Nd) :=
  match lru_find id l with Some _ => lru_touch id n l | None => lru_shrink min max ((id, n) :: l) end.
(** The node of a handle, if the cached one has its version. *)
Definition lru_hit (h : Handle) l : option Nd :=
  n ← lru_find (GetActiveID h) l; if decide (GetVersion n = Version h) then Some n else None.
Definition lru_read (h : Handle) l : list (UUID * Nd) :=
  match lru_hit h l with Some n => lru_touch (GetActiveID h) n l | None => l end.

Inductive l1_op :=
| L1Set (id : UUID) (n : Nd)
| L1Get (h : Handle) (target : Nd)
| L1Delete (ids : list UUID)
| L1Evict.

Definition l1_exec (o : l1_op) : C (option Nd) :=
  match o with
  | L1Set id n => SetNodeToMRU id n;; mret None
  | L1Get h target => GetNodeFromMRU h target
  | L1Delete ids => _ ← delete_mru ids; mret None
  | L1Evict => l1_Evict;; mret None
  end.
Fixpoint l1_exec_all (os : list l1_op) : C (list (option Nd)) :=
  match os with
  | [] => mret []
  | o :: os => r ← l1_exec o; rs ← l1_exec_all os; mret (r :: rs)
  end.

Definition lru_step (min max : Z) (o : l1_op) l : option Nd * list (UUID * Nd) :=
  match o with
  | L1Set id n => (None, lru_put min max id n l)
  | L1Get h _ => (lru_hit h l, lru_read h l)
  | L1Delete ids => (None, lru_delete ids l)
  | L1Evict => (None, lru_shrink min max l)
  end.
Fixpoint lru_steps (min max : Z) (os : list l1_op) l : list (option Nd) * list (UUID * Nd) :=
  match os with
  | [] => ([], l)
  | o :: os => let '(r, l) := lru_step min max o l in let '(rs, l) := lru_steps min max os l in (r :: rs, l)
  end.

(** ** The cache refines the reference *)

(** A cached node: its place in the list, its entry, its ID and the node. *)
Implicit Types (cl : list (N * (N * (UUID * Nd)))).

Definition l1_place (x : N * (N * (UUID * Nd))) : N * UUID := (x.1, x.2.2.1).
Definition l1_index (x : N * (N * (UUID * Nd))) : UUID * N := (x.2.2.1, x.2.1).
Definition l1_stored c (x : N * (N * (UUID * Nd))) : Prop :=
  l1_entries c !! x.2.1 = Some (mkL1Entry (GetVersion x.2.2.2) (Some x.2.2.2) (Some x.1)) ∧ (x.2.1 < l1_fresh c)%N.

Record l1_filed c cl : Prop := mkL1Filed {
  li_ids : NoDup cl.*2.*2.*1;
  li_entries : NoDup cl.*2.*1;
  li_lookup : l1_lookup c = list_to_map (l1_index <$> cl);
  li_stored : Forall (l1_stored c) cl;
}.
Definition l1_indexed c cl : Prop := dll_rep (l1_dll c) (l1_place <$> cl) ∧ l1_filed c cl.
Definition l1_rep (min max : Z) c l : Prop :=
  ∃ cl, l1_indexed c cl ∧ cl.*2.*2 = l ∧ l1_minCapacity c = min ∧ l1_maxCapacity c = max.

Lemma l1_index_keys cl : (l1_index <$> cl).*1 = cl.*2.*2.*1.
Proof. by rewrite <- !list_fmap_compose. Qed.

Lemma l1_filed_perm c cl cl' : cl ≡ₚ cl' → l1_filed c cl → l1_filed c cl'.
Proof.
  intros Hp [Hi He Hl Hs]. constructor; [by rewrite <- Hp|by rewrite <- Hp| |by rewrite <- Hp].
  rewrite Hl. apply list_to_map_proper; [by rewrite l1_index_keys|]. by rewrite Hp.
Qed.

(** Taken to the front of the list of entries. *)
Lemma l1_filed_front c cl1 x cl2 : l1_filed c (cl1 ++ x :: cl2) ↔ l1_filed c (x :: cl1 ++ cl2).
Proof. split; apply l1_filed_perm; [symmetry|]; apply Permutation_middle. Qed.

Lemma l1_lookup_Some c cl id e : l1_filed c cl → l1_lookup c !! id = Some e →
  ∃ cl1 p n cl2, cl = cl1 ++ (p, (e, (id, n))) :: cl2.
Proof.
  intros [Hi _ Hl _] He. rewrite Hl in He. apply elem_of_list_to_map in He; [|by rewrite l1_index_keys].
  apply list_elem_of_fmap in He as ([p [e' [id' n]]] & [= -> ->] & (cl1 & cl2 & ->)%list_elem_of_split). by exists cl1, p, n, cl2.
Qed.

Lemma l1_lookup_None c cl id : l1_filed c cl → l1_lookup c !! id = None → id ∉ cl.*2.*2.*1.
Proof. intros Hi Hn. rewrite (li_lookup _ _ Hi) in Hn. rewrite <- l1_index_keys. by apply not_elem_of_list_to_map_2. Qed.

Lemma l1_entry_of c p e id n cl : l1_filed c ((p, (e, (id, n))) :: cl) →
  l1_entries c !! e = Some (mkL1Entry (GetVersion n) (Some n) (Some p)).
Proof. intros Hi. pose proof (li_stored _ _ Hi) as Hs. apply Forall_cons in Hs as [[Hs _] _]. exact Hs. Qed.

Lemma run_l1_deref c p e id n cl : l1_filed c ((p, (e, (id, n))) :: cl) →
  l1_deref e c = (Ret (mkL1Entry (GetVersion n) (Some n) (Some p)), c).
Proof. intros Hf. unfold l1_deref, mbind, M_bind, gets. by rewrite (l1_entry_of _ _ _ _ _ _ Hf). Qed.

(** The other entries are not touched by a write. *)
Lemma l1_stored_write c e en cl : e ∉ cl.*2.*1 → Forall (l1_stored c) cl →
  Forall (l1_stored (set_l1_entries (<[e := en]> (l1_entries c)) c)) cl.
Proof.
  intros Hn. rewrite !Forall_forall. intros Hs x Hx. destruct (Hs x Hx) as [H1 H2]. split; [|done]. cbn.
  rewrite lookup_insert_ne; [done|]. intros ->. apply Hn. by do 2 apply (list_elem_of_fmap_2 _ _ _).
Qed.

Lemma l1_filed_write c p p' e id n n' cl : l1_filed c ((p, (e, (id, n))) :: cl) →
  l1_filed (set_l1_entries (<[e := mkL1Entry (GetVersion n') (Some n') (Some p')]> (l1_entries c)) c) ((p', (e, (id, n'))) :: cl).
Proof.
  intros [Hi He Hl Hs]. apply Forall_cons in Hs as [[Hx Hf] Hs]. constructor; [done..|].
  apply Forall_cons. split; [split; cbn; [by rewrite lookup_insert_eq|done]|].
  apply l1_stored_write; [|done]. cbn in He. by apply NoDup_cons in He as [? _].
Qed.

Lemma l1_filed_drop c p e id n en cl : l1_filed c ((p, (e, (id, n))) :: cl) →
  l1_filed (set_l1_lookup (base.delete id (l1_lookup c)) (set_l1_entries (<[e := en]> (l1_entries c)) c)) cl.
Proof.
  intros [Hi He Hl Hs]. apply Forall_cons in Hs as [_ Hs]. cbn in Hi, He.
  apply NoDup_cons in Hi as [Hid Hi]. apply NoDup_cons in He as [Hne He]. constructor; [done..| |by apply (l1_stored_write c e en)].
  cbn. rewrite Hl. cbn. apply delete_insert_id. apply not_elem_of_list_to_map_1. by rewrite l1_index_keys.
Qed.

Lemma l1_filed_new c p id n cl : id ∉ cl.*2.*2.*1 → l1_filed c cl →
  l1_filed (l1_new id (mkL1Entry (GetVersion n) (Some n) (Some p)) c).2 ((p, (l1_fresh c, (id, n))) :: cl).
Proof.
  intros Hid [Hi He Hl Hs].
  assert (Hf : l1_fresh c ∉ cl.*2.*1).
  { intros Hin. apply list_elem_of_fmap in Hin as (y & E & Hin). apply list_elem_of_fmap in Hin as (x & -> & Hin).
    rewrite Forall_forall in Hs. destruct (Hs x Hin) as [_ Hlt]. cbn in *. lia. }
  constructor.
  - cbn. by apply NoDup_cons.
  - cbn. by apply NoDup_cons.
  - cbn. by rewrite Hl.
  - apply Forall_cons. split; [split; cbn; [by rewrite lookup_insert_eq|lia]|].
    eapply Forall_impl; [apply (l1_stored_write c (l1_fresh c) (mkL1Entry (GetVersion n) (Some n) (Some p)) cl Hf Hs)|].
    intros x [H1 H2]. split; [exact H1|]. cbn in *. lia.
Qed.

(** ** Each operation *)

Lemma run_l1_remove c cl1 p x cl2 : dll_rep (l1_dll c) (l1_place <$> (cl1 ++ (p, x) :: cl2)) →
  ∃ d, l1_mru_remove (Some p) c = (Ret (), set_l1_dll d c) ∧ dll_rep d (l1_place <$> (cl1 ++ cl2)).
Proof.
  rewrite !fmap_app, fmap_cons. intros Hd. destruct (run_delete _ _ _ _ _ Hd) as (d & Hr & Hd'). exists d. split; [|done].
  unfold l1_mru_remove, on_l1_dll. by rewrite (bind_Ret _ _ _ _ _ (on_Ret _ _ _ _ _ _ _ Hr)).
Qed.

Lemma run_l1_add c ps id : dll_rep (l1_dll c) ps →
  ∃ d q, l1_mru_add id c = (Ret q, set_l1_dll d c) ∧ dll_rep d ((q, id) :: ps).
Proof.
  intros Hd. destruct (run_addToHead _ _ id Hd) as (d & Hr & Hd'). exists d, (dl_fresh (l1_dll c)). split; [|done].
  unfold l1_mru_add, on_l1_dll. exact (on_Ret _ _ _ _ _ _ _ Hr).
Qed.

(** An entry moves to the front. *)
Lemma run_l1_move c cl1 p e id n cl2 : l1_indexed c (cl1 ++ (p, (e, (id, n))) :: cl2) →
  ∃ c' q, (l1_mru_remove (Some p);; q ← l1_mru_add id; l1_write e (mkL1Entry (GetVersion n) (Some n) (Some q))) c = (Ret (), c') ∧
    l1_indexed c' ((q, (e, (id, n))) :: cl1 ++ cl2) ∧ l1_minCapacity c' = l1_minCapacity c ∧ l1_maxCapacity c' = l1_maxCapacity c.
Proof.
  intros [Hd Hf]. destruct (run_l1_remove c cl1 p _ cl2 Hd) as (d1 & Hr1 & Hd1).
  destruct (run_l1_add (set_l1_dll d1 c) _ id Hd1) as (d2 & q & Hr2 & Hd2).
  eexists _, q. rewrite (bind_Ret _ _ _ _ _ Hr1). split; [rewrite (bind_Ret _ _ _ _ _ Hr2); reflexivity|].
  split; [|done]. split; [exact Hd2|].
  apply l1_filed_front, (l1_filed_write _ p q e id n n) in Hf. destruct Hf. by constructor.
Qed.

Lemma l1_find min max c l id : l1_rep min max c l →
  match l1_lookup c !! id with
  | Some e => ∃ cl1 p n cl2, l1_indexed c (cl1 ++ (p, (e, (id, n))) :: cl2) ∧ l = (cl1 ++ (p, (e, (id, n))) :: cl2).*2.*2 ∧
      lru_find id l = Some n ∧ lru_remove id l = (cl1 ++ cl2).*2.*2
  | None => lru_find id l = None ∧ id ∉ l.*1
  end.
Proof.
  intros (cl & Hi & <- & _). destruct (l1_lookup c !! id) as [e|] eqn:E.
  - destruct (l1_lookup_Some _ _ _ _ (proj2 Hi) E) as (cl1 & p & n & cl2 & ->). exists cl1, p, n, cl2. split; [done|]. split; [done|].
    pose proof (li_ids _ _ (proj2 Hi)) as Hnd.
    assert (El : (cl1 ++ (p, (e, (id, n))) :: cl2).*2.*2 = cl1.*2.*2 ++ (id, n) :: cl2.*2.*2) by (by rewrite !fmap_app, !fmap_cons).
    rewrite El in Hnd |- *. split; [apply lru_find_split; by apply NoDup_split in Hnd as (_ & ? & _)|].
    rewrite !fmap_app. by apply lru_remove_split.
  - pose proof (l1_lookup_None _ _ _ (proj2 Hi) E). split; [by apply lru_find_None|done].
Qed.

Lemma l1_dll_count c cl : l1_indexed c cl → count (l1_dll c) = Z.of_nat (length cl.*2.*2).
Proof. intros [(_ & _ & _ & _ & Hs & _) _]. unfold count. by rewrite Hs, !length_fmap. Qed.

(** Taking the oldest entries off the list, with what else is in the file. *)
Lemma run_l1_evict_loop k : ∀ c cl, l1_indexed c cl →
  ∃ c' cl', l1_evict_loop k c = (Ret (), c') ∧ l1_indexed c' cl' ∧ cl'.*2.*2 = take (length cl - k) cl.*2.*2 ∧
    l1_minCapacity c' = l1_minCapacity c ∧ l1_maxCapacity c' = l1_maxCapacity c.
Proof.
  induction k as [|k IH]; intros c cl Hi; cbn [l1_evict_loop].
  { exists c, cl. rewrite Nat.sub_0_r, take_ge by (by rewrite !length_fmap). done. }
  destruct cl as [|[p [e [id n]]] cl _] using rev_ind.
  - exists (set_l1_dll (l1_dll c) c), []. unfold on_l1_dll.
    erewrite bind_Ret by (apply on_Ret, run_deleteFromTail_nil, Hi). by destruct c.
  - destruct Hi as [Hd Hf]. rewrite fmap_app in Hd. destruct (run_deleteFromTail _ _ _ _ Hd) as (d & Hr & Hd').
    unfold on_l1_dll. erewrite bind_Ret by (apply on_Ret; exact Hr). cbv beta iota. erewrite bind_Ret by reflexivity. cbv beta.
    apply l1_filed_front in Hf. rewrite app_nil_r in Hf.
    assert (El : l1_lookup (set_l1_dll d c) !! id = Some e) by (cbn; rewrite (li_lookup _ _ Hf); cbn; by rewrite lookup_insert_eq).
    cbn [fst snd]. rewrite El. unfold l1_deref. cbv beta delta [mbind M_bind gets] iota. cbn [l1_entries set_l1_dll].
    rewrite (l1_entry_of _ _ _ _ _ _ Hf). cbn.
    set (c1 := set_l1_lookup _ _). destruct (IH c1 cl) as (c' & cl' & Hrun & Hi' & Hcl & Hmin & Hmax).
    { split; [exact Hd'|]. apply (l1_filed_drop c p e id n (mkL1Entry (GetVersion n) None None)) in Hf. destruct Hf. by constructor. }
    exists c', cl'. split; [exact Hrun|]. split; [done|]. split; [|done].
    rewrite Hcl, !fmap_app, length_app. cbn. rewrite take_app_le by (rewrite !length_fmap; lia). f_equal. lia.
Qed.

Lemma run_l1_evict min max c l : l1_rep min max c l →
  ∃ c', l1_evict c = (Ret (), c') ∧ l1_rep min max c' (lru_shrink min max l).
Proof.
  intros (cl & Hi & <- & <- & <-). unfold l1_evict. erewrite bind_Ret by reflexivity. cbv beta.
  unfold l1_isFull, lru_shrink. rewrite (l1_dll_count c cl Hi).
  destruct (decide (l1_maxCapacity c ≤ Z.of_nat (length cl.*2.*2))%Z) as [Hfull|Hnot].
  - rewrite bool_decide_eq_true_2 by done. cbn [negb]. erewrite bind_Ret by reflexivity. cbv beta.
    destruct (run_l1_evict_loop (Z.to_nat (l1_maxCapacity c - l1_minCapacity c)) c cl Hi) as (c' & cl' & Hrun & Hi' & Hcl & Hmin & Hmax).
    exists c'. split; [done|]. exists cl'. rewrite !length_fmap. done.
  - rewrite bool_decide_eq_false_2 by done. exists c. split; [done|]. by exists cl.
Qed.

Lemma run_SetNodeToMRU min max c l id n : l1_rep min max c l →
  ∃ c', SetNodeToMRU id n c = (Ret (), c') ∧ l1_rep min max c' (lru_put min max id n l).
Proof.
  intros Hr. pose proof (l1_find min max c l id Hr) as Hl. destruct Hr as (cl & Hi & Hcl & Hmin & Hmax).
  unfold SetNodeToMRU, lru_put. erewrite bind_Ret by reflexivity. cbv beta. destruct (l1_lookup c !! id) as [e|] eqn:El.
  - destruct Hl as (cl1 & p & n0 & cl2 & [Hd Hf] & -> & Hfind & Hrem). rewrite Hfind. unfold lru_touch. rewrite Hrem.
    pose proof Hf as Hf'. apply l1_filed_front in Hf'. rewrite (bind_Ret _ _ _ _ _ (run_l1_deref _ _ _ _ _ _ Hf')).
    cbn [le_dllNode]. erewrite bind_Ret by reflexivity. cbv beta.
    apply (l1_filed_write c p p e id n0 n) in Hf'. rewrite <- l1_filed_front in Hf'.
    set (c1 := set_l1_entries _ _) in *.
    destruct (run_l1_move c1 cl1 p e id n cl2) as (c' & q & Hrun & Hi' & Hm1 & Hm2).
    { split; [|exact Hf']. rewrite fmap_app, fmap_cons in *. exact Hd. }
    exists c'. split; [exact Hrun|]. eexists. split; [exact Hi'|]. cbn. rewrite !fmap_app. split; [done|]. split; [by rewrite Hm1|by rewrite Hm2].
  - destruct Hl as [Hfind Hnin]. rewrite Hfind. destruct Hi as [Hd Hf]. rewrite <- Hcl in Hnin.
    destruct (run_l1_add c _ id Hd) as (d & q & Hr & Hd'). rewrite (bind_Ret _ _ _ _ _ Hr). cbv beta.
    erewrite bind_Ret by reflexivity. cbv beta. apply run_l1_evict.
    eexists ((q, (l1_fresh c, (id, n))) :: cl). split; [|cbn; by rewrite Hcl].
    split; [exact Hd'|]. apply (l1_filed_new c q id n cl Hnin) in Hf. destruct Hf. by constructor.
Qed.

Lemma run_GetNodeFromMRU min max c l h target : l1_rep min max c l →
  ∃ c', GetNodeFromMRU h target c = (Ret (lru_hit h l), c') ∧ l1_rep min max c' (lru_read h l).
Proof.
  intros Hr. pose proof (l1_find min max c l (GetActiveID h) Hr) as Hl.
  unfold GetNodeFromMRU, getEntryForHandleLocked, lru_read, lru_hit. unfold mbind at 1, M_bind at 1.
  erewrite bind_Ret by reflexivity. cbv beta. destruct (l1_lookup c !! GetActiveID h) as [e|] eqn:El.
  - destruct Hl as (cl1 & p & n & cl2 & Hi & -> & Hfind & Hrem). rewrite Hfind. cbn.
    pose proof (proj2 Hi) as Hf. apply l1_filed_front in Hf.
    rewrite (bind_Ret _ _ _ _ _ (run_l1_deref _ _ _ _ _ _ Hf)).
    cbn [le_nodeVersion le_nodeData le_dllNode]. case_decide as Hv; [|by exists c].
    unfold lru_touch. rewrite Hrem.
    destruct (run_l1_move c cl1 p e (GetActiveID h) n cl2 Hi) as (c' & q & Hrun & Hi' & Hm1 & Hm2).
    destruct Hr as (_ & _ & _ & Hmin & Hmax). exists c'.
    assert (Hbig : (l1_mru_remove (Some p);; q0 ← l1_mru_add (GetActiveID h);
      l1_write e (mkL1Entry (GetVersion n) (Some n) (Some q0));; mret (Some e)) c = (Ret (Some e), c')).
    { revert Hrun. unfold mbind, M_bind. destruct (l1_mru_remove (Some p) c) as [[[]| |] c1]; [|done..].
      destruct (l1_mru_add (GetActiveID h) c1) as [[q1| |] c2]; [|done..]. by intros ->. }
    rewrite Hbig. split.
    + unfold read_entry, l1_deref, mbind, M_bind, gets. by rewrite (l1_entry_of _ _ _ _ _ _ (proj2 Hi')).
    + eexists. split; [exact Hi'|]. cbn. rewrite !fmap_app. split; [done|]. split; congruence.
  - destruct Hl as [Hfind _]. rewrite Hfind. cbn. by exists c.
Qed.

Lemma run_delete_mru min max ids : ∀ c l, l1_rep min max c l →
  ∃ b c', delete_mru ids c = (Ret b, c') ∧ l1_rep min max c' (lru_delete ids l).
Proof.
  induction ids as [|id ids IH]; intros c l Hr; [by exists false, c|]. pose proof (l1_find min max c l id Hr) as Hl.
  cbn [delete_mru]. erewrite bind_Ret by reflexivity. cbv beta.
  change (lru_delete (id :: ids) l) with (lru_delete ids (lru_remove id l)).
  destruct (l1_lookup c !! id) as [e|] eqn:El.
  - destruct Hl as (cl1 & p & n & cl2 & [Hd Hf] & -> & _ & ->). apply l1_filed_front in Hf.
    rewrite (bind_Ret _ _ _ _ _ (run_l1_deref _ _ _ _ _ _ Hf)). cbn [le_dllNode le_nodeVersion].
    destruct (run_l1_remove c cl1 p _ cl2 Hd) as (d & Hrm & Hd'). rewrite (bind_Ret _ _ _ _ _ Hrm).
    do 2 (erewrite bind_Ret by reflexivity; cbv beta).
    set (c1 := set_l1_lookup _ _). destruct (IH c1 (cl1 ++ cl2).*2.*2) as (b & c' & Hrun & Hr').
    { destruct Hr as (_ & _ & _ & Hmin & Hmax). exists (cl1 ++ cl2). split; [|done]. split; [exact Hd'|].
      apply (l1_filed_drop c p e id n (mkL1Entry (GetVersion n) None None)) in Hf. destruct Hf. by constructor. }
    exists true, c'. by rewrite (bind_Ret _ _ _ _ _ Hrun).
  - destruct Hl as [_ Hn]. rewrite lru_remove_notin by done. by apply IH.
Qed.

Lemma run_l1_exec min max o c l : l1_rep min max c l →
  ∃ c', l1_exec o c = (Ret (lru_step min max o l).1, c') ∧ l1_rep min max c' (lru_step min max o l).2.
Proof.
  intros Hr. destruct o as [id n|h target|ids|]; cbn [l1_exec lru_step fst snd].
  - destruct (run_SetNodeToMRU min max c l id n Hr) as (c' & Hrun & Hr'). exists c'. by run Hrun.
  - by apply run_GetNodeFromMRU.
  - destruct (run_delete_mru min max ids c l Hr) as (b & c' & Hrun & Hr'). exists c'. by run Hrun.
  - destruct (run_l1_evict min max c l Hr) as (c' & Hrun & Hr'). exists c'. unfold l1_Evict. by run Hrun.
Qed.

Lemma run_l1_exec_all min max os : ∀ c l, l1_rep min max c l →
  ∃ c', l1_exec_all os c = (Ret (lru_steps min max os l).1, c') ∧ l1_rep min max c' (lru_steps min max os l).2.
Proof.
  induction os as [|o os IH]; intros c l Hr; [by exists c|]. cbn [l1_exec_all lru_steps].
  destruct (run_l1_exec min max o c l Hr) as (c1 & H1 & Hr1). destruct (lru_step min max o l) as [r l1].
  destruct (IH c1 l1 Hr1) as (c2 & H2 & Hr2). destruct (lru_steps min max os l1) as [rs l2].
  exists c2. split; [|done]. run H1. cbv beta. by run H2.
Qed.

Lemma NewL1Cache_rep s2 min max : l1_rep min max (NewL1Cache s2 min max) [].
Proof. exists []. split; [|done]. split; [apply new_rep|]. by constructor; try constructor. Qed.

(** Fewer nodes than the maximum are kept. *)
Lemma lru_remove_length {V} (id : UUID) (l : list (UUID * V)) : length (lru_remove id l) ≤ length l.
Proof. apply length_filter. Qed.

Lemma lru_touch_length id n n0 l : lru_find id l = Some n0 → length (lru_touch id n l) ≤ length l.
Proof.
  induction l as [|[id' m] l IH]; [done|]. cbn [lru_find]. unfold lru_touch, lru_remove in *. cbn [filter list_filter fst].
  intros Hf. destruct (decide (id' = id)) as [->|Hne].
  - rewrite decide_False by auto. apply le_n_S, (lru_remove_length id l).
  - rewrite decide_True by done. exact (le_n_S _ _ (IH Hf)).
Qed.

Lemma lru_shrink_length min max l : (0 ≤ min < max)%Z → (Z.of_nat (length l) ≤ max)%Z →
  (Z.of_nat (length (lru_shrink min max l)) < max)%Z.
Proof. intros Hm Hl. unfold lru_shrink. case_decide; [rewrite length_take|]; lia. Qed.

Lemma lru_delete_length (ids : list UUID) : ∀ l, length (lru_delete ids l) ≤ length l.
Proof.
  induction ids as [|id ids IH]; intros l; [done|]. cbn. etransitivity; [apply IH|apply lru_remove_length].
Qed.

Lemma lru_step_length min max o l : (0 ≤ min < max)%Z → (Z.of_nat (length l) < max)%Z →
  (Z.of_nat (length (lru_step min max o l).2) < max)%Z.
Proof.
  intros Hm Hl. destruct o as [id n|h target|ids|]; cbn [lru_step snd].
  - unfold lru_put. destruct (lru_find id l) as [n0|] eqn:Hf.
    + pose proof (lru_touch_length id n n0 l Hf). lia.
    + apply lru_shrink_length; [done|]. cbn. lia.
  - unfold lru_read, lru_hit. destruct (lru_find (GetActiveID h) l) as [n0|] eqn:Hf; cbn; [|done].
    case_decide; [|done]. pose proof (lru_touch_length _ n0 n0 l Hf). lia.
  - pose proof (lru_delete_length ids l). lia.
  - apply lru_shrink_length; [done|lia].
Qed.

Lemma lru_steps_length min max os : ∀ l, (0 ≤ min < max)%Z → (Z.of_nat (length l) < max)%Z →
  (Z.of_nat (length (lru_steps min max os l).2) < max)%Z.
Proof.
  induction os as [|o os IH]; intros l Hm Hl; [done|]. cbn [lru_steps]. pose proof (lru_step_length min max o l Hm Hl) as Hs.
  destruct (lru_step min max o l) as [r l1]. specialize (IH l1 Hm Hs). by destruct (lru_steps min max os l1).
Qed.

(** C32: Any sequence of settings, reads, deletions and evictions on a new cache
    whose minimum is not negative and below its maximum returns what the reference list of IDs and nodes, most recent first, returns: a
    read finds the node that was set last for the active ID of the handle, if it is
    still cached and has the version of the handle.  Nothing panics, the index and the
    list agree, and fewer nodes than the maximum are kept. *)
Theorem l1_refines_lru s2 min max os : (0 ≤ min < max)%Z →
  ∃ c, l1_exec_all os (NewL1Cache s2 min max) = (Ret (lru_steps min max os []).1, c) ∧
    l1_Count c = Z.of_nat (length (lru_steps min max os []).2) ∧ (l1_Count c < max)%Z ∧ l1_IsFull c = false.
Proof.
  intros Hm. destruct (run_l1_exec_all min max os _ [] (NewL1Cache_rep s2 min max)) as (c & Hrun & cl & Hi & Hl & Hmin & Hmax).
  exists c. split; [done|]. pose proof (lru_steps_length min max os [] Hm ltac:(cbn; lia)) as Hlen. rewrite <- Hl in *.
  assert (Hc : l1_Count c = Z.of_nat (length cl.*2.*2)).
  { unfold l1_Count. rewrite (li_lookup _ _ (proj2 Hi)), map_size_list_to_map by (rewrite l1_index_keys; apply Hi).
    by rewrite !length_fmap. }
  rewrite Hc. split_and!; [done..|]. unfold l1_IsFull, l1_isFull. rewrite (l1_dll_count c cl Hi), Hmax.
  apply bool_decide_eq_false_2. lia.
Qed.

(** ** The L2 cache behind it *)

(** What only works on the lists leaves the L2 cache alone. *)
Definition same_l2 c c' : Prop := l1_l2CacheNodes c' = l1_l2CacheNodes c.
#[local] Instance same_l2_preorder : PreOrder same_l2.
Proof. split; [by intros c|]. unfold same_l2. intros c1 c2 c3 H1 H2. congruence. Qed.

Lemma same_l2_bind {A B} (m : C A) (k : A → C B) : moves same_l2 m → (∀ a, moves same_l2 (k a)) → moves same_l2 (m ≫= k).
Proof. apply moves_bind, _. Qed.
Lemma same_l2_ret {A} (a : A) : moves same_l2 (mret a : C A).
Proof. apply moves_ret, _. Qed.
Lemma same_l2_gets {A} (f : l1Cache → A) : moves same_l2 (gets f : C A).
Proof. apply moves_gets, _. Qed.
Lemma same_l2_dll {A} (m : M (doublyLinkedList UUID) Empty_set A) : moves same_l2 (on_l1_dll m).
Proof. by apply moves_on. Qed.
Lemma same_l2_deref e : moves same_l2 (l1_deref e).
Proof.
  apply same_l2_bind; [apply same_l2_gets|]. intros [v|]; [apply same_l2_ret|intros c'; done].
Qed.
Lemma same_l2_remove p : moves same_l2 (l1_mru_remove p).
Proof. apply same_l2_bind; [apply same_l2_dll|]. intros b. apply same_l2_ret. Qed.
Lemma same_l2_write e v : moves same_l2 (l1_write e v).
Proof. by apply moves_modify. Qed.

Lemma same_l2_evict : moves same_l2 l1_evict.
Proof.
  assert (Hl : ∀ k, moves same_l2 (l1_evict_loop k)).
  { intros k. induction k as [|k IH]; cbn [l1_evict_loop]; [apply same_l2_ret|].
    apply same_l2_bind; [apply same_l2_dll|]. intros [i|]; [|apply same_l2_ret].
    apply same_l2_bind; [apply same_l2_gets|]. intros v. apply same_l2_bind; [|intros _; exact IH].
    destruct v as [e|]; [|apply same_l2_ret]. apply same_l2_bind; [apply same_l2_deref|]. intros en.
    apply same_l2_bind; [apply same_l2_write|]. intros _. by apply moves_modify. }
  apply same_l2_bind; [apply same_l2_gets|]. intros full. destruct (negb full); [apply same_l2_ret|].
  apply same_l2_bind; [apply same_l2_gets|]. intros n. apply Hl.
Qed.

Lemma same_l2_Set id n : moves same_l2 (SetNodeToMRU id n).
Proof.
  apply same_l2_bind; [apply same_l2_gets|]. intros [e|].
  - apply same_l2_bind; [apply same_l2_deref|]. intros en. apply same_l2_bind; [apply same_l2_write|]. intros _.
    apply same_l2_bind; [apply same_l2_remove|]. intros _. apply same_l2_bind; [apply same_l2_dll|]. intros q. apply same_l2_write.
  - apply same_l2_bind; [apply same_l2_dll|]. intros q. apply same_l2_bind; [by apply moves_modify|]. intros _. apply same_l2_evict.
Qed.

Lemma same_l2_getEntry h : moves same_l2 (getEntryForHandleLocked h).
Proof.
  apply same_l2_bind; [apply same_l2_gets|]. intros [e|]; [|apply same_l2_ret].
  apply same_l2_bind; [apply same_l2_deref|]. intros en. case_decide; [|apply same_l2_ret].
  apply same_l2_bind; [apply same_l2_remove|]. intros _. apply same_l2_bind; [apply same_l2_dll|]. intros q.
  apply same_l2_bind; [apply same_l2_write|]. intros _. apply same_l2_ret.
Qed.

Lemma same_l2_GetNodeFromMRU h target : moves same_l2 (GetNodeFromMRU h target).
Proof.
  apply same_l2_bind; [apply same_l2_getEntry|]. intros [e|]; [|apply same_l2_ret].
  apply same_l2_bind; [|intros v; apply same_l2_ret]. apply same_l2_bind; [apply same_l2_deref|]. intros en. apply same_l2_ret.
Qed.

(** Nothing appears in the lists but what is put there. *)
Lemma lru_find_elem {V} (id : UUID) (n : V) (l : list (UUID * V)) : lru_find id l = Some n → (id, n) ∈ l.
Proof.
  induction l as [|[id' n'] l IH]; cbn [lru_find]; [done|]. case_decide as E; [intros [= ->]; subst; by left|]. intros Hf. right. by apply IH.
Qed.
Lemma lru_remove_elem {V} (id : UUID) (l : list (UUID * V)) x : x ∈ lru_remove id l → x ∈ l.
Proof. intros Hx. by apply list_elem_of_filter in Hx as [_ ?]. Qed.
Lemma lru_touch_elem {V} (id : UUID) (n : V) (l : list (UUID * V)) x : x ∈ lru_touch id n l → x = (id, n) ∨ x ∈ l.
Proof. intros [->|Hx%lru_remove_elem]%elem_of_cons; auto. Qed.
Lemma lru_shrink_elem min max l x : x ∈ lru_shrink min max l → x ∈ l.
Proof.
  unfold lru_shrink. case_decide; [|done]. intros Hx. rewrite <- (take_drop (length l - Z.to_nat (max - min)) l). apply elem_of_app. by left.
Qed.
Lemma lru_put_elem min max id n l x : x ∈ lru_put min max id n l → x = (id, n) ∨ x ∈ l.
Proof.
  unfold lru_put. destruct (lru_find id l); [apply lru_touch_elem|]. intros [->|?]%lru_shrink_elem%elem_of_cons; auto.
Qed.
Lemma lru_read_elem h l x : x ∈ lru_read h l → x ∈ l.
Proof.
  unfold lru_read, lru_hit. destruct (lru_find (GetActiveID h) l) as [n|] eqn:E; cbn; [|done]. case_decide; [|done].
  intros [->|?]%lru_touch_elem; [by apply lru_find_elem|done].
Qed.

Lemma wp_SetNodeToMRU min max c l id n : l1_rep min max c l →
  wp (SetNodeToMRU id n) c (λ _ c', l1_rep min max c' (lru_put min max id n l) ∧ same_l2 c c') (λ _ _, False).
Proof.
  intros Hr. destruct (run_SetNodeToMRU min max c l id n Hr) as (c' & Hrun & Hr'). eapply wp_Ret; [exact Hrun|]. split; [done|].
  pose proof (same_l2_Set id n c) as Hs. unfold wlp in Hs. by rewrite Hrun in Hs.
Qed.

Lemma wp_GetNodeFromMRU min max c l h target : l1_rep min max c l →
  wp (GetNodeFromMRU h target) c (λ r c', r = lru_hit h l ∧ l1_rep min max c' (lru_read h l) ∧ same_l2 c c') (λ _ _, False).
Proof.
  intros Hr. destruct (run_GetNodeFromMRU min max c l h target Hr) as (c' & Hrun & Hr'). eapply wp_Ret; [exact Hrun|]. split_and!; [done..|].
  pose proof (same_l2_GetNodeFromMRU h target c) as Hs. unfold wlp in Hs. by rewrite Hrun in Hs.
Qed.

Lemma l1_rep_l2 min max c l s2 : l1_rep min max c l → l1_rep min max (set_l1_l2 s2 c) l.
Proof. intros (cl & [Hd [H1 H2 H3 H4]] & Hl & Hm). exists cl. split; [|done]. split; [done|]. by constructor. Qed.

Lemma GetNode_hit h target ttl d c r c' : GetNodeFromMRU h target c = (Ret r, c') →
  GetNode h target ttl d c = match r with Some v => (Ret (Some v), c') | None => GetNode h target ttl d c end.
Proof.
  unfold GetNodeFromMRU, GetNode, mbind, M_bind. destruct (getEntryForHandleLocked h c) as [[[e|]|e|] c1]; [|by intros [= <- <-]|done..].
  destruct (read_entry e target c1) as [[v|x|] c2]; [|done..]. by intros [= <- <-].
Qed.

(** [GetNode]: the node of the L1 cache, or the one that the L2 cache has, which is
    then also in the L1 cache. *)
Lemma wp_GetNode min max c l h target ttl d (Q2 : option Nd → CS → Prop) (E2 : CE → CS → Prop) : l1_rep min max c l →
  wp (if (ttl : bool) then l2_GetStructEx (GetActiveID h) d else l2_GetStruct (GetActiveID h)) (l1_l2CacheNodes c) Q2 E2 →
  wp (GetNode h target ttl d) c
    (λ r c', (∃ v, r = Some v ∧ lru_hit h l = Some v ∧ l1_rep min max c' (lru_read h l) ∧ same_l2 c c') ∨
             (r = None ∧ l1_rep min max c' l ∧ Q2 None (l1_l2CacheNodes c')) ∨
             (∃ v, r = Some v ∧ l1_rep min max c' (lru_put min max (GetActiveID h) v l) ∧ Q2 (Some v) (l1_l2CacheNodes c')))
    (λ e c', l1_rep min max c' l ∧ E2 e (l1_l2CacheNodes c')).
Proof.
  intros Hr H2. destruct (wp_returns _ _ _ (wp_GetNodeFromMRU min max c l h target Hr)) as (r & c' & Hrun & -> & Hr' & Hs).
  pose proof (GetNode_hit h target ttl d c _ _ Hrun) as Hg. destruct (lru_hit h l) as [v|] eqn:Eh.
  - unfold wp. rewrite Hg. left. eauto.
  - unfold lru_read in Hr'. rewrite Eh in Hr'. clear Hg. unfold GetNode. apply wp_bind.
    assert (Hn : getEntryForHandleLocked h c = (Ret None, c')).
    { revert Hrun. unfold GetNodeFromMRU, mbind, M_bind. destruct (getEntryForHandleLocked h c) as [[[e|]|e|] c1]; [|by intros [= <-]|done..].
      by destruct (read_entry e target c1) as [[v|x|] c2]. }
    eapply wp_Ret; [exact Hn|]. cbv beta. apply wp_bind, wp_on.
    unfold same_l2 in Hs. rewrite Hs. eapply wp_mono; [exact H2| |].
    + intros [v|] s2 HQ; [|apply wp_ret; right; left; split_and!; [done|by apply l1_rep_l2|done]].
      apply wp_bind. eapply wp_mono; [apply wp_SetNodeToMRU; by apply l1_rep_l2| |done].
      intros [] c2 [Hr2 Hs2]. apply wp_ret. right. right. exists v. split_and!; [done..|]. unfold same_l2 in Hs2. by rewrite Hs2.
    + intros e s2 HE. split; [by apply l1_rep_l2|done].
Qed.

(** [SetNode], whatever the L2 cache does with it. *)
Lemma wp_SetNode min max c l id n d (Q2 : CS → Prop) : l1_rep min max c l →
  wp (l2_SetStruct id n d) (l1_l2CacheNodes c) (λ _ s2, Q2 s2) (λ _ s2, Q2 s2) →
  wp (SetNode id n d) c (λ _ c', l1_rep min max c' (lru_put min max id n l) ∧ Q2 (l1_l2CacheNodes c')) (λ _ _, False).
Proof.
  intros Hr H2. apply wp_bind. eapply wp_mono; [by apply wp_SetNodeToMRU| |done]. intros [] c1 [Hr1 Hs1].
  apply wp_handle, wp_on. unfold same_l2 in Hs1. rewrite Hs1.
  eapply wp_mono; [exact H2| |]; intros ? s2 HQ; apply wp_ret; (split; [by apply l1_rep_l2|done]).
Qed.

(** ** Reading an entry outside the lock *)

(** The entry that a reader has found: it is empty, or holds one of the nodes in [ok];
    only [id] leads to it. *)
Record watched (id : UUID) (ok : Nd → Prop) (e : N) c : Prop := mkWatched {
  wt_entry : ∃ en, l1_entries c !! e = Some en ∧ (∀ n, le_nodeData en = Some n → ok n);
  wt_index : ∀ id', l1_lookup c !! id' = Some e → id' = id;
  wt_old : (e < l1_fresh c)%N;
}.

Lemma watched_write id ok e e' en c : (e' = e → ∀ n, le_nodeData en = Some n → ok n) → watched id ok e c →
  watched id ok e (set_l1_entries (<[e' := en]> (l1_entries c)) c).
Proof.
  intros Hen [(en0 & He & Hn) Hx Ho]. constructor; [|done..]. cbn. destruct (decide (e' = e)) as [->|Hne].
  - exists en. rewrite lookup_insert_eq. eauto.
  - exists en0. by rewrite lookup_insert_ne.
Qed.

Lemma watched_drop id ok e id' c : watched id ok e c → watched id ok e (set_l1_lookup (base.delete id' (l1_lookup c)) c).
Proof.
  intros [He Hx Ho]. constructor; [done| |done]. cbn. intros id2. rewrite lookup_delete_Some. intros [_ ?]. by apply Hx.
Qed.

Lemma watched_same id ok e c c' : l1_entries c' = l1_entries c → l1_lookup c' = l1_lookup c → l1_fresh c' = l1_fresh c →
  watched id ok e c → watched id ok e c'.
Proof. intros E1 E2 E3 [He Hx Ho]. constructor; [by rewrite E1|by rewrite E2|by rewrite E3]. Qed.

Definition keeps_watch (id : UUID) (ok : Nd → Prop) (e : N) {A} (m : C A) : Prop :=
  ∀ c, watched id ok e c → wlp m c (λ _ c', watched id ok e c') (λ _ c', watched id ok e c').

Lemma watch_bind id ok e {A B} (m : C A) (k : A → C B) :
  keeps_watch id ok e m → (∀ a, keeps_watch id ok e (k a)) → keeps_watch id ok e (m ≫= k).
Proof. intros Hm Hk c Hc. apply wlp_bind. eapply wlp_mono; [by apply Hm|intros a c' Hc'; by apply Hk|done]. Qed.

Lemma watch_dll id ok e {A} (m : M (doublyLinkedList UUID) Empty_set A) : keeps_watch id ok e (on_l1_dll m).
Proof. intros c Hc. apply wlp_on. unfold wlp. destruct (m (l1_dll c)) as [[a|[]|] d]; [|done]. by apply (watched_same _ _ _ c). Qed.

Lemma watch_ret id ok e {A} (a : A) : keeps_watch id ok e (mret a).
Proof. intros c Hc. by apply wlp_ret. Qed.

(** A read of the state. *)
Lemma watch_gets id ok e {A B} (f : l1Cache → A) (k : A → C B) :
  (∀ c, watched id ok e c → wlp (k (f c)) c (λ _ c', watched id ok e c') (λ _ c', watched id ok e c')) →
  keeps_watch id ok e (gets f ≫= k).
Proof. intros Hk c Hc. apply wlp_bind, wlp_gets. by apply Hk. Qed.

Lemma watch_deref id ok e e' {B} (k : l1CacheEntry → C B) c :
  (∀ en, l1_entries c !! e' = Some en → wlp (k en) c (λ _ c', watched id ok e c') (λ _ c', watched id ok e c')) →
  wlp (l1_deref e' ≫= k) c (λ _ c', watched id ok e c') (λ _ c', watched id ok e c').
Proof.
  intros Hk. apply wlp_bind. unfold l1_deref. apply wlp_bind, wlp_gets. destruct (l1_entries c !! e') as [en|] eqn:E; [|done].
  apply wlp_ret. by apply Hk.
Qed.

Lemma watch_add id ok e i : keeps_watch id ok e (l1_mru_add i).
Proof. apply watch_dll. Qed.
Lemma watch_remove id ok e p : keeps_watch id ok e (l1_mru_remove p).
Proof. apply watch_bind; [apply watch_dll|intros; apply watch_ret]. Qed.

Lemma watch_evict_loop id ok e k : keeps_watch id ok e (l1_evict_loop k).
Proof.
  induction k as [|k IH]; cbn [l1_evict_loop]; [apply watch_ret|].
  apply watch_bind; [apply watch_dll|]. intros [i|]; [|apply watch_ret].
  apply watch_gets. intros c Hc. apply wlp_bind.
  eapply (wlp_mono _ _ (λ _ c', watched id ok e c') _ (λ _ c', watched id ok e c')); [|intros; by apply IH|done].
  destruct (l1_lookup c !! i) as [e'|] eqn:E; [|by apply wlp_ret].
  apply watch_deref. intros en Hen. apply wlp_bind, wlp_modify, wlp_modify. apply watched_drop, watched_write; [|done].
  intros _ n. done.
Qed.

Lemma watch_evict id ok e : keeps_watch id ok e l1_evict.
Proof.
  apply watch_gets. intros c Hc. destruct (negb _); [by apply wlp_ret|]. apply wlp_bind, wlp_gets. by apply watch_evict_loop.
Qed.

Lemma watch_Set id (ok : Nd → Prop) e i n : (i = id → ok n) → keeps_watch id ok e (SetNodeToMRU i n).
Proof.
  intros Hok. unfold SetNodeToMRU. apply watch_gets. intros c Hc. destruct (l1_lookup c !! i) as [e'|] eqn:E.
  - assert (Hn : e' = e → ∀ m, le_nodeData (mkL1Entry (GetVersion n) (Some n) None) = Some m → ok m).
    { intros -> m [= <-]. apply Hok. by apply (wt_index _ _ _ _ Hc). }
    apply watch_deref. intros en Hen. apply wlp_bind, wlp_modify.
    apply watch_bind; [apply watch_remove| |by apply watched_write].
    intros _. apply watch_bind; [apply watch_add|]. intros q c' Hc'. apply wlp_modify. by apply watched_write.
  - revert c Hc E. intros c0 Hc _. revert c0 Hc. apply watch_bind; [apply watch_add|]. intros q.
    apply watch_bind; [|intros; apply watch_evict]. intros c [(en & He & Hn) Hx Ho]. apply wlp_modify. constructor.
    + exists en. cbn. rewrite lookup_insert_ne by lia. done.
    + cbn. intros id'. rewrite lookup_insert_Some. intros [[_ E]|[_ ?]]; [lia|by apply Hx].
    + cbn. lia.
Qed.

Lemma watch_getEntry id ok e h : keeps_watch id ok e (getEntryForHandleLocked h).
Proof.
  unfold getEntryForHandleLocked. apply watch_gets. intros c Hc. destruct (l1_lookup c !! _) as [e'|] eqn:E; [|by apply wlp_ret].
  apply watch_deref. intros en Hen. case_decide; [|by apply wlp_ret]. revert c Hc E Hen. intros c0 Hc0 _ Hen.
  assert (Hn : e' = e → ∀ m, le_nodeData en = Some m → ok m).
  { intros ->. destruct (wt_entry _ _ _ _ Hc0) as (en' & He' & ?). by simplify_eq. }
  revert c0 Hc0 Hen. intros c0 Hc0 _. revert c0 Hc0.
  apply watch_bind; [apply watch_remove|]. intros _. apply watch_bind; [apply watch_add|]. intros q.
  apply watch_bind; [|intros; apply watch_ret]. intros c Hc. apply wlp_modify. by apply watched_write.
Qed.

Lemma watch_delete id ok e ids : keeps_watch id ok e (delete_mru ids).
Proof.
  induction ids as [|i ids IH]; cbn [delete_mru]; [apply watch_ret|].
  apply watch_gets. intros c Hc. destruct (l1_lookup c !! i) as [e'|] eqn:E; [|by apply IH].
  apply watch_deref. intros en Hen. revert c Hc E Hen. intros c0 Hc0 _ _. revert c0 Hc0.
  apply watch_bind; [apply watch_remove|]. intros _.
  apply watch_bind; [intros c Hc; apply wlp_modify; by apply watched_write|]. intros _.
  apply watch_bind; [intros c Hc; apply wlp_modify; by apply watched_drop|]. intros _.
  apply watch_bind; [exact IH|]. intros; apply watch_ret.
Qed.

Lemma watch_exec id (ok : Nd → Prop) e o : (∀ n, o = L1Set id n → ok n) → keeps_watch id ok e (l1_exec o).
Proof.
  intros Hok. destruct o as [i n|h target|ids|]; cbn [l1_exec].
  - apply watch_bind; [|intros; apply watch_ret]. apply watch_Set. intros ->. by apply Hok.
  - apply watch_bind; [apply watch_getEntry|]. intros [e'|]; [|apply watch_ret].
    apply watch_bind; [|intros; apply watch_ret]. intros c Hc. apply watch_deref. intros en _. by apply wlp_ret.
  - apply watch_bind; [apply watch_delete|]. intros; apply watch_ret.
  - apply watch_bind; [apply watch_evict|]. intros; apply watch_ret.
Qed.

Lemma watch_exec_all id (ok : Nd → Prop) e os : (∀ n, L1Set id n ∈ os → ok n) → keeps_watch id ok e (l1_exec_all os).
Proof.
  induction os as [|o os IH]; intros Hok; cbn [l1_exec_all]; [apply watch_ret|].
  apply watch_bind; [apply watch_exec; intros n ->; apply Hok; by left|]. intros r.
  apply watch_bind; [apply IH; intros n Hn; apply Hok; by right|]. intros; apply watch_ret.
Qed.

(** C31: A reader that has found the entry of a handle and looks into it after any
    other operations gets the node it found, or one that was set for the same ID in
    between, or its own target untouched. *)
Theorem l1_read_outside_lock min max c l h target e c1 os rs c2 : l1_rep min max c l →
  getEntryForHandleLocked h c = (Ret (Some e), c1) → l1_exec_all os c1 = (Ret rs, c2) →
  ∃ v, read_entry e target c2 = (Ret v, c2) ∧
    (lru_hit h l = Some v ∨ L1Set (GetActiveID h) v ∈ os ∨ v = target).
Proof.
  intros Hr Hget Hos.
  set (ok := λ v, lru_hit h l = Some v ∨ L1Set (GetActiveID h) v ∈ os).
  destruct (run_GetNodeFromMRU min max c l h target Hr) as (c' & Hrun & Hr').
  unfold GetNodeFromMRU in Hrun. rewrite (bind_Ret _ _ _ _ _ Hget) in Hrun.
  assert (Hlk : l1_lookup c !! GetActiveID h = Some e ∧ l1_lookup c1 = l1_lookup c ∧ l1_fresh c1 = l1_fresh c).
  { clear -Hget. revert Hget. unfold getEntryForHandleLocked, mbind, M_bind, gets. cbn.
    destruct (l1_lookup c !! GetActiveID h) as [e'|]; [|done]. unfold l1_deref, mbind, M_bind, gets.
    destruct (l1_entries c !! e') as [en|]; cbn; [|done]. case_decide; [|done].
    unfold l1_mru_remove, l1_mru_add, on_l1_dll, on, mbind, M_bind.
    destruct (dll_delete _ _) as [[b|[]|] d]; cbn; [|done].
    destruct (addToHead _ _) as [[q|[]|] d']; cbn; [|done]. by intros [= <- <-]. }
  destruct Hlk as (Hlk & Hsame & Hfresh).
  assert (Hw : watched (GetActiveID h) ok e c1).
  { revert Hrun. unfold read_entry, l1_deref, mbind, M_bind, gets. cbn.
    destruct (l1_entries c1 !! e) as [en|] eqn:Een; cbn; [|done]. intros [= Hv ->].
    destruct Hr as (cl & [_ Hf] & <- & _). pose proof Hlk as Hlk'.
    destruct (l1_lookup_Some _ _ _ _ Hf Hlk') as (cl1 & p & n & cl2 & ->).
    constructor.
    - exists en. split; [done|]. intros m Hm. left. rewrite Hm in Hv. done.
    - rewrite Hsame. intros id' (cl3 & q & m & cl4 & E)%(l1_lookup_Some _ _ _ _ Hf).
      apply l1_filed_front in Hf. pose proof (li_entries _ _ Hf) as Hnd.
      assert (Hin : (q, (e, (id', m))) ∈ (p, (e, (GetActiveID h, n))) :: cl1 ++ cl2).
      { rewrite Permutation_middle, E, elem_of_app. right. by left. }
      apply elem_of_cons in Hin as [Hin|Hin]; [congruence|]. exfalso. cbn in Hnd. apply NoDup_cons in Hnd as [Hnd _].
      apply Hnd. change e with ((q, (e, (id', m))).2.1). do 2 (apply (list_elem_of_fmap_2 _ _ _)). done.
    - rewrite Hfresh. apply l1_filed_front in Hf. pose proof (li_stored _ _ Hf) as Hs. apply Forall_cons in Hs as [[_ Hs] _]. done. }
  pose proof (watch_exec_all (GetActiveID h) ok e os ltac:(by right) c1 Hw) as Hend. unfold wlp in Hend. rewrite Hos in Hend.
  destruct (wt_entry _ _ _ _ Hend) as (en & He & Hn). exists (from_option id target (le_nodeData en)). split.
  - unfold read_entry, l1_deref, mbind, M_bind, gets. by rewrite He.
  - destruct (le_nodeData en) as [v|]; [|by right; right]. cbn. destruct (Hn v eq_refl); auto.
Qed.
End l1.

(** ** Instances and findings *)

(** Nodes are a version and a number; the L2 cache is a map. *)
#[local] Instance ex_L2Nodes : L2Nodes (gmap UUID (Z * Z)) Empty_set (Z * Z) := {
  l2_SetStruct id n ttl := λ s, (Ret (), <[id := n]> s);
  l2_GetStruct id := λ s, (Ret (s !! id), s);
  l2_GetStructEx id ttl := λ s, (Ret (s !! id), s);
  l2_Delete id := λ s, (Ret (bool_decide (is_Some (s !! id))), base.delete id s);
}.
Abbreviation x_exec_all := (l1_exec_all (CS := gmap UUID (Z * Z)) (CE := Empty_set) fst).
Abbreviation x_find := (getEntryForHandleLocked (CS := gmap UUID (Z * Z)) (CE := Empty_set) (Nd := Z * Z)).
Abbreviation x_read := (read_entry (CS := gmap UUID (Z * Z)) (CE := Empty_set) (Nd := Z * Z)).
Abbreviation x_new min max := (NewL1Cache (CS := gmap UUID (Z * Z)) (Nd := Z * Z) ∅ min max).
(** The handle of node [id] in version [v]. *)
Definition x_handle (id : UUID) (v : Z) : Handle := mkHandle id id NilUUID false v 0 false.

(** Room for two of three nodes; a handle of another version does not hit. *)
Example l1_refines_lru_witness : ∃ c,
  x_exec_all [L1Set 1 (1, 10)%Z; L1Set 2 (1, 20)%Z; L1Get (x_handle 1 1) (0, 0)%Z; L1Get (x_handle 2 2) (0, 0)%Z;
              L1Set 3 (1, 30)%Z; L1Get (x_handle 2 1) (0, 0)%Z] (x_new 2 3)
    = (Ret [None; None; Some (1, 10)%Z; None; None; None], c) ∧ (l1_Count c < 3)%Z.
Proof.
  destruct (l1_refines_lru (CE := Empty_set) fst (∅ : gmap UUID (Z * Z)) 2 3
    [L1Set 1 (1, 10)%Z; L1Set 2 (1, 20)%Z; L1Get (x_handle 1 1) (0, 0)%Z; L1Get (x_handle 2 2) (0, 0)%Z;
     L1Set 3 (1, 30)%Z; L1Get (x_handle 2 1) (0, 0)%Z] ltac:(lia)) as (c & Hrun & _ & Hc & _).
  exists c. split; [exact Hrun|exact Hc].
Defined.

(** A cache with node 1 in version 1, and a reader that has found its entry. *)
Definition x_cached : l1Cache := (x_exec_all [L1Set 1 (1, 10)%Z] (x_new 2 3)).2.
Lemma x_cached_rep : l1_rep fst 2 3 x_cached [(1%N, (1, 10)%Z)].
Proof.
  destruct (run_l1_exec_all (CE := Empty_set) fst 2 3 [L1Set 1 (1, 10)%Z] _ [] (NewL1Cache_rep fst (∅ : gmap UUID (Z * Z)) 2 3))
    as (c & Hrun & Hr).
  replace x_cached with c; [exact Hr|]. unfold x_cached. by rewrite Hrun.
Qed.
Definition x_between (os : list l1_op) : outcome Empty_set (Z * Z) :=
  (x_read 0%N (0, 0)%Z (x_exec_all os (x_find (x_handle 1 1) x_cached).2).2).1.

Example l1_read_outside_lock_witness : ∃ v,
  x_between [L1Set 1 (2, 11)%Z; L1Delete [2%N]] = Ret v ∧
  (lru_hit fst (x_handle 1 1) [(1%N, (1, 10)%Z)] = Some v ∨ L1Set 1 v ∈ [L1Set 1 (2, 11)%Z; L1Delete [2%N]] ∨ v = (0, 0)%Z).
Proof.
  destruct (l1_read_outside_lock (CE := Empty_set) fst 2 3 x_cached [(1%N, (1, 10)%Z)] (x_handle 1 1) (0, 0)%Z 0%N (x_find (x_handle 1 1) x_cached).2
    [L1Set 1 (2, 11)%Z; L1Delete [2%N]] [None; None]
    (x_exec_all [L1Set 1 (2, 11)%Z; L1Delete [2%N]] (x_find (x_handle 1 1) x_cached).2).2 x_cached_rep) as (v & Hv & Hor).
  - vm_compute. reflexivity.
  - vm_compute. reflexivity.
  - exists v. split; [unfold x_between; by rewrite Hv|exact Hor].
Defined.

(** An eviction between the two: the reader gets its empty target as the node. *)
Example evicted_entry_hits : x_between [L1Set 2 (1, 20)%Z; L1Set 3 (1, 30)%Z; L1Set 4 (1, 40)%Z] = Ret (0, 0)%Z ∧
  x_between [L1Delete [1%N]] = Ret (0, 0)%Z.
Proof. split; vm_compute; reflexivity. Qed.

(** A writer between the two: the reader of version 1 gets version 2. *)
Example other_version_hits : x_between [L1Set 1 (2, 11)%Z] = Ret (2, 11)%Z.
Proof. vm_compute. reflexivity. Qed.

(** With equal capacities nothing is ever evicted. *)
Example equal_capacities_grow :
  l1_Count (x_exec_all [L1Set 1 (1, 1)%Z; L1Set 2 (1, 1)%Z; L1Set 3 (1, 1)%Z; L1Evict] (x_new 2 2)).2 = 3%Z.
Proof. vm_compute. reflexivity. Qed.
