(* ===== verification/NodeLocal.v ===== *)
(** * common/noderepository.frontend.go and noderepository.backend.go: the nodes of a
    transaction before its commit

    A B-tree gets its nodes from the local cache of its transaction, from a small MRU
    cache of nodes it only read, from the L1 and L2 caches, and from the blob store
    under the ID that the registry names.  Changes stay in the local cache, with the
    action that the commit will take.  The reference is a table of the touched nodes
    over a map of the stored ones. *)

From stdpp Require Import gmap.
From S2P Require Import Prelude Wp Handle HashmapSpec Stores LinkedList Cache NodeRepo TwoPhase L1Cache.

Local Abbreviation cachedNode := (TwoPhase.cachedNode).

Section session.
Context {RS RE BS BE Nd : Type} `{RO : Stores.Registry RS RE} `{BO : Stores.BlobStore BS BE} `{MD : MetaData Nd} `{VO : Versioned Nd}.
(** The store of the B-tree and its TTL flags; a node as [Get] makes it for a target,
    and what the marshaler makes of it: an error is ignored. *)
Context (storeInfo : StoreInfo) (IsNodeCacheTTL : bool) (NodeCacheDuration : Z).
Context (target : Nd) (Unmarshal : list Z → Nd → Nd).
(** The reads of the L2 cache that fail. *)
Context (l2_getfails : UUID → option (repo_error RE BE)).

Local Abbreviation world := (@NodeRepo.world RS BS Nd).
Local Abbreviation error := (repo_error RE BE).

(** The L2 cache of the nodes is a part of the world. *)
Definition l2_read (id : UUID) : M world error (option Nd) :=
  match l2_getfails id with Some e => fail e | None => gets (λ w, w_l2nodes w !! id) end.
#[local] Instance world_L2Nodes : L2Nodes world error Nd := {
  l2_SetStruct id n ttl := l2_SetNode id n;
  l2_GetStruct := l2_read;
  l2_GetStructEx id ttl := l2_read id;
  l2_Delete id := l2_DeleteNode id;
}.

(** [nodeRepositoryBackend]: the phase is that of its transaction, the handles and
    nodes of the L1 cache are shared by the process. *)
Record nodeRepository := mkNodeRepository {
  nr_phaseDone : Z;
  nr_localCache : gmap UUID (cachedNode (Nd := Nd));
  nr_readNodesCache : cache UUID (option Nd);
  nr_handles : cache UUID Handle;
  nr_l1 : l1Cache (CS := world) (Nd := Nd);
}.
Definition set_nr_localCache (m : gmap UUID (cachedNode (Nd := Nd))) (s : nodeRepository) : nodeRepository :=
  mkNodeRepository (nr_phaseDone s) m (nr_readNodesCache s) (nr_handles s) (nr_l1 s).
Definition set_nr_readNodesCache (c : cache UUID (option Nd)) (s : nodeRepository) : nodeRepository :=
  mkNodeRepository (nr_phaseDone s) (nr_localCache s) c (nr_handles s) (nr_l1 s).
Definition set_nr_handles (c : cache UUID Handle) (s : nodeRepository) : nodeRepository :=
  mkNodeRepository (nr_phaseDone s) (nr_localCache s) (nr_readNodesCache s) c (nr_l1 s).
Definition set_nr_l1 (c : l1Cache (CS := world) (Nd := Nd)) (s : nodeRepository) : nodeRepository :=
  mkNodeRepository (nr_phaseDone s) (nr_localCache s) (nr_readNodesCache s) (nr_handles s) c.

Local Abbreviation N_ := (M nodeRepository error).

Definition on_read {A} (m : M (cache UUID (option Nd)) Empty_set A) : N_ A :=
  on nr_readNodesCache set_nr_readNodesCache (λ e : Empty_set, match e with end) m.
Definition on_handles {A} (m : M (cache UUID Handle) Empty_set A) : N_ A :=
  on nr_handles set_nr_handles (λ e : Empty_set, match e with end) m.
Definition on_nodes {A} (m : M (l1Cache (CS := world) (Nd := Nd)) error A) : N_ A := on nr_l1 set_nr_l1 id m.
Definition on_store {A} (m : M world error A) : N_ A := on_nodes (on_l2 m).

Definition readNodesMruMinCapacity : Z := 8.
Definition readNodesMruMaxCapacity : Z := 12.

(** [newNodeRepository] *)
Definition newNodeRepository (phaseDone : Z) (handles : cache UUID Handle) (l1 : l1Cache (CS := world) (Nd := Nd)) : nodeRepository :=
  mkNodeRepository phaseDone ∅ (NewCache readNodesMruMinCapacity readNodesMruMaxCapacity) handles l1.

(** [readNodesCache.Get] and [Set] of one node; nil is [None]. *)
Definition read_get (id : UUID) : N_ (option Nd) :=
  v ← on_read (Cache.Get None [id]); or_panic (v !! 0).
Definition read_set (id : UUID) (n : Nd) : N_ () := on_read (Cache.Set_ [(id, Some n)]).
Definition read_delete (id : UUID) : N_ () := on_read (Cache.Delete [id]).

Definition put_local (id : UUID) (n : Nd) (a : actionType) : N_ () :=
  modify (λ s, set_nr_localCache (<[id := mkCachedNode n a]> (nr_localCache s)) s).

(** From the handle that the L1 cache has, before the commit begins. *)
Definition get_early (logicalID : UUID) : N_ (option Nd) :=
  phaseDone ← gets nr_phaseDone;
  if decide (phaseDone = 0%Z) then
    hs ← on_handles (Cache.Get zero_handle [logicalID]);
    h ← or_panic (hs !! 0);
    if negb (Handle.IsEmpty h) then on_nodes (GetNodeFromMRU (CE := error) h target) else mret None
  else mret None.

(** From the L1 and L2 caches or the blob store, under a handle. *)
Definition load_node (logicalID : UUID) (h : Handle) : N_ (option Nd) :=
  n ← on_nodes (GetNode GetVersion h target IsNodeCacheTTL NodeCacheDuration);
  match (n : option Nd) with
  | Some n =>
      let n := SetVersion (Version h) n in
      read_set logicalID n;; mret (Some n)
  | None =>
      ba ← on_store (on_blobStore (blobStore_GetOne (si_BlobTable storeInfo) (GetActiveID h)));
      let n := SetVersion (Version h) (Unmarshal ba target) in
      on_nodes (SetNode GetVersion (GetActiveID h) n NodeCacheDuration);;
      read_set logicalID n;; mret (Some n)
  end.

(** Under the handle of the registry. *)
Definition get_stored (logicalID : UUID) : N_ (option Nd) :=
  hs ← on_store (on_registry (registry_Get [mkRegistryPayload (si_RegistryTable storeInfo) EmptyString
         (si_RegistryCacheDuration storeInfo) (si_IsRegistryCacheTTL storeInfo) [logicalID]]));
  match (hs : list (RegistryPayload Handle)) with
  | [] | mkRegistryPayload _ _ _ _ [] :: _ => mret None
  | mkRegistryPayload _ _ _ _ (h :: _) :: _ => load_node logicalID h
  end.

(** [get], and [Get] of the frontend. *)
Definition nr_Get (logicalID : UUID) : N_ (option Nd) :=
  v ← gets (λ s, nr_localCache s !! logicalID);
  match v with
  | Some v => if decide (cn_action v = removeAction) then mret None else mret (Some (cn_node v))
  | None =>
      r ← read_get logicalID;
      match r with
      | Some n => mret (Some n)
      | None =>
          e ← get_early logicalID;
          match e with
          | Some n => read_set logicalID n;; mret (Some n)
          | None => get_stored logicalID
          end
      end
  end.

Definition nr_Add (nodeID : UUID) (node : Nd) : N_ () := put_local nodeID node addAction.

(** A node that was read moves to the local cache. *)
Definition migrate (nodeID : UUID) (a : actionType) : N_ () :=
  n ← read_get nodeID;
  match n with
  | Some n => put_local nodeID n a;; read_delete nodeID
  | None => mret ()
  end.

Definition nr_Update (nodeID : UUID) (node : Nd) : N_ () :=
  migrate nodeID defaultAction;;
  v ← gets (λ s, nr_localCache s !! nodeID);
  match v with
  | Some v => put_local nodeID node (if decide (cn_action v = addAction) then addAction else updateAction)
  | None => put_local nodeID node addAction
  end.

Definition nr_Remove (nodeID : UUID) : N_ () :=
  migrate nodeID defaultAction;;
  v ← gets (λ s, nr_localCache s !! nodeID);
  match v with
  | Some v =>
      if decide (cn_action v = addAction)
      then modify (λ s, set_nr_localCache (base.delete nodeID (nr_localCache s)) s)
      else put_local nodeID (cn_node v) removeAction
  | None => mret ()
  end.

Definition nr_Fetched (nodeID : UUID) : N_ () := migrate nodeID getAction.

Inductive nr_op := NrGet (id : UUID) | NrAdd (id : UUID) (n : Nd) | NrUpdate (id : UUID) (n : Nd) | NrRemove (id : UUID) | NrFetched (id : UUID).

Definition nr_exec (o : nr_op) : N_ (option Nd) :=
  match o with
  | NrGet id => nr_Get id
  | NrAdd id n => nr_Add id n;; mret None
  | NrUpdate id n => nr_Update id n;; mret None
  | NrRemove id => nr_Remove id;; mret None
  | NrFetched id => nr_Fetched id;; mret None
  end.
Fixpoint nr_exec_all (os : list nr_op) : N_ (list (option Nd)) :=
  match os with [] => mret [] | o :: os => r ← nr_exec o; rs ← nr_exec_all os; mret (r :: rs) end.

(** ** The reference: touched nodes over stored ones *)

Local Abbreviation touched := (gmap UUID (cachedNode (Nd := Nd))).
Implicit Types (T : gmap UUID Handle) (R : gset UUID) (B : gmap (string * UUID) (list Z)) (L : touched) (s : nodeRepository) (w : world).
Implicit Types (st : UUID → option Nd) (id : UUID) (n : Nd) (h : Handle).

(** The node that the registry and the blob store have under an ID. *)
Definition stored_node T B id : option Nd :=
  h ← T !! id; ba ← B !! (si_BlobTable storeInfo, GetActiveID h); Some (SetVersion (Version h) (Unmarshal ba target)).

Definition ref_get st L id : option Nd :=
  match L !! id with
  | Some v => if decide (cn_action v = removeAction) then None else Some (cn_node v)
  | None => st id
  end.
(** A node is added if it is new, and updated if it is stored. *)
Definition ref_update st id n L : touched :=
  <[id := mkCachedNode n
     (match L !! id with
      | Some v => if decide (cn_action v = addAction) then addAction else updateAction
      | None => if st id then updateAction else addAction
      end)]> L.
(** A node that was added is forgotten, a stored one is marked. *)
Definition ref_remove st id L : touched :=
  match L !! id with
  | Some v => if decide (cn_action v = addAction) then base.delete id L else <[id := mkCachedNode (cn_node v) removeAction]> L
  | None => match st id with Some n => <[id := mkCachedNode n removeAction]> L | None => L end
  end.
Definition ref_fetched st id L : touched :=
  match L !! id, st id with None, Some n => <[id := mkCachedNode n getAction]> L | _, _ => L end.

Definition ref_step st (o : nr_op) L : option Nd * touched :=
  match o with
  | NrGet id => (ref_get st L id, L)
  | NrAdd id n => (None, <[id := mkCachedNode n addAction]> L)
  | NrUpdate id n => (None, ref_update st id n L)
  | NrRemove id => (None, ref_remove st id L)
  | NrFetched id => (None, ref_fetched st id L)
  end.
Fixpoint ref_steps st (os : list nr_op) L : list (option Nd) * touched :=
  match os with
  | [] => ([], L)
  | o :: os => let '(r, L) := ref_step st o L in let '(rs, L) := ref_steps st os L in (r :: rs, L)
  end.

(** What the code relies on: a B-tree adds nodes that are new, and changes, removes
    and marks nodes that are in one of the caches of the transaction, or new. *)
Definition is_held st s id : Prop :=
  is_Some (nr_localCache s !! id) ∨ is_Some (c_lookup (nr_readNodesCache s) !! id) ∨ st id = None.
Definition relied_on st (o : nr_op) s : Prop :=
  match o with
  | NrGet _ => True
  | NrAdd id _ => st id = None
  | NrUpdate id _ | NrRemove id | NrFetched id => is_held st s id
  end.
Fixpoint all_relied_on st (os : list nr_op) s : Prop :=
  match os with
  | [] => True
  | o :: os => relied_on st o s ∧ ∀ r s', nr_exec o s = (Ret r, s') → all_relied_on st os s'
  end.

(** The same as a check that runs the operations. *)
Definition is_heldb st s id : bool :=
  bool_decide (is_Some (nr_localCache s !! id)) || bool_decide (is_Some (c_lookup (nr_readNodesCache s) !! id)) ||
  (if st id then false else true).
Definition relied_onb st (o : nr_op) s : bool :=
  match o with
  | NrGet _ => true
  | NrAdd id _ => if st id then false else true
  | NrUpdate id _ | NrRemove id | NrFetched id => is_heldb st s id
  end.
Fixpoint all_relied_onb st (os : list nr_op) s : bool :=
  match os with
  | [] => true
  | o :: os => relied_onb st o s && match nr_exec o s with (Ret _, s') => all_relied_onb st os s' | _ => true end
  end.

Lemma relied_onb_sound st o s : relied_onb st o s = true → relied_on st o s.
Proof.
  assert (Hh : ∀ id, is_heldb st s id = true → is_held st s id).
  { intros id. unfold is_heldb, is_held. rewrite !orb_true_iff, !bool_decide_eq_true. destruct (st id); naive_solver. }
  destruct o; cbn; auto. by destruct (st _).
Qed.
Lemma all_relied_onb_sound st os : ∀ s, all_relied_onb st os s = true → all_relied_on st os s.
Proof.
  induction os as [|o os IH]; intros s; cbn; [done|]. intros [Ho Hr]%andb_true_iff. split; [by apply relied_onb_sound|].
  intros r s' E. rewrite E in Hr. by apply IH.
Qed.

(** ** The caches agree with the stores *)

Section refinement.
Context (home : UUID → string) `{RL : !RegistryLaws RS RE home} `{BL : !BlobStoreLaws BS BE}.
Context (T : gmap UUID Handle) (R : gset UUID) (B : gmap (string * UUID) (list Z)).
Hypothesis SetVersion_id : ∀ n, SetVersion (GetVersion n) n = n.
Hypothesis GetVersion_set : ∀ v n, GetVersion (SetVersion v n) = v.
(** No two nodes have the same active node. *)
Hypothesis active_unique : ∀ id id' h h', T !! id = Some h → T !! id' = Some h' → GetActiveID h = GetActiveID h' → id = id'.

Local Abbreviation st := (stored_node T B).

(** The stores hold [T] and [B], and what the L2 cache has of a node differs from
    it in the version at most. *)
Record world_agrees w : Prop := mkWorldAgrees {
  wa_registry : holds (w_registry w) T R;
  wa_blobs : blob_holds (w_blobStore w) B;
  wa_l2 : ∀ id h n, T !! id = Some h → w_l2nodes w !! GetActiveID h = Some n → st id = Some (SetVersion (Version h) n);
}.
(** A node of the L1 cache with the version of the handle is the stored one. *)
Definition nodes_agree (l : list (UUID * Nd)) : Prop :=
  ∀ id h n, T !! id = Some h → (GetActiveID h, n) ∈ l → GetVersion n = Version h → st id = Some n.

Record agrees s L : Prop := mkAgrees {
  ag_local : nr_localCache s = L;
  ag_read : ∃ l, rep readNodesMruMaxCapacity (nr_readNodesCache s) l ∧
    ∀ id v, (id, v) ∈ l → ∃ n, v = Some n ∧ st id = Some n ∧ L !! id = None;
  ag_handles : ∃ max l, rep max (nr_handles s) l ∧ ∀ id h, (id, h) ∈ l → T !! id = Some h;
  ag_nodes : ∃ min max l, l1_rep GetVersion min max (nr_l1 s) l ∧ nodes_agree l;
  ag_world : world_agrees (l1_l2CacheNodes (nr_l1 s));
}.

(** ** Each cache *)

Lemma lru_find_None_inv {V} id (l : list (UUID * V)) : lru_find id l = None → id ∉ l.*1.
Proof.
  induction l as [|[id' v] l IH]; cbn [lru_find]; [intros _; apply not_elem_of_nil|]. case_decide; [done|].
  intros Hf. rewrite fmap_cons, not_elem_of_cons. split; [by intros ->|by apply IH].
Qed.

Lemma wp_read_get s L id : agrees s L →
  wp (read_get id) s
    (λ r s', agrees s' L ∧ match r with
       | Some n => st id = Some n ∧ L !! id = None ∧ is_Some (c_lookup (nr_readNodesCache s) !! id)
       | None => c_lookup (nr_readNodesCache s) !! id = None ∧ c_lookup (nr_readNodesCache s') !! id = None end)
    (λ _ _, False).
Proof.
  intros [Hl (l & Hr & Hin) Hh Hn Hw]. unfold read_get, on_read. apply wp_bind, wp_on.
  destruct (run_Get None _ [id] _ l Hr) as (c' & Hrun & Hr'). eapply wp_Ret; [exact Hrun|]. cbn [lru_get] in *.
  pose proof (find_lookup _ _ l id Hr) as Hf. destruct (c_lookup (nr_readNodesCache s) !! id) as [e|] eqn:El.
  - rewrite Hf in *. cbn in *. destruct (Hin id _ (lru_find_elem _ _ _ Hf)) as (n & E & Hst & HL). rewrite E in *. split; [|by eauto].
    constructor; try done. eexists. split; [exact Hr'|]. intros id' v' [[= -> ->]|?]%lru_touch_elem; eauto.
  - rewrite Hf in *. cbn in *. split; [constructor; try done; by exists l|]. split; [done|].
    pose proof (find_lookup _ _ l id Hr') as Hf'. destruct (c_lookup c' !! id); [|done]. by rewrite Hf in Hf'.
Qed.

(** A touched node is not in the cache of nodes that were only read. *)
Lemma local_not_read s L id : agrees s L → is_Some (L !! id) → c_lookup (nr_readNodesCache s) !! id = None.
Proof.
  intros [_ (l & Hr & Hin) _ _ _] [v Hv]. pose proof (find_lookup _ _ l id Hr) as Hf.
  destruct (c_lookup (nr_readNodesCache s) !! id) as [e|]; [|done].
  destruct (Hin id _ (lru_find_elem _ _ _ Hf)) as (n & _ & _ & HL). congruence.
Qed.

Lemma agrees_insert s L id v : agrees s L → c_lookup (nr_readNodesCache s) !! id = None →
  agrees (set_nr_localCache (<[id := v]> L) s) (<[id := v]> L).
Proof.
  intros [Hl (l & Hr & Hin) Hh Hn Hw] Hno. constructor; try done. exists l. split; [done|]. intros id' v' Hx.
  destruct (Hin id' v' Hx) as (n & -> & Hst & HL). exists n. split_and!; [done..|]. rewrite lookup_insert_ne; [done|].
  intros ->. pose proof (find_lookup _ _ l id' Hr) as Hf. rewrite Hno in Hf. apply lru_find_None_inv in Hf. apply Hf.
  by apply (list_elem_of_fmap_2 fst) in Hx.
Qed.

Lemma wp_put s L id n a : agrees s L → c_lookup (nr_readNodesCache s) !! id = None →
  wp (put_local id n a) s (λ _ s', agrees s' (<[id := mkCachedNode n a]> L)) (λ _ _, False).
Proof. intros Ha Hno. apply wp_modify. rewrite (ag_local _ _ Ha). by apply agrees_insert. Qed.

(** A node that was read moves to the local cache. *)
Lemma wp_migrate s L id a : agrees s L →
  wp (migrate id a) s
    (λ _ s', match c_lookup (nr_readNodesCache s) !! id with
             | Some _ => ∃ n, st id = Some n ∧ L !! id = None ∧ agrees s' (<[id := mkCachedNode n a]> L)
             | None => agrees s' L ∧ c_lookup (nr_readNodesCache s') !! id = None end)
    (λ _ _, False).
Proof.
  intros Ha. apply wp_bind. eapply wp_mono; [by apply wp_read_get| |done]. intros [n|] s1 [Ha1 Hr].
  - destruct Hr as (Hst & HL & e & ->). unfold put_local, read_delete, on_read. apply wp_bind, wp_modify, wp_on.
    destruct Ha1 as [Hl (l & Hrep & Hin) Hh Hn Hw].
    destruct (run_Delete _ [id] (nr_readNodesCache s1) l Hrep) as (c' & Hrun & Hr').
    eapply wp_Ret; [exact Hrun|]. exists n. split_and!; [done..|]. constructor; cbn; try done.
    + by rewrite Hl.
    + exists (lru_remove id l). split; [done|]. intros id' v' Hx. unfold lru_remove in Hx.
      apply list_elem_of_filter in Hx as [Hne Hx]. destruct (Hin id' v' Hx) as (n' & -> & ? & ?).
      exists n'. split_and!; [done..|]. by rewrite lookup_insert_ne.
  - destruct Hr as [-> Hno]. by apply wp_ret.
Qed.

Lemma wp_nr_Add s L id n : agrees s L → st id = None →
  wp (nr_Add id n) s (λ _ s', agrees s' (<[id := mkCachedNode n addAction]> L)) (λ _ _, False).
Proof.
  intros Ha Hst. apply wp_put; [done|]. destruct Ha as [_ (l & Hr & Hin) _ _ _].
  pose proof (find_lookup _ _ l id Hr) as Hf. destruct (c_lookup _ !! id) as [e|]; [|done].
  destruct (Hin id _ (lru_find_elem _ _ _ Hf)) as (? & _ & ? & _). congruence.
Qed.

Lemma wp_nr_Update s L id n : agrees s L → is_held st s id →
  wp (nr_Update id n) s (λ _ s', agrees s' (ref_update st id n L)) (λ _ _, False).
Proof.
  intros Ha Hheld. apply wp_bind. eapply wp_mono; [by apply wp_migrate| |done]. intros [] s1 H1.
  apply wp_bind, wp_gets. unfold ref_update. destruct (c_lookup (nr_readNodesCache s) !! id) as [e|] eqn:E.
  - destruct H1 as (n0 & Hst & HL & Ha1). rewrite (ag_local _ _ Ha1), lookup_insert_eq, HL, Hst. cbn -[put_local wp].
    eapply wp_mono; [apply wp_put; [done|]| |done].
    + eapply local_not_read; [done|]. rewrite lookup_insert_eq. by eexists.
    + intros [] s2. by rewrite insert_insert_eq.
  - destruct H1 as [Ha1 Hno]. rewrite (ag_local _ _ Ha1). destruct (L !! id) as [v|] eqn:EL; [by apply wp_put|].
    destruct Hheld as [[v Hv]|[[v Hv]|Hst]]; [rewrite (ag_local _ _ Ha) in Hv; congruence|congruence|].
    rewrite Hst. by apply wp_put.
Qed.

Lemma agrees_delete s L id v : agrees s L → L !! id = Some v → cn_action v = addAction →
  agrees (set_nr_localCache (base.delete id L) s) (base.delete id L).
Proof.
  intros [Hl (l & Hr & Hin) Hh Hn Hw] _ _. constructor; try done. exists l. split; [done|]. intros id' v' Hx.
  destruct (Hin id' v' Hx) as (n & -> & ? & ?). exists n. split_and!; [done..|].
  by rewrite lookup_delete_None; right.
Qed.

Lemma wp_nr_Remove s L id : agrees s L → is_held st s id →
  wp (nr_Remove id) s (λ _ s', agrees s' (ref_remove st id L)) (λ _ _, False).
Proof.
  intros Ha Hheld. apply wp_bind. eapply wp_mono; [by apply wp_migrate| |done]. intros [] s1 H1.
  apply wp_bind, wp_gets. unfold ref_remove. destruct (c_lookup (nr_readNodesCache s) !! id) as [e|] eqn:E.
  - destruct H1 as (n0 & Hst & HL & Ha1). rewrite (ag_local _ _ Ha1), lookup_insert_eq, HL, Hst. cbn -[put_local wp].
    eapply wp_mono; [apply wp_put; [done|]| |done].
    + eapply local_not_read; [done|]. rewrite lookup_insert_eq. by eexists.
    + intros [] s2. by rewrite insert_insert_eq.
  - destruct H1 as [Ha1 Hno]. rewrite (ag_local _ _ Ha1). destruct (L !! id) as [v|] eqn:EL.
    + case_decide as Hadd; [|by apply wp_put]. apply wp_modify. rewrite (ag_local _ _ Ha1). by eapply agrees_delete.
    + destruct Hheld as [[v Hv]|[[v Hv]|Hst]]; [rewrite (ag_local _ _ Ha) in Hv; congruence|congruence|].
      rewrite Hst. by apply wp_ret.
Qed.

Lemma wp_nr_Fetched s L id : agrees s L → is_held st s id →
  wp (nr_Fetched id) s (λ _ s', agrees s' (ref_fetched st id L)) (λ _ _, False).
Proof.
  intros Ha Hheld. eapply wp_mono; [by apply wp_migrate| |done]. intros [] s1 H1. unfold ref_fetched.
  destruct (c_lookup (nr_readNodesCache s) !! id) as [e|] eqn:E.
  - destruct H1 as (n0 & Hst & HL & Ha1). by rewrite HL, Hst.
  - destruct H1 as [Ha1 Hno]. destruct (L !! id) as [v|] eqn:EL; [done|].
    destruct Hheld as [[v Hv]|[[v Hv]|Hst]]; [rewrite (ag_local _ _ Ha) in Hv; congruence|congruence|]. by rewrite Hst.
Qed.


Lemma wp_read_set s L id n : agrees s L → st id = Some n → L !! id = None →
  wp (read_set id n) s (λ _ s', agrees s' L) (λ _ _, False).
Proof.
  intros [Hl (l & Hr & Hin) Hh Hn Hw] Hst HL. unfold read_set, on_read. apply wp_on.
  destruct (run_set_items _ [(id, Some n)] _ l Hr) as (c1 & H1 & Hr1).
  destruct (run_evict _ c1 _ Hr1) as (c2 & H2 & Hr2).
  eapply wp_Ret; [unfold Cache.Set_; rewrite (bind_Ret _ _ _ _ _ H1); exact H2|].
  constructor; try done. eexists. split; [exact Hr2|]. cbn [foldl]. intros id' v' Hx.
  assert (Hx' : (id', v') ∈ lru_touch id (Some n) l).
  { unfold lru_evict in Hx. case_decide; [|done]. rewrite <- (take_drop (Z.to_nat (readNodesMruMaxCapacity - 1)) (lru_touch id (Some n) l)). apply elem_of_app. by left. }
  apply lru_touch_elem in Hx' as [[= -> ->]|?]; eauto.
Qed.

(** ** Reading *)

Lemma nodes_agree_sub l l' : nodes_agree l → (∀ x, x ∈ l' → x ∈ l) → nodes_agree l'.
Proof. intros Hn Hs id h n Hh Hin. by apply Hn; [|apply Hs]. Qed.

(** Putting the stored node of an ID into the L1 cache. *)
Lemma nodes_agree_put l min max id h n : nodes_agree l → T !! id = Some h → (GetVersion n = Version h → st id = Some n) →
  nodes_agree (lru_put min max (GetActiveID h) n l).
Proof.
  intros Hn Hh Hst id' h' n' Hh' Hin Hv. apply lru_put_elem in Hin as [[= Ea ->]|Hin]; [|by eapply Hn].
  assert (id' = id) as -> by (by eapply active_unique). simplify_eq. by apply Hst.
Qed.

Lemma agrees_l1 s L c min max l : agrees s L → l1_rep GetVersion min max c l → nodes_agree l → world_agrees (l1_l2CacheNodes c) →
  agrees (set_nr_l1 c s) L.
Proof. intros [Hl Hr Hh _ _] Hrep Hn Hw. constructor; try done. by exists min, max, l. Qed.

Lemma wp_get_early s L id : agrees s L →
  wp (get_early id) s (λ r s', agrees s' L ∧ ∀ n, r = Some n → st id = Some n) (λ _ _, False).
Proof.
  intros Ha. unfold get_early. apply wp_bind, wp_gets. case_decide; [|by apply wp_ret].
  destruct Ha as [Hl Hr (mh & lh & Hh & Hin) (min & max & l & Hn & Hag) Hw].
  apply wp_bind. unfold on_handles. apply wp_on. destruct (run_Get zero_handle _ [id] _ lh Hh) as (c' & Hrun & Hr').
  eapply wp_Ret; [exact Hrun|].
  assert (Hsub : ∀ x, x ∈ (lru_get zero_handle [id] lh).2 → x ∈ lh).
  { cbn [lru_get]. destruct (lru_find id lh) as [h|] eqn:Ef; cbn; [|done]. intros x [->|?]%lru_touch_elem; [by apply lru_find_elem|done]. }
  assert (Ha : agrees (set_nr_handles c' s) L).
  { constructor; try done; [|by exists min, max, l]. eexists _, _. split; [exact Hr'|]. eauto. }
  assert (Hv : (lru_get zero_handle [id] lh).1 = [default zero_handle (lru_find id lh)])
    by (cbn [lru_get]; by destruct (lru_find id lh)).
  rewrite Hv. cbn [or_panic lookup list_lookup]. apply wp_bind, wp_ret.
  destruct (lru_find id lh) as [h|] eqn:Ef.
  - change (default zero_handle (Some h)) with h. pose proof (Hin _ h (lru_find_elem _ _ _ Ef)) as HT. destruct (negb (Handle.IsEmpty h)); [|by apply wp_ret].
    apply wp_on. eapply wp_mono; [eapply (wp_GetNodeFromMRU GetVersion min max); exact Hn| |done].
    intros r c1 (-> & Hr1 & Hs1). split.
    + eapply agrees_l1; [exact Ha|exact Hr1| |unfold same_l2 in Hs1; by rewrite Hs1].
      eapply nodes_agree_sub; [exact Hag|]. intros x. apply lru_read_elem.
    + intros n Hhit. unfold lru_hit in Hhit. destruct (lru_find (GetActiveID h) l) as [m|] eqn:Em; [|done]. cbn in Hhit.
      case_decide; simplify_eq. eapply Hag; [exact HT|by apply lru_find_elem|done].
  - change (Handle.IsEmpty (default zero_handle None)) with true. cbn [negb]. by apply wp_ret.
Qed.

(** What a request for one ID is answered. *)
Lemma answer_of_one hs id : Forall2 (answers T) [mkRegistryPayload (si_RegistryTable storeInfo) EmptyString
    (si_RegistryCacheDuration storeInfo) (si_IsRegistryCacheTTL storeInfo) [id]] hs →
  ∃ p, hs = [p] ∧ rp_IDs p = match T !! id with Some h => [h] | None => [] end.
Proof.
  intros Ha. apply Forall2_cons_inv_l in Ha as (p & l & (_ & _ & Hp) & Hl & ->).
  apply Forall2_nil_inv_l in Hl as ->. exists p. split; [done|]. cbn in Hp.
  destruct (T !! id) as [h|]; [by apply Permutation_singleton_r in Hp|by apply Permutation_nil_r in Hp].
Qed.

(** The blob of a node, put into the caches. *)
Lemma wp_cache_node s L id h n : agrees s L → T !! id = Some h → st id = Some n → GetVersion n = Version h →
  wp (on_nodes (SetNode GetVersion (GetActiveID h) n NodeCacheDuration)) s (λ _ s', agrees s' L) (λ _ _, False).
Proof.
  intros Ha HT Hst Hv. pose proof Ha as [Hl Hr Hh (min & max & l & Hn & Hag) [Hreg Hblob Hl2]].
  apply wp_on. eapply wp_mono.
  - apply (wp_SetNode GetVersion min max (nr_l1 s) l (GetActiveID h) n NodeCacheDuration world_agrees Hn).
    cbn. unfold wp. cbn. destruct (w_setfails _ _); [by constructor|]. constructor; cbn; [done..|].
    intros id' h' n' HT' Hl'. apply lookup_insert_Some in Hl' as [[E <-]|[_ Hl']]; [|by eapply Hl2].
    assert (id' = id) as -> by (by eapply active_unique). simplify_eq. by rewrite <- Hv, SetVersion_id.
  - intros [] c [Hrep Hw]. eapply agrees_l1; [exact Ha|exact Hrep| |exact Hw]. by apply (nodes_agree_put _ _ _ id h).
  - done.
Qed.

Lemma wp_load_node s L id h : agrees s L → L !! id = None → T !! id = Some h →
  wp (load_node id h) s (λ r s', agrees s' L ∧ r = st id) (λ _ s', agrees s' L).
Proof.
  intros Ha HL HT. pose proof Ha as [Hl Hr Hh (min & max & l & Hn & Hag) [Hreg Hblob Hl2]].
  assert (Hdone : ∀ s' n, agrees s' L → st id = Some n → wp (read_set id n;; mret (Some n)) s'
    (λ r s', agrees s' L ∧ r = st id) (λ _ s', agrees s' L)).
  { intros s' n Ha' Hst. apply wp_bind. eapply wp_mono; [by apply (wp_read_set _ L)| |done].
    intros [] s2 Ha2. apply wp_ret. split; [done|]. by rewrite Hst. }
  apply wp_bind, wp_on. eapply wp_mono.
  { apply (wp_GetNode GetVersion min max (nr_l1 s) l h target IsNodeCacheTTL NodeCacheDuration
      (λ r w, w = l1_l2CacheNodes (nr_l1 s) ∧ r = w_l2nodes w !! GetActiveID h) (λ _ w, w = l1_l2CacheNodes (nr_l1 s)) Hn).
    cbn. unfold l2_read. destruct IsNodeCacheTTL; (destruct (l2_getfails _); [by apply wp_fail|by apply wp_gets]). }
  2:{ intros e c [Hrep Hs]. eapply agrees_l1; [exact Ha|exact Hrep|exact Hag|]. rewrite Hs. by constructor. }
  intros r c [(n & -> & Hhit & Hrep & Hs)|[(-> & Hrep & Hs & _)|(n & -> & Hrep & Hs & Hfound)]].
  - unfold lru_hit in Hhit. destruct (lru_find (GetActiveID h) l) as [m|] eqn:Em; [|done]. cbn in Hhit.
    case_decide as Hv; simplify_eq. pose proof (Hag id h n HT (lru_find_elem _ _ _ Em) Hv) as Hst.
    rewrite <- Hv, SetVersion_id. apply Hdone; [|done].
    eapply agrees_l1; [exact Ha|exact Hrep| |unfold same_l2 in Hs; rewrite Hs; by constructor].
    eapply nodes_agree_sub; [exact Hag|]. intros x. apply lru_read_elem.
  - apply wp_bind. unfold on_store, on_nodes at 1, on_l2, on_blobStore. do 3 apply wp_on. cbn [nr_l1 set_nr_l1]. rewrite Hs.
    assert (Hagc : ∀ b, blob_holds b B →
      agrees (set_nr_l1 (set_l1_l2 (set_blobStore b (l1_l2CacheNodes (nr_l1 s))) c) (set_nr_l1 c s)) L).
    { intros b Hb. eapply agrees_l1; [|apply l1_rep_l2; exact Hrep|exact Hag|by constructor].
      eapply agrees_l1; [exact Ha|exact Hrep|exact Hag|]. rewrite Hs. by constructor. }
    eapply wp_mono; [apply GetOne_law; exact Hblob| |intros e b Hb; by apply Hagc].
    intros ba b [Hba Hb]. apply Hagc in Hb. clear Hagc. set (s2 := set_nr_l1 _ _) in *. clearbody s2.
    assert (Hst : st id = Some (SetVersion (Version h) (Unmarshal ba target))) by (unfold stored_node; rewrite HT; cbn; by rewrite Hba).
    apply wp_bind. eapply wp_mono; [eapply (wp_cache_node s2 L id h); [exact Hb|exact HT|exact Hst|apply GetVersion_set]| |done].
    intros [] s3 Ha3. by apply Hdone.
  - pose proof (Hl2 id h n HT) as Hst. rewrite Hs in Hfound. specialize (Hst (eq_sym Hfound)).
    apply Hdone; [|done]. eapply agrees_l1; [exact Ha|exact Hrep| |rewrite Hs; by constructor].
    apply (nodes_agree_put _ _ _ id h); [done..|]. intros Hv. rewrite Hst, <- Hv. by rewrite SetVersion_id.
Qed.

Lemma wp_get_stored s L id : agrees s L → L !! id = None → home id = si_RegistryTable storeInfo →
  wp (get_stored id) s (λ r s', agrees s' L ∧ r = st id) (λ _ s', agrees s' L).
Proof.
  intros Ha HL Hhome. unfold get_stored. apply wp_bind. unfold on_store, on_nodes, on_l2, on_registry. do 3 apply wp_on.
  pose proof Ha as [Hl Hr Hh (min & max & l & Hn & Hag) [Hreg Hblob Hl2]].
  assert (Hset : ∀ r, holds r T R →
    agrees (set_nr_l1 (set_l1_l2 (set_registry r (l1_l2CacheNodes (nr_l1 s))) (nr_l1 s)) s) L).
  { intros r Hr'. eapply agrees_l1; [exact Ha|apply l1_rep_l2; exact Hn|exact Hag|]. by constructor. }
  eapply wp_mono; [apply (Get_law _ T R); [exact Hreg|by repeat constructor]| |].
  2:{ intros e r [Hr' _]. by apply Hset. }
  intros hs r (Hr' & _ & Hans & _). apply Hset in Hr'. set (s1 := set_nr_l1 _ _) in *. clearbody s1.
  destruct (answer_of_one hs id Hans) as (p & -> & Hp). destruct p as [tb bt cd ttl ids]. cbn in Hp. subst ids.
  destruct (T !! id) as [h|] eqn:HT; [by apply wp_load_node|]. apply wp_ret. split; [done|]. unfold stored_node. by rewrite HT.
Qed.

Lemma wp_nr_Get s L id : agrees s L → home id = si_RegistryTable storeInfo →
  wp (nr_Get id) s (λ r s', agrees s' L ∧ r = ref_get st L id) (λ _ s', agrees s' L).
Proof.
  intros Ha Hhome. unfold nr_Get, ref_get. apply wp_bind, wp_gets. rewrite (ag_local _ _ Ha). destruct (L !! id) as [v|] eqn:HL.
  { case_decide; by apply wp_ret. }
  apply wp_bind. eapply wp_mono; [by apply wp_read_get| |done]. intros [n|] s1 [Ha1 Hr].
  { apply wp_ret. split; [done|]. by destruct Hr as (-> & _). }
  apply wp_bind. eapply wp_mono; [by apply wp_get_early| |done]. intros [n|] s2 [Ha2 Hn]; [|by apply wp_get_stored].
  apply wp_bind. eapply wp_mono; [apply (wp_read_set _ L); [done|by apply Hn|done]| |done].
  intros [] s3 Ha3. apply wp_ret. split; [done|]. by rewrite (Hn n).
Qed.

(** The nodes that are read are in the table of the store. *)
Definition reads_here (o : nr_op) : Prop := match o with NrGet id => home id = si_RegistryTable storeInfo | _ => True end.

Lemma wp_nr_exec o s L : agrees s L → reads_here o → relied_on st o s →
  wp (nr_exec o) s (λ r s', r = (ref_step st o L).1 ∧ agrees s' (ref_step st o L).2) (λ _ s', agrees s' L).
Proof.
  intros Ha Hh Ho. destruct o as [id|id n|id n|id|id]; cbn [nr_exec ref_step fst snd].
  - eapply wp_mono; [by apply wp_nr_Get| |done]. by intros r s' [? ?].
  - apply wp_bind. eapply wp_mono; [by apply wp_nr_Add| |done]. intros [] s' Ha'. by apply wp_ret.
  - apply wp_bind. eapply wp_mono; [by apply wp_nr_Update| |done]. intros [] s' Ha'. by apply wp_ret.
  - apply wp_bind. eapply wp_mono; [by apply wp_nr_Remove| |done]. intros [] s' Ha'. by apply wp_ret.
  - apply wp_bind. eapply wp_mono; [by apply wp_nr_Fetched| |done]. intros [] s' Ha'. by apply wp_ret.
Qed.

(** C11: Over any sequence of reads, additions, updates, removals and fetches of a transaction, every read returns
    what the transaction last wrote, nothing for what it removed, and the stored node in the version of its handle for
    what it did not touch, from whichever cache; and the local cache holds exactly the touched nodes, each with the
    action that the commit has to take.  A call that fails fails in a store.  What is relied on: a node that is added
    is not stored, and one that is updated, removed or fetched is still in one of the caches of the transaction, or
    not stored; the caches agree with the stores at the beginning, and no two nodes have the same active ID. *)
Theorem repository_refines_table os : ∀ s L, agrees s L → Forall reads_here os → all_relied_on st os s →
  wp (nr_exec_all os) s
    (λ rs s', rs = (ref_steps st os L).1 ∧ nr_localCache s' = (ref_steps st os L).2)
    (λ _ s', ∃ k, nr_localCache s' = (ref_steps st (take k os) L).2).
Proof.
  induction os as [|o os IH]; intros s L Ha Hhere Hrel; [apply wp_ret; by rewrite (ag_local _ _ Ha)|].
  apply Forall_cons in Hhere as [Hh Hhere]. destruct Hrel as [Ho Hrel]. cbn [nr_exec_all ref_steps]. apply wp_bind.
  assert (Hk : wp (nr_exec o) s (λ r s', nr_exec o s = (Ret r, s') ∧ r = (ref_step st o L).1 ∧ agrees s' (ref_step st o L).2)
    (λ _ s', agrees s' L)).
  { pose proof (wp_nr_exec o s L Ha Hh Ho) as Hw. unfold wp in *. by destruct (nr_exec o s) as [[r|e|] s']. }
  eapply wp_mono; [exact Hk| |].
  - intros r s1 (Hrun & -> & Ha1). destruct (ref_step st o L) as [r L1] eqn:Es. cbn [fst snd] in *.
    apply wp_bind. eapply wp_mono; [apply (IH s1 L1); [done|done|by apply (Hrel r)]| |].
    + intros rs s' [-> Hs']. destruct (ref_steps st os L1) as [rs L2]. by apply wp_ret.
    + intros e s' [k Hk']. exists (S k). cbn [take ref_steps]. rewrite Es, Hk'. by destruct (ref_steps st (take k os) L1).
  - intros e s' Ha'. exists 0. by rewrite (ag_local _ _ Ha').
Qed.
End refinement.
End session.
