(* ===== verification/NodeLocalFindings.v ===== *)
(** * The node repository of a transaction: an instance of its theorem, and findings

    The instance runs over the stores of NodeInstance; the findings over stores that
    are plain maps, with enough nodes to fill the cache of read nodes. *)

From Stdlib Require Import Ascii.
From stdpp Require Import gmap.
From S2P Require Import Prelude Wp Handle Hashmap HashmapSpec HashmapProps Stores LinkedList Cache Registry RegistrySpec BlobStore NodeRepo NodeInstance TwoPhase TwoPhaseInstance L1Cache NodeLocal.

Definition lx_target : ex_node := mkNode NilUUID 0 [].
Definition lx_Unmarshal (ba : list Z) (n : ex_node) : ex_node := match ba with [] => n | _ => mkNode (en_id n) (en_version n) ba end.
Definition lx_nofail (id : UUID) : option (repo_error registry_error io_error) := None.

Lemma lx_set_id (n : ex_node) : SetVersion (GetVersion n) n = n.
Proof. by destruct n. Qed.
Lemma lx_get_set v (n : ex_node) : GetVersion (SetVersion v n) = v.
Proof. done. Qed.

(** ** An instance *)

Lemma lx_active id id' h h' : ex_table !! id = Some h → ex_table !! id' = Some h' → GetActiveID h = GetActiveID h' → id = id'.
Proof.
  unfold ex_table, put_handles. cbn. rewrite !lookup_insert_Some.
  intros [[<- <-]|[_ [[<- <-]|[_ E]]]] [[<- <-]|[_ [[<- <-]|[_ E']]]]; done.
Qed.

Abbreviation lx_exec_all := (nr_exec_all ex_store false 0 lx_target lx_Unmarshal lx_nofail).
Definition lx_session := newNodeRepository 0 (NewCache 8 16) (NewL1Cache ex_world 2 3).
Definition lx_new : ex_node := mkNode 7 0 [5; 5]%Z.
Definition lx_ops : list (nr_op (Nd := ex_node)) :=
  [NrGet (ex_id 1); NrUpdate (ex_id 1) (mkNode (ex_id 1) 1 [9; 9]%Z); NrGet (ex_id 1); NrGet (ex_id 2); NrFetched (ex_id 2);
   NrRemove (ex_id 2); NrGet (ex_id 2); NrAdd 7 lx_new; NrUpdate 7 lx_new; NrGet 7; NrRemove 7; NrGet 7].
Definition lx_table := ref_steps (stored_node ex_store lx_target lx_Unmarshal ex_table ex_blobs) lx_ops ∅.

Lemma lx_agrees : agrees ex_store lx_target lx_Unmarshal ex_home ex_table ex_reach ex_blobs lx_session ∅.
Proof.
  constructor; [done| | | |].
  - exists []. split; [apply NewCache_rep|]. intros id v Hin. by apply not_elem_of_nil in Hin.
  - exists 16%Z, []. split; [apply NewCache_rep|]. intros id h Hin. by apply not_elem_of_nil in Hin.
  - exists 2%Z, 3%Z, []. split; [apply NewL1Cache_rep|]. intros id h n _ Hin. by apply not_elem_of_nil in Hin.
  - constructor; [exact ex_registry_holds|exact ex_files_hold|]. intros id h n _ Hin. done.
Qed.

Example repository_refines_table_witness :
  wp (lx_exec_all lx_ops) lx_session
    (λ rs s', rs = lx_table.1 ∧ nr_localCache s' = lx_table.2)
    (λ _ s', ∃ k, nr_localCache s' =
       (ref_steps (stored_node ex_store lx_target lx_Unmarshal ex_table ex_blobs) (take k lx_ops) ∅).2) ∧
  lx_table.1 = [Some (mkNode NilUUID 1 [7; 1]%Z); None; Some (mkNode (ex_id 1) 1 [9; 9]%Z); Some (mkNode NilUUID 1 [7; 2]%Z); None;
                None; None; None; None; Some lx_new; None; None].
Proof.
  split; [|vm_compute; reflexivity].
  apply (repository_refines_table ex_store false 0 lx_target lx_Unmarshal lx_nofail ex_home ex_table ex_reach ex_blobs
    lx_set_id lx_get_set lx_active lx_ops lx_session ∅ lx_agrees).
  - by repeat constructor.
  - apply all_relied_onb_sound. vm_compute. reflexivity.
Defined.

(** ** Findings *)

(** Stores that are maps. *)
#[local] Instance map_Registry : Stores.Registry (gmap UUID Handle) Empty_set := {
  registry_Get reqs := λ m, (Ret ((λ p, set_IDs p (omap (m !!.) (rp_IDs p))) <$> reqs), m);
  registry_Add hs := λ m, (Ret (), put_handles (all_ids hs) m);
  registry_Update hs := λ m, (Ret (), put_handles (all_ids hs) m);
  registry_UpdateNoLocks b hs := λ m, (Ret (), put_handles (all_ids hs) m);
  registry_Remove reqs := λ m, (Ret (), delete_ids (all_ids reqs) m);
}.
#[local] Instance map_BlobStore : Stores.BlobStore (gmap (string * UUID) (list Z)) () := {
  blobStore_GetOne t id := λ m, (match m !! (t, id) with Some b => Ret b | None => Fail () end, m);
  blobStore_Add ps := λ m, (Ret (), put_blobs (all_blobs ps) m);
  blobStore_Remove ps := λ m, (Ret (), delete_blobs (all_blobs ps) m);
}.

(** Twelve nodes, with the active IDs 101 to 112. *)
Definition lx_ids : list UUID := N.of_nat <$> seq 1 12.
Definition lx_handles : gmap UUID Handle := put_handles ((λ k, mkHandle k (100 + k) NilUUID false 1 0 false) <$> lx_ids) ∅.
Definition lx_blobs (ba : list Z) : gmap (string * UUID) (list Z) := put_blobs ((λ k, ("b", ((100 + k)%N, ba))) <$> lx_ids) ∅.
Definition lx_world (ba : list Z) : @world (gmap UUID Handle) (gmap (string * UUID) (list Z)) ex_node :=
  mkWorld lx_handles (lx_blobs ba) ∅ (λ _, false) (λ _, false) 0 0.
Definition lx_repo (ba : list Z) := newNodeRepository 0 (NewCache 8 16) (NewL1Cache (lx_world ba) 2 3).
Abbreviation lx_run os ba := (nr_exec_all (RE := Empty_set) (BE := ()) ex_store false 0 lx_target lx_Unmarshal (λ _, None) os (lx_repo ba)).

(** A stored node that was read before eleven others is no longer in the cache of
    read nodes: its update is committed as the addition of a new node, and its removal
    is forgotten. *)
Definition lx_read_all : list (nr_op (Nd := ex_node)) := NrGet <$> lx_ids.
Definition lx_changed : ex_node := mkNode 1 1 [9]%Z.
Example update_of_evicted_adds :
  nr_localCache (lx_run (lx_read_all ++ [NrUpdate 1 lx_changed]) [7]%Z).2 !! 1%N = Some (mkCachedNode lx_changed addAction) ∧
  nr_localCache (lx_run [NrGet 1; NrUpdate 1 lx_changed] [7]%Z).2 !! 1%N = Some (mkCachedNode lx_changed updateAction).
Proof. split; vm_compute; reflexivity. Qed.

Example removal_of_evicted_forgotten :
  nr_localCache (lx_run (lx_read_all ++ [NrRemove 1]) [7]%Z).2 = ∅ ∧
  (lx_run (lx_read_all ++ [NrRemove 1; NrGet 1]) [7]%Z).1 =
    (lx_run (lx_read_all ++ [NrFetched 1; NrGet 1]) [7]%Z).1.
Proof. split; vm_compute; reflexivity. Qed.

(** A blob that the marshaler refuses is read as an empty node without an error, and
    put into both caches. *)
Example refused_blob_is_read :
  (lx_run [NrGet 1] []).1 = Ret [Some (mkNode NilUUID 1 [])] ∧
  w_l2nodes (l1_l2CacheNodes (nr_l1 (lx_run [NrGet 1] []).2)) !! 101%N = Some (mkNode NilUUID 1 []).
Proof. split; vm_compute; reflexivity. Qed.
