(* ===== verification/ItemFindings.v ===== *)
(** * Runs of an item action tracker

    Values are byte lists in files; the log is that of TwoPhaseInstance.  The claims
    about the tracker are applied, and runs show what it does to values in blobs of
    their own beyond the conditions of the claims. *)

From stdpp Require Import gmap pretty.
From S2P Require Import Prelude Wp Handle HashmapSpec Stores BlobStore NodeRepo NodeInstance TwoPhase TwoPhaseInstance ItemTracker ItemProps.

(** ** A store with the value of item 101 in a blob *)

Definition ex_separate : value_config := mkConfig "b" false false false.
Definition ex_active : value_config := mkConfig "b" false true false.
Definition ex_range_items (items : gmap UUID cacheItem) : list (UUID * cacheItem) := map_to_list items.

Local Abbreviation tracker := (@tracker (list Z) filesystem ex_logs).
Local Abbreviation T := (M tracker (item_error io_error Empty_set)).
Local Abbreviation Item := (@Item (list Z)).

Definition ex_gen_item (n : nat) : UUID := (1000 + N.of_nat n)%N.
Definition ex_tracker (heap : gmap N Item) : tracker := mkTracker ∅ [] heap ∅ [] ex_files (mkLogs [] ∅ None) 77 0 0.
Definition ex_unfetched : Item := mkItem 101 None 1 true.
Definition ex_one : tracker := ex_tracker {[ 0%N := ex_unfetched ]}.

Definition ex_do (cfg : value_config) (op : item_op) (p : N) : T () :=
  perform_op (V := list Z) (λ v, Some v) (λ ba, Some ba) ex_gen_item cfg op p.
Definition ex_commit_values : T () := commitTrackedItemsValues (λ v : list Z, Some v) ex_gen_item ex_separate ex_range_items.
Definition ex_rollback_values : T (option (BlobsPayload UUID)) := getForRollbackTrackedItemsValues ex_separate ex_range_items.

(** The slot at [p] is copied, as by [item := node.Slots[i]], with a new value. *)
Definition ex_copy (p q : N) (f : Item → Item) : T () := i ← deref p; modify (set_heap <[q := f i]>).
Definition ex_blob (id : UUID) (t : tracker) : option (list Z) := fs_files (tk_blobs t) !! file_path ex_IsAbs ex_Join ex_toFilePath pretty "blobs-" "b" id.
Definition ex_action (id : UUID) (t : tracker) : option (actionType * Z) := (λ c, (ci_Action c, ci_versionInDB c)) <$> tk_items t !! id.

(** ** The claims on a run *)

Lemma actions_table_witness :
  tracks ex_one 0 ex_unfetched ∧
  wp (ex_do ex_separate OpGet 0) ex_one (λ _ t', operated OpGet 0 ex_unfetched ex_one t')
    (λ _ t', OpGet = OpGet ∧ tk_items t' = tk_items ex_one).
Proof.
  assert (Ht : tracks ex_one 0 ex_unfetched) by done. split; [exact Ht|].
  apply (actions_table (λ v, Some v) (λ ba, Some ba) ex_gen_item ex_separate eq_refl ex_one ex_blobs); [exact ex_files_hold|exact Ht].
Defined.

(** The item gets a new value without a read, and an item is added. *)
Definition ex_two : tracker := ex_tracker {[ 0%N := mkItem 101 (Some [9]%Z) 1 true; 1%N := mkItem 300 (Some [8]%Z) 0 false ]}.
Definition ex_valued : tracker := ((ex_do ex_separate OpUpdate 0;; ex_do ex_separate OpAdd 1) ex_two).2.






Example ex_valued_committed :
  let t := (ex_commit_values ex_valued).2 in
  (ex_blob 101 t, ex_blob 1002 t, ex_blob 300 t) = (Some [7; 1], Some [9], Some [8])%Z ∧
  (ex_rollback_values t).1 = Ret (Some (mkBlobsPayload "b" [300; 1002]%N)).
Proof. by vm_compute. Qed.

(** ** Beyond the claims *)

(** A slot of a node is a copy of the item that was added, not the item that the tracker points to: the value goes to
    a blob of its own and stays in the node. *)
Example slot_keeps_value :
  let t := ((ex_copy 1 2 (λ i, i);; ex_do ex_separate OpAdd 1;; ex_commit_values) ex_two).2 in
  ex_blob 300 t = Some [8]%Z ∧ (tk_heap t !! 1%N) = Some (mkItem 300 None 1 true) ∧
  (tk_heap t !! 2%N) = Some (mkItem 300 (Some [8]%Z) 0 false).
Proof. by vm_compute. Qed.

(** The commit of the values is logged with what a rollback would delete before it takes place.  The updated item has
    its old ID then: the log names the committed blob of the item and not the new one, and the recovery of a
    transaction that crashed later deletes the committed value. *)
Example logged_names_committed :
  (ex_rollback_values ex_valued).1 = Ret (Some (mkBlobsPayload "b" [300; 101]%N)) ∧
  ex_blob 101 ex_valued = Some [7; 1]%Z ∧
  (ex_rollback_values (ex_commit_values (ex_rollback_values ex_valued).2).2).1 = Ret (Some (mkBlobsPayload "b" [300; 1002]%N)).
Proof. by vm_compute. Qed.

(** Only the key of an item is updated: its value is neither there nor replaced, and a rollback names its blob. *)
Example key_update_rolled_back :
  let t := ((ex_do ex_separate OpUpdate 0;; ex_commit_values) ex_one).2 in
  ex_action 101 t = Some (updateAction, 1%Z) ∧ ex_blob 101 t = Some [7; 1]%Z ∧
  (ex_rollback_values t).1 = Ret (Some (mkBlobsPayload "b" [101]%N)).
Proof. by vm_compute. Qed.

(** The value is read before it is updated: the item keeps its ID, the commit of the values overwrites the blob that
    others still read, and a rollback names it. *)
Example read_update_in_place :
  let t := ((ex_do ex_separate OpGet 0;; ex_copy 0 1 (λ i, set_Value (Some [9]%Z) (it_ValueNeedsFetch i) i);;
             ex_do ex_separate OpUpdate 1;; ex_commit_values) ex_one).2 in
  ex_action 101 t = Some (updateAction, 1%Z) ∧ ex_blob 101 t = Some [9]%Z ∧
  (ex_rollback_values t).1 = Ret (Some (mkBlobsPayload "b" [101]%N)).
Proof. by vm_compute. Qed.

(** An item is updated and then removed: the version kept for the comparison with the store is the updated one. *)
Example update_remove_version :
  ex_action 101 ((ex_do ex_separate OpUpdate 0;; ex_do ex_separate OpRemove 0) ex_one).2 = Some (removeAction, 2%Z) ∧
  it_Version ex_unfetched = 1%Z.
Proof. by vm_compute. Qed.

(** A value that is persisted at once: the second read of the item through its slot turns ForAdd into Get, against the
    table, since the item that was added still needs its value. *)
Example added_item_read :
  let t := (ex_do ex_active OpAdd 0;; ex_copy 0 1 (λ i, i);; ex_do ex_active OpGet 1) (ex_tracker {[ 0%N := mkItem 300 (Some [8]%Z) 0 false ]}) in
  ex_action 300 t.2 = Some (addAction, 0%Z) ∧ ex_action 300 (ex_do ex_active OpGet 1 t.2).2 = Some (getAction, 1%Z).
Proof. by vm_compute. Qed.

(** A removal in such a store is not tracked, so that a transaction that does nothing else has nothing to commit; the
    value is to be deleted all the same. *)
Example removal_not_tracked :
  let t := (ex_do ex_active OpRemove 0 ex_one).2 in
  hasTrackedItems t = false ∧ ((getObsoleteTrackedItemsValues ex_active : T _) t).1 = Ret (Some (mkBlobsPayload "b" [101]%N)).
Proof. by vm_compute. Qed.
