(* ===== verification/BtreeModel.v ===== *)
(** * btree/node.go, btree/btree.go: the data model of the B-tree

    A node object is identified by its [ID]: every node that is created gets a
    fresh one at once ([newNode] is always followed by [newID]), so the heap of
    node objects is a map from ids, and a pointer to a node is an id.  The node
    repository is the in-memory one (inmemory/noderepository.go), a map from ids
    to the very objects; [b_repo] is its set of keys.  Its [Get] never fails.

    A Go function on the tree is a computation in the monad [M] over the tree's
    state: [Fail] is a returned error, [Panic] an index out of range or a nil
    dereference.  Go's [int] is [Z]. *)

From S2P Require Import Prelude Handle.

(** ** Slices *)

Section slices.
Context {A : Type}.

Definition zlength (l : list A) : Z := Z.of_nat (length l).

(** [l[i]] and [l[i] = x]: out of range panics. *)
Definition zlookup (l : list A) (i : Z) : option A :=
  if decide (0 ≤ i)%Z then l !! Z.to_nat i else None.
Definition zinsert (l : list A) (i : Z) (x : A) : option (list A) :=
  if decide (0 ≤ i < zlength l)%Z then Some (<[Z.to_nat i := x]> l) else None.
(** [l[i:]] *)
Definition zdrop (l : list A) (i : Z) : option (list A) :=
  if decide (0 ≤ i ≤ zlength l)%Z then Some (drop (Z.to_nat i) l) else None.
(** [copy(l[at:], src)] *)
Definition zcopy (l : list A) (at_ : Z) (src : list A) : option (list A) :=
  if decide (0 ≤ at_ ≤ zlength l)%Z then Some (go_copy l (Z.to_nat at_) src) else None.

(** The only empty slice that reaches [copyArrayElements] is nil. *)
Definition copyArrayElements (destination source : list A) (count : Z) : option (list A) :=
  if decide (length source = 0 ∨ length destination = 0 ∨ (count ≤ 0)%Z) then Some destination
  else if decide (count ≤ zlength destination ∧ count ≤ zlength source)%Z
  then Some (go_copy destination 0 (take (Z.to_nat count) source))
  else None.

Definition moveArrayElements (array : list A) (destStartIndex srcStartIndex count : Z)
    : list A :=
  if decide (count ≤ 0 ∨ zlength array ≤ destStartIndex ∨ zlength array ≤ srcStartIndex ∨
             destStartIndex < 0 ∨ srcStartIndex < 0)%Z
  then array
  else
    let endSrc := Z.min (srcStartIndex + count) (zlength array) in
    go_copy array (Z.to_nat destStartIndex)
      (take (Z.to_nat (endSrc - srcStartIndex)) (drop (Z.to_nat srcStartIndex) array)).

Definition shiftSlots (array : list A) (position noOfOccupiedSlots : Z) : list A :=
  if decide (position < noOfOccupiedSlots)%Z
  then moveArrayElements array (position + 1) position (noOfOccupiedSlots - position)
  else array.

(** [clear(l)]: every element becomes the zero value. *)
Definition clear (z : A) (l : list A) : list A := replicate (length l) z.
End slices.

(** [sort.Search(n, f)]: binary search, [f] may panic. *)
Fixpoint Search_loop (fuel : nat) (f : Z → option bool) (i j : Z) : option Z :=
  match fuel with
  | O => None
  | S fuel =>
      if decide (i < j)%Z then
        let h := Z.shiftr (i + j) 1 in
        match f h with
        | None => None
        | Some false => Search_loop fuel f (h + 1) j
        | Some true => Search_loop fuel f i h
        end
      else Some i
  end.
Definition Search (n : Z) (f : Z → option bool) : option Z :=
  Search_loop (S (Z.to_nat n)) f 0 n.

(** ** Items and nodes *)

Record Item (K V : Type) := mkItem {
  it_ID : UUID;
  it_Key : K;
  it_Value : option V;
  it_Version : Z;
  it_ValueNeedsFetch : bool;
  it_valueWasFetched : bool;
}.
Arguments mkItem {K V}.
Arguments it_ID {K V}.
Arguments it_Key {K V}.
Arguments it_Value {K V}.
Arguments it_Version {K V}.
Arguments it_ValueNeedsFetch {K V}.
Arguments it_valueWasFetched {K V}.

(** [ChildrenIDs] is nil for a leaf. *)
Record Node (K V : Type) := mkNode {
  n_ID : UUID;
  n_ParentID : UUID;
  n_Slots : list (Item K V);
  n_Count : Z;
  n_Version : Z;
  n_ChildrenIDs : option (list UUID);
  n_indexOfNode : Z;
}.
Arguments mkNode {K V}.
Arguments n_ID {K V}.
Arguments n_ParentID {K V}.
Arguments n_Slots {K V}.
Arguments n_Count {K V}.
Arguments n_Version {K V}.
Arguments n_ChildrenIDs {K V}.
Arguments n_indexOfNode {K V}.

Definition MaxSlotLength : Z := 20000.

(** The fields of [sop.StoreInfo] the tree reads and writes. *)
Record StoreInfo := mkStoreInfo {
  si_SlotLength : Z;
  si_IsUnique : bool;
  si_LeafLoadBalancing : bool;
  si_Count : Z;
  si_RootNodeID : UUID;
  si_IsValueDataInNodeSegment : bool;
  si_IsValueDataActivelyPersisted : bool;
  si_IsValueDataGloballyCached : bool;
}.

(** What the tree asks of its [ItemActionTracker]: each call may fail, may change
    the tracker and may write to the item it is given a pointer to. *)
Class Tracker (T K V : Type) := {
  tracker_error : Type;
  tk_Add : Item K V → T → result tracker_error (Item K V) * T;
  tk_Get : Item K V → T → result tracker_error (Item K V) * T;
  tk_Update : Item K V → T → result tracker_error (Item K V) * T;
  tk_Remove : Item K V → T → result tracker_error (Item K V) * T
}.

Inductive btree_error (E : Type) :=
| ErrNoParent (id : UUID)
| ErrNoChild (id : UUID)
| ErrNoRoot (id : UUID)
| ErrKeyOrder
| ErrNoCurrentItem
| ErrTracker (e : E).
Arguments ErrNoParent {E}.
Arguments ErrNoChild {E}.
Arguments ErrNoRoot {E}.
Arguments ErrKeyOrder {E}.
Arguments ErrNoCurrentItem {E}.
Arguments ErrTracker {E}.

(** [currentItem] points into the slots of a node, or to an item of the caller. *)
Inductive item_ref (K V : Type) :=
| RefSlot (node : UUID) (index : Z)
| RefOwn (item : Item K V).
Arguments RefSlot {K V}.
Arguments RefOwn {K V}.

Record distributeAction (K V : Type) := mkDistribute {
  da_sourceNode : option UUID;
  da_item : Item K V;
  da_distributeToLeft : bool;
}.
Arguments mkDistribute {K V}.
Arguments da_sourceNode {K V}.
Arguments da_item {K V}.
Arguments da_distributeToLeft {K V}.

Record promoteAction := mkPromote {
  pa_targetNode : option UUID;
  pa_slotIndex : Z;
}.

Record Btree (T K V : Type) := mkBtree {
  b_StoreInfo : StoreInfo;
  b_heap : gmap UUID (Node K V);
  b_repo : gset UUID;
  b_fresh : N;
  b_tracker : T;
  b_tempSlots : list (Item K V);
  b_tempParent : Item K V;
  b_tempChildren : list UUID;
  b_tempParentChildren : list UUID;
  b_currentNodeID : UUID;
  b_currentItemIndex : Z;
  b_currentItem : option (item_ref K V);
  b_distributeAction : distributeAction K V;
  b_promoteAction : promoteAction;
}.
Arguments mkBtree {T K V}.
Arguments b_StoreInfo {T K V}.
Arguments b_heap {T K V}.
Arguments b_repo {T K V}.
Arguments b_fresh {T K V}.
Arguments b_tracker {T K V}.
Arguments b_tempSlots {T K V}.
Arguments b_tempParent {T K V}.
Arguments b_tempChildren {T K V}.
Arguments b_tempParentChildren {T K V}.
Arguments b_currentNodeID {T K V}.
Arguments b_currentItemIndex {T K V}.
Arguments b_currentItem {T K V}.
Arguments b_distributeAction {T K V}.
Arguments b_promoteAction {T K V}.

Section setters.
Context {T K V : Type}.
Implicit Types (b : Btree T K V) (n : Node K V) (i : Item K V).

Definition set_Count n c : Node K V :=
  mkNode (n_ID n) (n_ParentID n) (n_Slots n) c (n_Version n) (n_ChildrenIDs n) (n_indexOfNode n).
Definition set_Slots n sl : Node K V :=
  mkNode (n_ID n) (n_ParentID n) sl (n_Count n) (n_Version n) (n_ChildrenIDs n) (n_indexOfNode n).
Definition set_ParentID n p : Node K V :=
  mkNode (n_ID n) p (n_Slots n) (n_Count n) (n_Version n) (n_ChildrenIDs n) (n_indexOfNode n).
Definition set_ChildrenIDs n c : Node K V :=
  mkNode (n_ID n) (n_ParentID n) (n_Slots n) (n_Count n) (n_Version n) c (n_indexOfNode n).
Definition set_indexOfNode n x : Node K V :=
  mkNode (n_ID n) (n_ParentID n) (n_Slots n) (n_Count n) (n_Version n) (n_ChildrenIDs n) x.

Definition set_KeyValue i k v : Item K V :=
  mkItem (it_ID i) k v (it_Version i) (it_ValueNeedsFetch i) (it_valueWasFetched i).
Definition set_Fetch i v nf wf : Item K V :=
  mkItem (it_ID i) (it_Key i) v (it_Version i) nf wf.

Definition si_set_Count (s : StoreInfo) c :=
  mkStoreInfo (si_SlotLength s) (si_IsUnique s) (si_LeafLoadBalancing s) c (si_RootNodeID s)
    (si_IsValueDataInNodeSegment s) (si_IsValueDataActivelyPersisted s)
    (si_IsValueDataGloballyCached s).
Definition si_set_Root (s : StoreInfo) r :=
  mkStoreInfo (si_SlotLength s) (si_IsUnique s) (si_LeafLoadBalancing s) (si_Count s) r
    (si_IsValueDataInNodeSegment s) (si_IsValueDataActivelyPersisted s)
    (si_IsValueDataGloballyCached s).
Definition si_set_IsUnique (s : StoreInfo) u :=
  mkStoreInfo (si_SlotLength s) u (si_LeafLoadBalancing s) (si_Count s) (si_RootNodeID s)
    (si_IsValueDataInNodeSegment s) (si_IsValueDataActivelyPersisted s)
    (si_IsValueDataGloballyCached s).

Definition upd_StoreInfo (f : StoreInfo → StoreInfo) b : Btree T K V :=
  mkBtree (f (b_StoreInfo b)) (b_heap b) (b_repo b) (b_fresh b) (b_tracker b) (b_tempSlots b)
    (b_tempParent b) (b_tempChildren b) (b_tempParentChildren b) (b_currentNodeID b)
    (b_currentItemIndex b) (b_currentItem b) (b_distributeAction b) (b_promoteAction b).
Definition upd_heap (f : gmap UUID (Node K V) → gmap UUID (Node K V)) b : Btree T K V :=
  mkBtree (b_StoreInfo b) (f (b_heap b)) (b_repo b) (b_fresh b) (b_tracker b) (b_tempSlots b)
    (b_tempParent b) (b_tempChildren b) (b_tempParentChildren b) (b_currentNodeID b)
    (b_currentItemIndex b) (b_currentItem b) (b_distributeAction b) (b_promoteAction b).
Definition upd_repo (f : gset UUID → gset UUID) b : Btree T K V :=
  mkBtree (b_StoreInfo b) (b_heap b) (f (b_repo b)) (b_fresh b) (b_tracker b) (b_tempSlots b)
    (b_tempParent b) (b_tempChildren b) (b_tempParentChildren b) (b_currentNodeID b)
    (b_currentItemIndex b) (b_currentItem b) (b_distributeAction b) (b_promoteAction b).
Definition upd_fresh (f : N → N) b : Btree T K V :=
  mkBtree (b_StoreInfo b) (b_heap b) (b_repo b) (f (b_fresh b)) (b_tracker b) (b_tempSlots b)
    (b_tempParent b) (b_tempChildren b) (b_tempParentChildren b) (b_currentNodeID b)
    (b_currentItemIndex b) (b_currentItem b) (b_distributeAction b) (b_promoteAction b).
Definition upd_tracker (f : T → T) b : Btree T K V :=
  mkBtree (b_StoreInfo b) (b_heap b) (b_repo b) (b_fresh b) (f (b_tracker b)) (b_tempSlots b)
    (b_tempParent b) (b_tempChildren b) (b_tempParentChildren b) (b_currentNodeID b)
    (b_currentItemIndex b) (b_currentItem b) (b_distributeAction b) (b_promoteAction b).
(** The scratch buffers: slots, parent item, children, children of the parent. *)
Definition set_tempSlots (ts : list (Item K V)) b : Btree T K V :=
  mkBtree (b_StoreInfo b) (b_heap b) (b_repo b) (b_fresh b) (b_tracker b) ts
    (b_tempParent b) (b_tempChildren b) (b_tempParentChildren b) (b_currentNodeID b)
    (b_currentItemIndex b) (b_currentItem b) (b_distributeAction b) (b_promoteAction b).
Definition set_tempChildren (tc : list UUID) b : Btree T K V :=
  mkBtree (b_StoreInfo b) (b_heap b) (b_repo b) (b_fresh b) (b_tracker b) (b_tempSlots b)
    (b_tempParent b) tc (b_tempParentChildren b) (b_currentNodeID b)
    (b_currentItemIndex b) (b_currentItem b) (b_distributeAction b) (b_promoteAction b).
Definition set_tempParent (p : Item K V) (l r : UUID) b : Btree T K V :=
  mkBtree (b_StoreInfo b) (b_heap b) (b_repo b) (b_fresh b) (b_tracker b) (b_tempSlots b)
    p (b_tempChildren b) [l; r] (b_currentNodeID b)
    (b_currentItemIndex b) (b_currentItem b) (b_distributeAction b) (b_promoteAction b).
Definition set_cursor (id : UUID) (idx : Z) b : Btree T K V :=
  mkBtree (b_StoreInfo b) (b_heap b) (b_repo b) (b_fresh b) (b_tracker b) (b_tempSlots b)
    (b_tempParent b) (b_tempChildren b) (b_tempParentChildren b) id idx
    (b_currentItem b) (b_distributeAction b) (b_promoteAction b).
Definition set_currentItem (r : option (item_ref K V)) b : Btree T K V :=
  mkBtree (b_StoreInfo b) (b_heap b) (b_repo b) (b_fresh b) (b_tracker b) (b_tempSlots b)
    (b_tempParent b) (b_tempChildren b) (b_tempParentChildren b) (b_currentNodeID b)
    (b_currentItemIndex b) r (b_distributeAction b) (b_promoteAction b).
Definition set_distribute (d : distributeAction K V) b : Btree T K V :=
  mkBtree (b_StoreInfo b) (b_heap b) (b_repo b) (b_fresh b) (b_tracker b) (b_tempSlots b)
    (b_tempParent b) (b_tempChildren b) (b_tempParentChildren b) (b_currentNodeID b)
    (b_currentItemIndex b) (b_currentItem b) d (b_promoteAction b).
Definition set_promote (p : promoteAction) b : Btree T K V :=
  mkBtree (b_StoreInfo b) (b_heap b) (b_repo b) (b_fresh b) (b_tracker b) (b_tempSlots b)
    (b_tempParent b) (b_tempChildren b) (b_tempParentChildren b) (b_currentNodeID b)
    (b_currentItemIndex b) (b_currentItem b) (b_distributeAction b) p.
End setters.
