(* ===== verification/BtreeOps.v ===== *)
(** * btree/node.go, btree/node.handlenilchild.go and btree/btree.go: the operations

    One definition per method, in the order of the sources.  Loops that walk the
    tree take a number of rounds [fuel]; running out of it is reported as [Panic],
    and the theorems show that the height of the tree is enough. *)

From S2P Require Import Prelude Handle BtreeModel.

Section ops.
Context {T K V : Type} `{!Tracker T K V}.
(** The comparer of the tree and the zero key. *)
Context (cmp : K → K → Z) (zeroK : K).
Local Abbreviation Btree := (Btree T K V).
Local Abbreviation Node := (Node K V).
Local Abbreviation Item := (Item K V).
Local Abbreviation B := (M Btree (btree_error tracker_error)).

Definition zero_item : Item := mkItem NilUUID zeroK None 0 false false.

Definition getSlotLength (b : Btree) : Z :=
  let n := si_SlotLength (b_StoreInfo b) in
  if decide (n < 2)%Z then 2 else if decide (MaxSlotLength < n)%Z then MaxSlotLength else n.

(** ** Pointers and the repository *)

Definition deref (p : UUID) : B Node := n ← gets (λ b, b_heap b !! p); or_panic n.
Definition write (p : UUID) (n : Node) : B () := modify (upd_heap (insert p n)).
Definition slot (n : Node) (i : Z) : B Item := or_panic (zlookup (n_Slots n) i).
(** [node.Slots[i] = item] and [node.ChildrenIDs[i] = id]. *)
Definition set_slot (p : UUID) (i : Z) (x : Item) : B () :=
  n ← deref p; sl ← or_panic (zinsert (n_Slots n) i x); write p (set_Slots n sl).
Definition children (n : Node) : list UUID := default [] (n_ChildrenIDs n).
Definition set_child (p : UUID) (i : Z) (id : UUID) : B () :=
  n ← deref p; cs ← or_panic (zinsert (children n) i id);
  write p (set_ChildrenIDs n (Some cs)).

(** [newNode(slotLength)] and [newID(parentID)]. *)
Definition new_node (parent : UUID) : B UUID :=
  id ← gets b_fresh;
  modify (upd_fresh N.succ);;
  sl ← gets getSlotLength;
  write id (mkNode id parent (replicate (Z.to_nat sl) zero_item) 0 0 None (-1));;
  mret id.

Definition saveNode (p : UUID) : B () := modify (upd_repo (union {[p]})).
Definition removeNode (p : UUID) : B () := modify (upd_repo (λ r, r ∖ {[p]})).

(** The slices of a fetched node get the length the tree works with. *)
Definition resize {A} (z : A) (n : Z) (l : list A) : list A :=
  take (Z.to_nat n) l ++ replicate (Z.to_nat n - length l) z.

Definition getNode (id : UUID) : B (option UUID) :=
  r ← gets b_repo;
  if decide (id ∈ r) then
    n ← deref id;
    sl ← gets getSlotLength;
    write id (set_ChildrenIDs (set_Slots n (resize zero_item sl (n_Slots n)))
                (resize NilUUID (sl + 1) <$> n_ChildrenIDs n));;
    mret (Some id)
  else mret None.

(** ** The cursor (btree.go) *)

Definition deref_item (r : item_ref K V) : B Item :=
  match r with
  | RefSlot p i => n ← deref p; slot n i
  | RefOwn x => mret x
  end.
Definition write_item (r : item_ref K V) (x : Item) : B () :=
  match r with
  | RefSlot p i => set_slot p i x
  | RefOwn _ => modify (set_currentItem (Some (RefOwn x)))
  end.

Definition unfetchCurrentValue : B () :=
  s ← gets b_StoreInfo; c ← gets b_currentItem;
  if negb (si_IsValueDataInNodeSegment s) && si_IsValueDataActivelyPersisted s &&
     negb (si_IsValueDataGloballyCached s)
  then match c with
       | None => mret ()
       | Some r =>
           x ← deref_item r;
           match it_Value x with
           | Some _ => if it_valueWasFetched x
                       then write_item r (set_Fetch x None true false) else mret ()
           | None => mret ()
           end
       end
  else mret ().

Definition setCurrentItemID (nodeID : UUID) (itemIndex : Z) : B () :=
  unfetchCurrentValue;;
  modify (set_currentItem None);;
  modify (set_cursor nodeID itemIndex).

Definition getCurrentItem : B (option (item_ref K V)) :=
  id ← gets b_currentNodeID; i ← gets b_currentItemIndex; c ← gets b_currentItem;
  if IsNil id then modify (set_currentItem None);; mret None
  else match c with
       | Some r => mret (Some r)
       | None =>
           r ← gets b_repo;
           if decide (id ∈ r) then
             n ← deref id;
             _ ← slot n i;
             modify (set_currentItem (Some (RefSlot id i)));;
             mret (Some (RefSlot id i))
           else panic
       end.

Definition isCurrentItemSelected (b : Btree) : bool :=
  negb (IsNil (b_currentNodeID b)) && bool_decide (0 ≤ b_currentItemIndex b)%Z.

(** ** Shape of a node (node.go) *)

Definition hasChildren (n : Node) : bool := bool_decide (0 < length (children n)).
Definition isRootNode (n : Node) : bool := bool_decide (n_ParentID n = NilUUID).
Definition isFull (n : Node) : bool := bool_decide (zlength (n_Slots n) ≤ n_Count n)%Z.
Definition isNilChildren (n : Node) : bool :=
  forallb (λ id, bool_decide (id = NilUUID)) (children n).

Definition getChildID (n : Node) (index : Z) : B UUID :=
  if decide (length (children n) = 0) then mret NilUUID
  else or_panic (zlookup (children n) index).

Definition getChild (n : Node) (index : Z) : B (option UUID) :=
  id ← getChildID n index;
  if decide (id = NilUUID) then mret None else getNode id.

(** [getChildren] and the loop of [updateChildrenParent]. *)
Fixpoint getChildren (ids : list UUID) : B (list (option UUID)) :=
  match ids with
  | [] => mret []
  | id :: rest =>
      c ← (if decide (id = NilUUID) then mret None else getNode id);
      cs ← getChildren rest;
      mret (c :: cs)
  end.

Fixpoint adopt (p : UUID) (cs : list (option UUID)) : B () :=
  match cs with
  | [] => mret ()
  | None :: rest => adopt p rest
  | Some c :: rest =>
      n ← deref c; write c (set_ParentID n p);; saveNode c;; adopt p rest
  end.

Definition updateChildrenParent (p : UUID) : B () :=
  n ← deref p;
  if hasChildren n then cs ← getChildren (children n); adopt p cs else mret ().

Definition getParent (n : Node) : B (option UUID) :=
  if IsNil (n_ParentID n) then mret None else getNode (n_ParentID n).

(** The scan of [getIndexOfChild]: [rounds] remain. *)
Fixpoint scan_child (cs : list UUID) (id : UUID) (i : Z) (rounds : nat) : option Z :=
  match rounds with
  | O => Some i
  | S rounds =>
      match cs with
      | [] => None
      | c :: rest =>
          if decide (c = NilUUID) then scan_child rest id (i + 1) rounds
          else if decide (c = id) then Some i else scan_child rest id (i + 1) rounds
      end
  end.

Definition getIndexOfChild (parent child : UUID) : B Z :=
  p ← deref parent; c ← deref child;
  match n_ChildrenIDs p with
  | None => mret (n_indexOfNode c)
  | Some cs =>
      stale ← (if decide (n_indexOfNode c = -1)%Z then mret true
               else x ← or_panic (zlookup cs (n_indexOfNode c));
                    mret (bool_decide (n_ID c ≠ x)));
      if (stale : bool) then
        i ← or_panic (scan_child cs (n_ID c) 0 (S (length (n_Slots p))));
        write child (set_indexOfNode c i);; mret i
      else mret (n_indexOfNode c)
  end.

Definition getIndexOfNode (node : UUID) : B Z :=
  n ← deref node; p ← getParent n;
  match p with
  | Some p => getIndexOfChild p node
  | None => mret 0%Z
  end.

Definition getLeftSibling (node : UUID) : B (option UUID) :=
  index ← getIndexOfNode node;
  n ← deref node; p ← getParent n;
  match p with
  | Some p =>
      pn ← deref p;
      if decide (0 < index ≤ n_Count pn)%Z then getChild pn (index - 1) else mret None
  | None => mret None
  end.

Definition getRightSibling (node : UUID) : B (option UUID) :=
  index ← getIndexOfNode node;
  n ← deref node; p ← getParent n;
  match p with
  | Some p =>
      pn ← deref p;
      if decide (0 ≤ index < n_Count pn)%Z then getChild pn (index + 1) else mret None
  | None => mret None
  end.

(** The comparison that [sort.Search] is given. *)
Definition search_node (n : Node) (test : K → bool) : option Z :=
  Search (n_Count n) (λ i, (λ x, test (it_Key x)) <$> zlookup (n_Slots n) i).

Definition getIndexToInsertTo (n : Node) (item : Item) : B (Z * bool) :=
  if decide (n_Count n = 0)%Z then mret (0%Z, false)
  else
    index ← or_panic (search_node n (λ k, bool_decide (0 ≤ cmp k (it_Key item))%Z));
    s ← gets b_StoreInfo;
    if si_IsUnique s then
      let i := if decide (n_Count n ≤ index)%Z then (index - 1)%Z else index in
      x ← slot n i;
      mret (index, bool_decide (cmp (it_Key x) (it_Key item) = 0%Z))
    else mret (index, false).

Definition insertSlotItem (p : UUID) (item : Item) (position : Z) : B () :=
  n ← deref p;
  src ← or_panic (zdrop (n_Slots n) position);
  sl ← or_panic (zcopy (n_Slots n) (position + 1) src);
  sl ← or_panic (zinsert sl position item);
  write p (set_Count (set_Slots n sl) (n_Count n + 1)).

(** ** Nodes with nil children (node.handlenilchild.go) *)

Definition addItemOnNodeWithNilChild (p : UUID) (item : Item) (index : Z) : B bool :=
  n ← deref p;
  c ← or_panic (zlookup (children n) index);
  if decide (c ≠ NilUUID) then mret false
  else
    child ← new_node (n_ID n);
    set_child p index child;;
    set_slot child 0 item;;
    cn ← deref child;
    write child (set_Count cn 1);;
    saveNode p;; saveNode child;; mret true.

Definition nodeHasNilChild (n : Node) : B bool :=
  if hasChildren n then
    if decide (n_Count n < 0)%Z then mret false
    else
      (* [node.ChildrenIDs[0..Count]], up to the first nil *)
      let firsts := take (Z.to_nat (n_Count n + 1)) (children n) in
      if existsb (λ id, bool_decide (id = NilUUID)) firsts then mret true
      else if decide (zlength (children n) < n_Count n + 1)%Z then panic else mret false
  else mret false.

(** The first nil child among the first [Count + 1]. *)
Fixpoint first_nil (cs : list UUID) (i : Z) (rounds : nat) : option Z :=
  match rounds with
  | O => Some i
  | S rounds =>
      match cs with
      | [] => None
      | c :: rest => if decide (c = NilUUID) then Some i else first_nil rest (i + 1) rounds
      end
  end.

Definition distributeItemOnNodeWithNilChild (p : UUID) (item : Item) : B bool :=
  n ← deref p;
  if negb (hasChildren n) then mret false
  else
    i ← or_panic (first_nil (children n) 0 (Z.to_nat (n_Count n + 1)));
    if decide (n_Count n < i)%Z then mret false
    else
      child ← new_node (n_ID n);
      set_child p i child;;
      set_slot child 0 item;;
      cn ← deref child;
      write child (set_Count cn 1);;
      saveNode p;; saveNode child;; mret true.

(** The climb of [goRightUpItemOnNodeWithNilChild] and of [moveToNext]. *)
Fixpoint climb_right (fuel : nat) (p : option UUID) (i : Z) : B bool :=
  match fuel, p with
  | O, _ => panic
  | _, None => setCurrentItemID NilUUID 0;; mret false
  | S fuel, Some p =>
      n ← deref p;
      if decide (i < n_Count n)%Z then setCurrentItemID (n_ID n) i;; mret true
      else if isRootNode n then setCurrentItemID NilUUID 0;; mret false
      else
        q ← getParent n; q ← or_panic q;
        i ← getIndexOfChild q p;
        climb_right fuel (Some q) i
  end.

(** The climb of [goLeftUpItemOnNodeWithNilChild] and of [moveToPrevious]. *)
Fixpoint climb_left (fuel : nat) (p : UUID) (i : Z) : B bool :=
  match fuel with
  | O => panic
  | S fuel =>
      n ← deref p;
      if decide (0 ≤ i)%Z then setCurrentItemID (n_ID n) i;; mret true
      else if isRootNode n then setCurrentItemID NilUUID 0;; mret false
      else
        q ← getParent n; q ← or_panic q;
        i ← getIndexOfChild q p;
        climb_left fuel q (i - 1)
  end.

Definition goRightUpItemOnNodeWithNilChild (fuel : nat) (p : UUID) (index : Z) : B bool :=
  n ← deref p;
  c ← or_panic (zlookup (children n) index);
  if decide (c ≠ NilUUID) then mret false else climb_right fuel (Some p) index.

Definition goLeftUpItemOnNodeWithNilChild (fuel : nat) (p : UUID) (index : Z) : B bool :=
  n ← deref p;
  c ← or_panic (zlookup (children n) index);
  if decide (c ≠ NilUUID) then mret false else climb_left fuel p (index - 1).

(** ** Search and traversal (node.go) *)

(** The descent of [find]: the last node visited with its index, and the node
    and index where the key was found. *)
Fixpoint find_loop (fuel : nat) (p : UUID) (key : K) (firstItemWithKey : bool)
    (found : option (UUID * Z)) : B (option UUID * Z * option (UUID * Z)) :=
  match fuel with
  | O => panic
  | S fuel =>
      n ← deref p;
      '(index, found, stop) ←
        (if decide (0 < n_Count n)%Z then
           index ← or_panic (search_node n (λ k, bool_decide (0 ≤ cmp k key)%Z));
           hit ← (if decide (index < n_Count n)%Z
                  then x ← slot n index; mret (bool_decide (cmp (it_Key x) key = 0%Z))
                  else mret false);
           mret (index, if hit : bool then Some (n_ID n, index) else found,
                 hit && negb firstItemWithKey)
         else mret (0%Z, found, false));
      if (stop : bool) then mret (Some p, index, found)
      else if hasChildren n then
        c ← or_panic (zlookup (children n) index);
        if decide (c = NilUUID) then mret (Some p, index, found)
        else
          c ← getChild n index;
          match c with
          | None => mret (None, index, found)
          | Some c => find_loop fuel c key firstItemWithKey found
          end
      else mret (Some p, index, found)
  end.

(** [moveToNext]: descend to the right when there are children, or climb. *)
Fixpoint next_down (fuel : nat) (p : option UUID) (slotIndex : Z) : B bool :=
  match fuel, p with
  | O, _ => panic
  | _, None => setCurrentItemID NilUUID 0;; mret false
  | S fuel, Some p =>
      n ← deref p;
      if hasChildren n then
        ok ← goRightUpItemOnNodeWithNilChild (S fuel) p slotIndex;
        if (ok : bool) then mret true
        else n ← deref p; c ← getChild n slotIndex; next_down fuel c 0
      else setCurrentItemID (n_ID n) 0;; mret true
  end.

Definition moveToNext (fuel : nat) (p : UUID) : B bool :=
  i ← gets b_currentItemIndex;
  n ← deref p;
  if hasChildren n then next_down fuel (Some p) (i + 1)
  else climb_right fuel (Some p) (i + 1).

Fixpoint previous_down (fuel : nat) (p : UUID) (slotIndex : Z) : B bool :=
  match fuel with
  | O => panic
  | S fuel =>
      n ← deref p;
      if hasChildren n then
        ok ← goLeftUpItemOnNodeWithNilChild (S fuel) p slotIndex;
        if (ok : bool) then mret true
        else
          n ← deref p; c ← getChild n slotIndex;
          match c with
          | None => setCurrentItemID NilUUID 0;; mret false
          | Some c => cn ← deref c; previous_down fuel c (n_Count cn)
          end
      else setCurrentItemID (n_ID n) (slotIndex - 1);; mret true
  end.

Definition moveToPrevious (fuel : nat) (p : UUID) : B bool :=
  i ← gets b_currentItemIndex;
  n ← deref p;
  if hasChildren n then previous_down fuel p i else climb_left fuel p (i - 1).

(** What [find] and [findInDescendingOrder] do after the descent. *)
Definition settle (fuel : nat) (r : option UUID * Z * option (UUID * Z)) : B bool :=
  let '(p, index, found) := r in
  match found with
  | Some (id, i) => setCurrentItemID id i;; mret true
  | None =>
      p ← or_panic p;
      n ← deref p;
      let index := if decide (index = n_Count n) then (index - 1)%Z else index in
      if decide (0 ≤ index < n_Count n)%Z then setCurrentItemID (n_ID n) index;; mret false
      else
        setCurrentItemID (n_ID n) (index - 1);;
        _ ← moveToNext fuel p;
        mret false
  end.

Definition find (fuel : nat) (p : UUID) (key : K) (firstItemWithKey : bool) : B bool :=
  r ← find_loop fuel p key firstItemWithKey None; settle fuel r.

Fixpoint find_desc_loop (fuel : nat) (p : UUID) (key : K) (found : option (UUID * Z))
    : B (option UUID * Z * option (UUID * Z)) :=
  match fuel with
  | O => panic
  | S fuel =>
      n ← deref p;
      '(index, found) ←
        (if decide (0 < n_Count n)%Z then
           index ← or_panic (search_node n (λ k, bool_decide (0 < cmp k key)%Z));
           hit ← (if decide (0 < index)%Z
                  then x ← slot n (index - 1); mret (bool_decide (cmp (it_Key x) key = 0%Z))
                  else mret false);
           mret (index, if hit : bool then Some (n_ID n, (index - 1)%Z) else found)
         else mret (0%Z, found));
      if hasChildren n then
        c ← or_panic (zlookup (children n) index);
        if decide (c = NilUUID) then mret (Some p, index, found)
        else
          c ← getChild n index;
          match c with
          | None => mret (None, index, found)
          | Some c => find_desc_loop fuel c key found
          end
      else mret (Some p, index, found)
  end.

Definition findInDescendingOrder (fuel : nat) (p : UUID) (key : K) : B bool :=
  r ← find_desc_loop fuel p key None; settle fuel r.

Fixpoint moveToFirst (fuel : nat) (p : UUID) : B bool :=
  match fuel with
  | O => panic
  | S fuel =>
      n ← deref p;
      match n_ChildrenIDs n with
      | None => setCurrentItemID (n_ID n) 0;; mret true
      | Some cs =>
          cid ← or_panic (zlookup cs 0);
          if decide (cid = NilUUID) then setCurrentItemID (n_ID n) 0;; mret true
          else
            c ← getNode cid;
            match c with
            | None => setCurrentItemID (n_ID n) 0;; mret true
            | Some c => moveToFirst fuel c
            end
      end
  end.

Fixpoint moveToLast (fuel : nat) (p : UUID) : B bool :=
  match fuel with
  | O => panic
  | S fuel =>
      n ← deref p;
      let stop := setCurrentItemID (n_ID n) (n_Count n - 1);;
                  mret (bool_decide (n_ID n ≠ NilUUID)) in
      match n_ChildrenIDs n with
      | None => stop
      | Some cs =>
          cid ← or_panic (zlookup cs (n_Count n));
          if decide (cid = NilUUID) then stop
          else
            c ← getNode cid;
            match c with
            | None => mret false
            | Some c => moveToLast fuel c
            end
      end
  end.

(** ** Insertion (node.go) *)

(** [isThereVacantSlotInLeft] and its twin: the answer and [isUnBalanced]. *)
Fixpoint vacant_loop (sibling : UUID → B (option UUID)) (fuel : nat) (p : option UUID)
    : B (bool * bool) :=
  match fuel, p with
  | O, _ => panic
  | _, None => mret (false, false)
  | S fuel, Some p =>
      n ← deref p;
      nilchild ← nodeHasNilChild n;
      if (nilchild : bool) then mret (true, false)
      else match n_ChildrenIDs n with
           | Some _ => mret (false, true)
           | None =>
               if negb (isFull n) then mret (true, false)
               else q ← sibling p; vacant_loop sibling fuel q
           end
  end.

Definition isThereVacantSlotInLeft (fuel : nat) (p : UUID) : B (bool * bool) :=
  s ← gets b_StoreInfo;
  if negb (si_LeafLoadBalancing s) then mret (false, false)
  else vacant_loop getLeftSibling fuel (Some p).
Definition isThereVacantSlotInRight (fuel : nat) (p : UUID) : B (bool * bool) :=
  s ← gets b_StoreInfo;
  if negb (si_LeafLoadBalancing s) then mret (false, false)
  else vacant_loop getRightSibling fuel (Some p).

Definition clear_tempSlots : B () :=
  ts ← gets b_tempSlots; modify (set_tempSlots (clear zero_item ts)).

(** The two halves of the temporary slots go to two nodes. *)
Definition fill_slots (p : UUID) (from : list Item) (count : Z) : B () :=
  n ← deref p;
  sl ← or_panic (copyArrayElements (n_Slots n) from count);
  write p (set_Count (set_Slots n sl) count).

Definition clear_slots (p : UUID) : B () :=
  n ← deref p; write p (set_Slots n (clear zero_item (n_Slots n))).

(** The part of [addOnLeaf] that distributes the overflow to a sibling. *)
Definition overflow_to_sibling (p : UUID) (toLeft : bool) : B () :=
  ts ← gets b_tempSlots;
  sl ← gets getSlotLength;
  src ← or_panic (zdrop ts (if toLeft then 0 else 1));
  n ← deref p;
  write p (set_Slots n (go_copy (n_Slots n) 0 src));;
  saveNode p;;
  x ← or_panic (zlookup ts (if toLeft then sl else 0));
  modify (set_distribute (mkDistribute (Some p) x toLeft));;
  clear_tempSlots.

(** Split a full leaf under itself: the node keeps the middle item and gets two
    new children.  [resetCount] tells whether the node's count becomes 1. *)
Definition split_under (p : UUID) (resetCount : bool) : B () :=
  sl ← gets getSlotLength;
  let slotsHalf := Z.shiftr sl 1 in
  n ← deref p;
  rightNode ← new_node (n_ID n);
  leftNode ← new_node (n_ID n);
  ts ← gets b_tempSlots;
  fill_slots leftNode ts slotsHalf;;
  rest ← or_panic (zdrop ts (slotsHalf + 1));
  fill_slots rightNode rest slotsHalf;;
  clear_slots p;;
  mid ← or_panic (zlookup ts slotsHalf);
  set_slot p 0 mid;;
  (if resetCount then n ← deref p; write p (set_Count n 1) else mret ());;
  saveNode leftNode;; saveNode rightNode;;
  n ← deref p;
  write p (set_ChildrenIDs n (Some (replicate (Z.to_nat (sl + 1)) NilUUID)));;
  set_child p 0 leftNode;; set_child p 1 rightNode;;
  saveNode p;;
  clear_tempSlots.

(** Split a full leaf beside itself and ask for the promotion of the middle item. *)
Definition split_beside (p : UUID) : B () :=
  sl ← gets getSlotLength;
  let slotsHalf := Z.shiftr sl 1 in
  n ← deref p;
  rightNode ← new_node (n_ParentID n);
  clear_slots p;;
  ts ← gets b_tempSlots;
  fill_slots p ts slotsHalf;;
  rest ← or_panic (zdrop ts (slotsHalf + 1));
  fill_slots rightNode rest slotsHalf;;
  mid ← or_panic (zlookup ts slotsHalf);
  modify (set_tempParent mid p rightNode);;
  n ← deref p;
  q ← getNode (n_ParentID n);
  match q with
  | None => fail (ErrNoParent (n_ParentID n))
  | Some q =>
      saveNode p;; saveNode rightNode;;
      i ← getIndexOfChild q p;
      modify (set_promote (mkPromote (Some q) i))
  end.

Definition addOnLeaf (fuel : nat) (p : UUID) (item : Item) (index : Z) : B () :=
  n ← deref p;
  sl ← gets getSlotLength;
  if decide (n_Count n < sl)%Z then insertSlotItem p item index;; saveNode p
  else
    ts ← gets b_tempSlots;
    let ts := go_copy ts 0 (n_Slots n) in
    src ← or_panic (zdrop ts index);
    ts ← or_panic (zcopy ts (index + 1) src);
    ts ← or_panic (zinsert ts index item);
    modify (set_tempSlots ts);;
    if isRootNode n then split_under p true
    else
      '(inLeft, _) ← isThereVacantSlotInLeft fuel p;
      '(inRight, isUnBalanced) ← isThereVacantSlotInRight fuel p;
      if inLeft || inRight then overflow_to_sibling p inLeft
      else if (isUnBalanced : bool) then split_under p false
      else split_beside p.

(** The descent of [add]: [inl] the duplicate that stops it, or the node with a
    nil child that took the item; [inr] the leaf and the index. *)
Fixpoint add_loop (fuel : nat) (p : UUID) (item : Item) : B (bool + UUID * Z) :=
  match fuel with
  | O => panic
  | S fuel =>
      n ← deref p;
      '(index, itemExists) ← getIndexToInsertTo n item;
      if (itemExists : bool) then setCurrentItemID (n_ID n) index;; mret (inl false)
      else if hasChildren n then
        ok ← addItemOnNodeWithNilChild p item index;
        if (ok : bool) then mret (inl true)
        else
          c ← getChild n index;
          match c with
          | None => mret (inl false)
          | Some c => add_loop fuel c item
          end
      else mret (inr (p, index))
  end.

Definition add (fuel : nat) (p : UUID) (item : Item) : B bool :=
  r ← add_loop fuel p item;
  match r with
  | inl ok => mret ok
  | inr (p, index) =>
      n ← deref p;
      s ← gets b_StoreInfo;
      dup ← (if si_IsUnique s && bool_decide (0 < n_Count n)%Z then
               let i := if decide (0 < index ∧ n_Count n ≤ index)%Z then (index - 1)%Z else index in
               x ← slot n i;
               if decide (cmp (it_Key x) (it_Key item) = 0%Z)
               then setCurrentItemID (n_ID n) i;; mret true else mret false
             else mret false);
      if (dup : bool) then mret false
      else addOnLeaf fuel p item index;; mret true
  end.

Definition distributeToLeft (p : UUID) (item : Item) : B () :=
  done_ ← distributeItemOnNodeWithNilChild p item;
  if (done_ : bool) then mret ()
  else
    n ← deref p;
    go ← (if isFull n then
            q ← getParent n; q ← or_panic q;
            i ← getIndexOfChild q p;
            qn ← deref q;
            if decide (n_Count qn < i)%Z then mret false
            else
              l ← getLeftSibling p;
              qn ← deref q;
              x ← slot qn (i - 1);
              modify (set_distribute (mkDistribute l x true));;
              n ← deref p;
              y ← slot n 0;
              set_slot q (i - 1) y;;
              saveNode q;;
              sl ← gets getSlotLength;
              n ← deref p;
              write p (set_Slots n (moveArrayElements (n_Slots n) 0 1 (sl - 1)));;
              mret true
          else write p (set_Count n (n_Count n + 1));; mret true);
    if (go : bool) then
      n ← deref p;
      set_slot p (n_Count n - 1) item;; saveNode p
    else mret ().

Definition distributeToRight (p : UUID) (item : Item) : B () :=
  done_ ← distributeItemOnNodeWithNilChild p item;
  if (done_ : bool) then mret ()
  else
    n ← deref p;
    (if isFull n then
       q ← getParent n; q ← or_panic q;
       i ← getIndexOfChild q p;
       r ← getRightSibling p;
       qn ← deref q;
       x ← slot qn i;
       modify (set_distribute (mkDistribute r x false));;
       n ← deref p;
       y ← slot n (n_Count n - 1);
       set_slot q i y;;
       saveNode q
     else write p (set_Count n (n_Count n + 1)));;
    sl ← gets getSlotLength;
    n ← deref p;
    write p (set_Slots n (moveArrayElements (n_Slots n) 1 0 (sl - 1)));;
    set_slot p 0 item;;
    saveNode p.

(** The insertion of a separator in a node that has room. *)
Definition promote_here (p : UUID) (index : Z) : B () :=
  n ← deref p;
  tp ← gets b_tempParent;
  tc ← gets b_tempParentChildren;
  c0 ← or_panic (zlookup tc 0); c1 ← or_panic (zlookup tc 1);
  let occ := n_Count n in
  let sl := shiftSlots (n_Slots n) index occ in
  let index := if decide (occ < index)%Z then occ else index in
  sl ← or_panic (zinsert sl index tp);
  cs ← or_panic (zinsert (children n) index c0);
  cs ← or_panic (zinsert (shiftSlots cs (index + 1) (occ + 1)) (index + 1) c1);
  write p (set_Count (set_ChildrenIDs (set_Slots n sl) (Some cs)) (occ + 1));;
  saveNode p.

(** The full node with the separator, in the temporary buffers. *)
Definition promote_buffers (p : UUID) (index : Z) : B () :=
  n ← deref p;
  sl ← gets getSlotLength;
  tp ← gets b_tempParent;
  tpc ← gets b_tempParentChildren;
  c0 ← or_panic (zlookup tpc 0); c1 ← or_panic (zlookup tpc 1);
  ts ← gets b_tempSlots;
  ts ← or_panic (copyArrayElements ts (n_Slots n) sl);
  ts ← or_panic (zinsert (shiftSlots ts index sl) index tp);
  modify (set_tempSlots ts);;
  tc ← gets b_tempChildren;
  tc ← or_panic (copyArrayElements tc (children n) (sl + 1));
  tc ← or_panic (zinsert tc index c0);
  tc ← or_panic (zinsert (shiftSlots tc (index + 1) (n_Count n + 1)) (index + 1) c1);
  modify (set_tempChildren tc).

Definition fill_children (p : UUID) (from : list UUID) (count : Z) : B () :=
  n ← deref p;
  cs ← or_panic (copyArrayElements (children n) from count);
  write p (set_ChildrenIDs n (Some cs)).

Definition make_children (p : UUID) : B () :=
  n ← deref p; sl ← gets getSlotLength;
  write p (set_ChildrenIDs n (Some (replicate (Z.to_nat (sl + 1)) NilUUID))).

(** [m] with its error dropped. *)
Definition ignore {A} (m : B A) : B () := λ b,
  match m b with
  | (Ret _, b') => (Ret (), b')
  | (Fail _, b') => (Ret (), b')
  | (Panic, b') => (Panic, b')
  end.

Definition promote_root (p : UUID) : B () :=
  sl ← gets getSlotLength;
  let slotsHalf := Z.shiftr sl 1 in
  n ← deref p;
  leftNode ← new_node (n_ID n);
  rightNode ← new_node (n_ID n);
  ts ← gets b_tempSlots;
  fill_slots leftNode ts slotsHalf;;
  rest ← or_panic (zdrop ts (slotsHalf + 1));
  fill_slots rightNode rest slotsHalf;;
  make_children leftNode;; make_children rightNode;;
  tc ← gets b_tempChildren;
  fill_children leftNode tc (slotsHalf + 1);;
  crest ← or_panic (zdrop tc (slotsHalf + 1));
  fill_children rightNode crest (slotsHalf + 1);;
  clear_slots p;;
  n ← deref p;
  write p (set_ChildrenIDs n (clear NilUUID <$> n_ChildrenIDs n));;
  ignore (updateChildrenParent leftNode);;
  ignore (updateChildrenParent rightNode);;
  mid ← or_panic (zlookup ts slotsHalf);
  set_slot p 0 mid;;
  n ← deref p;
  write p (set_Count n 1);;
  set_child p 0 leftNode;; set_child p 1 rightNode;;
  saveNode p;; saveNode leftNode;; saveNode rightNode.

Definition promote_up (p : UUID) : B () :=
  sl ← gets getSlotLength;
  let slotsHalf := Z.shiftr sl 1 in
  n ← deref p;
  rightNode ← new_node (n_ParentID n);
  make_children rightNode;;
  clear_slots p;;
  n ← deref p;
  write p (set_ChildrenIDs n (clear NilUUID <$> n_ChildrenIDs n));;
  ts ← gets b_tempSlots;
  fill_slots p ts slotsHalf;;
  rest ← or_panic (zdrop ts (slotsHalf + 1));
  fill_slots rightNode rest slotsHalf;;
  tc ← gets b_tempChildren;
  fill_children p tc (slotsHalf + 1);;
  crest ← or_panic (zdrop tc (slotsHalf + 1));
  fill_children rightNode crest (slotsHalf + 1);;
  updateChildrenParent rightNode;; saveNode rightNode;;
  updateChildrenParent p;; saveNode p;;
  mid ← or_panic (zlookup ts slotsHalf);
  modify (set_tempParent mid p rightNode);;
  n ← deref p;
  q ← getParent n; q ← or_panic q;
  i ← getIndexOfChild q p;
  modify (set_promote (mkPromote (Some q) i)).

Definition node_promote (p : UUID) (indexPosition : Z) : B () :=
  n ← deref p;
  sl ← gets getSlotLength;
  if decide (n_Count n < sl)%Z then promote_here p indexPosition
  else
    promote_buffers p indexPosition;;
    if isRootNode n then promote_root p else promote_up p.

(** ** Removal (node.go, node.handlenilchild.go) *)

(** One call of the tracker; its error is returned as it is. *)
Definition track (f : Item → T → result tracker_error Item * T) (x : Item) : B Item := λ b,
  match f x (b_tracker b) with
  | (Ok y, t) => (Ret y, upd_tracker (λ _, t) b)
  | (Err e, t) => (Fail (ErrTracker e), upd_tracker (λ _, t) b)
  end.

Definition unlink (p : UUID) : B () :=
  n ← deref p;
  q ← getParent n;
  match q with
  | None => mret ()
  | Some q =>
      qn ← deref q;
      if negb (hasChildren qn) then mret ()
      else
        i ← getIndexOfChild q p;
        set_child q i NilUUID;;
        qn ← deref q;
        (if isNilChildren qn then write q (set_ChildrenIDs qn None) else mret ());;
        saveNode q;; removeNode p
  end.

Definition promoteSingleChildAsParentChild (p : UUID) : B bool :=
  n ← deref p;
  q ← getParent n;
  match q with
  | None => fail (ErrNoParent (n_ParentID n))
  | Some q =>
      ion ← getIndexOfChild q p;
      n ← deref p;
      c ← or_panic (zlookup (children n) 0);
      set_child q ion c;;
      n ← deref p;
      nc ← getChild n 0; nc ← or_panic nc;
      qn ← deref q;
      ncn ← deref nc;
      write nc (set_ParentID ncn (n_ID qn));;
      saveNode nc;; saveNode q;; removeNode p;; mret true
  end.

Definition unlinkNodeWithNilChild (p : UUID) : B bool :=
  n ← deref p;
  if isNilChildren n then mret false else promoteSingleChildAsParentChild p.

(** The single child of an emptied root is merged into it. *)
Definition merge_root (p : UUID) : B bool :=
  n ← deref p;
  nc ← getChild n 0;
  match nc with
  | None => c ← or_panic (zlookup (children n) 0); fail (ErrNoChild c)
  | Some nc =>
      n ← deref p;
      ncn ← deref nc;
      write p (set_Count (set_Slots n (go_copy (n_Slots n) 0 (n_Slots ncn))) (n_Count ncn));;
      (if hasChildren ncn then
         n ← deref p;
         write p (set_ChildrenIDs n (Some (go_copy (children n) 0 (children ncn))));;
         updateChildrenParent p
       else
         set_child p 0 NilUUID;;
         n ← deref p;
         if isNilChildren n then write p (set_ChildrenIDs n None) else mret ());;
      removeNode nc;; saveNode p;; mret true
  end.

Definition removeItemOnNodeWithNilChild (p : UUID) (index : Z) : B bool :=
  n ← deref p;
  if negb (hasChildren n) then mret false
  else
    c0 ← or_panic (zlookup (children n) index);
    c1 ← (if decide (c0 = NilUUID) then mret NilUUID
          else or_panic (zlookup (children n) (index + 1)));
    if decide (c0 ≠ NilUUID ∧ c1 ≠ NilUUID) then mret false
    else
      let at_ := if decide (c0 = NilUUID) then index else (index + 1)%Z in
      let items := (n_Count n - index)%Z in
      let '(sl, cs) :=
        if decide (index < n_Count n)%Z
        then (moveArrayElements (n_Slots n) index (index + 1) items,
              moveArrayElements (children n) at_ (at_ + 1) (items + 1))
        else (n_Slots n, children n) in
      sl ← or_panic (zinsert sl (n_Count n - 1) zero_item);
      cs ← or_panic (zinsert cs (n_Count n) NilUUID);
      let n' := set_Count (set_ChildrenIDs (set_Slots n sl) (Some cs)) (n_Count n - 1) in
      write p n';;
      first ← or_panic (zlookup cs 0);
      if decide (n_Count n' = 0%Z ∧ first ≠ NilUUID) then
        if isRootNode n' then merge_root p else promoteSingleChildAsParentChild p
      else if decide (n_Count n' = 0%Z) then unlink p;; mret true
      else saveNode p;; mret true.

Definition fixVacatedSlot (p : UUID) : B () :=
  position ← gets b_currentItemIndex;
  n ← deref p;
  deleted ← slot n position;
  _ ← track tk_Remove deleted;
  if decide (1 < n_Count n)%Z then
    let sl := if decide (position < n_Count n - 1)%Z
              then moveArrayElements (n_Slots n) position (position + 1) (n_Count n - position - 1)
              else n_Slots n in
    sl ← or_panic (zinsert sl (n_Count n - 1) zero_item);
    write p (set_Count (set_Slots n sl) (n_Count n - 1));;
    saveNode p
  else if isRootNode n then
    sl ← or_panic (zinsert (n_Slots n) 0 zero_item);
    write p (set_Count (set_Slots n sl) 0);;
    setCurrentItemID NilUUID 0;;
    saveNode p
  else
    ok ← unlinkNodeWithNilChild p;
    if (ok : bool) then mret () else unlink p.

(** ** The tree (btree.go) *)

Definition New (s : StoreInfo) (t : T) (fresh : N) : Btree :=
  mkBtree s ∅ ∅ fresh t
    (replicate (Z.to_nat (si_SlotLength s + 1)) zero_item) zero_item
    (replicate (Z.to_nat (si_SlotLength s + 2)) NilUUID) [NilUUID; NilUUID]
    NilUUID 0 None (mkDistribute None zero_item false) (mkPromote None 0).

Definition getRootNode : B UUID :=
  s ← gets b_StoreInfo;
  let root := si_RootNodeID s in
  kept ← (if negb (IsNil root) && bool_decide (si_Count s = 0%Z) then getNode root
          else mret None);
  match kept with
  | Some r => mret r
  | None =>
      if IsNil root then
        r ← new_node NilUUID;
        modify (upd_StoreInfo (λ s, si_set_Root s r));; mret r
      else if decide (si_Count s = 0%Z) then
        sl ← gets getSlotLength;
        write root (mkNode root NilUUID (replicate (Z.to_nat sl) zero_item) 0 0 None (-1));;
        mret root
      else
        r ← getNode root;
        match r with
        | Some r => mret r
        | None => fail (ErrNoRoot root)
        end
  end.

Fixpoint distribute (fuel : nat) : B () :=
  match fuel with
  | O => panic
  | S fuel =>
      d ← gets b_distributeAction;
      match da_sourceNode d with
      | None => mret ()
      | Some p =>
          modify (set_distribute (mkDistribute None zero_item (da_distributeToLeft d)));;
          (if da_distributeToLeft d then distributeToLeft p (da_item d)
           else distributeToRight p (da_item d));;
          distribute fuel
      end
  end.

Fixpoint promote (fuel : nat) : B () :=
  match fuel with
  | O => panic
  | S fuel =>
      a ← gets b_promoteAction;
      match pa_targetNode a with
      | None => mret ()
      | Some p =>
          modify (set_promote (mkPromote None 0));;
          ignore (node_promote p (pa_slotIndex a));;
          promote fuel
      end
  end.

(** [newItem]; the schema that [inferSchemaOfFirst] records is not modelled. *)
Definition newItem (key : K) (value : V) : B Item :=
  id ← gets b_fresh;
  modify (upd_fresh N.succ);;
  mret (mkItem id key (Some value) 0 false false).

Definition incCount (d : Z) : B () :=
  modify (upd_StoreInfo (λ s, si_set_Count s (wrap_s 64 (si_Count s + d)))).

Definition Add (fuel : nat) (key : K) (value : V) : B bool :=
  item ← newItem key value;
  root ← getRootNode;
  result ← add fuel root item;
  if negb result then mret false
  else
    _ ← track tk_Add item;
    distribute fuel;;
    promote fuel;;
    incCount 1;;
    mret true.

Definition AddItem (fuel : nat) (item : Item) : B bool :=
  root ← getRootNode;
  result ← add fuel root item;
  if negb result then mret false
  else
    distribute fuel;;
    promote fuel;;
    incCount 1;;
    mret true.

Definition AddIfNotExist (fuel : nat) (key : K) (value : V) : B bool := λ b,
  let u := si_IsUnique (b_StoreInfo b) in
  let '(r, b') := Add fuel key value (upd_StoreInfo (λ s, si_set_IsUnique s true) b) in
  match r with
  | Panic => (Panic, b')
  | _ => (r, upd_StoreInfo (λ s, si_set_IsUnique s u) b')
  end.

Definition Find (fuel : nat) (key : K) (firstItemWithKey : bool) : B bool :=
  s ← gets b_StoreInfo;
  if decide (si_Count s = 0%Z) then mret false
  else
    sel ← gets isCurrentItemSelected;
    same ← (if (sel : bool) then
              ci ← getCurrentItem;
              if firstItemWithKey then mret false
              else r ← or_panic ci; x ← deref_item r;
                   mret (bool_decide (cmp (it_Key x) key = 0%Z))
            else mret false);
    if (same : bool) then mret true
    else
      root ← getRootNode;
      r ← find fuel root key firstItemWithKey;
      _ ← getCurrentItem;
      mret r.

Definition FindInDescendingOrder (fuel : nat) (key : K) : B bool :=
  s ← gets b_StoreInfo;
  if decide (si_Count s = 0%Z) then mret false
  else
    root ← getRootNode;
    r ← findInDescendingOrder fuel root key;
    _ ← getCurrentItem;
    mret r.

Definition First (fuel : nat) : B bool :=
  s ← gets b_StoreInfo;
  if decide (si_Count s = 0%Z) then mret false
  else root ← getRootNode; r ← moveToFirst fuel root; _ ← getCurrentItem; mret r.

Definition Last (fuel : nat) : B bool :=
  s ← gets b_StoreInfo;
  if decide (si_Count s = 0%Z) then mret false
  else root ← getRootNode; r ← moveToLast fuel root; _ ← getCurrentItem; mret r.

(** The guard shared by the operations on the current item. *)
Definition current_node : B (option (UUID * Node * Z)) :=
  id ← gets b_currentNodeID; i ← gets b_currentItemIndex;
  p ← getNode id;
  match p with
  | None => mret None
  | Some p =>
      n ← deref p;
      if decide (n_Count n ≤ i)%Z then mret None else mret (Some (p, n, i))
  end.

Definition step_cursor (move : UUID → B bool) : B bool :=
  b ← gets (λ b, b);
  if bool_decide (si_Count (b_StoreInfo b) = 0%Z) || negb (isCurrentItemSelected b)
  then mret false
  else
    c ← current_node;
    match c with
    | None => mret false
    | Some (p, _, _) => r ← move p; _ ← getCurrentItem; mret r
    end.
Definition Next (fuel : nat) : B bool := step_cursor (moveToNext fuel).
Definition Previous (fuel : nat) : B bool := step_cursor (moveToPrevious fuel).

(** The loop of [FindWithID]. *)
Fixpoint find_id_loop (rounds fuel : nat) (id : UUID) : B bool :=
  match rounds with
  | O => panic
  | S rounds =>
      r ← getCurrentItem; r ← or_panic r;
      x ← deref_item r;
      if decide (id = it_ID x) then mret true
      else
        ok ← Next fuel;
        if (ok : bool) then find_id_loop rounds fuel id else mret false
  end.
Definition FindWithID (rounds fuel : nat) (key : K) (id : UUID) : B bool :=
  ok ← Find fuel key true;
  if (ok : bool) then find_id_loop rounds fuel id else mret false.

Definition GetCurrentKey : B Item :=
  c ← gets b_currentItem;
  match c with
  | None => mret zero_item
  | Some r => x ← deref_item r; mret (mkItem (it_ID x) (it_Key x) None 0 false false)
  end.

(** The tracked read shared by [GetCurrentValue], [GetCurrentItem] and
    [RLockCurrentItem]: the tracker may fetch the value into the item. *)
Definition read_current : B (option Item) :=
  r ← getCurrentItem;
  match r with
  | None => mret None
  | Some r =>
      x ← deref_item r;
      y ← track tk_Get x;
      let y := match it_Value y with
               | Some v => if it_ValueNeedsFetch x && negb (it_ValueNeedsFetch y)
                           then set_Fetch y (Some v) false true else y
               | None => y
               end in
      write_item r y;;
      mret (Some y)
  end.
Definition GetCurrentValue : B (option V) :=
  x ← read_current; mret (x ≫= it_Value).
Definition BGetCurrentItem : B Item := x ← read_current; mret (default zero_item x).
Definition RLockCurrentItem : B () :=
  x ← read_current;
  match x with Some _ => mret () | None => fail ErrNoCurrentItem end.

(** [UpdateCurrentItem], [UpdateCurrentValue] and [UpdateCurrentKey]: [key] and
    [value] are what the call replaces. *)
Definition update_current (key : option K) (value : option V) : B bool :=
  id ← gets b_currentNodeID;
  if decide (id = NilUUID) then mret false
  else
    c ← current_node;
    match c with
    | None => mret false
    | Some (p, n, i) =>
        item ← slot n i;
        if bool_decide (from_option (λ k, cmp (it_Key item) k) 0%Z key ≠ 0%Z)
        then cur ← gets b_currentItem; _ ← or_panic cur; fail ErrKeyOrder
        else
          let item := set_KeyValue item (default (it_Key item) key)
                        (match value with Some v => Some v | None => it_Value item end) in
          item ← track tk_Update item;
          set_slot p i item;;
          saveNode p;;
          mret true
    end.
Definition UpdateCurrentItem (key : K) (value : V) : B bool :=
  update_current (Some key) (Some value).
Definition UpdateCurrentValue (value : V) : B bool := update_current None (Some value).
Definition UpdateCurrentKey (key : K) : B bool := update_current (Some key) None.

Definition Update (fuel : nat) (key : K) (value : V) : B bool :=
  ok ← Find fuel key false;
  if (ok : bool) then UpdateCurrentItem key value else mret false.
Definition UpdateKey (fuel : nat) (key : K) : B bool :=
  ok ← Find fuel key false;
  if (ok : bool) then UpdateCurrentKey key else mret false.
Definition Upsert (fuel : nat) (key : K) (value : V) : B bool :=
  ok ← AddIfNotExist fuel key value;
  if (ok : bool) then mret true else Update fuel key value.

(** The end of a removal that [removeItemOnNodeWithNilChild] did. *)
Definition removed (deleted : Item) : B bool :=
  _ ← track tk_Remove deleted;
  setCurrentItemID NilUUID 0;;
  incCount (-1);;
  mret true.

Definition finish_remove (p : UUID) : B bool :=
  fixVacatedSlot p;;
  setCurrentItemID NilUUID 0;;
  incCount (-1);;
  mret true.

Definition RemoveCurrentItem (fuel : nat) : B bool :=
  id ← gets b_currentNodeID;
  if decide (id = NilUUID) then mret false
  else
    c ← current_node;
    match c with
    | None => mret false
    | Some (p, n, index) =>
        deletedItem ← slot n index;
        if IsNil (it_ID deletedItem) then mret false
        else if negb (hasChildren n) then finish_remove p
        else
          ok ← removeItemOnNodeWithNilChild p index;
          if (ok : bool) then removed deletedItem
          else
            ok ← moveToNext fuel p;
            if negb ok then mret false
            else
              cid ← gets b_currentNodeID;
              cur ← getNode cid;
              match cur with
              | None => mret false
              | Some q =>
                  qn ← deref q;
                  j ← gets b_currentItemIndex;
                  deletedItem ← slot qn j;
                  set_slot p index deletedItem;;
                  saveNode p;;
                  ok ← removeItemOnNodeWithNilChild q j;
                  if (ok : bool) then removed deletedItem
                  else finish_remove q
              end
    end.

Definition Remove (fuel : nat) (key : K) : B bool :=
  ok ← Find fuel key false;
  if (ok : bool) then RemoveCurrentItem fuel else mret false.
End ops.
