(* ===== verification/BtreeSpec.v ===== *)
(** * What a B-tree represents, and the lookups

    [is_tree] relates the heap to the items of a subtree, in order.  Nodes may
    have nil children (the tree is not kept balanced on deletion), every node
    holds at least one item, and the slices have the lengths the tree works with. *)

From S2P Require Import Prelude Handle BtreeModel BtreeOps.

(** ** Slices *)

Lemma zlength_nonneg {A} (l : list A) : (0 ≤ zlength l)%Z.
Proof. unfold zlength. lia. Qed.

Lemma zlookup_Some {A} (l : list A) i x :
  zlookup l i = Some x ↔ (0 ≤ i)%Z ∧ l !! Z.to_nat i = Some x.
Proof. unfold zlookup. case_decide; naive_solver. Qed.

Lemma zlookup_nat {A} (l : list A) (i : nat) : zlookup l (Z.of_nat i) = l !! i.
Proof. unfold zlookup. rewrite decide_True by lia. by rewrite Nat2Z.id. Qed.

Lemma zlookup_lt {A} (l : list A) i : (0 ≤ i < zlength l)%Z → is_Some (zlookup l i).
Proof.
  unfold zlookup, zlength. intros ?. rewrite decide_True by lia.
  apply lookup_lt_is_Some. lia.
Qed.

(** ** [sort.Search] *)

Section search.
Context (f : Z → option bool) (g : Z → bool).

Lemma Search_loop_spec fuel i j :
  (0 ≤ i ≤ j)%Z → Z.to_nat (j - i) < fuel →
  (∀ k, i ≤ k < j → f k = Some (g k))%Z →
  (∀ k k', i ≤ k ≤ k' → k' < j → g k = true → g k' = true)%Z →
  ∃ r, Search_loop fuel f i j = Some r ∧ (i ≤ r ≤ j)%Z ∧
    (∀ k, i ≤ k < r → g k = false)%Z ∧ (∀ k, r ≤ k < j → g k = true)%Z.
Proof.
  revert i j. induction fuel as [|fuel IH]; intros i j Hij Hf Hg Hmono; [lia|].
  cbn [Search_loop]. destruct (decide (i < j)%Z) as [Hlt|Hge].
  2:{ exists i. split; [done|]. split; [lia|]. split; intros; lia. }
  rewrite Z.shiftr_div_pow2 by lia. change (2 ^ 1)%Z with 2%Z. set (h := ((i + j) / 2)%Z).
  assert (Hh : (i ≤ h < j)%Z).
  { unfold h. split; [apply Z.div_le_lower_bound; lia|apply Z.div_lt_upper_bound; lia]. }
  rewrite (Hg h Hh). destruct (g h) eqn:Eh.
  - destruct (IH i h) as (r & Hr & Hb & Hlo & Hhi); [lia|lia|..].
    { intros k Hk. apply Hg. lia. }
    { intros k k' ? ?. apply Hmono; lia. }
    exists r. split; [done|]. split; [lia|]. split; [done|].
    intros k Hk. destruct (decide (k < h)%Z); [apply Hhi; lia|].
    apply (Hmono h k); [lia|lia|done].
  - destruct (IH (h + 1)%Z j) as (r & Hr & Hb & Hlo & Hhi); [lia|lia|..].
    { intros k Hk. apply Hg. lia. }
    { intros k k' ? ?. apply Hmono; lia. }
    exists r. split; [done|]. split; [lia|]. split; [|done].
    intros k Hk. destruct (decide (h < k)%Z); [apply Hlo; lia|].
    destruct (g k) eqn:Ek; [|done]. rewrite (Hmono k h) in Eh; [done|lia|lia|done].
Qed.

Lemma Search_spec n :
  (0 ≤ n)%Z → (∀ k, 0 ≤ k < n → f k = Some (g k))%Z →
  (∀ k k', 0 ≤ k ≤ k' → k' < n → g k = true → g k' = true)%Z →
  ∃ r, Search n f = Some r ∧ (0 ≤ r ≤ n)%Z ∧
    (∀ k, 0 ≤ k < r → g k = false)%Z ∧ (∀ k, r ≤ k < n → g k = true)%Z.
Proof. intros. apply Search_loop_spec; try done; lia. Qed.
End search.

(** ** The order of the keys *)

(** What [btree.compare] is documented to be: a total order on the keys, by sign. *)
Class Comparer {K} (cmp : K → K → Z) : Prop := {
  cmp_opp a b : (cmp a b < 0 ↔ 0 < cmp b a)%Z;
  cmp_trans a b c : (cmp a b ≤ 0 → cmp b c ≤ 0 → cmp a c ≤ 0)%Z
}.

Section order.
Context {K V : Type} (cmp : K → K → Z) `{!Comparer cmp}.

Lemma cmp_le_ge a b : (cmp a b ≤ 0 ↔ 0 ≤ cmp b a)%Z.
Proof. pose proof (cmp_opp b a). lia. Qed.
Lemma cmp_refl a : cmp a a = 0%Z.
Proof. pose proof (cmp_opp a a). lia. Qed.
Lemma cmp_eq_sym a b : cmp a b = 0%Z → cmp b a = 0%Z.
Proof. pose proof (cmp_opp a b). pose proof (cmp_opp b a). lia. Qed.
Lemma cmp_lt_le a b c : (cmp a b < 0 → cmp b c ≤ 0 → cmp a c < 0)%Z.
Proof.
  intros Hab Hbc. destruct (decide (cmp a c < 0)%Z); [done|]. exfalso.
  assert (Hca : (cmp c a ≤ 0)%Z) by (apply cmp_le_ge; lia).
  pose proof (cmp_trans b c a Hbc Hca) as Hba. apply cmp_le_ge in Hba. lia.
Qed.
Lemma cmp_le_lt a b c : (cmp a b ≤ 0 → cmp b c < 0 → cmp a c < 0)%Z.
Proof.
  intros Hab Hbc. destruct (decide (cmp a c < 0)%Z); [done|]. exfalso.
  assert (Hca : (cmp c a ≤ 0)%Z) by (apply cmp_le_ge; lia).
  pose proof (cmp_trans c a b Hca Hab) as Hcb. apply cmp_le_ge in Hcb. lia.
Qed.

Definition item_le (x y : Item K V) : Prop := (cmp (it_Key x) (it_Key y) ≤ 0)%Z.

Definition sorted (l : list (Item K V)) : Prop := StronglySorted item_le l.

Lemma sorted_app l1 l2 :
  sorted (l1 ++ l2) ↔ sorted l1 ∧ sorted l2 ∧ ∀ x y, x ∈ l1 → y ∈ l2 → item_le x y.
Proof.
  unfold sorted. split.
  - intros H. repeat split.
    + by eapply StronglySorted_app_1_l.
    + by eapply StronglySorted_app_1_r.
    + intros x y Hx Hy. by eapply StronglySorted_app_1_elem_of.
  - intros (H1 & H2 & H3). by apply StronglySorted_app_2.
Qed.

Lemma sorted_lookup l i j x y :
  sorted l → i ≤ j → l !! i = Some x → l !! j = Some y → i = j ∨ item_le x y.
Proof.
  intros Hs Hij Hi Hj. destruct (decide (i = j)); [by left|right].
  rewrite <- (take_drop (S i) l) in Hs. apply sorted_app in Hs as (_ & _ & Hs).
  apply Hs.
  - apply list_elem_of_lookup_2 with i. rewrite lookup_take_lt by lia. done.
  - apply list_elem_of_lookup_2 with (j - S i). rewrite lookup_drop.
    replace (S i + (j - S i)) with j by lia. done.
Qed.
End order.

(** The contents of an inner node: the items between those of its children. *)
Fixpoint interleave {A} (ls : list (list A)) (xs : list A) : list A :=
  match ls, xs with
  | l :: ls, x :: xs => l ++ x :: interleave ls xs
  | l :: _, [] => l
  | [], _ => []
  end.

Lemma interleave_cons {A} (l : list A) ls xs :
  length ls = length xs →
  interleave (l :: ls) xs = l ++ concat (zip_with (λ x l, x :: l) xs ls).
Proof.
  revert l ls. induction xs as [|x xs IH]; intros l ls Hlen.
  - simpl. by rewrite app_nil_r.
  - destruct ls as [|l' ls]; [done|].
    change (interleave (l :: l' :: ls) (x :: xs)) with (l ++ x :: interleave (l' :: ls) xs).
    rewrite IH by (simpl in Hlen; lia). done.
Qed.

(** Around a position [i]: everything before child [i], its items, and the rest. *)
Lemma interleave_split {A} (ls : list (list A)) xs i li :
  length ls = S (length xs) → ls !! i = Some li →
  interleave ls xs =
    concat (zip_with (λ l x, l ++ [x]) (take i ls) (take i xs)) ++ li ++
    concat (zip_with (λ x l, x :: l) (drop i xs) (drop (S i) ls)).
Proof.
  revert xs i. induction ls as [|l ls IH]; intros xs i Hlen Hi; [done|].
  destruct i as [|i]; simpl in Hi.
  - simplify_eq. rewrite interleave_cons by (simpl in Hlen; lia).
    cbn [take zip_with concat drop app]. by rewrite !drop_0.
  - destruct xs as [|x xs]; simpl in Hlen.
    + destruct ls; [done|simpl in Hlen; lia].
    + cbn [interleave take zip_with concat drop]. rewrite <- !app_assoc. simpl.
      f_equal. f_equal. apply IH; [lia|done].
Qed.

Section interleave_order.
Context {K V : Type} (cmp : K → K → Z) `{!Comparer cmp}.
Implicit Types (ls : list (list (Item K V))) (xs : list (Item K V)).

Definition before ls xs (r : nat) : list (Item K V) :=
  concat (zip_with (λ l x, l ++ [x]) (take r ls) (take r xs)).
Definition after ls xs (r : nat) : list (Item K V) :=
  concat (zip_with (λ x l, x :: l) (drop r xs) (drop (S r) ls)).

Lemma before_elem ls xs r y : y ∈ before ls xs r →
  ∃ k lk x, k < r ∧ ls !! k = Some lk ∧ xs !! k = Some x ∧ (y ∈ lk ∨ y = x).
Proof.
  unfold before. intros (z & Hz & Hy)%list_elem_of_In%in_concat.
  apply list_elem_of_In, list_elem_of_lookup in Hz as [k Hk].
  apply lookup_zip_with_Some in Hk as (lk & x & -> & Hl & Hx).
  apply lookup_take_Some in Hl as [Hl Hlt], Hx as [Hx _].
  apply list_elem_of_In in Hy. rewrite elem_of_app, list_elem_of_singleton in Hy.
  by exists k, lk, x.
Qed.

Lemma after_elem ls xs r y : y ∈ after ls xs r →
  ∃ k lk x, r ≤ k ∧ ls !! S k = Some lk ∧ xs !! k = Some x ∧ (y = x ∨ y ∈ lk).
Proof.
  unfold after. intros (z & Hz & Hy)%list_elem_of_In%in_concat.
  apply list_elem_of_In, list_elem_of_lookup in Hz as [k Hk].
  apply lookup_zip_with_Some in Hk as (x & lk & -> & Hx & Hl).
  rewrite lookup_drop in Hl. rewrite lookup_drop in Hx. apply list_elem_of_In in Hy.
  rewrite elem_of_cons in Hy. exists (r + k), lk, x.
  split; [lia|]. split; [by rewrite <- Hl|]. by split.
Qed.

Section sorted.
Context ls xs (Hlen : length ls = S (length xs)) (Hs : sorted cmp (interleave ls xs)).

Lemma child_le k lk x y :
  ls !! k = Some lk → xs !! k = Some x → y ∈ lk → item_le cmp y x.
Proof.
  intros Hk Hx Hy. rewrite (interleave_split ls xs k lk Hlen Hk) in Hs.
  apply sorted_app in Hs as (_ & Hs' & _). apply sorted_app in Hs' as (_ & _ & Hle).
  apply Hle; [done|]. rewrite (drop_S xs x k Hx).
  destruct (drop (S k) ls) as [|l' ls'] eqn:E.
  - apply (f_equal length) in E. rewrite length_drop in E. apply lookup_lt_Some in Hx.
    simpl in E. lia.
  - simpl. set_solver.
Qed.

Lemma le_child k lk x y :
  ls !! S k = Some lk → xs !! k = Some x → y ∈ lk → item_le cmp x y.
Proof.
  intros Hk Hx Hy. rewrite (interleave_split ls xs (S k) lk Hlen Hk) in Hs.
  apply sorted_app in Hs as (_ & _ & Hle). apply Hle; [|set_solver].
  destruct (lookup_lt_is_Some_2 ls k) as [l' Hl']; [apply lookup_lt_Some in Hk; lia|].
  rewrite (take_S_r ls k l' Hl'), (take_S_r xs k x Hx).
  rewrite zip_with_app by (rewrite !length_take; apply lookup_lt_Some in Hx; lia).
  rewrite concat_app. simpl. rewrite app_nil_r. set_solver.
Qed.

Context (key : K) (r : nat) (li : list (Item K V)) (Hr : ls !! r = Some li).

Lemma interleave_around : interleave ls xs = before ls xs r ++ li ++ after ls xs r.
Proof. by apply interleave_split. Qed.

Lemma before_lt : (∀ k x, k < r → xs !! k = Some x → (cmp (it_Key x) key < 0)%Z) →
  ∀ y, y ∈ before ls xs r → (cmp (it_Key y) key < 0)%Z.
Proof.
  intros Hlt y (k & lk & x & Hk & Hl & Hx & [Hy| ->])%before_elem; [|by eapply Hlt].
  eapply (cmp_le_lt cmp _ (it_Key x)); [|by eapply Hlt].
  by eapply (child_le k lk).
Qed.

Lemma after_gt : (∀ k x, r ≤ k → xs !! k = Some x → (0 < cmp (it_Key x) key)%Z) →
  ∀ y, y ∈ after ls xs r → (0 < cmp (it_Key y) key)%Z.
Proof.
  intros Hgt y (k & lk & x & Hk & Hl & Hx & [->|Hy])%after_elem; [by eapply Hgt|].
  apply (cmp_opp (cmp := cmp)). eapply (cmp_lt_le cmp _ (it_Key x)).
  - apply (cmp_opp (cmp := cmp)). by eapply Hgt.
  - by eapply (le_child k lk).
Qed.

Lemma after_ge : (∀ k x, r ≤ k → xs !! k = Some x → (0 ≤ cmp (it_Key x) key)%Z) →
  ∀ y, y ∈ after ls xs r → (0 ≤ cmp (it_Key y) key)%Z.
Proof.
  intros Hge y (k & lk & x & Hk & Hl & Hx & [->|Hy])%after_elem; [by eapply Hge|].
  apply (cmp_le_ge cmp). apply (cmp_trans (cmp := cmp) _ (it_Key x)).
  - apply (cmp_le_ge cmp). by eapply Hge.
  - by eapply (le_child k lk).
Qed.
End sorted.

(** A leaf is an inner node whose children are all empty. *)
Lemma interleave_leaf xs : interleave (replicate (S (length xs)) []) xs = xs.
Proof. induction xs as [|x xs IH]; [done|]. simpl. by f_equal. Qed.

Lemma interleave_item ls xs y : length ls = S (length xs) → y ∈ xs → y ∈ interleave ls xs.
Proof.
  revert ls. induction xs as [|z xs IH]; intros ls Hlen Hy; [by apply not_elem_of_nil in Hy|].
  destruct ls as [|l [|l' ls]]; [done|simpl in Hlen; lia|].
  change (interleave (l :: l' :: ls) (z :: xs)) with (l ++ z :: interleave (l' :: ls) xs).
  rewrite elem_of_app, elem_of_cons.
  apply elem_of_cons in Hy as [->|Hy]; [auto|]. right. right. apply IH; [simpl in *; lia|done].
Qed.

Lemma interleave_items_sorted ls xs :
  length ls = S (length xs) → sorted cmp (interleave ls xs) → sorted cmp xs.
Proof.
  revert ls. induction xs as [|x xs IH]; intros ls Hlen Hs; [constructor|].
  destruct ls as [|l [|l' ls]]; [done|simpl in Hlen; lia|].
  change (interleave (l :: l' :: ls) (x :: xs)) with (l ++ x :: interleave (l' :: ls) xs) in Hs.
  apply sorted_app in Hs as (_ & Hs & _). unfold sorted in Hs.
  inversion Hs as [|? ? Hs' Hle]; subst.
  constructor; [apply (IH (l' :: ls)); [simpl in *; lia|done]|].
  apply Forall_forall. intros y Hy. rewrite Forall_forall in Hle. apply Hle.
  apply (interleave_item (l' :: ls) xs); [simpl in *; lia|done].
Qed.
End interleave_order.

(** ** The tree in the heap *)

Section tree.
Context {T K V : Type} `{!Tracker T K V}.
Context (cmp : K → K → Z) `{!Comparer cmp} (zeroK : K).
Local Abbreviation Btree := (Btree T K V).
Local Abbreviation Node := (Node K V).
Local Abbreviation Item := (Item K V).
Local Abbreviation B := (M Btree (btree_error tracker_error)).

Definition occupied (n : Node) : list Item := take (Z.to_nat (n_Count n)) (n_Slots n).

Record node_ok (b : Btree) (id pid : UUID) (n : Node) : Prop := {
  no_heap : b_heap b !! id = Some n;
  no_repo : id ∈ b_repo b;
  no_nil : id ≠ NilUUID;
  no_id : n_ID n = id;
  no_parent : n_ParentID n = pid;
  no_slots : length (n_Slots n) = Z.to_nat (getSlotLength b);
  no_count : (1 ≤ n_Count n ≤ getSlotLength b)%Z;
  no_children : ∀ cs, n_ChildrenIDs n = Some cs → length cs = Z.to_nat (getSlotLength b + 1)
}.

Fixpoint is_tree (d : nat) (b : Btree) (pid id : UUID) (l : list Item) : Prop :=
  match d with
  | O => False
  | S d =>
      ∃ n, node_ok b id pid n ∧
      match n_ChildrenIDs n with
      | None => l = occupied n
      | Some cs =>
          ∃ ls, length ls = S (length (occupied n)) ∧ l = interleave ls (occupied n) ∧
            ∀ i c li, cs !! i = Some c → ls !! i = Some li →
              (c = NilUUID ∧ li = []) ∨ (c ≠ NilUUID ∧ is_tree d b id c li)
      end
  end.

Lemma getSlotLength_pos (b : Btree) : (2 ≤ getSlotLength b)%Z.
Proof. unfold getSlotLength, MaxSlotLength. repeat case_decide; lia. Qed.

Lemma length_occupied b id pid n : node_ok b id pid n →
  length (occupied n) = Z.to_nat (n_Count n).
Proof.
  intros Hn. unfold occupied. rewrite length_take, (no_slots _ _ _ _ Hn).
  pose proof (no_count _ _ _ _ Hn). lia.
Qed.

(** ** Running the primitive steps *)

Lemma run_deref (b : Btree) p n : b_heap b !! p = Some n → deref p b = (Ret n, b).
Proof.
  intros H. unfold deref. erewrite bind_Ret by reflexivity. cbv beta. by rewrite H.
Qed.

Lemma upd_heap_id (b : Btree) p n : b_heap b !! p = Some n → upd_heap (insert p n) b = b.
Proof. intros H. destruct b. unfold upd_heap. simpl in *. by rewrite insert_id. Qed.

Lemma resize_id {A} (z : A) n l : length l = Z.to_nat n → resize z n l = l.
Proof.
  intros H. unfold resize. rewrite firstn_all2 by lia.
  replace (Z.to_nat n - length l) with 0 by lia. apply app_nil_r.
Qed.

Lemma run_getNode b id pid n : node_ok b id pid n → getNode zeroK id b = (Ret (Some id), b).
Proof.
  intros Hn. unfold getNode. erewrite bind_Ret by reflexivity. cbv beta.
  rewrite decide_True by apply (no_repo _ _ _ _ Hn).
  rewrite (bind_Ret _ _ _ _ _ (run_deref b id n (no_heap _ _ _ _ Hn))). cbv beta.
  erewrite bind_Ret by reflexivity. cbv beta. unfold write.
  erewrite bind_Ret by reflexivity. cbv beta. unfold mret, M_ret.
  rewrite (resize_id _ _ (n_Slots n)) by apply (no_slots _ _ _ _ Hn).
  assert (Hc : (resize NilUUID (getSlotLength b + 1) <$> n_ChildrenIDs n) = n_ChildrenIDs n).
  { destruct (n_ChildrenIDs n) as [cs|] eqn:E; [|done]. simpl. f_equal.
    apply resize_id. by apply (no_children _ _ _ _ Hn). }
  rewrite Hc. unfold set_ChildrenIDs, set_Slots. simpl.
  replace (mkNode (n_ID n) (n_ParentID n) (n_Slots n) (n_Count n) (n_Version n)
             (n_ChildrenIDs n) (n_indexOfNode n)) with n by (by destruct n).
  by rewrite (upd_heap_id b id n) by apply (no_heap _ _ _ _ Hn).
Qed.

(** No value has to be dropped when the cursor moves: the values are in the node
    segment, or are not actively persisted, or are cached globally. *)
Definition values_kept (b : Btree) : Prop :=
  negb (si_IsValueDataInNodeSegment (b_StoreInfo b)) &&
  si_IsValueDataActivelyPersisted (b_StoreInfo b) &&
  negb (si_IsValueDataGloballyCached (b_StoreInfo b)) = false.

Lemma run_setCurrentItemID b id i : values_kept b →
  setCurrentItemID id i b = (Ret (), set_cursor id i (set_currentItem None b)).
Proof.
  intros H. unfold setCurrentItemID. unfold values_kept in H.
  assert (Hu : unfetchCurrentValue b = (Ret (), b)).
  { unfold unfetchCurrentValue. do 2 (erewrite bind_Ret by reflexivity; cbv beta).
    by rewrite H. }
  by rewrite (bind_Ret _ _ _ _ _ Hu).
Qed.

Lemma occupied_lookup (n : Node) k : k < Z.to_nat (n_Count n) → occupied n !! k = n_Slots n !! k.
Proof. intros. unfold occupied. by apply lookup_take_lt. Qed.

(** The binary search of a node, for a test that is monotone in the keys. *)
Lemma search_node_spec b id pid n (test : K → bool) :
  node_ok b id pid n → sorted cmp (occupied n) →
  (∀ x y : Item, item_le cmp x y → test (it_Key x) = true → test (it_Key y) = true) →
  ∃ r, search_node n test = Some (Z.of_nat r) ∧ r ≤ length (occupied n) ∧
    (∀ k x, k < r → occupied n !! k = Some x → test (it_Key x) = false) ∧
    (∀ k x, r ≤ k → occupied n !! k = Some x → test (it_Key x) = true).
Proof.
  intros Hn Hs Hm. pose proof (no_count _ _ _ _ Hn) as Hc.
  pose proof (length_occupied _ _ _ _ Hn) as Hlo.
  assert (Hat : ∀ k, (0 ≤ k < n_Count n)%Z → ∃ x, occupied n !! Z.to_nat k = Some x ∧
                 zlookup (n_Slots n) k = Some x).
  { intros k Hk. destruct (lookup_lt_is_Some_2 (occupied n) (Z.to_nat k)) as [x Hx]; [lia|].
    exists x. split; [done|]. apply zlookup_Some. split; [lia|].
    by rewrite <- occupied_lookup by lia. }
  set (g := λ k, match occupied n !! Z.to_nat k with
                 | Some x => test (it_Key x) | None => true end).
  destruct (Search_spec (λ i, (λ x, test (it_Key x)) <$> zlookup (n_Slots n) i) g (n_Count n))
    as (r & Hr & Hb & Hlo' & Hhi).
  - lia.
  - intros k Hk. destruct (Hat k Hk) as (x & Hx & ->). unfold g. by rewrite Hx.
  - intros k k' Hk Hk'. unfold g.
    destruct (Hat k ltac:(lia)) as (x & Hx & _), (Hat k' ltac:(lia)) as (y & Hy & _).
    rewrite Hx, Hy. intros Ht.
    destruct (sorted_lookup cmp _ (Z.to_nat k) (Z.to_nat k') _ _ Hs ltac:(lia) Hx Hy) as [He|Hle].
    + replace k' with k in Hy by lia. congruence.
    + by eapply Hm.
  - exists (Z.to_nat r). unfold search_node. rewrite Hr.
    split; [f_equal; lia|]. split; [lia|]. split.
    + intros k x Hk Hx. specialize (Hlo' (Z.of_nat k) ltac:(lia)). unfold g in Hlo'.
      by rewrite Nat2Z.id, Hx in Hlo'.
    + intros k x Hk Hx. apply lookup_lt_Some in Hx as Hlt.
      specialize (Hhi (Z.of_nat k) ltac:(lia)). unfold g in Hhi. by rewrite Nat2Z.id, Hx in Hhi.
Qed.

(** ** [find] *)

Definition hits (key : K) (x : Item) : Prop := cmp (it_Key x) key = 0%Z.

(** Where a found item is: in an occupied slot of a node of the repository. *)
Definition located (b : Btree) (id : UUID) (i : Z) (x : Item) : Prop :=
  ∃ n, b_heap b !! id = Some n ∧ id ∈ b_repo b ∧ id ≠ NilUUID ∧
    (0 ≤ i < n_Count n)%Z ∧ zlookup (n_Slots n) i = Some x.

(** The first item that hits, or any when [first] is not asked for. *)
Definition chosen (first : bool) (key : K) (l : list Item) (x : Item) : Prop :=
  x ∈ l ∧ hits key x ∧
  (first = true → ∃ l1 l2, l = l1 ++ x :: l2 ∧ ∀ y, y ∈ l1 → ¬ hits key y).

Definition find_post (b : Btree) (key : K) (first : bool) (l : list Item)
    (found : option (UUID * Z)) (r : option UUID * Z * option (UUID * Z)) : Prop :=
  (∃ id i x, r.2 = Some (id, i) ∧ located b id i x ∧ chosen first key l x) ∨
  ((∀ x, x ∈ l → ¬ hits key x) ∧ r.2 = found ∧
   ∃ p pid n, r.1.1 = Some p ∧ node_ok b p pid n ∧ (0 ≤ r.1.2 ≤ n_Count n)%Z ∧
     ∀ x, x ∈ occupied n → x ∈ l).

Lemma search_ge_mono key (x y : Item) : item_le cmp x y →
  bool_decide (0 ≤ cmp (it_Key x) key)%Z = true → bool_decide (0 ≤ cmp (it_Key y) key)%Z = true.
Proof.
  rewrite !bool_decide_eq_true. unfold item_le. intros Hxy Hx.
  apply (cmp_le_ge cmp). apply (cmp_le_ge cmp) in Hx.
  by eapply (cmp_trans (cmp := cmp)).
Qed.

Section descent.
Context (ls : list (list Item)) (xs : list Item) (key : K) (r : nat) (li : list Item).
Context (Hlen : length ls = S (length xs)) (Hs : sorted cmp (interleave ls xs)).
Context (Hr : ls !! r = Some li)
  (Hlt : ∀ k x, k < r → xs !! k = Some x → (cmp (it_Key x) key < 0)%Z)
  (Hge : ∀ k x, r ≤ k → xs !! k = Some x → (0 ≤ cmp (it_Key x) key)%Z).

Lemma before_no_hit y : y ∈ before ls xs r → ¬ hits key y.
Proof. intros Hy%(before_lt cmp ls xs Hlen Hs key r Hlt). unfold hits. lia. Qed.

Lemma chosen_inner first x : chosen first key li x → chosen first key (interleave ls xs) x.
Proof.
  intros (Hx & Hh & Hf). rewrite (interleave_around ls xs Hlen r li Hr).
  split; [set_solver|]. split; [done|]. intros E. destruct (Hf E) as (l1 & l2 & -> & Hn).
  exists (before ls xs r ++ l1), (l2 ++ after ls xs r). split.
  - by rewrite <- !app_assoc.
  - intros y [Hy|Hy]%elem_of_app; [by apply before_no_hit|by apply Hn].
Qed.

Lemma chosen_here first x : xs !! r = Some x → hits key x → (∀ y, y ∈ li → ¬ hits key y) →
  chosen first key (interleave ls xs) x.
Proof.
  intros Hx Hh Hn. rewrite (interleave_around ls xs Hlen r li Hr).
  assert (Ha : ∃ rest, after ls xs r = x :: rest).
  { unfold after. rewrite (drop_S xs x r Hx). apply lookup_lt_Some in Hx.
    destruct (drop (S r) ls) as [|l' ls'] eqn:E; [|by eexists].
    apply (f_equal length) in E. rewrite length_drop in E. simpl in E. lia. }
  destruct Ha as [rest ->]. split; [set_solver|]. split; [done|].
  intros _. exists (before ls xs r ++ li), rest. split; [by rewrite <- app_assoc|].
  intros y [Hy|Hy]%elem_of_app; [by apply before_no_hit|by apply Hn].
Qed.

Lemma none_here : (∀ y, y ∈ li → ¬ hits key y) → (∀ x, xs !! r = Some x → ¬ hits key x) →
  ∀ y, y ∈ interleave ls xs → ¬ hits key y.
Proof.
  intros Hn Hx y. rewrite (interleave_around ls xs Hlen r li Hr).
  intros [Hy|[Hy|Hy]%elem_of_app]%elem_of_app; [by apply before_no_hit|by apply Hn|].
  assert (Hgt : ∀ k x, r ≤ k → xs !! k = Some x → (0 < cmp (it_Key x) key)%Z).
  { intros k x Hk Hkx. apply lookup_lt_Some in Hkx as Hklt.
    destruct (lookup_lt_is_Some_2 xs r) as [z Hz]; [lia|].
    assert (Hz0 : (0 < cmp (it_Key z) key)%Z).
    { pose proof (Hge r z ltac:(lia) Hz). specialize (Hx z Hz). unfold hits in Hx. lia. }
    pose proof (interleave_items_sorted cmp ls xs Hlen Hs) as Hxs.
    destruct (sorted_lookup cmp xs r k z x Hxs Hk Hz Hkx) as [->|Hle]; [congruence|].
    apply (cmp_opp (cmp := cmp)). apply (cmp_opp (cmp := cmp)) in Hz0.
    by eapply (cmp_lt_le cmp). }
  pose proof (after_gt cmp ls xs Hlen Hs key r Hgt y Hy). unfold hits. lia.
Qed.
End descent.

(** One round of the descent: the index, what was found and whether to stop. *)
Lemma find_round b id pid n key first (found : option (UUID * Z)) :
  node_ok b id pid n → sorted cmp (occupied n) →
  ∃ r, r ≤ length (occupied n) ∧
    (∀ k x, k < r → occupied n !! k = Some x → (cmp (it_Key x) key < 0)%Z) ∧
    (∀ k x, r ≤ k → occupied n !! k = Some x → (0 ≤ cmp (it_Key x) key)%Z) ∧
    ∃ hit, (hit = true ↔ ∃ x, occupied n !! r = Some x ∧ hits key x) ∧
    (if decide (0 < n_Count n)%Z then
       index ← or_panic (search_node n (λ k, bool_decide (0 ≤ cmp k key)%Z));
       hit ← (if decide (index < n_Count n)%Z
              then x ← slot n index; mret (bool_decide (cmp (it_Key x) key = 0%Z))
              else mret false);
       mret (index, if hit : bool then Some (n_ID n, index) else found,
             hit && negb first)
     else mret (0%Z, found, false) : B (Z * option (UUID * Z) * bool)) b =
    (Ret (Z.of_nat r, if hit : bool then Some (n_ID n, Z.of_nat r) else found,
          hit && negb first), b).
Proof.
  intros Hn Hs. pose proof (no_count _ _ _ _ Hn) as Hc.
  pose proof (length_occupied _ _ _ _ Hn) as Hlo.
  destruct (search_node_spec b id pid n (λ k, bool_decide (0 ≤ cmp k key)%Z) Hn Hs)
    as (r & Hr & Hb & Hlt & Hge).
  { intros x y. apply search_ge_mono. }
  exists r. split; [done|].
  split. { intros k x Hk Hx. specialize (Hlt k x Hk Hx). apply bool_decide_eq_false in Hlt. lia. }
  split. { intros k x Hk Hx. specialize (Hge k x Hk Hx). by apply bool_decide_eq_true in Hge. }
  rewrite decide_True by lia. rewrite Hr.
  destruct (decide (Z.of_nat r < n_Count n)%Z) as [Hin|Hout].
  - destruct (lookup_lt_is_Some_2 (occupied n) r) as [x Hx]; [lia|].
    exists (bool_decide (cmp (it_Key x) key = 0%Z)). split.
    { rewrite bool_decide_eq_true. split; [by exists x|]. intros (y & Hy & Hh). by simplify_eq. }
    erewrite bind_Ret by reflexivity. cbv beta. rewrite decide_True by done.
    assert (Hslot : slot n (Z.of_nat r) b = (Ret x, b) :> outcome (btree_error tracker_error) _ * _).
    { unfold slot. rewrite zlookup_nat, <- occupied_lookup by lia. by rewrite Hx. }
    erewrite bind_Ret.
    2:{ by rewrite (bind_Ret _ _ _ _ _ Hslot). }
    done.
  - exists false. split.
    { split; [done|]. intros (x & Hx & _). apply lookup_lt_Some in Hx. lia. }
    erewrite bind_Ret by reflexivity. cbv beta. rewrite decide_False by done. done.
Qed.

(** The contents of a subtree, seen from its root node. *)
Lemma tree_unfold d b pid id l : is_tree (S d) b pid id l →
  ∃ n ls, node_ok b id pid n ∧ length ls = S (length (occupied n)) ∧
    l = interleave ls (occupied n) ∧
    match n_ChildrenIDs n with
    | None => ∀ i li, ls !! i = Some li → li = []
    | Some cs => ∀ i c li, cs !! i = Some c → ls !! i = Some li →
        (c = NilUUID ∧ li = []) ∨ (c ≠ NilUUID ∧ is_tree d b id c li)
    end.
Proof.
  intros (n & Hn & Ht). destruct (n_ChildrenIDs n) as [cs|] eqn:E.
  - destruct Ht as (ls & Hl & -> & Hc). exists n, ls. by rewrite E.
  - exists n, (replicate (S (length (occupied n))) []). rewrite E. split; [done|].
    rewrite length_replicate. split; [done|]. split; [by rewrite interleave_leaf|].
    intros i li Hi. by apply lookup_replicate in Hi as [-> _].
Qed.

Lemma child_sorted ls (xs : list Item) i li :
  length ls = S (length xs) → ls !! i = Some li → sorted cmp (interleave ls xs) → sorted cmp li.
Proof.
  intros Hl Hi Hs. rewrite (interleave_around ls xs Hl i li Hi) in Hs.
  apply sorted_app in Hs as (_ & Hs & _). by apply sorted_app in Hs as (Hs & _).
Qed.

Lemma located_here b id pid n r x : node_ok b id pid n → occupied n !! r = Some x →
  located b id (Z.of_nat r) x.
Proof.
  intros Hn Hx. exists n. pose proof (length_occupied _ _ _ _ Hn). apply lookup_lt_Some in Hx as Hlt.
  split; [apply (no_heap _ _ _ _ Hn)|]. split; [apply (no_repo _ _ _ _ Hn)|].
  split; [apply (no_nil _ _ _ _ Hn)|]. split; [lia|].
  by rewrite zlookup_nat, <- occupied_lookup by lia.
Qed.

(** The answer when the descent ends at this node. *)
Lemma find_end b id pid n key first found r hit ls li :
  node_ok b id pid n → length ls = S (length (occupied n)) →
  sorted cmp (interleave ls (occupied n)) →
  ls !! r = Some li → (∀ y, y ∈ li → ¬ hits key y) ∨ (hit && negb first = true) →
  (∀ k x, k < r → occupied n !! k = Some x → (cmp (it_Key x) key < 0)%Z) →
  (∀ k x, r ≤ k → occupied n !! k = Some x → (0 ≤ cmp (it_Key x) key)%Z) →
  (hit = true ↔ ∃ x, occupied n !! r = Some x ∧ hits key x) →
  find_post b key first (interleave ls (occupied n)) found
    (Some id, Z.of_nat r, if hit : bool then Some (n_ID n, Z.of_nat r) else found).
Proof.
  intros Hn Hl Hs Hr Hli Hlt Hge Hhit. destruct hit.
  - left. destruct (proj1 Hhit eq_refl) as (x & Hx & Hh).
    exists (n_ID n), (Z.of_nat r), x. rewrite (no_id _ _ _ _ Hn).
    split; [done|]. split; [by eapply located_here|].
    destruct Hli as [Hli|Hf]; [by eapply (chosen_here _ _ _ _ _ Hl Hs Hr Hlt Hge)|].
    simpl in Hf. apply negb_true_iff in Hf as ->.
    split; [|split; [done|discriminate]].
    rewrite (interleave_around ls _ Hl r li Hr). apply elem_of_app. right. apply elem_of_app. right.
    unfold after. rewrite (drop_S _ x r Hx). apply lookup_lt_Some in Hx.
    destruct (drop (S r) ls) as [|l' ls'] eqn:E; [|simpl; set_solver].
    apply (f_equal length) in E. rewrite length_drop in E. simpl in E. lia.
  - right. destruct Hli as [Hli|]; [|done]. split.
    + eapply (none_here ls (occupied n) key r li); try done.
      intros x Hx Hh. assert (false = true) by (apply Hhit; eauto). done.
    + split; [done|]. exists id, pid, n. split; [done|]. split; [done|].
      simpl. pose proof (no_count _ _ _ _ Hn). pose proof (length_occupied _ _ _ _ Hn).
      apply lookup_lt_Some in Hr. split; [lia|]. intros x. by apply interleave_item.
Qed.

(** The answer when the descent goes on in a child. *)
Lemma find_down b id pid n key first found r hit ls li res :
  node_ok b id pid n → length ls = S (length (occupied n)) →
  sorted cmp (interleave ls (occupied n)) → ls !! r = Some li →
  (∀ k x, k < r → occupied n !! k = Some x → (cmp (it_Key x) key < 0)%Z) →
  (∀ k x, r ≤ k → occupied n !! k = Some x → (0 ≤ cmp (it_Key x) key)%Z) →
  (hit = true ↔ ∃ x, occupied n !! r = Some x ∧ hits key x) →
  find_post b key first li (if hit : bool then Some (n_ID n, Z.of_nat r) else found) res →
  find_post b key first (interleave ls (occupied n)) found res.
Proof.
  intros Hn Hl Hs Hr Hlt Hge Hhit [(id' & i & x & Hf & Hloc & Hc)|(Hno & Hf & Hrest)].
  - left. exists id', i, x. split; [done|]. split; [done|]. by eapply chosen_inner.
  - destruct hit.
    + left. destruct (proj1 Hhit eq_refl) as (x & Hx & Hh).
      exists (n_ID n), (Z.of_nat r), x. rewrite (no_id _ _ _ _ Hn) in *.
      split; [done|]. split; [by eapply located_here|].
      by eapply (chosen_here _ _ _ _ _ Hl Hs Hr Hlt Hge).
    + right. split.
      * eapply (none_here ls (occupied n) key r li); try done.
        intros x Hx Hh. assert (false = true) by (apply Hhit; eauto). done.
      * split; [done|]. destruct Hrest as (p & q & m & H1 & H2 & H3 & H4).
        exists p, q, m. split; [done|]. split; [done|]. split; [done|].
        intros x Hx%H4. rewrite (interleave_around ls _ Hl r li Hr). set_solver.
Qed.

Lemma find_loop_spec b key first : ∀ d fuel pid id l found,
  is_tree d b pid id l → sorted cmp l → d ≤ fuel →
  ∃ r, find_loop cmp zeroK fuel id key first found b = (Ret r, b) ∧
    find_post b key first l found r.
Proof.
  induction d as [|d IH]; intros fuel pid id l found Ht Hs Hf; [done|].
  destruct fuel as [|fuel]; [lia|].
  apply tree_unfold in Ht as (n & ls & Hn & Hl & -> & Hc).
  pose proof (interleave_items_sorted cmp _ _ Hl Hs) as Hso.
  destruct (find_round b id pid n key first found Hn Hso) as (r & Hb & Hlt & Hge & hit & Hhit & Hrun).
  destruct (lookup_lt_is_Some_2 ls r) as [li Hli]; [lia|].
  cbn [find_loop]. rewrite (bind_Ret _ _ _ _ _ (run_deref b id n (no_heap _ _ _ _ Hn))). cbv beta.
  rewrite (bind_Ret _ _ _ _ _ Hrun). cbv beta iota.
  destruct (hit && negb first) eqn:Estop.
  { eexists. split; [reflexivity|]. eapply (find_end b id pid n key first found r hit ls li); eauto. }
  unfold hasChildren, children. destruct (n_ChildrenIDs n) as [cs|] eqn:Ec; simpl.
  2:{ eexists. split; [reflexivity|].
      eapply (find_end b id pid n key first found r hit ls li); eauto.
      left. rewrite (Hc r li Hli). set_solver. }
  pose proof (no_children _ _ _ _ Hn cs Ec) as Hlc.
  pose proof (getSlotLength_pos b) as Hsl.
  pose proof (length_occupied _ _ _ _ Hn) as Hlo. pose proof (no_count _ _ _ _ Hn) as Hcnt.
  rewrite bool_decide_true by lia.
  destruct (lookup_lt_is_Some_2 cs r) as [c Hcr]; [lia|].
  erewrite bind_Ret by (rewrite zlookup_nat, Hcr; reflexivity). cbv beta.
  destruct (Hc r c li Hcr Hli) as [[-> ->]|[Hne Hsub]].
  - rewrite decide_True by done. eexists. split; [reflexivity|].
    eapply (find_end b id pid n key first found r hit ls []); eauto. left. set_solver.
  - rewrite decide_False by done.
    destruct d as [|d]; [done|].
    destruct (tree_unfold d b id c li Hsub) as (cn & _ & Hcn & _).
    assert (Hget : getChild zeroK n (Z.of_nat r) b = (Ret (Some c), b)).
    { unfold getChild, getChildID, children. rewrite Ec. simpl.
      rewrite decide_False by lia.
      erewrite bind_Ret by (rewrite zlookup_nat, Hcr; reflexivity). cbv beta.
      rewrite decide_False by done. by eapply run_getNode. }
    rewrite (bind_Ret _ _ _ _ _ Hget). cbv beta iota.
    destruct (IH fuel id c li (if hit then Some (n_ID n, Z.of_nat r) else found) Hsub)
      as (res & Hres & Hpost); [by eapply child_sorted|lia|].
    exists res. split; [exact Hres|].
    by eapply (find_down b id pid n key first found r hit ls li).
Qed.

(** ** The tree object *)

(** [b'] has the nodes and the store information of [b]. *)
Definition same_tree (b b' : Btree) : Prop :=
  b_heap b' = b_heap b ∧ b_repo b' = b_repo b ∧ b_StoreInfo b' = b_StoreInfo b.

Lemma same_slotLength b b' : same_tree b b' → getSlotLength b' = getSlotLength b.
Proof. intros (_ & _ & H). unfold getSlotLength. by rewrite H. Qed.

Lemma node_ok_same b b' id pid n : same_tree b b' → node_ok b id pid n → node_ok b' id pid n.
Proof.
  intros Hb []. pose proof (same_slotLength b b' Hb) as Hs.
  destruct Hb as (Hh & Hr & _). constructor; rewrite ?Hs, ?Hh, ?Hr; done.
Qed.

Lemma is_tree_same d b b' pid id l : same_tree b b' → is_tree d b pid id l → is_tree d b' pid id l.
Proof.
  intros Hb. revert pid id l. induction d as [|d IH]; intros pid id l; [done|].
  intros (n & Hn & Ht). exists n. split; [by eapply node_ok_same|].
  destruct (n_ChildrenIDs n) as [cs|]; [|done].
  destruct Ht as (ls & Hl & -> & Hc). exists ls. split; [done|]. split; [done|].
  intros i c li Hi Hli. destruct (Hc i c li Hi Hli) as [?|[? ?]]; [by left|right; auto].
Qed.

Lemma located_same b b' id i x : same_tree b b' → located b id i x → located b' id i x.
Proof. intros (Hh & Hr & _). unfold located. by rewrite Hh, Hr. Qed.

(** A tree of height at most [d] that holds the items [l]. *)
Record btree_ok (d : nat) (b : Btree) (l : list Item) : Prop := {
  bo_tree : is_tree d b NilUUID (si_RootNodeID (b_StoreInfo b)) l;
  bo_sorted : sorted cmp l;
  bo_count : si_Count (b_StoreInfo b) = Z.of_nat (length l);
  bo_values : values_kept b
}.

(** The cursor selects nothing, or an item of the tree. *)
Definition at_item (b : Btree) (l : list Item) (x : Item) : Prop :=
  located b (b_currentNodeID b) (b_currentItemIndex b) x ∧ x ∈ l.
Definition cursor_ok (b : Btree) (l : list Item) : Prop :=
  isCurrentItemSelected b = false ∨
  ((∃ x, at_item b l x) ∧
   (b_currentItem b = None ∨
    b_currentItem b = Some (RefSlot (b_currentNodeID b) (b_currentItemIndex b)))).

Lemma btree_ok_same d b b' l : same_tree b b' → btree_ok d b l → btree_ok d b' l.
Proof.
  intros Hb [Ht Hs Hc Hv]. pose proof Hb as (_ & _ & Hsi).
  constructor; rewrite ?Hsi; try done.
  - by eapply is_tree_same.
  - unfold values_kept. by rewrite Hsi.
Qed.

Lemma tree_nonempty d b pid id l : is_tree d b pid id l → l ≠ [].
Proof.
  destruct d as [|d]; [done|]. intros (n & ls & Hn & Hl & -> & _)%tree_unfold He.
  pose proof (length_occupied _ _ _ _ Hn) as Hlo. pose proof (no_count _ _ _ _ Hn) as Hc.
  destruct (occupied n) as [|x xs] eqn:E; [simpl in Hlo; lia|].
  pose proof (interleave_item ls (x :: xs) x Hl ltac:(set_solver)) as Hx.
  rewrite He in Hx. set_solver.
Qed.

Lemma run_getRootNode d b l : btree_ok d b l →
  getRootNode zeroK b = (Ret (si_RootNodeID (b_StoreInfo b)), b).
Proof.
  intros [Ht _ Hc _]. pose proof (tree_nonempty _ _ _ _ _ Ht) as Hne.
  destruct d as [|d]; [done|]. apply tree_unfold in Ht as (n & _ & Hn & _).
  assert (Hc0 : si_Count (b_StoreInfo b) ≠ 0%Z) by (destruct l; simpl in *; [done|lia]).
  pose proof (no_nil _ _ _ _ Hn) as Hnil.
  assert (Hin : IsNil (si_RootNodeID (b_StoreInfo b)) = false)
    by (unfold IsNil; by apply bool_decide_eq_false).
  unfold getRootNode. erewrite bind_Ret by reflexivity. cbv beta zeta.
  rewrite Hin, (bool_decide_false (si_Count (b_StoreInfo b) = 0%Z)) by done. simpl.
  erewrite bind_Ret by reflexivity. cbv beta iota. rewrite (decide_False (P := si_Count _ = 0%Z)) by done.
  rewrite (bind_Ret _ _ _ _ _ (run_getNode b _ _ n Hn)). done.
Qed.

(** [getCurrentItem] on a cursor that is at an item. *)
Lemma run_getCurrentItem b x : located b (b_currentNodeID b) (b_currentItemIndex b) x →
  b_currentItem b = None ∨
  b_currentItem b = Some (RefSlot (b_currentNodeID b) (b_currentItemIndex b)) →
  ∃ b', getCurrentItem b = (Ret (Some (RefSlot (b_currentNodeID b) (b_currentItemIndex b))), b')
    ∧ same_tree b b' ∧ b_currentNodeID b' = b_currentNodeID b ∧
    b_currentItemIndex b' = b_currentItemIndex b ∧
    b_currentItem b' = Some (RefSlot (b_currentNodeID b) (b_currentItemIndex b)).
Proof.
  intros (n & Hh & Hr & Hnil & Hi & Hx) Hc.
  assert (Hin : IsNil (b_currentNodeID b) = false)
    by (unfold IsNil; by apply bool_decide_eq_false).
  unfold getCurrentItem. do 3 (erewrite bind_Ret by reflexivity; cbv beta).
  rewrite Hin. destruct Hc as [Hc|Hc]; rewrite Hc.
  - erewrite bind_Ret by reflexivity. cbv beta. rewrite decide_True by done.
    rewrite (bind_Ret _ _ _ _ _ (run_deref b _ n Hh)). cbv beta.
    assert (Hs : slot n (b_currentItemIndex b) b = (Ret x, b) :> outcome (btree_error tracker_error) _ * _)
      by (unfold slot; by rewrite Hx).
    rewrite (bind_Ret _ _ _ _ _ Hs). cbv beta.
    eexists. split; [reflexivity|]. by repeat split.
  - exists b. split; [reflexivity|]. by repeat split.
Qed.

(** ** A checker for the invariant *)

Definition node_okb (b : Btree) (id pid : UUID) (n : Node) : bool :=
  bool_decide (id ∈ b_repo b) && bool_decide (id ≠ NilUUID) && bool_decide (n_ID n = id) &&
  bool_decide (n_ParentID n = pid) &&
  bool_decide (length (n_Slots n) = Z.to_nat (getSlotLength b)) &&
  bool_decide (1 ≤ n_Count n ≤ getSlotLength b)%Z &&
  match n_ChildrenIDs n with
  | None => true
  | Some cs => bool_decide (length cs = Z.to_nat (getSlotLength b + 1))
  end.

Fixpoint tree_items (d : nat) (b : Btree) (pid id : UUID) : option (list Item) :=
  match d with
  | O => None
  | S d =>
      match b_heap b !! id with
      | None => None
      | Some n =>
          if node_okb b id pid n then
            match n_ChildrenIDs n with
            | None => Some (occupied n)
            | Some cs =>
                (λ ls, interleave ls (occupied n)) <$>
                mapM (λ c, if decide (c = NilUUID) then Some [] else tree_items d b id c)
                  (take (S (length (occupied n))) cs)
            end
          else None
      end
  end.

Lemma node_okb_sound b id pid n : b_heap b !! id = Some n → node_okb b id pid n = true →
  node_ok b id pid n.
Proof.
  intros Hh. unfold node_okb. rewrite !andb_true_iff, !bool_decide_eq_true.
  intros ((((((? & ?) & ?) & ?) & ?) & ?) & Hc). constructor; try done.
  intros cs Hcs. rewrite Hcs in Hc. by apply bool_decide_eq_true in Hc.
Qed.

Lemma tree_items_sound d b pid id l : tree_items d b pid id = Some l → is_tree d b pid id l.
Proof.
  revert pid id l. induction d as [|d IH]; intros pid id l; [done|]. cbn [tree_items is_tree].
  destruct (b_heap b !! id) as [n|] eqn:Hh; [|done].
  destruct (node_okb b id pid n) eqn:Hok; [|done].
  apply node_okb_sound in Hok as Hn; [|done]. intros H. exists n. split; [done|].
  destruct (n_ChildrenIDs n) as [cs|] eqn:Ec; [|by simplify_eq].
  apply fmap_Some in H as (ls & Hls & ->). apply mapM_Some in Hls.
  pose proof (no_children _ _ _ _ Hn cs Ec) as Hlc. pose proof (no_count _ _ _ _ Hn) as Hcnt.
  pose proof (length_occupied _ _ _ _ Hn) as Hlo.
  exists ls. split; [|split; [done|]].
  - apply Forall2_length in Hls. rewrite length_take in Hls. lia.
  - intros i c li Hc Hli.
    destruct (Forall2_lookup_r _ _ _ i li Hls Hli) as (c' & Hc' & Hr).
    apply lookup_take_Some in Hc' as [Hc' _]. simplify_eq.
    case_decide; [left; by simplify_eq|right]. split; [done|]. by apply IH.
Qed.
End tree.
