(* ===== verification/BtreeCells.v ===== *)
(** * The shape of a B-tree, its cells, and the place of an insertion

    [gtree] is the tree as data.  Its nodes are listed as cells, one per node, so
    that a heap represents a tree when it holds every cell, and an operation that
    rewrites some nodes keeps the other cells.  A context is the path from a
    subtree up to the root; splits climb along it. *)

From S2P Require Import Prelude Handle BtreeModel BtreeOps BtreeSpec.

(** ** Slices, once more *)

Section slice_lemmas.
Context {A : Type}.
Implicit Types (l a g : list A) (x : A).

Lemma zinsert_nat l i x : i < length l → zinsert l (Z.of_nat i) x = Some (<[i := x]> l).
Proof.
  intros. unfold zinsert, zlength. rewrite decide_True by lia. by rewrite Nat2Z.id.
Qed.

Lemma zinsert_middle a1 y a2 x i : i = Z.of_nat (length a1) →
  zinsert (a1 ++ y :: a2) i x = Some (a1 ++ x :: a2).
Proof.
  intros ->. rewrite zinsert_nat by (rewrite length_app; simpl; lia).
  f_equal. rewrite insert_app_r_alt by lia. by rewrite Nat.sub_diag.
Qed.

Lemma zdrop_nat l i : i ≤ length l → zdrop l (Z.of_nat i) = Some (drop i l).
Proof. intros. unfold zdrop, zlength. rewrite decide_True by lia. by rewrite Nat2Z.id. Qed.

Lemma zcopy_nat l i src : i ≤ length l → zcopy l (Z.of_nat i) src = Some (go_copy l i src).
Proof. intros. unfold zcopy, zlength. rewrite decide_True by lia. by rewrite Nat2Z.id. Qed.

Lemma zlookup_middle a1 y a2 i : i = Z.of_nat (length a1) →
  zlookup (a1 ++ y :: a2) i = Some y.
Proof. intros ->. rewrite zlookup_nat. by apply list_lookup_middle. Qed.

(** [copy(l[i+1:], l[i:]); l[i] = x] drops the last element. *)
Lemma open_slot a1 a2 y x : 
  zcopy (a1 ++ a2 ++ [y]) (Z.of_nat (length a1) + 1) (a2 ++ [y]) ≫=
    (λ l, zinsert l (Z.of_nat (length a1)) x) = Some (a1 ++ x :: a2).
Proof.
  replace (Z.of_nat (length a1) + 1)%Z with (Z.of_nat (S (length a1))) by lia.
  rewrite zcopy_nat by (rewrite !length_app; simpl; lia). simpl.
  destruct (a2 ++ [y]) as [|z a2'] eqn:E; [by destruct a2|].
  assert (Hl : length a2' = length a2).
  { apply (f_equal length) in E. rewrite length_app in E. simpl in E. lia. }
  assert (Hc : go_copy (a1 ++ z :: a2') (S (length a1)) (z :: a2') = a1 ++ z :: a2).
  { unfold go_copy. rewrite length_app. simpl.
    replace (length a1 + S (length a2') - S (length a1)) with (length a2) by lia.
    rewrite drop_ge by (rewrite length_app; simpl; lia). rewrite app_nil_r.
    replace (z :: a2') with ((a2 ++ [y])) at 2 by done.
    rewrite take_app_length.
    replace (a1 ++ z :: a2') with ((a1 ++ [z]) ++ a2') by (by rewrite <- app_assoc).
    replace (S (length a1)) with (length (a1 ++ [z])) by (rewrite length_app; simpl; lia).
    rewrite take_app_length. by rewrite <- app_assoc. }
  rewrite Hc. by apply zinsert_middle.
Qed.

(** The same with [shiftSlots], which keeps what is behind the occupied part. *)
Lemma shift_insert a1 a2 y g x p n :
  p = Z.of_nat (length a1) → n = Z.of_nat (length a1 + length a2) →
  zinsert (shiftSlots (a1 ++ a2 ++ y :: g) p n) p x = Some (a1 ++ x :: a2 ++ g).
Proof.
  intros -> ->. unfold shiftSlots. case_decide as Hd.
  - unfold moveArrayElements. rewrite decide_False
      by (unfold zlength; rewrite !length_app; simpl; lia).
    replace (Z.to_nat _) with (S (length a1)) by lia.
    replace (Z.to_nat _) with (length a2)
      by (unfold zlength; rewrite !length_app; simpl; lia).
    rewrite Nat2Z.id, drop_app_length, take_app_length.
    destruct a2 as [|z a2]; [simpl in Hd; lia|].
    assert (Hc : go_copy (a1 ++ (z :: a2) ++ y :: g) (S (length a1)) (z :: a2) =
                 a1 ++ z :: (z :: a2) ++ g).
    { unfold go_copy. rewrite !length_app. simpl.
      replace (a1 ++ z :: a2 ++ y :: g) with ((a1 ++ [z]) ++ (a2 ++ y :: g)) by (by rewrite <- app_assoc).
      replace (S (length a1)) with (length (a1 ++ [z])) at 1 by (rewrite length_app; simpl; lia).
      rewrite take_app_length.
      replace (length a1 + S (length a2 + S (length g)) - S (length a1))
        with (S (length a2) + length g) by lia.
      simpl. rewrite (firstn_all2 a2) by lia.
      replace ((a1 ++ [z]) ++ a2 ++ y :: g) with ((a1 ++ z :: a2 ++ [y]) ++ g)
        by (rewrite <- !app_assoc; simpl; by rewrite <- app_assoc).
      replace (S (length a1 + S (length a2))) with (length (a1 ++ z :: a2 ++ [y]))
        by (rewrite !length_app; simpl; rewrite length_app; simpl; lia).
      rewrite drop_app_length. by rewrite <- app_assoc. }
    rewrite Hc. by apply zinsert_middle.
  - destruct a2; [|simpl in Hd; lia]. by apply zinsert_middle.
Qed.

Lemma copy_elements (dst src : list A) (n : nat) : 0 < n → n ≤ length dst → n ≤ length src →
  copyArrayElements dst src (Z.of_nat n) = Some (take n src ++ drop n dst).
Proof.
  intros. unfold copyArrayElements. rewrite decide_False by lia.
  rewrite decide_True by (unfold zlength; lia). f_equal. unfold go_copy.
  rewrite Nat2Z.id, take_0. simpl. rewrite length_take, Nat.sub_0_r, take_take.
  f_equal; [f_equal; lia|f_equal; lia].
Qed.

Lemma halve l (m : nat) : length l = S (m + m) →
  ∃ l1 x l2, l = l1 ++ x :: l2 ∧ length l1 = m ∧ length l2 = m.
Proof.
  intros H. destruct (lookup_lt_is_Some_2 l m) as [x Hx]; [lia|].
  exists (take m l), x, (drop (S m) l). split; [by rewrite take_drop_middle|].
  rewrite length_take, length_drop. lia.
Qed.
Lemma halve_even l (m : nat) : length l = m + m →
  ∃ l1 l2, l = l1 ++ l2 ∧ length l1 = m ∧ length l2 = m.
Proof.
  intros H. exists (take m l), (drop m l). rewrite take_drop, length_take, length_drop. split; [done|lia].
Qed.

Lemma drop_middle a1 x a2 : drop (S (length a1)) (a1 ++ x :: a2) = a2.
Proof. induction a1; simpl; [by rewrite drop_0|done]. Qed.
End slice_lemmas.

Lemma interleave_app {A} (ls1 ls2 : list (list A)) xs1 x xs2 : length ls1 = S (length xs1) →
  interleave (ls1 ++ ls2) (xs1 ++ x :: xs2) = interleave ls1 xs1 ++ x :: interleave ls2 xs2.
Proof.
  revert ls1. induction xs1 as [|y xs1 IH]; intros [|l ls1] H; simplify_eq/=.
  - by destruct ls1.
  - rewrite IH by done. by rewrite <- app_assoc.
Qed.

(** ** Trees as data *)

(** A nil child, or a node with its items and children (none for a leaf). *)
Inductive gtree (K V : Type) :=
| GNil
| GNode (id : UUID) (xs : list (Item K V)) (cs : list (gtree K V)).
Arguments GNil {K V}.
Arguments GNode {K V}.

(** One node of the heap: its id, its parent, its items, the ids of its children. *)
Record Cell (K V : Type) := mkCell {
  c_id : UUID;
  c_pid : UUID;
  c_xs : list (Item K V);
  c_cs : list UUID;
}.
Arguments mkCell {K V}.
Arguments c_id {K V}.
Arguments c_pid {K V}.
Arguments c_xs {K V}.
Arguments c_cs {K V}.

(** One step of the path to the root: a node around one of its children. *)
Record frame (K V : Type) := mkFrame {
  f_id : UUID;
  f_cs1 : list (gtree K V);
  f_xs1 : list (Item K V);
  f_xs2 : list (Item K V);
  f_cs2 : list (gtree K V);
}.
Arguments mkFrame {K V}.
Arguments f_id {K V}.
Arguments f_cs1 {K V}.
Arguments f_xs1 {K V}.
Arguments f_xs2 {K V}.
Arguments f_cs2 {K V}.

Section trees.
Context {K V : Type}.
Local Abbreviation gtree := (gtree K V).
Local Abbreviation Cell := (Cell K V).
Local Abbreviation frame := (frame K V).
Local Abbreviation Item := (Item K V).
Implicit Types (t : gtree) (f : frame) (k : list frame).

Definition root_id t : UUID := match t with GNil => NilUUID | GNode id _ _ => id end.

Fixpoint flat t : list Item :=
  match t with
  | GNil => []
  | GNode _ xs cs => match cs with [] => xs | _ => interleave (map flat cs) xs end
  end.

Fixpoint height t : nat :=
  match t with GNil => 0 | GNode _ _ cs => S (foldr max 0 (map height cs)) end.

Fixpoint cells (pid : UUID) t : list Cell :=
  match t with
  | GNil => []
  | GNode id xs cs => mkCell id pid xs (map root_id cs) :: concat (map (cells id) cs)
  end.

Definition forest (pid : UUID) (cs : list gtree) : list Cell := concat (map (cells pid) cs).

Section induction.
Context (P : gtree → Prop) (HN : P GNil)
  (HG : ∀ id xs cs, Forall P cs → P (GNode id xs cs)).

Fixpoint gtree_induct t : P t :=
  match t with
  | GNil => HN
  | GNode id xs cs =>
      HG id xs cs ((fix go cs : Forall P cs :=
        match cs with
        | [] => List.Forall_nil P
        | c :: cs => List.Forall_cons P c cs (gtree_induct c) (go cs)
        end) cs)
  end.
End induction.

Lemma forest_app pid cs1 cs2 : forest pid (cs1 ++ cs2) = forest pid cs1 ++ forest pid cs2.
Proof. unfold forest. by rewrite map_app, concat_app. Qed.
Lemma forest_cons pid t cs : forest pid (t :: cs) = cells pid t ++ forest pid cs.
Proof. done. Qed.

Lemma Forall_forest P pid cs : Forall P (forest pid cs) ↔ Forall (λ t, Forall P (cells pid t)) cs.
Proof.
  unfold forest. induction cs as [|t cs IH]; simpl; [by rewrite !Forall_nil|].
  by rewrite Forall_app, Forall_cons, IH.
Qed.

(** Filling a context. *)
Definition fill f t : gtree := GNode (f_id f) (f_xs1 f ++ f_xs2 f) (f_cs1 f ++ t :: f_cs2 f).
Fixpoint plug k t : gtree := match k with [] => t | f :: k => plug k (fill f t) end.

Definition parent_id k : UUID := match k with [] => NilUUID | f :: _ => f_id f end.

Definition frame_cell f (pid hole : UUID) : Cell :=
  mkCell (f_id f) pid (f_xs1 f ++ f_xs2 f) (map root_id (f_cs1 f) ++ hole :: map root_id (f_cs2 f)).

Fixpoint ctx_cells k (hole : UUID) : list Cell :=
  match k with
  | [] => []
  | f :: k =>
      frame_cell f (parent_id k) hole ::
        forest (f_id f) (f_cs1 f) ++ forest (f_id f) (f_cs2 f) ++ ctx_cells k (f_id f)
  end.

Lemma cells_fill pid f t :
  cells pid (fill f t) ≡ₚ cells (f_id f) t ++ frame_cell f pid (root_id t) ::
    forest (f_id f) (f_cs1 f) ++ forest (f_id f) (f_cs2 f).
Proof.
  cbn [cells fill]. change (concat (map (cells (f_id f)) ?l)) with (forest (f_id f) l).
  rewrite forest_app, forest_cons, map_app. cbn [map].
  change (mkCell _ _ _ _) with (frame_cell f pid (root_id t)). solve_Permutation.
Qed.

Lemma cells_plug k t :
  cells NilUUID (plug k t) ≡ₚ cells (parent_id k) t ++ ctx_cells k (root_id t).
Proof.
  revert t. induction k as [|f k IH]; intros t; [by rewrite app_nil_r|].
  cbn [plug ctx_cells parent_id]. rewrite IH, cells_fill. cbn [root_id fill]. solve_Permutation.
Qed.

(** The items around the hole. *)
Definition pre (cs : list gtree) (xs : list Item) : list Item :=
  concat (zip_with (λ l x, l ++ [x]) (map flat cs) xs).
Definition post (xs : list Item) (cs : list gtree) : list Item :=
  concat (zip_with (λ x l, x :: l) xs (map flat cs)).

Fixpoint left_of k : list Item :=
  match k with [] => [] | f :: k => left_of k ++ pre (f_cs1 f) (f_xs1 f) end.
Fixpoint right_of k : list Item :=
  match k with [] => [] | f :: k => post (f_xs2 f) (f_cs2 f) ++ right_of k end.

Definition frame_shape f : Prop :=
  length (f_cs1 f) = length (f_xs1 f) ∧ length (f_cs2 f) = length (f_xs2 f).

Lemma flat_inner id (xs1 xs2 : list Item) cs1 t cs2 :
  length cs1 = length xs1 → length cs2 = length xs2 →
  flat (GNode id (xs1 ++ xs2) (cs1 ++ t :: cs2)) = pre cs1 xs1 ++ flat t ++ post xs2 cs2.
Proof.
  intros H1 H2. cbn [flat].
  transitivity (interleave (map flat (cs1 ++ t :: cs2)) (xs1 ++ xs2)); [by destruct cs1|].
  rewrite map_app. cbn [map].
  rewrite (interleave_split _ _ (length cs1) (flat t)).
  - unfold pre, post. f_equal; [|f_equal].
    + rewrite <- (length_map flat cs1) at 1. rewrite take_app_length, H1, take_app_length. done.
    + rewrite H1, drop_app_length, <- H1, <- (length_map flat cs1). by rewrite drop_middle.
  - rewrite !length_app. simpl. rewrite !length_map. lia.
  - rewrite <- (length_map flat cs1). by apply list_lookup_middle.
Qed.

Lemma flat_fill f t : frame_shape f →
  flat (fill f t) = pre (f_cs1 f) (f_xs1 f) ++ flat t ++ post (f_xs2 f) (f_cs2 f).
Proof. intros [H1 H2]. by apply flat_inner. Qed.

Lemma flat_plug k t : Forall frame_shape k →
  flat (plug k t) = left_of k ++ flat t ++ right_of k.
Proof.
  intros H. revert t. induction H as [|f k Hf Hk IH]; intros t; simpl; [by rewrite app_nil_r|].
  rewrite IH, flat_fill by done. by rewrite <- !app_assoc.
Qed.

Lemma pre_app cs1 cs2 (xs1 xs2 : list Item) : length cs1 = length xs1 →
  pre (cs1 ++ cs2) (xs1 ++ xs2) = pre cs1 xs1 ++ pre cs2 xs2.
Proof.
  intros. unfold pre. rewrite map_app, zip_with_app by (rewrite length_map; lia).
  by rewrite concat_app.
Qed.
Lemma post_app cs1 cs2 (xs1 xs2 : list Item) : length cs1 = length xs1 →
  post (xs1 ++ xs2) (cs1 ++ cs2) = post xs1 cs1 ++ post xs2 cs2.
Proof.
  intros. unfold post. rewrite map_app, zip_with_app by (rewrite length_map; lia).
  by rewrite concat_app.
Qed.

(** Cutting a node at one of its items. *)
Lemma flat_cut id id1 id2 (xs1 xs2 : list Item) x cs1 cs2 :
  length cs1 = S (length xs1) → length cs2 = S (length xs2) →
  flat (GNode id (xs1 ++ x :: xs2) (cs1 ++ cs2)) =
    flat (GNode id1 xs1 cs1) ++ x :: flat (GNode id2 xs2 cs2).
Proof.
  intros H1 H2. destruct cs1 as [|c1 cs1], cs2 as [|c2 cs2]; [done..|].
  change (interleave (map flat ((c1 :: cs1) ++ c2 :: cs2)) (xs1 ++ x :: xs2) =
    interleave (map flat (c1 :: cs1)) xs1 ++ x :: interleave (map flat (c2 :: cs2)) xs2).
  rewrite map_app. apply interleave_app. by rewrite length_map.
Qed.

(** A separator between the halves of the child in the hole. *)
Lemma flat_fill_split f t1 x t2 : frame_shape f →
  flat (GNode (f_id f) (f_xs1 f ++ x :: f_xs2 f) (f_cs1 f ++ t1 :: t2 :: f_cs2 f)) =
    pre (f_cs1 f) (f_xs1 f) ++ (flat t1 ++ x :: flat t2) ++ post (f_xs2 f) (f_cs2 f).
Proof.
  intros [H1 H2]. rewrite flat_inner by (simpl; lia). unfold post. simpl.
  by rewrite <- app_assoc.
Qed.
End trees.

(** ** Cells in the heap *)

(** The slice of children of an inner node is filled up with nil ids. *)
Definition cs_repr (sl : Z) (cs : list UUID) : option (list UUID) :=
  match cs with
  | [] => None
  | _ => Some (cs ++ replicate (Z.to_nat (sl + 1) - length cs) NilUUID)
  end.

Lemma cs_repr_app (sl : Z) (ids1 ids2 : list UUID) id : cs_repr sl (ids1 ++ id :: ids2) =
  Some (ids1 ++ id :: ids2 ++ replicate (Z.to_nat (sl + 1) - S (length ids1 + length ids2)) NilUUID).
Proof.
  unfold cs_repr. rewrite length_app. cbn [length].
  replace (length ids1 + S (length ids2)) with (S (length ids1 + length ids2)) by lia.
  destruct ids1; cbn [app]; [done|]. by rewrite <- app_assoc.
Qed.

Record node_rep {K V} (sl : Z) (r : gset UUID) (c : Cell K V) (n : Node K V) : Prop := {
  nr_repo : c_id c ∈ r;
  nr_nil : c_id c ≠ NilUUID;
  nr_id : n_ID n = c_id c;
  nr_parent : n_ParentID n = c_pid c;
  nr_slots : length (n_Slots n) = Z.to_nat sl;
  nr_count : n_Count n = Z.of_nat (length (c_xs c));
  nr_xs : take (length (c_xs c)) (n_Slots n) = c_xs c;
  nr_len : 1 ≤ length (c_xs c) ≤ Z.to_nat sl;
  nr_cs : n_ChildrenIDs n = cs_repr sl (c_cs c);
  nr_shape : c_cs c = [] ∨ length (c_cs c) = S (length (c_xs c));
  nr_index : (-1 ≤ n_indexOfNode n ≤ sl)%Z
}.

Definition cell_ok {K V} (sl : Z) (h : gmap UUID (Node K V)) (r : gset UUID) (c : Cell K V) : Prop :=
  ∃ n, h !! c_id c = Some n ∧ node_rep sl r c n.

Record represents {K V} (sl : Z) (h : gmap UUID (Node K V)) (r : gset UUID) (f : N)
    (l : list (Cell K V)) : Prop := {
  rp_cells : Forall (cell_ok sl h r) l;
  rp_nodup : NoDup (map c_id l);
  rp_fresh : Forall (λ c, c_id c < f)%N l
}.

#[global] Instance represents_perm {K V} sl h r f : Proper ((≡ₚ) ==> iff) (@represents K V sl h r f).
Proof.
  intros l1 l2 Hp. split; intros []; constructor; [by rewrite <- Hp|by rewrite <- Hp|by rewrite <- Hp| | |];
    by rewrite Hp.
Qed.

Lemma represents_permute {K V} sl h r f (l l' : list (Cell K V)) :
  l ≡ₚ l' → represents sl h r f l → represents sl h r f l'.
Proof. by intros ->. Qed.

Section heap.
Context {K V : Type}.
Local Abbreviation gtree := (gtree K V).
Local Abbreviation Cell := (Cell K V).
Implicit Types (c : Cell) (n : Node K V) (t : gtree) (cs : list gtree).

(** A cell is kept when its node is. *)
Lemma cell_ok_frame sl h h' r r' c :
  h' !! c_id c = h !! c_id c → r ⊆ r' → cell_ok sl h r c → cell_ok sl h' r' c.
Proof.
  intros Hh Hr (n & Hn & []). exists n. split; [by rewrite Hh|]. constructor; auto.
Qed.

Lemma cells_frame sl h h' r r' (l : list Cell) :
  (∀ c, c ∈ l → h' !! c_id c = h !! c_id c) → r ⊆ r' →
  Forall (cell_ok sl h r) l → Forall (cell_ok sl h' r') l.
Proof.
  intros Hh Hr. rewrite !Forall_forall. intros Hl c Hc.
  eapply cell_ok_frame; [by apply Hh|done|by apply Hl].
Qed.

(** The cells of the children move to another parent. *)
Lemma cell_ok_reparent sl h h' r r' pid c :
  h' !! c_id c = (λ n, set_ParentID n pid) <$> h !! c_id c → r ⊆ r' → cell_ok sl h r c →
  cell_ok sl h' r' (mkCell (c_id c) pid (c_xs c) (c_cs c)).
Proof.
  intros Hh Hr (n & Hn & []). exists (set_ParentID n pid). simpl. rewrite Hh, Hn. split; [done|].
  constructor; simpl; auto.
Qed.

Lemma occupied_rep sl r c n : node_rep sl r c n → occupied n = c_xs c.
Proof. intros []. unfold occupied. by rewrite nr_count0, Nat2Z.id. Qed.

Lemma cell_nonnil sl h r pid t : Forall (cell_ok sl h r) (cells pid t) →
  t = GNil ∨ root_id t ≠ NilUUID.
Proof.
  destruct t as [|id xs cs]; [by left|]. simpl. rewrite Forall_cons.
  intros [(n & _ & []) _]. by right.
Qed.

(** ** Changing cells *)

Lemma map_ids_app (l1 l2 : list Cell) : map c_id (l1 ++ l2) = map c_id l1 ++ map c_id l2.
Proof. apply map_app. Qed.

Lemma id_elem c (l : list Cell) : c ∈ l → c_id c ∈ map c_id l.
Proof. apply (list_elem_of_fmap_2 c_id). Qed.

(** One node is rewritten. *)
Lemma represents_update sl h r fr c c' n' (l : list Cell) :
  represents sl h r fr (c :: l) → c_id c' = c_id c → node_rep sl r c' n' →
  represents sl (<[c_id c := n']> h) r fr (c' :: l).
Proof.
  intros [Hc Hn Hf] Hid Hr. apply Forall_cons in Hc as [_ Hc], Hf as [Hf0 Hf].
  cbn [map] in Hn. apply NoDup_cons in Hn as [Hni Hn].
  constructor.
  - apply Forall_cons. split.
    + exists n'. rewrite Hid, lookup_insert_eq. done.
    + eapply cells_frame; [|reflexivity|done]. intros d Hd. apply lookup_insert_ne.
      intros E. apply Hni. rewrite E. by apply id_elem.
  - cbn [map]. rewrite Hid. by apply NoDup_cons.
  - apply Forall_cons. by rewrite Hid.
Qed.

(** A node is added under the next fresh id. *)
Lemma represents_new sl h r fr c n (l : list Cell) :
  represents sl h r fr l → c_id c = fr → node_rep sl ({[fr]} ∪ r) c n →
  represents sl (<[fr := n]> h) ({[fr]} ∪ r) (N.succ fr) (c :: l).
Proof.
  intros [Hc Hn Hf] Hid Hr.
  assert (Hne : ∀ d, d ∈ l → c_id d ≠ fr).
  { intros d Hd. rewrite Forall_forall in Hf. specialize (Hf d Hd). lia. }
  constructor.
  - apply Forall_cons. split.
    + exists n. by rewrite Hid, lookup_insert_eq.
    + eapply cells_frame; [|apply union_subseteq_r|done]. intros d Hd.
      apply lookup_insert_ne. intros E. by eapply Hne.
  - cbn [map]. apply NoDup_cons. split; [|done]. rewrite Hid.
    intros (d & E & Hd)%(list_elem_of_fmap c_id). by eapply Hne.
  - apply Forall_cons. split; [lia|]. eapply Forall_impl; [done|]. simpl. lia.
Qed.

(** Only the nodes of the cells matter, and ids may be skipped. *)
Lemma represents_ext sl h h' r r' fr fr' (l : list Cell) :
  represents sl h r fr l → (∀ c, c ∈ l → h' !! c_id c = h !! c_id c) → r ⊆ r' → (fr ≤ fr')%N →
  represents sl h' r' fr' l.
Proof.
  intros [Hc Hn Hf] Hh Hr Hfr. constructor; [by eapply cells_frame|done|].
  eapply Forall_impl; [done|]. simpl. lia.
Qed.

Lemma represents_app sl h r fr (l1 l2 : list Cell) :
  represents sl h r fr (l1 ++ l2) → represents sl h r fr l2.
Proof.
  intros [Hc Hn Hf]. rewrite map_app in Hn. apply NoDup_app in Hn as (_ & _ & Hn).
  apply Forall_app in Hc as [_ ?], Hf as [_ ?]. by constructor.
Qed.

Lemma focus_lookup sl h r fr (k : list (frame K V)) t : represents sl h r fr (cells NilUUID (plug k t)) →
  represents sl h r fr (cells (parent_id k) t ++ ctx_cells k (root_id t)).
Proof. by rewrite cells_plug. Qed.

Lemma parent_nil sl h r (k : list (frame K V)) hole : Forall (cell_ok sl h r) (ctx_cells k hole) → parent_id k = NilUUID → k = [].
Proof.
  destruct k as [|g k]; [done|]. cbn [ctx_cells parent_id]. intros [(n & _ & []) _]%Forall_cons E. done.
Qed.

(** Children get another parent. *)
Definition reparent (q : UUID) (ids : list UUID) (h : gmap UUID (Node K V)) : gmap UUID (Node K V) :=
  foldl (λ h id, if decide (id = NilUUID) then h else alter (λ n, set_ParentID n q) id h) h ids.

Lemma reparent_lookup q ids h x : reparent q ids h !! x =
  if decide (x ∈ ids ∧ x ≠ NilUUID) then (λ n, set_ParentID n q) <$> h !! x else h !! x.
Proof.
  revert h. induction ids as [|id ids IH]; intros h; cbn [reparent foldl].
  { rewrite decide_False; [done|]. intros [H _]. by apply not_elem_of_nil in H. }
  change (foldl _ ?h' ids) with (reparent q ids h'). rewrite IH.
  destruct (decide (id = NilUUID)) as [->|Hid].
  { apply decide_ext. rewrite elem_of_cons. naive_solver. }
  destruct (decide (x = id)) as [->|Hx].
  - rewrite lookup_alter_eq, (decide_True (P := id ∈ id :: ids ∧ _)) by set_solver.
    case_decide; [|done]. by destruct (h !! id).
  - rewrite lookup_alter_ne by done. apply decide_ext. rewrite elem_of_cons. naive_solver.
Qed.

(** A forest as its roots and what is below them. *)
Definition roots (pid : UUID) (cs : list gtree) : list Cell :=
  concat (map (λ t, match t with
                    | GNil => []
                    | GNode id xs ds => [mkCell id pid xs (map root_id ds)] end) cs).
Definition below (cs : list gtree) : list Cell :=
  concat (map (λ t, match t with GNil => [] | GNode id _ ds => forest id ds end) cs).

Lemma forest_split pid cs : forest pid cs ≡ₚ roots pid cs ++ below cs.
Proof.
  induction cs as [|t cs IH]; [done|]. rewrite forest_cons, IH.
  destruct t as [|id xs ds]; [done|]. unfold roots, below. cbn [map concat cells].
  change (concat (map (cells id) ds)) with (forest id ds). solve_Permutation.
Qed.

Lemma roots_ids pid cs x : x ∈ map c_id (roots pid cs) → x ∈ map root_id cs.
Proof.
  induction cs as [|t cs IH]; [done|]. unfold roots. cbn [map concat]. rewrite map_ids_app, elem_of_app.
  intros [H|H]; [|apply elem_of_cons; right; exact (IH H)].
  destruct t; [by apply not_elem_of_nil in H|]. apply list_elem_of_singleton in H as ->.
  apply elem_of_cons. by left.
Qed.

Lemma ids_roots pid cs x : x ∈ map root_id cs → x ≠ NilUUID → x ∈ map c_id (roots pid cs).
Proof.
  induction cs as [|t cs IH]; [by intros ?%not_elem_of_nil|].
  unfold roots. cbn [map concat]. rewrite map_ids_app, elem_of_app.
  intros [->|H]%elem_of_cons Hn; [left|right; exact (IH H Hn)].
  destruct t; [done|]. by apply list_elem_of_singleton.
Qed.

Lemma roots_in_forest pid cs x : x ∈ map root_id cs → x ≠ NilUUID → x ∈ map c_id (forest pid cs).
Proof.
  intros H Hn. apply (ids_roots pid) in H as (c & -> & Hc)%(list_elem_of_fmap c_id); [|done].
  apply id_elem. rewrite forest_split. apply elem_of_app. by left.
Qed.

Lemma roots_reparent pid q cs :
  roots q cs = map (λ c, mkCell (c_id c) q (c_xs c) (c_cs c)) (roots pid cs).
Proof.
  induction cs as [|t cs IH]; [done|]. unfold roots. cbn [map concat]. rewrite map_app.
  f_equal; [by destruct t|exact IH].
Qed.

Lemma represents_reparent sl h r fr pid q cs (l : list Cell) :
  represents sl h r fr (forest pid cs ++ l) →
  represents sl (reparent q (map root_id cs) h) r fr (forest q cs ++ l).
Proof.
  rewrite !forest_split, <- !app_assoc. intros [Hc Hn Hf].
  set (g := λ c : Cell, mkCell (c_id c) q (c_xs c) (c_cs c)).
  rewrite (roots_reparent pid q). fold g.
  assert (Hids : map c_id (map g (roots pid cs)) = map c_id (roots pid cs)) by (rewrite map_map; done).
  constructor.
  - apply Forall_app in Hc as [Hc1 Hc2]. apply Forall_app. split.
    + rewrite Forall_forall in Hc1. apply Forall_forall.
      intros c (c0 & -> & H0)%(list_elem_of_fmap g). apply (cell_ok_reparent sl h _ r r); [|done|auto].
      destruct (Hc1 c0 H0) as (n & Hn0 & Hr0).
      rewrite reparent_lookup, decide_True; [done|]. split.
      * apply (roots_ids pid). by apply id_elem.
      * by apply (nr_nil _ _ _ _ Hr0).
    + eapply cells_frame; [|reflexivity|done]. intros c H0. rewrite reparent_lookup, decide_False; [done|].
      intros [H1 H2]. apply (ids_roots pid) in H1; [|done].
      rewrite map_ids_app in Hn. apply NoDup_app in Hn as (_ & Hd & _).
      eapply Hd; [exact H1|]. by apply id_elem.
  - rewrite map_ids_app, Hids, <- map_ids_app. done.
  - apply Forall_app in Hf as [Hf1 Hf2]. apply Forall_app. split; [|done].
    rewrite Forall_forall in Hf1. apply Forall_forall.
    intros c (c0 & -> & H0)%(list_elem_of_fmap g). exact (Hf1 c0 H0).
Qed.
End heap.

(** A tree whose cells are in the heap is a tree of the lookups. *)
Section lookups.
Context {T K V : Type} `{!Tracker T K V}.
Implicit Types (b : Btree T K V) (t : gtree K V).

Lemma node_rep_ok b c (n : Node K V) : b_heap b !! c_id c = Some n →
  node_rep (getSlotLength b) (b_repo b) c n → node_ok b (c_id c) (c_pid c) n.
Proof.
  intros Hh []. constructor; try done; [by rewrite nr_count0; lia|].
  intros cs Hcs. rewrite nr_cs0 in Hcs. unfold cs_repr in Hcs.
  destruct nr_shape0 as [E|E]; [by rewrite E in Hcs|].
  destruct (c_cs c) as [|x l]; [done|]. simplify_eq. rewrite length_app, length_replicate.
  pose proof (getSlotLength_pos b). simpl in *. lia.
Qed.

Lemma cells_is_tree b t d pid : height t ≤ d → t ≠ GNil →
  Forall (cell_ok (getSlotLength b) (b_heap b) (b_repo b)) (cells pid t) →
  is_tree d b pid (root_id t) (flat t).
Proof.
  revert d pid. induction t as [|id xs cs IH] using gtree_induct; intros d pid Hd Ht Hc; [done|].
  cbn [height] in Hd. destruct d as [|d]; [lia|].
  cbn [cells] in Hc. apply Forall_cons in Hc as [(n & Hn & Hrep) Hcs].
  pose proof (occupied_rep _ _ _ _ Hrep) as Hocc. simpl in Hocc.
  cbn [is_tree root_id]. exists n. split; [by apply (node_rep_ok b (mkCell id pid xs (map root_id cs)))|].
  rewrite (nr_cs _ _ _ _ Hrep), Hocc. cbn [c_cs flat].
  destruct cs as [|t0 cs]; [done|]. cbn [map cs_repr].
  destruct (nr_shape _ _ _ _ Hrep) as [?|Hs]; [done|]. simpl in Hs. rewrite length_map in Hs.
  exists (map flat (t0 :: cs)). split; [by rewrite length_map|]. split; [done|].
  intros i c li Hi Hli.
  change (map flat (t0 :: cs)) with (flat <$> (t0 :: cs)) in Hli.
  apply list_lookup_fmap_Some in Hli as (t & -> & Ht').
  assert (Hr : (root_id <$> (t0 :: cs)) !! i = Some (root_id t))
    by (rewrite list_lookup_fmap, Ht'; done).
  pose proof (lookup_app_l_Some _ (replicate (Z.to_nat (getSlotLength b + 1) -
    length (root_id t0 :: map root_id cs)) NilUUID) _ _ Hr) as Hi'.
  assert (c = root_id t) as -> by (apply (inj Some); by rewrite <- Hi, <- Hi').
  assert (Hct : Forall (cell_ok (getSlotLength b) (b_heap b) (b_repo b)) (cells id t)).
  { apply Forall_forest in Hcs. rewrite Forall_forall in Hcs. apply Hcs.
    by eapply list_elem_of_lookup_2. }
  destruct (cell_nonnil _ _ _ _ _ Hct) as [->|Hne]; [by left|right]. split; [done|].
  rewrite Forall_forall in IH. apply IH; [by eapply list_elem_of_lookup_2| |by intros ->|done].
  assert (height t ≤ foldr max 0 (map height (t0 :: cs))); [|lia].
  apply (max_list_elem_of_le (height t)). apply (list_elem_of_fmap_2 height).
  by eapply list_elem_of_lookup_2.
Qed.
End lookups.

(** ** Heights *)

Section heights.
Context {K V : Type}.
Local Abbreviation Node := (Node K V).
Local Abbreviation Item := (Item K V).
Implicit Types (t : gtree K V) (k : list (frame K V)) (h : gmap UUID Node) (r : gset UUID).

Lemma height_plug k t : height t + length k ≤ height (plug k t).
Proof.
  revert t. induction k as [|fr k IH]; intros t; [simpl; lia|]. cbn [plug length].
  etrans; [|apply IH]. enough (S (height t) ≤ height (fill fr t)) by lia.
  cbn [fill height]. apply le_n_S. apply (max_list_elem_of_le (height t)).
  apply (list_elem_of_fmap_2 height). apply elem_of_app. right. left.
Qed.

Lemma length_interleave {A} (ls : list (list A)) (xs l : list A) : length ls = S (length xs) → l ∈ ls →
  length l + length xs ≤ length (interleave ls xs).
Proof.
  revert xs l. induction ls as [|l0 ls IH]; intros xs l Hl Hin; [by apply not_elem_of_nil in Hin|].
  destruct xs as [|x xs]; simpl in Hl.
  - destruct ls; [|done]. apply list_elem_of_singleton in Hin as ->. simpl. lia.
  - cbn [interleave]. rewrite length_app. cbn [length]. apply elem_of_cons in Hin as [->|Hin].
    + destruct ls as [|l1 ls]; [simpl in Hl; lia|].
      pose proof (IH xs l1 ltac:(simpl in *; lia) (list_elem_of_here _ _)). lia.
    + pose proof (IH xs l ltac:(lia) Hin). lia.
Qed.

(** The height of a tree is at most the number of its items. *)
Lemma height_items w h r pid t : Forall (cell_ok w h r) (cells pid t) → height t ≤ length (flat t).
Proof.
  revert pid. induction t as [|id xs cs IH] using gtree_induct; intros pid Hc; [done|].
  cbn [cells] in Hc. apply Forall_cons in Hc as [(n & _ & Hn) Hc].
  pose proof (nr_len _ _ _ _ Hn) as Hl. cbn [c_xs] in Hl. cbn [height flat].
  destruct (nr_shape _ _ _ _ Hn) as [E|E]; cbn [c_xs c_cs] in E.
  { destruct cs; [simpl; lia|done]. }
  rewrite length_map in E. destruct cs as [|c0 cs0] eqn:Ecs; [done|]. rewrite <- Ecs in *.
  enough (foldr max 0 (map height cs) + length xs ≤ length (interleave (map flat cs) xs)) by lia.
  assert (Hmax : ∀ m, m ∈ map height cs → m + length xs ≤ length (interleave (map flat cs) xs)).
  { intros m (t & -> & Ht)%(list_elem_of_fmap height). rewrite Forall_forall in IH.
    apply Forall_forest in Hc. rewrite Forall_forall in Hc.
    pose proof (IH t Ht id (Hc t Ht)).
    pose proof (length_interleave (map flat cs) xs (flat t) ltac:(by rewrite length_map)
      (list_elem_of_fmap_2 flat _ _ Ht)). lia. }
  assert (Hin : foldr max 0 (map height cs) = 0 ∨ foldr max 0 (map height cs) ∈ map height cs).
  { clear. induction (map height cs) as [|m ms IH]; [by left|]. cbn [foldr]. 
    destruct (Nat.max_spec m (foldr max 0 ms)) as [[_ ->]|[_ ->]]; [|right; left].
    destruct IH as [->|IH]; [by left|right; by right]. }
  destruct Hin as [->|Hin]; [|by apply Hmax].
  destruct (map height cs) as [|m ms] eqn:E2; [by subst cs|].
  pose proof (Hmax m (list_elem_of_here _ _)). lia.
Qed.
End heights.
