(* ===== verification/BtreeRun.v ===== *)
(** * Running the steps of an insertion

    [st b h r f] is the tree [b] with the heap [h], the repository [r] and the
    next fresh id [f].  Each lemma runs one function of the insertion on such a
    state, and gives the state after it. *)

From S2P Require Import Prelude Handle BtreeModel BtreeOps BtreeSpec BtreeCells.

(** Writes to the same node, past writes to others. *)
Lemma insert_over {A} (h : gmap UUID A) p q x y z : p ≠ q →
  <[p := x]> (<[q := y]> (<[p := z]> h)) = <[p := x]> (<[q := y]> h).
Proof. intros. by rewrite (insert_insert_ne h q p), insert_insert_eq. Qed.

Section steps.
Context {T K V : Type} `{!Tracker T K V}.
Context (zeroK : K).
Local Abbreviation Btree := (Btree T K V).
Local Abbreviation Node := (Node K V).
Local Abbreviation Item := (Item K V).
Local Abbreviation B := (M Btree (btree_error tracker_error)).
Implicit Types (b : Btree) (h : gmap UUID Node) (r : gset UUID) (f p q : UUID) (n : Node).

Definition st b h r f : Btree :=
  mkBtree (b_StoreInfo b) h r f (b_tracker b) (b_tempSlots b)
    (b_tempParent b) (b_tempChildren b) (b_tempParentChildren b) (b_currentNodeID b)
    (b_currentItemIndex b) (b_currentItem b) (b_distributeAction b) (b_promoteAction b).

Lemma st_eta b : b = st b (b_heap b) (b_repo b) (b_fresh b).
Proof. by destruct b. Qed.

Definition blank (sl : Z) (id parent : UUID) : Node :=
  mkNode id parent (replicate (Z.to_nat sl) (zero_item zeroK)) 0 0 None (-1).

Lemma run_new_node b h r f q : new_node zeroK q (st b h r f) =
  (Ret f, st b (<[f := blank (getSlotLength b) f q]> h) r (N.succ f)).
Proof. done. Qed.

Lemma run_write b h r f p n : write p n (st b h r f) = (Ret (), st b (<[p := n]> h) r f).
Proof. done. Qed.

Lemma run_save b h r f p : saveNode p (st b h r f) = (Ret (), st b h ({[p]} ∪ r) f).
Proof. done. Qed.

Lemma run_deref_st b h r f p n : h !! p = Some n → deref p (st b h r f) = (Ret n, st b h r f).
Proof. apply (run_deref (st b h r f)). Qed.
Lemma run_sl b h r f :
  (gets getSlotLength : B Z) (st b h r f) = (Ret (getSlotLength b), st b h r f).
Proof. done. Qed.
Lemma run_get_tempSlots b h r f :
  (gets b_tempSlots : B (list Item)) (st b h r f) = (Ret (b_tempSlots b), st b h r f).
Proof. done. Qed.
Lemma run_get_tempChildren b h r f :
  (gets b_tempChildren : B (list UUID)) (st b h r f) = (Ret (b_tempChildren b), st b h r f).
Proof. done. Qed.
Lemma run_get_tempParent b h r f :
  (gets b_tempParent : B Item) (st b h r f) = (Ret (b_tempParent b), st b h r f).
Proof. done. Qed.
Lemma run_get_tempParentChildren b h r f :
  (gets b_tempParentChildren : B (list UUID)) (st b h r f) = (Ret (b_tempParentChildren b), st b h r f).
Proof. done. Qed.
Lemma run_get_StoreInfo b h r f :
  (gets b_StoreInfo : B StoreInfo) (st b h r f) = (Ret (b_StoreInfo b), st b h r f).
Proof. done. Qed.
Lemma run_set_tempSlots b h r f ts :
  (modify (set_tempSlots ts) : B ()) (st b h r f) = (Ret (), st (set_tempSlots ts b) h r f).
Proof. done. Qed.
Lemma run_set_tempChildren b h r f ts :
  (modify (set_tempChildren ts) : B ()) (st b h r f) = (Ret (), st (set_tempChildren ts b) h r f).
Proof. done. Qed.
Lemma run_set_tempParent b h r f x p q :
  (modify (set_tempParent x p q) : B ()) (st b h r f) = (Ret (), st (set_tempParent x p q b) h r f).
Proof. done. Qed.
Lemma run_set_promote b h r f a :
  (modify (set_promote a) : B ()) (st b h r f) = (Ret (), st (set_promote a b) h r f).
Proof. done. Qed.
Lemma run_some {A} (a : A) (b : Btree) : (or_panic (Some a) : B A) b = (Ret a, b).
Proof. done. Qed.

(** A node that is stored with slices of the right lengths. *)
Definition stored (sl : Z) (h : gmap UUID Node) (r : gset UUID) (p : UUID) (n : Node) : Prop :=
  p ∈ r ∧ h !! p = Some n ∧ length (n_Slots n) = Z.to_nat sl ∧
  ∀ cs, n_ChildrenIDs n = Some cs → length cs = Z.to_nat (sl + 1).

Lemma run_getNode_st b h r f p n : stored (getSlotLength b) h r p n →
  getNode zeroK p (st b h r f) = (Ret (Some p), st b h r f).
Proof.
  intros (Hr & Hh & Hs & Hc). unfold getNode. erewrite bind_Ret by reflexivity. cbv beta.
  rewrite decide_True by done.
  rewrite (bind_Ret _ _ _ _ _ (run_deref (st b h r f) p n Hh)). cbv beta.
  erewrite bind_Ret by reflexivity. cbv beta.
  rewrite (bind_Ret _ _ _ _ _ (run_write _ _ _ _ _ _)).
  change (getSlotLength (st b h r f)) with (getSlotLength b).
  rewrite (resize_id _ _ (n_Slots n)) by done.
  assert (Hcs : (resize NilUUID (getSlotLength b + 1) <$> n_ChildrenIDs n) = n_ChildrenIDs n).
  { destruct (n_ChildrenIDs n) as [cs|] eqn:E; [|done]. simpl. f_equal.
    apply resize_id. by apply Hc. }
  rewrite Hcs. unfold set_ChildrenIDs, set_Slots. simpl.
  replace (mkNode _ _ _ _ _ _ _) with n by (by destruct n).
  by rewrite insert_id.
Qed.

Lemma stored_rep sl h r (c : Cell K V) n : (0 ≤ sl)%Z → h !! c_id c = Some n → node_rep sl r c n →
  stored sl h r (c_id c) n.
Proof.
  intros Hsl Hh Hr. split_and!; [apply Hr|done|apply Hr|]. pose proof (nr_len _ _ _ _ Hr).
  intros cs Hcs. rewrite (nr_cs _ _ _ _ Hr) in Hcs. unfold cs_repr in Hcs.
  destruct (nr_shape _ _ _ _ Hr) as [E|E]; [by rewrite E in Hcs|].
  destruct (c_cs c) as [|x l]; [done|]. simplify_eq. rewrite length_app, length_replicate.
  simpl in *. lia.
Qed.

Lemma run_getParent b h r f n p pn : n_ParentID n = p → p ≠ NilUUID →
  stored (getSlotLength b) h r p pn →
  getParent zeroK n (st b h r f) = (Ret (Some p), st b h r f).
Proof.
  intros Hp Hne Hs. unfold getParent, IsNil. rewrite Hp, bool_decide_false by done.
  by eapply run_getNode_st.
Qed.

End steps.

(** Lookups in a heap written as a sequence of insertions, and one step. *)
Ltac rep_side := first [done | lia | by auto | set_solver | unfold NilUUID; lia].
Ltac look := repeat first [eassumption | apply lookup_insert_eq | rewrite lookup_insert_ne by congruence].
Ltac node_cbn :=
  unfold set_Slots, set_Count, set_ChildrenIDs, set_ParentID, set_indexOfNode, blank;
  cbn [n_ID n_ParentID n_Slots n_Count n_Version n_ChildrenIDs n_indexOfNode].
Ltac stepped := cbv beta; node_cbn; rewrite ?insert_insert_eq.
Ltac step H := rewrite (bind_Ret _ _ _ _ _ H); stepped.
Ltac step_by tac := erewrite bind_Ret by tac; stepped.
Ltac sx := first
  [ step_by ltac:(apply run_deref_st; look) | step_by ltac:(apply run_sl)
  | step_by ltac:(apply run_get_tempSlots) | step_by ltac:(apply run_get_tempChildren)
  | step_by ltac:(apply run_get_tempParent) | step_by ltac:(apply run_get_tempParentChildren)
  | step_by ltac:(apply run_get_StoreInfo) | step_by ltac:(apply run_write)
  | step_by ltac:(apply run_save) | step_by ltac:(apply run_new_node)
  | step_by ltac:(apply run_set_tempSlots) | step_by ltac:(apply run_set_tempChildren)
  | step_by ltac:(apply run_set_tempParent) | step_by ltac:(apply run_set_promote)
  | step_by ltac:(apply run_some) ].

Section run.
Context {T K V : Type} `{!Tracker T K V}.
Context (zeroK : K).
Local Abbreviation Btree := (Btree T K V).
Local Abbreviation Node := (Node K V).
Local Abbreviation Item := (Item K V).
Local Abbreviation B := (M Btree (btree_error tracker_error)).
Implicit Types (b : Btree) (h : gmap UUID Node) (r : gset UUID) (f p q : UUID) (n : Node).

(** ** The index of a child *)

Lemma run_getChild_st b h r f n (cs1 cs2 : list UUID) c cn :
  n_ChildrenIDs n = Some (cs1 ++ c :: cs2) → c ≠ NilUUID → stored (getSlotLength b) h r c cn →
  getChild zeroK n (Z.of_nat (length cs1)) (st b h r f) = (Ret (Some c), st b h r f).
Proof.
  intros Hc Hn Hs. unfold getChild, getChildID, children. rewrite Hc. cbn [from_option id].
  rewrite decide_False by (rewrite length_app; simpl; lia).
  rewrite zlookup_middle by done. sx. rewrite decide_False by done. by eapply run_getNode_st.
Qed.

Lemma scan_child_spec (cs1 cs2 : list UUID) p i rounds :
  p ∉ cs1 → p ≠ NilUUID → length cs1 < rounds →
  scan_child (cs1 ++ p :: cs2) p i rounds = Some (i + Z.of_nat (length cs1))%Z.
Proof.
  revert i rounds. induction cs1 as [|c cs1 IH]; intros i [|rounds] Hn Hp Hl; simpl in *; try lia.
  - rewrite decide_False, decide_True by done. f_equal. lia.
  - apply not_elem_of_cons in Hn as [Hc Hn].
    assert (E : scan_child (cs1 ++ p :: cs2) p (i + 1) rounds = Some (i + Z.pos (Pos.of_succ_nat (length cs1)))%Z).
    { rewrite IH by (done || lia). f_equal. lia. }
    case_decide; [done|]. by rewrite decide_False.
Qed.

Lemma run_getIndexOfChild b h r f q qn p n (cs1 cs2 : list UUID) :
  h !! q = Some qn → h !! p = Some n → n_ID n = p → p ≠ NilUUID →
  n_ChildrenIDs qn = Some (cs1 ++ p :: cs2) → p ∉ cs1 → p ∉ cs2 →
  length (n_Slots qn) = Z.to_nat (getSlotLength b) →
  length (cs1 ++ p :: cs2) = Z.to_nat (getSlotLength b + 1) →
  (-1 ≤ n_indexOfNode n ≤ getSlotLength b)%Z →
  getIndexOfChild q p (st b h r f) =
    (Ret (Z.of_nat (length cs1)),
     st b (<[p := set_indexOfNode n (Z.of_nat (length cs1))]> h) r f).
Proof.
  intros Hq Hp Hid Hne Hcs Hn1 Hn2 Hsl Hlen Hix. unfold getIndexOfChild.
  rewrite (bind_Ret _ _ _ _ _ (run_deref_st b h r f q qn Hq)). cbv beta.
  rewrite (bind_Ret _ _ _ _ _ (run_deref_st b h r f p n Hp)). cbv beta.
  rewrite Hcs, Hid. pose proof (getSlotLength_pos b).
  assert (Hscan :
    (i ← or_panic (scan_child (cs1 ++ p :: cs2) p 0 (S (length (n_Slots qn))));
     write p (set_indexOfNode n i);; mret i : B Z) (st b h r f) =
    (Ret (Z.of_nat (length cs1)),
     st b (<[p := set_indexOfNode n (Z.of_nat (length cs1))]> h) r f)).
  { rewrite length_app in Hlen. simpl in Hlen.
    rewrite scan_child_spec by (done || lia). by erewrite bind_Ret by reflexivity. }
  case_decide as Hix1.
  { erewrite bind_Ret by reflexivity. by apply Hscan. }
  destruct (lookup_lt_is_Some_2 (cs1 ++ p :: cs2) (Z.to_nat (n_indexOfNode n))) as [x Hx]; [lia|].
  assert (Hx' : zlookup (cs1 ++ p :: cs2) (n_indexOfNode n) = Some x).
  { apply zlookup_Some. split; [lia|done]. }
  rewrite Hx'. erewrite bind_Ret by (erewrite bind_Ret by reflexivity; reflexivity). cbv beta.
  destruct (decide (p = x)) as [<-|Hpx].
  - rewrite bool_decide_false by (by intros ?).
    assert (n_indexOfNode n = Z.of_nat (length cs1)) as E.
    { apply lookup_app_Some in Hx as [Hx|[Hge Hx]].
      - by apply list_elem_of_lookup_2 in Hx.
      - destruct (Z.to_nat (n_indexOfNode n) - length cs1) as [|k] eqn:Ek; [lia|].
        simpl in Hx. by apply list_elem_of_lookup_2 in Hx. }
    rewrite E. f_equal. f_equal. rewrite <- E.
    replace (set_indexOfNode n (n_indexOfNode n)) with n by (by destruct n).
    by rewrite insert_id.
  - rewrite bool_decide_true by done. by apply Hscan.
Qed.

(** ** Slots *)

Lemma run_fill_slots b h r f p n from (c : nat) : h !! p = Some n →
  0 < c → c ≤ length (n_Slots n) → c ≤ length from →
  fill_slots p from (Z.of_nat c) (st b h r f) =
    (Ret (), st b (<[p := set_Count (set_Slots n (take c from ++ drop c (n_Slots n))) (Z.of_nat c)]> h) r f).
Proof.
  intros Hp H0 H1 H2. unfold fill_slots. sx. rewrite copy_elements by done. by sx.
Qed.

Lemma run_clear_slots b h r f p n : h !! p = Some n →
  clear_slots zeroK p (st b h r f) =
    (Ret (), st b (<[p := set_Slots n (replicate (length (n_Slots n)) (zero_item zeroK))]> h) r f).
Proof. intros Hp. unfold clear_slots. by sx. Qed.

Lemma run_set_slot0 b h r f p n x : h !! p = Some n → 0 < length (n_Slots n) →
  set_slot p 0 x (st b h r f) = (Ret (), st b (<[p := set_Slots n (<[0 := x]> (n_Slots n))]> h) r f).
Proof.
  intros Hp Hl. unfold set_slot. sx. change 0%Z with (Z.of_nat 0).
  rewrite zinsert_nat by done. by sx.
Qed.

Lemma run_set_child b h r f p n (cs1 cs2 : list UUID) y id i : h !! p = Some n →
  n_ChildrenIDs n = Some (cs1 ++ y :: cs2) → i = Z.of_nat (length cs1) →
  set_child p i id (st b h r f) =
    (Ret (), st b (<[p := set_ChildrenIDs n (Some (cs1 ++ id :: cs2))]> h) r f).
Proof.
  intros Hp Hc Hi. unfold set_child, children. sx. rewrite Hc. simpl.
  rewrite zinsert_middle by done. by sx.
Qed.

(** A leaf with room takes the item at index [length xs1]. *)
Lemma run_insertSlotItem b h r f p n (xs1 xs2 : list Item) g x y :
  h !! p = Some n → n_Slots n = xs1 ++ (xs2 ++ g) ++ [y] →
  insertSlotItem p x (Z.of_nat (length xs1)) (st b h r f) =
    (Ret (), st b (<[p := set_Count (set_Slots n (xs1 ++ x :: xs2 ++ g)) (n_Count n + 1)]> h) r f).
Proof.
  intros Hp Hs. unfold insertSlotItem. sx. rewrite Hs.
  rewrite zdrop_nat by (rewrite length_app; lia). rewrite drop_app_length. sx.
  pose proof (open_slot xs1 (xs2 ++ g) y x) as Ho.
  destruct (zcopy _ _ _) as [l|]; [|done]. simpl in Ho. sx. rewrite Ho. by sx.
Qed.

(** ** Moving children to another parent *)

Lemma alter_is_insert {A} (g : A → A) (h : gmap UUID A) p a : h !! p = Some a →
  alter g p h = <[p := g a]> h.
Proof.
  intros Hp. apply map_eq. intros i. destruct (decide (i = p)) as [->|Hi].
  - by rewrite lookup_alter_eq, lookup_insert_eq, Hp.
  - by rewrite lookup_alter_ne, lookup_insert_ne by done.
Qed.

Definition fetched (id : UUID) : option UUID := if decide (id = NilUUID) then None else Some id.

Lemma run_getChildren b h r f ks :
  (∀ id, id ∈ ks → id ≠ NilUUID → ∃ n, stored (getSlotLength b) h r id n) →
  getChildren zeroK ks (st b h r f) = (Ret (fetched <$> ks), st b h r f).
Proof.
  induction ks as [|id ks IH]; intros Hk; [done|]. cbn [getChildren].
  assert (Hid : (if decide (id = NilUUID) then mret None else getNode zeroK id : B (option UUID))
    (st b h r f) = (Ret (fetched id), st b h r f)).
  { unfold fetched. case_decide as Hd; [done|].
    destruct (Hk id ltac:(set_solver) Hd) as [n Hn]. by eapply run_getNode_st. }
  rewrite (bind_Ret _ _ _ _ _ Hid). erewrite bind_Ret by (apply IH; set_solver). done.
Qed.

Lemma run_adopt b f p r ks : ∀ h,
  (∀ id, id ∈ ks → id ≠ NilUUID → id ∈ r ∧ is_Some (h !! id)) →
  adopt p (fetched <$> ks) (st b h r f) = (Ret (), st b (reparent p ks h) r f).
Proof.
  induction ks as [|id ks IH]; intros h Hk; [done|]. cbn [fmap list_fmap reparent foldl].
  unfold fetched at 1. destruct (decide (id = NilUUID)) as [Hid|Hid].
  - cbn [adopt]. apply IH. set_solver.
  - destruct (Hk id ltac:(set_solver) Hid) as [Hr [n Hn]]. cbn [adopt].
    sx. sx. sx. rewrite (subseteq_union_1_L {[id]} r) by set_solver.
    rewrite (alter_is_insert _ h id n) by done. rewrite IH; [done|].
    intros x Hx Hx0. destruct (Hk x ltac:(set_solver) Hx0) as [Hxr Hxs]. split; [done|].
    apply lookup_insert_is_Some. destruct (decide (id = x)); [by left|by right].
Qed.

Lemma run_updateChildrenParent b h r f p n ks :
  h !! p = Some n → n_ChildrenIDs n = Some ks → ks ≠ [] →
  (∀ id, id ∈ ks → id ≠ NilUUID → ∃ n, stored (getSlotLength b) h r id n) →
  updateChildrenParent zeroK p (st b h r f) = (Ret (), st b (reparent p ks h) r f).
Proof.
  intros Hp Hc Hne Hk. unfold updateChildrenParent. sx.
  unfold hasChildren, children. rewrite Hc. cbn [default].
  rewrite bool_decide_true by (destruct ks; [done|simpl; lia]).
  erewrite bind_Ret by (by apply run_getChildren). apply run_adopt.
  intros id H1 H2. destruct (Hk id H1 H2) as (cn & ? & ? & _). eauto.
Qed.

Lemma reparent_pad p ids m h : reparent p (ids ++ replicate m NilUUID) h = reparent p ids h :> gmap UUID Node.
Proof.
  apply map_eq. intros x. rewrite !reparent_lookup. apply decide_ext.
  rewrite elem_of_app. split; [intros [[?|H] ?]; [done|]|intros []; auto].
  apply elem_of_replicate in H as [-> _]. done.
Qed.

Lemma reparent_insert_ne p ids q n h : q ∉ ids →
  reparent p ids (<[q := n]> h) = <[q := n]> (reparent p ids h) :> gmap UUID Node.
Proof.
  intros Hq. apply map_eq. intros x. rewrite reparent_lookup.
  destruct (decide (x = q)) as [->|Hx].
  - rewrite decide_False by naive_solver. by rewrite !lookup_insert_eq.
  - by rewrite !lookup_insert_ne, reparent_lookup by done.
Qed.

(** ** A separator and its right child enter a node *)

Lemma run_promote_here b h r f p pid (xs1 xs2 : list Item) y g ds1 c ds2 d g' v ix x c0 c1 :
  let occ := Z.of_nat (length xs1 + length xs2) in
  h !! p = Some (mkNode p pid (xs1 ++ xs2 ++ y :: g) occ v (Some (ds1 ++ c :: ds2 ++ d :: g')) ix) →
  length ds1 = length xs1 → length ds2 = length xs2 →
  b_tempParent b = x → b_tempParentChildren b = [c0; c1] →
  promote_here p (Z.of_nat (length xs1)) (st b h r f) =
    (Ret (), st b (<[p := mkNode p pid (xs1 ++ x :: xs2 ++ g) (occ + 1) v
                           (Some (ds1 ++ c0 :: c1 :: ds2 ++ g')) ix]> h) ({[p]} ∪ r) f).
Proof.
  intros occ Hp H1 H2 Hx Hc. unfold promote_here. do 3 sx. rewrite Hx, Hc.
  change (zlookup [c0; c1] 0) with (Some c0). change (zlookup [c0; c1] 1) with (Some c1). do 2 sx.
  cbv zeta. rewrite (decide_False (P := (occ < Z.of_nat (length xs1))%Z)) by lia.
  rewrite (shift_insert xs1 xs2 y g x) by lia. sx.
  unfold children. cbn [n_ChildrenIDs from_option id].
  rewrite zinsert_middle by lia. sx.
  replace (ds1 ++ c0 :: ds2 ++ d :: g') with ((ds1 ++ [c0]) ++ ds2 ++ d :: g')
    by (by rewrite <- app_assoc).
  rewrite shift_insert by (rewrite length_app; simpl; lia). sx. sx.
  rewrite <- app_assoc. apply run_save.
Qed.

Lemma run_promote_buffers b h r f p pid (xs1 xs2 : list Item) ds1 c ds2 v ix x c0 c1 cnt :
  h !! p = Some (mkNode p pid (xs1 ++ xs2) cnt v (Some (ds1 ++ c :: ds2)) ix) →
  getSlotLength b = Z.of_nat (length xs1 + length xs2) → cnt = getSlotLength b →
  length ds1 = length xs1 → length ds2 = length xs2 → 1 ≤ length xs1 + length xs2 →
  length (b_tempSlots b) = S (length xs1 + length xs2) →
  length (b_tempChildren b) = S (S (length xs1 + length xs2)) →
  b_tempParent b = x → b_tempParentChildren b = [c0; c1] →
  promote_buffers p (Z.of_nat (length xs1)) (st b h r f) =
    (Ret (), st (set_tempChildren (ds1 ++ c0 :: c1 :: ds2) (set_tempSlots (xs1 ++ x :: xs2) b)) h r f).
Proof.
  intros Hp Hsl -> H1 H2 Hpos Hts Htc Hx Hc. unfold promote_buffers. do 4 sx. rewrite Hx, Hc.
  change (zlookup [c0; c1] 0) with (Some c0). change (zlookup [c0; c1] 1) with (Some c1). do 3 sx.
  rewrite Hsl, copy_elements by (rewrite ?length_app; lia). sx.
  rewrite firstn_all2 by (rewrite length_app; lia).
  destruct (drop (length xs1 + length xs2) (b_tempSlots b)) as [|y g] eqn:E.
  { apply (f_equal length) in E. rewrite length_drop in E. simpl in E. lia. }
  assert (g = []) as ->.
  { apply (f_equal length) in E. rewrite length_drop in E. simpl in E. destruct g; [done|simpl in E; lia]. }
  rewrite <- app_assoc, shift_insert by lia. sx. rewrite app_nil_r. sx. sx.
  change (b_tempChildren (set_tempSlots _ b)) with (b_tempChildren b).
  replace (Z.of_nat (length xs1 + length xs2) + 1)%Z with (Z.of_nat (S (length xs1 + length xs2))) by lia.
  unfold children. cbn [n_ChildrenIDs from_option id].
  rewrite copy_elements by (rewrite ?length_app; simpl; lia). sx.
  rewrite firstn_all2 by (rewrite length_app; simpl; lia).
  destruct (drop (S (length xs1 + length xs2)) (b_tempChildren b)) as [|d g'] eqn:E'.
  { apply (f_equal length) in E'. rewrite length_drop in E'. simpl in E'. lia. }
  assert (g' = []) as ->.
  { apply (f_equal length) in E'. rewrite length_drop in E'. simpl in E'. destruct g'; [done|simpl in E'; lia]. }
  rewrite <- app_assoc. cbn [app]. rewrite zinsert_middle by lia. sx.
  replace (ds1 ++ c0 :: ds2 ++ [d]) with ((ds1 ++ [c0]) ++ ds2 ++ d :: []) by (by rewrite <- app_assoc).
  rewrite shift_insert by (rewrite length_app; simpl; lia). sx.
  rewrite app_nil_r, <- app_assoc. by rewrite run_set_tempChildren.
Qed.

(** ** The index of the node in the hole of a context *)

Lemma rep_lookup sl h r f (c : Cell K V) l : represents sl h r f l → c ∈ l →
  ∃ n, h !! c_id c = Some n ∧ node_rep sl r c n.
Proof. intros [Hc _ _] H. rewrite Forall_forall in Hc. by apply Hc. Qed.

Lemma rep_stored sl h r f (c : Cell K V) l : (0 ≤ sl)%Z → represents sl h r f l → c ∈ l →
  ∃ n, stored sl h r (c_id c) n.
Proof.
  intros Hsl Hr Hc. destruct (rep_lookup _ _ _ _ _ _ Hr Hc) as (n & Hn & Hrep).
  exists n. by apply stored_rep.
Qed.

Lemma rep_index sl h r f (c : Cell K V) l i n : represents sl h r f (c :: l) →
  h !! c_id c = Some n → (-1 ≤ i ≤ sl)%Z →
  represents sl (<[c_id c := set_indexOfNode n i]> h) r f (c :: l).
Proof.
  intros Hr Hn Hi. destruct (rep_lookup _ _ _ _ _ _ Hr (list_elem_of_here _ _)) as (n' & Hn' & []).
  simplify_eq. eapply represents_update; [done..|]. by constructor.
Qed.

Lemma run_index b h r f (c : Cell K V) fr k l :
  represents (getSlotLength b) h r f (c :: l ++ ctx_cells (fr :: k) (c_id c)) →
  ∃ h', getIndexOfChild (f_id fr) (c_id c) (st b h r f) =
      (Ret (Z.of_nat (length (f_cs1 fr))), st b h' r f) ∧
    represents (getSlotLength b) h' r f (c :: l ++ ctx_cells (fr :: k) (c_id c)).
Proof.
  intros Hrep. pose proof (getSlotLength_pos b) as Hsl.
  destruct (rep_lookup _ _ _ _ c _ Hrep) as (n & Hn & Hc); [set_solver|].
  set (qc := frame_cell fr (parent_id k) (c_id c)).
  assert (Hqc : qc ∈ c :: l ++ ctx_cells (fr :: k) (c_id c)).
  { apply elem_of_cons. right. apply elem_of_app. right. apply elem_of_cons. by left. }
  destruct (rep_lookup _ _ _ _ qc _ Hrep Hqc) as (qn & Hq & Hqr).
  pose proof (nr_nil _ _ _ _ Hc) as Hnil.
  assert (Hout : ∀ cs, cs = f_cs1 fr ∨ cs = f_cs2 fr → c_id c ∉ map root_id cs).
  { intros cs Hcs Hin. apply (roots_in_forest (f_id fr)) in Hin; [|done].
    pose proof (rp_nodup _ _ _ _ _ Hrep) as Hnd. cbn [map] in Hnd.
    apply NoDup_cons in Hnd as [Hnot _]. apply Hnot. rewrite map_ids_app. cbn [ctx_cells map].
    rewrite !map_ids_app. destruct Hcs as [-> | ->]; set_solver. }
  pose proof (nr_cs _ _ _ _ Hqr) as Hqcs. cbn [qc frame_cell c_cs] in Hqcs.
  destruct (nr_shape _ _ _ _ Hqr) as [E|E]; cbn [qc frame_cell c_cs c_xs] in E;
    [by destruct (map root_id (f_cs1 fr))|].
  pose proof (nr_len _ _ _ _ Hqr) as Hql. cbn [qc frame_cell c_xs] in Hql.
  unfold cs_repr in Hqcs. rewrite E in Hqcs.
  set (pad := replicate _ NilUUID) in Hqcs.
  assert (Hqcs' : n_ChildrenIDs qn = Some (map root_id (f_cs1 fr) ++ c_id c :: (map root_id (f_cs2 fr) ++ pad))).
  { rewrite Hqcs. destruct (map root_id (f_cs1 fr)); simpl; [done|]. by rewrite <- app_assoc. }
  exists (<[c_id c := set_indexOfNode n (Z.of_nat (length (f_cs1 fr)))]> h). split.
  - rewrite <- (length_map root_id (f_cs1 fr)).
    eapply (run_getIndexOfChild b h r f (f_id fr) qn); try done; [apply Hc|by apply Hout; left| | | |apply Hc].
    + intros [H|H]%elem_of_app; [by eapply Hout; [right|]|].
      apply elem_of_replicate in H as [H _]. done.
    + apply Hqr.
    + rewrite length_app in E |- *. simpl in E |- *. rewrite length_app. unfold pad.
      rewrite length_replicate. lia.
  - apply rep_index; [done..|]. rewrite length_app in E. simpl in E. rewrite !length_map in E. lia.
Qed.

Lemma node_rep_intro sl r id pid (xs g : list Item) cs v ix cnt :
  id ∈ r → id ≠ NilUUID → length (xs ++ g) = Z.to_nat sl → 1 ≤ length xs →
  cnt = Z.of_nat (length xs) → (cs = [] ∨ length cs = S (length xs)) → (-1 ≤ ix ≤ sl)%Z →
  node_rep sl r (mkCell id pid xs cs) (mkNode id pid (xs ++ g) cnt v (cs_repr sl cs) ix).
Proof.
  intros. constructor; simpl; try done; [by rewrite take_app_length|].
  rewrite length_app in *. lia.
Qed.

Lemma zdrop_middle {A} (a1 : list A) x a2 : zdrop (a1 ++ x :: a2) (Z.of_nat (length a1) + 1) = Some a2.
Proof.
  replace (Z.of_nat (length a1) + 1)%Z with (Z.of_nat (S (length a1))) by lia.
  rewrite zdrop_nat by (rewrite length_app; simpl; lia). by rewrite drop_middle.
Qed.

Lemma half_shift (hf : nat) : Z.shiftr (Z.of_nat (2 * hf)) 1 = Z.of_nat hf.
Proof.
  rewrite Z.shiftr_div_pow2 by lia. change (2 ^ 1)%Z with 2%Z.
  symmetry. apply Z.div_unique_exact; lia.
Qed.

(** The slot length is even, and so is every length that a user can ask for. *)
Context (hf : nat) (Hhf : 1 ≤ hf).
Local Abbreviation sl := (Z.of_nat (2 * hf)).

Lemma run_clear_tempSlots b h r f : clear_tempSlots zeroK (st b h r f) =
  (Ret (), st (set_tempSlots (replicate (length (b_tempSlots b)) (zero_item zeroK)) b) h r f).
Proof. unfold clear_tempSlots. by sx. Qed.

Lemma run_split_under b h r f p pid xs ys1 m ys2 l :
  getSlotLength b = sl → represents sl h r f (mkCell p pid xs [] :: l) → (f ≠ 0)%N →
  b_tempSlots b = ys1 ++ m :: ys2 → length ys1 = hf → length ys2 = hf →
  ∃ h' r' ts', split_under zeroK p true (st b h r f) =
      (Ret (), st (set_tempSlots ts' b) h' r' (N.succ (N.succ f))) ∧
    length ts' = length (b_tempSlots b) ∧
    represents sl h' r' (N.succ (N.succ f))
      (cells pid (GNode p [m] [GNode (N.succ f) ys1 []; GNode f ys2 []]) ++ l).
Proof.
  intros Hsl Hrep Hf0 Hts H1 H2.
  pose proof (rp_cells _ _ _ _ _ Hrep) as Hc. apply Forall_cons in Hc as [(n & Hp & Hn) _].
  pose proof (rp_fresh _ _ _ _ _ Hrep) as Hf. apply Forall_cons in Hf as [Hf _]. simpl in Hp, Hf.
  assert (p ≠ f ∧ p ≠ N.succ f ∧ f ≠ N.succ f) as (Hpf & Hpf' & Hff) by lia.
  destruct n as [id pid' slots cnt v cs ix]. destruct Hn as [Hr Hnil Hid Hpid Hlen Hcnt Hxs Hn1 Hcs _ Hix].
  cbn [c_id c_pid c_xs c_cs n_ID n_ParentID n_Slots n_Count n_ChildrenIDs n_indexOfNode] in *. subst id pid' cs.
  unfold split_under. sx. cbv zeta. rewrite Hsl, half_shift. do 4 sx. rewrite Hts.
  step_by ltac:(apply run_fill_slots; [look|lia|simpl; rewrite length_replicate; lia|rewrite length_app; lia]).
  replace (zdrop _ _) with (Some ys2) by (by rewrite <- H1, zdrop_middle). sx.
  step_by ltac:(apply run_fill_slots; [look|lia|simpl; rewrite length_replicate; lia|lia]).
  rewrite insert_over by congruence.
  step_by ltac:(apply run_clear_slots; look).
  rewrite zlookup_middle by congruence. sx.
  step_by ltac:(apply run_set_slot0; [look|simpl; rewrite length_replicate; lia]).
  step_by ltac:(sx; apply run_write). do 4 sx.
  replace (Z.to_nat (sl + 1)) with (S (S (2 * hf - 1))) by lia.
  step_by ltac:(eapply (run_set_child _ _ _ _ _ _ [] (NilUUID :: replicate (2 * hf - 1) NilUUID)); [look|reflexivity|reflexivity]).
  step_by ltac:(eapply (run_set_child _ _ _ _ _ _ [N.succ f] (replicate (2 * hf - 1) NilUUID)); [look|reflexivity|reflexivity]).
  sx. rewrite run_clear_tempSlots.
  eexists _, _, _. split; [reflexivity|]. split; [by rewrite length_replicate, Hts|].
  rewrite Hsl, take_app_le, !firstn_all2 by lia.
  rewrite (insert_insert_ne h f) by congruence.
  assert (Hrep2 : represents sl (<[f := mkNode f p (ys2 ++ drop hf (replicate (Z.to_nat sl) (zero_item zeroK)))
      (Z.of_nat hf) 0 None (-1)]> h) ({[f]} ∪ r) (N.succ f) (mkCell f p ys2 [] :: mkCell p pid xs [] :: l)).
  { apply represents_new; [done..|].
    apply (node_rep_intro sl _ f p ys2 _ []); rewrite ?length_app, ?length_drop, ?length_replicate;
      rep_side. }
  apply (represents_new _ _ _ _ (mkCell (N.succ f) p ys1 [])
    (mkNode (N.succ f) p (ys1 ++ drop hf (replicate (Z.to_nat sl) (zero_item zeroK)))
      (Z.of_nat hf) 0 None (-1))) in Hrep2; [|done|].
  2:{ apply (node_rep_intro sl _ (N.succ f) p ys1 _ []); rewrite ?length_app, ?length_drop, ?length_replicate;
      rep_side. }
  rewrite (Permutation_swap _ _ l), (Permutation_swap (mkCell p pid xs [])) in Hrep2.
  eapply (represents_update _ _ _ _ _ (mkCell p pid [m] [N.succ f; f])) in Hrep2; [|done|].
  2:{ eapply (node_rep_intro sl _ p pid [m] (replicate (2 * hf - 1) (zero_item zeroK)) [N.succ f; f] v ix 1);
      simpl; rewrite ?length_replicate; rep_side. }
  replace (<[0 := m]> (replicate (length slots) (zero_item zeroK)))
    with ([m] ++ replicate (2 * hf - 1) (zero_item zeroK)).
  2:{ rewrite Hlen. replace (Z.to_nat sl) with (S (2 * hf - 1)) by lia. done. }
  replace (Some ([N.succ f] ++ f :: replicate (2 * hf - 1) NilUUID)) with (cs_repr sl [N.succ f; f]).
  2:{ unfold cs_repr. replace (Z.to_nat (sl + 1) - length [N.succ f; f]) with (2 * hf - 1) by (simpl; lia). done. }
  by eapply represents_ext; [exact Hrep2|done|set_solver|lia].
Qed.

(** [addOnLeaf] on a full leaf under a parent: the leaf is halved. *)
Lemma run_split_beside b h r f p xs fr k ys1 m ys2 :
  getSlotLength b = sl → represents sl h r f (mkCell p (f_id fr) xs [] :: ctx_cells (fr :: k) p) →
  (f ≠ 0)%N → b_tempSlots b = ys1 ++ m :: ys2 → length ys1 = hf → length ys2 = hf →
  ∃ h' r', split_beside zeroK p (st b h r f) =
      (Ret (), st (set_promote (mkPromote (Some (f_id fr)) (Z.of_nat (length (f_cs1 fr))))
                     (set_tempParent m p f b)) h' r' (N.succ f)) ∧
    represents sl h' r' (N.succ f) (cells (f_id fr) (GNode p ys1 []) ++
      cells (f_id fr) (GNode f ys2 []) ++ ctx_cells (fr :: k) p).
Proof.
  intros Hsl Hrep Hf0 Hts H1 H2.
  destruct (rep_lookup _ _ _ _ _ _ Hrep (list_elem_of_here _ _)) as (n & Hp & Hn).
  pose proof (rp_fresh _ _ _ _ _ Hrep) as Hf. apply Forall_cons in Hf as [Hf _]. cbn [c_id] in Hp, Hf.
  assert (p ≠ f) as Hpf by lia.
  destruct (rep_lookup _ _ _ _ (frame_cell fr (parent_id k) p) _ Hrep) as (qn & Hq & Hqn); [set_solver|].
  destruct n as [id pid' slots cnt v cs ix]. destruct Hn as [Hr Hnil Hid Hpid Hlen Hcnt Hxs Hn1 Hcs _ Hix].
  cbn [c_id c_pid c_xs c_cs n_ID n_ParentID n_Slots n_Count n_ChildrenIDs n_indexOfNode] in *. subst id pid' cs.
  assert (f_id fr ≠ p ∧ f_id fr ≠ f ∧ f_id fr ≠ NilUUID) as (Hqp & Hqf & Hq0).
  { split_and!; [|pose proof (rp_fresh _ _ _ _ _ Hrep) as Hf'|by apply (nr_nil _ _ _ _ Hqn)].
    - pose proof (rp_nodup _ _ _ _ _ Hrep) as Hnd. cbn [map ctx_cells c_id] in Hnd. intros E.
      apply NoDup_cons in Hnd as [Hnd _]. apply Hnd. rewrite <- E. apply elem_of_cons. by left.
    - cbn [ctx_cells] in Hf'. rewrite !Forall_cons in Hf'. destruct Hf' as (_ & Hf' & _).
      cbn [frame_cell c_id] in Hf'. lia. }
  assert (Hst : ∀ h', h' !! f_id fr = Some qn → stored (getSlotLength b) h' r (f_id fr) qn).
  { intros h' Hh'. apply (stored_rep _ _ _ (frame_cell fr (parent_id k) p)); [lia|done|].
    by rewrite Hsl. }
  unfold split_beside. sx. cbv zeta. rewrite Hsl, half_shift. do 2 sx.
  step_by ltac:(apply run_clear_slots; look). sx. rewrite Hts.
  step_by ltac:(apply run_fill_slots; [look|lia|simpl; rewrite length_replicate; lia|rewrite length_app; lia]).
  replace (zdrop _ _) with (Some ys2) by (by rewrite <- H1, zdrop_middle). sx.
  step_by ltac:(apply run_fill_slots; [look|lia|simpl; rewrite length_replicate; lia|lia]).
  rewrite insert_over by congruence.
  rewrite zlookup_middle by congruence. do 3 sx.
  step_by ltac:(eapply run_getNode_st; apply Hst; look).
  do 2 sx.
  rewrite Hsl, take_app_le, !firstn_all2, Hlen by lia.
  set (b' := set_tempParent m p f b).
  set (h2 := <[f := _]> _).
  assert (Hrep2 : represents sl h2 ({[f]} ∪ ({[p]} ∪ r)) (N.succ f)
    (mkCell f (f_id fr) ys2 [] :: mkCell p (f_id fr) ys1 [] :: ctx_cells (fr :: k) p)).
  { apply represents_new; [|done|].
    - eapply represents_update in Hrep; [eapply represents_ext; [exact Hrep|done|set_solver|lia]|done|].
      cbn [c_id]. eapply (node_rep_intro sl r p _ ys1 _ []);
        rewrite ?length_app, ?length_drop, ?length_replicate; rep_side.
    - apply (node_rep_intro sl _ f _ ys2 _ []); rewrite ?length_app, ?length_drop, ?length_replicate; rep_side. }
  rewrite Permutation_swap in Hrep2.
  destruct (run_index b' h2 ({[f]} ∪ ({[p]} ∪ r)) (N.succ f) (mkCell p (f_id fr) ys1 []) fr k
    [mkCell f (f_id fr) ys2 []]) as (h3 & Hrun & Hrep3); [by rewrite <- Hsl in Hrep2|].
  eexists h3, _. split.
  - step Hrun. apply run_set_promote.
  - rewrite <- Hsl. exact Hrep3.
Qed.
End run.
