(* ===== verification/BtreeSplit.v ===== *)
(** * Splitting a full inner node

    The two branches of [node.promote] that split: at the root, whose items go to
    two new children, and under a parent, where half of the node goes to a new
    sibling and the middle item is handed to the parent. *)

From S2P Require Import Prelude Handle BtreeModel BtreeOps BtreeSpec BtreeCells BtreeRun.
Section run.
Context {T K V : Type} `{!Tracker T K V}.
Context (zeroK : K).
Local Abbreviation Btree := (Btree T K V).
Local Abbreviation Node := (Node K V).
Local Abbreviation Item := (Item K V).
Local Abbreviation B := (M Btree (btree_error tracker_error)).
Implicit Types (b : Btree) (h : gmap UUID Node) (r : gset UUID) (f p q : UUID) (n : Node).
Context (hf : nat) (Hhf : 1 ≤ hf).
Local Abbreviation sl := (Z.of_nat (2 * hf)).

(** ** Splitting a full inner node *)

Lemma run_make_children b h r f p n : h !! p = Some n →
  make_children p (st b h r f) = (Ret (), st b (<[p := set_ChildrenIDs n
    (Some (replicate (Z.to_nat (getSlotLength b + 1)) NilUUID))]> h) r f).
Proof. intros Hp. unfold make_children. sx. sx. apply run_write. Qed.

Lemma run_fill_children b h r f p n from ks (c : nat) : h !! p = Some n →
  n_ChildrenIDs n = Some ks → 0 < c → c ≤ length ks → c ≤ length from →
  fill_children p from (Z.of_nat c) (st b h r f) =
    (Ret (), st b (<[p := set_ChildrenIDs n (Some (take c from ++ drop c ks))]> h) r f).
Proof.
  intros Hp Hk H0 H1 H2. unfold fill_children, children. sx. rewrite Hk. cbn [from_option id].
  rewrite copy_elements by done. sx. apply run_write.
Qed.

Lemma run_ignore {A} (m : B A) s a s' : m s = (Ret a, s') → ignore m s = (Ret (), s').
Proof. intros H. unfold ignore. by rewrite H. Qed.

Lemma cs_repr_split (ids : list UUID) : length ids = S hf →
  Some (ids ++ replicate hf NilUUID) = cs_repr sl ids.
Proof.
  intros H. unfold cs_repr. destruct ids as [|x l]; [done|]. rewrite H.
  replace (Z.to_nat (sl + 1) - S hf) with hf by lia. done.
Qed.

(** The children of a node that is being split can be fetched. *)
Lemma forest_stored h r f pid ts l id : represents sl h r f l → forest pid ts ⊆ l →
  id ∈ map root_id ts → id ≠ NilUUID → ∃ n, stored sl h r id n.
Proof.
  intros Hrep Hsub Hid Hne. apply (roots_in_forest pid) in Hid; [|done].
  apply (list_elem_of_fmap c_id) in Hid as (c & -> & Hc). apply (rep_stored _ _ _ f _ l); [lia|done|auto].
Qed.

Lemma stored_reparent h r q ids id : (∃ n, stored sl h r id n) → ∃ n, stored sl (reparent q ids h) r id n.
Proof.
  intros (n & Hr & Hh & Hs & Hc). unfold stored. rewrite reparent_lookup, Hh.
  case_decide; [exists (set_ParentID n q)|exists n]; done.
Qed.
Lemma stored_insert_ne h r p x id : id ≠ p → (∃ n, stored sl h r id n) →
  ∃ n, stored sl (<[p := x]> h) r id n.
Proof. intros Hne (n & Hn). exists n. unfold stored in *. by rewrite lookup_insert_ne. Qed.

(** The ids of the children differ from their parent's and from fresh ones. *)
Lemma child_ids h r f pid (c : Cell K V) ts l id : represents sl h r f (c :: l) →
  forest pid ts ⊆ l → id ∈ map root_id ts → id ≠ NilUUID → id ≠ c_id c ∧ (id < f)%N.
Proof.
  intros Hrep Hsub Hid Hne. apply (roots_in_forest pid) in Hid; [|done].
  apply (list_elem_of_fmap c_id) in Hid as (d & -> & Hd). apply Hsub in Hd. split.
  - intros E. pose proof (rp_nodup _ _ _ _ _ Hrep) as Hnd. cbn [map] in Hnd.
    apply NoDup_cons in Hnd as [Hnd _]. apply Hnd. rewrite <- E. by apply id_elem.
  - pose proof (rp_fresh _ _ _ _ _ Hrep) as Hf. rewrite Forall_forall in Hf. apply Hf. by right.
Qed.

Lemma half_slots (zs : list Item) : length zs = hf →
  take hf zs ++ drop hf (replicate (Z.to_nat sl) (zero_item zeroK)) =
    zs ++ replicate hf (zero_item zeroK).
Proof.
  intros H. rewrite firstn_all2 by lia. f_equal. rewrite drop_replicate. f_equal. lia.
Qed.
Lemma half_children (ids : list UUID) : length ids = S hf →
  Some (ids ++ drop (S hf) (replicate (Z.to_nat (sl + 1)) NilUUID)) = cs_repr sl ids.
Proof.
  intros H. rewrite drop_replicate, <- cs_repr_split by done.
  do 3 f_equal. lia.
Qed.

Lemma run_adopt_children b h r f q n ids : getSlotLength b = sl →
  h !! q = Some n → n_ChildrenIDs n = cs_repr sl ids → ids ≠ [] →
  (∀ id, id ∈ ids → id ≠ NilUUID → ∃ n, stored sl h r id n) →
  updateChildrenParent zeroK q (st b h r f) = (Ret (), st b (reparent q ids h) r f).
Proof.
  intros Hsl Hq Hn Hne Hk. destruct ids as [|x ids]; [done|]. unfold cs_repr in Hn.
  erewrite run_updateChildrenParent; [by rewrite reparent_pad|done|done|done|].
  rewrite Hsl. intros id [H|H]%elem_of_app ?; [by apply Hk|]. apply elem_of_replicate in H as [-> _]. done.
Qed.

Lemma cleared_children (cs : list UUID) : cs ≠ [] → length cs ≤ S (2 * hf) →
  clear NilUUID <$> cs_repr sl cs = Some (replicate (Z.to_nat (sl + 1)) NilUUID).
Proof.
  intros Hne Hl. destruct cs as [|x cs]; [done|]. unfold cs_repr, clear. cbn [fmap option_fmap option_map].
  rewrite length_app, length_replicate. do 2 f_equal. lia.
Qed.

Lemma two_children :
  replicate (Z.to_nat (sl + 1)) NilUUID = NilUUID :: NilUUID :: replicate (2 * hf - 1) NilUUID.
Proof. replace (Z.to_nat (sl + 1)) with (S (S (2 * hf - 1))) by lia. done. Qed.

Lemma root_children (i1 i2 : UUID) :
  Some (i1 :: i2 :: replicate (2 * hf - 1) NilUUID) = cs_repr sl [i1; i2].
Proof.
  unfold cs_repr. replace (Z.to_nat (sl + 1) - length [i1; i2]) with (2 * hf - 1) by (simpl; lia). done.
Qed.

Lemma root_slots (m : Item) (w : nat) : w = 2 * hf →
  <[0 := m]> (replicate w (zero_item zeroK)) = [m] ++ replicate (2 * hf - 1) (zero_item zeroK).
Proof. intros ->. replace (2 * hf) with (S (2 * hf - 1)) at 1 by lia. done. Qed.

(** A fresh node with half of the items and children of a full one. *)
Definition half_node (id pid : UUID) (zs : list Item) (ts : list (gtree K V)) : Node :=
  mkNode id pid (zs ++ replicate hf (zero_item zeroK)) (Z.of_nat hf) 0
    (cs_repr sl (map root_id ts)) (-1).

Lemma half_rep r id pid zs ts : id ∈ r → id ≠ NilUUID → length zs = hf → length ts = S hf →
  node_rep sl r (mkCell id pid zs (map root_id ts)) (half_node id pid zs ts).
Proof.
  intros. apply node_rep_intro; rewrite ?length_app, ?length_replicate, ?length_map; rep_side.
Qed.

(** The heap after the split of a full root represents the taller tree. *)
Lemma root_split_rep h r f p xs cs0 zs1 m zs2 ts1 ts2 l v ix :
  represents sl h r f (mkCell p NilUUID xs cs0 :: forest p ts1 ++ forest p ts2 ++ l) → (f ≠ 0)%N →
  p ∈ r → p ≠ NilUUID → (-1 ≤ ix ≤ sl)%Z →
  length zs1 = hf → length zs2 = hf → length ts1 = S hf → length ts2 = S hf →
  represents sl
    (<[p := mkNode p NilUUID ([m] ++ replicate (2 * hf - 1) (zero_item zeroK)) 1 v
              (cs_repr sl [f; N.succ f]) ix]>
      (<[N.succ f := half_node (N.succ f) p zs2 ts2]> (<[f := half_node f p zs1 ts1]>
        (reparent (N.succ f) (map root_id ts2) (reparent f (map root_id ts1) h)))))
    ({[N.succ f]} ∪ ({[f]} ∪ ({[p]} ∪ r))) (N.succ (N.succ f))
    (cells NilUUID (GNode p [m] [GNode f zs1 ts1; GNode (N.succ f) zs2 ts2]) ++ l).
Proof.
  intros Hrep Hf0 Hr Hnil Hix H1 H2 H3 H4.
  set (pc := mkCell p NilUUID xs cs0) in *.
  apply (represents_permute _ _ _ _ _ (forest p ts1 ++ forest p ts2 ++ pc :: l)) in Hrep as Hrep1;
    [|solve_Permutation].
  apply (represents_reparent _ _ _ _ p f) in Hrep1.
  apply (represents_permute _ _ _ _ _ (forest p ts2 ++ forest f ts1 ++ pc :: l)) in Hrep1 as Hrep2;
    [|solve_Permutation].
  apply (represents_reparent _ _ _ _ p (N.succ f)) in Hrep2.
  apply (represents_new _ _ _ _ (mkCell f p zs1 (map root_id ts1)) (half_node f p zs1 ts1)) in Hrep2;
    [|done|apply half_rep; rep_side].
  apply (represents_new _ _ _ _ (mkCell (N.succ f) p zs2 (map root_id ts2)) (half_node (N.succ f) p zs2 ts2)) in Hrep2;
    [|done|apply half_rep; rep_side].
  apply (represents_permute _ _ _ _ _ (pc :: (mkCell f p zs1 (map root_id ts1) :: forest f ts1) ++
    (mkCell (N.succ f) p zs2 (map root_id ts2) :: forest (N.succ f) ts2) ++ l)) in Hrep2 as Hrep3;
    [|solve_Permutation].
  eapply (represents_update _ _ _ _ _ (mkCell p NilUUID [m] [f; N.succ f])) in Hrep3; [|done|].
  2:{ apply (node_rep_intro sl _ p NilUUID [m] (replicate (2 * hf - 1) (zero_item zeroK)) [f; N.succ f] v ix 1);
      cbn [app length]; rewrite ?length_replicate; rep_side. }
  eapply represents_permute, represents_ext; [|exact Hrep3|done|set_solver|done].
  cbn [cells map concat root_id]. unfold forest. solve_Permutation.
Qed.

Lemma run_promote_root b h r f p xs cs0 zs1 m zs2 ts1 ts2 l :
  getSlotLength b = sl →
  represents sl h r f (mkCell p NilUUID xs cs0 :: forest p ts1 ++ forest p ts2 ++ l) → (f ≠ 0)%N →
  b_tempSlots b = zs1 ++ m :: zs2 → length zs1 = hf → length zs2 = hf → cs0 ≠ [] →
  b_tempChildren b = map root_id ts1 ++ map root_id ts2 → length ts1 = S hf → length ts2 = S hf →
  ∃ h' r', promote_root zeroK p (st b h r f) = (Ret (), st b h' r' (N.succ (N.succ f))) ∧
    represents sl h' r' (N.succ (N.succ f))
      (cells NilUUID (GNode p [m] [GNode f zs1 ts1; GNode (N.succ f) zs2 ts2]) ++ l).
Proof.
  intros Hsl Hrep Hf0 Hts H1 H2 Hcs0 Htc H3 H4.
  destruct (rep_lookup _ _ _ _ _ _ Hrep (list_elem_of_here _ _)) as (n & Hp & Hn).
  pose proof (rp_fresh _ _ _ _ _ Hrep) as Hf. pose proof Hf as Hf'.
  apply Forall_cons in Hf as [Hf _]. cbn [c_id] in Hp, Hf.
  assert (p ≠ f ∧ p ≠ N.succ f ∧ f ≠ N.succ f) as (Hpf & Hpf' & Hff) by lia.
  destruct n as [id pid' slots cnt v cs ix]. destruct Hn as [Hr Hnil Hid Hpid Hlen Hcnt Hxs Hn1 Hcs Hsh Hix].
  cbn [c_id c_pid c_xs c_cs n_ID n_ParentID n_Slots n_Count n_ChildrenIDs n_indexOfNode] in *. subst id pid' cs.
  unfold promote_root. sx. cbv zeta. rewrite Hsl, half_shift. do 4 sx. rewrite Hts.
  step_by ltac:(apply run_fill_slots; [look|lia|simpl; rewrite length_replicate; lia|rewrite length_app; lia]).
  rewrite insert_over by congruence.
  replace (zdrop (zs1 ++ _) _) with (Some zs2) by (by rewrite <- H1, zdrop_middle). sx.
  step_by ltac:(apply run_fill_slots; [look|lia|simpl; rewrite length_replicate; lia|lia]).
  rewrite insert_over by congruence.
  step_by ltac:(apply run_make_children; look). rewrite insert_over by congruence.
  step_by ltac:(apply run_make_children; look). rewrite insert_over by congruence.
  sx. rewrite Htc. replace (Z.of_nat hf + 1)%Z with (Z.of_nat (S hf)) by lia.
  step_by ltac:(eapply run_fill_children; [look|reflexivity|lia|rewrite length_replicate; lia|
    rewrite length_app, !length_map; lia]).
  rewrite insert_over by congruence.
  rewrite zdrop_nat by (rewrite length_app, !length_map; lia). sx.
  step_by ltac:(eapply run_fill_children; [look|reflexivity|lia|rewrite length_replicate; lia|
    rewrite length_drop, length_app, !length_map; lia]).
  rewrite insert_over by congruence.
  step_by ltac:(apply run_clear_slots; look). do 2 sx.
  rewrite Hsl, (take_app_le zs1), take_app_length', drop_app_length' by (rewrite ?length_map; lia).
  rewrite !half_slots by done. rewrite (firstn_all2 (map root_id ts2)) by (rewrite length_map; lia).
  rewrite !half_children by (by rewrite length_map).
  assert (Hch : ∀ ts, ts = ts1 ∨ ts = ts2 → forest p ts ⊆ forest p ts1 ++ forest p ts2 ++ l)
    by (intros ts [-> | ->] c Hc; rewrite !elem_of_app; auto).
  assert (Hids : ∀ ts id, ts = ts1 ∨ ts = ts2 → id ∈ map root_id ts → id ≠ NilUUID →
    id ≠ p ∧ id ≠ f ∧ id ≠ N.succ f ∧ ∃ n, stored sl h r id n).
  { intros ts id Ht Hid H0. pose proof (child_ids _ _ _ _ _ _ _ _ Hrep (Hch ts Ht) Hid H0) as [? ?].
    split_and!; [done|lia|lia|]. eapply (forest_stored _ _ _ p ts); [exact Hrep| |done|done].
    intros c Hc. apply elem_of_cons. right. by apply (Hch ts Ht). }
  rewrite cleared_children; [|done|destruct Hsh as [|Hsh]; [done|rewrite Hsh; lia]]. rewrite two_children.
  assert (Hno : ∀ ts q, ts = ts1 ∨ ts = ts2 → q = p ∨ q = f ∨ q = N.succ f → q ≠ NilUUID → q ∉ map root_id ts).
  { intros ts q Ht Hq H0 Hin. destruct (Hids ts q Ht Hin H0) as (? & ? & ? & _). naive_solver. }
  assert (f ≠ NilUUID ∧ N.succ f ≠ NilUUID) as [Hfn Hsn] by (unfold NilUUID; lia).
  step_by ltac:(eapply run_ignore, run_adopt_children; [done|look|done|by destruct ts1|
    intros id Hi1 Hi2; destruct (Hids ts1 id) as (?&?&?&?); [auto..|]; repeat apply stored_insert_ne; done]).
  rewrite !reparent_insert_ne by (apply Hno; auto).
  step_by ltac:(eapply run_ignore, run_adopt_children; [done|look|done|by destruct ts2|
    intros id Hi1 Hi2; destruct (Hids ts2 id) as (?&?&?&?); [auto..|];
    repeat apply stored_insert_ne; [done..|]; by apply stored_reparent]).
  rewrite !reparent_insert_ne by (apply Hno; auto).
  rewrite zlookup_middle by congruence. sx.
  step_by ltac:(apply run_set_slot0; [look|simpl; rewrite length_replicate; lia]). do 2 sx.
  step_by ltac:(eapply (run_set_child _ _ _ _ _ _ []); [look|reflexivity|reflexivity]).
  step_by ltac:(eapply (run_set_child _ _ _ _ _ _ [f] (replicate (2 * hf - 1) NilUUID)); [look|reflexivity|reflexivity]).
  do 2 sx. rewrite run_save. eexists _, _. split; [reflexivity|]. cbn [app].
  rewrite root_children, root_slots by lia.
  apply (root_split_rep _ _ _ _ xs cs0); done.
Qed.

(** The heap after the split of a full inner node under a parent. *)
Lemma up_split_rep h r f p pid xs cs0 zs1 zs2 ts1 ts2 l v ix :
  represents sl h r f (mkCell p pid xs cs0 :: forest p ts1 ++ forest p ts2 ++ l) → (f ≠ 0)%N →
  p ∈ r → p ≠ NilUUID → (-1 ≤ ix ≤ sl)%Z →
  length zs1 = hf → length zs2 = hf → length ts1 = S hf → length ts2 = S hf →
  represents sl
    (<[f := half_node f pid zs2 ts2]>
      (<[p := mkNode p pid (zs1 ++ replicate hf (zero_item zeroK)) (Z.of_nat hf) v
                (cs_repr sl (map root_id ts1)) ix]>
        (reparent p (map root_id ts1) (reparent f (map root_id ts2) h))))
    ({[f]} ∪ r) (N.succ f)
    (mkCell p pid zs1 (map root_id ts1) ::
      (forest p ts1 ++ cells pid (GNode f zs2 ts2)) ++ l).
Proof.
  intros Hrep Hf0 Hr Hnil Hix H1 H2 H3 H4.
  set (pc := mkCell p pid xs cs0) in *.
  apply (represents_permute _ _ _ _ _ (forest p ts2 ++ forest p ts1 ++ pc :: l)) in Hrep as Hrep1;
    [|solve_Permutation].
  apply (represents_reparent _ _ _ _ p f) in Hrep1.
  apply (represents_permute _ _ _ _ _ (forest p ts1 ++ forest f ts2 ++ pc :: l)) in Hrep1 as Hrep2;
    [|solve_Permutation].
  apply (represents_reparent _ _ _ _ p p) in Hrep2.
  apply (represents_permute _ _ _ _ _ (pc :: forest p ts1 ++ forest f ts2 ++ l)) in Hrep2 as Hrep3;
    [|solve_Permutation].
  eapply (represents_update _ _ _ _ _ (mkCell p pid zs1 (map root_id ts1))) in Hrep3; [|done|].
  2:{ apply (node_rep_intro sl r p pid zs1 (replicate hf (zero_item zeroK)) (map root_id ts1) v ix (Z.of_nat hf));
      rewrite ?length_app, ?length_replicate, ?length_map; rep_side. }
  apply (represents_new _ _ _ _ (mkCell f pid zs2 (map root_id ts2)) (half_node f pid zs2 ts2)) in Hrep3;
    [|done|apply half_rep; rep_side].
  eapply represents_permute; [|exact Hrep3].
  cbn [cells map concat root_id]. unfold forest. solve_Permutation.
Qed.

Lemma stored_union h r q id : (∃ n, stored sl h r id n) → ∃ n, stored sl h ({[q]} ∪ r) id n.
Proof. intros (n & Hr & Hn). exists n. split; [set_solver|done]. Qed.

Lemma run_promote_up b h r f p xs cs0 zs1 m zs2 ts1 ts2 fr k :
  getSlotLength b = sl →
  represents sl h r f (mkCell p (f_id fr) xs cs0 :: forest p ts1 ++ forest p ts2 ++ ctx_cells (fr :: k) p) →
  (f ≠ 0)%N → b_tempSlots b = zs1 ++ m :: zs2 → length zs1 = hf → length zs2 = hf → cs0 ≠ [] →
  b_tempChildren b = map root_id ts1 ++ map root_id ts2 → length ts1 = S hf → length ts2 = S hf →
  ∃ h' r', promote_up zeroK p (st b h r f) =
      (Ret (), st (set_promote (mkPromote (Some (f_id fr)) (Z.of_nat (length (f_cs1 fr))))
                     (set_tempParent m p f b)) h' r' (N.succ f)) ∧
    represents sl h' r' (N.succ f) (cells (f_id fr) (GNode p zs1 ts1) ++
      cells (f_id fr) (GNode f zs2 ts2) ++ ctx_cells (fr :: k) p).
Proof.
  intros Hsl Hrep Hf0 Hts H1 H2 Hcs0 Htc H3 H4.
  destruct (rep_lookup _ _ _ _ _ _ Hrep (list_elem_of_here _ _)) as (n & Hp & Hn).
  pose proof (rp_fresh _ _ _ _ _ Hrep) as Hf. pose proof Hf as Hf'.
  apply Forall_cons in Hf as [Hf _]. cbn [c_id] in Hp, Hf.
  assert (p ≠ f) as Hpf by lia.
  destruct n as [id pid' slots cnt v cs ix]. destruct Hn as [Hr Hnil Hid Hpid Hlen Hcnt Hxs Hn1 Hcs Hsh Hix].
  cbn [c_id c_pid c_xs c_cs n_ID n_ParentID n_Slots n_Count n_ChildrenIDs n_indexOfNode] in *. subst id pid' cs.
  assert (Hfn : f ≠ NilUUID) by (unfold NilUUID; lia).
  assert (Hch : ∀ ts, ts = ts1 ∨ ts = ts2 → forest p ts ⊆ forest p ts1 ++ forest p ts2 ++ ctx_cells (fr :: k) p)
    by (intros ts [-> | ->] c Hc; rewrite !elem_of_app; auto).
  assert (Hids : ∀ ts id, ts = ts1 ∨ ts = ts2 → id ∈ map root_id ts → id ≠ NilUUID →
    id ≠ p ∧ id ≠ f ∧ ∃ n, stored sl h r id n).
  { intros ts id Ht Hid H0. pose proof (child_ids _ _ _ _ _ _ _ _ Hrep (Hch ts Ht) Hid H0) as [? ?].
    split_and!; [done|lia|]. eapply (forest_stored _ _ _ p ts); [exact Hrep| |done|done].
    intros c Hc. apply elem_of_cons. right. by apply (Hch ts Ht). }
  assert (Hno : ∀ ts q, ts = ts1 ∨ ts = ts2 → q = p ∨ q = f → q ≠ NilUUID → q ∉ map root_id ts).
  { intros ts q Ht Hq H0 Hin. destruct (Hids ts q Ht Hin H0) as (? & ? & _). naive_solver. }
  unfold promote_up. sx. cbv zeta. rewrite Hsl, half_shift. do 2 sx.
  step_by ltac:(apply run_make_children; look).
  step_by ltac:(apply run_clear_slots; look). do 3 sx.
  rewrite cleared_children; [|done|destruct Hsh as [|Hsh]; [done|rewrite Hsh; lia]].
  rewrite Hts.
  step_by ltac:(apply run_fill_slots; [look|lia|simpl; rewrite length_replicate; lia|rewrite length_app; lia]).
  replace (zdrop (zs1 ++ _) _) with (Some zs2) by (by rewrite <- H1, zdrop_middle). sx.
  step_by ltac:(apply run_fill_slots; [look|lia|simpl; rewrite length_replicate; lia|lia]).
  rewrite insert_over by congruence. sx. rewrite Htc.
  replace (Z.of_nat hf + 1)%Z with (Z.of_nat (S hf)) by lia.
  step_by ltac:(eapply run_fill_children; [look|reflexivity|lia|rewrite length_replicate; lia|
    rewrite length_app, !length_map; lia]).
  rewrite insert_over by congruence.
  rewrite zdrop_nat by (rewrite length_app, !length_map; lia). sx.
  step_by ltac:(eapply run_fill_children; [look|reflexivity|lia|rewrite length_replicate; lia|
    rewrite length_drop, length_app, !length_map; lia]).
  rewrite insert_over by congruence.
  rewrite Hsl, (take_app_le zs1), take_app_length', drop_app_length', Hlen by (rewrite ?length_map; lia).
  rewrite !half_slots by done. rewrite (firstn_all2 (map root_id ts2)) by (rewrite length_map; lia).
  rewrite !half_children by (by rewrite length_map).
  step_by ltac:(eapply run_adopt_children; [done|look|done|by destruct ts2|
    intros id Hi1 Hi2; destruct (Hids ts2 id) as (?&?&?); [auto..|]; repeat apply stored_insert_ne; done]).
  rewrite !reparent_insert_ne by (apply Hno; auto). sx.
  step_by ltac:(eapply run_adopt_children; [done|look|done|by destruct ts1|
    intros id Hi1 Hi2; destruct (Hids ts1 id) as (?&?&?); [auto..|]; apply stored_union;
    repeat apply stored_insert_ne; [done..|]; by apply stored_reparent]).
  rewrite !reparent_insert_ne by (apply Hno; auto). sx.
  rewrite zlookup_middle by congruence. do 2 sx.
  set (b' := set_tempParent m p f b).
  set (h2 := <[f := _]> _).
  assert (Hrep2 : represents sl h2 ({[p]} ∪ ({[f]} ∪ r)) (N.succ f)
    (mkCell p (f_id fr) zs1 (map root_id ts1) ::
      (forest p ts1 ++ cells (f_id fr) (GNode f zs2 ts2)) ++ ctx_cells (fr :: k) p)).
  { eapply represents_ext; [by apply (up_split_rep h r f p (f_id fr) xs cs0)|done|set_solver|done]. }
  assert (Hqc : ∃ qn, stored sl h2 ({[p]} ∪ ({[f]} ∪ r)) (f_id fr) qn ∧ f_id fr ≠ NilUUID).
  { assert (Hin : frame_cell fr (parent_id k) p ∈ mkCell p (f_id fr) zs1 (map root_id ts1) ::
      (forest p ts1 ++ cells (f_id fr) (GNode f zs2 ts2)) ++ ctx_cells (fr :: k) p).
    { apply elem_of_cons. right. apply elem_of_app. right. apply elem_of_cons. by left. }
    destruct (rep_lookup _ _ _ _ _ _ Hrep2 Hin) as (qn & Hq & Hqn). exists qn. split.
    - apply (stored_rep _ _ _ (frame_cell fr (parent_id k) p)); [lia|done|done].
    - apply (nr_nil _ _ _ _ Hqn). }
  destruct Hqc as (qn & Hq & Hq0).
  step_by ltac:(apply run_deref_st; unfold h2; look).
  step_by ltac:(apply (run_getParent zeroK b' h2 _ _ _ (f_id fr) qn); [done|done|by rewrite <- Hsl in Hq]). sx.
  destruct (run_index b' h2 ({[p]} ∪ ({[f]} ∪ r)) (N.succ f) (mkCell p (f_id fr) zs1 (map root_id ts1)) fr k
    (forest p ts1 ++ cells (f_id fr) (GNode f zs2 ts2))) as (h3 & Hrun & Hrep3); [by rewrite <- Hsl in Hrep2|].
  eexists h3, _. split.
  - step Hrun. apply run_set_promote.
  - rewrite <- Hsl. eapply represents_permute; [|exact Hrep3].
    cbn [cells map concat root_id]. unfold forest. solve_Permutation.
Qed.
End run.
