(* ===== verification/BtreeClimb.v ===== *)
(** * The climb of a split

    [btree.promote]: the separator of a split child enters the parent, which takes
    it or splits in turn, up to a new root.  The whole climb turns the two halves
    in their context into one tree with the same items in the same order. *)

From S2P Require Import Prelude Handle BtreeModel BtreeOps BtreeSpec BtreeCells BtreeRun.
From S2P Require Import BtreeSplit.

Section climb.
Context {T K V : Type} `{!Tracker T K V}.
Context (zeroK : K).
Local Abbreviation Btree := (Btree T K V).
Local Abbreviation Node := (Node K V).
Local Abbreviation Item := (Item K V).
Local Abbreviation B := (M Btree (btree_error tracker_error)).
Implicit Types (b : Btree) (h : gmap UUID Node) (r : gset UUID) (f p q : UUID) (n : Node).
Context (hf : nat) (Hhf : 1 ≤ hf).
Local Abbreviation sl := (Z.of_nat (2 * hf)).
Implicit Types (fr : frame K V) (k : list (frame K V)) (t : gtree K V) (x m : Item).

(** ** The climb *)

(** The scratch buffers have the lengths the slot length asks for. *)
Definition bufs b : Prop :=
  getSlotLength b = sl ∧ length (b_tempSlots b) = S (2 * hf) ∧
  length (b_tempChildren b) = S (S (2 * hf)).

(** Everything but the nodes, the scratch buffers and the pending promotion. *)
Definition same_rest b b' : Prop :=
  b_StoreInfo b' = b_StoreInfo b ∧ b_tracker b' = b_tracker b ∧
  b_currentNodeID b' = b_currentNodeID b ∧ b_currentItemIndex b' = b_currentItemIndex b ∧
  b_currentItem b' = b_currentItem b ∧ b_distributeAction b' = b_distributeAction b.

Lemma same_rest_trans b1 b2 b3 : same_rest b1 b2 → same_rest b2 b3 → same_rest b1 b3.
Proof. unfold same_rest. intros (?&?&?&?&?&?) (?&?&?&?&?&?). split_and!; congruence. Qed.

(** The promotion that waits: the node of the innermost frame is to take [x]
    between the halves [t1] and [t2] of the child in the hole. *)
Definition pending b fr (t1 : gtree K V) (x : Item) (t2 : gtree K V) : Prop :=
  b_promoteAction b = mkPromote (Some (f_id fr)) (Z.of_nat (length (f_cs1 fr))) ∧
  b_tempParent b = x ∧ b_tempParentChildren b = [root_id t1; root_id t2].

(** The tree whose innermost frame took the separator. *)
Definition fill2 fr (t1 : gtree K V) x t2 : gtree K V :=
  GNode (f_id fr) (f_xs1 fr ++ x :: f_xs2 fr) (f_cs1 fr ++ t1 :: t2 :: f_cs2 fr).

Lemma run_node_promote_room b h r f fr k t1 x t2 :
  bufs b → b_tempParent b = x → b_tempParentChildren b = [root_id t1; root_id t2] →
  frame_shape fr → length (f_xs1 fr ++ f_xs2 fr) < 2 * hf →
  represents sl h r f (cells (f_id fr) t1 ++ cells (f_id fr) t2 ++ ctx_cells (fr :: k) (root_id t1)) →
  ∃ h' r', node_promote zeroK (f_id fr) (Z.of_nat (length (f_cs1 fr))) (st b h r f) =
      (Ret (), st b h' r' f) ∧
    represents sl h' r' f (cells (parent_id k) (fill2 fr t1 x t2) ++ ctx_cells k (f_id fr)).
Proof.
  intros (Hsl & Hts & Htc) Hx Hc [Hs1 Hs2] Hroom Hrep.
  set (fc := frame_cell fr (parent_id k) (root_id t1)).
  apply (represents_permute _ _ _ _ _ (fc :: cells (f_id fr) t1 ++ cells (f_id fr) t2 ++
    forest (f_id fr) (f_cs1 fr) ++ forest (f_id fr) (f_cs2 fr) ++ ctx_cells k (f_id fr))) in Hrep;
    [|cbn [ctx_cells]; solve_Permutation].
  destruct (rep_lookup _ _ _ _ _ _ Hrep (list_elem_of_here _ _)) as (n & Hp & Hn).
  destruct n as [id pid' slots cnt v cs ix]. destruct Hn as [Hr Hnil Hid Hpid Hlen Hcnt Hxs Hn1 Hcs Hsh Hix].
  cbn [fc frame_cell c_id c_pid c_xs c_cs n_ID n_ParentID n_Slots n_Count n_ChildrenIDs n_indexOfNode] in *.
  subst id pid'. rewrite length_app in *.
  rewrite <- (take_drop (length (f_xs1 fr) + length (f_xs2 fr)) slots) in Hlen.
  assert (∃ y g, drop (length (f_xs1 fr) + length (f_xs2 fr)) slots = y :: g) as (y & g & Hdrop).
  { destruct (drop _ slots) as [|y g] eqn:E; [|by eexists _, _]. rewrite Hxs, app_nil_r, length_app in Hlen. lia. }
  assert (Hslots : slots = f_xs1 fr ++ f_xs2 fr ++ y :: g).
  { rewrite <- (take_drop (length (f_xs1 fr) + length (f_xs2 fr)) slots), Hxs, Hdrop. by rewrite <- app_assoc. }
  set (w := Z.to_nat (sl + 1) - S (S (length (f_xs1 fr) + length (f_xs2 fr)))).
  assert (Hkids : cs = Some (map root_id (f_cs1 fr) ++ root_id t1 :: map root_id (f_cs2 fr) ++
    NilUUID :: replicate w NilUUID)).
  { rewrite Hcs, cs_repr_app, !length_map, Hs1, Hs2. do 4 f_equal.
    replace (_ - _) with (S w) by (unfold w; lia). done. }
  assert (Hnew : Some (map root_id (f_cs1 fr) ++ root_id t1 :: root_id t2 :: map root_id (f_cs2 fr) ++
    replicate w NilUUID) = cs_repr sl (map root_id (f_cs1 fr ++ t1 :: t2 :: f_cs2 fr))).
  { rewrite map_app. cbn [map]. rewrite cs_repr_app. cbn [app length]. rewrite !length_map, Hs1, Hs2.
    do 5 f_equal. unfold w. f_equal. lia. }
  rewrite Hcs in Hkids. subst slots cs cnt. rewrite Hkids in Hp. eexists _, _. split.
  - unfold node_promote. do 2 sx. rewrite Hsl, decide_True by lia. rewrite Hs1.
    pose proof (run_promote_here b h r f (f_id fr) (parent_id k) (f_xs1 fr) (f_xs2 fr) y g
      (map root_id (f_cs1 fr)) (root_id t1) (map root_id (f_cs2 fr)) NilUUID (replicate w NilUUID)
      v ix x (root_id t1) (root_id t2) Hp) as Hrun.
    apply Hrun; rewrite ?length_map; done.
  - rewrite Hnew.
    replace (f_xs1 fr ++ x :: f_xs2 fr ++ g) with ((f_xs1 fr ++ x :: f_xs2 fr) ++ g)
      by (by rewrite <- app_assoc).
    set (n' := mkNode _ _ _ _ _ _ _).
    apply (represents_update _ _ _ _ _ (mkCell (f_id fr) (parent_id k) (f_xs1 fr ++ x :: f_xs2 fr)
      (map root_id (f_cs1 fr ++ t1 :: t2 :: f_cs2 fr))) n') in Hrep; [|done|].
    2:{ rewrite take_drop in Hlen. apply node_rep_intro; try done;
        rewrite ?length_map, ?length_app in *; cbn [length] in *; rewrite ?length_app in *; cbn [length] in *; lia. }
    eapply represents_permute, represents_ext; [|exact Hrep|done|set_solver|done].
    unfold fill2. cbn [cells]. change (concat (map (cells (f_id fr)) ?l)) with (forest (f_id fr) l).
    rewrite forest_app, !forest_cons. solve_Permutation.
Qed.

Definition buffered b fr t1 x t2 : Btree :=
  set_tempChildren (map root_id (f_cs1 fr) ++ root_id t1 :: root_id t2 :: map root_id (f_cs2 fr))
    (set_tempSlots (f_xs1 fr ++ x :: f_xs2 fr) b).

Lemma run_buffers_full b h r f fr k t1 x t2 :
  bufs b → b_tempParent b = x → b_tempParentChildren b = [root_id t1; root_id t2] →
  frame_shape fr → length (f_xs1 fr ++ f_xs2 fr) = 2 * hf →
  cell_ok sl h r (frame_cell fr (parent_id k) (root_id t1)) → (parent_id k = NilUUID → k = []) →
  node_promote zeroK (f_id fr) (Z.of_nat (length (f_cs1 fr))) (st b h r f) =
    (if decide (k = []) then promote_root zeroK (f_id fr) else promote_up zeroK (f_id fr))
      (st (buffered b fr t1 x t2) h r f).
Proof.
  intros (Hsl & Hts & Htc) Hx Hc [Hs1 Hs2] Hfull Hcell Hk.
  destruct Hcell as (n & Hp & Hn).
  destruct n as [id pid' slots cnt v cs ix]. destruct Hn as [Hr Hnil Hid Hpid Hlen Hcnt Hxs Hn1 Hcs Hsh Hix].
  cbn [frame_cell c_id c_pid c_xs c_cs n_ID n_ParentID n_Slots n_Count n_ChildrenIDs n_indexOfNode] in *.
  subst id pid'. rewrite length_app in *. rewrite firstn_all2 in Hxs by lia. subst slots.
  rewrite cs_repr_app, !length_map, Hs1, Hs2, Hfull in Hcs.
  replace (Z.to_nat (sl + 1) - S (2 * hf)) with 0 in Hcs by lia. rewrite app_nil_r in Hcs. subst cs.
  unfold node_promote. do 2 sx. rewrite Hsl, decide_False by lia. rewrite Hs1.
  pose proof (run_promote_buffers b h r f (f_id fr) (parent_id k) (f_xs1 fr) (f_xs2 fr)
    (map root_id (f_cs1 fr)) (root_id t1) (map root_id (f_cs2 fr)) v ix x (root_id t1) (root_id t2) cnt Hp)
    as Hrun.
  rewrite Hsl in Hrun. rewrite !length_map in Hrun.
  rewrite (bind_Ret _ _ _ _ _ (Hrun ltac:(lia) ltac:(lia) Hs1 Hs2 ltac:(lia) ltac:(lia) ltac:(lia) Hx Hc)).
  unfold isRootNode. cbn [n_ParentID]. destruct k as [|fr' k].
  - by rewrite bool_decide_true, decide_True.
  - rewrite bool_decide_false, decide_False; [done|done|]. intros E. by specialize (Hk E).
Qed.

(** The items and children of a full node with the separator, cut in halves. *)
Lemma full_halves fr t1 x t2 : frame_shape fr → length (f_xs1 fr ++ f_xs2 fr) = 2 * hf →
  ∃ zs1 m zs2 ts1 ts2, f_xs1 fr ++ x :: f_xs2 fr = zs1 ++ m :: zs2 ∧
    f_cs1 fr ++ t1 :: t2 :: f_cs2 fr = ts1 ++ ts2 ∧
    length zs1 = hf ∧ length zs2 = hf ∧ length ts1 = S hf ∧ length ts2 = S hf ∧
    ∀ id1 id2, flat (GNode id1 zs1 ts1) ++ m :: flat (GNode id2 zs2 ts2) =
      pre (f_cs1 fr) (f_xs1 fr) ++ (flat t1 ++ x :: flat t2) ++ post (f_xs2 fr) (f_cs2 fr).
Proof.
  intros Hs Hfull. pose proof Hs as [Hs1 Hs2]. rewrite length_app in Hfull.
  destruct (halve (f_xs1 fr ++ x :: f_xs2 fr) hf) as (zs1 & m & zs2 & Hz & Hz1 & Hz2).
  { rewrite length_app. simpl. lia. }
  destruct (halve_even (f_cs1 fr ++ t1 :: t2 :: f_cs2 fr) (S hf)) as (ts1 & ts2 & Ht & Ht1 & Ht2).
  { rewrite length_app. simpl. lia. }
  exists zs1, m, zs2, ts1, ts2. split_and!; try done. intros id1 id2.
  rewrite <- flat_fill_split by done. rewrite Hz, Ht. symmetry. apply flat_cut; lia.
Qed.

Lemma run_get_promote b h r f :
  (gets b_promoteAction : B promoteAction) (st b h r f) = (Ret (b_promoteAction b), st b h r f).
Proof. done. Qed.

(** One round of [promote] with a pending promotion. *)
Lemma promote_round fuel b h r f p i b' h' r' f' :
  b_promoteAction b = mkPromote (Some p) i →
  node_promote zeroK p i (st (set_promote (mkPromote None 0) b) h r f) = (Ret (), st b' h' r' f') →
  promote zeroK (S fuel) (st b h r f) = promote zeroK fuel (st b' h' r' f').
Proof.
  intros Ha Hrun. cbn [promote]. rewrite (bind_Ret _ _ _ _ _ (run_get_promote b h r f)). cbv beta.
  rewrite Ha. cbn [pa_targetNode pa_slotIndex]. sx. step_by ltac:(eapply run_ignore; exact Hrun). done.
Qed.

Lemma promote_done fuel b h r f : b_promoteAction b = mkPromote None 0 →
  promote zeroK (S fuel) (st b h r f) = (Ret (), st b h r f).
Proof.
  intros Ha. cbn [promote]. rewrite (bind_Ret _ _ _ _ _ (run_get_promote b h r f)). cbv beta.
  by rewrite Ha.
Qed.

Lemma root_id_plug k t t' : root_id t = root_id t' → root_id (plug k t) = root_id (plug k t').
Proof. revert t t'. induction k as [|fr k IH]; intros t t' H; [done|]. cbn [plug]. by apply IH. Qed.

Lemma pending_full fr k t1 x t2 b h r f :
  bufs b → pending b fr t1 x t2 → frame_shape fr → ¬ length (f_xs1 fr ++ f_xs2 fr) < 2 * hf →
  represents sl h r f (cells (f_id fr) t1 ++ cells (f_id fr) t2 ++ ctx_cells (fr :: k) (root_id t1)) →
  length (f_xs1 fr ++ f_xs2 fr) = 2 * hf ∧
  node_promote zeroK (f_id fr) (Z.of_nat (length (f_cs1 fr)))
    (st (set_promote (mkPromote None 0) b) h r f) =
    (if decide (k = []) then promote_root zeroK (f_id fr) else promote_up zeroK (f_id fr))
      (st (buffered (set_promote (mkPromote None 0) b) fr t1 x t2) h r f).
Proof.
  intros Hb (Ha & Hx & Hc) Hs Hfull Hrep.
  pose proof (rp_cells _ _ _ _ _ Hrep) as Hcs. rewrite !Forall_app in Hcs.
  destruct Hcs as (_ & _ & Hcs). cbn [ctx_cells] in Hcs.
  apply Forall_cons in Hcs as [Hfc Hcs]. rewrite !Forall_app in Hcs. destruct Hcs as (_ & _ & Hcs).
  assert (Hlen : length (f_xs1 fr ++ f_xs2 fr) = 2 * hf).
  { destruct Hfc as (n & _ & Hn). pose proof (nr_len _ _ _ _ Hn) as Hl.
    cbn [frame_cell c_xs] in Hl. lia. }
  split; [done|]. apply run_buffers_full; try done. by eapply parent_nil.
Qed.

(** What the climb gives: the tree [t1], [x], [t2] in the context [k], as one tree. *)
Definition climbed b f fr k t1 x t2 (res : outcome (btree_error tracker_error) () * Btree) : Prop :=
  ∃ b' h' r' f' t', res = (Ret (), st b' h' r' f') ∧
    represents sl h' r' f' (cells NilUUID t') ∧
    flat t' = left_of (fr :: k) ++ (flat t1 ++ x :: flat t2) ++ right_of (fr :: k) ∧
    root_id t' = root_id (plug (fr :: k) t1) ∧ bufs b' ∧ same_rest b b' ∧ (f ≤ f')%N ∧
    b_promoteAction b' = mkPromote None 0.

Lemma climb_room fuel b h r f fr k t1 x t2 :
  bufs b → pending b fr t1 x t2 → Forall frame_shape (fr :: k) →
  represents sl h r f (cells (f_id fr) t1 ++ cells (f_id fr) t2 ++ ctx_cells (fr :: k) (root_id t1)) →
  length (f_xs1 fr ++ f_xs2 fr) < 2 * hf →
  climbed b f fr k t1 x t2 (promote zeroK (S (S fuel)) (st b h r f)).
Proof.
  intros Hb (Ha & Hx & Hc) [Hs Hk]%Forall_cons Hrep Hroom.
  destruct (run_node_promote_room (set_promote (mkPromote None 0) b) h r f fr k t1 x t2)
    as (h' & r' & Hrun & Hrep'); [done..|].
  eexists _, h', r', f, (plug k (fill2 fr t1 x t2)). rewrite (promote_round _ _ _ _ _ _ _ _ _ _ _ Ha Hrun).
  split; [by apply promote_done|]. split; [by rewrite cells_plug|].
  split. { rewrite flat_plug by done. unfold fill2. rewrite flat_fill_split by done.
    cbn [left_of right_of]. by rewrite <- !app_assoc. }
  split; [by apply (root_id_plug k _ (fill fr t1))|done].
Qed.

(** The cells around a full node, as the split takes them. *)
Lemma full_cells fr t1 t2 ts1 ts2 k :
  f_cs1 fr ++ t1 :: t2 :: f_cs2 fr = ts1 ++ ts2 →
  cells (f_id fr) t1 ++ cells (f_id fr) t2 ++ ctx_cells (fr :: k) (root_id t1) ≡ₚ
  frame_cell fr (parent_id k) (root_id t1) ::
    forest (f_id fr) ts1 ++ forest (f_id fr) ts2 ++ ctx_cells k (f_id fr).
Proof.
  intros Ht. cbn [ctx_cells].
  rewrite (app_assoc (forest _ ts1)), <- forest_app, <- Ht, forest_app, !forest_cons. solve_Permutation.
Qed.

Lemma climb_root fuel b h r f fr t1 x t2 :
  bufs b → pending b fr t1 x t2 → frame_shape fr → (f ≠ 0)%N →
  represents sl h r f (cells (f_id fr) t1 ++ cells (f_id fr) t2 ++ ctx_cells [fr] (root_id t1)) →
  ¬ length (f_xs1 fr ++ f_xs2 fr) < 2 * hf →
  climbed b f fr [] t1 x t2 (promote zeroK (S (S fuel)) (st b h r f)).
Proof.
  intros Hb Hpen Hs Hf Hrep Hfull. pose proof Hpen as (Ha & _ & _).
  eapply pending_full in Hfull as [Hlen Hrun]; [|done..].
  destruct (full_halves fr t1 x t2 Hs Hlen) as (zs1 & m & zs2 & ts1 & ts2 & Hz & Ht & Hz1 & Hz2 & Ht1 & Ht2 & Hflat).
  rewrite (full_cells fr t1 t2 ts1 ts2) in Hrep by done. rewrite decide_True in Hrun by done.
  destruct (run_promote_root zeroK hf Hhf (buffered (set_promote (mkPromote None 0) b) fr t1 x t2) h r f
    (f_id fr) (f_xs1 fr ++ f_xs2 fr) (map root_id (f_cs1 fr) ++ root_id t1 :: map root_id (f_cs2 fr))
    zs1 m zs2 ts1 ts2 []) as (h' & r' & Hrun' & Hrep'); try done.
  - by apply Hb.
  - by destruct (map root_id (f_cs1 fr)).
  - cbn [buffered set_tempChildren b_tempChildren]. by rewrite <- map_app, <- Ht, map_app.
  - rewrite Hrun' in Hrun. rewrite app_nil_r in Hrep'.
    eexists _, h', r', _, _. rewrite (promote_round _ _ _ _ _ _ _ _ _ _ _ Ha Hrun).
    split; [by apply promote_done|]. split; [exact Hrep'|]. split.
    { transitivity (flat (GNode f zs1 ts1) ++ m :: flat (GNode (N.succ f) zs2 ts2)); [done|].
      rewrite Hflat. cbn [left_of right_of app]. by rewrite app_nil_r. }
    split; [done|]. split. { destruct Hb as (? & _ & _). split; [done|].
      cbn [buffered set_tempChildren set_tempSlots b_tempSlots b_tempChildren]. rewrite !length_app in *.
      cbn [length]. rewrite !length_map. destruct Hs. lia. }
    split; [done|]. split; [lia|done].
Qed.

Lemma run_promote k : ∀ fuel b h r f fr t1 x t2,
  bufs b → pending b fr t1 x t2 → Forall frame_shape (fr :: k) → (f ≠ 0)%N →
  represents sl h r f (cells (f_id fr) t1 ++ cells (f_id fr) t2 ++ ctx_cells (fr :: k) (root_id t1)) →
  S (length k) < fuel → climbed b f fr k t1 x t2 (promote zeroK fuel (st b h r f)).
Proof.
  induction k as [|fr' k IH]; intros [|[|fuel]] b h r f fr t1 x t2 Hb Hpen Hk Hf Hrep Hfuel;
    try (simpl in Hfuel; lia);
    (destruct (decide (length (f_xs1 fr ++ f_xs2 fr) < 2 * hf)) as [Hroom|Hfull]; [by apply climb_room|]).
  { apply Forall_cons in Hk as [? _]. by apply climb_root. }
  pose proof Hpen as (Ha & _ & _). apply Forall_cons in Hk as [Hs Hk].
  eapply pending_full in Hfull as [Hlen Hrun]; [|done..].
  destruct (full_halves fr t1 x t2 Hs Hlen) as (zs1 & m & zs2 & ts1 & ts2 & Hz & Ht & Hz1 & Hz2 & Ht1 & Ht2 & Hflat).
  rewrite (full_cells fr t1 t2 ts1 ts2) in Hrep by done. rewrite decide_False in Hrun by done.
  destruct (run_promote_up zeroK hf Hhf (buffered (set_promote (mkPromote None 0) b) fr t1 x t2) h r f
    (f_id fr) (f_xs1 fr ++ f_xs2 fr) (map root_id (f_cs1 fr) ++ root_id t1 :: map root_id (f_cs2 fr))
    zs1 m zs2 ts1 ts2 fr' k) as (h' & r' & Hrun' & Hrep'); try done.
  - by apply Hb.
  - by destruct (map root_id (f_cs1 fr)).
  - cbn [buffered set_tempChildren b_tempChildren]. by rewrite <- map_app, <- Ht, map_app.
  - rewrite Hrun' in Hrun. rewrite (promote_round _ _ _ _ _ _ _ _ _ _ _ Ha Hrun).
    match type of Hrun' with _ = (_, st ?b' _ _ _) => set (b1 := b') in * end.
    destruct (IH (S fuel) b1 h' r' (N.succ f) fr' (GNode (f_id fr) zs1 ts1) m (GNode f zs2 ts2))
      as (b2 & h2 & r2 & f2 & t' & Hp & Hrep2 & Hfl & Hroot & Hb2 & Hsame & Hfr & Hprom).
    + destruct Hb as (? & _ & _). split; [done|].
      cbn [b1 buffered set_promote set_tempParent set_tempChildren set_tempSlots b_tempSlots b_tempChildren].
      rewrite !length_app in *. cbn [length]. rewrite !length_map. destruct Hs. lia.
    + done.
    + done.
    + lia.
    + exact Hrep'.
    + simpl in Hfuel. lia.
    + exists b2, h2, r2, f2, t'. split; [exact Hp|]. split; [done|]. split.
      { rewrite Hfl. cbn [left_of right_of]. rewrite Hflat. by rewrite <- !app_assoc. }
      split. { rewrite Hroot. by apply (root_id_plug k (fill fr' _) (fill fr' (fill fr t1))). }
      split; [done|]. split; [by eapply same_rest_trans; [|exact Hsame]|]. split; [lia|done].
Qed.
End climb.
