(* ===== verification/BtreeDescent.v ===== *)
(** * The descent of an insertion

    [node.add] walks down from the root by binary search, stops at a duplicate of a
    unique key, hangs the item under the first nil child it meets, or ends at a
    leaf.  The context it leaves behind holds only smaller items on the left and
    only items that are not smaller on the right. *)

From S2P Require Import Prelude Handle BtreeModel BtreeOps BtreeSpec BtreeCells BtreeRun.
From S2P Require Import BtreeSplit BtreeClimb.

Section descent.
Context {T K V : Type} `{!Tracker T K V}.
Context (cmp : K → K → Z) `{!Comparer cmp} (zeroK : K).
Local Abbreviation Btree := (Btree T K V).
Local Abbreviation Node := (Node K V).
Local Abbreviation Item := (Item K V).
Local Abbreviation B := (M Btree (btree_error tracker_error)).
Implicit Types (b : Btree) (h : gmap UUID Node) (r : gset UUID) (f p q : UUID) (n : Node).
Implicit Types (fr : frame K V) (k : list (frame K V)) (t : gtree K V) (x m : Item) (l : list Item).

(** ** The place of a key *)

Definition smaller (key : K) l : Prop := ∀ y, y ∈ l → (cmp (it_Key y) key < 0)%Z.
(** Not smaller, and different if keys are [unique]. *)
Definition not_smaller (unique : bool) (key : K) l : Prop :=
  ∀ y, y ∈ l → (0 ≤ cmp (it_Key y) key)%Z ∧ (unique = true → cmp (it_Key y) key ≠ 0%Z).

Lemma smaller_app key l1 l2 : smaller key (l1 ++ l2) ↔ smaller key l1 ∧ smaller key l2.
Proof. unfold smaller. setoid_rewrite elem_of_app. naive_solver. Qed.
Lemma not_smaller_app u key l1 l2 :
  not_smaller u key (l1 ++ l2) ↔ not_smaller u key l1 ∧ not_smaller u key l2.
Proof. unfold not_smaller. setoid_rewrite elem_of_app. naive_solver. Qed.

Lemma run_getIndexToInsertTo b h r f c n item :
  h !! c_id c = Some n → node_rep (getSlotLength b) r c n → sorted cmp (c_xs c) →
  ∃ i dup, getIndexToInsertTo cmp n item (st b h r f) = (Ret (Z.of_nat i, dup), st b h r f) ∧
    i ≤ length (c_xs c) ∧
    (∀ j x, j < i → c_xs c !! j = Some x → (cmp (it_Key x) (it_Key item) < 0)%Z) ∧
    (∀ j x, i ≤ j → c_xs c !! j = Some x → (0 ≤ cmp (it_Key x) (it_Key item))%Z) ∧
    (dup = true ↔ si_IsUnique (b_StoreInfo b) = true ∧
                  ∃ x, c_xs c !! i = Some x ∧ hits cmp (it_Key item) x).
Proof.
  intros Hh Hn Hs. pose proof (occupied_rep _ _ _ _ Hn) as Ho. pose proof (nr_count _ _ _ _ Hn) as Hcnt.
  pose proof (nr_len _ _ _ _ Hn) as Hlen.
  destruct (search_node_spec cmp (st b h r f) (c_id c) (c_pid c) n
    (λ y : K, bool_decide (0 ≤ cmp y (it_Key item))%Z)) as (i & Hi & Hb & Hlo & Hhi).
  { by apply (node_rep_ok (st b h r f) c). }
  { by rewrite Ho. }
  { intros x y. by apply search_ge_mono. }
  rewrite Ho in *. unfold getIndexToInsertTo. rewrite decide_False by lia. rewrite Hi. sx. sx.
  assert (Hlo' : ∀ j x, j < i → c_xs c !! j = Some x → (cmp (it_Key x) (it_Key item) < 0)%Z).
  { intros j x Hj Hx. specialize (Hlo j x Hj Hx). apply bool_decide_eq_false in Hlo. lia. }
  assert (Hhi' : ∀ j x, i ≤ j → c_xs c !! j = Some x → (0 ≤ cmp (it_Key x) (it_Key item))%Z).
  { intros j x Hj Hx. specialize (Hhi j x Hj Hx). by apply bool_decide_eq_true in Hhi. }
  assert (Hslot : ∀ j x, c_xs c !! j = Some x → (slot n (Z.of_nat j) : B Item) (st b h r f) = (Ret x, st b h r f)).
  { intros j x Hj. unfold slot. rewrite zlookup_nat, <- (lookup_take_lt _ (length (c_xs c))).
    - by rewrite (nr_xs _ _ _ _ Hn), Hj.
    - by apply lookup_lt_Some in Hj. }
  destruct (si_IsUnique (b_StoreInfo b)); [|exists i, false; naive_solver].
  rewrite Hcnt. case_decide as Hd.
  - destruct (lookup_lt_is_Some_2 (c_xs c) (i - 1)) as [x Hx]; [lia|].
    replace (Z.of_nat i - 1)%Z with (Z.of_nat (i - 1)) by lia.
    rewrite (bind_Ret _ _ _ _ _ (Hslot _ _ Hx)). exists i, false.
    specialize (Hlo' (i - 1) x ltac:(lia) Hx) as Hlt. split.
    { unfold mret, M_ret. rewrite bool_decide_false by lia. done. }
    split_and!; [done|done|done|]. split; [done|]. intros (_ & y & Hy & _).
    apply lookup_lt_Some in Hy. lia.
  - destruct (lookup_lt_is_Some_2 (c_xs c) i) as [x Hx]; [lia|].
    rewrite (bind_Ret _ _ _ _ _ (Hslot _ _ Hx)).
    eexists i, _. split; [reflexivity|]. split_and!; [done|done|done|].
    rewrite bool_decide_eq_true. unfold hits. naive_solver.
Qed.

(** ** Nil children *)

Lemma run_addNilChild b h r f p n (cs1 cs2 : list UUID) x :
  h !! p = Some n → n_ID n = p → p ≠ f → n_ChildrenIDs n = Some (cs1 ++ NilUUID :: cs2) →
  addItemOnNodeWithNilChild zeroK p x (Z.of_nat (length cs1)) (st b h r f) =
    (Ret true, st b (<[f := set_Count (set_Slots (blank zeroK (getSlotLength b) f p)
                              (<[0 := x]> (n_Slots (blank zeroK (getSlotLength b) f p)))) 1]>
                      (<[p := set_ChildrenIDs n (Some (cs1 ++ f :: cs2))]> h))
                    ({[f]} ∪ ({[p]} ∪ r)) (N.succ f)).
Proof.
  intros Hp Hid Hpf Hc. pose proof (getSlotLength_pos b). unfold addItemOnNodeWithNilChild, children. sx.
  rewrite Hc. cbn [from_option id]. rewrite zlookup_middle by done. sx. rewrite decide_False by (intros E; done).
  sx. rewrite Hid.
  step_by ltac:(eapply run_set_child; [look|done|done]).
  step_by ltac:(apply run_set_slot0; [look|simpl; rewrite length_replicate; lia]).
  rewrite insert_over by congruence. do 4 sx. by rewrite Hid.
Qed.

(** ** The descent *)

Context (hf : nat) (Hhf : 1 ≤ hf).
Local Abbreviation sl := (Z.of_nat (2 * hf)).

(** The frame around child [i] of a node. *)
Lemma child_frame id (xs : list Item) (cs : list (gtree K V)) i tc :
  length cs = S (length xs) → cs !! i = Some tc →
  ∃ fr, frame_shape fr ∧ fill fr tc = GNode id xs cs ∧ f_id fr = id ∧ length (f_cs1 fr) = i ∧
    pre (f_cs1 fr) (f_xs1 fr) = before (map flat cs) xs i ∧
    post (f_xs2 fr) (f_cs2 fr) = after (map flat cs) xs i.
Proof.
  intros Hl Hi. pose proof (lookup_lt_Some _ _ _ Hi) as Hlt.
  exists (mkFrame id (take i cs) (take i xs) (drop i xs) (drop (S i) cs)).
  unfold frame_shape, fill, pre, post, before, after. cbn [f_id f_cs1 f_xs1 f_xs2 f_cs2].
  rewrite !length_take, !length_drop, take_drop, take_drop_middle by done.
  rewrite !firstn_map, !skipn_map. split_and!; (done || lia).
Qed.

(** What the descent finds out on the way to the place of the item. *)
Inductive descent b h r f (u : bool) (key : K) item :
    outcome (btree_error tracker_error) (bool + UUID * Z) * Btree → gtree K V → Prop :=
| DescDup T p i x :
    u = true → p ≠ NilUUID → hits cmp key x → x ∈ flat T →
    descent b h r f u key item (Ret (inl false), set_cursor p i (set_currentItem None (st b h r f))) T
| DescNil T h' r' t' l1 l2 :
    flat T = l1 ++ l2 → smaller key l1 → not_smaller u key l2 →
    represents sl h' r' (N.succ f) (cells NilUUID t') → flat t' = l1 ++ item :: l2 →
    root_id t' = root_id T →
    descent b h r f u key item (Ret (inl true), st b h' r' (N.succ f)) T
| DescLeaf k p xs1 xs2 :
    Forall frame_shape k → smaller key (left_of k ++ xs1) → not_smaller u key (xs2 ++ right_of k) →
    descent b h r f u key item (Ret (inr (p, Z.of_nat (length xs1))), st b h r f)
      (plug k (GNode p (xs1 ++ xs2) [])).

(** A node with one more child. *)
Lemma rep_set_children w r c n (ids : list UUID) : node_rep w r c n → length ids = S (length (c_xs c)) →
  node_rep w r (mkCell (c_id c) (c_pid c) (c_xs c) ids) (set_ChildrenIDs n (cs_repr w ids)).
Proof. intros [] Hl. by constructor; simpl; auto. Qed.

Lemma add_nil_child b h r f k id xs cs i item :
  getSlotLength b = sl → (f ≠ 0)%N → length cs = S (length xs) → cs !! i = Some GNil → Forall frame_shape k →
  represents sl h r f (cells NilUUID (plug k (GNode id xs cs))) →
  ∃ h' r' t', addItemOnNodeWithNilChild zeroK id item (Z.of_nat i) (st b h r f) =
      (Ret true, st b h' r' (N.succ f)) ∧
    represents sl h' r' (N.succ f) (cells NilUUID t') ∧
    flat t' = (left_of k ++ before (map flat cs) xs i) ++ item :: after (map flat cs) xs i ++ right_of k ∧
    root_id t' = root_id (plug k (GNode id xs cs)).
Proof.
  intros Hsl Hf Hlen Hi Hk Hrep.
  destruct (child_frame id xs cs i GNil Hlen Hi) as (fr & Hs & Hfill & Hid & Hl1 & Hpre & Hpost).
  rewrite <- Hfill in Hrep |- *. rewrite <- Hid in *.
  apply focus_lookup in Hrep. cbn [fill cells root_id app] in Hrep.
  rewrite map_app in Hrep. cbn [map root_id] in Hrep.
  destruct (rep_lookup _ _ _ _ _ _ Hrep (list_elem_of_here _ _)) as (n & Hp & Hn). cbn [c_id] in Hp.
  pose proof (rp_fresh _ _ _ _ _ Hrep) as Hfr. apply Forall_cons in Hfr as [Hfr _]. cbn [c_id] in Hfr.
  pose proof (nr_cs _ _ _ _ Hn) as Hcs. cbn [c_cs] in Hcs. rewrite cs_repr_app in Hcs.
  pose proof (nr_repo _ _ _ _ Hn) as Hr. pose proof (nr_nil _ _ _ _ Hn) as Hnil. cbn [c_id] in Hr, Hnil.
  pose proof (run_addNilChild b h r f (f_id fr) n (map root_id (f_cs1 fr))
    (map root_id (f_cs2 fr) ++ replicate (Z.to_nat (sl + 1) -
      S (length (map root_id (f_cs1 fr)) + length (map root_id (f_cs2 fr)))) NilUUID) item Hp
    (nr_id _ _ _ _ Hn) ltac:(lia) Hcs) as Hrun.
  rewrite (length_map root_id (f_cs1 fr)), Hl1 in Hrun. eexists _, _, (plug (fr :: k) (GNode f [item] [])).
  split; [exact Hrun|]. split.
  - rewrite cells_plug. cbn [plug ctx_cells].
    eapply (represents_update _ _ _ _ _ (mkCell (f_id fr) (parent_id k) (f_xs1 fr ++ f_xs2 fr)
      (map root_id (f_cs1 fr) ++ f :: map root_id (f_cs2 fr)))) in Hrep; [|done|].
    2:{ apply (rep_set_children sl r _ n (map root_id (f_cs1 fr) ++ f :: map root_id (f_cs2 fr)) Hn).
        cbn [c_xs]. rewrite !length_app. cbn [length]. rewrite !length_map. destruct Hs. lia. }
    rewrite cs_repr_app, (length_map root_id (f_cs1 fr)), Hl1 in Hrep. cbn [c_id] in Hrep.
    apply (represents_new _ _ _ _ (mkCell f (f_id fr) [item] [])
      (mkNode f (f_id fr) ([item] ++ replicate (2 * hf - 1) (zero_item zeroK)) 1 0 (cs_repr sl []) (-1)))
      in Hrep; [|done|apply node_rep_intro; cbn [app length]; rewrite ?length_replicate; rep_side].
    rewrite <- (root_slots zeroK hf Hhf item (2 * hf)) in Hrep by done.
    unfold set_Count, set_Slots, blank. cbn [n_ID n_ParentID n_Slots n_Count n_Version n_ChildrenIDs n_indexOfNode].
    rewrite Hsl. replace (Z.to_nat sl) with (2 * hf) by lia.
    eapply represents_permute, represents_ext; [|exact Hrep|done|set_solver|done].
    cbn [cells fill root_id]. rewrite map_app. cbn [map root_id].
    rewrite concat_app. cbn [concat cells app]. unfold forest. solve_Permutation.
  - rewrite flat_plug by (by apply Forall_cons). cbn [left_of right_of flat]. rewrite Hpre, Hpost.
    split; [by rewrite <- !app_assoc|]. by apply (root_id_plug k (fill fr _) (fill fr GNil)).
Qed.

(** The order of the items around the place that a node's search gives. *)
Section around.
Context (u : bool) (key : K) (xs : list Item) (i : nat).
Context (Hlt : ∀ j x, j < i → xs !! j = Some x → (cmp (it_Key x) key < 0)%Z)
  (Hge : ∀ j x, i ≤ j → xs !! j = Some x → (0 ≤ cmp (it_Key x) key)%Z)
  (Hu : u = true → ∀ x, xs !! i = Some x → ¬ hits cmp key x).

Lemma from_place_strict : sorted cmp xs → u = true →
  ∀ j x, i ≤ j → xs !! j = Some x → (0 < cmp (it_Key x) key)%Z.
Proof.
  intros Hxs E j x Hj Hx. destruct (lookup_lt_is_Some_2 xs i) as [z Hz];
    [apply lookup_lt_Some in Hx; lia|].
  assert (0 < cmp (it_Key z) key)%Z as Hz0.
  { pose proof (Hge i z ltac:(lia) Hz). specialize (Hu E z Hz). unfold hits in Hu. lia. }
  destruct (sorted_lookup cmp xs i j z x Hxs Hj Hz Hx) as [->|Hle]; [congruence|].
  apply (cmp_opp (cmp := cmp)). apply (cmp_opp (cmp := cmp)) in Hz0. by eapply (cmp_lt_le cmp).
Qed.

Lemma leaf_place : sorted cmp xs → smaller key (take i xs) ∧ not_smaller u key (drop i xs).
Proof.
  intros Hxs. split.
  - intros y (j & Hj)%list_elem_of_lookup. apply lookup_take_Some in Hj as [Hj ?]. by eapply Hlt.
  - intros y (j & Hj)%list_elem_of_lookup. rewrite lookup_drop in Hj. split.
    + eapply Hge; [|done]. lia.
    + intros E. pose proof (from_place_strict Hxs E (i + j) y ltac:(lia) Hj). lia.
Qed.

Context (cs : list (gtree K V)) (Hlen : length cs = S (length xs)) (Hi : i ≤ length xs).
Context (Hs : sorted cmp (interleave (map flat cs) xs)).

Lemma inner_place : smaller key (before (map flat cs) xs i) ∧ not_smaller u key (after (map flat cs) xs i).
Proof.
  assert (Hl : length (map flat cs) = S (length xs)) by (by rewrite length_map).
  destruct (lookup_lt_is_Some_2 (map flat cs) i) as [li Hli]; [lia|].
  pose proof (interleave_items_sorted cmp _ _ Hl Hs) as Hxs. split.
  - intros y. by eapply before_lt.
  - intros y Hy. split; [by eapply after_ge|]. intros E.
    assert (0 < cmp (it_Key y) key)%Z; [|lia].
    eapply after_gt; try done. intros. by eapply from_place_strict.
Qed.
End around.

Lemma item_in_tree k id (xs : list Item) cs x : Forall frame_shape k → (cs = [] ∨ length cs = S (length xs)) →
  x ∈ xs → x ∈ flat (plug k (GNode id xs cs)).
Proof.
  intros Hk Hc Hx. rewrite flat_plug by done. apply elem_of_app. right. apply elem_of_app. left.
  destruct Hc as [->|Hc]; [done|]. destruct cs as [|c cs]; [done|].
  apply (interleave_item (map flat (c :: cs))); [by rewrite length_map|done].
Qed.

Lemma add_here_false b h r f p n (cs1 cs2 : list UUID) c x :
  h !! p = Some n → n_ChildrenIDs n = Some (cs1 ++ c :: cs2) → c ≠ NilUUID →
  addItemOnNodeWithNilChild zeroK p x (Z.of_nat (length cs1)) (st b h r f) = (Ret false, st b h r f).
Proof.
  intros Hp Hc Hn. unfold addItemOnNodeWithNilChild, children. sx. rewrite Hc. cbn [from_option id].
  rewrite zlookup_middle by done. sx. by rewrite decide_True.
Qed.

Lemma flat_sorted k t : Forall frame_shape k → sorted cmp (flat (plug k t)) → sorted cmp (flat t).
Proof.
  intros Hk Hs. rewrite flat_plug in Hs by done. apply sorted_app in Hs as (_ & Hs & _).
  by apply sorted_app in Hs as (Hs & _ & _).
Qed.

Lemma node_items_sorted id (xs : list Item) cs : (cs = [] ∨ length cs = S (length xs)) →
  sorted cmp (flat (GNode id xs cs)) → sorted cmp xs.
Proof.
  intros [->|Hl] Hs; [done|]. destruct cs as [|c cs]; [done|].
  apply (interleave_items_sorted cmp (map flat (c :: cs))); [by rewrite length_map|done].
Qed.

Lemma run_add_loop u item b (Hsl : getSlotLength b = sl) (Hv : values_kept b)
    (Hu : si_IsUnique (b_StoreInfo b) = u) : ∀ fuel h r f k t,
  (f ≠ 0)%N → represents sl h r f (cells NilUUID (plug k t)) → t ≠ GNil → Forall frame_shape k →
  sorted cmp (flat (plug k t)) → smaller (it_Key item) (left_of k) →
  not_smaller u (it_Key item) (right_of k) → height t ≤ fuel →
  descent b h r f u (it_Key item) item (add_loop cmp zeroK fuel (root_id t) item (st b h r f)) (plug k t).
Proof.
  induction fuel as [|fuel IH]; intros h r f k [|p xs cs] Hf Hrep Ht Hk Hs Hleft Hright Hfuel;
    try (done || (cbn [height] in Hfuel; lia)).
  pose proof (flat_sorted k _ Hk Hs) as Hst.
  apply focus_lookup in Hrep as Hrep'. cbn [cells app] in Hrep'.
  destruct (rep_lookup _ _ _ _ _ _ Hrep' (list_elem_of_here _ _)) as (n & Hp & Hn). cbn [c_id] in Hp.
  assert (Hshape : cs = [] ∨ length cs = S (length xs)).
  { destruct (nr_shape _ _ _ _ Hn) as [E|E]; cbn [c_cs c_xs] in E; [left; by destruct cs|right].
    by rewrite length_map in E. }
  pose proof (node_items_sorted p xs cs Hshape Hst) as Hxs.
  destruct (run_getIndexToInsertTo b h r f (mkCell p (parent_id k) xs (map root_id cs)) n item Hp ltac:(by rewrite Hsl) Hxs)
    as (i & dup & Hrun & Hi & Hlt & Hge & Hdup). cbn [c_xs] in *.
  cbn [add_loop root_id]. sx. rewrite (bind_Ret _ _ _ _ _ Hrun). cbv beta iota.
  destruct dup.
  { destruct (proj1 Hdup eq_refl) as (Hun & x & Hx & Hhit).
    erewrite bind_Ret by (by apply (run_setCurrentItemID (st b h r f))).
    eapply (DescDup _ _ _ _ _ _ _ _ _ _ x); [congruence| |done|].
    - rewrite (nr_id _ _ _ _ Hn). apply (nr_nil _ _ _ _ Hn).
    - eapply item_in_tree; [done|done|]. by eapply list_elem_of_lookup_2. }
  assert (Hu' : u = true → ∀ x, xs !! i = Some x → ¬ hits cmp (it_Key item) x).
  { intros E x Hx Hh. enough (false = true) by done. apply Hdup. split; [congruence|eauto]. }
  pose proof (nr_cs _ _ _ _ Hn) as Hcs. cbn [c_cs] in Hcs.
  destruct Hshape as [-> | Hlen].
  { unfold hasChildren, children. rewrite Hcs. cbn [map cs_repr from_option length].
    rewrite bool_decide_false by lia.
    destruct (leaf_place u (it_Key item) xs i Hlt Hge Hu' Hxs) as [Hl1 Hl2].
    rewrite <- (take_drop i xs) at 1.
    replace (Z.of_nat i) with (Z.of_nat (length (take i xs))) by (rewrite length_take; lia).
    apply DescLeaf; [done|by apply smaller_app|by apply not_smaller_app]. }
  destruct (lookup_lt_is_Some_2 cs i) as [tc Htc]; [lia|].
  destruct cs as [|c0 cs0] eqn:Ecs; [done|]. rewrite <- Ecs in *.
  assert (Hint : sorted cmp (interleave (map flat cs) xs)) by (by subst cs).
  destruct (inner_place u (it_Key item) xs i Hlt Hge Hu' cs Hlen Hi Hint) as [Hin1 Hin2].
  destruct (child_frame p xs cs i tc Hlen Htc) as (fr & Hfs & Hfill & Hid & Hl1 & Hpre & Hpost).
  assert (Hkids : n_ChildrenIDs n = Some (map root_id (f_cs1 fr) ++ root_id tc ::
    (map root_id (f_cs2 fr) ++ replicate (Z.to_nat (sl + 1) -
      S (length (map root_id (f_cs1 fr)) + length (map root_id (f_cs2 fr)))) NilUUID))).
  { rewrite Hcs. assert (cs = f_cs1 fr ++ tc :: f_cs2 fr) as -> by (unfold fill in Hfill; congruence).
    rewrite map_app. cbn [map]. by rewrite cs_repr_app. }
  assert (Hhas : hasChildren n = true).
  { unfold hasChildren, children. rewrite Hkids. cbn [from_option id]. apply bool_decide_eq_true.
    rewrite length_app. simpl. lia. }
  rewrite Hhas. assert (Hix : Z.of_nat i = Z.of_nat (length (map root_id (f_cs1 fr))))
    by (rewrite length_map; congruence).
  destruct tc as [|p' xs' cs'].
  - destruct (add_nil_child b h r f k p xs cs i item Hsl Hf Hlen Htc Hk Hrep)
      as (h' & r' & t' & Hadd & Hrep2 & Hfl & Hroot).
    rewrite (bind_Ret _ _ _ _ _ Hadd). cbv beta iota. eapply DescNil; [| | |exact Hrep2|exact Hfl|exact Hroot].
    + rewrite <- Hfill, flat_plug, flat_fill, Hpre, Hpost by done. cbn [flat app]. by rewrite <- !app_assoc.
    + by apply smaller_app.
    + by apply not_smaller_app.
  - assert (Hplug : plug k (GNode p xs cs) = plug (fr :: k) (GNode p' xs' cs')) by (by rewrite <- Hfill).
    rewrite Hplug in Hrep, Hs |- *. apply focus_lookup in Hrep as Hrepc. cbn [cells app] in Hrepc.
    destruct (rep_lookup _ _ _ _ _ _ Hrepc (list_elem_of_here _ _)) as (cn & Hcp & Hcn). cbn [c_id] in Hcp.
    pose proof (nr_nil _ _ _ _ Hcn) as Hcnil. cbn [c_id] in Hcnil. cbn [root_id] in Hkids.
    rewrite Hix.
    erewrite bind_Ret by (eapply add_here_false; [exact Hp|exact Hkids|exact Hcnil]). cbv beta iota.
    erewrite bind_Ret by (eapply (run_getChild_st _ _ _ _ _ _ _ _ _ cn); [exact Hkids|exact Hcnil|rewrite Hsl;
      eapply (stored_rep _ _ _ (mkCell p' (f_id fr) xs' (map root_id cs'))); [lia|exact Hcp|exact Hcn]]).
    cbv beta iota. apply (IH h r f (fr :: k) (GNode p' xs' cs')); try done.
    + by apply Forall_cons.
    + cbn [left_of]. rewrite Hpre. by apply smaller_app.
    + cbn [right_of]. rewrite Hpost. by apply not_smaller_app.
    + cbn [height] in Hfuel. assert (height (GNode p' xs' cs') ≤ foldr max 0 (map height cs)); [|lia].
      apply (max_list_elem_of_le (height _)). apply (list_elem_of_fmap_2 height).
      by eapply list_elem_of_lookup_2.
Qed.
End descent.
