(* ===== verification/BtreeAdd.v ===== *)
(** * Insertion: the leaf, the invariant, and the whole of [Add]

    [addOnLeaf] inserts in the leaf or splits it; [Add] wraps the descent, the
    tracker, the climb of a split and the count.  [tree_inv] is the invariant of a
    tree between operations: the nodes represent a tree whose items are in order,
    and no distribution or promotion is pending. *)

From S2P Require Import Prelude Handle BtreeModel BtreeOps BtreeSpec BtreeCells BtreeRun.
From S2P Require Import BtreeSplit BtreeClimb BtreeDescent.

Section add.
Context {T K V : Type} `{!Tracker T K V}.
Context (cmp : K → K → Z) `{!Comparer cmp} (zeroK : K).
Local Abbreviation Btree := (Btree T K V).
Local Abbreviation Node := (Node K V).
Local Abbreviation Item := (Item K V).
Local Abbreviation B := (M Btree (btree_error tracker_error)).
Implicit Types (b : Btree) (h : gmap UUID Node) (r : gset UUID) (f p q : UUID) (n : Node).
Implicit Types (fr : frame K V) (k : list (frame K V)) (t : gtree K V) (x item : Item) (l : list Item).
Context (hf : nat) (Hhf : 1 ≤ hf).
Local Abbreviation sl := (Z.of_nat (2 * hf)).

(** ** The leaf *)

(** After the leaf took the item: a tree, or a leaf in halves under its parent. *)
Definition leaf_done b f k p xs1 item xs2 (res : outcome (btree_error tracker_error) () * Btree) : Prop :=
  ∃ b' h' r' f', res = (Ret (), st b' h' r' f') ∧ bufs hf b' ∧ same_rest b b' ∧ (f ≤ f')%N ∧
    ((b_promoteAction b' = b_promoteAction b ∧ ∃ t', represents sl h' r' f' (cells NilUUID t') ∧
        flat t' = left_of k ++ (xs1 ++ item :: xs2) ++ right_of k ∧
        root_id t' = root_id (plug k (GNode p (xs1 ++ xs2) []))) ∨
     (∃ fr k' t1 x t2, k = fr :: k' ∧ pending b' fr t1 x t2 ∧ root_id t1 = p ∧
        represents sl h' r' f' (cells (f_id fr) t1 ++ cells (f_id fr) t2 ++ ctx_cells (fr :: k') p) ∧
        flat t1 ++ x :: flat t2 = xs1 ++ item :: xs2)).

(** A leaf's slots around an index, with the free ones behind. *)
Lemma leaf_slots w r c n xs1 xs2 : node_rep w r c n → c_xs c = xs1 ++ xs2 →
  ∃ g, n_Slots n = xs1 ++ xs2 ++ g ∧ length xs1 + length xs2 + length g = Z.to_nat w.
Proof.
  intros [] E. rewrite E in *. exists (drop (length (xs1 ++ xs2)) (n_Slots n)). split.
  - rewrite <- (take_drop (length (xs1 ++ xs2)) (n_Slots n)) at 1.
    match goal with H : take _ _ = _ |- _ => rewrite H end. by rewrite <- app_assoc.
  - rewrite length_drop, length_app in *. lia.
Qed.

Lemma leaf_room fuel b h r f k p xs1 item xs2 :
  bufs hf b → Forall frame_shape k →
  represents sl h r f (cells NilUUID (plug k (GNode p (xs1 ++ xs2) []))) →
  length xs1 + length xs2 < 2 * hf →
  leaf_done b f k p xs1 item xs2 (addOnLeaf zeroK fuel p item (Z.of_nat (length xs1)) (st b h r f)).
Proof.
  intros Hb Hk Hrep Hroom. pose proof Hb as (Hsl & _ & _).
  apply focus_lookup in Hrep. cbn [cells map concat app root_id] in Hrep.
  destruct (rep_lookup _ _ _ _ _ _ Hrep (list_elem_of_here _ _)) as (n & Hp & Hn). cbn [c_id] in Hp.
  destruct (leaf_slots _ _ _ _ xs1 xs2 Hn eq_refl) as (g & Hg & Hgl).
  destruct (exists_last (l := g)) as (g0 & y & ->); [intros ->; simpl in Hgl; lia|].
  pose proof (nr_count _ _ _ _ Hn) as Hcnt. cbn [c_xs] in Hcnt. rewrite length_app in Hcnt.
  unfold addOnLeaf. do 2 sx. rewrite Hsl, decide_True by lia.
  erewrite bind_Ret by (eapply (run_insertSlotItem b h r f p n xs1 xs2 g0 item y); [exact Hp|];
    by rewrite Hg, <- !app_assoc).
  rewrite run_save. eexists b, _, _, f. split; [reflexivity|]. split; [done|]. split; [done|]. split; [done|].
  left. split; [done|]. exists (plug k (GNode p (xs1 ++ item :: xs2) [])).
  split; [|split; [by rewrite flat_plug|by apply root_id_plug]].
  rewrite cells_plug. cbn [cells map concat app root_id].
  eapply (represents_update _ _ _ _ _ (mkCell p (parent_id k) (xs1 ++ item :: xs2) [])) in Hrep; [|done|].
  - eapply represents_ext; [exact Hrep|done|set_solver|done].
  - destruct n as [id' pid' slots cnt v cs ix]. destruct Hn as [Hr Hnil Hid Hpid Hlen Hcnt' Hxs Hn1 Hcs Hsh Hix].
    unfold set_Count, set_Slots.
    cbn [c_id c_pid c_xs c_cs n_ID n_ParentID n_Slots n_Count n_ChildrenIDs n_indexOfNode n_Version] in *. subst.
    replace (xs1 ++ item :: xs2 ++ g0) with ((xs1 ++ item :: xs2) ++ g0) by (by rewrite <- app_assoc).
    rewrite length_app in Hgl. simpl in Hgl.
    apply node_rep_intro; try done; try (by left); rewrite ?length_app; cbn [length]; lia.
Qed.

Lemma run_isThere_left fuel b h r f p : si_LeafLoadBalancing (b_StoreInfo b) = false →
  isThereVacantSlotInLeft zeroK fuel p (st b h r f) = (Ret (false, false), st b h r f).
Proof. intros H. unfold isThereVacantSlotInLeft. sx. by rewrite H. Qed.
Lemma run_isThere_right fuel b h r f p : si_LeafLoadBalancing (b_StoreInfo b) = false →
  isThereVacantSlotInRight zeroK fuel p (st b h r f) = (Ret (false, false), st b h r f).
Proof. intros H. unfold isThereVacantSlotInRight. sx. by rewrite H. Qed.

(** A full leaf: its items and the new one go to the buffer. *)
Lemma run_full_leaf fuel b h r f k p xs1 item xs2 :
  bufs hf b → si_LeafLoadBalancing (b_StoreInfo b) = false →
  cell_ok sl h r (mkCell p (parent_id k) (xs1 ++ xs2) []) → (parent_id k = NilUUID → k = []) →
  length xs1 + length xs2 = 2 * hf →
  addOnLeaf zeroK fuel p item (Z.of_nat (length xs1)) (st b h r f) =
    (if decide (k = []) then split_under zeroK p true else split_beside zeroK p)
      (st (set_tempSlots (xs1 ++ item :: xs2) b) h r f).
Proof.
  intros (Hsl & Hts & _) Hllb (n & Hp & Hn) Hk Hfull. cbn [c_id] in Hp.
  destruct (leaf_slots _ _ _ _ xs1 xs2 Hn eq_refl) as (g & Hg & Hgl).
  assert (g = []) as -> by (destruct g; [done|simpl in Hgl; lia]). rewrite app_nil_r in Hg.
  pose proof (nr_count _ _ _ _ Hn) as Hcnt. cbn [c_xs] in Hcnt. rewrite length_app in Hcnt.
  unfold addOnLeaf. do 2 sx. rewrite Hsl, decide_False by lia. sx. cbv zeta.
  assert (Hcopy : ∃ y, go_copy (b_tempSlots b) 0 (n_Slots n) = xs1 ++ xs2 ++ [y]).
  { unfold go_copy. rewrite Hg, take_0, Nat.sub_0_r, Nat.add_0_l. cbn [app].
    rewrite firstn_all2 by (rewrite length_app; lia).
    destruct (drop (length (xs1 ++ xs2)) (b_tempSlots b)) as [|y [|z l]] eqn:E;
      apply (f_equal length) in E; rewrite length_drop, length_app in E; simpl in E; try lia.
    exists y. by rewrite <- app_assoc. }
  destruct Hcopy as [y ->]. rewrite zdrop_nat by (rewrite length_app; lia). rewrite drop_app_length. sx.
  pose proof (open_slot xs1 xs2 y item) as Ho.
  destruct (zcopy _ _ _) as [ts|]; [|done]. simpl in Ho. sx. rewrite Ho. sx. sx.
  unfold isRootNode. rewrite (nr_parent _ _ _ _ Hn). cbn [c_pid]. destruct k as [|fr k].
  - by rewrite bool_decide_true, decide_True.
  - rewrite bool_decide_false, decide_False; [|done|].
    + rewrite (bind_Ret _ _ _ _ _ (run_isThere_left fuel (set_tempSlots _ b) h r f p Hllb)). cbv beta iota.
      rewrite (bind_Ret _ _ _ _ _ (run_isThere_right fuel (set_tempSlots _ b) h r f p Hllb)). done.
    + intros E. by specialize (Hk E).
Qed.

Lemma leaf_full fuel b h r f k p xs1 item xs2 :
  bufs hf b → si_LeafLoadBalancing (b_StoreInfo b) = false → (f ≠ 0)%N → Forall frame_shape k →
  represents sl h r f (cells NilUUID (plug k (GNode p (xs1 ++ xs2) []))) →
  length xs1 + length xs2 = 2 * hf →
  leaf_done b f k p xs1 item xs2 (addOnLeaf zeroK fuel p item (Z.of_nat (length xs1)) (st b h r f)).
Proof.
  intros Hb Hllb Hf Hk Hrep Hfull. pose proof Hb as (Hsl & Hts & Htc).
  apply focus_lookup in Hrep. cbn [cells map concat app root_id] in Hrep.
  pose proof (rp_cells _ _ _ _ _ Hrep) as Hcs. apply Forall_cons in Hcs as [Hc Hcs].
  rewrite (run_full_leaf fuel b h r f k p xs1 item xs2) by (try done; by eapply parent_nil).
  destruct (halve (xs1 ++ item :: xs2) hf) as (zs1 & m & zs2 & Hz & Hz1 & Hz2).
  { rewrite length_app. simpl. lia. }
  assert (Hlts : length (xs1 ++ item :: xs2) = S (2 * hf)) by (rewrite length_app; simpl; lia).
  set (b1 := set_tempSlots (xs1 ++ item :: xs2) b).
  destruct k as [|fr k].
  - rewrite decide_True by done.
    destruct (run_split_under zeroK hf Hhf b1 h r f p NilUUID (xs1 ++ xs2) zs1 m zs2 [])
      as (h' & r' & ts' & Hrun & Hl & Hrep'); [done..|].
    eexists _, h', r', _. split; [exact Hrun|]. split.
    { split; [done|]. cbn [b1 set_tempSlots b_tempSlots b_tempChildren] in *. by rewrite Hl. }
    split; [done|]. split; [lia|]. left. split; [done|]. eexists. split; [by rewrite app_nil_r in Hrep'|].
    split; [|done]. cbn [left_of right_of]. rewrite Hz, app_nil_r. done.
  - rewrite decide_False by done.
    destruct (run_split_beside zeroK hf Hhf b1 h r f p (xs1 ++ xs2) fr k zs1 m zs2)
      as (h' & r' & Hrun & Hrep'); [done..|].
    eexists _, h', r', _. split; [exact Hrun|]. split; [done|]. split; [done|]. split; [lia|]. right.
    exists fr, k, (GNode p zs1 []), m, (GNode f zs2 []). split; [done|]. split; [done|]. split; [done|].
    split; [exact Hrep'|]. by rewrite Hz.
Qed.

(** ** The whole insertion into a tree that holds items *)

Lemma run_get_distribute b h r f : (gets b_distributeAction : B (distributeAction K V)) (st b h r f) =
  (Ret (b_distributeAction b), st b h r f).
Proof. done. Qed.

Lemma run_distribute_idle fuel b h r f : da_sourceNode (b_distributeAction b) = None →
  distribute zeroK (S fuel) (st b h r f) = (Ret (), st b h r f).
Proof.
  intros H. cbn [distribute]. rewrite (bind_Ret _ _ _ _ _ (run_get_distribute b h r f)). by rewrite H.
Qed.

(** The check for a duplicate at the leaf finds nothing the descent did not. *)
Lemma run_dup_check u b h r f n c item xs1 xs2 :
  si_IsUnique (b_StoreInfo b) = u → node_rep (getSlotLength b) r c n → c_xs c = xs1 ++ xs2 →
  smaller cmp (it_Key item) xs1 → not_smaller cmp u (it_Key item) xs2 →
  (if si_IsUnique (b_StoreInfo b) && bool_decide (0 < n_Count n)%Z then
     let i := if decide (0 < Z.of_nat (length xs1) ∧ n_Count n ≤ Z.of_nat (length xs1))%Z
              then (Z.of_nat (length xs1) - 1)%Z else Z.of_nat (length xs1) in
     x ← slot n i;
     if decide (cmp (it_Key x) (it_Key item) = 0%Z)
     then setCurrentItemID (n_ID n) i;; mret true else mret false
   else mret false : B bool) (st b h r f) = (Ret false, st b h r f).
Proof.
  intros Hu Hn Hxs Hs1 Hs2. destruct (si_IsUnique (b_StoreInfo b)) eqn:Eu; [|done].
  pose proof (nr_len _ _ _ _ Hn) as Hl. pose proof (nr_count _ _ _ _ Hn) as Hcnt.
  destruct (leaf_slots _ _ _ _ xs1 xs2 Hn Hxs) as (g & Hg & Hgl). rewrite Hxs, length_app in *.
  rewrite bool_decide_true by lia. cbn [andb]. cbv zeta.
  assert (Hx : ∃ x, zlookup (n_Slots n) (if decide (0 < Z.of_nat (length xs1) ∧ n_Count n ≤ Z.of_nat (length xs1))%Z
              then (Z.of_nat (length xs1) - 1)%Z else Z.of_nat (length xs1)) = Some x ∧
              cmp (it_Key x) (it_Key item) ≠ 0%Z).
  { rewrite Hg. case_decide as Hd.
    - destruct (exists_last (l := xs1)) as (ys & x & ->); [intros ->; simpl in Hd; lia|].
      exists x. split.
      + rewrite <- app_assoc. apply zlookup_middle. rewrite length_app. simpl. lia.
      + pose proof (Hs1 x ltac:(set_solver)). lia.
    - destruct xs2 as [|x xs2]; [simpl in *; lia|]. exists x. split; [by apply zlookup_middle|].
      destruct (Hs2 x ltac:(set_solver)) as [_ Hne]. by apply Hne. }
  destruct Hx as (x & Hx & Hne).
  erewrite bind_Ret by (unfold slot; by rewrite Hx). by rewrite decide_False.
Qed.

(** ** The invariant *)

(** A root that was emptied, or that was made for the first item. *)
Definition empty_root (w : Z) h (f p : UUID) : Prop :=
  p ≠ NilUUID ∧ (p < f)%N ∧ ∃ n, h !! p = Some n ∧ n_ID n = p ∧ n_ParentID n = NilUUID ∧
    length (n_Slots n) = Z.to_nat w ∧ n_Count n = 0%Z ∧ n_ChildrenIDs n = None ∧
    (-1 ≤ n_indexOfNode n ≤ w)%Z.

(** The keys are in order, and distinct when the tree is unique. *)
Definition distinct (u : bool) l : Prop :=
  u = true → StronglySorted (λ x y, (cmp (it_Key x) (it_Key y) < 0)%Z) l.

(** The tree holds the items [l], in this order, and no operation is pending. *)
Record tree_inv b l : Prop := {
  ti_bufs : bufs hf b;
  ti_plain : si_LeafLoadBalancing (b_StoreInfo b) = false;
  ti_values : values_kept b;
  ti_fresh : b_fresh b ≠ 0%N;
  ti_distribute : da_sourceNode (b_distributeAction b) = None;
  ti_promote : b_promoteAction b = mkPromote None 0;
  ti_sorted : sorted cmp l;
  ti_distinct : distinct (si_IsUnique (b_StoreInfo b)) l;
  ti_count : si_Count (b_StoreInfo b) = Z.of_nat (length l);
  ti_nodes :
    (l = [] ∧ (si_RootNodeID (b_StoreInfo b) = NilUUID ∨
      (empty_root sl (b_heap b) (b_fresh b) (si_RootNodeID (b_StoreInfo b)) ∧
       si_RootNodeID (b_StoreInfo b) ∈ b_repo b))) ∨
    (∃ t, t ≠ GNil ∧ root_id t = si_RootNodeID (b_StoreInfo b) ∧ flat t = l ∧
      represents sl (b_heap b) (b_repo b) (b_fresh b) (cells NilUUID t))
}.

(** The lookups work on such a tree. *)
Lemma tree_inv_ok b l : tree_inv b l → l ≠ [] → btree_ok cmp (length l) b l.
Proof.
  intros [Hb _ Hv _ _ _ Hs _ Hc Hn] Hl. destruct Hn as [[? _]|(t & Ht & Hroot & Hflat & Hrep)]; [done|].
  destruct Hb as (Hsl & _ & _). constructor; try done. subst l. rewrite <- Hroot.
  pose proof (rp_cells _ _ _ _ _ Hrep) as Hcs.
  apply cells_is_tree; [by eapply height_items|done|by rewrite Hsl].
Qed.

(** ** Insertion in [node.add] and the climb *)

(** The item enters between the smaller ones and the others. *)
Definition grown b f tr item (u : bool) (res : outcome (btree_error tracker_error) bool * Btree) : Prop :=
  ∃ b' h' r' f' t' l1 l2, res = (Ret true, st b' h' r' f') ∧ bufs hf b' ∧ same_rest b b' ∧ (f ≤ f')%N ∧
    flat tr = l1 ++ l2 ∧ smaller cmp (it_Key item) l1 ∧ not_smaller cmp u (it_Key item) l2 ∧
    ((b_promoteAction b' = b_promoteAction b ∧ represents sl h' r' f' (cells NilUUID t') ∧
       flat t' = l1 ++ item :: l2 ∧ root_id t' = root_id tr) ∨
     (∃ fr k t1 x t2, pending b' fr t1 x t2 ∧ Forall frame_shape (fr :: k) ∧
       length (fr :: k) < height tr ∧
       root_id tr = root_id (plug (fr :: k) t1) ∧
       represents sl h' r' f' (cells (f_id fr) t1 ++ cells (f_id fr) t2 ++ ctx_cells (fr :: k) (root_id t1)) ∧
       left_of (fr :: k) ++ (flat t1 ++ x :: flat t2) ++ right_of (fr :: k) = l1 ++ item :: l2)).

Lemma run_node_add u fuel b h r f tr item :
  bufs hf b → si_LeafLoadBalancing (b_StoreInfo b) = false → values_kept b →
  si_IsUnique (b_StoreInfo b) = u → (f ≠ 0)%N → tr ≠ GNil → sorted cmp (flat tr) →
  represents sl h r f (cells NilUUID tr) → height tr ≤ fuel →
  (u = true ∧ (∃ x, x ∈ flat tr ∧ hits cmp (it_Key item) x) ∧
     ∃ p i, add cmp zeroK fuel (root_id tr) item (st b h r f) =
       (Ret false, set_cursor p i (set_currentItem None (st b h r f)))) ∨
  grown b f tr item u (add cmp zeroK fuel (root_id tr) item (st b h r f)).
Proof.
  intros Hb Hllb Hv Hu Hf HT Hs Hrep Hfuel. pose proof Hb as (Hsl & _ & _).
  pose proof (run_add_loop cmp zeroK hf Hhf u item b Hsl Hv Hu fuel h r f [] tr Hf Hrep HT
    ltac:(constructor) Hs) as Hd. cbn [left_of right_of plug] in Hd.
  specialize (Hd ltac:(by intros ? ?%not_elem_of_nil) ltac:(by intros ? ?%not_elem_of_nil) Hfuel).
  unfold add.
  remember (add_loop cmp zeroK fuel (root_id tr) item (st b h r f)) as res eqn:Eres. symmetry in Eres.
  destruct Hd as [tr p i x Hun Hp Hhit Hx | tr h' r' t' l1 l2 Hfl Hl1 Hl2 Hrep' Hfl' Hroot
                 | k p xs1 xs2 Hk Hl1 Hl2].
  - left. split; [done|]. split; [by exists x|]. exists p, i. by rewrite (bind_Ret _ _ _ _ _ Eres).
  - right. rewrite (bind_Ret _ _ _ _ _ Eres). exists b, h', r', (N.succ f), t', l1, l2.
    split; [done|]. split; [done|]. split; [done|]. split; [lia|]. split; [done|]. split; [done|].
    split; [done|]. left. done.
  - right. rewrite (bind_Ret _ _ _ _ _ Eres). cbv beta iota.
    apply focus_lookup in Hrep as Hrepc. cbn [cells map concat app root_id] in Hrepc.
    destruct (rep_lookup _ _ _ _ _ _ Hrepc (list_elem_of_here _ _)) as (n & Hn & Hnr). cbn [c_id] in Hn.
    apply smaller_app in Hl1 as [Hl1 Hl1'].
    apply not_smaller_app in Hl2 as [Hl2' Hl2].
    do 2 sx.
    erewrite bind_Ret by (eapply (run_dup_check u); [done|by rewrite Hsl|done|done|done]). cbv beta iota.
    assert (Hleaf : leaf_done b f k p xs1 item xs2
      (addOnLeaf zeroK fuel p item (Z.of_nat (length xs1)) (st b h r f))).
    { destruct (nr_len _ _ _ _ Hnr) as [_ Hle]. cbn [c_xs] in Hle. rewrite length_app in Hle.
      destruct (decide (length xs1 + length xs2 < 2 * hf)); [by apply leaf_room|].
      apply leaf_full; try done. lia. }
    destruct Hleaf as (b' & h' & r' & f' & Hrun & Hb' & Hsame & Hfr & Hcase).
    rewrite (bind_Ret _ _ _ _ _ Hrun). unfold mret, M_ret.
    assert (Hflat : flat (plug k (GNode p (xs1 ++ xs2) [])) = (left_of k ++ xs1) ++ xs2 ++ right_of k).
    { rewrite flat_plug by done. cbn [flat]. by rewrite <- !app_assoc. }
    destruct Hcase as [(Hp' & t' & Hrep' & Hfl & Hroot)|(fr & k' & t1 & x & t2 & -> & Hpen & Ht1 & Hrep' & Hfl)].
    + exists b', h', r', f', t', (left_of k ++ xs1), (xs2 ++ right_of k).
      split; [done|]. split; [done|]. split; [done|]. split; [done|]. split; [done|].
      split; [by apply smaller_app|]. split; [by apply not_smaller_app|]. left.
      split; [done|]. split; [done|]. split; [|done]. rewrite Hfl. by rewrite <- !app_assoc.
    + exists b', h', r', f', GNil, (left_of (fr :: k') ++ xs1), (xs2 ++ right_of (fr :: k')).
      split; [done|]. split; [done|]. split; [done|]. split; [done|]. split; [done|].
      split; [by apply smaller_app|]. split; [by apply not_smaller_app|]. right.
      exists fr, k', t1, x, t2. split; [done|]. split; [done|].
      split. { pose proof (height_plug (fr :: k') (GNode p (xs1 ++ xs2) [])) as Hh. cbn [height] in Hh. 
        simpl foldr in Hh. lia. }
      split; [by apply root_id_plug|]. split; [by rewrite Ht1|]. rewrite Hfl. by rewrite <- !app_assoc.
Qed.

(** ** The first item *)

Lemma run_add_empty fuel b h r f p item : bufs hf b → empty_root sl h f p →
  ∃ h' r', add cmp zeroK (S fuel) p item (st b h r f) = (Ret true, st b h' r' f) ∧
    represents sl h' r' f (cells NilUUID (GNode p [item] [])).
Proof.
  intros (Hsl & _ & _) (Hnil & Hpf & n & Hp & Hid & Hpar & Hlen & Hcnt & Hcs & Hix).
  destruct n as [id' pid' slots cnt v cs ix].
  cbn [n_ID n_ParentID n_Slots n_Count n_ChildrenIDs n_indexOfNode] in *. subst.
  unfold add. cbn [add_loop].
  destruct (exists_last (l := slots)) as (g & y & ->); [intros ->; simpl in Hlen; lia|].
  rewrite length_app in Hlen. cbn [length] in Hlen.
  eexists _, _. split.
  - erewrite bind_Ret by (sx; unfold getIndexToInsertTo, hasChildren, children;
      cbn [n_Count n_ChildrenIDs from_option length]; rewrite decide_True by done;
      erewrite bind_Ret by reflexivity; cbv beta iota;
      rewrite bool_decide_false by lia; reflexivity).
    cbv beta iota. do 2 sx.
    erewrite bind_Ret by (rewrite bool_decide_false by lia; rewrite andb_false_r; reflexivity).
    cbv beta iota. unfold addOnLeaf.
    erewrite bind_Ret by (do 2 sx; rewrite Hsl, decide_True by lia;
      erewrite bind_Ret by (eapply (run_insertSlotItem b h r f p (mkNode p NilUUID (g ++ [y]) 0 v None ix) [] [] g item y); [exact Hp|done]);
      apply run_save). reflexivity.
  - constructor.
    + apply Forall_cons. split; [|constructor]. eexists. split; [apply lookup_insert_eq|].
      node_cbn. apply (node_rep_intro sl _ p NilUUID [item] g [] v ix 1); cbn [app length]; rep_side.
    + apply NoDup_singleton.
    + by apply Forall_singleton.
Qed.

(** ** The bookkeeping around the insertion *)

Lemma run_track_ok b h r f x y tk : tk_Add x (b_tracker b) = (Ok y, tk) →
  track tk_Add x (st b h r f) = (Ret y, st (upd_tracker (λ _, tk) b) h r f).
Proof. intros H. unfold track. cbn [st b_tracker]. by rewrite H. Qed.

Lemma sorted_insert l1 item l2 : sorted cmp (l1 ++ l2) → smaller cmp (it_Key item) l1 →
  (∀ y, y ∈ l2 → 0 ≤ cmp (it_Key y) (it_Key item))%Z → sorted cmp (l1 ++ item :: l2).
Proof.
  intros (H1 & H2 & H3)%sorted_app Hl1 Hl2. apply sorted_app. split; [done|]. split.
  - constructor; [done|]. apply Forall_forall. intros y Hy. unfold item_le.
    apply (cmp_le_ge cmp). by apply Hl2.
  - intros x y Hx [->|Hy]%elem_of_cons; [|by apply H3]. unfold item_le. specialize (Hl1 x Hx). lia.
Qed.

Lemma distinct_insert u l1 item l2 : distinct u (l1 ++ l2) → smaller cmp (it_Key item) l1 →
  not_smaller cmp u (it_Key item) l2 → distinct u (l1 ++ item :: l2).
Proof.
  intros Hd Hl1 Hl2 Hu. specialize (Hd Hu).
  assert (Hgt : ∀ y, y ∈ l2 → (cmp (it_Key item) (it_Key y) < 0)%Z).
  { intros y Hy. destruct (Hl2 y Hy) as [H1 H2]. specialize (H2 Hu). apply (cmp_opp (cmp := cmp)). lia. }
  apply StronglySorted_app_2.
  - intros x y Hx [->|Hy]%elem_of_cons; [by apply Hl1|].
    exact (StronglySorted_app_1_elem_of _ _ _ _ _ Hd Hx Hy).
  - by eapply StronglySorted_app_1_l.
  - constructor; [by eapply StronglySorted_app_1_r|]. by apply Forall_forall.
Qed.

Definition counted b : Btree :=
  upd_StoreInfo (λ s, si_set_Count s (wrap_s 64 (si_Count s + 1))) b.

Lemma inv_grown b b2 h2 r2 f2 t' l1 item l2 :
  tree_inv b (l1 ++ l2) → bufs hf b2 → b_distributeAction b2 = b_distributeAction b →
  (∃ root, b_StoreInfo b2 = si_set_Root (b_StoreInfo b) root ∧ root_id t' = root) →
  b_promoteAction b2 = mkPromote None 0 → (f2 ≠ 0)%N → t' ≠ GNil →
  represents sl h2 r2 f2 (cells NilUUID t') → flat t' = l1 ++ item :: l2 →
  smaller cmp (it_Key item) l1 → not_smaller cmp (si_IsUnique (b_StoreInfo b)) (it_Key item) l2 →
  (Z.of_nat (length (l1 ++ l2)) + 1 < 2 ^ 63)%Z →
  tree_inv (counted (st b2 h2 r2 f2)) (l1 ++ item :: l2).
Proof.
  intros Hinv Hb2 Hda (root & Hsi & Hroot) Hpa Hf2 Ht' Hrep Hflat Hl1 Hl2 Hbound.
  destruct Hinv as [Hb Hllb Hv Hf Hd Hp Hs Hdi Hc Hn].
  constructor; cbn [counted upd_StoreInfo st b_StoreInfo b_distributeAction b_promoteAction b_heap b_repo b_fresh].
  - destruct Hb2 as (Hsl & Hts & Htc). split; [|done]. exact Hsl.
  - by rewrite Hsi.
  - change (values_kept b2). unfold values_kept. by rewrite Hsi.
  - done.
  - by rewrite Hda.
  - done.
  - apply sorted_insert; try done. intros y Hy. by apply Hl2.
  - rewrite Hsi. by apply distinct_insert.
  - rewrite Hsi. cbn [si_set_Root si_set_Count si_Count]. rewrite Hc. rewrite wrap_s_id.
    + rewrite !length_app. cbn [length]. lia.
    + lia.
    + unfold in_s. rewrite !length_app in *. lia.
  - right. exists t'. rewrite Hsi. done.
Qed.

Definition finish_add (fuel : nat) (item : Item) : B bool :=
  _ ← track tk_Add item; distribute zeroK fuel;; promote zeroK fuel;; incCount 1;; mret true.

(** The end of an insertion, whether or not a promotion is pending. *)
Lemma run_finish_add b fuel tr item u y tk res :
  grown b (b_fresh b) tr item u res → S (height tr) < fuel → (b_fresh b ≠ 0)%N → tr ≠ GNil →
  da_sourceNode (b_distributeAction b) = None → b_promoteAction b = mkPromote None 0 →
  tk_Add item (b_tracker b) = (Ok y, tk) →
  ∃ s b2 h2 r2 f2 t' l1 l2, res = (Ret true, s) ∧
    finish_add fuel item s = (Ret true, counted (st b2 h2 r2 f2)) ∧
    flat tr = l1 ++ l2 ∧ smaller cmp (it_Key item) l1 ∧ not_smaller cmp u (it_Key item) l2 ∧
    bufs hf b2 ∧ b_StoreInfo b2 = b_StoreInfo b ∧ b_distributeAction b2 = b_distributeAction b ∧
    b_promoteAction b2 = mkPromote None 0 ∧ b_tracker b2 = tk ∧ b_currentNodeID b2 = b_currentNodeID b ∧
    b_currentItemIndex b2 = b_currentItemIndex b ∧ b_currentItem b2 = b_currentItem b ∧
    (f2 ≠ 0)%N ∧ root_id t' = root_id tr ∧ represents sl h2 r2 f2 (cells NilUUID t') ∧
    flat t' = l1 ++ item :: l2.
Proof.
  intros (b' & h' & r' & f' & t' & l1 & l2 & -> & Hb & (Hsi & Htk & Hc1 & Hc2 & Hc3 & Hda) & Hf & Hfl & Hl1 & Hl2 & Hcase)
    Hfuel Hf0 Htr Hd Hp Hadd.
  destruct fuel as [|fuel]; [lia|]. rewrite <- Htk in Hadd.
  eexists _. unfold finish_add.
  set (b1 := upd_tracker (λ _, tk) b').
  assert (Hstep : ∀ b2 h2 r2 f2, promote zeroK (S fuel) (st b1 h' r' f') = (Ret (), st b2 h2 r2 f2) →
    (_ ← track tk_Add item; distribute zeroK (S fuel);; promote zeroK (S fuel);; incCount 1;; mret true : B bool)
      (st b' h' r' f') = (Ret true, counted (st b2 h2 r2 f2))).
  { intros b2 h2 r2 f2 Hrun. rewrite (bind_Ret _ _ _ _ _ (run_track_ok _ _ _ _ _ _ _ Hadd)). cbv beta.
    erewrite bind_Ret by (apply run_distribute_idle; cbn [upd_tracker b_distributeAction]; by rewrite Hda).
    cbv beta. rewrite (bind_Ret _ _ _ _ _ Hrun). done. }
  destruct Hcase as [(Hp' & Hrep & Hfl' & Hroot)|(fr & k & t1 & x & t2 & Hpen & Hk & Hlk & Hroot & Hrep & Hfl')].
  - exists b1, h', r', f', t', l1, l2. split; [done|]. split.
    { apply Hstep, promote_done. cbn [b1 upd_tracker b_promoteAction]. congruence. }
    cbn [b1 upd_tracker b_StoreInfo b_distributeAction b_promoteAction b_tracker b_currentNodeID
         b_currentItemIndex b_currentItem].
    split_and!; try done; try congruence. lia.
  - destruct (run_promote zeroK hf Hhf k (S fuel) b1 h' r' f' fr t1 x t2)
      as (b2 & h2 & r2 & f2 & t2' & Hrun & Hrep2 & Hfl2 & Hroot2 & Hb2 & (Hs1 & Hs2 & Hs3 & Hs4 & Hs5 & Hs6) & Hf2 & Hp2);
      try done; [lia|simpl in Hlk; lia|].
    exists b2, h2, r2, f2, t2', l1, l2. split; [done|]. split; [by apply Hstep|].
    cbn [b1 upd_tracker b_StoreInfo b_distributeAction b_promoteAction b_tracker b_currentNodeID
         b_currentItemIndex b_currentItem] in *.
    split_and!; try done; try congruence. lia.
Qed.

Definition new_item b (key : K) (value : V) : Item := mkItem (b_fresh b) key (Some value) 0 false false.

Lemma Add_unfold fuel b key value :
  Add cmp zeroK fuel key value b =
  (root ← getRootNode zeroK; result ← add cmp zeroK fuel root (new_item b key value);
   if negb result then mret false else finish_add fuel (new_item b key value))
    (st b (b_heap b) (b_repo b) (N.succ (b_fresh b))).
Proof. by destruct b. Qed.

Definition with_root b (p : UUID) : Btree := upd_StoreInfo (λ s, si_set_Root s p) b.

Lemma with_root_same b : with_root b (si_RootNodeID (b_StoreInfo b)) = b.
Proof. unfold with_root, upd_StoreInfo, si_set_Root. destruct b as [[]]. done. Qed.

(** The root of a tree without items is made, or kept from before. *)
Lemma run_root_empty b h r f : getSlotLength b = sl → (f ≠ 0)%N → si_Count (b_StoreInfo b) = 0%Z →
  si_RootNodeID (b_StoreInfo b) = NilUUID ∨
    (empty_root sl h f (si_RootNodeID (b_StoreInfo b)) ∧ si_RootNodeID (b_StoreInfo b) ∈ r) →
  ∃ h1 f1 p, getRootNode zeroK (st b h r f) = (Ret p, st (with_root b p) h1 r f1) ∧
    empty_root sl h1 f1 p ∧ (f ≤ f1)%N.
Proof.
  intros Hsl Hf Hc Hroot. unfold getRootNode. sx. cbv zeta. rewrite Hc, (bool_decide_true (0 = 0)%Z) by done.
  rewrite andb_true_r.
  destruct Hroot as [Hroot|[He Hin]].
  - rewrite Hroot. change (IsNil NilUUID) with true. cbn [negb].
    erewrite bind_Ret by reflexivity. cbv beta iota. sx.
    erewrite bind_Ret by reflexivity. exists (<[f := blank zeroK (getSlotLength b) f NilUUID]> h), (N.succ f), f.
    split; [done|]. split; [|lia]. split; [done|]. split; [lia|]. eexists. split; [apply lookup_insert_eq|].
    unfold blank. cbn [n_ID n_ParentID n_Slots n_Count n_ChildrenIDs n_indexOfNode].
    rewrite length_replicate, Hsl. split_and!; try done; lia.
  - pose proof He as (Hnil & Hlt & n & Hp & Hid & Hpar & Hlen & Hcnt & Hcs & Hix).
    unfold IsNil. rewrite bool_decide_false by done. cbn [negb].
    erewrite bind_Ret by (apply (run_getNode_st zeroK b h r f _ n); split_and!; [done|done|by rewrite Hsl|];
      intros cs; by rewrite Hcs).
    cbv beta iota. exists h, f, (si_RootNodeID (b_StoreInfo b)). rewrite with_root_same. done.
Qed.

Lemma same_heap b : same_tree b (st b (b_heap b) (b_repo b) (N.succ (b_fresh b))).
Proof. by destruct b. Qed.

Lemma Add_first fuel b key value y tk : tree_inv b [] → 2 < fuel →
  tk_Add (new_item b key value) (b_tracker b) = (Ok y, tk) →
  ∃ b', Add cmp zeroK fuel key value b = (Ret true, b') ∧ b_tracker b' = tk ∧
    b_currentNodeID b' = b_currentNodeID b ∧ b_currentItemIndex b' = b_currentItemIndex b ∧
    b_currentItem b' = b_currentItem b ∧
    si_IsUnique (b_StoreInfo b') = si_IsUnique (b_StoreInfo b) ∧
    tree_inv b' [new_item b key value].
Proof.
  intros Hinv Hfuel Hadd. pose proof Hinv as [Hb Hllb Hv Hf Hd Hp Hs Hdi Hc Hn]. pose proof Hb as (Hsl & Hts & Htc).
  destruct Hn as [[_ Hn]|(t & Ht & _ & Hfl & Hrep)].
  2:{ pose proof (height_items _ _ _ _ _ (rp_cells _ _ _ _ _ Hrep)) as Hh. rewrite Hfl in Hh.
      destruct t; [done|]. simpl in Hh. lia. }
  destruct (run_root_empty b (b_heap b) (b_repo b) (N.succ (b_fresh b)) Hsl ltac:(lia) Hc)
    as (h1 & f1 & p & Hroot & He & Hf1).
  { destruct Hn as [Hn|[(He1 & He2 & He3) Hin]]; [by left|right]. split; [|done]. split; [done|]. split; [lia|done]. }
  set (item := new_item b key value).
  destruct fuel as [|fuel]; [lia|].
  destruct (run_add_empty fuel (with_root b p) h1 (b_repo b) f1 p item) as (h2 & r2 & Hrun & Hrep); [done..|].
  assert (Hg : grown (with_root b p) (b_fresh (with_root b p)) (GNode p [] []) item (si_IsUnique (b_StoreInfo b))
    (add cmp zeroK (S fuel) p item (st (with_root b p) h1 (b_repo b) f1))).
  { exists (with_root b p), h2, r2, f1, (GNode p [item] []), [], []. split; [done|]. split; [done|]. split; [done|].
    split; [cbn [with_root upd_StoreInfo b_fresh]; lia|]. split; [done|].
    split; [by intros ? ?%not_elem_of_nil|]. split; [by intros ? ?%not_elem_of_nil|]. left. done. }
  destruct (run_finish_add (with_root b p) (S fuel) (GNode p [] []) item _ y tk _ Hg)
    as (s & b2 & h3 & r3 & f3 & t' & l1 & l2 & Hres & Hfin & Hfl & Hl1 & Hl2 & Hb2 & Hsi2 & Hda2 & Hpa2 & Htk2 & Hc1 & Hc2 & Hc3 & Hf3 & Hroot' & Hrep' & Hfl').
  { simpl. lia. } { done. } { done. } { done. } { done. } { done. }
  destruct l1; [|done]. destruct l2; [|done].
  exists (counted (st b2 h3 r3 f3)). split.
  { rewrite Add_unfold. rewrite (bind_Ret _ _ _ _ _ Hroot). cbv beta. rewrite (bind_Ret _ _ _ _ _ Hres). exact Hfin. }
  split; [done|]. split; [done|]. split; [done|]. split; [done|].
  split; [cbn [counted upd_StoreInfo st b_StoreInfo]; by rewrite Hsi2|].
  apply (inv_grown b b2 h3 r3 f3 t' [] item []); try done.
  - exists p. by rewrite Hsi2.
  - by intros ->.
Qed.

(** What [node.add] does on the root of a tree with items. *)
Lemma run_add_root fuel b l key value : tree_inv b l → l ≠ [] → length l < fuel →
  ∃ tr, tr ≠ GNil ∧ flat tr = l ∧ root_id tr = si_RootNodeID (b_StoreInfo b) ∧ height tr ≤ length l ∧
  let item := new_item b key value in
  let s := st b (b_heap b) (b_repo b) (N.succ (b_fresh b)) in
  getRootNode zeroK s = (Ret (root_id tr), s) ∧ represents sl (b_heap b) (b_repo b) (N.succ (b_fresh b)) (cells NilUUID tr) ∧
  ((si_IsUnique (b_StoreInfo b) = true ∧ (∃ x, x ∈ l ∧ hits cmp key x) ∧
     ∃ p i, add cmp zeroK fuel (root_id tr) item s = (Ret false, set_cursor p i (set_currentItem None s))) ∨
   grown b (b_fresh b) tr item (si_IsUnique (b_StoreInfo b)) (add cmp zeroK fuel (root_id tr) item s)).
Proof.
  intros Hinv Hl Hfuel. pose proof (tree_inv_ok b l Hinv Hl) as Hok.
  pose proof Hinv as [Hb Hllb Hv Hf Hd Hp Hs Hdi Hc Hn]. pose proof Hb as (Hsl & Hts & Htc).
  destruct Hn as [[? _]|(tr & Htr & Hroot & Hfl & Hrep)]; [done|].
  pose proof (height_items _ _ _ _ _ (rp_cells _ _ _ _ _ Hrep)) as Hh. rewrite Hfl in Hh.
  assert (Hrep' : represents sl (b_heap b) (b_repo b) (N.succ (b_fresh b)) (cells NilUUID tr))
    by (eapply represents_ext; [exact Hrep|done|done|lia]).
  exists tr. split; [done|]. split; [done|]. split; [done|]. split; [done|]. cbv zeta.
  split.
  { rewrite Hroot. apply (run_getRootNode cmp zeroK (length l) (st b (b_heap b) (b_repo b) (N.succ (b_fresh b))) l).
    eapply btree_ok_same; [apply same_heap|exact Hok]. }
  split; [done|].
  destruct (run_node_add (si_IsUnique (b_StoreInfo b)) fuel b (b_heap b) (b_repo b) (N.succ (b_fresh b)) tr
    (new_item b key value)) as [(Hu & Hx & Hrun)|Hg]; try done; [lia|by rewrite Hfl|lia|left|right].
  - split; [done|]. split; [by rewrite Hfl in Hx|exact Hrun].
  - destruct Hg as (b' & h' & r' & f' & t' & l1 & l2 & Hres & Hb' & Hsame & Hf' & Hrest).
    exists b', h', r', f', t', l1, l2. split; [done|]. split; [done|]. split; [done|]. split; [lia|done].
Qed.

Lemma grown_not_dup b f tr item res : grown b f tr item true res →
  ¬ ∃ x, x ∈ flat tr ∧ hits cmp (it_Key item) x.
Proof.
  intros (b' & h' & r' & f' & t' & l1 & l2 & _ & _ & _ & _ & -> & Hl1 & Hl2 & _) (x & Hx & Hh).
  unfold hits in Hh. apply elem_of_app in Hx as [Hx|Hx].
  - specialize (Hl1 x Hx). lia.
  - destruct (Hl2 x Hx) as [_ Hne]. by specialize (Hne eq_refl).
Qed.

Definition duplicate b l (key : K) : Prop :=
  si_IsUnique (b_StoreInfo b) = true ∧ ∃ x, x ∈ l ∧ hits cmp key x.

Definition same_cursor b b' : Prop :=
  b_currentNodeID b' = b_currentNodeID b ∧ b_currentItemIndex b' = b_currentItemIndex b ∧
  b_currentItem b' = b_currentItem b.

Lemma Add_dup fuel b l key value : tree_inv b l → length l < fuel → duplicate b l key →
  ∃ b', Add cmp zeroK fuel key value b = (Ret false, b') ∧ tree_inv b' l ∧ b_tracker b' = b_tracker b ∧
    b_StoreInfo b' = b_StoreInfo b.
Proof.
  intros Hinv Hfuel [Hu Hx]. assert (Hl : l ≠ []).
  { destruct Hx as (x & Hx & _). intros ->. by apply not_elem_of_nil in Hx. }
  destruct (run_add_root fuel b l key value Hinv Hl Hfuel)
    as (tr & Htr & Hfl & Hroot & Hh & Hget & Hrep & [(_ & _ & p & i & Hrun)|Hg]).
  2:{ rewrite Hu in Hg. apply grown_not_dup in Hg. rewrite Hfl in Hg. done. }
  eexists. split.
  { rewrite Add_unfold. rewrite (bind_Ret _ _ _ _ _ Hget). cbv beta. by rewrite (bind_Ret _ _ _ _ _ Hrun). }
  split; [|done]. destruct Hinv as [Hb Hllb Hv Hf Hd Hp Hs Hdi Hc Hn].
  constructor; try done.
  - cbn [set_cursor set_currentItem st b_fresh]. lia.
  - right. exists tr. done.
Qed.

Lemma Add_more fuel b l key value y tk : tree_inv b l → l ≠ [] → S (length l) < fuel →
  ¬ duplicate b l key → (Z.of_nat (length l) + 1 < 2 ^ 63)%Z →
  tk_Add (new_item b key value) (b_tracker b) = (Ok y, tk) →
  ∃ b' l1 l2, Add cmp zeroK fuel key value b = (Ret true, b') ∧ b_tracker b' = tk ∧ same_cursor b b' ∧
    si_IsUnique (b_StoreInfo b') = si_IsUnique (b_StoreInfo b) ∧
    l = l1 ++ l2 ∧ smaller cmp key l1 ∧ not_smaller cmp (si_IsUnique (b_StoreInfo b)) key l2 ∧
    tree_inv b' (l1 ++ new_item b key value :: l2).
Proof.
  intros Hinv Hl Hfuel Hdup Hbound Hadd.
  destruct (run_add_root fuel b l key value Hinv Hl ltac:(lia))
    as (tr & Htr & Hfl & Hroot & Hh & Hget & Hrep & [(Hu & Hx & _)|Hg]); [by destruct Hdup|].
  pose proof Hinv as [Hb Hllb Hv Hf Hd Hp Hs Hdi Hc Hn].
  destruct (run_finish_add b fuel tr (new_item b key value) _ y tk _ Hg)
    as (s & b2 & h3 & r3 & f3 & t' & l1 & l2 & Hres & Hfin & Hfl2 & Hl1 & Hl2 & Hb2 & Hsi2 & Hda2 & Hpa2 & Htk2 & Hc1 & Hc2 & Hc3 & Hf3 & Hroot' & Hrep' & Hfl');
    [lia|done..|].
  rewrite Hfl in Hfl2. subst l. exists (counted (st b2 h3 r3 f3)), l1, l2. split.
  { rewrite Add_unfold. rewrite (bind_Ret _ _ _ _ _ Hget). cbv beta. rewrite (bind_Ret _ _ _ _ _ Hres). exact Hfin. }
  split; [done|]. split; [done|]. split; [cbn [counted upd_StoreInfo st b_StoreInfo]; by rewrite Hsi2|].
  split; [by rewrite <- Hfl2|]. split; [done|]. split; [done|].
  apply (inv_grown b b2 h3 r3 f3 t' l1 _ l2); try done.
  - by rewrite <- Hfl2.
  - exists (si_RootNodeID (b_StoreInfo b)). rewrite Hsi2, Hroot'. split; [|done].
    destruct (b_StoreInfo b). done.
  - intros ->. cbn [flat] in Hfl'. by destruct l1.
  - by rewrite <- Hfl2.
Qed.

Lemma finish_fails fuel item s e tk : tk_Add item (b_tracker s) = (Err e, tk) →
  ∃ b', finish_add fuel item s = (Fail (ErrTracker e), b').
Proof. intros H. eexists. unfold finish_add. erewrite bind_Fail; [done|]. unfold track. by rewrite H. Qed.

Lemma Add_error fuel b l key value e tk : tree_inv b l → S (length l) < fuel →
  ¬ duplicate b l key → tk_Add (new_item b key value) (b_tracker b) = (Err e, tk) →
  ∃ b', Add cmp zeroK fuel key value b = (Fail (ErrTracker e), b').
Proof.
  intros Hinv Hfuel Hdup Hadd. setoid_rewrite Add_unfold. destruct l as [|x0 l0] eqn:El.
  - pose proof Hinv as [Hb _ _ Hf _ _ _ _ Hc Hn]. destruct fuel as [|fuel]; [lia|].
    destruct Hn as [[_ Hn]|(t & Ht & _ & Hfl & Hrep)].
    2:{ pose proof (height_items _ _ _ _ _ (rp_cells _ _ _ _ _ Hrep)) as Hh. rewrite Hfl in Hh.
        destruct t; [done|]. simpl in Hh. lia. }
    destruct (run_root_empty b (b_heap b) (b_repo b) (N.succ (b_fresh b)) (proj1 Hb) ltac:(lia) Hc)
      as (h1 & f1 & p & Hroot & He & Hf1).
    { destruct Hn as [Hn|[(He1 & He2 & He3) Hin]]; [by left|right]. split; [|done]. split; [done|]. split; [lia|done]. }
    destruct (run_add_empty fuel (with_root b p) h1 (b_repo b) f1 p (new_item b key value)) as (h2 & r2 & Hrun & _);
      [done..|].
    rewrite (bind_Ret _ _ _ _ _ Hroot). cbv beta. rewrite (bind_Ret _ _ _ _ _ Hrun). cbv beta.
    by eapply finish_fails.
  - destruct (run_add_root fuel b (x0 :: l0) key value Hinv ltac:(done) ltac:(lia))
      as (tr & Htr & Hfl & Hroot & Hh & Hget & Hrep & [(Hu & Hx & _)|Hg]); [by destruct Hdup|].
    destruct Hg as (b' & h' & r' & f' & t' & l1 & l2 & Hres & _ & (_ & Htk & _) & _).
    rewrite (bind_Ret _ _ _ _ _ Hget). cbv beta. rewrite (bind_Ret _ _ _ _ _ Hres). cbv beta.
    eapply finish_fails. cbn [st b_tracker]. rewrite Htk. exact Hadd.
Qed.
End add.
