(* ===== verification/BtreeProps.v ===== *)
(** * The theorems on the B-tree *)

From S2P Require Import Prelude Handle BtreeModel BtreeOps BtreeSpec.

Section props.
Context {T K V : Type} `{!Tracker T K V}.
Context (cmp : K → K → Z) `{!Comparer cmp} (zeroK : K).
Local Abbreviation Btree := (Btree T K V).
Local Abbreviation Node := (Node K V).
Local Abbreviation Item := (Item K V).
Local Abbreviation B := (M Btree (btree_error tracker_error)).

Lemma located_slot (b : Btree) p pid n i : node_ok b p pid n → (0 ≤ i < n_Count n)%Z →
  ∃ x, located b p i x ∧ x ∈ occupied n.
Proof.
  intros Hn Hi. pose proof (length_occupied _ _ _ _ Hn) as Hlo.
  destruct (lookup_lt_is_Some_2 (occupied n) (Z.to_nat i)) as [x Hx]; [lia|].
  exists x. split; [|by eapply list_elem_of_lookup_2].
  replace i with (Z.of_nat (Z.to_nat i)) by lia. by eapply located_here.
Qed.

(** After [find] the cursor is at an item of the tree: one with the key if there
    is any, a neighbour of its place if there is none. *)
Lemma run_find d fuel (b : Btree) pid p l key first :
  is_tree d b pid p l → sorted cmp l → d ≤ fuel → values_kept b →
  ∃ r id i x, find cmp zeroK fuel p key first b =
      (Ret r, set_cursor id i (set_currentItem None b)) ∧
    located b id i x ∧ x ∈ l ∧ (r = true → chosen cmp first key l x) ∧
    (r = true ↔ ∃ y, y ∈ l ∧ hits cmp key y).
Proof.
  intros Ht Hs Hf Hv.
  destruct (find_loop_spec cmp zeroK b key first d fuel pid p l None Ht Hs Hf) as (res & Hrun & Hpost).
  unfold find. rewrite (bind_Ret _ _ _ _ _ Hrun). destruct res as [[q index] found].
  destruct Hpost as [(id & i & x & Hfound & Hloc & Hc)|(Hno & Hfound & q' & pid' & n & Hq & Hn & Hi & Hin)];
    simpl in *; subst.
  - exists true, id, i, x. rewrite (bind_Ret _ _ _ _ _ (run_setCurrentItemID b id i Hv)).
    split; [done|]. split; [done|]. pose proof Hc as (Hxl & Hh & _).
    split; [done|]. split; [done|]. split; [|done]. eauto.
  - cbn [settle]. erewrite bind_Ret by reflexivity. cbv beta.
    rewrite (bind_Ret _ _ _ _ _ (run_deref b q' n (no_heap _ _ _ _ Hn))). cbv beta zeta.
    pose proof (no_count _ _ _ _ Hn) as Hcnt.
    set (index' := if decide (index = n_Count n) then (index - 1)%Z else index).
    assert (Hi' : (0 ≤ index' < n_Count n)%Z) by (unfold index'; case_decide; lia).
    rewrite decide_True by done. rewrite (no_id _ _ _ _ Hn).
    rewrite (bind_Ret _ _ _ _ _ (run_setCurrentItemID b q' index' Hv)).
    destruct (located_slot b q' pid' n index' Hn Hi') as (x & Hloc & Hx).
    exists false, q', index', x. split; [done|]. split; [done|]. split; [by apply Hin|].
    split; [done|]. split; [done|]. intros (y & Hy & Hh). by destruct (Hno y Hy).
Qed.

Lemma selected_located (b : Btree) x : located b (b_currentNodeID b) (b_currentItemIndex b) x →
  isCurrentItemSelected b = true.
Proof.
  intros (n & _ & _ & Hnil & Hi & _). unfold isCurrentItemSelected, IsNil.
  rewrite bool_decide_false by done. simpl. apply bool_decide_true. lia.
Qed.

(** The lookup from the root, once the shortcut by the cursor did not apply. *)
Lemma run_search d fuel (b : Btree) l key first : btree_ok cmp d b l → d ≤ fuel →
  ∃ r b', (root ← getRootNode zeroK; r ← find cmp zeroK fuel root key first;
           _ ← getCurrentItem; mret r) b = (Ret r, b') ∧
    same_tree b b' ∧ cursor_ok b' l ∧
    (r = true ↔ ∃ x, x ∈ l ∧ hits cmp key x) ∧
    (r = true → ∃ x, at_item b' l x ∧ chosen cmp first key l x).
Proof.
  intros Hok Hf. pose proof Hok as [Ht Hs _ Hv].
  rewrite (bind_Ret _ _ _ _ _ (run_getRootNode cmp zeroK d b l Hok)). cbv beta.
  destruct (run_find d fuel b _ _ l key first Ht Hs Hf Hv) as (r & id & i & x & Hrun & Hloc & Hx & Hc & Hr).
  rewrite (bind_Ret _ _ _ _ _ Hrun). cbv beta.
  set (b1 := set_cursor id i (set_currentItem None b)).
  assert (Hsame : same_tree b b1) by by repeat split.
  destruct (run_getCurrentItem b1 x) as (b2 & Hrun2 & Hsame2 & Hid & Hidx & Hcur).
  { by eapply located_same. }
  { by left. }
  rewrite (bind_Ret _ _ _ _ _ Hrun2). exists r, b2. split; [done|].
  assert (Hs2 : same_tree b b2).
  { destruct Hsame as (? & ? & ?), Hsame2 as (? & ? & ?). repeat split; congruence. }
  assert (Hat : at_item b2 l x).
  { split; [|done]. rewrite Hid, Hidx. by eapply (located_same b). }
  split; [done|]. split. { right. split; [by exists x|]. right. by rewrite Hcur, Hid, Hidx. }
  split; [done|]. intros Hrt. exists x. split; [done|]. by apply Hc.
Qed.

(** [Find] on a tree that holds [l], with the cursor at an item or nowhere. *)
Lemma run_Find d fuel (b : Btree) l key first :
  btree_ok cmp d b l → cursor_ok b l → d ≤ fuel →
  ∃ r b', Find cmp zeroK fuel key first b = (Ret r, b') ∧
    same_tree b b' ∧ btree_ok cmp d b' l ∧ cursor_ok b' l ∧
    (r = true ↔ ∃ x, x ∈ l ∧ hits cmp key x) ∧
    (r = true → ∃ x, at_item b' l x ∧ chosen cmp first key l x).
Proof.
  intros Hok Hcur Hf.
  assert (Hc0 : si_Count (b_StoreInfo b) ≠ 0%Z).
  { assert (l ≠ []) by (eapply tree_nonempty, (bo_tree _ _ _ _ Hok); done).
    rewrite (bo_count _ _ _ _ Hok). destruct l; simpl; [done|lia]. }
  assert (Hfin : ∀ b0, same_tree b b0 → ∃ r b',
    (root ← getRootNode zeroK; r ← find cmp zeroK fuel root key first;
     _ ← getCurrentItem; mret r) b0 = (Ret r, b') ∧ same_tree b b' ∧ btree_ok cmp d b' l ∧
    cursor_ok b' l ∧ (r = true ↔ ∃ x, x ∈ l ∧ hits cmp key x) ∧
    (r = true → ∃ x, at_item b' l x ∧ chosen cmp first key l x)).
  { intros b0 Hb0. destruct (run_search d fuel b0 l key first) as (r & b' & H1 & H2 & H3);
      [by eapply btree_ok_same|done|].
    assert (Hb' : same_tree b b').
    { destruct Hb0 as (? & ? & ?), H2 as (? & ? & ?). repeat split; congruence. }
    exists r, b'. split; [done|]. split; [done|]. split; [by eapply btree_ok_same|done]. }
  unfold Find. erewrite bind_Ret by reflexivity. cbv beta. rewrite decide_False by done.
  erewrite bind_Ret by reflexivity. cbv beta.
  destruct Hcur as [Hsel|[[x [Hloc Hx]] Hci]].
  { rewrite Hsel. erewrite bind_Ret by reflexivity. cbv beta iota. by apply Hfin. }
  rewrite (selected_located b x Hloc).
  destruct (run_getCurrentItem b x Hloc Hci) as (b1 & Hrun & Hsame & Hid & Hidx & Hcur1).
  assert (Hloc1 : located b1 (b_currentNodeID b1) (b_currentItemIndex b1) x).
  { rewrite Hid, Hidx. by eapply located_same. }
  destruct first.
  { erewrite bind_Ret by (rewrite (bind_Ret _ _ _ _ _ Hrun); reflexivity). cbv beta iota.
    by apply Hfin. }
  assert (Hder : deref_item (RefSlot (b_currentNodeID b) (b_currentItemIndex b)) b1 =
                 (Ret x, b1) :> outcome (btree_error tracker_error) _ * _).
  { destruct Hloc1 as (n & Hh & _ & _ & _ & Hs). rewrite Hid, Hidx in *.
    cbn [deref_item]. rewrite (bind_Ret _ _ _ _ _ (run_deref b1 _ n Hh)).
    unfold slot. by rewrite Hs. }
  erewrite bind_Ret.
  2:{ rewrite (bind_Ret _ _ _ _ _ Hrun). cbv beta. erewrite bind_Ret by reflexivity. cbv beta.
      rewrite (bind_Ret _ _ _ _ _ Hder). reflexivity. }
  cbv beta. destruct (decide (cmp (it_Key x) key = 0%Z)) as [Hh|Hh].
  - rewrite bool_decide_true by done. exists true, b1. split; [done|]. split; [done|].
    split; [by eapply btree_ok_same|].
    assert (Hat : at_item b1 l x) by done.
    split. { right. split; [by exists x|]. right. by rewrite Hcur1, Hid, Hidx. }
    split; [split; [eauto|done]|]. intros _. exists x. split; [done|].
    split; [done|]. split; [done|discriminate].
  - rewrite bool_decide_false by done. by apply Hfin.
Qed.

(** C36: On a tree that holds the items [l] in order, whose cursor selects nothing or one of them, with enough rounds
    for its height, [Find] returns without a panic, answers whether an item of [l] has the key, leaves the cursor at
    such an item (at the first of them when [firstItemWithKey] is asked for), and changes nothing of the tree; when
    there is none the cursor is at some item of the tree. *)
Theorem Find_exact d fuel (b : Btree) l key first :
  btree_ok cmp d b l → cursor_ok b l → d ≤ fuel →
  ∃ r b', Find cmp zeroK fuel key first b = (Ret r, b') ∧
    same_tree b b' ∧ btree_ok cmp d b' l ∧ cursor_ok b' l ∧
    (r = true ↔ ∃ x, x ∈ l ∧ hits cmp key x) ∧
    (r = true → ∃ x, at_item b' l x ∧ chosen cmp first key l x).
Proof. apply run_Find. Qed.

(** ** The ends of the tree *)

Lemma run_moveToFirst (b : Btree) : values_kept b → ∀ d fuel pid id l,
  is_tree d b pid id l → d ≤ fuel →
  ∃ id' i x, moveToFirst zeroK fuel id b = (Ret true, set_cursor id' i (set_currentItem None b)) ∧
    located b id' i x ∧ head l = Some x.
Proof.
  intros Hv. induction d as [|d IH]; intros fuel pid id l Ht Hf; [done|].
  destruct fuel as [|fuel]; [lia|].
  apply tree_unfold in Ht as (n & ls & Hn & Hl & -> & Hc).
  pose proof (no_count _ _ _ _ Hn) as Hcnt. pose proof (length_occupied _ _ _ _ Hn) as Hlo.
  destruct (lookup_lt_is_Some_2 (occupied n) 0) as [x Hx]; [lia|].
  destruct (lookup_lt_is_Some_2 ls 0) as [l0 Hl0]; [lia|].
  cbn [moveToFirst]. rewrite (bind_Ret _ _ _ _ _ (run_deref b id n (no_heap _ _ _ _ Hn))). cbv beta.
  assert (Hstop : l0 = [] →
    ∃ id' i y, (setCurrentItemID (n_ID n) 0;; mret true : B bool) b =
        (Ret true, set_cursor id' i (set_currentItem None b)) ∧
      located b id' i y ∧ head (interleave ls (occupied n)) = Some y).
  { intros ->. exists id, 0%Z, x. rewrite (no_id _ _ _ _ Hn).
    rewrite (bind_Ret _ _ _ _ _ (run_setCurrentItemID b id 0 Hv)). split; [done|].
    split; [exact (located_here b id pid n 0 x Hn Hx)|].
    destruct ls as [|l1 ls]; [done|]. simplify_eq/=. by destruct (occupied n); simplify_eq/=. }
  destruct (n_ChildrenIDs n) as [cs|] eqn:Ec; [|by apply Hstop, (Hc 0)].
  pose proof (no_children _ _ _ _ Hn cs Ec) as Hlc. pose proof (getSlotLength_pos b) as Hsl.
  destruct (lookup_lt_is_Some_2 cs 0) as [c Hc0]; [lia|].
  erewrite bind_Ret by (change (zlookup cs 0) with (cs !! 0); rewrite Hc0; reflexivity). cbv beta.
  destruct (Hc 0 c l0 Hc0 Hl0) as [[-> ->]|[Hne Hsub]].
  { rewrite decide_True by done. by apply Hstop. }
  rewrite decide_False by done. destruct d as [|d]; [done|].
  destruct (tree_unfold d b id c l0 Hsub) as (cn & _ & Hcn & _).
  rewrite (bind_Ret _ _ _ _ _ (run_getNode zeroK b c id cn Hcn)). cbv beta iota.
  destruct (IH fuel id c l0 Hsub ltac:(lia)) as (id' & i & y & Hrun & Hloc & Hy).
  exists id', i, y. split; [done|]. split; [done|].
  destruct ls as [|l1 ls]; [done|]. simplify_eq/=.
  destruct l0; [done|]. by destruct (occupied n).
Qed.

Lemma last_app_ne {A} (l1 l2 : list A) : l2 ≠ [] → last (l1 ++ l2) = last l2.
Proof. intros H. destruct (exists_last H) as (l & x & ->). by rewrite app_assoc, !last_snoc. Qed.

Lemma run_moveToLast (b : Btree) : values_kept b → ∀ d fuel pid id l,
  is_tree d b pid id l → d ≤ fuel →
  ∃ id' i x, moveToLast zeroK fuel id b = (Ret true, set_cursor id' i (set_currentItem None b)) ∧
    located b id' i x ∧ last l = Some x.
Proof.
  intros Hv. induction d as [|d IH]; intros fuel pid id l Ht Hf; [done|].
  destruct fuel as [|fuel]; [lia|].
  apply tree_unfold in Ht as (n & ls & Hn & Hl & -> & Hc).
  pose proof (no_count _ _ _ _ Hn) as Hcnt. pose proof (length_occupied _ _ _ _ Hn) as Hlo.
  set (m := length (occupied n)) in *.
  destruct (lookup_lt_is_Some_2 (occupied n) (m - 1)) as [x Hx]; [lia|].
  destruct (lookup_lt_is_Some_2 ls m) as [li Hli]; [lia|].
  pose proof (interleave_around ls (occupied n) Hl m li Hli) as Hia.
  assert (Hafter : after ls (occupied n) m = []).
  { unfold after, m. rewrite (drop_ge (occupied n)) by lia. done. }
  rewrite Hafter, app_nil_r in Hia.
  cbn [moveToLast]. rewrite (bind_Ret _ _ _ _ _ (run_deref b id n (no_heap _ _ _ _ Hn))).
  cbv beta zeta.
  assert (Hstop : li = [] →
    ∃ id' i y, (setCurrentItemID (n_ID n) (n_Count n - 1);;
                mret (bool_decide (n_ID n ≠ NilUUID)) : B bool) b =
        (Ret true, set_cursor id' i (set_currentItem None b)) ∧
      located b id' i y ∧ last (interleave ls (occupied n)) = Some y).
  { intros ->. exists id, (Z.of_nat (m - 1)), x. rewrite (no_id _ _ _ _ Hn).
    replace (n_Count n - 1)%Z with (Z.of_nat (m - 1)) by lia.
    rewrite (bind_Ret _ _ _ _ _ (run_setCurrentItemID b id _ Hv)).
    rewrite bool_decide_true by apply (no_nil _ _ _ _ Hn). split; [done|].
    split; [exact (located_here b id pid n (m - 1) x Hn Hx)|].
    rewrite Hia, app_nil_r. unfold before.
    destruct (lookup_lt_is_Some_2 ls (m - 1)) as [l1 Hl1]; [lia|].
    replace m with (S (m - 1)) by lia.
    rewrite (take_S_r ls (m - 1) l1 Hl1), (take_S_r (occupied n) (m - 1) x Hx).
    rewrite zip_with_app by (rewrite !length_take; lia).
    rewrite concat_app. simpl. rewrite app_nil_r, app_assoc. apply last_snoc. }
  destruct (n_ChildrenIDs n) as [cs|] eqn:Ec; [|by apply Hstop, (Hc m)].
  pose proof (no_children _ _ _ _ Hn cs Ec) as Hlc. pose proof (getSlotLength_pos b) as Hsl.
  destruct (lookup_lt_is_Some_2 cs m) as [c Hcm]; [lia|].
  erewrite bind_Ret.
  2:{ replace (n_Count n) with (Z.of_nat m) by lia. rewrite (zlookup_nat cs m), Hcm. reflexivity. }
  cbv beta. destruct (Hc m c li Hcm Hli) as [[-> ->]|[Hne Hsub]].
  { rewrite decide_True by done. by apply Hstop. }
  rewrite decide_False by done. destruct d as [|d]; [done|].
  destruct (tree_unfold d b id c li Hsub) as (cn & _ & Hcn & _).
  rewrite (bind_Ret _ _ _ _ _ (run_getNode zeroK b c id cn Hcn)). cbv beta iota.
  destruct (IH fuel id c li Hsub ltac:(lia)) as (id' & i & y & Hrun & Hloc & Hy).
  exists id', i, y. split; [done|]. split; [done|]. rewrite Hia, last_app_ne; [done|].
  intros ->. done.
Qed.

(** A move of the cursor from the root that ends at an item. *)
Lemma run_end d (b : Btree) l (move : UUID → B bool) x :
  btree_ok cmp d b l → x ∈ l →
  (∃ id i, move (si_RootNodeID (b_StoreInfo b)) b =
     (Ret true, set_cursor id i (set_currentItem None b)) ∧ located b id i x) →
  ∃ b', (s ← gets b_StoreInfo;
         if decide (si_Count s = 0%Z) then mret false
         else root ← getRootNode zeroK; r ← move root; _ ← getCurrentItem; mret r) b =
        (Ret true, b') ∧ same_tree b b' ∧ btree_ok cmp d b' l ∧ at_item b' l x ∧ cursor_ok b' l.
Proof.
  intros Hok Hx (id & i & Hrun & Hloc).
  assert (Hc0 : si_Count (b_StoreInfo b) ≠ 0%Z).
  { rewrite (bo_count _ _ _ _ Hok). destruct l; [set_solver|simpl; lia]. }
  erewrite bind_Ret by reflexivity. cbv beta. rewrite decide_False by done.
  rewrite (bind_Ret _ _ _ _ _ (run_getRootNode cmp zeroK d b l Hok)). cbv beta.
  rewrite (bind_Ret _ _ _ _ _ Hrun). cbv beta.
  set (b1 := set_cursor id i (set_currentItem None b)).
  destruct (run_getCurrentItem b1 x) as (b2 & Hrun2 & Hsame2 & Hid & Hidx & Hcur).
  { by eapply (located_same b). }
  { by left. }
  rewrite (bind_Ret _ _ _ _ _ Hrun2). exists b2. split; [done|].
  assert (Hs2 : same_tree b b2) by (destruct Hsame2 as (? & ? & ?); by repeat split).
  assert (Hat : at_item b2 l x) by (split; [rewrite Hid, Hidx; by eapply (located_same b)|done]).
  split; [done|]. split; [by eapply btree_ok_same|]. split; [done|].
  right. split; [by exists x|]. right. by rewrite Hcur, Hid, Hidx.
Qed.

(** [First] and [Last] put the cursor at the smallest and at the largest item
    of a non-empty tree, through nil children too, and change nothing of it. *)
Theorem First_Last_exact d fuel (b : Btree) l :
  btree_ok cmp d b l → d ≤ fuel →
  (∃ x b', First zeroK fuel b = (Ret true, b') ∧ head l = Some x ∧
     same_tree b b' ∧ btree_ok cmp d b' l ∧ at_item b' l x ∧ cursor_ok b' l) ∧
  (∃ x b', Last zeroK fuel b = (Ret true, b') ∧ last l = Some x ∧
     same_tree b b' ∧ btree_ok cmp d b' l ∧ at_item b' l x ∧ cursor_ok b' l).
Proof.
  intros Hok Hf. pose proof Hok as [Ht Hs _ Hv]. split.
  - destruct (run_moveToFirst b Hv d fuel _ _ l Ht Hf) as (id & i & x & Hrun & Hloc & Hx).
    destruct (run_end d b l (moveToFirst zeroK fuel) x Hok) as (b' & H1 & H2); [|by exists id, i|].
    { by apply head_Some_elem_of. }
    exists x, b'. by split.
  - destruct (run_moveToLast b Hv d fuel _ _ l Ht Hf) as (id & i & x & Hrun & Hloc & Hx).
    destruct (run_end d b l (moveToLast zeroK fuel) x Hok) as (b' & H1 & H2); [|by exists id, i|].
    { by apply last_Some_elem_of. }
    exists x, b'. by split.
Qed.
End props.
