(* ===== verification/BtreeInsert.v ===== *)
(** * The theorems on insertion *)

From S2P Require Import Prelude Handle BtreeModel BtreeOps BtreeSpec BtreeCells BtreeRun.
From S2P Require Import BtreeSplit BtreeClimb BtreeDescent BtreeAdd BtreeProps.

Section insertion.
Context {T K V : Type} `{!Tracker T K V}.
Context (cmp : K → K → Z) `{!Comparer cmp} (zeroK : K).
Local Abbreviation Btree := (Btree T K V).
Local Abbreviation Item := (Item K V).
Local Abbreviation B := (M Btree (btree_error tracker_error)).
Implicit Types (b : Btree) (x item : Item) (l : list Item).

(** ** The specification: insertion in a sorted list *)

(** Before the first item whose key is not smaller. *)
Fixpoint insert_item item l : list Item :=
  match l with
  | [] => [item]
  | y :: rest => if decide (cmp (it_Key y) (it_Key item) < 0)%Z then y :: insert_item item rest
                 else item :: l
  end.

Lemma insert_item_at u item l1 l2 :
  smaller cmp (it_Key item) l1 → not_smaller cmp u (it_Key item) l2 →
  insert_item item (l1 ++ l2) = l1 ++ item :: l2.
Proof.
  intros Hl1 Hl2. induction l1 as [|y l1 IH]; cbn [app insert_item].
  - destruct l2 as [|z l2]; [done|]. cbn [insert_item]. destruct (Hl2 z ltac:(left)) as [? _].
    by rewrite decide_False by lia.
  - rewrite decide_True by (apply Hl1; left). rewrite IH; [done|]. intros z Hz. apply Hl1. by right.
Qed.

#[local] Instance hits_dec key x : Decision (hits cmp key x).
Proof. unfold hits. apply _. Defined.

#[local] Instance duplicate_dec b l key : Decision (duplicate cmp b l key).
Proof.
  destruct (si_IsUnique (b_StoreInfo b)) eqn:E; [|right; intros [? _]; congruence].
  destruct (decide (Exists (hits cmp key) l)) as [H|H]; [left|right].
  - split; [done|]. by apply Exists_exists.
  - intros [_ Hx]. apply H. by apply Exists_exists.
Defined.

Lemma Add_inserts hf fuel b l key value y tk :
  1 ≤ hf → tree_inv cmp hf b l → length l + 2 < fuel → (Z.of_nat (length l) + 1 < 2 ^ 63)%Z →
  ¬ duplicate cmp b l key → tk_Add (new_item b key value) (b_tracker b) = (Ok y, tk) →
  ∃ b', Add cmp zeroK fuel key value b = (Ret true, b') ∧ b_tracker b' = tk ∧ same_cursor b b' ∧
    si_IsUnique (b_StoreInfo b') = si_IsUnique (b_StoreInfo b) ∧
    tree_inv cmp hf b' (insert_item (new_item b key value) l).
Proof.
  intros Hhf Hinv Hfuel Hbound Hdup Htk. destruct (decide (l = [])) as [->|Hl].
  - destruct (Add_first cmp zeroK hf Hhf fuel b key value y tk) as (b' & H1 & H2 & H3 & H4 & H5 & H6 & H7);
      [done|simpl in Hfuel; lia|done|]. by exists b'.
  - destruct (Add_more cmp zeroK hf Hhf fuel b l key value y tk)
      as (b' & l1 & l2 & H1 & H2 & H3 & H4 & -> & H5 & H6 & H7); try done; [lia|].
    exists b'. split; [done|]. split; [done|]. split; [done|]. split; [done|].
    by rewrite (insert_item_at (si_IsUnique (b_StoreInfo b))).
Qed.

(** C23: [Add] on a tree without leaf load balancing and with an even number of slots that holds the items [l]: with
    unique keys and the key already there it answers false and leaves the tree, the store information and the tracker
    alone; otherwise, when the tracker accepts the new item, it answers true, the tree holds [l] with the item before
    the first one that is not smaller (after any number of splits, up to a new root), and every invariant of the tree
    holds again; an error of the tracker is returned.  It never panics, and as many rounds as there are items, and two
    more, are enough for its loops. *)
Theorem Add_exact hf fuel b l key value :
  1 ≤ hf → tree_inv cmp hf b l → length l + 2 < fuel → (Z.of_nat (length l) + 1 < 2 ^ 63)%Z →
  (duplicate cmp b l key → ∃ b', Add cmp zeroK fuel key value b = (Ret false, b') ∧
     tree_inv cmp hf b' l ∧ b_tracker b' = b_tracker b ∧ b_StoreInfo b' = b_StoreInfo b) ∧
  (¬ duplicate cmp b l key → ∀ y tk, tk_Add (new_item b key value) (b_tracker b) = (Ok y, tk) →
     ∃ b', Add cmp zeroK fuel key value b = (Ret true, b') ∧ b_tracker b' = tk ∧ same_cursor b b' ∧
       tree_inv cmp hf b' (insert_item (new_item b key value) l)) ∧
  (¬ duplicate cmp b l key → ∀ e tk, tk_Add (new_item b key value) (b_tracker b) = (Err e, tk) →
     ∃ b', Add cmp zeroK fuel key value b = (Fail (ErrTracker e), b')).
Proof.
  intros Hhf Hinv Hfuel Hbound. split; [|split].
  - intros Hdup. eapply Add_dup; try done. lia.
  - intros Hdup y tk Htk.
    destruct (Add_inserts hf fuel b l key value y tk) as (b' & H1 & H2 & H3 & _ & H4); try done. by exists b'.
  - intros Hdup e tk Htk. eapply Add_error; try done. lia.
Qed.

(** ** A run of insertions *)

(** What a run of insertions is to do: the answers, and the keys and values in order. *)
Fixpoint spec_insert (kv : K * option V) (l : list (K * option V)) : list (K * option V) :=
  match l with
  | [] => [kv]
  | y :: rest => if decide (cmp y.1 kv.1 < 0)%Z then y :: spec_insert kv rest else kv :: l
  end.

Definition spec_add (u : bool) (kv : K * V) (l : list (K * option V)) : bool * list (K * option V) :=
  if u && existsb (λ y, bool_decide (cmp y.1 kv.1 = 0%Z)) l then (false, l)
  else (true, spec_insert (kv.1, Some kv.2) l).

Fixpoint spec_adds (u : bool) (kvs : list (K * V)) (l : list (K * option V))
    : list bool * list (K * option V) :=
  match kvs with
  | [] => ([], l)
  | kv :: kvs => let '(r, l) := spec_add u kv l in
                 let '(rs, l) := spec_adds u kvs l in (r :: rs, l)
  end.

Fixpoint run_adds (fuel : nat) (kvs : list (K * V)) : B (list bool) :=
  match kvs with
  | [] => mret []
  | (key, value) :: kvs =>
      r ← Add cmp zeroK fuel key value; rs ← run_adds fuel kvs; mret (r :: rs)
  end.

Definition contents l : list (K * option V) := (λ x, (it_Key x, it_Value x)) <$> l.

Lemma spec_add_insert u key value item l :
  it_Key item = key → it_Value item = Some value →
  (u && existsb (λ y, bool_decide (cmp y.1 key = 0%Z)) (contents l) = false) →
  spec_add u (key, value) (contents l) = (true, contents (insert_item item l)).
Proof.
  intros Hk Hv Hd. unfold spec_add. cbn [fst]. rewrite Hd. f_equal. clear Hd.
  induction l as [|y l IH]; cbn [contents fmap list_fmap insert_item spec_insert].
  - by rewrite Hk, Hv.
  - cbn [fst snd]. rewrite Hk. case_decide; cbn [fmap list_fmap]; [by f_equal|by rewrite Hk, Hv].
Qed.

Lemma contents_dup b l key : si_IsUnique (b_StoreInfo b) &&
    existsb (λ y, bool_decide (cmp y.1 key = 0%Z)) (contents l) = true ↔ duplicate cmp b l key.
Proof.
  unfold duplicate. rewrite andb_true_iff, existsb_elem_of. apply and_iff_compat_l.
  unfold contents, hits. split.
  - intros (y & (x & -> & Hx)%list_elem_of_fmap & Hy). exists x. split; [done|].
    by apply bool_decide_eq_true in Hy.
  - intros (x & Hx & Hh). exists (it_Key x, it_Value x). split; [by apply list_elem_of_fmap; exists x|].
    by apply bool_decide_eq_true.
Qed.

Lemma length_insert_item item l : length (insert_item item l) = S (length l).
Proof. induction l as [|y l IH]; cbn [insert_item]; [done|]. case_decide; simpl; lia. Qed.

Lemma run_adds_spec hf fuel u kvs : 1 ≤ hf → (∀ x tk, ∃ y tk', tk_Add x tk = (Ok y, tk')) → ∀ b l,
  tree_inv cmp hf b l → si_IsUnique (b_StoreInfo b) = u →
  length l + length kvs + 2 < fuel → (Z.of_nat (length l + length kvs) + 1 < 2 ^ 63)%Z →
  ∃ b' l', run_adds fuel kvs b = (Ret (spec_adds u kvs (contents l)).1, b') ∧
    tree_inv cmp hf b' l' ∧ contents l' = (spec_adds u kvs (contents l)).2.
Proof.
  intros Hhf Htk. induction kvs as [|[key value] kvs IH]; intros b l Hinv Hu Hfuel Hbound.
  { by exists b, l. }
  cbn [length] in *. cbn [run_adds spec_adds].
  destruct (decide (duplicate cmp b l key)) as [Hdup|Hdup].
  - destruct (Add_dup cmp zeroK hf Hhf fuel b l key value Hinv ltac:(lia) Hdup) as (b1 & H1 & H2 & _ & Hsi).
    rewrite (bind_Ret _ _ _ _ _ H1). cbv beta.
    destruct (IH b1 l H2 ltac:(congruence) ltac:(lia) ltac:(lia)) as (b2 & l2 & H3 & H4 & H5).
    rewrite (bind_Ret _ _ _ _ _ H3). cbv beta. exists b2, l2.
    apply contents_dup in Hdup. rewrite Hu in Hdup.
    replace (spec_add u (key, value) (contents l)) with (false, contents l)
      by (unfold spec_add; cbn [fst]; by rewrite Hdup).
    destruct (spec_adds u kvs (contents l)) as [rs l'] eqn:E.
    cbn [fst snd] in *. done.
  - destruct (Htk (new_item b key value) (b_tracker b)) as (y & tk' & Hy).
    destruct (Add_inserts hf fuel b l key value y tk') as (b1 & H1 & _ & _ & Hsi & H2); try done; [lia|lia|].
    rewrite (bind_Ret _ _ _ _ _ H1). cbv beta.
    destruct (IH b1 _ H2 ltac:(congruence)) as (b2 & l2 & H3 & H4 & H5);
      [rewrite length_insert_item; lia..|].
    rewrite (bind_Ret _ _ _ _ _ H3). cbv beta. exists b2, l2.
    rewrite <- contents_dup, not_true_iff_false, Hu in Hdup.
    rewrite (spec_add_insert u key value (new_item b key value) l eq_refl eq_refl Hdup).
    destruct (spec_adds u kvs _) as [rs l'] eqn:E. cbn [fst snd] in *. done.
Qed.

(** A tree that [New] makes, with a slot length that [NewStoreInfo] gives. *)
Lemma New_inv s tk fresh hf : 1 ≤ hf → (Z.of_nat (2 * hf) ≤ MaxSlotLength)%Z → si_SlotLength s = Z.of_nat (2 * hf) →
  si_LeafLoadBalancing s = false → si_Count s = 0%Z → si_RootNodeID s = NilUUID →
  values_kept (New zeroK s tk fresh : Btree) → fresh ≠ 0%N →
  tree_inv cmp hf (New zeroK s tk fresh : Btree) [].
Proof.
  intros Hhf Hmax Hsl Hllb Hc Hr Hv Hf. constructor; try done.
  - split.
    + unfold getSlotLength. cbn [New b_StoreInfo]. rewrite Hsl. rewrite decide_False, decide_False by lia. done.
    + cbn [New b_tempSlots b_tempChildren]. rewrite !length_replicate, Hsl. lia.
  - constructor.
  - intros _. constructor.
  - left. split; [done|]. by left.
Qed.

(** C22: a run of insertions in a new tree gives the answers and the contents of the
    abstract specification, whatever the keys, the duplicates and the splits. *)
Theorem Adds_refine s tk fresh hf fuel kvs :
  1 ≤ hf → (Z.of_nat (2 * hf) ≤ MaxSlotLength)%Z → si_SlotLength s = Z.of_nat (2 * hf) →
  si_LeafLoadBalancing s = false → si_Count s = 0%Z → si_RootNodeID s = NilUUID →
  values_kept (New zeroK s tk fresh : Btree) → fresh ≠ 0%N →
  (∀ x tk, ∃ y tk', tk_Add x tk = (Ok y, tk')) →
  length kvs + 2 < fuel → (Z.of_nat (length kvs) + 1 < 2 ^ 63)%Z →
  ∃ b' l, run_adds fuel kvs (New zeroK s tk fresh) = (Ret (spec_adds (si_IsUnique s) kvs []).1, b') ∧
    tree_inv cmp hf b' l ∧ contents l = (spec_adds (si_IsUnique s) kvs []).2.
Proof.
  intros Hhf Hmax Hsl Hllb Hc Hr Hv Hf Htk Hfuel Hbound.
  by apply (run_adds_spec hf fuel (si_IsUnique s) kvs Hhf Htk (New zeroK s tk fresh) []); [apply New_inv|..].
Qed.

(** The item that was inserted is the first of its key. *)
Lemma insert_item_first key item x l l1 l2 : it_Key item = key → sorted cmp l →
  insert_item item l = l1 ++ x :: l2 → hits cmp key x → (∀ y, y ∈ l1 → ¬ hits cmp key y) → x = item.
Proof.
  intros Hk Hs. revert l1. induction l as [|z l IH]; intros l1 Hl Hx Hno; cbn [insert_item] in Hl.
  - destruct l1 as [|? [|??]]; simplify_eq/=; done.
  - case_decide as Hd.
    + destruct l1 as [|z' l1]; simplify_eq/=; [unfold hits in Hx; lia|].
      apply (IH ltac:(by inversion Hs) l1); try done. intros y Hy. apply Hno. by right.
    + destruct l1 as [|z' l1]; simplify_eq/=; [done|].
      exfalso. apply (Hno z'); [left|]. unfold hits. apply cmp_refl; apply _.
Qed.

(** After an insertion that succeeds, [Find] for the first item with that key
    finds exactly the item that was added. *)
Theorem Add_then_Find hf fuel b l key value y tk :
  1 ≤ hf → tree_inv cmp hf b l → length l + 2 < fuel → (Z.of_nat (length l) + 1 < 2 ^ 63)%Z →
  isCurrentItemSelected b = false → ¬ duplicate cmp b l key →
  tk_Add (new_item b key value) (b_tracker b) = (Ok y, tk) →
  ∃ b1 b2, Add cmp zeroK fuel key value b = (Ret true, b1) ∧
    Find cmp zeroK fuel key true b1 = (Ret true, b2) ∧
    located b2 (b_currentNodeID b2) (b_currentItemIndex b2) (new_item b key value).
Proof.
  intros Hhf Hinv Hfuel Hbound Hsel Hdup Htk.
  destruct (Add_inserts hf fuel b l key value y tk) as (b1 & H1 & _ & (Hc1 & Hc2 & _) & _ & H2); try done.
  set (item := new_item b key value) in *. set (l' := insert_item item l) in *.
  assert (Hlen : length l' = S (length l)) by apply length_insert_item.
  assert (Hne : l' ≠ []) by (by intros E; rewrite E in Hlen).
  destruct (run_Find cmp zeroK (length l') fuel b1 l' key true) as (r & b2 & H3 & _ & _ & _ & Hr & Hpos).
  { by eapply tree_inv_ok. }
  { left. unfold isCurrentItemSelected in *. by rewrite Hc1, Hc2. }
  { lia. }
  assert (Hhit : hits cmp key item) by (unfold hits; apply cmp_refl; apply _).
  assert (Hin : item ∈ l').
  { subst l'. clear. induction l as [|z l IH]; cbn [insert_item]; [left|].
    case_decide; [by right|left]. }
  assert (r = true) as -> by (apply Hr; eauto).
  exists b1, b2. split; [done|]. split; [done|].
  destruct (Hpos eq_refl) as (x & [Hloc _] & Hx & Hxh & Hfirst).
  replace item with x; [done|].
  destruct (Hfirst eq_refl) as (l1 & l2 & Hl & Hno).
  apply (insert_item_first key item x l l1 l2); try done. by apply (ti_sorted _ _ _ _ Hinv).
Qed.
End insertion.
