(* ===== verification/BtreeWalk.v ===== *)
(** * Walking the tree

    [Next] from any item goes to the item right behind it, and [First] to the first
    one: through the children on the right, past nil children, or up to the first
    ancestor that has an item left.  A position is a node in its context, so the
    items before and behind the cursor are read off the tree. *)

From S2P Require Import Prelude Handle BtreeModel BtreeOps BtreeSpec BtreeCells BtreeRun.
From S2P Require Import BtreeSplit BtreeClimb BtreeDescent BtreeAdd.

Section walk.
Context {T K V : Type} `{!Tracker T K V}.
Context (zeroK : K).
Local Abbreviation Btree := (Btree T K V).
Local Abbreviation Node := (Node K V).
Local Abbreviation Item := (Item K V).
Local Abbreviation B := (M Btree (btree_error tracker_error)).
Implicit Types (b : Btree) (h : gmap UUID Node) (r : gset UUID) (f p q : UUID) (n : Node).
Implicit Types (fr : frame K V) (k : list (frame K V)) (t tr : gtree K V) (x item : Item) (l : list Item).

(** ** Positions *)

(** The slot [i] of node [p] holds [x], with [l1] before it and [l2] behind. *)
Definition position tr p (i : Z) l1 x l2 : Prop :=
  ∃ k xs1 xs2 cs, tr = plug k (GNode p (xs1 ++ x :: xs2) cs) ∧ Forall frame_shape k ∧
    i = Z.of_nat (length xs1) ∧
    ((cs = [] ∧ l1 = left_of k ++ xs1 ∧ l2 = xs2 ++ right_of k) ∨
     (∃ cs1 c1 c2 cs2, cs = cs1 ++ c1 :: c2 :: cs2 ∧ length cs1 = length xs1 ∧ length cs2 = length xs2 ∧
        l1 = left_of k ++ pre cs1 xs1 ++ flat c1 ∧ l2 = flat c2 ++ post xs2 cs2 ++ right_of k)).

Lemma position_flat tr p i l1 x l2 : position tr p i l1 x l2 → flat tr = l1 ++ x :: l2.
Proof.
  intros (k & xs1 & xs2 & cs & -> & Hk & _ & [(-> & -> & ->)|(cs1 & c1 & c2 & cs2 & -> & H1 & H2 & -> & ->)]).
  - rewrite flat_plug by done. cbn [flat]. by rewrite <- !app_assoc.
  - rewrite flat_plug by done. rewrite (flat_inner p xs1 (x :: xs2) cs1 c1 (c2 :: cs2)) by (simpl; lia).
    unfold post. cbn [map zip_with concat]. rewrite <- !app_assoc. cbn [app]. rewrite <- ?app_assoc. done.
Qed.

(** The outcome of a move to the first item of [l2]. *)
Definition moved_right b r f tr l1 l2 (res : outcome (btree_error tracker_error) bool * Btree) : Prop :=
  ∃ h' p i, represents (getSlotLength b) h' r f (cells NilUUID tr) ∧
    match l2 with
    | [] => p = NilUUID ∧ res = (Ret false, set_cursor p i (set_currentItem None (st b h' r f)))
    | x :: l2 => position tr p i l1 x l2 ∧
                 res = (Ret true, set_cursor p i (set_currentItem None (st b h' r f)))
    end.

(** The node in focus. *)
Lemma focus_node w h r f k p (xs : list Item) cs :
  represents w h r f (cells NilUUID (plug k (GNode p xs cs))) →
  ∃ n, h !! p = Some n ∧ node_rep w r (mkCell p (parent_id k) xs (map root_id cs)) n.
Proof.
  intros Hrep. apply focus_lookup in Hrep. cbn [cells app] in Hrep.
  destruct (rep_lookup _ _ _ _ _ _ Hrep (list_elem_of_here _ _)) as (n & Hn & Hr). by exists n.
Qed.

Lemma focus_shape w h r f k p (xs : list Item) cs :
  represents w h r f (cells NilUUID (plug k (GNode p xs cs))) → cs = [] ∨ length cs = S (length xs).
Proof.
  intros Hrep. destruct (focus_node _ _ _ _ _ _ _ _ Hrep) as (n & _ & Hr).
  destruct (nr_shape _ _ _ _ Hr) as [E|E]; cbn [c_cs c_xs] in E; [left; by destruct cs|right].
  by rewrite length_map in E.
Qed.

Lemma run_parent b h r f k fr t p n :
  represents (getSlotLength b) h r f (cells NilUUID (plug (fr :: k) t)) → n_ParentID n = f_id fr →
  getParent zeroK n (st b h r f) = (Ret (Some (f_id fr)), st b h r f).
Proof.
  intros Hrep Hp. pose proof (getSlotLength_pos b).
  apply focus_lookup in Hrep. cbn [parent_id ctx_cells] in Hrep.
  destruct (rep_lookup _ _ _ _ (frame_cell fr (parent_id k) (root_id t)) _ Hrep) as (qn & Hq & Hqr).
  { apply elem_of_app. right. left. }
  eapply run_getParent; [done|apply (nr_nil _ _ _ _ Hqr)|].
  apply (stored_rep _ _ _ (frame_cell fr (parent_id k) (root_id t))); [lia|done|done].
Qed.

(** The index of the node in focus; only its cache changes. *)
Lemma run_focus_index b h r f k fr p (xs : list Item) cs :
  represents (getSlotLength b) h r f (cells NilUUID (plug (fr :: k) (GNode p xs cs))) →
  ∃ h', getIndexOfChild (f_id fr) p (st b h r f) = (Ret (Z.of_nat (length (f_cs1 fr))), st b h' r f) ∧
    represents (getSlotLength b) h' r f (cells NilUUID (plug (fr :: k) (GNode p xs cs))).
Proof.
  intros Hrep. apply focus_lookup in Hrep. cbn [cells parent_id app root_id] in Hrep.
  destruct (run_index b h r f (mkCell p (f_id fr) xs (map root_id cs)) fr k (concat (map (cells p) cs)) Hrep)
    as (h' & Hrun & Hrep').
  exists h'. split; [exact Hrun|]. rewrite cells_plug. exact Hrep'.
Qed.

(** ** To the right *)

Lemma run_climb_stop fuel b h r f k p (xs : list Item) cs i :
  values_kept b → represents (getSlotLength b) h r f (cells NilUUID (plug k (GNode p xs cs))) →
  i < length xs →
  climb_right zeroK (S fuel) (Some p) (Z.of_nat i) (st b h r f) =
    (Ret true, set_cursor p (Z.of_nat i) (set_currentItem None (st b h r f))).
Proof.
  intros Hv Hrep Hi. destruct (focus_node _ _ _ _ _ _ _ _ Hrep) as (n & Hp & Hn).
  pose proof (nr_count _ _ _ _ Hn) as Hcnt. cbn [c_xs] in Hcnt.
  cbn [climb_right]. sx. rewrite decide_True by lia. rewrite (nr_id _ _ _ _ Hn). cbn [c_id].
  by erewrite bind_Ret by (by apply (run_setCurrentItemID (st b h r f))).
Qed.

Lemma run_climb_right k : ∀ fuel b h r f p (xs : list Item) cs l1,
  values_kept b → represents (getSlotLength b) h r f (cells NilUUID (plug k (GNode p xs cs))) →
  Forall frame_shape k → length k < fuel → l1 = left_of k ++ flat (GNode p xs cs) →
  moved_right b r f (plug k (GNode p xs cs)) l1 (right_of k)
    (climb_right zeroK fuel (Some p) (Z.of_nat (length xs)) (st b h r f)).
Proof.
  induction k as [|fr k IH]; intros fuel b h r f p xs cs l1 Hv Hrep Hk Hfuel Hl1;
    (destruct fuel as [|fuel]; [simpl in Hfuel; lia|]);
    destruct (focus_node _ _ _ _ _ _ _ _ Hrep) as (n & Hp & Hn);
    pose proof (nr_count _ _ _ _ Hn) as Hcnt; cbn [c_xs] in Hcnt;
    pose proof (nr_parent _ _ _ _ Hn) as Hpar; cbn [c_pid parent_id] in Hpar;
    cbn [climb_right]; sx; rewrite decide_False by lia; unfold isRootNode; rewrite Hpar.
  - rewrite bool_decide_true by done.
    erewrite bind_Ret by (by apply (run_setCurrentItemID (st b h r f))).
    by exists h, NilUUID, 0%Z.
  - apply Forall_cons in Hk as [Hs Hk].
    rewrite bool_decide_false; [|intros E; apply focus_lookup in Hrep;
      apply rp_cells in Hrep; apply Forall_app in Hrep as [_ Hrep]; by eapply (parent_nil _ _ _ (fr :: k)) in Hrep].
    erewrite bind_Ret by (by eapply run_parent). cbv beta. sx.
    destruct (run_focus_index b h r f k fr p xs cs Hrep) as (h' & Hrun & Hrep').
    rewrite (bind_Ret _ _ _ _ _ Hrun). cbv beta. clear Hrep Hrun Hp Hn n Hcnt Hpar. cbn [length] in Hfuel.
    pose proof Hs as [Hs1 Hs2]. rewrite Hs1.
    change (plug (fr :: k) (GNode p xs cs)) with (plug k (fill fr (GNode p xs cs))) in *.
    unfold fill in *. destruct (f_xs2 fr) as [|x xs2] eqn:E2.
    + destruct (f_cs2 fr) eqn:Ec2; [|done]. rewrite app_nil_r in *.
      replace (right_of (fr :: k)) with (right_of k) by (cbn [right_of]; by rewrite E2).
      apply IH; [done|done|done|lia|]. subst l1. cbn [left_of]. rewrite <- app_assoc. f_equal.
      rewrite <- (app_nil_r (f_xs1 fr)) at 2. rewrite flat_inner by done. unfold post. cbn [zip_with concat].
      by rewrite app_nil_r.
    + destruct (f_cs2 fr) as [|c2 cs2] eqn:Ec2; [done|]. destruct fuel as [|fuel]; [lia|].
      exists h', (f_id fr), (Z.of_nat (length (f_xs1 fr))). split; [done|].
      cbn [right_of]. rewrite E2, Ec2. unfold post. cbn [map zip_with concat app].
      split.
      * exists k, (f_xs1 fr), xs2, (f_cs1 fr ++ GNode p xs cs :: c2 :: cs2). split; [done|]. split; [done|].
        split; [done|]. right. exists (f_cs1 fr), (GNode p xs cs), c2, cs2. split; [done|]. split; [done|].
        split; [simpl in Hs2; lia|]. split; [subst l1; cbn [left_of]; by rewrite <- app_assoc|].
        unfold post. by rewrite <- !app_assoc.
      * eapply run_climb_stop; [done|exact Hrep'|]. rewrite length_app. simpl. lia.
Qed.

(** The items from child [length cs1] on, seen from a node in focus. *)
Definition ahead k (xs1 xs2 : list Item) (cs : list (gtree K V)) l1 l2 : Prop :=
  (cs = [] ∧ xs1 = [] ∧ l1 = left_of k ∧ l2 = xs2 ++ right_of k) ∨
  (∃ cs1 c cs2, cs = cs1 ++ c :: cs2 ∧ length cs1 = length xs1 ∧ length cs2 = length xs2 ∧
     l1 = left_of k ++ pre cs1 xs1 ∧ l2 = flat c ++ post xs2 cs2 ++ right_of k).

(** A node that is entered from its parent. *)
Lemma ahead_child k p cs1 (xs1 xs2 : list Item) cs2 p' (xs' : list Item) cs' :
  cs' = [] ∨ length cs' = S (length xs') →
  ahead (mkFrame p cs1 xs1 xs2 cs2 :: k) [] xs' cs' (left_of k ++ pre cs1 xs1)
    (flat (GNode p' xs' cs') ++ post xs2 cs2 ++ right_of k).
Proof.
  intros [->|Hl]; [by left|right]. destruct cs' as [|c0 cs']; [done|]. simpl in Hl.
  exists [], c0, cs'. split; [done|]. split; [done|]. split; [lia|]. split.
  - cbn [left_of f_cs1 f_xs1]. by rewrite app_nil_r.
  - pose proof (flat_inner p' [] xs' [] c0 cs' eq_refl ltac:(lia)) as E. cbn [app pre map zip_with concat] in E.
    cbn [right_of f_xs2 f_cs2]. rewrite E. by rewrite <- !app_assoc.
Qed.

Lemma children_of w n r c k p (xs : list Item) cs1 t cs2 :
  node_rep w r (mkCell p (parent_id k) xs (map root_id (cs1 ++ t :: cs2))) n → c = root_id t →
  ∃ pad, n_ChildrenIDs n = Some (map root_id cs1 ++ c :: map root_id cs2 ++ pad).
Proof.
  intros Hn ->. pose proof (nr_cs _ _ _ _ Hn) as Hcs. cbn [c_cs] in Hcs.
  rewrite map_app in Hcs. cbn [map] in Hcs. rewrite cs_repr_app in Hcs. eauto.
Qed.

Lemma has_children n (cs1 cs2 : list UUID) c : n_ChildrenIDs n = Some (cs1 ++ c :: cs2) → hasChildren n = true.
Proof.
  intros H. unfold hasChildren, children. rewrite H. cbn [from_option id].
  apply bool_decide_eq_true. rewrite length_app. simpl. lia.
Qed.

Lemma run_goRightUp fuel b h r f p n (cs1 cs2 : list UUID) c :
  h !! p = Some n → n_ChildrenIDs n = Some (cs1 ++ c :: cs2) →
  goRightUpItemOnNodeWithNilChild zeroK fuel p (Z.of_nat (length cs1)) (st b h r f) =
    (if decide (c ≠ NilUUID) then mret false else climb_right zeroK fuel (Some p) (Z.of_nat (length cs1)))
      (st b h r f).
Proof.
  intros Hp Hc. unfold goRightUpItemOnNodeWithNilChild, children. sx. rewrite Hc. cbn [from_option id].
  rewrite zlookup_middle by done. by sx.
Qed.

Lemma run_getChild_nil b h r f n (cs1 cs2 : list UUID) : n_ChildrenIDs n = Some (cs1 ++ NilUUID :: cs2) →
  getChild zeroK n (Z.of_nat (length cs1)) (st b h r f) = (Ret None, st b h r f).
Proof.
  intros Hc. unfold getChild, getChildID, children. rewrite Hc. cbn [from_option id].
  rewrite decide_False by (rewrite length_app; simpl; lia). rewrite zlookup_middle by done. sx. by rewrite decide_True.
Qed.

(** A nil child on the way: the next item is the one behind it, or further up. *)
Lemma run_next_nil fuel b h r f k p (xs1 xs2 : list Item) cs1 cs2 :
  values_kept b → represents (getSlotLength b) h r f (cells NilUUID (plug k (GNode p (xs1 ++ xs2) (cs1 ++ GNil :: cs2)))) →
  Forall frame_shape k → length cs1 = length xs1 → length cs2 = length xs2 → length k < fuel →
  moved_right b r f (plug k (GNode p (xs1 ++ xs2) (cs1 ++ GNil :: cs2))) (left_of k ++ pre cs1 xs1)
    (post xs2 cs2 ++ right_of k) (climb_right zeroK fuel (Some p) (Z.of_nat (length xs1)) (st b h r f)).
Proof.
  intros Hv Hrep Hk H1 H2 Hfuel. destruct xs2 as [|x xs2], cs2 as [|c2 cs2]; try done.
  - rewrite app_nil_r in *. apply run_climb_right; try done. f_equal.
    rewrite <- (app_nil_r xs1) at 2. rewrite flat_inner by done. unfold post. cbn [flat zip_with concat app].
    by rewrite app_nil_r.
  - destruct fuel as [|fuel]; [lia|]. exists h, p, (Z.of_nat (length xs1)). split; [done|].
    unfold post. cbn [map zip_with concat app]. split.
    + exists k, xs1, xs2, (cs1 ++ GNil :: c2 :: cs2). split; [done|]. split; [done|]. split; [done|]. right.
      exists cs1, GNil, c2, cs2. split; [done|]. split; [done|]. split; [simpl in H2; lia|].
      split; [cbn [flat]; by rewrite app_nil_r|]. unfold post. by rewrite <- !app_assoc.
    + eapply run_climb_stop; [done|exact Hrep|]. rewrite length_app. simpl. lia.
Qed.

Lemma run_next_down : ∀ fuel b h r f k p (xs1 xs2 : list Item) cs l1 l2,
  values_kept b → represents (getSlotLength b) h r f (cells NilUUID (plug k (GNode p (xs1 ++ xs2) cs))) →
  Forall frame_shape k → ahead k xs1 xs2 cs l1 l2 →
  2 * height (GNode p (xs1 ++ xs2) cs) + length k ≤ fuel →
  moved_right b r f (plug k (GNode p (xs1 ++ xs2) cs)) l1 l2
    (next_down zeroK fuel (Some p) (Z.of_nat (length xs1)) (st b h r f)).
Proof.
  induction fuel as [|fuel IH]; intros b h r f k p xs1 xs2 cs l1 l2 Hv Hrep Hk Ha Hfuel;
    [cbn [height] in Hfuel; lia|].
  destruct (focus_node _ _ _ _ _ _ _ _ Hrep) as (n & Hp & Hn).
  cbn [next_down]. sx.
  destruct Ha as [(-> & -> & -> & ->)|(cs1 & c & cs2 & -> & H1 & H2 & -> & ->)].
  - pose proof (nr_cs _ _ _ _ Hn) as Hcs. cbn [map c_cs cs_repr] in Hcs.
    unfold hasChildren, children. rewrite Hcs. cbn [from_option length].
    rewrite bool_decide_false by lia. rewrite (nr_id _ _ _ _ Hn). cbn [c_id app] in *.
    erewrite bind_Ret by (by apply (run_setCurrentItemID (st b h r f))).
    pose proof (nr_len _ _ _ _ Hn) as Hl. cbn [c_xs] in Hl. destruct xs2 as [|x xs2]; [simpl in Hl; lia|].
    exists h, p, 0%Z. split; [done|]. cbn [app]. split; [|done].
    exists k, [], xs2, []. split; [done|]. split; [done|]. split; [done|]. left. by rewrite app_nil_r.
  - destruct (children_of _ _ _ _ _ _ _ _ _ _ Hn eq_refl) as (pad & Hkids).
    rewrite (has_children _ _ _ _ Hkids). rewrite <- H1, <- (length_map root_id cs1).
    destruct c as [|p' xs' cs'].
    + pose proof (run_next_nil (S fuel) b h r f k p xs1 xs2 cs1 cs2 Hv Hrep Hk H1 H2
        ltac:(cbn [height] in Hfuel; lia)) as Hm.
      rewrite length_map, H1. cbn [root_id] in Hkids.
      destruct Hm as (h' & q & i & Hrep' & Hm).
      pose proof (run_goRightUp (S fuel) b h r f p n _ _ _ Hp Hkids) as Hg.
      rewrite decide_False in Hg by (intros E; done). rewrite length_map, H1 in Hg.
      cbn [flat app]. destruct (post xs2 cs2 ++ right_of k) as [|y l].
      * exists h', NilUUID, 0%Z. split; [done|]. destruct Hm as [-> Hm]. rewrite Hm in Hg. rewrite (bind_Ret _ _ _ _ _ Hg). cbv beta iota.
        destruct (focus_node _ _ _ _ _ _ _ _ Hrep') as (n' & Hp' & Hn').
        destruct (children_of _ _ _ _ _ _ _ _ _ _ Hn' eq_refl) as (pad' & Hkids').
        set (b1 := set_cursor NilUUID i (set_currentItem None b)).
        change (set_cursor NilUUID i (set_currentItem None (st b h' r f))) with (st b1 h' r f) in *.
        sx. rewrite <- H1, <- (length_map root_id cs1).
        rewrite (bind_Ret _ _ _ _ _ (run_getChild_nil b1 h' r f n' _ _ Hkids')). cbv beta.
        destruct fuel as [|fuel]; [cbn [height] in Hfuel; lia|]. cbn [next_down].
        by rewrite (bind_Ret _ _ _ _ _ (run_setCurrentItemID (st b1 h' r f) NilUUID 0 Hv)).
      * exists h', q, i. split; [done|]. destruct Hm as [Hm1 Hm2]. rewrite Hm2 in Hg. by rewrite (bind_Ret _ _ _ _ _ Hg).
    + pose proof (run_goRightUp (S fuel) b h r f p n _ _ _ Hp Hkids) as Hg. cbn [root_id] in Hg.
      set (fr := mkFrame p cs1 xs1 xs2 cs2).
      assert (Hrep2 : represents (getSlotLength b) h r f (cells NilUUID (plug (fr :: k) (GNode p' xs' cs')))) by done.
      destruct (focus_node _ _ _ _ _ _ _ _ Hrep2) as (n' & Hp' & Hn').
      pose proof (nr_nil _ _ _ _ Hn') as Hne. cbn [c_id] in Hne.
      rewrite decide_True in Hg by done. rewrite (bind_Ret _ _ _ _ _ Hg). cbv beta iota. sx.
      pose proof (getSlotLength_pos b).
      rewrite (bind_Ret _ _ _ _ _ (run_getChild_st zeroK b h r f n _ _ p' n' Hkids Hne
        ltac:(eapply (stored_rep _ _ _ (mkCell p' (parent_id (fr :: k)) xs' (map root_id cs'))); [lia|done|done]))).
      cbv beta.
      apply (IH b h r f (fr :: k) p' [] xs' cs'); [done|done|by constructor| |].
      * apply ahead_child. by eapply focus_shape.
      * cbn [length app].
        assert (height (GNode p' xs' cs') < height (GNode p (xs1 ++ xs2) (cs1 ++ GNode p' xs' cs' :: cs2))); [|lia].
        cbn [height]. apply Nat.lt_succ_r.
        apply (max_list_elem_of_le (height (GNode p' xs' cs'))). apply (list_elem_of_fmap_2 height).
        apply elem_of_app. right. left.
Qed.

(** ** Next *)

Lemma run_moveToNext fuel b h r f tr i l1 x l2 :
  values_kept b → represents (getSlotLength b) h r f (cells NilUUID tr) →
  position tr (b_currentNodeID b) i l1 x l2 → b_currentItemIndex b = i → 2 * height tr ≤ fuel →
  moved_right b r f tr (l1 ++ [x]) l2 (moveToNext zeroK fuel (b_currentNodeID b) (st b h r f)).
Proof.
  intros Hv Hrep (k & xs1 & xs2 & cs & -> & Hk & -> & Hcs) Hi Hfuel. set (p := b_currentNodeID b) in *.
  destruct (focus_node _ _ _ _ _ _ _ _ Hrep) as (n & Hp & Hn).
  pose proof (height_plug k (GNode p (xs1 ++ x :: xs2) cs)) as Hh. cbn [height] in Hh.
  unfold moveToNext. erewrite bind_Ret by reflexivity. cbv beta.
  change (b_currentItemIndex (st b h r f)) with (b_currentItemIndex b). rewrite Hi. sx.
  replace (Z.of_nat (length xs1) + 1)%Z with (Z.of_nat (length (xs1 ++ [x])))
    by (rewrite length_app; simpl; lia).
  assert (Exs : xs1 ++ x :: xs2 = (xs1 ++ [x]) ++ xs2) by (by rewrite <- app_assoc).
  rewrite Exs in *.
  destruct Hcs as [(-> & -> & ->)|(cs1 & c1 & c2 & cs2 & -> & H1 & H2 & -> & ->)].
  - pose proof (nr_cs _ _ _ _ Hn) as Hcs. cbn [map c_cs cs_repr] in Hcs.
    unfold hasChildren, children. rewrite Hcs. cbn [from_option length].
    rewrite bool_decide_false by lia. destruct xs2 as [|x2 xs2].
    + rewrite app_nil_r in *. apply run_climb_right; [done|done|done|lia|]. cbn [flat]. by rewrite <- app_assoc.
    + destruct fuel as [|fuel]; [lia|]. exists h, p, (Z.of_nat (length (xs1 ++ [x]))). split; [done|].
      cbn [app]. split.
      * exists k, (xs1 ++ [x]), xs2, []. split; [done|]. split; [done|]. split; [done|]. left.
        split; [done|]. by rewrite <- app_assoc.
      * eapply run_climb_stop; [done|exact Hrep|]. rewrite !length_app. simpl. lia.
  - assert (Ecs : cs1 ++ c1 :: c2 :: cs2 = (cs1 ++ [c1]) ++ c2 :: cs2) by (by rewrite <- app_assoc).
    rewrite Ecs in *.
    destruct (children_of _ _ _ _ _ _ _ _ _ _ Hn eq_refl) as (pad & Hkids).
    rewrite (has_children _ _ _ _ Hkids). apply run_next_down; [done|done|done| |].
    + right. exists (cs1 ++ [c1]), c2, cs2. split; [done|]. split; [rewrite !length_app; simpl; lia|].
      split; [done|]. split; [|done]. rewrite pre_app by done. unfold pre at 3. cbn [map zip_with concat].
      by rewrite app_nil_r, <- !app_assoc.
    + cbn [height]. lia.
Qed.

(** ** First *)

Lemma run_first : ∀ fuel b h r f k p (xs : list Item) cs,
  values_kept b → represents (getSlotLength b) h r f (cells NilUUID (plug k (GNode p xs cs))) →
  Forall frame_shape k → height (GNode p xs cs) ≤ fuel →
  ∃ q i x l2, position (plug k (GNode p xs cs)) q i (left_of k) x l2 ∧
    moveToFirst zeroK fuel p (st b h r f) = (Ret true, set_cursor q i (set_currentItem None (st b h r f))).
Proof.
  induction fuel as [|fuel IH]; intros b h r f k p xs cs Hv Hrep Hk Hfuel; [cbn [height] in Hfuel; lia|].
  destruct (focus_node _ _ _ _ _ _ _ _ Hrep) as (n & Hp & Hn).
  pose proof (nr_len _ _ _ _ Hn) as Hl. cbn [c_xs] in Hl. destruct xs as [|x xs]; [simpl in Hl; lia|].
  pose proof (nr_cs _ _ _ _ Hn) as Hkids. cbn [c_cs] in Hkids.
  pose proof (focus_shape _ _ _ _ _ _ _ _ Hrep) as Hshape.
  assert (Hstop : ∀ l2, position (plug k (GNode p (x :: xs) cs)) p 0 (left_of k) x l2 →
    ∃ q i y l2, position (plug k (GNode p (x :: xs) cs)) q i (left_of k) y l2 ∧
      (setCurrentItemID (n_ID n) 0;; mret true : B bool) (st b h r f) =
        (Ret true, set_cursor q i (set_currentItem None (st b h r f)))).
  { intros l2 Hpos. exists p, 0%Z, x, l2. split; [done|]. rewrite (nr_id _ _ _ _ Hn). cbn [c_id].
    by rewrite (bind_Ret _ _ _ _ _ (run_setCurrentItemID (st b h r f) p 0 Hv)). }
  cbn [moveToFirst]. sx. rewrite Hkids. destruct cs as [|c cs].
  { cbn [map cs_repr]. apply (Hstop (xs ++ right_of k)). exists k, [], xs, []. split; [done|]. split; [done|].
    split; [done|]. left. by rewrite app_nil_r. }
  cbn [map cs_repr app]. erewrite bind_Ret by reflexivity. cbv beta.
  destruct Hshape as [?|Hlen]; [done|]. destruct cs as [|c2 cs2]; [simpl in Hlen; lia|]. simpl in Hlen.
  assert (Hlen2 : length cs2 = length xs) by lia.
  destruct c as [|p' xs' cs'].
  { rewrite decide_True by done. apply (Hstop (flat c2 ++ post xs cs2 ++ right_of k)).
    exists k, [], xs, (GNil :: c2 :: cs2). split; [done|]. split; [done|]. split; [done|]. right.
    exists [], GNil, c2, cs2. split; [done|]. split; [done|]. split; [done|]. split; [|done].
    cbn [flat pre map zip_with concat app]. by rewrite app_nil_r. }
  set (fr := mkFrame p [] [] (x :: xs) (c2 :: cs2)).
  assert (Hrep2 : represents (getSlotLength b) h r f (cells NilUUID (plug (fr :: k) (GNode p' xs' cs')))) by done.
  destruct (focus_node _ _ _ _ _ _ _ _ Hrep2) as (n' & Hp' & Hn').
  pose proof (nr_nil _ _ _ _ Hn') as Hne. cbn [c_id root_id] in *.
  rewrite decide_False by done. pose proof (getSlotLength_pos b).
  rewrite (bind_Ret _ _ _ _ _ (run_getNode_st zeroK b h r f p' n'
    (stored_rep (getSlotLength b) _ _ (mkCell p' (parent_id (fr :: k)) xs' (map root_id cs')) _ ltac:(lia) Hp' Hn'))).
  cbv beta iota.
  destruct (IH b h r f (fr :: k) p' xs' cs') as (q & i & y & l2 & Hpos & Hrun); try done.
  { constructor; [|done]. split; [done|]. subst fr. simpl. lia. }
  { cbn [height map foldr] in Hfuel. cbn [height]. lia. }
  exists q, i, y, l2. split; [|exact Hrun]. cbn [left_of f_cs1 f_xs1 pre map zip_with concat] in Hpos.
  by rewrite app_nil_r in Hpos.
Qed.

(** ** The cursor in the tree *)

Context (cmp : K → K → Z) `{!Comparer cmp} (hf : nat).
Local Abbreviation sl := (Z.of_nat (2 * hf)).

(** The cursor is at [x], behind the items [l1] and before [l2]. *)
Definition walk_at b l1 x l2 : Prop :=
  tree_inv cmp hf b (l1 ++ x :: l2) ∧
  b_currentItem b = Some (RefSlot (b_currentNodeID b) (b_currentItemIndex b)) ∧
  ∃ tr, root_id tr = si_RootNodeID (b_StoreInfo b) ∧
    represents sl (b_heap b) (b_repo b) (b_fresh b) (cells NilUUID tr) ∧
    position tr (b_currentNodeID b) (b_currentItemIndex b) l1 x l2.

(** A move of the cursor, which changes at most the caches of the nodes. *)
Definition moved b h p i c : Btree := set_cursor p i (set_currentItem c (st b h (b_repo b) (b_fresh b))).

Lemma moved_inv b l h p i c tr : tree_inv cmp hf b l → tr ≠ GNil → flat tr = l →
  root_id tr = si_RootNodeID (b_StoreInfo b) →
  represents sl h (b_repo b) (b_fresh b) (cells NilUUID tr) → tree_inv cmp hf (moved b h p i c) l.
Proof. intros [] ? ? ? ?. constructor; try done. right. by exists tr. Qed.

Lemma position_node w h r f tr p i l1 x l2 : (0 ≤ w)%Z → represents w h r f (cells NilUUID tr) →
  position tr p i l1 x l2 →
  p ≠ NilUUID ∧ (0 ≤ i)%Z ∧ ∃ n, stored w h r p n ∧ (i < n_Count n)%Z ∧ zlookup (n_Slots n) i = Some x.
Proof.
  intros Hw Hrep (k & xs1 & xs2 & cs & -> & Hk & -> & _).
  destruct (focus_node _ _ _ _ _ _ _ _ Hrep) as (n & Hp & Hn).
  split; [by apply (nr_nil _ _ _ _ Hn)|]. split; [lia|]. exists n.
  split. { by apply (stored_rep _ _ _ (mkCell p (parent_id k) (xs1 ++ x :: xs2) (map root_id cs))). }
  rewrite (nr_count _ _ _ _ Hn). cbn [c_xs]. split; [rewrite length_app; simpl; lia|].
  pose proof (nr_xs _ _ _ _ Hn) as Hxs. cbn [c_xs] in Hxs.
  rewrite <- (take_drop (length (xs1 ++ x :: xs2)) (n_Slots n)), Hxs, <- app_assoc. cbn [app].
  by rewrite zlookup_middle.
Qed.

(** The end of a move: the new current item is looked up. *)
Lemma run_settle b h tr p i l1 x l2 : (0 ≤ sl)%Z → represents sl h (b_repo b) (b_fresh b) (cells NilUUID tr) →
  position tr p i l1 x l2 →
  getCurrentItem (moved b h p i None) = (Ret (Some (RefSlot p i)), moved b h p i (Some (RefSlot p i))).
Proof.
  intros Hw Hrep Hpos. destruct (position_node _ _ _ _ _ _ _ _ _ _ Hw Hrep Hpos) as (Hp & _ & n & Hs & _ & Hx).
  destruct Hs as (Hr & Hh & _). unfold getCurrentItem. do 3 (erewrite bind_Ret by reflexivity; cbv beta).
  unfold IsNil. cbn [moved set_cursor set_currentItem b_currentNodeID b_currentItemIndex b_currentItem].
  rewrite bool_decide_false by done. erewrite bind_Ret by reflexivity. cbv beta.
  cbn [b_repo st]. rewrite decide_True by done.
  rewrite (bind_Ret _ _ _ _ _ (run_deref (moved b h p i None) p n Hh)). cbv beta. unfold slot. rewrite Hx. by erewrite bind_Ret by reflexivity.
Qed.

Lemma run_settle_none b h i : getCurrentItem (moved b h NilUUID i None) =
  (Ret None, moved b h NilUUID i None).
Proof. done. Qed.

Lemma run_step b move l1 x l2 : walk_at b l1 x l2 →
  step_cursor zeroK move b = (r ← move (b_currentNodeID b); _ ← getCurrentItem; mret r : B bool) b.
Proof.
  intros (Hinv & _ & tr & Hroot & Hrep & Hpos). pose proof Hinv as [(Hsl & _) _ _ _ _ _ _ _ Hc _].
  destruct (position_node sl _ _ _ _ _ _ _ _ _ (Nat2Z.is_nonneg _) Hrep Hpos) as (Hp & Hi & n & Hs & Hn & _).
  unfold step_cursor. erewrite bind_Ret by reflexivity. cbv beta. rewrite Hc.
  rewrite bool_decide_false by (rewrite length_app; simpl; lia). unfold isCurrentItemSelected, IsNil.
  rewrite bool_decide_false by done. rewrite bool_decide_true by done. cbn [negb andb orb].
  assert (Hnode : current_node zeroK b = (Ret (Some (b_currentNodeID b, n, b_currentItemIndex b)), b)).
  { unfold current_node. do 2 (erewrite bind_Ret by reflexivity; cbv beta).
    rewrite <- Hsl in Hs. pose proof (run_getNode_st zeroK b _ _ (b_fresh b) _ _ Hs) as Hrun.
    rewrite <- st_eta in Hrun. rewrite (bind_Ret _ _ _ _ _ Hrun). cbv beta iota. destruct Hs as (_ & Hh & _).
    rewrite (bind_Ret _ _ _ _ _ (run_deref b _ n Hh)). cbv beta. by rewrite decide_False by lia. }
  by rewrite (bind_Ret _ _ _ _ _ Hnode).
Qed.

Lemma run_Next fuel b l1 x l2 : walk_at b l1 x l2 → 2 * length (l1 ++ x :: l2) ≤ fuel →
  ∃ h p i c, Next zeroK fuel b = (Ret (negb (bool_decide (l2 = []))), moved b h p i c) ∧
    match l2 with
    | [] => tree_inv cmp hf (moved b h p i c) (l1 ++ [x])
    | y :: l2 => walk_at (moved b h p i c) (l1 ++ [x]) y l2
    end.
Proof.
  intros Hw Hfuel. unfold Next. rewrite (run_step b _ l1 x l2 Hw).
  destruct Hw as (Hinv & Hcur & tr & Hroot & Hrep & Hpos). pose proof Hinv as [(Hsl & _) _ Hv _ _ _ _ _ _ _].
  pose proof (position_flat _ _ _ _ _ _ Hpos) as Hfl.
  pose proof (height_items _ _ _ _ _ (rp_cells _ _ _ _ _ Hrep)) as Hh. rewrite Hfl in Hh.
  assert (Hnil : tr ≠ GNil) by (intros ->; by destruct l1).
  rewrite <- Hsl in Hrep.
  destruct (run_moveToNext fuel b _ _ _ tr _ _ _ _ Hv Hrep Hpos eq_refl ltac:(lia)) as (h & p & i & Hrep' & Hm).
  rewrite <- st_eta in Hm. rewrite Hsl in Hrep'. destruct l2 as [|y l2].
  - destruct Hm as [-> Hm]. exists h, NilUUID, i, None. rewrite (bind_Ret _ _ _ _ _ Hm). cbv beta. split; [done|].
    by eapply moved_inv.
  - destruct Hm as [Hpos' Hm]. exists h, p, i, (Some (RefSlot p i)). rewrite (bind_Ret _ _ _ _ _ Hm). cbv beta.
    rewrite (bind_Ret _ _ _ _ _ (run_settle b h tr p i _ _ _ ltac:(lia) Hrep' Hpos')). split; [done|].
    split; [|split; [done|]].
    + rewrite <- app_assoc. by eapply moved_inv.
    + by exists tr.
Qed.

Lemma run_First fuel b l : tree_inv cmp hf b l → length l ≤ fuel →
  match l with
  | [] => First zeroK fuel b = (Ret false, b)
  | x :: l2 => ∃ h p i c, First zeroK fuel b = (Ret true, moved b h p i c) ∧
                 walk_at (moved b h p i c) [] x l2
  end.
Proof.
  intros Hinv Hfuel. pose proof Hinv as [(Hsl & _) _ Hv _ _ _ _ _ Hc Hnodes]. destruct l as [|x l2].
  { unfold First. erewrite bind_Ret by reflexivity. cbv beta. by rewrite decide_True. }
  destruct Hnodes as [[? _]|(tr & Htr & Hroot & Hfl & Hrep)]; [done|].
  pose proof (height_items _ _ _ _ _ (rp_cells _ _ _ _ _ Hrep)) as Hh. rewrite Hfl in Hh.
  destruct tr as [|p xs cs]; [done|]. rewrite <- Hsl in Hrep.
  destruct (run_first fuel b _ _ _ [] p xs cs Hv Hrep ltac:(done) ltac:(lia)) as (q & i & y & l3 & Hpos & Hrun).
  rewrite <- st_eta in Hrun. rewrite Hsl in Hrep. cbn [left_of plug] in Hpos.
  pose proof (position_flat _ _ _ _ _ _ Hpos) as Hfl'. rewrite Hfl in Hfl'. cbn [app] in Hfl'. simplify_eq.
  exists (b_heap b), q, i, (Some (RefSlot q i)). unfold First. erewrite bind_Ret by reflexivity. cbv beta.
  rewrite decide_False by (rewrite Hc; simpl; lia).
  rewrite (bind_Ret _ _ _ _ _ (run_getRootNode cmp zeroK _ b _ (tree_inv_ok cmp hf b _ Hinv ltac:(done)))). cbv beta.
  cbn [root_id] in Hroot. rewrite <- Hroot, (bind_Ret _ _ _ _ _ Hrun). cbv beta.
  pose proof (run_settle b (b_heap b) _ q i _ _ _ ltac:(lia) Hrep Hpos) as Hset.
  unfold moved in Hset at 1. rewrite <- st_eta in Hset.
  rewrite (bind_Ret _ _ _ _ _ Hset). split; [done|]. split; [|split; [done|]].
  - by eapply moved_inv.
  - by exists (GNode p xs cs).
Qed.
End walk.
