(* ===== verification/Inmemory.v ===== *)
(** * inmemory/: the in-memory B-tree and its iterators

    The wrappers of [BtreeInterface] drop the error of the call ([ok, _ := ...]);
    the tracker does nothing.  [All] drives the cursor and hands each item to the
    consumer, a function that says whether it wants more; the number of turns of
    its loop is [rounds].  Of [sop.NewStoreInfo] the fields the tree reads are
    modelled; [no_value_cache] says that the cache configuration, with its defaults
    and its minimum, turns the cache of values off. *)

From S2P Require Import Prelude Handle BtreeModel BtreeOps BtreeSpec BtreeCells BtreeRun.
From S2P Require Import BtreeClimb BtreeAdd BtreeInsert BtreeWalk.

(** ** storeinfo.go *)

Record StoreOptions := mkStoreOptions {
  so_SlotLength : Z;
  so_IsUnique : bool;
  so_IsValueDataInNodeSegment : bool;
  so_IsValueDataActivelyPersisted : bool;
  so_IsValueDataGloballyCached : bool;
  so_LeafLoadBalancing : bool;
}.

Definition slot_length (n : Z) : Z :=
  let n := if decide (n ≤ 0)%Z then 2000%Z else n in
  let n := if decide (Z.rem n 2 ≠ 0)%Z then (n - 1)%Z else n in
  let n := if decide (n < 2)%Z then 2%Z else n in
  if decide (MaxSlotLength < n)%Z then MaxSlotLength else n.

Definition NewStoreInfo (no_value_cache : bool) (si : StoreOptions) : StoreInfo :=
  let in_node := so_IsValueDataInNodeSegment si in
  mkStoreInfo (slot_length (so_SlotLength si)) (so_IsUnique si) (so_LeafLoadBalancing si) 0 NilUUID
    in_node
    (if in_node then false else so_IsValueDataActivelyPersisted si)
    (if in_node || no_value_cache then false else so_IsValueDataGloballyCached si).

(** Every store that is created has an even slot length the tree can work with. *)
Lemma slot_length_even n : ∃ hf, 1 ≤ hf ∧ slot_length n = Z.of_nat (2 * hf) ∧
  (Z.of_nat (2 * hf) ≤ MaxSlotLength)%Z.
Proof.
  assert (Hr : ∀ m, (0 < m)%Z → Z.rem m 2 = (m mod 2)%Z) by (intros; apply Z.rem_mod_nonneg; lia).
  exists (Z.to_nat (slot_length n / 2)). unfold slot_length.
  set (m := if decide (n ≤ 0)%Z then 2000%Z else n).
  assert (Hm : (0 < m)%Z) by (subst m; case_decide; lia). rewrite Hr by done.
  pose proof (Z.mod_pos_bound m 2 ltac:(lia)). pose proof (Z.div_mod m 2 ltac:(lia)).
  unfold MaxSlotLength. repeat case_decide; Z.div_mod_to_equations; lia.
Qed.

(** ** inmemory/dumbitemactiontracker.go *)

#[global] Instance dumb_tracker {K V} : Tracker () K V := {|
  tracker_error := Empty_set;
  tk_Add x t := (Ok x, t);
  tk_Get x t := (Ok x, t);
  tk_Update x t := (Ok x, t);
  tk_Remove x t := (Ok x, t)
|}.

(** ** inmemory/instantiatebtree.go and inmemory/iterate.go *)

Section inmemory.
Context {K V : Type} (cmp : K → K → Z) (zeroK : K).
Local Abbreviation Btree := (Btree () K V).
Local Abbreviation Item := (Item K V).
Local Abbreviation B := (M Btree (btree_error Empty_set)).

Definition itemsPerNode : Z := 8.

Definition NewBtree (no_value_cache isUnique : bool) (fresh : N) : Btree :=
  New zeroK (NewStoreInfo no_value_cache
    (mkStoreOptions itemsPerNode isUnique true true false false)) () fresh.

(** [ok, _ := ...]: the zero value when the call fails. *)
Definition drop_error {A} (zero : A) (m : B A) : B A := λ b,
  match m b with (Fail _, b') => (Ret zero, b') | r => r end.

Definition mAdd (fuel : nat) (key : K) (value : V) : B bool :=
  drop_error false (Add cmp zeroK fuel key value).
Definition mAddIfNotExist (fuel : nat) (key : K) (value : V) : B bool :=
  drop_error false (AddIfNotExist cmp zeroK fuel key value).
Definition mFind (fuel : nat) (key : K) (firstItemWithKey : bool) : B bool :=
  drop_error false (Find cmp zeroK fuel key firstItemWithKey).
Definition mFindInDescendingOrder (fuel : nat) (key : K) : B bool :=
  drop_error false (FindInDescendingOrder cmp zeroK fuel key).
Definition mUpdate (fuel : nat) (key : K) (value : V) : B bool :=
  drop_error false (Update cmp zeroK fuel key value).
Definition mUpsert (fuel : nat) (key : K) (value : V) : B bool :=
  drop_error false (Upsert cmp zeroK fuel key value).
Definition mUpdateCurrentValue (value : V) : B bool := drop_error false (UpdateCurrentValue cmp zeroK value).
Definition mUpdateCurrentKey (key : K) : B bool := drop_error false (UpdateCurrentKey cmp zeroK key).
Definition mRemove (fuel : nat) (key : K) : B bool := drop_error false (Remove cmp zeroK fuel key).
Definition mRemoveCurrentItem (fuel : nat) : B bool := drop_error false (RemoveCurrentItem zeroK fuel).
Definition mLast (fuel : nat) : B bool := drop_error false (Last zeroK fuel).
Definition mPrevious (fuel : nat) : B bool := drop_error false (Previous zeroK fuel).
Definition mFirst (fuel : nat) : B bool := drop_error false (First zeroK fuel).
Definition mNext (fuel : nat) : B bool := drop_error false (Next zeroK fuel).
Definition mGetCurrentKey : B K := x ← GetCurrentKey zeroK; mret (it_Key x).
Definition mGetCurrentValue : B (option V) := drop_error None GetCurrentValue.

Section iterator.
Context {Y : Type} (yield : K → option V → Y → bool * Y).

Fixpoint all_loop (rounds fuel : nat) (ok : bool) (y : Y) : B Y :=
  match rounds with
  | O => panic
  | S rounds =>
      if ok then
        key ← mGetCurrentKey; value ← mGetCurrentValue;
        let '(more, y) := yield key value y in
        if (more : bool) then ok ← mNext fuel; all_loop rounds fuel ok y else mret y
      else mret y
  end.

Definition All (rounds fuel : nat) (y : Y) : B Y :=
  ok ← mFirst fuel; all_loop rounds fuel ok y.

Fixpoint all_desc_loop (rounds fuel : nat) (ok : bool) (y : Y) : B Y :=
  match rounds with
  | O => panic
  | S rounds =>
      if ok then
        key ← mGetCurrentKey; value ← mGetCurrentValue;
        let '(more, y) := yield key value y in
        if (more : bool) then ok ← mPrevious fuel; all_desc_loop rounds fuel ok y else mret y
      else mret y
  end.

Definition AllDesc (rounds fuel : nat) (y : Y) : B Y :=
  ok ← mLast fuel; all_desc_loop rounds fuel ok y.

(** The step from the neighbor of [from] on which a search that missed parks:
    [false] when it runs out of the tree. *)
Fixpoint seek (before : Z → bool) (move : B bool) (rounds : nat) (from : K) : B bool :=
  match rounds with
  | O => panic
  | S rounds =>
      key ← mGetCurrentKey;
      if before (cmp key from) then
        ok ← move; if (ok : bool) then seek before move rounds from else mret false
      else mret true
  end.

Fixpoint range_loop (past : Z → bool) (move : B bool) (rounds : nat) (to : K) (y : Y) : B Y :=
  match rounds with
  | O => panic
  | S rounds =>
      k ← mGetCurrentKey;
      if past (cmp k to) then mret y
      else
        value ← mGetCurrentValue;
        let '(more, y) := yield k value y in
        if (more : bool) then
          ok ← move; if (ok : bool) then range_loop past move rounds to y else mret y
        else mret y
  end.

Definition range_from (find : B bool) (before past : Z → bool) (move : B bool) (rounds : nat)
    (from to : K) (y : Y) : B Y :=
  found ← find;
  ready ← (if (found : bool) then mret true
           else x ← GetCurrentKey zeroK;
                if IsNil (it_ID x) then mret false else seek before move rounds from);
  if (ready : bool) then range_loop past move rounds to y else mret y.

Definition Range (rounds fuel : nat) (from to : K) (y : Y) : B Y :=
  range_from (mFind fuel from true) (λ c, c <? 0)%Z (λ c, 0 <? c)%Z (mNext fuel) rounds from to y.
Definition RangeDesc (rounds fuel : nat) (from to : K) (y : Y) : B Y :=
  range_from (mFindInDescendingOrder fuel from) (λ c, 0 <? c)%Z (λ c, c <? 0)%Z (mPrevious fuel) rounds from to y.

(** What the consumer is to see. *)
Fixpoint visit (l : list (K * option V)) (y : Y) : Y :=
  match l with
  | [] => y
  | (key, value) :: l => let '(more, y) := yield key value y in
                         if (more : bool) then visit l y else y
  end.
End iterator.
End inmemory.

(** ** The items seen by the iterator *)

Section iteration.
Context {K V : Type} (cmp : K → K → Z) (zeroK : K) `{!Comparer cmp}.
Local Abbreviation Btree := (Btree () K V).
Local Abbreviation Item := (Item K V).
Local Abbreviation B := (M Btree (btree_error Empty_set)).
Implicit Types (b : Btree) (x : Item) (l : list Item).

Lemma walk_slot hf b l1 x l2 : walk_at cmp hf b l1 x l2 →
  ∃ n, b_heap b !! b_currentNodeID b = Some n ∧ zlookup (n_Slots n) (b_currentItemIndex b) = Some x ∧
    b_currentNodeID b ≠ NilUUID.
Proof.
  intros (_ & _ & tr & _ & Hrep & Hpos).
  destruct (position_node _ _ _ _ _ _ _ _ _ _ (Nat2Z.is_nonneg _) Hrep Hpos) as (? & _ & n & (_ & ? & _) & _ & ?).
  by exists n.
Qed.

Lemma run_key hf b l1 x l2 : walk_at cmp hf b l1 x l2 →
  mGetCurrentKey zeroK b = (Ret (it_Key x), b).
Proof.
  intros Hw. destruct (walk_slot _ _ _ _ _ Hw) as (n & Hn & Hx & _). destruct Hw as (_ & Hc & _).
  unfold mGetCurrentKey. erewrite bind_Ret; [|unfold GetCurrentKey; erewrite bind_Ret by reflexivity; cbv beta;
    rewrite Hc; erewrite bind_Ret; [reflexivity|]]; [done|].
  cbn [deref_item]. rewrite (bind_Ret _ _ _ _ _ (run_deref b _ n Hn)). unfold slot. by rewrite Hx.
Qed.

(** Reading a value writes the item back as it was. *)
Lemma run_value hf b l1 x l2 : walk_at cmp hf b l1 x l2 →
  mGetCurrentValue b = (Ret (it_Value x), b).
Proof.
  intros Hw. destruct (walk_slot _ _ _ _ _ Hw) as (n & Hn & Hx & Hne). destruct Hw as (_ & Hc & _).
  assert (Hread : read_current b = (Ret (Some x), b)); [|by unfold mGetCurrentValue, drop_error, GetCurrentValue;
    rewrite (bind_Ret _ _ _ _ _ Hread)].
  unfold read_current.
  assert (Hcur : getCurrentItem b = (Ret (Some (RefSlot (b_currentNodeID b) (b_currentItemIndex b))), b) :>
    outcome (btree_error Empty_set) _ * _).
  { unfold getCurrentItem. do 3 (erewrite bind_Ret by reflexivity; cbv beta).
    unfold IsNil. rewrite bool_decide_false by done. by rewrite Hc. }
  rewrite (bind_Ret _ _ _ _ _ Hcur). cbv beta iota.
  assert (Hder : deref_item (RefSlot (b_currentNodeID b) (b_currentItemIndex b)) b = (Ret x, b) :>
    outcome (btree_error Empty_set) _ * _).
  { cbn [deref_item]. rewrite (bind_Ret _ _ _ _ _ (run_deref b _ n Hn)). unfold slot. by rewrite Hx. }
  rewrite (bind_Ret _ _ _ _ _ Hder). cbv beta.
  assert (Htr : track tk_Get x b = (Ret x, b)) by (destruct b as [? ? ? ? []]; done).
  rewrite (bind_Ret _ _ _ _ _ Htr). cbv beta zeta.
  replace (match it_Value x with Some v => _ | None => x end) with x
    by (destruct (it_Value x), (it_ValueNeedsFetch x); done).
  assert (Hwr : write_item (RefSlot (b_currentNodeID b) (b_currentItemIndex b)) x b = (Ret (), b) :>
    outcome (btree_error Empty_set) _ * _).
  { cbn [write_item]. unfold set_slot. rewrite (bind_Ret _ _ _ _ _ (run_deref b _ n Hn)). cbv beta.
    apply zlookup_Some in Hx as [Hi Hx].
    unfold zinsert. rewrite decide_True by (apply lookup_lt_Some in Hx; unfold zlength; lia).
    erewrite bind_Ret by reflexivity. cbv beta. rewrite list_insert_id by done. unfold write, modify.
    replace (set_Slots n (n_Slots n)) with n by (by destruct n). unfold upd_heap. rewrite insert_id by done.
    by destruct b. }
  by rewrite (bind_Ret _ _ _ _ _ Hwr).
Qed.

Lemma moved_tree hf b l1 x l2 : walk_at cmp hf b l1 x l2 → tree_inv cmp hf b (l1 ++ x :: l2).
Proof. by intros (? & _). Qed.

Lemma run_all_loop {Y} (yield : K → option V → Y → bool * Y) hf rounds fuel : ∀ l2 l1 b x y,
  walk_at cmp hf b l1 x l2 → 2 * length (l1 ++ x :: l2) ≤ fuel → S (length l2) < rounds →
  ∃ b', all_loop zeroK yield rounds fuel true y b = (Ret (visit yield (contents (x :: l2)) y), b') ∧
    tree_inv cmp hf b' (l1 ++ x :: l2).
Proof.
  induction rounds as [|rounds IH]; intros l2 l1 b x y Hw Hfuel Hr; [lia|].
  cbn [all_loop contents fmap list_fmap visit].
  rewrite (bind_Ret _ _ _ _ _ (run_key hf b l1 x l2 Hw)). cbv beta.
  rewrite (bind_Ret _ _ _ _ _ (run_value hf b l1 x l2 Hw)). cbv beta.
  destruct (yield (it_Key x) (it_Value x) y) as [[] y']; [|exists b; split; [done|by apply (moved_tree hf)]].
  destruct (run_Next zeroK cmp hf fuel b l1 x l2 Hw Hfuel) as (h & p & i & c & Hrun & Hres).
  assert (Hnext : mNext zeroK fuel b = (Ret (negb (bool_decide (l2 = []))), moved b h p i c))
    by (unfold mNext, drop_error; by rewrite Hrun).
  rewrite (bind_Ret _ _ _ _ _ Hnext). cbv beta. destruct l2 as [|x2 l2].
  - destruct rounds as [|rounds]; [simpl in Hr; lia|]. exists (moved b h p i c). by split.
  - destruct (IH l2 (l1 ++ [x]) (moved b h p i c) x2 y' Hres) as (b' & H1 & H2).
    { by rewrite <- app_assoc. }
    { simpl in *. lia. }
    exists b'. rewrite <- app_assoc in H2. by split.
Qed.

(** The tree that [NewBtree] makes satisfies the invariant. *)
Lemma NewBtree_inv nc u fresh : fresh ≠ 0%N → tree_inv (V := V) cmp 4 (NewBtree zeroK nc u fresh) [].
Proof.
  intros Hf. assert (H8 : slot_length 8 = Z.of_nat (2 * 4)) by done.
  apply New_inv; try done; unfold MaxSlotLength; lia.
Qed.

(** C33: on a tree that holds the items [l], [All] hands the consumer the keys and
    values of [l] in order, up to the one after which the consumer stops, returns
    what the consumer made of them, and keeps every invariant and item of the
    tree; one turn per item, and one more, are enough for its loop. *)
Theorem All_exact {Y} (yield : K → option V → Y → bool * Y) hf rounds fuel (b : Btree) l y :
  tree_inv cmp hf b l → 2 * length l ≤ fuel → S (length l) < rounds →
  ∃ b', All zeroK yield rounds fuel y b = (Ret (visit yield (contents l) y), b') ∧ tree_inv cmp hf b' l.
Proof.
  intros Hinv Hfuel Hr. pose proof (run_First zeroK cmp hf fuel b l Hinv ltac:(lia)) as Hrun.
  unfold All, mFirst, drop_error. destruct l as [|x l].
  - exists b. erewrite bind_Ret by (by rewrite Hrun). cbv beta.
    destruct rounds as [|rounds]; [lia|]. cbn [all_loop]. by split.
  - destruct Hrun as (h & p & i & c & Hrun & Hw).
    erewrite bind_Ret by (by rewrite Hrun). cbv beta.
    apply (run_all_loop yield hf rounds fuel l [] _ x y Hw Hfuel). simpl in Hr. lia.
Qed.
End iteration.
