(* ===== verification/BtreeExamples.v ===== *)
(** * The B-tree on concrete runs: witnesses, and where the code differs from its
    intent

    The trees have integer keys and values and a tracker that logs the keys of the
    items it is told were added or removed. *)

From S2P Require Import Prelude Handle BtreeModel BtreeOps BtreeSpec BtreeProps BtreeAdd.
From S2P Require Import BtreeInsert Inmemory.

Inductive logged := Added (key : Z) | Removed (key : Z).

#[global] Instance log_tracker : Tracker (list logged) Z Z := {|
  tracker_error := Empty_set;
  tk_Add x t := (Ok x, t ++ [Added (it_Key x)]);
  tk_Get x t := (Ok x, t);
  tk_Update x t := (Ok x, t);
  tk_Remove x t := (Ok x, t ++ [Removed (it_Key x)])
|}.

Definition zcmp (a b : Z) : Z := (a - b)%Z.

#[global] Instance zcmp_comparer : Comparer zcmp.
Proof. split; unfold zcmp; lia. Qed.

Definition ztree : Type := Btree (list logged) Z Z.

Definition store_info (slotLength : Z) (balancing : bool) : StoreInfo :=
  mkStoreInfo slotLength true balancing 0 NilUUID true false false.
Definition new_tree (slotLength : Z) (balancing : bool) : ztree :=
  New 0%Z (store_info slotLength balancing) [] 1.

Inductive tree_op := OAdd (k : Z) | ORemove (k : Z).
Definition run_op (b : ztree) (o : tree_op) : outcome (btree_error Empty_set) bool * ztree :=
  match o with
  | OAdd k => Add zcmp 0%Z 60 k k b
  | ORemove k => Remove zcmp 0%Z 60 k b
  end.
Definition run_ops (b : ztree) (os : list tree_op) : ztree := foldl (λ b o, (run_op b o).2) b os.

(** The keys that [First] and then [Next] visit. *)
Fixpoint scan (rounds : nat) (b : ztree) : list Z :=
  match rounds with
  | O => []
  | S rounds =>
      match GetCurrentKey 0%Z b with
      | (Ret x, b) =>
          it_Key x :: match Next 0%Z 60 b with (Ret true, b) => scan rounds b | _ => [] end
      | _ => []
      end
  end.
Definition keys (b : ztree) : list Z :=
  match First 0%Z 60 b with (Ret true, b) => scan 200 b | _ => [] end.

(** Twenty insertions in a mixed order, with splits up to three levels. *)
Definition ex_keys : list Z :=
  [5; 3; 8; 1; 9; 2; 7; 4; 6; 10; 15; 13; 18; 11; 19; 12; 17; 14; 16; 20]%Z.
Definition ex_tree : ztree := run_ops (new_tree 4 false) (map OAdd ex_keys).

Example ex_tree_keys : keys ex_tree = (Z.of_nat <$> seq 1 20).
Proof. vm_compute. reflexivity. Qed.

Definition ex_items : list (Item Z Z) :=
  default [] (tree_items 3 ex_tree NilUUID (si_RootNodeID (b_StoreInfo ex_tree))).

#[global] Instance item_le_dec x y : Decision (item_le (V := Z) zcmp x y).
Proof. unfold item_le. apply _. Defined.

(** A decidable form of the order, for concrete lists. *)
Fixpoint sortedb (l : list (Item Z Z)) : bool :=
  match l with
  | [] => true
  | x :: rest => forallb (λ y, bool_decide (item_le zcmp x y)) rest && sortedb rest
  end.
Lemma sortedb_sound l : sortedb l = true → sorted zcmp l.
Proof.
  induction l as [|x l IH]; cbn [sortedb]; [constructor|].
  rewrite andb_true_iff. intros [H1 H2]. constructor; [by apply IH|].
  apply Forall_forall. intros y Hy. rewrite forallb_forall in H1.
  apply list_elem_of_In in Hy. by apply (bool_decide_eq_true_1 _ (H1 y Hy)).
Qed.

Lemma ex_tree_ok : btree_ok zcmp 3 ex_tree ex_items.
Proof.
  constructor.
  - apply tree_items_sound. vm_compute. reflexivity.
  - apply sortedb_sound. vm_compute. reflexivity.
  - vm_compute. reflexivity.
  - vm_compute. reflexivity.
Qed.

Lemma ex_cursor_ok : cursor_ok ex_tree ex_items.
Proof. left. vm_compute. reflexivity. Qed.

Lemma Find_exact_witness :
  ∃ r b', Find zcmp 0%Z 3 7%Z true ex_tree = (Ret r, b') ∧
    (r = true ↔ ∃ x, x ∈ ex_items ∧ hits zcmp 7%Z x).
Proof.
  destruct (Find_exact zcmp 0%Z 3 3 ex_tree ex_items 7%Z true) as (r & b' & H1 & _ & _ & _ & H2 & _).
  - apply ex_tree_ok.
  - apply ex_cursor_ok.
  - reflexivity.
  - exists r, b'. split; [exact H1|exact H2].
Defined.

Lemma First_Last_exact_witness :
  ∃ x b', Last 0%Z 3 ex_tree = (Ret true, b') ∧ last ex_items = Some x ∧ at_item b' ex_items x.
Proof.
  destruct (First_Last_exact zcmp 0%Z 3 3 ex_tree ex_items) as [_ (x & b' & H1 & H2 & _ & _ & H3 & _)].
  - apply ex_tree_ok.
  - reflexivity.
  - exists x, b'. split; [exact H1|split; [exact H2|exact H3]].
Defined.

(** ** Insertions: the witnesses *)

(** A run with splits at two levels and a duplicate. *)
Definition ex_kvs : list (Z * Z) := (λ k, (k, k)) <$> (ex_keys ++ [7]%Z).

Lemma log_total : ∀ (x : Item Z Z) (tk : list logged), ∃ y tk', tk_Add x tk = (Ok y, tk').
Proof. intros x tk. by eexists _, _. Qed.

Lemma new_tree_inv : tree_inv zcmp 2 (new_tree 4 false) [].
Proof. apply New_inv; (done || lia). Qed.

(** The tree after the run without the duplicate, with its items. *)
Definition ex_built : ztree := (run_adds zcmp 0%Z 60 ((λ k, (k, k)) <$> ex_keys) (new_tree 4 false)).2.

Lemma ex_run_inv : ∃ l, tree_inv zcmp 2 ex_built l ∧
  contents l = (λ k, (k, Some k)) <$> (Z.of_nat <$> seq 1 20).
Proof.
  unfold ex_built.
  destruct (run_adds_spec zcmp 0%Z 2 60 true ((λ k, (k, k)) <$> ex_keys) ltac:(lia) log_total (new_tree 4 false) []
    new_tree_inv eq_refl ltac:(simpl; lia) ltac:(simpl; lia)) as (b' & l' & H1 & H2 & H3).
  rewrite H1. exists l'. split; [done|]. rewrite H3. vm_compute. reflexivity.
Qed.

Lemma contents_length (l : list (Item Z Z)) m : contents l = m → length l = length m.
Proof. intros <-. unfold contents. by rewrite length_fmap. Qed.

(** Only keys from 1 to 20 are there. *)
Lemma ex_not_dup (b : ztree) l : contents l = (λ k, (k, Some k)) <$> (Z.of_nat <$> seq 1 20) →
  ¬ duplicate zcmp b l 21%Z.
Proof.
  intros Hc [_ (x & Hx & Hh)].
  assert (He : (it_Key x, it_Value x) ∈ contents l) by (apply list_elem_of_fmap; by exists x).
  rewrite Hc in He. apply list_elem_of_fmap in He as (k & E & Hk).
  apply list_elem_of_fmap in Hk as (n & -> & Hn). apply elem_of_seq in Hn.
  unfold hits, zcmp in Hh. simplify_eq. lia.
Qed.

Lemma Add_exact_witness : ∃ b' l,
  Add zcmp 0%Z 60 21%Z 21%Z ex_built = (Ret true, b') ∧
  tree_inv zcmp 2 b' l.
Proof.
  destruct ex_run_inv as (l & Hinv & Hc). pose proof (contents_length _ _ Hc) as Hl. 
  destruct (Add_exact zcmp 0%Z 2 60 _ l 21%Z 21%Z ltac:(lia) Hinv
    ltac:(rewrite Hl; simpl; lia) ltac:(rewrite Hl; simpl; lia)) as (_ & Hok & _).
  destruct (Hok (ex_not_dup _ _ Hc) _ _ eq_refl) as (b' & H1 & _ & _ & H2).
  exists b', (insert_item zcmp (new_item ex_built 21%Z 21%Z) l).
  split; [exact H1|exact H2].
Defined.

Lemma Adds_refine_witness : ∃ b' l,
  run_adds zcmp 0%Z 60 ex_kvs (new_tree 4 false) = (Ret (replicate 20 true ++ [false]), b') ∧
  contents l = (λ k, (k, Some k)) <$> (Z.of_nat <$> seq 1 20).
Proof.
  destruct (Adds_refine zcmp 0%Z (store_info 4 false) [] 1%N 2 60 ex_kvs) as (b' & l & H1 & _ & H2).
  - lia.
  - unfold MaxSlotLength. lia.
  - reflexivity.
  - reflexivity.
  - reflexivity.
  - reflexivity.
  - reflexivity.
  - discriminate.
  - exact log_total.
  - simpl. lia.
  - simpl. lia.
  - exists b', l. split; [exact H1|exact H2].
Defined.

Lemma Add_then_Find_witness : ∃ b1 b2,
  Add zcmp 0%Z 60 21%Z 21%Z ex_built = (Ret true, b1) ∧
  Find zcmp 0%Z 60 21%Z true b1 = (Ret true, b2).
Proof.
  destruct ex_run_inv as (l & Hinv & Hc). pose proof (contents_length _ _ Hc) as Hl.
  destruct (Add_then_Find zcmp 0%Z 2 60 ex_built l 21%Z 21%Z (new_item ex_built 21%Z 21%Z)
    (b_tracker ex_built ++ [Added 21%Z])) as (b1 & b2 & H1 & H2 & _).
  - lia.
  - exact Hinv.
  - rewrite Hl. simpl. lia.
  - rewrite Hl. simpl. lia.
  - vm_compute. reflexivity.
  - exact (ex_not_dup _ _ Hc).
  - reflexivity.
  - exists b1, b2. split; [exact H1|exact H2].
Defined.

(** ** The iterator *)

(** An in-memory tree with forty items, so with nodes on two levels. *)
Definition mem_keys : list Z := (λ n, (Z.of_nat n * 7) `mod` 41)%Z <$> seq 1 40.
Definition mem_tree : Btree () Z Z :=
  (run_adds zcmp 0%Z 60 ((λ k, (k, 10 * k)%Z) <$> mem_keys) (NewBtree 0%Z false true 1%N)).2.

Lemma mem_tree_inv : ∃ l, tree_inv zcmp 4 mem_tree l ∧
  contents l = (λ n, (Z.of_nat n, Some (10 * Z.of_nat n)%Z)) <$> seq 1 40.
Proof.
  unfold mem_tree.
  destruct (run_adds_spec (T := ()) zcmp 0%Z 4 60 true ((λ k, (k, 10 * k)%Z) <$> mem_keys) ltac:(lia)
    ltac:(intros x []; by exists x, ()) (NewBtree 0%Z false true 1%N) []
    ltac:(by apply NewBtree_inv) eq_refl ltac:(simpl; lia) ltac:(simpl; lia)) as (b' & l' & H1 & H2 & H3).
  rewrite H1. exists l'. split; [done|]. rewrite H3. vm_compute. reflexivity.
Qed.

(** A consumer that adds up the values and stops after the key 30. *)
Definition sum_until (k : Z) (v : option Z) (s : Z) : bool * Z := ((k <? 30)%Z, (s + default 0 v)%Z).

Lemma All_exact_witness : ∃ b' l, tree_inv zcmp 4 mem_tree l ∧
  All 0%Z sum_until 42 80 0%Z mem_tree = (Ret 4650%Z, b') ∧ tree_inv zcmp 4 b' l.
Proof.
  destruct mem_tree_inv as (l & Hinv & Hc). pose proof (contents_length _ _ Hc) as Hl.
  destruct (All_exact zcmp 0%Z sum_until 4 42 80 mem_tree l 0%Z Hinv
    ltac:(rewrite Hl; simpl; lia) ltac:(rewrite Hl; simpl; lia)) as (b' & H1 & H2).
  exists b', l. split; [exact Hinv|]. split; [|exact H2]. rewrite H1, Hc. reflexivity.
Defined.

(** ** Findings *)

(** Removing an item of an inner node whose children are both there moves its
    successor up from the leaf and removes it there; [fixVacatedSlot] (or the
    nil-child branch) then tells the tracker that the successor was removed.  Here
    5 is removed from the tree and the removal of 6 is registered. *)
Example remove_registers_successor :
  let '(r, b) := run_op ex_tree (ORemove 5) in
  r = Ret true ∧ keys b = ([1; 2; 3; 4] ++ (Z.of_nat <$> seq 6 15))%Z ∧
  last (b_tracker b) = Some (Removed 6).
Proof. vm_compute. repeat split. Qed.

(** [add] leaves the cursor at a duplicate it met, and a later split empties that
    slot: [Find] then takes the zero key of the empty slot for the current key and
    reports a key that was never added. *)
Example find_stale_cursor :
  let b := run_ops (new_tree 2 false) [OAdd 5; OAdd 6; OAdd 6; OAdd 7] in
  keys b = [5; 6; 7]%Z ∧ (Find zcmp 0%Z 60 0%Z false b).1 = Ret true.
Proof. vm_compute. repeat split. Qed.

(** With leaf load balancing, the branch of [addOnLeaf] that splits a full leaf of
    an unbalanced branch under itself does not reset the count of the node, so an
    empty slot becomes an item: the scan meets the zero key, which was not added. *)
Example unbalanced_split_ghost :
  let b := run_ops (new_tree 2 true)
    [OAdd 20; OAdd 35; OAdd 33; OAdd 24; OAdd 5; OAdd 39; OAdd 28; OAdd 10; OAdd 21; OAdd 8;
     OAdd 7; ORemove 8; OAdd 19; ORemove 7; OAdd 9; OAdd 6] in
  keys b = [5; 6; 9; 0; 10; 19; 20; 21; 24; 28; 33; 35; 39]%Z.
Proof. vm_compute. reflexivity. Qed.

(** [New] sizes the temporary buffers with the slot length as it was stored, while
    the nodes use [getSlotLength], which clamps it: a stored length of 1 makes the
    third insertion index past the buffer. *)
Example unclamped_buffers :
  (run_op (run_ops (new_tree 1 false) [OAdd 1; OAdd 2]) (OAdd 3)).1 = Panic.
Proof. vm_compute. reflexivity. Qed.

(** An odd slot length, which [getSlotLength] lets through, loses the last item of
    every split: here 4 is gone. *)
Example odd_slot_length_loses :
  let b := run_ops (new_tree 3 false) (map OAdd [1; 2; 3; 4; 5; 6]%Z) in
  keys b = [1; 2; 3; 5; 6]%Z ∧ si_Count (b_StoreInfo b) = 6%Z.
Proof. vm_compute. repeat split. Qed.
